(* ===== verification/_CoqProject ===== *)
-Q . S2P
Prelude.v
Types.v
Messages.v
ValidatorSet.v
Quorum.v
DoubleSign.v
Slashing.v
Evidence.v
Utf8.v
Digits.v
Execution.v
Engine.v
EngineProofs.v
EngineRun.v
UserAccess.v
KernelBridge.v
Sync.v
Dns.v
Gossip.v
GossipNet.v
Pipe.v
Buddy.v
FrameAlloc.v
Slab.v
SlabBuddy.v
FdTable.v
Sched.v
SmpSched.v
Signal.v
Process.v
Elf.v
Ipc.v
IonaFs.v
IonaFsProofs.v
IonaFsSync.v
EvmWords.v
Evm.v
EvmState.v
EvmProofs.v
EvmRun.v
Redb.v
RedbManager.v
Paging.v
CowTree.v
CowFork.v
CowSystem.v
CowAlloc.v
