(* ===== verification/Prelude.v ===== *)
(** * A verification library for IONA OS

    IONA OS is a kernel, written in Rust, that runs a Tendermint-style
    blockchain node. This library models its consensus and ledger code and some
    of its core kernel services as Rocq definitions that can be evaluated, and
    proves what makes them correct. File names below are relative to [src/src]
    in the repository.

    ** The program and its models

    The consensus node. A validator's engine is driven by timer ticks and by
    messages. It proposes blocks, signs and counts votes, locks, commits, and
    reports double signing.
    - [Types]: [types.rs]. Hashes, heights, headers and blocks with their
      validation and identity. [Crypto] is the class of hash and signature
      functions, which the source takes from elsewhere.
    - [Messages]: [consensus/messages.rs]. Proposals, votes, evidence, their
      validation, the bytes that are signed, and the wire format.
    - [ValidatorSet]: [consensus/validator_set.rs]. The set as the source keeps
      it: a list, a lookup table and a cached total power.
    - [Quorum]: [consensus/quorum.rs]. The quorum threshold and the vote tally.
    - [DoubleSign]: [consensus/double_sign.rs]. The guard a validator asks before
      it signs, with its file.
    - [Slashing] and [Evidence]: [slashing.rs] and [evidence.rs]. Stakes,
      penalties, and the validation and application of evidence.
    - [Execution] with [Utf8]: [execution.rs]. Gas and fees, transactions, blocks
      and roots. [Utf8] models the decoding and splitting of strings in Rust's
      standard library.
    - [Engine]: [consensus/engine.rs], the engine itself, one definition per
      method, in a monad over the engine, the block store and the events sent.
      [EngineProofs] has the program logic of that monad and the invariant of
      every method. [EngineRun] has the runs of a node and the theorems.
    - [Sync]: [consensus/sync.rs], fetching blocks from peers at start-up, with the
      network as the environment.
    - [Dns]: [net/dns.rs], the resolver the node finds peers with. [Digits] models
      the printing and parsing of numbers in Rust's standard library.
    - [Gossip]: [blockchain/gossipsub.rs], the nodes that pass messages on;
      [GossipNet] puts them in a network.
    - [EvmWords], [Evm]: [blockchain/revm_port.rs], the EVM: 256-bit words and
      Keccak, the state database, one definition per group of opcodes in a monad
      over the machine, and transactions. [EvmState] has the database's
      properties, [EvmProofs] a program logic and what every opcode keeps,
      [EvmRun] the theorems on runs and transactions.
    - [KernelBridge]: the kernel side, in [consensus/engine.rs] (from
      [KernelCommitCert] on) and [consensus/mod.rs]: the tick system call and the
      atomic height.

    Kernel services.
    - [UserAccess]: [syscall/user_access.rs], the safe-copy flags of
      [arch/x86_64/percpu/mod.rs], the kernel branch of the page-fault handler and
      the general protection handler in [arch/x86_64/idt.rs], and [exit_current] of
      [sched/mod.rs], which they call and which waits for a lock it holds.
    - [Pipe]: [process/pipe/mod.rs] with the wait queue of [wait/mod.rs] and
      blocking and waking of [sched/mod.rs]. A call that sleeps is two
      definitions, up to the sleep and from the wake-up on.
    - [Buddy]: [mm/buddy/mod.rs], the buddy allocator of physical pages.
    - [FrameAlloc]: [memory/frame_alloc.rs], the frame bitmap and the reference
      counts of copy-on-write sharing, with the frames that [memory/heap.rs] takes
      before counting starts.
    - [Slab]: [mm/slab/mod.rs], caches of objects cut from pages of a source;
      [SlabBuddy] shows that [Buddy] is such a source.
    - [FdTable]: [process/fd/mod.rs], the tables of file descriptors of the tasks,
      shared or copied, with the calls that a close makes elsewhere.
    - [Sched]: [sched/mod.rs] with the tasks of [task/mod.rs], the scheduler of the
      boot processor. [SmpSched]: [smp/scheduler.rs], one scheduler a processor,
      with stealing; a call that takes several locks in turn is several steps.
    - [Signal]: [signal/mod.rs], pending signals, handlers and delivery.
    - [Process]: [process/fork/mod.rs], the registry of processes: fork, exec, exit and
      waitpid as sequences of locked sections, over [FdTable] and [Signal].
    - [Elf]: [elf/mod.rs], the ELF loader, with [get_needed_libs] of
      [elf/dynlink.rs]; the header parser of the package xmas-elf is a parameter.
    - [Ipc]: [process/ipc.rs], message queues with priorities and permissions; a
      blocking call is a turn that may be repeated after a sleep, and a sender that
      sleeps keeps the lock of the configuration.
    - [IonaFs]: [fs/ionafs/mod.rs], the journaled file system: cache, index,
      journal, both disk formats, listing, checks and file locks. A call gives the
      sector writes it issues, and a power failure keeps a prefix of them.
      [IonaFsProofs] relates the disk to the files it holds through every such
      prefix; [IonaFsSync] has the second format, listing, locks and the cases in
      which files are lost.
    - [Redb] and [RedbManager]: [blockchain/redb_adapter.rs], databases as pages in
      files, with cache and write buffer, and the manager with its shared handles.
    - [Paging]: [process/fork/mod.rs] (cloning page tables and the copy-on-write
      fault) and [process/address_space.rs]. Page tables are words of a physical
      memory, the processor walks them, and the frame allocator is an interface.
      [CowTree] has address spaces as trees and what cloning does to one, [CowFork]
      processes that share frames, [CowSystem] runs of processes, and [CowAlloc]
      shows that [FrameAlloc] has the interface.

    ** Conventions

    A machine integer is a [Z] and the operators wrap or saturate as in the
    source; the release profile has no overflow checks. A panic is [None]. A
    [Result] is [result], with [let?] for the question mark. A struct is a
    record, updated with [r <| field := v |>]. A [BTreeMap] is a [gmap], iterated
    with [btree_iter]. Code outside the repository is a class whose laws, where a
    proof needs one, are named: [Crypto], [MessageCodec] and [GuardCodec] (serde
    with bincode or postcard), [SyncCodec], [EntryFrame] (page table entries), [ExecEnv] (among others the call of an EVM, which
    is not the one of [Evm]), [PageSource], [IdleTasks], [Heap], [Signer],
    [BlockStore] and [Executor]. Log lines and Prometheus counters are left out;
    the atomic counters of the components are kept. Some calls in the source do
    not match the signature they call; the file's header says how such a call is
    read.

    ** What the theorems show

    Consensus. Whatever peers send, a node does not panic; it commits only with
    the precommits of a quorum, precommits only on a prevote quorum, never
    equivocates while its guard is on and within its capacity, keeps to its decision,
    and accuses only
    validators that double signed. Two conflicting commits of one round convict
    more than a third of the power. Below that: quorum intersection, the tally,
    the consistency of validator sets, fair rotation of proposers, the guard
    across restarts, injectivity of signing bytes, and the wire round trip.

    Ledger. Slashing creates no stake when every validator enters with some, evidence
    is sound and applied once, a block one node builds is accepted by all, a verified
    block commits to its effects, block sync moves the height only by received blocks,
    one a step, and never beyond what a peer claims, DNS responses are parsed exactly,
    a gossiped message that is new and not too large reaches every node of a small
    network once, a transaction cannot be replayed, and the base fee moves by at most
    an eighth.

    EVM. Every run ends and keeps its machine well formed; a call creates no money
    and, unless it creates contracts, is undone when it fails; committed accounts
    are read back after a restart; addition and subtraction are exact modulo
    2^256. Many lemmas show where the interpreter departs from the EVM: panics a
    contract can cause, lost writes, minted value, a hash that is not Keccak-256.

    Kernel. User copies change memory only in their range of user space, and a copy of
    mapped bytes returns; a fault in one is recognised under any interleaving of CPUs
    but ends in a deadlock, and only a string read past user space can panic the
    kernel. Pipes are reliable byte streams under any interleaving of tasks. The page
    allocator never panics and, for clients that free what they got, neither loses a
    page nor hands one out twice; a frame is free exactly when nobody holds a
    reference and the heap did not take it. Objects of the slab allocator never
    overlap when its page source hands out fresh pages, and a second free is caught.
    Descriptor tables are maps from descriptors to files, shared or copied as the call
    says. No task is duplicated or starved by one of its own priority, on one processor
    or on several that steal from each other, and none is lost except where a processor
    takes a second lent task. Signals are delivered once and in order. Each exited child
    is reported by waitpid once, with its code. Message queues deliver each message at
    most once, by priority and then by arrival, and keep it until their queue is cleared
    or closed. The ELF loader maps segments byte for byte. After a fork, whatever processes write, each sees its
    own memory only, as long as no page is huge. The file system is a table of files through
    reboots and power failures during writes and renamings, for at most 120 files
    with names of at most 47 bytes and renamings to free names; deletions are
    taken to complete, and a lemma shows what one cut short can do. A database is an
    array of bytes, whatever its cache and buffer do. The height never goes down.

    Each file also has lemmas that show, by evaluation or in general, where the
    code departs from what it or its documentation says; their comments say so.

    ** Fuel and bounds

    Loops over a list are structural. [region_loop] of [Buddy] takes the number
    of pages as fuel, and every turn uses up at least one; [pick_order],
    [find_order] and [merge_loop] count orders; [find_free] of [FrameAlloc] counts
    the frames of its range. [write_loop] and [read_loop] of
    [Pipe] count bytes, and [cstr_loop] of [UserAccess] the 4095 bytes of the
    source's limit. The loop of the EVM has as bound its gas times the length of
    the code, and sub-calls nest at most three levels deeper than the gas pays for
    CREATEs; both bounds are computed from the machine and [evm_terminates] shows
    that they are never reached. [absorb] of Keccak counts bytes, and [read_at] and
    [write_at] of [Redb] do at most one turn a byte. [skip_loop] of [Dns] and
    [dynamic_loop] of [Elf] go forward in a packet or file, whose length is the fuel. The totality theorems ([engine_never_panics],
    [buddy_progress], [user_access_safe], [drain_to_eof]) show that no result is
    lost to fuel. Theorems about sums of powers or fees ask for sums that fit 64
    bits; separate lemmas show what happens beyond.

    ** What is not modelled

    Drivers, interrupts, boot, the graphical interface, the shell and the
    user-space programs: hardware access or plumbing. Networking, WebAssembly and
    cryptography: mostly code of other packages or numeric kernels. Mapping and
    unmapping single pages is done by the mapper of the package x86_64. Not modelled
    yet, and candidates for the next files: futexes, seccomp filters, FAT32,
    cgroups and namespaces, and degraded mode. *)

From Stdlib Require Import ZArith Lia Bool.
From stdpp Require Import base gmap sets list strings sorting numbers orders option.

Global Generalizable All Variables.
Local Open Scope Z_scope.

(** ** Results: Rust's [Result<T, E>]. *)

Inductive result (T E : Type) : Type :=
| Ok (t : T)
| Err (e : E).
Arguments Ok {T E} t.
Arguments Err {T E} e.

Declare Scope rust_scope.
Delimit Scope rust_scope with rust.

(** The [?] operator: an error is returned at once, a value is bound. *)
Definition result_bind {T U E} (r : result T E) (f : T → result U E) : result U E :=
  match r with Ok t => f t | Err e => Err e end.

Notation "'let?' x ':=' r 'in' k" := (result_bind r (λ x, k))
  (at level 10, x name, r at level 100, k at level 200) : rust_scope.

Definition is_ok {T E} (r : result T E) : bool :=
  match r with Ok _ => true | Err _ => false end.

Definition is_err {T E} (r : result T E) : bool := negb (is_ok r).

Definition ok_or {T E} (o : option T) (e : E) : result T E :=
  match o with Some t => Ok t | None => Err e end.

Definition result_opt {T E} (r : result T E) : option T :=
  match r with Ok t => Some t | Err _ => None end.

(** ** Machine integers. A [u64], [u32] or [usize] value is a [Z] in range;
    the operators of the source are written out. The kernel is built with the
    release profile, which leaves overflow checks off, so [+], [-] and [*]
    wrap around. *)

Definition U8_MAX : Z := 2 ^ 8 - 1.
Definition U32_MAX : Z := 2 ^ 32 - 1.
Definition U64_MAX : Z := 2 ^ 64 - 1.

Definition wrap64 (z : Z) : Z := z `mod` 2 ^ 64.
Definition wrap32 (z : Z) : Z := z `mod` 2 ^ 32.

Definition u64_ok (z : Z) : Prop := 0 ≤ z ≤ U64_MAX.
Definition u32_ok (z : Z) : Prop := 0 ≤ z ≤ U32_MAX.
Definition byte_ok (z : Z) : Prop := 0 ≤ z ≤ U8_MAX.

Definition add64 (a b : Z) : Z := wrap64 (a + b).
Definition sub64 (a b : Z) : Z := wrap64 (a - b).
Definition mul64 (a b : Z) : Z := wrap64 (a * b).

Definition sat_add64 (a b : Z) : Z := Z.min (a + b) U64_MAX.
Definition sat_add32 (a b : Z) : Z := Z.min (a + b) U32_MAX.
Definition sat_sub (a b : Z) : Z := Z.max (a - b) 0.

Lemma wrap64_small z : u64_ok z → wrap64 z = z.
Proof. unfold u64_ok, U64_MAX, wrap64. intros. apply Z.mod_small. lia. Qed.

Lemma wrap32_small z : u32_ok z → wrap32 z = z.
Proof. unfold u32_ok, U32_MAX, wrap32. intros. apply Z.mod_small. lia. Qed.

Lemma wrap64_ok z : u64_ok (wrap64 z).
Proof. unfold u64_ok, U64_MAX, wrap64. pose proof (Z.mod_pos_bound z (2^64)). lia. Qed.

Lemma sat_add64_ok a b : u64_ok a → u64_ok b → u64_ok (sat_add64 a b).
Proof. unfold u64_ok, sat_add64, U64_MAX. lia. Qed.

Lemma sat_add64_exact a b : a + b ≤ U64_MAX → sat_add64 a b = a + b.
Proof. unfold sat_add64. lia. Qed.

Lemma sat_sub_ok a b : u64_ok a → 0 ≤ b → u64_ok (sat_sub a b).
Proof. unfold u64_ok, sat_sub, U64_MAX. lia. Qed.

Lemma sat_sub_exact a b : b ≤ a → sat_sub a b = a - b.
Proof. unfold sat_sub. lia. Qed.

(** Goals that are linear arithmetic once the bounds of the machine types are
    written out; [mach_nl] is the same with products. *)
Ltac mach_unfold := unfold u64_ok, u32_ok, byte_ok, U64_MAX, U32_MAX, U8_MAX in *.
Ltac mach := mach_unfold; lia.
Ltac mach_nl := mach_unfold; nia.

Lemma add64_small a b : u64_ok (a + b) → add64 a b = a + b.
Proof. apply wrap64_small. Qed.

Lemma sub64_small a b : u64_ok (a - b) → sub64 a b = a - b.
Proof. apply wrap64_small. Qed.

Lemma mul64_small a b : u64_ok (a * b) → mul64 a b = a * b.
Proof. apply wrap64_small. Qed.

(** The [machine] hints: bounds of results by resolution, and operators that
    stay in range rewritten to the mathematical ones ([autorewrite with machine]). *)
Create HintDb machine.
Create Rewrite HintDb machine.
#[export] Hint Resolve wrap64_ok sat_add64_ok sat_sub_ok : machine.
#[export] Hint Extern 3 (u64_ok _) => mach : machine.
#[export] Hint Rewrite add64_small sub64_small mul64_small using mach : machine.
#[export] Hint Rewrite sat_add64_exact sat_sub_exact using mach : machine.

(** ** Record update: [r <| field := v |>]. A record type declares its
    eta-expansion once ([Settable]); the setter of a field is found by
    abstracting the projection out of it. *)

Class Settable (R : Type) := eta_record : R → R.
Class Setter {R E : Type} (proj : R → E) := set_field : (E → E) → R → R.
Arguments set_field {R E} proj {_} f r.

Ltac derive_setter :=
  match goal with
  | |- @Setter ?R ?E ?proj =>
    let inst := constr:(ltac:(typeclasses eauto) : Settable R) in
    let eta := eval hnf in (inst : R → R) in
    let eta := eval cbv beta in eta in
    match eval pattern proj in eta with
    | ?build _ => exact (λ (f : E → E), build (λ r, f (proj r)))
    end
  end.

#[export] Hint Extern 1 (Setter _) => derive_setter : typeclass_instances.

Declare Scope record_scope.
Notation "r <| proj := v |>" := (set_field proj (λ _, v) r)
  (at level 1, left associativity, proj at level 1, v at level 100) : record_scope.
Open Scope record_scope.

(** ** Ordered keys and the iteration order of [BTreeMap] and [BTreeSet].
    A [BTreeMap] is a [gmap] (equal lookups, equal maps); where the source
    iterates one, the entries come in the order of the keys, which is what
    [btree_iter] gives. [KeyOrd] is the derived [Ord] of the key type. *)

Class KeyOrd (K : Type) := {
  kcmp : K → K → comparison;
  kcmp_eq x y : kcmp x y = Eq ↔ x = y;
  kcmp_sym x y : kcmp y x = CompOpp (kcmp x y);
  kcmp_trans x y z : kcmp x y = Lt → kcmp y z = Lt → kcmp x z = Lt;
}.

Definition kle `{KeyOrd K} (x y : K) : Prop := kcmp x y ≠ Gt.

#[export] Instance kle_dec `{KeyOrd K} (x y : K) : Decision (kle x y).
Proof. unfold kle. apply not_dec. destruct (kcmp x y); [right|right|left]; congruence. Defined.

Section keyord.
Context `{KeyOrd K}.
Implicit Types x y z : K.

Lemma kcmp_refl x : kcmp x x = Eq.
Proof. by apply kcmp_eq. Qed.

#[export] Instance kle_trans : Transitive (kle (K := K)).
Proof.
  intros x y z. unfold kle. intros Hxy Hyz Hxz.
  destruct (kcmp x y) eqn:E1; [|destruct (kcmp y z) eqn:E2|congruence].
  - apply kcmp_eq in E1 as ->. congruence.
  - apply kcmp_eq in E2 as ->. congruence.
  - pose proof (kcmp_trans _ _ _ E1 E2). congruence.
  - congruence.
Qed.

#[export] Instance kle_total : Total (kle (K := K)).
Proof.
  intros x y. unfold kle. rewrite (kcmp_sym x y).
  destruct (kcmp x y); simpl; auto; left; congruence.
Qed.

#[export] Instance kle_antisymm : AntiSymm (=) (kle (K := K)).
Proof.
  intros x y. unfold kle. rewrite (kcmp_sym x y).
  destruct (kcmp x y) eqn:E; simpl; try congruence. by apply kcmp_eq in E.
Qed.
End keyord.

#[export, program] Instance Z_keyord : KeyOrd Z := {| kcmp := Z.compare |}.
Next Obligation. apply Z.compare_eq_iff. Qed.
Next Obligation. intros x y. apply Z.compare_antisym. Qed.
Next Obligation. intros x y z. rewrite !Z.compare_lt_iff. lia. Qed.

Definition cmp_then (c d : comparison) : comparison :=
  match c with Eq => d | _ => c end.

#[export, program] Instance prod_keyord `{KeyOrd A, KeyOrd B} : KeyOrd (A * B) :=
  {| kcmp p q := cmp_then (kcmp p.1 q.1) (kcmp p.2 q.2) |}.
Next Obligation.
  intros A ? B ? [a b] [a' b']; simpl. unfold cmp_then.
  destruct (kcmp a a') eqn:E.
  - apply kcmp_eq in E as ->. rewrite kcmp_eq. split; congruence.
  - split; [congruence|]. intros [= -> ->]. by rewrite kcmp_refl in E.
  - split; [congruence|]. intros [= -> ->]. by rewrite kcmp_refl in E.
Qed.
Next Obligation.
  intros A ? B ? [a b] [a' b']; simpl. rewrite (kcmp_sym a a'), (kcmp_sym b b').
  by destruct (kcmp a a').
Qed.
Next Obligation.
  intros A ? B ? [a b] [a' b'] [a'' b'']; simpl. unfold cmp_then.
  destruct (kcmp a a') eqn:E1; [|destruct (kcmp a' a'') eqn:E2|]; try congruence.
  - apply kcmp_eq in E1 as ->. destruct (kcmp a' a''); eauto using kcmp_trans.
  - apply kcmp_eq in E2 as ->. by rewrite E1.
  - by rewrite (kcmp_trans _ _ _ E1 E2).
Qed.

#[export, program] Instance option_keyord `{KeyOrd A} : KeyOrd (option A) :=
  {| kcmp x y := match x, y with
                 | None, None => Eq | None, Some _ => Lt
                 | Some _, None => Gt | Some a, Some b => kcmp a b end |}.
Next Obligation.
  intros A ? [a|] [b|]; simpl; try (split; congruence). rewrite kcmp_eq. split; congruence.
Qed.
Next Obligation. intros A ? [a|] [b|]; simpl; auto using kcmp_sym. Qed.
Next Obligation. intros A ? [a|] [b|] [c|]; simpl; try congruence. apply kcmp_trans. Qed.

(** Slices and vectors compare lexicographically. *)
Fixpoint list_cmp `{KeyOrd A} (l k : list A) : comparison :=
  match l, k with
  | [], [] => Eq
  | [], _ :: _ => Lt
  | _ :: _, [] => Gt
  | a :: l', b :: k' => cmp_then (kcmp a b) (list_cmp l' k')
  end.

#[export, program] Instance list_keyord `{KeyOrd A} : KeyOrd (list A) :=
  {| kcmp := list_cmp |}.
Next Obligation.
  intros A ? l. induction l as [|a l IH]; intros [|b k]; simpl; try (split; congruence).
  unfold cmp_then. destruct (kcmp a b) eqn:E.
  - apply kcmp_eq in E as ->. rewrite IH. split; congruence.
  - split; [congruence|]. intros [= -> ->]. by rewrite kcmp_refl in E.
  - split; [congruence|]. intros [= -> ->]. by rewrite kcmp_refl in E.
Qed.
Next Obligation.
  intros A ? l. induction l as [|a l IH]; intros [|b k]; simpl; auto.
  rewrite (kcmp_sym a b), IH. by destruct (kcmp a b).
Qed.
Next Obligation.
  intros A ? l. induction l as [|a l IH]; intros [|b k] [|c m]; simpl; try congruence.
  unfold cmp_then.
  destruct (kcmp a b) eqn:E1; [|destruct (kcmp b c) eqn:E2|]; try congruence.
  - apply kcmp_eq in E1 as ->. destruct (kcmp b c); try congruence. apply IH.
  - apply kcmp_eq in E2 as ->. by rewrite E1.
  - by rewrite (kcmp_trans _ _ _ E1 E2).
Qed.

(** An order pulled back along an injection (derived [Ord] of a struct or an
    enum, through the tuple of its tag and fields). *)
Program Definition keyord_via `{KeyOrd B} {A} (f : A → B) (Hf : ∀ x y, f x = f y → x = y) :
  KeyOrd A := {| kcmp x y := kcmp (f x) (f y) |}.
Next Obligation. intros B ? A f Hf x y. rewrite kcmp_eq. naive_solver. Qed.
Next Obligation. intros. apply kcmp_sym. Qed.
Next Obligation. intros B ? A f Hf x y z. apply kcmp_trans. Qed.

(** Strings compare as their bytes. *)
Definition string_bytes (s : string) : list Z := (λ c, Z.of_N (Ascii.N_of_ascii c)) <$> String.list_ascii_of_string s.

Lemma string_bytes_inj s s' : string_bytes s = string_bytes s' → s = s'.
Proof.
  intros Hs. rewrite <-(String.string_of_list_ascii_of_string s), <-(String.string_of_list_ascii_of_string s'). f_equal.
  unfold string_bytes in Hs. refine (list_fmap_eq_inj (λ c, Z.of_N (Ascii.N_of_ascii c)) _ _ _ Hs).
  intros c c' Hc%N2Z.inj. by rewrite <-(Ascii.ascii_N_embedding c), <-(Ascii.ascii_N_embedding c'), Hc.
Qed.

#[export] Instance string_keyord : KeyOrd string := keyord_via string_bytes string_bytes_inj.

Definition btree_iter `{Countable K, KeyOrd K} {V} (m : gmap K V) : list (K * V) :=
  merge_sort (λ p q : K * V, kle p.1 q.1) (map_to_list m).

Definition bset_iter `{Countable K, KeyOrd K} (s : gset K) : list K :=
  merge_sort kle (elements s).

Section btree.
Context `{Countable K, KeyOrd K} {V : Type}.
Implicit Types m : gmap K V.

Lemma btree_iter_perm m : btree_iter m ≡ₚ map_to_list m.
Proof. apply merge_sort_Permutation. Qed.

Lemma elem_of_btree_iter m k v : (k, v) ∈ btree_iter m ↔ m !! k = Some v.
Proof. rewrite btree_iter_perm. apply elem_of_map_to_list. Qed.

Lemma NoDup_fst_btree_iter m : NoDup (btree_iter m).*1.
Proof. rewrite btree_iter_perm. apply NoDup_fst_map_to_list. Qed.

Lemma btree_iter_nil m : btree_iter m = [] ↔ m = ∅.
Proof.
  split.
  - intros Hm. apply map_to_list_empty_iff, Permutation_nil_r.
    rewrite <-Hm. symmetry. apply btree_iter_perm.
  - intros ->. unfold btree_iter. by rewrite map_to_list_empty.
Qed.

Lemma elem_of_bset_iter (s : gset K) k : k ∈ bset_iter s ↔ k ∈ s.
Proof. unfold bset_iter. rewrite merge_sort_Permutation. apply elem_of_elements. Qed.

Lemma bset_iter_sorted (s : gset K) : StronglySorted kle (bset_iter s).
Proof. apply StronglySorted_merge_sort; apply _. Qed.
End btree.

(** Inserting a list of entries one after the other, all in line with a map [m]. *)
Lemma foldl_insert_lookup `{Countable K} {A V} (k : A → K) (v : A → V) (l : list A) (m m0 : gmap K V) p :
  (∀ a, a ∈ l → m !! k a = Some (v a)) →
  foldl (λ m a, <[k a := v a]> m) m0 l !! p = if decide (p ∈ k <$> l) then m !! p else m0 !! p.
Proof.
  revert m0. induction l as [|a l IH]; intros m0 Hl; [by destruct (decide _) as [[]%elem_of_nil|]|].
  cbn [foldl]. rewrite fmap_cons, IH by set_solver. destruct (decide (p ∈ k <$> l)).
  { rewrite decide_True by set_solver. done. }
  destruct (decide (k a = p)) as [<-|Hne].
  - rewrite lookup_insert_eq, decide_True by set_solver. symmetry. apply Hl. set_solver.
  - rewrite lookup_insert_ne, decide_False by set_solver. done.
Qed.

Lemma StronglySorted_fmap {A B} (R : A → A → Prop) (S : B → B → Prop) (f : A → B) l :
  (∀ x y, R x y → S (f x) (f y)) → StronglySorted R l → StronglySorted S (f <$> l).
Proof.
  intros HRS. induction 1 as [|x l Hl IH Hx]; constructor; [done|]. apply Forall_fmap.
  rewrite Forall_forall in Hx |- *. intros y Hy. by apply HRS, Hx.
Qed.

(** Iteration is in the order of the keys. *)
Lemma btree_iter_sorted `{Countable K, KeyOrd K} {V} (m : gmap K V) : StronglySorted kle (btree_iter m).*1.
Proof.
  apply (StronglySorted_fmap (λ p q : K * V, kle p.1 q.1)); [done|].
  assert (Total (λ p q : K * V, kle p.1 q.1)) by (intros x y; apply kle_total).
  assert (Transitive (λ p q : K * V, kle p.1 q.1)) by (intros x y z; apply kle_trans).
  apply StronglySorted_merge_sort; apply _.
Qed.

(** ** Lists *)

Lemma insert_delete_perm {A} (l : list A) i x y :
  l !! i = Some x → <[i:=y]> l ≡ₚ y :: delete i l.
Proof.
  revert i. induction l as [|a l IH]; intros [|i] Hi; simpl in *; [done..|].
  change (delete (S i) (a :: l)) with (a :: delete i l). rewrite IH by done. constructor.
Qed.

(** What the test [a & (a - 1) == 0] shows. *)
Lemma power_of_two a : 0 < a → Z.land a (a - 1) = 0 → ∃ k, 0 ≤ k ∧ a = 2 ^ k.
Proof.
  intros Ha Hl. exists (Z.log2 a). split; [apply Z.log2_nonneg|]. destruct (Z.log2_spec a Ha) as [H1 H2].
  destruct (decide (a = 2 ^ Z.log2 a)) as [|Hne]; [done|]. exfalso.
  assert (Z.log2 (a - 1) = Z.log2 a) as He by (apply Z.log2_unique; [apply Z.log2_nonneg|lia]).
  assert (Z.testbit (Z.land a (a - 1)) (Z.log2 a) = true) as Hb.
  { rewrite Z.land_spec, Z.bit_log2 by done. rewrite <-He at 1. apply Z.bit_log2.
    pose proof (Z.pow_pos_nonneg 2 (Z.log2 a) ltac:(lia) (Z.log2_nonneg a)). lia. }
  by rewrite Hl, Z.bits_0 in Hb.
Qed.

(** Different numbers below [n] are at most [n]. *)
Lemma test_bit mask b : 0 ≤ b → (Z.land mask (Z.shiftl 1 b) =? 0) = negb (Z.testbit mask b).
Proof.
  intros Hb. rewrite Z.shiftl_1_l, Z.land_comm. destruct (Z.testbit mask b) eqn:Ht; simpl.
  - apply Z.eqb_neq. intros H. assert (Z.testbit (Z.land (2 ^ b) mask) b = true) as Hc by (rewrite Z.land_spec, Z.pow2_bits_true by lia; done).
    by rewrite H, Z.bits_0 in Hc.
  - apply Z.eqb_eq, Z.bits_inj_0. intros n. rewrite Z.land_spec. destruct (decide (n = b)) as [->|]; [by rewrite Ht, andb_false_r|].
    by rewrite Z.pow2_bits_false by lia.
Qed.

Lemma filter_all {A} (P : A → Prop) `{∀ x, Decision (P x)} (l : list A) : (∀ x, x ∈ l → P x) → filter P l = l.
Proof.
  induction l as [|x l IH]; intros Hl; [done|]. rewrite filter_cons_True by (apply Hl; by left). f_equal. apply IH. intros y Hy. apply Hl. by right.
Qed.

Lemma NoDup_range_length (l : list Z) n : NoDup l → 0 ≤ n → (∀ x, x ∈ l → 0 ≤ x < n) → Z.of_nat (length l) ≤ n.
Proof.
  intros Hnd Hn Hl. assert (l ⊆+ seqZ 0 n) as Hs%submseteq_length.
  { apply NoDup_submseteq; [done|]. intros x Hx. apply elem_of_seqZ. specialize (Hl x Hx). lia. }
  rewrite length_seqZ in Hs. lia.
Qed.

(** ** Sums over lists and maps. *)

Definition sumZ {A} (f : A → Z) (l : list A) : Z := foldr (λ a s, f a + s) 0 l.

Section sums.
Context {A : Type}.
Implicit Types (f g : A → Z) (l k : list A).

Lemma sumZ_cons f a l : sumZ f (a :: l) = f a + sumZ f l.
Proof. done. Qed.

Lemma sumZ_app f l k : sumZ f (l ++ k) = sumZ f l + sumZ f k.
Proof. induction l; simpl; lia. Qed.

#[export] Instance sumZ_perm f : Proper ((≡ₚ) ==> (=)) (sumZ f).
Proof. induction 1; simpl in *; lia. Qed.

Lemma sumZ_ext f g l : (∀ a, a ∈ l → f a = g a) → sumZ f l = sumZ g l.
Proof. induction l as [|a l IH]; intros Hl; simpl; [done|]. rewrite Hl, IH; set_solver. Qed.

Lemma sumZ_le f g l : (∀ a, a ∈ l → f a ≤ g a) → sumZ f l ≤ sumZ g l.
Proof.
  induction l as [|a l IH]; intros Hl; simpl; [done|].
  pose proof (Hl a ltac:(set_solver)). specialize (IH ltac:(set_solver)). lia.
Qed.

Lemma sumZ_zero l : sumZ (λ _, 0) l = 0.
Proof. induction l; simpl; lia. Qed.

Lemma sumZ_nonneg f l : (∀ a, a ∈ l → 0 ≤ f a) → 0 ≤ sumZ f l.
Proof.
  intros Hl. rewrite <-(sumZ_zero l). by apply sumZ_le.
Qed.

Lemma sumZ_add f g l : sumZ (λ a, f a + g a) l = sumZ f l + sumZ g l.
Proof. induction l; simpl; lia. Qed.

Lemma sumZ_elem_le f l a : (∀ a, a ∈ l → 0 ≤ f a) → a ∈ l → f a ≤ sumZ f l.
Proof.
  intros Hl [k Hk]%elem_of_Permutation. rewrite Hk. simpl.
  assert (0 ≤ sumZ f k); [|lia].
  apply sumZ_nonneg. intros b Hb. apply Hl. rewrite Hk. set_solver.
Qed.

(** A sum over a duplicate-free list is bounded by the sum over a list that
    covers it. *)
Lemma sumZ_submseteq f l k :
  (∀ a, a ∈ k → 0 ≤ f a) → NoDup l → l ⊆ k → sumZ f l ≤ sumZ f k.
Proof.
  intros Hk Hl. revert k Hk. induction Hl as [|a l Ha Hl IH]; intros k Hk Hlk; simpl.
  - by apply sumZ_nonneg.
  - destruct (elem_of_Permutation k a) as [[k' Hk'] _]; [set_solver|].
    rewrite Hk'. simpl. apply Z.add_le_mono_l. apply IH.
    + intros b Hb. apply Hk. rewrite Hk'. set_solver.
    + intros b Hb. assert (b ∈ k) as Hbk by set_solver. rewrite Hk' in Hbk.
      apply elem_of_cons in Hbk as [->|]; done.
Qed.

Lemma sumZ_filter_split f (P : A → Prop) `{∀ a, Decision (P a)} l :
  sumZ f l = sumZ f (filter P l) + sumZ f (filter (λ a, ¬ P a) l).
Proof.
  induction l as [|a l IH]; [done|]. rewrite !filter_cons. simpl.
  repeat case_decide; simpl; try tauto; lia.
Qed.
End sums.

Lemma sumZ_fmap {A B} (f : B → Z) (g : A → B) (l : list A) :
  sumZ f (g <$> l) = sumZ (λ a, f (g a)) l.
Proof. induction l as [|a l IH]; [done|]. rewrite fmap_cons. simpl. by rewrite IH. Qed.

Definition map_sum `{Countable K} {V} (f : K → V → Z) (m : gmap K V) : Z :=
  sumZ (λ p, f p.1 p.2) (map_to_list m).

Section map_sums.
Context `{Countable K} {V : Type}.
Implicit Types (f g : K → V → Z) (m : gmap K V).

Lemma map_sum_empty f : map_sum f (∅ : gmap K V) = 0.
Proof. unfold map_sum. by rewrite map_to_list_empty. Qed.

Lemma map_sum_insert_None f m k v :
  m !! k = None → map_sum f (<[k:=v]> m) = f k v + map_sum f m.
Proof. intros Hk. unfold map_sum. by rewrite map_to_list_insert. Qed.

Lemma map_sum_delete f m k v :
  m !! k = Some v → map_sum f m = f k v + map_sum f (delete k m).
Proof.
  intros Hk. rewrite <-(map_sum_insert_None f (delete k m) k v) by apply lookup_delete_eq.
  by rewrite insert_delete_id.
Qed.

Lemma map_sum_insert f m k v :
  map_sum f (<[k:=v]> m) = f k v - from_option (f k) 0 (m !! k) + map_sum f m.
Proof.
  destruct (m !! k) as [w|] eqn:Hk; simpl.
  - rewrite (map_sum_delete f m k w), <-insert_delete_eq by done.
    rewrite map_sum_insert_None by apply lookup_delete_eq. lia.
  - rewrite map_sum_insert_None by done. lia.
Qed.

Lemma map_sum_ext f g m :
  (∀ k v, m !! k = Some v → f k v = g k v) → map_sum f m = map_sum g m.
Proof.
  intros Hm. apply sumZ_ext. intros [k v] Hkv. by apply Hm, elem_of_map_to_list.
Qed.

Lemma map_sum_le f g m :
  (∀ k v, m !! k = Some v → f k v ≤ g k v) → map_sum f m ≤ map_sum g m.
Proof.
  intros Hm. apply sumZ_le. intros [k v] Hkv. by apply Hm, elem_of_map_to_list.
Qed.

Lemma map_sum_nonneg f m :
  (∀ k v, m !! k = Some v → 0 ≤ f k v) → 0 ≤ map_sum f m.
Proof.
  intros Hm. apply sumZ_nonneg. intros [k v] Hkv. by apply Hm, elem_of_map_to_list.
Qed.

Lemma map_sum_add f g m : map_sum (λ k v, f k v + g k v) m = map_sum f m + map_sum g m.
Proof. apply sumZ_add. Qed.

Lemma map_sum_lookup_le f m k v :
  (∀ k v, m !! k = Some v → 0 ≤ f k v) → m !! k = Some v → f k v ≤ map_sum f m.
Proof.
  intros Hm Hk. rewrite (map_sum_delete f m k v) by done.
  assert (0 ≤ map_sum f (delete k m)); [|lia].
  apply map_sum_nonneg. intros k' v' [_ Hk']%lookup_delete_Some. eauto.
Qed.
End map_sums.

(** ** Little-endian byte strings ([to_le_bytes]). *)

Fixpoint le_bytes (n : nat) (z : Z) : list Z :=
  match n with
  | O => []
  | S n' => z `mod` 256 :: le_bytes n' (z `div` 256)
  end.

Fixpoint le_value (l : list Z) : Z :=
  match l with [] => 0 | b :: l' => b + 256 * le_value l' end.

Lemma length_le_bytes n z : length (le_bytes n z) = n.
Proof. revert z. induction n; intros; simpl; auto. Qed.

Lemma le_value_bytes n z : 0 ≤ z < 256 ^ Z.of_nat n → le_value (le_bytes n z) = z.
Proof.
  revert z. induction n as [|n IH]; intros z Hz.
  - simpl in *. lia.
  - rewrite Nat2Z.inj_succ, Z.pow_succ_r in Hz by lia. simpl. rewrite IH.
    + pose proof (Z.div_mod z 256). lia.
    + split; [apply Z.div_pos; lia|]. apply Z.div_lt_upper_bound; lia.
Qed.

Lemma le_bytes_inj n z z' :
  0 ≤ z < 256 ^ Z.of_nat n → 0 ≤ z' < 256 ^ Z.of_nat n → le_bytes n z = le_bytes n z' → z = z'.
Proof. intros Hz Hz' Heq. rewrite <-(le_value_bytes n z), Heq by done. by apply le_value_bytes. Qed.

(** Big-endian byte strings ([to_be_bytes], [from_be_bytes]). *)
Definition be_bytes (n : nat) (z : Z) : list Z := rev (le_bytes n z).
Definition be_value (l : list Z) : Z := le_value (rev l).

(** [l[off..off+n]], where the range is known to be inside. *)
Definition slice {A} (off n : nat) (l : list A) : list A := take n (drop off l).

Lemma length_slice {A} off n (l : list A) : (off + n ≤ length l)%nat → length (slice off n l) = n.
Proof. intros. unfold slice. rewrite length_take, length_drop. lia. Qed.

Lemma slice_app_l {A} off n (l k : list A) : (off + n ≤ length l)%nat → slice off n (l ++ k) = slice off n l.
Proof.
  intros. unfold slice. rewrite drop_app_le, take_app_le by (rewrite ?length_drop; lia). done.
Qed.

Lemma slice_app_r {A} off n (l k : list A) : slice (length l + off) n (l ++ k) = slice off n k.
Proof. unfold slice. f_equal. apply drop_app_add. Qed.

Lemma slice_mid {A} off n (l k m : list A) : length l = off → length k = n → slice off n (l ++ k ++ m) = k.
Proof. intros <- <-. unfold slice. by rewrite drop_app_length, take_app_length. Qed.

Lemma slice_slice {A} a n b m (l : list A) : (b + m ≤ n)%nat → slice b m (slice a n l) = slice (a + b) m l.
Proof. intros. unfold slice. rewrite skipn_firstn_comm, drop_drop, take_take. f_equal. lia. Qed.

Lemma slice_all {A} n (l : list A) : length l = n → slice 0 n l = l.
Proof. intros <-. unfold slice. by rewrite drop_0, firstn_all. Qed.

Lemma le_value_bound l : Forall byte_ok l → 0 ≤ le_value l < 256 ^ Z.of_nat (length l).
Proof.
  induction 1 as [|b l Hb _ IH]; [done|]. cbn [le_value length].
  rewrite Nat2Z.inj_succ, Z.pow_succ_r by lia. mach.
Qed.

Lemma le_bytes_ok n z : Forall byte_ok (le_bytes n z).
Proof.
  revert z. induction n as [|n IH]; intros z; constructor; [|apply IH].
  pose proof (Z.mod_pos_bound z 256). mach.
Qed.

Lemma le_bytes_value l : Forall byte_ok l → le_bytes (length l) (le_value l) = l.
Proof.
  induction 1 as [|b l Hb _ IH]; [done|]. cbn [le_value length le_bytes]. f_equal.
  - rewrite (Z.mul_comm 256), Z.mod_add by lia. apply Z.mod_small. mach.
  - rewrite (Z.mul_comm 256), Z.div_add, Z.div_small, Z.add_0_l by mach. done.
Qed.

Lemma be_value_bound l : Forall byte_ok l → 0 ≤ be_value l < 256 ^ Z.of_nat (length l).
Proof. intros. unfold be_value. rewrite <-(length_rev l). apply le_value_bound. by apply Forall_rev. Qed.

Lemma le_value_app l k : le_value (l ++ k) = le_value l + 256 ^ Z.of_nat (length l) * le_value k.
Proof.
  induction l as [|b l IH]; [simpl; lia|]. cbn [le_value length app]. rewrite IH, Nat2Z.inj_succ, Z.pow_succ_r by lia. ring.
Qed.

Lemma be_value_app l k : be_value (l ++ k) = be_value l * 256 ^ Z.of_nat (length k) + be_value k.
Proof. unfold be_value. rewrite rev_app_distr, le_value_app, length_rev. ring. Qed.

Lemma be_bytes_ok n z : Forall byte_ok (be_bytes n z).
Proof. unfold be_bytes. apply Forall_rev, le_bytes_ok. Qed.

Lemma length_be_bytes n z : length (be_bytes n z) = n.
Proof. unfold be_bytes. by rewrite length_rev, length_le_bytes. Qed.

Lemma be_value_bytes n z : 0 ≤ z < 256 ^ Z.of_nat n → be_value (be_bytes n z) = z.
Proof. intros. unfold be_value, be_bytes. rewrite rev_involutive. by apply le_value_bytes. Qed.

(** ** Loops with a bound
    [loop_upto f n s] makes up to [n] turns of [f], which goes on with a state
    ([inl]) or ends the loop with a result ([inr]). The bound is binary and is
    not walked down when the loop ends before it. *)

Section loops.
Context {S R : Type} (f : S → S + R).

Fixpoint loop_upto (n : positive) (s : S) : S + R :=
  match n with
  | xH => f s
  | xO m => match loop_upto m s with inl s' => loop_upto m s' | inr r => inr r end
  | xI m => match f s with
            | inl s0 => match loop_upto m s0 with inl s' => loop_upto m s' | inr r => inr r end
            | inr r => inr r
            end
  end.

(** What every turn keeps, or the end establishes, the loop does. *)
Lemma loop_upto_inv (I : S → Prop) (Q : R → Prop) n s :
  (∀ s, I s → match f s with inl s' => I s' | inr r => Q r end) →
  I s → match loop_upto n s with inl s' => I s' | inr r => Q r end.
Proof.
  intros Hf. revert s. induction n as [m IH|m IH|]; intros s Hs; simpl; [|..|by apply Hf].
  - specialize (Hf s Hs). destruct (f s) as [s0|]; [|done]. specialize (IH s0 Hf) as IH0.
    destruct (loop_upto m s0); [by apply IH|done].
  - specialize (IH s Hs) as IH0. destruct (loop_upto m s); [by apply IH|done].
Qed.

(** A loop each turn of which lowers a measure ends within its bound. *)
Lemma loop_upto_ends (I : S → Prop) (μ : S → Z) n s :
  (∀ s, I s → match f s with inl s' => I s' ∧ 0 ≤ μ s' < μ s | inr _ => True end) →
  I s → μ s < Z.pos n → 0 ≤ μ s → ∃ r, loop_upto n s = inr r.
Proof.
  intros Hf Hs Hlt Hpos.
  assert (∀ n s, I s → 0 ≤ μ s →
    match loop_upto n s with inl s' => I s' ∧ 0 ≤ μ s' ∧ μ s' + Z.pos n ≤ μ s | inr _ => True end) as Hn.
  { clear s n Hs Hlt Hpos. induction n as [m IH|m IH|]; intros s Hs Hpos; simpl.
    - specialize (Hf s Hs). destruct (f s) as [s0|]; [|done]. destruct Hf as [H0 ?].
      specialize (IH s0 H0 ltac:(lia)) as IH0. destruct (loop_upto m s0) as [s1|]; [|done].
      destruct IH0 as (H1 & ? & ?). specialize (IH s1 H1 ltac:(lia)). destruct (loop_upto m s1); [|done].
      destruct IH as (? & ? & ?). split_and!; [done|lia|lia].
    - specialize (IH s Hs Hpos) as IH0. destruct (loop_upto m s) as [s1|]; [|done].
      destruct IH0 as (H1 & ? & ?). specialize (IH s1 H1 ltac:(lia)). destruct (loop_upto m s1); [|done].
      destruct IH as (? & ? & ?). split_and!; [done|lia|lia].
    - specialize (Hf s Hs). destruct (f s); [|done]. destruct Hf. split_and!; [done|lia|lia]. }
  specialize (Hn n s Hs Hpos). destruct (loop_upto n s) as [s'|r]; [|by exists r]. lia.
Qed.

(** Both at once. *)
Lemma loop_upto_spec (I : S → Prop) (μ : S → Z) (Q : R → Prop) n s :
  (∀ s, I s → match f s with inl s' => I s' ∧ 0 ≤ μ s' < μ s | inr r => Q r end) →
  I s → μ s < Z.pos n → 0 ≤ μ s → ∃ r, loop_upto n s = inr r ∧ Q r.
Proof.
  intros Hf Hs Hlt Hpos. destruct (loop_upto_ends I μ n s) as [r Hr]; try done.
  - intros s' Hs'. specialize (Hf s' Hs'). by destruct (f s').
  - exists r. split; [done|]. pose proof (loop_upto_inv I Q n s) as Hq. rewrite Hr in Hq. apply Hq; [|done].
    intros s' Hs'. specialize (Hf s' Hs'). destruct (f s'); [by destruct Hf|done].
Qed.
End loops.
