(* ===== verification/Types.v ===== *)
(** * Core protocol types ([src/src/types.rs], [src/src/crypto.rs]).

    Heights, rounds, hashes, keys, block headers and blocks, with the checks
    of [BlockHeader::validate] and [Block::validate]. The hash function
    (blake3), the header encoding (postcard) and signatures are third-party
    code: they are the fields of the [Crypto] interface. *)

From Stdlib Require Import ZArith Lia Bool.
From stdpp Require Import base gmap list strings.
From S2P Require Import Prelude.

Local Open Scope Z_scope.

(** ** Newtypes. [Height(u64)], [Round(u32)], [Hash32([u8; 32])],
    [PublicKeyBytes(Vec<u8>)], [SignatureBytes(Vec<u8>)]: the wrapped value. *)

Abbreviation bytes := (list Z).
Abbreviation Height := Z (only parsing).
Abbreviation Round := Z (only parsing).
Abbreviation Hash32 := (list Z) (only parsing).
Abbreviation PublicKeyBytes := (list Z) (only parsing).
Abbreviation SignatureBytes := (list Z) (only parsing).

(** An [f64] is carried as its bit pattern and never computed with. *)
Abbreviation f64 := Z (only parsing).

Definition HASH_SIZE : nat := 32.

Definition hash_ok (h : Hash32) : Prop := length h = HASH_SIZE ∧ Forall byte_ok h.

Definition Hash32_zero : Hash32 := replicate HASH_SIZE 0.

(** The [while] loop over the 32 bytes of [Hash32::is_zero]. *)
Fixpoint is_zero_from (arr : Hash32) (i : nat) (fuel : nat) : bool :=
  match fuel with
  | O => true
  | S fuel' =>
    match arr !! i with
    | Some b => if b =? 0 then is_zero_from arr (S i) fuel' else false
    | None => true
    end
  end.

Definition Hash32_is_zero (h : Hash32) : bool := is_zero_from h 0 HASH_SIZE.

Definition Height_saturating_sub (h other : Height) : Height := sat_sub h other.

Definition Height_checked_add (h other : Height) : option Height :=
  if h + other <=? U64_MAX then Some (h + other) else None.

(** ** Constants of [types::constants]. *)

Definition MIN_GAS_LIMIT : Z := 1000000.
Definition MAX_GAS_LIMIT : Z := 0xFFFFFFFF.
Definition HEADER_MIN_BASE_FEE : Z := 1.

(** ** Blocks. *)

Record BlockHeader := mkBlockHeader {
  bh_height : Height;
  bh_round : Round;
  parent_id : Hash32;
  state_root : Hash32;
  tx_root_field : Hash32;
  proposer_pk : bytes;
  proposer_addr : string;
  base_fee : Z;
  bh_gas_used : Z;
  gas_limit : Z;
  timestamp_ms : Z;
  bh_coherence : f64;
}.

(** Raw transaction bytes. *)
Abbreviation RawTx := (list Z) (only parsing).

Record Block := mkBlock {
  header : BlockHeader;
  txs : list RawTx;
  coherence : f64;
}.

#[export] Instance BlockHeader_eq_dec : EqDecision BlockHeader.
Proof. solve_decision. Defined.

#[export] Instance Block_eq_dec : EqDecision Block.
Proof. solve_decision. Defined.

(** ** Third-party code: hashing and signatures. *)

Class Crypto := {
  (** [blake3::hash]. *)
  blake3 : bytes → Hash32;
  (** [postcard::to_allocvec(header).unwrap_or_default()]. *)
  encode_header : BlockHeader → bytes;
  (** [V::verify(pk, msg, sig).is_ok()]. *)
  verify_sig : PublicKeyBytes → bytes → SignatureBytes → bool;
  (** [crypto::tx::derive_address]. *)
  derive_address : bytes → string;
}.

Section blocks.
Context `{Crypto}.

Definition BlockHeader_id (h : BlockHeader) : Hash32 := blake3 (encode_header h).

Definition Block_id (b : Block) : Hash32 := BlockHeader_id (header b).

(** [types::tx_root]: zero for no transaction, else the hash of the
    concatenated transaction hashes (the hasher's [update] appends). *)
Definition tx_root (txs : list RawTx) : Hash32 :=
  match txs with
  | [] => Hash32_zero
  | _ => blake3 (concat (blake3 <$> txs))
  end.

Inductive header_error :=
| GenesisParent | GasLimitLow | GasLimitHigh | GasUsedHigh | BaseFeeLow
| ProposerKeyLength | ProposerAddrEmpty | TxRootMismatchHeader.

Definition BlockHeader_validate (h : BlockHeader) : result unit header_error :=
  if (bh_height h =? 0) && negb (Hash32_is_zero (parent_id h)) then Err GenesisParent
  else if gas_limit h <? MIN_GAS_LIMIT then Err GasLimitLow
  else if MAX_GAS_LIMIT <? gas_limit h then Err GasLimitHigh
  else if gas_limit h <? bh_gas_used h then Err GasUsedHigh
  else if base_fee h <? HEADER_MIN_BASE_FEE then Err BaseFeeLow
  else if negb (length (proposer_pk h) =? 32)%nat then Err ProposerKeyLength
  else if bool_decide (proposer_addr h = EmptyString) then Err ProposerAddrEmpty
  else Ok tt.

Definition Block_validate (b : Block) : result unit header_error :=
  (let? _ := BlockHeader_validate (header b) in
   if negb (bool_decide (tx_root (txs b) = tx_root_field (header b)))
   then Err TxRootMismatchHeader else Ok tt)%rust.

(** ** Facts. *)

Lemma is_zero_from_spec arr i fuel :
  is_zero_from arr i fuel = true ↔
  ∀ j b, (i ≤ j < i + fuel)%nat → arr !! j = Some b → b = 0.
Proof.
  revert i. induction fuel as [|fuel IH]; intros i; simpl.
  { split; [intros _ j b Hj; lia|done]. }
  destruct (arr !! i) as [c|] eqn:Hi.
  - destruct (Z.eqb_spec c 0) as [->|Hc].
    + rewrite IH. split; intros Hall j b Hj Hb.
      * destruct (decide (j = i)) as [->|]; [congruence|]. apply (Hall j); [lia|done].
      * apply (Hall j); [lia|done].
    + split; [done|]. intros Hall. exfalso. apply Hc, (Hall i); [lia|done].
  - split; [|done]. intros _ j b Hj Hb.
    apply lookup_ge_None in Hi. apply lookup_lt_Some in Hb. lia.
Qed.

Lemma Hash32_is_zero_spec h :
  length h = HASH_SIZE → Hash32_is_zero h = true ↔ h = Hash32_zero.
Proof.
  intros Hlen. unfold Hash32_is_zero. rewrite is_zero_from_spec. split.
  - intros Hall. apply list_eq. intros i. unfold Hash32_zero.
    destruct (h !! i) as [b|] eqn:Hi.
    + pose proof (lookup_lt_Some _ _ _ Hi).
      rewrite lookup_replicate_2 by lia. f_equal. apply (Hall i); [lia|done].
    + symmetry. apply lookup_ge_None in Hi. apply lookup_ge_None.
      rewrite length_replicate. lia.
  - intros -> j b _ Hj. unfold Hash32_zero in Hj.
    apply lookup_replicate in Hj as [-> _]. done.
Qed.

End blocks.

(** A toy signature scheme: a signature of [msg] by [k] is any non-empty string. *)
Definition ex_crypto : Crypto := {|
  blake3 m := take 32 (m ++ replicate 32 0);
  encode_header h := [bh_height h; bh_round h; timestamp_ms h];
  verify_sig k msg sig := negb (bool_decide (sig = []));
  derive_address _ := "iona1"%string;
|}.
