(* ===== verification/Messages.v ===== *)
(** * Consensus wire messages ([src/src/consensus/messages.rs]) and the
    evidence data type ([src/src/evidence.rs], [mod types]).

    Votes, proposals and evidence, their internal validation, the canonical
    signing bytes and the tagged wire format. The serde encodings (postcard)
    and the [encoded_len]/[is_empty] methods, which no file of the repository
    defines, are fields of [MessageCodec]. *)

From Stdlib Require Import ZArith Lia Bool.
From stdpp Require Import base gmap list strings.
From S2P Require Import Prelude Types.

Local Open Scope Z_scope.

(** ** Data *)

Inductive MessageKind := KProposal | KVote | KEvidence.

Inductive VoteType := Prevote | Precommit.

#[export] Instance VoteType_eq_dec : EqDecision VoteType.
Proof. solve_decision. Defined.

(** The cast [vote_type as u8] and [VoteType::as_u8]. *)
Definition VoteType_as_u8 (vt : VoteType) : Z :=
  match vt with Prevote => 0 | Precommit => 1 end.

#[export] Instance VoteType_countable : Countable VoteType :=
  inj_countable' (λ vt, match vt with Prevote => false | Precommit => true end)
    (λ b, if (b : bool) then Precommit else Prevote) ltac:(by intros []).

#[export] Instance VoteType_keyord : KeyOrd VoteType :=
  keyord_via VoteType_as_u8 ltac:(by intros [] []).

Inductive MessageError :=
| InvalidVoteType (v : Z)
| InvalidProposalSignature
| InvalidVoteSignature
| ZeroBlockId
| EmptyProposerKey
| EmptyVoterKey
| InvalidHeight (h : Z)
| InvalidRound (r : Z)
| MessageTooLarge (size max : Z)
| UnknownMessageKind (k : Z)
| EmptyEvidence
| MetricsError (s : string)
| ConfigError (s : string).

Record Proposal := mkProposal {
  p_height : Height;
  p_round : Round;
  p_proposer : PublicKeyBytes;
  p_block_id : Hash32;
  p_block : option Block;
  p_pol_round : option Round;
  p_signature : bytes;
}.

Record Vote := mkVote {
  v_vote_type : VoteType;
  v_height : Height;
  v_round : Round;
  v_voter : PublicKeyBytes;
  v_block_id : option Hash32;
  v_signature : bytes;
}.

#[export] Instance Proposal_eq_dec : EqDecision Proposal.
Proof. solve_decision. Defined.

#[export] Instance Vote_eq_dec : EqDecision Vote.
Proof. solve_decision. Defined.

Inductive Evidence :=
| DoubleVote (voter : PublicKeyBytes) (height : Height) (round : Round) (vote_type : VoteType)
    (a b : option Hash32) (vote_a vote_b : Vote)
| DoubleProposal (proposer : PublicKeyBytes) (height : Height) (round : Round)
    (a b : option Hash32) (proposal_a proposal_b : option Proposal).

Definition Evidence_offender (e : Evidence) : PublicKeyBytes :=
  match e with
  | DoubleVote voter _ _ _ _ _ _ _ => voter
  | DoubleProposal proposer _ _ _ _ _ _ => proposer
  end.

Definition Evidence_height (e : Evidence) : Height :=
  match e with
  | DoubleVote _ height _ _ _ _ _ _ => height
  | DoubleProposal _ height _ _ _ _ _ => height
  end.

Definition Evidence_round (e : Evidence) : Round :=
  match e with
  | DoubleVote _ _ round _ _ _ _ _ => round
  | DoubleProposal _ _ round _ _ _ _ => round
  end.

Inductive ConsensusMsg :=
| MsgProposal (p : Proposal)
| MsgVote (v : Vote)
| MsgEvidence (e : Evidence).

(** ** Identifiers on the wire *)

Definition MessageKind_as_u8 (k : MessageKind) : Z :=
  match k with KProposal => 0x01 | KVote => 0x02 | KEvidence => 0x03 end.

Definition MessageKind_try_from (value : Z) : result MessageKind MessageError :=
  if value =? 0x01 then Ok KProposal
  else if value =? 0x02 then Ok KVote
  else if value =? 0x03 then Ok KEvidence
  else Err (UnknownMessageKind value).

Definition VoteType_from_u8 (val : Z) : result VoteType MessageError :=
  if val =? 0 then Ok Prevote
  else if val =? 1 then Ok Precommit
  else Err (InvalidVoteType val).

(** ** Configuration *)

Definition MAX_MESSAGE_SIZE : Z := 1048576.

Record MessageConfig := mkMessageConfig {
  max_message_size : Z;
  mc_enable_metrics : bool;
}.

Definition MessageConfig_default : MessageConfig :=
  {| max_message_size := MAX_MESSAGE_SIZE; mc_enable_metrics := false |}.

Definition MessageConfig_validate (c : MessageConfig) : result unit MessageError :=
  if max_message_size c =? 0 then Err (ConfigError "max_message_size must be > 0") else Ok tt.

(** ** Canonical signing bytes *)

Definition proposal_sign_bytes (height : Height) (round : Round) (block_id : Hash32)
    (pol_round : option Round) : bytes :=
  le_bytes 8 height ++ le_bytes 4 round ++ block_id ++
  match pol_round with
  | Some pr => 1 :: le_bytes 4 pr
  | None => [0]
  end.

Definition vote_sign_bytes (vote_type : VoteType) (height : Height) (round : Round)
    (block_id : option Hash32) : bytes :=
  [VoteType_as_u8 vote_type] ++ le_bytes 8 height ++ le_bytes 4 round ++
  match block_id with Some bid => bid | None => [] end.

(** ** Third-party encodings *)

Class MessageCodec := {
  Block_encoded_len : Block → Z;
  Evidence_encoded_len : Evidence → Z;
  Evidence_is_empty : Evidence → bool;
  (** [postcard::to_allocvec(x).unwrap_or_default()] *)
  enc_proposal : Proposal → bytes;
  enc_vote : Vote → bytes;
  enc_evidence : Evidence → bytes;
  (** [postcard::from_bytes(payload).ok()] *)
  dec_proposal : bytes → option Proposal;
  dec_vote : bytes → option Vote;
  dec_evidence : bytes → option Evidence;
}.

(** The documented contract of postcard: decoding an encoding gives the value back. *)
Class MessageCodecLaws `{MessageCodec} : Prop := {
  dec_enc_proposal p : dec_proposal (enc_proposal p) = Some p;
  dec_enc_vote v : dec_vote (enc_vote v) = Some v;
  dec_enc_evidence e : dec_evidence (enc_evidence e) = Some e;
}.

Section messages.
Context `{MessageCodec}.

Definition Proposal_approximate_size (p : Proposal) : Z :=
  32 + 8 + 8 + Z.of_nat (length (p_proposer p)) + 32 +
  from_option Block_encoded_len 0 (p_block p) +
  from_option (λ _, 8 + 1) 1 (p_pol_round p) +
  Z.of_nat (length (p_signature p)).

Definition Proposal_validate_with_config (config : MessageConfig) (p : Proposal) :
    result unit MessageError :=
  if p_height p =? 0 then Err (InvalidHeight (p_height p))
  else if bool_decide (p_proposer p = []) then Err EmptyProposerKey
  else if Hash32_is_zero (p_block_id p) then Err ZeroBlockId
  else if bool_decide (p_signature p = []) then Err InvalidProposalSignature
  else
    let size := Proposal_approximate_size p in
    if max_message_size config <? size
    then Err (MessageTooLarge size (max_message_size config))
    else Ok tt.

Definition Vote_approximate_size (v : Vote) : Z :=
  1 + 8 + 8 + Z.of_nat (length (v_voter v)) +
  from_option (λ _, 32) 0 (v_block_id v) + Z.of_nat (length (v_signature v)).

Definition Vote_validate_with_config (config : MessageConfig) (v : Vote) :
    result unit MessageError :=
  if v_height v =? 0 then Err (InvalidHeight (v_height v))
  else if bool_decide (v_voter v = []) then Err EmptyVoterKey
  else if bool_decide (v_signature v = []) then Err InvalidVoteSignature
  else
    let size := Vote_approximate_size v in
    if max_message_size config <? size
    then Err (MessageTooLarge size (max_message_size config))
    else Ok tt.

Definition Proposal_sign_bytes (p : Proposal) : bytes :=
  proposal_sign_bytes (p_height p) (p_round p) (p_block_id p) (p_pol_round p).

Definition Vote_sign_bytes (v : Vote) : bytes :=
  vote_sign_bytes (v_vote_type v) (v_height v) (v_round v) (v_block_id v).

Definition Vote_is_nil (v : Vote) : bool :=
  match v_block_id v with None => true | Some _ => false end.

Definition Msg_kind (m : ConsensusMsg) : MessageKind :=
  match m with
  | MsgProposal _ => KProposal
  | MsgVote _ => KVote
  | MsgEvidence _ => KEvidence
  end.

Definition Msg_validate_with_config (config : MessageConfig) (m : ConsensusMsg) :
    result unit MessageError :=
  match m with
  | MsgProposal p => Proposal_validate_with_config config p
  | MsgVote v => Vote_validate_with_config config v
  | MsgEvidence e =>
    if Evidence_is_empty e then Err EmptyEvidence
    else
      let size := Evidence_encoded_len e in
      if max_message_size config <? size
      then Err (MessageTooLarge size (max_message_size config))
      else Ok tt
  end.

Definition Msg_height (m : ConsensusMsg) : option Height :=
  match m with
  | MsgProposal p => Some (p_height p)
  | MsgVote v => Some (v_height v)
  | MsgEvidence e => Some (Evidence_height e)
  end.

Definition Msg_round (m : ConsensusMsg) : option Round :=
  match m with
  | MsgProposal p => Some (p_round p)
  | MsgVote v => Some (v_round v)
  | MsgEvidence _ => None
  end.

Definition Msg_block_id (m : ConsensusMsg) : option Hash32 :=
  match m with
  | MsgProposal p => Some (p_block_id p)
  | MsgVote v => v_block_id v
  | MsgEvidence _ => None
  end.

Definition Msg_signer_key (m : ConsensusMsg) : option PublicKeyBytes :=
  match m with
  | MsgProposal p => Some (p_proposer p)
  | MsgVote v => Some (v_voter v)
  | MsgEvidence _ => None
  end.

Definition Msg_signature (m : ConsensusMsg) : option bytes :=
  match m with
  | MsgProposal p => Some (p_signature p)
  | MsgVote v => Some (v_signature v)
  | MsgEvidence _ => None
  end.

Definition Msg_sign_bytes (m : ConsensusMsg) : option bytes :=
  match m with
  | MsgProposal p => Some (Proposal_sign_bytes p)
  | MsgVote v => Some (Vote_sign_bytes v)
  | MsgEvidence _ => None
  end.

Definition Msg_is_nil (m : ConsensusMsg) : bool :=
  match m with MsgVote v => Vote_is_nil v | _ => false end.

(** ** Wire format: one kind byte, then the payload. *)

Definition Msg_into_bytes (m : ConsensusMsg) : bytes :=
  MessageKind_as_u8 (Msg_kind m) ::
  match m with
  | MsgProposal p => enc_proposal p
  | MsgVote v => enc_vote v
  | MsgEvidence e => enc_evidence e
  end.

Definition Msg_try_from_with_config (config : MessageConfig) (bs : bytes) :
    result ConsensusMsg MessageError :=
  if max_message_size config <? Z.of_nat (length bs)
  then Err (MessageTooLarge (Z.of_nat (length bs)) (max_message_size config))
  else
    match bs with
    | [] => Err (UnknownMessageKind 0)
    | kind :: payload =>
      if kind =? 0x01 then
        ok_or (MsgProposal <$> dec_proposal payload) (UnknownMessageKind kind)
      else if kind =? 0x02 then
        ok_or (MsgVote <$> dec_vote payload) (UnknownMessageKind kind)
      else if kind =? 0x03 then
        ok_or (MsgEvidence <$> dec_evidence payload) (UnknownMessageKind kind)
      else Err (UnknownMessageKind kind)
    end.
End messages.

(** ** Signing bytes determine the message *)

Definition vote_fields_ok (height : Height) (round : Round) (block_id : option Hash32) : Prop :=
  u64_ok height ∧ u32_ok round ∧ from_option (λ h, length h = HASH_SIZE) True block_id.

Lemma app_inj_length {A} (l1 l2 k1 k2 : list A) :
  length l1 = length l2 → l1 ++ k1 = l2 ++ k2 → l1 = l2 ∧ k1 = k2.
Proof. intros. by apply app_inj_1. Qed.

Lemma le_bytes8_inj z z' : u64_ok z → u64_ok z' → le_bytes 8 z = le_bytes 8 z' → z = z'.
Proof. unfold u64_ok, U64_MAX. intros. by apply (le_bytes_inj 8); [lia..|]. Qed.

Lemma le_bytes4_inj z z' : u32_ok z → u32_ok z' → le_bytes 4 z = le_bytes 4 z' → z = z'.
Proof. unfold u32_ok, U32_MAX. intros. by apply (le_bytes_inj 4); [lia..|]. Qed.

Lemma length_vote_sign_bytes vt h r bid :
  length (vote_sign_bytes vt h r bid) = (13 + from_option length 0 bid)%nat.
Proof.
  unfold vote_sign_bytes. rewrite !length_app, !length_le_bytes. destruct bid; simpl; lia.
Qed.

Lemma length_proposal_sign_bytes h r bid pol :
  length (proposal_sign_bytes h r bid pol) =
  (13 + length bid + from_option (λ _, 4) 0 pol)%nat.
Proof.
  unfold proposal_sign_bytes. rewrite !length_app, !length_le_bytes. destruct pol; simpl; lia.
Qed.

Lemma vote_sign_bytes_parts vt h r bid vt' h' r' bid' :
  vote_fields_ok h r bid → vote_fields_ok h' r' bid' →
  vote_sign_bytes vt h r bid = vote_sign_bytes vt' h' r' bid' →
  vt = vt' ∧ h = h' ∧ r = r' ∧ bid = bid'.
Proof.
  intros (Hh & Hr & Hb) (Hh' & Hr' & Hb') Heq.
  pose proof (f_equal length Heq) as Hlen. rewrite !length_vote_sign_bytes in Hlen.
  unfold vote_sign_bytes in Heq.
  apply app_inj_length in Heq as [Hvt Heq]; [|done].
  apply app_inj_length in Heq as [H1 Heq]; [|by rewrite !length_le_bytes].
  apply app_inj_length in Heq as [H2 Heq]; [|by rewrite !length_le_bytes].
  apply le_bytes8_inj in H1; [|done..]. apply le_bytes4_inj in H2; [|done..].
  repeat split; try done.
  - by destruct vt, vt'.
  - destruct bid, bid'; simpl in *; try congruence; unfold HASH_SIZE in *; lia.
Qed.

Lemma proposal_sign_bytes_parts h r bid pol h' r' bid' pol' :
  vote_fields_ok h r (Some bid) → vote_fields_ok h' r' (Some bid') →
  from_option u32_ok True pol → from_option u32_ok True pol' →
  proposal_sign_bytes h r bid pol = proposal_sign_bytes h' r' bid' pol' →
  h = h' ∧ r = r' ∧ bid = bid' ∧ pol = pol'.
Proof.
  intros (Hh & Hr & Hb) (Hh' & Hr' & Hb') Hp Hp' Heq. simpl in *.
  unfold proposal_sign_bytes in Heq.
  apply app_inj_length in Heq as [H1 Heq]; [|by rewrite !length_le_bytes].
  apply app_inj_length in Heq as [H2 Heq]; [|by rewrite !length_le_bytes].
  apply app_inj_length in Heq as [H3 Heq]; [|congruence].
  apply le_bytes8_inj in H1; [|done..]. apply le_bytes4_inj in H2; [|done..].
  repeat split; try done.
  destruct pol, pol'; simpl in Hp, Hp'; try congruence.
  apply (app_inj_length [1] [1]) in Heq as [_ Heq]; [|done].
  f_equal. by apply le_bytes4_inj.
Qed.

(** Within a height and round the signing bytes determine the block. *)
Lemma vote_sign_bytes_block vt h r bid bid' :
  vote_fields_ok h r bid ∧ vote_fields_ok h r bid' →
  vote_sign_bytes vt h r bid = vote_sign_bytes vt h r bid' → bid = bid'.
Proof. intros [H1 H2] Heq. by eapply vote_sign_bytes_parts in Heq as (_ & _ & _ & ?). Qed.

Lemma proposal_sign_bytes_block h r bid pol bid' pol' :
  vote_fields_ok h r (Some bid) ∧ from_option u32_ok True pol →
  vote_fields_ok h r (Some bid') ∧ from_option u32_ok True pol' →
  proposal_sign_bytes h r bid pol = proposal_sign_bytes h r bid' pol' → bid = bid'.
Proof. intros [H1 H2] [H3 H4] Heq. by eapply proposal_sign_bytes_parts in Heq as (_ & _ & ? & _). Qed.

(** Signing a vote commits to its type, height, round and block: votes with
    the same signing bytes are votes for the same thing. *)
Lemma vote_sign_bytes_inj vt h r bid vt' h' r' bid' :
  vote_fields_ok h r bid → vote_fields_ok h' r' bid' →
  vote_sign_bytes vt h r bid = vote_sign_bytes vt' h' r' bid' →
  vt = vt' ∧ h = h' ∧ r = r' ∧ bid = bid'.
Proof. apply vote_sign_bytes_parts. Qed.

(** The same for proposals, the proof-of-lock round included. *)
Lemma proposal_sign_bytes_inj h r bid pol h' r' bid' pol' :
  vote_fields_ok h r (Some bid) → vote_fields_ok h' r' (Some bid') →
  from_option u32_ok True pol → from_option u32_ok True pol' →
  proposal_sign_bytes h r bid pol = proposal_sign_bytes h' r' bid' pol' →
  h = h' ∧ r = r' ∧ bid = bid' ∧ pol = pol'.
Proof. apply proposal_sign_bytes_parts. Qed.

(** ** Wire round trip *)

(** A message that fits the size limit survives the wire: decoding what
    [From<&ConsensusMsg>] wrote gives the message back. *)
Lemma wire_roundtrip `{MessageCodecLaws} config m :
  Z.of_nat (length (Msg_into_bytes m)) ≤ max_message_size config →
  Msg_try_from_with_config config (Msg_into_bytes m) = Ok m.
Proof.
  intros Hsz. unfold Msg_try_from_with_config.
  destruct (Z.ltb_spec (max_message_size config) (Z.of_nat (length (Msg_into_bytes m)))); [lia|].
  destruct m; simpl; by rewrite ?dec_enc_proposal, ?dec_enc_vote, ?dec_enc_evidence.
Qed.

(** ** No domain separation between votes and proposals *)

(** A block vote and a proposal without proof-of-lock can have the same
    signing bytes: 1+8+4+32 against 8+4+32+1 bytes, with no tag that tells the
    two message kinds apart. The prevote below, at height 2 and round 0 for a
    block whose hash ends in a zero byte, signs the same 45 bytes as a proposal
    at height 512 for another block. *)
Lemma sign_bytes_kind_collision :
  ∃ vt h r bid h' r' bid',
    vote_fields_ok h r (Some bid) ∧ vote_fields_ok h' r' (Some bid') ∧
    h ≠ h' ∧ bid ≠ bid' ∧
    vote_sign_bytes vt h r (Some bid) = proposal_sign_bytes h' r' bid' None.
Proof.
  exists Prevote, 2, 0, (7 :: replicate 31 0), 512, 0, (0 :: 7 :: replicate 30 0).
  unfold vote_fields_ok, u64_ok, u32_ok, U64_MAX, U32_MAX. simpl. repeat split; try lia.
  congruence.
Qed.

(** ** A codec that satisfies the contract: the bits of an enumeration index. *)

Fixpoint pos_bits (p : positive) : bytes :=
  match p with
  | xH => []
  | xO p' => 0 :: pos_bits p'
  | xI p' => 1 :: pos_bits p'
  end.

Fixpoint bits_pos (l : bytes) : positive :=
  match l with
  | [] => xH
  | b :: l' => if b =? 0 then xO (bits_pos l') else xI (bits_pos l')
  end.

Lemma bits_pos_bits p : bits_pos (pos_bits p) = p.
Proof. induction p as [p IH|p IH|]; simpl; by rewrite ?IH. Qed.

#[export] Instance BlockHeader_countable : Countable BlockHeader.
Proof.
  apply (inj_countable'
    (λ h, ((bh_height h, bh_round h, parent_id h, state_root h),
           (tx_root_field h, proposer_pk h, proposer_addr h, base_fee h),
           (bh_gas_used h, gas_limit h, timestamp_ms h, bh_coherence h)))
    (λ '((a, b, c, d), (e, f, g, i), (j, k, l, m)), mkBlockHeader a b c d e f g i j k l m)).
  by intros [].
Defined.

#[export] Instance Block_countable : Countable Block.
Proof.
  apply (inj_countable' (λ b, (header b, txs b, coherence b)) (λ '(h, t, c), mkBlock h t c)).
  by intros [].
Defined.

#[export] Instance Proposal_countable : Countable Proposal.
Proof.
  apply (inj_countable'
    (λ p, ((p_height p, p_round p, p_proposer p), (p_block_id p, p_block p),
           (p_pol_round p, p_signature p)))
    (λ '((a, b, c), (d, e), (f, g)), mkProposal a b c d e f g)).
  by intros [].
Defined.

#[export] Instance Vote_countable : Countable Vote.
Proof.
  apply (inj_countable'
    (λ v, ((v_vote_type v, v_height v, v_round v), (v_voter v, v_block_id v, v_signature v)))
    (λ '((a, b, c), (d, e, f)), mkVote a b c d e f)).
  by intros [].
Defined.

#[export] Instance Evidence_eq_dec : EqDecision Evidence.
Proof. solve_decision. Defined.

#[export] Instance Evidence_countable : Countable Evidence.
Proof.
  apply (inj_countable'
    (λ e, match e with
          | DoubleVote k h r t a b v w => inl ((k, h, r, t), (a, b), (v, w))
          | DoubleProposal k h r a b p q => inr ((k, h, r), (a, b), (p, q))
          end)
    (λ s, match s with
          | inl ((k, h, r, t), (a, b), (v, w)) => DoubleVote k h r t a b v w
          | inr ((k, h, r), (a, b), (p, q)) => DoubleProposal k h r a b p q
          end)).
  by intros [].
Defined.

Definition bit_encode `{Countable A} (a : A) : bytes := pos_bits (encode a).
Definition bit_decode `{Countable A} (l : bytes) : option A := decode (bits_pos l).

Lemma bit_decode_encode `{Countable A} (a : A) : bit_decode (bit_encode a) = Some a.
Proof. unfold bit_decode, bit_encode. by rewrite bits_pos_bits, decode_encode. Qed.

Definition bit_codec : MessageCodec := {|
  Block_encoded_len b := Z.of_nat (length (bit_encode b));
  Evidence_encoded_len e := Z.of_nat (length (bit_encode e));
  Evidence_is_empty _ := false;
  enc_proposal := bit_encode; enc_vote := bit_encode; enc_evidence := bit_encode;
  dec_proposal := bit_decode; dec_vote := bit_decode; dec_evidence := bit_decode;
|}.

Lemma bit_codec_laws : @MessageCodecLaws bit_codec.
Proof. split; intros; apply bit_decode_encode. Qed.

(** ** Witnesses *)

Definition ex_hash (b : Z) : Hash32 := b :: replicate 31 0.

Definition ex_vote : Vote := mkVote Precommit 5 1 [1] (Some (ex_hash 9)) [3].

Lemma ex_fields_ok : vote_fields_ok 5 1 (Some (ex_hash 9)).
Proof. unfold vote_fields_ok, u64_ok, u32_ok, U64_MAX, U32_MAX. split_and!; [lia..|done]. Qed.

Lemma vote_sign_bytes_inj_witness :
  Precommit = Precommit ∧ 5 = 5 ∧ 1 = 1 ∧ Some (ex_hash 9) = Some (ex_hash 9).
Proof.
  apply (vote_sign_bytes_inj Precommit 5 1 (Some (ex_hash 9)) Precommit 5 1 (Some (ex_hash 9)));
    [apply ex_fields_ok..|reflexivity].
Defined.

Lemma proposal_sign_bytes_inj_witness :
  5 = 5 ∧ 1 = 1 ∧ ex_hash 9 = ex_hash 9 ∧ Some 0 = Some 0.
Proof.
  apply (proposal_sign_bytes_inj 5 1 (ex_hash 9) (Some 0) 5 1 (ex_hash 9) (Some 0));
    [apply ex_fields_ok..|simpl; mach|simpl; mach|reflexivity].
Defined.

Lemma wire_roundtrip_witness :
  @Msg_try_from_with_config bit_codec MessageConfig_default
    (@Msg_into_bytes bit_codec (MsgVote ex_vote)) = Ok (MsgVote ex_vote).
Proof.
  apply (@wire_roundtrip bit_codec bit_codec_laws MessageConfig_default (MsgVote ex_vote)).
  vm_compute. discriminate.
Defined.
