(* ===== verification/ValidatorSet.v ===== *)
(** * Validator sets ([src/src/consensus/validator_set.rs]).

    The list of validators, the lookup table and the cached total power, with
    every operation that changes them, the proposer selection, and the
    interface ([PowerTable]) the vote tally uses. Prometheus gauges are not
    modelled; the atomic counters are. *)

From Stdlib Require Import ZArith Lia Bool.
From stdpp Require Import base gmap list strings sorting.
From S2P Require Import Prelude Types.

Local Open Scope Z_scope.

(** ** Data *)

(** The source renders the offending key in hexadecimal; the model keeps the key. *)
Inductive ValidatorSetError :=
| EmptySet
| DuplicateValidator (pk : PublicKeyBytes)
| ValidatorNotFound (pk : PublicKeyBytes)
| ZeroPower (p : Z)
| InvalidSet (s : string)
| VsMetrics (s : string)
| VsConfig (s : string)
| VsIntegerOverflow.

Record Validator := mkValidator { pk : PublicKeyBytes; power : Z }.

#[export] Instance Validator_eq_dec : EqDecision Validator.
Proof. solve_decision. Defined.

Inductive ProposerStrategy := RoundRobin | Weighted | HeightOnly | Fixed (idx : Z).

Record ValidatorSetConfig := mkValidatorSetConfig {
  vsc_enable_metrics : bool;
  vsc_strategy : ProposerStrategy;
}.

Record AtomicValidatorSetMetrics := mkVsMetrics {
  additions : Z;
  removals : Z;
  power_updates : Z;
}.

Record ValidatorSet := mkValidatorSet {
  validators : list Validator;
  lookup_power : gmap PublicKeyBytes Z;
  vs_total_power : Z;
  strategy : ProposerStrategy;
  generation : Z;
  vs_atomic_metrics : AtomicValidatorSetMetrics;
}.

#[export] Instance eta_VsMetrics : Settable AtomicValidatorSetMetrics :=
  λ m, mkVsMetrics (additions m) (removals m) (power_updates m).
#[export] Instance eta_ValidatorSet : Settable ValidatorSet :=
  λ s, mkValidatorSet (validators s) (lookup_power s) (vs_total_power s) (strategy s)
         (generation s) (vs_atomic_metrics s).

(** ** Operations *)

Definition Validator_new (k : PublicKeyBytes) (p : Z) : result Validator ValidatorSetError :=
  if p =? 0 then Err (ZeroPower p) else Ok (mkValidator k p).

Definition ValidatorSetConfig_default : ValidatorSetConfig :=
  {| vsc_enable_metrics := false; vsc_strategy := RoundRobin |}.

Definition ValidatorSetConfig_validate (c : ValidatorSetConfig) : result unit ValidatorSetError :=
  Ok tt.

(** The loop of [new_with_config] that fills the lookup table. *)
Fixpoint build_lookup (vs : list Validator) (lookup : gmap PublicKeyBytes Z) (total : Z) :
    result (gmap PublicKeyBytes Z * Z) ValidatorSetError :=
  match vs with
  | [] => Ok (lookup, total)
  | v :: vs' =>
    if power v =? 0 then Err (ZeroPower (power v))
    else if bool_decide (is_Some (lookup !! pk v)) then Err (DuplicateValidator (pk v))
    else build_lookup vs' (<[pk v := power v]> lookup) (sat_add64 total (power v))
  end.

Definition VsMetrics_default : AtomicValidatorSetMetrics := mkVsMetrics 0 0 0.

Definition ValidatorSet_new_with_config (vs : list Validator) (config : ValidatorSetConfig) :
    result ValidatorSet ValidatorSetError :=
  (let? _ := ValidatorSetConfig_validate config in
   match vs with
   | [] => Err EmptySet
   | _ =>
     let? lt := build_lookup vs ∅ 0 in
     Ok {| validators := vs; lookup_power := lt.1; vs_total_power := lt.2;
           strategy := vsc_strategy config; generation := 0;
           vs_atomic_metrics := VsMetrics_default |}
   end)%rust.

Definition ValidatorSet_new (vs : list Validator) : result ValidatorSet ValidatorSetError :=
  ValidatorSet_new_with_config vs ValidatorSetConfig_default.

Definition ValidatorSet_with_strategy (s : ValidatorSet) (st : ProposerStrategy) : ValidatorSet :=
  s <| strategy := st |>.

Definition ValidatorSet_contains (s : ValidatorSet) (k : PublicKeyBytes) : bool :=
  bool_decide (is_Some (lookup_power s !! k)).

Definition ValidatorSet_power_of (s : ValidatorSet) (k : PublicKeyBytes) : option Z :=
  lookup_power s !! k.

(** [proposer_for]; [None] is the panic on an empty set. [usize] is 64 bits wide. *)
Definition proposer_index (st : ProposerStrategy) (height : Height) (round : Round) (n : Z) : Z :=
  match st with
  | RoundRobin => add64 height round `mod` n
  | HeightOnly => height `mod` n
  | Weighted => add64 height round `mod` n
  | Fixed idx => if n <=? idx then idx `mod` n else idx
  end.

Definition ValidatorSet_proposer_for (s : ValidatorSet) (height : Height) (round : Round) :
    option Validator :=
  let n := Z.of_nat (length (validators s)) in
  if 0 <? n
  then validators s !! Z.to_nat (proposer_index (strategy s) height round n)
  else None.

Definition ValidatorSet_add_validator (s : ValidatorSet) (v : Validator) :
    result ValidatorSet ValidatorSetError :=
  if power v =? 0 then Err (ZeroPower (power v))
  else if bool_decide (is_Some (lookup_power s !! pk v)) then Err (DuplicateValidator (pk v))
  else Ok (s <| validators := validators s ++ [v] |>
             <| lookup_power := <[pk v := power v]> (lookup_power s) |>
             <| vs_total_power := sat_add64 (vs_total_power s) (power v) |>
             <| generation := sat_add64 (generation s) 1 |>
             <| vs_atomic_metrics := (vs_atomic_metrics s)
                  <| additions := add64 (additions (vs_atomic_metrics s)) 1 |> |>).

Definition ValidatorSet_remove_validator (s : ValidatorSet) (k : PublicKeyBytes) :
    result (Validator * ValidatorSet) ValidatorSetError :=
  if (length (validators s) <=? 1)%nat then Err EmptySet
  else
    (* iter().position(|v| &v.pk == pk), with the element found *)
    match list_find (λ v, pk v = k) (validators s) with
    | None => Err (ValidatorNotFound k)
    | Some (idx, removed) =>
      Ok (removed,
          s <| validators := delete idx (validators s) |>
            <| lookup_power := delete (pk removed) (lookup_power s) |>
            <| vs_total_power := sat_sub (vs_total_power s) (power removed) |>
            <| generation := sat_add64 (generation s) 1 |>
            <| vs_atomic_metrics := (vs_atomic_metrics s)
                 <| removals := add64 (removals (vs_atomic_metrics s)) 1 |> |>)
    end.

Definition ValidatorSet_update_power (s : ValidatorSet) (k : PublicKeyBytes) (new_power : Z) :
    result ValidatorSet ValidatorSetError :=
  if new_power =? 0 then Err (ZeroPower new_power)
  else
    match list_find (λ v, pk v = k) (validators s) with
    | None => Err (ValidatorNotFound k)
    | Some (idx, old) =>
      Ok (s <| validators := <[idx := mkValidator (pk old) new_power]> (validators s) |>
            <| lookup_power := <[k := new_power]> (lookup_power s) |>
            <| vs_total_power :=
                 sat_add64 (sat_sub (vs_total_power s) (power old)) new_power |>
            <| generation := sat_add64 (generation s) 1 |>
            <| vs_atomic_metrics := (vs_atomic_metrics s)
                 <| power_updates := add64 (power_updates (vs_atomic_metrics s)) 1 |> |>)
    end.

(** The loop of [validate]. *)
Fixpoint validate_from (vs : list Validator) (seen : gset PublicKeyBytes) :
    result unit ValidatorSetError :=
  match vs with
  | [] => Ok tt
  | v :: vs' =>
    if power v =? 0 then Err (ZeroPower (power v))
    else if bool_decide (pk v ∈ seen) then Err (DuplicateValidator (pk v))
    else validate_from vs' ({[pk v]} ∪ seen)
  end.

Definition ValidatorSet_validate (s : ValidatorSet) : result unit ValidatorSetError :=
  match validators s with
  | [] => Err EmptySet
  | vs => validate_from vs ∅
  end.

Definition ValidatorSet_default : ValidatorSet :=
  {| validators := []; lookup_power := ∅; vs_total_power := 0; strategy := RoundRobin;
     generation := 0; vs_atomic_metrics := VsMetrics_default |}.

(** Serde: [lookup], [total_power], [generation] and the metrics are marked
    [#\[serde(skip)\]], so deserialising gives them their [Default]. *)
Definition ValidatorSet_serde_roundtrip (s : ValidatorSet) : ValidatorSet :=
  {| validators := validators s; lookup_power := ∅; vs_total_power := 0;
     strategy := strategy s; generation := 0; vs_atomic_metrics := VsMetrics_default |}.

(** ** Builder *)

Record ValidatorSetBuilder := mkBuilder {
  b_validators : list Validator;
  b_config : ValidatorSetConfig;
}.

Definition Builder_new : ValidatorSetBuilder := mkBuilder [] ValidatorSetConfig_default.

Definition Builder_add_validator (b : ValidatorSetBuilder) (k : PublicKeyBytes) (p : Z) :
    ValidatorSetBuilder :=
  match Validator_new k p with
  | Ok v => mkBuilder (b_validators b ++ [v]) (b_config b)
  | Err _ => b
  end.

Definition Builder_with_strategy (b : ValidatorSetBuilder) (st : ProposerStrategy) :
    ValidatorSetBuilder :=
  mkBuilder (b_validators b) (mkValidatorSetConfig (vsc_enable_metrics (b_config b)) st).

Definition Builder_build (b : ValidatorSetBuilder) : result ValidatorSet ValidatorSetError :=
  ValidatorSet_new_with_config (b_validators b) (b_config b).

(** ** The invariant: the three representations of the set agree *)

(** [m] is the table of the duplicate-free validator list [vs]. *)
Definition table_inv (vs : list Validator) (m : gmap PublicKeyBytes Z) : Prop :=
  NoDup (pk <$> vs) ∧
  (∀ v, v ∈ vs → 0 < power v ≤ U64_MAX) ∧
  (∀ k p, m !! k = Some p ↔ mkValidator k p ∈ vs).

Definition power_sum (s : ValidatorSet) : Z := sumZ power (validators s).

Record vset_inv (s : ValidatorSet) : Prop := {
  vi_nonempty : validators s ≠ [];
  vi_table : table_inv (validators s) (lookup_power s);
  vi_total_le_sum : 0 ≤ vs_total_power s ≤ power_sum s;
  vi_total_u64 : vs_total_power s ≤ U64_MAX;
}.

(** The cached total is exact (it is unless the sum ever left the [u64] range). *)
Definition vset_exact (s : ValidatorSet) : Prop := vs_total_power s = power_sum s.

#[export] Instance table_inv_perm : Proper ((≡ₚ) ==> (=) ==> iff) table_inv.
Proof.
  intros vs vs' Hvs m ? <-. unfold table_inv. rewrite Hvs.
  by setoid_rewrite Hvs.
Qed.

Lemma table_inv_nil : table_inv [] ∅.
Proof.
  split_and!; [constructor|set_solver|].
  intros k p. rewrite lookup_empty. set_solver.
Qed.

Lemma table_inv_fresh vs m k : table_inv vs m → m !! k = None ↔ k ∉ pk <$> vs.
Proof.
  intros (_ & _ & Hm). rewrite eq_None_not_Some, list_elem_of_fmap. f_equiv. split.
  - intros [p Hp]. apply Hm in Hp. by exists (mkValidator k p).
  - intros ([k' p] & -> & Hv). exists p. by apply Hm.
Qed.

Lemma table_inv_cons v vs m :
  table_inv vs m → m !! pk v = None → 0 < power v ≤ U64_MAX →
  table_inv (v :: vs) (<[pk v := power v]> m).
Proof.
  intros Hinv Hv Hp. pose proof (proj1 (table_inv_fresh _ _ _ Hinv) Hv) as Hfresh.
  destruct Hinv as (Hnd & Hpos & Hm). split_and!.
  - rewrite fmap_cons. by constructor.
  - set_solver.
  - intros k p. rewrite lookup_insert, elem_of_cons, <-Hm.
    destruct v as [k0 p0]; simpl in *. case_decide; naive_solver.
Qed.

Lemma table_inv_tail v vs m : table_inv (v :: vs) m → table_inv vs (delete (pk v) m).
Proof.
  intros (Hnd & Hpos & Hm). rewrite fmap_cons, NoDup_cons in Hnd. destruct Hnd as [Hv Hnd].
  split_and!; [done|set_solver|].
  intros k p. rewrite lookup_delete_Some, Hm, elem_of_cons. split.
  - intros [Hne [Hkp|?]]; [|done]. by rewrite <-Hkp in Hne.
  - intros Hk. split; [|by right]. intros Heq. apply Hv, list_elem_of_fmap.
    by exists (mkValidator k p).
Qed.

Lemma table_inv_head v vs m : table_inv (v :: vs) m → m !! pk v = Some (power v).
Proof. intros (_ & _ & Hm). apply Hm. destruct v. set_solver. Qed.

Lemma build_lookup_ok vs acc m t m' t' :
  (∀ v, v ∈ vs → u64_ok (power v)) → table_inv acc m →
  0 ≤ t ≤ sumZ power acc → t ≤ U64_MAX →
  build_lookup vs m t = Ok (m', t') →
  table_inv (rev vs ++ acc) m' ∧ 0 ≤ t' ≤ sumZ power (rev vs ++ acc) ∧ t' ≤ U64_MAX ∧
  (sumZ power (rev vs ++ acc) ≤ U64_MAX → t = sumZ power acc → t' = sumZ power (rev vs ++ acc)).
Proof.
  revert acc m t. induction vs as [|v vs IH]; intros acc m t Hu Hinv Ht Hmax; simpl.
  { by intros [= <- <-]. }
  destruct (Z.eqb_spec (power v) 0) as [Hz|Hz]; [done|].
  case_bool_decide as Hin; [done|]. apply eq_None_not_Some in Hin.
  assert (0 < power v ≤ U64_MAX) as Hv by (specialize (Hu v ltac:(set_solver)); unfold u64_ok in Hu; lia).
  intros Hb. rewrite <-app_assoc. simpl.
  destruct (IH (v :: acc) (<[pk v := power v]> m) (sat_add64 t (power v))) as (? & ? & ? & Hex);
    [set_solver|by apply table_inv_cons|unfold sat_add64, U64_MAX in *; simpl; lia..|done|].
  split_and!; try done; try lia.
  intros Hs Heq. apply Hex; [done|]. simpl. rewrite sat_add64_exact; [lia|].
  rewrite sumZ_app in Hs. simpl in Hs.
  assert (0 ≤ sumZ power (rev vs)); [|lia].
  apply sumZ_nonneg. intros w Hw. apply (Hu w). rewrite list_elem_of_In, <-in_rev, <-list_elem_of_In in Hw.
  set_solver.
Qed.

Lemma build_lookup_succeeds vs acc m t :
  (∀ v, v ∈ vs → 0 < power v ≤ U64_MAX) → table_inv acc m →
  NoDup (pk <$> vs ++ acc) → is_ok (build_lookup vs m t) = true.
Proof.
  revert acc m t. induction vs as [|v vs IH]; intros acc m t Hu Hinv Hnd; simpl; [done|].
  assert (0 < power v ≤ U64_MAX) as Hv by (apply Hu; set_solver).
  simpl in Hnd. apply NoDup_cons in Hnd as [Hnot Hnd].
  assert (m !! pk v = None) as Hfresh.
  { apply (table_inv_fresh _ _ _ Hinv). intros Hin. apply Hnot.
    rewrite fmap_app, elem_of_app. by right. }
  destruct (Z.eqb_spec (power v) 0); [lia|].
  rewrite Hfresh, bool_decide_eq_false_2 by (by intros [? ?]).
  apply (IH (v :: acc)); [set_solver|by apply table_inv_cons|].
  rewrite <-Permutation_middle, fmap_cons. by constructor.
Qed.

(** *** Creation and updates keep the invariant *)

Lemma new_with_config_inv vs config s :
  (∀ v, v ∈ vs → u64_ok (power v)) →
  ValidatorSet_new_with_config vs config = Ok s →
  vset_inv s ∧ validators s = vs ∧ (power_sum s ≤ U64_MAX → vset_exact s).
Proof.
  intros Hu. unfold ValidatorSet_new_with_config. simpl.
  destruct vs as [|v vs]; [done|].
  destruct (build_lookup (v :: vs) ∅ 0) as [[m t]|e] eqn:Hb; simpl; [|done].
  intros [= <-]. apply (build_lookup_ok _ []) in Hb as (Ht & Hle & Hm & Hex);
    [|done|apply table_inv_nil|unfold U64_MAX; simpl; lia..].
  rewrite app_nil_r in *. rewrite <-Permutation_rev in Ht.
  rewrite <-Permutation_rev in Hle, Hex.
  split_and!; [split; simpl; try done; lia|done|].
  intros Hs. by apply Hex.
Qed.

Lemma add_validator_inv s v s' :
  vset_inv s → u64_ok (power v) → ValidatorSet_add_validator s v = Ok s' →
  vset_inv s' ∧ validators s' = validators s ++ [v] ∧
  (vset_exact s → power_sum s' ≤ U64_MAX → vset_exact s').
Proof.
  intros [Hne Ht Hle Hm] Hu. unfold ValidatorSet_add_validator.
  destruct (Z.eqb_spec (power v) 0); [done|]. case_bool_decide as Hin; [done|].
  apply eq_None_not_Some in Hin. intros [= <-]. unfold u64_ok in Hu.
  unfold vset_exact, power_sum in *. simpl. split_and!; [|done|].
  - split; simpl.
    + by intros [??]%app_nil.
    + rewrite <-Permutation_cons_append. apply table_inv_cons; [done..|lia].
    + unfold power_sum. simpl. rewrite sumZ_app. simpl. unfold sat_add64, U64_MAX. lia.
    + unfold sat_add64. lia.
  - rewrite sumZ_app. simpl. intros -> Hs. rewrite sat_add64_exact; lia.
Qed.

Lemma find_validator_perm s k i v :
  vset_inv s → list_find (λ v, pk v = k) (validators s) = Some (i, v) →
  pk v = k ∧ validators s !! i = Some v ∧ validators s ≡ₚ v :: delete i (validators s).
Proof.
  intros Hinv (Hi & Hk & _)%list_find_Some. split_and!; try done. by apply delete_Permutation.
Qed.

Lemma remove_validator_inv s k v s' :
  vset_inv s → ValidatorSet_remove_validator s k = Ok (v, s') →
  vset_inv s' ∧ validators s ≡ₚ v :: validators s' ∧ pk v = k ∧
  (vset_exact s → vset_exact s').
Proof.
  intros Hinv. unfold ValidatorSet_remove_validator.
  destruct (Nat.leb_spec (length (validators s)) 1); [done|].
  destruct (list_find _ _) as [[i w]|] eqn:Hf; [|done]. intros [= <- <-].
  apply find_validator_perm in Hf as (Hk & Hi & Hperm); [|done].
  destruct Hinv as [Hne Ht Hle Hm].
  pose proof Ht as Ht'. rewrite Hperm in Ht'.
  assert (0 < power w ≤ U64_MAX) as Hw by (apply (proj1 (proj2 Ht')); set_solver).
  assert (0 ≤ sumZ power (delete i (validators s))) as Hrest.
  { apply sumZ_nonneg. intros u Hu. destruct Ht' as (_ & Hpos & _).
    specialize (Hpos u ltac:(set_solver)). lia. }
  pose proof Hle as Hle'. unfold power_sum in Hle'. rewrite Hperm in Hle'. simpl in Hle'.
  split_and!; try done.
  - split; simpl.
    + intros Hnil. apply (f_equal length) in Hnil. rewrite length_delete in Hnil by eauto.
      simpl in Hnil. lia.
    + by apply table_inv_tail.
    + unfold power_sum, sat_sub. simpl. lia.
    + unfold sat_sub. mach.
  - unfold vset_exact, power_sum. simpl. rewrite Hperm at 1. simpl. intros ->.
    rewrite sat_sub_exact; lia.
Qed.

Lemma update_power_inv s k p s' :
  vset_inv s → u64_ok p → ValidatorSet_update_power s k p = Ok s' →
  vset_inv s' ∧ ValidatorSet_power_of s' k = Some p ∧
  (∀ k', k' ≠ k → ValidatorSet_power_of s' k' = ValidatorSet_power_of s k') ∧
  (vset_exact s → power_sum s' ≤ U64_MAX → vset_exact s').
Proof.
  intros Hinv Hu. unfold ValidatorSet_update_power.
  destruct (Z.eqb_spec p 0); [done|].
  destruct (list_find _ _) as [[i w]|] eqn:Hf; [|done]. intros [= <-].
  apply find_validator_perm in Hf as (Hk & Hi & Hperm); [|done].
  destruct Hinv as [Hne Ht Hle Hm].
  pose proof Ht as Ht'. rewrite Hperm in Ht'. unfold u64_ok in Hu.
  assert (0 < power w ≤ U64_MAX) as Hw by (apply (proj1 (proj2 Ht')); set_solver).
  assert (0 ≤ sumZ power (delete i (validators s))) as Hrest.
  { apply sumZ_nonneg. intros u Hu'. destruct Ht' as (_ & Hpos & _).
    specialize (Hpos u ltac:(set_solver)). lia. }
  pose proof Hle as Hle'. unfold power_sum in Hle'. rewrite Hperm in Hle'. simpl in Hle'.
  unfold ValidatorSet_power_of, vset_exact, power_sum. simpl. split_and!.
  - split; simpl.
    + intros Hnil. apply (f_equal length) in Hnil. rewrite length_insert in Hnil.
      apply nil_length_inv in Hnil. done.
    + rewrite (insert_delete_perm _ _ _ _ Hi), <-insert_delete_eq.
      rewrite <-Hk. apply (table_inv_cons (mkValidator (pk w) p)); simpl; [|apply lookup_delete_eq|lia].
      by apply table_inv_tail.
    + unfold power_sum, sat_sub, sat_add64, U64_MAX. simpl.
      rewrite (insert_delete_perm _ _ _ _ Hi). simpl. lia.
    + unfold sat_add64. lia.
  - apply lookup_insert_eq.
  - intros k' Hk'. by apply lookup_insert_ne.
  - rewrite (insert_delete_perm _ _ _ _ Hi). simpl. rewrite Hperm at 1. simpl. intros -> Hs.
    rewrite sat_sub_exact, sat_add64_exact; lia.
Qed.

(** *** Executions *)

Inductive vset_step (s : ValidatorSet) : ValidatorSet → Prop :=
| step_add v s' :
    u64_ok (power v) → ValidatorSet_add_validator s v = Ok s' → vset_step s s'
| step_remove k v s' :
    ValidatorSet_remove_validator s k = Ok (v, s') → vset_step s s'
| step_update k p s' :
    u64_ok p → ValidatorSet_update_power s k p = Ok s' → vset_step s s'
| step_strategy st :
    vset_step s (ValidatorSet_with_strategy s st).

(** States reached from [new_with_config], every state on the way satisfying [P]. *)
Inductive vset_run (P : ValidatorSet → Prop) : ValidatorSet → Prop :=
| run_new vs config s :
    (∀ v, v ∈ vs → u64_ok (power v)) →
    ValidatorSet_new_with_config vs config = Ok s → P s → vset_run P s
| run_step s s' : vset_run P s → vset_step s s' → P s' → vset_run P s'.

Lemma vset_step_inv s s' :
  vset_inv s → vset_step s s' →
  vset_inv s' ∧ (vset_exact s → power_sum s' ≤ U64_MAX → vset_exact s').
Proof.
  intros Hinv [v s1 Hu Hop|k v s1 Hop|k p s1 Hu Hop|st].
  - apply add_validator_inv in Hop as (? & _ & ?); auto.
  - apply remove_validator_inv in Hop as (? & _ & _ & ?); auto.
  - apply update_power_inv in Hop as (? & _ & _ & ?); auto.
  - destruct Hinv. split; [split|]; done.
Qed.

Lemma vset_run_inv P s : vset_run P s → vset_inv s.
Proof.
  induction 1 as [vs config s Hu Hnew _|s s' _ IH Hstep _].
  - by eapply new_with_config_inv.
  - by eapply vset_step_inv.
Qed.

(** whatever sequence of additions, removals and power updates built a
    validator set, it is non-empty and duplicate-free, the lookup table lists
    exactly its validators, and the cached total never exceeds the real sum of
    the powers; it equals that sum as long as the sum stayed within [u64]. *)
Lemma vset_run_correct s :
  vset_run (λ s, power_sum s ≤ U64_MAX) s → vset_inv s ∧ vset_exact s.
Proof.
  intros Hrun. split; [by eapply vset_run_inv|].
  induction Hrun as [vs config s Hu Hnew Hfit|s s' Hrun IH Hstep Hfit].
  - eapply new_with_config_inv in Hnew as (_ & _ & Hex); auto.
  - eapply vset_step_inv in Hstep as [_ Hex]; eauto using vset_run_inv.
Qed.

(** [new_with_config] accepts exactly the non-empty lists of distinct keys
    with non-zero powers. *)
Lemma new_with_config_accepts vs config :
  (∀ v, v ∈ vs → u64_ok (power v)) →
  is_ok (ValidatorSet_new_with_config vs config) = true ↔
  vs ≠ [] ∧ NoDup (pk <$> vs) ∧ ∀ v, v ∈ vs → power v ≠ 0.
Proof.
  intros Hu. split.
  - destruct (ValidatorSet_new_with_config vs config) as [s|e] eqn:Hnew; [|done]. intros _.
    apply new_with_config_inv in Hnew as ([Hne (Hnd & Hpos & _) _ _] & <- & _); [|done].
    split_and!; try done. intros v Hv. specialize (Hpos v Hv). lia.
  - intros (Hne & Hnd & Hnz).
    assert (is_ok (build_lookup vs ∅ 0) = true) as Hok.
    { apply (build_lookup_succeeds vs []); [|apply table_inv_nil|by rewrite app_nil_r].
      intros v Hv. pose proof (Hnz v Hv). specialize (Hu v Hv). unfold u64_ok in Hu. lia. }
    unfold ValidatorSet_new_with_config. simpl.
    destruct vs as [|v vs]; [done|]. by destruct (build_lookup (v :: vs) ∅ 0).
Qed.

(** *** Proposer selection *)

Lemma proposer_index_range st height round n :
  0 < n → (∀ idx, st = Fixed idx → 0 ≤ idx) →
  0 ≤ proposer_index st height round n < n.
Proof.
  intros Hn Hidx. destruct st; simpl; try (apply Z.mod_pos_bound; lia).
  specialize (Hidx idx eq_refl).
  destruct (Z.leb_spec n idx); [apply Z.mod_pos_bound|]; lia.
Qed.

Lemma proposer_for_spec s height round :
  validators s ≠ [] → (∀ idx, strategy s = Fixed idx → 0 ≤ idx) →
  ∃ v, ValidatorSet_proposer_for s height round = Some v ∧ v ∈ validators s.
Proof.
  intros Hne Hidx. unfold ValidatorSet_proposer_for.
  assert (0 < Z.of_nat (length (validators s))) as Hn.
  { destruct (validators s); simpl; [done|lia]. }
  rewrite (proj2 (Z.ltb_lt _ _) Hn).
  pose proof (proposer_index_range (strategy s) height round _ Hn Hidx) as Hr.
  destruct (lookup_lt_is_Some_2 (validators s)
    (Z.to_nat (proposer_index (strategy s) height round (Z.of_nat (length (validators s)))))) as [v Hv];
    [lia|].
  exists v. split; [done|]. by eapply list_elem_of_lookup_2.
Qed.

Lemma proposer_round_robin s height round :
  strategy s = RoundRobin → validators s ≠ [] → 0 ≤ height → 0 ≤ round → height + round ≤ U64_MAX →
  ValidatorSet_proposer_for s height round =
  validators s !! Z.to_nat ((height + round) `mod` Z.of_nat (length (validators s))).
Proof.
  intros Hst Hne Hh Hr Hfit. unfold ValidatorSet_proposer_for. rewrite Hst. simpl.
  rewrite add64_small by mach.
  by destruct (validators s).
Qed.

(** Round-robin is fair. At any height, in any window of [n] consecutive
    rounds every one of the [n] validators is the proposer of exactly one round. *)
Lemma proposer_rotation s height r0 v :
  vset_inv s → strategy s = RoundRobin → 0 ≤ height → 0 ≤ r0 →
  height + r0 + Z.of_nat (length (validators s)) ≤ U64_MAX → v ∈ validators s →
  ∃ r, r0 ≤ r < r0 + Z.of_nat (length (validators s)) ∧
    ValidatorSet_proposer_for s height r = Some v ∧
    ∀ r', r0 ≤ r' < r0 + Z.of_nat (length (validators s)) →
      ValidatorSet_proposer_for s height r' = Some v → r' = r.
Proof.
  intros [Hne (Hnd & _ & _) _ _] Hst Hh Hr0 Hfit [i Hi]%list_elem_of_lookup.
  set (n := Z.of_nat (length (validators s))) in *.
  pose proof (lookup_lt_Some _ _ _ Hi) as Hlt.
  assert (0 < n) as Hn by (unfold n; lia).
  apply NoDup_fmap_1 in Hnd.
  set (r := r0 + (Z.of_nat i - (height + r0)) `mod` n).
  pose proof (Z.mod_pos_bound (Z.of_nat i - (height + r0)) n Hn) as Hmod.
  assert ((height + r) `mod` n = Z.of_nat i) as Hidx.
  { unfold r. rewrite Z.add_assoc, Zplus_mod_idemp_r.
    replace (height + r0 + (Z.of_nat i - (height + r0))) with (Z.of_nat i) by lia.
    apply Z.mod_small. unfold n. lia. }
  exists r. split_and!; [unfold r; lia..| |].
  - rewrite proposer_round_robin by (done || unfold r; lia). fold n. by rewrite Hidx, Nat2Z.id.
  - intros r' Hr' Hp. rewrite proposer_round_robin in Hp by (done || lia). fold n in Hp.
    pose proof (Z.mod_pos_bound (height + r') n Hn) as Hb.
    pose proof (NoDup_lookup _ _ _ _ Hnd Hp Hi) as Heq.
    assert ((height + r') `mod` n = (height + r) `mod` n) as Hcong by lia.
    assert (0 ≤ r - r0 < n) as Hrr by (unfold r; lia).
    apply Z.cong_iff_0 in Hcong. apply Z.mod_divide in Hcong as [q Hq]; [|lia].
    assert (q = 0) as -> by nia. lia.
Qed.

(** *** Serialisation *)

(** A validator set that went through serde knows none of its validators and
    has total power 0, whatever it was before. *)
Lemma serde_roundtrip_forgets s k :
  let s' := ValidatorSet_serde_roundtrip s in
  validators s' = validators s ∧ vs_total_power s' = 0 ∧
  ValidatorSet_contains s' k = false ∧ ValidatorSet_power_of s' k = None.
Proof. done. Qed.

(** Once the sum of the powers leaves the [u64] range the cached total stays
    wrong, also after the set shrinks back into range. *)
Lemma saturated_total_drifts :
  ∃ s s', vset_run (λ _, True) s ∧
    ValidatorSet_remove_validator s [2] = Ok (mkValidator [2] (2 ^ 63), s') ∧
    power_sum s' ≤ U64_MAX ∧ vs_total_power s' ≠ power_sum s'.
Proof.
  set (vs := [mkValidator [1] (2 ^ 63); mkValidator [2] (2 ^ 63)]).
  destruct (ValidatorSet_new vs) as [s|e] eqn:Hs; [|by vm_compute in Hs].
  exists s. vm_compute in Hs. injection Hs as <-. eexists. split_and!.
  - apply (run_new _ vs ValidatorSetConfig_default); [|by vm_compute|done].
    unfold vs, u64_ok, U64_MAX. intros v. rewrite !elem_of_cons. intros [->|[->|Hv]]; simpl; [lia..|].
    set_solver.
  - by vm_compute.
  - by vm_compute.
  - by vm_compute.
Qed.

(** ** What the tally relies on *)

(** The methods of the validator set the vote tally calls. *)
Class PowerTable (VS : Type) := {
  power_of : VS → PublicKeyBytes → option Z;
  total_power : VS → Z;
}.

(** Sum of the powers of a list of keys; unknown keys count for nothing. *)
Definition power_of_keys `{PowerTable VS} (s : VS) (ks : list PublicKeyBytes) : Z :=
  sumZ (λ k, default 0 (power_of s k)) ks.

(** The contract: powers are positive [u64]s and distinct validators together
    have at most the total. *)
Class PowerTableLaws `{PowerTable VS} (valid : VS → Prop) : Prop := {
  power_of_pos s k p : valid s → power_of s k = Some p → 0 < p ≤ U64_MAX;
  total_power_u64 s : valid s → 0 ≤ total_power s ≤ U64_MAX;
  power_of_keys_le s ks : valid s → NoDup ks → power_of_keys s ks ≤ total_power s;
}.

#[export] Instance ValidatorSet_PowerTable : PowerTable ValidatorSet := {|
  power_of := ValidatorSet_power_of;
  total_power := vs_total_power;
|}.

Definition vset_valid (s : ValidatorSet) : Prop := vset_inv s ∧ vset_exact s.

Lemma power_of_keys_le_sum s ks :
  vset_inv s → NoDup ks → power_of_keys s ks ≤ power_sum s.
Proof.
  intros [_ (Hnd & Hpos & Hm) _ _] Hks. unfold power_of_keys, power_sum. simpl.
  unfold ValidatorSet_power_of.
  transitivity (sumZ (λ k, default 0 (lookup_power s !! k)) (pk <$> validators s)).
  - rewrite (sumZ_filter_split _ (λ k, k ∈ pk <$> validators s) ks).
    rewrite (sumZ_ext _ (λ _, 0) (filter (λ k, ¬ _) ks)).
    + rewrite sumZ_zero, Z.add_0_r. apply sumZ_submseteq.
      * intros k _. destruct (lookup_power s !! k) as [p|] eqn:Hk; simpl; [|lia].
        apply Hm, Hpos in Hk. simpl in Hk. lia.
      * by apply NoDup_filter.
      * intros k. rewrite list_elem_of_filter. tauto.
    + intros k [Hk _]%list_elem_of_filter. destruct (lookup_power s !! k) as [p|] eqn:Hp; [|done].
      exfalso. apply Hk, list_elem_of_fmap. exists (mkValidator k p). split; [done|]. by apply Hm.
  - rewrite sumZ_fmap. apply Z.eq_le_incl, sumZ_ext. intros [k p] Hv. simpl.
    by rewrite (proj2 (Hm k p) Hv).
Qed.

#[export] Instance ValidatorSet_PowerTableLaws : PowerTableLaws vset_valid.
Proof.
  split.
  - intros s k p [[_ (_ & Hpos & Hm) _ _] _] Hk. apply Hm, Hpos in Hk. done.
  - intros s [[_ _ ? ?] _]. simpl. lia.
  - intros s ks [Hinv Hex] Hks. simpl. rewrite Hex. by apply power_of_keys_le_sum.
Qed.

(** ** A concrete set, and witnesses *)

Definition ex_validators : list Validator :=
  [mkValidator [1] 10; mkValidator [2] 10; mkValidator [3] 10; mkValidator [4] 10].

Definition ex_vset : ValidatorSet :=
  match ValidatorSet_new ex_validators with Ok s => s | Err _ => ValidatorSet_default end.

Lemma ex_validators_u64 v : v ∈ ex_validators → u64_ok (power v).
Proof.
  unfold ex_validators, u64_ok, U64_MAX. rewrite !elem_of_cons.
  intros [->|[->|[->|[->|Hv]]]]; simpl; [lia..|set_solver].
Qed.

Lemma ex_vset_run : vset_run (λ s, power_sum s ≤ U64_MAX) ex_vset.
Proof.
  apply (run_new _ ex_validators ValidatorSetConfig_default); [apply ex_validators_u64|done|].
  vm_compute. discriminate.
Qed.

Lemma ex_vset_valid : vset_valid ex_vset.
Proof.
  destruct (new_with_config_inv ex_validators ValidatorSetConfig_default ex_vset)
    as (Hinv & _ & Hex); [apply ex_validators_u64|done|].
  split; [done|]. apply Hex. vm_compute. discriminate.
Qed.

Lemma vset_run_correct_witness : vset_inv ex_vset ∧ vset_exact ex_vset.
Proof. apply (vset_run_correct ex_vset). apply ex_vset_run. Defined.

Lemma new_with_config_accepts_witness :
  is_ok (ValidatorSet_new_with_config ex_validators ValidatorSetConfig_default) = true ↔
  ex_validators ≠ [] ∧ NoDup (pk <$> ex_validators) ∧ ∀ v, v ∈ ex_validators → power v ≠ 0.
Proof.
  apply (new_with_config_accepts ex_validators ValidatorSetConfig_default), ex_validators_u64.
Defined.

Lemma proposer_rotation_witness :
  ∃ r, 0 ≤ r < 0 + Z.of_nat (length (validators ex_vset)) ∧
    ValidatorSet_proposer_for ex_vset 7 r = Some (mkValidator [3] 10) ∧
    ∀ r', 0 ≤ r' < 0 + Z.of_nat (length (validators ex_vset)) →
      ValidatorSet_proposer_for ex_vset 7 r' = Some (mkValidator [3] 10) → r' = r.
Proof.
  apply (proposer_rotation ex_vset 7 0 (mkValidator [3] 10));
    [apply ex_vset_valid|reflexivity|lia|lia|vm_compute; discriminate|].
  vm_compute. right. right. left.
Defined.
