(* ===== verification/Quorum.v ===== *)
(** * Quorum threshold and vote tally ([src/src/consensus/quorum.rs]).

    The tally keeps a table of the voters and the accumulated power per
    candidate; its theorems are proved against the [PowerTable] interface of
    the validator set. [VoteTallyManager] only takes a lock around each call;
    Prometheus metrics are optional and not modelled, the atomic counters are. *)

From Stdlib Require Import ZArith Lia Bool.
From stdpp Require Import base gmap list strings sorting.
From S2P Require Import Prelude Types ValidatorSet.

Local Open Scope Z_scope.

(** ** Threshold *)

(** [total * 2 / 3 + 1] on [u64]. *)
Definition quorum_threshold (total : Z) : Z :=
  if total =? 0 then 0 else add64 (mul64 total 2 `div` 3) 1.

Definition meets_quorum (power total : Z) : bool := quorum_threshold total <=? power.

(** ** Data *)

(** [Option<Hash32>]: a block or nil. *)
Abbreviation Candidate := (option (list Z)) (only parsing).

(** [DuplicateVote] carries eight hex digits of the key, that is its first four bytes. *)
Inductive TallyError :=
| DuplicateVote (voter_prefix : bytes)
| TallyValidatorNotFound
| NoVotes
| TallyConfigError (s : string)
| TallyMetricsError (s : string).

Record TallyConfig := mkTallyConfig {
  allow_duplicate_votes : bool;
  log_duplicate_warnings : bool;
  track_metrics : bool;
  enable_prometheus : bool;
}.

Definition TallyConfig_default : TallyConfig :=
  {| allow_duplicate_votes := false; log_duplicate_warnings := true;
     track_metrics := true; enable_prometheus := false |}.

Definition TallyConfig_validate (c : TallyConfig) : result unit TallyError := Ok tt.

Record AtomicTallyMetrics := mkTallyMetrics {
  votes_added : Z;
  duplicate_votes_rejected : Z;
  duplicate_votes_allowed : Z;
  best_calls : Z;
  clear_calls : Z;
}.

Definition TallyMetrics_default : AtomicTallyMetrics := mkTallyMetrics 0 0 0 0 0.

(** [voters] maps a key to its [VoteKey] (the candidate) and the power it voted with. *)
Record VoteTally := mkVoteTally {
  buckets : gmap Candidate Z;
  voters : gmap PublicKeyBytes (Candidate * Z);
  tconfig : TallyConfig;
  tmetrics : AtomicTallyMetrics;
}.

#[export] Instance eta_TallyMetrics : Settable AtomicTallyMetrics :=
  λ m, mkTallyMetrics (votes_added m) (duplicate_votes_rejected m) (duplicate_votes_allowed m)
         (best_calls m) (clear_calls m).
#[export] Instance eta_VoteTally : Settable VoteTally :=
  λ t, mkVoteTally (buckets t) (voters t) (tconfig t) (tmetrics t).

Definition inc_votes_added (m : AtomicTallyMetrics) : AtomicTallyMetrics :=
  m <| votes_added := add64 (votes_added m) 1 |>.
Definition inc_duplicate_rejected (m : AtomicTallyMetrics) : AtomicTallyMetrics :=
  m <| duplicate_votes_rejected := add64 (duplicate_votes_rejected m) 1 |>.
Definition inc_duplicate_allowed (m : AtomicTallyMetrics) : AtomicTallyMetrics :=
  m <| duplicate_votes_allowed := add64 (duplicate_votes_allowed m) 1 |>.
Definition inc_best_calls (m : AtomicTallyMetrics) : AtomicTallyMetrics :=
  m <| best_calls := add64 (best_calls m) 1 |>.
Definition inc_clear_calls (m : AtomicTallyMetrics) : AtomicTallyMetrics :=
  m <| clear_calls := add64 (clear_calls m) 1 |>.

(** Counter updates happen only when [track_metrics] is set. *)
Definition track (t : VoteTally) (f : AtomicTallyMetrics → AtomicTallyMetrics) : VoteTally :=
  if track_metrics (tconfig t) then t <| tmetrics := f (tmetrics t) |> else t.

(** ** Operations *)

(** [prometheus_new] is the outcome of registering the Prometheus metrics. *)
Definition VoteTally_new (prometheus_new : result unit string) (config : TallyConfig) :
    result VoteTally TallyError :=
  (let? _ := TallyConfig_validate config in
   let? _ := (if enable_prometheus config then
                match prometheus_new with Ok _ => Ok tt | Err e => Err (TallyMetricsError e) end
              else Ok tt) in
   Ok {| buckets := ∅; voters := ∅; tconfig := config; tmetrics := TallyMetrics_default |})%rust.

Definition VoteTally_default : VoteTally :=
  {| buckets := ∅; voters := ∅; tconfig := TallyConfig_default; tmetrics := TallyMetrics_default |}.

(** Taking a voter's previous power out of its bucket; an emptied bucket goes away. *)
Definition withdraw (old_id : Candidate) (prev_power : Z) (bs : gmap Candidate Z) :
    gmap Candidate Z :=
  match bs !! old_id with
  | Some old_power =>
    let new_power := sat_sub old_power prev_power in
    if new_power =? 0 then delete old_id bs else <[old_id := new_power]> bs
  | None => bs
  end.

(** [*buckets.entry(bid).or_insert(0) = buckets.get(bid).unwrap_or(0).saturating_add(power)] *)
Definition deposit (bid : Candidate) (p : Z) (bs : gmap Candidate Z) : gmap Candidate Z :=
  <[bid := sat_add64 (default 0 (bs !! bid)) p]> bs.

Section tally.
Context `{PowerTable VS}.
Implicit Types (vset : VS) (t : VoteTally).

Definition VoteTally_add_vote (t : VoteTally) vset (voter : PublicKeyBytes) (bid : Candidate) :
    VoteTally * result unit TallyError :=
  match power_of vset voter with
  | None => (t, Err TallyValidatorNotFound)
  | Some p =>
    match voters t !! voter with
    | Some (prev_id, prev_power) =>
      if allow_duplicate_votes (tconfig t) then
        (track (t <| voters := <[voter := (bid, p)]> (voters t) |>
                  <| buckets := deposit bid p (withdraw prev_id prev_power (buckets t)) |>)
               inc_duplicate_allowed, Ok tt)
      else (track t inc_duplicate_rejected, Err (DuplicateVote (take 4 voter)))
    | None =>
      (track (t <| voters := <[voter := (bid, p)]> (voters t) |>
                <| buckets := deposit bid p (buckets t) |>) inc_votes_added, Ok tt)
    end
  end.

(** [iter().max_by_key(..)]: on ties the last entry in key order wins. *)
Definition max_by_power (l : list (Candidate * Z)) : option (Candidate * Z) :=
  foldl (λ acc e, match acc with
                  | None => Some e
                  | Some m => if m.2 <=? e.2 then Some e else Some m
                  end) None l.

Definition VoteTally_best (t : VoteTally) : VoteTally * result (Candidate * Z) TallyError :=
  (track t inc_best_calls, ok_or (max_by_power (btree_iter (buckets t))) NoVotes).

Definition VoteTally_power_for (t : VoteTally) (bid : Candidate) : Z := default 0 (buckets t !! bid).

Definition VoteTally_vote_count (t : VoteTally) : nat := size (voters t).

Definition VoteTally_candidates (t : VoteTally) : list (Candidate * Z) := btree_iter (buckets t).

Definition VoteTally_has_quorum (t : VoteTally) (total : Z) : bool :=
  existsb (λ e, quorum_threshold total <=? e.2) (btree_iter (buckets t)).

Definition VoteTally_quorum_candidate (t : VoteTally) (total : Z) : option (Candidate * Z) :=
  snd <$> list_find (λ e, quorum_threshold total ≤ e.2) (btree_iter (buckets t)).

Definition VoteTally_clear (t : VoteTally) : VoteTally :=
  (track t inc_clear_calls) <| buckets := ∅ |> <| voters := ∅ |>.

(** One step of [merge]: the other tally's vote of [voter] replaces ours. *)
Definition merge_vote (t : VoteTally) (e : PublicKeyBytes * (Candidate * Z)) : VoteTally :=
  let '(voter, (key, p)) := e in
  let bs := match voters t !! voter with
            | Some (old_key, old_power) => withdraw old_key old_power (buckets t)
            | None => buckets t
            end in
  t <| voters := <[voter := (key, p)]> (voters t) |> <| buckets := deposit key p bs |>.

Definition VoteTally_merge (t other : VoteTally) vset : VoteTally * result unit TallyError :=
  (track (foldl merge_vote t (btree_iter (voters other))) inc_votes_added, Ok tt).

Definition VoteTally_is_empty (t : VoteTally) : bool := bool_decide (voters t = ∅).
End tally.

(** ** Threshold arithmetic *)

Lemma quorum_threshold_eq total :
  0 < total < 2 ^ 63 → quorum_threshold total = (total * 2) `div` 3 + 1.
Proof.
  intros Ht. unfold quorum_threshold. destruct (Z.eqb_spec total 0); [lia|].
  assert ((total * 2) `div` 3 ≤ total * 2) by (apply Z.div_le_upper_bound; lia).
  assert (0 ≤ (total * 2) `div` 3) by (apply Z.div_pos; lia).
  by autorewrite with machine.
Qed.

Lemma quorum_threshold_bounds total :
  0 < total < 2 ^ 63 →
  2 * total < 3 * quorum_threshold total ≤ 2 * total + 3 ∧ quorum_threshold total ≤ total.
Proof.
  intros Ht. rewrite quorum_threshold_eq by done.
  pose proof (Z.div_mod (total * 2) 3). pose proof (Z.mod_pos_bound (total * 2) 3). lia.
Qed.

(** ** Buckets as sums over the voters *)

Definition bucket_power (b : Candidate) (vs : gmap PublicKeyBytes (Candidate * Z)) : Z :=
  map_sum (λ _ v, if decide (v.1 = b) then v.2 else 0) vs.

(** The bucket table lists exactly the candidates that have power. *)
Definition buckets_of (bs : gmap Candidate Z) (vs : gmap PublicKeyBytes (Candidate * Z)) : Prop :=
  ∀ b, bs !! b = if bucket_power b vs =? 0 then None else Some (bucket_power b vs).

Definition powers_pos (vs : gmap PublicKeyBytes (Candidate * Z)) : Prop :=
  ∀ k v, vs !! k = Some v → 0 < v.2.

Lemma bucket_power_nonneg b vs : powers_pos vs → 0 ≤ bucket_power b vs.
Proof.
  intros Hp. apply map_sum_nonneg. intros k v Hk. apply Hp in Hk. case_decide; lia.
Qed.

Lemma bucket_power_delete b vs k b' p :
  vs !! k = Some (b', p) →
  bucket_power b vs = (if decide (b' = b) then p else 0) + bucket_power b (delete k vs).
Proof. intros Hk. unfold bucket_power. by rewrite (map_sum_delete _ vs k (b', p)). Qed.

Lemma bucket_power_insert b vs k b' p :
  vs !! k = None →
  bucket_power b (<[k := (b', p)]> vs) = (if decide (b' = b) then p else 0) + bucket_power b vs.
Proof. intros Hk. unfold bucket_power. by rewrite map_sum_insert_None. Qed.

Lemma powers_pos_delete vs k : powers_pos vs → powers_pos (delete k vs).
Proof. intros Hp k' v [_ ?]%lookup_delete_Some. eauto. Qed.

Lemma buckets_of_default bs vs b :
  buckets_of bs vs → default 0 (bs !! b) = bucket_power b vs.
Proof. intros ->. destruct (Z.eqb_spec (bucket_power b vs) 0); simpl; lia. Qed.

Lemma withdraw_buckets_of bs vs k b p :
  powers_pos vs → buckets_of bs vs → vs !! k = Some (b, p) →
  buckets_of (withdraw b p bs) (delete k vs).
Proof.
  intros Hpos Hbs Hk. unfold withdraw. pose proof (Hpos _ _ Hk) as Hp. simpl in Hp.
  pose proof (bucket_power_nonneg b (delete k vs) (powers_pos_delete _ k Hpos)).
  pose proof (bucket_power_delete b vs k b p Hk) as Hb. rewrite decide_True in Hb by done.
  rewrite (Hbs b). destruct (Z.eqb_spec (bucket_power b vs) 0); [lia|].
  rewrite sat_sub_exact by lia. replace (_ - p) with (bucket_power b (delete k vs)) by lia.
  intros b'. pose proof (bucket_power_delete b' vs k b p Hk) as Hb'.
  destruct (decide (b = b')) as [<-|Hne].
  - destruct (bucket_power b (delete k vs) =? 0); simplify_map_eq; done.
  - rewrite Z.add_0_l in Hb'. rewrite <-Hb', <-(Hbs b').
    destruct (bucket_power b (delete k vs) =? 0); by simplify_map_eq.
Qed.

Lemma deposit_buckets_of bs vs k b p :
  powers_pos vs → buckets_of bs vs → vs !! k = None → 0 < p →
  p + bucket_power b vs ≤ U64_MAX →
  buckets_of (deposit b p bs) (<[k := (b, p)]> vs).
Proof.
  intros Hpos Hbs Hk Hp Hmax b'. unfold deposit. rewrite (buckets_of_default bs vs b Hbs).
  rewrite bucket_power_insert, sat_add64_exact by (done || lia).
  pose proof (bucket_power_nonneg b vs Hpos). destruct (decide (b = b')) as [<-|Hne].
  - rewrite lookup_insert_eq. destruct (Z.eqb_spec (p + bucket_power b vs) 0); [lia|].
    f_equal. lia.
  - rewrite lookup_insert_ne, (Hbs b') by done. by rewrite Z.add_0_l.
Qed.

(** ** The invariant of the tally *)

Section tally_inv.
Context `{PowerTableLaws VS valid}.
Implicit Types (vset : VS) (t : VoteTally).

(** Recorded votes carry their voter's power and the buckets add them up. *)
Record tally_inv vset t : Prop := {
  ti_power k b p : voters t !! k = Some (b, p) → power_of vset k = Some p;
  ti_buckets : buckets_of (buckets t) (voters t);
}.

Lemma tally_powers_pos vset t : valid vset → tally_inv vset t → powers_pos (voters t).
Proof. intros Hv [Hp _] k [b p] Hk. apply Hp, power_of_pos in Hk; simpl; [lia|done]. Qed.

(** Power of the voters that a predicate on their candidate selects. *)
Lemma selected_power_le vset vs (sel : Candidate → bool) :
  valid vset → (∀ k b p, vs !! k = Some (b, p) → power_of vset k = Some p) →
  map_sum (λ _ v, if sel v.1 then v.2 else 0) vs ≤ total_power vset.
Proof.
  intros Hv Hvs. etransitivity; [|apply (power_of_keys_le vset (map_to_list vs).*1);
    [done|apply NoDup_fst_map_to_list]].
  unfold power_of_keys. rewrite sumZ_fmap. apply sumZ_le.
  intros [k [b p]] Hk%elem_of_map_to_list. apply Hvs in Hk as Hp. simpl. rewrite Hp. simpl.
  apply power_of_pos in Hp; [|done]. destruct (sel b); lia.
Qed.

Lemma bucket_power_le vset vs b :
  valid vset → (∀ k b p, vs !! k = Some (b, p) → power_of vset k = Some p) →
  bucket_power b vs ≤ total_power vset.
Proof.
  intros Hv Hvs. etransitivity; [|by apply (selected_power_le vset vs (λ b', bool_decide (b' = b)))].
  apply map_sum_le. intros k v _. case_bool_decide; case_decide; done || lia.
Qed.

(** Two different candidates split the total between them. *)
Lemma bucket_power_disjoint vset vs b1 b2 :
  valid vset → (∀ k b p, vs !! k = Some (b, p) → power_of vset k = Some p) →
  b1 ≠ b2 → bucket_power b1 vs + bucket_power b2 vs ≤ total_power vset.
Proof.
  intros Hv Hvs Hne. unfold bucket_power. rewrite <-map_sum_add.
  etransitivity; [|by apply (selected_power_le vset vs (λ _, true))].
  apply map_sum_le. intros k [b p] Hk. apply Hvs, power_of_pos in Hk; [|done]. simpl.
  repeat case_decide; simplify_eq; lia.
Qed.

Lemma tally_power_for vset t b :
  tally_inv vset t → VoteTally_power_for t b = bucket_power b (voters t).
Proof. intros [_ Hb]. unfold VoteTally_power_for. by apply buckets_of_default. Qed.
End tally_inv.

(** ** Theorems *)

Section tally_theorems.
Context `{PowerTableLaws VS valid}.
Implicit Types (vset : VS) (t : VoteTally).

Lemma tally_inv_track vset t f : tally_inv vset (track t f) ↔ tally_inv vset t.
Proof. unfold track. destruct (track_metrics _); split; intros [? ?]; by split. Qed.

Lemma tally_inv_empty vset c m :
  tally_inv vset {| buckets := ∅; voters := ∅; tconfig := c; tmetrics := m |}.
Proof. by split. Qed.

(** Recording [k]'s vote in a table from which its old vote was withdrawn. *)
Lemma tally_inv_record vset t k b p bs :
  valid vset → tally_inv vset t → power_of vset k = Some p →
  buckets_of bs (delete k (voters t)) →
  tally_inv vset (t <| voters := <[k := (b, p)]> (voters t) |> <| buckets := deposit b p bs |>).
Proof.
  intros Hv Hinv Hp Hbs. pose proof (tally_powers_pos _ _ Hv Hinv) as Hpos.
  assert (∀ k' b' p', <[k := (b, p)]> (voters t) !! k' = Some (b', p') →
    power_of vset k' = Some p') as Hvs.
  { intros k' b' p' [[-> ?]|[_ ?]]%lookup_insert_Some; [congruence|by eapply ti_power]. }
  split; [done|]. simpl. rewrite <-insert_delete_eq.
  apply deposit_buckets_of; [by apply powers_pos_delete|done|by simplify_map_eq| |].
  - apply power_of_pos in Hp; [lia|done].
  - pose proof (bucket_power_le vset _ b Hv Hvs) as Hle.
    rewrite <-insert_delete_eq, bucket_power_insert, decide_True in Hle by (done || by simplify_map_eq).
    pose proof (total_power_u64 vset Hv). lia.
Qed.

Lemma withdraw_inv vset t k :
  valid vset → tally_inv vset t →
  buckets_of (match voters t !! k with
              | Some (b, p) => withdraw b p (buckets t)
              | None => buckets t
              end) (delete k (voters t)).
Proof.
  intros Hv Hinv. destruct (voters t !! k) as [[b p]|] eqn:Hk.
  - apply withdraw_buckets_of; [by eapply tally_powers_pos|by eapply ti_buckets|done].
  - rewrite delete_id by done. by eapply ti_buckets.
Qed.

Lemma add_vote_inv vset t k b :
  valid vset → tally_inv vset t → tally_inv vset (VoteTally_add_vote t vset k b).1.
Proof.
  intros Hv Hinv. unfold VoteTally_add_vote.
  destruct (power_of vset k) as [p|] eqn:Hp; [|done].
  pose proof (withdraw_inv vset t k Hv Hinv) as Hw.
  destruct (voters t !! k) as [[b' p']|] eqn:Hk; [destruct (allow_duplicate_votes _)|];
    simpl; rewrite tally_inv_track; by try apply tally_inv_record.
Qed.

Lemma merge_vote_inv vset t e :
  valid vset → tally_inv vset t → power_of vset e.1 = Some e.2.2 →
  tally_inv vset (merge_vote t e).
Proof.
  intros Hv Hinv Hp. destruct e as [k [b p]]. simpl in *.
  apply tally_inv_record; [done..|]. by apply (withdraw_inv vset).
Qed.

Lemma merge_inv vset t other :
  valid vset → tally_inv vset t → tally_inv vset other →
  tally_inv vset (VoteTally_merge t other vset).1.
Proof.
  intros Hv Ht Ho. unfold VoteTally_merge. simpl. rewrite tally_inv_track.
  assert (∀ e, e ∈ btree_iter (voters other) → power_of vset e.1 = Some e.2.2) as Hall.
  { intros [k [b p]] Hk%elem_of_btree_iter. by eapply ti_power. }
  revert t Ht. induction (btree_iter (voters other)) as [|e l IH]; intros t Ht; simpl; [done|].
  apply IH; [set_solver|]. apply merge_vote_inv; [done..|]. apply Hall. left.
Qed.

Lemma clear_inv vset t : tally_inv vset (VoteTally_clear t).
Proof. by split. Qed.

Lemma best_inv vset t : tally_inv vset t → tally_inv vset (VoteTally_best t).1.
Proof. intros. unfold VoteTally_best. simpl. by apply tally_inv_track. Qed.

(** ** Best candidate *)

Lemma max_by_power_spec (l : list (Candidate * Z)) :
  match max_by_power l with
  | None => l = []
  | Some m => m ∈ l ∧ ∀ e, e ∈ l → e.2 ≤ m.2
  end.
Proof.
  unfold max_by_power. induction l as [|e l IH] using rev_ind; [done|].
  rewrite foldl_app. simpl. destruct (foldl _ None l) as [m|].
  - destruct IH as [Hm Hle]. destruct (Z.leb_spec m.2 e.2).
    + split; [set_solver|]. intros e' [He'| ->%list_elem_of_singleton]%elem_of_app; [|lia].
      apply Hle in He'. lia.
    + split; [set_solver|]. intros e' [He'| ->%list_elem_of_singleton]%elem_of_app; [by apply Hle|lia].
  - subst. split; [set_solver|]. intros e' He'. assert (e' = e) as -> by set_solver. lia.
Qed.

Lemma best_ok t m :
  (VoteTally_best t).2 = Ok m →
  buckets t !! m.1 = Some m.2 ∧ ∀ b p, buckets t !! b = Some p → p ≤ m.2.
Proof.
  unfold VoteTally_best. simpl. pose proof (max_by_power_spec (btree_iter (buckets t))) as Hmax.
  destruct (max_by_power _) as [m'|]; simpl; [|done]. intros [= ->].
  destruct Hmax as [Hm Hle]. split.
  - apply elem_of_btree_iter. by destruct m.
  - intros b p Hb%elem_of_btree_iter. by apply Hle in Hb.
Qed.

Lemma best_err t e : (VoteTally_best t).2 = Err e → e = NoVotes ∧ buckets t = ∅.
Proof.
  unfold VoteTally_best. simpl. pose proof (max_by_power_spec (btree_iter (buckets t))) as Hmax.
  destruct (max_by_power _); simpl; [done|]. intros [= ->].
  by rewrite <-btree_iter_nil.
Qed.

(** ** Call sequences *)

(** The calls that change a tally; [TMerge] merges a tally that was itself
    built by a call sequence. *)
Inductive tally_call :=
| TAdd (voter : PublicKeyBytes) (bid : Candidate)
| TBest
| TClear
| TMerge (cfg : TallyConfig) (other : list (PublicKeyBytes * Candidate)).

Definition add_votes vset t (l : list (PublicKeyBytes * Candidate)) : VoteTally :=
  foldl (λ t e, (VoteTally_add_vote t vset e.1 e.2).1) t l.

Definition tally_empty (c : TallyConfig) : VoteTally :=
  {| buckets := ∅; voters := ∅; tconfig := c; tmetrics := TallyMetrics_default |}.

Definition tally_step vset t (c : tally_call) : VoteTally :=
  match c with
  | TAdd k b => (VoteTally_add_vote t vset k b).1
  | TBest => (VoteTally_best t).1
  | TClear => VoteTally_clear t
  | TMerge cfg l => (VoteTally_merge t (add_votes vset (tally_empty cfg) l) vset).1
  end.

Definition tally_run vset t (cs : list tally_call) : VoteTally := foldl (tally_step vset) t cs.

Lemma add_votes_inv vset t l : valid vset → tally_inv vset t → tally_inv vset (add_votes vset t l).
Proof.
  intros Hv. revert t. induction l as [|e l IH]; intros t Ht; simpl; [done|].
  by apply IH, add_vote_inv.
Qed.

Lemma tally_run_inv vset t cs : valid vset → tally_inv vset t → tally_inv vset (tally_run vset t cs).
Proof.
  intros Hv. revert t. induction cs as [|c cs IH]; intros t Ht; simpl; [done|].
  apply IH. destruct c; simpl.
  - by apply add_vote_inv.
  - by apply best_inv.
  - apply clear_inv.
  - apply merge_inv; [done..|]. apply add_votes_inv, tally_inv_empty. done.
Qed.

(** Only one candidate can hold a quorum of the total. *)
Lemma quorum_unique vset t b1 b2 :
  valid vset → tally_inv vset t → 0 < total_power vset < 2 ^ 63 →
  meets_quorum (VoteTally_power_for t b1) (total_power vset) = true →
  meets_quorum (VoteTally_power_for t b2) (total_power vset) = true → b1 = b2.
Proof.
  unfold meets_quorum. intros Hv Hinv Ht H1%Z.leb_le H2%Z.leb_le.
  destruct (decide (b1 = b2)) as [|Hne]; [done|].
  rewrite (tally_power_for vset) in H1, H2 by done.
  pose proof (bucket_power_disjoint vset (voters t) b1 b2 Hv (ti_power _ _ Hinv) Hne).
  pose proof (quorum_threshold_bounds _ Ht). lia.
Qed.

(** A candidate that holds a quorum is the one [best] returns. *)
Lemma best_is_quorum vset t b :
  valid vset → tally_inv vset t → 0 < total_power vset < 2 ^ 63 →
  meets_quorum (VoteTally_power_for t b) (total_power vset) = true →
  (VoteTally_best t).2 = Ok (b, VoteTally_power_for t b).
Proof.
  intros Hv Hinv Ht Hq. pose proof (quorum_threshold_bounds _ Ht) as Hth.
  assert (0 < VoteTally_power_for t b) as Hpos by (apply Z.leb_le in Hq; lia).
  assert (buckets t !! b = Some (VoteTally_power_for t b)) as Hb.
  { unfold VoteTally_power_for in *. destruct (buckets t !! b); simpl in *; [done|lia]. }
  destruct ((VoteTally_best t).2) as [[b' p']|e] eqn:Hbest.
  - apply best_ok in Hbest as [Hb' Hle]. apply Hle in Hb as Hp. simpl in *.
    assert (VoteTally_power_for t b' = p') as Hp' by (unfold VoteTally_power_for; by rewrite Hb').
    assert (b' = b) as ->; [|congruence].
    apply (quorum_unique vset t); [done..| |done]. apply Z.leb_le in Hq. apply Z.leb_le. lia.
  - apply best_err in Hbest as [_ He]. by rewrite He, lookup_empty in Hb.
Qed.

(** after any sequence of [add_vote], [best], [clear] and [merge] calls on a
    tally that starts empty, the power reported for a candidate is the sum of
    the validator-set powers of the voters recorded for it, no saturating
    addition having lost anything. *)
Lemma tally_run_correct vset cfg cs b :
  valid vset →
  let t := tally_run vset (tally_empty cfg) cs in
  VoteTally_power_for t b =
    map_sum (λ k v, if decide (v.1 = b) then default 0 (power_of vset k) else 0) (voters t) ∧
  VoteTally_power_for t b ≤ total_power vset.
Proof.
  intros Hv t. assert (tally_inv vset t) as Hinv by (apply tally_run_inv, tally_inv_empty; done).
  rewrite (tally_power_for vset) by done. split.
  - apply map_sum_ext. intros k [b' p] Hk. apply (ti_power _ _ Hinv) in Hk. simpl. by rewrite Hk.
  - apply bucket_power_le; [done|]. apply (ti_power _ _ Hinv).
Qed.

(** as long as the total power is below [2^63], at most one candidate of a
    tally holds a quorum, and when one does, [best], [quorum_candidate] and
    [has_quorum] all report it. *)
Lemma quorum_decision vset cfg cs b :
  valid vset → 0 < total_power vset < 2 ^ 63 →
  let t := tally_run vset (tally_empty cfg) cs in
  meets_quorum (VoteTally_power_for t b) (total_power vset) = true →
  (VoteTally_best t).2 = Ok (b, VoteTally_power_for t b) ∧
  VoteTally_quorum_candidate t (total_power vset) = Some (b, VoteTally_power_for t b) ∧
  VoteTally_has_quorum t (total_power vset) = true ∧
  ∀ b', b' ≠ b → meets_quorum (VoteTally_power_for t b') (total_power vset) = false.
Proof.
  intros Hv Ht t Hq. assert (tally_inv vset t) as Hinv by (apply tally_run_inv, tally_inv_empty; done).
  pose proof (best_is_quorum vset t b Hv Hinv Ht Hq) as Hbest. split; [done|].
  apply best_ok in Hbest as [Hb _]. simpl in Hb. pose proof Hb as Hel.
  apply elem_of_btree_iter in Hel. apply Z.leb_le in Hq as Hq'. split_and!.
  - unfold VoteTally_quorum_candidate.
    destruct (list_find _ _) as [[i [b' p']]|] eqn:Hf; simpl.
    + apply list_find_Some in Hf as (Hi & Hp & _). simpl in Hp.
      apply list_elem_of_lookup_2, elem_of_btree_iter in Hi.
      assert (VoteTally_power_for t b' = p') as Hp' by (unfold VoteTally_power_for; by rewrite Hi).
      assert (b' = b) as ->; [|congruence].
      apply (quorum_unique vset t); [done..| |done]. apply Z.leb_le. lia.
    + apply list_find_None in Hf. rewrite Forall_forall in Hf. by apply Hf in Hel.
  - unfold VoteTally_has_quorum. apply existsb_exists. eexists. split; [by apply list_elem_of_In|].
    by apply Z.leb_le.
  - intros b' Hne. destruct (meets_quorum (VoteTally_power_for t b') _) eqn:Hq2; [|done].
    destruct Hne. by apply (quorum_unique vset t).
Qed.

(** Two quorums overlap in more than a third of the power. *)
Lemma quorum_overlap vset ks1 ks2 :
  valid vset → 0 < total_power vset < 2 ^ 63 → NoDup ks1 → NoDup ks2 →
  meets_quorum (power_of_keys vset ks1) (total_power vset) = true →
  meets_quorum (power_of_keys vset ks2) (total_power vset) = true →
  total_power vset < 3 * power_of_keys vset (filter (λ k, k ∈ ks2) ks1).
Proof.
  intros Hv Ht Hk1 Hk2 H1%Z.leb_le H2%Z.leb_le. pose proof (quorum_threshold_bounds _ Ht).
  unfold power_of_keys in H1. rewrite (sumZ_filter_split _ (λ k, k ∈ ks2)) in H1.
  fold (power_of_keys vset (filter (λ k, k ∈ ks2) ks1)) in H1.
  assert (NoDup (filter (λ k, ¬ k ∈ ks2) ks1 ++ ks2)) as Hnd.
  { apply NoDup_app. split_and!; [by apply NoDup_filter| |done].
    intros k [Hk _]%list_elem_of_filter. done. }
  pose proof (power_of_keys_le vset _ Hv Hnd) as Hle.
  unfold power_of_keys in Hle, H2. rewrite sumZ_app in Hle. lia.
Qed.

(** Quorum intersection. Two sets of distinct validators that each meet the
    quorum threshold have more than a third of the total power in common. *)
Lemma quorum_intersection vset ks1 ks2 :
  valid vset → 0 < total_power vset < 2 ^ 63 → NoDup ks1 → NoDup ks2 →
  meets_quorum (power_of_keys vset ks1) (total_power vset) = true →
  meets_quorum (power_of_keys vset ks2) (total_power vset) = true →
  total_power vset < 3 * power_of_keys vset (filter (λ k, k ∈ ks2) ks1).
Proof. apply quorum_overlap. Qed.

(** With duplicates disallowed, a second vote of a validator, whatever its
    candidate, is refused with [DuplicateVote] and leaves votes and powers as
    they were; a vote of an unknown key changes nothing at all. *)
Lemma add_vote_rejects vset t k b :
  allow_duplicate_votes (tconfig t) = false →
  is_Some (voters t !! k) ∨ power_of vset k = None →
  let '(t', r) := VoteTally_add_vote t vset k b in
  r = Err (match power_of vset k with
           | Some _ => DuplicateVote (take 4 k)
           | None => TallyValidatorNotFound
           end) ∧
  voters t' = voters t ∧ buckets t' = buckets t.
Proof.
  intros Hcfg Hk. unfold VoteTally_add_vote. destruct (power_of vset k) as [p|]; [|done].
  destruct Hk as [[[b' p'] ->]|]; [|done]. rewrite Hcfg. unfold track.
  by destruct (track_metrics _).
Qed.

(** Votes of distinct validators, added to a tally that has none of them. *)
Lemma add_votes_voters vset t l :
  NoDup l.*1 → (∀ k, k ∈ l.*1 → voters t !! k = None ∧ is_Some (power_of vset k)) →
  voters (add_votes vset t l) =
    list_to_map ((λ e, (e.1, (e.2, default 0 (power_of vset e.1)))) <$> l) ∪ voters t.
Proof.
  revert t. induction l as [|[k b] l IH]; intros t Hnd Hl; [symmetry; apply (left_id_L ∅ (∪))|].
  rewrite fmap_cons in *. apply NoDup_cons in Hnd as [Hk Hnd]. simpl in Hk.
  destruct (Hl k) as [Hnone [p Hp]]; [left|].
  assert (voters (VoteTally_add_vote t vset k b).1 = <[k := (b, p)]> (voters t)) as Hstep.
  { unfold VoteTally_add_vote. rewrite Hp, Hnone. unfold track. simpl. by destruct (track_metrics _). }
  simpl. unfold add_votes in *. simpl. rewrite IH; [|done|].
  - rewrite Hstep, Hp. simpl. rewrite <-insert_union_r; [by rewrite insert_union_l|].
    apply not_elem_of_list_to_map_1. rewrite <-list_fmap_compose. by rewrite <-Hk || exact Hk.
  - intros k' Hk'. rewrite Hstep. destruct (Hl k') as [? ?]; [by right|].
    rewrite lookup_insert_ne; [done|]. intros ->. done.
Qed.

(** C30: The outcome of a round of votes does not depend on the order in which
    they arrive: adding the votes of distinct validators in any order gives the
    same voters, the same bucket table and the same winner. *)
Theorem tally_order_independent vset cfg l1 l2 :
  valid vset → NoDup l1.*1 → (∀ k, k ∈ l1.*1 → is_Some (power_of vset k)) → l1 ≡ₚ l2 →
  let t1 := add_votes vset (tally_empty cfg) l1 in
  let t2 := add_votes vset (tally_empty cfg) l2 in
  voters t1 = voters t2 ∧ buckets t1 = buckets t2 ∧
  (VoteTally_best t1).2 = (VoteTally_best t2).2.
Proof.
  intros Hv Hnd Hl Hperm t1 t2.
  assert (tally_inv vset t1 ∧ tally_inv vset t2) as [[_ H1] [_ H2]]
    by (split; apply add_votes_inv, tally_inv_empty; done).
  assert (voters t1 = voters t2) as Hvs.
  { assert (∀ l, l ≡ₚ l1 → NoDup l.*1 ∧ ∀ k, k ∈ l.*1 →
      voters (tally_empty cfg) !! k = None ∧ is_Some (power_of vset k)) as Hside.
    { intros l Hll. split; [by rewrite Hll|]. intros k. rewrite Hll. by split; [|apply Hl]. }
    unfold t1, t2. rewrite (add_votes_voters _ _ l1), (add_votes_voters _ _ l2)
      by (apply Hside; by rewrite ?Hperm).
    f_equal. apply list_to_map_proper; [|by rewrite Hperm].
    by rewrite <-list_fmap_compose. }
  assert (buckets t1 = buckets t2) as Hbs.
  { apply map_eq. intros b. by rewrite (H1 b), (H2 b), Hvs. }
  split_and!; [done..|]. unfold VoteTally_best. simpl. by rewrite Hbs.
Qed.
End tally_theorems.

(** For a total power below [2^63] the threshold is the least power that is
    strictly more than two thirds of the total, and the full set reaches it. *)
Lemma quorum_threshold_spec total p :
  0 < total < 2 ^ 63 →
  (meets_quorum p total = true ↔ 2 * total < 3 * p) ∧ meets_quorum total total = true.
Proof.
  intros Ht. unfold meets_quorum. rewrite !Z.leb_le. pose proof (quorum_threshold_bounds _ Ht).
  lia.
Qed.

(** From a total power of [2^63] on, [total * 2] wraps around: one unit of
    power is then a quorum of [2^63], and for no such total does the threshold
    exceed two thirds. *)
Lemma quorum_threshold_overflow :
  quorum_threshold (2 ^ 63) = 1 ∧
  ∀ total, 2 ^ 63 ≤ total ≤ U64_MAX → 3 * quorum_threshold total ≤ total + 1.
Proof.
  split; [done|]. unfold U64_MAX. intros total Ht. unfold quorum_threshold, add64, mul64.
  destruct (Z.eqb_spec total 0); [lia|].
  assert (wrap64 (total * 2) = total * 2 - 2 ^ 64) as ->.
  { unfold wrap64. symmetry. apply (Z.mod_unique _ _ 1); lia. }
  pose proof (Z.div_mod (total * 2 - 2 ^ 64) 3). pose proof (Z.mod_pos_bound (total * 2 - 2 ^ 64) 3).
  rewrite wrap64_small by mach. lia.
Qed.

(** ** Witnesses *)

Definition ex_block : Candidate := Some (7 :: replicate 31 0).

(** Three of the four validators of [ex_vset] vote for the block, one for nil. *)
Definition ex_calls : list tally_call :=
  [TAdd [1] ex_block; TAdd [2] ex_block; TBest; TAdd [4] None; TAdd [3] ex_block].

Definition ex_tally : VoteTally := tally_run ex_vset (tally_empty TallyConfig_default) ex_calls.

Lemma tally_run_correct_witness :
  VoteTally_power_for ex_tally ex_block =
    map_sum (λ k v, if decide (v.1 = ex_block) then default 0 (power_of ex_vset k) else 0)
      (voters ex_tally) ∧
  VoteTally_power_for ex_tally ex_block ≤ total_power ex_vset.
Proof. apply (tally_run_correct ex_vset TallyConfig_default ex_calls ex_block), ex_vset_valid. Defined.

Lemma quorum_decision_witness :
  (VoteTally_best ex_tally).2 = Ok (ex_block, VoteTally_power_for ex_tally ex_block) ∧
  VoteTally_quorum_candidate ex_tally (total_power ex_vset) =
    Some (ex_block, VoteTally_power_for ex_tally ex_block) ∧
  VoteTally_has_quorum ex_tally (total_power ex_vset) = true ∧
  ∀ b', b' ≠ ex_block →
    meets_quorum (VoteTally_power_for ex_tally b') (total_power ex_vset) = false.
Proof.
  apply (quorum_decision ex_vset TallyConfig_default ex_calls ex_block);
    [apply ex_vset_valid|vm_compute; split; reflexivity|vm_compute; reflexivity].
Defined.

Lemma quorum_intersection_witness :
  total_power ex_vset <
  3 * power_of_keys ex_vset (filter (λ k, k ∈ [[2]; [3]; [4]]) [[1]; [2]; [3]]).
Proof.
  apply (quorum_intersection ex_vset [[1]; [2]; [3]] [[2]; [3]; [4]]);
    [apply ex_vset_valid|vm_compute; split; reflexivity
    |apply (bool_decide_unpack _); vm_compute; exact I
    |apply (bool_decide_unpack _); vm_compute; exact I
    |vm_compute; reflexivity|vm_compute; reflexivity].
Defined.

Lemma add_vote_rejects_witness :
  let '(t', r) := VoteTally_add_vote ex_tally ex_vset [1] None in
  r = Err (match power_of ex_vset [1] with
           | Some _ => DuplicateVote (take 4 [1])
           | None => TallyValidatorNotFound
           end) ∧
  voters t' = voters ex_tally ∧ buckets t' = buckets ex_tally.
Proof.
  apply (add_vote_rejects ex_vset ex_tally [1] None); [vm_compute; reflexivity|].
  left. vm_compute. eexists. reflexivity.
Defined.

Lemma tally_order_independent_witness :
  let t1 := add_votes ex_vset (tally_empty TallyConfig_default) [([1], ex_block); ([2], None)] in
  let t2 := add_votes ex_vset (tally_empty TallyConfig_default) [([2], None); ([1], ex_block)] in
  voters t1 = voters t2 ∧ buckets t1 = buckets t2 ∧
  (VoteTally_best t1).2 = (VoteTally_best t2).2.
Proof.
  apply (tally_order_independent ex_vset TallyConfig_default
           [([1], ex_block); ([2], None)] [([2], None); ([1], ex_block)]);
    [apply ex_vset_valid|apply (bool_decide_unpack _); vm_compute; exact I| |constructor].
  intros k. simpl. rewrite !elem_of_cons. intros [->|[->|Hk]]; [by eexists|by eexists|set_solver].
Defined.

Lemma quorum_threshold_spec_witness :
  (meets_quorum 67 100 = true ↔ 2 * 100 < 3 * 67) ∧ meets_quorum 100 100 = true.
Proof. apply (quorum_threshold_spec 100 67). lia. Defined.
