(* ===== verification/DoubleSign.v ===== *)
(** * Double-sign guard ([src/src/consensus/double_sign.rs]).

    The set of signed keys, its pruning and eviction, the checks before and the
    records after signing, and the state file. The file at the guard's path
    ([ionafs::read] and [ionafs::write], which reports no error) is the field
    [file]; the postcard encoding of the set is the interface [GuardCodec].
    Prometheus counters, log lines and the locking [DoubleSignManager] are not
    modelled. *)

From Stdlib Require Import ZArith Lia Bool.
From stdpp Require Import base gmap sets list strings sorting.
From S2P Require Import Prelude Types Messages.

Local Open Scope Z_scope.

(** ** Data *)

Record DoubleSignConfig := mkDoubleSignConfig {
  persist : bool;
  max_entries : Z;
  prune_below : Z;
  verbose_logging : bool;
  ds_enable_metrics : bool;
}.

Definition DoubleSignConfig_default : DoubleSignConfig :=
  {| persist := true; max_entries := 10000; prune_below := 1000;
     verbose_logging := false; ds_enable_metrics := false |}.

Inductive DoubleSignError :=
| Conflict (height : Height) (round : Round)
| DsIo (s : string)
| DsSerialization
| DsConfig (s : string)
| DsIntegerOverflow.

Inductive SignedKey :=
| SProposal (height : Height) (round : Round) (block_id : Hash32)
| SVote (vote_type : Z) (height : Height) (round : Round) (block_id : option Hash32).

#[export] Instance SignedKey_eq_dec : EqDecision SignedKey.
Proof. solve_decision. Defined.

#[export] Instance SignedKey_countable : Countable SignedKey.
Proof.
  apply (inj_countable'
    (λ k, match k with
          | SProposal h r b => inl (h, r, b)
          | SVote t h r b => inr (t, h, r, b)
          end)
    (λ s, match s with
          | inl (h, r, b) => SProposal h r b
          | inr (t, h, r, b) => SVote t h r b
          end)).
  by intros [].
Defined.

(** The derived [Ord]: the variant first, then the fields in declaration order. *)
Definition SignedKey_tuple (k : SignedKey) : Z * (Z * (Z * (Z * option (list Z)))) :=
  match k with
  | SProposal h r b => (0, (0, (h, (r, Some b))))
  | SVote t h r b => (1, (t, (h, (r, b))))
  end.

#[export] Instance SignedKey_keyord : KeyOrd SignedKey :=
  keyord_via SignedKey_tuple ltac:(intros [] []; simpl; congruence).

Definition SignedKey_height (k : SignedKey) : Height :=
  match k with SProposal h _ _ => h | SVote _ h _ _ => h end.

Definition SignedKey_height_round (k : SignedKey) : Height * Round :=
  match k with SProposal h r _ => (h, r) | SVote _ h r _ => (h, r) end.

Definition SignedKey_block_hash (k : SignedKey) : option Hash32 :=
  match k with SProposal _ _ b => Some b | SVote _ _ _ b => b end.

Record AtomicDoubleSignMetrics := mkDsMetrics {
  checks : Z; conflicts : Z; records : Z; loads : Z; persists : Z; pruned : Z;
}.

Record DoubleSignGuard := mkGuard {
  signed : gset SignedKey;
  dsconfig : DoubleSignConfig;
  dsmetrics : AtomicDoubleSignMetrics;
  highest_height : Height;
  file : option bytes;
}.

#[export] Instance eta_DsMetrics : Settable AtomicDoubleSignMetrics :=
  λ m, mkDsMetrics (checks m) (conflicts m) (records m) (loads m) (persists m) (pruned m).
#[export] Instance eta_Guard : Settable DoubleSignGuard :=
  λ g, mkGuard (signed g) (dsconfig g) (dsmetrics g) (highest_height g) (file g).

Definition inc_checks (g : DoubleSignGuard) : DoubleSignGuard :=
  g <| dsmetrics := (dsmetrics g) <| checks := add64 (checks (dsmetrics g)) 1 |> |>.
Definition inc_conflicts (g : DoubleSignGuard) : DoubleSignGuard :=
  g <| dsmetrics := (dsmetrics g) <| conflicts := add64 (conflicts (dsmetrics g)) 1 |> |>.
Definition inc_records (g : DoubleSignGuard) : DoubleSignGuard :=
  g <| dsmetrics := (dsmetrics g) <| records := add64 (records (dsmetrics g)) 1 |> |>.
Definition inc_loads (g : DoubleSignGuard) : DoubleSignGuard :=
  g <| dsmetrics := (dsmetrics g) <| loads := add64 (loads (dsmetrics g)) 1 |> |>.
Definition inc_persists (g : DoubleSignGuard) : DoubleSignGuard :=
  g <| dsmetrics := (dsmetrics g) <| persists := add64 (persists (dsmetrics g)) 1 |> |>.
Definition inc_pruned (n : Z) (g : DoubleSignGuard) : DoubleSignGuard :=
  g <| dsmetrics := (dsmetrics g) <| pruned := add64 (pruned (dsmetrics g)) n |> |>.

(** [postcard::to_vec(&signed)] and [postcard::from_bytes(&data)]; [None] is their error. *)
Class GuardCodec := {
  enc_signed : gset SignedKey → option bytes;
  dec_signed : bytes → option (gset SignedKey);
}.

(** Encoding a set of keys does not fail and decoding gives the set back. *)
Class GuardCodecLaws `{GuardCodec} : Prop := {
  enc_signed_total s : ∃ d, enc_signed s = Some d ∧ dec_signed d = Some s;
}.

(** ** Operations *)

Section guard.
Context `{GuardCodec}.
Implicit Types g : DoubleSignGuard.

Definition DoubleSignGuard_load g : DoubleSignGuard * result unit DoubleSignError :=
  match file g with
  | None => (g, Ok tt)
  | Some data =>
    match dec_signed data with
    | None => (g, Err DsSerialization)
    | Some s =>
      let g := inc_loads (g <| signed := s |>) in
      (match last (bset_iter s) with
       | Some k => g <| highest_height := SignedKey_height k |>
       | None => g
       end, Ok tt)
    end
  end.

(** [with_config] on a device whose file at the path holds [f]. *)
Definition DoubleSignGuard_with_config (f : option bytes) (config : DoubleSignConfig) :
    DoubleSignGuard :=
  let guard := {| signed := ∅; dsconfig := config; dsmetrics := mkDsMetrics 0 0 0 0 0 0;
                  highest_height := 0; file := f |} in
  if persist config then (DoubleSignGuard_load guard).1 else guard.

Definition DoubleSignGuard_new (f : option bytes) : DoubleSignGuard :=
  DoubleSignGuard_with_config f DoubleSignConfig_default.

Definition DoubleSignGuard_persist g : DoubleSignGuard * result unit DoubleSignError :=
  if negb (persist (dsconfig g)) then (g, Ok tt)
  else match enc_signed (signed g) with
       | None => (g, Err DsSerialization)
       | Some data => (inc_persists (g <| file := Some data |>), Ok tt)
       end.

Definition DoubleSignGuard_reload g : DoubleSignGuard * result unit DoubleSignError :=
  DoubleSignGuard_load g.

Definition DoubleSignGuard_entry_count g : Z := Z.of_nat (size (signed g)).

Definition DoubleSignGuard_prune g (current_height : Height) : DoubleSignGuard * Z :=
  if prune_below (dsconfig g) =? 0 then (g, 0)
  else
    let threshold := sat_sub current_height (prune_below (dsconfig g)) in
    let before := DoubleSignGuard_entry_count g in
    let g := g <| signed := filter (λ k, threshold ≤ SignedKey_height k) (signed g) |> in
    let n := before - DoubleSignGuard_entry_count g in
    if 0 <? n then
      let g := inc_pruned n g in
      (if persist (dsconfig g) then (DoubleSignGuard_persist g).1 else g, n)
    else (g, n).

(** The [while] loop of [enforce_max_entries]; one key goes per turn, so the
    size of the set is enough fuel. *)
Fixpoint evict (fuel : nat) (max : Z) (s : gset SignedKey) : gset SignedKey :=
  match fuel with
  | O => s
  | S fuel' =>
    if max <? Z.of_nat (size s) then
      match head (bset_iter s) with
      | Some first => evict fuel' max (s ∖ {[first]})
      | None => s
      end
    else s
  end.

Definition DoubleSignGuard_enforce_max_entries g : DoubleSignGuard :=
  if max_entries (dsconfig g) =? 0 then g
  else g <| signed := evict (size (signed g)) (max_entries (dsconfig g)) (signed g) |>.

(** The first lines of both checks: a new highest height prunes. *)
Definition note_height g (height : Height) : DoubleSignGuard :=
  if highest_height g <? height then
    let g := g <| highest_height := height |> in
    if 0 <? prune_below (dsconfig g) then (DoubleSignGuard_prune g height).1 else g
  else g.

Definition conflicts_proposal (height : Height) (round : Round) (block_id : Hash32)
    (k : SignedKey) : bool :=
  match k with
  | SProposal h r b => (h =? height) && (r =? round) && negb (bool_decide (b = block_id))
  | SVote _ _ _ _ => false
  end.

Definition conflicts_vote (vote_type : VoteType) (height : Height) (round : Round)
    (block_id : option Hash32) (k : SignedKey) : bool :=
  match k with
  | SVote t h r b =>
    (t =? VoteType_as_u8 vote_type) && (h =? height) && (r =? round) &&
    negb (bool_decide (b = block_id))
  | SProposal _ _ _ => false
  end.

Definition DoubleSignGuard_check_proposal g (height : Height) (round : Round)
    (block_id : Hash32) : DoubleSignGuard * result unit DoubleSignError :=
  let g := note_height (inc_checks g) height in
  if existsb (conflicts_proposal height round block_id) (bset_iter (signed g))
  then (inc_conflicts g, Err (Conflict height round))
  else (g, Ok tt).

Definition DoubleSignGuard_check_vote g (vote_type : VoteType) (height : Height)
    (round : Round) (block_id : option Hash32) : DoubleSignGuard * result unit DoubleSignError :=
  let g := note_height (inc_checks g) height in
  if existsb (conflicts_vote vote_type height round block_id) (bset_iter (signed g))
  then (inc_conflicts g, Err (Conflict height round))
  else (g, Ok tt).

(** The body the two [record_] methods share, from the insertion on. *)
Definition record_key g (key : SignedKey) : DoubleSignGuard * result unit DoubleSignError :=
  let g := inc_records (g <| signed := {[key]} ∪ signed g |>) in
  let g := DoubleSignGuard_enforce_max_entries g in
  if persist (dsconfig g) then DoubleSignGuard_persist g else (g, Ok tt).

Definition DoubleSignGuard_record_proposal g (height : Height) (round : Round)
    (block_id : Hash32) : DoubleSignGuard * result unit DoubleSignError :=
  record_key g (SProposal height round block_id).

Definition DoubleSignGuard_record_vote g (vote_type : VoteType) (height : Height)
    (round : Round) (block_id : option Hash32) : DoubleSignGuard * result unit DoubleSignError :=
  record_key g (SVote (VoteType_as_u8 vote_type) height round block_id).

Definition DoubleSignGuard_reset g : DoubleSignGuard * result unit DoubleSignError :=
  let g := g <| signed := ∅ |> <| highest_height := 0 |> in
  if persist (dsconfig g) then DoubleSignGuard_persist g else (g, Ok tt).

Definition DoubleSignGuard_has_proposal g (height : Height) (round : Round) : bool :=
  existsb (λ k, match k with SProposal h r _ => (h =? height) && (r =? round) | _ => false end)
    (bset_iter (signed g)).

Definition DoubleSignGuard_has_vote g (vote_type : VoteType) (height : Height) (round : Round) :
    bool :=
  existsb (λ k, match k with
                | SVote t h r _ =>
                  (t =? VoteType_as_u8 vote_type) && (h =? height) && (r =? round)
                | _ => false end) (bset_iter (signed g)).

(** [iter().find_map(f)] *)
Fixpoint find_map {A B} (f : A → option B) (l : list A) : option B :=
  match l with
  | [] => None
  | a :: l' => match f a with Some b => Some b | None => find_map f l' end
  end.

Definition DoubleSignGuard_proposal_block g (height : Height) (round : Round) : option Hash32 :=
  find_map (λ k, match k with
                 | SProposal h r b => if (h =? height) && (r =? round) then Some b else None
                 | _ => None end) (bset_iter (signed g)).

Definition DoubleSignGuard_vote_block g (vote_type : VoteType) (height : Height) (round : Round) :
    option (option Hash32) :=
  find_map (λ k, match k with
                 | SVote t h r b =>
                   if (t =? VoteType_as_u8 vote_type) && (h =? height) && (r =? round)
                   then Some b else None
                 | _ => None end) (bset_iter (signed g)).

Definition DoubleSignGuard_export_state g : result bytes DoubleSignError :=
  ok_or (enc_signed (signed g)) DsSerialization.

Definition DoubleSignGuard_import_state g (data : bytes) :
    DoubleSignGuard * result unit DoubleSignError :=
  match dec_signed data with
  | None => (g, Err DsSerialization)
  | Some s =>
    let g := g <| signed := s |> in
    if persist (dsconfig g) then DoubleSignGuard_persist g else (g, Ok tt)
  end.
End guard.

(** ** What each operation does to the set, the file and the height *)

(** The file mirrors the set whenever the guard is persistent. *)
Definition file_ok `{GuardCodec} (g : DoubleSignGuard) : Prop :=
  persist (dsconfig g) = true →
  match file g with
  | Some d => dec_signed d = Some (signed g)
  | None => signed g = ∅
  end.

Section guard_lemmas.
Context `{GuardCodecLaws}.
Implicit Types g : DoubleSignGuard.

Lemma persist_spec g g' r :
  DoubleSignGuard_persist g = (g', r) →
  r = Ok tt ∧ signed g' = signed g ∧ dsconfig g' = dsconfig g ∧
  highest_height g' = highest_height g ∧ file_ok g'.
Proof.
  unfold DoubleSignGuard_persist, file_ok.
  destruct (persist (dsconfig g)) eqn:Hp; simpl; [|intros [= <- <-]; by rewrite Hp].
  destruct (enc_signed_total (signed g)) as (d & -> & Hd). intros [= <- <-].
  split_and!; done.
Qed.

Lemma prune_spec g h :
  let g' := (DoubleSignGuard_prune g h).1 in
  signed g' =
    (if prune_below (dsconfig g) =? 0 then signed g
     else filter (λ k, sat_sub h (prune_below (dsconfig g)) ≤ SignedKey_height k) (signed g)) ∧
  dsconfig g' = dsconfig g ∧ highest_height g' = highest_height g ∧ (file_ok g → file_ok g').
Proof.
  unfold DoubleSignGuard_prune. destruct (prune_below (dsconfig g) =? 0); [done|].
  set (keep := filter _ (signed g)). set (g1 := g <| signed := keep |>).
  destruct (Z.ltb_spec 0 (DoubleSignGuard_entry_count g - DoubleSignGuard_entry_count g1)) as [Hn|Hn].
  - change (persist (dsconfig (inc_pruned _ g1))) with (persist (dsconfig g)).
    destruct (persist (dsconfig g)) eqn:Hp.
    + destruct (DoubleSignGuard_persist _) as [g2 r] eqn:E. apply persist_spec in E as (_ & Hs & Hc & Hh & Hf).
      cbn [fst]. rewrite Hs, Hc, Hh. done.
    + cbn [fst]. split_and!; [done..|]. intros _ Hp'. simpl in Hp'. congruence.
  - simpl. split_and!; [done..|]. intros Hf Hp. simpl. specialize (Hf Hp).
    assert (keep = signed g) as Hkeep; [|by rewrite Hkeep].
    apply set_eq. intros k. split; [set_solver|]. intros Hk.
    assert (keep ≡ signed g) as Heq; [|by apply Heq].
    unfold DoubleSignGuard_entry_count in Hn. simpl in Hn.
    apply set_subseteq_size_equiv; [set_solver|]. lia.
Qed.

Lemma note_height_spec g h :
  let g' := note_height g h in
  dsconfig g' = dsconfig g ∧ highest_height g' = Z.max (highest_height g) h ∧
  (file_ok g → file_ok g') ∧
  (∀ k, k ∈ signed g' → k ∈ signed g) ∧
  (∀ k, k ∈ signed g →
     prune_below (dsconfig g) ≤ 0 ∨ sat_sub h (prune_below (dsconfig g)) ≤ SignedKey_height k →
     k ∈ signed g').
Proof.
  unfold note_height. destruct (Z.ltb_spec (highest_height g) h) as [Hh|Hh]; simpl.
  2: { split_and!; [done|lia|done..]. }
  destruct (Z.ltb_spec 0 (prune_below (dsconfig g))) as [Hp|Hp]; simpl.
  2: { split_and!; [done|lia|done..]. }
  destruct (prune_spec (g <| highest_height := h |>) h) as (Hs & Hc & Hhh & Hf).
  rewrite Hc, Hhh. split_and!; [done|simpl; lia|done|..]; intros k; rewrite Hs; simpl;
    destruct (Z.eqb_spec (prune_below (dsconfig g)) 0); rewrite ?elem_of_filter; try lia; [tauto|].
  intros Hk [?|?]; [lia|]. split; [lia|done].
Qed.

Lemma evict_subseteq fuel max s : evict fuel max s ⊆ s.
Proof.
  revert s. induction fuel as [|fuel IH]; intros s; simpl; [done|].
  destruct (_ <? _); [|done]. destruct (head _); [|done]. rewrite IH. set_solver.
Qed.

(** The eviction loop ends with at most [max] keys. *)
Lemma evict_size fuel max s :
  (size s ≤ fuel)%nat → 0 ≤ max → Z.of_nat (size (evict fuel max s)) ≤ max.
Proof.
  revert s. induction fuel as [|fuel IH]; intros s Hs Hmax; simpl; [lia|].
  destruct (Z.ltb_spec max (Z.of_nat (size s))) as [Hlt|]; [|lia].
  destruct (bset_iter s) as [|k l] eqn:E; simpl.
  - assert (s = ∅) as ->; [|rewrite size_empty; lia].
    apply set_eq. intros k. rewrite <-elem_of_bset_iter, E. set_solver.
  - assert (k ∈ s) as Hk by (apply elem_of_bset_iter; rewrite E; left).
    apply IH; [|done]. rewrite size_difference, size_singleton by set_solver. lia.
Qed.

Lemma evict_small fuel max s : Z.of_nat (size s) ≤ max → evict fuel max s = s.
Proof. intros Hs. destruct fuel; simpl; [done|]. by destruct (Z.ltb_spec max (Z.of_nat (size s))); [lia|]. Qed.

(** There is room for one more key without eviction. *)
Definition room g : Prop :=
  max_entries (dsconfig g) = 0 ∨ Z.of_nat (size (signed g)) < max_entries (dsconfig g).

Lemma record_key_spec g key g' r :
  room g → record_key g key = (g', r) →
  r = Ok tt ∧ signed g' = {[key]} ∪ signed g ∧ dsconfig g' = dsconfig g ∧
  highest_height g' = highest_height g ∧ file_ok g'.
Proof.
  intros Hroom. unfold record_key. set (g1 := inc_records _).
  assert (DoubleSignGuard_enforce_max_entries g1 = g1) as ->.
  { unfold DoubleSignGuard_enforce_max_entries. simpl.
    destruct (Z.eqb_spec (max_entries (dsconfig g)) 0); [done|]. rewrite evict_small; [done|].
    destruct Hroom as [?|Hr]; [done|]. pose proof (size_union_alt {[key]} (signed g)) as Hu.
    rewrite size_singleton in Hu.
    pose proof (subseteq_size (signed g ∖ {[key]}) (signed g) ltac:(set_solver)). lia. }
  change (dsconfig g1) with (dsconfig g). destruct (persist (dsconfig g)) eqn:Hp.
  - intros (-> & Hs & Hc & Hh & Hf)%persist_spec. rewrite Hs, Hc, Hh. done.
  - intros [= <- <-]. split_and!; [done..|]. intros Hp'. simpl in Hp'. congruence.
Qed.

(** Recording does not fail, whatever is evicted. *)
Lemma record_key_ok g key : (record_key g key).2 = Ok tt.
Proof.
  unfold record_key. destruct (persist _); [|done].
  destruct (DoubleSignGuard_persist _) as [g' r] eqn:E. by apply persist_spec in E as (-> & _).
Qed.
End guard_lemmas.

(** ** Signing under the guard *)

(** A message the node wants to sign, and the key the guard records for it. *)
Inductive sign_request :=
| ReqProposal (height : Height) (round : Round) (block_id : Hash32)
| ReqVote (vote_type : VoteType) (height : Height) (round : Round) (block_id : option Hash32).

Definition request_key (q : sign_request) : SignedKey :=
  match q with
  | ReqProposal h r b => SProposal h r b
  | ReqVote t h r b => SVote (VoteType_as_u8 t) h r b
  end.

(** Two signatures that are evidence of double signing. *)
Definition equivocation (k k' : SignedKey) : Prop :=
  match k, k' with
  | SProposal h r b, SProposal h' r' b' => h = h' ∧ r = r' ∧ b ≠ b'
  | SVote t h r b, SVote t' h' r' b' => t = t' ∧ h = h' ∧ r = r' ∧ b ≠ b'
  | _, _ => False
  end.

Section signing.
Context `{GuardCodec}.
Implicit Types g : DoubleSignGuard.

Definition guard_check g (q : sign_request) : DoubleSignGuard * result unit DoubleSignError :=
  match q with
  | ReqProposal h r b => DoubleSignGuard_check_proposal g h r b
  | ReqVote t h r b => DoubleSignGuard_check_vote g t h r b
  end.

Definition guard_record g (q : sign_request) : DoubleSignGuard * result unit DoubleSignError :=
  match q with
  | ReqProposal h r b => DoubleSignGuard_record_proposal g h r b
  | ReqVote t h r b => DoubleSignGuard_record_vote g t h r b
  end.

(** The node's guard, everything it ever signed, and the highest height it ever
    asked to sign. *)
Record signing_state := mkSigning {
  sg : DoubleSignGuard;
  history : list SignedKey;
  top : Height;
}.

(** Check, sign, record; refusal; restart from the file of a persistent guard.
    Requests stay within the pruning window and the set within its capacity. *)
Inductive signing_step (s : signing_state) : signing_state → Prop :=
| sign_message q g1 g2 r :
    u64_ok (SignedKey_height (request_key q)) →
    prune_below (dsconfig (sg s)) = 0 ∨
      top s - prune_below (dsconfig (sg s)) ≤ SignedKey_height (request_key q) →
    guard_check (sg s) q = (g1, Ok tt) → room g1 → guard_record g1 q = (g2, r) →
    signing_step s (mkSigning g2 (request_key q :: history s)
                      (Z.max (top s) (SignedKey_height (request_key q))))
| sign_refused q g1 e :
    guard_check (sg s) q = (g1, Err e) →
    signing_step s (mkSigning g1 (history s) (Z.max (top s) (SignedKey_height (request_key q))))
| sign_restart :
    persist (dsconfig (sg s)) = true →
    signing_step s (mkSigning (DoubleSignGuard_with_config (file (sg s)) (dsconfig (sg s)))
                      (history s) (top s)).

(** Runs from a fresh device. *)
Inductive signing_run (cfg : DoubleSignConfig) : signing_state → Prop :=
| signing_start : signing_run cfg (mkSigning (DoubleSignGuard_with_config None cfg) [] 0)
| signing_more s s' : signing_run cfg s → signing_step s s' → signing_run cfg s'.
End signing.

Lemma check_spec `{GuardCodec} g q g' r :
  guard_check g q = (g', r) →
  ∃ g1, g1 = note_height (inc_checks g) (SignedKey_height (request_key q)) ∧
    ((r = Ok tt ∧ g' = g1 ∧ ∀ k, k ∈ signed g1 → ¬ equivocation k (request_key q)) ∨
     (r = Err (Conflict (SignedKey_height_round (request_key q)).1
                        (SignedKey_height_round (request_key q)).2) ∧
      g' = inc_conflicts g1 ∧ ∃ k, k ∈ signed g1 ∧ equivocation k (request_key q))).
Proof.
  intros Hc. eexists. split; [done|].
  destruct q as [h rd b|t h rd b]; simpl in *;
    unfold DoubleSignGuard_check_proposal, DoubleSignGuard_check_vote in Hc;
    destruct (existsb _ _) eqn:E; injection Hc as <- <-.
  1, 3: right; split_and!; [done..|]; apply existsb_exists in E as (k & Hk & Hck);
    exists k; split; [by apply elem_of_bset_iter, list_elem_of_In|];
    destruct k; simpl in *; try done;
    rewrite !andb_true_iff, ?Z.eqb_eq, negb_true_iff, bool_decide_eq_false in Hck; tauto.
  all: left; split_and!; [done..|]; intros k Hk Heq;
    apply not_true_iff_false in E; apply E, existsb_exists; exists k;
    split; [by apply list_elem_of_In, elem_of_bset_iter|];
    destruct k; simpl in *; try done;
    rewrite !andb_true_iff, ?Z.eqb_eq, negb_true_iff, bool_decide_eq_false; tauto.
Qed.

Section no_double_sign.
Context `{GuardCodecLaws}.

Record signing_inv (cfg : DoubleSignConfig) (s : signing_state) : Prop := {
  si_config : dsconfig (sg s) = cfg;
  si_file : file_ok (sg s);
  si_highest : 0 ≤ highest_height (sg s) ≤ top s;
  si_from k : k ∈ signed (sg s) → k ∈ history s;
  si_heights k : k ∈ history s → 0 ≤ SignedKey_height k ≤ top s;
  si_kept k : k ∈ history s → prune_below cfg ≤ 0 ∨ top s - prune_below cfg ≤ SignedKey_height k →
    k ∈ signed (sg s);
  si_safe k k' : k ∈ history s → k' ∈ history s → ¬ equivocation k k';
}.

Lemma equivocation_sym k k' : equivocation k k' → equivocation k' k.
Proof. destruct k, k'; simpl; naive_solver. Qed.

Lemma equivocation_height k k' : equivocation k k' → SignedKey_height k = SignedKey_height k'.
Proof. destruct k, k'; simpl; tauto. Qed.

Lemma equivocation_irrefl k : ¬ equivocation k k.
Proof. destruct k; simpl; tauto. Qed.

(** What a check leaves behind. *)
Lemma note_height_inv cfg s h :
  signing_inv cfg s →
  let g1 := note_height (inc_checks (sg s)) h in
  signing_inv cfg (mkSigning g1 (history s) (Z.max (top s) h)).
Proof.
  intros [Hc Hf Hh Hfrom Hpos Hk Hs] g1.
  destruct (note_height_spec (inc_checks (sg s)) h) as (Hc1 & Hh1 & Hf1 & Hsub & Hkeep).
  fold g1 in Hc1, Hh1, Hf1, Hsub, Hkeep. simpl in *. rewrite Hc in *. split; simpl.
  - done.
  - by apply Hf1.
  - lia.
  - intros k Hk1. by apply Hfrom, Hsub.
  - intros k Hkh. apply Hpos in Hkh. lia.
  - intros k Hkh Hw. apply Hkeep.
    + apply Hk; [done|]. lia.
    + pose proof (Hpos k Hkh). unfold sat_sub. lia.
  - done.
Qed.

Lemma restart_signed g :
  persist (dsconfig g) = true → file_ok g →
  let g' := DoubleSignGuard_with_config (file g) (dsconfig g) in
  signed g' = signed g ∧ dsconfig g' = dsconfig g ∧ file g' = file g ∧
  (highest_height g' = 0 ∨ ∃ k, k ∈ signed g ∧ highest_height g' = SignedKey_height k).
Proof.
  intros Hp Hf. unfold DoubleSignGuard_with_config. rewrite Hp. specialize (Hf Hp).
  unfold DoubleSignGuard_load. simpl. destruct (file g) as [d|]; [|rewrite Hf; naive_solver].
  rewrite Hf. destruct (last (bset_iter (signed g))) as [k|] eqn:E; simpl; [|naive_solver].
  split_and!; [done..|]. right. exists k. split; [|done].
  apply elem_of_bset_iter. by apply last_Some_elem_of.
Qed.

Lemma signing_step_inv cfg s s' : signing_inv cfg s → signing_step s s' → signing_inv cfg s'.
Proof.
  intros Hinv [q g1 g2 r Hu Hwin Hcheck Hroom Hrec|q g1 e Hcheck|Hp].
  - apply check_spec in Hcheck as (g1' & -> & [(_ & -> & Hno)|(? & _)]); [|done].
    pose proof (note_height_inv cfg s (SignedKey_height (request_key q)) Hinv)
      as [Hc Hf Hh Hfrom Hpos Hk Hs]. cbn [sg history top] in *.
    rewrite (si_config _ _ Hinv) in Hwin.
    assert (record_key (note_height (inc_checks (sg s)) (SignedKey_height (request_key q)))
      (request_key q) = (g2, r)) as Hrec' by (by destruct q).
    apply record_key_spec in Hrec' as (_ & Hs2 & Hc2 & Hh2 & Hf2); [|done].
    unfold u64_ok in Hu. split; cbn [sg history top].
    + by rewrite Hc2.
    + done.
    + by rewrite Hh2.
    + intros k. rewrite Hs2. set_solver.
    + intros k [->|Hkh]%elem_of_cons; [lia|]. by apply Hpos.
    + intros k [->|Hkh]%elem_of_cons Hw; rewrite Hs2; [set_solver|]. apply elem_of_union_r. by apply Hk.
    + assert (∀ k, k ∈ history s → ¬ equivocation k (request_key q)) as Hnew.
      { intros k Hkh Heq. apply (Hno k); [|done]. apply Hk; [done|].
        apply equivocation_height in Heq. lia. }
      intros k k' [->|Hk1]%elem_of_cons [->|Hk2]%elem_of_cons;
        [apply equivocation_irrefl|intros ?%equivocation_sym; by eapply Hnew|by apply Hnew|by apply Hs].
  - apply check_spec in Hcheck as (g1' & -> & [(? & _)|(_ & -> & _)]); [done|].
    pose proof (note_height_inv cfg s (SignedKey_height (request_key q)) Hinv)
      as [Hc Hf Hh Hfrom Hpos Hk Hs].
    by split.
  - destruct Hinv as [Hc Hf Hh Hfrom Hpos Hk Hs].
    destruct (restart_signed (sg s) Hp Hf) as (Hs' & Hc' & Hf' & Hh').
    split; cbn [sg history top]; rewrite ?Hs', ?Hc'; try done.
    + intros Hp'. rewrite Hf', Hs'. by apply Hf.
    + destruct Hh' as [->|(k & Hin & ->)]; [lia|]. by apply Hpos, Hfrom.
Qed.

Lemma signing_run_inv cfg s : signing_run cfg s → signing_inv cfg s.
Proof.
  induction 1 as [|s s' _ IH Hstep]; [|by eapply signing_step_inv].
  unfold DoubleSignGuard_with_config, DoubleSignGuard_load. simpl.
  destruct (persist cfg) eqn:Hp; simpl; (split; simpl; [done|done|lia|set_solver..]).
Qed.

(** C29: A node that checks before it signs and records after it never signs two
    conflicting messages (same kind, height and round, different blocks), also
    across refused requests and restarts from the persisted file, as long as
    its requests stay within the pruning window and the set of keys within its
    capacity. *)
Theorem no_double_sign cfg s k k' :
  signing_run cfg s → k ∈ history s → k' ∈ history s → ¬ equivocation k k'.
Proof. intros Hrun%signing_run_inv. by apply si_safe with cfg. Qed.

(** The check is exact. It refuses a request, with the request's height and
    round in the error, exactly when the keys kept after pruning contain one
    that conflicts with it. *)
Lemma guard_check_exact g q :
  let g1 := note_height (inc_checks g) (SignedKey_height (request_key q)) in
  let '(h, r) := SignedKey_height_round (request_key q) in
  ((guard_check g q).2 = Err (Conflict h r) ↔
     ∃ k, k ∈ signed g1 ∧ equivocation k (request_key q)) ∧
  ((guard_check g q).2 = Ok tt ↔ ∀ k, k ∈ signed g1 → ¬ equivocation k (request_key q)).
Proof.
  intros g1. destruct (guard_check g q) as [g' res] eqn:Hc.
  apply check_spec in Hc as (g1' & -> & Hcase). fold g1 in Hcase. simpl.
  destruct (SignedKey_height_round (request_key q)) as [h r].
  destruct Hcase as [(-> & _ & Hno)|(-> & _ & k & Hk & Heq)]; naive_solver.
Qed.

(** Restarting a persistent guard loses nothing: a guard opened on the file
    that a run left behind holds the same keys. *)
Lemma restart_keeps_keys cfg s :
  signing_run cfg s → persist cfg = true →
  signed (DoubleSignGuard_with_config (file (sg s)) cfg) = signed (sg s).
Proof.
  intros Hrun%signing_run_inv Hp. destruct Hrun as [Hc Hf _ _ _ _ _]. rewrite <-Hc in *.
  by apply restart_signed.
Qed.
End no_double_sign.

(** ** Eviction *)

(** Recording keeps the set within [max_entries]. *)
Lemma record_key_capacity `{GuardCodecLaws} g key :
  0 < max_entries (dsconfig g) →
  Z.of_nat (size (signed (record_key g key).1)) ≤ max_entries (dsconfig g).
Proof.
  intros Hmax. unfold record_key. set (g1 := inc_records _).
  assert (Z.of_nat (size (signed (DoubleSignGuard_enforce_max_entries g1))) ≤ max_entries (dsconfig g)
    ∧ dsconfig (DoubleSignGuard_enforce_max_entries g1) = dsconfig g) as [Hsz Hcfg].
  { unfold DoubleSignGuard_enforce_max_entries. simpl.
    destruct (Z.eqb_spec (max_entries (dsconfig g)) 0); [lia|]. split; [|done].
    apply evict_size; [done|lia]. }
  destruct (persist _); [|done].
  destruct (DoubleSignGuard_persist _) as [g2 r] eqn:E.
  apply persist_spec in E as (_ & Hs & _). simpl. by rewrite Hs.
Qed.

(** A codec that satisfies the contract. *)
Definition bit_guard_codec : GuardCodec := {|
  enc_signed s := Some (bit_encode s);
  dec_signed := bit_decode;
|}.

#[local] Instance bit_guard_codec_laws : @GuardCodecLaws bit_guard_codec.
Proof. split. intros s. eexists. split; [done|]. apply bit_decode_encode. Qed.

Definition two_entries : DoubleSignConfig :=
  {| persist := false; max_entries := 2; prune_below := 1000;
     verbose_logging := false; ds_enable_metrics := false |}.

(** Eviction goes by key order, in which every proposal comes before every
    vote, and not by age. With two votes of height 1 on record and the set full,
    the proposal just recorded for height 2 is the key that goes, and the guard
    lets a second proposal for the same height and round through. *)
Lemma eviction_allows_double_proposal :
  let check g q := @guard_check bit_guard_codec g q in
  let record g q := (@guard_record bit_guard_codec g q).1 in
  let a := ReqProposal 2 0 (ex_hash 1) in
  let b := ReqProposal 2 0 (ex_hash 2) in
  let g0 := @DoubleSignGuard_with_config bit_guard_codec None two_entries in
  let g1 := record g0 (ReqVote Prevote 1 0 None) in
  let g2 := record g1 (ReqVote Precommit 1 0 None) in
  let g3 := record (check g2 a).1 a in
  equivocation (request_key a) (request_key b) ∧
  (check g2 a).2 = Ok tt ∧ (check g3 b).2 = Ok tt.
Proof. vm_compute. split_and!; [done..|congruence|done|done]. Qed.

Definition keep_all : DoubleSignConfig :=
  {| persist := true; max_entries := 0; prune_below := 0;
     verbose_logging := false; ds_enable_metrics := false |}.

(** After a restart [highest_height] is the height of the last key in key
    order, not the greatest height on record. A guard that has seen a prevote
    for height 5 comes back with height 1 because the last key in key order is
    a precommit for height 1. *)
Lemma restart_lowers_highest_height :
  let record g q := (@guard_record bit_guard_codec (@guard_check bit_guard_codec g q).1 q).1 in
  let g0 := @DoubleSignGuard_with_config bit_guard_codec None keep_all in
  let g := record (record g0 (ReqVote Precommit 1 0 None)) (ReqVote Prevote 5 0 None) in
  highest_height g = 5 ∧
  highest_height (@DoubleSignGuard_with_config bit_guard_codec (file g) keep_all) = 1.
Proof. by vm_compute. Qed.

(** ** Witnesses *)

(** One proposal signed, a conflicting one refused, then a restart. *)
Definition ex_guard0 : DoubleSignGuard := @DoubleSignGuard_with_config bit_guard_codec None keep_all.
Definition ex_req : sign_request := ReqProposal 1 0 (ex_hash 1).
Definition ex_req' : sign_request := ReqProposal 1 0 (ex_hash 2).
Definition ex_guard1 : DoubleSignGuard :=
  (@guard_record bit_guard_codec (@guard_check bit_guard_codec ex_guard0 ex_req).1 ex_req).1.
Definition ex_guard2 : DoubleSignGuard := (@guard_check bit_guard_codec ex_guard1 ex_req').1.
Definition ex_signing : signing_state :=
  mkSigning (@DoubleSignGuard_with_config bit_guard_codec (file ex_guard2) (dsconfig ex_guard2))
    [request_key ex_req] 1.

Lemma ex_signing_run : @signing_run bit_guard_codec keep_all ex_signing.
Proof.
  assert (@signing_run bit_guard_codec keep_all (mkSigning ex_guard1 [request_key ex_req] 1)) as H1.
  { eapply signing_more; [apply signing_start|].
    refine (sign_message (mkSigning ex_guard0 [] 0) ex_req
      (@guard_check bit_guard_codec ex_guard0 ex_req).1 ex_guard1 (Ok tt) _ _ _ _ _).
    - by vm_compute.
    - by left.
    - by vm_compute.
    - by left.
    - by vm_compute. }
  assert (@signing_run bit_guard_codec keep_all (mkSigning ex_guard2 [request_key ex_req] 1)) as H2.
  { eapply signing_more; [apply H1|].
    refine (sign_refused (mkSigning ex_guard1 [request_key ex_req] 1) ex_req' ex_guard2 (Conflict 1 0) _).
    by vm_compute. }
  eapply signing_more; [apply H2|].
  by refine (sign_restart (mkSigning ex_guard2 [request_key ex_req] 1) _).
Qed.

Lemma no_double_sign_witness : ¬ equivocation (request_key ex_req) (request_key ex_req).
Proof.
  apply (@no_double_sign bit_guard_codec bit_guard_codec_laws keep_all ex_signing);
    [apply ex_signing_run|left|left].
Defined.

Lemma restart_keeps_keys_witness :
  signed (@DoubleSignGuard_with_config bit_guard_codec (file (sg ex_signing)) keep_all) =
  signed (sg ex_signing).
Proof.
  apply (@restart_keeps_keys bit_guard_codec bit_guard_codec_laws keep_all ex_signing);
    [apply ex_signing_run|reflexivity].
Defined.

Lemma record_key_capacity_witness :
  Z.of_nat (size (signed (@record_key bit_guard_codec
    (@DoubleSignGuard_with_config bit_guard_codec None two_entries) (request_key ex_req)).1)) ≤ 2.
Proof.
  apply (@record_key_capacity bit_guard_codec bit_guard_codec_laws
    (@DoubleSignGuard_with_config bit_guard_codec None two_entries) (request_key ex_req)).
  reflexivity.
Defined.
