(* ===== verification/Slashing.v ===== *)
(** * Stake ledger and slashing ([src/src/slashing.rs]).

    Validator records, evidence and downtime slashing, jailing, tombstoning and
    unjailing, with the atomic counters of [SlashingMetrics]. A division by a
    zero slash fraction panics: the operations that divide return [None] then.
    [SlashingManager] forwards to the ledger; its JSON persistence and the
    legacy global functions are not modelled. *)

From Stdlib Require Import ZArith Lia Bool.
From stdpp Require Import base gmap list strings.
From S2P Require Import Prelude Types Messages.

Local Open Scope Z_scope.

(** ** Configuration *)

Definition DEFAULT_SLASH_DOUBLE_VOTE : Z := 20.
Definition DEFAULT_SLASH_DOUBLE_PROPOSAL : Z := 20.
Definition DEFAULT_SLASH_DOWNTIME : Z := 100.
Definition DEFAULT_MIN_STAKE_AFTER_SLASH : Z := 1.
Definition DEFAULT_UNJAIL_DELAY : Height := 1000.
Definition DEFAULT_DOWNTIME_WINDOW : Z := 200.
Definition DEFAULT_MIN_SIGNED : Z := 100.

Record SlashingConfig := mkSlashingConfig {
  slash_double_vote : Z;
  slash_double_proposal : Z;
  slash_downtime : Z;
  min_stake_after_slash : Z;
  unjail_delay : Height;
  downtime_window : Z;
  min_signed : Z;
  tombstone_after_repeated : bool;
}.

Definition SlashingConfig_default : SlashingConfig :=
  {| slash_double_vote := DEFAULT_SLASH_DOUBLE_VOTE;
     slash_double_proposal := DEFAULT_SLASH_DOUBLE_PROPOSAL;
     slash_downtime := DEFAULT_SLASH_DOWNTIME;
     min_stake_after_slash := DEFAULT_MIN_STAKE_AFTER_SLASH;
     unjail_delay := DEFAULT_UNJAIL_DELAY;
     downtime_window := DEFAULT_DOWNTIME_WINDOW;
     min_signed := DEFAULT_MIN_SIGNED;
     tombstone_after_repeated := true |}.

Definition SlashingConfig_validate (c : SlashingConfig) : result unit string :=
  if slash_double_vote c =? 0 then Err "slash_double_vote must be > 0"%string
  else if slash_double_proposal c =? 0 then Err "slash_double_proposal must be > 0"%string
  else if slash_downtime c =? 0 then Err "slash_downtime must be > 0"%string
  else if min_stake_after_slash c =? 0 then Err "min_stake_after_slash must be > 0"%string
  else if unjail_delay c =? 0 then Err "unjail_delay must be > 0"%string
  else if downtime_window c =? 0 then Err "downtime_window must be > 0"%string
  else if min_signed c =? 0 then Err "min_signed must be > 0"%string
  else Ok tt.

(** ** Data *)

Inductive SlashingError :=
| SlValidatorNotFound
| AlreadyActive
| SlTombstoned
| UnjailDelayNotElapsed (remaining : Height)
| StakeTooLow (stake : Z)
| InvalidEvidence (s : string)
| SlInternal (s : string).

Inductive ValidatorStatus :=
| Active
| Jailed (since_height : Height) (slash_count : Z)
| Tombstoned.

Record ValidatorRecord := mkValidatorRecord {
  stake : Z;
  slashed_total : Z;
  status : ValidatorStatus;
  jailed_at : option Height;
}.

Record SlashingMetrics := mkSlashingMetrics {
  slashes_applied : Z;
  m_slash_double_vote : Z;
  m_slash_double_proposal : Z;
  m_slash_downtime : Z;
  total_slashed : Z;
  validators_jailed : Z;
  validators_tombstoned : Z;
  unjails : Z;
  m_community_pool : Z;
}.

Record StakeLedger := mkStakeLedger {
  sl_validators : gmap PublicKeyBytes ValidatorRecord;
  community_pool : Z;
  current_height : Height;
  sl_config : SlashingConfig;
}.

#[export] Instance eta_ValidatorRecord : Settable ValidatorRecord :=
  λ r, mkValidatorRecord (stake r) (slashed_total r) (status r) (jailed_at r).
#[export] Instance eta_SlashingMetrics : Settable SlashingMetrics :=
  λ m, mkSlashingMetrics (slashes_applied m) (m_slash_double_vote m) (m_slash_double_proposal m)
         (m_slash_downtime m) (total_slashed m) (validators_jailed m) (validators_tombstoned m)
         (unjails m) (m_community_pool m).
#[export] Instance eta_StakeLedger : Settable StakeLedger :=
  λ l, mkStakeLedger (sl_validators l) (community_pool l) (current_height l) (sl_config l).

Definition ValidatorRecord_new (s : Z) : ValidatorRecord := mkValidatorRecord s 0 Active None.

Definition is_active (r : ValidatorRecord) : bool :=
  match status r with Active => true | _ => false end.
Definition is_jailed (r : ValidatorRecord) : bool :=
  match status r with Jailed _ _ => true | _ => false end.
Definition is_tombstoned (r : ValidatorRecord) : bool :=
  match status r with Tombstoned => true | _ => false end.

Definition can_unjail (r : ValidatorRecord) (cur delay : Height) : bool :=
  match status r with
  | Jailed since _ => add64 since delay <=? cur
  | _ => false
  end.

(** ** Counters *)

Inductive slash_kind := KDoubleVote | KDoubleProposal | KDowntime.

Definition inc_slash (k : slash_kind) (amount : Z) (m : SlashingMetrics) : SlashingMetrics :=
  let m := m <| slashes_applied := add64 (slashes_applied m) 1 |>
             <| total_slashed := add64 (total_slashed m) amount |> in
  match k with
  | KDoubleVote => m <| m_slash_double_vote := add64 (m_slash_double_vote m) 1 |>
  | KDoubleProposal => m <| m_slash_double_proposal := add64 (m_slash_double_proposal m) 1 |>
  | KDowntime => m <| m_slash_downtime := add64 (m_slash_downtime m) 1 |>
  end.
Definition inc_jailed (m : SlashingMetrics) : SlashingMetrics :=
  m <| validators_jailed := add64 (validators_jailed m) 1 |>.
Definition inc_tombstoned (m : SlashingMetrics) : SlashingMetrics :=
  m <| validators_tombstoned := add64 (validators_tombstoned m) 1 |>.
Definition inc_unjail (m : SlashingMetrics) : SlashingMetrics :=
  m <| unjails := add64 (unjails m) 1 |>.
Definition set_community_pool (amount : Z) (m : SlashingMetrics) : SlashingMetrics :=
  m <| m_community_pool := amount |>.

(** ** Ledger operations *)

Definition StakeLedger_new (config : SlashingConfig) : StakeLedger :=
  {| sl_validators := ∅; community_pool := 0; current_height := 0; sl_config := config |}.

Definition StakeLedger_add_validator (l : StakeLedger) (k : PublicKeyBytes) (s : Z) :
    result StakeLedger SlashingError :=
  if bool_decide (is_Some (sl_validators l !! k))
  then Err (SlInternal "validator already exists")
  else Ok (l <| sl_validators := <[k := ValidatorRecord_new s]> (sl_validators l) |>).

Definition StakeLedger_remove_validator (l : StakeLedger) (k : PublicKeyBytes) :
    option ValidatorRecord * StakeLedger :=
  (sl_validators l !! k, l <| sl_validators := delete k (sl_validators l) |>).

Definition StakeLedger_get_stake (l : StakeLedger) (k : PublicKeyBytes) : Z :=
  from_option stake 0 (sl_validators l !! k).

Definition StakeLedger_get_slashed (l : StakeLedger) (k : PublicKeyBytes) : Z :=
  from_option slashed_total 0 (sl_validators l !! k).

Definition StakeLedger_set_height (l : StakeLedger) (h : Height) : StakeLedger :=
  l <| current_height := h |>.

(** [values().filter(is_active).map(stake).sum()]: the addition of [sum] wraps. *)
Definition StakeLedger_total_power (l : StakeLedger) : Z :=
  foldl add64 0 (stake <$> filter (λ r, is_active r) (snd <$> btree_iter (sl_validators l))).

Definition slash_fraction_of (c : SlashingConfig) (e : Evidence) : Z * slash_kind :=
  match e with
  | DoubleVote _ _ _ _ _ _ _ _ => (slash_double_vote c, KDoubleVote)
  | DoubleProposal _ _ _ _ _ _ _ => (slash_double_proposal c, KDoubleProposal)
  end.

(** What happens to a record once [slash_amount] is due and the offence is the
    [count]-th in a row. *)
Definition punish (c : SlashingConfig) (cur : Height) (count slash_amount : Z) (repeated : bool)
    (r : ValidatorRecord) (m : SlashingMetrics) : ValidatorRecord * SlashingMetrics :=
  let new_stake := sat_sub (stake r) slash_amount in
  let r := r <| slashed_total := add64 (slashed_total r) slash_amount |> in
  if repeated then
    (r <| status := Tombstoned |> <| stake := 0 |>, inc_tombstoned m)
  else if new_stake <? min_stake_after_slash c then
    (r <| status := Tombstoned |> <| stake := 0 |>, inc_tombstoned m)
  else
    (r <| status := Jailed cur count |> <| stake := new_stake |> <| jailed_at := Some cur |>,
     inc_jailed m).

Definition StakeLedger_apply_evidence (l : StakeLedger) (m : SlashingMetrics) (e : Evidence) :
    option (StakeLedger * SlashingMetrics * result unit SlashingError) :=
  match sl_validators l !! Evidence_offender e with
  | None => Some (l, m, Err SlValidatorNotFound)
  | Some r =>
    if is_tombstoned r then Some (l, m, Err SlTombstoned)
    else
      let '(fraction, kind) := slash_fraction_of (sl_config l) e in
      if fraction =? 0 then None
      else
        let slash_amount := Z.max (stake r `div` fraction) 1 in
        if slash_amount =? 0 then Some (l, m, Err (StakeTooLow (stake r)))
        else
          let pool := add64 (community_pool l) slash_amount in
          let m := set_community_pool pool m in
          let slash_count := match status r with
                             | Jailed _ n => wrap32 (n + 1)
                             | _ => 1
                             end in
          let '(r, m) := punish (sl_config l) (current_height l) slash_count slash_amount
                           (tombstone_after_repeated (sl_config l) && (2 <=? slash_count)) r m in
          Some (l <| sl_validators := <[Evidence_offender e := r]> (sl_validators l) |>
                  <| community_pool := pool |>, inc_slash kind slash_amount m, Ok tt)
  end.

Definition StakeLedger_unjail (l : StakeLedger) (m : SlashingMetrics) (k : PublicKeyBytes) :
    StakeLedger * SlashingMetrics * result unit SlashingError :=
  match sl_validators l !! k with
  | None => (l, m, Err SlValidatorNotFound)
  | Some r =>
    match status r with
    | Tombstoned => (l, m, Err SlTombstoned)
    | Active => (l, m, Err AlreadyActive)
    | Jailed since _ =>
      let remaining := sat_sub (add64 since (unjail_delay (sl_config l))) (current_height l) in
      if 0 <? remaining then (l, m, Err (UnjailDelayNotElapsed remaining))
      else (l <| sl_validators := <[k := r <| status := Active |> <| jailed_at := None |>]>
                                    (sl_validators l) |>, inc_unjail m, Ok tt)
    end
  end.

Definition StakeLedger_slash_downtime (l : StakeLedger) (m : SlashingMetrics) (k : PublicKeyBytes) :
    option (StakeLedger * SlashingMetrics * result unit SlashingError) :=
  match sl_validators l !! k with
  | None => Some (l, m, Err SlValidatorNotFound)
  | Some r =>
    if negb (is_active r) then Some (l, m, Err (SlInternal "validator not active"))
    else if slash_downtime (sl_config l) =? 0 then None
    else
      let slash_amount := Z.max (stake r `div` slash_downtime (sl_config l)) 1 in
      let pool := add64 (community_pool l) slash_amount in
      let m := set_community_pool pool m in
      let '(r, m) := punish (sl_config l) (current_height l) 1 slash_amount false r m in
      Some (l <| sl_validators := <[k := r]> (sl_validators l) |>
              <| community_pool := pool |>, inc_slash KDowntime slash_amount m, Ok tt)
  end.

Definition StakeLedger_active_validators (l : StakeLedger) :
    list (PublicKeyBytes * ValidatorRecord) :=
  filter (λ e, is_active e.2) (btree_iter (sl_validators l)).
Definition StakeLedger_jailed_validators (l : StakeLedger) :
    list (PublicKeyBytes * ValidatorRecord) :=
  filter (λ e, is_jailed e.2) (btree_iter (sl_validators l)).
Definition StakeLedger_tombstoned_validators (l : StakeLedger) :
    list (PublicKeyBytes * ValidatorRecord) :=
  filter (λ e, is_tombstoned e.2) (btree_iter (sl_validators l)).

Definition StakeLedger_set_config (l : StakeLedger) (c : SlashingConfig) : StakeLedger :=
  l <| sl_config := c |>.

(** [apply_evidence_batch] maps over the list; a panic ends it. *)
Fixpoint StakeLedger_apply_evidence_batch (l : StakeLedger) (m : SlashingMetrics)
    (es : list Evidence) : option (StakeLedger * SlashingMetrics * list (result unit SlashingError)) :=
  match es with
  | [] => Some (l, m, [])
  | e :: es' =>
    match StakeLedger_apply_evidence l m e with
    | None => None
    | Some (l1, m1, r) =>
      match StakeLedger_apply_evidence_batch l1 m1 es' with
      | None => None
      | Some (l2, m2, rs) => Some (l2, m2, r :: rs)
      end
    end
  end.

(** ** Record invariant *)

Definition config_ok (c : SlashingConfig) : Prop :=
  0 < slash_double_vote c ∧ 0 < slash_double_proposal c ∧ 0 < slash_downtime c ∧
  0 < min_stake_after_slash c.

(** Records the ledger can hold: no stake once tombstoned, at least the minimum
    while jailed, something at stake while active, and [jailed_at] in step. *)
Definition record_ok (c : SlashingConfig) (r : ValidatorRecord) : Prop :=
  0 ≤ stake r ∧
  match status r with
  | Active => 1 ≤ stake r ∧ jailed_at r = None
  | Jailed since _ => min_stake_after_slash c ≤ stake r ∧ jailed_at r = Some since
  | Tombstoned => stake r = 0
  end.

(** Stake that is bonded plus stake in the community pool. *)
Definition bonded (l : StakeLedger) : Z := map_sum (λ _ r, stake r) (sl_validators l).
Definition ledger_total (l : StakeLedger) : Z := bonded l + community_pool l.

(** A slash of [stake / fraction], at least 1, never exceeds a positive stake. *)
Lemma slash_amount_bounds s fraction :
  1 ≤ s → 0 < fraction → 1 ≤ Z.max (s `div` fraction) 1 ≤ s.
Proof.
  intros Hs Hf. assert (s `div` fraction ≤ s); [|lia].
  apply Z.div_le_upper_bound; nia.
Qed.

Lemma punish_spec c cur n a rep r m r' m' :
  1 ≤ a ≤ stake r → punish c cur n a rep r m = (r', m') →
  record_ok c r' ∧ 0 ≤ stake r' ≤ stake r - a ∧
  (stake r' = stake r - a ∨ status r' = Tombstoned) ∧
  (rep = true → status r' = Tombstoned) ∧
  slashed_total r' = add64 (slashed_total r) a.
Proof.
  intros Ha. unfold punish, record_ok. rewrite sat_sub_exact by lia.
  destruct rep; [intros [= <- <-]; simpl; split_and!; auto; lia|].
  destruct (Z.ltb_spec (stake r - a) (min_stake_after_slash c)) as [Hlt|Hge];
    intros [= <- <-]; simpl; split_and!; auto; lia.
Qed.

Lemma bonded_update l k r r' p :
  sl_validators l !! k = Some r →
  ledger_total (l <| sl_validators := <[k := r']> (sl_validators l) |> <| community_pool := p |>) =
  ledger_total l + (stake r' - stake r) + (p - community_pool l).
Proof.
  intros Hk. unfold ledger_total, bonded. simpl. rewrite map_sum_insert, Hk. simpl. lia.
Qed.

Lemma bonded_lookup_le l k r :
  (∀ k r, sl_validators l !! k = Some r → 0 ≤ stake r) →
  sl_validators l !! k = Some r → stake r ≤ bonded l.
Proof. intros Hpos Hk. by apply (map_sum_lookup_le (λ _ r, stake r) _ k r). Qed.

(** ** Ledger invariant *)

(** [dep] is the stake ever deposited. *)
Record ledger_inv (c : SlashingConfig) (l : StakeLedger) (dep : Z) : Prop := {
  li_config : sl_config l = c;
  li_cfg_ok : config_ok c;
  li_records k r : sl_validators l !! k = Some r → record_ok c r;
  li_pool : 0 ≤ community_pool l;
  li_total : ledger_total l ≤ dep ≤ U64_MAX;
}.

(** The part of a slash the two slashing operations share. *)
Definition slashed_ledger (l : StakeLedger) (k : PublicKeyBytes) (r' : ValidatorRecord) (a : Z) :
    StakeLedger :=
  l <| sl_validators := <[k := r']> (sl_validators l) |>
    <| community_pool := add64 (community_pool l) a |>.

Lemma slashed_ledger_inv c l dep k r n a rep m r' m' :
  ledger_inv c l dep → sl_validators l !! k = Some r → 1 ≤ a ≤ stake r →
  punish c (current_height l) n a rep r m = (r', m') →
  ledger_inv c (slashed_ledger l k r' a) dep ∧
  community_pool (slashed_ledger l k r' a) = community_pool l + a ∧
  ledger_total (slashed_ledger l k r' a) = ledger_total l - (stake r - a - stake r').
Proof.
  intros [Hc Hcok Hr Hp Ht] Hk Ha Hpun.
  apply punish_spec in Hpun as (Hok & Hst & _ & _ & _); [|done].
  assert (add64 (community_pool l) a = community_pool l + a) as Hpool.
  { apply wrap64_small. unfold u64_ok. unfold ledger_total in Ht.
    pose proof (bonded_lookup_le l k r (λ k r Hk, proj1 (Hr k r Hk)) Hk). lia. }
  pose proof (bonded_update l k r r' (add64 (community_pool l) a) Hk) as Htot.
  unfold slashed_ledger. rewrite Htot. simpl. rewrite Hpool.
  split; [|lia]. split; simpl; [done|done| |lia|].
  - intros k' r0 [[-> <-]|[_ Hk']]%lookup_insert_Some; [done|by eapply Hr].
  - rewrite Hpool in Htot. rewrite Htot. lia.
Qed.

(** The calls on a ledger that was created with a valid configuration, with
    non-zero stakes that together fit a [u64]. A new configuration is valid too, and
    does not raise the minimum stake. [get_validator_mut], which hands out a record to
    be written at will, is not among the calls. *)
Inductive ledger_run : SlashingConfig → StakeLedger → Z → Prop :=
| lr_new c : SlashingConfig_validate c = Ok tt → config_ok c → ledger_run c (StakeLedger_new c) 0
| lr_add c l dep k s l' :
    ledger_run c l dep → 1 ≤ s → dep + s ≤ U64_MAX →
    StakeLedger_add_validator l k s = Ok l' → ledger_run c l' (dep + s)
| lr_evidence c l dep e m l' m' res :
    ledger_run c l dep → StakeLedger_apply_evidence l m e = Some (l', m', res) →
    ledger_run c l' dep
| lr_downtime c l dep k m l' m' res :
    ledger_run c l dep → StakeLedger_slash_downtime l m k = Some (l', m', res) →
    ledger_run c l' dep
| lr_unjail c l dep k m l' m' res :
    ledger_run c l dep → StakeLedger_unjail l m k = (l', m', res) → ledger_run c l' dep
| lr_remove c l dep k : ledger_run c l dep → ledger_run c (StakeLedger_remove_validator l k).2 dep
| lr_height c l dep h : ledger_run c l dep → ledger_run c (StakeLedger_set_height l h) dep
| lr_config c l dep c' :
    ledger_run c l dep → SlashingConfig_validate c' = Ok tt → config_ok c' →
    min_stake_after_slash c' ≤ min_stake_after_slash c → ledger_run c' (StakeLedger_set_config l c') dep.

Lemma fraction_pos c e : config_ok c → 0 < (slash_fraction_of c e).1.
Proof. unfold config_ok. destruct e; simpl; tauto. Qed.

Lemma record_ok_live c r : config_ok c → record_ok c r → is_tombstoned r = false → 1 ≤ stake r.
Proof.
  intros (_ & _ & _ & Hm) [_ Hst]. unfold is_tombstoned. destruct (status r); [lia|lia|done].
Qed.

(** [apply_evidence] on a known, not tombstoned offender. *)
Lemma apply_evidence_live c l dep m e r :
  ledger_inv c l dep → sl_validators l !! Evidence_offender e = Some r → is_tombstoned r = false →
  ∃ a n r' m1 m2, a = Z.max (stake r `div` (slash_fraction_of c e).1) 1 ∧ 1 ≤ a ≤ stake r ∧
    n = (match status r with Jailed _ n => wrap32 (n + 1) | _ => 1 end) ∧
    punish c (current_height l) n a (tombstone_after_repeated c && (2 <=? n)) r
      (set_community_pool (add64 (community_pool l) a) m) = (r', m1) ∧
    StakeLedger_apply_evidence l m e =
      Some (slashed_ledger l (Evidence_offender e) r' a, m2, Ok tt).
Proof.
  intros [Hc Hcok Hr _ _] Hk Hlive. unfold StakeLedger_apply_evidence. rewrite Hk, Hlive, Hc.
  pose proof (fraction_pos c e Hcok) as Hf. destruct (slash_fraction_of c e) as [fr kd]. simpl in *.
  destruct (Z.eqb_spec fr 0); [lia|].
  pose proof (slash_amount_bounds (stake r) fr (record_ok_live c r Hcok (Hr _ _ Hk) Hlive) Hf).
  destruct (Z.eqb_spec (Z.max (stake r `div` fr) 1) 0); [lia|].
  destruct (punish c _ _ _ _ r _) as [r' m'] eqn:Hp. do 5 eexists. split_and!; [reflexivity|lia|lia|reflexivity|exact Hp|reflexivity].
Qed.

(** [apply_evidence] on anyone else. *)
Lemma apply_evidence_dead l m e :
  (∀ r, sl_validators l !! Evidence_offender e = Some r → is_tombstoned r = true) →
  ∃ er, StakeLedger_apply_evidence l m e = Some (l, m, Err er).
Proof.
  intros Hd. unfold StakeLedger_apply_evidence.
  destruct (sl_validators l !! Evidence_offender e) as [r|]; [|by eexists].
  rewrite Hd by done. by eexists.
Qed.

Lemma slash_downtime_live c l dep m k r :
  ledger_inv c l dep → sl_validators l !! k = Some r → is_active r = true →
  ∃ a r' m1 m2, a = Z.max (stake r `div` slash_downtime c) 1 ∧ 1 ≤ a ≤ stake r ∧
    punish c (current_height l) 1 a false r
      (set_community_pool (add64 (community_pool l) a) m) = (r', m1) ∧
    StakeLedger_slash_downtime l m k = Some (slashed_ledger l k r' a, m2, Ok tt).
Proof.
  intros [Hc Hcok Hr _ _] Hk Hact. unfold StakeLedger_slash_downtime. rewrite Hk, Hact, Hc. cbn [negb].
  assert (0 < slash_downtime c) by apply Hcok. destruct (Z.eqb_spec (slash_downtime c) 0); [lia|].
  assert (1 ≤ stake r) as Hst.
  { apply Hr in Hk as [_ Hst]. unfold is_active in Hact. destruct (status r); [lia|done|done]. }
  pose proof (slash_amount_bounds (stake r) (slash_downtime c) Hst ltac:(done)).
  match goal with |- context [punish ?c ?h ?n ?a ?b r ?m'] =>
    destruct (punish c h n a b r m') as [r' m1] eqn:Hp end. do 4 eexists. split_and!; [reflexivity|lia|lia|exact Hp|reflexivity].
Qed.

Lemma unjail_ok c l dep m k l' m' :
  ledger_inv c l dep → StakeLedger_unjail l m k = (l', m', Ok tt) →
  ∃ r since n, sl_validators l !! k = Some r ∧ status r = Jailed since n ∧
    add64 since (unjail_delay c) ≤ current_height l ∧
    l' = l <| sl_validators := <[k := r <| status := Active |> <| jailed_at := None |>]>
                                 (sl_validators l) |>.
Proof.
  intros [Hc _ _ _ _]. unfold StakeLedger_unjail. rewrite Hc.
  destruct (sl_validators l !! k) as [r|]; [|done].
  destruct (status r) as [|since n|] eqn:Hst; [done| |done].
  unfold sat_sub.
  destruct (Z.ltb_spec 0 (Z.max (add64 since (unjail_delay c) - current_height l) 0)) as [|Hrem]; [done|].
  intros [= <- _]. exists r, since, n. split_and!; [done|done|lia|done].
Qed.

(** Slashing cannot panic under a valid configuration. *)
Lemma apply_evidence_total c l dep m e :
  ledger_inv c l dep → ∃ l' m' res, StakeLedger_apply_evidence l m e = Some (l', m', res) ∧
    ledger_inv c l' dep.
Proof.
  intros Hinv. destruct (sl_validators l !! Evidence_offender e) as [r|] eqn:Hk.
  - destruct (is_tombstoned r) eqn:Hd.
    + destruct (apply_evidence_dead l m e) as [er ->]; [naive_solver|]. by do 3 eexists.
    + edestruct (apply_evidence_live c l dep m e r) as (a & n & r' & m1 & m2 & _ & Ha & _ & Hp & ->);
        [done..|].
      do 3 eexists. split; [done|]. by eapply slashed_ledger_inv.
  - destruct (apply_evidence_dead l m e) as [er ->]; [naive_solver|]. by do 3 eexists.
Qed.

Lemma slash_downtime_total c l dep m k :
  ledger_inv c l dep → ∃ l' m' res, StakeLedger_slash_downtime l m k = Some (l', m', res) ∧
    ledger_inv c l' dep.
Proof.
  intros Hinv. destruct (sl_validators l !! k) as [r|] eqn:Hk.
  - destruct (is_active r) eqn:Hd.
    + edestruct (slash_downtime_live c l dep m k r) as (a & r' & m1 & m2 & _ & Ha & Hp & ->); [done..|].
      do 3 eexists. split; [done|]. by eapply slashed_ledger_inv.
    + unfold StakeLedger_slash_downtime. rewrite Hk, Hd. by do 3 eexists.
  - unfold StakeLedger_slash_downtime. rewrite Hk. by do 3 eexists.
Qed.

Lemma unjail_inv c l dep m k l' m' res :
  ledger_inv c l dep → StakeLedger_unjail l m k = (l', m', res) → ledger_inv c l' dep.
Proof.
  intros Hinv Hu. destruct res as [[]|er].
  - apply (unjail_ok c l dep) in Hu as (r & since & n & Hk & Hst & _ & ->); [|done].
    destruct Hinv as [Hc Hcok Hr Hp Ht]. destruct (Hr k r Hk) as [Hpos Hrs]. rewrite Hst in Hrs.
    assert (0 < min_stake_after_slash c) by apply Hcok. split; simpl; [done|done| |done|].
    + intros k' r0 [[-> <-]|[_ Hk']]%lookup_insert_Some; [|by eapply Hr]. split; simpl; [done|split; [lia|done]].
    + unfold ledger_total, bonded in *. simpl. rewrite map_sum_insert, Hk. simpl. lia.
  - unfold StakeLedger_unjail in Hu. destruct (sl_validators l !! k) as [r|]; [|naive_solver].
    destruct (status r); [naive_solver| |naive_solver]. destruct (0 <? _); naive_solver.
Qed.

Lemma ledger_run_inv c l dep : ledger_run c l dep → ledger_inv c l dep.
Proof.
  induction 1 as [c _ Hok|c l dep k s l' _ IH Hs Hfit Hadd|c l dep e m l' m' res _ IH He
                 |c l dep k m l' m' res _ IH Hd|c l dep k m l' m' res _ IH Hu|c l dep k _ IH|c l dep h _ IH
                 |c l dep c' _ IH _ Hok Hle].
  - split; [done|done|done|done|]. unfold ledger_total, bonded. simpl. rewrite map_sum_empty.
    mach.
  - unfold StakeLedger_add_validator in Hadd. case_bool_decide as Hn; [done|]. injection Hadd as <-.
    destruct IH as [Hc Hcok Hr Hp Ht]. split; simpl; [done|done| |done|].
    + intros k' r [[-> <-]|[_ Hk']]%lookup_insert_Some; [|by eapply Hr].
      split; simpl; [lia|done].
    + unfold ledger_total, bonded in *. simpl. rewrite map_sum_insert_None; [simpl; lia|].
      by apply eq_None_not_Some.
  - destruct (apply_evidence_total c l dep m e IH) as (l1 & m1 & r1 & Heq & Hinv). congruence.
  - destruct (slash_downtime_total c l dep m k IH) as (l1 & m1 & r1 & Heq & Hinv). congruence.
  - by eapply unjail_inv.
  - destruct IH as [Hc Hcok Hr Hp Ht]. split; simpl; [done|done| |done|].
    + intros k' r [_ Hk]%lookup_delete_Some. by eapply Hr.
    + destruct (sl_validators l !! k) as [r|] eqn:Hk; [|by rewrite delete_id].
      unfold ledger_total, bonded in *. simpl. rewrite (map_sum_delete _ _ k r) in Ht by done.
      apply Hr in Hk as [Hk _]. lia.
  - destruct IH as [Hc Hcok Hr Hp Ht]. by split.
  - destruct IH as [Hc Hcok Hr Hp Ht]. split; try done. intros k r [Hpos Hst]%Hr. split; [done|]. destruct (status r); [done|split; [lia|by apply Hst]|done].
Qed.

(** C36: On a ledger with valid configurations, whose validators enter with a stake of
    at least 1 and together with no more than a [u64], every record stays well formed
    (tombstoned validators have no stake, jailed ones at least the minimum), the
    community pool never overflows, and stake is never created: what is bonded plus
    what is in the pool never exceeds what was deposited. A validator that enters with
    nothing is left out, since a slash of it does create stake. *)
Theorem ledger_run_correct c l dep :
  ledger_run c l dep →
  (∀ k r, sl_validators l !! k = Some r → record_ok c r) ∧
  0 ≤ community_pool l ≤ U64_MAX ∧ ledger_total l ≤ dep.
Proof.
  intros [Hc Hcok Hr Hp Ht]%ledger_run_inv. split_and!; [done|lia| |lia].
  assert (0 ≤ bonded l); [|unfold ledger_total in Ht; lia].
  apply map_sum_nonneg. intros k r Hk. by apply Hr in Hk as [? _].
Qed.

(** Evidence against a live validator always takes effect. The slash is a
    [1/fraction] share of the stake, at least 1 and never more than the stake;
    it goes to the community pool in full; and it leaves the validator either
    jailed with exactly the rest or tombstoned with nothing, the latter always
    for a repeated offence. Nobody else is touched. *)
Lemma apply_evidence_effect c l dep m e r :
  ledger_run c l dep → sl_validators l !! Evidence_offender e = Some r → status r ≠ Tombstoned →
  ∃ l' m' r' a, StakeLedger_apply_evidence l m e = Some (l', m', Ok tt) ∧
    a = Z.max (stake r `div` (slash_fraction_of c e).1) 1 ∧ 1 ≤ a ≤ stake r ∧
    community_pool l' = community_pool l + a ∧
    sl_validators l' = <[Evidence_offender e := r']> (sl_validators l) ∧
    (status r' = Tombstoned ∧ stake r' = 0 ∨
     stake r' = stake r - a ∧ min_stake_after_slash c ≤ stake r' ∧ is_jailed r' = true) ∧
    (tombstone_after_repeated c = true → (∃ since, status r = Jailed since 1) →
     status r' = Tombstoned).
Proof.
  intros Hinv%ledger_run_inv Hk Hlive.
  assert (is_tombstoned r = false) as Hd by (unfold is_tombstoned; by destruct (status r)).
  edestruct (apply_evidence_live c l dep m e r) as (a & n & r' & m1 & m2 & Ha & Hab & Hn & Hp & Heq); [done..|].
  edestruct (slashed_ledger_inv c l dep) as (_ & Hpool & _); [done..|].
  pose proof Hp as Hp'. apply punish_spec in Hp' as ([Hpos Hok] & Hst & Hcase & Hrep & _); [|done].
  exists (slashed_ledger l (Evidence_offender e) r' a), m2, r', a. split_and!; [done..|lia|lia|done|done| |].
  - destruct Hcase as [Heqs|Htomb]; [|left; rewrite Htomb in Hok; done].
    unfold is_jailed. destruct (status r') as [|since k|] eqn:Hst'; [|right|by left].
    + exfalso. unfold punish in Hp. destruct (_ && _); [|destruct (_ <? _)];
        injection Hp as <- _; simpl in Hst'; done.
    + split_and!; [done|lia|done].
  - intros Hrp [since Hjail]. apply Hrep. rewrite Hrp, Hn, Hjail. done.
Qed.

(** Tombstoning is final: a tombstoned validator cannot be unjailed, slashed
    again or paid, whatever evidence arrives; each attempt is refused and
    changes nothing. *)
Lemma tombstone_final l m k r e :
  sl_validators l !! k = Some r → status r = Tombstoned → Evidence_offender e = k →
  StakeLedger_apply_evidence l m e = Some (l, m, Err SlTombstoned) ∧
  StakeLedger_unjail l m k = (l, m, Err SlTombstoned) ∧
  StakeLedger_slash_downtime l m k = Some (l, m, Err (SlInternal "validator not active")).
Proof.
  intros Hk Hst <-.
  unfold StakeLedger_apply_evidence, StakeLedger_unjail, StakeLedger_slash_downtime.
  rewrite Hk. unfold is_tombstoned, is_active. by rewrite Hst.
Qed.

(** Unjailing succeeds exactly for a jailed validator whose delay has
    elapsed; it restores the active status and keeps the stake. *)
Lemma unjail_exact c l dep m k :
  ledger_run c l dep →
  (∃ l' m', StakeLedger_unjail l m k = (l', m', Ok tt)) ↔
  (∃ r since n, sl_validators l !! k = Some r ∧ status r = Jailed since n ∧
     add64 since (unjail_delay c) ≤ current_height l).
Proof.
  intros Hinv%ledger_run_inv. split.
  - intros (l' & m' & Hu). apply (unjail_ok c l dep) in Hu as (r & since & n & ? & ? & ? & _); [|done].
    by exists r, since, n.
  - intros (r & since & n & Hk & Hst & Hdelay). unfold StakeLedger_unjail.
    rewrite Hk, Hst, (li_config _ _ _ Hinv). unfold sat_sub.
    destruct (Z.ltb_spec 0 (Z.max (add64 since (unjail_delay c) - current_height l) 0)); [lia|].
    by do 2 eexists.
Qed.

(** A validator with no stake is slashed by 1 all the same, and the pool
    receives a unit that nobody lost. *)
Lemma zero_stake_slash_mints :
  ∃ l l' m m' e,
    StakeLedger_add_validator (StakeLedger_new SlashingConfig_default) [1] 0 = Ok l ∧
    StakeLedger_apply_evidence l m e = Some (l', m', Ok tt) ∧
    ledger_total l = 0 ∧ ledger_total l' = 1.
Proof.
  eexists _, _, (mkSlashingMetrics 0 0 0 0 0 0 0 0 0), _, (DoubleVote [1] 1 0 Prevote None None ex_vote ex_vote).
  split_and!; [by vm_compute|by vm_compute|by vm_compute|by vm_compute].
Qed.

(** ** Witnesses *)

Definition ex_metrics : SlashingMetrics := mkSlashingMetrics 0 0 0 0 0 0 0 0 0.
Definition ex_ledger : StakeLedger :=
  (StakeLedger_new SlashingConfig_default) <| sl_validators := {[ [1] := ValidatorRecord_new 1000 ]} |>.
Definition ex_evidence : Evidence :=
  DoubleVote [1] 5 1 Precommit (Some (ex_hash 9)) (Some (ex_hash 8))
    (mkVote Precommit 5 1 [1] (Some (ex_hash 9)) [3])
    (mkVote Precommit 5 1 [1] (Some (ex_hash 8)) [4]).

Lemma ex_ledger_run : ledger_run SlashingConfig_default ex_ledger 1000.
Proof.
  apply (lr_add _ (StakeLedger_new SlashingConfig_default) 0 [1] 1000).
  - apply lr_new; [done|]. unfold config_ok. simpl.
    unfold DEFAULT_SLASH_DOUBLE_VOTE, DEFAULT_SLASH_DOUBLE_PROPOSAL, DEFAULT_SLASH_DOWNTIME,
      DEFAULT_MIN_STAKE_AFTER_SLASH. lia.
  - lia.
  - mach.
  - by vm_compute.
Qed.

Lemma ledger_run_correct_witness :
  (∀ k r, sl_validators ex_ledger !! k = Some r → record_ok SlashingConfig_default r) ∧
  0 ≤ community_pool ex_ledger ≤ U64_MAX ∧ ledger_total ex_ledger ≤ 1000.
Proof. apply (ledger_run_correct SlashingConfig_default ex_ledger 1000), ex_ledger_run. Defined.

Lemma apply_evidence_effect_witness :
  ∃ l' m' r' a, StakeLedger_apply_evidence ex_ledger ex_metrics ex_evidence = Some (l', m', Ok tt) ∧
    a = Z.max (1000 `div` 20) 1 ∧ 1 ≤ a ≤ 1000 ∧
    community_pool l' = 0 + a ∧
    sl_validators l' = <[ [1] := r']> (sl_validators ex_ledger) ∧
    (status r' = Tombstoned ∧ stake r' = 0 ∨
     stake r' = 1000 - a ∧ 1 ≤ stake r' ∧ is_jailed r' = true) ∧
    (true = true → (∃ since, Active = Jailed since 1) → status r' = Tombstoned).
Proof.
  apply (apply_evidence_effect SlashingConfig_default ex_ledger 1000 ex_metrics ex_evidence
           (ValidatorRecord_new 1000)); [apply ex_ledger_run|reflexivity|discriminate].
Defined.

Definition ex_tomb_ledger : StakeLedger :=
  ex_ledger <| sl_validators := {[ [1] := mkValidatorRecord 0 7 Tombstoned None ]} |>.

Lemma tombstone_final_witness :
  StakeLedger_apply_evidence ex_tomb_ledger ex_metrics ex_evidence =
    Some (ex_tomb_ledger, ex_metrics, Err SlTombstoned) ∧
  StakeLedger_unjail ex_tomb_ledger ex_metrics [1] = (ex_tomb_ledger, ex_metrics, Err SlTombstoned) ∧
  StakeLedger_slash_downtime ex_tomb_ledger ex_metrics [1] =
    Some (ex_tomb_ledger, ex_metrics, Err (SlInternal "validator not active")).
Proof.
  apply (tombstone_final ex_tomb_ledger ex_metrics [1] (mkValidatorRecord 0 7 Tombstoned None) ex_evidence);
    reflexivity.
Defined.

Lemma unjail_exact_witness :
  (∃ l' m', StakeLedger_unjail ex_ledger ex_metrics [1] = (l', m', Ok tt)) ↔
  (∃ r since n, sl_validators ex_ledger !! [1] = Some r ∧ status r = Jailed since n ∧
     add64 since (unjail_delay SlashingConfig_default) ≤ current_height ex_ledger).
Proof. apply (unjail_exact SlashingConfig_default ex_ledger 1000), ex_ledger_run. Defined.
