(* ===== verification/Evidence.v ===== *)
(** * Evidence of equivocation ([src/src/evidence.rs]).

    Validation of double-vote and double-proposal evidence and its application
    to the stake ledger, with deduplication, and the manager that combines the
    two. The evidence data type is in [Messages]. Signature verification is the
    [verify_sig] field of [Crypto]; [ledger.current_height()], which the source
    calls without defining it, is the ledger's field of that name. *)

From Stdlib Require Import ZArith Lia Bool.
From stdpp Require Import base gmap sets list strings.
From S2P Require Import Prelude Types Messages Slashing.

Local Open Scope Z_scope.

(** ** Data *)

Definition DEFAULT_SLASH_FRACTION_DOUBLE_VOTE : Z := 20.
Definition DEFAULT_SLASH_FRACTION_DOUBLE_PROPOSAL : Z := 20.
Definition DEFAULT_EVIDENCE_MAX_AGE : Height := 100000.
Definition DEFAULT_TOMBSTONE_PERIOD : Height := 1000000.

Record EvidenceConfig := mkEvidenceConfig {
  max_age : Height;
  slash_fraction_double_vote : Z;
  slash_fraction_double_proposal : Z;
  tombstone_period : Height;
  verify_signatures : bool;
  allow_nil_equivocation : bool;
}.

Definition EvidenceConfig_default : EvidenceConfig :=
  {| max_age := DEFAULT_EVIDENCE_MAX_AGE;
     slash_fraction_double_vote := DEFAULT_SLASH_FRACTION_DOUBLE_VOTE;
     slash_fraction_double_proposal := DEFAULT_SLASH_FRACTION_DOUBLE_PROPOSAL;
     tombstone_period := DEFAULT_TOMBSTONE_PERIOD;
     verify_signatures := true;
     allow_nil_equivocation := true |}.

Definition EvidenceConfig_validate (c : EvidenceConfig) : result unit string :=
  if max_age c =? 0 then Err "max_age must be > 0"%string
  else if slash_fraction_double_vote c =? 0
    then Err "slash_fraction_double_vote must be > 0"%string
  else if slash_fraction_double_proposal c =? 0
    then Err "slash_fraction_double_proposal must be > 0"%string
  else if tombstone_period c =? 0 then Err "tombstone_period must be > 0"%string
  else Ok tt.

Inductive EvidenceError :=
| DuplicateMessages
| HeightMismatch (expected actual : Height)
| RoundMismatch (expected actual : Round)
| VoteTypeMismatch (expected actual : VoteType)
| OffenderMismatch
| InvalidSignature
| SameBlock
| SameProposal
| StaleEvidence (height max_age : Height)
| EvValidatorNotFound
| AlreadyTombstoned
| AlreadyProcessed
| IncompleteEvidence
| EvInternal (s : string).

Inductive EvidenceType := EtDoubleVote | EtDoubleProposal.

Record EvidenceId := mkEvidenceId {
  offender : PublicKeyBytes;
  ei_height : Height;
  ei_round : Round;
  ev_type : EvidenceType;
}.

#[export] Instance EvidenceType_eq_dec : EqDecision EvidenceType.
Proof. solve_decision. Defined.

#[export] Instance EvidenceId_eq_dec : EqDecision EvidenceId.
Proof. solve_decision. Defined.

#[export] Instance EvidenceId_countable : Countable EvidenceId.
Proof.
  apply (inj_countable'
    (λ i, (offender i, ei_height i, ei_round i,
           match ev_type i with EtDoubleVote => true | EtDoubleProposal => false end))
    (λ '(o, h, r, t), mkEvidenceId o h r (if (t : bool) then EtDoubleVote else EtDoubleProposal))).
  by intros [? ? ? []].
Defined.

Record SlashingOutcome := mkSlashingOutcome {
  slashed : bool;
  slashed_amount : Z;
  remaining_stake : Z;
  jailed : bool;
  tombstoned : bool;
  slash_height : Height;
}.

Record EvidenceMetrics := mkEvidenceMetrics {
  evidence_received : Z;
  evidence_validated : Z;
  evidence_applied : Z;
  evidence_rejected : Z;
  ev_total_slashed : Z;
}.

#[export] Instance eta_EvidenceMetrics : Settable EvidenceMetrics :=
  λ m, mkEvidenceMetrics (evidence_received m) (evidence_validated m) (evidence_applied m)
         (evidence_rejected m) (ev_total_slashed m).

Definition inc_received (m : EvidenceMetrics) : EvidenceMetrics :=
  m <| evidence_received := add64 (evidence_received m) 1 |>.
Definition inc_validated (m : EvidenceMetrics) : EvidenceMetrics :=
  m <| evidence_validated := add64 (evidence_validated m) 1 |>.
Definition inc_applied (m : EvidenceMetrics) : EvidenceMetrics :=
  m <| evidence_applied := add64 (evidence_applied m) 1 |>.
Definition inc_rejected (m : EvidenceMetrics) : EvidenceMetrics :=
  m <| evidence_rejected := add64 (evidence_rejected m) 1 |>.
Definition add_slashed (a : Z) (m : EvidenceMetrics) : EvidenceMetrics :=
  m <| ev_total_slashed := add64 (ev_total_slashed m) a |>.

(** ** Validation *)

Definition Evidence_slash_fraction (e : Evidence) (c : EvidenceConfig) : Z :=
  match e with
  | DoubleVote _ _ _ _ _ _ _ _ => slash_fraction_double_vote c
  | DoubleProposal _ _ _ _ _ _ _ => slash_fraction_double_proposal c
  end.

Definition neqb {A} `{EqDecision A} (x y : A) : bool := negb (bool_decide (x = y)).

Section validation.
Context `{Crypto}.

Definition validate_double_vote (config : EvidenceConfig) (voter : PublicKeyBytes)
    (height : Height) (round : Round) (vote_type : VoteType) (a b : option Hash32)
    (vote_a vote_b : Vote) : result unit EvidenceError :=
  if neqb (v_voter vote_a) voter || neqb (v_voter vote_b) voter then Err OffenderMismatch
  else if neqb (v_height vote_a) height || neqb (v_height vote_b) height
    then Err (HeightMismatch height (v_height vote_a))
  else if neqb (v_round vote_a) round || neqb (v_round vote_b) round
    then Err (RoundMismatch round (v_round vote_a))
  else if neqb (v_vote_type vote_a) vote_type || neqb (v_vote_type vote_b) vote_type
    then Err (VoteTypeMismatch vote_type (v_vote_type vote_a))
  else if bool_decide (vote_a = vote_b) then Err DuplicateMessages
  else if bool_decide (a = b) then Err SameBlock
  else if negb (allow_nil_equivocation config) && (bool_decide (a = None) || bool_decide (b = None))
    then Err (EvInternal "nil equivocation not allowed")
  else if verify_signatures config then
    let msg_a := vote_sign_bytes vote_type height round (v_block_id vote_a) in
    let msg_b := vote_sign_bytes vote_type height round (v_block_id vote_b) in
    if negb (verify_sig voter msg_a (v_signature vote_a)) then Err InvalidSignature
    else if negb (verify_sig voter msg_b (v_signature vote_b)) then Err InvalidSignature
    else Ok tt
  else Ok tt.

Definition validate_double_proposal (config : EvidenceConfig) (proposer : PublicKeyBytes)
    (height : Height) (round : Round) (a b : option Hash32)
    (proposal_a proposal_b : option Proposal) : result unit EvidenceError :=
  match proposal_a, proposal_b with
  | Some prop_a, Some prop_b =>
    if neqb (p_proposer prop_a) proposer || neqb (p_proposer prop_b) proposer
      then Err OffenderMismatch
    else if neqb (p_height prop_a) height || neqb (p_height prop_b) height
      then Err (HeightMismatch height (p_height prop_a))
    else if neqb (p_round prop_a) round || neqb (p_round prop_b) round
      then Err (RoundMismatch round (p_round prop_a))
    else if bool_decide (prop_a = prop_b) then Err DuplicateMessages
    else if bool_decide (a = b) then Err SameProposal
    else if verify_signatures config then
      let msg_a := proposal_sign_bytes height round (p_block_id prop_a) (p_pol_round prop_a) in
      let msg_b := proposal_sign_bytes height round (p_block_id prop_b) (p_pol_round prop_b) in
      if negb (verify_sig proposer msg_a (p_signature prop_a)) then Err InvalidSignature
      else if negb (verify_sig proposer msg_b (p_signature prop_b)) then Err InvalidSignature
      else Ok tt
    else Ok tt
  | _, _ => Err IncompleteEvidence
  end.

Definition Evidence_validate (config : EvidenceConfig) (e : Evidence) : result unit EvidenceError :=
  match e with
  | DoubleVote voter height round vote_type a b vote_a vote_b =>
    validate_double_vote config voter height round vote_type a b vote_a vote_b
  | DoubleProposal proposer height round a b proposal_a proposal_b =>
    validate_double_proposal config proposer height round a b proposal_a proposal_b
  end.
End validation.

Definition Evidence_is_fresh (e : Evidence) (cur age : Height) : bool :=
  sat_sub cur (Evidence_height e) <=? age.

Definition Evidence_id (e : Evidence) : EvidenceId :=
  {| offender := Evidence_offender e; ei_height := Evidence_height e; ei_round := Evidence_round e;
     ev_type := match e with
                | DoubleVote _ _ _ _ _ _ _ _ => EtDoubleVote
                | DoubleProposal _ _ _ _ _ _ _ => EtDoubleProposal
                end |}.

(** ** Application *)

(** The ledger, the processed set and the counters; [None] is the panic of a
    division by a zero slash fraction. *)
Record ev_state := mkEvState {
  es_ledger : StakeLedger;
  processed : gset EvidenceId;
  es_metrics : EvidenceMetrics;
}.

#[export] Instance eta_ev_state : Settable ev_state :=
  λ s, mkEvState (es_ledger s) (processed s) (es_metrics s).

Definition apply_evidence (e : Evidence) (config : EvidenceConfig) (s : ev_state) :
    option (ev_state * result SlashingOutcome EvidenceError) :=
  let rejected := s <| es_metrics := inc_rejected (es_metrics s) |> in
  if bool_decide (Evidence_id e ∈ processed s) then Some (rejected, Err AlreadyProcessed)
  else
    match sl_validators (es_ledger s) !! Evidence_offender e with
    | None => Some (s, Err EvValidatorNotFound)
    | Some r =>
      if is_tombstoned r then Some (rejected, Err AlreadyTombstoned)
      else
        let cur := current_height (es_ledger s) in
        if negb (Evidence_is_fresh e cur (max_age config))
        then Some (rejected, Err (StaleEvidence (Evidence_height e) (max_age config)))
        else
          let fraction := Evidence_slash_fraction e config in
          if fraction =? 0 then None
          else
            let slash_amount := Z.max (stake r `div` fraction) 1 in
            let new_stake := sat_sub (stake r) slash_amount in
            let r := r <| stake := new_stake |>
                       <| slashed_total := add64 (slashed_total r) slash_amount |> in
            let m := add_slashed slash_amount (es_metrics s) in
            let tomb := match status r with Jailed _ n => 2 <=? n | _ => false end in
            let r :=
              if tomb then r <| status := Tombstoned |>
              else
                let slash_count := match status r with Jailed _ n => wrap32 (n + 1) | _ => 1 end in
                r <| status := Jailed cur slash_count |> in
            let l := es_ledger s in
            Some ({| es_ledger := l <| sl_validators := <[Evidence_offender e := r]> (sl_validators l) |>;
                     processed := {[Evidence_id e]} ∪ processed s;
                     es_metrics := inc_applied m |},
                  Ok {| slashed := true; slashed_amount := slash_amount; remaining_stake := new_stake;
                        jailed := true; tombstoned := tomb; slash_height := cur |})
    end.

(** ** Manager *)

Section manager.
Context `{Crypto}.

Definition EvidenceManager_validate (config : EvidenceConfig) (e : Evidence) (m : EvidenceMetrics) :
    EvidenceMetrics * result unit EvidenceError :=
  let m := inc_received m in
  let res := Evidence_validate config e in
  (if is_ok res then inc_validated m else inc_rejected m, res).

Definition EvidenceManager_apply (config : EvidenceConfig) (e : Evidence) (s : ev_state) :
    option (ev_state * result SlashingOutcome EvidenceError) :=
  let '(m, res) := EvidenceManager_validate config e (es_metrics s) in
  let s := s <| es_metrics := m |> in
  match res with
  | Err er => Some (s, Err er)
  | Ok _ => apply_evidence e config s
  end.
End manager.

(** ** Soundness of validation *)

Lemma neqb_false {A} `{EqDecision A} (x y : A) : neqb x y = false ↔ x = y.
Proof. unfold neqb. rewrite negb_false_iff. apply bool_decide_eq_true. Qed.

(** Splits a chain of guards that all have to pass for [Ok]. *)
Ltac pass_guards :=
  repeat match goal with
  | |- (if ?b then _ else _) = Ok _ → _ => let E := fresh "Hg" in destruct b eqn:E; try discriminate
  end;
  rewrite ?orb_false_iff, ?andb_false_iff, ?negb_false_iff, ?neqb_false,
    ?bool_decide_eq_false, ?bool_decide_eq_true in *.

Section soundness.
Context `{Crypto}.

Lemma validate_double_vote_ok config k h r t a b va vb :
  validate_double_vote config k h r t a b va vb = Ok tt →
  (v_voter va = k ∧ v_voter vb = k) ∧ (v_height va = h ∧ v_height vb = h) ∧
  (v_round va = r ∧ v_round vb = r) ∧ (v_vote_type va = t ∧ v_vote_type vb = t) ∧
  va ≠ vb ∧ a ≠ b ∧
  (verify_signatures config = true →
   verify_sig k (Vote_sign_bytes va) (v_signature va) = true ∧
   verify_sig k (Vote_sign_bytes vb) (v_signature vb) = true).
Proof.
  unfold validate_double_vote, Vote_sign_bytes. pass_guards; intros _; destruct_and?; split_and!; try done;
    intros Hv; try congruence; split; congruence.
Qed.

Lemma validate_double_proposal_ok config k h r a b pa pb :
  validate_double_proposal config k h r a b pa pb = Ok tt →
  ∃ qa qb, pa = Some qa ∧ pb = Some qb ∧
    (p_proposer qa = k ∧ p_proposer qb = k) ∧ (p_height qa = h ∧ p_height qb = h) ∧
    (p_round qa = r ∧ p_round qb = r) ∧ qa ≠ qb ∧ a ≠ b ∧
    (verify_signatures config = true →
     verify_sig k (Proposal_sign_bytes qa) (p_signature qa) = true ∧
     verify_sig k (Proposal_sign_bytes qb) (p_signature qb) = true).
Proof.
  unfold validate_double_proposal, Proposal_sign_bytes.
  destruct pa as [qa|], pb as [qb|]; try done.
  pass_guards; intros _; destruct_and?; exists qa, qb; split_and!; try done;
    intros Hv; try congruence; split; congruence.
Qed.

(** The block an evidence message is about. *)
Definition evidence_messages (e : Evidence) : option ((bytes * option Hash32) * (bytes * option Hash32)) :=
  match e with
  | DoubleVote _ _ _ _ _ _ va vb =>
    Some ((Vote_sign_bytes va, v_block_id va), (Vote_sign_bytes vb, v_block_id vb))
  | DoubleProposal _ _ _ _ _ (Some pa) (Some pb) =>
    Some ((Proposal_sign_bytes pa, Some (p_block_id pa)), (Proposal_sign_bytes pb, Some (p_block_id pb)))
  | _ => None
  end.

(** Machine-range fields and full-length hashes, as the Rust types guarantee. *)
Definition evidence_typed (e : Evidence) : Prop :=
  match e with
  | DoubleVote _ h r _ _ _ va vb =>
    vote_fields_ok h r (v_block_id va) ∧ vote_fields_ok h r (v_block_id vb)
  | DoubleProposal _ h r _ _ pa pb =>
    ∀ p, pa = Some p ∨ pb = Some p →
      vote_fields_ok h r (Some (p_block_id p)) ∧ from_option u32_ok True (p_pol_round p)
  end.

(** C37: Accepted evidence is sound. If a signature that verifies proves that the
    key's owner signed those bytes, then evidence that passes validation with
    signature checks on shows two messages its offender signed; and when the
    two messages name different blocks, the offender signed two different
    strings for the same height and round. *)
Theorem evidence_sound (did_sign : PublicKeyBytes → bytes → Prop) config e :
  (∀ k msg sig, verify_sig k msg sig = true → did_sign k msg) →
  verify_signatures config = true → evidence_typed e →
  Evidence_validate config e = Ok tt →
  ∃ ma ba mb bb, evidence_messages e = Some ((ma, ba), (mb, bb)) ∧
    did_sign (Evidence_offender e) ma ∧ did_sign (Evidence_offender e) mb ∧
    (ba ≠ bb → ma ≠ mb).
Proof.
  intros Hsig Hver Hty Hval. destruct e as [k h r t a b va vb|k h r a b pa pb]; simpl in *.
  - apply validate_double_vote_ok in Hval as (_ & [Ha Hb] & [Har Hbr] & [Hat Hbt] & _ & _ & Hs).
    destruct (Hs Hver) as [Hsa Hsb]. do 4 eexists. split_and!; [done|by eauto..|].
    intros Hne Heq. apply Hne. unfold Vote_sign_bytes in Heq.
    rewrite Ha, Har, Hat, Hb, Hbr, Hbt in Heq. by apply (vote_sign_bytes_block t h r).
  - apply validate_double_proposal_ok in Hval
      as (qa & qb & -> & -> & _ & [Ha Hb] & [Har Hbr] & _ & _ & Hs).
    destruct (Hs Hver) as [Hsa Hsb]. do 4 eexists. split_and!; [done|by eauto..|].
    intros Hne Heq. apply Hne. f_equal. unfold Proposal_sign_bytes in Heq.
    rewrite Ha, Har, Hb, Hbr in Heq. by eapply (proposal_sign_bytes_block h r); [apply Hty; by left|apply Hty; by right|].
Qed.
End soundness.

(** The [a] and [b] fields are not compared with the blocks of the votes. A
    validator that signed the same block twice, its signature scheme allowing
    two signatures of one string, can be reported with made-up [a] and [b] and
    the evidence passes. *)
Lemma same_block_evidence_accepted `{Crypto} k h r t bid sig1 sig2 :
  verify_sig k (vote_sign_bytes t h r bid) sig1 = true →
  verify_sig k (vote_sign_bytes t h r bid) sig2 = true → sig1 ≠ sig2 →
  Evidence_validate EvidenceConfig_default
    (DoubleVote k h r t None (Some Hash32_zero)
       (mkVote t h r k bid sig1) (mkVote t h r k bid sig2)) = Ok tt.
Proof.
  intros H1 H2 Hne. unfold Evidence_validate, validate_double_vote, neqb. simpl.
  rewrite !bool_decide_eq_true_2 by done. simpl.
  rewrite bool_decide_eq_false_2 by congruence. by rewrite H1, H2.
Qed.

(** ** Application *)

Lemma apply_evidence_ok e config s s' out :
  apply_evidence e config s = Some (s', Ok out) →
  ¬ (Evidence_id e ∈ processed s) ∧ Evidence_id e ∈ processed s' ∧ processed s ⊆ processed s' ∧
  Evidence_is_fresh e (current_height (es_ledger s)) (max_age config) = true ∧
  ∃ r r', sl_validators (es_ledger s) !! Evidence_offender e = Some r ∧ status r ≠ Tombstoned ∧
    sl_validators (es_ledger s') = <[Evidence_offender e := r']> (sl_validators (es_ledger s)) ∧
    community_pool (es_ledger s') = community_pool (es_ledger s) ∧
    slashed_amount out = Z.max (stake r `div` Evidence_slash_fraction e config) 1 ∧
    stake r' = sat_sub (stake r) (slashed_amount out) ∧
    Evidence_slash_fraction e config ≠ 0 ∧ status r' ≠ Active.
Proof.
  unfold apply_evidence. case_bool_decide as Hp; [done|].
  destruct (sl_validators (es_ledger s) !! Evidence_offender e) as [r|] eqn:Hr; [|done].
  destruct (is_tombstoned r) eqn:Ht; [done|].
  destruct (Evidence_is_fresh e _ _) eqn:Hf; cbn [negb]; [|done].
  destruct (Z.eqb_spec (Evidence_slash_fraction e config) 0) as [|Hfr]; [done|].
  intros [= <- <-]. simpl. split_and!; [done|set_solver|set_solver|done|].
  do 2 eexists. split_and!; [done| |reflexivity|done|done| |done|].
  - intros Hs. unfold is_tombstoned in Ht. by rewrite Hs in Ht.
  - by destruct (match status r with Jailed _ _ => _ | _ => _ end).
  - by destruct (match status r with Jailed _ _ => _ | _ => _ end).
Qed.

Lemma apply_evidence_err e config s s' er :
  apply_evidence e config s = Some (s', Err er) →
  es_ledger s' = es_ledger s ∧ processed s' = processed s.
Proof.
  unfold apply_evidence. case_bool_decide; [naive_solver|].
  destruct (_ !! _) as [r|]; [|naive_solver]. destruct (is_tombstoned r); [naive_solver|].
  destruct (Evidence_is_fresh e _ _); cbn [negb]; [|naive_solver]. by destruct (_ =? 0).
Qed.

Section application.
Context `{Crypto}.

Lemma manager_apply_cases config e s s' res :
  EvidenceManager_apply config e s = Some (s', res) →
  (∃ er, res = Err er ∧ es_ledger s' = es_ledger s ∧ processed s' = processed s) ∨
  (∃ out s1, res = Ok out ∧ Evidence_validate config e = Ok tt ∧
     es_ledger s1 = es_ledger s ∧ processed s1 = processed s ∧
     apply_evidence e config s1 = Some (s', Ok out)).
Proof.
  unfold EvidenceManager_apply, EvidenceManager_validate.
  destruct (Evidence_validate config e) as [[]|er] eqn:Hv; cbn [is_ok].
  - destruct res as [out|er]; intros Hap.
    + right. exists out. eexists. split_and!; [done|done| | |exact Hap]; done.
    + left. exists er. apply apply_evidence_err in Hap as [? ?]. done.
  - intros [= <- <-]. left. by exists er.
Qed.

(** A sequence of reports handled by one manager. *)
Fixpoint apply_all (config : EvidenceConfig) (es : list Evidence) (s : ev_state) :
    option (ev_state * list (result SlashingOutcome EvidenceError)) :=
  match es with
  | [] => Some (s, [])
  | e :: es' =>
    match EvidenceManager_apply config e s with
    | None => None
    | Some (s1, r) =>
      match apply_all config es' s1 with
      | None => None
      | Some (s2, rs) => Some (s2, r :: rs)
      end
    end
  end.

Lemma manager_apply_processed config e s s' res :
  EvidenceManager_apply config e s = Some (s', res) →
  processed s ⊆ processed s' ∧ (is_ok res = true → Evidence_id e ∈ processed s').
Proof.
  intros [(er & -> & _ & ->)|(out & s1 & -> & _ & _ & Hp & Hap)]%manager_apply_cases; [done|].
  apply apply_evidence_ok in Hap as (_ & Hin & Hsub & _). rewrite Hp in Hsub. done.
Qed.

Lemma apply_all_refuses config es s s' rs e i r :
  Evidence_id e ∈ processed s → apply_all config es s = Some (s', rs) →
  Evidence_id <$> (es !! i) = Some (Evidence_id e) → rs !! i = Some r → is_ok r = false.
Proof.
  revert s rs i. induction es as [|e' es IH]; intros s rs i Hin Hall Hi Hr; [done|]. simpl in Hall.
  destruct (EvidenceManager_apply config e' s) as [[s1 r1]|] eqn:Hap; [|done].
  destruct (apply_all config es s1) as [[s2 rs2]|] eqn:Hrec; [|done]. injection Hall as <- <-.
  destruct i as [|i]; simpl in *.
  - apply (inj Some) in Hi as Hid. injection Hr as <-.
    apply manager_apply_cases in Hap as [(er & -> & _)|(out & s3 & -> & _ & _ & Hp & Hap)]; [done|].
    apply apply_evidence_ok in Hap as (Hnot & _). rewrite Hp, Hid in Hnot. done.
  - apply manager_apply_processed in Hap as [Hsub _]. eapply IH; [|done..]. set_solver.
Qed.

(** An offence is punished at most once. In any sequence of reports, once a
    report with some identity was applied, every later report with the same
    identity is refused. *)
Lemma evidence_applied_once config es s s' rs i j ei ej ri rj :
  apply_all config es s = Some (s', rs) → (i < j)%nat →
  es !! i = Some ei → es !! j = Some ej → Evidence_id ei = Evidence_id ej →
  rs !! i = Some ri → rs !! j = Some rj → is_ok ri = true → is_ok rj = false.
Proof.
  revert s rs i j. induction es as [|e es IH]; intros s rs i j Hall Hij Hei Hej Hid Hri Hrj Hok; [done|].
  simpl in Hall. destruct (EvidenceManager_apply config e s) as [[s1 r1]|] eqn:Hap; [|done].
  destruct (apply_all config es s1) as [[s2 rs2]|] eqn:Hrec; [|done]. injection Hall as <- <-.
  destruct j as [|j]; [lia|]. destruct i as [|i]; simpl in *.
  - injection Hei as ->. injection Hri as <-. apply manager_apply_processed in Hap as [_ Hin].
    eapply (apply_all_refuses config es s1 _ _ ei j); [by apply Hin|done| |done].
    rewrite Hej. simpl. by rewrite Hid.
  - eapply (IH s1 rs2 i j); [done|lia|done..].
Qed.
End application.

(** A successful report slashes exactly its offender, who ends up jailed or
    tombstoned; but the stake it takes is not credited to the community pool,
    as [StakeLedger::apply_evidence] does: it disappears from the ledger. *)
Lemma evidence_slash_not_credited e config s s' out r :
  apply_evidence e config s = Some (s', Ok out) →
  sl_validators (es_ledger s) !! Evidence_offender e = Some r →
  0 < Evidence_slash_fraction e config → 1 ≤ stake r →
  ledger_total (es_ledger s') = ledger_total (es_ledger s) - slashed_amount out ∧
  1 ≤ slashed_amount out ∧ community_pool (es_ledger s') = community_pool (es_ledger s) ∧
  ∀ k, k ≠ Evidence_offender e → sl_validators (es_ledger s') !! k = sl_validators (es_ledger s) !! k.
Proof.
  intros Hap Hr Hf Hst.
  apply apply_evidence_ok in Hap as (_ & _ & _ & _ & r0 & r' & Hr0 & _ & Hvs & Hpool & Ha & Hst' & _).
  assert (r0 = r) as -> by congruence.
  pose proof (slash_amount_bounds (stake r) _ Hst Hf) as Hb. rewrite <-Ha in Hb.
  rewrite sat_sub_exact in Hst' by lia. split_and!; [|lia|done|].
  - unfold ledger_total, bonded. rewrite Hvs, Hpool, map_sum_insert, Hr. simpl. lia.
  - intros k Hk. by rewrite Hvs, lookup_insert_ne.
Qed.

(** ** Witnesses *)

Definition ex_ev_state : ev_state := mkEvState ex_ledger ∅ (mkEvidenceMetrics 0 0 0 0 0).

Lemma ex_evidence_typed : evidence_typed ex_evidence.
Proof.
  simpl. unfold vote_fields_ok, u64_ok, u32_ok, U64_MAX, U32_MAX. split_and!; (lia || done).
Qed.

Lemma evidence_sound_witness :
  ∃ ma ba mb bb, evidence_messages ex_evidence = Some ((ma, ba), (mb, bb)) ∧ True ∧ True ∧
    (ba ≠ bb → ma ≠ mb).
Proof.
  apply (@evidence_sound ex_crypto (λ _ _, True) EvidenceConfig_default ex_evidence);
    [intros; exact I|reflexivity|apply ex_evidence_typed|vm_compute; reflexivity].
Defined.

Lemma same_block_evidence_accepted_witness :
  @Evidence_validate ex_crypto EvidenceConfig_default
    (DoubleVote [1] 5 1 Prevote None (Some Hash32_zero)
       (mkVote Prevote 5 1 [1] None [1]) (mkVote Prevote 5 1 [1] None [2])) = Ok tt.
Proof.
  apply (@same_block_evidence_accepted ex_crypto [1] 5 1 Prevote None [1] [2]);
    [reflexivity|reflexivity|discriminate].
Defined.

Definition ex_reports : list Evidence := [ex_evidence; ex_evidence].

Definition ex_reports_result : list (result SlashingOutcome EvidenceError) :=
  [Ok (mkSlashingOutcome true 50 950 true false 0); Err AlreadyProcessed].

Definition ex_after : ev_state :=
  match @apply_all ex_crypto EvidenceConfig_default ex_reports ex_ev_state with
  | Some (s, _) => s | None => ex_ev_state end.

Lemma evidence_applied_once_witness : is_ok (Err (T := SlashingOutcome) AlreadyProcessed) = false.
Proof.
  apply (@evidence_applied_once ex_crypto EvidenceConfig_default ex_reports ex_ev_state ex_after
           ex_reports_result 0 1 ex_evidence ex_evidence
           (Ok (mkSlashingOutcome true 50 950 true false 0)) (Err AlreadyProcessed));
    [vm_compute; reflexivity|lia|reflexivity|reflexivity|reflexivity|reflexivity|reflexivity|reflexivity].
Defined.

Definition ex_applied : ev_state :=
  match apply_evidence ex_evidence EvidenceConfig_default ex_ev_state with
  | Some (s, _) => s | None => ex_ev_state end.

Lemma evidence_slash_not_credited_witness :
  ledger_total (es_ledger ex_applied) = ledger_total (es_ledger ex_ev_state) - 50 ∧
  1 ≤ 50 ∧ community_pool (es_ledger ex_applied) = community_pool (es_ledger ex_ev_state) ∧
  ∀ k, k ≠ [1] → sl_validators (es_ledger ex_applied) !! k = sl_validators (es_ledger ex_ev_state) !! k.
Proof.
  apply (evidence_slash_not_credited ex_evidence EvidenceConfig_default ex_ev_state ex_applied
           (mkSlashingOutcome true 50 950 true false 0) (ValidatorRecord_new 1000));
    [vm_compute; reflexivity|reflexivity|reflexivity|simpl; lia].
Defined.
