(* ===== verification/Utf8.v ===== *)
(** * UTF-8 and whitespace ([core::str::from_utf8], [str::split_whitespace],
    [String::from_utf8_lossy]).

    The parts of the Rust standard library that the key-value payloads of
    [src/src/execution.rs] and the file index of [src/src/fs/ionafs/mod.rs] rely
    on: decoding a byte string into characters, encoding characters, splitting at
    Unicode white space, and decoding with replacement. *)

From Stdlib Require Import ZArith Lia Bool.
From stdpp Require Import base list.
From S2P Require Import Prelude Types.

Local Open Scope Z_scope.

Definition is_cont (b : Z) : bool := (0x80 <=? b) && (b <=? 0xBF).

(** One character off the front: overlong forms, surrogates and code points
    above [0x10FFFF] are invalid, as in the Unicode table of well-formed byte
    sequences that [from_utf8] implements. *)
Definition decode_char (l : bytes) : option (Z * bytes) :=
  match l with
  | [] => None
  | b0 :: l1 =>
    if (0 <=? b0) && (b0 <=? 0x7F) then Some (b0, l1)
    else if (0xC2 <=? b0) && (b0 <=? 0xDF) then
      match l1 with
      | b1 :: l2 => if is_cont b1 then Some ((b0 - 0xC0) * 64 + (b1 - 0x80), l2) else None
      | _ => None
      end
    else if (0xE0 <=? b0) && (b0 <=? 0xEF) then
      match l1 with
      | b1 :: b2 :: l3 =>
        let c := (b0 - 0xE0) * 4096 + (b1 - 0x80) * 64 + (b2 - 0x80) in
        if is_cont b1 && is_cont b2 && (0x800 <=? c) && negb ((0xD800 <=? c) && (c <=? 0xDFFF))
        then Some (c, l3) else None
      | _ => None
      end
    else if (0xF0 <=? b0) && (b0 <=? 0xF4) then
      match l1 with
      | b1 :: b2 :: b3 :: l4 =>
        let c := (b0 - 0xF0) * 262144 + (b1 - 0x80) * 4096 + (b2 - 0x80) * 64 + (b3 - 0x80) in
        if is_cont b1 && is_cont b2 && is_cont b3 && (0x10000 <=? c) && (c <=? 0x10FFFF)
        then Some (c, l4) else None
      | _ => None
      end
    else None
  end.

(** Every character takes at least one byte: the length is enough fuel. *)
Fixpoint decode_chars (fuel : nat) (l : bytes) : option (list Z) :=
  match l with
  | [] => Some []
  | _ =>
    match fuel with
    | O => None
    | S fuel' =>
      match decode_char l with
      | None => None
      | Some (c, l') => cons c <$> decode_chars fuel' l'
      end
    end
  end.

Definition from_utf8 (l : bytes) : option (list Z) := decode_chars (length l) l.

Definition encode_char (c : Z) : bytes :=
  if c <? 0x80 then [c]
  else if c <? 0x800 then [0xC0 + c `div` 64; 0x80 + c `mod` 64]
  else if c <? 0x10000 then
    [0xE0 + c `div` 4096; 0x80 + (c `div` 64) `mod` 64; 0x80 + c `mod` 64]
  else [0xF0 + c `div` 262144; 0x80 + (c `div` 4096) `mod` 64;
        0x80 + (c `div` 64) `mod` 64; 0x80 + c `mod` 64].

(** [str::as_bytes]. *)
Definition as_bytes (cs : list Z) : bytes := concat (encode_char <$> cs).

(** How many bytes [from_utf8_lossy] replaces with one U+FFFD: the longest
    start of the input that is the start of some character, at least one byte. *)
Definition invalid_len (l : bytes) : nat :=
  match l with
  | b0 :: b1 :: l2 =>
    let second :=
      if b0 =? 0xE0 then (0xA0 <=? b1) && (b1 <=? 0xBF)
      else if b0 =? 0xED then (0x80 <=? b1) && (b1 <=? 0x9F)
      else if (0xE1 <=? b0) && (b0 <=? 0xEF) then is_cont b1
      else if b0 =? 0xF0 then (0x90 <=? b1) && (b1 <=? 0xBF)
      else if b0 =? 0xF4 then (0x80 <=? b1) && (b1 <=? 0x8F)
      else if (0xF1 <=? b0) && (b0 <=? 0xF3) then is_cont b1
      else false in
    if negb second then 1%nat
    else if b0 <? 0xF0 then 2%nat
    else match l2 with b2 :: _ => if is_cont b2 then 3%nat else 2%nat | [] => 2%nat end
  | _ => 1%nat
  end.

(** The input's length is enough fuel: every turn takes a byte or more. *)
Fixpoint lossy_from (fuel : nat) (l : bytes) : bytes :=
  match l, fuel with
  | [], _ | _, O => []
  | _, S fuel' =>
    match decode_char l with
    | Some (c, l') => encode_char c ++ lossy_from fuel' l'
    | None => [0xEF; 0xBF; 0xBD] ++ lossy_from fuel' (drop (invalid_len l) l)
    end
  end.

Definition from_utf8_lossy (l : bytes) : bytes := lossy_from (length l) l.

(** [char::is_whitespace]: the Unicode property White_Space. *)
Definition is_whitespace (c : Z) : bool :=
  ((9 <=? c) && (c <=? 13)) || (c =? 32) || (c =? 0x85) || (c =? 0xA0) || (c =? 0x1680) ||
  ((0x2000 <=? c) && (c <=? 0x200A)) || (c =? 0x2028) || (c =? 0x2029) || (c =? 0x202F) ||
  (c =? 0x205F) || (c =? 0x3000).

(** [cur] is the word being read. *)
Fixpoint split_from (cur : list Z) (cs : list Z) : list (list Z) :=
  match cs with
  | [] => match cur with [] => [] | _ => [cur] end
  | c :: cs' =>
    if is_whitespace c
    then match cur with [] => split_from [] cs' | _ => cur :: split_from [] cs' end
    else split_from (cur ++ [c]) cs'
  end.

Definition split_whitespace (cs : list Z) : list (list Z) := split_from [] cs.

(** [parts.join(" ")]. *)
Fixpoint join_space (ps : list (list Z)) : list Z :=
  match ps with
  | [] => []
  | [p] => p
  | p :: ps' => p ++ 32 :: join_space ps'
  end.

(** ** Facts *)

Lemma is_cont_spec b : is_cont b = true ↔ 0x80 ≤ b ≤ 0xBF.
Proof. unfold is_cont. rewrite andb_true_iff, !Z.leb_le. done. Qed.

(** The base-64 digits of a code point. *)
Lemma div_mod_digits q r n : 0 < n → 0 ≤ r < n → (q * n + r) `div` n = q ∧ (q * n + r) `mod` n = r.
Proof.
  intros Hn Hr. split.
  - symmetry. apply (Z.div_unique _ _ _ r); lia.
  - symmetry. apply (Z.mod_unique _ _ q); lia.
Qed.

Ltac digits a d :=
  let H1 := fresh in let H2 := fresh in
  destruct (div_mod_digits a d 64 ltac:(lia) ltac:(lia)) as [H1 H2]; rewrite ?H1, ?H2.

Lemma decode_char_encode l c l' : decode_char l = Some (c, l') → l = encode_char c ++ l'.
Proof.
  unfold decode_char. destruct l as [|b0 l1]; [done|].
  destruct ((0 <=? b0) && (b0 <=? 0x7F)) eqn:E0.
  { apply andb_true_iff in E0 as [? ?%Z.leb_le]. intros [= <- <-]. unfold encode_char.
    destruct (Z.ltb_spec b0 0x80); [done|lia]. }
  destruct ((0xC2 <=? b0) && (b0 <=? 0xDF)) eqn:E1.
  { apply andb_true_iff in E1 as [?%Z.leb_le ?%Z.leb_le]. destruct l1 as [|b1 l2]; [done|].
    destruct (is_cont b1) eqn:Hb1; [|done]. apply is_cont_spec in Hb1. intros [= <- <-].
    unfold encode_char. destruct (Z.ltb_spec ((b0 - 0xC0) * 64 + (b1 - 0x80)) 0x80); [lia|].
    destruct (Z.ltb_spec ((b0 - 0xC0) * 64 + (b1 - 0x80)) 0x800); [|lia].
    digits (b0 - 0xC0) (b1 - 0x80). simpl. do 2 f_equal; lia. }
  destruct ((0xE0 <=? b0) && (b0 <=? 0xEF)) eqn:E2.
  { apply andb_true_iff in E2 as [?%Z.leb_le ?%Z.leb_le]. destruct l1 as [|b1 [|b2 l3]]; [done..|].
    set (c0 := _ + _ + _). match goal with |- (if ?b then _ else _) = _ → _ => destruct b eqn:Hg; [|done] end.
    rewrite !andb_true_iff, !is_cont_spec, Z.leb_le in Hg. destruct Hg as (((Hb1 & Hb2) & Hc) & _).
    intros [= <- <-]. unfold encode_char.
    destruct (Z.ltb_spec c0 0x80); [lia|]. destruct (Z.ltb_spec c0 0x800); [lia|].
    destruct (Z.ltb_spec c0 0x10000); [|unfold c0 in *; lia].
    assert (c0 = ((b0 - 0xE0) * 64 + (b1 - 0x80)) * 64 + (b2 - 0x80)) as -> by (unfold c0; lia).
    replace 4096 with (64 * 64) by done. rewrite <-Z.div_div by lia.
    digits ((b0 - 0xE0) * 64 + (b1 - 0x80)) (b2 - 0x80). digits (b0 - 0xE0) (b1 - 0x80).
    simpl. do 3 f_equal; lia. }
  destruct ((0xF0 <=? b0) && (b0 <=? 0xF4)) eqn:E3; [|done].
  apply andb_true_iff in E3 as [?%Z.leb_le ?%Z.leb_le]. destruct l1 as [|b1 [|b2 [|b3 l4]]]; [done..|].
  set (c0 := _ + _ + _ + _). match goal with |- (if ?b then _ else _) = _ → _ => destruct b eqn:Hg; [|done] end.
  rewrite !andb_true_iff, !is_cont_spec, !Z.leb_le in Hg.
  destruct Hg as ((((Hb1 & Hb2) & Hb3) & Hc) & _). intros [= <- <-]. unfold encode_char.
  destruct (Z.ltb_spec c0 0x80); [lia|]. destruct (Z.ltb_spec c0 0x800); [lia|].
  destruct (Z.ltb_spec c0 0x10000); [lia|].
  assert (c0 = (((b0 - 0xF0) * 64 + (b1 - 0x80)) * 64 + (b2 - 0x80)) * 64 + (b3 - 0x80)) as ->
    by (unfold c0; lia).
  replace 262144 with (64 * (64 * 64)) by done. replace 4096 with (64 * 64) by done.
  rewrite <-!Z.div_div by lia.
  digits (((b0 - 0xF0) * 64 + (b1 - 0x80)) * 64 + (b2 - 0x80)) (b3 - 0x80).
  digits ((b0 - 0xF0) * 64 + (b1 - 0x80)) (b2 - 0x80). digits (b0 - 0xF0) (b1 - 0x80).
  simpl. do 4 f_equal; lia.
Qed.

(** Decoding loses nothing: the characters encode back to the same bytes. *)
Lemma from_utf8_as_bytes l cs : from_utf8 l = Some cs → as_bytes cs = l.
Proof.
  unfold from_utf8. generalize (length l) as fuel. intros fuel. revert l cs.
  induction fuel as [|fuel IH]; intros [|b l] cs; cbn [decode_chars]; [by intros [= <-]|done|by intros [= <-]|].
  destruct (decode_char (b :: l)) as [[c l']|] eqn:Hc; [|done].
  destruct (decode_chars fuel l') as [cs'|] eqn:Hcs; [|done]. intros [= <-].
  apply decode_char_encode in Hc. rewrite Hc. unfold as_bytes. simpl. f_equal. by apply IH.
Qed.

(** What is valid is not replaced. *)
Lemma from_utf8_lossy_valid l : is_Some (from_utf8 l) → from_utf8_lossy l = l.
Proof.
  unfold from_utf8, from_utf8_lossy. generalize (length l) as fuel. intros fuel. revert l.
  induction fuel as [|fuel IH]; intros [|b l]; cbn [decode_chars lossy_from]; [done|by intros []|done|].
  destruct (decode_char (b :: l)) as [[c l']|] eqn:Hc; [|by intros []].
  intros [cs Hcs]. apply fmap_Some in Hcs as (cs' & Hcs' & _).
  rewrite (decode_char_encode _ _ _ Hc). f_equal. apply IH. by exists cs'.
Qed.
