(* ===== verification/Digits.v ===== *)
(** * Decimal numbers ([core::fmt] and [str::parse] for unsigned integers).

    What [src/src/consensus/sync.rs] and [src/src/net/dns.rs] rely on: the decimal
    digits of a number, as bytes, and reading them back. *)

From Stdlib Require Import ZArith Lia Bool.
From stdpp Require Import base numbers list.
From S2P Require Import Prelude Types.

Local Open Scope Z_scope.

(** [str::parse] for an unsigned type with maximum [max]: an optional plus sign and
    at least one digit, without overflow. *)
Fixpoint parse_digits (max acc : Z) (cs : list Z) : option Z :=
  match cs with
  | [] => Some acc
  | c :: cs =>
    if (48 <=? c) && (c <=? 57) then
      let acc := acc * 10 + (c - 48) in
      if acc <=? max then parse_digits max acc cs else None
    else None
  end.

Definition parse_uint (max : Z) (cs : list Z) : option Z :=
  match cs with
  | [] => None
  | 43 :: [] => None
  | 43 :: cs => parse_digits max 0 cs
  | cs => parse_digits max 0 cs
  end.

(** [format!("{}", n)] for a number of at most [fuel] digits. *)
Fixpoint digits_from (fuel : nat) (n : Z) (acc : bytes) : bytes :=
  match fuel with
  | O => acc
  | S fuel =>
    let acc := (48 + n `mod` 10) :: acc in
    if n <? 10 then acc else digits_from fuel (n `div` 10) acc
  end.

(** A [u64] has at most 20 digits. *)
Definition format_uint (n : Z) : bytes := digits_from 20 n [].

#[global] Arguments parse_uint : simpl never.
#[global] Arguments format_uint : simpl never.

Definition is_digit (c : Z) : Prop := 48 ≤ c ≤ 57.

Lemma parse_digits_range max acc cs n : 0 ≤ acc ≤ max → parse_digits max acc cs = Some n → 0 ≤ n ≤ max.
Proof.
  revert acc. induction cs as [|c cs IH]; intros acc Ha; cbn; [by intros [= <-]|]. repeat case_match; try done. intros Hn.
  apply (IH (acc * 10 + (c - 48))); [lia|done].
Qed.

Lemma parse_uint_range max cs n : 0 ≤ max → parse_uint max cs = Some n → 0 ≤ n ≤ max.
Proof. intros Hm E. unfold parse_uint in E. repeat case_match; try done; by eapply parse_digits_range; [|eassumption]; lia. Qed.

Lemma parse_digits_from max fuel n rest :
  0 ≤ n < 10 ^ Z.of_nat fuel → n ≤ max → (0 < fuel)%nat → parse_digits max 0 (digits_from fuel n rest) = parse_digits max n rest.
Proof.
  revert n rest. induction fuel as [|fuel IH]; intros n rest Hn Hm Hf; [lia|]. cbn [digits_from].
  pose proof (Z.mod_pos_bound n 10 ltac:(lia)) as Hmod. destruct (n <? 10) eqn:E.
  - rewrite Z.mod_small in * by lia. cbn. rewrite (proj2 (andb_true_iff _ _)) by lia.
    replace (0 * 10 + (48 + n - 48)) with n by lia. by rewrite (proj2 (Z.leb_le _ _)) by done.
  - rewrite Nat2Z.inj_succ, Z.pow_succ_r in Hn by lia. pose proof (Z.div_mod n 10 ltac:(lia)) as Hd.
    destruct fuel as [|fuel]; [cbn in Hn; lia|].
    rewrite IH by (split; [apply Z.div_pos; lia|apply Z.div_lt_upper_bound; lia] || (transitivity n; [apply Z.div_le_upper_bound; lia|done]) || lia).
    cbn [parse_digits]. rewrite (proj2 (andb_true_iff _ _)) by lia. replace (n `div` 10 * 10 + (48 + n `mod` 10 - 48)) with n by lia.
    by rewrite (proj2 (Z.leb_le _ _)) by done.
Qed.

Lemma digits_from_digits fuel n rest : 0 ≤ n → Forall is_digit rest → Forall is_digit (digits_from fuel n rest).
Proof.
  revert n rest. induction fuel as [|fuel IH]; intros n rest Hn Hr; [done|]. cbn.
  pose proof (Z.mod_pos_bound n 10 ltac:(lia)) as Hm. assert (Forall is_digit ((48 + n `mod` 10) :: rest)) by (constructor; [red; lia|done]).
  case_match; [done|]. apply IH; [apply Z.div_pos; lia|done].
Qed.

Lemma digits_from_nonempty fuel n rest : (0 < fuel)%nat → digits_from fuel n rest ≠ [].
Proof.
  revert n rest. destruct fuel as [|fuel]; [lia|]. intros n rest _. cbn. case_match; [done|].
  assert (∀ fuel n l, l ≠ [] → digits_from fuel n l ≠ []) as Hl; [|by apply Hl].
  clear. induction fuel as [|fuel IH]; intros n l Hl; cbn; [done|]. case_match; [done|]. by apply IH.
Qed.

Lemma parse_uint_digits max ds : Forall is_digit ds → ds ≠ [] → parse_uint max ds = parse_digits max 0 ds.
Proof.
  destruct 1 as [|c ds Hc]; [done|]. intros _. unfold parse_uint. assert (c ≠ 43) by (red in Hc; lia).
  destruct c as [|c|c]; try done. do 6 (destruct c as [c|c|]; try done).
Qed.

Lemma format_uint_digits n : 0 ≤ n → Forall is_digit (format_uint n).
Proof. intros Hn. by apply digits_from_digits. Qed.

(** Printing and parsing are inverse. *)
Lemma parse_format max n : 0 ≤ n ≤ max → n ≤ U64_MAX → parse_uint max (format_uint n) = Some n.
Proof.
  intros Hn Hm. rewrite parse_uint_digits by first [apply format_uint_digits; lia|apply digits_from_nonempty; lia]. unfold format_uint.
  rewrite parse_digits_from; [done| |lia|lia]. change (10 ^ Z.of_nat 20) with 100000000000000000000. mach.
Qed.
