(* ===== verification/Execution.v ===== *)
(** * Transaction execution ([src/src/execution.rs]).

    Gas and fees, single transactions, block building and verification, and
    the roots. The code uses transaction, header and state types with fields
    that [types.rs] does not have; the records below are the types as
    [execution.rs] uses them. Third-party code and code the repository refers
    to but does not contain (the EVM adapter, transaction hashing and signing
    bytes, postcard, the clock) are fields of [ExecEnv]. Trace and debug
    output is not modelled. *)

From Stdlib Require Import ZArith Lia Bool Ascii String.
From stdpp Require Import base gmap list strings sorting.
From S2P Require Import Prelude Types Utf8.

Local Open Scope Z_scope.

(** ** Configuration and constants *)

Definition DEFAULT_GAS_LIMIT : Z := 86000000.
Definition INTRINSIC_GAS : Z := 21000.
Definition GAS_PER_BYTE : Z := 10.
Definition MIN_BASE_FEE : Z := 1.
Definition ELASTICITY_DENOM : Z := 8.
Definition MAX_PAYLOAD_SIZE : Z := 262144.
Definition DEFAULT_CHAIN_ID : Z := 6126151.

Record ExecutionConfig := mkExecutionConfig {
  ec_gas_limit : Z;
  ec_chain_id : Z;
  ec_min_base_fee : Z;
  ec_verify_signatures : bool;
  ec_verify_state_roots : bool;
  ec_verify_tx_roots : bool;
  ec_max_payload_size : Z;
  ec_enable_evm : bool;
  ec_evm_gas_limit : Z;
  ec_evm_tracing : bool;
  ec_collect_metrics : bool;
}.

Definition ExecutionConfig_default : ExecutionConfig :=
  {| ec_gas_limit := DEFAULT_GAS_LIMIT; ec_chain_id := DEFAULT_CHAIN_ID;
     ec_min_base_fee := MIN_BASE_FEE; ec_verify_signatures := true;
     ec_verify_state_roots := true; ec_verify_tx_roots := true;
     ec_max_payload_size := MAX_PAYLOAD_SIZE; ec_enable_evm := true;
     ec_evm_gas_limit := 15000000; ec_evm_tracing := false; ec_collect_metrics := true |}.

Definition ExecutionConfig_validate (c : ExecutionConfig) : result unit string :=
  if ec_gas_limit c =? 0 then Err "gas_limit must be > 0"%string
  else if ec_chain_id c =? 0 then Err "chain_id must be > 0"%string
  else if ec_min_base_fee c =? 0 then Err "min_base_fee must be > 0"%string
  else if ec_max_payload_size c =? 0 then Err "max_payload_size must be > 0"%string
  else if ec_evm_gas_limit c =? 0 then Err "evm_gas_limit must be > 0"%string
  else Ok tt.

(** ** Data *)

Record Tx := mkTx {
  from : string;
  pubkey : bytes;
  tx_signature : bytes;
  tx_chain_id : Z;
  nonce : Z;
  payload : bytes;
  tx_gas_limit : Z;
  max_fee_per_gas : Z;
  max_priority_fee_per_gas : Z;
}.

Record KvState := mkKvState {
  kv : gmap bytes bytes;
  balances : gmap string Z;
  nonces : gmap string Z;
  burned : Z;
}.

#[export] Instance eta_KvState : Settable KvState :=
  λ s, mkKvState (kv s) (balances s) (nonces s) (burned s).

Record ExecutionReceipt := mkExecutionReceipt {
  tx_hash : bytes;
  success : bool;
  gas_used : Z;
  intrinsic_gas_used : Z;
  exec_gas_used : Z;
  vm_gas_used : Z;
  evm_gas_used : Z;
  effective_gas_price : Z;
  r_burned : Z;
  tip : Z;
  error : option string;
  data : option bytes;
}.

Inductive ExecutionError :=
| TxInvalidSignature
| AddressMismatch (expected actual : string)
| NonceMismatch (expected actual : Z)
| InsufficientBalance (needed available : Z)
| GasLimitTooLow (limit intrinsic : Z)
| FeeTooLow (max_fee base_fee : Z)
| PayloadTooLarge (len max : Z)
| EvmError (s : string)
| StateRootMismatch (expected actual : Hash32)
| TxRootMismatch (expected actual : Hash32)
| GasUsedMismatch (expected actual : Z)
| ProposerMismatch
| VerificationFailed (expected actual : Hash32)
| ChainIdMismatch (expected actual : Z)
| ExecInternal (s : string).

Record ExecutionMetrics := mkExecutionMetrics {
  txs_applied : Z;
  txs_failed : Z;
  blocks_built : Z;
  blocks_verified : Z;
  gas_used_total : Z;
  gas_refunded_total : Z;
  state_roots_computed : Z;
}.

#[export] Instance eta_ExecutionMetrics : Settable ExecutionMetrics :=
  λ m, mkExecutionMetrics (txs_applied m) (txs_failed m) (blocks_built m) (blocks_verified m)
         (gas_used_total m) (gas_refunded_total m) (state_roots_computed m).

Definition inc_tx_applied (m : ExecutionMetrics) : ExecutionMetrics :=
  m <| txs_applied := add64 (txs_applied m) 1 |>.
Definition inc_tx_failed (m : ExecutionMetrics) : ExecutionMetrics :=
  m <| txs_failed := add64 (txs_failed m) 1 |>.
Definition inc_block_built (m : ExecutionMetrics) : ExecutionMetrics :=
  m <| blocks_built := add64 (blocks_built m) 1 |>.
Definition inc_block_verified (m : ExecutionMetrics) : ExecutionMetrics :=
  m <| blocks_verified := add64 (blocks_verified m) 1 |>.
Definition add_gas_used (g : Z) (m : ExecutionMetrics) : ExecutionMetrics :=
  m <| gas_used_total := add64 (gas_used_total m) g |>.
Definition add_gas_refunded (g : Z) (m : ExecutionMetrics) : ExecutionMetrics :=
  m <| gas_refunded_total := add64 (gas_refunded_total m) g |>.

(** The header and block that [build_block] assembles. *)
Record ExecHeader := mkExecHeader {
  eh_height : Height;
  eh_round : Round;
  eh_prev : Hash32;
  eh_proposer_pk : bytes;
  eh_proposer_addr : string;
  eh_tx_root : Hash32;
  eh_receipts_root : Hash32;
  eh_state_root : Hash32;
  eh_base_fee_per_gas : Z;
  eh_gas_used : Z;
  eh_intrinsic_gas_used : Z;
  eh_exec_gas_used : Z;
  eh_vm_gas_used : Z;
  eh_evm_gas_used : Z;
  eh_chain_id : Z;
  eh_timestamp : Z;
  eh_protocol_version : Z;
}.

Record ExecBlock := mkExecBlock { eb_header : ExecHeader; eb_txs : list Tx }.

(** ** Code outside the repository *)

Record UnifiedEvmResult := mkUnifiedEvmResult {
  evm_success : bool;
  evm_return_data : bytes;
  evm_result_gas_used : Z;
}.

Class ExecEnv := {
  (** [crypto::tx::tx_sign_bytes] and [types::tx_hash]. *)
  tx_sign_bytes : Tx → bytes;
  hash_tx : Tx → bytes;
  EvmTx : Type;
  (** [hex::decode(..)] then [bincode::deserialize(..)]. *)
  decode_evm_tx : bytes → option EvmTx;
  (** [evm::kv_state_db::execute_evm_on_state]: state, transaction, block number,
      block timestamp, base fee, chain id, gas limit. *)
  execute_evm_on_state :
    KvState → EvmTx → Z → Z → Z → Z → option Z → KvState * UnifiedEvmResult;
  (** [postcard::to_allocvec(receipt).unwrap_or_default()]. *)
  encode_receipt : ExecutionReceipt → bytes;
  CURRENT_PROTOCOL_VERSION : Z;
}.

(** ** Gas and fees *)

Definition intrinsic_gas (tx : Tx) : Z :=
  add64 INTRINSIC_GAS (mul64 (Z.of_nat (length (payload tx))) GAS_PER_BYTE).

Definition next_base_fee (current used gas_target : Z) : Z :=
  if gas_target =? 0 then Z.max current MIN_BASE_FEE
  else
    let current := Z.max current MIN_BASE_FEE in
    if used =? gas_target then current
    else
      let delta :=
        if gas_target <? used then
          let excess := used - gas_target in
          Z.max ((mul64 current excess `div` gas_target) `div` ELASTICITY_DENOM) 1
        else
          let shortage := gas_target - used in
          (mul64 current shortage `div` gas_target) `div` ELASTICITY_DENOM in
      if gas_target <? used
      then Z.max (sat_add64 current delta) MIN_BASE_FEE
      else Z.max (sat_sub current delta) MIN_BASE_FEE.

Definition effective_prices (base_fee max_fee max_priority : Z) : Z * Z * Z :=
  let max_tip := sat_sub max_fee base_fee in
  let priority := Z.min max_priority max_tip in
  (add64 base_fee priority, base_fee, priority).

(** ** Key-value payloads *)

Definition str_bytes (s : string) : bytes := (λ c, Z.of_N (N_of_ascii c)) <$> String.list_ascii_of_string s.

Inductive KvError := KvInvalidUtf8 | KvEmpty | KvUnknown (cmd : bytes).

Definition apply_kv_payload (m : gmap bytes bytes) (p : bytes) : result (gmap bytes bytes) KvError :=
  match from_utf8 p with
  | None => Err KvInvalidUtf8
  | Some s =>
    match split_whitespace s with
    | [] => Err KvEmpty
    | cmd :: args =>
      if bool_decide (as_bytes cmd = str_bytes "set") && (3 <=? Z.of_nat (length (cmd :: args)))
      then match args with
           | k :: vs => Ok (<[as_bytes k := as_bytes (join_space vs)]> m)
           | [] => Err (KvUnknown (as_bytes cmd))
           end
      else if bool_decide (as_bytes cmd = str_bytes "del") && (Z.of_nat (length (cmd :: args)) =? 2)
      then match args with
           | k :: _ => Ok (delete (as_bytes k) m)
           | [] => Err (KvUnknown (as_bytes cmd))
           end
      else Err (KvUnknown (as_bytes cmd))
    end
  end.

(** ** Roots *)

Lemma str_bytes_inj x y : str_bytes x = str_bytes y → x = y.
Proof.
  intros Hxy.
  assert (Inj (=) (=) (λ c, Z.of_N (N_of_ascii c))) as Hinj.
  { intros a b Hab%N2Z.inj. by rewrite <-(ascii_N_embedding a), Hab, ascii_N_embedding. }
  rewrite <-(String.string_of_list_ascii_of_string x), <-(String.string_of_list_ascii_of_string y).
  f_equal. revert Hxy. unfold str_bytes. apply (inj (fmap (M := list) (λ c, Z.of_N (N_of_ascii c)))).
Qed.

#[export] Instance string_keyord : KeyOrd string := keyord_via str_bytes str_bytes_inj.

Section roots.
Context `{Crypto, ExecEnv}.

(** The bytes that [compute_state_root] hashes: keys and values in key order,
    then addresses with their balances, then with their nonces, then the burned total. *)
Definition state_root_data (s : KvState) : bytes :=
  concat ((λ e, e.1 ++ e.2) <$> btree_iter (kv s)) ++
  concat ((λ e, str_bytes e.1 ++ le_bytes 8 e.2) <$> btree_iter (balances s)) ++
  concat ((λ e, str_bytes e.1 ++ le_bytes 8 e.2) <$> btree_iter (nonces s)) ++
  le_bytes 8 (burned s).

Definition compute_state_root (s : KvState) : Hash32 := blake3 (state_root_data s).

Definition compute_tx_root (l : list Tx) : Hash32 := blake3 (concat (hash_tx <$> l)).

(** [compute_receipts_root] and [compute_receipts_root_from_receipts] have the
    same body; both are given the execution receipts. *)
Definition compute_receipts_root (rs : list ExecutionReceipt) : Hash32 :=
  blake3 (concat (encode_receipt <$> rs)).

(** ** Transactions *)

Definition verify_tx_signature (tx : Tx) : result string ExecutionError :=
  let derived_addr := derive_address (pubkey tx) in
  if negb (bool_decide (from tx = derived_addr)) then Err (AddressMismatch derived_addr (from tx))
  else if negb (verify_sig (pubkey tx) (tx_sign_bytes tx) (tx_signature tx))
    then Err TxInvalidSignature
  else Ok derived_addr.

Definition EVM_PREFIX : bytes := str_bytes "evm_unified ".

Definition has_evm_prefix (p : bytes) : bool :=
  bool_decide (take (length EVM_PREFIX) p = EVM_PREFIX).

(** [strip_prefix(b"evm_unified ").unwrap_or(b"")], then decode and run. *)
Definition execute_evm_payload (st : KvState) (tx : Tx) (base_fee_per_gas chain_id : Z)
    (config : ExecutionConfig) : KvState * result UnifiedEvmResult ExecutionError :=
  if negb (ec_enable_evm config) then (st, Err (EvmError "EVM execution disabled"))
  else
    let hex_payload :=
      if has_evm_prefix (payload tx) then drop (length EVM_PREFIX) (payload tx) else [] in
    match decode_evm_tx hex_payload with
    | None => (st, Err (EvmError "failed to decode EVM transaction"))
    | Some evm_tx =>
      let '(st', res) := execute_evm_on_state st evm_tx 0 0 base_fee_per_gas chain_id
                           (Some (ec_evm_gas_limit config)) in
      (st', Ok res)
    end.

(** [*map.entry(k).or_insert(0) += v]. *)
Definition credit (k : string) (v : Z) (m : gmap string Z) : gmap string Z :=
  <[k := add64 (default 0 (m !! k)) v]> m.

(** Step 10 of [apply_tx]: the payload, on the state after the charges. *)
Definition run_payload (working : KvState) (tx : Tx) (base_fee_per_gas intrinsic : Z)
    (config : ExecutionConfig) : KvState * (bool * bytes * Z) :=
  if has_evm_prefix (payload tx) then
    match execute_evm_payload working tx base_fee_per_gas (ec_chain_id config) config with
    | (st, Ok r) =>
      (st, (evm_success r, evm_return_data r, sat_sub (evm_result_gas_used r) intrinsic))
    | (st, Err _) => (st, (false, [], 0))
    end
  else
    match apply_kv_payload (kv working) (payload tx) with
    | Ok m => (working <| kv := m |>, (true, [], 0))
    | Err _ => (working, (false, [], 0))
    end.

(** Step 9: deduct the gas cost, burn, tip the proposer, bump the nonce. *)
Definition charge (working : KvState) (from_addr proposer_addr : string)
    (balance total_gas_cost burn tip_amount expected_nonce : Z) : KvState :=
  let b := <[from_addr := sub64 balance total_gas_cost]> (balances working) in
  working <| balances := credit proposer_addr tip_amount b |>
          <| burned := add64 (burned working) burn |>
          <| nonces := <[from_addr := add64 expected_nonce 1]> (nonces working) |>.

Definition apply_tx (state : KvState) (tx : Tx) (base_fee_per_gas : Z) (proposer_addr : string)
    (config : ExecutionConfig) (m : ExecutionMetrics) :
    ExecutionMetrics * result (ExecutionReceipt * KvState) ExecutionError :=
  match (if ec_verify_signatures config then verify_tx_signature tx
         else Ok (derive_address (pubkey tx))) with
  | Err e => (m, Err e)
  | Ok from_addr =>
    if negb (ec_chain_id config =? tx_chain_id tx)
    then (m, Err (ChainIdMismatch (ec_chain_id config) (tx_chain_id tx)))
    else
    let expected_nonce := default 0 (nonces state !! from_addr) in
    if negb (nonce tx =? expected_nonce) then (m, Err (NonceMismatch expected_nonce (nonce tx)))
    else
    let len := Z.of_nat (length (payload tx)) in
    if ec_max_payload_size config <? len
    then (m, Err (PayloadTooLarge len (ec_max_payload_size config)))
    else
    let intrinsic := intrinsic_gas tx in
    if tx_gas_limit tx <? intrinsic then (m, Err (GasLimitTooLow (tx_gas_limit tx) intrinsic))
    else if max_fee_per_gas tx <? base_fee_per_gas
    then (m, Err (FeeTooLow (max_fee_per_gas tx) base_fee_per_gas))
    else
    let '(price, _, tip_per_gas) :=
      effective_prices base_fee_per_gas (max_fee_per_gas tx) (max_priority_fee_per_gas tx) in
    let total_gas_cost := mul64 intrinsic price in
    let burn := mul64 intrinsic base_fee_per_gas in
    let tip_amount := mul64 intrinsic tip_per_gas in
    let balance := default 0 (balances state !! from_addr) in
    if balance <? total_gas_cost then (m, Err (InsufficientBalance total_gas_cost balance))
    else
    let working :=
      charge state from_addr proposer_addr balance total_gas_cost burn tip_amount expected_nonce in
    let '(working, (ok, output, exec_gas)) :=
      run_payload working tx base_fee_per_gas intrinsic config in
    let total_gas_used := add64 intrinsic exec_gas in
    let refund := sat_sub (tx_gas_limit tx) total_gas_used in
    let working :=
      if 0 <? refund
      then working <| balances := credit from_addr (mul64 refund price) (balances working) |>
      else working in
    let m := if ok then inc_tx_applied m else inc_tx_failed m in
    let m := add_gas_refunded refund (add_gas_used total_gas_used m) in
    let receipt :=
      {| tx_hash := hash_tx tx; success := ok; gas_used := total_gas_used;
         intrinsic_gas_used := intrinsic; exec_gas_used := exec_gas; vm_gas_used := 0;
         evm_gas_used := if ok then exec_gas else 0; effective_gas_price := price;
         r_burned := burn; tip := tip_amount;
         error := if ok then None else Some "execution failed"%string;
         data := Some output |} in
    (m, Ok (receipt, working))
  end.

(** ** Blocks *)

(** The loop [build_block] and [verify_block] share; the sum wraps. *)
Fixpoint apply_txs (state : KvState) (l : list Tx) (base_fee_per_gas : Z) (proposer_addr : string)
    (config : ExecutionConfig) (m : ExecutionMetrics) (gas : Z) (rs : list ExecutionReceipt) :
    ExecutionMetrics * result (KvState * Z * list ExecutionReceipt) ExecutionError :=
  match l with
  | [] => (m, Ok (state, gas, rs))
  | tx :: l' =>
    match apply_tx state tx base_fee_per_gas proposer_addr config m with
    | (m, Err e) => (m, Err e)
    | (m, Ok (r, st)) =>
      apply_txs st l' base_fee_per_gas proposer_addr config m (add64 gas (gas_used r)) (rs ++ [r])
    end
  end.

(** [iter().map(f).sum()]. *)
Definition sum64 (f : ExecutionReceipt → Z) (rs : list ExecutionReceipt) : Z :=
  foldl (λ a r, add64 a (f r)) 0 rs.

(** [now] is [uptime_ms()]. *)
Definition build_block (now : Z) (height : Height) (round : Round) (parent : Hash32)
    (pk : PublicKeyBytes) (proposer_addr : string) (state : KvState) (fee : Z) (l : list Tx)
    (config : ExecutionConfig) (m : ExecutionMetrics) :
    ExecutionMetrics * result (ExecBlock * KvState * list ExecutionReceipt) ExecutionError :=
  match apply_txs state l fee proposer_addr config m 0 [] with
  | (m, Err e) => (m, Err e)
  | (m, Ok (new_state, gas, receipts)) =>
    let header :=
      {| eh_height := height; eh_round := round; eh_prev := parent; eh_proposer_pk := pk;
         eh_proposer_addr := proposer_addr; eh_tx_root := compute_tx_root l;
         eh_receipts_root := compute_receipts_root receipts;
         eh_state_root := compute_state_root new_state; eh_base_fee_per_gas := fee;
         eh_gas_used := gas; eh_intrinsic_gas_used := sum64 intrinsic_gas_used receipts;
         eh_exec_gas_used := sum64 exec_gas_used receipts;
         eh_vm_gas_used := sum64 vm_gas_used receipts;
         eh_evm_gas_used := sum64 evm_gas_used receipts; eh_chain_id := ec_chain_id config;
         eh_timestamp := now; eh_protocol_version := CURRENT_PROTOCOL_VERSION |} in
    (inc_block_built m, Ok (mkExecBlock header l, new_state, receipts))
  end.

Definition verify_block (state : KvState) (block : ExecBlock) (expected_pk : PublicKeyBytes)
    (proposer_addr : string) (config : ExecutionConfig) (m : ExecutionMetrics) :
    ExecutionMetrics * result (KvState * list ExecutionReceipt) ExecutionError :=
  let h := eb_header block in
  if negb (bool_decide (eh_proposer_pk h = expected_pk)) then (m, Err ProposerMismatch)
  else if negb (bool_decide (eh_proposer_addr h = proposer_addr)) then (m, Err ProposerMismatch)
  else if negb (eh_chain_id h =? ec_chain_id config)
    then (m, Err (ChainIdMismatch (ec_chain_id config) (eh_chain_id h)))
  else
  match apply_txs state (eb_txs block) (eh_base_fee_per_gas h) proposer_addr config m 0 [] with
  | (m, Err e) => (m, Err e)
  | (m, Ok (new_state, gas, receipts)) =>
    if ec_verify_state_roots config && negb (gas =? eh_gas_used h)
    then (m, Err (GasUsedMismatch (eh_gas_used h) gas))
    else if ec_verify_tx_roots config && negb (bool_decide (compute_tx_root (eb_txs block) = eh_tx_root h))
    then (m, Err (TxRootMismatch (eh_tx_root h) (compute_tx_root (eb_txs block))))
    else if negb (bool_decide (compute_receipts_root receipts = eh_receipts_root h))
    then (m, Err (VerificationFailed (eh_receipts_root h) (compute_receipts_root receipts)))
    else if ec_verify_state_roots config && negb (bool_decide (compute_state_root new_state = eh_state_root h))
    then (m, Err (StateRootMismatch (eh_state_root h) (compute_state_root new_state)))
    else (inc_block_verified m, Ok (new_state, receipts))
  end.
End roots.

(** ** Fees *)

Lemma fee_share current d target :
  1 ≤ current → 0 < target → 0 ≤ d ≤ target → current * target ≤ U64_MAX →
  0 ≤ (mul64 current d `div` target) `div` ELASTICITY_DENOM ≤ current `div` ELASTICITY_DENOM.
Proof.
  intros Hc Ht Hd Hfit. rewrite mul64_small by mach_nl.
  assert (0 ≤ (current * d) `div` target ≤ current) as [H0 H1].
  { split; [apply Z.div_pos; nia|]. apply Z.div_le_upper_bound; nia. }
  unfold ELASTICITY_DENOM. split; [apply Z.div_pos; lia|]. apply Z.div_le_mono; lia.
Qed.

(** The base fee follows EIP-1559. For blocks of up to twice the target, and
    as long as the products fit a [u64], it never drops below 1, moves by at
    most an eighth (or by 1 upwards when an eighth is less), rises above the
    target, does not rise below it, and stays put at it. *)
Lemma next_base_fee_step current used target :
  1 ≤ current → 0 < target → 0 ≤ used ≤ 2 * target → current * target ≤ U64_MAX →
  current + Z.max (current `div` 8) 1 ≤ U64_MAX →
  let next := next_base_fee current used target in
  1 ≤ next ∧ current - current `div` 8 ≤ next ≤ current + Z.max (current `div` 8) 1 ∧
  (target < used → current < next) ∧ (used < target → next ≤ current) ∧
  (used = target → next = current).
Proof.
  intros Hc Ht Hu Hfit Hmax. unfold next_base_fee, MIN_BASE_FEE.
  assert (0 ≤ current `div` 8 < current) as H8.
  { split; [apply Z.div_pos; lia|]. apply Z.div_lt_upper_bound; lia. }
  destruct (Z.eqb_spec target 0); [lia|]. rewrite (Z.max_l current 1) by lia.
  destruct (Z.eqb_spec used target) as [->|Hne]; [lia|].
  destruct (Z.ltb_spec target used) as [Hlt|Hge].
  - pose proof (fee_share current (used - target) target Hc Ht ltac:(lia) Hfit) as Hs.
    unfold ELASTICITY_DENOM in *. autorewrite with machine. lia.
  - pose proof (fee_share current (target - used) target Hc Ht ltac:(lia) Hfit) as Hs.
    unfold ELASTICITY_DENOM in *. autorewrite with machine. lia.
Qed.

(** The product in [next_base_fee] is a wrapping [u64] product. With a base
    fee of [2^40], a target of [2^24] and a block twice the target the product
    is [2^64], and the fee rises by 1 in place of an eighth. *)
Lemma next_base_fee_overflow :
  next_base_fee (2 ^ 40) (2 ^ 25) (2 ^ 24) = 2 ^ 40 + 1 ∧ 2 ^ 40 + 1 < 2 ^ 40 + 2 ^ 40 `div` 8.
Proof. done. Qed.

(** For the inputs of the repository's unit test the function gives 88 and
    112, where the test expects 99 and 125. *)
Lemma next_base_fee_test_values :
  next_base_fee 100 0 1000000 = 88 ∧ next_base_fee 100 2000000 1000000 = 112 ∧
  next_base_fee 1 0 1000000 = 1.
Proof. done. Qed.

(** ** Supply *)

(** Everything held by accounts plus everything burned. *)
Definition supply (s : KvState) : Z := map_sum (λ _ b, b) (balances s) + burned s.

Definition balances_ok (s : KvState) : Prop :=
  (∀ a b, balances s !! a = Some b → 0 ≤ b) ∧ 0 ≤ burned s.

Lemma balance_nonneg (m : gmap string Z) a :
  (∀ a b, m !! a = Some b → 0 ≤ b) → 0 ≤ default 0 (m !! a) ≤ map_sum (λ _ b, b) m.
Proof.
  intros Hm. destruct (m !! a) as [b|] eqn:Ha; simpl.
  - split; [by eapply Hm|]. by apply (map_sum_lookup_le (λ _ b, b) m a b).
  - split; [done|]. by apply map_sum_nonneg.
Qed.

Lemma map_sum_set (m : gmap string Z) a v :
  map_sum (λ _ b, b) (<[a := v]> m) = map_sum (λ _ b, b) m - default 0 (m !! a) + v.
Proof. rewrite map_sum_insert. destruct (m !! a); simpl; lia. Qed.

Lemma map_sum_credit (m : gmap string Z) a v :
  (∀ a b, m !! a = Some b → 0 ≤ b) → 0 ≤ v → map_sum (λ _ b, b) m + v ≤ U64_MAX →
  map_sum (λ _ b, b) (credit a v m) = map_sum (λ _ b, b) m + v ∧
  (∀ a' b, credit a v m !! a' = Some b → 0 ≤ b).
Proof.
  intros Hm Hv Hfit. pose proof (balance_nonneg m a Hm). unfold credit.
  assert (add64 (default 0 (m !! a)) v = default 0 (m !! a) + v) as ->.
  { apply wrap64_small. mach. }
  split; [rewrite map_sum_set; lia|].
  intros a' b [[_ <-]|[_ ?]]%lookup_insert_Some; [lia|by eapply Hm].
Qed.

(** Charging moves the cost from the sender to the burned total and the tip. *)
Lemma charge_supply s a p cost burn tp n :
  balances_ok s → 0 ≤ burn → 0 ≤ tp → cost = burn + tp →
  cost ≤ default 0 (balances s !! a) → supply s ≤ U64_MAX →
  let s' := charge s a p (default 0 (balances s !! a)) cost burn tp n in
  supply s' = supply s ∧ balances_ok s'.
Proof.
  intros [Hb Hburn] Hb0 Ht0 Hcost Hbal Hfit. unfold supply in Hfit.
  pose proof (balance_nonneg (balances s) a Hb) as Hbn. unfold charge, sub64.
  rewrite wrap64_small by mach.
  set (m := <[a := _]> (balances s)).
  assert (map_sum (λ _ b, b) m = map_sum (λ _ b, b) (balances s) - cost) as Hsum.
  { unfold m. rewrite map_sum_set. lia. }
  assert (∀ a' b, m !! a' = Some b → 0 ≤ b) as Hm.
  { intros a' b [[_ <-]|[_ ?]]%lookup_insert_Some; [lia|by eapply Hb]. }
  destruct (map_sum_credit m p tp Hm Ht0) as [Hc Hok]; [lia|].
  assert (add64 (burned s) burn = burned s + burn) as Hbd by (apply wrap64_small; mach).
  unfold supply, balances_ok. simpl. rewrite Hc, Hbd. split; [lia|]. split; [done|lia].
Qed.

Section execution.
Context `{Crypto, ExecEnv}.
Implicit Types (tx : Tx) (s : KvState) (config : ExecutionConfig).

(** The sender, the tip per gas and the price of a transaction. *)
Definition sender tx : string := derive_address (pubkey tx).
Definition tip_per_gas tx (fee : Z) : Z :=
  Z.min (max_priority_fee_per_gas tx) (sat_sub (max_fee_per_gas tx) fee).
Definition price_of tx (fee : Z) : Z := add64 fee (tip_per_gas tx fee).

(** The state after the charges of a transaction. *)
Definition charged s tx (fee : Z) (p : string) : KvState :=
  charge s (sender tx) p (default 0 (balances s !! sender tx))
    (mul64 (intrinsic_gas tx) (price_of tx fee)) (mul64 (intrinsic_gas tx) fee)
    (mul64 (intrinsic_gas tx) (tip_per_gas tx fee)) (nonce tx).

(** The refund at the end of a transaction. *)
Definition refunded tx (fee gas : Z) (w : KvState) : KvState :=
  let refund := sat_sub (tx_gas_limit tx) gas in
  if 0 <? refund
  then w <| balances := credit (sender tx) (mul64 refund (price_of tx fee)) (balances w) |>
  else w.

Lemma sender_of config tx a :
  (if ec_verify_signatures config then verify_tx_signature tx
   else Ok (derive_address (pubkey tx))) = Ok a → a = sender tx.
Proof.
  unfold verify_tx_signature, sender. destruct (ec_verify_signatures config); [|congruence].
  destruct (negb (bool_decide _)); [done|]. destruct (negb _); [done|congruence].
Qed.

(** What a transaction that was accepted satisfied and did. *)
Lemma apply_tx_ok s tx fee p config m m' r s' :
  apply_tx s tx fee p config m = (m', Ok (r, s')) →
  nonce tx = default 0 (nonces s !! sender tx) ∧
  Z.of_nat (length (payload tx)) ≤ ec_max_payload_size config ∧
  intrinsic_gas tx ≤ tx_gas_limit tx ∧ fee ≤ max_fee_per_gas tx ∧
  mul64 (intrinsic_gas tx) (price_of tx fee) ≤ default 0 (balances s !! sender tx) ∧
  ∃ w ok out eg,
    run_payload (charged s tx fee p) tx fee (intrinsic_gas tx) config = (w, (ok, out, eg)) ∧
    s' = refunded tx fee (add64 (intrinsic_gas tx) eg) w ∧
    gas_used r = add64 (intrinsic_gas tx) eg ∧ success r = ok.
Proof.
  unfold apply_tx.
  destruct (if ec_verify_signatures config then _ else _) as [a|e] eqn:Ha; [|done].
  apply sender_of in Ha as ->.
  destruct (ec_chain_id config =? tx_chain_id tx); cbn [negb]; [|done].
  destruct (Z.eqb_spec (nonce tx) (default 0 (nonces s !! sender tx))) as [Hn|]; cbn [negb]; [|done].
  destruct (Z.ltb_spec (ec_max_payload_size config) (Z.of_nat (length (payload tx)))) as [|Hp]; [done|].
  destruct (Z.ltb_spec (tx_gas_limit tx) (intrinsic_gas tx)) as [|Hg]; [done|].
  destruct (Z.ltb_spec (max_fee_per_gas tx) fee) as [|Hf]; [done|].
  unfold effective_prices. fold (tip_per_gas tx fee). fold (price_of tx fee).
  destruct (Z.ltb_spec (default 0 (balances s !! sender tx))
              (mul64 (intrinsic_gas tx) (price_of tx fee))) as [|Hb]; [done|].
  rewrite <-Hn. fold (charged s tx fee p).
  destruct (run_payload _ tx fee _ config) as [w [[ok out] eg]] eqn:Hrun.
  intros [= _ <- <-]. split_and!; [done..|]. exists w, ok, out, eg. done.
Qed.

(** Key-value payloads touch nothing but the key-value table and use no extra gas. *)
Lemma run_kv_payload w tx fee ig config w' ok out eg :
  has_evm_prefix (payload tx) = false →
  run_payload w tx fee ig config = (w', (ok, out, eg)) →
  balances w' = balances w ∧ nonces w' = nonces w ∧ burned w' = burned w ∧ eg = 0.
Proof.
  intros Hk. unfold run_payload. rewrite Hk.
  destruct (apply_kv_payload _ _); intros [= <- <- <- <-]; done.
Qed.

Lemma intrinsic_gas_eq tx :
  Z.of_nat (length (payload tx)) ≤ 2 ^ 32 →
  intrinsic_gas tx = INTRINSIC_GAS + Z.of_nat (length (payload tx)) * GAS_PER_BYTE.
Proof.
  intros Hl. unfold intrinsic_gas, INTRINSIC_GAS, GAS_PER_BYTE.
  by autorewrite with machine.
Qed.

(** The refund credits the sender with what is left of the gas limit. *)
Lemma refunded_supply w tx fee gas :
  balances_ok w → gas ≤ tx_gas_limit tx → 0 ≤ (tx_gas_limit tx - gas) * price_of tx fee →
  supply w + (tx_gas_limit tx - gas) * price_of tx fee ≤ U64_MAX →
  supply (refunded tx fee gas w) = supply w + (tx_gas_limit tx - gas) * price_of tx fee.
Proof.
  intros [Hb Hb0] Hg Hpos Hfit. unfold refunded. rewrite sat_sub_exact by lia.
  pose proof (balance_nonneg (balances w) (sender tx) Hb).
  destruct (Z.ltb_spec 0 (tx_gas_limit tx - gas)) as [Hr|Hr].
  - unfold supply in *. simpl. rewrite mul64_small by mach.
    destruct (map_sum_credit (balances w) (sender tx) ((tx_gas_limit tx - gas) * price_of tx fee))
      as [-> _]; [done|lia|lia|lia].
  - assert (tx_gas_limit tx - gas = 0) as -> by lia. lia.
Qed.

(** The charges conserve the supply when no product overflows. *)
Lemma charged_supply s tx fee p :
  balances_ok s → 0 ≤ fee → 0 ≤ tip_per_gas tx fee → 0 ≤ intrinsic_gas tx →
  intrinsic_gas tx * (fee + tip_per_gas tx fee) ≤ default 0 (balances s !! sender tx) →
  supply s ≤ U64_MAX → price_of tx fee = fee + tip_per_gas tx fee →
  supply (charged s tx fee p) = supply s ∧ balances_ok (charged s tx fee p).
Proof.
  intros Hok Hfee Htip Hig Hbal Hfit Hprice. unfold charged, mul64. rewrite Hprice.
  pose proof (balance_nonneg (balances s) (sender tx) (proj1 Hok)).
  assert (default 0 (balances s !! sender tx) ≤ U64_MAX).
  { unfold supply in Hfit. destruct Hok. lia. }
  rewrite !wrap64_small by mach_nl.
  apply charge_supply; [done|nia|nia|lia|done|done].
Qed.

(** The supply is not conserved. An accepted key-value transaction pays for
    its intrinsic gas only, but is refunded its whole gas limit less what it
    used, so the total held and burned grows by the refund. *)
Lemma apply_tx_supply s tx fee p config m m' r s' :
  has_evm_prefix (payload tx) = false → balances_ok s → 0 ≤ fee →
  0 ≤ max_priority_fee_per_gas tx → ec_max_payload_size config ≤ 2 ^ 32 →
  supply s + tx_gas_limit tx * max_fee_per_gas tx ≤ U64_MAX →
  apply_tx s tx fee p config m = (m', Ok (r, s')) →
  supply s' = supply s + (tx_gas_limit tx - intrinsic_gas tx) * price_of tx fee.
Proof.
  intros Hkv Hok Hfee Hprio Hcfg Hfit Hap.
  apply apply_tx_ok in Hap as (_ & Hlen & Hgas & Hmax & Hbal & w & ok & out & eg & Hrun & -> & _ & _).
  assert (0 ≤ tip_per_gas tx fee ≤ max_fee_per_gas tx - fee) as Htip
    by (unfold tip_per_gas; rewrite sat_sub_exact by lia; lia).
  pose proof (intrinsic_gas_eq tx ltac:(lia)) as Hig. unfold INTRINSIC_GAS, GAS_PER_BYTE in Hig.
  pose proof (balance_nonneg (balances s) p (proj1 Hok)) as Hb.
  assert (0 ≤ supply s) as Hsup by (unfold supply; destruct Hok; lia).
  assert (price_of tx fee = fee + tip_per_gas tx fee) as Hprice.
  { unfold price_of, add64. apply wrap64_small. mach_nl. }
  unfold mul64 in Hbal. rewrite wrap64_small in Hbal by mach_nl.
  destruct (charged_supply s tx fee p) as [Hcs [Hcb Hcb0]]; [done|lia|lia|lia|by rewrite <-Hprice|nia|done|].
  apply run_kv_payload in Hrun as (Hrb & _ & Hrburn & ->); [|done].
  assert (supply w = supply s) as Hw by (unfold supply in *; by rewrite Hrb, Hrburn).
  assert (add64 (intrinsic_gas tx) 0 = intrinsic_gas tx) as ->.
  { autorewrite with machine. apply Z.add_0_r. }
  rewrite refunded_supply, Hw; [done| |done|nia|nia].
  unfold balances_ok. by rewrite Hrb, Hrburn.
Qed.

(** A transaction cannot be replayed. Once a key-value transaction was
    accepted, the same transaction is refused on the resulting state, by any
    proposer and at any base fee, with a nonce mismatch. *)
Lemma apply_tx_no_replay s tx fee p config m m' r s' fee' p' m1 :
  has_evm_prefix (payload tx) = false → 0 ≤ nonce tx < U64_MAX →
  apply_tx s tx fee p config m = (m', Ok (r, s')) →
  apply_tx s' tx fee' p' config m1 = (m1, Err (NonceMismatch (nonce tx + 1) (nonce tx))).
Proof.
  intros Hkv Hn Hap. pose proof Hap as Hap'. unfold apply_tx in Hap'.
  apply apply_tx_ok in Hap as (_ & _ & _ & _ & _ & w & ok & out & eg & Hrun & -> & _ & _).
  apply run_kv_payload in Hrun as (_ & Hrn & _ & _); [|done].
  set (s1 := refunded _ _ _ w).
  assert (nonces s1 !! sender tx = Some (nonce tx + 1)) as Hnonce.
  { assert (nonces s1 = nonces w) as ->.
    { unfold s1, refunded. by destruct (0 <? _). }
    rewrite Hrn. unfold charged, charge. simpl. rewrite lookup_insert_eq. f_equal.
    apply wrap64_small. mach. }
  unfold apply_tx. destruct (if ec_verify_signatures config then _ else _) as [a|e] eqn:Ha; [|done].
  apply sender_of in Ha as ->. destruct (ec_chain_id config =? tx_chain_id tx); cbn [negb] in *; [|done].
  rewrite Hnonce. simpl. by destruct (Z.eqb_spec (nonce tx) (nonce tx + 1)); [lia|].
Qed.

(** ** Blocks *)

(** The counters do not influence execution. *)
Lemma apply_tx_metrics s tx fee p config m m1 :
  (apply_tx s tx fee p config m).2 = (apply_tx s tx fee p config m1).2.
Proof.
  unfold apply_tx. repeat (case_match; simpl; try done).
Qed.

Lemma apply_txs_metrics l s fee p config m m1 gas rs :
  (apply_txs s l fee p config m gas rs).2 = (apply_txs s l fee p config m1 gas rs).2.
Proof.
  revert s m m1 gas rs. induction l as [|tx l IH]; intros s m m1 gas rs; simpl; [done|].
  pose proof (apply_tx_metrics s tx fee p config m m1) as Heq.
  destruct (apply_tx s tx fee p config m) as [m2 [[r s2]|e]],
    (apply_tx s tx fee p config m1) as [m3 [[r' s3]|e']]; simplify_eq/=; [apply IH|done].
Qed.

(** C38: What one node builds, every node with the same state and configuration
    accepts: verification re-executes the block to the same state and the same
    receipts, whatever the configuration checks. *)
Theorem build_block_verifies now height round parent pk addr s fee l config m m' b s' rs m1 :
  build_block now height round parent pk addr s fee l config m = (m', Ok (b, s', rs)) →
  ∃ m2, verify_block s b pk addr config m1 = (m2, Ok (s', rs)).
Proof.
  unfold build_block, verify_block.
  destruct (apply_txs s l fee addr config m 0 []) as [m3 [[[s3 gas] rs3]|e]] eqn:Hap; [|done].
  intros [= _ <- <- <-]. cbn [eb_header eb_txs eh_proposer_pk eh_proposer_addr eh_chain_id
    eh_base_fee_per_gas eh_gas_used eh_tx_root eh_receipts_root eh_state_root].
  rewrite !bool_decide_eq_true_2, Z.eqb_refl by done. cbn [negb].
  pose proof (apply_txs_metrics l s fee addr config m m1 0 []) as Heq. rewrite Hap in Heq.
  destruct (apply_txs s l fee addr config m1 0 []) as [m4 res]. cbn [snd] in Heq. subst res.
  rewrite !Z.eqb_refl, !bool_decide_eq_true_2, !andb_false_r by done. by eexists.
Qed.

(** A block that passes verification with all checks on commits to its
    effects: its header carries the gas its transactions really use, their
    root, and the root of the state they lead to. *)
Lemma verify_block_sound s b pk addr config m m' s' rs :
  ec_verify_state_roots config = true → ec_verify_tx_roots config = true →
  verify_block s b pk addr config m = (m', Ok (s', rs)) →
  eh_proposer_pk (eb_header b) = pk ∧ eh_chain_id (eb_header b) = ec_chain_id config ∧
  (apply_txs s (eb_txs b) (eh_base_fee_per_gas (eb_header b)) addr config m 0 []).2 =
    Ok (s', eh_gas_used (eb_header b), rs) ∧
  eh_tx_root (eb_header b) = compute_tx_root (eb_txs b) ∧
  eh_receipts_root (eb_header b) = compute_receipts_root rs ∧
  eh_state_root (eb_header b) = compute_state_root s'.
Proof.
  intros Hsr Htr. unfold verify_block. rewrite Hsr, Htr. cbn [andb].
  case_bool_decide as Hpk; cbn [negb]; [|done]. case_bool_decide as Haddr; cbn [negb]; [|done].
  destruct (Z.eqb_spec (eh_chain_id (eb_header b)) (ec_chain_id config)) as [Hcid|]; cbn [negb]; [|done].
  destruct (apply_txs _ _ _ _ _ _ _ _) as [m3 [[[s3 gas] rs3]|e]]; [|done].
  destruct (Z.eqb_spec gas (eh_gas_used (eb_header b))) as [->|]; cbn [negb]; [|done].
  case_bool_decide as Htx; cbn [negb]; [|done]. case_bool_decide as Hrr; cbn [negb]; [|done].
  case_bool_decide as Hst; cbn [negb]; [|done]. intros [= _ <- <-]. done.
Qed.

(** The state root does not determine the state. Keys and values are hashed
    back to back with no lengths in between, so different tables have the same
    root whatever the hash function. *)
Lemma state_root_ambiguous :
  ∃ s1 s2, kv s1 ≠ kv s2 ∧ compute_state_root s1 = compute_state_root s2.
Proof.
  exists (mkKvState {[ [97] := [98; 99] ]} ∅ ∅ 0), (mkKvState {[ [97; 98] := [99] ]} ∅ ∅ 0).
  split; [|done]. simpl. intros Heq. apply (f_equal (lookup [97])) in Heq.
  rewrite lookup_singleton_eq, lookup_singleton_ne in Heq; done.
Qed.
End execution.

(** ** Witnesses *)

Definition ex_env : ExecEnv := {|
  tx_sign_bytes tx := payload tx;
  hash_tx tx := payload tx;
  EvmTx := unit;
  decode_evm_tx _ := None;
  execute_evm_on_state st _ _ _ _ _ _ := (st, mkUnifiedEvmResult true [] 0);
  encode_receipt r := [gas_used r];
  CURRENT_PROTOCOL_VERSION := 1;
|}.

Definition ex_tx : Tx :=
  {| from := "iona1"; pubkey := [1]; tx_signature := [1]; tx_chain_id := DEFAULT_CHAIN_ID;
     nonce := 0; payload := str_bytes "set key value"; tx_gas_limit := 30000;
     max_fee_per_gas := 3; max_priority_fee_per_gas := 1 |}.

Definition ex_state : KvState := mkKvState ∅ {[ "iona1"%string := 1000000 ]} ∅ 0.

Definition ex_exec_metrics : ExecutionMetrics := mkExecutionMetrics 0 0 0 0 0 0 0.

Definition ex_applied_tx : ExecutionMetrics * (ExecutionReceipt * KvState) :=
  match @apply_tx ex_crypto ex_env ex_state ex_tx 2 "prop" ExecutionConfig_default ex_exec_metrics with
  | (m, Ok rs) => (m, rs)
  | (m, Err _) => (m, (mkExecutionReceipt [] false 0 0 0 0 0 0 0 0 None None, ex_state))
  end.

Lemma ex_applied_tx_ok :
  @apply_tx ex_crypto ex_env ex_state ex_tx 2 "prop" ExecutionConfig_default ex_exec_metrics =
  (ex_applied_tx.1, Ok (ex_applied_tx.2.1, ex_applied_tx.2.2)).
Proof. vm_compute. reflexivity. Qed.

Lemma next_base_fee_step_witness :
  let next := next_base_fee 100 2000000 1000000 in
  1 ≤ next ∧ 100 - 100 `div` 8 ≤ next ≤ 100 + Z.max (100 `div` 8) 1 ∧
  (1000000 < 2000000 → 100 < next) ∧ (2000000 < 1000000 → next ≤ 100) ∧
  (2000000 = 1000000 → next = 100).
Proof.
  apply (next_base_fee_step 100 2000000 1000000); [lia|lia|lia|mach|].
  vm_compute. discriminate.
Defined.

Lemma apply_tx_supply_witness :
  supply ex_applied_tx.2.2 =
  supply ex_state + (30000 - intrinsic_gas ex_tx) * price_of ex_tx 2.
Proof.
  apply (@apply_tx_supply ex_crypto ex_env ex_state ex_tx 2 "prop" ExecutionConfig_default
           ex_exec_metrics ex_applied_tx.1 ex_applied_tx.2.1 ex_applied_tx.2.2);
    [vm_compute; reflexivity| |lia|simpl; lia|vm_compute; discriminate|vm_compute; discriminate
    |apply ex_applied_tx_ok].
  split; [|done]. intros a b. simpl. rewrite lookup_singleton_Some. intros [_ <-]. lia.
Defined.

Lemma apply_tx_no_replay_witness :
  @apply_tx ex_crypto ex_env ex_applied_tx.2.2 ex_tx 7 "other" ExecutionConfig_default ex_exec_metrics =
  (ex_exec_metrics, Err (NonceMismatch (nonce ex_tx + 1) (nonce ex_tx))).
Proof.
  apply (@apply_tx_no_replay ex_crypto ex_env ex_state ex_tx 2 "prop" ExecutionConfig_default
           ex_exec_metrics ex_applied_tx.1 ex_applied_tx.2.1 ex_applied_tx.2.2);
    [vm_compute; reflexivity|vm_compute; split; [discriminate|reflexivity]|apply ex_applied_tx_ok].
Defined.

Definition ex_built : ExecutionMetrics * option (ExecBlock * KvState * list ExecutionReceipt) :=
  let '(m, r) := @build_block ex_crypto ex_env 77 5 0 (replicate 32 0) [1] "prop" ex_state 2 [ex_tx]
                   ExecutionConfig_default ex_exec_metrics in (m, result_opt r).

Definition ex_exec_block : ExecBlock :=
  match ex_built.2 with
  | Some (b, _, _) => b
  | None => mkExecBlock (mkExecHeader 0 0 [] [] "x" [] [] [] 0 0 0 0 0 0 0 0 0) []
  end.
Definition ex_built_state : KvState :=
  match ex_built.2 with Some (_, s, _) => s | None => ex_state end.
Definition ex_receipts : list ExecutionReceipt :=
  match ex_built.2 with Some (_, _, rs) => rs | None => [] end.

Lemma build_block_verifies_witness :
  ∃ m2, @verify_block ex_crypto ex_env ex_state ex_exec_block [1] "prop" ExecutionConfig_default
          ex_exec_metrics = (m2, Ok (ex_built_state, ex_receipts)).
Proof.
  apply (@build_block_verifies ex_crypto ex_env 77 5 0 (replicate 32 0) [1] "prop" ex_state 2 [ex_tx]
           ExecutionConfig_default ex_exec_metrics ex_built.1).
  vm_compute. reflexivity.
Defined.

Lemma verify_block_sound_witness :
  let h := eb_header ex_exec_block in
  eh_proposer_pk h = [1] ∧ eh_chain_id h = ec_chain_id ExecutionConfig_default ∧
  (@apply_txs ex_crypto ex_env ex_state (eb_txs ex_exec_block) (eh_base_fee_per_gas h) "prop"
     ExecutionConfig_default ex_exec_metrics 0 []).2 = Ok (ex_built_state, eh_gas_used h, ex_receipts) ∧
  eh_tx_root h = @compute_tx_root ex_crypto ex_env (eb_txs ex_exec_block) ∧
  eh_receipts_root h = @compute_receipts_root ex_crypto ex_env ex_receipts ∧
  eh_state_root h = @compute_state_root ex_crypto ex_built_state.
Proof.
  apply (@verify_block_sound ex_crypto ex_env ex_state ex_exec_block [1] "prop"
           ExecutionConfig_default ex_exec_metrics
           (@verify_block ex_crypto ex_env ex_state ex_exec_block [1] "prop" ExecutionConfig_default
              ex_exec_metrics).1 ex_built_state ex_receipts);
    [reflexivity|reflexivity|vm_compute; reflexivity].
Defined.
