(* ===== verification/Engine.v ===== *)
(** * Tendermint consensus engine ([src/src/consensus/engine.rs]).

    The engine's state, its timers, proposals, votes, locking and commit; the
    kernel side of the file is in [KernelBridge]. An engine call runs in a small state monad over the engine,
    the block store and the outbox (the sequence of calls on the [Outbox]
    trait); [None] is a panic ([proposer_for] on an empty validator set, a
    division by a zero slash fraction).

    Interfaces: [BlockStore] is the trait of that name; [Executor] stands for
    [build_block] and [verify_block_with_vset], which the engine calls with
    arguments no function of the repository takes; [Signer] is the trait.
    [stakes.apply_evidence(&ev, height)] is the ledger's method of that name,
    with counters nobody reads. Prometheus metrics and logging are not modelled. *)

From Stdlib Require Import ZArith Lia Bool.
From stdpp Require Import base gmap sets list strings sorting.
From S2P Require Import Prelude Types Messages ValidatorSet Quorum DoubleSign Slashing Evidence Execution.

Local Open Scope Z_scope.

(** ** Data *)

Inductive ConsensusError :=
| BadSignature
| UnknownValidator
| BadStep
| ExecutionFailed
| DoubleSignConflict
| QuorumNotReached
| MaxRoundsExceeded
| NoProposer
| EngineIo (s : string)
| EngineConfig (s : string)
| EngineIntegerOverflow.

Inductive Step := StPropose | StPrevote | StPrecommit | StCommit.

#[export] Instance Step_eq_dec : EqDecision Step.
Proof. solve_decision. Defined.

Record CommitCertificate := mkCommitCertificate {
  cc_height : Height;
  cc_block_id : Hash32;
  cc_precommits : list Vote;
}.

Record Config := mkConfig {
  propose_timeout_ms : Z;
  prevote_timeout_ms : Z;
  precommit_timeout_ms : Z;
  max_rounds : Z;
  max_txs_per_block : Z;
  cfg_gas_target : Z;
  initial_base_fee_per_gas : Z;
  include_block_in_proposal : bool;
  fast_quorum : bool;
  cfg_enable_metrics : bool;
}.

Definition Config_default : Config :=
  {| propose_timeout_ms := 300; prevote_timeout_ms := 200; precommit_timeout_ms := 200;
     max_rounds := 50; max_txs_per_block := 4096; cfg_gas_target := 43000000;
     initial_base_fee_per_gas := 1; include_block_in_proposal := true; fast_quorum := true;
     cfg_enable_metrics := false |}.

Definition Config_validate (c : Config) : result unit string :=
  if propose_timeout_ms c =? 0 then Err "propose_timeout_ms must be > 0"%string
  else if prevote_timeout_ms c =? 0 then Err "prevote_timeout_ms must be > 0"%string
  else if precommit_timeout_ms c =? 0 then Err "precommit_timeout_ms must be > 0"%string
  else if max_rounds c =? 0 then Err "max_rounds must be > 0"%string
  else if max_txs_per_block c =? 0 then Err "max_txs_per_block must be > 0"%string
  else if cfg_gas_target c =? 0 then Err "gas_target must be > 0"%string
  else if initial_base_fee_per_gas c =? 0 then Err "initial_base_fee_per_gas must be > 0"%string
  else Ok tt.

Record ConsensusState := mkConsensusState {
  height : Height;
  round : Round;
  step : Step;
  locked_round : option Round;
  locked_value : option Hash32;
  valid_round : option Round;
  valid_value : option Hash32;
  proposal : option Proposal;
  proposal_block : option Block;
  votes : gmap Round (gmap VoteType (gmap PublicKeyBytes Vote));
  vote_index : gmap (PublicKeyBytes * Height * Round * VoteType) (option Hash32 * Vote);
  decided : option CommitCertificate;
}.

#[export] Instance eta_ConsensusState : Settable ConsensusState :=
  λ s, mkConsensusState (height s) (round s) (step s) (locked_round s) (locked_value s)
         (valid_round s) (valid_value s) (proposal s) (proposal_block s) (votes s)
         (vote_index s) (decided s).

Definition ConsensusState_new (h : Height) : ConsensusState :=
  {| height := h; round := 0; step := StPropose; locked_round := None; locked_value := None;
     valid_round := None; valid_value := None; proposal := None; proposal_block := None;
     votes := ∅; vote_index := ∅; decided := None |}.

Definition ConsensusState_advance_round (s : ConsensusState) : ConsensusState :=
  s <| round := sat_add32 (round s) 1 |> <| proposal := None |> <| proposal_block := None |>
    <| step := StPropose |>.

Record AtomicConsensusMetrics := mkConsensusMetrics {
  proposals_broadcast : Z;
  proposals_received : Z;
  votes_broadcast : Z;
  votes_received : Z;
  blocks_committed : Z;
  round_advancements : Z;
  double_sign_evidence : Z;
  block_requests : Z;
}.

#[export] Instance eta_ConsensusMetrics : Settable AtomicConsensusMetrics :=
  λ m, mkConsensusMetrics (proposals_broadcast m) (proposals_received m) (votes_broadcast m)
         (votes_received m) (blocks_committed m) (round_advancements m) (double_sign_evidence m)
         (block_requests m).

Definition fetch_add_1 (z : Z) : Z := add64 z 1.

(** ** Interfaces *)

Class Signer := {
  public_key : PublicKeyBytes;
  sign : bytes → SignatureBytes;
}.

Class BlockStore (B : Type) := {
  store_get : B → Hash32 → option Block;
  store_put : B → Block → B;
}.

Class Executor (St Rc : Type) := {
  exec_build : Height → Round → Hash32 → bytes → string → St → Z → list RawTx → Block;
  exec_verify : St → Block → string → PublicKeyBytes → option (St * list Rc);
}.

(** A call on the [Outbox] trait. *)
Inductive OutEvent (St Rc : Type) :=
| OutBroadcast (msg : ConsensusMsg)
| OutRequestBlock (id : Hash32)
| OutCommit (cert : CommitCertificate) (block : Block) (new_state : St) (new_base_fee : Z)
    (receipts : list Rc).
Arguments OutBroadcast {St Rc} msg.
Arguments OutRequestBlock {St Rc} id.
Arguments OutCommit {St Rc} cert block new_state new_base_fee receipts.

Record Engine (St : Type) := mkEngine {
  cfg : Config;
  vset : ValidatorSet;
  state : ConsensusState;
  prev_block_id : Hash32;
  app_state : St;
  stakes : StakeLedger;
  base_fee_per_gas : Z;
  ds_guard : option DoubleSignGuard;
  step_elapsed_ms : Z;
  metrics : AtomicConsensusMetrics;
}.
Arguments mkEngine {St}.
Arguments cfg {St}.
Arguments vset {St}.
Arguments state {St}.
Arguments prev_block_id {St}.
Arguments app_state {St}.
Arguments stakes {St}.
Arguments base_fee_per_gas {St}.
Arguments ds_guard {St}.
Arguments step_elapsed_ms {St}.
Arguments metrics {St}.

#[export] Instance eta_Engine {St} : Settable (Engine St) :=
  λ e, mkEngine (cfg e) (vset e) (state e) (prev_block_id e) (app_state e) (stakes e)
         (base_fee_per_gas e) (ds_guard e) (step_elapsed_ms e) (metrics e).

(** The engine with its surroundings. *)
Record World (B St Rc : Type) := mkWorld {
  eng : Engine St;
  store : B;
  outbox : list (OutEvent St Rc);
}.
Arguments mkWorld {B St Rc}.
Arguments eng {B St Rc}.
Arguments store {B St Rc}.
Arguments outbox {B St Rc}.

#[export] Instance eta_World {B St Rc} : Settable (World B St Rc) :=
  λ w, mkWorld (eng w) (store w) (outbox w).

(** ** The monad *)

Definition M (B St Rc A : Type) : Type := World B St Rc → option (A * World B St Rc).

Section monad.
Context {B St Rc : Type}.
Abbreviation M := (M B St Rc).

Definition ret {A} (a : A) : M A := λ w, Some (a, w).
Definition bind {A C} (m : M A) (f : A → M C) : M C :=
  λ w, match m w with None => None | Some (a, w') => f a w' end.
Definition panic {A} : M A := λ _, None.
Definition get_eng : M (Engine St) := λ w, Some (eng w, w).
Definition get_state : M ConsensusState := λ w, Some (state (eng w), w).
Definition upd_eng (f : Engine St → Engine St) : M unit := λ w, Some (tt, w <| eng := f (eng w) |>).
Definition upd_state (f : ConsensusState → ConsensusState) : M unit :=
  upd_eng (λ e, e <| state := f (state e) |>).
Definition upd_metrics (f : AtomicConsensusMetrics → AtomicConsensusMetrics) : M unit :=
  upd_eng (λ e, e <| metrics := f (metrics e) |>).
Definition emit (ev : OutEvent St Rc) : M unit := λ w, Some (tt, w <| outbox := outbox w ++ [ev] |>).
Definition put_block `{BlockStore B} (b : Block) : M unit :=
  λ w, Some (tt, w <| store := store_put (store w) b |>).
Definition get_block `{BlockStore B} (id : Hash32) : M (option Block) :=
  λ w, Some (store_get (store w) id, w).
End monad.

Declare Scope engine_scope.
Delimit Scope engine_scope with engine.
Notation "'let!' x ':=' m 'in' k" := (bind m (λ x, k))
  (at level 10, x name, m at level 100, k at level 200) : engine_scope.
Notation "m ;; k" := (bind m (λ _, k)) (at level 100, k at level 200, right associativity) : engine_scope.

(** ** Certificates *)

Section certificate.
Context `{Crypto}.

(** The loop of [CommitCertificate::verify]. *)
Fixpoint verify_precommits (vs : ValidatorSet) (l : list Vote) (acc : Z) : result Z ConsensusError :=
  match l with
  | [] => Ok acc
  | v :: l' =>
    if negb (ValidatorSet_contains vs (v_voter v)) then Err UnknownValidator
    else if negb (verify_sig (v_voter v) (Vote_sign_bytes v) (v_signature v)) then Err BadSignature
    else verify_precommits vs l' (sat_add64 acc (default 0 (ValidatorSet_power_of vs (v_voter v))))
  end.

Definition CommitCertificate_verify (c : CommitCertificate) (vs : ValidatorSet) :
    result unit ConsensusError :=
  (let? p := verify_precommits vs (cc_precommits c) 0 in
   if p <? quorum_threshold (vs_total_power vs) then Err QuorumNotReached else Ok tt)%rust.
End certificate.

(** ** The engine *)

Section engine.
Context `{Crypto, GuardCodec, Signer} `{BlockStore B} `{Executor St Rc}.
Abbreviation M := (M B St Rc).
Local Open Scope engine_scope.

Definition Engine_new (c : Config) (vs : ValidatorSet) (h : Height) (prev : Hash32) (app : St)
    (stk : StakeLedger) (guard : option DoubleSignGuard) : result (Engine St) ConsensusError :=
  match Config_validate c with
  | Err e => Err (EngineConfig e)
  | Ok _ =>
    Ok {| cfg := c; vset := vs; state := ConsensusState_new h; prev_block_id := prev;
          app_state := app; stakes := stk; base_fee_per_gas := initial_base_fee_per_gas c;
          ds_guard := guard; step_elapsed_ms := 0;
          metrics := mkConsensusMetrics 0 0 0 0 0 0 0 0 |}
  end.

(** [vset.proposer_for(..).pk]; panics on an empty set. *)
Definition proposer_key (h : Height) (r : Round) : M PublicKeyBytes :=
  let! e := get_eng in
  match ValidatorSet_proposer_for (vset e) h r with
  | Some v => ret (pk v)
  | None => panic
  end.

Definition Engine_is_proposer (k : PublicKeyBytes) : M bool :=
  let! s := get_state in
  let! p := proposer_key (height s) (round s) in
  ret (bool_decide (p = k)).

(** [if let Some(g) = &self.ds_guard { if g.f(..).is_err() { return } }]: whether to go on. *)
Definition with_guard (f : DoubleSignGuard → DoubleSignGuard * result unit DoubleSignError) : M bool :=
  let! e := get_eng in
  match ds_guard e with
  | None => ret true
  | Some g =>
    let '(g', r) := f g in
    upd_eng (λ e, e <| ds_guard := Some g' |>) ;; ret (is_ok r)
  end.

Definition Engine_broadcast_vote (vt : VoteType) (block_id : option Hash32) : M unit :=
  let! s := get_state in
  let! ok := with_guard (λ g, DoubleSignGuard_check_vote g vt (height s) (round s) block_id) in
  if negb ok then ret tt else
  let sig := sign (vote_sign_bytes vt (height s) (round s) block_id) in
  let! ok := with_guard (λ g, DoubleSignGuard_record_vote g vt (height s) (round s) block_id) in
  if negb ok then ret tt else
  emit (OutBroadcast (MsgVote (mkVote vt (height s) (round s) public_key block_id sig))) ;;
  upd_metrics (λ m, m <| votes_broadcast := fetch_add_1 (votes_broadcast m) |>).

(** The part of [maybe_propose] after the early returns. *)
Definition propose_block (mempool_drain : Z → list RawTx) : M unit :=
  let! e := get_eng in
  let s := state e in
  let block := exec_build (height s) (round s) (prev_block_id e) public_key
                 (derive_address public_key) (app_state e) (base_fee_per_gas e)
                 (mempool_drain (max_txs_per_block (cfg e))) in
  let bid := Block_id block in
  put_block block ;;
  let! ok := with_guard (λ g, DoubleSignGuard_check_proposal g (height s) (round s) bid) in
  if negb ok then ret tt else
  let sig := sign (proposal_sign_bytes (height s) (round s) bid (valid_round s)) in
  let! ok := with_guard (λ g, DoubleSignGuard_record_proposal g (height s) (round s) bid) in
  if negb ok then ret tt else
  let prop :=
    {| p_height := height s; p_round := round s; p_proposer := public_key; p_block_id := bid;
       p_block := if include_block_in_proposal (cfg e) then Some block else None;
       p_pol_round := valid_round s; p_signature := sig |} in
  upd_state (λ s, s <| proposal := Some prop |> <| proposal_block := Some block |>) ;;
  emit (OutBroadcast (MsgProposal prop)) ;;
  upd_metrics (λ m, m <| proposals_broadcast := fetch_add_1 (proposals_broadcast m) |>).

Definition Engine_maybe_propose (mempool_drain : Z → list RawTx) : M unit :=
  let! s := get_state in
  match proposal s with
  | Some _ => ret tt
  | None =>
    let! mine := Engine_is_proposer public_key in
    if negb mine then ret tt else propose_block mempool_drain
  end.

Definition reset_elapsed : M unit := upd_eng (λ e, e <| step_elapsed_ms := 0 |>).

Definition Engine_advance_round : M unit :=
  let! e := get_eng in
  if max_rounds (cfg e) <=? wrap32 (round (state e) + 1) then ret tt
  else
    upd_state ConsensusState_advance_round ;;
    reset_elapsed ;;
    upd_metrics (λ m, m <| round_advancements := fetch_add_1 (round_advancements m) |>) ;;
    Engine_maybe_propose (λ _, []).

(** What [tick] prevotes: the block of the current proposal, if it is here. *)
Definition tick_vote (s : ConsensusState) : option Hash32 :=
  match proposal s with
  | Some p => match proposal_block s with Some _ => Some (p_block_id p) | None => None end
  | None => None
  end.

Definition Engine_tick (dt_ms : Z) (mempool_drain : Z → list RawTx) : M unit :=
  let! s := get_state in
  match decided s with
  | Some _ => ret tt
  | None =>
    upd_eng (λ e, e <| step_elapsed_ms := sat_add64 (step_elapsed_ms e) dt_ms |>) ;;
    let! e := get_eng in
    match step s with
    | StPropose =>
      (if (step_elapsed_ms e =? dt_ms) && bool_decide (proposal s = None)
       then Engine_maybe_propose mempool_drain else ret tt) ;;
      let! e := get_eng in
      let has_valid := fast_quorum (cfg e) && negb (bool_decide (proposal (state e) = None)) &&
                       negb (bool_decide (proposal_block (state e) = None)) in
      if has_valid || (propose_timeout_ms (cfg e) <=? step_elapsed_ms e) then
        upd_state (λ s, s <| step := StPrevote |>) ;;
        reset_elapsed ;;
        Engine_broadcast_vote Prevote (tick_vote (state e))
      else ret tt
    | StPrevote =>
      if prevote_timeout_ms (cfg e) <=? step_elapsed_ms e then Engine_advance_round else ret tt
    | StPrecommit =>
      if precommit_timeout_ms (cfg e) <=? step_elapsed_ms e then Engine_advance_round else ret tt
    | StCommit => ret tt
    end
  end.

Definition Engine_verify_proposal (p : Proposal) : M (result unit ConsensusError) :=
  let! e := get_eng in
  if negb (ValidatorSet_contains (vset e) (p_proposer p)) then ret (Err UnknownValidator)
  else
    let! k := proposer_key (p_height p) (p_round p) in
    ret (if negb (bool_decide (k = p_proposer p)) then Err UnknownValidator
         else if negb (p_height p =? height (state e)) || negb (p_round p =? round (state e))
         then Err BadStep
         else if negb (verify_sig (p_proposer p)
                         (proposal_sign_bytes (p_height p) (p_round p) (p_block_id p) (p_pol_round p))
                         (p_signature p))
         then Err BadSignature
         else Ok tt).

Definition verify_vote (e : Engine St) (v : Vote) : result unit ConsensusError :=
  if negb (ValidatorSet_contains (vset e) (v_voter v)) then Err UnknownValidator
  else if negb (v_height v =? height (state e)) || negb (v_round v =? round (state e))
  then Err BadStep
  else if negb (verify_sig (v_voter v) (Vote_sign_bytes v) (v_signature v)) then Err BadSignature
  else Ok tt.

Definition prevote_choice (s : ConsensusState) (proposal_id : Hash32) : option Hash32 :=
  match locked_value s with
  | Some locked => if negb (bool_decide (locked = proposal_id)) then None else Some proposal_id
  | None => Some proposal_id
  end.

Definition request_block (id : Hash32) : M unit :=
  emit (OutRequestBlock id) ;;
  upd_metrics (λ m, m <| block_requests := fetch_add_1 (block_requests m) |>).

(** [self.state.step = s; self.step_elapsed_ms = 0]. *)
Definition enter_step (st : Step) : M unit :=
  upd_state (λ s, s <| step := st |>) ;; reset_elapsed.

Definition Engine_on_proposal (p : Proposal) : M (result unit ConsensusError) :=
  let! s := get_state in
  match decided s with
  | Some _ => ret (Ok tt)
  | None =>
    let! chk := Engine_verify_proposal p in
    match chk with
    | Err er => ret (Err er)
    | Ok _ =>
      match p_block p with Some b => put_block b | None => ret tt end ;;
      let! block := get_block (p_block_id p) in
      match block with
      | None =>
        request_block (p_block_id p) ;;
        enter_step StPrevote ;;
        Engine_broadcast_vote Prevote None ;;
        upd_state (λ s, s <| proposal := Some p |> <| proposal_block := None |>) ;;
        ret (Ok tt)
      | Some b =>
        let! e := get_eng in
        match exec_verify (app_state e) b (derive_address (p_proposer p)) (p_proposer p) with
        | None =>
          enter_step StPrevote ;;
          Engine_broadcast_vote Prevote None ;;
          ret (Ok tt)
        | Some _ =>
          upd_state (λ s, s <| proposal := Some p |> <| proposal_block := Some b |>) ;;
          enter_step StPrevote ;;
          let! s := get_state in
          Engine_broadcast_vote Prevote (prevote_choice s (p_block_id p)) ;;
          ret (Ok tt)
        end
      end
    end
  end.

Definition vote_key (v : Vote) : PublicKeyBytes * Height * Round * VoteType :=
  (v_voter v, v_height v, v_round v, v_vote_type v).

Definition record_vote_and_detect_evidence (s : ConsensusState) (v : Vote) :
    ConsensusState * option Evidence :=
  match vote_index s !! vote_key v with
  | Some (prev_bid, prev_vote) =>
    if negb (bool_decide (prev_bid = v_block_id v))
    then (s, Some (DoubleVote (v_voter v) (v_height v) (v_round v) (v_vote_type v) prev_bid
                     (v_block_id v) prev_vote v))
    else (s, None)
  | None => (s <| vote_index := <[vote_key v := (v_block_id v, v)]> (vote_index s) |>, None)
  end.

(** [self.stakes.apply_evidence(&ev, ..)], the result ignored. *)
Definition apply_to_stakes (ev : Evidence) : M unit :=
  let! e := get_eng in
  match StakeLedger_apply_evidence (stakes e) (mkSlashingMetrics 0 0 0 0 0 0 0 0 0) ev with
  | None => panic
  | Some (l, _, _) => upd_eng (λ e, e <| stakes := l |>)
  end.

(** [votes.entry(round).or_default().entry(type).or_default().insert(voter, v)]. *)
Definition insert_vote (s : ConsensusState) (v : Vote) : ConsensusState :=
  let rt := default ∅ (votes s !! v_round v) in
  let vt := default ∅ (rt !! v_vote_type v) in
  s <| votes := <[v_round v := <[v_vote_type v := <[v_voter v := v]> vt]> rt]> (votes s) |>.

Definition round_votes (s : ConsensusState) (r : Round) (vt : VoteType) :
    option (gmap PublicKeyBytes Vote) :=
  match votes s !! r with Some rt => rt !! vt | None => None end.

Definition Engine_tally (e : Engine St) (r : Round) (vt : VoteType) : option (Candidate * Z) :=
  match round_votes (state e) r vt with
  | None => None
  | Some vs =>
    let t := foldl (λ t kv, (VoteTally_add_vote t (vset e) kv.1 (v_block_id kv.2)).1)
               VoteTally_default (btree_iter vs) in
    result_opt (VoteTally_best t).2
  end.

Definition matches_target (target b : option Hash32) : bool :=
  match target, b with
  | Some t, Some b => bool_decide (t = b)
  | None, None => true
  | _, _ => false
  end.

Definition Engine_collect_votes (s : ConsensusState) (r : Round) (vt : VoteType)
    (target : option Hash32) : list Vote :=
  match round_votes s r vt with
  | None => []
  | Some vs => filter (λ v, matches_target target (v_block_id v)) (snd <$> btree_iter vs)
  end.

(** The quorum test of [on_vote] for the round and type of [v]. *)
Definition quorum_for (e : Engine St) (v : Vote) : option Candidate :=
  match Engine_tally e (v_round v) (v_vote_type v) with
  | Some (bid_opt, pow) =>
    if quorum_threshold (vs_total_power (vset e)) <=? pow then Some bid_opt else None
  | None => None
  end.

(** A prevote quorum for [bid]: lock and precommit. *)
Definition lock_and_precommit (bid : Hash32) : M unit :=
  upd_state (λ s, s <| valid_round := Some (round s) |> <| valid_value := Some bid |>
                    <| locked_round := Some (round s) |> <| locked_value := Some bid |>) ;;
  enter_step StPrecommit ;;
  Engine_broadcast_vote Precommit (Some bid).

(** A precommit quorum for [bid] in round [r]: execute and commit. *)
Definition commit_block (r : Round) (bid : Hash32) : M (result unit ConsensusError) :=
  let! block := get_block bid in
  match block with
  | None => request_block bid ;; ret (Ok tt)
  | Some b =>
    let! e := get_eng in
    let! expected := proposer_key (height (state e)) r in
    match exec_verify (app_state e) b (derive_address (proposer_pk (header b))) expected with
    | None => ret (Err ExecutionFailed)
    | Some (new_state, receipts) =>
      let cert := {| cc_height := height (state e); cc_block_id := bid;
                     cc_precommits := Engine_collect_votes (state e) r Precommit (Some bid) |} in
      upd_state (λ s, s <| decided := Some cert |>) ;;
      enter_step StCommit ;;
      upd_eng (λ e, e <| app_state := new_state |> <| prev_block_id := bid |>) ;;
      let new_base := next_base_fee (base_fee_per_gas e) (bh_gas_used (header b))
                        (cfg_gas_target (cfg e)) in
      upd_eng (λ e, e <| base_fee_per_gas := new_base |>) ;;
      upd_metrics (λ m, m <| blocks_committed := fetch_add_1 (blocks_committed m) |>) ;;
      emit (OutCommit cert b new_state new_base receipts) ;;
      ret (Ok tt)
    end
  end.

(** Report evidence, if the vote gave any. *)
Definition handle_evidence (ev : option Evidence) : M unit :=
  match ev with
  | None => ret tt
  | Some ev =>
    upd_metrics (λ m, m <| double_sign_evidence := fetch_add_1 (double_sign_evidence m) |>) ;;
    apply_to_stakes ev ;;
    emit (OutBroadcast (MsgEvidence ev))
  end.

Definition Engine_on_vote (v : Vote) : M (result unit ConsensusError) :=
  let! e := get_eng in
  match decided (state e) with
  | Some _ => ret (Ok tt)
  | None =>
    match verify_vote e v with
    | Err er => ret (Err er)
    | Ok _ =>
      let '(s, ev) := record_vote_and_detect_evidence (state e) v in
      upd_state (λ _, s) ;;
      handle_evidence ev ;;
      upd_state (λ s, insert_vote s v) ;;
      let! e := get_eng in
      match v_vote_type v with
      | Prevote =>
        if bool_decide (step (state e) = StPrevote) then
          match quorum_for e v with
          | Some (Some bid) => lock_and_precommit bid ;; ret (Ok tt)
          | Some None => Engine_advance_round ;; ret (Ok tt)
          | None => ret (Ok tt)
          end
        else ret (Ok tt)
      | Precommit =>
        if bool_decide (step (state e) = StPrecommit) then
          match quorum_for e v with
          | Some (Some bid) => commit_block (v_round v) bid
          | Some None => Engine_advance_round ;; ret (Ok tt)
          | None => ret (Ok tt)
          end
        else ret (Ok tt)
      end
    end
  end.

Definition Engine_on_message (msg : ConsensusMsg) : M (result unit ConsensusError) :=
  match msg with
  | MsgProposal p =>
    upd_metrics (λ m, m <| proposals_received := fetch_add_1 (proposals_received m) |>) ;;
    Engine_on_proposal p
  | MsgVote v =>
    upd_metrics (λ m, m <| votes_received := fetch_add_1 (votes_received m) |>) ;;
    Engine_on_vote v
  | MsgEvidence ev =>
    upd_metrics (λ m, m <| double_sign_evidence := fetch_add_1 (double_sign_evidence m) |>) ;;
    apply_to_stakes ev ;;
    ret (Ok tt)
  end.

Definition Engine_on_block_received (block : Block) : M (result unit ConsensusError) :=
  put_block block ;;
  let! s := get_state in
  match proposal s with
  | Some prop =>
    if bool_decide (p_block_id prop = Block_id block) && bool_decide (proposal_block s = None) then
      upd_state (λ s, s <| proposal_block := Some block |>) ;;
      if bool_decide (step s = StPrevote) then
        let! s := get_state in
        Engine_broadcast_vote Prevote (prevote_choice s (p_block_id prop)) ;;
        ret (Ok tt)
      else ret (Ok tt)
    else ret (Ok tt)
  | None => ret (Ok tt)
  end.

Definition Engine_next_height : M unit :=
  upd_state (λ s, ConsensusState_new (add64 (height s) 1)) ;;
  reset_elapsed ;;
  upd_state (λ s, s <| step := StPropose |>) ;;
  Engine_maybe_propose (λ _, []).
End engine.
