(* ===== verification/EngineProofs.v ===== *)
(** * Correctness of the consensus engine ([src/src/consensus/engine.rs]).

    A weakest-precondition reading of the engine monad (a run that panics
    satisfies no postcondition), the invariant of an engine and its outbox, and
    the proof that every call keeps it; from it follow the soundness of commit
    certificates, the absence of double signing, and the validity of the
    evidence an engine reports. *)

From Stdlib Require Import ZArith Lia Bool.
From stdpp Require Import base gmap sets list strings sorting.
From S2P Require Import Prelude Types Messages ValidatorSet Quorum DoubleSign Slashing Evidence.
From S2P Require Import Execution Engine.

Local Open Scope Z_scope.

(** ** Weakest preconditions *)

Section wp.
Context {B St Rc : Type}.

Definition wp {A} (m : M B St Rc A) (Q : A → World B St Rc → Prop) (w : World B St Rc) : Prop :=
  match m w with Some (a, w') => Q a w' | None => False end.

Lemma wp_bind {A C} (m : M B St Rc A) (f : A → M B St Rc C) Q w :
  wp (bind m f) Q w ↔ wp m (λ a w', wp (f a) Q w') w.
Proof. unfold wp, bind. destruct (m w) as [[a w']|]; done. Qed.

Lemma wp_mono {A} (m : M B St Rc A) (Q Q' : A → World B St Rc → Prop) w :
  wp m Q w → (∀ a w', Q a w' → Q' a w') → wp m Q' w.
Proof. unfold wp. destruct (m w) as [[a w']|]; auto. Qed.

Lemma wp_run {A} (m : M B St Rc A) (Q : A → World B St Rc → Prop) w :
  wp m Q w → ∃ a w', m w = Some (a, w') ∧ Q a w'.
Proof. unfold wp. destruct (m w) as [[a w']|]; [eauto|done]. Qed.

(** The partial version: a run that panics satisfies every postcondition. *)
Definition wlp {A} (m : M B St Rc A) (Q : A → World B St Rc → Prop) (w : World B St Rc) : Prop :=
  match m w with Some (a, w') => Q a w' | None => True end.

Lemma wlp_bind {A C} (m : M B St Rc A) (f : A → M B St Rc C) Q w :
  wlp (bind m f) Q w ↔ wlp m (λ a w', wlp (f a) Q w') w.
Proof. unfold wlp, bind. destruct (m w) as [[a w']|]; done. Qed.

Lemma wlp_mono {A} (m : M B St Rc A) (Q Q' : A → World B St Rc → Prop) w :
  wlp m Q w → (∀ a w', Q a w' → Q' a w') → wlp m Q' w.
Proof. unfold wlp. destruct (m w) as [[a w']|]; auto. Qed.
End wp.

(** Evaluates the first primitive of a monadic program. *)
Ltac wp_step :=
  rewrite wp_bind; unfold get_eng, get_state, upd_state, upd_metrics, upd_eng, emit, put_block,
    get_block, ret, panic, wp at 1; cbn beta iota.

Ltac wlp_step :=
  rewrite wlp_bind; unfold get_eng, get_state, upd_state, upd_metrics, upd_eng, emit, put_block,
    get_block, ret, panic, wlp at 1; cbn beta iota.

(** Drops updates the invariant does not look at. *)
Ltac drop_frame lem_eng lem_store :=
  repeat first [apply lem_eng; [|reflexivity..] | apply lem_store].

(** ** Certificates *)

Section certs.
Context `{Crypto}.

(** A vote that was accepted: of a validator, with a valid signature. *)
Definition vote_valid (vs : ValidatorSet) (v : Vote) : Prop :=
  ValidatorSet_contains vs (v_voter v) = true ∧
  verify_sig (v_voter v) (Vote_sign_bytes v) (v_signature v) = true.

(** Distinct validators with a quorum of the power signed votes of one type for
    [bid], all at one height and round. *)
Record vote_quorum (vs : ValidatorSet) (vt : VoteType) (h : Height) (r : Round) (bid : Hash32)
    (l : list Vote) : Prop := {
  vq_distinct : NoDup (v_voter <$> l);
  vq_votes v : v ∈ l →
    vote_valid vs v ∧ v_vote_type v = vt ∧ v_height v = h ∧ v_round v = r ∧ v_block_id v = Some bid;
  vq_quorum : meets_quorum (power_of_keys vs (v_voter <$> l)) (vs_total_power vs) = true;
}.

(** What a certificate should prove: a quorum of precommits of one round. *)
Definition cert_sound (vs : ValidatorSet) (c : CommitCertificate) (r : Round) : Prop :=
  vote_quorum vs Precommit (cc_height c) r (cc_block_id c) (cc_precommits c).

Lemma power_default_nonneg vs k :
  vset_valid vs → 0 ≤ default 0 (ValidatorSet_power_of vs k).
Proof.
  intros Hvs. destruct (ValidatorSet_power_of vs k) as [p|] eqn:Hp; simpl; [|done].
  assert (0 < p ≤ U64_MAX) by (by apply (power_of_pos (valid := vset_valid) vs k)). lia.
Qed.

Lemma power_of_keys_cons (vs : ValidatorSet) k ks :
  power_of_keys vs (k :: ks) = default 0 (ValidatorSet_power_of vs k) + power_of_keys vs ks.
Proof. done. Qed.

Lemma verify_precommits_ok vs l acc :
  vset_valid vs → (∀ v, v ∈ l → vote_valid vs v) → 0 ≤ acc →
  acc + power_of_keys vs (v_voter <$> l) ≤ U64_MAX →
  verify_precommits vs l acc = Ok (acc + power_of_keys vs (v_voter <$> l)).
Proof.
  intros Hvs. revert acc. induction l as [|v l IH]; intros acc Hl Hacc Hfit; cbn [verify_precommits].
  { f_equal. unfold power_of_keys. simpl. lia. }
  destruct (Hl v) as [Hc Hs]; [left|]. rewrite Hc, Hs. cbn [negb].
  rewrite fmap_cons, power_of_keys_cons in Hfit |- *.
  assert (0 ≤ power_of_keys vs (v_voter <$> l)) as Hpos
    by (apply sumZ_nonneg; intros; by apply power_default_nonneg).
  pose proof (power_default_nonneg vs (v_voter v) Hvs) as Hv.
  rewrite sat_add64_exact by lia. rewrite IH; [|set_solver|lia|lia]. f_equal. lia.
Qed.

(** A sound certificate passes [CommitCertificate::verify]. *)
Lemma cert_sound_verifies vs c r :
  vset_valid vs → cert_sound vs c r → CommitCertificate_verify c vs = Ok tt.
Proof.
  intros Hvs [Hnd Hvotes Hq]. unfold CommitCertificate_verify.
  pose proof (power_of_keys_le vs _ Hvs Hnd) as Hle. pose proof (total_power_u64 vs Hvs) as Ht.
  rewrite verify_precommits_ok; [|done|intros v Hv; by apply Hvotes|done|simpl in *; lia].
  cbn [result_bind]. rewrite Z.add_0_l. apply Z.leb_le in Hq.
  destruct (Z.ltb_spec (power_of_keys vs (v_voter <$> cc_precommits c))
              (quorum_threshold (vs_total_power vs))); [lia|done].
Qed.
End certs.

(** ** Tallies and collected votes *)

Lemma bucket_power_add_votes (vs : ValidatorSet) l b :
  NoDup l.*1 → (∀ k, k ∈ l.*1 → is_Some (power_of vs k)) →
  bucket_power b (voters (add_votes vs VoteTally_default l)) =
  sumZ (λ e, if decide (e.2 = b) then default 0 (power_of vs e.1) else 0) l.
Proof.
  intros Hnd Hl. rewrite (add_votes_voters vs VoteTally_default l); [|done|intros k Hk; by split; [|apply Hl]].
  simpl. rewrite (right_id_L ∅ (∪)). unfold bucket_power, map_sum.
  rewrite map_to_list_to_map; [|by rewrite <-list_fmap_compose].
  rewrite sumZ_fmap. done.
Qed.

(** Selecting the votes for [b] out of a keyed list of votes. *)
Lemma select_power (vs : ValidatorSet) b (L : list (list Z * Vote)) :
  (∀ kv, kv ∈ L → v_voter kv.2 = kv.1) →
  sumZ (λ kv, if decide (v_block_id kv.2 = Some b) then default 0 (power_of vs kv.1) else 0) L =
  power_of_keys vs (v_voter <$> filter (λ v, matches_target (Some b) (v_block_id v)) (snd <$> L)).
Proof.
  induction L as [|kv L IH]; intros HL; [done|].
  rewrite sumZ_cons, fmap_cons, filter_cons, IH by set_solver.
  assert (matches_target (Some b) (v_block_id kv.2) = bool_decide (v_block_id kv.2 = Some b)) as Hm.
  { destruct (v_block_id kv.2) as [h|]; [|done]. simpl. repeat case_bool_decide; congruence. }
  rewrite Hm. destruct (decide (v_block_id kv.2 = Some b)) as [Hb|Hb].
  - rewrite decide_True by (by apply bool_decide_spec).
    rewrite fmap_cons, power_of_keys_cons, HL by left. done.
  - rewrite decide_False by (by rewrite bool_decide_spec). lia.
Qed.

Lemma select_NoDup (P : Vote → bool) (L : list (list Z * Vote)) :
  (∀ kv, kv ∈ L → v_voter kv.2 = kv.1) → NoDup L.*1 →
  NoDup (v_voter <$> filter (λ v, P v) (snd <$> L)).
Proof.
  intros HL Hnd. apply (sublist_NoDup _ (v_voter <$> (snd <$> L))).
  - rewrite <-list_fmap_compose. rewrite (list_fmap_ext _ fst); [done|].
    intros i kv Hi. apply HL. by eapply list_elem_of_lookup_2.
  - apply fmap_sublist, sublist_filter.
Qed.

Section tally.
Context {St : Type}.
Implicit Types e : Engine St.

(** The votes on record are under their own keys. *)
Definition votes_keyed (m : gmap PublicKeyBytes Vote) (vs : ValidatorSet) : Prop :=
  ∀ k v, m !! k = Some v → v_voter v = k ∧ ValidatorSet_contains vs k = true.

(** The power [tally] reports is that of the votes [collect_votes] collects. *)
Lemma tally_collect e r vt m b p :
  vset_valid (vset e) → round_votes (state e) r vt = Some m → votes_keyed m (vset e) →
  Engine_tally e r vt = Some (Some b, p) →
  let l := Engine_collect_votes (state e) r vt (Some b) in
  p = power_of_keys (vset e) (v_voter <$> l) ∧ NoDup (v_voter <$> l).
Proof.
  intros Hvs Hm Hk. unfold Engine_tally, Engine_collect_votes. rewrite Hm.
  assert (∀ l t, foldl (λ t kv, (VoteTally_add_vote t (vset e) kv.1 (v_block_id kv.2)).1) t l =
    add_votes (vset e) t ((λ kv : list Z * Vote, (kv.1, v_block_id kv.2)) <$> l)) as Hfold.
  { induction l as [|kv l IH]; intros t; simpl; [done|]. apply IH. }
  rewrite Hfold. set (l := _ <$> btree_iter m). set (t := add_votes _ _ l).
  assert (l.*1 = (btree_iter m).*1) as Hl1 by (unfold l; by rewrite <-list_fmap_compose).
  assert (NoDup l.*1) as Hnd by (rewrite Hl1; apply NoDup_fst_btree_iter).
  assert (∀ k v, (k, v) ∈ btree_iter m → v_voter v = k ∧ is_Some (power_of (vset e) k)) as Hin.
  { intros k v [Hvk Hc]%elem_of_btree_iter%Hk. unfold ValidatorSet_contains in Hc.
    by apply bool_decide_eq_true in Hc. }
  assert (tally_inv (vset e) t) as Hinv by (apply (add_votes_inv (valid := vset_valid)), tally_inv_empty; done).
  destruct ((VoteTally_best t).2) as [[b' p']|] eqn:Hbest; simpl; [|done]. intros [= -> ->].
  apply best_ok in Hbest as [Hb _]. simpl in Hb. pose proof (tally_power_for _ _ (Some b) Hinv) as Hp.
  unfold VoteTally_power_for in Hp. rewrite Hb in Hp. simpl in Hp. rewrite Hp.
  unfold t. rewrite bucket_power_add_votes; [|done|].
  2: { intros k. rewrite Hl1. intros ([k' v] & -> & Hkv)%list_elem_of_fmap. by apply Hin in Hkv as [_ ?]. }
  assert (∀ kv, kv ∈ btree_iter m → v_voter kv.2 = kv.1) as Hin'
    by (intros [k v] Hkv; by apply Hin in Hkv as [? _]).
  split; [|apply select_NoDup; [done|apply NoDup_fst_btree_iter]].
  unfold l. rewrite sumZ_fmap. by apply select_power.
Qed.
End tally.

(** ** The invariant *)

Section invariant.
Context `{Crypto, GuardCodecLaws, Signer} `{BlockStore B} `{Executor St Rc}.
Context (c : Config) (vs : ValidatorSet) (sc : SlashingConfig) (dep : Z) (gc : DoubleSignConfig).
Context (guarded : bool) (held : nat).

(** The key under which the guard knows a message this node broadcast. *)
Definition own_key (ev : OutEvent St Rc) : option SignedKey :=
  match ev with
  | OutBroadcast (MsgProposal p) => Some (SProposal (p_height p) (p_round p) (p_block_id p))
  | OutBroadcast (MsgVote v) =>
    Some (SVote (VoteType_as_u8 (v_vote_type v)) (v_height v) (v_round v) (v_block_id v))
  | _ => None
  end.

Definition own_keys (outs : list (OutEvent St Rc)) : list SignedKey := omap own_key outs.

(** The guard, which held [held] keys at the start, has the capacity for [n] more. *)
Definition fits (n : nat) : Prop := max_entries gc = 0 ∨ Z.of_nat (held + n) ≤ max_entries gc.

(** The guard, when there is one, has recorded all of [keys] and has seen no
    height above [h], as long as it did not have to evict keys. *)
Definition guard_inv (g : option DoubleSignGuard) (h : Height) (keys : list SignedKey) : Prop :=
  match g with
  | None => guarded = false
  | Some g => fits (length keys) →
    ∃ hist t, signing_inv gc (mkSigning g hist t) ∧ t ≤ h ∧ (∀ k, k ∈ keys → k ∈ hist) ∧
      (size (signed g) ≤ held + length keys)%nat
  end.

Record state_inv (s : ConsensusState) : Prop := {
  st_height : u64_ok (height s);
  st_round : 0 ≤ round s < max_rounds c;
  st_votes r vt m k v : round_votes s r vt = Some m → m !! k = Some v →
    v_voter v = k ∧ vote_valid vs v ∧ v_vote_type v = vt ∧ v_height v = height s ∧ v_round v = r;
  st_index key b v : vote_index s !! key = Some (b, v) →
    key = vote_key v ∧ b = v_block_id v ∧ vote_valid vs v;
  st_decided cert : decided s = Some cert →
    (∃ r, cert_sound vs cert r) ∧ cc_height cert = height s ∧ step s = StCommit;
}.

(** What may go out: valid evidence, sound certificates, own messages, and
    precommits only for a block with a quorum of prevotes. *)
Definition out_ok (ev : OutEvent St Rc) : Prop :=
  match ev with
  | OutBroadcast (MsgEvidence e) => Evidence_validate EvidenceConfig_default e = Ok tt
  | OutBroadcast (MsgProposal p) =>
    p_proposer p = public_key ∧ p_signature p = sign (Proposal_sign_bytes p)
  | OutBroadcast (MsgVote v) =>
    v_voter v = public_key ∧ v_signature v = sign (Vote_sign_bytes v) ∧
    (v_vote_type v = Precommit →
     ∃ bid l, v_block_id v = Some bid ∧ vote_quorum vs Prevote (v_height v) (v_round v) bid l)
  | OutRequestBlock _ => True
  | OutCommit cert _ _ _ _ => ∃ r, cert_sound vs cert r
  end.

Record world_inv (w : World B St Rc) : Prop := {
  wi_cfg : cfg (eng w) = c;
  wi_vset : vset (eng w) = vs;
  wi_state : state_inv (state (eng w));
  wi_stakes : ledger_inv sc (stakes (eng w)) dep;
  wi_guard : guard_inv (ds_guard (eng w)) (height (state (eng w))) (own_keys (outbox w));
  wi_out : Forall out_ok (outbox w);
}.

Context (Hvs : vset_valid vs) (Hfix : ∀ idx, strategy vs = Fixed idx → 0 ≤ idx) (Hrounds : 0 < max_rounds c ≤ U32_MAX).
Context (Hpb : 0 ≤ prune_below gc).

(** Updates outside the consensus state keep the invariant. *)
Lemma inv_eng w e :
  world_inv w → cfg e = cfg (eng w) → vset e = vset (eng w) → state e = state (eng w) →
  stakes e = stakes (eng w) → ds_guard e = ds_guard (eng w) → world_inv (w <| eng := e |>).
Proof. intros [] ? ? Hs ? Hg. split; simpl; rewrite ?Hs, ?Hg; congruence. Qed.

Lemma inv_store w b : world_inv w → world_inv (w <| store := b |>).
Proof. intros []. by split. Qed.

Lemma inv_upd_state w s :
  world_inv w → state_inv s → height s = height (state (eng w)) →
  world_inv (w <| eng := (eng w) <| state := s |> |>).
Proof. intros [] ? Hh. split; simpl; rewrite ?Hh; done. Qed.

Lemma own_keys_app l ev :
  own_keys (l ++ [ev]) = own_keys l ++ match own_key ev with Some k => [k] | None => [] end.
Proof. unfold own_keys. rewrite omap_app. simpl. by destruct (own_key ev). Qed.

Lemma inv_emit w ev :
  world_inv w → out_ok ev → own_key ev = None → world_inv (w <| outbox := outbox w ++ [ev] |>).
Proof.
  intros [] Hok Hkey. split; simpl; try done; [|by apply Forall_app; split; [|constructor]].
  by rewrite own_keys_app, Hkey, app_nil_r.
Qed.

(** ** Signing under the guard *)

Definition set_guard (w : World B St Rc) (g : option DoubleSignGuard) : World B St Rc :=
  w <| eng := (eng w) <| ds_guard := g |> |>.

Lemma set_guard_same w : set_guard w (ds_guard (eng w)) = w.
Proof. by destruct w as [[] ? ?]. Qed.

(** A check, and a record after it, under a guard with room for the key. *)
Lemma guard_sign g q hist t g1 g2 res res2 :
  signing_inv gc (mkSigning g hist t) → t ≤ SignedKey_height (request_key q) →
  u64_ok (SignedKey_height (request_key q)) →
  guard_check g q = (g1, res) → guard_record g1 q = (g2, res2) →
  let t' := SignedKey_height (request_key q) in
  (signing_inv gc (mkSigning g1 hist t') ∧ (size (signed g1) ≤ size (signed g))%nat) ∧
  (res = Ok tt → max_entries gc = 0 ∨ Z.of_nat (size (signed g)) < max_entries gc →
   signing_inv gc (mkSigning g2 (request_key q :: hist) t') ∧ (size (signed g2) ≤ S (size (signed g)))%nat).
Proof.
  intros Hsig Ht Hu Hcheck Hrec t'.
  assert (signing_inv gc (mkSigning g1 hist t') ∧ (size (signed g1) ≤ size (signed g))%nat) as [Hs1 Hsz].
  { pose proof Hcheck as Hcheck'. pose proof (note_height_inv gc _ t' Hsig) as Hn. simpl in Hn.
    rewrite Z.max_r in Hn by done.
    destruct (note_height_spec (inc_checks g) t') as (_ & _ & _ & Hsub & _).
    apply check_spec in Hcheck' as (g1' & -> & [(_ & -> & _)|(_ & -> & _)]); (split; [|by apply subseteq_size]).
    - exact Hn.
    - destruct Hn. by split. }
  split; [done|]. intros -> Hcap.
  assert (room g1) as Hroom.
  { pose proof (si_config _ _ Hs1) as Hc1. simpl in Hc1. unfold room. rewrite Hc1. destruct Hcap; [by left|right; lia]. }
  split.
  - assert (signing_step (mkSigning g hist t) (mkSigning g2 (request_key q :: hist) (Z.max t t'))) as Hstep.
    { eapply (sign_message (mkSigning g hist t) q g1 g2 res2); [done| |done|done|done].
      right. pose proof (si_config _ _ Hsig) as Hcg. simpl in *. rewrite Hcg. lia. }
    apply (signing_step_inv gc) in Hstep; [|done]. by rewrite Z.max_r in Hstep.
  - assert (record_key g1 (request_key q) = (g2, res2)) as Hrec' by (by destruct q).
    apply record_key_spec in Hrec' as (_ & -> & _); [|done].
    rewrite size_union_alt, size_singleton.
    pose proof (subseteq_size (signed g1 ∖ {[request_key q]}) (signed g1) ltac:(set_solver)). lia.
Qed.

(** The two guard calls around a signature: either the engine stops with the
    guard still in order, or it goes on with the key of the message recorded. *)
Lemma wp_guarded q (k : M B St Rc unit) Q w :
  world_inv w → SignedKey_height (request_key q) = height (state (eng w)) →
  (∀ g, world_inv (set_guard w g) → Q tt (set_guard w g)) →
  (∀ g, let w1 := set_guard w g in
     (∀ ev, own_key ev = Some (request_key q) → out_ok ev → world_inv (w1 <| outbox := outbox w ++ [ev] |>)) →
     wp k Q w1) →
  wp (bind (with_guard (λ g, guard_check g q)) (λ ok, if negb ok then ret tt else
      bind (with_guard (λ g, guard_record g q)) (λ ok, if negb ok then ret tt else k))) Q w.
Proof.
  intros Hinv Hh Hstop Hgo. unfold with_guard. rewrite !wp_bind. unfold wp at 1, get_eng.
  pose proof (wi_guard _ Hinv) as HG.
  destruct (ds_guard (eng w)) as [g|] eqn:Hg.
  2: { unfold wp at 1, ret. cbn [negb]. rewrite !wp_bind. unfold wp at 1. rewrite Hg.
       unfold wp at 1. cbn [negb]. specialize (Hgo None). rewrite <-Hg, set_guard_same in Hgo. apply Hgo.
       intros ev Hk Hok. destruct Hinv. split; simpl; try done; [by rewrite Hg|].
       by apply Forall_app; split; [|constructor]. }
  pose proof (st_height _ (wi_state _ Hinv)) as Hu.
  destruct (guard_check g q) as [g1 res] eqn:Hcheck. destruct (guard_record g1 q) as [g2 res2] eqn:Hrec.
  assert (res2 = Ok tt) as -> by (pose proof (record_key_ok g1 (request_key q)) as Hr; replace res2 with (guard_record g1 q).2 by (by rewrite Hrec); by destruct q).
  unfold bind, upd_eng, ret, wp at 1. cbn beta iota. cbn [is_ok].
  destruct res as [[]|er]; cbn [is_ok negb].
  - unfold wp, get_eng. simpl. rewrite Hrec. simpl. refine (Hgo (Some g2) _). intros ev Hk Hok.
    destruct Hinv. split; simpl; try done; [|by apply Forall_app; split; [|constructor]].
    rewrite own_keys_app, Hk. unfold guard_inv, fits in *. rewrite length_app. simpl. intros Hfit.
    destruct HG as (hist & t & Hs & Ht & Hks & Hsz); [destruct Hfit; [by left|right; lia]|].
    destruct (guard_sign g q hist t g1 g2 (Ok tt) (Ok tt)) as [_ [Hs2 Hsz2]]; [done|by rewrite Hh..|done|done|done| |].
    { destruct Hfit; [by left|right; lia]. }
    exists (request_key q :: hist), (height (state (eng w))). rewrite <-Hh at 1. split_and!; [done|lia| |lia].
    intros k'. rewrite elem_of_app, list_elem_of_singleton. intros [?| ->]; [right; by apply Hks|left].
  - apply Hstop. destruct Hinv. split; simpl; try done. intros Hfit.
    destruct HG as (hist & t & Hs & Ht & Hks & Hsz); [done|].
    destruct (guard_sign g q hist t g1 g2 (Err er) (Ok tt)) as [[Hs2 Hsz2] _]; [done|by rewrite Hh..|done|done|].
    exists hist, (height (state (eng w))). rewrite <-Hh at 1. split_and!; [done|lia|done|lia].
Qed.

(** ** The operations keep the invariant *)

Lemma broadcast_vote_inv vt bid w :
  world_inv w →
  (vt = Precommit → ∃ b l, bid = Some b ∧
     vote_quorum vs Prevote (height (state (eng w))) (round (state (eng w))) b l) →
  wp (Engine_broadcast_vote vt bid) (λ _ w', world_inv w' ∧ state (eng w') = state (eng w)) w.
Proof.
  intros Hinv Hpol. unfold Engine_broadcast_vote. wp_step. cbn zeta.
  apply (wp_guarded (ReqVote vt (height (state (eng w))) (round (state (eng w))) bid)); [done|done|done|].
  intros g w1 Hw1. wp_step. unfold wp, upd_metrics, upd_eng. split; [|done].
  drop_frame inv_eng inv_store. by apply (Hw1 (OutBroadcast (MsgVote _))).
Qed.

Lemma propose_block_inv drain w :
  world_inv w →
  wp (propose_block drain) (λ _ w', world_inv w' ∧ decided (state (eng w')) = decided (state (eng w))) w.
Proof.
  intros Hinv. unfold propose_block. wp_step. cbn zeta. wp_step.
  set (bid := Block_id _). set (w0 := w <| store := _ |>).
  assert (world_inv w0) as Hw0 by (by apply inv_store).
  apply (wp_guarded (ReqProposal (height (state (eng w))) (round (state (eng w))) bid)); [done|done|done|].
  intros g w1 Hw1. wp_step. wp_step. unfold wp, upd_metrics, upd_eng. split; [|done].
  drop_frame inv_eng inv_store.
  match goal with |- context [_ ++ [?ev]] => destruct (Hw1 ev) as []; [done|done|] end.
  split; simpl; try done. destruct (wi_state _ Hinv). by split.
Qed.

Lemma proposer_key_wp h r Q w :
  world_inv w → (∀ k, Q k w) → wp (proposer_key h r) Q w.
Proof.
  intros Hinv HQ. unfold proposer_key. wp_step.
  destruct (proposer_for_spec vs h r) as (v & Hv & _); [apply Hvs|done|].
  rewrite (wi_vset _ Hinv), Hv. apply HQ.
Qed.

Lemma maybe_propose_inv drain w :
  world_inv w →
  wp (Engine_maybe_propose drain)
    (λ _ w', world_inv w' ∧ decided (state (eng w')) = decided (state (eng w))) w.
Proof.
  intros Hinv. unfold Engine_maybe_propose. wp_step.
  destruct (proposal (state (eng w))); [done|]. rewrite wp_bind. unfold Engine_is_proposer. wp_step.
  rewrite wp_bind. apply proposer_key_wp; [done|]. intros k. unfold wp at 1, ret.
  destruct (bool_decide _); cbn [negb]; [by apply propose_block_inv|done].
Qed.

Lemma advance_round_inv w :
  world_inv w → decided (state (eng w)) = None →
  wp Engine_advance_round (λ _ w', world_inv w') w.
Proof.
  intros Hinv Hnd. unfold Engine_advance_round. wp_step. rewrite (wi_cfg _ Hinv).
  destruct (Z.leb_spec (max_rounds c) (wrap32 (round (state (eng w)) + 1))) as [|Hlt]; [done|].
  destruct (wi_state _ Hinv) as [Hh Hr Hv Hi Hd].
  rewrite wrap32_small in Hlt by mach.
  wp_step. unfold reset_elapsed. wp_step. wp_step.
  eapply wp_mono; [apply maybe_propose_inv|by intros ? ? [? _]].
  drop_frame inv_eng inv_store. apply (inv_upd_state w); [done| |done].
  unfold ConsensusState_advance_round.
  split; simpl; [done|unfold sat_add32; lia|done|done|]. by rewrite Hnd.
Qed.

Lemma reset_elapsed_inv w :
  world_inv w → wp reset_elapsed (λ _ w', world_inv w' ∧ state (eng w') = state (eng w)) w.
Proof. intros Hinv. unfold reset_elapsed, upd_eng, wp. split; [|done]. by drop_frame inv_eng inv_store. Qed.

(** Entering a step other than the final one of an undecided height. *)
Lemma state_inv_step s st : state_inv s → decided s = None → state_inv (s <| step := st |>).
Proof. intros [] Hnd. split; simpl; try done. by rewrite Hnd. Qed.

Lemma enter_step_inv st w :
  world_inv w → decided (state (eng w)) = None →
  wp (enter_step st) (λ _ w', world_inv w' ∧ state (eng w') = (state (eng w)) <| step := st |>) w.
Proof.
  intros Hinv Hnd. unfold enter_step. wp_step. unfold reset_elapsed, upd_eng, wp. split; [|done].
  drop_frame inv_eng inv_store. apply inv_upd_state; [done| |done]. by apply state_inv_step, Hnd; apply Hinv.
Qed.

Lemma tick_inv dt drain w :
  world_inv w → wp (Engine_tick dt drain) (λ _ w', world_inv w') w.
Proof.
  intros Hinv. unfold Engine_tick. wp_step. destruct (decided (state (eng w))) eqn:Hnd; [done|].
  wp_step. wp_step. set (w0 := w <| eng := _ |>).
  assert (world_inv w0) as Hw0 by (by drop_frame inv_eng inv_store).
  assert (decided (state (eng w0)) = None) as Hnd0 by done.
  destruct (step (state (eng w))).
  - rewrite wp_bind. apply (wp_mono _ (λ _ w', world_inv w' ∧ decided (state (eng w')) = None)).
    { destruct (_ && _); [|done]. eapply wp_mono; [by apply maybe_propose_inv|].
      intros _ w1 [? Hd]. by rewrite Hd. }
    intros _ w1 [Hw1 Hnd1]. wp_step. destruct (_ || _); [|done].
    wp_step. rewrite wp_bind. eapply wp_mono; [apply reset_elapsed_inv|].
    + apply inv_upd_state; [done| |done]. apply state_inv_step; [apply Hw1|done].
    + intros _ w2 [Hw2 _]. eapply wp_mono; [by apply broadcast_vote_inv|]. by intros _ w3 [? _].
  - destruct (_ <=? _); [|done]. by apply advance_round_inv.
  - destruct (_ <=? _); [|done]. by apply advance_round_inv.
  - done.
Qed.

Lemma verify_proposal_wp p Q w :
  world_inv w → (∀ r, Q r w) → wp (Engine_verify_proposal p) Q w.
Proof.
  intros Hinv HQ. unfold Engine_verify_proposal. wp_step.
  destruct (ValidatorSet_contains _ _); cbn [negb]; [|apply HQ].
  rewrite wp_bind. apply proposer_key_wp; [done|]. intros k. apply HQ.
Qed.

(** Setting the proposal fields. *)
Lemma inv_proposal w p b :
  world_inv w →
  world_inv (w <| eng := (eng w) <| state :=
    (state (eng w)) <| proposal := p |> <| proposal_block := b |> |> |>).
Proof. intros Hinv. apply inv_upd_state; [done| |done]. destruct (wi_state _ Hinv). by split. Qed.

Lemma on_proposal_inv p w :
  world_inv w → wp (Engine_on_proposal p) (λ _ w', world_inv w') w.
Proof.
  intros Hinv. unfold Engine_on_proposal. wp_step. destruct (decided (state (eng w))) eqn:Hnd; [done|].
  rewrite wp_bind. apply verify_proposal_wp; [done|]. intros [[]|er]; [|done].
  rewrite wp_bind. apply (wp_mono _ (λ _ w', world_inv w' ∧ decided (state (eng w')) = None)).
  { destruct (p_block p); unfold put_block, ret, wp; [|done]. split; [by apply inv_store|done]. }
  intros _ w1 [Hw1 Hnd1]. wp_step. destruct (store_get _ _) as [b|].
  - wp_step. destruct (exec_verify _ _ _ _) as [st|].
    + wp_step. rewrite wp_bind. eapply wp_mono; [apply enter_step_inv; [by apply inv_proposal|done]|].
      intros _ w2 [Hw2 _]. wp_step. rewrite wp_bind.
      eapply wp_mono; [by apply broadcast_vote_inv|]. by intros _ w3 [? _].
    + rewrite wp_bind. eapply wp_mono; [by apply enter_step_inv|]. intros _ w2 [Hw2 _]. rewrite wp_bind.
      eapply wp_mono; [by apply broadcast_vote_inv|]. by intros _ w3 [? _].
  - rewrite wp_bind. unfold request_block. wp_step. unfold wp at 1, upd_metrics, upd_eng.
    rewrite wp_bind. eapply wp_mono; [apply enter_step_inv; [|done]|].
    { drop_frame inv_eng inv_store. by apply inv_emit. }
    intros _ w2 [Hw2 _]. rewrite wp_bind. eapply wp_mono; [by apply broadcast_vote_inv|].
    intros _ w3 [Hw3 _]. wp_step. by apply inv_proposal.
Qed.

(** ** Votes *)

Lemma verify_vote_ok (e : Engine St) v :
  vset e = vs → verify_vote e v = Ok tt →
  vote_valid vs v ∧ v_height v = height (state e) ∧ v_round v = round (state e).
Proof.
  intros <-. unfold verify_vote, vote_valid. destruct (ValidatorSet_contains _ _); cbn [negb]; [|done].
  destruct (Z.eqb_spec (v_height v) (height (state e))); cbn [negb orb]; [|done].
  destruct (Z.eqb_spec (v_round v) (round (state e))); cbn [negb]; [|done].
  by destruct (verify_sig _ _ _).
Qed.

(** Evidence built from two accepted votes passes validation. *)
Lemma detected_evidence_valid v prev :
  vote_valid vs v → vote_valid vs prev → vote_key prev = vote_key v → v_block_id prev ≠ v_block_id v →
  Evidence_validate EvidenceConfig_default
    (DoubleVote (v_voter v) (v_height v) (v_round v) (v_vote_type v) (v_block_id prev) (v_block_id v)
       prev v) = Ok tt.
Proof.
  intros [_ Hs] [_ Hsp] Hkey Hne. injection Hkey as Hk Hh Hr Ht.
  unfold Evidence_validate, validate_double_vote, neqb. rewrite Hk, Hh, Hr, Ht.
  rewrite !(bool_decide_eq_true_2 (_ = _)) by done. cbn [negb orb].
  rewrite !bool_decide_eq_false_2 by congruence.
  cbn [negb orb andb allow_nil_equivocation EvidenceConfig_default verify_signatures].
  unfold Vote_sign_bytes in *. rewrite Hk, Hh, Hr, Ht in Hsp. by rewrite Hs, Hsp.
Qed.

Lemma record_vote_inv s v s' ev :
  state_inv s → vote_valid vs v → record_vote_and_detect_evidence s v = (s', ev) →
  state_inv s' ∧ height s' = height s ∧ round s' = round s ∧ decided s' = decided s ∧ step s' = step s ∧
  match ev with Some e => Evidence_validate EvidenceConfig_default e = Ok tt | None => True end.
Proof.
  intros Hs Hv. unfold record_vote_and_detect_evidence.
  destruct (vote_index s !! vote_key v) as [[b prev]|] eqn:Hi.
  - apply (st_index _ Hs) in Hi as (Hkey & -> & Hprev).
    case_bool_decide as Hb; cbn [negb]; intros [= <- <-]; [done|]. split_and!; [done..|].
    by apply detected_evidence_valid.
  - intros [= <- <-]. destruct Hs as [? ? ? Hidx ?]. split_and!; [split|..]; try done.
    simpl. intros key b w [[<- [= <- <-]]|[_ ?]]%lookup_insert_Some; [done|by apply Hidx].
Qed.

Lemma round_votes_insert s v r vt :
  round_votes (insert_vote s v) r vt =
  if decide (r = v_round v ∧ vt = v_vote_type v)
  then Some (<[v_voter v := v]> (default ∅ (round_votes s r vt))) else round_votes s r vt.
Proof.
  unfold round_votes, insert_vote. simpl. destruct (decide (r = v_round v)) as [->|Hr].
  - rewrite lookup_insert_eq. destruct (decide (vt = v_vote_type v)) as [->|Ht].
    + rewrite decide_True by done. rewrite lookup_insert_eq. by destruct (votes s !! v_round v).
    + rewrite decide_False by naive_solver. rewrite lookup_insert_ne by done.
      destruct (votes s !! v_round v); simpl; [done|apply lookup_empty].
  - rewrite decide_False by naive_solver. by rewrite lookup_insert_ne.
Qed.

Lemma insert_vote_inv s v :
  state_inv s → vote_valid vs v → v_height v = height s → state_inv (insert_vote s v).
Proof.
  intros [Hh Hr Hv Hi Hd] Hok Hvh. split; try done. intros r vt m k x. rewrite round_votes_insert.
  destruct (decide (r = v_round v ∧ vt = v_vote_type v)) as [[-> ->]|_]; [|apply Hv].
  intros [= <-] [[<- <-]|[_ Hx]]%lookup_insert_Some; [done|].
  destruct (round_votes s (v_round v) (v_vote_type v)) as [m|] eqn:Hm; simpl in Hx; [|set_solver].
  by apply (Hv _ _ m).
Qed.

Lemma apply_to_stakes_inv ev w :
  world_inv w → wp (apply_to_stakes ev) (λ _ w', world_inv w' ∧ state (eng w') = state (eng w)) w.
Proof.
  intros Hinv. unfold apply_to_stakes. wp_step.
  destruct (apply_evidence_total sc (stakes (eng w)) dep (mkSlashingMetrics 0 0 0 0 0 0 0 0 0) ev)
    as (l & m & r & Heq & Hl); [apply Hinv|].
  rewrite Heq. unfold upd_eng, wp. split; [|done]. destruct Hinv. by split.
Qed.

Lemma handle_evidence_inv ev w :
  world_inv w →
  match ev with Some e => Evidence_validate EvidenceConfig_default e = Ok tt | None => True end →
  wp (handle_evidence ev) (λ _ w', world_inv w' ∧ state (eng w') = state (eng w)) w.
Proof.
  intros Hinv Hev. unfold handle_evidence. destruct ev as [e|]; [|done].
  wp_step. rewrite wp_bind. eapply wp_mono; [apply apply_to_stakes_inv; by drop_frame inv_eng inv_store|].
  intros _ w1 [Hw1 Hs1]. unfold emit, wp. split; [by apply inv_emit|done].
Qed.

(** The votes behind a quorum the engine sees. *)
Lemma quorum_for_votes (e : Engine St) v bid :
  vset e = vs → state_inv (state e) → quorum_for e v = Some (Some bid) →
  vote_quorum vs (v_vote_type v) (height (state e)) (v_round v) bid
    (Engine_collect_votes (state e) (v_round v) (v_vote_type v) (Some bid)).
Proof.
  intros Hvset Hs. unfold quorum_for. set (vt := v_vote_type v).
  destruct (Engine_tally e (v_round v) vt) as [[bo p]|] eqn:Ht; [|done].
  destruct (Z.leb_spec (quorum_threshold (vs_total_power (vset e))) p) as [Hq|]; [|done]. intros [= ->].
  destruct (round_votes (state e) (v_round v) vt) as [m|] eqn:Hm;
    [|unfold Engine_tally in Ht; by rewrite Hm in Ht].
  assert (∀ k x, m !! k = Some x → v_voter x = k ∧ vote_valid vs x ∧ v_vote_type x = vt ∧
    v_height x = height (state e) ∧ v_round x = v_round v) as Hmv by (intros k x; by apply (st_votes _ Hs)).
  destruct (tally_collect e (v_round v) vt m bid p) as [-> Hnd]; [by rewrite Hvset|done| |done|].
  { intros k x Hx. destruct (Hmv k x Hx) as (<- & [Hc _] & _). by rewrite Hvset. }
  rewrite Hvset in Hq. split; [done| |by apply Z.leb_le].
  intros x. unfold Engine_collect_votes. rewrite Hm.
  intros [Hx ([k y] & -> & Hy%elem_of_btree_iter)%list_elem_of_fmap]%list_elem_of_filter.
  destruct (Hmv k y Hy) as (_ & Hval & Ht' & Hh & Hr). simpl in *. split_and!; [done..|].
  unfold matches_target in Hx. destruct (v_block_id y); [|done]. by apply bool_decide_unpack in Hx as <-.
Qed.

Lemma commit_block_inv v bid w :
  world_inv w → decided (state (eng w)) = None → v_vote_type v = Precommit →
  quorum_for (eng w) v = Some (Some bid) →
  wp (commit_block (v_round v) bid) (λ _ w', world_inv w') w.
Proof.
  intros Hinv Hnd Hty Hq.
  pose proof (quorum_for_votes (eng w) v bid (wi_vset _ Hinv) (wi_state _ Hinv) Hq) as Hcert.
  rewrite Hty in Hcert.
  unfold commit_block. wp_step. destruct (store_get _ _) as [b|].
  2: { rewrite wp_bind. unfold request_block. wp_step. unfold wp, upd_metrics, upd_eng.
       drop_frame inv_eng inv_store. by apply inv_emit. }
  wp_step. rewrite wp_bind. apply proposer_key_wp; [done|]. intros k.
  destruct (exec_verify _ _ _ _) as [[st rc]|]; [|done].
  cbn zeta. set (cert := {| cc_height := _ |}) in *. wp_step. unfold enter_step.
  rewrite wp_bind. wp_step. unfold reset_elapsed, upd_eng, wp at 1.
  do 4 wp_step. unfold ret, wp. apply inv_emit; [|by exists (v_round v)|done].
  drop_frame inv_eng inv_store.
  refine (inv_upd_state w ((state (eng w)) <| decided := Some cert |> <| step := StCommit |>) Hinv _ _);
    [|done].
  destruct (wi_state _ Hinv) as [? ? ? ? _]. split; simpl; try done.
  intros cert' [= <-]. split_and!; [by exists (v_round v)|done..].
Qed.

Lemma lock_and_precommit_inv bid l w :
  world_inv w → decided (state (eng w)) = None →
  vote_quorum vs Prevote (height (state (eng w))) (round (state (eng w))) bid l →
  wp (lock_and_precommit bid) (λ _ w', world_inv w') w.
Proof.
  intros Hinv Hnd Hpol. unfold lock_and_precommit. wp_step. rewrite wp_bind.
  eapply wp_mono; [apply enter_step_inv; [|done]|].
  - apply inv_upd_state; [done| |done]. destruct (wi_state _ Hinv). by split.
  - intros _ w1 [Hw1 Hs1]. eapply wp_mono; [apply broadcast_vote_inv; [done|]|by intros _ w2 [? _]].
    intros _. exists bid, l. by rewrite Hs1.
Qed.

Lemma on_vote_inv v w :
  world_inv w → wp (Engine_on_vote v) (λ _ w', world_inv w') w.
Proof.
  intros Hinv. unfold Engine_on_vote. wp_step. destruct (decided (state (eng w))) eqn:Hnd; [done|].
  destruct (verify_vote (eng w) v) as [[]|er] eqn:Hver; [|done].
  apply verify_vote_ok in Hver as (Hv & Hvh & Hvr); [|apply Hinv].
  destruct (record_vote_and_detect_evidence (state (eng w)) v) as [s ev] eqn:Hrec.
  apply record_vote_inv in Hrec as (Hs & Hh & Hrd & Hd & _ & Hev); [|apply Hinv|done].
  wp_step. rewrite wp_bind.
  eapply wp_mono; [apply handle_evidence_inv; [by apply inv_upd_state|done]|].
  intros _ w1 [Hw1 Hs1]. simpl in Hs1. wp_step. wp_step. set (w2 := w1 <| eng := _ |>).
  assert (world_inv w2) as Hw2.
  { apply inv_upd_state; [done| |done]. apply insert_vote_inv; [apply Hw1|done|]. by rewrite Hs1, Hh. }
  assert (v_round v = round (state (eng w2))) as Hr2 by (simpl; by rewrite Hs1, Hrd).
  assert (decided (state (eng w2)) = None) as Hnd2 by (simpl; by rewrite Hs1, Hd).
  destruct (v_vote_type v) eqn:Hty; case_bool_decide; try done.
  - destruct (quorum_for (eng w2) v) as [[bid|]|] eqn:Hq; [| |done]; rewrite wp_bind.
    + apply quorum_for_votes in Hq; [|apply Hw2..]. rewrite Hty, Hr2 in Hq.
      eapply wp_mono; [by eapply lock_and_precommit_inv|done].
    + eapply wp_mono; [by apply advance_round_inv|done].
  - destruct (quorum_for (eng w2) v) as [[bid|]|] eqn:Hq; [by apply commit_block_inv| |done].
    rewrite wp_bind. eapply wp_mono; [by apply advance_round_inv|done].
Qed.

Lemma on_message_inv msg w :
  world_inv w → wp (Engine_on_message msg) (λ _ w', world_inv w') w.
Proof.
  intros Hinv. destruct msg as [p|v|ev]; unfold Engine_on_message; wp_step.
  - apply on_proposal_inv. by drop_frame inv_eng inv_store.
  - apply on_vote_inv. by drop_frame inv_eng inv_store.
  - rewrite wp_bind. eapply wp_mono; [apply apply_to_stakes_inv; by drop_frame inv_eng inv_store|].
    by intros _ w1 [? _].
Qed.

Lemma on_block_received_inv b w :
  world_inv w → wp (Engine_on_block_received b) (λ _ w', world_inv w') w.
Proof.
  intros Hinv. unfold Engine_on_block_received. wp_step. wp_step.
  set (w0 := w <| store := _ |>). assert (world_inv w0) as Hw0 by (by apply inv_store).
  destruct (proposal (state (eng w0))) as [p|]; [|done]. destruct (_ && _); [|done].
  wp_step. set (w1 := w0 <| eng := _ |>).
  assert (world_inv w1) as Hw1.
  { apply inv_upd_state; [done| |done]. destruct (wi_state _ Hw0). by split. }
  case_bool_decide; [|done]. wp_step. rewrite wp_bind.
  eapply wp_mono; [by apply broadcast_vote_inv|]. by intros _ w2 [? _].
Qed.

Lemma next_height_inv w :
  world_inv w → height (state (eng w)) < U64_MAX →
  wp Engine_next_height (λ _ w', world_inv w') w.
Proof.
  intros Hinv Hlt. unfold Engine_next_height, reset_elapsed. do 3 wp_step.
  eapply wp_mono; [apply maybe_propose_inv|by intros ? ? [? _]].
  pose proof (st_height _ (wi_state _ Hinv)) as [Hh0 _].
  assert (add64 (height (state (eng w))) 1 = height (state (eng w)) + 1) as Hadd
    by (apply wrap64_small; mach).
  destruct Hinv as [? ? ? ? Hg ?]. split; simpl; try done.
  - split; simpl; try done; [rewrite Hadd; mach|lia].
  - destruct (ds_guard (eng w)) as [g|]; [|done]. intros Hfit.
    destruct (Hg Hfit) as (hist & t & Hs & Ht & Hk & Hsz). exists hist, t. split_and!; [done|lia|done|done].
Qed.
End invariant.
