(* ===== verification/EngineRun.v ===== *)
(** * Runs of consensus nodes ([src/src/consensus/engine.rs]).

    A node is an engine from [Engine::new] on which its host makes any sequence
    of calls: ticks, peer messages, fetched blocks, and the move to the next
    height. The theorems speak of everything such a node can ever put in its
    outbox, with peers that send arbitrary messages. The end of the file has the
    behaviours the engine does not guard against, and a concrete network of four
    validators on which the theorems are applied. *)

From Stdlib Require Import ZArith Lia Bool.
From stdpp Require Import base gmap sets list strings sorting.
From S2P Require Import Prelude Types Messages ValidatorSet Quorum DoubleSign Slashing Evidence.
From S2P Require Import Execution Engine EngineProofs.

Local Open Scope Z_scope.

(** ** Runs *)

Inductive engine_call :=
| CallTick (dt_ms : Z) (mempool_drain : Z → list RawTx)
| CallMessage (msg : ConsensusMsg)
| CallBlock (b : Block)
| CallNextHeight.

Section run.
Context `{Crypto, GuardCodec, Signer} `{BlockStore B} `{Executor St Rc}.
Local Open Scope engine_scope.

Definition run_call (x : engine_call) : M B St Rc unit :=
  match x with
  | CallTick dt drain => Engine_tick dt drain
  | CallMessage msg => Engine_on_message msg ;; ret tt
  | CallBlock b => Engine_on_block_received b ;; ret tt
  | CallNextHeight => Engine_next_height
  end.

(** [Engine::next_height] may be called as long as the height has room. *)
Definition call_allowed (x : engine_call) (w : World B St Rc) : Prop :=
  match x with CallNextHeight => height (state (eng w)) < U64_MAX | _ => True end.

Inductive engine_run (e : Engine St) (b : B) : World B St Rc → Prop :=
| engine_started : engine_run e b (mkWorld e b [])
| engine_called w x w' :
    engine_run e b w → call_allowed x w → run_call x w = Some (tt, w') → engine_run e b w'.

Fixpoint run_calls (l : list engine_call) : M B St Rc unit :=
  match l with
  | [] => ret tt
  | x :: l' => run_call x ;; run_calls l'
  end.

Lemma run_calls_run e b l w w' :
  Forall (λ x, x ≠ CallNextHeight) l → engine_run e b w → run_calls l w = Some (tt, w') →
  engine_run e b w'.
Proof.
  intros Hl. revert w. induction Hl as [|x l Hx Hl IH]; intros w Hw; [by intros [= <-]|].
  simpl. unfold bind. destruct (run_call x w) as [[[] w1]|] eqn:Hc; [|done].
  apply IH. eapply engine_called; [done| |done]. by destruct x.
Qed.
End run.

(** What a node is started with: a valid validator set, a slashing ledger and a
    guard in use since a fresh device, at a height the guard has not passed. *)
Record node_ok `{Crypto, GuardCodec} (c : Config) (vs : ValidatorSet) (h : Height)
    (stk : StakeLedger) (guard : option DoubleSignGuard)
    (sc : SlashingConfig) (dep : Z) (gc : DoubleSignConfig) : Prop := {
  no_vset : vset_valid vs;
  no_fixed idx : strategy vs = Fixed idx → 0 ≤ idx;
  no_rounds : 0 ≤ max_rounds c ≤ U32_MAX;
  no_height : u64_ok h;
  no_stakes : ledger_run sc stk dep;
  no_guard g : guard = Some g → ∃ hist t, signing_run gc (mkSigning g hist t) ∧ t ≤ h;
  no_prune : 0 ≤ prune_below gc;
}.

(** The keys a guard holds. *)
Definition keys_held `{GuardCodec} (guard : option DoubleSignGuard) : nat :=
  match guard with Some g => size (signed g) | None => 0%nat end.

Section nodes.
Context `{Crypto, GuardCodecLaws, Signer} `{BlockStore B} `{Executor St Rc}.
Context (c : Config) (vs : ValidatorSet) (h : Height) (prev : Hash32) (app : St)
  (stk : StakeLedger) (guard : option DoubleSignGuard) (sc : SlashingConfig) (dep : Z)
  (gc : DoubleSignConfig) (e : Engine St) (b : B).
Implicit Types w : World B St Rc.

Lemma engine_new_ok :
  Engine_new c vs h prev app stk guard = Ok e →
  max_rounds c ≠ 0 ∧ cfg e = c ∧ vset e = vs ∧ state e = ConsensusState_new h ∧ stakes e = stk ∧
  ds_guard e = guard.
Proof.
  unfold Engine_new, Config_validate.
  repeat (match goal with |- context [?x =? 0] => destruct (Z.eqb_spec x 0) end; [done|]).
  by intros [= <-].
Qed.

Lemma start_inv :
  node_ok c vs h stk guard sc dep gc → Engine_new c vs h prev app stk guard = Ok e →
  world_inv c vs sc dep gc (bool_decide (is_Some guard)) (keys_held guard) (mkWorld (Rc := Rc) e b []).
Proof.
  intros [] (Hm & ? & ? & Hs & ? & Hg)%engine_new_ok. split; simpl; try done.
  - rewrite Hs. split; simpl; try done. lia.
  - subst stk. by apply ledger_run_inv.
  - rewrite Hg, Hs. destruct guard as [g|]; [|done].
    destruct (no_guard0 g) as (hist & t & Hr & Ht); [done|]. intros _. exists hist, t.
    split_and!; [by apply signing_run_inv|done|set_solver|simpl; lia].
Qed.

Lemma run_call_inv guarded x w :
  node_ok c vs h stk guard sc dep gc → max_rounds c ≠ 0 →
  world_inv c vs sc dep gc guarded (keys_held guard) w → call_allowed x w →
  wp (run_call x) (λ _ w', world_inv c vs sc dep gc guarded (keys_held guard) w') w.
Proof.
  intros [] Hm Hw Hx. assert (0 < max_rounds c ≤ U32_MAX) by lia.
  destruct x as [dt drain|msg|blk|]; simpl.
  - by apply tick_inv.
  - rewrite wp_bind. eapply wp_mono; [by apply on_message_inv|done].
  - rewrite wp_bind. eapply wp_mono; [by apply on_block_received_inv|done].
  - by apply next_height_inv.
Qed.

Lemma engine_run_inv w :
  node_ok c vs h stk guard sc dep gc → Engine_new c vs h prev app stk guard = Ok e →
  engine_run e b w → world_inv c vs sc dep gc (bool_decide (is_Some guard)) (keys_held guard) w.
Proof.
  intros Hok Hnew. induction 1 as [|w x w' _ IH Hx Hc]; [by apply start_inv|].
  apply engine_new_ok in Hnew as [Hm _].
  pose proof (run_call_inv _ x w Hok Hm IH Hx) as Hwp. unfold wp in Hwp. by rewrite Hc in Hwp.
Qed.

(** C4: No call panics, whatever peers send: a node that has made any sequence of
    calls can make any further call (the move to the next height as long as the
    height fits), and its round stays below [max_rounds]. *)
Theorem engine_never_panics w x :
  node_ok c vs h stk guard sc dep gc → Engine_new c vs h prev app stk guard = Ok e →
  engine_run e b w → call_allowed x w →
  (∃ w', run_call x w = Some (tt, w')) ∧ 0 ≤ round (state (eng w)) < max_rounds c.
Proof.
  intros Hok Hnew Hrun Hx. pose proof (engine_run_inv w Hok Hnew Hrun) as Hinv.
  apply engine_new_ok in Hnew as [Hm _]. split; [|apply (wi_state _ _ _ _ _ _ _ _ Hinv)].
  destruct (wp_run _ _ _ (run_call_inv _ x w Hok Hm Hinv Hx)) as ([] & w' & Hc & _). by exists w'.
Qed.

(** C2: Every block a node commits is justified: its certificate holds precommits
    of one round and the certificate's height for exactly that block, by distinct
    validators with valid signatures and together a quorum of the power; and the
    certificate passes [CommitCertificate::verify]. *)
Theorem committed_certificates_sound w cert blk st fee rcs :
  node_ok c vs h stk guard sc dep gc → Engine_new c vs h prev app stk guard = Ok e →
  engine_run e b w → OutCommit cert blk st fee rcs ∈ outbox w →
  (∃ r, vote_quorum vs Precommit (cc_height cert) r (cc_block_id cert) (cc_precommits cert)) ∧
  CommitCertificate_verify cert vs = Ok tt.
Proof.
  intros Hok Hnew Hrun Hin. pose proof (engine_run_inv w Hok Hnew Hrun) as Hinv.
  apply wi_out in Hinv. rewrite Forall_forall in Hinv. apply Hinv in Hin as [r Hr].
  split; [by exists r|]. eapply cert_sound_verifies; [apply Hok|done].
Qed.

(** C6: A node broadcasts a precommit only for a block for which it has seen a
    quorum of valid prevotes of the same height and round. *)
Theorem precommits_justified w v :
  node_ok c vs h stk guard sc dep gc → Engine_new c vs h prev app stk guard = Ok e →
  engine_run e b w → OutBroadcast (MsgVote v) ∈ outbox w → v_vote_type v = Precommit →
  ∃ bid l, v_block_id v = Some bid ∧ vote_quorum vs Prevote (v_height v) (v_round v) bid l.
Proof.
  intros Hok Hnew Hrun Hin Hty. pose proof (engine_run_inv w Hok Hnew Hrun) as Hinv.
  apply wi_out in Hinv. rewrite Forall_forall in Hinv. apply Hinv in Hin as (_ & _ & Hpol). by apply Hpol.
Qed.

(** C8: All evidence a node broadcasts passes [Evidence::validate]: a node accuses
    a validator only with two votes that validator really signed. *)
Theorem broadcast_evidence_valid w ev :
  node_ok c vs h stk guard sc dep gc → Engine_new c vs h prev app stk guard = Ok e →
  engine_run e b w → OutBroadcast (MsgEvidence ev) ∈ outbox w →
  Evidence_validate EvidenceConfig_default ev = Ok tt.
Proof.
  intros Hok Hnew Hrun Hin. pose proof (engine_run_inv w Hok Hnew Hrun) as Hinv.
  apply wi_out in Hinv. rewrite Forall_forall in Hinv. by apply Hinv in Hin.
Qed.

(** C3: A node whose double-sign guard has the capacity for the keys it held at
    the start and those of the messages broadcast since (or has no limit) never
    equivocates: it broadcasts at most one block per vote type, height and round,
    and at most one proposal per height and round. *)
Theorem node_never_equivocates w :
  node_ok c vs h stk guard sc dep gc → Engine_new c vs h prev app stk guard = Ok e →
  is_Some guard → engine_run e b w → fits gc (keys_held guard) (length (own_keys (outbox w))) →
  (∀ v v', OutBroadcast (MsgVote v) ∈ outbox w → OutBroadcast (MsgVote v') ∈ outbox w →
     v_vote_type v = v_vote_type v' → v_height v = v_height v' → v_round v = v_round v' →
     v_block_id v = v_block_id v') ∧
  (∀ p p', OutBroadcast (MsgProposal p) ∈ outbox w → OutBroadcast (MsgProposal p') ∈ outbox w →
     p_height p = p_height p' → p_round p = p_round p' → p_block_id p = p_block_id p').
Proof.
  intros Hok Hnew Hg Hrun Hfit. pose proof (engine_run_inv w Hok Hnew Hrun) as Hinv.
  apply wi_guard in Hinv. rewrite bool_decide_eq_true_2 in Hinv by done.
  destruct (ds_guard (eng w)) as [g|]; [|done]. destruct (Hinv Hfit) as (hist & t & Hs & _ & Hk & _).
  assert (∀ ev ev' k k', ev ∈ outbox w → ev' ∈ outbox w → own_key ev = Some k → own_key ev' = Some k' →
    ¬ equivocation k k') as Hne.
  { intros ev ev' k k' Hev Hev' Ho Ho'. apply (si_safe _ _ Hs); apply Hk, list_elem_of_omap; eauto. }
  split.
  - intros v v' Hv Hv' Ht Hh Hr. destruct (decide (v_block_id v = v_block_id v')) as [|Hb]; [done|].
    exfalso. apply (Hne _ _ _ _ Hv Hv' eq_refl eq_refl). simpl. by rewrite Ht.
  - intros p p' Hp Hp' Hh Hr. destruct (decide (p_block_id p = p_block_id p')) as [|Hb]; [done|].
    exfalso. by apply (Hne _ _ _ _ Hp Hp' eq_refl eq_refl).
Qed.

(** C5: A decision is final: until the host moves to the next height, no call
    changes the certificate, the height, the application state, the parent block
    or the base fee of a node that has decided, and nothing more goes out. *)
Theorem decision_final w x w' cert :
  node_ok c vs h stk guard sc dep gc → Engine_new c vs h prev app stk guard = Ok e →
  engine_run e b w → decided (state (eng w)) = Some cert → x ≠ CallNextHeight →
  run_call x w = Some (tt, w') →
  decided (state (eng w')) = Some cert ∧ height (state (eng w')) = height (state (eng w)) ∧
  app_state (eng w') = app_state (eng w) ∧ prev_block_id (eng w') = prev_block_id (eng w) ∧
  base_fee_per_gas (eng w') = base_fee_per_gas (eng w) ∧ outbox w' = outbox w.
Proof.
  intros Hok Hnew Hrun Hd Hx. pose proof (engine_run_inv w Hok Hnew Hrun) as Hinv.
  destruct (st_decided _ _ _ (wi_state _ _ _ _ _ _ _ _ Hinv) cert Hd) as (_ & _ & Hst).
  destruct x as [dt drain|[p|v|ev]|blk|]; [| | | | |done]; simpl.
  - unfold Engine_tick, bind, get_state. rewrite Hd. by intros [= <-].
  - unfold Engine_on_proposal, upd_metrics, upd_eng, bind, get_state. simpl. rewrite Hd. by intros [= <-].
  - unfold Engine_on_vote, upd_metrics, upd_eng, bind, get_eng. simpl. rewrite Hd. by intros [= <-].
  - unfold apply_to_stakes, upd_metrics, upd_eng, bind, get_eng. simpl.
    destruct (StakeLedger_apply_evidence _ _ _) as [[[l m] r]|]; [|done]. by intros [= <-].
  - unfold Engine_on_block_received, put_block, bind, get_state. simpl.
    destruct (proposal (state (eng w))) as [p|]; [|by intros [= <-]].
    destruct (_ && _); [|by intros [= <-]]. unfold upd_state, upd_eng. rewrite Hst. simpl.
    by intros [= <-].
Qed.
End nodes.

(** ** Accountability *)

Section accountability.
Context `{Crypto}.

(** Two quorums of one height and round for different blocks: the validators
    in both have equivocated, and their votes are valid evidence. *)
Lemma conflicting_quorums vs vt h r bid bid' l l' :
  vset_valid vs → 0 < vs_total_power vs < 2 ^ 63 →
  vote_quorum vs vt h r bid l → vote_quorum vs vt h r bid' l' → bid ≠ bid' →
  ∃ ks, NoDup ks ∧ vs_total_power vs < 3 * power_of_keys vs ks ∧
    ∀ k, k ∈ ks → ∃ v v', v ∈ l ∧ v' ∈ l' ∧
      Evidence_validate EvidenceConfig_default
        (DoubleVote k h r vt (Some bid) (Some bid') v v') = Ok tt.
Proof.
  intros Hvs Ht [Hnd Hv Hq] [Hnd' Hv' Hq'] Hne.
  exists (filter (λ k, k ∈ v_voter <$> l') (v_voter <$> l)). split_and!; [by apply NoDup_filter| |].
  - by refine (quorum_overlap (valid := vset_valid) vs (v_voter <$> l) (v_voter <$> l') _ _ _ _ _ _).
  - intros k [Hk' Hk]%list_elem_of_filter.
    apply list_elem_of_fmap in Hk as (v & -> & Hin), Hk' as (v' & Heq & Hin').
    exists v, v'. split_and!; [done..|].
    destruct (Hv v Hin) as (Hval & Ht1 & Hh1 & Hr1 & Hb1), (Hv' v' Hin') as (Hval' & Ht2 & Hh2 & Hr2 & Hb2).
    rewrite <-Hb1, <-Hb2. rewrite Heq, <-Ht2, <-Hh2, <-Hr2. apply (detected_evidence_valid vs); [done|done| |].
    + unfold vote_key. congruence.
    + rewrite Hb1, Hb2. congruence.
Qed.
End accountability.

Section two_nodes.
Context `{Crypto, GuardCodecLaws} `{BlockStore B} `{Executor St Rc} (S1 S2 : Signer).

(** C1: Agreement, or accountability. If two nodes of one validator set ever
    commit different blocks at the same height on precommits of the same round,
    validators with more than a third of the power have double signed, and the
    precommits in the two certificates are evidence against each of them that
    [Evidence::validate] accepts. *)
Theorem agreement_or_accountability
    c1 c2 vs h1 h2 prev1 prev2 app1 app2 stk1 stk2 g1 g2 sc dep1 dep2 gc e1 e2 (b1 b2 : B)
    (w1 w2 : World B St Rc) cert1 cert2 r blk1 blk2 st1 st2 f1 f2 rc1 rc2 :
  node_ok c1 vs h1 stk1 g1 sc dep1 gc → node_ok c2 vs h2 stk2 g2 sc dep2 gc →
  Engine_new c1 vs h1 prev1 app1 stk1 g1 = Ok e1 → Engine_new c2 vs h2 prev2 app2 stk2 g2 = Ok e2 →
  @engine_run _ _ S1 _ _ _ _ _ e1 b1 w1 → @engine_run _ _ S2 _ _ _ _ _ e2 b2 w2 →
  0 < vs_total_power vs < 2 ^ 63 →
  OutCommit cert1 blk1 st1 f1 rc1 ∈ outbox w1 → OutCommit cert2 blk2 st2 f2 rc2 ∈ outbox w2 →
  cc_height cert1 = cc_height cert2 →
  (∀ v, v ∈ cc_precommits cert1 ++ cc_precommits cert2 → v_round v = r) →
  cc_block_id cert1 = cc_block_id cert2 ∨
  ∃ ks, NoDup ks ∧ vs_total_power vs < 3 * power_of_keys vs ks ∧
    ∀ k, k ∈ ks → ∃ v1 v2, v1 ∈ cc_precommits cert1 ∧ v2 ∈ cc_precommits cert2 ∧
      Evidence_validate EvidenceConfig_default
        (DoubleVote k (cc_height cert1) r Precommit (Some (cc_block_id cert1))
           (Some (cc_block_id cert2)) v1 v2) = Ok tt.
Proof.
  intros Hok1 Hok2 Hnew1 Hnew2 Hrun1 Hrun2 Ht Hin1 Hin2 Hh Hr.
  destruct (decide (cc_block_id cert1 = cc_block_id cert2)) as [|Hne]; [by left|right].
  assert (∀ S c h prev app stk g dep e b (w : World B St Rc) cert blk st f rcs,
    node_ok c vs h stk g sc dep gc → Engine_new c vs h prev app stk g = Ok e →
    @engine_run _ _ S _ _ _ _ _ e b w → OutCommit cert blk st f rcs ∈ outbox w →
    (∀ v, v ∈ cc_precommits cert → v_round v = r) → cert_sound vs cert r) as Hsound.
  { intros S c h prev app stk g dep e b w cert blk st f rcs Hok Hnew Hrun Hin Hv.
    pose proof (@engine_run_inv _ _ _ S _ _ _ _ _ c vs h prev app stk g sc dep gc e b w Hok Hnew Hrun) as Hinv.
    apply wi_out in Hinv. rewrite Forall_forall in Hinv. apply Hinv in Hin as [r' [Hnd Hvotes Hq]].
    split; [done| |done]. intros v Hin. pose proof (Hv v Hin). destruct (Hvotes v Hin) as (? & ? & ? & ? & ?).
    split_and!; congruence. }
  apply (conflicting_quorums vs Precommit _ r); [apply Hok1|done| | |done].
  - eapply (Hsound S1); [exact Hok1|exact Hnew1|exact Hrun1|exact Hin1|]. intros v Hv. apply Hr, elem_of_app. by left.
  - rewrite Hh. eapply (Hsound S2); [exact Hok2|exact Hnew2|exact Hrun2|exact Hin2|]. intros v Hv. apply Hr, elem_of_app. by right.
Qed.
End two_nodes.

(** ** Locking *)

Section locking.
Context `{Crypto, GuardCodec, Signer} `{BlockStore B} `{Executor St Rc}.
Implicit Types w : World B St Rc.

(** The votes that went out between [w] and [w'] satisfy [P]. *)
Definition sent_only (P : Vote → Prop) w w' : Prop :=
  ∀ v, OutBroadcast (MsgVote v) ∈ outbox w' → OutBroadcast (MsgVote v) ∈ outbox w ∨ P v.

Lemma with_guard_frame f Q w :
  (∀ r w', outbox w' = outbox w → state (eng w') = state (eng w) → Q r w') →
  wlp (B := B) (St := St) (Rc := Rc) (with_guard f) Q w.
Proof.
  intros HQ. unfold with_guard. wlp_step. destruct (ds_guard (eng w)) as [g|]; [|by apply HQ].
  destruct (f g) as [g' r]. wlp_step. by apply HQ.
Qed.

Lemma broadcast_vote_sent P vt bid w0 w :
  outbox w = outbox w0 → (∀ v, v_vote_type v = vt → v_block_id v = bid → P v) →
  wlp (Engine_broadcast_vote vt bid) (λ _ w', sent_only P w0 w') w.
Proof.
  intros Ho HP. unfold Engine_broadcast_vote, sent_only. wlp_step.
  rewrite wlp_bind. apply with_guard_frame. intros [] w1 Ho1 _; cbn [negb];
    [|unfold wlp, ret; rewrite Ho1, Ho; auto].
  rewrite wlp_bind. apply with_guard_frame. intros [] w2 Ho2 _; cbn [negb];
    [|unfold wlp, ret; rewrite Ho2, Ho1, Ho; auto].
  wlp_step. unfold wlp, upd_metrics, upd_eng. simpl. intros v.
  rewrite elem_of_app, list_elem_of_singleton, Ho2, Ho1, Ho. intros [?|[= ->]]; [by left|right; by apply HP].
Qed.

Lemma prevote_choice_locked s l id :
  locked_value s = Some l → prevote_choice s id = None ∨ prevote_choice s id = Some l.
Proof.
  intros Hl. unfold prevote_choice. rewrite Hl. case_bool_decide as Hb; simpl; [right; by rewrite Hb|by left].
Qed.

Lemma verify_proposal_pure p Q w : (∀ r, Q r w) → wlp (Engine_verify_proposal p) Q w.
Proof.
  intros HQ. unfold Engine_verify_proposal, proposer_key. wlp_step.
  destruct (negb _); [apply HQ|]. rewrite wlp_bind. wlp_step.
  destruct (ValidatorSet_proposer_for _ _ _); [apply HQ|done].
Qed.

(** The votes a node locked on [l] may send. *)
Definition lock_vote (l : Hash32) (v : Vote) : Prop :=
  v_vote_type v = Prevote ∧ (v_block_id v = None ∨ v_block_id v = Some l).

Lemma lock_vote_choice s l id v :
  locked_value s = Some l → v_vote_type v = Prevote → v_block_id v = prevote_choice s id → lock_vote l v.
Proof. intros Hl ? Hb. split; [done|]. rewrite Hb. by apply prevote_choice_locked. Qed.

Lemma enter_step_frame st Q w :
  (∀ w', outbox w' = outbox w → locked_value (state (eng w')) = locked_value (state (eng w)) → Q tt w') →
  wlp (B := B) (St := St) (Rc := Rc) (enter_step st) Q w.
Proof. intros HQ. by apply HQ. Qed.

Lemma on_proposal_locked p w l :
  locked_value (state (eng w)) = Some l →
  wlp (Engine_on_proposal p) (λ _ w', sent_only (lock_vote l) w w') w.
Proof.
  intros Hl. assert (sent_only (lock_vote l) w w) as Hrefl by (intros v; by left).
  unfold Engine_on_proposal. wlp_step. destruct (decided (state (eng w))); [done|].
  rewrite wlp_bind. apply verify_proposal_pure. intros [[]|er]; [|done].
  rewrite wlp_bind. apply (wlp_mono _ (λ _ w', outbox w' = outbox w ∧ state (eng w') = state (eng w))).
  { by destruct (p_block p). }
  intros _ w1 [Ho Hs]. wlp_step. destruct (store_get _ _) as [blk|].
  - wlp_step. destruct (exec_verify _ _ _ _) as [st|].
    + wlp_step. rewrite wlp_bind. apply enter_step_frame. intros w2 Ho2 Hl2. wlp_step. rewrite wlp_bind.
      eapply wlp_mono; [apply (broadcast_vote_sent (lock_vote l) _ _ w)|]; [by rewrite Ho2| |done].
      intros v. apply lock_vote_choice. rewrite Hl2. simpl. by rewrite Hs.
    + rewrite wlp_bind. apply enter_step_frame. intros w2 Ho2 _. rewrite wlp_bind.
      eapply wlp_mono; [apply (broadcast_vote_sent (lock_vote l) _ _ w)|]; [by rewrite Ho2| |done].
      intros v ? ?. split; auto.
  - rewrite wlp_bind. unfold request_block. wlp_step. unfold wlp at 1, upd_metrics, upd_eng.
    rewrite wlp_bind. apply enter_step_frame. intros w2 Ho2 _. rewrite wlp_bind.
    set (w1' := w1 <| outbox := _ |>) in Ho2.
    eapply wlp_mono; [apply (broadcast_vote_sent (lock_vote l) _ _ w1')|]; [by rewrite Ho2|by split; auto|].
    intros [] w3 Hsent. wlp_step. intros v Hv. destruct (Hsent v Hv) as [Hin|]; [left|by right].
    revert Hin. simpl. rewrite Ho, elem_of_app, list_elem_of_singleton. by intros [|].
Qed.

Lemma on_block_received_locked blk w l :
  locked_value (state (eng w)) = Some l →
  wlp (Engine_on_block_received blk) (λ _ w', sent_only (lock_vote l) w w') w.
Proof.
  intros Hl. assert (∀ w', outbox w' = outbox w → sent_only (lock_vote l) w w') as Hrefl
    by (intros w' Ho v; rewrite Ho; by left).
  unfold Engine_on_block_received. do 2 wlp_step. simpl.
  destruct (proposal (state (eng w))) as [p|]; [|by apply Hrefl]. destruct (_ && _); [|by apply Hrefl].
  wlp_step. case_bool_decide; [|by apply Hrefl]. wlp_step. rewrite wlp_bind.
  eapply wlp_mono; [apply (broadcast_vote_sent (lock_vote l) _ _ w)|]; [done| |done].
  intros v. by apply lock_vote_choice.
Qed.

(** C7: A node locked on [l] answers a proposal, and a block fetched for one, with
    prevotes for [l] or for nil only. *)
Theorem lock_respected w l r w' :
  locked_value (state (eng w)) = Some l →
  (∃ p, Engine_on_proposal p w = Some (r, w')) ∨ (∃ blk, Engine_on_block_received blk w = Some (r, w')) →
  ∀ v, OutBroadcast (MsgVote v) ∈ outbox w' → OutBroadcast (MsgVote v) ∈ outbox w ∨
    v_vote_type v = Prevote ∧ (v_block_id v = None ∨ v_block_id v = Some l).
Proof.
  intros Hl [[p Hp]|[blk Hb]].
  - pose proof (on_proposal_locked p w l Hl) as Hq. unfold wlp in Hq. by rewrite Hp in Hq.
  - pose proof (on_block_received_locked blk w l Hl) as Hq. unfold wlp in Hq. by rewrite Hb in Hq.
Qed.
End locking.

(** ** What certificates and ticks do not check *)

Section unchecked.
Context `{Crypto}.

(** C40: [CommitCertificate::verify] counts a vote as often as it is listed and
    looks at neither the type, the height, the round nor the block of a vote: a
    single valid vote of any validator, for anything, repeated often enough, makes
    a certificate for any block at any height that passes. *)
Theorem repeated_vote_certificate vs v p h bid :
  vset_valid vs → ValidatorSet_power_of vs (v_voter v) = Some p →
  verify_sig (v_voter v) (Vote_sign_bytes v) (v_signature v) = true →
  CommitCertificate_verify
    {| cc_height := h; cc_block_id := bid;
       cc_precommits := replicate (Z.to_nat (quorum_threshold (vs_total_power vs))) v |} vs = Ok tt.
Proof.
  intros Hvs Hp Hsig. unfold CommitCertificate_verify. cbn [cc_precommits].
  assert (0 < p ≤ U64_MAX) as Hpos by (by apply (power_of_pos (valid := vset_valid) vs (v_voter v))).
  assert (ValidatorSet_contains vs (v_voter v) = true) as Hc
    by (unfold ValidatorSet_contains; apply bool_decide_eq_true_2; by eexists).
  assert (quorum_threshold (vs_total_power vs) ≤ U64_MAX) as Hq.
  { unfold quorum_threshold. destruct (_ =? 0); [mach|].
    apply wrap64_ok. }
  assert (∀ n acc, 0 ≤ acc ≤ U64_MAX → ∃ q, verify_precommits vs (replicate n v) acc = Ok q ∧
    Z.min U64_MAX (acc + Z.of_nat n) ≤ q) as Hrep.
  { induction n as [|n IH]; intros acc Hacc; [exists acc; split; [done|lia]|].
    cbn [replicate verify_precommits]. rewrite Hc, Hsig, Hp. cbn [negb].
    change (default 0 (Some p)) with p.
    destruct (IH (sat_add64 acc p)) as (q & -> & Hle); [unfold sat_add64, U64_MAX in *; lia|].
    exists q. split; [done|]. unfold sat_add64 in Hle. lia. }
  destruct (Hrep (Z.to_nat (quorum_threshold (vs_total_power vs))) 0) as (q & -> & Hle);
    [mach|].
  cbn [result_bind]. destruct (Z.ltb_spec q (quorum_threshold (vs_total_power vs))); [lia|done].
Qed.
End unchecked.

(** ** A concrete network *)

Definition ex_signer (k : PublicKeyBytes) : Signer := {| public_key := k; sign _ := [7] |}.

Definition ex_store : BlockStore (gmap Hash32 Block) := {|
  store_get m id := m !! id;
  store_put m b := <[ @Block_id ex_crypto b := b ]> m;
|}.

Definition ex_block (h r ts : Z) : Block :=
  mkBlock (mkBlockHeader h r Hash32_zero Hash32_zero Hash32_zero [1] "iona1"%string 1 0 1000000 ts 0) [] 0.

(** Executes nothing, counts the blocks. *)
Definition ex_executor : Executor Z unit := {|
  exec_build h r _ _ _ _ _ _ := ex_block h r 0;
  exec_verify st _ _ _ := Some (st + 1, []);
|}.

Definition ex_bid (h r ts : Z) : Hash32 := @Block_id ex_crypto (ex_block h r ts).

(** A new guard with the default configuration. *)
Definition ex_guard : DoubleSignGuard := @DoubleSignGuard_with_config bit_guard_codec None DoubleSignConfig_default.

Definition ex_node (k : PublicKeyBytes) : Engine Z :=
  match Engine_new Config_default ex_vset 4 Hash32_zero 0 ex_ledger (Some ex_guard) with
  | Ok e => e
  | Err _ => mkEngine Config_default ex_vset (ConsensusState_new 4) Hash32_zero 0 ex_ledger 1 None 0
               (mkConsensusMetrics 0 0 0 0 0 0 0 0)
  end.

Definition ex_run (k : PublicKeyBytes) (l : list engine_call) : option (unit * World _ Z unit) :=
  @run_calls ex_crypto bit_guard_codec (ex_signer k) _ ex_store _ _ ex_executor l
    (mkWorld (ex_node k) ∅ []).

Definition ex_msg (vt : VoteType) (h r : Z) (k : PublicKeyBytes) (bid : option Hash32) : engine_call :=
  CallMessage (MsgVote (mkVote vt h r k bid [7])).

(** Propose, prevote, collect three prevotes, lock, precommit, collect three
    precommits, commit. *)
Definition ex_calls (bid : Hash32) : list engine_call :=
  CallTick 10 (λ _, []) ::
  ((λ k, ex_msg Prevote 4 0 [k] (Some bid)) <$> [1; 2; 3]) ++
  ((λ k, ex_msg Precommit 4 0 [k] (Some bid)) <$> [1; 2; 3]).

Definition ex_world (k : PublicKeyBytes) (l : list engine_call) : World _ Z unit :=
  match ex_run k l with Some (_, w) => w | None => mkWorld (ex_node k) ∅ [] end.

Lemma ex_node_ok :
  @node_ok ex_crypto bit_guard_codec Config_default ex_vset 4 ex_ledger (Some ex_guard)
    SlashingConfig_default 1000 DoubleSignConfig_default.
Proof.
  split; [apply ex_vset_valid|done|simpl; mach|mach|
    apply ex_ledger_run| |done].
  intros g [= <-]. exists [], 0. split; [apply signing_start|lia].
Qed.

Lemma ex_world_run k l :
  Forall (λ x, x ≠ CallNextHeight) l → bool_decide (is_Some (ex_run k l)) = true →
  @engine_run ex_crypto bit_guard_codec (ex_signer k) _ ex_store _ _ ex_executor (ex_node k) ∅
    (ex_world k l).
Proof.
  intros Hl [[[] w] Hw]%bool_decide_eq_true. unfold ex_world. rewrite Hw.
  eapply (@run_calls_run ex_crypto bit_guard_codec (ex_signer k)); [done|apply engine_started|exact Hw].
Qed.

(** The node of validator 1 commits the block it proposed. *)
Abbreviation world1 := (ex_world [1] (ex_calls (ex_bid 4 0 0))).

Lemma ex_calls_ok bid : Forall (λ x, x ≠ CallNextHeight) (ex_calls bid).
Proof. repeat constructor; discriminate. Qed.

Lemma world1_run :
  @engine_run ex_crypto bit_guard_codec (ex_signer [1]) _ ex_store _ _ ex_executor (ex_node [1]) ∅ world1.
Proof. apply ex_world_run; [apply ex_calls_ok|]. vm_compute. reflexivity. Qed.

(** What [world1] has in its outbox at [i]. *)
Definition ex_out (w : World (gmap Hash32 Block) Z unit) (i : nat) : OutEvent Z unit :=
  default (OutRequestBlock []) (outbox w !! i).

Definition ex_cert (w : World (gmap Hash32 Block) Z unit) : CommitCertificate :=
  default (mkCommitCertificate 0 [] []) (decided (state (eng w))).

Lemma engine_never_panics_witness :
  (∃ w', @run_call ex_crypto bit_guard_codec (ex_signer [1]) _ ex_store _ _ ex_executor
           CallNextHeight world1 = Some (tt, w')) ∧ 0 ≤ round (state (eng world1)) < 50.
Proof.
  apply (@engine_never_panics ex_crypto bit_guard_codec bit_guard_codec_laws (ex_signer [1]) _ ex_store _ _
           ex_executor Config_default ex_vset 4 Hash32_zero 0 ex_ledger (Some ex_guard)
           SlashingConfig_default 1000 DoubleSignConfig_default (ex_node [1]) ∅ world1 CallNextHeight);
    [apply ex_node_ok|reflexivity|apply world1_run|vm_compute; reflexivity].
Defined.

Lemma committed_certificates_sound_witness :
  (∃ r, @vote_quorum ex_crypto ex_vset Precommit 4 r (ex_bid 4 0 0) (cc_precommits (ex_cert world1))) ∧
  @CommitCertificate_verify ex_crypto (ex_cert world1) ex_vset = Ok tt.
Proof.
  apply (@committed_certificates_sound ex_crypto bit_guard_codec bit_guard_codec_laws (ex_signer [1]) _
           ex_store _ _ ex_executor Config_default ex_vset 4 Hash32_zero 0 ex_ledger (Some ex_guard)
           SlashingConfig_default 1000 DoubleSignConfig_default (ex_node [1]) ∅ world1 (ex_cert world1) (ex_block 4 0 0)
           1 1 []);
    [apply ex_node_ok|reflexivity|apply world1_run|].
  apply list_elem_of_lookup. exists 3%nat. vm_compute. reflexivity.
Defined.

Definition ex_precommit : Vote := mkVote Precommit 4 0 [1] (Some (ex_bid 4 0 0)) [7].

Lemma precommits_justified_witness :
  ∃ bid l, v_block_id ex_precommit = Some bid ∧ @vote_quorum ex_crypto ex_vset Prevote 4 0 bid l.
Proof.
  apply (@precommits_justified ex_crypto bit_guard_codec bit_guard_codec_laws (ex_signer [1]) _
           ex_store _ _ ex_executor Config_default ex_vset 4 Hash32_zero 0 ex_ledger (Some ex_guard)
           SlashingConfig_default 1000 DoubleSignConfig_default (ex_node [1]) ∅ world1 ex_precommit);
    [apply ex_node_ok|reflexivity|apply world1_run| |reflexivity].
  apply list_elem_of_lookup. exists 2%nat. vm_compute. reflexivity.
Defined.

Lemma node_never_equivocates_witness :
  (∀ v v', OutBroadcast (MsgVote v) ∈ outbox world1 → OutBroadcast (MsgVote v') ∈ outbox world1 →
     v_vote_type v = v_vote_type v' → v_height v = v_height v' → v_round v = v_round v' →
     v_block_id v = v_block_id v') ∧
  (∀ p p', OutBroadcast (MsgProposal p) ∈ outbox world1 → OutBroadcast (MsgProposal p') ∈ outbox world1 →
     p_height p = p_height p' → p_round p = p_round p' → p_block_id p = p_block_id p').
Proof.
  apply (@node_never_equivocates ex_crypto bit_guard_codec bit_guard_codec_laws (ex_signer [1]) _
           ex_store _ _ ex_executor Config_default ex_vset 4 Hash32_zero 0 ex_ledger (Some ex_guard)
           SlashingConfig_default 1000 DoubleSignConfig_default (ex_node [1]) ∅ world1);
    [apply ex_node_ok|reflexivity|by eexists|apply world1_run|right; vm_compute; discriminate].
Defined.

Definition ex_late : World (gmap Hash32 Block) Z unit :=
  ex_world [1] (ex_calls (ex_bid 4 0 0) ++ [CallBlock (ex_block 4 0 9)]).

Lemma decision_final_witness :
  decided (state (eng ex_late)) = Some (ex_cert world1) ∧
  height (state (eng ex_late)) = height (state (eng world1)) ∧
  app_state (eng ex_late) = app_state (eng world1) ∧ prev_block_id (eng ex_late) = prev_block_id (eng world1) ∧
  base_fee_per_gas (eng ex_late) = base_fee_per_gas (eng world1) ∧ outbox ex_late = outbox world1.
Proof.
  apply (@decision_final ex_crypto bit_guard_codec bit_guard_codec_laws (ex_signer [1]) _
           ex_store _ _ ex_executor Config_default ex_vset 4 Hash32_zero 0 ex_ledger (Some ex_guard)
           SlashingConfig_default 1000 DoubleSignConfig_default (ex_node [1]) ∅ world1 (CallBlock (ex_block 4 0 9))
           ex_late (ex_cert world1));
    [apply ex_node_ok|reflexivity|apply world1_run|vm_compute; reflexivity|discriminate|
     vm_compute; reflexivity].
Defined.

(** A peer that votes twice in a round. *)
Definition ex_twice : World (gmap Hash32 Block) Z unit :=
  ex_world [1] [ex_msg Prevote 4 0 [2] (Some (ex_bid 4 0 0)); ex_msg Prevote 4 0 [2] None].

Definition ex_proof : Evidence :=
  DoubleVote [2] 4 0 Prevote (Some (ex_bid 4 0 0)) None
    (mkVote Prevote 4 0 [2] (Some (ex_bid 4 0 0)) [7]) (mkVote Prevote 4 0 [2] None [7]).

Lemma broadcast_evidence_valid_witness :
  @Evidence_validate ex_crypto EvidenceConfig_default ex_proof = Ok tt.
Proof.
  apply (@broadcast_evidence_valid ex_crypto bit_guard_codec bit_guard_codec_laws (ex_signer [1]) _
           ex_store _ _ ex_executor Config_default ex_vset 4 Hash32_zero 0 ex_ledger (Some ex_guard)
           SlashingConfig_default 1000 DoubleSignConfig_default (ex_node [1]) ∅ ex_twice ex_proof);
    [apply ex_node_ok|reflexivity| |].
  - apply ex_world_run; [repeat constructor; discriminate|vm_compute; reflexivity].
  - apply list_elem_of_lookup. exists 0%nat. vm_compute. reflexivity.
Defined.

(** The node of validator 2, which is shown another proposal of validator 1 and
    other votes of the same validators. *)
Definition ex_other : Proposal :=
  {| p_height := 4; p_round := 0; p_proposer := [1]; p_block_id := ex_bid 4 0 5;
     p_block := Some (ex_block 4 0 5); p_pol_round := None; p_signature := [7] |}.

Definition ex_fork : World (gmap Hash32 Block) Z unit :=
  ex_world [2] (CallMessage (MsgProposal ex_other) :: drop 1 (ex_calls (ex_bid 4 0 5))).

Lemma ex_fork_run :
  @engine_run ex_crypto bit_guard_codec (ex_signer [2]) _ ex_store _ _ ex_executor (ex_node [2]) ∅ ex_fork.
Proof.
  apply ex_world_run; [repeat constructor; discriminate|vm_compute; reflexivity].
Qed.

Lemma agreement_or_accountability_witness :
  ex_bid 4 0 0 = ex_bid 4 0 5 ∨
  ∃ ks, NoDup ks ∧ vs_total_power ex_vset < 3 * power_of_keys ex_vset ks ∧
    ∀ k, k ∈ ks → ∃ v1 v2, v1 ∈ cc_precommits (ex_cert world1) ∧ v2 ∈ cc_precommits (ex_cert ex_fork) ∧
      @Evidence_validate ex_crypto EvidenceConfig_default
        (DoubleVote k 4 0 Precommit (Some (ex_bid 4 0 0)) (Some (ex_bid 4 0 5)) v1 v2) = Ok tt.
Proof.
  apply (@agreement_or_accountability ex_crypto bit_guard_codec bit_guard_codec_laws _ ex_store _ _ ex_executor
    (ex_signer [1]) (ex_signer [2]) Config_default Config_default ex_vset 4 4 Hash32_zero Hash32_zero 0 0
    ex_ledger ex_ledger (Some ex_guard) (Some ex_guard) SlashingConfig_default 1000 1000 DoubleSignConfig_default
    (ex_node [1]) (ex_node [2]) ∅ ∅ world1 ex_fork (ex_cert world1) (ex_cert ex_fork) 0
    (ex_block 4 0 0) (ex_block 4 0 5) 1 1 1 1 [] []);
    [apply ex_node_ok|apply ex_node_ok|reflexivity|reflexivity|apply world1_run|apply ex_fork_run|
     vm_compute; split; reflexivity| | |vm_compute; reflexivity|].
  - apply list_elem_of_lookup. exists 3%nat. vm_compute. reflexivity.
  - apply list_elem_of_lookup. exists 2%nat. vm_compute. reflexivity.
  - apply Forall_forall. apply (bool_decide_unpack _). vm_compute. exact I.
Defined.

(** Locked on the block of round 0, then time out of the round. *)
Definition ex_lock_calls : list engine_call := take 4 (ex_calls (ex_bid 4 0 0)) ++ [CallTick 200 (λ _, [])].

Definition ex_proposal1 : Proposal :=
  {| p_height := 4; p_round := 1; p_proposer := [2]; p_block_id := ex_bid 4 1 0;
     p_block := Some (ex_block 4 1 0); p_pol_round := None; p_signature := [7] |}.

Definition ex_answer : World (gmap Hash32 Block) Z unit :=
  ex_world [1] (ex_lock_calls ++ [CallTick 0 (λ _, [])]).

Definition ex_answered : World (gmap Hash32 Block) Z unit :=
  match @Engine_on_proposal ex_crypto bit_guard_codec (ex_signer [1]) _ ex_store _ _ ex_executor
          ex_proposal1 ex_answer with Some (_, w) => w | None => ex_answer end.

Lemma lock_respected_witness :
  locked_value (state (eng ex_answer)) = Some (ex_bid 4 0 0) ∧
  ∀ v, OutBroadcast (MsgVote v) ∈ outbox ex_answered → OutBroadcast (MsgVote v) ∈ outbox ex_answer ∨
    v_vote_type v = Prevote ∧ (v_block_id v = None ∨ v_block_id v = Some (ex_bid 4 0 0)).
Proof.
  split; [vm_compute; reflexivity|].
  apply (@lock_respected ex_crypto bit_guard_codec (ex_signer [1]) _ ex_store _ _ ex_executor
           ex_answer (ex_bid 4 0 0) (Ok tt) ex_answered); [vm_compute; reflexivity|].
  left. exists ex_proposal1. vm_compute. reflexivity.
Defined.

Lemma repeated_vote_certificate_witness :
  @CommitCertificate_verify ex_crypto
    {| cc_height := 99; cc_block_id := ex_hash 3;
       cc_precommits := replicate 27 (mkVote Prevote 1 0 [1] None [7]) |} ex_vset = Ok tt.
Proof.
  apply (@repeated_vote_certificate ex_crypto ex_vset (mkVote Prevote 1 0 [1] None [7]) 10 99 (ex_hash 3));
    [apply ex_vset_valid|vm_compute; reflexivity|vm_compute; reflexivity].
Defined.

(** Three rounds of other proposers time out, then the locked node's turn comes. *)
Definition ex_unlock_calls : list engine_call :=
  ex_lock_calls ++
  concat (replicate 3 [CallTick 300 (λ _, []); CallTick 200 (λ _, [])]) ++ [CallTick 10 (λ _, [])].

(** [tick] does not look at the lock. A node locked on the block of round 0
    whose turn it is to propose in round 4 builds a new block, instead of
    proposing the valid one again, and prevotes it. *)
Lemma tick_ignores_lock :
  let w := ex_world [1] ex_unlock_calls in
  locked_value (state (eng w)) = Some (ex_bid 4 0 0) ∧
  last (outbox w) = Some (OutBroadcast (MsgVote (mkVote Prevote 4 4 [1] (Some (ex_bid 4 4 0)) [7]))) ∧
  ex_bid 4 4 0 ≠ ex_bid 4 0 0.
Proof. vm_compute. split_and!; [done|done|discriminate]. Qed.
