(* ===== verification/UserAccess.v ===== *)
(** * Access to user memory ([src/src/syscall/user_access.rs]).

    Range checks, the safe-copy window (the per-CPU flag of
    [src/src/arch/x86_64/percpu/mod.rs] and the global one), and the copies. A
    copy runs on one CPU over a memory of mapped bytes. Touching an unmapped
    address faults in kernel mode; of the page fault handler
    ([src/src/arch/x86_64/idt.rs]) the model has the two cases such a fault ends
    in once no page can be brought in: the handler calls [sched::exit_current] when
    it sees the window open, and the kernel panics otherwise. Touching an address
    past the user half, which is not canonical, raises a general protection fault,
    whose handler calls [exit_current] or panics. [exit_current] holds the
    scheduler's spin lock while [notify_exit] takes it once more, so it does not
    return. The EFLAGS.AC bit that STAC and CLAC set is part of the state. *)

From Stdlib Require Import ZArith Lia Bool.
From stdpp Require Import base gmap sets list.
From S2P Require Import Prelude.

Local Open Scope Z_scope.

(** ** State *)

Definition USER_SPACE_MAX : Z := 0x800000000000.

Record Cpus := mkCpus {
  (** The global flag. *)
  IS_SAFE_COPY : bool;
  (** [PerCpu::in_safe_copy] of the CPUs whose GS base is set up. *)
  in_safe_copy : gmap nat Z;
  (** The CPUs with EFLAGS.AC set. *)
  ac : gset nat;
}.

#[export] Instance eta_Cpus : Settable Cpus := λ s, mkCpus (IS_SAFE_COPY s) (in_safe_copy s) (ac s).

(** Mapped bytes by address. *)
Abbreviation memory := (gmap Z Z).

(** [running] is the running task as [SCHEDULER.try_lock()] shows it to a fault
    handler: none when there is none, or when the lock is taken. *)
Record Machine := mkMachine { cpus : Cpus; mem : memory; running : option Z }.

#[export] Instance eta_Machine : Settable Machine := λ s, mkMachine (cpus s) (mem s) (running s).

(** How a call ends. [Deadlocks]: the processor spins on the scheduler's lock, which
    it holds itself. *)
Inductive outcome (A : Type) :=
| Returns (a : A) (m : Machine)
| Deadlocks (m : Machine)
| KernelPanic.
Arguments Returns {A} a m.
Arguments Deadlocks {A} m.
Arguments KernelPanic {A}.

(** [SCHEDULER.lock()], and what is done with the guard. *)
Definition lock_scheduler {A} (held : bool) (m : Machine) (k : bool → outcome A) : outcome A :=
  if held then Deadlocks m else k true.

(** The last section of [notify_exit], which removes the task under the lock. *)
Definition notify_exit_removal {A} (held : bool) (m : Machine) (k : outcome A) : outcome A :=
  lock_scheduler held m (λ _, k).

(** The guard that gives [current_tid] is a temporary of the call of [notify_exit]
    and lives until that returns. The handlers' [unreachable!()] comes after. *)
Definition exit_current {A} (m : Machine) : outcome A :=
  lock_scheduler false m (λ held, notify_exit_removal held m KernelPanic).

(** ** The window *)

Definition set_safe_copy (c : nat) (val : bool) (s : Cpus) : Cpus :=
  match in_safe_copy s !! c with
  | Some _ => s <| in_safe_copy := <[c := if val then 1 else 0]> (in_safe_copy s) |>
  | None => s <| IS_SAFE_COPY := val |>
  end.

Definition is_safe_copy (c : nat) (s : Cpus) : bool :=
  match in_safe_copy s !! c with
  | Some v => negb (v =? 0)
  | None => IS_SAFE_COPY s
  end.

Definition set_safe_copy_window (c : nat) (s : Cpus) : Cpus :=
  (set_safe_copy c true s) <| IS_SAFE_COPY := true |>.

Definition clear_safe_copy_window (c : nat) (s : Cpus) : Cpus :=
  (set_safe_copy c false s) <| IS_SAFE_COPY := false |>.

Definition stac (c : nat) (s : Cpus) : Cpus := s <| ac := {[c]} ∪ ac s |>.
Definition clac (c : nat) (s : Cpus) : Cpus := s <| ac := ac s ∖ {[c]} |>.

Definition ScopedUserAccess_new (c : nat) (s : Cpus) : Cpus := stac c (set_safe_copy_window c s).
Definition ScopedUserAccess_drop (c : nat) (s : Cpus) : Cpus := clear_safe_copy_window c (clac c s).

(** The end of the page fault handler, for a fault in kernel mode. *)
Definition kernel_page_fault {A} (c : nat) (m : Machine) : outcome A :=
  if IS_SAFE_COPY (cpus m) || is_safe_copy c (cpus m)
  then exit_current (m <| cpus := clear_safe_copy_window c (cpus m) |>)
  else KernelPanic.

(** The general protection fault handler. *)
Definition gpf_handler {A} (m : Machine) : outcome A :=
  match running m with Some _ => exit_current m | None => KernelPanic end.

(** ** Copies *)

Definition check_user_range (ptr len : Z) : bool :=
  if ptr =? 0 then false
  else if USER_SPACE_MAX <=? ptr then false
  else if 0 <? len then
    if ptr + len <=? U64_MAX then ptr + len <=? USER_SPACE_MAX else false
  else true.

Inductive user_error := EFAULT_bad_user_pointer | EFAULT.

(** Reads [n] bytes from [src] on; [None] when one is not mapped. *)
Fixpoint read_bytes (m : memory) (src : Z) (n : nat) : option (list Z) :=
  match n with
  | O => Some []
  | S n' =>
    match m !! src with
    | None => None
    | Some b => option_map (cons b) (read_bytes m (src + 1) n')
    end
  end.

(** Writes bytes from [dst] on; stops with [false] at an address not mapped. *)
Fixpoint write_bytes (m : memory) (dst : Z) (l : list Z) : memory * bool :=
  match l with
  | [] => (m, true)
  | b :: l' =>
    match m !! dst with
    | None => (m, false)
    | Some _ => write_bytes (<[dst := b]> m) (dst + 1) l'
    end
  end.

Section cpu.
Context (c : nat).

Definition enter (m : Machine) : Machine := m <| cpus := ScopedUserAccess_new c (cpus m) |>.
Definition leave (m : Machine) : Machine := m <| cpus := ScopedUserAccess_drop c (cpus m) |>.

(** [len] is the length of [dst]; the bytes read are what ends up in it. *)
Definition copy_from_user (len : nat) (src_user : Z) (m : Machine) :
    outcome (result (list Z) user_error) :=
  if negb (check_user_range src_user (Z.of_nat len)) then Returns (Err EFAULT_bad_user_pointer) m
  else
    let m := enter m in
    match read_bytes (mem m) src_user len with
    | Some l => Returns (Ok l) (leave m)
    | None => kernel_page_fault c m
    end.

Definition copy_to_user (dst_user : Z) (src : list Z) (m : Machine) :
    outcome (result Z user_error) :=
  if negb (check_user_range dst_user (Z.of_nat (length src))) then Returns (Err EFAULT_bad_user_pointer) m
  else
    let m := enter m in
    let '(mem', ok) := write_bytes (mem m) dst_user src in
    let m := m <| mem := mem' |> in
    if ok : bool then Returns (Ok (Z.of_nat (length src))) (leave m) else kernel_page_fault c m.

Definition get_user_u64 (addr : Z) (m : Machine) : outcome (result Z user_error) :=
  if negb (check_user_range addr 8) then Returns (Err EFAULT) m
  else
    let m := enter m in
    match read_bytes (mem m) addr 8 with
    | Some l => Returns (Ok (le_value l)) (leave m)
    | None => kernel_page_fault c m
    end.

Definition put_user_u64 (addr val : Z) (m : Machine) : outcome (result unit user_error) :=
  if negb (check_user_range addr 8) then Returns (Err EFAULT) m
  else
    let m := enter m in
    let '(mem', ok) := write_bytes (mem m) addr (le_bytes 8 val) in
    let m := m <| mem := mem' |> in
    if ok : bool then Returns (Ok tt) (leave m) else kernel_page_fault c m.

(** How reading a string ends: with its bytes, at an address that is not mapped, or
    at one past the user half, which is not canonical. *)
Inductive cstr_end := CstrBytes (l : list Z) | CstrUnmapped | CstrNotCanonical.

Definition cstr_cons (b : Z) (r : cstr_end) : cstr_end :=
  match r with CstrBytes l => CstrBytes (b :: l) | r => r end.

(** The byte loop of [copy_cstr_from_user], [fuel] bytes to go. *)
Fixpoint cstr_loop (m : memory) (addr : Z) (fuel : nat) : cstr_end :=
  match fuel with
  | O => CstrBytes []
  | S fuel' =>
    if USER_SPACE_MAX <=? addr then CstrNotCanonical
    else
      match m !! addr with
      | None => CstrUnmapped
      | Some b =>
        if b =? 0 then CstrBytes []
        else if b <? 128 then cstr_cons b (cstr_loop m (addr + 1) fuel')
        else CstrBytes []
      end
  end.

Definition CSTR_MAX : nat := 4095.

Definition copy_cstr_from_user (ptr : Z) (m : Machine) : outcome (result (list Z) user_error) :=
  if negb (check_user_range ptr 1) then Returns (Err EFAULT) m
  else
    let m := enter m in
    match cstr_loop (mem m) ptr CSTR_MAX with
    | CstrBytes s => Returns (Ok s) (leave m)
    | CstrUnmapped => kernel_page_fault c m
    | CstrNotCanonical => gpf_handler m
    end.
End cpu.

(** ** All operations as one type *)

Inductive user_op :=
| OpFrom (len : nat) (src : Z)
| OpTo (dst : Z) (data : list Z)
| OpGet (addr : Z)
| OpPut (addr val : Z)
| OpCstr (ptr : Z).

Inductive user_value := VBytes (l : list Z) | VSize (n : Z) | VUnit.

Definition omap_outcome {A B} (f : A → B) (o : outcome A) : outcome B :=
  match o with
  | Returns a m => Returns (f a) m
  | Deadlocks m => Deadlocks m
  | KernelPanic => KernelPanic
  end.

Definition result_map {T U E} (f : T → U) (r : result T E) : result U E :=
  match r with Ok t => Ok (f t) | Err e => Err e end.

Definition run_user_op (c : nat) (op : user_op) (m : Machine) : outcome (result user_value user_error) :=
  match op with
  | OpFrom len src => omap_outcome (result_map VBytes) (copy_from_user c len src m)
  | OpTo dst data => omap_outcome (result_map VSize) (copy_to_user c dst data m)
  | OpGet addr => omap_outcome (result_map VSize) (get_user_u64 c addr m)
  | OpPut addr val => omap_outcome (result_map (λ _, VUnit)) (put_user_u64 c addr val m)
  | OpCstr ptr => omap_outcome (result_map VBytes) (copy_cstr_from_user c ptr m)
  end.

(** The addresses an operation is about. *)
Definition op_range (op : user_op) : Z * Z :=
  match op with
  | OpFrom len src => (src, Z.of_nat len)
  | OpTo dst data => (dst, Z.of_nat (length data))
  | OpGet addr => (addr, 8)
  | OpPut addr _ => (addr, 8)
  | OpCstr ptr => (ptr, 1)
  end.

(** The bytes an operation may touch. *)
Definition op_reach (op : user_op) : Z := match op with OpCstr _ => Z.of_nat CSTR_MAX | _ => (op_range op).2 end.

(** The machine a call leaves behind, unless the kernel panics. *)
Definition final {A} (o : outcome A) : option Machine :=
  match o with Returns _ m => Some m | Deadlocks m => Some m | KernelPanic => None end.

(** The arguments are machine words and lengths. *)
Definition op_typed (op : user_op) : Prop := 0 ≤ (op_range op).1 ≤ U64_MAX.

(** ** Ranges *)

Lemma check_user_range_spec ptr len :
  0 ≤ ptr → 0 ≤ len →
  check_user_range ptr len = true ↔ 0 < ptr < USER_SPACE_MAX ∧ ptr + len ≤ USER_SPACE_MAX.
Proof.
  intros Hp Hl. unfold check_user_range, USER_SPACE_MAX, U64_MAX.
  destruct (Z.eqb_spec ptr 0); [split; [done|lia]|].
  destruct (Z.leb_spec 0x800000000000 ptr); [split; [done|lia]|].
  destruct (Z.ltb_spec 0 len); [|split; [lia|done]].
  destruct (Z.leb_spec (ptr + len) (2 ^ 64 - 1)); [rewrite Z.leb_le; lia|]. split; [done|lia].
Qed.

(** ** Memory *)

Lemma read_bytes_length m a n l : read_bytes m a n = Some l → length l = n.
Proof.
  revert a l. induction n as [|n IH]; intros a l; simpl; [by intros [= <-]|].
  destruct (m !! a); [|done]. destruct (read_bytes m (a + 1) n) eqn:Hr; [|done].
  intros [= <-]. simpl. f_equal. by eapply IH.
Qed.

Lemma read_bytes_ext m m' a n :
  (∀ x, a ≤ x < a + Z.of_nat n → m !! x = m' !! x) → read_bytes m a n = read_bytes m' a n.
Proof.
  revert a. induction n as [|n IH]; intros a Hext; simpl; [done|].
  rewrite (Hext a) by lia. destruct (m' !! a); [|done]. f_equal. apply IH. intros x Hx. apply Hext. lia.
Qed.

Lemma write_bytes_outside m a l x :
  ¬ (a ≤ x < a + Z.of_nat (length l)) → (write_bytes m a l).1 !! x = m !! x.
Proof.
  revert m a. induction l as [|b l IH]; intros m a Hx; simpl in *; [done|].
  destruct (m !! a); [|done]. rewrite IH by lia. apply lookup_insert_ne. lia.
Qed.

(** What was written is read back. *)
Lemma read_write_bytes m a l m' : write_bytes m a l = (m', true) → read_bytes m' a (length l) = Some l.
Proof.
  revert m a m'. induction l as [|b l IH]; intros m a m'; simpl; [done|].
  destruct (m !! a); [|done]. intros Hw. pose proof (IH _ _ _ Hw) as Hr.
  assert (m' !! a = Some b) as ->.
  { pose proof (write_bytes_outside (<[a:=b]> m) (a + 1) l a) as Ho. rewrite Hw in Ho. simpl in Ho.
    rewrite Ho by lia. apply lookup_insert_eq. }
  by rewrite Hr.
Qed.

Lemma write_bytes_ok_ext m m' a l :
  (∀ x, a ≤ x < a + Z.of_nat (length l) → m !! x = m' !! x) →
  (write_bytes m a l).2 = (write_bytes m' a l).2.
Proof.
  revert m m' a. induction l as [|b l IH]; intros m m' a Hext; simpl in *; [done|].
  rewrite <-(Hext a) by lia. destruct (m !! a); [|done]. apply IH. intros x Hx.
  destruct (decide (x = a)) as [->|]; [by rewrite !lookup_insert_eq|].
  rewrite !lookup_insert_ne by done. apply Hext. lia.
Qed.

(** ** Safety of single calls *)

Definition window_closed (c : nat) (s : Cpus) : Prop := IS_SAFE_COPY s = false ∧ is_safe_copy c s = false.

Lemma clear_window_closed c s : window_closed c (clear_safe_copy_window c s).
Proof.
  unfold window_closed, clear_safe_copy_window, is_safe_copy, set_safe_copy.
  destruct (in_safe_copy s !! c) eqn:Hc; simpl; [by rewrite lookup_insert_eq|by rewrite Hc].
Qed.

Lemma set_window_open c s : IS_SAFE_COPY (set_safe_copy_window c s) = true.
Proof. done. Qed.

Lemma read_bytes_mapped m a n : read_bytes m a n = None → ∃ x, a ≤ x < a + Z.of_nat n ∧ m !! x = None.
Proof.
  revert a. induction n as [|n IH]; intros a; simpl; [done|]. destruct (m !! a) eqn:Ha; [|intros _; exists a; split; [lia|done]].
  destruct (read_bytes m (a + 1) n) eqn:Hr; [done|]. intros _. destruct (IH (a + 1) Hr) as (x & ? & ?). exists x. split; [lia|done].
Qed.

Lemma write_bytes_unmapped m a l : (write_bytes m a l).2 = false → ∃ x, a ≤ x < a + Z.of_nat (length l) ∧ m !! x = None.
Proof.
  revert m a. induction l as [|b l IH]; intros m a; simpl; [done|].
  destruct (m !! a) eqn:Ha; [|intros _; exists a; split; [lia|done]].
  intros Hw. destruct (IH _ _ Hw) as (x & ? & Hx). exists x. split; [lia|]. by rewrite lookup_insert_ne in Hx by lia.
Qed.

Lemma cstr_loop_cases m a n :
  match cstr_loop m a n with
  | CstrBytes _ => True
  | CstrUnmapped => ∃ x, a ≤ x < a + Z.of_nat n ∧ m !! x = None
  | CstrNotCanonical => USER_SPACE_MAX < a + Z.of_nat n
  end.
Proof.
  revert a. induction n as [|n IH]; intros a; cbn [cstr_loop]; [done|].
  destruct (Z.leb_spec USER_SPACE_MAX a); [lia|].
  destruct (m !! a) as [b|] eqn:Ha; [|exists a; split; [lia|done]].
  destruct (b =? 0); [done|]. destruct (b <? 128); [|done]. specialize (IH (a + 1)).
  destruct (cstr_loop m (a + 1) n); simpl; [done| |lia]. destruct IH as (x & ? & ?). exists x. split; [lia|done].
Qed.

(** A machine in which a call stopped at a fault: the window is closed for a page fault. *)
Definition faulted (c : nat) (m : Machine) (mem' : memory) : Machine :=
  mkMachine (clear_safe_copy_window c (ScopedUserAccess_new c (cpus m))) mem' (running m).

Lemma run_user_op_cases c op m :
  let '(lo, len) := op_range op in
  (check_user_range lo len = false ∧ ∃ e, run_user_op c op m = Returns (Err e) m) ∨
  (check_user_range lo len = true ∧ ∃ mem', (∀ x, ¬ (lo ≤ x < lo + len) → mem' !! x = mem m !! x) ∧
    ((∃ v, run_user_op c op m = Returns (Ok v) (leave c ((enter c m) <| mem := mem' |>))) ∨
     (run_user_op c op m = Deadlocks (faulted c m mem') ∧ ∃ x, lo ≤ x < lo + op_reach op ∧ mem m !! x = None) ∨
     (mem' = mem m ∧ run_user_op c op m = gpf_handler (enter c m) ∧ (∃ ptr, op = OpCstr ptr) ∧ USER_SPACE_MAX < lo + op_reach op))).
Proof.
  assert ((enter c m) <| mem := mem (enter c m) |> = enter c m) as Hm by done.
  destruct op as [len src|dst data|addr|addr val|ptr]; simpl.
  - unfold copy_from_user. destruct (check_user_range src (Z.of_nat len)); simpl; [right|left; eauto].
    split; [done|]. exists (mem m). split; [done|]. pose proof (read_bytes_mapped (mem m) src len).
    destruct (read_bytes (mem m) src len); [left; eauto|right; left; eauto].
  - unfold copy_to_user. destruct (check_user_range dst (Z.of_nat (length data))); simpl; [right|left; eauto].
    split; [done|]. exists (write_bytes (mem m) dst data).1.
    split; [intros x Hx; by apply write_bytes_outside|]. pose proof (write_bytes_unmapped (mem m) dst data) as Hw.
    destruct (write_bytes (mem m) dst data) as [mem' []]; [left; eauto|right; left; eauto].
  - unfold get_user_u64. destruct (check_user_range addr 8); cbn [negb]; [right|left; simpl; eauto].
    split; [done|]. exists (mem m). split; [done|]. change (mem (enter c m)) with (mem m).
    pose proof (read_bytes_mapped (mem m) addr 8). destruct (read_bytes (mem m) addr 8); [left; eauto|right; left; eauto].
  - unfold put_user_u64. destruct (check_user_range addr 8); cbn [negb]; [right|left; simpl; eauto].
    split; [done|]. exists (write_bytes (mem m) addr (le_bytes 8 val)).1.
    split; [intros x Hx; apply write_bytes_outside; by rewrite length_le_bytes|].
    pose proof (write_bytes_unmapped (mem m) addr (le_bytes 8 val)) as Hw. rewrite length_le_bytes in Hw.
    cbn [enter mem]. change (mem (enter c m)) with (mem m).
    destruct (write_bytes (mem m) addr (le_bytes 8 val)) as [mem' []]; [left; eauto|right; left; eauto].
  - unfold copy_cstr_from_user. destruct (check_user_range ptr 1); cbn [negb]; [right|left; simpl; eauto].
    split; [done|]. exists (mem m). split; [done|]. change (mem (enter c m)) with (mem m).
    pose proof (cstr_loop_cases (mem m) ptr CSTR_MAX) as Hc. change (Pos.to_nat 4095) with CSTR_MAX.
    destruct (cstr_loop (mem m) ptr CSTR_MAX); [left; eauto|right; left; eauto|right; right].
    split_and!; [done| |by eexists|done]. unfold gpf_handler. simpl. by destruct (running m).
Qed.

(** C39: Whatever pointer, length or string a user passes: a copy whose bytes are all
    mapped, and below the end of user space for a string, returns; memory changes only
    inside the range of the copy, and only when that range lies in user space; a call
    that returns leaves the safe-copy window closed when it was closed, and one stopped
    by a page fault does too. Only a string read that runs past the end of user space
    can panic the kernel, when no task is seen running; every other fault ends in
    [exit_current], which deadlocks on the lock of the scheduler. *)
Theorem user_access_safe c op m :
  op_typed op →
  let lo := (op_range op).1 in
  ((∀ x, lo ≤ x < lo + op_reach op → is_Some (mem m !! x)) → lo + op_reach op ≤ USER_SPACE_MAX →
     ∃ r m', run_user_op c op m = Returns r m') ∧
  (∀ m', final (run_user_op c op m) = Some m' → ∀ x, mem m' !! x ≠ mem m !! x →
     lo ≤ x < lo + (op_range op).2 ∧ 0 < x < USER_SPACE_MAX) ∧
  (∀ r m', run_user_op c op m = Returns r m' → window_closed c (cpus m) → window_closed c (cpus m')) ∧
  (∀ m', run_user_op c op m = Deadlocks m' → lo + op_reach op ≤ USER_SPACE_MAX → window_closed c (cpus m')) ∧
  (run_user_op c op m = KernelPanic → (∃ ptr, op = OpCstr ptr) ∧ USER_SPACE_MAX < lo + op_reach op ∧ running m = None).
Proof.
  intros Hty lo. unfold op_typed in Hty. pose proof (run_user_op_cases c op m) as Hcases.
  assert (0 ≤ (op_range op).2) as Hlen by (destruct op; simpl; lia). subst lo.
  destruct (op_range op) as [lo len]. simpl in *.
  destruct Hcases as [(_ & er & ->)|(Hr & mem' & Hmem & Hrun)].
  { split_and!; [by eauto|intros ? [= <-] x Hx; by destruct Hx|by intros ? ? [= <- <-]|done|done]. }
  apply check_user_range_spec in Hr as [Hlo Hhi]; [|lia..].
  assert (∀ x, mem' !! x ≠ mem m !! x → lo ≤ x < lo + len ∧ 0 < x < USER_SPACE_MAX) as Hout.
  { intros x Hx. destruct (decide (lo ≤ x < lo + len)); [lia|]. by destruct Hx; apply Hmem. }
  destruct Hrun as [[v ->]|[[-> (x & Hx & Hxm)]|(-> & -> & Hop & Hend)]].
  - split_and!; [by eauto|by intros ? [= <-]|intros ? ? [= <- <-] _; apply clear_window_closed|done|done].
  - split_and!; [intros Hall; destruct (Hall x Hx) as [? Hy]; congruence|by intros ? [= <-]|done| |done].
    intros ? [= <-] _. apply clear_window_closed.
  - unfold gpf_handler. change (running (enter c m)) with (running m). destruct (running m) eqn:Hrn; cbn.
    + split_and!; [lia|intros ? [= <-] x Hx; by destruct Hx|done|lia|done].
    + split_and!; [lia|done|done|done|done].
Qed.

(** What the caller sees of an outcome. *)
Definition observe {A} (o : outcome A) : option (option A) :=
  match o with Returns a _ => Some (Some a) | Deadlocks _ => Some None | KernelPanic => None end.

(** The two memories have the same user space. *)
Definition same_user (m m' : Machine) : Prop :=
  cpus m = cpus m' ∧ ∀ x, 0 < x < USER_SPACE_MAX → mem m !! x = mem m' !! x.

(** A fixed-size copy depends on user memory only: nothing of the kernel's
    memory, whatever the pointer, can show in what it returns. *)
Lemma copies_ignore_kernel_memory c op m m' :
  op_typed op → (∀ ptr, op ≠ OpCstr ptr) → same_user m m' →
  observe (run_user_op c op m) = observe (run_user_op c op m').
Proof.
  intros Hty Hcstr [Hcpu Hmem]. unfold op_typed in Hty.
  assert (∀ lo len, 0 ≤ lo → 0 ≤ len → check_user_range lo len = true →
    ∀ x, lo ≤ x < lo + len → mem m !! x = mem m' !! x) as Hext.
  { intros lo len Hlo Hlen Hr x Hx. apply check_user_range_spec in Hr; [|done..]. apply Hmem. lia. }
  destruct op as [len src|dst data|addr|addr val|ptr]; simpl in *; [| | | |by destruct (Hcstr ptr)].
  - unfold copy_from_user. destruct (check_user_range src (Z.of_nat len)) eqn:Hr; simpl; [|done].
    rewrite (read_bytes_ext (mem m) (mem m') src len); [by destruct (read_bytes _ _ _)|].
    apply (Hext src (Z.of_nat len)); [lia|lia|done].
  - unfold copy_to_user. destruct (check_user_range dst (Z.of_nat (length data))) eqn:Hr; simpl; [|done].
    assert ((write_bytes (mem m) dst data).2 = (write_bytes (mem m') dst data).2) as Hok
      by (apply write_bytes_ok_ext, Hext; [lia|lia|done]).
    by destruct (write_bytes (mem m) dst data) as [? []], (write_bytes (mem m') dst data) as [? []].
  - unfold get_user_u64. destruct (check_user_range addr 8) eqn:Hr; cbn [negb]; [|done].
    change (mem (enter c m)) with (mem m). change (mem (enter c m')) with (mem m').
    rewrite (read_bytes_ext (mem m) (mem m') addr 8); [by destruct (read_bytes _ _ _)|].
    apply (Hext addr 8); [lia|lia|done].
  - unfold put_user_u64. destruct (check_user_range addr 8) eqn:Hr; cbn [negb]; [|done].
    change (mem (enter c m)) with (mem m). change (mem (enter c m')) with (mem m').
    assert ((write_bytes (mem m) addr (le_bytes 8 val)).2 = (write_bytes (mem m') addr (le_bytes 8 val)).2)
      as Hok by (apply write_bytes_ok_ext; rewrite length_le_bytes; apply (Hext addr 8); [lia|lia|done]).
    by destruct (write_bytes (mem m) addr (le_bytes 8 val)) as [? []],
      (write_bytes (mem m') addr (le_bytes 8 val)) as [? []].
Qed.

Lemma write_bytes_mapped m a l :
  (∀ x, a ≤ x < a + Z.of_nat (length l) → is_Some (m !! x)) → (write_bytes m a l).2 = true.
Proof.
  revert m a. induction l as [|b l IH]; intros m a Hm; simpl in *; [done|].
  destruct (Hm a) as [y ->]; [lia|]. apply IH. intros x Hx.
  rewrite lookup_insert_is_Some'. right. apply Hm. lia.
Qed.

Lemma copy_to_user_mapped c dst data m :
  0 < dst → dst + Z.of_nat (length data) ≤ USER_SPACE_MAX → dst < USER_SPACE_MAX →
  (∀ x, dst ≤ x < dst + Z.of_nat (length data) → is_Some (mem m !! x)) →
  ∃ m', copy_to_user c dst data m = Returns (Ok (Z.of_nat (length data))) m' ∧
    write_bytes (mem m) dst data = (mem m', true).
Proof.
  intros Hd Hhi Hlt Hm. unfold copy_to_user.
  rewrite (proj2 (check_user_range_spec dst (Z.of_nat (length data)) ltac:(lia) ltac:(lia))) by lia.
  cbn [negb]. change (mem (enter c m)) with (mem m). pose proof (write_bytes_mapped _ _ _ Hm) as Hok.
  destruct (write_bytes (mem m) dst data) as [mem' ok]. simpl in Hok. subst ok. by eexists.
Qed.

(** Round trip: data copied out to mapped user memory is what a copy back in
    returns, and a word stored with [put_user_u64] is the one [get_user_u64] loads. *)
Lemma user_copy_roundtrip c dst data val m :
  0 < dst → dst + Z.max 8 (Z.of_nat (length data)) ≤ USER_SPACE_MAX → u64_ok val →
  (∀ x, dst ≤ x < dst + Z.max 8 (Z.of_nat (length data)) → is_Some (mem m !! x)) →
  (∃ m' m'', copy_to_user c dst data m = Returns (Ok (Z.of_nat (length data))) m' ∧
     copy_from_user c (length data) dst m' = Returns (Ok data) m'' ∧ mem m'' = mem m') ∧
  (∃ m' m'', put_user_u64 c dst val m = Returns (Ok tt) m' ∧ get_user_u64 c dst m' = Returns (Ok val) m'').
Proof.
  intros Hd Hhi Hval Hm. split.
  - destruct (copy_to_user_mapped c dst data m) as (m' & Hto & Hw); [lia|lia|lia|intros x Hx; apply Hm; lia|].
    exists m'. unfold copy_from_user.
    rewrite (proj2 (check_user_range_spec dst (Z.of_nat (length data)) ltac:(lia) ltac:(lia))) by lia.
    cbn [negb]. change (mem (enter c m')) with (mem m'). rewrite (read_write_bytes _ _ _ _ Hw). by eexists.
  - unfold put_user_u64, get_user_u64.
    rewrite (proj2 (check_user_range_spec dst 8 ltac:(lia) ltac:(lia))) by lia. cbn [negb].
    change (mem (enter c m)) with (mem m).
    pose proof (write_bytes_mapped (mem m) dst (le_bytes 8 val)) as Hok. rewrite length_le_bytes in Hok.
    destruct (write_bytes (mem m) dst (le_bytes 8 val)) as [mem' ok] eqn:Hw.
    simpl in Hok. rewrite Hok in Hw |- * by (intros x Hx; apply Hm; lia). do 2 eexists. split; [done|].
    apply read_write_bytes in Hw. rewrite length_le_bytes in Hw.
    cbn [mem]. change (read_bytes _ dst 8) with (read_bytes mem' dst 8). rewrite Hw.
    rewrite le_value_bytes; [done|]. unfold u64_ok, U64_MAX in Hval. lia.
Qed.

(** ** Strings *)

Lemma cstr_loop_spec m ptr l n :
  (∀ i b, l !! i = Some b → 0 < b < 128 ∧ m !! (ptr + Z.of_nat i) = Some b) →
  m !! (ptr + Z.of_nat (length l)) = Some 0 → (length l < n)%nat → ptr + Z.of_nat (length l) < USER_SPACE_MAX →
  cstr_loop m ptr n = CstrBytes l.
Proof.
  revert ptr n. induction l as [|b l IH]; intros ptr [|n] Hl Hend Hn Hmax; cbn [cstr_loop length] in *; try lia;
    (destruct (Z.leb_spec USER_SPACE_MAX ptr); [lia|]).
  { rewrite Z.add_0_r in Hend. by rewrite Hend. }
  destruct (Hl 0%nat b) as [Hb Hm]; [done|]. rewrite Z.add_0_r in Hm. rewrite Hm.
  destruct (Z.eqb_spec b 0); [lia|]. destruct (Z.ltb_spec b 128); [|lia].
  rewrite (IH (ptr + 1) n); [done| | |lia|lia].
  - intros i x Hx. destruct (Hl (S i) x Hx) as [? Hm']. split; [done|]. rewrite <-Hm'. f_equal. lia.
  - rewrite <-Hend. f_equal. lia.
Qed.

(** [copy_cstr_from_user] returns exactly the ASCII string at the pointer when
    it ends with a NUL within 4095 bytes and in user space. *)
Lemma copy_cstr_exact c ptr l m :
  0 < ptr → ptr + Z.of_nat (length l) < USER_SPACE_MAX →
  (∀ i b, l !! i = Some b → 0 < b < 128 ∧ mem m !! (ptr + Z.of_nat i) = Some b) →
  mem m !! (ptr + Z.of_nat (length l)) = Some 0 → (length l < 4095)%nat →
  ∃ m', copy_cstr_from_user c ptr m = Returns (Ok l) m' ∧ mem m' = mem m.
Proof.
  intros Hp Hmax Hl Hend Hn. unfold copy_cstr_from_user.
  rewrite (proj2 (check_user_range_spec ptr 1 ltac:(lia) ltac:(lia))) by lia.
  cbn [negb]. change (mem (enter c m)) with (mem m). unfold CSTR_MAX.
  rewrite (cstr_loop_spec (mem m) ptr l _ Hl Hend Hn Hmax). by eexists.
Qed.

Definition no_cpus : Cpus := mkCpus false ∅ ∅.

(** Only the first byte of a string is checked against the user range. A string that
    runs up to the end of user space is read beyond it, which raises a general
    protection fault and not the page fault the window is there for: its handler
    leaves the window open, and panics when it cannot see a running task. *)
Lemma cstr_reads_past_user_space :
  let m := mkMachine no_cpus {[ USER_SPACE_MAX - 1 := 65 ]} in
  run_user_op 0 (OpCstr (USER_SPACE_MAX - 1)) (m None) = KernelPanic ∧
  match run_user_op 0 (OpCstr (USER_SPACE_MAX - 1)) (m (Some 1)) with
  | Deadlocks m' => IS_SAFE_COPY (cpus m') = true
  | _ => False
  end.
Proof. by vm_compute. Qed.

(** ** Several CPUs *)

(** The flags, and the CPUs that are inside a copy. *)
Record smp := mkSmp { smp_cpus : Cpus; inside : gset nat }.

Definition init_percpu (c : nat) (s : Cpus) : Cpus := s <| in_safe_copy := <[c := 0]> (in_safe_copy s) |>.

Inductive smp_step (s : smp) : smp → Prop :=
| smp_enter c :
    c ∉ inside s →
    smp_step s (mkSmp (ScopedUserAccess_new c (smp_cpus s)) ({[c]} ∪ inside s))
| smp_leave c :
    c ∈ inside s →
    smp_step s (mkSmp (ScopedUserAccess_drop c (smp_cpus s)) (inside s ∖ {[c]}))
| smp_fault c mem t m' :
    c ∈ inside s → kernel_page_fault (A := unit) c (mkMachine (smp_cpus s) mem t) = Deadlocks m' →
    smp_step s (mkSmp (cpus m') (inside s ∖ {[c]}))
| smp_init c :
    c ∉ inside s →
    smp_step s (mkSmp (init_percpu c (smp_cpus s)) (inside s)).

Definition smp_start : smp := mkSmp no_cpus ∅.

(** The per-CPU flag of every set-up CPU inside a copy is up. *)
Definition smp_inv (s : smp) : Prop :=
  ∀ c v, c ∈ inside s → in_safe_copy (smp_cpus s) !! c = Some v → v ≠ 0.

Lemma clear_window_other c s c' v :
  c' ≠ c → in_safe_copy (clear_safe_copy_window c s) !! c' = Some v → in_safe_copy s !! c' = Some v.
Proof.
  intros Hne. unfold clear_safe_copy_window, set_safe_copy.
  destruct (in_safe_copy s !! c); simpl; [by rewrite lookup_insert_ne|done].
Qed.

Lemma smp_step_inv s s' : smp_inv s → smp_step s s' → smp_inv s'.
Proof.
  intros Hinv [c Hc|c Hc|c mem t m' Hc Hf|c Hc]; intros c' v; simpl.
  - unfold ScopedUserAccess_new, stac, set_safe_copy_window, set_safe_copy. simpl.
    intros Hin. destruct (in_safe_copy (smp_cpus s) !! c) eqn:Hs; simpl.
    + rewrite lookup_insert_Some. intros [[_ <-]|[Hne Hv]]; [done|]. apply (Hinv c'); [set_solver|done].
    + intros Hv. apply (Hinv c'); [|done]. destruct (decide (c' = c)) as [->|]; [congruence|set_solver].
  - intros [Hin Hne]%elem_of_difference Hv. apply (Hinv c'); [done|].
    apply clear_window_other in Hv; [done|set_solver].
  - intros [Hin Hne]%elem_of_difference Hv. apply (Hinv c'); [done|].
    unfold kernel_page_fault in Hf. destruct (_ || _); [|done]. injection Hf as <-.
    apply clear_window_other in Hv; [done|set_solver].
  - intros Hin. rewrite lookup_insert_ne by congruence. by apply Hinv.
Qed.

(** With any interleaving of copies, faults and CPU start-ups, a fault in a
    copy on a CPU that is set up is recognised as one and never panics the kernel,
    whatever the other CPUs have done to the global flag. *)
Lemma smp_copy_faults_recognised s c mem t :
  rtc smp_step smp_start s → c ∈ inside s → is_Some (in_safe_copy (smp_cpus s) !! c) →
  ∃ m', kernel_page_fault (A := unit) c (mkMachine (smp_cpus s) mem t) = Deadlocks m'.
Proof.
  intros Hrun Hin [v Hv]. assert (smp_inv s) as Hinv.
  { refine (rtc_ind_r (R := smp_step) smp_inv smp_start _ _ s Hrun); [by intros ? ?|].
    intros y z _ Hstep Hy. by eapply smp_step_inv. }
  unfold kernel_page_fault, is_safe_copy. simpl. rewrite Hv.
  destruct (Z.eqb_spec v 0) as [->|]; [by destruct (Hinv c 0)|]. rewrite orb_true_r. by eexists.
Qed.

(** The global flag alone does not protect a CPU that is not set up yet, and
    does reach CPUs that are not copying. (1) CPUs 0 and 1 copy before their GS
    base is set up; when 0 is done, a fault in 1's copy panics the kernel. (2)
    CPU 0, set up, copies; a fault of a kernel bug on CPU 1, outside any copy, is
    taken for a bad user pointer. *)
Lemma global_flag_interference :
  let two := ScopedUserAccess_drop 0 (ScopedUserAccess_new 1 (ScopedUserAccess_new 0 no_cpus)) in
  rtc smp_step smp_start (mkSmp two {[1%nat]}) ∧
  kernel_page_fault (A := unit) 1 (mkMachine two ∅ None) = KernelPanic ∧
  let one := ScopedUserAccess_new 0 (init_percpu 1 (init_percpu 0 no_cpus)) in
  rtc smp_step smp_start (mkSmp one {[0%nat]}) ∧
  is_Some (final (kernel_page_fault (A := unit) 1 (mkMachine one ∅ None))).
Proof.
  cbv zeta. split_and!.
  - eapply rtc_l; [apply (smp_enter _ 0); set_solver|].
    eapply rtc_l; [apply (smp_enter _ 1); simpl; set_solver|].
    eapply rtc_l; [apply (smp_leave _ 0); simpl; set_solver|]. simpl.
    replace (({[1%nat]} ∪ ({[0%nat]} ∪ ∅)) ∖ {[0%nat]}) with ({[1%nat]} : gset nat) by (vm_compute; done).
    apply rtc_refl.
  - by vm_compute.
  - eapply rtc_l; [apply (smp_init _ 0); set_solver|]. eapply rtc_l; [apply (smp_init _ 1); set_solver|].
    eapply rtc_l; [apply (smp_enter _ 0); simpl; set_solver|]. simpl.
    replace ({[0%nat]} ∪ ∅) with ({[0%nat]} : gset nat) by set_solver. apply rtc_refl.
  - vm_compute. by eexists.
Qed.

(** ** Witnesses *)

Definition ex_machine : Machine :=
  mkMachine no_cpus {[ 100 := 104; 101 := 105; 102 := 0; 103 := 0; 104 := 0; 105 := 0; 106 := 0; 107 := 0 ]} (Some 1).

Lemma ex_mapped x : 100 ≤ x < 108 → is_Some (mem ex_machine !! x).
Proof.
  intros Hx. assert (∃ i : nat, x = 100 + Z.of_nat i ∧ (i < 8)%nat) as (i & -> & Hi)
    by (exists (Z.to_nat (x - 100)); lia).
  do 8 (destruct i as [|i]; [by eexists|]). lia.
Qed.

Lemma user_access_safe_witness :
  (∃ r m', run_user_op 0 (OpTo 104 [1; 2; 3]) ex_machine = Returns r m') ∧
  (∀ m', final (run_user_op 0 (OpTo 106 [1; 2; 3]) ex_machine) = Some m' →
     ∀ x, mem m' !! x ≠ mem ex_machine !! x → 106 ≤ x < 106 + 3 ∧ 0 < x < USER_SPACE_MAX).
Proof.
  split.
  - apply (user_access_safe 0 (OpTo 104 [1; 2; 3]) ex_machine); [vm_compute; split; discriminate| |vm_compute; discriminate].
    intros x Hx. apply ex_mapped. cbn in Hx. lia.
  - apply (user_access_safe 0 (OpTo 106 [1; 2; 3]) ex_machine). vm_compute. split; discriminate.
Defined.

Lemma copies_ignore_kernel_memory_witness :
  observe (run_user_op 0 (OpFrom 3 100) ex_machine) =
  observe (run_user_op 0 (OpFrom 3 100) (ex_machine <| mem := <[USER_SPACE_MAX := 7]> (mem ex_machine) |>)).
Proof.
  apply (copies_ignore_kernel_memory 0 (OpFrom 3 100)).
  - vm_compute. split; discriminate.
  - discriminate.
  - split; [done|]. intros x Hx. cbn [mem set_field]. symmetry. apply lookup_insert_ne. lia.
Defined.

Lemma user_copy_roundtrip_witness :
  (∃ m' m'', copy_to_user 0 100 [7; 8; 9] ex_machine = Returns (Ok 3) m' ∧
     copy_from_user 0 3 100 m' = Returns (Ok [7; 8; 9]) m'' ∧ mem m'' = mem m') ∧
  (∃ m' m'', put_user_u64 0 100 77 ex_machine = Returns (Ok tt) m' ∧
     get_user_u64 0 100 m' = Returns (Ok 77) m'').
Proof.
  apply (user_copy_roundtrip 0 100 [7; 8; 9] 77 ex_machine).
  - lia.
  - vm_compute. discriminate.
  - vm_compute. split; discriminate.
  - intros x Hx. apply ex_mapped. simpl in Hx. lia.
Defined.

Lemma copy_cstr_exact_witness :
  ∃ m', copy_cstr_from_user 0 100 ex_machine = Returns (Ok [104; 105]) m' ∧ mem m' = mem ex_machine.
Proof.
  apply (copy_cstr_exact 0 100 [104; 105] ex_machine).
  - lia.
  - vm_compute. reflexivity.
  - intros [|[|i]] b; simpl; [intros [= <-]; split; [lia|done]..|done].
  - reflexivity.
  - simpl. lia.
Defined.

Lemma smp_copy_faults_recognised_witness :
  ∃ m', kernel_page_fault (A := unit) 0
          (mkMachine (ScopedUserAccess_new 0 (init_percpu 0 no_cpus)) ∅ None) = Deadlocks m'.
Proof.
  apply (smp_copy_faults_recognised
           (mkSmp (ScopedUserAccess_new 0 (init_percpu 0 no_cpus)) ({[0%nat]} ∪ ∅)) 0 ∅ None).
  - eapply rtc_l; [apply (smp_init _ 0); set_solver|].
    eapply rtc_l; [apply (smp_enter _ 0); simpl; set_solver|apply rtc_refl].
  - simpl. set_solver.
  - vm_compute. by eexists.
Defined.
