(* ===== verification/KernelBridge.v ===== *)
(** * The kernel's side of consensus ([src/src/consensus/engine.rs], from
    [KernelCommitCert] on, and [src/src/consensus/mod.rs]).

    Syscall 400 ([advance_tick]) advances the kernel's height on a certificate
    that userspace passes by pointer; the counters of [KernelConsensusState] are
    the view the rest of the kernel has. [advance_tick] uses the global engine as
    an [Engine] with a state and a validator set, and so does the model. The
    certificate is read twice from user memory, which other threads of the user
    may change in between: [between] is what they do. [ionafs::write] is the list
    of files written, the clock an argument. *)

From Stdlib Require Import ZArith Lia Bool Ascii String.
From stdpp Require Import base gmap sets list strings pretty.
From S2P Require Import Prelude Types ValidatorSet Quorum Slashing Engine UserAccess.

Local Open Scope Z_scope.

(** ** Certificates *)

Record KernelCommitCert := mkKernelCommitCert {
  kc_height : Z;
  kc_vote_count : Z;
  kc_quorum : Z;
  kc_votes_hash : Hash32;
  kc_valset_hash : Hash32;
}.

(** [size_of::<KernelCommitCert>()]: 8 + 4 + 4 + 32 + 32. *)
Definition CERT_SIZE : nat := 80.

(** The fields at their offsets, little endian: [read_unaligned] of the buffer. *)
Definition cert_of_bytes (l : bytes) : KernelCommitCert :=
  {| kc_height := le_value (take 8 l);
     kc_vote_count := le_value (take 4 (drop 8 l));
     kc_quorum := le_value (take 4 (drop 12 l));
     kc_votes_hash := take 32 (drop 16 l);
     kc_valset_hash := take 32 (drop 48 l) |}.

Definition cert_to_bytes (c : KernelCommitCert) : bytes :=
  le_bytes 8 (kc_height c) ++ le_bytes 4 (kc_vote_count c) ++ le_bytes 4 (kc_quorum c) ++
  kc_votes_hash c ++ kc_valset_hash c.

Definition load_commit_cert (c : nat) (ptr : Z) (m : Machine) : outcome (option KernelCommitCert) :=
  if ptr =? 0 then Returns None m
  else if negb (check_user_range ptr (Z.of_nat CERT_SIZE)) then Returns None m
  else
    match copy_from_user c CERT_SIZE ptr m with
    | Returns (Ok buf) m' => Returns (Some (cert_of_bytes buf)) m'
    | Returns (Err _) m' => Returns None m'
    | Deadlocks m' => Deadlocks m'
    | KernelPanic => KernelPanic
    end.

Definition verify_commit_cert (cert : KernelCommitCert) (expected_height : Z) : bool :=
  if negb (kc_height cert =? expected_height) then false
  else if kc_quorum cert =? 0 then false
  else kc_quorum cert <=? kc_vote_count cert.

(** ** Block files *)

Local Open Scope string_scope.

Definition hex_digit (d : Z) : string :=
  match String.get (Z.to_nat d) "0123456789abcdef" with
  | Some a => String a EmptyString
  | None => EmptyString
  end.

(** The last [n] hexadecimal digits of [z]. *)
Fixpoint hex_digits (n : nat) (z : Z) : string :=
  match n with
  | O => EmptyString
  | S n' => hex_digits n' (z `div` 16)%Z ++ hex_digit (z `mod` 16)%Z
  end.

Fixpoint zeros (n : nat) : string :=
  match n with O => EmptyString | S n' => String "0" (zeros n') end.

(** [{:0w}]. *)
Definition pad_left (w : nat) (s : string) : string := zeros (w - String.length s) ++ s.

Definition quoted (s : string) : string := String (ascii_of_nat 34) (s ++ String (ascii_of_nat 34) EmptyString).

Definition block_path (height : Z) : string := "/var/iona-node/blocks/" ++ pad_left 10 (pretty height).

(** [{:04x}] of a value below [0xFFFF] is its last four digits. *)
Definition block_data (height ts validator_id cert_votes : Z) : string :=
  "{" ++ quoted "h" ++ ":" ++ pretty height ++ "," ++ quoted "ts" ++ ":" ++ pretty ts ++ "," ++
  quoted "val" ++ ":" ++ pretty validator_id ++ "," ++ quoted "votes" ++ ":" ++ pretty cert_votes ++ "," ++
  quoted "hash" ++ ":" ++
  quoted ("0x" ++ hex_digits 4 (mul64 height 1009 `mod` 0xFFFF)%Z ++
          hex_digits 4 (mul64 height 7919 `mod` 0xFFFF)%Z) ++ "}".

Definition persist_committed_block (uptime_ms height validator_id cert_votes : Z) : string * string :=
  (block_path height, block_data height uptime_ms validator_id cert_votes).

Local Close Scope string_scope.

(** ** Syscall 400 *)

Record Kernel (St : Type) := mkKernel {
  engine : option (Engine St);
  machine : Machine;
  files : list (string * string);
}.
Arguments mkKernel {St}.
Arguments engine {St}.
Arguments machine {St}.
Arguments files {St}.

#[export] Instance eta_Kernel {St} : Settable (Kernel St) := λ k, mkKernel (engine k) (machine k) (files k).

(** How the syscall ends: its return value, or the end of the calling task. *)
Inductive tick_end (St : Type) :=
| Ticked (ret : Z) (k : Kernel St)
| TickDeadlocks (k : Kernel St)
| TickPanic.
Arguments Ticked {St} ret k.
Arguments TickDeadlocks {St} k.
Arguments TickPanic {St}.

Section tick.
Context {St : Type} (cpu : nat) (uptime_ms : Z) (between : Machine → Machine).

Definition set_height_round (h r : Z) (e : Engine St) : Engine St :=
  e <| state := (state e) <| Engine.height := h |> <| Engine.round := r |> |>.

(** The commit at the end: [cert_votes] goes into the block file. *)
Definition commit_height (e : Engine St) (cert_votes : Z) (k : Kernel St) : tick_end St :=
  let h := Engine.height (state e) in
  Ticked h (k <| engine := Some (set_height_round (sat_add64 h 1) 0 e) |>
              <| files := files k ++ [persist_committed_block uptime_ms h 0 cert_votes] |>).

Definition advance_tick (height round step cert_ptr : Z) (k : Kernel St) : tick_end St :=
  match engine k with
  | None => Ticked 0 k
  | Some e =>
    if negb (height =? Engine.height (state e)) then Ticked 0 k else
    let e := e <| state := (state e) <| Engine.round := wrap32 round |> |> in
    let k := k <| engine := Some e |> in
    if negb (step =? 3) then Ticked 0 k else
    let total := vs_total_power (vset e) in
    if total =? 0 then Ticked 0 k else
    if cert_ptr =? 0 then
      if wrap32 (quorum_threshold total) <=? wrap32 total
      then commit_height e (wrap32 total) k else Ticked 0 k
    else
      match load_commit_cert cpu cert_ptr (machine k) with
      | Deadlocks m => TickDeadlocks (k <| machine := m |>)
      | KernelPanic => TickPanic
      | Returns None m => Ticked 0 (k <| machine := m |>)
      | Returns (Some cert) m =>
        let k := k <| machine := m |> in
        if negb (verify_commit_cert cert height) then Ticked 0 k else
        match load_commit_cert cpu cert_ptr (between m) with
        | Deadlocks m => TickDeadlocks (k <| machine := m |>)
        | KernelPanic => TickPanic
        | Returns again m =>
          commit_height e (default (wrap32 total) (kc_vote_count <$> again)) (k <| machine := m |>)
        end
      end
  end.
End tick.

(** ** The counters *)

Record KernelConsensusState := mkKernelConsensusState {
  ks_height : Z;
  ks_round : Z;
  ks_peers : Z;
  ks_validator_id : Z;
  ks_fast_quorum : bool;
}.

#[export] Instance eta_KernelConsensusState : Settable KernelConsensusState :=
  λ s, mkKernelConsensusState (ks_height s) (ks_round s) (ks_peers s) (ks_validator_id s) (ks_fast_quorum s).

Definition KernelConsensusState_default : KernelConsensusState := mkKernelConsensusState 1 0 0 0 true.

(** [fetch_add] wraps; only the value handed back saturates. *)
Definition increment_height (s : KernelConsensusState) : Z * KernelConsensusState :=
  (sat_add64 (ks_height s) 1, s <| ks_height := add64 (ks_height s) 1 |>).

Definition reset_round (s : KernelConsensusState) : KernelConsensusState := s <| ks_round := 0 |>.
Definition set_round (r : Z) (s : KernelConsensusState) : KernelConsensusState := s <| ks_round := r |>.
Definition set_peers (n : Z) (s : KernelConsensusState) : KernelConsensusState := s <| ks_peers := n |>.
Definition set_validator_id (id : Z) (s : KernelConsensusState) : KernelConsensusState :=
  s <| ks_validator_id := id |>.

(** The operations of the module, on the global [Option<KernelConsensusState>]. *)
Definition kernel_commit_block (g : option KernelConsensusState) : Z * option KernelConsensusState :=
  match g with
  | Some s => let '(h, s) := increment_height s in (h, Some (reset_round s))
  | None => (0, None)
  end.

Definition init_kernel_engine (validator_id : Z) (g : option KernelConsensusState) :
    option KernelConsensusState := option_map (set_validator_id validator_id) g.

Definition update_peer_count (count : Z) (g : option KernelConsensusState) :
    option KernelConsensusState := option_map (set_peers count) g.

Definition current_height (g : option KernelConsensusState) : Z := default 0 (ks_height <$> g).
Definition current_round (g : option KernelConsensusState) : Z := default 0 (ks_round <$> g).

(** A thread in [set_height]: before the load, in the loop with the value it last
    saw, or done. *)
Inductive set_height_pc :=
| ShStart (h : Z)
| ShLoop (h cur : Z)
| ShDone (h : Z).

(** One atomic step of a thread on the shared height. [compare_exchange_weak] may
    fail without reason. *)
Inductive sh_step : Z * set_height_pc → Z * set_height_pc → Prop :=
| sh_load H h : sh_step (H, ShStart h) (H, ShLoop h H)
| sh_exit H h cur : h ≤ cur → sh_step (H, ShLoop h cur) (H, ShDone h)
| sh_cas_ok h cur : cur < h → sh_step (cur, ShLoop h cur) (h, ShDone h)
| sh_cas_fail H h cur : cur < h → sh_step (H, ShLoop h cur) (H, ShLoop h H).

(** Any number of threads, interleaved. *)
Inductive shs_step : Z * list set_height_pc → Z * list set_height_pc → Prop :=
| shs H H' l i p p' :
    l !! i = Some p → sh_step (H, p) (H', p') → shs_step (H, l) (H', <[i := p']> l).

(** ** Facts on certificates *)

Definition cert_typed (c : KernelCommitCert) : Prop :=
  u64_ok (kc_height c) ∧ u32_ok (kc_vote_count c) ∧ u32_ok (kc_quorum c) ∧
  length (kc_votes_hash c) = 32%nat ∧ length (kc_valset_hash c) = 32%nat.

Lemma length_cert_to_bytes c : cert_typed c → length (cert_to_bytes c) = CERT_SIZE.
Proof.
  intros (_ & _ & _ & Hv & Hs). unfold cert_to_bytes.
  by rewrite !length_app, !length_le_bytes, Hv, Hs.
Qed.

Lemma cert_of_to_bytes c : cert_typed c → cert_of_bytes (cert_to_bytes c) = c.
Proof.
  intros (Hh & Hn & Hq & Hv & Hs). destruct c as [h n q v s]. simpl in *.
  unfold cert_of_bytes, cert_to_bytes. cbn [kc_height kc_vote_count kc_quorum kc_votes_hash kc_valset_hash].
  pose proof (length_le_bytes 8 h) as H8. pose proof (length_le_bytes 4 n) as H4.
  pose proof (length_le_bytes 4 q) as H4'.
  f_equal.
  - rewrite take_app_length' by done. apply le_value_bytes. unfold u64_ok, U64_MAX in Hh. lia.
  - rewrite drop_app_length' by done. rewrite take_app_length' by done. apply le_value_bytes.
    unfold u32_ok, U32_MAX in Hn. lia.
  - change 12%nat with (8 + 4)%nat. rewrite <-drop_drop, drop_app_length', drop_app_length' by done.
    rewrite take_app_length' by done. apply le_value_bytes. unfold u32_ok, U32_MAX in Hq. lia.
  - change 16%nat with (8 + (4 + 4))%nat. rewrite <-!drop_drop, !drop_app_length' by done.
    by rewrite take_app_length'.
  - change 48%nat with (8 + (4 + (4 + 32)))%nat. rewrite <-!drop_drop, !drop_app_length' by done.
    rewrite take_ge by lia. done.
Qed.

Lemma load_commit_cert_never_panics c ptr m : load_commit_cert c ptr m ≠ KernelPanic.
Proof.
  unfold load_commit_cert, copy_from_user. destruct (ptr =? 0); [done|].
  destruct (check_user_range _ _); cbn [negb]; [|done].
  change (mem (enter c m)) with (mem m). by destruct (read_bytes _ _ _).
Qed.

(** A certificate in user memory is loaded as it is. *)
Lemma load_commit_cert_mapped c ptr m cert :
  check_user_range ptr (Z.of_nat CERT_SIZE) = true → cert_typed cert →
  read_bytes (mem m) ptr CERT_SIZE = Some (cert_to_bytes cert) →
  ∃ m', load_commit_cert c ptr m = Returns (Some cert) m' ∧ mem m' = mem m.
Proof.
  intros Hr Hty Hm. unfold load_commit_cert, copy_from_user.
  assert ((ptr =? 0) = false) as ->.
  { destruct (Z.eqb_spec ptr 0) as [->|]; [by vm_compute in Hr|done]. }
  rewrite Hr. cbn [negb]. change (mem (enter c m)) with (mem m). rewrite Hm, cert_of_to_bytes by done.
  by eexists.
Qed.

(** ** Syscall 400 *)

(** The tick committed height [h]: it went up by one (saturating), the round is 0,
    one block file was written, and nothing else of the engine changed. *)
Definition committed {St} (h : Z) (e : Engine St) (k k' : Kernel St) : Prop :=
  engine k' = Some (set_height_round (sat_add64 h 1) 0 e) ∧
  ∃ data, files k' = files k ++ [(block_path h, data)].

(** The tick changed at most the round. *)
Definition uncommitted {St} (e : Engine St) (k k' : Kernel St) : Prop :=
  files k' = files k ∧
  (engine k' = Some e ∨ ∃ r, engine k' = Some (set_height_round (Engine.height (state e)) r e)).

Section tick_facts.
Context {St : Type} (cpu : nat) (uptime_ms : Z) (between : Machine → Machine).
Implicit Types (k : Kernel St) (e : Engine St).

Lemma set_height_round_twice h r h' r' e :
  set_height_round h r (set_height_round h' r' e) = set_height_round h r e.
Proof. by destruct e as [? ? [] ? ? ? ? ? ? ?]. Qed.

Lemma advance_tick_cases height round step cert_ptr k e :
  engine k = Some e →
  match advance_tick cpu uptime_ms between height round step cert_ptr k with
  | Ticked ret k' =>
    ret = height ∧ height = Engine.height (state e) ∧ step = 3 ∧ committed height e k k' ∨
    ret = 0 ∧ uncommitted e k k'
  | TickDeadlocks k' => uncommitted e k k'
  | TickPanic => False
  end.
Proof.
  intros Hk. unfold advance_tick. rewrite Hk.
  destruct (Z.eqb_spec height (Engine.height (state e))) as [->|]; cbn [negb];
    [|right; split; [done|split; [done|by left]]].
  set (h := Engine.height (state e)). set (e1 := e <| state := _ |>).
  assert (e1 = set_height_round h (wrap32 round) e) as He1 by (by destruct e as [? ? [] ? ? ? ? ? ? ?]).
  assert (∀ m, uncommitted e k (k <| engine := Some e1 |> <| machine := m |>)) as Hun.
  { intros m. split; [done|right]. exists (wrap32 round). simpl. by rewrite He1. }
  assert (∀ votes m, committed h e k (k <| engine := Some (set_height_round (sat_add64 h 1) 0 e1) |>
    <| machine := m |> <| files := files k ++ [persist_committed_block uptime_ms h 0 votes] |>)) as Hco.
  { intros votes m. split; [simpl; by rewrite He1, set_height_round_twice|by eexists]. }
  destruct (Z.eqb_spec step 3) as [->|]; cbn [negb]; [|right; split; [done|apply (Hun (machine k))]].
  cbn zeta. destruct (_ =? 0); [right; split; [done|apply (Hun (machine k))]|].
  destruct (cert_ptr =? 0).
  { destruct (_ <=? _); [left; split_and!; [done..|apply (Hco _ (machine k))]|].
    right. split; [done|apply (Hun (machine k))]. }
  pose proof (load_commit_cert_never_panics cpu cert_ptr (machine k)) as Hp.
  change (machine (k <| engine := Some e1 |>)) with (machine k).
  destruct (load_commit_cert cpu cert_ptr (machine k)) as [[cert|] m|m|]; [| | |done].
  - destruct (verify_commit_cert cert h); cbn [negb]; [|right; split; [done|apply Hun]].
    pose proof (load_commit_cert_never_panics cpu cert_ptr (between m)) as Hp2.
    destruct (load_commit_cert cpu cert_ptr (between m)) as [again m2|m2|]; [|apply Hun|done].
    left. split_and!; [done..|]. apply Hco.
  - right. split; [done|apply Hun].
  - apply Hun.
Qed.

(** A tick never panics the kernel; it commits at most one height, the current
    one, and then moves on by exactly one and writes one block file for it; in
    every other case height, validator set, ledger and files stay as they are. *)
Lemma advance_tick_effect height round step cert_ptr k e :
  engine k = Some e →
  match advance_tick cpu uptime_ms between height round step cert_ptr k with
  | Ticked ret k' =>
    ret = height ∧ height = Engine.height (state e) ∧ step = 3 ∧ committed height e k k' ∨
    ret = 0 ∧ uncommitted e k k'
  | TickDeadlocks k' => uncommitted e k k'
  | TickPanic => False
  end.
Proof. apply advance_tick_cases. Qed.

(** With a null certificate pointer the tick commits: any caller can advance
    the chain without a certificate, as often as it likes, as long as the total
    power is positive and fits 32 bits. *)
Lemma null_certificate_commits round k e :
  engine k = Some e → 0 < vs_total_power (vset e) ≤ U32_MAX →
  ∃ k', advance_tick cpu uptime_ms between (Engine.height (state e)) round 3 0 k =
          Ticked (Engine.height (state e)) k' ∧ committed (Engine.height (state e)) e k k'.
Proof.
  intros Hk Ht.
  pose proof (advance_tick_cases (Engine.height (state e)) round 3 0 k e Hk) as Heff.
  unfold advance_tick in Heff |- *. rewrite Hk in Heff |- *. rewrite Z.eqb_refl in Heff |- *.
  cbn [negb] in Heff |- *. change (vset (e <| state := _ |>)) with (vset e) in Heff |- *.
  destruct (Z.eqb_spec (vs_total_power (vset e)) 0); [lia|].
  assert ((wrap32 (quorum_threshold (vs_total_power (vset e))) <=? wrap32 (vs_total_power (vset e))) = true)
    as Hq.
  { apply Z.leb_le. unfold U32_MAX in Ht.
    pose proof (quorum_threshold_bounds (vs_total_power (vset e)) ltac:(lia)) as Hb.
    rewrite !wrap32_small; mach. }
  rewrite Hq in Heff |- *. unfold commit_height in *. eexists. split; [done|].
  destruct Heff as [(_ & _ & _ & Hc)|[_ [Hf _]]]; [exact Hc|]. exfalso. simpl in Hf.
  apply (f_equal length) in Hf. rewrite length_app in Hf. simpl in Hf. lia.
Qed.

(** A certificate is taken at its word: user memory holding the current height,
    a quorum of the caller's choosing and at least as many votes is accepted,
    whatever the validator set's power and threshold are. *)
Lemma forged_certificate_commits round ptr cert k e :
  engine k = Some e → vs_total_power (vset e) ≠ 0 → cert_typed cert →
  kc_height cert = Engine.height (state e) → 0 < kc_quorum cert ≤ kc_vote_count cert →
  check_user_range ptr (Z.of_nat CERT_SIZE) = true →
  read_bytes (mem (machine k)) ptr CERT_SIZE = Some (cert_to_bytes cert) →
  (∀ m, mem (between m) = mem m) →
  ∃ k', advance_tick cpu uptime_ms between (Engine.height (state e)) round 3 ptr k =
          Ticked (Engine.height (state e)) k' ∧ committed (Engine.height (state e)) e k k'.
Proof.
  intros Hk Ht Hty Hh Hq Hr Hm Hbt.
  pose proof (advance_tick_cases (Engine.height (state e)) round 3 ptr k e Hk) as Heff.
  unfold advance_tick in Heff |- *. rewrite Hk in Heff |- *. rewrite Z.eqb_refl in Heff |- *.
  cbn [negb] in Heff |- *. change (vset (e <| state := _ |>)) with (vset e) in Heff |- *.
  change (machine (k <| engine := _ |>)) with (machine k) in Heff |- *.
  destruct (Z.eqb_spec (vs_total_power (vset e)) 0); [done|]. change (3 =? 3) with true in Heff |- *.
  cbn [negb] in Heff |- *.
  assert ((ptr =? 0) = false) as Hp.
  { destruct (Z.eqb_spec ptr 0) as [->|]; [by vm_compute in Hr|done]. }
  rewrite Hp in Heff |- *.
  destruct (load_commit_cert_mapped cpu ptr (machine k) cert) as (m & Hl & Hmem); [done..|].
  rewrite Hl in Heff |- *.
  assert (verify_commit_cert cert (Engine.height (state e)) = true) as Hv.
  { unfold verify_commit_cert. rewrite Hh, Z.eqb_refl. cbn [negb].
    destruct (Z.eqb_spec (kc_quorum cert) 0); [lia|]. apply Z.leb_le. lia. }
  rewrite Hv in Heff |- *. cbn [negb] in Heff |- *.
  destruct (load_commit_cert_mapped cpu ptr (between m) cert) as (m2 & Hl2 & _);
    [done|done|by rewrite Hbt, Hmem|]. rewrite Hl2 in Heff |- *.
  unfold commit_height in *. eexists. split; [done|].
  destruct Heff as [(_ & _ & _ & Hc)|[_ [Hf _]]]; [exact Hc|]. exfalso. simpl in Hf.
  apply (f_equal length) in Hf. rewrite length_app in Hf. simpl in Hf. lia.
Qed.

(** The round is written before anything is checked: a tick that is refused
    because its step is not 3 still sets the engine's round to the caller's value. *)
Lemma refused_tick_sets_round round step cert_ptr k e :
  engine k = Some e → step ≠ 3 →
  advance_tick cpu uptime_ms between (Engine.height (state e)) round step cert_ptr k =
  Ticked 0 (k <| engine := Some (set_height_round (Engine.height (state e)) (wrap32 round) e) |>).
Proof.
  intros Hk Hs. unfold advance_tick. rewrite Hk, Z.eqb_refl. cbn [negb].
  destruct (Z.eqb_spec step 3); [done|]. cbn [negb]. by destruct e as [? ? [] ? ? ? ? ? ? ?].
Qed.
End tick_facts.

(** ** The shared height *)

Definition sh_target (p : set_height_pc) : Z :=
  match p with ShStart h => h | ShLoop h _ => h | ShDone h => h end.

(** What each thread knows of the shared height. *)
Definition sh_ok (H : Z) (p : set_height_pc) : Prop :=
  match p with ShStart _ => True | ShLoop _ cur => cur ≤ H | ShDone h => h ≤ H end.

Lemma sh_ok_mono H H' p : H ≤ H' → sh_ok H p → sh_ok H' p.
Proof. destruct p; simpl; lia. Qed.

Lemma sh_step_ok H p H' p' :
  sh_step (H, p) (H', p') → sh_ok H p →
  H ≤ H' ∧ sh_ok H' p' ∧ sh_target p' = sh_target p ∧ (H' = H ∨ H' = sh_target p).
Proof. inversion 1; subst; simpl; lia. Qed.

Lemma foldr_max_spec H0 hs H :
  H0 ≤ H → (∀ h, h ∈ hs → h ≤ H) → (H = H0 ∨ H ∈ hs) → H = foldr Z.max H0 hs.
Proof.
  revert H. induction hs as [|h hs IH]; intros H Hge Hall Hin; simpl.
  { destruct Hin as [|Hin]; [done|set_solver]. }
  destruct (decide (H = h)) as [->|Hne].
  - assert (∀ l, (∀ x, x ∈ l → x ≤ h) → foldr Z.max H0 l ≤ h) as Hle.
    { induction l as [|x l IHl]; intros Hl; simpl; [lia|].
      apply Z.max_lub; [apply Hl; left|apply IHl; intros y Hy; apply Hl; by right]. }
    rewrite Z.max_l; [done|]. apply Hle. intros x Hx. apply Hall. by right.
  - rewrite <-(IH H); [|done|intros x Hx; apply Hall; by right|set_solver].
    assert (h ≤ H) by (apply Hall; left). lia.
Qed.

(** [set_height] from any number of threads, with any interleaving and any
    spurious failures of the exchange: the height never goes down, and once all
    calls have returned it is the greatest of the old height and the requests. *)
Lemma set_height_concurrent H0 hs H l :
  rtc shs_step (H0, ShStart <$> hs) (H, l) →
  H0 ≤ H ∧ (Forall (λ p, p = ShDone (sh_target p)) l → H = foldr Z.max H0 hs).
Proof.
  intros Hrun.
  set (inv := λ s : Z * list set_height_pc,
    H0 ≤ s.1 ∧ Forall (sh_ok s.1) s.2 ∧ sh_target <$> s.2 = hs ∧ (s.1 = H0 ∨ s.1 ∈ hs)).
  assert (inv (H, l)) as (Hge & Hok & Htg & Hin).
  { refine (rtc_ind_r (R := shs_step) inv _ _ _ _ Hrun).
    - split_and!; simpl; [lia|apply Forall_fmap, Forall_forall; by intros|by rewrite <-list_fmap_compose, list_fmap_id|by left].
    - intros y z _ Hstep (Hge & Hok & Htg & Hin). destruct Hstep as [K K' ps i p p' Hi Hstep]. simpl in *.
      assert (sh_ok K p) as Hp by (rewrite Forall_lookup in Hok; by eapply Hok).
      destruct (sh_step_ok _ _ _ _ Hstep Hp) as (Hmono & Hp' & Ht & Hval).
      split_and!; simpl; [lia| | |].
      + apply Forall_insert; [|done]. eapply Forall_impl; [done|]. intros q. by apply sh_ok_mono.
      + rewrite list_fmap_insert, Ht, list_insert_id; [done|]. by rewrite list_lookup_fmap, Hi.
      + destruct Hval as [->| ->]; [done|right]. rewrite <-Htg.
        apply list_elem_of_fmap. exists p. split; [done|]. by eapply list_elem_of_lookup_2. }
  simpl in *. split; [done|]. intros Hdone. apply foldr_max_spec; [done| |done].
  intros h Hh. rewrite <-Htg in Hh. apply list_elem_of_fmap in Hh as (p & -> & Hp).
  rewrite Forall_forall in Hok, Hdone. pose proof (Hok p Hp) as Hpok. rewrite (Hdone p Hp) in Hpok. exact Hpok.
Qed.

(** [increment_height] hands back a saturated value but stores a wrapped one:
    at the last height the caller is told that height and the kernel is at 0. *)
Lemma increment_height_wraps :
  let s := KernelConsensusState_default <| ks_height := U64_MAX |> in
  (increment_height s).1 = U64_MAX ∧ ks_height (increment_height s).2 = 0.
Proof. by vm_compute. Qed.

(** ** Witnesses *)

Definition ex_kengine : Engine unit :=
  mkEngine Config_default ex_vset (ConsensusState_new 7) Hash32_zero tt
    (StakeLedger_new SlashingConfig_default) 1 None 0 (mkConsensusMetrics 0 0 0 0 0 0 0 0).

(** A caller's certificate for height 7: one vote, quorum one. *)
Definition ex_kcert : KernelCommitCert := mkKernelCommitCert 7 1 1 Hash32_zero Hash32_zero.

Definition ex_kmem : memory := list_to_map (zip (seqZ 4096 80) (cert_to_bytes ex_kcert)).

Definition ex_kernel : Kernel unit := mkKernel (Some ex_kengine) (mkMachine no_cpus ex_kmem (Some 1)) [].

Lemma advance_tick_effect_witness :
  match advance_tick 0 5 id 7 0 3 4096 ex_kernel with
  | Ticked ret k' =>
    ret = 7 ∧ 7 = Engine.height (state ex_kengine) ∧ 3 = 3 ∧ committed 7 ex_kengine ex_kernel k' ∨
    ret = 0 ∧ uncommitted ex_kengine ex_kernel k'
  | TickDeadlocks k' => uncommitted ex_kengine ex_kernel k'
  | TickPanic => False
  end.
Proof. apply (advance_tick_effect 0 5 id 7 0 3 4096 ex_kernel ex_kengine). reflexivity. Defined.

Lemma null_certificate_commits_witness :
  ∃ k', advance_tick 0 5 id 7 0 3 0 ex_kernel = Ticked 7 k' ∧ committed 7 ex_kengine ex_kernel k'.
Proof.
  apply (null_certificate_commits 0 5 id 0 ex_kernel ex_kengine); [reflexivity|].
  vm_compute. split; [reflexivity|discriminate].
Defined.

Lemma forged_certificate_commits_witness :
  ∃ k', advance_tick 0 5 id 7 0 3 4096 ex_kernel = Ticked 7 k' ∧ committed 7 ex_kengine ex_kernel k'.
Proof.
  apply (forged_certificate_commits 0 5 id 0 4096 ex_kcert ex_kernel ex_kengine); [reflexivity| | |reflexivity| |
    vm_compute; reflexivity|vm_compute; reflexivity|reflexivity].
  - vm_compute. discriminate.
  - unfold cert_typed, u64_ok, u32_ok, U64_MAX, U32_MAX. simpl. split_and!; (lia || reflexivity).
  - simpl. lia.
Defined.

Lemma refused_tick_sets_round_witness :
  advance_tick 0 5 id 7 9 1 0 ex_kernel =
  Ticked 0 (ex_kernel <| engine := Some (set_height_round 7 9 ex_kengine) |>).
Proof. apply (refused_tick_sets_round 0 5 id 9 1 0 ex_kernel ex_kengine); [reflexivity|discriminate]. Defined.

Lemma set_height_concurrent_witness :
  1 ≤ 5 ∧ (Forall (λ p, p = ShDone (sh_target p)) [ShDone 5; ShDone 3] → 5 = 5).
Proof.
  apply (set_height_concurrent 1 [5; 3] 5 [ShDone 5; ShDone 3]).
  eapply rtc_l; [eapply (shs _ _ _ 1); [reflexivity|apply sh_load]|].
  eapply rtc_l; [eapply (shs _ _ _ 0); [reflexivity|apply sh_load]|].
  eapply rtc_l; [eapply (shs _ _ _ 0); [reflexivity|apply sh_cas_ok; lia]|].
  eapply rtc_l; [eapply (shs _ _ _ 1); [reflexivity|apply sh_cas_fail; lia]|].
  eapply rtc_l; [eapply (shs _ _ _ 1); [reflexivity|apply sh_exit; lia]|]. apply rtc_refl.
Defined.
