(* ===== verification/Sync.v ===== *)
(** * Block sync at start-up ([src/src/consensus/sync.rs]).

    The node asks its peers for their heights and fetches blocks in batches. The
    network is the environment: what it answers to a broadcast, and the results of
    the polls a loop makes before its deadline, where [None] is a poll without a
    message; time passes between polls and has no other part. Attempts to fetch a
    batch are numbered through. The files are a map from paths to bytes, and the
    engine is its height. The encoding of messages by postcard is the class
    [SyncCodec]. The counters are kept once they are initialised; Prometheus
    gauges and log lines are left out. *)

From Stdlib Require Import ZArith Lia Bool.
From stdpp Require Import base gmap sets strings pretty numbers list sorting.
From S2P Require Import Prelude Types Utf8 Digits.

Local Open Scope Z_scope.
Local Open Scope rust_scope.

(** ** Data *)

Definition DEFAULT_SYNC_TIMEOUT_MS : Z := 10000.
Definition DEFAULT_MAX_BLOCKS_BATCH : Z := 50.
Definition DEFAULT_RETRY_COUNT : Z := 3.
Definition HEIGHT_PERSIST_PATH : string := "/var/iona-node/height".
Definition STAKE_LEDGER_PERSIST_PATH : string := "/var/iona-node/stake_ledger".

Inductive SyncError :=
| NoPeers
| Timeout (ms : Z)
| Io (msg : string)
| Serialization (msg : string)
| InvalidBlock (height : Z) (reason : string)
| BlockApplicationFailed (height : Z) (reason : string)
| Network (msg : string)
| AlreadySyncing
| InconsistentData (height : Z)
| Metrics (msg : string)
| Config (msg : string).

Record SyncConfig := mkSyncConfig {
  timeout_ms : Z;
  max_blocks_batch : Z;
  retry_count : Z;
  verify_signatures : bool;
  persist_batch : bool;
  progress_log_interval : Z;
  enable_metrics : bool;
}.

Record AtomicSyncMetrics := mkAtomicSyncMetrics {
  m_blocks_received : Z;
  m_blocks_verified : Z;
  m_blocks_applied : Z;
  status_requests_sent : Z;
  status_responses_received : Z;
  block_requests_sent : Z;
  sync_errors : Z;
}.

#[export] Instance eta_AtomicSyncMetrics : Settable AtomicSyncMetrics :=
  λ m, mkAtomicSyncMetrics (m_blocks_received m) (m_blocks_verified m) (m_blocks_applied m) (status_requests_sent m)
         (status_responses_received m) (block_requests_sent m) (sync_errors m).

Inductive SyncMessageKind :=
| KindGetStatus
| KindStatusResponse
| KindGetBlocks
| KindBlockData.

#[export] Instance SyncMessageKind_eq_dec : EqDecision SyncMessageKind.
Proof. solve_decision. Defined.

Record GetStatus := mkGetStatus { gs_height : Z; gs_peer_id : string }.
Record StatusResponse := mkStatusResponse { sr_height : Z; sr_best_hash : bytes; sr_peer_id : string }.
Record GetBlocks := mkGetBlocks { gb_from : Z; gb_to : Z }.
Record BlockData := mkBlockData { bd_block : Block; bd_height : Z }.

Record PeerStatus := mkPeerStatus { peer_id : string; peer_height : Z; peer_best_hash : bytes }.

Record SyncState := mkSyncState {
  local_height : Z;
  target_height : Z;
  syncing : bool;
  peers : list PeerStatus;
  start_time : option Z;
  blocks_received : Z;
  blocks_verified : Z;
  blocks_applied : Z;
}.

#[export] Instance eta_SyncState : Settable SyncState :=
  λ s, mkSyncState (local_height s) (target_height s) (syncing s) (peers s) (start_time s) (blocks_received s) (blocks_verified s) (blocks_applied s).

(** [postcard::to_allocvec] and [postcard::from_bytes]; an error is its text. *)
Class SyncCodec := {
  encode_get_status : GetStatus → result bytes string;
  encode_get_blocks : GetBlocks → result bytes string;
  decode_status_response : bytes → option StatusResponse;
  decode_block_data : bytes → option BlockData;
}.

(** The parts of the node that sync reads and writes; [sent] are the broadcasts. *)
Record World := mkWorld {
  ss : SyncState;
  files : gmap string bytes;
  engine : option Z;
  metrics : option AtomicSyncMetrics;
  sent : list bytes;
}.

#[export] Instance eta_World : Settable World := λ w, mkWorld (ss w) (files w) (engine w) (metrics w) (sent w).

(** One attempt to fetch a batch: the answer to the broadcast, and the polls. *)
Record Attempt := mkAttempt {
  at_sent : result Z SyncError;
  at_polls : list (option bytes);
}.

(** ** Configuration *)

Definition SyncConfig_default : SyncConfig :=
  mkSyncConfig DEFAULT_SYNC_TIMEOUT_MS DEFAULT_MAX_BLOCKS_BATCH DEFAULT_RETRY_COUNT true true 100 false.

Definition SyncConfig_validate (c : SyncConfig) : result unit SyncError :=
  if timeout_ms c =? 0 then Err (Config "timeout_ms must be > 0")
  else if max_blocks_batch c =? 0 then Err (Config "max_blocks_batch must be > 0")
  else if retry_count c =? 0 then Err (Config "retry_count must be > 0")
  else if progress_log_interval c =? 0 then Err (Config "progress_log_interval must be > 0")
  else Ok tt.

(** The [Display] of an error. *)
Definition SyncError_to_string (e : SyncError) : string :=
  match e with
  | NoPeers => "no peers available"
  | Timeout ms => "timeout waiting for peer response after " +:+ pretty ms +:+ "ms"
  | Io m => "I/O error: " +:+ m
  | Serialization m => "serialization error: " +:+ m
  | InvalidBlock h r => "invalid block at height " +:+ pretty h +:+ ": " +:+ r
  | BlockApplicationFailed h r => "block application failed at height " +:+ pretty h +:+ ": " +:+ r
  | Network m => "network error: " +:+ m
  | AlreadySyncing => "already syncing"
  | InconsistentData h => "peer returned inconsistent data at height " +:+ pretty h
  | Metrics m => "metrics error: " +:+ m
  | Config m => "configuration error: " +:+ m
  end.

(** ** Counters *)

Definition AtomicSyncMetrics_default : AtomicSyncMetrics := mkAtomicSyncMetrics 0 0 0 0 0 0 0.

Definition inc_blocks_received (m : AtomicSyncMetrics) : AtomicSyncMetrics := m <| m_blocks_received := add64 (m_blocks_received m) 1 |>.
Definition inc_blocks_verified (m : AtomicSyncMetrics) : AtomicSyncMetrics := m <| m_blocks_verified := add64 (m_blocks_verified m) 1 |>.
Definition inc_blocks_applied (m : AtomicSyncMetrics) : AtomicSyncMetrics := m <| m_blocks_applied := add64 (m_blocks_applied m) 1 |>.
Definition inc_status_requests_sent (m : AtomicSyncMetrics) : AtomicSyncMetrics := m <| status_requests_sent := add64 (status_requests_sent m) 1 |>.
Definition inc_status_responses_received (m : AtomicSyncMetrics) : AtomicSyncMetrics := m <| status_responses_received := add64 (status_responses_received m) 1 |>.
Definition inc_block_requests_sent (m : AtomicSyncMetrics) : AtomicSyncMetrics := m <| block_requests_sent := add64 (block_requests_sent m) 1 |>.
Definition inc_sync_errors (m : AtomicSyncMetrics) : AtomicSyncMetrics := m <| sync_errors := add64 (sync_errors m) 1 |>.

Definition count (f : AtomicSyncMetrics → AtomicSyncMetrics) (w : World) : World := w <| metrics := f <$> metrics w |>.

Definition init_sync_metrics (w : World) : World * result unit SyncError :=
  match metrics w with
  | Some _ => (w, Err (Config "sync metrics already initialized"))
  | None => (w <| metrics := Some AtomicSyncMetrics_default |>, Ok tt)
  end.

(** ** The persisted height *)

(** [str::trim] on characters. *)
Fixpoint trim_start (cs : list Z) : list Z :=
  match cs with
  | c :: cs' => if is_whitespace c then trim_start cs' else cs
  | [] => []
  end.

Definition trim (cs : list Z) : list Z := reverse (trim_start (reverse (trim_start cs))).

Definition load_persisted_height (w : World) : Z :=
  match files w !! HEIGHT_PERSIST_PATH with
  | Some data => default 0 (parse_uint U64_MAX (trim (default [] (from_utf8 (from_utf8_lossy data)))))
  | None => 0
  end.

Definition persist_height (h : Z) (w : World) : World := w <| files := <[HEIGHT_PERSIST_PATH := format_uint h]> (files w) |>.

Definition persist_stake_ledger (ledger : bytes) (w : World) : World := w <| files := <[STAKE_LEDGER_PERSIST_PATH := ledger]> (files w) |>.

Definition load_stake_ledger (w : World) : option bytes := files w !! STAKE_LEDGER_PERSIST_PATH.

Definition atomic_persist (data : bytes) (path : string) (w : World) : World := w <| files := <[path +:+ ".tmp" := data]> (files w) |>.

(** ** Messages *)

Definition kind_byte (k : SyncMessageKind) : Z :=
  match k with KindGetStatus => 0x10 | KindStatusResponse => 0x11 | KindGetBlocks => 0x12 | KindBlockData => 0x13 end.

Definition kind_try_from (v : Z) : result SyncMessageKind SyncError :=
  match v with
  | 0x10 => Ok KindGetStatus
  | 0x11 => Ok KindStatusResponse
  | 0x12 => Ok KindGetBlocks
  | 0x13 => Ok KindBlockData
  | _ => Err (Serialization ("unknown message kind: " +:+ pretty v))
  end.

Definition serialize_sync_message (kind : SyncMessageKind) (payload : result bytes string) : result bytes SyncError :=
  match payload with
  | Err e => Err (Serialization e)
  | Ok p => Ok (kind_byte kind :: p)
  end.

Definition deserialize_sync_message (data : bytes) : result (SyncMessageKind * bytes) SyncError :=
  match data with
  | [] => Err (Serialization "empty message")
  | k :: payload =>
    match kind_try_from k with
    | Err _ => Err (Serialization ("unknown message kind: " +:+ pretty k))
    | Ok kind => Ok (kind, payload)
    end
  end.

(** ** Sync *)

Section sync.
Context `{SyncCodec}.

Definition set_engine (h : Z) (w : World) : World := w <| engine := (λ _, h) <$> engine w |>.

Definition apply_block (bd : BlockData) (config : SyncConfig) (w : World) : World * result unit SyncError :=
  let h := bd_height bd in
  let hdr := header (bd_block bd) in
  if negb (bh_height hdr =? h) then
    (w, Err (InvalidBlock h ("block height mismatch: header says " +:+ pretty (bh_height hdr) +:+ ", expected " +:+ pretty h)))
  else if verify_signatures config && bool_decide (proposer_pk hdr = []) then
    (w, Err (InvalidBlock h "empty proposer public key"))
  else (set_engine h w, Ok tt).

(** The status in a poll, if it has one. *)
Definition poll_status (m : option bytes) : option StatusResponse :=
  m ← m;
  match deserialize_sync_message m with
  | Ok (KindStatusResponse, payload) => decode_status_response payload
  | _ => None
  end.

Definition poll_block (m : option bytes) : option BlockData :=
  m ← m;
  match deserialize_sync_message m with
  | Ok (KindBlockData, payload) => decode_block_data payload
  | _ => None
  end.

(** The first peer with the id is updated, or a new one added. *)
Fixpoint update_peer (st : StatusResponse) (l : list PeerStatus) : list PeerStatus :=
  match l with
  | [] => [mkPeerStatus (sr_peer_id st) (sr_height st) (sr_best_hash st)]
  | p :: l =>
    if bool_decide (peer_id p = sr_peer_id st) then mkPeerStatus (peer_id p) (sr_height st) (sr_best_hash st) :: l
    else p :: update_peer st l
  end.

(** One turn of the loop that waits for status responses; the second component is
    the best height and the peer that has it. *)
Definition status_turn (st : World * (Z * option string)) (m : option bytes) : World * (Z * option string) :=
  let '(w, (best_height, best_peer)) := st in
  match poll_status m with
  | None => st
  | Some status =>
    let best := if best_height <? sr_height status then (sr_height status, Some (sr_peer_id status)) else (best_height, best_peer) in
    let w := w <| ss := (ss w) <| peers := update_peer status (peers (ss w)) |> |> in
    (count inc_status_responses_received w, best)
  end.

Inductive BatchEnd :=
| BatchStops
| BatchReturns (e : SyncError).

(** What an accepted block does, besides [apply_block]. *)
Definition count_block (current : Z) (w : World) : World :=
  let s := ss w in
  let s := s <| blocks_received := sat_add64 (blocks_received s) 1 |> <| blocks_verified := sat_add64 (blocks_verified s) 1 |>
             <| blocks_applied := sat_add64 (blocks_applied s) 1 |> <| local_height := current |> in
  set_engine current (count inc_blocks_applied (count inc_blocks_verified (count inc_blocks_received (w <| ss := s |>)))).

(** The loop that receives the blocks of a batch: [more] says whether another
    attempt would follow. The result has the new [current] and [applied]. *)
Fixpoint batch_loop (config : SyncConfig) (more : bool) (batch_end : Z) (polls : list (option bytes)) (current applied : Z) (w : World)
    : World * Z * Z * BatchEnd :=
  match polls with
  | [] => (w, current, applied, BatchStops)
  | m :: polls =>
    if negb (add64 current applied <? batch_end) then (w, current, applied, BatchStops) else
    match poll_block m with
    | None => batch_loop config more batch_end polls current applied w
    | Some bd =>
      match apply_block bd config w with
      | (w, Err e) =>
        let w := count inc_sync_errors w in
        if more then (w, current, applied, BatchStops)
        else (w, current, applied, BatchReturns (BlockApplicationFailed (bd_height bd) (SyncError_to_string e)))
      | (w, Ok _) =>
        let current := sat_add64 current 1 in
        let applied := sat_add64 applied 1 in
        batch_loop config more batch_end polls current applied (count_block current w)
      end
    end
  end.

Inductive BatchResult :=
| BatchDone (success : bool)
| BatchFails (e : SyncError).

(** The attempts to fetch one batch; [n] are left, the next one is number [k]. *)
Fixpoint attempts_loop (config : SyncConfig) (req_bytes : bytes) (batch_end : Z) (net : nat → Attempt) (n k : nat) (current : Z) (w : World)
    : World * Z * nat * BatchResult :=
  match n with
  | O => (w, current, k, BatchDone false)
  | S n =>
    match at_sent (net k) with
    | Err e => (w, current, S k, BatchFails e)
    | Ok _ =>
      let w := count inc_block_requests_sent (w <| sent := sent w ++ [req_bytes] |>) in
      match batch_loop config (0 <? n)%nat batch_end (at_polls (net k)) current 0 w with
      | (w, current, applied, BatchReturns e) => (w, current, S k, BatchFails e)
      | (w, current, applied, BatchStops) =>
        if applied =? sub64 batch_end current then (w, current, S k, BatchDone true)
        else attempts_loop config req_bytes batch_end net n (S k) current w
      end
    end
  end.

(** The loop over batches; [None] when the fuel runs out. *)
Fixpoint fetch_loop (config : SyncConfig) (best_height : Z) (net : nat → Attempt) (fuel k : nat) (current : Z) (w : World)
    : option (World * Z * option SyncError) :=
  if negb (current <? best_height) then Some (w, current, None) else
  match fuel with
  | O => None
  | S fuel =>
    let batch_end := Z.min (add64 current (max_blocks_batch config)) best_height in
    match serialize_sync_message KindGetBlocks (encode_get_blocks (mkGetBlocks current batch_end)) with
    | Err e => Some (w, current, Some e)
    | Ok req_bytes =>
      match attempts_loop config req_bytes batch_end net (Z.to_nat (retry_count config)) k current w with
      | (w, current, k, BatchFails e) => Some (w, current, Some e)
      | (w, current, k, BatchDone false) => Some (w, current, None)
      | (w, current, k, BatchDone true) =>
        fetch_loop config best_height net fuel k current (if persist_batch config then persist_height current w else w)
      end
    end
  end.

(** What the environment answers during one call. *)
Record Env := mkEnv {
  env_now : Z;
  env_node_id : option string;
  env_contacted : result Z SyncError;
  env_statuses : list (option bytes);
  env_attempts : nat → Attempt;
}.

Definition sync_start (now : Z) (local : Z) (w : World) : World :=
  let w := w <| ss := (ss w) <| local_height := local |> <| syncing := true |> <| start_time := Some now |> |> in
  if 0 <? local then set_engine local w else w.

Definition sync_stop (w : World) : World := w <| ss := (ss w) <| syncing := false |> |>.

Definition sync_from_peers (config : SyncConfig) (env : Env) (w : World) : option (World * result unit SyncError) :=
  match SyncConfig_validate config with
  | Err e => Some (w, Err e)
  | Ok _ =>
    let w := if enable_metrics config && bool_decide (metrics w = None) then (init_sync_metrics w).1 else w in
    let local := load_persisted_height w in
    let w := sync_start (env_now env) local w in
    match serialize_sync_message KindGetStatus (encode_get_status (mkGetStatus local (default "unknown" (env_node_id env)))) with
    | Err e => Some (w, Err e)
    | Ok status_bytes =>
      match env_contacted env with
      | Err e => Some (w, Err e)
      | Ok peers_contacted =>
        let w := count inc_status_requests_sent (w <| sent := sent w ++ [status_bytes] |>) in
        if peers_contacted =? 0 then Some (sync_stop w, Ok tt) else
        let '(w, (best_height, best_peer)) := foldl status_turn (w, (local, None)) (env_statuses env) in
        if best_height <=? local then Some (sync_stop w, Ok tt) else
        let w := w <| ss := (ss w) <| target_height := best_height |> |> in
        match fetch_loop config best_height (env_attempts env) (Z.to_nat (best_height - local)) 0 local w with
        | None => None
        | Some (w, current, Some e) => Some (w, Err e)
        | Some (w, current, None) =>
          let w := persist_height current w in
          Some (w <| ss := (ss w) <| local_height := current |> <| syncing := false |> |>, Ok tt)
        end
      end
    end
  end.

(** ** Convenience functions *)

Definition is_syncing (w : World) : bool := syncing (ss w).
Definition sync_height (w : World) : Z * Z := (local_height (ss w), target_height (ss w)).

Definition SyncState_new : SyncState := mkSyncState 0 0 false [] None 0 0 0.

Definition reset_sync_state (w : World) : World :=
  w <| ss := (ss w) <| local_height := 0 |> <| target_height := 0 |> <| syncing := false |> <| peers := [] |>
               <| blocks_received := 0 |> <| blocks_verified := 0 |> <| blocks_applied := 0 |> <| start_time := None |> |>.
End sync.

(** The height in a status is a [u64]. *)
Class SyncCodecLaws `{SyncCodec} := {
  decoded_height p st : decode_status_response p = Some st → u64_ok (sr_height st);
}.

(** ** Reading back the persisted height *)

Lemma load_range w : u64_ok (load_persisted_height w).
Proof.
  unfold load_persisted_height. case_match; [|mach]. destruct (parse_uint U64_MAX _) as [n|] eqn:E; cbn; [|mach].
  apply parse_uint_range in E; mach.
Qed.

Lemma decode_ascii l : Forall (λ c, 0 ≤ c < 128) l → from_utf8 l = Some l.
Proof.
  unfold from_utf8. intros Hl. assert (∀ fuel, (length l ≤ fuel)%nat → decode_chars fuel l = Some l) as Hf; [|by apply Hf].
  induction Hl as [|c l Hc Hl IH]; intros fuel Hle; [by destruct fuel|]. destruct fuel as [|fuel]; [cbn in Hle; lia|]. cbn in Hle |- *.
  rewrite (proj2 (andb_true_iff _ _)) by lia. cbn. by rewrite IH by lia.
Qed.

Lemma trim_start_id cs : Forall (λ c, is_whitespace c = false) cs → trim_start cs = cs.
Proof. destruct 1 as [|c cs Hc]; [done|]. cbn. by rewrite Hc. Qed.

Lemma trim_id cs : Forall (λ c, is_whitespace c = false) cs → trim cs = cs.
Proof. intros Hc. unfold trim. rewrite (trim_start_id cs Hc), trim_start_id by by apply Forall_reverse. apply reverse_involutive. Qed.

Lemma digit_not_space c : 48 ≤ c ≤ 57 → is_whitespace c = false.
Proof. intros Hc. unfold is_whitespace. rewrite !orb_false_iff, !andb_false_iff, !Z.leb_gt, !Z.eqb_neq. lia. Qed.

Lemma load_persist h w : u64_ok h → load_persisted_height (persist_height h w) = h.
Proof.
  intros Hh. pose proof (format_uint_digits h ltac:(mach)) as Hd. pose proof (parse_format U64_MAX h Hh ltac:(mach)) as Hp. unfold load_persisted_height.
  assert (files (persist_height h w) !! HEIGHT_PERSIST_PATH = Some (format_uint h)) as -> by apply lookup_insert_eq.
  revert Hd Hp. generalize (format_uint h). intros ds Hd Hp.
  assert (from_utf8 ds = Some ds) as Hu.
  { apply decode_ascii. eapply Forall_impl; [exact Hd|]. unfold is_digit. intros c Hc. lia. }
  rewrite from_utf8_lossy_valid by (rewrite Hu; by eexists). rewrite Hu. cbn [default from_option id].
  rewrite trim_id by (eapply Forall_impl; [exact Hd|]; apply digit_not_space). by rewrite Hp.
Qed.

(** ** Progress of a sync *)

Section progress.
Context `{SyncCodec}.
Variables (config : SyncConfig) (net : nat → Attempt).

Definition block_ok (bd : BlockData) : bool :=
  (bh_height (header (bd_block bd)) =? bd_height bd) &&
  negb (verify_signatures config && bool_decide (proposer_pk (header (bd_block bd)) = [])).

(** A poll that gave a block: the attempt it was made in and its place there. *)
Record Receipt := mkReceipt { rc_attempt : nat; rc_poll : nat }.

(** The message of the poll has a block that passes the checks. *)
Definition fetched (r : Receipt) : Prop :=
  ∃ m bd, at_polls (net (rc_attempt r)) !! rc_poll r = Some m ∧ poll_block m = Some bd ∧ block_ok bd = true.

(** The poll was made before the one at [i] of attempt [k]. *)
Definition made_before (k i : nat) (r : Receipt) : Prop := (rc_attempt r < k)%nat ∨ (rc_attempt r = k ∧ (rc_poll r < i)%nat).

Definition in_sequence : list Receipt → Prop := StronglySorted (λ r r', made_before (rc_attempt r') (rc_poll r') r).

Lemma in_sequence_snoc bs k i : in_sequence bs → Forall (made_before k i) bs → in_sequence (bs ++ [mkReceipt k i]).
Proof.
  intros Hs Hf. apply StronglySorted_app. split; [|split; [done|by repeat constructor]].
  intros r r' Hr ->%list_elem_of_singleton. by eapply Forall_forall in Hf.
Qed.

Lemma made_before_next k i bs : Forall (made_before k i) bs → Forall (made_before k (S i)) bs.
Proof. intros Hf. eapply Forall_impl; [exact Hf|]. unfold made_before. lia. Qed.

Lemma apply_block_cases bd w :
  (block_ok bd = true ∧ apply_block bd config w = (set_engine (bd_height bd) w, Ok tt)) ∨
  (block_ok bd = false ∧ ∃ e, apply_block bd config w = (w, Err e)).
Proof.
  unfold apply_block, block_ok. destruct (bh_height _ =? bd_height bd); cbn; [|by right; eauto].
  destruct (verify_signatures config && _); cbn; [right; eauto|by left].
Qed.

(** From [w0], at height [local], the sync has taken the blocks [bs] and is at [cur]. *)
Record progress (w0 : World) (local : Z) (w : World) (cur : Z) (bs : list Receipt) : Prop := {
  pr_local : local_height (ss w) = cur;
  pr_range : local ≤ cur ≤ U64_MAX;
  pr_engine : engine w = if 0 <? cur then (λ _, cur) <$> engine w0 else engine w0;
  pr_len : cur < U64_MAX → Z.of_nat (length bs) = cur - local;
  pr_count : blocks_applied (ss w) = Z.min (blocks_applied (ss w0) + Z.of_nat (length bs)) U64_MAX;
  pr_syncing : syncing (ss w) = true;
  pr_file : local ≤ load_persisted_height w ≤ cur;
  pr_blocks : Forall fetched bs;
  pr_seq : in_sequence bs;
  pr_sent : Forall (λ r, (S (length (sent w0)) + rc_attempt r < length (sent w))%nat) bs;
}.

(** The counters, the broadcasts and the list of peers do not matter. *)
Lemma progress_same w0 local w w' cur bs :
  progress w0 local w cur bs → local_height (ss w') = local_height (ss w) → engine w' = engine w → files w' = files w →
  blocks_applied (ss w') = blocks_applied (ss w) → syncing (ss w') = syncing (ss w) → sent w `prefix_of` sent w' → progress w0 local w' cur bs.
Proof.
  intros [] H1 H2 H3 H4 H5 H6%prefix_length. assert (load_persisted_height w' = load_persisted_height w) as Hl by (unfold load_persisted_height; by rewrite H3).
  split; rewrite ?H1, ?H2, ?H4, ?H5, ?Hl; try done. eapply Forall_impl; [done|]. cbn. lia.
Qed.

Lemma progress_block w0 local w cur bs k i h :
  0 ≤ cur → progress w0 local w cur bs → fetched (mkReceipt k i) → Forall (made_before k i) bs → (S (length (sent w0)) + k < length (sent w))%nat →
  progress w0 local (count_block (sat_add64 cur 1) (set_engine h w)) (sat_add64 cur 1) (bs ++ [mkReceipt k i]).
Proof.
  intros H0 Hp Hb Hbefore Hsent. pose proof (pr_range _ _ _ _ _ Hp) as Hr. assert (sat_add64 cur 1 = Z.min (cur + 1) U64_MAX) as Hs by done.
  pose proof (pr_file _ _ _ _ _ Hp) as Hf. pose proof (pr_count _ _ _ _ _ Hp) as Hc. rewrite Hs.
  split; cbn [count_block set_engine count].
  - done.
  - mach.
  - rewrite (proj2 (Z.ltb_lt 0 (Z.min (cur + 1) U64_MAX))) by mach. unfold count_block, set_engine, count. cbn -[U64_MAX Z.min].
    rewrite (pr_engine _ _ _ _ _ Hp). destruct (0 <? cur); by destruct (engine w0).
  - intros Hlt. rewrite length_app, Nat2Z.inj_add, (pr_len _ _ _ _ _ Hp) by mach. cbn. mach.
  - cbn -[U64_MAX sat_add64]. rewrite Hc, length_app, Nat2Z.inj_add. unfold sat_add64. cbn -[U64_MAX Z.min]. mach.
  - apply Hp.
  - change (load_persisted_height _) with (load_persisted_height w). mach.
  - apply Forall_app. split; [apply Hp|]. by apply Forall_singleton.
  - apply in_sequence_snoc; [apply Hp|done].
  - apply Forall_app. split; [apply Hp|]. by apply Forall_singleton.
Qed.

Lemma progress_persist w0 local w cur bs : 0 ≤ local → progress w0 local w cur bs → progress w0 local (persist_height cur w) cur bs.
Proof.
  intros H0 Hp. pose proof (pr_range _ _ _ _ _ Hp) as Hr. split; try by apply Hp.
  rewrite load_persist by mach. lia.
Qed.

(** [current + applied] stays in range, except when a batch ends at the greatest height. *)
Definition batch_inv (batch_end cur app : Z) : Prop := app = 0 ∨ cur + app ≤ batch_end + 1 ∨ batch_end = U64_MAX.

Lemma batch_loop_progress k i more batch_end polls cur app w w0 local bs w' cur' app' r :
  drop i (at_polls (net k)) = polls → Forall (made_before k i) bs → (S (length (sent w0)) + k < length (sent w))%nat →
  0 ≤ local → 0 ≤ app → batch_end ≤ U64_MAX → batch_inv batch_end cur app → progress w0 local w cur bs →
  batch_loop config more batch_end polls cur app w = (w', cur', app', r) →
  (∃ bs', progress w0 local w' cur' bs' ∧ Forall (made_before (S k) 0) bs') ∧ sent w' = sent w ∧
  cur ≤ cur' ≤ Z.max cur batch_end ∧ (cur' = cur → cur < U64_MAX → app' = app).
Proof.
  intros Hm Hbef Hsent Hl. revert i cur app w bs Hm Hbef Hsent. induction polls as [|m polls IH]; intros i cur app w bs Hm Hbef Hsent Happ Hbe Hinv Hp; cbn [batch_loop].
  all: assert (Forall (made_before (S k) 0) bs) as Hbef' by (eapply Forall_impl; [exact Hbef|]; unfold made_before; lia).
  { intros [= <- <- <- <-]. split; [by eexists|]. split; [done|]. split; [lia|done]. }
  pose proof (pr_range _ _ _ _ _ Hp) as Hr. destruct (add64 cur app <? batch_end) eqn:Hg; cbn [negb].
  2: { intros [= <- <- <- <-]. split; [by eexists|]. split; [done|]. split; [lia|done]. }
  assert (at_polls (net k) !! i = Some m ∧ drop (S i) (at_polls (net k)) = polls) as [Hmi Hm'].
  { split; [rewrite <-(Nat.add_0_r i), <-lookup_drop, Hm; done|]. by rewrite <-Nat.add_1_r, <-drop_drop, Hm. }
  destruct (poll_block m) as [bd|] eqn:Hb; [|apply (IH (S i) cur app w bs); try done; by apply made_before_next].
  assert (cur < batch_end ∨ batch_end = U64_MAX) as Hlt.
  { destruct (decide (cur + app ≤ U64_MAX)); [rewrite add64_small in Hg by mach; lia|]. unfold batch_inv in Hinv. lia. }
  destruct (apply_block_cases bd w) as [[Hok ->]|[Hok [e ->]]].
  - set (cur1 := sat_add64 cur 1). set (app1 := sat_add64 app 1). intros Hloop.
    assert (fetched (mkReceipt k i)) as Hf by by exists m, bd.
    assert (cur1 = Z.min (cur + 1) U64_MAX ∧ app1 = Z.min (app + 1) U64_MAX) as [Hc1 Ha1] by done.
    destruct (IH (S i) cur1 app1 (count_block cur1 (set_engine (bd_height bd) w)) (bs ++ [mkReceipt k i])) as (Hbs & Hst & Hc & Hsame);
      [done|apply Forall_app; split; [by apply made_before_next|apply Forall_singleton; right; cbn; lia]|done|lia|done| |by apply progress_block; [lia|..]|exact Hloop|].
    + unfold batch_inv. destruct (decide (cur + app ≤ U64_MAX)); [|unfold batch_inv in Hinv; lia]. rewrite add64_small in Hg by mach. lia.
    + split; [done|]. split; [done|]. split; [mach|]. intros -> Hlt'. mach.
  - destruct more; intros [= <- <- <- <-]; (split; [exists bs; split; [by eapply progress_same|done]|]; split; [done|]; split; [lia|done]).
Qed.

Lemma attempts_loop_progress req_bytes batch_end n k cur w w0 local bs w' cur' k' r :
  0 ≤ local → 0 ≤ batch_end ≤ U64_MAX → progress w0 local w cur bs → Forall (made_before k 0) bs → length (sent w) = (S (length (sent w0)) + k)%nat →
  attempts_loop config req_bytes batch_end net n k cur w = (w', cur', k', r) →
  (∃ bs', progress w0 local w' cur' bs' ∧ Forall (made_before k' 0) bs') ∧ cur ≤ cur' ≤ Z.max cur batch_end ∧
  (r = BatchDone true → length (sent w') = (S (length (sent w0)) + k')%nat ∧ (batch_end ≠ cur → cur < U64_MAX → cur < cur')).
Proof.
  intros Hl Hbe. revert k cur w bs. induction n as [|n IH]; intros k cur w bs Hp Hbef Hsent; cbn [attempts_loop].
  { intros [= <- <- <- <-]. split; [by eexists|]. split; [lia|done]. }
  destruct (at_sent (net k)) as [c|e].
  2: { intros [= <- <- <- <-]. split; [exists bs; split; [done|]; eapply Forall_impl; [exact Hbef|]; unfold made_before; lia|]. split; [lia|done]. }
  set (w1 := count _ _). assert (progress w0 local w1 cur bs) as Hp1 by (eapply progress_same; try done; by eexists).
  assert (length (sent w1) = (S (length (sent w0)) + S k)%nat) as Hsent1 by (cbn; rewrite length_app, Hsent; cbn; lia).
  assert (S (length (sent w0)) + k < length (sent w1))%nat as Hmade by lia.
  destruct (batch_loop config (0 <? n)%nat batch_end (at_polls (net k)) cur 0 w1) as [[[w2 cur2] app2] r2] eqn:Hb.
  destruct (batch_loop_progress k 0 _ _ _ _ _ _ _ _ _ _ _ _ _ eq_refl Hbef Hmade Hl (Z.le_refl 0) (proj2 Hbe) (or_introl eq_refl) Hp1 Hb)
    as ((bs2 & Hp2 & Hbef2) & Hst2 & Hr2 & Hs2). rewrite <-Hst2 in Hsent1.
  pose proof (pr_range _ _ _ _ _ Hp2) as Hr. destruct r2 as [|e].
  - destruct (app2 =? sub64 batch_end cur2) eqn:Hsuc.
    + intros [= <- <- <- <-]. split; [by eexists|]. split; [done|]. intros _. split; [done|]. intros Hne Hlt. destruct (decide (cur2 = cur)) as [->|]; [|lia].
      rewrite Hs2 in Hsuc by done. apply Z.eqb_eq in Hsuc. unfold sub64, wrap64 in Hsuc.
      assert (batch_end - cur = 0 ∨ batch_end - cur ≠ 0) as [|Hd] by lia; [lia|]. exfalso.
      destruct (decide (0 < batch_end - cur)); [rewrite Z.mod_small in Hsuc by mach; lia|].
      rewrite <-(Z.mod_add _ 1), Z.mod_small in Hsuc by mach. mach.
    + intros Hloop. destruct (IH (S k) cur2 w2 bs2 Hp2 Hbef2 Hsent1 Hloop) as (Hbs & Hr' & Hd). split; [done|]. split; [lia|]. intros Hr1.
      destruct (Hd Hr1) as [Hk Hup]. split; [done|]. intros Hne Hlt. destruct (decide (cur2 = cur)) as [->|]; [by apply Hup|lia].
  - intros [= <- <- <- <-]. split; [by eexists|]. split; [lia|done].
Qed.

Lemma fetch_loop_progress best fuel k cur w w0 local bs :
  0 < max_blocks_batch config ≤ U64_MAX → 0 ≤ local → 0 ≤ best ≤ U64_MAX → cur ≤ best → best - cur ≤ Z.of_nat fuel → progress w0 local w cur bs →
  Forall (made_before k 0) bs → length (sent w) = (S (length (sent w0)) + k)%nat →
  ∃ w' cur' bs' r, fetch_loop config best net fuel k cur w = Some (w', cur', r) ∧ progress w0 local w' cur' bs' ∧ cur' ≤ best.
Proof.
  intros Hmax Hl Hbest. revert k cur w bs. induction fuel as [|fuel IH]; intros k cur w bs Hle Hfuel Hp Hbef Hsent; cbn [fetch_loop].
  { rewrite (proj2 (Z.ltb_ge _ _)) by lia. eexists _, _, _, _. split; [done|]. by split. }
  pose proof (pr_range _ _ _ _ _ Hp) as Hr. destruct (Z.ltb_spec cur best) as [Hlt|]; [|eexists _, _, _, _; split; [done|]; by split]. cbn [negb].
  set (batch_end := Z.min _ best). destruct (serialize_sync_message _ _) as [req|e]; [|eexists _, _, _, _; split; [done|]; by split].
  assert (0 ≤ batch_end ≤ best ∧ batch_end ≠ cur) as [Hbe Hne].
  { pose proof (Z.mod_pos_bound (cur + max_blocks_batch config) (2 ^ 64)). unfold batch_end, add64, wrap64 in *. split; [lia|].
    destruct (decide (cur + max_blocks_batch config < 2 ^ 64)); [rewrite Z.mod_small by mach; lia|].
    rewrite <-(Z.mod_add _ (-1)), Z.mod_small by mach. mach. }
  destruct (attempts_loop config req batch_end net _ k cur w) as [[[w1 cur1] k1] r1] eqn:Ha.
  destruct (attempts_loop_progress req batch_end _ k cur w w0 local bs w1 cur1 k1 r1 Hl ltac:(lia) Hp Hbef Hsent Ha) as ((bs1 & Hp1 & Hbef1) & Hr1 & Hs1).
  destruct r1 as [[]|e]; [|eexists _, _, _, _; split; [done|]; split; [done|lia]..]. destruct (Hs1 eq_refl) as [Hk Hup]. specialize (Hup Hne ltac:(lia)).
  apply (IH k1 cur1 _ bs1); [lia|lia|by destruct (persist_batch config); [apply progress_persist|]|done|by destruct (persist_batch config)].
Qed.
End progress.

(** ** The whole call *)

Section result.
Context `{SyncCodec, !SyncCodecLaws}.

(** The greatest of [local] and the heights that peers claim. *)
Definition best_claim (local : Z) (polls : list (option bytes)) : Z :=
  foldl (λ b m, match poll_status m with Some st => Z.max b (sr_height st) | None => b end) local polls.

Lemma poll_status_range m st : poll_status m = Some st → u64_ok (sr_height st).
Proof. destruct m as [m|]; cbn; [|done]. repeat case_match; try done. apply decoded_height. Qed.

Lemma status_loop polls config net w0 local w b bp bs w' b' bp' :
  foldl status_turn (w, (b, bp)) polls = (w', (b', bp')) → progress config net w0 local w local bs → u64_ok b →
  b' = best_claim b polls ∧ u64_ok b' ∧ progress config net w0 local w' local bs ∧ sent w' = sent w.
Proof.
  revert w b bp. induction polls as [|m polls IH]; intros w b bp; cbn [foldl best_claim].
  { intros [= <- <- <-] Hp Hb. done. }
  unfold status_turn at 2. destruct (poll_status m) as [st|] eqn:Hm; [|apply IH]. intros Hf Hp Hb.
  pose proof (poll_status_range _ _ Hm) as Hst. destruct (Z.ltb_spec b (sr_height st)).
  - rewrite Z.max_r by lia. eapply IH in Hf; [exact Hf|by eapply progress_same|done].
  - rewrite Z.max_l by lia. eapply IH in Hf; [exact Hf|by eapply progress_same|done].
Qed.

Lemma sync_start_progress config net now w :
  0 ≤ blocks_applied (ss w) ≤ U64_MAX →
  progress config net w (load_persisted_height w) (sync_start now (load_persisted_height w) w) (load_persisted_height w) [].
Proof.
  intros Hb. pose proof (load_range w) as Hl. unfold sync_start. set (h := load_persisted_height w) in *.
  destruct (0 <? h) eqn:Hh; split; cbn; rewrite ?Hh; try done; try mach; try by constructor.
  all: change (load_persisted_height _) with h; lia.
Qed.

Lemma sync_start_sent now local w : sent (sync_start now local w) = sent w.
Proof. unfold sync_start. by destruct (0 <? local). Qed.

Lemma best_claim_ge local polls : local ≤ best_claim local polls.
Proof.
  revert local. induction polls as [|m polls IH]; intros local; cbn; [lia|]. destruct (poll_status m) as [st|]; [|apply IH].
  transitivity (Z.max local (sr_height st)); [lia|apply IH].
Qed.

(** What the caller sees of a world [w'] that a sync from [w] leaves. *)
Definition outcome (config : SyncConfig) (env : Env) (w w' : World) (r : result unit SyncError) (bs : list Receipt) : Prop :=
  let local := load_persisted_height w in
  let h := local_height (ss w') in
  local ≤ h ≤ best_claim local (env_statuses env) ∧
  Forall (fetched config (env_attempts env)) bs ∧ in_sequence bs ∧
  Forall (λ r, (S (length (sent w)) + rc_attempt r < length (sent w'))%nat) bs ∧ (h < U64_MAX → Z.of_nat (length bs) = h - local) ∧
  blocks_applied (ss w') = Z.min (blocks_applied (ss w) + Z.of_nat (length bs)) U64_MAX ∧
  engine w' = (if 0 <? h then (λ _, h) <$> engine w else engine w) ∧
  match r with
  | Ok _ => is_syncing w' = false ∧ load_persisted_height w' = h
  | Err _ => local ≤ load_persisted_height w' ≤ h
  end.

Lemma progress_outcome config env w0 w w1 w' cur bs r :
  load_persisted_height w0 = load_persisted_height w → blocks_applied (ss w0) = blocks_applied (ss w) → engine w0 = engine w → sent w0 = sent w →
  progress config (env_attempts env) w0 (load_persisted_height w0) w1 cur bs → cur ≤ best_claim (load_persisted_height w) (env_statuses env) →
  local_height (ss w') = cur → engine w' = engine w1 → blocks_applied (ss w') = blocks_applied (ss w1) → sent w' = sent w1 →
  match r with
  | Ok _ => is_syncing w' = false ∧ load_persisted_height w' = cur
  | Err _ => load_persisted_height w' = load_persisted_height w1
  end → outcome config env w w' r bs.
Proof.
  intros H1 H2 H3 H4 Hp Hb E1 E2 E3 E5 E4. unfold outcome. rewrite E1, E2, E3, E5, <-H1, <-H2, <-H3, <-H4. rewrite <-H1 in Hb. pose proof (pr_range _ _ _ _ _ _ _ Hp).
  split; [lia|]. do 6 (split; [apply Hp|]).
  destruct r; [done|]. rewrite E4. apply Hp.
Qed.

(** C31: Block sync keeps the height of the node honest and returns. Whatever peers
    send, a sync with a valid configuration ends at a height between the persisted
    one and the greatest height claimed; each step up is paid for by a poll of its own,
    one that an attempt which was broadcast made after the polls for the steps before,
    whose message has a block with the header's height as the height it claims and, if
    asked for, a proposer; the counter
    of applied blocks and the height of the engine agree with that height; and after
    a success the persisted height is the same, after an error it is not above. *)
Theorem sync_heights config env w :
  SyncConfig_validate config = Ok tt → 0 ≤ max_blocks_batch config ≤ U64_MAX → 0 ≤ blocks_applied (ss w) ≤ U64_MAX →
  ∃ w' r bs, sync_from_peers config env w = Some (w', r) ∧ outcome config env w w' r bs.
Proof.
  intros Hval Hmax Hb. unfold sync_from_peers. rewrite Hval.
  assert (0 < max_blocks_batch config) as Hpos by (unfold SyncConfig_validate in Hval; repeat case_match; try done; lia).
  set (w0 := if _ && _ then _ else w). assert (files w0 = files w ∧ ss w0 = ss w ∧ engine w0 = engine w ∧ sent w0 = sent w) as (Hf & Hss & He & Hse).
  { unfold w0, init_sync_metrics. destruct (_ && _); [|done]. by destruct (metrics w). }
  assert (load_persisted_height w0 = load_persisted_height w) as Hl by (unfold load_persisted_height; by rewrite Hf).
  set (local := load_persisted_height w0) in *. pose proof (load_range w0) as Hlr. fold local in Hlr.
  pose proof (sync_start_progress config (env_attempts env) (env_now env) w0 ltac:(by rewrite Hss)) as Hp. fold local in Hp.
  set (w1 := sync_start (env_now env) local w0) in *. pose proof (best_claim_ge local (env_statuses env)) as Hge.
  assert (blocks_applied (ss w0) = blocks_applied (ss w)) as Hba by by rewrite Hss.
  pose proof (λ w2 w' cur bs r, progress_outcome config env w0 w w2 w' cur bs r Hl Hba He Hse) as Hout. rewrite <-Hl in Hout.
  destruct (serialize_sync_message KindGetStatus _) as [st|e]; [|exists w1, (Err e), []; split; [done|]; by apply (Hout w1 w1 local); [..|apply Hp| | | |]].
  destruct (env_contacted env) as [n|e]; [|exists w1, (Err e), []; split; [done|]; by apply (Hout w1 w1 local); [..|apply Hp| | | |]].
  set (w2 := count _ _). assert (progress config (env_attempts env) w0 local w2 local []) as Hp2 by (eapply progress_same; try done; by eexists).
  assert (load_persisted_height w2 = local) as Hl2 by (pose proof (pr_file _ _ _ _ _ _ _ Hp2); lia).
  destruct (n =? 0); [eexists _, (Ok tt), []; split; [done|]; by apply (Hout w2 _ local); [..|apply Hp2| | | |]|].
  destruct (foldl status_turn (w2, (local, None)) (env_statuses env)) as [w3 [best bp]] eqn:Hfold.
  destruct (status_loop _ config (env_attempts env) w0 local _ _ _ [] _ _ _ Hfold Hp2 Hlr) as (Hbest & Hbr & Hp3 & Hs3).
  assert (load_persisted_height w3 = local) as Hl3 by (pose proof (pr_file _ _ _ _ _ _ _ Hp3); lia).
  destruct (Z.leb_spec best local); [eexists _, (Ok tt), []; split; [done|]; by apply (Hout w3 _ local); [..|apply Hp3| | | |]|].
  set (w4 := w3 <| ss := _ |>). assert (progress config (env_attempts env) w0 local w4 local []) as Hp4 by by eapply progress_same.
  assert (length (sent w4) = (S (length (sent w0)) + 0)%nat) as Hk.
  { change (sent w4) with (sent w3). rewrite Hs3. change (sent w2) with (sent w1 ++ [st]). unfold w1. rewrite length_app, sync_start_sent. cbn. lia. }
  destruct (fetch_loop_progress config (env_attempts env) best (Z.to_nat (best - local)) 0 local w4 w0 local []) as (w5 & cur & bs & r & -> & Hp5 & Hcur);
    [mach..|done|constructor|done|]. pose proof (pr_range _ _ _ _ _ _ _ Hp5).
  destruct r as [e|]; [exists w5, (Err e), bs; split; [done|]; apply (Hout w5 w5 cur); [done|lia|apply Hp5|done..]|].
  eexists _, (Ok tt), bs. split; [done|]. apply (Hout w5 _ cur); [exact Hp5|lia|reflexivity..|]. split; [done|]. exact (load_persist cur w5 ltac:(mach)).
Qed.
End result.

(** ** Examples *)

Definition ex_header (h : Z) : BlockHeader := mkBlockHeader h 0 [] [] [] [1] "a" 1 0 1000 0 0.

(** A codec whose messages are one number. *)
#[local] Instance ex_codec : SyncCodec := {|
  encode_get_status g := Ok [gs_height g];
  encode_get_blocks g := Ok [gb_from g; gb_to g];
  decode_status_response p := match p with [h] => if (0 <=? h) && (h <=? U64_MAX) then Some (mkStatusResponse h [] "peer") else None | _ => None end;
  decode_block_data p := match p with [h] => Some (mkBlockData (mkBlock (ex_header h) [] 0) h) | _ => None end;
|}.

#[local] Instance ex_codec_laws : SyncCodecLaws.
Proof. split. intros [|h [|]] st; cbn; try done. destruct (_ && _) eqn:E; [|done]. intros [= <-]. cbn. mach. Qed.

Definition ex_world : World := mkWorld SyncState_new ∅ (Some 0) None [].

(** One peer claims height [n]; every poll for blocks gives the block [b]. *)
Definition ex_env (n b : Z) : Env := mkEnv 0 None (Ok 1) [Some [0x11; n]] (λ _, mkAttempt (Ok 1) (replicate 100 (Some [0x13; b]))).

Definition ex_result (n b : Z) : option (Z * bool * Z) :=
  match sync_from_peers SyncConfig_default (ex_env n b) ex_world with
  | Some (w', r) => Some (local_height (ss w'), is_syncing w', load_persisted_height w')
  | None => None
  end.

Lemma sync_heights_witness :
  ∃ w' r bs, sync_from_peers SyncConfig_default (ex_env 40 7) ex_world = Some (w', r) ∧ outcome SyncConfig_default (ex_env 40 7) ex_world w' r bs.
Proof. apply sync_heights; [reflexivity|vm_compute; split; discriminate|vm_compute; split; discriminate]. Defined.

(** ** Where the code departs from its documentation *)

(** Each received block counts twice towards the batch, so a batch is taken to be
    complete after half of its blocks and three attempts do not fetch 15 blocks: the
    sync stops at 14 of 15 and reports success, though every poll has a block. *)
Lemma sync_stops_short : ex_result 15 7 = Some (14, false, 14).
Proof. by vm_compute. Qed.

(** The same block again and again takes the node to any height that a peer claims:
    neither the height of a block nor its parent or signature is checked. *)
Lemma one_block_syncs_all : ex_result 40 7 = Some (40, false, 40).
Proof. by vm_compute. Qed.

(** After an error the node stays marked as syncing. *)
Lemma error_stays_syncing :
  match sync_from_peers SyncConfig_default (mkEnv 0 None (Ok 1) [Some [0x11; 40]] (λ _, mkAttempt (Err (Network "down")) [])) ex_world with
  | Some (w', r) => is_err r && is_syncing w'
  | None => false
  end = true.
Proof. by vm_compute. Qed.

(** [atomic_persist] writes the temporary file only. *)
Lemma atomic_persist_leaves_file data path w : files (atomic_persist data path w) !! path = files w !! path.
Proof.
  unfold atomic_persist. cbn. apply lookup_insert_ne. induction path as [|c path IH]; [done|]. cbn. intros [= Hp]. by apply IH.
Qed.

(** A persisted height that cannot be parsed starts the chain again at 0. *)
Lemma bad_height_file_resets w : load_persisted_height (w <| files := <[HEIGHT_PERSIST_PATH := [49; 120]]> (files w) |>) = 0.
Proof. unfold load_persisted_height. cbn -[from_utf8_lossy]. by rewrite lookup_insert_eq. Qed.
