(* ===== verification/Dns.v ===== *)
(** * The DNS resolver ([src/src/net/dns.rs]).

    Building queries, parsing responses, the cache and the manager that tries the
    cache, literal addresses and the servers in turn. Names and packets are their
    bytes; a panic is [None]. The clock and the network are an environment: for each
    query it has the result of binding a socket and, for each attempt, the datagrams
    that arrive before its deadline. Locks are held for single steps, so that calls
    are sequences of atomic operations; log output is left out. *)

From Stdlib Require Import ZArith Lia Bool.
From stdpp Require Import base gmap sets strings numbers list.
From S2P Require Import Prelude Types Digits.

Local Open Scope Z_scope.

(** ** Data *)

Abbreviation name := (list Z).
Abbreviation ip := (list Z).

Inductive DnsError :=
| Timeout | ServerError (rcode : Z) | NxDomain | NoARecord | Truncated
| MalformedPacket (m : string) | Io (m : string) | CacheFull | Config (m : string) | Internal (m : string).

Record DnsConfig := mkDnsConfig {
  timeout_ms : Z;
  retries : Z;
  cache_size : Z;
  cache_ttl_secs : Z;
  default_dns_server : ip;
  fallback_servers : list ip;
  collect_metrics : bool;
  log_queries : bool;
}.

Record DnsMetrics := mkDnsMetrics {
  queries_total : Z; cache_hits : Z; cache_misses : Z; cache_evictions : Z;
  successes : Z; failures : Z; timeouts : Z; nxdomain : Z;
}.
#[export] Instance eta_dns_metrics : Settable DnsMetrics := λ m,
  mkDnsMetrics (queries_total m) (cache_hits m) (cache_misses m) (cache_evictions m) (successes m) (failures m) (timeouts m) (nxdomain m).

Record CacheEntry := mkCacheEntry { ce_ip : ip; expires_at : Z }.
#[export] Instance eta_cache_entry : Settable CacheEntry := λ e, mkCacheEntry (ce_ip e) (expires_at e).

Record DnsCache := mkDnsCache {
  entries : gmap name CacheEntry;
  order : list name;
  capacity : Z;
  ttl_secs : Z;
}.
#[export] Instance eta_dns_cache : Settable DnsCache := λ c, mkDnsCache (entries c) (order c) (capacity c) (ttl_secs c).

(** [outbox] is not a field of the source: it has the datagrams sent so far, with
    their servers. *)
Record DnsManager := mkDnsManager {
  config : DnsConfig;
  cache : DnsCache;
  metrics : DnsMetrics;
  dns_servers : list ip;
  outbox : list (list Z * ip);
}.
#[export] Instance eta_dns_manager : Settable DnsManager := λ m,
  mkDnsManager (config m) (cache m) (metrics m) (dns_servers m) (outbox m).

Definition DnsConfig_default : DnsConfig := mkDnsConfig 3000 3 128 300 [8; 8; 8; 8] [[1; 1; 1; 1]; [9; 9; 9; 9]] true true.

Definition DnsConfig_validate (c : DnsConfig) : result unit string :=
  if timeout_ms c =? 0 then Err "timeout_ms must be > 0"
  else if retries c =? 0 then Err "retries must be > 0"
  else if cache_size c =? 0 then Err "cache_size must be > 0"
  else if cache_ttl_secs c =? 0 then Err "cache_ttl_secs must be > 0"
  else Ok tt.

(** ** Counters *)

Definition inc_queries (m : DnsMetrics) : DnsMetrics := m <| queries_total := add64 (queries_total m) 1 |>.
Definition inc_cache_hit (m : DnsMetrics) : DnsMetrics := m <| cache_hits := add64 (cache_hits m) 1 |>.
Definition inc_cache_miss (m : DnsMetrics) : DnsMetrics := m <| cache_misses := add64 (cache_misses m) 1 |>.
Definition inc_evictions (m : DnsMetrics) : DnsMetrics := m <| cache_evictions := add64 (cache_evictions m) 1 |>.
Definition inc_success (m : DnsMetrics) : DnsMetrics := m <| successes := add64 (successes m) 1 |>.
Definition inc_failures (m : DnsMetrics) : DnsMetrics := m <| failures := add64 (failures m) 1 |>.

(** ** Cache *)

Definition DnsCache_new (c : DnsConfig) : DnsCache := mkDnsCache ∅ [] (cache_size c) (cache_ttl_secs c).

Definition cache_get (n : name) (now_ms : Z) (c : DnsCache) : option ip :=
  match entries c !! n with
  | Some e => if now_ms <? expires_at e then Some (ce_ip e) else None
  | None => None
  end.

Definition cache_insert (n : name) (a : ip) (now_ms : Z) (m : DnsMetrics) (c : DnsCache) : DnsCache * DnsMetrics * result unit DnsError :=
  let expires := add64 now_ms (mul64 (ttl_secs c) 1000) in
  match entries c !! n with
  | Some e =>
    (c <| entries := <[n := e <| expires_at := expires |>]> (entries c) |> <| order := filter (λ x, x ≠ n) (order c) ++ [n] |>, m, Ok tt)
  | None =>
    let evicted :=
      if capacity c <=? Z.of_nat (size (entries c)) then
        match order c with
        | old :: rest => Ok (c <| entries := delete old (entries c) |> <| order := rest |>, inc_evictions m)
        | [] => Err CacheFull
        end
      else Ok (c, m) in
    match evicted with
    | Err e => (c, m, Err e)
    | Ok (c, m) => (c <| entries := <[n := mkCacheEntry a expires]> (entries c) |> <| order := order c ++ [n] |>, m, Ok tt)
    end
  end.

Definition cache_clear (c : DnsCache) : DnsCache := c <| entries := ∅ |> <| order := [] |>.

(** ** Queries *)

(** [str::split] at a character of one byte. *)
Fixpoint split_at (c : Z) (l : list Z) : list (list Z) :=
  match l with
  | [] => [[]]
  | x :: l =>
    if x =? c then [] :: split_at c l
    else match split_at c l with
         | part :: parts => (x :: part) :: parts
         | [] => [[x]]
         end
  end.

Definition build_query (n : name) (tx_id : Z) : list Z :=
  be_bytes 2 tx_id ++ [0x01; 0x00] ++ [0x00; 0x01] ++ [0x00; 0x00] ++ [0x00; 0x00] ++ [0x00; 0x00] ++
  concat ((λ part, (Z.of_nat (length part) `mod` 256) :: part) <$> split_at 46 n) ++ [0] ++
  [0x00; 0x01] ++ [0x00; 0x01].

(** ** Parser *)

(** Positions are below the length of the packet plus 320, so that their sums do not overflow. *)
Fixpoint skip_loop (fuel : nat) (data : list Z) (pos : nat) : option (option nat) :=
  match fuel with
  | O => None
  | S fuel =>
    match data !! pos with
    | None => Some None
    | Some len =>
      if len =? 0 then Some (Some (pos + 1)%nat)
      else if Z.land len 0xC0 =? 0xC0 then Some (Some (pos + 2)%nat)
      else skip_loop fuel data (pos + 1 + Z.to_nat len)
    end
  end.

Definition skip_name (data : list Z) (pos : nat) : option (option nat) := skip_loop (S (length data - pos)) data pos.

Definition u16_at (data : list Z) (pos : nat) : option Z :=
  hi ← data !! pos; lo ← data !! (pos + 1)%nat; Some (be_value [hi; lo]).

#[global] Arguments skip_name : simpl never.
#[global] Arguments u16_at : simpl never.
#[local] Arguments Nat.ltb : simpl never.

(** The loop over questions; [None] is a panic. *)
Fixpoint questions_loop (n : nat) (data : list Z) (pos : nat) : option (result nat DnsError) :=
  match n with
  | O => Some (Ok pos)
  | S n =>
    skipped ← skip_name data pos;
    match skipped with
    | None => Some (Err (MalformedPacket "bad QNAME"))
    | Some pos =>
      let pos := (pos + 4)%nat in
      if (length data <? pos)%nat then Some (Err (MalformedPacket "overflow")) else questions_loop n data pos
    end
  end.

Fixpoint answers_loop (n : nat) (data : list Z) (pos : nat) : option (result ip DnsError) :=
  match n with
  | O => Some (Err NoARecord)
  | S n =>
    skipped ← skip_name data pos;
    match skipped with
    | None => Some (Err (MalformedPacket "bad NAME"))
    | Some pos =>
      if (length data <? pos + 10)%nat then Some (Err (MalformedPacket "answer too short")) else
      rtype ← u16_at data pos;
      rdlen ← u16_at data (pos + 8);
      let pos := (pos + 10)%nat in
      if (length data <? pos + Z.to_nat rdlen)%nat then Some (Err (MalformedPacket "RDATA overflow")) else
      if (rtype =? 1) && (rdlen =? 4) then
        a ← data !! pos; b ← data !! (pos + 1)%nat; c ← data !! (pos + 2)%nat; d ← data !! (pos + 3)%nat;
        Some (Ok [a; b; c; d])
      else answers_loop n data (pos + Z.to_nat rdlen)
    end
  end.

Definition parse_response (data : list Z) : option (result ip DnsError) :=
  if (length data <? 12)%nat then Some (Err (MalformedPacket "too short")) else
  flags ← u16_at data 2;
  let rcode := Z.land flags 0x000F in
  ancount ← u16_at data 6;
  qdcount ← u16_at data 4;
  if Z.land flags 0x8000 =? 0 then Some (Err (MalformedPacket "not a response")) else
  if rcode =? 3 then Some (Err NxDomain) else
  if negb (rcode =? 0) then Some (Err (ServerError rcode)) else
  if ancount =? 0 then Some (Err NoARecord) else
  if negb (Z.land flags 0x0200 =? 0) then Some (Err Truncated) else
  questions ← questions_loop (Z.to_nat qdcount) data 12;
  match questions with
  | Err e => Some (Err e)
  | Ok pos => answers_loop (Z.to_nat ancount) data pos
  end.

(** ** Sending a query *)

(** What the network does during one query. *)
Record Query := mkQuery {
  q_uptime : Z;
  q_bound : bool;
  q_arrived : nat → list (list Z);
}.

Definition is_final (e : DnsError) : bool := match e with NxDomain | NoARecord => true | _ => false end.

(** The datagrams of one attempt: the address found, or the last error. *)
Fixpoint poll_loop (tx_id : Z) (packets : list (list Z)) (last : DnsError) : option (result ip DnsError) :=
  match packets with
  | [] => Some (Err last)
  | p :: packets =>
    if (12 <=? length p)%nat then
      resp_id ← u16_at p 0;
      if resp_id =? tx_id then
        parsed ← parse_response p;
        match parsed with
        | Ok a => Some (Ok a)
        | Err e => if is_final e then Some (Err e) else poll_loop tx_id packets e
        end
      else poll_loop tx_id packets last
    else poll_loop tx_id packets last
  end.

(** [n] attempts are left, the next one is number [k]; each sends the query again.
    The result has the number of attempts made. *)
Fixpoint attempts_loop (tx_id : Z) (arrived : nat → list (list Z)) (n k : nat) (last : DnsError) : option (nat * result ip DnsError) :=
  match n with
  | O => Some (k, Err last)
  | S n =>
    polled ← poll_loop tx_id (arrived k) last;
    match polled with
    | Ok a => Some (S k, Ok a)
    | Err e => attempts_loop tx_id arrived n (S k) e
    end
  end.

Definition tx_id_of (q : Query) : Z := Z.land (q_uptime q) 0xFFFF.

Definition send_query (hostname : name) (dns_server : ip) (retries : Z) (q : Query) (m : DnsManager) : option (DnsManager * result ip DnsError) :=
  let tx_id := tx_id_of q in
  let query := build_query hostname tx_id in
  if negb (q_bound q) then Some (m, Err (Io "failed to bind UDP socket")) else
  found ← attempts_loop tx_id (q_arrived q) (Z.to_nat retries) 0 Timeout;
  let m := m <| outbox := outbox m ++ replicate found.1 (query, dns_server) |> in
  match found.2 with
  | Ok a => Some (m <| metrics := inc_success (metrics m) |>, Ok a)
  | Err e => Some (m <| metrics := inc_failures (metrics m) |>, Err e)
  end.

(** ** Manager *)

(** [None]: the configuration is invalid, and [expect] panics. *)
Definition DnsManager_new (c : DnsConfig) : option DnsManager :=
  match DnsConfig_validate c with
  | Ok _ => Some (mkDnsManager c (DnsCache_new c) (mkDnsMetrics 0 0 0 0 0 0 0 0) (default_dns_server c :: fallback_servers c) [])
  | Err _ => None
  end.

Definition set_dns_servers (servers : list ip) (m : DnsManager) : DnsManager :=
  m <| dns_servers := match servers with [] => [default_dns_server (config m)] | _ => servers end |>.

Definition parse_ipv4 (s : name) : option ip :=
  let parts := split_at 46 s in
  if negb (length parts =? 4)%nat then None else mapM (parse_uint U8_MAX) parts.

Definition localhost : name := string_bytes "localhost".

(** [let _ = cache.insert(...)], under the write lock. *)
Definition remember (n : name) (a : ip) (now_ms : Z) (m : DnsManager) : DnsManager :=
  let '(c, ms, _) := cache_insert n a now_ms (metrics m) (cache m) in m <| cache := c |> <| metrics := ms |>.

(** The loop over servers; [qs] has what the network does for each. *)
Fixpoint servers_loop (hostname : name) (now_ms : Z) (servers : list ip) (qs : nat → Query) (k : nat) (last : DnsError) (m : DnsManager)
    : option (DnsManager * result ip DnsError) :=
  match servers with
  | [] => Some (m <| metrics := inc_failures (metrics m) |>, Err last)
  | server :: servers =>
    sent ← send_query hostname server (retries (config m)) (qs k) m;
    let '(m, r) := sent in
    match r with
    | Ok a => Some (remember hostname a now_ms m, Ok a)
    | Err e =>
      if is_final e then Some (m <| metrics := inc_failures (metrics m) |>, Err e)
      else servers_loop hostname now_ms servers qs (S k) e m
    end
  end.

Definition resolve (hostname : name) (now_ms : Z) (qs : nat → Query) (m : DnsManager) : option (DnsManager * result ip DnsError) :=
  let m := m <| metrics := inc_queries (metrics m) |> in
  match cache_get hostname now_ms (cache m) with
  | Some a => Some (m <| metrics := inc_cache_hit (metrics m) |>, Ok a)
  | None =>
    let m := m <| metrics := inc_cache_miss (metrics m) |> in
    match parse_ipv4 hostname with
    | Some a => Some (remember hostname a now_ms m, Ok a)
    | None =>
      if bool_decide (hostname = localhost) || bool_decide (hostname = string_bytes "127.0.0.1") then Some (m, Ok [127; 0; 0; 1])
      else servers_loop hostname now_ms (dns_servers m) qs 0 Timeout m
    end
  end.

Definition clear_cache (m : DnsManager) : DnsManager := m <| cache := cache_clear (cache m) |>.

(** ** The parser never panics *)

Lemma skip_loop_total fuel data pos : (length data - pos < fuel)%nat → is_Some (skip_loop fuel data pos).
Proof.
  revert pos. induction fuel as [|fuel IH]; intros pos Hf; [lia|]. cbn. destruct (data !! pos) as [len|] eqn:E; [|by eexists].
  apply lookup_lt_Some in E. destruct (len =? 0); [by eexists|]. destruct (_ =? _); [by eexists|]. apply IH. lia.
Qed.

Lemma skip_name_total data pos : is_Some (skip_name data pos).
Proof. apply skip_loop_total. lia. Qed.

Lemma u16_at_total data pos : (pos + 2 ≤ length data)%nat → is_Some (u16_at data pos).
Proof.
  intros Hl. unfold u16_at. destruct (lookup_lt_is_Some_2 data pos ltac:(lia)) as [a ->]. cbn.
  by destruct (lookup_lt_is_Some_2 data (pos + 1)%nat ltac:(lia)) as [b ->].
Qed.

Lemma questions_loop_total n data pos : is_Some (questions_loop n data pos).
Proof.
  revert pos. induction n as [|n IH]; intros pos; cbn; [by eexists|]. destruct (skip_name_total data pos) as [[p|] ->]; cbn; [|by eexists].
  case_match; [by eexists|apply IH].
Qed.

(** An answer lies within the packet. *)
Lemma answers_loop_total n data pos :
  ∃ r, answers_loop n data pos = Some r ∧ ∀ a, r = Ok a → ∃ p, (p + 4 ≤ length data)%nat ∧ a = slice p 4 data.
Proof.
  revert pos. induction n as [|n IH]; intros pos; cbn; [by (eexists; split)|]. destruct (skip_name_total data pos) as [[p|] ->]; cbn; [|by (eexists; split)].
  destruct (Nat.ltb_spec (length data) (p + 10)); [by (eexists; split)|].
  destruct (u16_at_total data p ltac:(lia)) as [rtype ->], (u16_at_total data (p + 8) ltac:(lia)) as [rdlen ->]. cbn.
  destruct (Nat.ltb_spec (length data) (p + 10 + Z.to_nat rdlen)); [by (eexists; split)|].
  destruct ((rtype =? 1) && (rdlen =? 4)) eqn:E; [|apply IH]. apply andb_true_iff in E as [_ ->%Z.eqb_eq]. cbn in *.
  destruct (lookup_lt_is_Some_2 data (p + 10)%nat ltac:(lia)) as [a Ha], (lookup_lt_is_Some_2 data (p + 10 + 1)%nat ltac:(lia)) as [b Hb],
    (lookup_lt_is_Some_2 data (p + 10 + 2)%nat ltac:(lia)) as [c Hc], (lookup_lt_is_Some_2 data (p + 10 + 3)%nat ltac:(lia)) as [d Hd].
  rewrite Ha, Hb, Hc, Hd. cbn. eexists. split; [done|]. intros ? [= <-]. exists (p + 10)%nat. split; [lia|]. unfold slice.
  rewrite (drop_S _ _ _ Ha), (drop_S _ b), (drop_S _ c), (drop_S _ d) by (rewrite <-?Hb, <-?Hc, <-?Hd; f_equal; lia). done.
Qed.

Lemma parse_total data :
  ∃ r, parse_response data = Some r ∧ ∀ a, r = Ok a → ∃ p, (p + 4 ≤ length data)%nat ∧ a = slice p 4 data.
Proof.
  unfold parse_response. destruct (Nat.ltb_spec (length data) 12); [by (eexists; split)|].
  destruct (u16_at_total data 2 ltac:(lia)) as [flags ->], (u16_at_total data 6 ltac:(lia)) as [an ->], (u16_at_total data 4 ltac:(lia)) as [qd ->]. cbn.
  repeat (case_match; [by (eexists; split)|]). destruct (questions_loop_total (Z.to_nat qd) data 12) as [[pos|e] ->]; cbn; [|by (eexists; split)].
  apply answers_loop_total.
Qed.

(** ** The format of a response (RFC 1035, section 4.1) *)

Inductive NameEnd := Root | Pointer (hi lo : Z).
Record Name := mkName { labels : list (list Z); name_end : NameEnd }.

Definition encode_label (l : list Z) : list Z := Z.of_nat (length l) :: l.

Definition encode_name (n : Name) : list Z :=
  concat (encode_label <$> labels n) ++ match name_end n with Root => [0] | Pointer hi lo => [0xC0 + hi; lo] end.

Record Question := mkQuestion { qn_name : Name; qn_type : Z; qn_class : Z }.

Definition encode_question (q : Question) : list Z := encode_name (qn_name q) ++ be_bytes 2 (qn_type q) ++ be_bytes 2 (qn_class q).

Record Answer := mkAnswer { an_name : Name; an_type : Z; an_class : Z; an_ttl : Z; an_data : list Z }.

Definition encode_answer (a : Answer) : list Z :=
  encode_name (an_name a) ++ be_bytes 2 (an_type a) ++ be_bytes 2 (an_class a) ++ be_bytes 4 (an_ttl a) ++
  be_bytes 2 (Z.of_nat (length (an_data a))) ++ an_data a.

(** [rs_rest]: the authority and additional sections. *)
Record Response := mkResponse {
  rs_id : Z;
  rs_flags : Z;
  rs_questions : list Question;
  rs_answers : list Answer;
  rs_nscount : Z;
  rs_arcount : Z;
  rs_rest : list Z;
}.

Definition encode_header (r : Response) : list Z :=
  be_bytes 2 (rs_id r) ++ be_bytes 2 (rs_flags r) ++ be_bytes 2 (Z.of_nat (length (rs_questions r))) ++
  be_bytes 2 (Z.of_nat (length (rs_answers r))) ++ be_bytes 2 (rs_nscount r) ++ be_bytes 2 (rs_arcount r).

Definition encode_response (r : Response) : list Z :=
  encode_header r ++ concat (encode_question <$> rs_questions r) ++ concat (encode_answer <$> rs_answers r) ++ rs_rest r.

Definition label_ok (l : list Z) : Prop := (0 < length l ≤ 63)%nat.

Definition name_ok (n : Name) : Prop :=
  Forall label_ok (labels n) ∧ match name_end n with Root => True | Pointer hi lo => 0 ≤ hi < 64 end.

Definition u16_ok (z : Z) : Prop := 0 ≤ z < 65536.

Definition answer_ok (a : Answer) : Prop := name_ok (an_name a) ∧ u16_ok (an_type a) ∧ u16_ok (Z.of_nat (length (an_data a))).

Record response_ok (r : Response) : Prop := {
  ro_flags : u16_ok (rs_flags r);
  ro_questions : Forall (λ q, name_ok (qn_name q)) (rs_questions r);
  ro_answers : Forall answer_ok (rs_answers r);
  ro_qdcount : u16_ok (Z.of_nat (length (rs_questions r)));
  ro_ancount : u16_ok (Z.of_nat (length (rs_answers r)));
}.

(** The first address among the answers. *)
Fixpoint first_a (l : list Answer) : option ip :=
  match l with
  | [] => None
  | a :: l => if (an_type a =? 1) && (Z.of_nat (length (an_data a)) =? 4) then Some (an_data a) else first_a l
  end.

(** What a resolver is to make of a response. *)
Definition meaning (r : Response) : result ip DnsError :=
  let rcode := rs_flags r `mod` 16 in
  if negb (Z.testbit (rs_flags r) 15) then Err (MalformedPacket "not a response")
  else if rcode =? 3 then Err NxDomain
  else if negb (rcode =? 0) then Err (ServerError rcode)
  else match rs_answers r with
       | [] => Err NoARecord
       | l => if Z.testbit (rs_flags r) 9 then Err Truncated else ok_or (first_a l) NoARecord
       end.

(** *** Reading what was written *)

Lemma be_bytes_2 v : be_bytes 2 v = [(v `div` 256) `mod` 256; v `mod` 256].
Proof. done. Qed.

Lemma u16_at_bytes pre v post : u16_ok v → u16_at (pre ++ be_bytes 2 v ++ post) (length pre) = Some v.
Proof.
  intros Hv. unfold u16_at. rewrite be_bytes_2. cbn [app]. rewrite (list_lookup_middle pre _ _ (length pre)) by done. cbn [mbind option_bind].
  rewrite lookup_app_r by lia. replace (length pre + 1 - length pre)%nat with 1%nat by lia. cbn. f_equal.
  change (be_value (be_bytes 2 v) = v). apply be_value_bytes. red in Hv. cbn. lia.
Qed.

Lemma top_bits v : 0 ≤ v < 256 → (Z.land v 0xC0 =? 0xC0) = (192 <=? v).
Proof.
  intros Hv. assert (forallb (λ n, eqb (Z.land (Z.of_nat n) 0xC0 =? 0xC0) (192 <=? Z.of_nat n)) (seq 0 256) = true) as Hf by reflexivity.
  rewrite forallb_forall in Hf. specialize (Hf (Z.to_nat v)). rewrite Z2Nat.id in Hf by lia. apply eqb_prop, Hf, in_seq. lia.
Qed.

Lemma skip_loop_name ls e pre post fuel :
  name_ok (mkName ls e) → (length ls < fuel)%nat →
  skip_loop fuel (pre ++ encode_name (mkName ls e) ++ post) (length pre) = Some (Some (length pre + length (encode_name (mkName ls e)))%nat).
Proof.
  intros [Hl He]. cbn in Hl, He. revert pre fuel. induction Hl as [|l ls Hl Hls IH]; intros pre fuel Hf; (destruct fuel as [|fuel]; [cbn in Hf; lia|]).
  - unfold encode_name. cbn. destruct e as [|hi lo]; cbn; rewrite list_lookup_middle by done; [done|].
    rewrite (proj2 (Z.eqb_neq _ _)), top_bits, (proj2 (Z.leb_le _ _)) by lia. done.
  - unfold encode_name in *. cbn [labels name_end fmap list_fmap concat skip_loop] in *. rewrite <-!app_assoc. unfold encode_label at 1 3. cbn [app].
    rewrite list_lookup_middle by done. red in Hl. rewrite (proj2 (Z.eqb_neq _ _)), top_bits, (proj2 (Z.leb_gt _ _)), Nat2Z.id by lia.
    specialize (IH (pre ++ encode_label l) fuel ltac:(cbn in Hf; lia)). rewrite <-!app_assoc, length_app in IH. unfold encode_label at 1 3 in IH. cbn [app length] in IH.
    replace (length pre + 1 + length l)%nat with (length pre + S (length l))%nat by lia.
    rewrite IH. do 2 f_equal. rewrite !length_app. cbn. lia.
Qed.

Lemma labels_length ls : (length ls ≤ length (concat (encode_label <$> ls)))%nat.
Proof. induction ls as [|l ls IH]; cbn; [lia|]. rewrite length_app. lia. Qed.

Lemma skip_name_encode n pre post : name_ok n →
  skip_name (pre ++ encode_name n ++ post) (length pre) = Some (Some (length pre + length (encode_name n))%nat).
Proof.
  destruct n as [ls e]. intros Hn. apply skip_loop_name; [done|]. rewrite !length_app. pose proof (labels_length ls). unfold encode_name. cbn.
  rewrite length_app. lia.
Qed.

Lemma u16_at_eq data n pre v post : data = pre ++ be_bytes 2 v ++ post → n = length pre → u16_ok v → u16_at data n = Some v.
Proof. intros -> ->. apply u16_at_bytes. Qed.

Lemma skip_question q pre post : name_ok (qn_name q) →
  ∃ p, skip_name (pre ++ encode_question q ++ post) (length pre) = Some (Some p) ∧ (p + 4 = length pre + length (encode_question q))%nat.
Proof.
  intros Hq. unfold encode_question. rewrite <-!app_assoc, skip_name_encode by done. eexists. split; [done|].
  rewrite !length_app, !length_be_bytes. lia.
Qed.

Lemma questions_loop_encode qs pre post :
  Forall (λ q, name_ok (qn_name q)) qs →
  questions_loop (length qs) (pre ++ concat (encode_question <$> qs) ++ post) (length pre) =
  Some (Ok (length (pre ++ concat (encode_question <$> qs)))).
Proof.
  intros Hq. revert pre. induction Hq as [|q qs Hq Hqs IH]; intros pre; cbn [length questions_loop fmap list_fmap concat].
  { by rewrite app_nil_r. }
  rewrite <-!app_assoc. destruct (skip_question q pre (concat (encode_question <$> qs) ++ post) Hq) as (p & -> & Hp). cbn [mbind option_bind].
  rewrite (proj2 (Nat.ltb_ge _ _)) by (rewrite !length_app; lia). specialize (IH (pre ++ encode_question q)).
  rewrite length_app, <-Hp, <-!app_assoc in IH. exact IH.
Qed.

(** The fields of an answer, where the parser reads them. *)
Lemma answer_fields a pre post (data := pre ++ encode_answer a ++ post) (pos := (length pre + length (encode_name (an_name a)))%nat) :
  answer_ok a →
  skip_name data (length pre) = Some (Some pos) ∧ u16_at data pos = Some (an_type a) ∧
  u16_at data (pos + 8) = Some (Z.of_nat (length (an_data a))) ∧
  (pos + 10 + length (an_data a) = length pre + length (encode_answer a))%nat ∧
  ∃ before, length before = (pos + 10)%nat ∧ data = before ++ an_data a ++ post.
Proof.
  intros (Hn & Ht & Hl). set (n := encode_name (an_name a)) in *. set (t := be_bytes 2 (an_type a)). set (c := be_bytes 2 (an_class a)).
  set (ttl := be_bytes 4 (an_ttl a)). set (len := be_bytes 2 (Z.of_nat (length (an_data a)))).
  assert (data = pre ++ n ++ t ++ c ++ ttl ++ len ++ an_data a ++ post) as Hd by (unfold data, encode_answer; by rewrite <-!app_assoc).
  assert (length t = 2%nat ∧ length c = 2%nat ∧ length ttl = 4%nat ∧ length len = 2%nat) as (Ht' & Hc' & Httl & Hlen) by done.
  rewrite Hd. split; [by apply skip_name_encode|]. split; [|split; [|split]].
  - by eapply (u16_at_eq _ _ (pre ++ n)); [by rewrite <-!app_assoc|by rewrite length_app|].
  - by eapply (u16_at_eq _ _ (pre ++ n ++ t ++ c ++ ttl)); [by rewrite <-!app_assoc|rewrite !length_app; lia|].
  - unfold encode_answer. fold n t c ttl len. rewrite !length_app. lia.
  - exists (pre ++ n ++ t ++ c ++ ttl ++ len). rewrite !length_app, <-!app_assoc. split; [lia|done].
Qed.

Lemma answers_loop_encode l pre post :
  Forall answer_ok l → answers_loop (length l) (pre ++ concat (encode_answer <$> l) ++ post) (length pre) = Some (ok_or (first_a l) NoARecord).
Proof.
  intros Hl. revert pre. induction Hl as [|a l Ha Hl IH]; intros pre; [done|]. cbn [length answers_loop fmap list_fmap concat first_a].
  rewrite <-!app_assoc. set (post' := concat _ ++ post). destruct (answer_fields a pre post' Ha) as (Hs & Ht & Hn & Hlen & before & Hb & Hd).
  set (pos := (length pre + length (encode_name (an_name a)))%nat) in *. rewrite Hs. cbn [mbind option_bind].
  assert (length (pre ++ encode_answer a ++ post') = pos + 10 + length (an_data a) + length post')%nat as Hld by (rewrite !length_app; lia).
  rewrite (proj2 (Nat.ltb_ge _ _)) by lia. rewrite Ht, Hn. cbn [mbind option_bind]. rewrite Nat2Z.id, (proj2 (Nat.ltb_ge _ _)) by lia.
  destruct (_ && _) eqn:E.
  - apply andb_true_iff in E as [_ Hd4%Z.eqb_eq]. rewrite Hd. destruct (an_data a) as [|x [|y [|z [|u [|]]]]]; try (cbn in Hd4; lia).
    assert (∀ i, (before ++ [x; y; z; u] ++ post') !! (pos + 10 + i)%nat = ([x; y; z; u] ++ post') !! i) as Hi
      by (intros i; rewrite lookup_app_r by lia; f_equal; lia).
    pose proof (Hi 0%nat) as H0. rewrite Nat.add_0_r in H0. by rewrite H0, (Hi 1%nat), (Hi 2%nat), (Hi 3%nat).
  - specialize (IH (pre ++ encode_answer a)). rewrite length_app, <-Hlen, <-app_assoc in IH. exact IH.
Qed.

Lemma header_fields r body :
  u16_ok (rs_flags r) → u16_ok (Z.of_nat (length (rs_questions r))) → u16_ok (Z.of_nat (length (rs_answers r))) →
  u16_at (encode_header r ++ body) 2 = Some (rs_flags r) ∧ u16_at (encode_header r ++ body) 6 = Some (Z.of_nat (length (rs_answers r))) ∧
  u16_at (encode_header r ++ body) 4 = Some (Z.of_nat (length (rs_questions r))).
Proof.
  intros Hf Hq Ha. unfold encode_header. rewrite <-!app_assoc. split; [|split].
  - by eapply (u16_at_eq _ _ (be_bytes 2 (rs_id r))).
  - by eapply (u16_at_eq _ _ (be_bytes 2 (rs_id r) ++ be_bytes 2 (rs_flags r) ++ be_bytes 2 (Z.of_nat (length (rs_questions r))))).
  - by eapply (u16_at_eq _ _ (be_bytes 2 (rs_id r) ++ be_bytes 2 (rs_flags r))).
Qed.

(** C32: The DNS parser is exact and safe. On any bytes it returns, and an address it
    gives lies within the packet. On a response in the format of RFC 1035, with any
    questions, any answers before and after, compressed names and further sections, it
    gives the first address among the answers, or the error that the flags call for. *)
Theorem dns_parse_exact :
  (∀ data, ∃ r, parse_response data = Some r ∧ ∀ a, r = Ok a → ∃ p, (p + 4 ≤ length data)%nat ∧ a = slice p 4 data) ∧
  (∀ r, response_ok r → parse_response (encode_response r) = Some (meaning r)).
Proof.
  split; [exact parse_total|]. intros r [Hfl Hqs Hans Hqd Han]. unfold parse_response, encode_response.
  set (body := concat (encode_question <$> _) ++ _). assert (length (encode_header r) = 12%nat) as Hh by done.
  rewrite (proj2 (Nat.ltb_ge _ _)) by (rewrite length_app; lia).
  destruct (header_fields r body Hfl Hqd Han) as (-> & -> & ->). cbn [mbind option_bind].
  unfold meaning. change 0x8000 with (Z.shiftl 1 15). change 0x0200 with (Z.shiftl 1 9). rewrite !test_bit, negb_involutive by lia.
  rewrite (Z.land_ones _ 4 ltac:(lia) : Z.land (rs_flags r) 15 = rs_flags r `mod` 16).
  case_match; [done|]. case_match; [done|]. case_match; [done|]. rewrite !Nat2Z.id. unfold body. clear body.
  destruct (rs_answers r) as [|a l] eqn:Ha; [done|]. rewrite <-Ha in *. rewrite (proj2 (Z.eqb_neq _ _)) by (rewrite Ha; cbn; lia).
  destruct (Z.testbit _ 9); [done|]. rewrite <-Hh, questions_loop_encode by done. cbn [mbind option_bind].
  rewrite app_assoc. by apply answers_loop_encode.
Qed.

(** ** Queries and literal addresses *)

Fixpoint join_dots (ls : list (list Z)) : list Z :=
  match ls with
  | [] => []
  | [l] => l
  | l :: ls => l ++ 46 :: join_dots ls
  end.

Lemma split_at_app c l rest : c ∉ l → split_at c (l ++ c :: rest) = l :: split_at c rest.
Proof.
  induction l as [|x l IH]; intros Hc; cbn; [by rewrite Z.eqb_refl|]. apply not_elem_of_cons in Hc as [Hx Hl].
  rewrite (proj2 (Z.eqb_neq x c)) by done. by rewrite IH.
Qed.

Lemma split_at_id c l : c ∉ l → split_at c l = [l].
Proof.
  induction l as [|x l IH]; intros Hc; cbn; [done|]. apply not_elem_of_cons in Hc as [Hx Hl].
  rewrite (proj2 (Z.eqb_neq x c)) by done. by rewrite IH.
Qed.

Lemma split_join ls : ls ≠ [] → Forall (λ l, 46 ∉ l) ls → split_at 46 (join_dots ls) = ls.
Proof.
  intros Hn Hl. induction Hl as [|l ls Hl Hls IH]; [done|]. destruct ls as [|l' ls]; [by apply split_at_id|].
  cbn [join_dots]. rewrite split_at_app by done. f_equal. by apply IH.
Qed.

(** A query for a name of proper labels asks for exactly that name: one question,
    of type A and class IN. *)
Lemma build_query_exact ls tx :
  ls ≠ [] → Forall (λ l, 46 ∉ l) ls → Forall label_ok ls →
  build_query (join_dots ls) tx = be_bytes 2 tx ++ [1; 0; 0; 1; 0; 0; 0; 0; 0; 0] ++ encode_question (mkQuestion (mkName ls Root) 1 1).
Proof.
  intros Hn Hd Hl. unfold build_query, encode_question, encode_name. rewrite split_join by done. cbn [qn_name labels name_end qn_type qn_class].
  rewrite <-!app_assoc. cbn [app]. do 12 f_equal. clear Hn Hd.
  induction Hl as [|l ls Hl Hls IH]; [done|]. cbn. rewrite IH. red in Hl. by rewrite Z.mod_small by lia.
Qed.

Lemma format_uint_no_dot n : 0 ≤ n → 46 ∉ format_uint n.
Proof. intros Hn Hd. pose proof (format_uint_digits n Hn) as Hf. rewrite Forall_forall in Hf. specialize (Hf _ Hd). unfold is_digit in Hf. lia. Qed.

(** Literal addresses are read as they are written. *)
Lemma parse_ipv4_dotted a : Forall byte_ok a → length a = 4%nat → parse_ipv4 (join_dots (format_uint <$> a)) = Some a.
Proof.
  intros Ha Hl. unfold parse_ipv4. rewrite split_join.
  - rewrite length_fmap, Hl. cbn [negb Nat.eqb]. clear Hl. induction Ha as [|x a Hx Ha IH]; [done|]. cbn.
    rewrite parse_format by mach. cbn. by rewrite IH.
  - by destruct a.
  - apply Forall_fmap, (Forall_impl _ _ _ Ha). intros x Hx. apply format_uint_no_dot. mach.
Qed.

(** ** Runs *)

Inductive DnsCmd :=
| CResolve (n : name) (now : Z) (qs : nat → Query)
| CInsert (n : name) (a : ip) (now : Z)
| CClear
| CServers (l : list ip).

Definition dns_cmd (c : DnsCmd) (m : DnsManager) : option DnsManager :=
  match c with
  | CResolve n now qs => fst <$> resolve n now qs m
  | CInsert n a now => Some (remember n a now m)
  | CClear => Some (clear_cache m)
  | CServers l => Some (set_dns_servers l m)
  end.

Definition dns_run (cs : list DnsCmd) (m : DnsManager) : option DnsManager := foldl (λ m c, m ≫= dns_cmd c) (Some m) cs.

(** The address was given out for the name, once: it is the name itself, or the
    address of the machine, or was put into the cache, or came in a datagram with the
    number of a query for the name. *)
Definition genuine (h : list DnsCmd) (n : name) (a : ip) : Prop :=
  parse_ipv4 n = Some a ∨ (n = localhost ∧ a = [127; 0; 0; 1]) ∨ (∃ now, CInsert n a now ∈ h) ∨
  ∃ now qs k j p, CResolve n now qs ∈ h ∧ p ∈ q_arrived (qs k) j ∧ u16_at p 0 = Some (tx_id_of (qs k)) ∧ parse_response p = Some (Ok a).

Record cache_ok (h : list DnsCmd) (c : DnsCache) : Prop := {
  co_nodup : NoDup (order c);
  co_dom n : n ∈ order c ↔ is_Some (entries c !! n);
  co_size : Z.of_nat (length (order c)) ≤ capacity c;
  co_genuine n e : entries c !! n = Some e → genuine h n (ce_ip e);
}.

Lemma genuine_mono h h' n a : h ⊆ h' → genuine h n a → genuine h' n a.
Proof. unfold genuine. set_solver. Qed.

Lemma cache_ok_mono h h' c : h ⊆ h' → cache_ok h c → cache_ok h' c.
Proof. intros Hs [Hn Hd Hz Hg]. split; try done. intros n e He. by eapply genuine_mono, Hg. Qed.

Lemma size_order (c : DnsCache) : NoDup (order c) → (∀ n, n ∈ order c ↔ is_Some (entries c !! n)) → size (entries c) = length (order c).
Proof.
  intros Hn Hd. rewrite <-size_dom. assert (dom (entries c) = list_to_set (order c)) as ->.
  { apply set_eq. intros n. by rewrite elem_of_dom, elem_of_list_to_set, Hd. }
  by apply size_list_to_set.
Qed.

Lemma cache_renew_ok h n e x c :
  cache_ok h c → entries c !! n = Some e →
  cache_ok h (c <| entries := <[n := e <| expires_at := x |>]> (entries c) |> <| order := filter (λ y, y ≠ n) (order c) ++ [n] |>).
Proof.
  intros [Hnd Hd Hz Hg] He. split; cbn.
  - apply NoDup_app. split; [by apply NoDup_filter|]. split; [|apply NoDup_singleton]. intros y [Hy _]%list_elem_of_filter ->%list_elem_of_singleton. done.
  - intros y. rewrite elem_of_app, list_elem_of_filter, list_elem_of_singleton, Hd. destruct (decide (y = n)) as [->|]; [rewrite lookup_insert_eq; naive_solver|].
    rewrite lookup_insert_ne by done. naive_solver.
  - assert (length (filter (λ y, y ≠ n) (order c)) < length (order c))%nat.
    { apply length_filter_lt with n; [apply Hd; by eexists|by intros []]. }
    rewrite length_app. cbn. lia.
  - intros y e'. destruct (decide (y = n)) as [->|]; [rewrite lookup_insert_eq; intros [= <-]; by apply (Hg n e)|]. rewrite lookup_insert_ne by done. apply Hg.
Qed.

Lemma cache_evict_ok h old rest c :
  cache_ok h c → order c = old :: rest → cache_ok h (c <| entries := delete old (entries c) |> <| order := rest |>).
Proof.
  intros [Hnd Hd Hz Hg] Ho. rewrite Ho in *. apply NoDup_cons in Hnd as [Hno Hnd]. split; cbn in *; [done| |lia|].
  - intros y. specialize (Hd y). rewrite elem_of_cons in Hd. destruct (decide (y = old)) as [->|].
    + rewrite lookup_delete_eq. split; [done|by intros []].
    + rewrite lookup_delete_ne by done. naive_solver.
  - intros y e. rewrite lookup_delete_Some. intros [_ He]. by apply Hg.
Qed.

Lemma cache_add_ok h n a x c :
  cache_ok h c → entries c !! n = None → Z.of_nat (length (order c)) < capacity c → genuine h n a →
  cache_ok h (c <| entries := <[n := mkCacheEntry a x]> (entries c) |> <| order := order c ++ [n] |>).
Proof.
  intros [Hnd Hd Hz Hg] He Hlt Hgen. split; cbn.
  - apply NoDup_app. split; [done|]. split; [|apply NoDup_singleton]. intros y Hy ->%list_elem_of_singleton. apply Hd in Hy. rewrite He in Hy. by destruct Hy.
  - intros y. rewrite elem_of_app, list_elem_of_singleton, Hd. destruct (decide (y = n)) as [->|]; [rewrite lookup_insert_eq; naive_solver|].
    rewrite lookup_insert_ne by done. naive_solver.
  - rewrite length_app. cbn. lia.
  - intros y e. destruct (decide (y = n)) as [->|]; [rewrite lookup_insert_eq; by intros [= <-]|]. rewrite lookup_insert_ne by done. apply Hg.
Qed.

(** Inserting never fails, and forgets another name only when the cache is full. *)
Lemma cache_insert_ok h n a now m c c' m' r :
  0 < capacity c → cache_ok h c → genuine h n a → cache_insert n a now m c = (c', m', r) → cache_ok h c' ∧ r = Ok tt ∧ capacity c' = capacity c.
Proof.
  intros Hcap Hc Hgen. unfold cache_insert. destruct (entries c !! n) as [e|] eqn:He.
  - intros [= <- <- <-]. split; [|done]. by apply cache_renew_ok.
  - pose proof (size_order c (co_nodup _ _ Hc) (co_dom _ _ Hc)) as Hs. pose proof (co_size _ _ Hc) as Hz.
    destruct (Z.leb_spec (capacity c) (Z.of_nat (size (entries c)))) as [Hfull|Hroom].
    + destruct (order c) as [|old rest] eqn:Ho; [cbn in Hs; lia|]. intros [= <- <- <-]. split; [|done].
      pose proof (cache_evict_ok h old rest c Hc Ho) as Hc1. apply (cache_add_ok h n a _ _ Hc1); cbn; [|cbn in Hz; lia|done].
      rewrite lookup_delete_None. by right.
    + intros [= <- <- <-]. split; [|done]. apply cache_add_ok; try done. lia.
Qed.

(** A datagram that answers the query with number [tx] with the address [a]. *)
Definition answers (tx : Z) (a : ip) (p : list Z) : Prop := u16_at p 0 = Some tx ∧ parse_response p = Some (Ok a).

Lemma poll_loop_ok tx packets last :
  ∃ r, poll_loop tx packets last = Some r ∧ ∀ a, r = Ok a → ∃ p, p ∈ packets ∧ answers tx a p.
Proof.
  revert last. induction packets as [|p packets IH]; intros last; [by (eexists; split)|]. cbn [poll_loop].
  assert (∀ e, ∃ r, poll_loop tx packets e = Some r ∧ ∀ a, r = Ok a → ∃ p', p' ∈ p :: packets ∧ answers tx a p') as IH'.
  { intros e. destruct (IH e) as (r & Hr & Ha). exists r. split; [done|]. intros a (p' & Hp & Hx)%Ha. exists p'. split; [by right|done]. }
  destruct (Nat.leb_spec 12 (length p)); [|apply IH']. destruct (u16_at_total p 0 ltac:(lia)) as [id Hid]. rewrite Hid. cbn [mbind option_bind].
  destruct (Z.eqb_spec id tx) as [->|]; [|apply IH']. destruct (parse_total p) as ([a|e] & Hp & _); rewrite Hp; cbn [mbind option_bind].
  - eexists. split; [done|]. intros ? [= <-]. exists p. split; [by left|done].
  - destruct (is_final e); [by (eexists; split)|apply IH'].
Qed.

Lemma attempts_loop_ok tx arrived n k last :
  ∃ k' r, attempts_loop tx arrived n k last = Some (k', r) ∧ ∀ a, r = Ok a → ∃ j p, p ∈ arrived j ∧ answers tx a p.
Proof.
  revert k last. induction n as [|n IH]; intros k last; [by (eexists _, _; split)|]. cbn [attempts_loop].
  destruct (poll_loop_ok tx (arrived k) last) as ([a|e] & -> & Ha); cbn [mbind option_bind]; [|apply IH].
  eexists _, _. split; [done|]. intros ? [= <-]. destruct (Ha a eq_refl) as (p & Hp & Hx). by exists k, p.
Qed.

(** What asking servers for [n] may change. *)
Record asked (n : name) (qs : nat → Query) (servers : list ip) (m m' : DnsManager) : Prop := {
  as_config : config m' = config m;
  as_servers : dns_servers m' = dns_servers m;
  as_sent : ∃ sent, outbox m' = outbox m ++ sent ∧ Forall (λ d, ∃ k, d.1 = build_query n (tx_id_of (qs k)) ∧ d.2 ∈ servers) sent;
}.

Lemma asked_refl n qs servers m m' :
  config m' = config m → dns_servers m' = dns_servers m → outbox m' = outbox m → asked n qs servers m m'.
Proof. intros. split; [done..|]. exists []. by rewrite app_nil_r. Qed.

Lemma asked_trans n qs servers m1 m2 m3 : asked n qs servers m1 m2 → asked n qs servers m2 m3 → asked n qs servers m1 m3.
Proof.
  intros [C1 S1 (l1 & O1 & F1)] [C2 S2 (l2 & O2 & F2)]. split; [congruence..|]. exists (l1 ++ l2). rewrite O2, O1, app_assoc. split; [done|].
  by apply Forall_app.
Qed.

Lemma send_query_ok n server servers qs k retries m :
  server ∈ servers →
  ∃ m' r, send_query n server retries (qs k) m = Some (m', r) ∧ cache m' = cache m ∧ asked n qs servers m m' ∧
    ∀ a, r = Ok a → ∃ j p, p ∈ q_arrived (qs k) j ∧ answers (tx_id_of (qs k)) a p.
Proof.
  intros Hs. unfold send_query. destruct (q_bound (qs k)); cbn [negb]; [|eexists _, _; split; [done|]; split; [done|]; split; [by apply asked_refl|done]].
  destruct (attempts_loop_ok (tx_id_of (qs k)) (q_arrived (qs k)) (Z.to_nat retries) 0 Timeout) as (k' & r & -> & Ha). cbn [mbind option_bind fst snd].
  assert (∀ m', config m' = config m → dns_servers m' = dns_servers m → outbox m' = outbox m ++ replicate k' (build_query n (tx_id_of (qs k)), server) →
    asked n qs servers m m') as Has.
  { intros m' Hc Hd Ho. split; [done..|]. eexists. split; [exact Ho|]. apply Forall_replicate. by exists k. }
  destruct r as [a|e]; (eexists _, _; split; [done|]; split; [done|]; split; [by apply Has|done]).
Qed.

Lemma remember_ok h n a now m :
  0 < capacity (cache m) → cache_ok h (cache m) → genuine h n a →
  cache_ok h (cache (remember n a now m)) ∧ capacity (cache (remember n a now m)) = capacity (cache m) ∧
  config (remember n a now m) = config m ∧ dns_servers (remember n a now m) = dns_servers m ∧ outbox (remember n a now m) = outbox m.
Proof.
  intros Hcap Hc Hg. unfold remember. destruct (cache_insert n a now (metrics m) (cache m)) as [[c' m'] r] eqn:E.
  by apply (cache_insert_ok h) in E as (Hok & _ & Hcap').
Qed.

Lemma servers_loop_ok h n now servers all qs k last m :
  CResolve n now qs ∈ h → servers ⊆ all → 0 < capacity (cache m) → cache_ok h (cache m) →
  ∃ m' r, servers_loop n now servers qs k last m = Some (m', r) ∧ cache_ok h (cache m') ∧ capacity (cache m') = capacity (cache m) ∧
    asked n qs all m m' ∧ ∀ a, r = Ok a → genuine h n a.
Proof.
  intros Hh. revert k last m. induction servers as [|s servers IH]; intros k last m Hsub Hcap Hc; cbn [servers_loop].
  { eexists _, _. split; [done|]. split; [done|]. split; [done|]. split; [by apply asked_refl|done]. }
  destruct (send_query_ok n s all qs k (retries (config m)) m ltac:(set_solver)) as (m1 & r & -> & Hc1 & Ha1 & Hr). cbn [mbind option_bind].
  rewrite <-Hc1 in Hcap, Hc. destruct r as [a|e].
  - destruct (Hr a eq_refl) as (j & p & Hp & Hx & Hy). assert (genuine h n a) as Hg by (do 3 right; by exists now, qs, k, j, p).
    destruct (remember_ok h n a now m1 Hcap Hc Hg) as (Hok & Hcap' & Hcf & Hsv & Hob). eexists _, _. split; [done|]. split; [done|].
    split; [congruence|]. split; [|by intros ? [= <-]]. eapply asked_trans; [exact Ha1|by apply asked_refl].
  - destruct (is_final e).
    + eexists _, _. split; [done|]. split; [done|]. split; [by rewrite <-Hc1|]. split; [|done]. eapply asked_trans; [exact Ha1|by apply asked_refl].
    + destruct (IH (S k) e m1 ltac:(set_solver) Hcap Hc) as (m2 & r2 & -> & Hok & Hcap' & Ha2 & Hr2). eexists _, _. split; [done|]. split; [done|].
      split; [congruence|]. split; [by eapply asked_trans|done].
Qed.

Lemma resolve_ok h n now qs m :
  CResolve n now qs ∈ h → 0 < capacity (cache m) → cache_ok h (cache m) →
  ∃ m' r, resolve n now qs m = Some (m', r) ∧ cache_ok h (cache m') ∧ capacity (cache m') = capacity (cache m) ∧
    asked n qs (dns_servers m) m m' ∧ ∀ a, r = Ok a → genuine h n a.
Proof.
  intros Hh Hcap Hc. unfold resolve. cbn zeta. set (m1 := m <| metrics := _ |>). assert (asked n qs (dns_servers m) m m1) as Ha1 by by apply asked_refl.
  change (cache m) with (cache m1) in *. destruct (cache_get n now (cache m1)) as [a|] eqn:Eg.
  { eexists _, _. split; [done|]. split; [done|]. split; [done|]. split; [eapply asked_trans; [exact Ha1|by apply asked_refl]|].
    intros ? [= <-]. unfold cache_get in Eg. destruct (entries (cache m1) !! n) as [e|] eqn:Ee; [|done]. case_match; [|done].
    injection Eg as <-. by apply (co_genuine _ _ Hc). }
  set (m2 := m1 <| metrics := _ |>). assert (asked n qs (dns_servers m) m m2) as Ha2 by by apply asked_refl. change (cache m1) with (cache m2) in *.
  destruct (parse_ipv4 n) as [a|] eqn:Ep.
  { assert (genuine h n a) as Hg by by left. destruct (remember_ok h n a now m2 Hcap Hc Hg) as (Hok & Hcap' & Hcf & Hsv & Hob).
    eexists _, _. split; [done|]. split; [done|]. split; [done|]. split; [|by intros ? [= <-]]. eapply asked_trans; [exact Ha2|by apply asked_refl]. }
  destruct (bool_decide_reflect (n = localhost)) as [->|].
  { eexists _, _. split; [done|]. split; [done|]. split; [done|]. split; [done|]. intros ? [= <-]. right. by left. }
  destruct (bool_decide_reflect (n = string_bytes "127.0.0.1")) as [->|]; [done|]. cbn [orb].
  destruct (servers_loop_ok h n now (dns_servers m2) (dns_servers m) qs 0 Timeout m2 Hh ltac:(done) Hcap Hc) as (m' & r & -> & Hok & Hcap' & Ha & Hr).
  eexists _, _. split; [done|]. split; [done|]. split; [done|]. split; [by eapply asked_trans|done].
Qed.

Lemma dns_run_ok cmds h m :
  cmds ⊆ h → 0 < capacity (cache m) → cache_ok h (cache m) →
  ∃ m', dns_run cmds m = Some m' ∧ cache_ok h (cache m') ∧ capacity (cache m') = capacity (cache m).
Proof.
  revert m. induction cmds as [|c cmds IH]; intros m Hsub Hcap Hc; [by (eexists; split)|].
  assert (∃ m1, dns_cmd c m = Some m1 ∧ cache_ok h (cache m1) ∧ capacity (cache m1) = capacity (cache m)) as (m1 & Hm1 & Hc1 & Hcap1).
  { destruct c as [n now qs|n a now| |l]; cbn.
    - destruct (resolve_ok h n now qs m ltac:(set_solver) Hcap Hc) as (m1 & r & -> & Hok & Hcap1 & _). by eexists.
    - destruct (remember_ok h n a now m Hcap Hc) as (Hok & Hcap1 & _); [|by eexists]. do 2 right. left. exists now. set_solver.
    - eexists. split; [done|]. split; [|done]. split; cbn; [constructor|by intros n; rewrite lookup_empty, is_Some_alt; set_solver|lia|by intros n e; rewrite lookup_empty].
    - by eexists. }
  unfold dns_run. cbn. rewrite Hm1. destruct (IH m1 ltac:(set_solver) ltac:(lia) Hc1) as (m' & Hr & Hok & Hcap'). exists m'. split; [done|]. split; [done|lia].
Qed.

(** C33: The resolver never panics and answers honestly. After any sequence of
    resolutions, cache insertions, clearings and changes of servers, an address given
    for a name is the name itself in dotted form, or that of localhost, or was put
    into the cache for the name, or came in a datagram with the number of a query for
    this name; the datagrams sent are queries for the name, to configured servers; and
    the cache stays within its capacity, whatever the network sends. *)
Theorem dns_answers_genuine c cmds n now qs m0 :
  DnsManager_new c = Some m0 → 0 ≤ cache_size c →
  ∃ m m' r, dns_run cmds m0 = Some m ∧ resolve n now qs m = Some (m', r) ∧ (∀ a, r = Ok a → genuine (cmds ++ [CResolve n now qs]) n a) ∧
    asked n qs (dns_servers m) m m' ∧ Z.of_nat (size (entries (cache m'))) ≤ cache_size c.
Proof.
  unfold DnsManager_new, DnsConfig_validate. intros Hnew Hsz. repeat case_match; try done. injection Hnew as <-.
  assert (cache_ok (cmds ++ [CResolve n now qs]) (DnsCache_new c)) as Hnew.
  { split; cbn; [constructor|by intros x; rewrite lookup_empty, is_Some_alt; set_solver|lia|by intros x e; rewrite lookup_empty]. }
  edestruct (dns_run_ok cmds (cmds ++ [CResolve n now qs])) as (m & -> & Hok & Hcap); [set_solver|cbn; lia|exact Hnew|]. cbn in Hcap.
  destruct (resolve_ok (cmds ++ [CResolve n now qs]) n now qs m) as (m' & r & Hr & Hok' & Hcap' & Ha & Hg); [set_solver|lia|done|].
  exists m, m', r. repeat (split; [done|]). rewrite size_order by apply Hok'. pose proof (co_size _ _ Hok'). lia.
Qed.

(** ** Examples *)

Definition ex_name : Name := mkName [string_bytes "iona"; string_bytes "org"] Root.
Definition ex_host : name := string_bytes "iona.org".

(** A response with an alias and then an address, whose name is a pointer. *)
Definition ex_response (id : Z) (a : ip) : Response :=
  mkResponse id 0x8180 [mkQuestion ex_name 1 1]
    [mkAnswer (mkName [] (Pointer 0 12)) 5 1 60 (encode_name (mkName [string_bytes "www"] (Pointer 0 12)));
     mkAnswer (mkName [string_bytes "www"] (Pointer 0 12)) 1 1 60 a] 0 0 [].

Lemma dns_parse_exact_witness : parse_response (encode_response (ex_response 7 [10; 0; 0; 1])) = Some (Ok [10; 0; 0; 1]).
Proof.
  assert (label_ok (string_bytes "iona") ∧ label_ok (string_bytes "org") ∧ label_ok (string_bytes "www")) as (H1 & H2 & H3)
    by (unfold label_ok; cbn; lia).
  apply (proj2 dns_parse_exact (ex_response 7 [10; 0; 0; 1])).
  split; unfold u16_ok, answer_ok, name_ok; cbn; repeat first [constructor|done|lia].
Defined.

Definition ex_query (packets : list (list Z)) : Query := mkQuery 7 true (λ _, packets).

Lemma dns_answers_genuine_witness :
  ∃ m m' r, dns_run [CClear] (mkDnsManager DnsConfig_default (DnsCache_new DnsConfig_default) (mkDnsMetrics 0 0 0 0 0 0 0 0) [[8; 8; 8; 8]; [1; 1; 1; 1]; [9; 9; 9; 9]] []) = Some m ∧
    resolve ex_host 0 (λ _, ex_query [encode_response (ex_response 7 [10; 0; 0; 1])]) m = Some (m', r) ∧
    (∀ a, r = Ok a → genuine ([CClear] ++ [CResolve ex_host 0 (λ _, ex_query [encode_response (ex_response 7 [10; 0; 0; 1])])]) ex_host a) ∧
    asked ex_host (λ _, ex_query [encode_response (ex_response 7 [10; 0; 0; 1])]) (dns_servers m) m m' ∧
    Z.of_nat (size (entries (cache m'))) ≤ cache_size DnsConfig_default.
Proof. apply dns_answers_genuine; [reflexivity|vm_compute; discriminate]. Defined.

(** The result and the number of datagrams sent. *)
Definition ex_resolve (now : Z) (packets : list (list Z)) (m : option DnsManager) : option (DnsManager * result ip DnsError) :=
  m ≫= resolve ex_host now (λ _, ex_query packets).

(** ** Where the code departs from its documentation *)

(** An address that changes is not learnt: when the entry has run out, the new answer
    is given once, but only the time of the old entry is renewed, and the old address
    is given from then on. *)
Lemma stale_address_renewed :
  let first := ex_resolve 0 [encode_response (ex_response 7 [10; 0; 0; 1])] (DnsManager_new DnsConfig_default) in
  let second := ex_resolve 300000 [encode_response (ex_response 7 [10; 0; 0; 2])] (fst <$> first) in
  let third := ex_resolve 300001 [] (fst <$> second) in
  (snd <$> second, snd <$> third) = (Some (Ok [10; 0; 0; 2]), Some (Ok [10; 0; 0; 1])).
Proof. by vm_compute. Qed.

(** A negative answer is to end the query, but ends the attempt only: the query is
    sent again for each of the three attempts. *)
Lemma nxdomain_is_retried :
  (λ p, (length (outbox p.1), p.2)) <$>
    ex_resolve 0 [encode_response (mkResponse 7 0x8183 [] [] 0 0 [])] (DnsManager_new DnsConfig_default) = Some (3%nat, Err NxDomain).
Proof. by vm_compute. Qed.

(** The question of a response is not compared with the name asked for: an answer for
    any other name is taken and cached. *)
Lemma other_name_accepted :
  snd <$> ex_resolve 0 [encode_response (mkResponse 7 0x8180 [mkQuestion (mkName [string_bytes "evil"] Root) 1 1]
    [mkAnswer (mkName [string_bytes "evil"] Root) 1 1 60 [6; 6; 6; 6]] 0 0 [])] (DnsManager_new DnsConfig_default) = Some (Ok [6; 6; 6; 6]).
Proof. by vm_compute. Qed.

(** A label of more than 63 bytes is sent as it is; one of 192 to 255 bytes reads as
    a compression pointer. *)
Lemma long_label_is_pointer : skip_name (build_query (replicate 192 97) 7) 12 = Some (Some 14%nat).
Proof. by vm_compute. Qed.

(** A name with a final dot has an empty label, and what follows is not the type A. *)
Lemma final_dot_breaks_query :
  skip_name (build_query (string_bytes "iona.") 7) 12 = Some (Some 18%nat) ∧ u16_at (build_query (string_bytes "iona.") 7) 18 = Some 0.
Proof. by vm_compute. Qed.

(** The cache is said to evict the least recently used name; a lookup does not count
    as a use, and the name inserted first goes. *)
Lemma recently_used_evicted :
  let ask := λ n, CResolve (string_bytes n) 0 (λ _, ex_query []) in
  (λ m, cache_get (string_bytes "1.1.1.1") 0 (cache m)) <$>
    (DnsManager_new (mkDnsConfig 3000 3 2 300 [8; 8; 8; 8] [] true true) ≫= dns_run [ask "1.1.1.1"; ask "2.2.2.2"; ask "1.1.1.1"; ask "3.3.3.3"]) =
  Some None.
Proof. by vm_compute. Qed.
