(* ===== verification/Gossip.v ===== *)
(** * Gossip between nodes ([src/src/blockchain/gossipsub.rs]).

    Messages and their bytes, peers, the mesh of a topic, the node with its handlers
    and heartbeat, discovery and the manager. A topic is the UTF-8 bytes of its
    string. The node keeps the datagrams it has sent in [sent], which is not a field
    of the source; the clock and the received datagrams are arguments. [udp_bind] and
    the socket are left out, and so is log output. *)

From Stdlib Require Import ZArith Lia Bool.
From stdpp Require Import base gmap sets strings pretty numbers sorting list.
From S2P Require Import Prelude Types Utf8.

Local Open Scope Z_scope.

(** ** Configuration *)

Record GossipConfig := mkGossipConfig {
  d : Z; d_low : Z; d_high : Z;
  cfg_ttl : Z;
  history : Z;
  max_msg_size : Z;
  heartbeat_ms : Z;
  evict_timeout_ms : Z;
  reconnect_backoff_base_ms : Z;
  max_reconnect_backoff_ms : Z;
  trace_messages : bool;
  collect_metrics : bool;
}.

Definition DEFAULT_TTL : Z := 8.

Definition GossipConfig_default : GossipConfig := mkGossipConfig 6 4 12 DEFAULT_TTL 120 65000 1000 60000 30000 300000 false true.

Definition GossipConfig_validate (c : GossipConfig) : result unit string :=
  if (d c =? 0) || (d_low c =? 0) || (d_high c =? 0) then Err "mesh degrees must be > 0"
  else if (d c <? d_low c) || (d_high c <? d c) then Err "invalid mesh degree bounds: d_low <= d <= d_high"
  else if history c =? 0 then Err "history must be > 0"
  else if max_msg_size c <? 1024 then Err "max_msg_size must be at least 1024"
  else if heartbeat_ms c =? 0 then Err "heartbeat_ms must be > 0"
  else Ok tt.

Inductive GossipError :=
| MessageTooLarge (size max : Z) | InvalidMessageType (v : Z) | MalformedMessage (reason : string)
| NotSubscribed | PeerNotFound | Io (m : string) | Config (m : string).

(** ** Messages *)

Inductive MsgType := Publish | Subscribe | Unsubscribe | Graft | Prune | IHave | IWant | Control.

Definition msg_type_code (t : MsgType) : Z :=
  match t with Publish => 1 | Subscribe => 2 | Unsubscribe => 3 | Graft => 4 | Prune => 5 | IHave => 6 | IWant => 7 | Control => 8 end.

Definition MsgType_try_from (v : Z) : result MsgType GossipError :=
  match v with
  | 1 => Ok Publish | 2 => Ok Subscribe | 3 => Ok Unsubscribe | 4 => Ok Graft
  | 5 => Ok Prune | 6 => Ok IHave | 7 => Ok IWant | 8 => Ok Control
  | _ => Err (InvalidMessageType v)
  end.

Record GossipMessage := mkGossipMessage {
  msg_type : MsgType;
  msg_id : Z;
  topic : bytes;
  data : bytes;
  ttl : Z;
}.
#[export] Instance eta_gossip_message : Settable GossipMessage := λ m, mkGossipMessage (msg_type m) (msg_id m) (topic m) (data m) (ttl m).

(** FNV-1a *)
Definition compute_id (t dt : bytes) : Z := foldl (λ h b, wrap32 (Z.lxor h b * 16777619)) 2166136261 (t ++ dt).

Definition new_publish (t dt : bytes) : GossipMessage := mkGossipMessage Publish (compute_id t dt) t dt DEFAULT_TTL.

Definition serialize (m : GossipMessage) : bytes :=
  [msg_type_code (msg_type m)] ++ le_bytes 4 (msg_id m) ++ [Z.of_nat (length (topic m)) `mod` 256] ++ topic m ++
  le_bytes 2 (Z.of_nat (length (data m)) `mod` 65536) ++ data m ++ [ttl m].

(** [None] is a panic. *)
Definition deserialize (raw : bytes) (max_size : Z) : option (result GossipMessage GossipError) :=
  match raw with
  | [] => Some (Err (MalformedMessage "empty message"))
  | b0 :: _ =>
    let len := Z.of_nat (length raw) in
    if max_size <? len then Some (Err (MessageTooLarge len max_size)) else
    match MsgType_try_from b0 with
    | Err e => Some (Err e)
    | Ok ty =>
      if len <? 5 then Some (Err (MalformedMessage "message too short for msg_id")) else
      let id := le_value (slice 1 4 raw) in
      if len <? 6 then Some (Err (MalformedMessage "message too short for topic length")) else
      topic_len ← raw !! 5%nat;
      let tl := Z.to_nat topic_len in
      if len <? 6 + topic_len + 2 then
        Some (Err (MalformedMessage ("topic length " +:+ pretty topic_len +:+ " exceeds available data"))) else
      let t := from_utf8_lossy (slice 6 tl raw) in
      let data_len := le_value (slice (6 + tl) 2 raw) in
      let data_start := (6 + tl + 2)%nat in
      if len <? Z.of_nat data_start + data_len + 1 then
        Some (Err (MalformedMessage ("data length " +:+ pretty data_len +:+ " exceeds available data"))) else
      tm ← raw !! (data_start + Z.to_nat data_len)%nat;
      Some (Ok (mkGossipMessage ty id t (slice data_start (Z.to_nat data_len) raw) tm))
    end
  end.

(** ** Peers *)

Abbreviation addr := (list Z * Z)%type.

Record Peer := mkPeer {
  ip : list Z;
  port : Z;
  topics : gset bytes;
  pmesh : gset bytes;
  score : Z;
  seen_ms : Z;
  backoff_ms : Z;
  connected : bool;
}.
#[export] Instance eta_peer : Settable Peer := λ p,
  mkPeer (ip p) (port p) (topics p) (pmesh p) (score p) (seen_ms p) (backoff_ms p) (connected p).

Definition Peer_new (a : addr) : Peer := mkPeer a.1 a.2 ∅ ∅ 0 0 0 false.

Definition addr_of (p : Peer) : addr := (ip p, port p).

(** The address as a number: four bytes and a port. *)
Definition addr_key (a : addr) : Z :=
  let b i := default 0 (a.1 !! i) in
  Z.lor (Z.lor (Z.lor (Z.lor (Z.shiftl (b 0%nat) 40) (Z.shiftl (b 1%nat) 32)) (Z.shiftl (b 2%nat) 24)) (Z.shiftl (b 3%nat) 16)) a.2.

Definition Peer_key (p : Peer) : Z := addr_key (addr_of p).

(** Addition on [i32]. *)
Definition inc_score (s : Z) : Z := (s + 1 + 2 ^ 31) `mod` 2 ^ 32 - 2 ^ 31.

Record GossipMetrics := mkGossipMetrics {
  messages_sent : Z; messages_received : Z; duplicates : Z; peers_connected : Z; peers_evicted : Z;
  graft_sent : Z; graft_received : Z; prune_sent : Z; prune_received : Z;
}.
#[export] Instance eta_gossip_metrics : Settable GossipMetrics := λ m,
  mkGossipMetrics (messages_sent m) (messages_received m) (duplicates m) (peers_connected m) (peers_evicted m)
    (graft_sent m) (graft_received m) (prune_sent m) (prune_received m).

(** ** The node *)

Record GossipNode := mkGossipNode {
  config : GossipConfig;
  peers : gmap Z Peer;
  subscriptions : gset bytes;
  mesh : gmap bytes (gset Z);
  seen_msgs : list Z;
  inbox : list (bytes * bytes);
  last_heartbeat_ms : Z;
  metrics : GossipMetrics;
  sent : list (bytes * addr);
}.
#[export] Instance eta_gossip_node : Settable GossipNode := λ n,
  mkGossipNode (config n) (peers n) (subscriptions n) (mesh n) (seen_msgs n) (inbox n) (last_heartbeat_ms n) (metrics n) (sent n).

Definition GossipNode_new (c : GossipConfig) : GossipNode := mkGossipNode c ∅ ∅ ∅ [] [] 0 (mkGossipMetrics 0 0 0 0 0 0 0 0 0) [].

Definition count (f : GossipMetrics → GossipMetrics) (n : GossipNode) : GossipNode := n <| metrics := f (metrics n) |>.
Definition inc_sent (m : GossipMetrics) : GossipMetrics := m <| messages_sent := add64 (messages_sent m) 1 |>.
Definition inc_received (m : GossipMetrics) : GossipMetrics := m <| messages_received := add64 (messages_received m) 1 |>.
Definition inc_duplicate (m : GossipMetrics) : GossipMetrics := m <| duplicates := add64 (duplicates m) 1 |>.
Definition set_peers (k : nat) (m : GossipMetrics) : GossipMetrics := m <| peers_connected := Z.of_nat k |>.
Definition inc_evicted (m : GossipMetrics) : GossipMetrics := m <| peers_evicted := add64 (peers_evicted m) 1 |>.
Definition inc_graft_sent (m : GossipMetrics) : GossipMetrics := m <| graft_sent := add64 (graft_sent m) 1 |>.
Definition inc_graft_received (m : GossipMetrics) : GossipMetrics := m <| graft_received := add64 (graft_received m) 1 |>.
Definition inc_prune_sent (m : GossipMetrics) : GossipMetrics := m <| prune_sent := add64 (prune_sent m) 1 |>.
Definition inc_prune_received (m : GossipMetrics) : GossipMetrics := m <| prune_received := add64 (prune_received m) 1 |>.

Definition udp_sendto (raw : bytes) (a : addr) (n : GossipNode) : GossipNode := n <| sent := sent n ++ [(raw, a)] |>.

Definition send_to_peer (raw : bytes) (n : GossipNode) (key : Z) : GossipNode :=
  match peers n !! key with Some p => udp_sendto raw (addr_of p) n | None => n end.

#[global] Arguments send_to_peer : simpl never.
#[global] Arguments serialize : simpl never.

(** A message without data, of one hop. *)
Definition control (ty : MsgType) (t : bytes) : GossipMessage := mkGossipMessage ty 0 t [] 1.

Definition add_peer (a : addr) (n : GossipNode) : GossipNode :=
  let p := Peer_new a in
  let k := Peer_key p in
  match peers n !! k with
  | Some _ => n
  | None => let n := n <| peers := <[k := p]> (peers n) |> in count (set_peers (size (peers n))) n
  end.

Definition broadcast_control (msg : GossipMessage) (n : GossipNode) : GossipNode :=
  foldl (λ n p, udp_sendto (serialize msg) (addr_of p) n) n (snd <$> btree_iter (peers n)).

Definition mesh_of (t : bytes) (n : GossipNode) : gset Z := default ∅ (mesh n !! t).

(** [self.mesh.entry(topic).or_default()] *)
Definition mesh_entry (t : bytes) (n : GossipNode) : GossipNode := n <| mesh := <[t := mesh_of t n]> (mesh n) |>.

Definition subscribe (t : bytes) (n : GossipNode) : GossipNode :=
  if bool_decide (t ∈ subscriptions n) then n
  else broadcast_control (control Subscribe t) (mesh_entry t (n <| subscriptions := {[t]} ∪ subscriptions n |>)).

Definition unsubscribe (t : bytes) (n : GossipNode) : GossipNode :=
  if bool_decide (t ∈ subscriptions n) then
    broadcast_control (control Unsubscribe t) (n <| subscriptions := subscriptions n ∖ {[t]} |> <| mesh := delete t (mesh n) |>)
  else n.

Definition record_seen (id : Z) (n : GossipNode) : GossipNode :=
  n <| seen_msgs := (if history (config n) <=? Z.of_nat (length (seen_msgs n)) then drop 1 (seen_msgs n) else seen_msgs n) ++ [id] |>.

Definition forward_to_mesh (msg : GossipMessage) (n : GossipNode) : GossipNode :=
  match mesh n !! topic msg with
  | Some m => foldl (send_to_peer (serialize msg)) n (bset_iter m)
  | None => n
  end.

Definition publish (t dt : bytes) (n : GossipNode) : GossipNode * result Z GossipError :=
  if negb (bool_decide (t ∈ subscriptions n)) then (n, Err NotSubscribed)
  else if max_msg_size (config n) <? Z.of_nat (length dt) then (n, Err (MessageTooLarge (Z.of_nat (length dt)) (max_msg_size (config n))))
  else
    let msg := new_publish t dt in
    (count inc_sent (forward_to_mesh msg (record_seen (msg_id msg) n)), Ok (msg_id msg)).

(** *** Receiving *)

Definition update_peer (key : Z) (a : addr) (now : Z) (n : GossipNode) : GossipNode :=
  match peers n !! key with
  | Some p => n <| peers := <[key := p <| seen_ms := now |> <| score := inc_score (score p) |> <| connected := true |>]> (peers n) |>
  | None =>
    let n := n <| peers := <[key := (Peer_new a) <| seen_ms := now |> <| connected := true |>]> (peers n) |> in
    count (set_peers (size (peers n))) n
  end.

(** [if let Some(p) = self.peers.get_mut(&key)] *)
Definition with_peer (key : Z) (f : Peer → Peer) (n : GossipNode) : GossipNode := n <| peers := alter f key (peers n) |>.

(** [if let Some(mesh) = self.mesh.get_mut(topic) { mesh.remove(&key) }] *)
Definition mesh_remove (t : bytes) (key : Z) (n : GossipNode) : GossipNode := n <| mesh := alter (λ m, m ∖ {[key]}) t (mesh n) |>.

Definition mesh_insert (t : bytes) (key : Z) (n : GossipNode) : GossipNode := n <| mesh := <[t := {[key]} ∪ mesh_of t n]> (mesh n) |>.

Definition send_prune (t : bytes) (key : Z) (n : GossipNode) : GossipNode := send_to_peer (serialize (control Prune t)) n key.

Definition send_iwant (t : bytes) (id key : Z) (n : GossipNode) : GossipNode :=
  send_to_peer (serialize (mkGossipMessage IWant id t (le_bytes 4 id) 1)) n key.

Definition handle_publish (msg : GossipMessage) (n : GossipNode) : GossipNode :=
  if negb (bool_decide (topic msg ∈ subscriptions n)) then n
  else if bool_decide (msg_id msg ∈ seen_msgs n) then count inc_duplicate n
  else
    let n := record_seen (msg_id msg) n in
    let n := n <| inbox := inbox n ++ [(topic msg, data msg)] |> in
    if 1 <? ttl msg then forward_to_mesh (msg <| ttl := ttl msg - 1 |>) n else n.

Definition handle_subscribe (msg : GossipMessage) (from : Z) (n : GossipNode) : GossipNode :=
  with_peer from (λ p, p <| topics := {[topic msg]} ∪ topics p |>) n.

Definition handle_unsubscribe (msg : GossipMessage) (from : Z) (n : GossipNode) : GossipNode :=
  mesh_remove (topic msg) from (with_peer from (λ p, p <| topics := topics p ∖ {[topic msg]} |>) n).

Definition handle_graft (msg : GossipMessage) (from : Z) (n : GossipNode) : GossipNode :=
  let n := mesh_entry (topic msg) (count inc_graft_received n) in
  if Z.of_nat (size (mesh_of (topic msg) n)) <? d_high (config n) then
    with_peer from (λ p, p <| pmesh := {[topic msg]} ∪ pmesh p |>) (mesh_insert (topic msg) from n)
  else count inc_prune_sent (send_prune (topic msg) from n).

Definition handle_prune (msg : GossipMessage) (from : Z) (n : GossipNode) : GossipNode :=
  with_peer from (λ p, p <| pmesh := pmesh p ∖ {[topic msg]} |>) (mesh_remove (topic msg) from (count inc_prune_received n)).

(** The ids in the data of a message, four bytes each. *)
Fixpoint ids_of (fuel : nat) (dt : bytes) : list Z :=
  match fuel with
  | O => []
  | S fuel => if (4 <=? length dt)%nat then le_value (take 4 dt) :: ids_of fuel (drop 4 dt) else []
  end.

Definition handle_ihave (msg : GossipMessage) (from : Z) (n : GossipNode) : GossipNode :=
  foldl (λ n id, if bool_decide (id ∈ seen_msgs n) then n else send_iwant (topic msg) id from n) n (ids_of (length (data msg)) (data msg)).

Definition handle_message (msg : GossipMessage) (from : Z) (n : GossipNode) : GossipNode :=
  match msg_type msg with
  | Publish => handle_publish msg n
  | Subscribe => handle_subscribe msg from n
  | Unsubscribe => handle_unsubscribe msg from n
  | Graft => handle_graft msg from n
  | Prune => handle_prune msg from n
  | IHave => handle_ihave msg from n
  | IWant | Control => n
  end.

(** [poll] when a datagram [raw] from [a] is there; [None] is a panic. *)
Definition poll (raw : bytes) (a : addr) (now : Z) (n : GossipNode) : option (GossipNode * result bool GossipError) :=
  match raw with
  | [] => Some (n, Ok false)
  | _ =>
    parsed ← deserialize raw (max_msg_size (config n));
    match parsed with
    | Err e => Some (n, Err e)
    | Ok msg =>
      let key := addr_key a in
      Some (handle_message msg key (update_peer key a now (count inc_received n)), Ok true)
    end
  end.

Definition recv (n : GossipNode) : GossipNode * option (bytes * bytes) :=
  match inbox n with
  | x :: rest => (n <| inbox := rest |>, Some x)
  | [] => (n, None)
  end.

(** *** Heartbeat *)

(** A stable sort: [before x y] when [x] may come before a later [y]. *)
Fixpoint insert_stable {A} (before : A → A → bool) (x : A) (l : list A) : list A :=
  match l with
  | [] => [x]
  | y :: l => if before x y then x :: y :: l else y :: insert_stable before x l
  end.
Definition sort_stable {A} (before : A → A → bool) (l : list A) : list A := foldr (insert_stable before) [] l.

(** Peers that know the topic and are not in its mesh, the best score first. *)
Definition graft_candidates (t : bytes) (n : GossipNode) : list (Z * Z) :=
  sort_stable (λ a b, b.2 <=? a.2)
    ((λ kp, (kp.1, score kp.2)) <$> filter (λ kp, t ∈ topics kp.2 ∧ kp.1 ∉ mesh_of t n) (btree_iter (peers n))).

Definition graft_one (t : bytes) (n : GossipNode) (key : Z) : GossipNode :=
  let n := match peers n !! key with
           | Some p => count inc_graft_sent (udp_sendto (serialize (control Graft t)) (addr_of p) n)
           | None => n
           end in
  with_peer key (λ p, p <| pmesh := {[t]} ∪ pmesh p |>) (mesh_insert t key n).

Definition graft_peers (t : bytes) (k : Z) (n : GossipNode) : GossipNode :=
  foldl (graft_one t) n (fst <$> take (Z.to_nat k) (graft_candidates t n)).

(** Members of the mesh that are known, the worst score first. *)
Definition prune_candidates (t : bytes) (n : GossipNode) : list (Z * Z) :=
  sort_stable (λ a b, a.2 <=? b.2) (omap (λ k, (λ p, (k, score p)) <$> peers n !! k) (bset_iter (mesh_of t n))).

Definition prune_one (t : bytes) (n : GossipNode) (key : Z) : GossipNode :=
  with_peer key (λ p, p <| pmesh := pmesh p ∖ {[t]} |>) (mesh_remove t key (count inc_prune_sent (send_prune t key n))).

Definition prune_peers (t : bytes) (k : Z) (n : GossipNode) : GossipNode :=
  foldl (prune_one t) n (fst <$> take (Z.to_nat k) (prune_candidates t n)).

Definition heartbeat_topic (n : GossipNode) (t : bytes) : GossipNode :=
  let mesh_size := Z.of_nat (size (mesh_of t n)) in
  if mesh_size <? d_low (config n) then graft_peers t (sub64 (d (config n)) mesh_size) n
  else if d_high (config n) <? mesh_size then prune_peers t (sub64 mesh_size (d (config n))) n
  else n.

Definition emit_ihave (n : GossipNode) : GossipNode :=
  match seen_msgs n with
  | [] => n
  | _ =>
    let ids := concat (le_bytes 4 <$> seen_msgs n) in
    foldl (λ n t,
      let raw := serialize (mkGossipMessage IHave 0 t ids 1) in
      foldl (λ n (kp : Z * Peer), if bool_decide (kp.1 ∉ mesh_of t n ∧ t ∈ topics kp.2) then udp_sendto raw (addr_of kp.2) n else n)
        n (btree_iter (peers n))) n (bset_iter (subscriptions n))
  end.

Definition stale_peers (now timeout : Z) (n : GossipNode) : list Z :=
  fst <$> filter (λ kp, 0 < seen_ms kp.2 ∧ seen_ms kp.2 < sat_sub now timeout) (btree_iter (peers n)).

Definition evict_stale_peers (now : Z) (n : GossipNode) : GossipNode :=
  let n := foldl (λ n key, match peers n !! key with
                           | Some _ => count inc_evicted (n <| peers := delete key (peers n) |>)
                           | None => n
                           end) n (stale_peers now (evict_timeout_ms (config n)) n) in
  count (set_peers (size (peers n))) n.

Definition heartbeat (now : Z) (n : GossipNode) : GossipNode :=
  if sub64 now (last_heartbeat_ms n) <? heartbeat_ms (config n) then n else
  let n := n <| last_heartbeat_ms := now |> in
  let n := foldl heartbeat_topic n (bset_iter (subscriptions n)) in
  let n := evict_stale_peers now (emit_ihave n) in
  count (set_peers (size (peers n))) n.

(** ** Discovery and the manager *)

Inductive PeerState := Unknown | Connecting | Connected | Subscribed | Evicted (reason : string).

#[export] Instance peer_state_dec : EqDecision PeerState.
Proof. solve_decision. Defined.

Record PeerDiscovery := mkPeerDiscovery {
  node : GossipNode;
  states : gmap Z PeerState;
  reconnect_at : gmap Z Z;
  backoff : gmap Z Z;
}.
#[export] Instance eta_discovery : Settable PeerDiscovery := λ s, mkPeerDiscovery (node s) (states s) (reconnect_at s) (backoff s).

Definition PeerDiscovery_new (c : GossipConfig) : PeerDiscovery := mkPeerDiscovery (GossipNode_new c) ∅ ∅ ∅.

(** [while let Ok(true) = self.node.poll() {}] on the datagrams that are there. *)
Fixpoint poll_all (packets : list (bytes * addr)) (now : Z) (n : GossipNode) : option GossipNode :=
  match packets with
  | [] => Some n
  | (raw, a) :: packets =>
    r ← poll raw a now n;
    match r with
    | (n, Ok true) => poll_all packets now n
    | (n, _) => Some n
    end
  end.

Definition reconnect_one (s : PeerDiscovery) (key : Z) : PeerDiscovery :=
  let s := s <| reconnect_at := delete key (reconnect_at s) |> in
  match peers (node s) !! key with
  | Some p =>
    s <| node := udp_sendto (serialize (control Subscribe (string_bytes "iona/blocks"))) (addr_of p) (node s) |>
      <| states := <[key := Connecting]> (states s) |>
  | None => s
  end.

Definition evict_one (now : Z) (s : PeerDiscovery) (key : Z) : PeerDiscovery :=
  let c := config (node s) in
  match peers (node s) !! key with
  | Some _ =>
    let b := default (reconnect_backoff_base_ms c) (backoff s !! key) in
    let delay := Z.min b (max_reconnect_backoff_ms c) in
    s <| node := (node s) <| peers := delete key (peers (node s)) |> |>
      <| reconnect_at := <[key := add64 now delay]> (reconnect_at s) |>
      <| backoff := <[key := Z.min (mul64 b 2) (max_reconnect_backoff_ms c)]> (backoff s) |>
      <| states := <[key := Evicted ("timeout (backoff " +:+ pretty delay +:+ "ms)")]> (states s) |>
  | None => s
  end.

Definition tick (packets : list (bytes * addr)) (now : Z) (s : PeerDiscovery) : option PeerDiscovery :=
  n ← poll_all packets now (node s);
  let s := s <| node := heartbeat now n |> in
  let s := foldl reconnect_one s (fst <$> filter (λ kt, kt.2 ≤ now) (btree_iter (reconnect_at s))) in
  Some (foldl (evict_one now) s (stale_peers now (evict_timeout_ms (config (node s))) (node s))).

Definition connected_count (s : PeerDiscovery) : nat :=
  length (filter (λ kst : Z * PeerState, kst.2 = Connected) (btree_iter (states s))).

Definition GossipManager_new (c : GossipConfig) : result PeerDiscovery GossipError :=
  match GossipConfig_validate c with
  | Err e => Err (Config e)
  | Ok _ => Ok (PeerDiscovery_new c)
  end.

(** ** The wire format *)

Lemma msg_type_round ty : MsgType_try_from (msg_type_code ty) = Ok ty.
Proof. by destruct ty. Qed.

Lemma length_serialize m : length (serialize m) = (9 + length (topic m) + length (data m))%nat.
Proof. unfold serialize. rewrite !length_app, !length_le_bytes. cbn. lia. Qed.

(** A message that the format can hold. *)
Record message_ok (m : GossipMessage) : Prop := {
  mo_id : 0 ≤ msg_id m < 2 ^ 32;
  mo_topic : (length (topic m) ≤ 255)%nat ∧ is_Some (from_utf8 (topic m));
  mo_data : (length (data m) ≤ Z.to_nat 65535)%nat;
}.

Lemma deserialize_serialize m max :
  message_ok m → Z.of_nat (length (serialize m)) ≤ max → deserialize (serialize m) max = Some (Ok m).
Proof.
  intros [Hid [Htl Htu] Hdl] Hmax. rewrite length_serialize in Hmax. destruct m as [ty id t dt tm]. cbn [msg_type msg_id topic data ttl] in *.
  set (raw := serialize _). assert (Z.of_nat (length raw) = 9 + Z.of_nat (length t) + Z.of_nat (length dt)) as Hlen.
  { unfold raw. rewrite length_serialize. cbn [topic data]. lia. }
  assert (raw = [msg_type_code ty] ++ le_bytes 4 id ++ [Z.of_nat (length t)] ++ t ++ le_bytes 2 (Z.of_nat (length dt)) ++ dt ++ [tm]) as Hraw.
  { unfold raw, serialize. cbn [msg_type msg_id topic data ttl]. rewrite !Z.mod_small by lia. done. }
  assert (slice 1 4 raw = le_bytes 4 id) as H1 by (rewrite Hraw; by apply slice_mid).
  assert (raw !! 5%nat = Some (Z.of_nat (length t))) as H2 by by rewrite Hraw.
  assert (slice 6 (length t) raw = t) as H3 by (rewrite Hraw; by apply (slice_mid 6 (length t) ([msg_type_code ty] ++ le_bytes 4 id ++ [Z.of_nat (length t)]))).
  assert (slice (6 + length t) 2 raw = le_bytes 2 (Z.of_nat (length dt))) as H4.
  { rewrite Hraw. apply (slice_mid _ 2 ([msg_type_code ty] ++ le_bytes 4 id ++ [Z.of_nat (length t)] ++ t)); [cbn; lia|done]. }
  assert (slice (6 + length t + 2) (length dt) raw = dt) as H5.
  { assert (raw = ([msg_type_code ty] ++ le_bytes 4 id ++ [Z.of_nat (length t)] ++ t ++ le_bytes 2 (Z.of_nat (length dt))) ++ dt ++ [tm]) as ->
      by (rewrite Hraw, <-!app_assoc; done).
    apply slice_mid; [|done]. rewrite !length_app, !length_le_bytes. cbn. lia. }
  assert (raw !! (6 + length t + 2 + length dt)%nat = Some tm) as H6.
  { rewrite Hraw, !app_assoc. rewrite lookup_app_r; rewrite !length_app, !length_le_bytes; cbn [length]; [|lia].
    by replace (_ - _)%nat with 0%nat by lia. }
  unfold deserialize. destruct raw as [|b0 rest] eqn:Er; [done|]. rewrite <-Er in *. assert (b0 = msg_type_code ty) as -> by (rewrite Er in Hraw; by injection Hraw).
  rewrite (proj2 (Z.ltb_ge _ _)), msg_type_round, (proj2 (Z.ltb_ge _ _)), (proj2 (Z.ltb_ge _ _)), H2 by lia. cbn [mbind option_bind]. rewrite Nat2Z.id.
  rewrite (proj2 (Z.ltb_ge _ _)) by lia. rewrite H1, H3, H4, !le_value_bytes by (cbn; lia). rewrite Nat2Z.id, (proj2 (Z.ltb_ge _ _)) by lia.
  rewrite H6, H5. cbn [mbind option_bind]. by rewrite from_utf8_lossy_valid.
Qed.

Lemma deserialize_total raw max : Forall byte_ok raw → is_Some (deserialize raw max).
Proof.
  intros Hb. unfold deserialize. destruct raw as [|b0 rest] eqn:Er; [by eexists|]. rewrite <-Er in *. clear Er. destruct (max <? _); [by eexists|].
  destruct (MsgType_try_from b0); [|by eexists]. destruct (_ <? 5); [by eexists|]. destruct (Z.ltb_spec (Z.of_nat (length raw)) 6); [by eexists|].
  destruct (lookup_lt_is_Some_2 raw 5 ltac:(lia)) as [tl Htl]. rewrite Htl. cbn [mbind option_bind]. pose proof (Forall_lookup_1 _ _ _ _ Hb Htl) as Hbt.
  destruct (Z.ltb_spec (Z.of_nat (length raw)) (6 + tl + 2)); [by eexists|]. set (dl := le_value _).
  assert (0 ≤ dl) by (apply le_value_bound; unfold slice; by apply Forall_take, Forall_drop).
  destruct (Z.ltb_spec (Z.of_nat (length raw)) (Z.of_nat (6 + Z.to_nat tl + 2) + dl + 1)); [by eexists|].
  destruct (lookup_lt_is_Some_2 raw (6 + Z.to_nat tl + 2 + Z.to_nat dl)) as [tm ->]; [|by eexists]. red in Hbt. lia.
Qed.

Lemma poll_total raw a now n : Forall byte_ok raw → is_Some (poll raw a now n).
Proof.
  intros Hb. unfold poll. destruct raw as [|b raw]; [by eexists|].
  destruct (deserialize_total (b :: raw) (max_msg_size (config n)) Hb) as [[m|e] ->]; by eexists.
Qed.

(** ** What sending leaves alone *)

(** Nothing but the datagrams sent and the counters. *)
Record same_state (n n' : GossipNode) : Prop := {
  st_config : config n' = config n;
  st_peers : peers n' = peers n;
  st_subs : subscriptions n' = subscriptions n;
  st_mesh : mesh n' = mesh n;
  st_seen : seen_msgs n' = seen_msgs n;
  st_inbox : inbox n' = inbox n;
}.

Lemma same_refl n : same_state n n.
Proof. done. Qed.

Lemma same_trans n1 n2 n3 : same_state n1 n2 → same_state n2 n3 → same_state n1 n3.
Proof. intros [] []. split; congruence. Qed.

Lemma same_foldl {A} (f : GossipNode → A → GossipNode) l n : (∀ n x, same_state n (f n x)) → same_state n (foldl f n l).
Proof. intros Hf. revert n. induction l as [|x l IH]; intros n; [done|]. cbn. eapply same_trans; [apply Hf|apply IH]. Qed.

Lemma same_count f n : same_state n (count f n).
Proof. done. Qed.

Lemma same_send raw n k : same_state n (send_to_peer raw n k).
Proof. unfold send_to_peer. by destruct (peers n !! k). Qed.

Lemma same_broadcast msg n : same_state n (broadcast_control msg n).
Proof. by apply same_foldl. Qed.

Lemma same_forward msg n : same_state n (forward_to_mesh msg n).
Proof. unfold forward_to_mesh. destruct (mesh n !! topic msg); [|done]. apply same_foldl, same_send. Qed.

Lemma same_ihave msg from n : same_state n (handle_ihave msg from n).
Proof. apply same_foldl. intros n' id. case_bool_decide; [done|apply same_send]. Qed.

Lemma same_emit n : same_state n (emit_ihave n).
Proof.
  unfold emit_ihave. destruct (seen_msgs n); [done|]. apply same_foldl. intros n' t. apply same_foldl. intros n'' kp. by case_bool_decide.
Qed.

(** ** The invariant of a node *)

Definition mesh_bounded (n : GossipNode) : Prop := ∀ t, Z.of_nat (size (mesh_of t n)) ≤ d_high (config n).

(** [log]: the ids recorded so far, with the message if it was delivered; the node
    remembers the last [history] of them. *)
Record node_inv (log : list (option (bytes * bytes) * Z)) (n : GossipNode) : Prop := {
  ni_seen : seen_msgs n = drop (length log - Z.to_nat (history (config n))) log.*2;
  ni_mesh : mesh_bounded n;
  ni_fresh i j b x id : log !! i = Some (b, id) → log !! j = Some (Some x, id) → (i < j)%nat → history (config n) < Z.of_nat j - Z.of_nat i;
}.

Lemma node_inv_same log n n' :
  node_inv log n → config n' = config n → seen_msgs n' = seen_msgs n → mesh_bounded n' → node_inv log n'.
Proof. intros [Hs Hm Hf] Hc He Hb. split; [by rewrite Hc, He|done|by rewrite Hc]. Qed.

Lemma same_state_inv log n n' : same_state n n' → node_inv log n → node_inv log n'.
Proof.
  intros [Hc _ _ Hm Hs _] Hi. eapply node_inv_same; [done..|]. intros t. unfold mesh_of. rewrite Hm, Hc. apply Hi.
Qed.

Lemma record_seen_inv log b id n :
  0 < history (config n) → node_inv log n → (is_Some b → id ∉ seen_msgs n) → node_inv (log ++ [(b, id)]) (record_seen id n).
Proof.
  intros Hh [Hs Hm Hf] Hid. split; [|done|].
  - cbn. rewrite Hs, fmap_app, !length_app, length_drop, length_fmap. cbn [length fmap list_fmap snd]. set (h := Z.to_nat (history (config n))) in *.
    destruct (Z.leb_spec (history (config n)) (Z.of_nat (length log - (length log - h)))).
    + rewrite drop_drop, drop_app_le by (rewrite length_fmap; lia). do 2 f_equal. lia.
    + rewrite drop_app_le by (rewrite length_fmap; lia). do 2 f_equal. lia.
  - intros i j b' x id' Hi Hj Hlt. cbn. destruct (decide (j < length log)%nat).
    { rewrite lookup_app_l in Hi, Hj by lia. by eapply Hf. }
    rewrite lookup_app_r in Hj by lia. destruct (j - length log)%nat eqn:Ej; [|done]. injection Hj as -> ->. rewrite lookup_app_l in Hi by lia.
    destruct (decide (history (config n) < Z.of_nat j - Z.of_nat i)) as [|Hge]; [done|]. exfalso. apply Hid; [by eexists|]. rewrite Hs.
    apply list_elem_of_lookup_2 with (i - (length log - Z.to_nat (history (config n))))%nat. rewrite lookup_drop, list_lookup_fmap.
    replace (_ + _)%nat with i by lia. by rewrite Hi.
Qed.

Lemma mesh_of_insert t k n t' :
  size (mesh_of t' (mesh_insert t k n)) = if bool_decide (t' = t) then size ({[k]} ∪ mesh_of t n) else size (mesh_of t' n).
Proof.
  unfold mesh_of, mesh_insert. cbn. case_bool_decide as E; [subst; by rewrite lookup_insert_eq|by rewrite lookup_insert_ne].
Qed.

Lemma mesh_remove_size t k n t' : (size (mesh_of t' (mesh_remove t k n)) ≤ size (mesh_of t' n))%nat.
Proof.
  unfold mesh_of, mesh_remove. cbn. destruct (decide (t' = t)) as [->|]; [|by rewrite lookup_alter_ne].
  rewrite lookup_alter_eq. destruct (mesh n !! t) as [m|]; [|done]. cbn. apply subseteq_size. set_solver.
Qed.

Lemma mesh_remove_bounded t k n : mesh_bounded n → mesh_bounded (mesh_remove t k n).
Proof. intros Hb t'. pose proof (mesh_remove_size t k n t'). specialize (Hb t'). change (config (mesh_remove t k n)) with (config n). lia. Qed.

Lemma size_insert_le (k : Z) (m : gset Z) : (size ({[k]} ∪ m) ≤ S (size m))%nat.
Proof. rewrite size_union_alt, size_singleton. pose proof (subseteq_size (m ∖ {[k]}) m ltac:(set_solver)). lia. Qed.

Lemma mesh_insert_bounded t k n :
  mesh_bounded n → Z.of_nat (size (mesh_of t n)) < d_high (config n) → mesh_bounded (mesh_insert t k n).
Proof.
  intros Hb Hlt t'. rewrite mesh_of_insert. change (config (mesh_insert t k n)) with (config n). specialize (Hb t'). case_bool_decide; [|done].
  pose proof (size_insert_le k (mesh_of t n)). lia.
Qed.

Lemma mesh_of_entry t n t' : mesh_of t' (mesh_entry t n) = mesh_of t' n.
Proof.
  unfold mesh_of at 1, mesh_entry. cbn. destruct (decide (t' = t)) as [->|]; [by rewrite lookup_insert_eq|by rewrite lookup_insert_ne].
Qed.

Lemma graft_bounded t ks n :
  mesh_bounded n → Z.of_nat (size (mesh_of t n)) + Z.of_nat (length ks) ≤ d_high (config n) →
  mesh_bounded (foldl (graft_one t) n ks) ∧ config (foldl (graft_one t) n ks) = config n ∧ seen_msgs (foldl (graft_one t) n ks) = seen_msgs n ∧
  inbox (foldl (graft_one t) n ks) = inbox n.
Proof.
  revert n. induction ks as [|k ks IH]; intros n Hb Hle; [done|]. cbn [foldl length] in *.
  assert (∃ n1, same_state n n1 ∧ graft_one t n k = with_peer k (λ p, p <| pmesh := {[t]} ∪ pmesh p |>) (mesh_insert t k n1)) as (n1 & [Hc _ _ Hm Hs Hi] & ->).
  { eexists. split; [|reflexivity]. by destruct (peers n !! k). }
  assert (∀ t', mesh_of t' n1 = mesh_of t' n) as Hmo by (intros t'; unfold mesh_of; by rewrite Hm).
  destruct (IH (with_peer k (λ p, p <| pmesh := {[t]} ∪ pmesh p |>) (mesh_insert t k n1))) as (Hb' & Hc' & Hs' & Hi').
  - intros t'. apply (mesh_insert_bounded t k n1); [|rewrite Hmo, Hc; lia].
    intros t''. rewrite Hmo, Hc. apply Hb.
  - change (mesh_of t (with_peer _ _ _)) with (mesh_of t (mesh_insert t k n1)). rewrite mesh_of_insert, bool_decide_true, Hmo by done. cbn. rewrite Hc.
    pose proof (size_insert_le k (mesh_of t n)). lia.
  - rewrite Hc', Hs', Hi'. cbn. by rewrite Hc, Hs, Hi.
Qed.

Lemma prune_bounded t ks n :
  mesh_bounded n → mesh_bounded (foldl (prune_one t) n ks) ∧ config (foldl (prune_one t) n ks) = config n ∧
  seen_msgs (foldl (prune_one t) n ks) = seen_msgs n ∧ inbox (foldl (prune_one t) n ks) = inbox n.
Proof.
  revert n. induction ks as [|k ks IH]; intros n Hb; [done|]. cbn [foldl]. pose proof (same_send (serialize (control Prune t)) n k) as [Hc _ _ Hm Hs Hi].
  destruct (IH (prune_one t n k)) as (Hb' & Hc' & Hs' & Hi').
  - apply (mesh_remove_bounded t k (count inc_prune_sent (send_prune t k n))). intros t'. unfold mesh_of. cbn. unfold send_prune. rewrite Hm, Hc. apply Hb.
  - rewrite Hc', Hs', Hi'. unfold prune_one, send_prune. cbn. by rewrite Hc, Hs, Hi.
Qed.

(** ** Runs of a node *)

Inductive NodeCmd :=
| CAddPeer (a : addr)
| CSubscribe (t : bytes)
| CUnsubscribe (t : bytes)
| CPublish (t dt : bytes)
| CPoll (raw : bytes) (a : addr) (now : Z)
| CRecv
| CHeartbeat (now : Z).

(** A node, the ids it recorded and the messages it gave to its user. *)
Record Trace := mkTrace { tn : GossipNode; tlog : list (option (bytes * bytes) * Z); tgot : list (bytes * bytes) }.

(** The message of a datagram that is delivered. *)
Definition accepted (raw : bytes) (n : GossipNode) : option GossipMessage :=
  match deserialize raw (max_msg_size (config n)) with
  | Some (Ok m) =>
    match msg_type m with
    | Publish => if bool_decide (topic m ∈ subscriptions n ∧ msg_id m ∉ seen_msgs n) then Some m else None
    | _ => None
    end
  | _ => None
  end.

Definition node_step (tr : Trace) (c : NodeCmd) : option Trace :=
  let n := tn tr in
  match c with
  | CAddPeer a => Some (mkTrace (add_peer a n) (tlog tr) (tgot tr))
  | CSubscribe t => Some (mkTrace (subscribe t n) (tlog tr) (tgot tr))
  | CUnsubscribe t => Some (mkTrace (unsubscribe t n) (tlog tr) (tgot tr))
  | CPublish t dt =>
    let '(n, r) := publish t dt n in
    Some (mkTrace n (tlog tr ++ match r with Ok id => [(None, id)] | Err _ => [] end) (tgot tr))
  | CPoll raw a now =>
    let log := match accepted raw n with Some m => [(Some (topic m, data m), msg_id m)] | None => [] end in
    p ← poll raw a now n;
    Some (mkTrace p.1 (tlog tr ++ log) (tgot tr))
  | CRecv =>
    let '(n, r) := recv n in
    Some (mkTrace n (tlog tr) (tgot tr ++ match r with Some x => [x] | None => [] end))
  | CHeartbeat now => Some (mkTrace (heartbeat now n) (tlog tr) (tgot tr))
  end.

Definition node_run (cs : list NodeCmd) (tr : Trace) : option Trace := foldl (λ t c, t ≫= λ t, node_step t c) (Some tr) cs.

(** Datagrams are bytes. *)
Definition cmd_ok (c : NodeCmd) : Prop := match c with CPoll raw _ _ => Forall byte_ok raw | _ => True end.

Record trace_ok (c : GossipConfig) (tr : Trace) : Prop := {
  tk_config : config (tn tr) = c;
  tk_inv : node_inv (tlog tr) (tn tr);
  tk_got : tgot tr ++ inbox (tn tr) = omap fst (tlog tr);
}.

Lemma heartbeat_topic_inv n t :
  d_low (config n) ≤ d (config n) ≤ d_high (config n) → mesh_bounded n →
  mesh_bounded (heartbeat_topic n t) ∧ config (heartbeat_topic n t) = config n ∧ seen_msgs (heartbeat_topic n t) = seen_msgs n ∧ inbox (heartbeat_topic n t) = inbox n.
Proof.
  intros Hd Hb. unfold heartbeat_topic. destruct (Z.ltb_spec (Z.of_nat (size (mesh_of t n))) (d_low (config n))).
  - apply graft_bounded; [done|]. rewrite length_fmap, length_take. unfold sub64, wrap64. pose proof (Z.mod_le (d (config n) - Z.of_nat (size (mesh_of t n))) (2 ^ 64)). lia.
  - destruct (_ <? _); [by apply prune_bounded|done].
Qed.

Lemma heartbeat_topics_inv ts n :
  d_low (config n) ≤ d (config n) ≤ d_high (config n) → mesh_bounded n →
  let n' := foldl heartbeat_topic n ts in mesh_bounded n' ∧ config n' = config n ∧ seen_msgs n' = seen_msgs n ∧ inbox n' = inbox n.
Proof.
  revert n. induction ts as [|t ts IH]; intros n Hd Hb; [done|]. cbn [foldl].
  destruct (heartbeat_topic_inv n t Hd Hb) as (Hb' & Hc' & Hs' & Hi'). destruct (IH (heartbeat_topic n t)) as (Hb'' & Hc'' & Hs'' & Hi''); [by rewrite Hc'|done|].
  cbn. split; [done|]. split; [congruence|]. split; congruence.
Qed.

Lemma evict_inv now n :
  mesh (evict_stale_peers now n) = mesh n ∧ config (evict_stale_peers now n) = config n ∧ seen_msgs (evict_stale_peers now n) = seen_msgs n ∧
  inbox (evict_stale_peers now n) = inbox n.
Proof.
  unfold evict_stale_peers. cbn zeta. generalize (stale_peers now (evict_timeout_ms (config n)) n). intros l.
  assert (∀ n, let n' := foldl (λ n key, match peers n !! key with Some _ => count inc_evicted (n <| peers := delete key (peers n) |>) | None => n end) n l in
    mesh n' = mesh n ∧ config n' = config n ∧ seen_msgs n' = seen_msgs n ∧ inbox n' = inbox n) as Hl; [|apply (Hl n)].
  induction l as [|k l IH]; intros n'; [done|]. cbn. destruct (peers n' !! k); [|apply IH]. destruct (IH (count inc_evicted (n' <| peers := delete k (peers n') |>))) as (? & ? & ? & ?).
  done.
Qed.

Lemma heartbeat_inv log now n :
  d_low (config n) ≤ d (config n) ≤ d_high (config n) → node_inv log n →
  node_inv log (heartbeat now n) ∧ config (heartbeat now n) = config n ∧ inbox (heartbeat now n) = inbox n.
Proof.
  intros Hd Hi. unfold heartbeat. case_match; [done|]. set (n0 := n <| last_heartbeat_ms := now |>).
  destruct (heartbeat_topics_inv (bset_iter (subscriptions n0)) n0 Hd) as (Hb & Hc & Hs & Hx); [apply Hi|]. cbn zeta in *. set (n1 := foldl heartbeat_topic _ _) in *.
  change (config n0) with (config n) in Hc. change (seen_msgs n0) with (seen_msgs n) in Hs. change (inbox n0) with (inbox n) in Hx.
  destruct (same_emit n1) as [Hc1 _ _ Hm1 Hs1 Hi1]. destruct (evict_inv now (emit_ihave n1)) as (Hm2 & Hc2 & Hs2 & Hi2).
  assert (config (evict_stale_peers now (emit_ihave n1)) = config n ∧ seen_msgs (evict_stale_peers now (emit_ihave n1)) = seen_msgs n ∧
    inbox (evict_stale_peers now (emit_ihave n1)) = inbox n) as (Hc3 & Hs3 & Hi3) by (split; [congruence|]; split; congruence).
  split; [|by split]. eapply (node_inv_same log n); [done|exact Hc3|exact Hs3|]. intros t. unfold mesh_of.
  change (mesh (count ?f ?n)) with (mesh n). rewrite Hm2, Hm1. change (config (count ?f ?n)) with (config n). rewrite Hc2, Hc1. apply Hb.
Qed.

Lemma handle_graft_inv log msg from n : node_inv log n → node_inv log (handle_graft msg from n) ∧ config (handle_graft msg from n) = config n ∧ inbox (handle_graft msg from n) = inbox n.
Proof.
  intros Hi. unfold handle_graft. cbn zeta. set (n1 := mesh_entry (topic msg) (count inc_graft_received n)).
  assert (mesh_bounded n1) as Hb by (intros t; unfold n1; rewrite mesh_of_entry; apply Hi).
  destruct (Z.ltb_spec (Z.of_nat (size (mesh_of (topic msg) n1))) (d_high (config n1))).
  - split; [|done]. eapply (node_inv_same log n); [done..|]. by apply (mesh_insert_bounded (topic msg) from n1).
  - destruct (same_send (serialize (control Prune (topic msg))) n1 from) as [Hc _ _ Hm Hs Hx].
    split; [|split; [exact Hc|exact Hx]]. eapply (node_inv_same log n); [done|exact Hc|exact Hs|]. intros t. unfold mesh_of. cbn. unfold send_prune. rewrite Hm, Hc. apply Hb.
Qed.

(** Peers do not matter for the invariant. *)
Lemma peers_inv log n ps : node_inv log n → node_inv log (n <| peers := ps |>).
Proof. intros Hi. by eapply (node_inv_same log n); [done..|apply Hi]. Qed.

Lemma update_peer_same key a now n :
  ∃ ps f, update_peer key a now n = count f (n <| peers := ps |>).
Proof.
  unfold update_peer. destruct (peers n !! key) as [p|]; [|by eexists _, _].
  exists (<[key := p <| seen_ms := now |> <| score := inc_score (score p) |> <| connected := true |>]> (peers n)), id. by destruct n.
Qed.

Definition entry_of (o : option GossipMessage) : list (option (bytes * bytes) * Z) :=
  match o with Some m => [(Some (topic m, data m), msg_id m)] | None => [] end.

Lemma handle_publish_inv log msg n :
  0 < history (config n) → node_inv log n →
  let o := if bool_decide (topic msg ∈ subscriptions n ∧ msg_id msg ∉ seen_msgs n) then Some msg else None in
  let n' := handle_publish msg n in
  node_inv (log ++ entry_of o) n' ∧ config n' = config n ∧ inbox n' = inbox n ++ omap fst (entry_of o).
Proof.
  intros Hh Hi. cbn zeta. unfold handle_publish. destruct (bool_decide_reflect (topic msg ∈ subscriptions n)) as [Hs|Hs]; cbn [negb].
  2: { rewrite bool_decide_false by tauto. cbn. by rewrite !app_nil_r. }
  destruct (bool_decide_reflect (msg_id msg ∈ seen_msgs n)) as [Hm|Hm].
  { rewrite bool_decide_false by tauto. cbn [entry_of omap list_omap]. rewrite !app_nil_r. split; [by eapply same_state_inv; [apply same_count|]|done]. }
  rewrite bool_decide_true by done. cbn [entry_of omap list_omap fst].
  pose proof (record_seen_inv log (Some (topic msg, data msg)) (msg_id msg) n Hh Hi (λ _, Hm)) as Hr. set (n1 := record_seen (msg_id msg) n) in *.
  set (n2 := n1 <| inbox := inbox n1 ++ [(topic msg, data msg)] |>).
  assert (node_inv (log ++ [(Some (topic msg, data msg), msg_id msg)]) n2) as H2 by (by eapply (node_inv_same _ n1); [done..|apply Hr]).
  destruct (1 <? ttl msg); [|done]. destruct (same_forward (msg <| ttl := ttl msg - 1 |>) n2) as [Hc Hp Hsb Hms Hsn Hin] eqn:E. clear E.
  split; [by eapply same_state_inv; [apply same_forward|]|]. by rewrite Hc, Hin.
Qed.

Lemma poll_inv log raw a now n n' r :
  0 < history (config n) → node_inv log n → poll raw a now n = Some (n', r) →
  node_inv (log ++ entry_of (accepted raw n)) n' ∧ config n' = config n ∧ inbox n' = inbox n ++ omap fst (entry_of (accepted raw n)).
Proof.
  intros Hh Hi. unfold poll, accepted. destruct raw as [|b raw]; [intros [= <- <-]; cbn; by rewrite !app_nil_r|]. generalize (b :: raw). clear b raw. intros raw.
  destruct (deserialize raw (max_msg_size (config n))) as [[m|e]|]; cbn [mbind option_bind]; [|intros [= <- <-]; cbn; by rewrite !app_nil_r|done].
  intros [= <- <-]. destruct (update_peer_same (addr_key a) a now (count inc_received n)) as (ps & f & ->).
  set (n1 := count f _). assert (node_inv log n1) as H1 by (apply same_state_inv with (n <| peers := ps |>); [done|by apply peers_inv]).
  unfold handle_message. destruct (msg_type m); cbn [entry_of omap list_omap]; rewrite ?app_nil_r; try done.
  - apply (handle_publish_inv log m n1 Hh H1).
  - split; [by apply peers_inv|done].
  - split; [|done]. eapply (node_inv_same log n1); [done..|]. apply (mesh_remove_bounded _ _ (with_peer _ _ n1)), H1.
  - exact (handle_graft_inv log m (addr_key a) n1 H1).
  - split; [|done]. eapply (node_inv_same log n1); [done..|]. apply (mesh_remove_bounded _ _ (count inc_prune_received n1)), H1.
  - destruct (same_ihave m (addr_key a) n1) as [Hc _ _ Hm Hs Hx]. split; [by eapply same_state_inv; [apply same_ihave|]|]. by rewrite Hc, Hx.
Qed.

Lemma node_step_ok c tr cmd :
  0 < history c → d_low c ≤ d c ≤ d_high c → cmd_ok cmd → trace_ok c tr → ∃ tr', node_step tr cmd = Some tr' ∧ trace_ok c tr'.
Proof.
  intros Hh Hd Hcmd [Hc Hi Hg]. destruct tr as [n log got]. cbn [tn tlog tgot] in *. subst c.
  destruct cmd as [a|t|t|t dt|raw a now| |now]; cbn [node_step tn tlog tgot].
  - eexists. split; [done|]. unfold add_peer. cbn zeta. destruct (peers n !! _); split; cbn; try done. by eapply same_state_inv; [|by apply peers_inv].
  - eexists. split; [done|]. unfold subscribe. case_bool_decide; [by split|]. set (n1 := mesh_entry _ _).
    pose proof (same_broadcast (control Subscribe t) n1) as Hsm. split; cbn [tn tlog tgot]; [by rewrite (st_config _ _ Hsm)| |by rewrite (st_inbox _ _ Hsm)].
    eapply same_state_inv; [exact Hsm|]. eapply (node_inv_same log n); [done..|]. intros t'. unfold n1. rewrite mesh_of_entry. apply Hi.
  - eexists. split; [done|]. unfold unsubscribe. case_bool_decide; [|by split]. set (n1 := _ <| mesh := _ |>).
    pose proof (same_broadcast (control Unsubscribe t) n1) as Hsm. split; cbn [tn tlog tgot]; [by rewrite (st_config _ _ Hsm)| |by rewrite (st_inbox _ _ Hsm)].
    eapply same_state_inv; [exact Hsm|]. eapply (node_inv_same log n); [done..|]. intros t'. unfold mesh_of, n1. cbn. pose proof (ni_mesh _ _ Hi t') as Hb. unfold mesh_of in Hb.
    destruct (decide (t' = t)) as [->|]; [rewrite lookup_delete_eq; cbn; rewrite size_empty; lia|by rewrite lookup_delete_ne].
  - unfold publish. destruct (bool_decide_reflect (t ∈ subscriptions n)) as [Hs|Hs]; cbn [negb]; [|eexists; split; [done|]; rewrite app_nil_r; by split].
    destruct (_ <? _); [eexists; split; [done|]; rewrite app_nil_r; by split|]. eexists. split; [done|].
    pose proof (record_seen_inv log None (msg_id (new_publish t dt)) n Hh Hi ltac:(by intros [])) as Hr.
    pose proof (same_forward (new_publish t dt) (record_seen (msg_id (new_publish t dt)) n)) as Hsm.
    split; cbn [tn tlog tgot]; [exact (st_config _ _ Hsm)|by eapply same_state_inv; [|exact Hr]; destruct Hsm|].
    change (inbox (count ?f ?n)) with (inbox n). rewrite (st_inbox _ _ Hsm), omap_app. cbn. by rewrite app_nil_r.
  - destruct (poll_total raw a now n Hcmd) as [[n' r] Hp]. rewrite Hp. cbn [mbind option_bind]. eexists. split; [done|].
    destruct (poll_inv log raw a now n n' r Hh Hi Hp) as (Hi' & Hc' & Hx). split; cbn [tn tlog tgot fst]; [done|exact Hi'|].
    rewrite Hx, omap_app, app_assoc, Hg. done.
  - unfold recv. destruct (inbox n) as [|x rest] eqn:Ex; (eexists; split; [done|]); split; cbn; rewrite ?app_nil_r; try done; [by rewrite Ex|by eapply node_inv_same; [..|apply Hi]|].
    by rewrite <-app_assoc.
  - destruct (heartbeat_inv log now n Hd Hi) as (Hi' & Hc' & Hx). eexists. split; [done|]. split; cbn [tn tlog tgot]; [done|done|by rewrite Hx].
Qed.

Lemma node_run_ok c cmds tr :
  0 < history c → d_low c ≤ d c ≤ d_high c → Forall cmd_ok cmds → trace_ok c tr → ∃ tr', node_run cmds tr = Some tr' ∧ trace_ok c tr'.
Proof.
  intros Hh Hd Hcs. revert tr. induction Hcs as [|cmd cmds Hcmd Hcs IH]; intros tr Htr; [by eexists|].
  destruct (node_step_ok c tr cmd Hh Hd Hcmd Htr) as (tr1 & Hs & Htr1). unfold node_run. cbn. rewrite Hs. by apply IH.
Qed.

Lemma valid_config c : GossipConfig_validate c = Ok tt → 0 ≤ history c → 0 < history c ∧ d_low c ≤ d c ≤ d_high c.
Proof. unfold GossipConfig_validate. intros Hv Hh. repeat case_match; try done. lia. Qed.

(** C35: A node delivers without repetition and keeps its mesh small. With a valid
    configuration, whatever calls are made and datagrams arrive, it does not panic; the
    mesh of a topic never exceeds [d_high], and at most [history] ids are remembered;
    what the user got and what waits is exactly what was delivered, in order; and a
    message that is delivered was neither delivered nor published before within the
    last [history] messages. *)
Theorem gossip_node_ok c cmds :
  GossipConfig_validate c = Ok tt → 0 ≤ history c ∧ 0 ≤ d_high c → Forall cmd_ok cmds →
  ∃ tr, node_run cmds (mkTrace (GossipNode_new c) [] []) = Some tr ∧
    (∀ t, Z.of_nat (size (mesh_of t (tn tr))) ≤ d_high c) ∧ Z.of_nat (length (seen_msgs (tn tr))) ≤ history c ∧
    tgot tr ++ inbox (tn tr) = omap fst (tlog tr) ∧
    (∀ i j b x id, tlog tr !! i = Some (b, id) → tlog tr !! j = Some (Some x, id) → (i < j)%nat → history c < Z.of_nat j - Z.of_nat i).
Proof.
  intros Hv [Hh0 Hd0] Hcs. destruct (valid_config c Hv Hh0) as [Hh Hd].
  destruct (node_run_ok c cmds (mkTrace (GossipNode_new c) [] []) Hh Hd Hcs) as (tr & Hr & [Hc [Hs Hm Hf] Hg]).
  { split; cbn; [done| |done]. split; cbn; [done| |by intros i j b x id]. intros t. unfold mesh_of. cbn. rewrite lookup_empty. cbn. rewrite size_empty. lia. }
  exists tr. split; [done|]. rewrite <-Hc. split; [exact Hm|]. split; [|by split]. rewrite Hs, length_drop, length_fmap, Hc. lia.
Qed.

(** ** Examples *)

Definition ex_topic : bytes := string_bytes "iona/blocks".
Definition ex_addr (i : Z) : addr := ([10; 0; 0; i], 4001).
Definition ex_message (ty : MsgType) : bytes := serialize (control ty ex_topic).

Lemma gossip_node_ok_witness :
  ∃ tr, node_run [CSubscribe ex_topic; CPoll (ex_message Subscribe) (ex_addr 1) 5; CHeartbeat 2000; CPublish ex_topic [1; 2]] (mkTrace (GossipNode_new GossipConfig_default) [] []) = Some tr ∧
    (∀ t, Z.of_nat (size (mesh_of t (tn tr))) ≤ d_high GossipConfig_default) ∧ Z.of_nat (length (seen_msgs (tn tr))) ≤ history GossipConfig_default ∧
    tgot tr ++ inbox (tn tr) = omap fst (tlog tr) ∧
    (∀ i j b x id, tlog tr !! i = Some (b, id) → tlog tr !! j = Some (Some x, id) → (i < j)%nat → history GossipConfig_default < Z.of_nat j - Z.of_nat i).
Proof.
  apply gossip_node_ok; [reflexivity|vm_compute; split; discriminate|]. repeat constructor; vm_compute; discriminate.
Defined.

(** ** Where the code departs from its documentation *)

Definition ex_run (cs : list NodeCmd) : option GossipNode := tn <$> node_run cs (mkTrace (GossipNode_new GossipConfig_default) [] []).

(** Peers that are evicted stay in the mesh: with four of them a node has a full mesh,
    never grafts another peer and sends what it publishes to nobody. *)
Lemma mesh_of_ghosts :
  let join := concat ((λ i, [CPoll (ex_message Subscribe) (ex_addr i) 5; CPoll (ex_message Graft) (ex_addr i) 5]) <$> [1; 2; 3; 4]) in
  (λ n, (size (mesh_of ex_topic n), size (peers n), length (filter (λ x, x.2 = ex_addr 9) (sent n)))) <$>
    ex_run ([CSubscribe ex_topic] ++ join ++ [CHeartbeat 90000; CPoll (ex_message Subscribe) (ex_addr 9) 90001; CHeartbeat 92000; CPublish ex_topic [1]]) =
  Some (4%nat, 1%nat, 0%nat).
Proof. by vm_compute. Qed.

(** A message whose data has the size allowed, or a little less, is refused by every
    node that gets it: the limit is for the data when it is sent and for the whole
    datagram when it is received. *)
Lemma large_message_refused dt n :
  Z.of_nat (length dt) = max_msg_size (config n) →
  ∃ size, deserialize (serialize (new_publish ex_topic dt)) (max_msg_size (config n)) = Some (Err (MessageTooLarge size (max_msg_size (config n)))).
Proof.
  intros Hl. pose proof (length_serialize (new_publish ex_topic dt)) as Hs. unfold deserialize. destruct (serialize _) as [|b rest] eqn:E; [done|].
  rewrite (proj2 (Z.ltb_lt _ _)); [by eexists|]. rewrite Hs. cbn [topic data new_publish]. lia.
Qed.

(** A peer that is found after the subscription is never told of it. *)
Lemma late_peer_not_told :
  (λ n, length (filter (λ x, x.2 = ex_addr 1) (sent n))) <$> ex_run [CSubscribe ex_topic; CAddPeer (ex_addr 1); CHeartbeat 2000; CHeartbeat 4000] = Some 0%nat.
Proof. by vm_compute. Qed.

(** A graft of a topic that the node does not have makes an entry for it: peers can
    fill the memory of a node with topics. *)
Lemma graft_makes_topic t from n : is_Some (mesh (handle_graft (control Graft t) from n) !! t).
Proof.
  unfold handle_graft. cbn zeta. set (n1 := mesh_entry _ _). assert (is_Some (mesh n1 !! t)) as Hm by (unfold n1; cbn; rewrite lookup_insert_eq; by eexists).
  case_match; [cbn; rewrite lookup_insert_eq; by eexists|]. cbn. unfold send_prune. by rewrite (st_mesh _ _ (same_send _ n1 from)).
Qed.

(** No peer is ever in the state [Connected]. *)
Lemma never_connected packets now s s' :
  (∀ k, states s !! k ≠ Some Connected) → tick packets now s = Some s' → ∀ k, states s' !! k ≠ Some Connected.
Proof.
  intros H0. unfold tick. destruct (poll_all packets now (node s)) as [n|]; [|done]. cbn [mbind option_bind]. intros [= <-].
  assert (∀ l s, (∀ k, states s !! k ≠ Some Connected) → ∀ k, states (foldl (evict_one now) s l) !! k ≠ Some Connected) as He.
  { intros l. induction l as [|key l IH]; intros s1 H1; [done|]. cbn. apply IH. unfold evict_one. destruct (peers (node s1) !! key); [|done]. intros k. cbn.
    destruct (decide (k = key)) as [->|]; [by rewrite lookup_insert_eq|by rewrite lookup_insert_ne]. }
  apply He. assert (∀ l s, (∀ k, states s !! k ≠ Some Connected) → ∀ k, states (foldl reconnect_one s l) !! k ≠ Some Connected) as Hr; [|by apply Hr].
  intros l. induction l as [|key l IH]; intros s1 H1; [done|]. cbn. apply IH. unfold reconnect_one. cbn zeta. cbn [node set_field].
  match goal with |- context [peers ?x !! key] => destruct (peers x !! key) end; [|done]. intros k. cbn.
  destruct (decide (k = key)) as [->|]; [by rewrite lookup_insert_eq|by rewrite lookup_insert_ne].
Qed.
