(* ===== verification/GossipNet.v ===== *)
(** * A network of gossip nodes ([src/src/blockchain/gossipsub.rs]).

    Nodes at addresses and the datagrams between them, delivered in any order. The
    theorem is that a published message floods the mesh: it reaches every node that
    the mesh connects, once, in a bounded number of deliveries, as long as there are
    no more nodes than hops; lemmas show that it does not for more. *)

From Stdlib Require Import ZArith Lia Bool.
From stdpp Require Import base gmap sets strings numbers sorting list relations.
From S2P Require Import Prelude Types Utf8 Gossip.

Local Open Scope Z_scope.

(** ** The network *)

(** A datagram: from whom, to whom, and the bytes. *)
Record Datagram := mkDatagram { dg_from : addr; dg_to : addr; dg_raw : bytes }.

Record Net := mkNet { nodes : gmap addr GossipNode; wire : list Datagram }.

(** What a node at [a] sent between two states. *)
Definition new_sends (a : addr) (n n' : GossipNode) : list Datagram :=
  (λ x, mkDatagram a x.2 x.1) <$> drop (length (sent n)) (sent n').

(** A node publishes. *)
Definition net_publish (a : addr) (t dt : bytes) (w : Net) : option Net :=
  n ← nodes w !! a;
  match publish t dt n with
  | (n', Ok _) => Some (mkNet (<[a := n']> (nodes w)) (wire w ++ new_sends a n n'))
  | (_, Err _) => None
  end.

(** The [i]-th datagram arrives at time [now]; one to nobody is dropped. *)
Definition net_deliver (w : Net) (s : nat * Z) : option Net :=
  x ← wire w !! s.1;
  let rest := delete s.1 (wire w) in
  match nodes w !! dg_to x with
  | None => Some (mkNet (nodes w) rest)
  | Some n =>
    p ← poll (dg_raw x) (dg_from x) s.2 n;
    Some (mkNet (<[dg_to x := p.1]> (nodes w)) (rest ++ new_sends (dg_to x) n p.1))
  end.

Definition net_run (steps : list (nat * Z)) (w : Net) : option Net := foldl (λ w s, w ≫= λ w, net_deliver w s) (Some w) steps.

(** ** Forwarding *)

(** Where a node sends what it forwards: the addresses of its mesh. *)
Definition mesh_addrs (t : bytes) (n : GossipNode) : list addr :=
  omap (λ k, addr_of <$> peers n !! k) (bset_iter (mesh_of t n)).

Lemma forward_sends msg n :
  forward_to_mesh msg n = n <| sent := sent n ++ ((λ a, (serialize msg, a)) <$> mesh_addrs (topic msg) n) |>.
Proof.
  unfold forward_to_mesh, mesh_addrs, mesh_of. destruct (mesh n !! topic msg) as [m|]; cbn [default from_option]; unfold Datatypes.id.
  2: { destruct n. cbn. unfold bset_iter. rewrite elements_empty. cbn. by rewrite app_nil_r. }
  generalize (bset_iter m). intros ks. revert n. induction ks as [|k ks IH]; intros n; cbn [foldl omap list_omap].
  { destruct n. cbn. by rewrite app_nil_r. }
  rewrite IH. unfold send_to_peer. destruct (peers n !! k) as [p|]; [|done]. cbn. by rewrite <-app_assoc.
Qed.

(** The peers and the mesh of a node agree with the network: whom it forwards to. *)
Definition linked (ns : gmap addr GossipNode) (t : bytes) (n : GossipNode) : Prop :=
  ∀ k, k ∈ mesh_of t n → ∃ p, peers n !! k = Some p ∧ is_Some (ns !! addr_of p).

Definition edge (ns : gmap addr GossipNode) (t : bytes) (a b : addr) : Prop := ∃ n, ns !! a = Some n ∧ b ∈ mesh_addrs t n.

Lemma linked_addrs ns t n b : linked ns t n → b ∈ mesh_addrs t n → is_Some (ns !! b).
Proof.
  unfold mesh_addrs. intros Hl (k & Hk & Hb)%list_elem_of_omap. rewrite elem_of_bset_iter in Hk. destruct (Hl k Hk) as (p & Hp & Hn).
  rewrite Hp in Hb. cbn in Hb. by injection Hb as <-.
Qed.

Lemma omap_ext_in {A B} (f g : A → option B) (l : list A) : (∀ x, x ∈ l → f x = g x) → omap f l = omap g l.
Proof. induction l as [|x l IH]; intros Hf; [done|]. cbn. rewrite (Hf x) by by left. rewrite IH; [done|]. intros y Hy. apply Hf. by right. Qed.

(** Hearing from a peer does not change where a linked node sends. *)
Lemma mesh_addrs_update ns t key a now n n1 :
  linked ns t n → mesh n1 = mesh n → peers n1 = peers n → mesh_addrs t (update_peer key a now n1) = mesh_addrs t n.
Proof.
  intros Hl Hm Hp. unfold mesh_addrs. destruct (update_peer_same key a now n1) as (ps & f & Hu).
  assert (mesh_of t (update_peer key a now n1) = mesh_of t n) as -> by (rewrite Hu; unfold mesh_of; cbn; by rewrite Hm).
  apply omap_ext_in. intros k Hk. rewrite elem_of_bset_iter in Hk. destruct (Hl k Hk) as (p & Hpk & _). rewrite Hpk.
  unfold update_peer. rewrite Hp. destruct (peers n !! key) as [q|] eqn:Eq; cbn; rewrite ?Hp.
  - destruct (decide (k = key)) as [->|]; [|by rewrite lookup_insert_ne, Hpk]. rewrite lookup_insert_eq. rewrite Eq in Hpk. by injection Hpk as ->.
  - destruct (decide (k = key)) as [->|]; [congruence|]. by rewrite lookup_insert_ne, Hpk.
Qed.

Section flood.
Variables (ns : gmap addr GossipNode) (a0 : addr) (t dt : bytes).

Let msg (k : Z) : GossipMessage := (new_publish t dt) <| ttl := k |>.
Let id : Z := compute_id t dt.

(** A node that takes part: subscribed, linked to other nodes, able to receive the
    message, and new to it. *)
Record ready (n : GossipNode) : Prop := {
  rd_sub : t ∈ subscriptions n;
  rd_new : id ∉ seen_msgs n;
  rd_history : 0 < history (config n);
  rd_size : 9 + Z.of_nat (length t) + Z.of_nat (length dt) ≤ max_msg_size (config n);
  rd_links : linked ns t n;
}.

Hypothesis Hmsg : message_ok (new_publish t dt).
Hypothesis Hready : ∀ a n, ns !! a = Some n → ready n.
Hypothesis Hsize : Z.of_nat (size ns) ≤ DEFAULT_TTL + 1.
Hypothesis Hreach : ∀ a, is_Some (ns !! a) → rtc (edge ns t) a0 a.

(** A node that has the message; [n] is its state before. *)
Record informed (a : addr) (n n' : GossipNode) : Prop := {
  if_config : config n' = config n;
  if_sub : subscriptions n' = subscriptions n;
  if_seen : id ∈ seen_msgs n';
  if_inbox : inbox n' = inbox n ++ (if bool_decide (a = a0) then [] else [(t, dt)]);
}.

(** [I] are the nodes that have the message. *)
Record flooding (I : gset addr) (w : Net) : Prop := {
  fl_start : a0 ∈ I;
  fl_dom : dom (nodes w) = dom ns;
  fl_known : I ⊆ dom ns;
  fl_in a n : a ∈ I → ns !! a = Some n → ∃ n', nodes w !! a = Some n' ∧ informed a n n';
  fl_out a : a ∉ I → nodes w !! a = ns !! a;
  fl_wire x : x ∈ wire w → is_Some (ns !! dg_to x) ∧ ∃ k, dg_raw x = serialize (msg k) ∧ DEFAULT_TTL - Z.of_nat (size I) < k;
  fl_edges a n b : a ∈ I → ns !! a = Some n → b ∈ mesh_addrs t n → b ∈ I ∨ b ∈ dg_to <$> wire w;
}.

(** What is left to do: datagrams in flight and those the other nodes will send. *)
Definition work (I : gset addr) (w : Net) : nat :=
  (length (wire w) + sum_list_with (λ a, length (default [] (mesh_addrs t <$> ns !! a))) (elements (dom ns ∖ I)))%nat.

Lemma deserialize_msg n k : ready n → deserialize (serialize (msg k)) (max_msg_size (config n)) = Some (Ok (msg k)).
Proof.
  intros Hr. apply deserialize_serialize; [by destruct Hmsg; split|]. rewrite length_serialize. cbn. pose proof (rd_size _ Hr). lia.
Qed.

Lemma poll_msg n k a now :
  ready n ∨ (∃ n0 b, ready n0 ∧ informed b n0 n) →
  poll (serialize (msg k)) a now n = Some (handle_publish (msg k) (update_peer (addr_key a) a now (count inc_received n)), Ok true).
Proof.
  intros Hn. unfold poll. assert (deserialize (serialize (msg k)) (max_msg_size (config n)) = Some (Ok (msg k))) as ->.
  { destruct Hn as [Hr|(n0 & b & Hr & [Hc _ _ _])]; [by apply deserialize_msg|]. rewrite Hc. by apply deserialize_msg. }
  pose proof (length_serialize (msg k)) as Hl. destruct (serialize (msg k)); [done|]. done.
Qed.

Lemma new_sends_nil a n n' : sent n' = sent n → new_sends a n n' = [].
Proof. intros Hs. unfold new_sends. by rewrite Hs, drop_all. Qed.

(** A node that has the message ignores another copy. *)
Lemma poll_again n0 b n k a now :
  ready n0 → informed b n0 n → ∃ n', poll (serialize (msg k)) a now n = Some (n', Ok true) ∧ informed b n0 n' ∧ sent n' = sent n.
Proof.
  intros Hr Hi. rewrite poll_msg by (right; by eexists _, _). destruct (update_peer_same (addr_key a) a now (count inc_received n)) as (ps & f & ->).
  destruct Hi as [Hc Hsb Hsn Hin]. unfold handle_publish. cbn [msg topic new_publish msg_id].
  rewrite bool_decide_true by (cbn; rewrite Hsb; apply Hr). cbn [negb]. rewrite bool_decide_true by exact Hsn. by eexists.
Qed.

(** A node that hears it for the first time delivers it and passes it on. *)
Lemma poll_first n k a b now :
  ready n → b ≠ a0 →
  ∃ n', poll (serialize (msg k)) a now n = Some (n', Ok true) ∧ informed b n n' ∧
    new_sends b n n' = if 1 <? k then (λ c, mkDatagram b c (serialize (msg (k - 1)))) <$> mesh_addrs t n else [].
Proof.
  intros Hr Hb. rewrite poll_msg by by left. pose proof (mesh_addrs_update ns t (addr_key a) a now n (count inc_received n) (rd_links _ Hr) eq_refl eq_refl) as Hm.
  destruct (update_peer_same (addr_key a) a now (count inc_received n)) as (ps & f & Hu). rewrite Hu in *. set (n1 := count f _) in *.
  unfold handle_publish. change (topic (msg k)) with t. change (msg_id (msg k)) with id. change (ttl (msg k)) with k. change (data (msg k)) with dt.
  rewrite bool_decide_true by apply Hr. cbn [negb]. rewrite bool_decide_false by apply (rd_new _ Hr). eexists. split; [done|].
  destruct (1 <? k); [|split; [split; cbn; [done|done|apply elem_of_app; right; by left|by rewrite bool_decide_false]|by apply new_sends_nil]]. rewrite forward_sends.
  set (n2 := _ <| inbox := _ |>). assert (mesh_addrs t n2 = mesh_addrs t n) as Hm2 by exact Hm. split.
  - split; cbn; [done|done| |by rewrite bool_decide_false]. apply elem_of_app. right. by left.
  - unfold new_sends. cbn [sent set_field]. change (sent n2) with (sent n). rewrite drop_app_length, <-list_fmap_compose.
    rewrite <-Hm2. reflexivity.
Qed.

Lemma flooding_edges_drop I w i x w' :
  flooding I w → wire w !! i = Some x → dg_to x ∈ I → delete i (wire w) ⊆ wire w' →
  ∀ a n b, a ∈ I → ns !! a = Some n → b ∈ mesh_addrs t n → b ∈ I ∨ b ∈ dg_to <$> wire w'.
Proof.
  intros Hf Hx Ht Hsub a n b Ha Hn Hb. destruct (fl_edges _ _ Hf a n b Ha Hn Hb) as [|(y & -> & Hy)%list_elem_of_fmap]; [by left|].
  rewrite (delete_Permutation _ _ _ Hx) in Hy. apply elem_of_cons in Hy as [->|Hy]; [by left|]. right. apply list_elem_of_fmap. exists y. split; [done|by apply Hsub].
Qed.

Lemma length_delete_wire (w : Net) i x : wire w !! i = Some x → length (wire w) = S (length (delete i (wire w))).
Proof. intros Hx. by rewrite (delete_Permutation _ _ _ Hx) at 1. Qed.

Lemma deliver_again I w i now x :
  flooding I w → wire w !! i = Some x → dg_to x ∈ I →
  ∃ w', net_deliver w (i, now) = Some w' ∧ flooding I w' ∧ (work I w' < work I w)%nat.
Proof.
  intros Hf Hx Ht. destruct (fl_wire _ _ Hf x) as ([n Hn] & k & Hraw & Hk); [by eapply list_elem_of_lookup_2|].
  destruct (fl_in _ _ Hf _ _ Ht Hn) as (n1 & Hn1 & Hi). destruct (poll_again n (dg_to x) n1 k (dg_from x) now (Hready _ _ Hn) Hi) as (n2 & Hp & Hi2 & Hs).
  unfold net_deliver. cbn [fst snd]. rewrite Hx. cbn [mbind option_bind]. rewrite Hn1, Hraw, Hp. cbn [mbind option_bind fst]. rewrite new_sends_nil by done.
  rewrite app_nil_r. set (w' := mkNet _ _). exists w'. split; [done|]. pose proof (length_delete_wire w i x Hx) as Hl. split.
  - split; cbn.
    + apply Hf.
    + rewrite dom_insert_L, (fl_dom _ _ Hf). apply subseteq_union_1_L, singleton_subseteq_l, elem_of_dom. by eexists.
    + apply Hf.
    + intros a n' Ha Hn'. destruct (decide (a = dg_to x)) as [->|]; [|rewrite lookup_insert_ne by done; by apply (fl_in _ _ Hf)].
      rewrite lookup_insert_eq. rewrite Hn in Hn'. injection Hn' as <-. by eexists.
    + intros a Ha. rewrite lookup_insert_ne by (intros <-; done). by apply (fl_out _ _ Hf).
    + intros y Hy. apply (fl_wire _ _ Hf). rewrite (delete_Permutation _ _ _ Hx). by right.
    + by apply (flooding_edges_drop I w i x w').
  - unfold work. cbn. lia.
Qed.

Lemma work_split I b n : b ∉ I → ns !! b = Some n →
  sum_list_with (λ a, length (default [] (mesh_addrs t <$> ns !! a))) (elements (dom ns ∖ I)) =
  (length (mesh_addrs t n) + sum_list_with (λ a, length (default [] (mesh_addrs t <$> ns !! a))) (elements (dom ns ∖ ({[b]} ∪ I))))%nat.
Proof.
  intros Hb Hn. assert (dom ns ∖ I = {[b]} ∪ (dom ns ∖ ({[b]} ∪ I))) as Hd.
  { apply set_eq. intros a. destruct (decide (a = b)) as [->|]; [|set_solver]. assert (b ∈ dom ns) by (apply elem_of_dom; by eexists). set_solver. }
  rewrite Hd at 1. rewrite (elements_disj_union {[b]}) by set_solver.
  rewrite elements_singleton. cbn. by rewrite Hn.
Qed.

Lemma deliver_first I w i now x :
  flooding I w → wire w !! i = Some x → dg_to x ∉ I →
  ∃ w', net_deliver w (i, now) = Some w' ∧ flooding ({[dg_to x]} ∪ I) w' ∧ (work ({[dg_to x]} ∪ I) w' < work I w)%nat.
Proof.
  intros Hf Hx Ht. destruct (fl_wire _ _ Hf x) as ([n Hn] & k & Hraw & Hk); [by eapply list_elem_of_lookup_2|]. set (b := dg_to x) in *.
  assert (b ∈ dom ns) as Hbd by (apply elem_of_dom; by eexists). assert (b ≠ a0) as Hb0 by (intros ->; apply Ht, Hf).
  assert (size ({[b]} ∪ I) = S (size I)) as HI by (rewrite size_union, size_singleton by set_solver; done).
  assert (size ({[b]} ∪ I) ≤ size ns)%nat as Hle.
  { rewrite <-size_dom. apply subseteq_size. pose proof (fl_known _ _ Hf). set_solver. }
  assert (DEFAULT_TTL ≤ Z.of_nat (size I) → dom ns ⊆ {[b]} ∪ I) as Hfull.
  { intros Hs. assert ({[b]} ∪ I = dom ns) as ->; [|done]. apply set_subseteq_size_eq; [pose proof (fl_known _ _ Hf); set_solver|]. rewrite size_dom. lia. }
  destruct (poll_first n k (dg_from x) b now (Hready _ _ Hn) Hb0) as (n2 & Hp & Hi2 & Hs).
  unfold net_deliver. cbn [fst snd]. rewrite Hx. cbn [mbind option_bind]. fold b. rewrite (fl_out _ _ Hf b Ht), Hn, Hraw, Hp. cbn [mbind option_bind fst]. rewrite Hs.
  set (all := _ <$> mesh_addrs t n). set (out := if 1 <? k then all else []) in *.
  assert (out ⊆ all ∧ (length out ≤ length (mesh_addrs t n))%nat) as [Hout Hlen] by (unfold out, all; destruct (1 <? k); [rewrite length_fmap; done|split; [apply list_subseteq_nil|cbn; lia]]).
  set (w' := mkNet _ _). exists w'. split; [done|]. pose proof (length_delete_wire w i x Hx) as Hl. split.
  - split; cbn.
    + pose proof (fl_start _ _ Hf). set_solver.
    + rewrite dom_insert_L, (fl_dom _ _ Hf). set_solver.
    + pose proof (fl_known _ _ Hf). set_solver.
    + intros a n' Ha Hn'. destruct (decide (a = b)) as [->|].
      * rewrite lookup_insert_eq. rewrite Hn in Hn'. injection Hn' as <-. by eexists.
      * rewrite lookup_insert_ne by done. apply (fl_in _ _ Hf); [set_solver|done].
    + intros a Ha. rewrite lookup_insert_ne by set_solver. apply (fl_out _ _ Hf). set_solver.
    + rewrite HI. intros y [Hy|(c & -> & Hc)%Hout%list_elem_of_fmap]%elem_of_app.
      * destruct (fl_wire _ _ Hf y) as (Hy1 & k' & Hy2 & Hk'); [rewrite (delete_Permutation _ _ _ Hx); by right|]. split; [done|]. exists k'. split; [done|lia].
      * split; [by eapply linked_addrs; [apply (rd_links _ (Hready _ _ Hn))|]|]. exists (k - 1). split; [done|lia].
    + intros a n' c [->%elem_of_singleton|Ha]%elem_of_union Hn' Hc.
      * rewrite Hn in Hn'. injection Hn' as <-. unfold out. destruct (1 <? k) eqn:E1.
        -- right. rewrite fmap_app. apply elem_of_app. right. unfold all. rewrite <-list_fmap_compose. apply list_elem_of_fmap. by exists c.
        -- left. apply Z.ltb_ge in E1. apply Hfull; [lia|]. apply elem_of_dom. by eapply linked_addrs; [apply (rd_links _ (Hready _ _ Hn))|].
      * destruct (fl_edges _ _ Hf a n' c Ha Hn' Hc) as [|(y & -> & Hy)%list_elem_of_fmap]; [left; set_solver|].
        rewrite (delete_Permutation _ _ _ Hx) in Hy. apply elem_of_cons in Hy as [->|Hy]; [left; set_solver|]. right. rewrite fmap_app. apply elem_of_app. left.
        apply list_elem_of_fmap. by exists y.
  - unfold work. cbn. rewrite length_app, (work_split I b n Ht Hn). lia.
Qed.

Lemma deliver_ok I w s :
  flooding I w → (s.1 < length (wire w))%nat → ∃ I' w', net_deliver w s = Some w' ∧ flooding I' w' ∧ (work I' w' < work I w)%nat.
Proof.
  destruct s as [i now]. intros Hf [x Hx]%lookup_lt_is_Some_2. destruct (decide (dg_to x ∈ I)).
  - destruct (deliver_again I w i now x) as (w' & ? & ? & ?); [done..|]. by exists I, w'.
  - destruct (deliver_first I w i now x) as (w' & ? & ? & ?); [done..|]. by eexists _, w'.
Qed.

Lemma run_ok steps I w w' :
  flooding I w → net_run steps w = Some w' → ∃ I', flooding I' w' ∧ (work I' w' + length steps ≤ work I w)%nat.
Proof.
  revert I w. induction steps as [|s steps IH]; intros I w Hf; unfold net_run; cbn [foldl mbind option_bind].
  { intros [= <-]. exists I. split; [done|]. cbn. lia. }
  destruct (decide (s.1 < length (wire w))%nat) as [Hs|Hs].
  - destruct (deliver_ok I w s Hf Hs) as (I1 & w1 & -> & Hf1 & Hw1). intros Hr. destruct (IH _ _ Hf1 Hr) as (I' & Hf' & Hw'). exists I'. split; [done|]. cbn. lia.
  - unfold net_deliver. rewrite lookup_ge_None_2 by lia. cbn [mbind option_bind]. intros Hr. exfalso. clear IH. induction steps; [done|]. by apply IHsteps.
Qed.

(** The messages that the nodes send when all of them have forwarded once. *)
Definition total_links : nat := sum_list_with (λ a, length (default [] (mesh_addrs t <$> ns !! a))) (elements (dom ns)).

Lemma publish_ok n : ns !! a0 = Some n → ∃ w, net_publish a0 t dt (mkNet ns []) = Some w ∧ flooding {[a0]} w ∧ work {[a0]} w = total_links.
Proof.
  intros Hn. pose proof (Hready _ _ Hn) as Hr. unfold net_publish. cbn [nodes]. rewrite Hn. cbn [mbind option_bind]. unfold publish.
  rewrite bool_decide_true by apply Hr. cbn [negb]. rewrite (proj2 (Z.ltb_ge _ _)) by (pose proof (rd_size _ Hr); lia).
  rewrite forward_sends. set (n1 := record_seen _ n). change (topic (new_publish t dt)) with t. change (mesh_addrs t n1) with (mesh_addrs t n).
  set (n2 := count inc_sent _). assert (new_sends a0 n n2 = (λ c, mkDatagram a0 c (serialize (msg DEFAULT_TTL))) <$> mesh_addrs t n) as Hs.
  { unfold new_sends, n2. cbn. by rewrite drop_app_length, <-list_fmap_compose. }
  rewrite Hs. eexists. split; [done|]. split.
  - split; cbn.
    + set_solver.
    + rewrite dom_insert_L. apply subseteq_union_1_L, singleton_subseteq_l, elem_of_dom. by eexists.
    + apply singleton_subseteq_l, elem_of_dom. by eexists.
    + intros a n' ->%elem_of_singleton Hn'. rewrite lookup_insert_eq. rewrite Hn in Hn'. injection Hn' as <-. eexists. split; [done|].
      split; cbn; [done|done|apply elem_of_app; right; by left|]. by rewrite bool_decide_true, app_nil_r.
    + intros a Ha. rewrite lookup_insert_ne by set_solver. done.
    + intros x (c & -> & Hc)%list_elem_of_fmap. cbn. split; [by eapply linked_addrs; [apply (rd_links _ Hr)|]|]. exists DEFAULT_TTL. split; [done|].
      rewrite size_singleton. lia.
    + intros a n' c ->%elem_of_singleton Hn' Hc. rewrite Hn in Hn'. injection Hn' as <-. right. rewrite <-list_fmap_compose. apply list_elem_of_fmap. by exists c.
  - unfold work, total_links. cbn [wire]. rewrite app_nil_l, length_fmap.
    pose proof (work_split ∅ a0 n ltac:(set_solver) Hn) as Hw. rewrite difference_empty_L, union_empty_r_L in Hw. by rewrite Hw.
Qed.

Lemma flooded I w : flooding I w → wire w = [] → ∀ a, is_Some (ns !! a) → a ∈ I.
Proof.
  intros Hf Hw a Ha. assert (∀ x, rtc (edge ns t) x a → x ∈ I → a ∈ I) as Hc; [|by apply (Hc a0); [apply Hreach|apply Hf]].
  intros x Hx. induction Hx as [|x y z (n & Hn & Hy) _ IH]; [done|]. intros Hx. apply IH; [done|].
  destruct (fl_edges _ _ Hf x n y Hx Hn Hy) as [|H]; [done|]. rewrite Hw in H. by apply elem_of_nil in H.
Qed.
End flood.

(** What a node has got of the flood so far. *)
Definition delivered (times : nat) (t dt : bytes) (n n' : GossipNode) : Prop := inbox n' = inbox n ++ replicate times (t, dt).

(** C34: A message floods the mesh. Take a network of at most [DEFAULT_TTL] + 1 nodes
    that are all subscribed to the topic, have not seen the message, keep a history,
    accept a message of its size and are connected by their meshes, without loss and
    without other traffic.
    When a node publishes the message, then in whatever order the datagrams arrive: each of
    them can be delivered; no more are delivered than there are mesh links; no node
    ever gets the message twice and the publisher does not get it; and when none is in
    flight every other node has got it, once. *)
Theorem gossip_floods (ns : gmap addr GossipNode) (a0 : addr) (t dt : bytes) :
  message_ok (new_publish t dt) → is_Some (ns !! a0) → (∀ a n, ns !! a = Some n → ready ns t dt n) →
  Z.of_nat (size ns) ≤ DEFAULT_TTL + 1 → (∀ a, is_Some (ns !! a) → rtc (edge ns t) a0 a) →
  ∃ w0, net_publish a0 t dt (mkNet ns []) = Some w0 ∧
    ∀ steps w, net_run steps w0 = Some w →
      (length steps ≤ total_links ns t)%nat ∧
      (∀ i now, (i < length (wire w))%nat → is_Some (net_deliver w (i, now))) ∧
      (∀ a n, ns !! a = Some n → ∃ n' times, nodes w !! a = Some n' ∧ delivered times t dt n n' ∧ (times ≤ if bool_decide (a = a0) then 0 else 1)%nat) ∧
      (wire w = [] → ∀ a n, ns !! a = Some n → ∃ n', nodes w !! a = Some n' ∧ delivered (if bool_decide (a = a0) then 0 else 1) t dt n n').
Proof.
  intros Hmsg [n0 Hn0] Hready Hsize Hreach. destruct (publish_ok ns a0 t dt Hmsg Hready Hsize Hreach n0 Hn0) as (w0 & Hw0 & Hf0 & Hwork). exists w0. split; [done|].
  intros steps w Hr. destruct (run_ok ns a0 t dt Hmsg Hready Hsize Hreach steps _ _ _ Hf0 Hr) as (I & Hf & Hw). split_and!.
  - lia.
  - intros i now Hi. destruct (deliver_ok ns a0 t dt Hmsg Hready Hsize Hreach I w (i, now) Hf Hi) as (? & w' & -> & _). by eexists.
  - intros a n Hn. destruct (decide (a ∈ I)) as [Ha|Ha].
    + destruct (fl_in _ _ _ _ _ _ Hf a n Ha Hn) as (n' & Hn' & Hi). exists n', (if bool_decide (a = a0) then 0 else 1)%nat. split; [done|]. split; [|done].
      unfold delivered. rewrite (if_inbox _ _ _ _ _ _ Hi). by destruct (bool_decide _).
    + exists n, 0%nat. split; [by rewrite (fl_out _ _ _ _ _ _ Hf a Ha)|]. split; [by unfold delivered; rewrite app_nil_r|lia].
  - intros He a n Hn. pose proof (flooded ns a0 t dt Hreach I w Hf He a ltac:(by eexists)) as Ha. destruct (fl_in _ _ _ _ _ _ Hf a n Ha Hn) as (n' & Hn' & Hi).
    exists n'. split; [done|]. unfold delivered. rewrite (if_inbox _ _ _ _ _ _ Hi). by destruct (bool_decide _).
Qed.

(** ** Networks *)

(** The node that subscribed and was grafted by the nodes [ks]. *)
Definition ex_node (ks : list Z) : GossipNode :=
  default (GossipNode_new GossipConfig_default) (ex_run ([CSubscribe ex_topic] ++ ((λ i, CPoll (ex_message Graft) (ex_addr i) 5) <$> ks))).

Definition ex_net (links : list (Z * list Z)) : gmap addr GossipNode := list_to_map ((λ l, (ex_addr l.1, ex_node l.2)) <$> links).

Definition readyb (ns : gmap addr GossipNode) (t dt : bytes) (n : GossipNode) : bool :=
  bool_decide (t ∈ subscriptions n) && negb (bool_decide (compute_id t dt ∈ seen_msgs n)) && (0 <? history (config n)) &&
  (9 + Z.of_nat (length t) + Z.of_nat (length dt) <=? max_msg_size (config n)) &&
  forallb (λ k, match peers n !! k with Some p => bool_decide (is_Some (ns !! addr_of p)) | None => false end) (bset_iter (mesh_of t n)).

Lemma readyb_ok ns t dt n : readyb ns t dt n = true → ready ns t dt n.
Proof.
  unfold readyb. rewrite !andb_true_iff, negb_true_iff, Z.ltb_lt, Z.leb_le, bool_decide_eq_true, bool_decide_eq_false. intros [[[[H1 H2] H3] H4] H5].
  split; [done..|]. intros k Hk. rewrite <-elem_of_bset_iter in Hk. rewrite forallb_forall in H5. specialize (H5 k (proj1 (list_elem_of_In _ _) Hk)).
  destruct (peers n !! k) as [p|]; [|done]. exists p. split; [done|]. by apply bool_decide_eq_true in H5.
Qed.

(** Three nodes in a line. *)
Definition ex_line3 : gmap addr GossipNode := ex_net [(0, [1]); (1, [0; 2]); (2, [1])].

Lemma gossip_floods_witness :
  ∃ w0, net_publish (ex_addr 0) ex_topic [1; 2] (mkNet ex_line3 []) = Some w0 ∧
    ∀ steps w, net_run steps w0 = Some w →
      (length steps ≤ total_links ex_line3 ex_topic)%nat ∧
      (∀ i now, (i < length (wire w))%nat → is_Some (net_deliver w (i, now))) ∧
      (∀ a n, ex_line3 !! a = Some n → ∃ n' times, nodes w !! a = Some n' ∧ delivered times ex_topic [1; 2] n n' ∧ (times ≤ if bool_decide (a = ex_addr 0) then 0 else 1)%nat) ∧
      (wire w = [] → ∀ a n, ex_line3 !! a = Some n → ∃ n', nodes w !! a = Some n' ∧ delivered (if bool_decide (a = ex_addr 0) then 0 else 1) ex_topic [1; 2] n n').
Proof.
  apply gossip_floods.
  - split; [vm_compute; split; [discriminate|done]|split; [vm_compute; lia|by eexists]|cbn; lia].
  - by eexists.
  - intros a n Ha. apply readyb_ok. revert a n Ha. change (map_Forall (λ _ n, readyb ex_line3 ex_topic [1; 2] n = true) ex_line3).
    apply (bool_decide_eq_true_1 _). by vm_compute.
  - vm_compute. discriminate.
  - intros a [n Ha]. apply elem_of_map_to_list in Ha. assert (a ∈ (map_to_list ex_line3).*1) as Hk by (apply list_elem_of_fmap; by exists (a, n)). revert Hk.
    assert (edge ex_line3 ex_topic (ex_addr 0) (ex_addr 1)) as H1 by (eexists; split; [reflexivity|]; apply (bool_decide_eq_true_1 _); by vm_compute).
    assert (edge ex_line3 ex_topic (ex_addr 1) (ex_addr 2)) as H2 by (eexists; split; [reflexivity|]; apply (bool_decide_eq_true_1 _); by vm_compute).
    assert ((map_to_list ex_line3).*1 ≡ₚ [ex_addr 0; ex_addr 1; ex_addr 2]) as -> by (apply (bool_decide_eq_true_1 _); by vm_compute).
    rewrite !elem_of_cons, elem_of_nil. intros [->|[->|[->|[]]]]; [apply rtc_refl|by apply rtc_once|by eapply rtc_l; [|apply rtc_once]].
Defined.

(** ** Larger networks *)

(** Deliver datagrams in an order of choice, [k] times. *)
Fixpoint deliver_by (pick : list Datagram → nat) (k : nat) (w : Net) : Net :=
  match k with
  | O => w
  | S k => match net_deliver w (pick (wire w), 10) with Some w => deliver_by pick k w | None => w end
  end.

Definition got (i : Z) (w : Net) : nat := match nodes w !! ex_addr i with Some n => length (inbox n) | None => 0%nat end.

(** In a line of ten nodes the last one does not get the message: the hops run out,
    and a node that is told of a message by IHAVE asks for it, but nobody answers. *)
Lemma hops_run_out :
  let net := ex_net ([(0, [1])] ++ ((λ i, (i, [i - 1; i + 1])) <$> [1; 2; 3; 4; 5; 6; 7; 8]) ++ [(9, [8])]) in
  (λ w, let w := deliver_by (λ _, O) 40 w in (length (wire w), got 8 w, got 9 w)) <$> net_publish (ex_addr 0) ex_topic [1] (mkNet net []) = Some (0%nat, 1%nat, 0%nat).
Proof. by vm_compute. Qed.

(** The order of arrival decides too. Here node 9 is two hops from the publisher; when
    the copy that went round arrives at node 8 first, with its last hop, the direct one
    is taken for a duplicate and node 9 gets nothing. *)
Lemma late_copy_cut :
  let net := ex_net ([(0, [1; 8])] ++ ((λ i, (i, [i - 1; i + 1])) <$> [1; 2; 3; 4; 5; 6; 7]) ++ [(8, [7; 0; 9]); (9, [8])]) in
  let direct := λ x, bool_decide (dg_from x = ex_addr 0 ∧ dg_to x = ex_addr 8) in
  let slow := λ l, default O (fst <$> list_find (λ x, direct x = false) l) in
  (λ w, let w' := deliver_by slow 40 w in (length (wire w'), got 9 w', got 9 (deliver_by (λ _, O) 40 w))) <$>
    net_publish (ex_addr 0) ex_topic [1] (mkNet net []) = Some (0%nat, 0%nat, 1%nat).
Proof. by vm_compute. Qed.
