(* ===== verification/Pipe.v ===== *)
(** * Pipes ([src/src/process/pipe/mod.rs]) and the wait queue they sleep on
    ([src/src/wait/mod.rs]).

    The ring buffer and the registry are modelled with the loops, branches and
    counters of the code; a panic (an index out of bounds) is [None]. A read or
    write that has to sleep is two pieces of code with the scheduler in between:
    the part up to [block_current] and the part after it. [block_current] itself
    takes two locks one after the other (the wait queue's, then the
    scheduler's), and so takes two steps of the machine below. Waking a task is
    [sched::wake_task], which does nothing to a task that is not blocked. *)

From Stdlib Require Import ZArith Lia Bool.
From stdpp Require Import base gmap sets list.
From S2P Require Import Prelude.

Local Open Scope Z_scope.

(** ** Data *)

Definition DEFAULT_PIPE_BUF_SIZE : Z := 65536.
Definition MIN_PIPE_BUF_SIZE : Z := 4096.
Definition MAX_PIPE_BUF_SIZE : Z := 1048576.
Definition DEFAULT_MAX_PIPES : Z := 1024.
Definition MAX_PIPES_LIMIT : Z := 4096.

Inductive PipeError :=
| WouldBlock
| BrokenPipe
| InvalidPipe
| TooManyPipes
| BufferFull
| BufferEmpty
| Interrupted
| Io
| InvalidArgument
| Unsupported.

(** [impl From<PipeError> for i64]. *)
Definition PipeError_code (e : PipeError) : Z :=
  match e with
  | WouldBlock => -1
  | BrokenPipe => -2
  | InvalidPipe => -3
  | TooManyPipes => -4
  | BufferFull => -5
  | BufferEmpty => -6
  | Interrupted => -7
  | Io => -8
  | InvalidArgument => -9
  | Unsupported => -10
  end.

Record PipeConfig := mkPipeConfig {
  default_buffer_size : Z;
  max_pipes : Z;
  collect_metrics : bool;
  debug_logging : bool;
}.

Definition PipeConfig_default : PipeConfig :=
  mkPipeConfig DEFAULT_PIPE_BUF_SIZE DEFAULT_MAX_PIPES true false.

Definition PipeConfig_validate (c : PipeConfig) : result unit PipeError :=
  if (default_buffer_size c <? MIN_PIPE_BUF_SIZE) || (MAX_PIPE_BUF_SIZE <? default_buffer_size c)
  then Err InvalidArgument
  else if (max_pipes c =? 0) || (MAX_PIPES_LIMIT <? max_pipes c) then Err InvalidArgument
  else Ok tt.

Record PipeMetrics := mkPipeMetrics {
  pipes_created : Z;
  pipes_closed : Z;
  bytes_written : Z;
  bytes_read : Z;
  write_ops : Z;
  read_ops : Z;
  writer_blocks : Z;
  reader_blocks : Z;
  broken_pipes : Z;
}.

#[export] Instance eta_PipeMetrics : Settable PipeMetrics :=
  λ m, mkPipeMetrics (pipes_created m) (pipes_closed m) (bytes_written m) (bytes_read m) (write_ops m)
         (read_ops m) (writer_blocks m) (reader_blocks m) (broken_pipes m).

Abbreviation PipeId := Z (only parsing).
Abbreviation TaskId := Z (only parsing).

Record PipeBuffer := mkPipeBuffer {
  buf : list Z;
  head : Z;
  tail : Z;
  count : Z;
  capacity : Z;
  readers_waiting : list TaskId;
  writers_waiting : list TaskId;
  write_closed : bool;
  read_closed : bool;
  nonblock : bool;
  id : PipeId;
}.

#[export] Instance eta_PipeBuffer : Settable PipeBuffer :=
  λ p, mkPipeBuffer (buf p) (head p) (tail p) (count p) (capacity p) (readers_waiting p)
         (writers_waiting p) (write_closed p) (read_closed p) (nonblock p) (id p).

(** ** The ring buffer *)

Definition PipeBuffer_new (i : PipeId) (cap : Z) : PipeBuffer :=
  let cap := Z.min (Z.max cap MIN_PIPE_BUF_SIZE) MAX_PIPE_BUF_SIZE in
  {| buf := replicate (Z.to_nat cap) 0; head := 0; tail := 0; count := 0; capacity := cap;
     readers_waiting := []; writers_waiting := []; write_closed := false; read_closed := false;
     nonblock := false; id := i |}.

Definition is_empty (p : PipeBuffer) : bool := count p =? 0.
Definition is_full (p : PipeBuffer) : bool := count p =? capacity p.
Definition available (p : PipeBuffer) : Z := count p.
Definition space (p : PipeBuffer) : Z := sub64 (capacity p) (count p).

(** [pos = (pos + 1) % capacity]; a zero capacity panics. *)
Definition advance (cap pos : Z) : option Z := if cap =? 0 then None else Some (add64 pos 1 `mod` cap).

(** The loop of [write_bytes] over the bytes that fit. *)
Fixpoint write_loop (data : list Z) (p : PipeBuffer) : option PipeBuffer :=
  match data with
  | [] => Some p
  | b :: data' =>
    match buf p !! Z.to_nat (tail p), advance (capacity p) (tail p) with
    | Some _, Some t => write_loop data' (p <| buf := <[Z.to_nat (tail p) := b]> (buf p) |> <| tail := t |>)
    | _, _ => None
    end
  end.

Definition write_bytes (data : list Z) (p : PipeBuffer) : option (Z * PipeBuffer) :=
  let n := Z.min (Z.of_nat (length data)) (space p) in
  match write_loop (take (Z.to_nat n) data) p with
  | Some p' => Some (n, p' <| count := add64 (count p') n |>)
  | None => None
  end.

(** The loop of [read_bytes], and of [peek_bytes], which keeps its own position. *)
Fixpoint read_loop (n : nat) (b : list Z) (cap pos : Z) : option (list Z * Z) :=
  match n with
  | O => Some ([], pos)
  | S n' =>
    match b !! Z.to_nat pos, advance cap pos with
    | Some x, Some pos' =>
      match read_loop n' b cap pos' with Some (l, q) => Some (x :: l, q) | None => None end
    | _, _ => None
    end
  end.

(** [len] is the length of the caller's buffer; the bytes read are returned. *)
Definition read_bytes (len : Z) (p : PipeBuffer) : option (list Z * PipeBuffer) :=
  let n := Z.min len (count p) in
  match read_loop (Z.to_nat n) (buf p) (capacity p) (head p) with
  | Some (l, h) => Some (l, p <| head := h |> <| count := sub64 (count p) n |>)
  | None => None
  end.

Definition peek_bytes (len : Z) (p : PipeBuffer) : option (list Z) :=
  fst <$> read_loop (Z.to_nat (Z.min len (count p))) (buf p) (capacity p) (head p).

Definition wake_readers (p : PipeBuffer) : list TaskId * PipeBuffer :=
  (readers_waiting p, p <| readers_waiting := [] |>).
Definition wake_writers (p : PipeBuffer) : list TaskId * PipeBuffer :=
  (writers_waiting p, p <| writers_waiting := [] |>).

Definition add_reader (tid : TaskId) (p : PipeBuffer) : PipeBuffer :=
  if bool_decide (tid ∈ readers_waiting p) then p
  else p <| readers_waiting := readers_waiting p ++ [tid] |>.
Definition add_writer (tid : TaskId) (p : PipeBuffer) : PipeBuffer :=
  if bool_decide (tid ∈ writers_waiting p) then p
  else p <| writers_waiting := writers_waiting p ++ [tid] |>.

(** [iter().position(..)] then [remove]: the first occurrence. *)
Fixpoint remove_first (tid : TaskId) (l : list TaskId) : option (list TaskId) :=
  match l with
  | [] => None
  | t :: l' => if t =? tid then Some l' else option_map (cons t) (remove_first tid l')
  end.

Definition remove_reader (tid : TaskId) (p : PipeBuffer) : bool * PipeBuffer :=
  match remove_first tid (readers_waiting p) with
  | Some l => (true, p <| readers_waiting := l |>)
  | None => (false, p)
  end.
Definition remove_writer (tid : TaskId) (p : PipeBuffer) : bool * PipeBuffer :=
  match remove_first tid (writers_waiting p) with
  | Some l => (true, p <| writers_waiting := l |>)
  | None => (false, p)
  end.

Definition set_nonblock (b : bool) (p : PipeBuffer) : PipeBuffer := p <| nonblock := b |>.

(** ** The registry *)

Record Pipes := mkPipes {
  PIPES : gmap PipeId PipeBuffer;
  NEXT_PIPE_ID : Z;
  CONFIG : PipeConfig;
  METRICS : PipeMetrics;
}.

#[export] Instance eta_Pipes : Settable Pipes :=
  λ s, mkPipes (PIPES s) (NEXT_PIPE_ID s) (CONFIG s) (METRICS s).

(** Calls into other subsystems, in order. *)
Inductive effect :=
| WakeTask (tid : TaskId)
| SendSigpipe (tid : TaskId)
| EpollNotify (fd : Z).

Definition metric (f : PipeMetrics → PipeMetrics) (s : Pipes) : Pipes :=
  if collect_metrics (CONFIG s) then s <| METRICS := f (METRICS s) |> else s.

Definition init (c : PipeConfig) (s : Pipes) : Pipes * result unit PipeError :=
  match PipeConfig_validate c with
  | Ok _ => (s <| CONFIG := c |>, Ok tt)
  | Err e => (s, Err e)
  end.

Definition create_pipe (s : Pipes) : Pipes * result PipeId PipeError :=
  let i := NEXT_PIPE_ID s in
  let s := s <| NEXT_PIPE_ID := add64 i 1 |> in
  if max_pipes (CONFIG s) <=? Z.of_nat (size (PIPES s)) then (s, Err TooManyPipes)
  else
    let s := s <| PIPES := <[i := PipeBuffer_new i (default_buffer_size (CONFIG s))]> (PIPES s) |> in
    (metric (λ m, m <| pipes_created := add64 (pipes_created m) 1 |>) s, Ok i).

Definition put_pipe (i : PipeId) (p : PipeBuffer) (s : Pipes) : Pipes := s <| PIPES := <[i := p]> (PIPES s) |>.

Definition close_write_end (i : PipeId) (s : Pipes) : Pipes * list effect * result unit PipeError :=
  match PIPES s !! i with
  | None => (s, [], Err InvalidPipe)
  | Some p =>
    if write_closed p then (s, [], Ok tt)
    else
      let '(readers, p) := wake_readers (p <| write_closed := true |>) in
      (put_pipe i p s, WakeTask <$> readers, Ok tt)
  end.

Definition close_read_end (i : PipeId) (s : Pipes) : Pipes * list effect * result unit PipeError :=
  match PIPES s !! i with
  | None => (s, [], Err InvalidPipe)
  | Some p =>
    if read_closed p then (s, [], Ok tt)
    else
      let '(writers, p) := wake_writers (p <| read_closed := true |>) in
      (put_pipe i p s, WakeTask <$> writers, Ok tt)
  end.

Definition close_pipe (i : PipeId) (s : Pipes) : Pipes * list effect * result unit PipeError :=
  match PIPES s !! i with
  | None => (s, [], Err InvalidPipe)
  | Some p =>
    let s := s <| PIPES := delete i (PIPES s) |> in
    (metric (λ m, m <| pipes_closed := add64 (pipes_closed m) 1 |>) s,
     (WakeTask <$> readers_waiting p) ++ (WakeTask <$> writers_waiting p), Ok tt)
  end.

(** ** Reading and writing *)

Inductive WakeCondition :=
| Timer (t : Z)
| IpcMessage
| NetData (fd : Z)
| Any.

(** How the first part of a call ends: with a result, or about to block. *)
Inductive progress (A : Type) :=
| Done (r : result A PipeError)
| Block (cond : WakeCondition).
Arguments Done {A} r.
Arguments Block {A} cond.

(** [deadline] and [cond]: a timeout of 0 is a deadline that never comes. *)
Definition wake_condition (now : Z) (timeout_ms : option Z) : WakeCondition :=
  match timeout_ms with
  | Some ms => Timer (if ms =? 0 then U64_MAX else add64 now ms)
  | None => Any
  end.

Definition count_write (n : Z) (m : PipeMetrics) : PipeMetrics :=
  m <| bytes_written := add64 (bytes_written m) n |> <| write_ops := add64 (write_ops m) 1 |>.
Definition count_read (n : Z) (m : PipeMetrics) : PipeMetrics :=
  m <| bytes_read := add64 (bytes_read m) n |> <| read_ops := add64 (read_ops m) 1 |>.

(** Write what fits, wake the readers, tell epoll. *)
Definition do_write (i : PipeId) (p : PipeBuffer) (data : list Z) (s : Pipes) :
    option (Pipes * list effect * result Z PipeError) :=
  match write_bytes data p with
  | None => None
  | Some (n, p) =>
    let '(readers, p) := wake_readers p in
    Some (metric (count_write n) (put_pipe i p s), (WakeTask <$> readers) ++ [EpollNotify i], Ok n)
  end.

Definition do_read (i : PipeId) (p : PipeBuffer) (len : Z) (s : Pipes) :
    option (Pipes * list effect * result (list Z) PipeError) :=
  match read_bytes len p with
  | None => None
  | Some (l, p) =>
    let '(writers, p) := wake_writers p in
    Some (metric (count_read (Z.of_nat (length l))) (put_pipe i p s),
          (WakeTask <$> writers) ++ [EpollNotify i], Ok l)
  end.

(** [pipe_write] up to [block_current]. *)
Definition pipe_write_begin (i : PipeId) (tid : TaskId) (data : list Z) (nonblock : bool)
    (timeout_ms : option Z) (now : Z) (s : Pipes) : option (Pipes * list effect * progress Z) :=
  match data with
  | [] => Some (s, [], Done (Err InvalidArgument))
  | _ =>
    match PIPES s !! i with
    | None => Some (s, [], Done (Err InvalidPipe))
    | Some p =>
      if read_closed p then
        Some (metric (λ m, m <| broken_pipes := add64 (broken_pipes m) 1 |>) s, [SendSigpipe tid],
              Done (Err BrokenPipe))
      else if write_closed p then Some (s, [], Done (Err BrokenPipe))
      else if nonblock && is_full p then Some (s, [], Done (Err WouldBlock))
      else if negb (is_full p) then
        match do_write i p data s with
        | Some (s, effs, r) => Some (s, effs, Done r)
        | None => None
        end
      else
        let s := metric (λ m, m <| writer_blocks := add64 (writer_blocks m) 1 |>) s in
        Some (put_pipe i (add_writer tid p) s, [], Block (wake_condition now timeout_ms))
    end
  end.

(** [pipe_write] after [block_current]. *)
Definition pipe_write_resume (i : PipeId) (tid : TaskId) (data : list Z) (s : Pipes) :
    option (Pipes * list effect * result Z PipeError) :=
  match PIPES s !! i with
  | None => Some (s, [], Err InvalidPipe)
  | Some p =>
    let '(was_removed, p) := remove_writer tid p in
    let s := put_pipe i p s in
    if read_closed p then Some (s, [SendSigpipe tid], Err BrokenPipe)
    else if write_closed p then Some (s, [], Err BrokenPipe)
    else if negb was_removed then
      if negb (is_full p) then do_write i p data s else Some (s, [], Err WouldBlock)
    else Some (s, [], Err WouldBlock)
  end.

(** [pipe_read] up to [block_current]. *)
Definition pipe_read_begin (i : PipeId) (tid : TaskId) (len : Z) (nonblock : bool)
    (timeout_ms : option Z) (now : Z) (s : Pipes) : option (Pipes * list effect * progress (list Z)) :=
  if len =? 0 then Some (s, [], Done (Err InvalidArgument))
  else
    match PIPES s !! i with
    | None => Some (s, [], Done (Err InvalidPipe))
    | Some p =>
      if write_closed p && is_empty p then Some (s, [], Done (Ok []))
      else if read_closed p then Some (s, [], Done (Err BrokenPipe))
      else if nonblock && is_empty p then Some (s, [], Done (Err WouldBlock))
      else if negb (is_empty p) then
        match do_read i p len s with
        | Some (s, effs, r) => Some (s, effs, Done r)
        | None => None
        end
      else
        let s := metric (λ m, m <| reader_blocks := add64 (reader_blocks m) 1 |>) s in
        Some (put_pipe i (add_reader tid p) s, [], Block (wake_condition now timeout_ms))
    end.

(** [pipe_read] after [block_current]. *)
Definition pipe_read_resume (i : PipeId) (tid : TaskId) (len : Z) (s : Pipes) :
    option (Pipes * list effect * result (list Z) PipeError) :=
  match PIPES s !! i with
  | None => Some (s, [], Err InvalidPipe)
  | Some p =>
    let '(was_removed, p) := remove_reader tid p in
    let s := put_pipe i p s in
    if read_closed p then Some (s, [], Err BrokenPipe)
    else if write_closed p && is_empty p then Some (s, [], Ok [])
    else if negb was_removed then
      if negb (is_empty p) then do_read i p len s else Some (s, [], Err WouldBlock)
    else Some (s, [], Err WouldBlock)
  end.

Definition pipe_has_data (i : PipeId) (s : Pipes) : bool :=
  match PIPES s !! i with Some p => negb (is_empty p) | None => false end.
Definition pipe_has_space (i : PipeId) (s : Pipes) : bool :=
  match PIPES s !! i with Some p => negb (is_full p) | None => false end.
Definition pipe_available (i : PipeId) (s : Pipes) : Z := default 0 (available <$> PIPES s !! i).
Definition pipe_space (i : PipeId) (s : Pipes) : Z := default 0 (space <$> PIPES s !! i).
Definition pipe_set_nonblock (i : PipeId) (b : bool) (s : Pipes) : Pipes * result unit PipeError :=
  match PIPES s !! i with
  | None => (s, Err InvalidPipe)
  | Some p => (put_pipe i (set_nonblock b p) s, Ok tt)
  end.
Definition pipe_is_nonblock (i : PipeId) (s : Pipes) : bool :=
  match PIPES s !! i with Some p => nonblock p | None => false end.
Definition pipe_buffer_size (i : PipeId) (s : Pipes) : Z := default 0 (capacity <$> PIPES s !! i).

(** ** The wait queue *)

Record Waiting := mkWaiting {
  WAIT_QUEUE : list (TaskId * WakeCondition);
  (** [Scheduler::blocked]. *)
  blocked : gset TaskId;
}.

#[export] Instance eta_Waiting : Settable Waiting := λ w, mkWaiting (WAIT_QUEUE w) (blocked w).

Definition wake_task (tid : TaskId) (w : Waiting) : Waiting := w <| blocked := blocked w ∖ {[tid]} |>.

(** [block_current], first the queue, then the scheduler. *)
Definition push_wait (tid : TaskId) (cond : WakeCondition) (w : Waiting) : Waiting :=
  w <| WAIT_QUEUE := WAIT_QUEUE w ++ [(tid, cond)] |>.
Definition block_task (tid : TaskId) (w : Waiting) : Waiting := w <| blocked := {[tid]} ∪ blocked w |>.

Definition should_wake (now : Z) (ipc : TaskId → bool) (net : Z → bool) (e : TaskId * WakeCondition) : bool :=
  match e.2 with
  | Timer t => t <=? now
  | Any => true
  | IpcMessage => ipc e.1
  | NetData fd => net fd
  end.

(** The loop of [tick_wakeups]: what is not due stays in order, the rest is woken. *)
Fixpoint tick_loop (now : Z) (ipc : TaskId → bool) (net : Z → bool)
    (q : list (TaskId * WakeCondition)) (w : Waiting) : list (TaskId * WakeCondition) * Waiting :=
  match q with
  | [] => ([], w)
  | e :: q' =>
    if should_wake now ipc net e then tick_loop now ipc net q' (wake_task e.1 w)
    else let '(rest, w) := tick_loop now ipc net q' w in (e :: rest, w)
  end.

Definition tick_wakeups (now : Z) (ipc : TaskId → bool) (net : Z → bool) (w : Waiting) : Waiting :=
  let '(q, w) := tick_loop now ipc net (WAIT_QUEUE w) w in w <| WAIT_QUEUE := q |>.

(** ** The ring buffer is a queue *)

(** The [n] bytes of the ring from position [h] on. *)
Definition ring (b : list Z) (cap h : Z) (n : nat) : list Z :=
  (λ i, default 0 (b !! Z.to_nat ((h + Z.of_nat i) `mod` cap))) <$> seq 0 n.

(** What is in the pipe, oldest byte first. *)
Definition contents (p : PipeBuffer) : list Z := ring (buf p) (capacity p) (head p) (Z.to_nat (count p)).

Record ring_inv (p : PipeBuffer) : Prop := {
  ri_cap : 0 < capacity p ≤ MAX_PIPE_BUF_SIZE;
  ri_len : Z.of_nat (length (buf p)) = capacity p;
  ri_head : 0 ≤ head p < capacity p;
  ri_count : 0 ≤ count p ≤ capacity p;
  ri_tail : tail p = (head p + count p) `mod` capacity p;
}.

Lemma length_ring b cap h n : length (ring b cap h n) = n.
Proof. unfold ring. by rewrite length_fmap, length_seq. Qed.

Lemma ring_snoc b cap h n :
  ring b cap h (S n) = ring b cap h n ++ [default 0 (b !! Z.to_nat ((h + Z.of_nat n) `mod` cap))].
Proof. unfold ring. by rewrite seq_S, fmap_app. Qed.

Lemma mod_inj cap h i j : 0 ≤ i < cap → 0 ≤ j < cap → (h + i) `mod` cap = (h + j) `mod` cap → i = j.
Proof.
  intros Hi Hj Heq. assert (((h + i) - (h + j)) `mod` cap = 0) as Hz.
  { rewrite Zminus_mod, Heq, Z.sub_diag. apply Z.mod_0_l. lia. }
  apply Z.mod_divide in Hz as [k Hk]; [|lia]. assert (i - j = k * cap) by lia.
  destruct (Ztrichotomy_inf k 0) as [[Hk0|Hk0]|Hk0]; [nia|subst k; lia|nia].
Qed.

Lemma ring_cons b cap h n :
  0 < cap → ring b cap h (S n) = default 0 (b !! Z.to_nat (h `mod` cap)) :: ring b cap ((h + 1) `mod` cap) n.
Proof.
  intros Hc. unfold ring. rewrite <-cons_seq, fmap_cons. f_equal; [by rewrite Z.add_0_r|].
  rewrite <-fmap_S_seq, <-list_fmap_compose. apply list_fmap_ext. intros i x _. unfold compose. do 3 f_equal.
  rewrite Zplus_mod_idemp_l. f_equal. lia.
Qed.

(** Writing past the end of the ring does not touch what is in it. *)
Lemma ring_insert b cap h n x :
  0 < cap → Z.of_nat n < cap → Z.of_nat (length b) = cap →
  ring (<[Z.to_nat ((h + Z.of_nat n) `mod` cap) := x]> b) cap h (S n) = ring b cap h n ++ [x].
Proof.
  intros Hc Hn Hlen. pose proof (Z.mod_pos_bound (h + Z.of_nat n) cap Hc) as Hb. rewrite ring_snoc. f_equal.
  - unfold ring. apply list_fmap_ext. intros i j Hi. apply lookup_seq in Hi as [-> Hi].
    rewrite list_lookup_insert_ne; [done|]. intros Heq.
    pose proof (Z.mod_pos_bound (h + Z.of_nat (0 + i)) cap Hc).
    apply Z2Nat.inj in Heq; [|lia|lia]. apply mod_inj in Heq; lia.
  - rewrite list_lookup_insert_eq by lia. done.
Qed.

Lemma advance_some cap pos : 0 < cap ≤ MAX_PIPE_BUF_SIZE → 0 ≤ pos < cap → advance cap pos = Some ((pos + 1) `mod` cap).
Proof.
  intros Hc Hp. unfold advance. destruct (Z.eqb_spec cap 0); [lia|].
  rewrite add64_small; [done|]. unfold u64_ok, U64_MAX, MAX_PIPE_BUF_SIZE in *. lia.
Qed.

Lemma ring_drop b cap h n k :
  0 < cap → (k ≤ n)%nat → drop k (ring b cap h n) = ring b cap ((h + Z.of_nat k) `mod` cap) (n - k).
Proof.
  intros Hc. revert h n. induction k as [|k IH]; intros h n Hk.
  { simpl. rewrite Z.add_0_r, Nat.sub_0_r. unfold ring. apply list_fmap_ext. intros i x _.
    do 3 f_equal. by rewrite Zplus_mod_idemp_l. }
  destruct n as [|n]; [lia|]. rewrite ring_cons by done. simpl. rewrite IH by lia.
  f_equal. rewrite Zplus_mod_idemp_l. f_equal. lia.
Qed.

Lemma ring_take b cap h n k : (k ≤ n)%nat → take k (ring b cap h n) = ring b cap h k.
Proof.
  intros Hk. unfold ring. rewrite <-fmap_take. f_equal. rewrite take_seq. by rewrite Nat.min_l.
Qed.

Local Opaque ring.

(** The write loop appends its bytes behind the [n] bytes in the ring. *)
Lemma write_loop_spec data p h n :
  0 < capacity p ≤ MAX_PIPE_BUF_SIZE → Z.of_nat (length (buf p)) = capacity p →
  tail p = (h + Z.of_nat n) `mod` capacity p → Z.of_nat (n + length data) ≤ capacity p →
  ∃ b, write_loop data p = Some (p <| buf := b |> <| tail := (h + Z.of_nat (n + length data)) `mod` capacity p |>) ∧
    length b = length (buf p) ∧
    ring b (capacity p) h (n + length data) = ring (buf p) (capacity p) h n ++ data.
Proof.
  revert p n. induction data as [|x data IH]; intros p n Hc Hlen Ht Hn; simpl in *.
  { exists (buf p). rewrite Nat.add_0_r, <-Ht, app_nil_r. split_and!; [by destruct p|done|done]. }
  pose proof (Z.mod_pos_bound (h + Z.of_nat n) (capacity p) ltac:(lia)) as Hb.
  destruct (lookup_lt_is_Some_2 (buf p) (Z.to_nat (tail p))) as [y Hy]; [rewrite Ht; lia|].
  rewrite Hy, advance_some by (rewrite ?Ht; lia).
  destruct (IH (p <| buf := <[Z.to_nat (tail p):=x]> (buf p) |> <| tail := (tail p + 1) `mod` capacity p |>) (S n))
    as (b & Hw & Hl & Hr); simpl; [done|by rewrite length_insert| |lia|].
  { rewrite Ht, Zplus_mod_idemp_l. f_equal. lia. }
  simpl in *. rewrite length_insert in Hl. exists b. rewrite Nat.add_succ_r. split_and!; [|done|].
  - rewrite Hw. done.
  - rewrite Hr, Ht. rewrite ring_insert by lia. by rewrite <-app_assoc.
Qed.

Lemma read_loop_spec n b cap h :
  0 < cap ≤ MAX_PIPE_BUF_SIZE → Z.of_nat (length b) = cap → 0 ≤ h < cap →
  read_loop n b cap h = Some (ring b cap h n, (h + Z.of_nat n) `mod` cap).
Proof.
  intros Hc Hlen. revert h. induction n as [|n IH]; intros h Hh.
  { simpl. rewrite Z.add_0_r, Z.mod_small by lia. done. }
  cbn [read_loop]. destruct (lookup_lt_is_Some_2 b (Z.to_nat h)) as [y Hy]; [lia|].
  rewrite Hy, advance_some by lia. pose proof (Z.mod_pos_bound (h + 1) cap ltac:(lia)) as Hb.
  rewrite IH by done. rewrite ring_cons by lia. rewrite (Z.mod_small h) by lia. rewrite Hy. simpl.
  do 2 f_equal. rewrite Zplus_mod_idemp_l. f_equal. lia.
Qed.

(** The fields reads and writes of the ring leave alone. *)
Definition same_frame (p p' : PipeBuffer) : Prop :=
  capacity p' = capacity p ∧ readers_waiting p' = readers_waiting p ∧
  writers_waiting p' = writers_waiting p ∧ write_closed p' = write_closed p ∧
  read_closed p' = read_closed p ∧ nonblock p' = nonblock p.

Lemma length_contents p : ring_inv p → Z.of_nat (length (contents p)) = count p.
Proof. intros [? ? ? ? ?]. unfold contents. rewrite length_ring. lia. Qed.

Lemma write_bytes_spec data p :
  ring_inv p →
  let n := Z.min (Z.of_nat (length data)) (capacity p - count p) in
  ∃ p', write_bytes data p = Some (n, p') ∧ ring_inv p' ∧ same_frame p p' ∧
    contents p' = contents p ++ take (Z.to_nat n) data ∧ count p' = count p + n.
Proof.
  intros [Hc Hl Hh Hn Ht] n. unfold write_bytes.
  assert (space p = capacity p - count p) as ->.
  { unfold space, sub64. apply wrap64_small. unfold u64_ok, U64_MAX, MAX_PIPE_BUF_SIZE in *. lia. }
  fold n. assert (length (take (Z.to_nat n) data) = Z.to_nat n) as Hlt by (rewrite length_take; lia).
  destruct (write_loop_spec (take (Z.to_nat n) data) p (head p) (Z.to_nat (count p)))
    as (b & -> & Hb & Hr); [done|done|rewrite Ht; do 2 f_equal; lia|rewrite Hlt; lia|].
  rewrite Hlt in *. eexists. split; [done|].
  assert (add64 (count p) n = count p + n) as Hadd.
  { apply wrap64_small. unfold u64_ok, U64_MAX, MAX_PIPE_BUF_SIZE in *. lia. }
  split_and!; [|done| |exact Hadd].
  - split; simpl; rewrite ?Hadd; [done|lia|done|lia|]. do 2 f_equal. lia.
  - unfold contents. simpl. rewrite Hadd, <-Hr. f_equal. lia.
Qed.

Lemma read_bytes_spec len p :
  ring_inv p → 0 ≤ len →
  let n := Z.min len (count p) in
  ∃ p', read_bytes len p = Some (take (Z.to_nat n) (contents p), p') ∧ ring_inv p' ∧ same_frame p p' ∧
    contents p' = drop (Z.to_nat n) (contents p) ∧ count p' = count p - n.
Proof.
  intros [Hc Hl Hh Hn Ht] Hlen n. unfold read_bytes. fold n. rewrite read_loop_spec by done.
  assert (sub64 (count p) n = count p - n) as Hsub.
  { apply wrap64_small. unfold u64_ok, U64_MAX, MAX_PIPE_BUF_SIZE in *. lia. }
  pose proof (Z.mod_pos_bound (head p + Z.of_nat (Z.to_nat n)) (capacity p) ltac:(lia)) as Hb.
  unfold contents. rewrite ring_take by lia. eexists. split; [done|]. split_and!; [|done| |exact Hsub].
  - split; simpl; rewrite ?Hsub; [done|done|done|lia|]. rewrite Ht, Zplus_mod_idemp_l. f_equal. lia.
  - simpl. rewrite Hsub, ring_drop by lia. f_equal. lia.
Qed.

Lemma PipeBuffer_new_inv i cap : ring_inv (PipeBuffer_new i cap).
Proof.
  unfold PipeBuffer_new, MIN_PIPE_BUF_SIZE, MAX_PIPE_BUF_SIZE.
  set (c := Z.min _ _). assert (4096 ≤ c ≤ 1048576) as Hc by lia.
  split; simpl; rewrite ?length_replicate; unfold MAX_PIPE_BUF_SIZE; [lia..|]. by rewrite Z.mod_0_l by lia.
Qed.

(** The ring buffer is a first-in first-out queue of bounded size: writing
    appends as many bytes as fit behind what is there, reading takes from the
    front, peeking looks at the front, and no index ever leaves the buffer. *)
Lemma ring_is_fifo p data len :
  ring_inv p → 0 ≤ len →
  (∃ n p', write_bytes data p = Some (n, p') ∧ ring_inv p' ∧
     n = Z.min (Z.of_nat (length data)) (capacity p - Z.of_nat (length (contents p))) ∧
     contents p' = contents p ++ take (Z.to_nat n) data) ∧
  (∃ l p', read_bytes len p = Some (l, p') ∧ peek_bytes len p = Some l ∧ ring_inv p' ∧
     Z.of_nat (length l) = Z.min len (Z.of_nat (length (contents p))) ∧ contents p = l ++ contents p').
Proof.
  intros Hp Hlen. pose proof (length_contents p Hp) as Hct. split.
  - destruct (write_bytes_spec data p Hp) as (p' & Hw & Hp' & _ & Hc & _).
    do 2 eexists. split_and!; [exact Hw|done|by rewrite Hct|done].
  - destruct (read_bytes_spec len p Hp Hlen) as (p' & Hr & Hp' & _ & Hc & _).
    do 2 eexists. split_and!; [exact Hr| |done| |].
    + revert Hr. unfold read_bytes, peek_bytes. destruct (read_loop _ _ _ _) as [[l h]|]; [|done].
      by intros [= <- _].
    + rewrite length_take, Hct. lia.
    + rewrite Hc. by rewrite take_drop.
Qed.

(** ** Tasks, interleaved *)

Inductive op :=
| OpWrite (i : PipeId) (data : list Z)
| OpRead (i : PipeId) (len : nat).

Inductive moved := Wrote (n : Z) | Got (l : list Z).

Definition result_map {A B E} (f : A → B) (r : result A E) : result B E :=
  match r with Ok a => Ok (f a) | Err e => Err e end.

Definition progress_map {A B} (f : A → B) (r : progress A) : progress B :=
  match r with Done r => Done (result_map f r) | Block c => Block c end.

Definition op_begin (o : op) (tid : TaskId) (nonblock : bool) (timeout_ms : option Z) (now : Z) (s : Pipes) :
    option (Pipes * list effect * progress moved) :=
  match o with
  | OpWrite i data =>
    option_map (λ '(s, e, r), (s, e, progress_map Wrote r)) (pipe_write_begin i tid data nonblock timeout_ms now s)
  | OpRead i len =>
    option_map (λ '(s, e, r), (s, e, progress_map Got r))
      (pipe_read_begin i tid (Z.of_nat len) nonblock timeout_ms now s)
  end.

Definition op_resume (o : op) (tid : TaskId) (s : Pipes) : option (Pipes * list effect * result moved PipeError) :=
  match o with
  | OpWrite i data => option_map (λ '(s, e, r), (s, e, result_map Wrote r)) (pipe_write_resume i tid data s)
  | OpRead i len => option_map (λ '(s, e, r), (s, e, result_map Got r)) (pipe_read_resume i tid (Z.of_nat len) s)
  end.

(** Where a task that is not done stands. *)
Inductive pc :=
| About (o : op) (cond : WakeCondition)
| Pushed (o : op)
| Asleep (o : op).

(** The system, with what each pipe has accepted and delivered so far. *)
Record Sys := mkSys {
  sys : Pipes;
  waiting : Waiting;
  now : Z;
  tasks : gmap TaskId pc;
  accepted : gmap PipeId (list Z);
  delivered : gmap PipeId (list Z);
}.

#[export] Instance eta_Sys : Settable Sys :=
  λ m, mkSys (sys m) (waiting m) (now m) (tasks m) (accepted m) (delivered m).

Definition wake_effect (e : effect) (w : Waiting) : Waiting :=
  match e with WakeTask tid => wake_task tid w | _ => w end.

Definition with_effects (s : Pipes) (effs : list effect) (m : Sys) : Sys :=
  m <| sys := s |> <| waiting := foldl (λ w e, wake_effect e w) (waiting m) effs |>.

Definition extend (i : PipeId) (l : list Z) (log : gmap PipeId (list Z)) : gmap PipeId (list Z) :=
  <[i := default [] (log !! i) ++ l]> log.

Definition log_result (o : op) (r : result moved PipeError) (m : Sys) : Sys :=
  match o, r with
  | OpWrite i data, Ok (Wrote n) => m <| accepted := extend i (take (Z.to_nat n) data) (accepted m) |>
  | OpRead i _, Ok (Got l) => m <| delivered := extend i l (delivered m) |>
  | _, _ => m
  end.

Inductive sys_step (m : Sys) : Sys → Prop :=
| st_call o tid nb timeout s effs r :
    tasks m !! tid = None → op_begin o tid nb timeout (now m) (sys m) = Some (s, effs, Done r) →
    sys_step m (log_result o r (with_effects s effs m))
| st_call_block o tid nb timeout s effs cond :
    tasks m !! tid = None → op_begin o tid nb timeout (now m) (sys m) = Some (s, effs, Block cond) →
    sys_step m ((with_effects s effs m) <| tasks := <[tid := About o cond]> (tasks m) |>)
| st_push o tid cond :
    tasks m !! tid = Some (About o cond) →
    sys_step m (m <| waiting := push_wait tid cond (waiting m) |> <| tasks := <[tid := Pushed o]> (tasks m) |>)
| st_block o tid :
    tasks m !! tid = Some (Pushed o) →
    sys_step m (m <| waiting := block_task tid (waiting m) |> <| tasks := <[tid := Asleep o]> (tasks m) |>)
| st_resume o tid s effs r :
    tasks m !! tid = Some (Asleep o) → tid ∉ blocked (waiting m) →
    op_resume o tid (sys m) = Some (s, effs, r) →
    sys_step m (log_result o r ((with_effects s effs m) <| tasks := delete tid (tasks m) |>))
| st_tick t ipc net :
    now m ≤ t →
    sys_step m (m <| now := t |> <| waiting := tick_wakeups t ipc net (waiting m) |>)
| st_create s i :
    create_pipe (sys m) = (s, Ok i) →
    sys_step m (m <| sys := s |> <| accepted := <[i := []]> (accepted m) |>
                  <| delivered := <[i := []]> (delivered m) |>)
| st_create_fails s e :
    create_pipe (sys m) = (s, Err e) → sys_step m (m <| sys := s |>)
| st_close f i s effs r :
    f ∈ [close_write_end; close_read_end; close_pipe] → f i (sys m) = (s, effs, r) →
    sys_step m (with_effects s effs m)
| st_nonblock i b s r :
    pipe_set_nonblock i b (sys m) = (s, r) → sys_step m (m <| sys := s |>)
| st_init c s r :
    init c (sys m) = (s, r) → sys_step m (m <| sys := s |>).

Definition pipes_start : Pipes := mkPipes ∅ 1 PipeConfig_default (mkPipeMetrics 0 0 0 0 0 0 0 0 0).
Definition sys_start : Sys := mkSys pipes_start (mkWaiting [] ∅) 0 ∅ ∅ ∅.

(** Every pipe is a sound ring, and what it accepted is what it delivered followed
    by what it holds. *)
Definition stream_ok (m : Sys) (i : PipeId) (p : PipeBuffer) : Prop :=
  ring_inv p ∧
  default [] (accepted m !! i) = default [] (delivered m !! i) ++ contents p.

Definition sys_inv (m : Sys) : Prop := ∀ i p, PIPES (sys m) !! i = Some p → stream_ok m i p.

Lemma PIPES_metric f s : PIPES (metric f s) = PIPES s.
Proof. unfold metric. by destruct (collect_metrics (CONFIG s)). Qed.

(** Two pipes with the same ring. *)
Definition same_ring (p p' : PipeBuffer) : Prop :=
  buf p' = buf p ∧ head p' = head p ∧ tail p' = tail p ∧ count p' = count p ∧ capacity p' = capacity p.

Lemma same_ring_inv p p' : same_ring p p' → ring_inv p → ring_inv p' ∧ contents p' = contents p.
Proof.
  intros (Hb & Hh & Ht & Hc & Hcap) []. unfold contents. rewrite Hb, Hh, Hc, Hcap.
  split; [|done]. by split; rewrite ?Hb, ?Hh, ?Ht, ?Hc, ?Hcap.
Qed.

Lemma do_write_spec i p data s :
  ring_inv p → ∃ s' effs n p', do_write i p data s = Some (s', effs, Ok n) ∧
    PIPES s' = <[i := p']> (PIPES s) ∧ ring_inv p' ∧
    contents p' = contents p ++ take (Z.to_nat n) data.
Proof.
  intros Hp. unfold do_write. destruct (write_bytes_spec data p Hp) as (p' & -> & Hp' & _ & Hc & _).
  destruct (same_ring_inv p' (p' <| readers_waiting := [] |>)) as [Hi Hct]; [done|done|].
  do 4 eexists. split; [done|]. rewrite PIPES_metric. split_and!; [done|done|by rewrite Hct].
Qed.

Lemma do_read_spec i p len s :
  ring_inv p → ∃ s' effs l p', do_read i p (Z.of_nat len) s = Some (s', effs, Ok l) ∧
    PIPES s' = <[i := p']> (PIPES s) ∧ ring_inv p' ∧ contents p = l ++ contents p'.
Proof.
  intros Hp. unfold do_read.
  destruct (read_bytes_spec (Z.of_nat len) p Hp) as (p' & -> & Hp' & _ & Hc & _); [lia|].
  destruct (same_ring_inv p' (p' <| writers_waiting := [] |>)) as [Hi Hct]; [done|done|].
  do 4 eexists. split; [done|]. rewrite PIPES_metric. split_and!; [done|done|]. rewrite Hct, Hc.
  by rewrite take_drop.
Qed.

Lemma remove_reader_ring tid p : same_ring p (remove_reader tid p).2.
Proof. unfold remove_reader. by destruct (remove_first _ _). Qed.
Lemma remove_writer_ring tid p : same_ring p (remove_writer tid p).2.
Proof. unfold remove_writer. by destruct (remove_first _ _). Qed.
Lemma add_reader_ring tid p : same_ring p (add_reader tid p).
Proof. unfold add_reader. by case_bool_decide. Qed.
Lemma add_writer_ring tid p : same_ring p (add_writer tid p).
Proof. unfold add_writer. by case_bool_decide. Qed.

Definition op_pipe (o : op) : PipeId := match o with OpWrite i _ => i | OpRead i _ => i end.

(** The bytes that moved, if any, are the tail or the front of the queue. *)
Definition moved_ok (o : op) (r : option (result moved PipeError)) (p p' : PipeBuffer) : Prop :=
  match o, r with
  | OpWrite _ data, Some (Ok (Wrote n)) => contents p' = contents p ++ take (Z.to_nat n) data
  | OpRead _ _, Some (Ok (Got l)) => contents p = l ++ contents p'
  | _, _ => contents p' = contents p
  end.

(** What a piece of a call does to the registry. *)
Definition op_effect (o : op) (r : option (result moved PipeError)) (s s' : Pipes) : Prop :=
  PIPES s' = PIPES s ∧ (∀ p, PIPES s !! op_pipe o = Some p → moved_ok o r p p) ∧
    (PIPES s !! op_pipe o = None → ∃ e, r = Some (Err e)) ∨
  ∃ p p', PIPES s !! op_pipe o = Some p ∧ PIPES s' = <[op_pipe o := p']> (PIPES s) ∧ ring_inv p' ∧
    moved_ok o r p p'.

Lemma op_effect_same_ring o r s s' p p' :
  PIPES s !! op_pipe o = Some p → PIPES s' = <[op_pipe o := p']> (PIPES s) → ring_inv p → same_ring p p' →
  (∀ x, r ≠ Some (Ok x)) ∨ r = Some (Ok (Got [])) → op_effect o r s s'.
Proof.
  intros Hp Hs Hi Hr Hno. right. exists p, p'. apply same_ring_inv in Hr as [? Hc]; [|done].
  split_and!; [done..|]. unfold moved_ok.
  destruct o, r as [[[]|]|]; try done; destruct Hno as [Hno|Hno]; try done; try (by destruct (Hno _ eq_refl)).
  injection Hno as ->. by rewrite Hc.
Qed.

Lemma op_effect_id o r s p :
  PIPES s !! op_pipe o = Some p → (∀ x, r ≠ Some (Ok x)) ∨ r = Some (Ok (Got [])) → op_effect o r s s.
Proof.
  intros Hp Hno. left. split_and!; [done| |by rewrite Hp]. intros q _. unfold moved_ok.
  destruct o, r as [[[]|]|]; try done; destruct Hno as [Hno|Hno]; try done; try (by destruct (Hno _ eq_refl)).
  by injection Hno as ->.
Qed.

Lemma op_effect_err o e s s' : PIPES s' = PIPES s → op_effect o (Some (Err e)) s s'.
Proof. intros Hs. left. split_and!; [done|by destruct o|by eexists]. Qed.

Definition rings_ok (s : Pipes) : Prop := ∀ i p, PIPES s !! i = Some p → ring_inv p.

Definition progress_result {A} (pr : progress A) : option (result A PipeError) :=
  match pr with Done r => Some r | Block _ => None end.

(** Closes the branches in which no byte moves. *)
Ltac no_bytes := do 3 eexists; (split; [done|]); cbn [progress_result progress_map result_map];
  first [ apply op_effect_err; rewrite ?PIPES_metric; done
        | eapply op_effect_same_ring;
          [done|cbn [PIPES put_pipe set_field]; rewrite ?PIPES_metric; done|by eauto
          |first [apply add_reader_ring|apply add_writer_ring|done]|by left]
        | eapply op_effect_id; [done|by right] ].

Lemma write_begin_spec i data tid nb timeout t s :
  rings_ok s → ∃ s' effs pr, op_begin (OpWrite i data) tid nb timeout t s = Some (s', effs, pr) ∧
    op_effect (OpWrite i data) (progress_result pr) s s'.
Proof.
  intros Hs. simpl. unfold pipe_write_begin. destruct data as [|b data]; [no_bytes|].
  destruct (PIPES s !! i) as [p|] eqn:Hp; [|no_bytes].
  destruct (read_closed p); [no_bytes|]. destruct (write_closed p); [no_bytes|].
  destruct (nb && is_full p); [no_bytes|]. destruct (is_full p); cbn [negb].
  - no_bytes.
  - destruct (do_write_spec i p (b :: data) s) as (s' & effs & n & p' & -> & Hs' & Hp' & Hc); [by eapply Hs|].
    do 3 eexists. split; [done|]. right. by exists p, p'.
Qed.

Lemma read_begin_spec i len tid nb timeout t s :
  rings_ok s → ∃ s' effs pr, op_begin (OpRead i len) tid nb timeout t s = Some (s', effs, pr) ∧
    op_effect (OpRead i len) (progress_result pr) s s'.
Proof.
  intros Hs. simpl. unfold pipe_read_begin. destruct (Z.of_nat len =? 0); [no_bytes|].
  destruct (PIPES s !! i) as [p|] eqn:Hp; [|no_bytes].
  destruct (write_closed p && is_empty p); [no_bytes|]. destruct (read_closed p); [no_bytes|].
  destruct (nb && is_empty p); [no_bytes|]. destruct (is_empty p); cbn [negb].
  - no_bytes.
  - destruct (do_read_spec i p len s) as (s' & effs & l & p' & -> & Hs' & Hp' & Hc); [by eapply Hs|].
    do 3 eexists. split; [done|]. right. by exists p, p'.
Qed.

Lemma op_begin_spec o tid nb timeout t s :
  rings_ok s → ∃ s' effs pr, op_begin o tid nb timeout t s = Some (s', effs, pr) ∧
    op_effect o (progress_result pr) s s'.
Proof. destruct o; [apply write_begin_spec|apply read_begin_spec]. Qed.

Lemma write_resume_spec i data tid s :
  rings_ok s → ∃ s' effs r, op_resume (OpWrite i data) tid s = Some (s', effs, r) ∧
    op_effect (OpWrite i data) (Some r) s s'.
Proof.
  intros Hs. simpl. unfold pipe_write_resume. destruct (PIPES s !! i) as [p|] eqn:Hp; [|no_bytes].
  pose proof (remove_writer_ring tid p) as Hr. destruct (remove_writer tid p) as [rm q]. simpl in Hr.
  destruct (same_ring_inv p q Hr) as [Hq Hc]; [by eapply Hs|].
  assert (∀ e, op_effect (OpWrite i data) (Some (Err e)) s (put_pipe i q s)) as Herr
    by (intros e; eapply op_effect_same_ring; [done|done|by eauto|done|by left]).
  destruct (read_closed q); [do 3 eexists; split; [done|apply Herr]|]. destruct (write_closed q); [do 3 eexists; split; [done|apply Herr]|].
  destruct rm; cbn [negb]; [do 3 eexists; split; [done|apply Herr]|]. destruct (is_full q); cbn [negb]; [do 3 eexists; split; [done|apply Herr]|].
  destruct (do_write_spec i q data (put_pipe i q s)) as (s' & effs & n & p' & -> & Hs' & Hp' & Hct); [done|].
  do 3 eexists. split; [done|]. right. exists p, p'. split_and!; [done| |done|by cbn [moved_ok]; rewrite <-Hc].
  rewrite Hs'. cbn [PIPES put_pipe set_field]. apply insert_insert_eq.
Qed.

Lemma read_resume_spec i len tid s :
  rings_ok s → ∃ s' effs r, op_resume (OpRead i len) tid s = Some (s', effs, r) ∧
    op_effect (OpRead i len) (Some r) s s'.
Proof.
  intros Hs. simpl. unfold pipe_read_resume. destruct (PIPES s !! i) as [p|] eqn:Hp; [|no_bytes].
  pose proof (remove_reader_ring tid p) as Hr. destruct (remove_reader tid p) as [rm q]. simpl in Hr.
  destruct (same_ring_inv p q Hr) as [Hq Hc]; [by eapply Hs|].
  assert (∀ r, (∀ x, r ≠ Some (Ok x)) ∨ r = Some (Ok (Got [])) →
    op_effect (OpRead i len) r s (put_pipe i q s)) as Hno
    by (intros r Hno; eapply op_effect_same_ring; [done|done|by eauto|done|done]).
  destruct (read_closed q); [do 3 eexists; split; [done|apply Hno; by left]|].
  destruct (write_closed q && is_empty q); [do 3 eexists; split; [done|apply Hno; by right]|].
  destruct rm; cbn [negb]; [do 3 eexists; split; [done|apply Hno; by left]|].
  destruct (is_empty q); cbn [negb]; [do 3 eexists; split; [done|apply Hno; by left]|].
  destruct (do_read_spec i q len (put_pipe i q s)) as (s' & effs & l & p' & -> & Hs' & Hp' & Hct); [done|].
  do 3 eexists. split; [done|]. right. exists p, p'. split_and!; [done| |done|by cbn [moved_ok]; rewrite <-Hc].
  rewrite Hs'. cbn [PIPES put_pipe set_field]. apply insert_insert_eq.
Qed.

Lemma op_resume_spec o tid s :
  rings_ok s → ∃ s' effs r, op_resume o tid s = Some (s', effs, r) ∧ op_effect o (Some r) s s'.
Proof. destruct o; [apply write_resume_spec|apply read_resume_spec]. Qed.

Lemma sys_inv_rings m : sys_inv m → rings_ok (sys m).
Proof. intros Hm i p Hp. by apply (Hm i). Qed.

(** Only the registry and the logs matter to the invariant. *)
Lemma sys_inv_ext m m' :
  sys_inv m → PIPES (sys m') = PIPES (sys m) → accepted m' = accepted m → delivered m' = delivered m →
  sys_inv m'.
Proof. intros Hm Hs Ha Hd i p. unfold stream_ok. rewrite Hs, Ha, Hd. apply Hm. Qed.

Lemma extend_ne i j l log : i ≠ j → extend i l log !! j = log !! j.
Proof. intros. by apply lookup_insert_ne. Qed.

Lemma op_effect_inv o r m m' :
  sys_inv m → op_effect o r (sys m) (sys m') →
  accepted m' = accepted (match r with Some r => log_result o r m | None => m end) →
  delivered m' = delivered (match r with Some r => log_result o r m | None => m end) → sys_inv m'.
Proof.
  intros Hm Heff Ha Hd i p Hp. unfold stream_ok. rewrite Ha, Hd. clear Ha Hd.
  assert (∀ p q, PIPES (sys m) !! op_pipe o = Some p → ring_inv q → moved_ok o r p q →
    ring_inv q ∧ default [] (accepted (match r with Some r => log_result o r m | None => m end) !! op_pipe o) =
      default [] (delivered (match r with Some r => log_result o r m | None => m end) !! op_pipe o) ++ contents q)
    as Hown.
  { intros p0 q Hp0 Hq Hmv. split; [done|]. destruct (Hm _ _ Hp0) as [_ Hst].
    destruct o as [j data|j len], r as [[[n|l]|e]|]; simpl in *; unfold extend;
      rewrite ?lookup_insert_eq; simpl; rewrite Hst, ?Hmv, ?app_assoc; done. }
  destruct (decide (i = op_pipe o)) as [->|Hne].
  - destruct Heff as [(Hs & Hmv & _)|(p0 & p' & Hp0 & Hs & Hr & Hmv)]; rewrite Hs in Hp.
    + apply (Hown p); [done|by apply (Hm _ _ Hp)|by apply Hmv].
    + rewrite lookup_insert_eq in Hp. injection Hp as <-. by apply (Hown p0).
  - assert (PIPES (sys m) !! i = Some p) as Hpi.
    { destruct Heff as [(Hs & _)|(p0 & p' & _ & Hs & _)]; rewrite Hs in Hp; [done|].
      by rewrite lookup_insert_ne in Hp. }
    destruct (Hm i p Hpi) as [Hr Hst]. split; [done|].
    destruct o as [j data|j len], r as [[[n|l]|e]|]; simpl in *; rewrite ?extend_ne by done; done.
Qed.

Lemma contents_new i cap : contents (PipeBuffer_new i cap) = [].
Proof. apply nil_length_inv. unfold contents. by rewrite length_ring. Qed.

Lemma create_inv m s i :
  sys_inv m → create_pipe (sys m) = (s, Ok i) →
  sys_inv (m <| sys := s |> <| accepted := <[i := []]> (accepted m) |> <| delivered := <[i := []]> (delivered m) |>).
Proof.
  intros Hm. unfold create_pipe. destruct (_ <=? _); [done|]. intros [= <- <-] j p. simpl.
  rewrite PIPES_metric. cbn [PIPES set_field]. unfold stream_ok. simpl.
  intros [[<- <-]|[Hne Hp]]%lookup_insert_Some.
  - rewrite !lookup_insert_eq. split; [apply PipeBuffer_new_inv|]. by rewrite contents_new.
  - rewrite !lookup_insert_ne by done. by apply Hm.
Qed.

(** Replacing a pipe by one with the same ring, or deleting it. *)
Lemma put_same_ring_inv m m' i p p' :
  sys_inv m → PIPES (sys m) !! i = Some p → same_ring p p' →
  PIPES (sys m') = <[i := p']> (PIPES (sys m)) → accepted m' = accepted m → delivered m' = delivered m →
  sys_inv m'.
Proof.
  intros Hm Hp Hr Hs Ha Hd j q. unfold stream_ok. rewrite Hs, Ha, Hd.
  intros [[<- <-]|[Hne Hq]]%lookup_insert_Some; [|by apply Hm].
  destruct (Hm _ _ Hp) as [Hring Hst]. apply same_ring_inv in Hr as [? Hc]; [|done]. by rewrite Hc.
Qed.

Lemma close_inv m f i s effs r :
  sys_inv m → f ∈ [close_write_end; close_read_end; close_pipe] → f i (sys m) = (s, effs, r) →
  sys_inv (with_effects s effs m).
Proof.
  intros Hm Hf Heq.
  assert (f = close_write_end ∨ f = close_read_end ∨ f = close_pipe) as [->|[->| ->]] by set_solver;
    revert Heq; unfold close_write_end, close_read_end, close_pipe;
    (destruct (PIPES (sys m) !! i) as [p|] eqn:Hp; [|intros [= <- <- <-]; by eapply sys_inv_ext]).
  - destruct (write_closed p); intros [= <- <- <-]; [by eapply sys_inv_ext|].
    by eapply (put_same_ring_inv m _ i p (p <| write_closed := true |> <| readers_waiting := [] |>)).
  - destruct (read_closed p); intros [= <- <- <-]; [by eapply sys_inv_ext|].
    by eapply (put_same_ring_inv m _ i p (p <| read_closed := true |> <| writers_waiting := [] |>)).
  - intros [= <- <- <-] j q. simpl. rewrite PIPES_metric. cbn [PIPES set_field].
    intros [_ Hq]%lookup_delete_Some. by apply Hm.
Qed.

Lemma sys_step_inv m m' : sys_inv m → sys_step m m' → sys_inv m'.
Proof.
  intros Hm Hstep. pose proof (sys_inv_rings m Hm) as Hr. destruct Hstep as
    [o tid nb to s effs r _ Hb|o tid nb to s effs cond _ Hb|o tid cond _|o tid _|o tid s effs r _ _ Hb
    |t ipc net _|s i Hc|s e Hc|f i s effs r Hf Hc|i b s r Hc|c s r Hc].
  - destruct (op_begin_spec o tid nb to (now m) (sys m) Hr) as (s' & effs' & pr & Hb' & Heff).
    rewrite Hb in Hb'. injection Hb' as <- <- <-.
    eapply (op_effect_inv o (Some r) m); [done| | |]; destruct o, r as [[]|]; done.
  - destruct (op_begin_spec o tid nb to (now m) (sys m) Hr) as (s' & effs' & pr & Hb' & Heff).
    rewrite Hb in Hb'. injection Hb' as <- <- <-. by eapply (op_effect_inv o None m).
  - by eapply sys_inv_ext.
  - by eapply sys_inv_ext.
  - destruct (op_resume_spec o tid (sys m) Hr) as (s' & effs' & r' & Hb' & Heff).
    rewrite Hb in Hb'. injection Hb' as <- <- <-.
    eapply (op_effect_inv o (Some r) m); [done| | |]; destruct o, r as [[]|]; done.
  - by eapply sys_inv_ext.
  - by apply create_inv.
  - revert Hc. unfold create_pipe. destruct (_ <=? _); [|done]. intros [= <- _]. by eapply sys_inv_ext.
  - by eapply close_inv.
  - revert Hc. unfold pipe_set_nonblock. destruct (PIPES (sys m) !! i) as [p|] eqn:Hp; intros [= <- _].
    + by eapply (put_same_ring_inv m _ i p (set_nonblock b p)).
    + by eapply sys_inv_ext.
  - revert Hc. unfold init. destruct (PipeConfig_validate c); intros [= <- _]; by eapply sys_inv_ext.
Qed.

Lemma sys_run_inv m : rtc sys_step sys_start m → sys_inv m.
Proof.
  intros Hrun. refine (rtc_ind_r (R := sys_step) sys_inv sys_start _ _ m Hrun).
  - by intros i p.
  - intros y z _ Hstep Hy. by eapply sys_step_inv.
Qed.

(** C9: Pipes are reliable byte streams. However reads, writes, sleeps, wake-ups,
    timer ticks and closes of any number of tasks interleave, the bytes a pipe has
    delivered, followed by the bytes it holds, are exactly the bytes it accepted,
    in order; it never holds more than its capacity; and no call can index out of
    its buffer. *)
Theorem pipe_stream m i p :
  rtc sys_step sys_start m → PIPES (sys m) !! i = Some p →
  default [] (accepted m !! i) = default [] (delivered m !! i) ++ contents p ∧
  Z.of_nat (length (contents p)) ≤ capacity p ∧
  ∀ o tid nb timeout, is_Some (op_begin o tid nb timeout (now m) (sys m)) ∧ is_Some (op_resume o tid (sys m)).
Proof.
  intros Hrun%sys_run_inv Hp. destruct (Hrun i p Hp) as [Hring Hst]. pose proof (length_contents p Hring) as Hl.
  split_and!; [done|destruct Hring; lia|]. intros o tid nb timeout. pose proof (sys_inv_rings m Hrun) as Hr.
  destruct (op_begin_spec o tid nb timeout (now m) (sys m) Hr) as (? & ? & ? & -> & _).
  destruct (op_resume_spec o tid (sys m) Hr) as (? & ? & ? & -> & _). split; by eexists.
Qed.

(** ** End of file *)

(** Read [len] bytes at a time without blocking, [k] times. *)
Fixpoint drain (k : nat) (i : PipeId) (tid : TaskId) (len : nat) (s : Pipes) : option (list Z * Pipes) :=
  match k with
  | O => Some ([], s)
  | S k' =>
    match pipe_read_begin i tid (Z.of_nat len) true None 0 s with
    | Some (s, _, Done (Ok l)) =>
      match drain k' i tid len s with Some (l', s) => Some (l ++ l', s) | None => None end
    | _ => None
    end
  end.

Lemma read_step i tid len s p :
  PIPES s !! i = Some p → ring_inv p → write_closed p = true → read_closed p = false → (0 < len)%nat →
  ∃ s' effs p', pipe_read_begin i tid (Z.of_nat len) true None 0 s =
      Some (s', effs, Done (Ok (take len (contents p)))) ∧
    PIPES s' !! i = Some p' ∧ ring_inv p' ∧ write_closed p' = true ∧ read_closed p' = false ∧
    contents p' = drop len (contents p).
Proof.
  intros Hp Hr Hw Hc Hlen. unfold pipe_read_begin. destruct (Z.eqb_spec (Z.of_nat len) 0); [lia|].
  rewrite Hp, Hw, Hc. pose proof (length_contents p Hr) as Hl. unfold is_empty.
  destruct (Z.eqb_spec (count p) 0) as [Hz|Hz]; cbn [andb negb].
  - destruct (contents p) as [|x l] eqn:Hct; [|simpl in Hl; lia].
    rewrite take_nil, drop_nil. do 3 eexists. split_and!; [done..|by rewrite Hct].
  - unfold do_read. destruct (read_bytes_spec (Z.of_nat len) p Hr) as (p' & -> & Hr' & Hf & Hct & _); [lia|].
    destruct Hf as (_ & _ & _ & Hfw & Hfr & _).
    assert (Z.to_nat (Z.min (Z.of_nat len) (count p)) = Nat.min len (length (contents p))) as Hn by lia.
    assert (∀ l : list Z, take (Nat.min len (length l)) l = take len l ∧
      drop (Nat.min len (length l)) l = drop len l) as Hmin.
    { intros l. destruct (decide (len ≤ length l)%nat); [by rewrite Nat.min_l|].
      rewrite Nat.min_r by lia. rewrite !take_ge, !drop_ge by lia. done. }
    rewrite Hn in *. rewrite (proj2 (Hmin _)) in Hct. rewrite (proj1 (Hmin _)).
    do 3 eexists. split; [done|]. split; [rewrite PIPES_metric; apply lookup_insert_eq|].
    destruct (same_ring_inv p' (p' <| writers_waiting := [] |>)) as [Hi Hc']; [done|done|].
    split_and!; [done|simpl; congruence|simpl; congruence|]. by rewrite Hc'.
Qed.

(** Once the write end is closed, a reader that keeps reading gets every byte
    still in the pipe, in order, and from then on end of file. *)
Lemma drain_to_eof k i tid len s p :
  PIPES s !! i = Some p → ring_inv p → write_closed p = true → read_closed p = false → (0 < len)%nat →
  (length (contents p) ≤ k * len)%nat →
  ∃ s', drain k i tid len s = Some (contents p, s') ∧
    ∃ s'' effs, pipe_read_begin i tid (Z.of_nat len) true None 0 s' = Some (s'', effs, Done (Ok [])).
Proof.
  revert s p. induction k as [|k IH]; intros s p Hp Hr Hw Hc Hlen Hk; simpl.
  - destruct (contents p) as [|x l] eqn:Hct; [|simpl in Hk; lia].
    destruct (read_step i tid len s p) as (s' & effs & p' & Hrd & _); [done..|].
    rewrite Hct, take_nil in Hrd. exists s. split; [done|]. by do 2 eexists.
  - destruct (read_step i tid len s p) as (s' & effs & p' & -> & Hp' & Hr' & Hw' & Hc' & Hct); [done..|].
    destruct (IH s' p') as (s'' & -> & Heof); [done..| |].
    + rewrite Hct, length_drop. lia.
    + exists s''. split; [|done]. by rewrite Hct, take_drop.
Qed.

(** ** Executable schedules *)

Inductive cmd :=
| CmdCall (o : op) (tid : TaskId) (nb : bool) (timeout : option Z)
| CmdPush (tid : TaskId)
| CmdBlock (tid : TaskId)
| CmdResume (tid : TaskId)
| CmdTick (t : Z)
| CmdCreate
| CmdInit (c : PipeConfig).

Definition exec (c : cmd) (m : Sys) : option Sys :=
  match c with
  | CmdCall o tid nb timeout =>
    match tasks m !! tid, op_begin o tid nb timeout (now m) (sys m) with
    | None, Some (s, effs, Done r) => Some (log_result o r (with_effects s effs m))
    | None, Some (s, effs, Block cond) =>
      Some ((with_effects s effs m) <| tasks := <[tid := About o cond]> (tasks m) |>)
    | _, _ => None
    end
  | CmdPush tid =>
    match tasks m !! tid with
    | Some (About o cond) =>
      Some (m <| waiting := push_wait tid cond (waiting m) |> <| tasks := <[tid := Pushed o]> (tasks m) |>)
    | _ => None
    end
  | CmdBlock tid =>
    match tasks m !! tid with
    | Some (Pushed o) =>
      Some (m <| waiting := block_task tid (waiting m) |> <| tasks := <[tid := Asleep o]> (tasks m) |>)
    | _ => None
    end
  | CmdResume tid =>
    match tasks m !! tid with
    | Some (Asleep o) =>
      if bool_decide (tid ∈ blocked (waiting m)) then None
      else match op_resume o tid (sys m) with
           | Some (s, effs, r) =>
             Some (log_result o r ((with_effects s effs m) <| tasks := delete tid (tasks m) |>))
           | None => None
           end
    | _ => None
    end
  | CmdTick t =>
    if now m <=? t
    then Some (m <| now := t |> <| waiting := tick_wakeups t (λ _, false) (λ _, false) (waiting m) |>)
    else None
  | CmdCreate =>
    match create_pipe (sys m) with
    | (s, Ok i) => Some (m <| sys := s |> <| accepted := <[i := []]> (accepted m) |>
                           <| delivered := <[i := []]> (delivered m) |>)
    | (s, Err _) => Some (m <| sys := s |>)
    end
  | CmdInit c => Some (m <| sys := (init c (sys m)).1 |>)
  end.

Lemma exec_step c m m' : exec c m = Some m' → sys_step m m'.
Proof.
  destruct c as [o tid nb to|tid|tid|tid|t| |c]; simpl.
  - destruct (tasks m !! tid) eqn:Ht; [done|].
    destruct (op_begin o tid nb to (now m) (sys m)) as [[[s effs] [r|cond]]|] eqn:Hb; [| |done]; intros [= <-].
    + by eapply st_call.
    + by eapply st_call_block.
  - destruct (tasks m !! tid) as [[]|] eqn:Ht; try done. intros [= <-]. by apply st_push.
  - destruct (tasks m !! tid) as [[]|] eqn:Ht; try done. intros [= <-]. by apply st_block.
  - destruct (tasks m !! tid) as [[]|] eqn:Ht; try done. case_bool_decide as Hb; [done|].
    destruct (op_resume o tid (sys m)) as [[[s effs] r]|] eqn:Hr; [|done]. intros [= <-]. by eapply st_resume.
  - destruct (Z.leb_spec (now m) t); [|done]. intros [= <-]. by apply st_tick.
  - destruct (create_pipe (sys m)) as [s [i|e]] eqn:Hc; intros [= <-]; [by apply st_create|by eapply st_create_fails].
  - intros [= <-]. destruct (init c (sys m)) as [s r] eqn:Hi. by eapply st_init.
Qed.

Fixpoint exec_all (l : list cmd) (m : Sys) : option Sys :=
  match l with
  | [] => Some m
  | c :: l' => match exec c m with Some m' => exec_all l' m' | None => None end
  end.

Lemma exec_all_run l m m' : exec_all l m = Some m' → rtc sys_step m m'.
Proof.
  revert m. induction l as [|c l IH]; intros m; simpl; [by intros [= <-]|].
  destruct (exec c m) as [m1|] eqn:Hc; [|done]. intros Hl%IH. eapply rtc_l; [by eapply exec_step|done].
Qed.

Definition run (l : list cmd) : Sys := default sys_start (exec_all l sys_start).

Lemma run_reachable l : bool_decide (is_Some (exec_all l sys_start)) = true → rtc sys_step sys_start (run l).
Proof. intros [m Hm]%bool_decide_eq_true. unfold run. rewrite Hm. by apply (exec_all_run l). Qed.

(** ** Sleeping *)

Definition small_config : PipeConfig := mkPipeConfig 4096 8 true false.

(** The reader (task 1) finds the pipe empty and queues up; before it is blocked,
    the writer (task 2) writes and wakes it; then it goes to sleep. *)
Definition lost_schedule : list cmd :=
  [CmdInit small_config; CmdCreate;
   CmdCall (OpRead 1 10) 1 false (Some 0); CmdCall (OpWrite 1 [7]) 2 true None;
   CmdPush 1; CmdBlock 1].

(** A wake-up can be lost. [pipe_read] releases the registry between queueing
    the reader and blocking it. A write that falls in between finds the reader
    queued, takes it off the queue and wakes it, which does nothing as it is not
    blocked yet; the reader then blocks, with data in the pipe, off the pipe's
    queue, and with a timeout of 0 no timer tick ever wakes it. *)
Lemma lost_wakeup :
  let m := run lost_schedule in
  rtc sys_step sys_start m ∧ tasks m !! 1 = Some (Asleep (OpRead 1 10)) ∧ 1 ∈ blocked (waiting m) ∧
  pipe_has_data 1 (sys m) = true ∧ (readers_waiting <$> PIPES (sys m) !! 1) = Some [] ∧
  ∀ t ipc net, t < U64_MAX → 1 ∈ blocked (tick_wakeups t ipc net (waiting m)).
Proof.
  cbv zeta. split_and!.
  - apply run_reachable. vm_compute. reflexivity.
  - vm_compute. reflexivity.
  - apply (bool_decide_unpack _). vm_compute. exact I.
  - vm_compute. reflexivity.
  - vm_compute. reflexivity.
  - intros t ipc net Ht.
    assert (waiting (run lost_schedule) = mkWaiting [(1, Timer U64_MAX)] {[1]}) as -> by (vm_compute; reflexivity).
    unfold tick_wakeups. cbn [tick_loop WAIT_QUEUE]. unfold should_wake. cbn [snd].
    destruct (Z.leb_spec U64_MAX t); [lia|]. simpl. set_solver.
Qed.

Lemma remove_first_snoc tid l : ¬ (tid ∈ l) → remove_first tid (l ++ [tid]) = Some l.
Proof.
  induction l as [|t l IH]; intros Hn; simpl; [by rewrite Z.eqb_refl|].
  destruct (Z.eqb_spec t tid) as [->|]; [set_solver|]. rewrite IH; [done|set_solver].
Qed.

(** A blocking read without a timeout does not wait for data. Its wake
    condition, [Any], is met at the next timer tick; the reader, still on the
    pipe's queue, takes that for a timeout and returns [WouldBlock]. *)
Lemma infinite_read_returns_at_next_tick i tid len s p t :
  PIPES s !! i = Some p → is_empty p = true → write_closed p = false → read_closed p = false →
  ¬ (tid ∈ readers_waiting p) → (0 < len)%nat →
  ∃ s1, pipe_read_begin i tid (Z.of_nat len) false None t s = Some (s1, [], Block Any) ∧
    (∀ w t', ¬ (tid ∈ blocked (tick_wakeups t' (λ _, false) (λ _, false)
                         (block_task tid (push_wait tid Any w))))) ∧
    ∃ s2, pipe_read_resume i tid (Z.of_nat len) s1 = Some (s2, [], Err WouldBlock).
Proof.
  intros Hp He Hw Hr Ht Hlen. unfold pipe_read_begin. destruct (Z.eqb_spec (Z.of_nat len) 0); [lia|].
  rewrite Hp, Hw, Hr, He. cbn [andb negb]. eexists. split_and!; [done| |].
  - intros w t'. unfold tick_wakeups.
    assert (∀ q w, (tid, Any) ∈ q → ¬ (tid ∈ blocked (tick_loop t' (λ _, false) (λ _, false) q w).2)) as Hloop.
    { assert (∀ q w, ¬ (tid ∈ blocked w) →
        ¬ (tid ∈ blocked (tick_loop t' (λ _, false) (λ _, false) q w).2)) as Hkeep.
      { induction q as [|e q IHq]; intros w0 Hw0; simpl; [done|]. destruct (should_wake _ _ _ _).
        - apply IHq. simpl. set_solver.
        - specialize (IHq w0 Hw0). by destruct (tick_loop _ _ _ q w0). }
      induction q as [|e q IHq]; intros w0 Hin; [set_solver|]. simpl.
      apply elem_of_cons in Hin as [<-|Hin].
      - apply Hkeep. simpl. set_solver.
      - destruct (should_wake _ _ _ _); [by apply IHq|]. specialize (IHq w0 Hin).
        by destruct (tick_loop _ _ _ q w0). }
    specialize (Hloop (WAIT_QUEUE w ++ [(tid, Any)]) (block_task tid (push_wait tid Any w))).
    simpl. destruct (tick_loop _ _ _ _ _) as [q' w']. simpl in *. apply Hloop. set_solver.
  - unfold pipe_read_resume. cbn [PIPES put_pipe set_field]. rewrite lookup_insert_eq.
    unfold add_reader. rewrite bool_decide_eq_false_2 by done. unfold remove_reader.
    cbn [readers_waiting set_field]. simpl. rewrite remove_first_snoc by done. simpl.
    unfold is_empty in *. simpl. rewrite Hw, Hr. cbn [andb]. by eexists.
Qed.

(** ** Lock order *)

Inductive lock := L_PIPES | L_CONFIG | L_METRICS.

#[export] Instance lock_eq_dec : EqDecision lock.
Proof. solve_decision. Defined.

Inductive lock_act := Acquire (l : lock) | Release (l : lock).

(** The locks [create_pipe] takes and releases, in order; the guard of the
    configuration lives to the end of the function. *)
Definition create_pipe_locks : list lock_act :=
  [Acquire L_CONFIG; Acquire L_PIPES; Release L_PIPES; Acquire L_PIPES; Release L_PIPES;
   Acquire L_METRICS; Release L_METRICS; Release L_CONFIG].

(** Those of [pipe_read] on an empty pipe, up to [block_current]. *)
Definition pipe_read_block_locks : list lock_act :=
  [Acquire L_PIPES; Acquire L_CONFIG; Release L_CONFIG; Acquire L_METRICS; Release L_METRICS;
   Release L_PIPES].

(** The locks held, and what each thread still has to do; a spin lock that is held
    makes its next taker wait, whoever that is. *)
Definition locks_state : Type := list lock * list (list lock_act).

Inductive lock_step : locks_state → locks_state → Prop :=
| acquire held threads i l rest :
    threads !! i = Some (Acquire l :: rest) → l ∉ held →
    lock_step (held, threads) (l :: held, <[i := rest]> threads)
| release held threads i l rest :
    threads !! i = Some (Release l :: rest) →
    lock_step (held, threads) (filter (λ l', l' ≠ l) held, <[i := rest]> threads).

(** [create_pipe] takes the configuration lock and then the registry's, and a
    read that has to sleep takes them the other way round, with both spinning: on
    two CPUs the two calls can wait for each other for ever. *)
Lemma create_read_deadlock :
  ∃ st, rtc lock_step ([], [create_pipe_locks; pipe_read_block_locks]) st ∧
    (∃ i a rest, st.2 !! i = Some (a :: rest)) ∧ ∀ st', ¬ lock_step st st'.
Proof.
  exists ([L_PIPES; L_CONFIG], [drop 1 create_pipe_locks; drop 1 pipe_read_block_locks]). split_and!.
  - eapply rtc_l; [apply (acquire _ _ 0); [reflexivity|set_solver]|].
    eapply rtc_l; [apply (acquire _ _ 1); [reflexivity|]|apply rtc_refl].
    rewrite list_elem_of_singleton. discriminate.
  - exists 0%nat. do 2 eexists. reflexivity.
  - intros st' Hstep. inversion Hstep as [held threads i l rest Hi Hl|held threads i l rest Hi]; subst;
      destruct i as [|[|i]]; simpl in Hi; try done; injection Hi as <- <-; set_solver.
Qed.

(** ** Witnesses *)

Definition ex_pipe : PipeBuffer := PipeBuffer_new 1 4096.

Lemma ring_is_fifo_witness :
  (∃ n p', write_bytes [1; 2; 3] ex_pipe = Some (n, p') ∧ ring_inv p' ∧
     n = Z.min 3 (capacity ex_pipe - Z.of_nat (length (contents ex_pipe))) ∧
     contents p' = contents ex_pipe ++ take (Z.to_nat n) [1; 2; 3]) ∧
  (∃ l p', read_bytes 5 ex_pipe = Some (l, p') ∧ peek_bytes 5 ex_pipe = Some l ∧ ring_inv p' ∧
     Z.of_nat (length l) = Z.min 5 (Z.of_nat (length (contents ex_pipe))) ∧ contents ex_pipe = l ++ contents p').
Proof. apply (ring_is_fifo ex_pipe [1; 2; 3] 5); [apply PipeBuffer_new_inv|lia]. Defined.

(** A writer, then a reader that takes two of its three bytes. *)
Definition ex_schedule : list cmd :=
  [CmdInit small_config; CmdCreate; CmdCall (OpWrite 1 [1; 2; 3]) 2 true None;
   CmdCall (OpRead 1 2) 1 false None].

Definition ex_run : Sys := run ex_schedule.
Definition ex_run_pipe : PipeBuffer := default ex_pipe (PIPES (sys ex_run) !! 1).

Lemma pipe_stream_witness :
  default [] (accepted ex_run !! 1) = default [] (delivered ex_run !! 1) ++ contents ex_run_pipe ∧
  Z.of_nat (length (contents ex_run_pipe)) ≤ capacity ex_run_pipe ∧
  ∀ o tid nb timeout, is_Some (op_begin o tid nb timeout (now ex_run) (sys ex_run)) ∧
    is_Some (op_resume o tid (sys ex_run)).
Proof.
  apply (pipe_stream ex_run 1 ex_run_pipe); [apply run_reachable; vm_compute; reflexivity|].
  vm_compute. reflexivity.
Defined.

Definition ex_closed : PipeBuffer := ex_run_pipe <| write_closed := true |>.
Definition ex_closed_sys : Pipes := put_pipe 1 ex_closed pipes_start.

Lemma drain_to_eof_witness :
  ∃ s', drain 1 1 5 2 ex_closed_sys = Some (contents ex_closed, s') ∧
    ∃ s'' effs, pipe_read_begin 1 5 2 true None 0 s' = Some (s'', effs, Done (Ok [])).
Proof.
  apply (drain_to_eof 1 1 5 2 ex_closed_sys ex_closed);
    [vm_compute; reflexivity| |vm_compute; reflexivity|vm_compute; reflexivity|lia|].
  - assert (ring_inv ex_run_pipe) as Hr.
    { refine (proj1 (sys_run_inv ex_run _ 1 ex_run_pipe _)); [apply run_reachable|]; vm_compute; reflexivity. }
    by apply (same_ring_inv ex_run_pipe ex_closed).
  - unfold contents. rewrite length_ring. vm_compute. repeat constructor.
Defined.

Lemma infinite_read_returns_at_next_tick_witness :
  ∃ s1, pipe_read_begin 1 5 2 false None 0 (put_pipe 1 ex_pipe pipes_start) = Some (s1, [], Block Any) ∧
    (∀ w t', ¬ (5 ∈ blocked (tick_wakeups t' (λ _, false) (λ _, false) (block_task 5 (push_wait 5 Any w))))) ∧
    ∃ s2, pipe_read_resume 1 5 2 s1 = Some (s2, [], Err WouldBlock).
Proof.
  apply (infinite_read_returns_at_next_tick 1 5 2 (put_pipe 1 ex_pipe pipes_start) ex_pipe 0);
    [reflexivity|reflexivity|reflexivity|reflexivity|simpl; set_solver|lia].
Defined.
