(* ===== verification/Buddy.v ===== *)
(** * The buddy allocator ([src/src/mm/buddy/mod.rs]).

    Free lists of blocks of [2^order] pages, split on allocation and merged on
    release. Indexing a list out of bounds, a remainder by zero and [unwrap] on
    nothing are panics, [None]; shifts, sums and products of [u64] and [usize]
    wrap. The loops have their own fixpoints; the one of [add_region] takes the
    number of pages as fuel, which is enough as each round adds at least one. *)

From Stdlib Require Import ZArith Lia Bool.
From stdpp Require Import base gmap sets list strings.
From S2P Require Import Prelude.

Local Open Scope Z_scope.

(** ** Data *)

Definition DEFAULT_MAX_ORDER : nat := 11.
Definition DEFAULT_PAGE_SIZE : Z := 4096.

Record BuddyConfig := mkBuddyConfig {
  max_order : nat;
  page_size : Z;
  collect_metrics : bool;
  log_operations : bool;
}.

Definition BuddyConfig_default : BuddyConfig := mkBuddyConfig DEFAULT_MAX_ORDER DEFAULT_PAGE_SIZE true false.

Definition BuddyConfig_validate (c : BuddyConfig) : result unit string :=
  if bool_decide (max_order c = 0%nat) then Err "max_order must be > 0"%string
  else if page_size c =? 0 then Err "page_size must be > 0"%string
  else if negb (Z.land (page_size c) (page_size c - 1) =? 0)
    then Err "page_size must be a power of two"%string
  else Ok tt.

Inductive BuddyError :=
| AllocationFailed (order : nat)
| InvalidOrder (order max_order : nat)
| InvalidAddress (address : Z)
| DoubleFree (address : Z)
| BuddyNotFound (address : Z)
| BuddyConfigError (s : string).

Record BuddyAllocator := mkBuddyAllocator {
  config : BuddyConfig;
  free : list (list Z);
  total_pages : Z;
  free_pages : Z;
}.

#[export] Instance eta_BuddyAllocator : Settable BuddyAllocator :=
  λ a, mkBuddyAllocator (config a) (free a) (total_pages a) (free_pages a).

Record BuddyStats := mkBuddyStats {
  st_total_pages : Z;
  st_free_pages : Z;
  st_allocated_pages : Z;
  st_largest_free_order : option nat;
  st_fragmentation_count : Z;
}.

(** [x << n] on 64 bits; the shift count wraps too. *)
Definition shl64 (x : Z) (n : nat) : Z := wrap64 (Z.shiftl x (Z.of_nat n `mod` 64)).

(** [(1 << order) * page_size]. *)
Definition block_bytes (c : BuddyConfig) (order : nat) : Z := mul64 (shl64 1 order) (page_size c).

(** [a % b], a panic when [b] is zero. *)
Definition rem64 (a b : Z) : option Z := if b =? 0 then None else Some (a `mod` b).

(** [self.free[order].push(a)]. *)
Definition push_at (order : nat) (a : Z) (fl : list (list Z)) : option (list (list Z)) :=
  l ← fl !! order; Some (<[order := l ++ [a]]> fl).

(** ** Operations *)

Definition BuddyAllocator_new (c : BuddyConfig) : BuddyAllocator :=
  mkBuddyAllocator c (replicate (max_order c) []) 0 0.

(** The inner loop of [add_region]: the greatest order that fits and is aligned. *)
Fixpoint pick_order (c : BuddyConfig) (addr rem : Z) (order : nat) : option nat :=
  let size := shl64 1 order in
  r ← rem64 addr (block_bytes c order);
  if (size <=? rem) && (r =? 0) then Some order
  else match order with O => Some O | S o => pick_order c addr rem o end.

Fixpoint region_loop (fuel : nat) (c : BuddyConfig) (addr rem : Z) (fl : list (list Z)) :
    option (list (list Z)) :=
  match fuel with
  | O => Some fl
  | S fuel' =>
    if rem =? 0 then Some fl
    else
      order ← pick_order c addr rem (max_order c - 1);
      fl ← push_at order addr fl;
      region_loop fuel' c (add64 addr (block_bytes c order)) (sub64 rem (shl64 1 order)) fl
  end.

Definition add_region (base pages : Z) (al : BuddyAllocator) : option BuddyAllocator :=
  fl ← region_loop (Z.to_nat pages) (config al) base pages (free al);
  Some (al <| free := fl |> <| total_pages := add64 (total_pages al) pages |>
           <| free_pages := add64 (free_pages al) pages |>).

(** [while fo < max_order && self.free[fo].is_empty() { fo += 1 }], [k] orders to go. *)
Fixpoint find_order (k : nat) (fl : list (list Z)) (fo : nat) : option nat :=
  match k with
  | O => Some fo
  | S k' =>
    l ← fl !! fo;
    match l with [] => find_order k' fl (S fo) | _ => Some fo end
  end.

(** The loop that splits a block of order [co] down to [order]. *)
Fixpoint split_loop (c : BuddyConfig) (addr : Z) (order co : nat) (fl : list (list Z)) :
    option (list (list Z)) :=
  match co with
  | O => Some fl
  | S co' =>
    if (order <? co)%nat
    then fl ← push_at co' (add64 addr (block_bytes c co')) fl; split_loop c addr order co' fl
    else Some fl
  end.

(** [pop().unwrap()] from list [fo]. *)
Definition pop_at (fo : nat) (fl : list (list Z)) : option (Z * list (list Z)) :=
  l ← fl !! fo; a ← last l; Some (a, <[fo := removelast l]> fl).

Definition alloc (order : nat) (al : BuddyAllocator) : option (BuddyAllocator * result Z BuddyError) :=
  let max := max_order (config al) in
  if (max <=? order)%nat then Some (al, Err (InvalidOrder order (max - 1)))
  else
    fo ← find_order (max - order) (free al) order;
    if (max <=? fo)%nat then Some (al, Err (AllocationFailed order))
    else
      '(addr, fl) ← pop_at fo (free al);
      fl ← split_loop (config al) addr order fo fl;
      Some (al <| free := fl |> <| free_pages := sub64 (free_pages al) (shl64 1 order) |>, Ok addr).

(** [iter().position(|&p| p == x)]. *)
Fixpoint position (x : Z) (l : list Z) : option nat :=
  match l with
  | [] => None
  | y :: l' => if y =? x then Some 0%nat else option_map S (position x l')
  end.

(** [swap_remove(pos)]: the last element takes the place of the removed one. *)
Definition swap_remove (pos : nat) (l : list Z) : list Z :=
  match last l with Some z => removelast (<[pos := z]> l) | None => l end.

Definition buddy_of (a block_size : Z) : option Z :=
  r ← rem64 a (mul64 block_size 2);
  Some (if r =? 0 then add64 a block_size else sub64 a block_size).

(** The loop of [free]: merge with the buddy as long as it is free; [k] orders to go. *)
Fixpoint merge_loop (k : nat) (c : BuddyConfig) (a : Z) (o : nat) (fl : list (list Z)) :
    option (Z * nat * list (list Z)) :=
  match k with
  | O => Some (a, o, fl)
  | S k' =>
    buddy ← buddy_of a (block_bytes c o);
    l ← fl !! o;
    match position buddy l with
    | Some pos => merge_loop k' c (Z.min a buddy) (S o) (<[o := swap_remove pos l]> fl)
    | None => Some (a, o, fl)
    end
  end.

Definition free_block (addr : Z) (order : nat) (al : BuddyAllocator) :
    option (BuddyAllocator * result unit BuddyError) :=
  let max := max_order (config al) in
  if (max <=? order)%nat then Some (al, Err (InvalidOrder order (max - 1)))
  else
    r ← rem64 addr (page_size (config al));
    if negb (r =? 0) then Some (al, Err (InvalidAddress addr))
    else
      '(a, o, fl) ← merge_loop (max - 1 - order) (config al) addr order (free al);
      l ← fl !! o;
      if bool_decide (a ∈ l) then Some (al <| free := fl |>, Err (DoubleFree a))
      else
        fl ← push_at o a fl;
        Some (al <| free := fl |> <| free_pages := add64 (free_pages al) (shl64 1 order) |>, Ok tt).

(** The orders from [k] down, the first with a non-empty list. *)
Fixpoint largest_from (k : nat) (fl : list (list Z)) : option nat :=
  match k with
  | O => None
  | S k' => match fl !! k' with Some (_ :: _) => Some k' | _ => largest_from k' fl end
  end.

Definition largest_free_order (al : BuddyAllocator) : option nat := largest_from (max_order (config al)) (free al).

Definition free_list_count (al : BuddyAllocator) : Z := Z.of_nat (length (filter (λ l, l ≠ []) (free al))).

Definition stats (al : BuddyAllocator) : BuddyStats :=
  mkBuddyStats (total_pages al) (free_pages al) (sat_sub (total_pages al) (free_pages al))
    (largest_free_order al) (free_list_count al).

Definition is_empty (al : BuddyAllocator) : bool := total_pages al =? 0.

Definition reset (al : BuddyAllocator) : BuddyAllocator :=
  al <| free := (λ _, []) <$> free al |> <| total_pages := 0 |> <| free_pages := 0 |>.

(** ** The manager *)

Record BuddyMetrics := mkBuddyMetrics {
  allocations : Z;
  frees : Z;
  allocation_failures : Z;
  free_failures : Z;
  total_pages_allocated : Z;
  total_pages_freed : Z;
}.

#[export] Instance eta_BuddyMetrics : Settable BuddyMetrics :=
  λ m, mkBuddyMetrics (allocations m) (frees m) (allocation_failures m) (free_failures m)
         (total_pages_allocated m) (total_pages_freed m).

Record BuddyManager := mkBuddyManager {
  allocator : BuddyAllocator;
  metrics : BuddyMetrics;
  initialised : bool;
}.

#[export] Instance eta_BuddyManager : Settable BuddyManager :=
  λ m, mkBuddyManager (allocator m) (metrics m) (initialised m).

(** Panics on an invalid configuration. *)
Definition BuddyManager_new (c : BuddyConfig) : option BuddyManager :=
  match BuddyConfig_validate c with
  | Ok _ => Some (mkBuddyManager (BuddyAllocator_new c) (mkBuddyMetrics 0 0 0 0 0 0) false)
  | Err _ => None
  end.

Definition BuddyManager_init (base pages : Z) (m : BuddyManager) : option BuddyManager :=
  al ← add_region base pages (allocator m);
  Some (m <| allocator := al |> <| initialised := true |>).

Definition inc_alloc (pages : Z) (m : BuddyMetrics) : BuddyMetrics :=
  m <| allocations := add64 (allocations m) 1 |>
    <| total_pages_allocated := add64 (total_pages_allocated m) pages |>.
Definition inc_free (pages : Z) (m : BuddyMetrics) : BuddyMetrics :=
  m <| frees := add64 (frees m) 1 |> <| total_pages_freed := add64 (total_pages_freed m) pages |>.
Definition inc_alloc_failure (m : BuddyMetrics) : BuddyMetrics :=
  m <| allocation_failures := add64 (allocation_failures m) 1 |>.
Definition inc_free_failure (m : BuddyMetrics) : BuddyMetrics :=
  m <| free_failures := add64 (free_failures m) 1 |>.

Definition alloc_pages (order : nat) (m : BuddyManager) : option (BuddyManager * result Z BuddyError) :=
  if negb (initialised m) then Some (m, Err (AllocationFailed order))
  else
    '(al, r) ← alloc order (allocator m);
    let m := m <| allocator := al |> in
    Some (match r with
          | Ok addr => (m <| metrics := inc_alloc (shl64 1 order) (metrics m) |>, Ok addr)
          | Err e => (m <| metrics := inc_alloc_failure (metrics m) |>, Err e)
          end).

Definition release_pages (addr : Z) (order : nat) (m : BuddyManager) :
    option (BuddyManager * result unit BuddyError) :=
  if negb (initialised m) then Some (m, Err (BuddyNotFound addr))
  else
    '(al, r) ← free_block addr order (allocator m);
    let m := m <| allocator := al |> in
    Some (match r with
          | Ok _ => (m <| metrics := inc_free (shl64 1 order) (metrics m) |>, Ok tt)
          | Err e => (m <| metrics := inc_free_failure (metrics m) |>, Err e)
          end).

Definition BuddyManager_reset (m : BuddyManager) : BuddyManager :=
  m <| allocator := reset (allocator m) |> <| initialised := false |>.

(** ** Blocks and pages *)

Definition config_ok (c : BuddyConfig) : Prop :=
  (0 < max_order c)%nat ∧ 0 < page_size c ∧ 2 ^ Z.of_nat (max_order c) * page_size c ≤ 2 ^ 62.

(** The size in bytes of a block. *)
Definition bsize (c : BuddyConfig) (o : nat) : Z := 2 ^ Z.of_nat o * page_size c.

(** The addresses of the [n] pages from [a] on. *)
Definition pages_from (c : BuddyConfig) (a n : Z) : list Z := (λ i, a + i * page_size c) <$> seqZ 0 n.

Definition block_pages (c : BuddyConfig) (b : Z * nat) : list Z := pages_from c b.1 (2 ^ Z.of_nat b.2).

Definition pages_of (c : BuddyConfig) (bs : list (Z * nat)) : list Z := bs ≫= block_pages c.

(** The blocks on the free lists. *)
Definition blocks (fl : list (list Z)) : list (Z * nat) := concat (imap (λ o l, (λ a, (a, o)) <$> l) fl).

(** A block the allocator may hold: aligned to its size and below [2^63]. *)
Record block_ok (c : BuddyConfig) (b : Z * nat) : Prop := {
  bo_order : (b.2 < max_order c)%nat;
  bo_addr : 0 ≤ b.1;
  bo_end : b.1 + bsize c b.2 ≤ 2 ^ 63;
  bo_aligned : b.1 `mod` bsize c b.2 = 0;
}.

#[export] Instance pages_of_perm c : Proper ((≡ₚ) ==> (≡ₚ)) (pages_of c).
Proof. intros bs bs' Hbs. unfold pages_of. by rewrite Hbs. Qed.

Lemma pages_of_cons c b bs : pages_of c (b :: bs) = block_pages c b ++ pages_of c bs.
Proof. done. Qed.

Lemma pages_of_app c bs bs' : pages_of c (bs ++ bs') = pages_of c bs ++ pages_of c bs'.
Proof. unfold pages_of. by rewrite bind_app. Qed.

Section sizes.
Context (c : BuddyConfig) (Hc : config_ok c).

Lemma pow2_mono (o o' : nat) : (o ≤ o')%nat → 0 < 2 ^ Z.of_nat o ≤ 2 ^ Z.of_nat o'.
Proof. intros. split; [apply Z.pow_pos_nonneg; lia|apply Z.pow_le_mono_r; lia]. Qed.

Lemma order_bound o : (o < max_order c)%nat → Z.of_nat o < 63 ∧ 0 < bsize c o ≤ 2 ^ 62.
Proof.
  intros Ho. destruct Hc as (_ & Hp & Hb). unfold bsize.
  pose proof (pow2_mono o (max_order c) ltac:(lia)) as Hm. split; [|nia].
  destruct (Z.lt_ge_cases (Z.of_nat o) 63) as [|Hge]; [done|exfalso].
  pose proof (Z.pow_le_mono_r 2 63 (Z.of_nat o) ltac:(lia) ltac:(lia)). nia.
Qed.

Lemma shl64_1 o : (o < max_order c)%nat → shl64 1 o = 2 ^ Z.of_nat o.
Proof.
  intros Ho. destruct (order_bound o Ho) as [Hlt _]. unfold shl64.
  rewrite Z.mod_small by lia. rewrite Z.shiftl_mul_pow2, Z.mul_1_l by lia. apply wrap64_small.
  pose proof (Z.pow_lt_mono_r 2 (Z.of_nat o) 64 ltac:(lia) ltac:(lia) ltac:(lia)).
  unfold u64_ok, U64_MAX. pose proof (pow2_mono 0 o ltac:(lia)). lia.
Qed.

Lemma block_bytes_eq o : (o < max_order c)%nat → block_bytes c o = bsize c o.
Proof.
  intros Ho. destruct (order_bound o Ho) as [_ Hb]. unfold block_bytes, mul64. rewrite shl64_1 by done.
  apply wrap64_small. unfold bsize in *. mach.
Qed.

Lemma bsize_S o : bsize c (S o) = 2 * bsize c o.
Proof. unfold bsize. rewrite Nat2Z.inj_succ, Z.pow_succ_r by lia. lia. Qed.

Lemma pages_from_app a n m :
  0 ≤ n → 0 ≤ m → pages_from c a (n + m) = pages_from c a n ++ pages_from c (a + n * page_size c) m.
Proof.
  intros Hn Hm. unfold pages_from. rewrite seqZ_app, fmap_app by done. f_equal.
  rewrite (Z.add_comm 0 n), <-(fmap_add_seqZ n 0 m), <-list_fmap_compose. apply list_fmap_ext.
  intros i x _. unfold compose. lia.
Qed.

Lemma block_split a o :
  block_pages c (a, S o) = block_pages c (a, o) ++ block_pages c (a + bsize c o, o).
Proof.
  unfold block_pages. cbn [fst snd]. rewrite Nat2Z.inj_succ, Z.pow_succ_r by lia.
  replace (2 * 2 ^ Z.of_nat o) with (2 ^ Z.of_nat o + 2 ^ Z.of_nat o) by lia.
  rewrite pages_from_app; [done|apply Z.pow_nonneg; lia..].
Qed.

Lemma length_block_pages b : Z.of_nat (length (block_pages c b)) = 2 ^ Z.of_nat b.2.
Proof.
  unfold block_pages, pages_from. rewrite length_fmap, length_seqZ, Z2Nat.id; [done|].
  apply Z.pow_nonneg. lia.
Qed.

Lemma block_pages_head b : b.1 ∈ block_pages c b.
Proof.
  apply list_elem_of_fmap. exists 0. split; [lia|]. apply elem_of_seqZ.
  pose proof (Z.pow_pos_nonneg 2 (Z.of_nat b.2) ltac:(lia) ltac:(lia)). lia.
Qed.
End sizes.

(** ** Free lists *)

(** Exchanging the list of one order. *)
Lemma blocks_exchange fl o l :
  fl !! o = Some l → ∃ rest, blocks fl ≡ₚ ((λ a, (a, o)) <$> l) ++ rest ∧
    ∀ l', blocks (<[o := l']> fl) ≡ₚ ((λ a, (a, o)) <$> l') ++ rest.
Proof.
  intros Ho. pose proof (lookup_lt_Some _ _ _ Ho) as Hlt.
  assert (∀ l' : list Z, blocks (take o fl ++ l' :: drop (S o) fl) ≡ₚ
    ((λ a, (a, o)) <$> l') ++ (blocks (take o fl) ++
      concat (imap (λ i l, (λ a, (a, (S o + i)%nat)) <$> l) (drop (S o) fl)))) as Hb.
  { intros l'. unfold blocks. rewrite imap_app, concat_app, length_take, Nat.min_l by lia.
    rewrite imap_cons, concat_cons, Nat.add_0_r. rewrite (Permutation_app_comm (concat (imap _ (take o fl)))).
    rewrite <-app_assoc. f_equiv. rewrite Permutation_app_comm. f_equiv.
    apply reflexive_eq. f_equal. apply imap_ext. intros i x _. simpl. apply list_fmap_ext. intros ? ? _.
    unfold compose. f_equal. lia. }
  eexists. split.
  - rewrite <-(take_drop_middle fl o l Ho) at 1. apply Hb.
  - intros l'. rewrite insert_take_drop by done. apply Hb.
Qed.

Lemma elem_of_blocks fl a o : (a, o) ∈ blocks fl ↔ ∃ l, fl !! o = Some l ∧ a ∈ l.
Proof.
  unfold blocks. rewrite list_elem_of_In, in_concat. setoid_rewrite <-list_elem_of_In. split.
  - intros (x & Hx & Hin). apply elem_of_lookup_imap in Hx as (i & l & -> & Hi).
    apply list_elem_of_fmap in Hin as (a' & [= -> ->] & Ha). eauto.
  - intros (l & Hl & Ha). exists ((λ a, (a, o)) <$> l). split; [|apply list_elem_of_fmap; eauto].
    apply elem_of_lookup_imap. eauto.
Qed.

Lemma push_at_spec o a fl :
  (o < length fl)%nat →
  ∃ fl', push_at o a fl = Some fl' ∧ blocks fl' ≡ₚ (a, o) :: blocks fl ∧ length fl' = length fl.
Proof.
  intros Ho. unfold push_at. destruct (lookup_lt_is_Some_2 fl o Ho) as [l Hl]. rewrite Hl. simpl.
  destruct (blocks_exchange fl o l Hl) as (rest & Hb & Hb'). eexists. split; [done|].
  split; [|by rewrite length_insert]. rewrite Hb', Hb, fmap_app, <-app_assoc. simpl.
  by rewrite <-Permutation_middle.
Qed.

Lemma last_split (l : list Z) z : last l = Some z → l = removelast l ++ [z].
Proof.
  intros Hl. destruct (decide (l = [])) as [->|Hne]; [done|].
  rewrite (app_removelast_last z Hne) at 1. do 2 f_equal.
  apply last_Some in Hl as [l' ->]. by rewrite last_last.
Qed.

Lemma pop_at_spec fo fl l :
  fl !! fo = Some l → l ≠ [] →
  ∃ a fl', pop_at fo fl = Some (a, fl') ∧ blocks fl ≡ₚ (a, fo) :: blocks fl' ∧ length fl' = length fl.
Proof.
  intros Hl Hne. unfold pop_at. rewrite Hl. simpl.
  destruct (last l) as [a|] eqn:Ha; [|by apply last_None in Ha]. simpl. do 2 eexists. split; [done|].
  destruct (blocks_exchange fl fo l Hl) as (rest & Hb & Hb'). split; [|by rewrite length_insert].
  rewrite Hb, Hb'. rewrite (last_split l a Ha) at 1. rewrite fmap_app, <-app_assoc. simpl.
  by rewrite <-Permutation_middle.
Qed.

Lemma position_lookup x l pos : position x l = Some pos → l !! pos = Some x.
Proof.
  revert pos. induction l as [|y l IH]; intros pos; simpl; [done|].
  destruct (Z.eqb_spec y x) as [->|]; [by intros [= <-]|].
  destruct (position x l) as [q|]; [|done]. intros [= <-]. by apply IH.
Qed.

Lemma swap_remove_perm pos l x : l !! pos = Some x → l ≡ₚ x :: swap_remove pos l.
Proof.
  intros Hx. unfold swap_remove. destruct (last l) as [z|] eqn:Hz.
  2: { apply last_None in Hz as ->. done. }
  apply last_split in Hz. set (l0 := removelast l) in *. clearbody l0. subst l.
  destruct (decide (pos < length l0)%nat) as [Hlt|Hge].
  - rewrite insert_app_l, removelast_last by done. rewrite lookup_app_l in Hx by done.
    rewrite insert_take_drop by done. rewrite <-(take_drop_middle l0 pos x Hx) at 1.
    rewrite <-!Permutation_middle, app_nil_r. simpl. apply Permutation_swap.
  - apply lookup_app_Some in Hx as [Hx|[_ Hx]]; [apply lookup_lt_Some in Hx; lia|].
    apply list_lookup_singleton_Some in Hx as [Hp ->].
    rewrite list_insert_id by (rewrite lookup_app_r by lia; by rewrite Hp).
    rewrite removelast_last. by rewrite Permutation_app_comm.
Qed.

Lemma take_buddy_spec o fl l x pos :
  fl !! o = Some l → position x l = Some pos →
  blocks fl ≡ₚ (x, o) :: blocks (<[o := swap_remove pos l]> fl).
Proof.
  intros Hl Hp%position_lookup. destruct (blocks_exchange fl o l Hl) as (rest & Hb & Hb').
  rewrite Hb, Hb'. by rewrite (swap_remove_perm pos l x Hp) at 1.
Qed.

(** ** Alignment *)

Section aligned.
Context (c : BuddyConfig) (Hc : config_ok c).

Lemma block_ok_half a o : block_ok c (a, S o) → block_ok c (a, o) ∧ block_ok c (a + bsize c o, o).
Proof.
  intros [Ho Ha He Hm]. simpl in *. destruct (order_bound c Hc o) as [_ Hb]; [lia|].
  rewrite bsize_S in He, Hm. apply Z.mod_divide in Hm as [k Hk]; [|lia].
  split; split; simpl; [lia|lia|lia| |lia|lia|lia|]; apply Z.mod_divide; try lia.
  - exists (2 * k). lia.
  - exists (2 * k + 1). lia.
Qed.

(** The buddy of an aligned block, and the block the two make up. *)
Lemma buddy_of_spec a o :
  block_ok c (a, o) → (S o < max_order c)%nat →
  ∃ b, buddy_of a (block_bytes c o) = Some b ∧ (b = a + bsize c o ∨ b = a - bsize c o) ∧
    0 ≤ b ∧ (Z.min a b) `mod` bsize c (S o) = 0.
Proof.
  intros [Ho Ha He Hm] HS. simpl in *. rewrite block_bytes_eq by done.
  destruct (order_bound c Hc o Ho) as [_ Hb]. unfold buddy_of, rem64.
  assert (mul64 (bsize c o) 2 = 2 * bsize c o) as Hmul.
  { rewrite mul64_small; [lia|]. mach. }
  rewrite Hmul. destruct (Z.eqb_spec (2 * bsize c o) 0); [lia|]. simpl. rewrite bsize_S.
  apply Z.mod_divide in Hm as [k Hk]; [|lia].
  destruct (Z.eqb_spec (a `mod` (2 * bsize c o)) 0) as [Hz|Hz].
  - eexists. split; [done|]. rewrite add64_small by mach.
    split_and!; [by left|lia|]. by rewrite Z.min_l by lia.
  - assert (k `mod` 2 = 1) as Hodd.
    { assert (k `mod` 2 ≠ 0) as Hk2; [|pose proof (Z.mod_pos_bound k 2); lia].
      intros Hk2. apply Hz. apply Z.mod_divide in Hk2 as [j ->]; [|lia]. apply Z.mod_divide; [lia|].
      exists j. lia. }
    assert (k = 2 * (k `div` 2) + 1) as Hkk by (pose proof (Z.div_mod k 2); lia).
    assert (0 ≤ k `div` 2) as Hkd by (apply Z.div_pos; [|lia]; nia).
    eexists. split; [done|]. rewrite sub64_small by mach_nl.
    split_and!; [by right|nia|]. rewrite Z.min_r by lia. apply Z.mod_divide; [lia|].
    exists (k `div` 2). nia.
Qed.

Lemma merge_pages a b o :
  0 < bsize c o → b = a + bsize c o ∨ b = a - bsize c o →
  block_pages c (a, o) ++ block_pages c (b, o) ≡ₚ block_pages c (Z.min a b, S o).
Proof.
  intros Hpos [->| ->]; rewrite block_split.
  - by rewrite Z.min_l by lia.
  - rewrite Z.min_r by lia. rewrite Permutation_app_comm. by replace (a - bsize c o + bsize c o) with a by lia.
Qed.
End aligned.

(** ** The loops *)

Section loops.
Context (c : BuddyConfig) (Hc : config_ok c).
Implicit Types fl : list (list Z).

(** The pages on the free lists, and that the blocks there are sound. *)
Definition lists_ok fl : Prop := length fl = max_order c ∧ Forall (block_ok c) (blocks fl).

Lemma lists_ok_push o a fl :
  lists_ok fl → block_ok c (a, o) →
  ∃ fl', push_at o a fl = Some fl' ∧ lists_ok fl' ∧
    pages_of c (blocks fl') ≡ₚ block_pages c (a, o) ++ pages_of c (blocks fl).
Proof.
  intros [Hl Hb] Hok. destruct (push_at_spec o a fl) as (fl' & -> & Hperm & Hlen).
  { rewrite Hl. apply Hok. }
  eexists. split; [done|]. split_and!; [|by rewrite Hperm]. split; [congruence|].
  rewrite Hperm. by constructor.
Qed.

Lemma split_loop_spec a order co fl :
  lists_ok fl → block_ok c (a, co) → (order ≤ co)%nat →
  ∃ fl', split_loop c a order co fl = Some fl' ∧ lists_ok fl' ∧ block_ok c (a, order) ∧
    pages_of c (blocks fl') ++ block_pages c (a, order) ≡ₚ pages_of c (blocks fl) ++ block_pages c (a, co).
Proof.
  intros Hl. revert fl Hl. induction co as [|co IH]; intros fl Hl Hok Hle; simpl.
  { assert (order = 0)%nat as -> by lia. by exists fl. }
  destruct (Nat.ltb_spec order (S co)) as [Hlt|Hge].
  2: { assert (order = S co) as -> by lia. by exists fl. }
  destruct (block_ok_half c Hc a co Hok) as [Hlo Hhi].
  assert (add64 a (block_bytes c co) = a + bsize c co) as ->.
  { rewrite block_bytes_eq by (try done; apply Hlo). apply wrap64_small. destruct Hhi as [_ ? Hend _]. simpl in *.
    destruct (order_bound c Hc co) as [_ ?]; [apply Hlo|]. mach. }
  destruct (lists_ok_push co (a + bsize c co) fl Hl Hhi) as (fl1 & -> & Hl1 & Hp1). simpl.
  destruct (IH fl1 Hl1 Hlo ltac:(lia)) as (fl' & -> & Hl' & Hok' & Hp). exists fl'. split_and!; [done..|].
  rewrite Hp, Hp1, block_split. rewrite (Permutation_app_comm (block_pages c (a, co))).
  rewrite app_assoc. f_equiv. apply Permutation_app_comm.
Qed.

Lemma find_order_spec k fl fo :
  length fl = (fo + k)%nat →
  ∃ r, find_order k fl fo = Some r ∧ (fo ≤ r ≤ fo + k)%nat ∧
    (∀ o, (fo ≤ o < r)%nat → fl !! o = Some []) ∧
    ((r < fo + k)%nat → ∃ l, fl !! r = Some l ∧ l ≠ []).
Proof.
  revert fo. induction k as [|k IH]; intros fo Hl; simpl.
  { exists fo. split_and!; [done|lia|lia|lia|lia]. }
  destruct (lookup_lt_is_Some_2 fl fo) as [l Hfo]; [lia|]. rewrite Hfo. simpl. destruct l as [|x l].
  - destruct (IH (S fo)) as (r & Hr & Hle & Hem & Hne); [lia|]. exists r.
    split_and!; [done|lia|lia| |intros; apply Hne; lia].
    intros o Ho. destruct (decide (o = fo)) as [->|]; [done|]. apply Hem. lia.
  - exists fo. split_and!; [done|lia|lia|lia|]. intros _. by exists (x :: l).
Qed.

Lemma merge_loop_spec k a o fl :
  lists_ok fl → block_ok c (a, o) → (o + k = max_order c - 1)%nat →
  ∃ a' o' fl', merge_loop k c a o fl = Some (a', o', fl') ∧ lists_ok fl' ∧ block_ok c (a', o') ∧
    pages_of c (blocks fl') ++ block_pages c (a', o') ≡ₚ pages_of c (blocks fl) ++ block_pages c (a, o).
Proof.
  revert a o fl. induction k as [|k IH]; intros a o fl Hl Hok Hk; simpl; [by exists a, o, fl|].
  destruct (buddy_of_spec c Hc a o Hok) as (b & -> & Hb & Hb0 & Hal); [lia|]. simpl. destruct Hl as [Hlen Hbl].
  destruct (lookup_lt_is_Some_2 fl o) as [l Hfo]; [lia|]. rewrite Hfo. simpl.
  destruct (position b l) as [pos|] eqn:Hpos; [|by exists a, o, fl].
  pose proof (take_buddy_spec o fl l b pos Hfo Hpos) as Htake.
  rewrite Htake in Hbl. inversion Hbl as [|? ? Hbok Hrest]; subst.
  destruct (order_bound c Hc o) as [_ Hsz]; [apply Hok|].
  destruct (IH (Z.min a b) (S o) (<[o:=swap_remove pos l]> fl)) as (a' & o' & fl' & -> & Hl' & Hok' & Hp).
  - split; [by rewrite length_insert|done].
  - destruct Hok as [Ho Ha He Hm], Hbok as [_ _ He' _]. simpl in *. split; simpl; [lia|lia| |done].
    rewrite bsize_S. lia.
  - lia.
  - exists a', o', fl'. split_and!; [done..|]. rewrite Hp, <-(merge_pages c a b o) by (done || lia).
    rewrite Htake, pages_of_cons. rewrite (Permutation_app_comm (block_pages c (a, o))), app_assoc.
    f_equiv. apply Permutation_app_comm.
Qed.
End loops.

Section regions.
Context (c : BuddyConfig) (Hc : config_ok c).

Lemma bsize_0 : bsize c 0 = page_size c.
Proof. unfold bsize. simpl. lia. Qed.

Lemma pick_order_spec addr rem order :
  (order < max_order c)%nat → 1 ≤ rem → addr `mod` page_size c = 0 →
  ∃ o, pick_order c addr rem order = Some o ∧ (o ≤ order)%nat ∧ 2 ^ Z.of_nat o ≤ rem ∧ addr `mod` bsize c o = 0.
Proof.
  intros Ho Hr Hal. induction order as [|order IH]; cbn [pick_order].
  - destruct (order_bound c Hc 0 Ho) as [_ Hb]. rewrite block_bytes_eq by done. unfold rem64.
    destruct (Z.eqb_spec (bsize c 0) 0); [lia|]. simpl. exists 0%nat. rewrite bsize_0.
    split_and!; [by destruct (_ && _)|lia|simpl; lia|done].
  - destruct (order_bound c Hc (S order) Ho) as [_ Hb]. rewrite block_bytes_eq by done. unfold rem64.
    destruct (Z.eqb_spec (bsize c (S order)) 0); [lia|]. cbn [mbind option_bind].
    rewrite (shl64_1 c) by done. destruct (Z.leb_spec (2 ^ Z.of_nat (S order)) rem); cbn [andb].
    + destruct (Z.eqb_spec (addr `mod` bsize c (S order)) 0); [by exists (S order)|].
      destruct IH as (o & -> & ? & ? & ?); [lia|]. exists o. split_and!; [done|lia|done..].
    + destruct IH as (o & -> & ? & ? & ?); [lia|]. exists o. split_and!; [done|lia|done..].
Qed.

Lemma region_loop_spec fuel addr rem fl :
  lists_ok c fl → 0 ≤ rem ≤ Z.of_nat fuel → 0 ≤ addr → addr `mod` page_size c = 0 →
  addr + rem * page_size c ≤ 2 ^ 63 → rem ≤ U64_MAX →
  ∃ fl', region_loop fuel c addr rem fl = Some fl' ∧ lists_ok c fl' ∧
    pages_of c (blocks fl') ≡ₚ pages_of c (blocks fl) ++ pages_from c addr rem.
Proof.
  revert addr rem fl. induction fuel as [|fuel IH]; intros addr rem fl Hl Hrem Ha Hal Hend Hu; simpl.
  { assert (rem = 0) as -> by lia. exists fl. by rewrite app_nil_r. }
  destruct (Z.eqb_spec rem 0) as [->|Hne]; [exists fl; by rewrite app_nil_r|].
  destruct Hc as (Hmax & Hps & _).
  destruct (pick_order_spec addr rem (max_order c - 1)) as (o & -> & Ho & Hsz & Hm); [lia|lia|done|]. simpl.
  assert (o < max_order c)%nat as Ho' by lia. destruct (order_bound c Hc o Ho') as [_ Hb].
  pose proof (Z.pow_pos_nonneg 2 (Z.of_nat o) ltac:(lia) ltac:(lia)) as Hpow.
  assert (bsize c o ≤ rem * page_size c) as Hle by (unfold bsize; nia).
  destruct (lists_ok_push c o addr fl Hl) as (fl1 & -> & Hl1 & Hp1); [split; simpl; [done|lia|lia|done]|].
  cbn [mbind option_bind]. rewrite block_bytes_eq, (shl64_1 c) by done.
  unfold add64, sub64. rewrite !wrap64_small by mach.
  destruct (IH (addr + bsize c o) (rem - 2 ^ Z.of_nat o) fl1) as (fl' & -> & Hl' & Hp'); [done|lia|lia| | |lia|].
  - unfold bsize. by rewrite Z.mod_add by lia.
  - unfold bsize. lia.
  - exists fl'. split_and!; [done..|]. rewrite Hp', Hp1.
    replace rem with (2 ^ Z.of_nat o + (rem - 2 ^ Z.of_nat o)) at 2 by lia.
    rewrite pages_from_app by lia. unfold block_pages, bsize. cbn [fst snd].
    rewrite app_assoc. f_equiv. apply Permutation_app_comm.
Qed.
End regions.

(** ** The invariant *)

(** [allocated] are the blocks handed out, [region] the pages ever added. *)
Record buddy_inv (al : BuddyAllocator) (allocated : list (Z * nat)) (region : list Z) : Prop := {
  bi_config : config_ok (config al);
  bi_lists : lists_ok (config al) (free al);
  bi_pages : pages_of (config al) (blocks (free al)) ++ pages_of (config al) allocated ≡ₚ region;
  bi_nodup : NoDup region;
  bi_allocated : Forall (block_ok (config al)) allocated;
  bi_free : free_pages al = Z.of_nat (length (pages_of (config al) (blocks (free al))));
  bi_total : total_pages al = Z.of_nat (length region);
  bi_fits : Z.of_nat (length region) ≤ U64_MAX;
}.

Lemma blocks_empty n : blocks (replicate n []) = [].
Proof.
  unfold blocks. assert (∀ f : nat → list Z → list (Z * nat), (∀ i, f i [] = []) →
    concat (imap f (replicate n [])) = []) as He.
  { induction n as [|n IH]; intros f Hf; [done|]. cbn [replicate]. rewrite imap_cons, concat_cons, Hf.
    apply IH. intros i. apply Hf. }
  by apply He.
Qed.

Lemma new_inv c : config_ok c → buddy_inv (BuddyAllocator_new c) [] [].
Proof.
  intros Hc. split; simpl; rewrite ?blocks_empty; try done; [|apply NoDup_nil_2].
  split; [by rewrite length_replicate|]. by rewrite blocks_empty.
Qed.

Lemma add_region_inv al allocated region base pages :
  buddy_inv al allocated region → 0 ≤ base → 0 ≤ pages → base `mod` page_size (config al) = 0 →
  base + pages * page_size (config al) ≤ 2 ^ 63 →
  (∀ x, x ∈ pages_from (config al) base pages → ¬ (x ∈ region)) →
  Z.of_nat (length region) + pages ≤ U64_MAX →
  ∃ al', add_region base pages al = Some al' ∧
    buddy_inv al' allocated (region ++ pages_from (config al) base pages).
Proof.
  intros [Hc Hl Hp Hnd Ha Hf Ht Hfit] Hb Hpg Hal Hend Hdis Hu. unfold add_region.
  destruct (region_loop_spec (config al) Hc (Z.to_nat pages) base pages (free al)) as (fl & -> & Hl' & Hp');
    [done|lia|done|done|done|lia|].
  cbn [mbind option_bind]. eexists. split; [done|].
  assert (length (pages_from (config al) base pages) = Z.to_nat pages) as Hlen
    by (unfold pages_from; by rewrite length_fmap, length_seqZ).
  assert (Z.of_nat (length (pages_of (config al) (blocks (free al)))) ≤ Z.of_nat (length region)) as Hle
    by (rewrite <-Hp, length_app; lia).
  split; simpl; try done.
  - rewrite Hp', <-Hp, <-!app_assoc. f_equiv. apply Permutation_app_comm.
  - apply NoDup_app. split_and!; [done|set_solver|]. unfold pages_from. apply NoDup_fmap_2_strong.
    + destruct Hc as (_ & ? & _). intros x y _ _ Hxy. nia.
    + apply NoDup_seqZ.
  - rewrite Hp', length_app, Hlen, Hf. autorewrite with machine. lia.
  - rewrite length_app, Hlen, Ht. autorewrite with machine. lia.
  - rewrite length_app, Hlen. lia.
Qed.

#[local] Arguments pages_of : simpl never.
#[local] Arguments block_pages : simpl never.

Lemma length_pages_cons c b bs :
  Z.of_nat (length (pages_of c (b :: bs))) = 2 ^ Z.of_nat b.2 + Z.of_nat (length (pages_of c bs)).
Proof. rewrite pages_of_cons, length_app, Nat2Z.inj_add, length_block_pages. done. Qed.

(** [alloc] never panics: it hands out a block, or fails with all lists from the
    order up empty. *)
Lemma alloc_inv al allocated region order :
  buddy_inv al allocated region →
  ∃ al' r, alloc order al = Some (al', r) ∧
    match r with
    | Ok a => buddy_inv al' ((a, order) :: allocated) region
    | Err e => al' = al ∧ (e = InvalidOrder order (max_order (config al) - 1) ∧ (max_order (config al) ≤ order)%nat ∨
        e = AllocationFailed order ∧ ∀ a o, (a, o) ∈ blocks (free al) → (o < order)%nat)
    end.
Proof.
  intros [Hc Hl Hp Hnd Ha Hf Ht Hfit]. unfold alloc. set (c := config al) in *.
  destruct (Nat.leb_spec (max_order c) order) as [Hge|Hlt].
  { do 2 eexists. split; [done|]. split; [done|]. by left. }
  destruct (find_order_spec (max_order c - order) (free al) order) as (fo & -> & Hfo & Hem & Hne);
    [destruct Hl; lia|]. cbn [mbind option_bind].
  destruct (Nat.leb_spec (max_order c) fo) as [Hfail|Hfo'].
  { do 2 eexists. split; [done|]. split; [done|right]. split; [done|]. intros a o (l & Hlo & Hin)%elem_of_blocks.
    destruct (Nat.lt_ge_cases o order) as [|Hge]; [done|exfalso].
    pose proof (lookup_lt_Some _ _ _ Hlo) as Hol. destruct Hl as [Hll _].
    rewrite (Hem o) in Hlo by lia. injection Hlo as <-. set_solver. }
  destruct Hne as (l & Hlf & Hl0); [lia|].
  destruct (pop_at_spec fo (free al) l Hlf Hl0) as (a & fl & -> & Hpop & Hlen). cbn [mbind option_bind].
  destruct Hl as [Hll Hbl]. rewrite Hpop in Hbl. inversion Hbl as [|? ? Hbok Hrest]; subst.
  destruct (split_loop_spec c Hc a order fo fl) as (fl' & -> & Hl' & Hok & Hsp); [split; [congruence|done]|done|lia|].
  cbn [mbind option_bind]. do 2 eexists. split; [done|]. cbn beta iota.
  assert (pages_of c (blocks fl') ++ block_pages c (a, order) ≡ₚ pages_of c (blocks (free al))) as Hsame.
  { rewrite Hsp, Hpop, pages_of_cons. apply Permutation_app_comm. }
  assert (Z.of_nat (length (pages_of c (blocks (free al)))) =
    Z.of_nat (length (pages_of c (blocks fl'))) + 2 ^ Z.of_nat order) as Hcount.
  { rewrite <-Hsame, length_app, Nat2Z.inj_add, length_block_pages. done. }
  assert (Z.of_nat (length (pages_of c (blocks (free al)))) ≤ Z.of_nat (length region)) as Hle
    by (rewrite <-Hp, length_app; lia).
  split; simpl; fold c; try done.
  - rewrite pages_of_cons, app_assoc, Hsame. done.
  - by constructor.
  - rewrite Hf, (shl64_1 c) by done. rewrite sub64_small; [lia|]. unfold u64_ok.
    pose proof (Z.pow_pos_nonneg 2 (Z.of_nat order)). lia.
Qed.

(** Releasing a block that is out never panics and never fails. *)
Lemma free_inv al allocated region a o :
  buddy_inv al ((a, o) :: allocated) region →
  ∃ al', free_block a o al = Some (al', Ok tt) ∧ buddy_inv al' allocated region.
Proof.
  intros [Hc Hl Hp Hnd Ha Hf Ht Hfit]. unfold free_block. set (c := config al) in *.
  inversion Ha as [|? ? Hok Hrest]; subst. pose proof (bo_order _ _ Hok) as Ho. simpl in Ho.
  destruct (Nat.leb_spec (max_order c) o) as [|_]; [lia|].
  destruct Hc as (Hm & Hps & Hsz) eqn:HcE. clear HcE. pose proof (conj Hm (conj Hps Hsz) : config_ok c) as Hc'.
  unfold rem64. destruct (Z.eqb_spec (page_size c) 0); [lia|]. cbn [mbind option_bind].
  assert (a `mod` page_size c = 0) as Hal.
  { pose proof (bo_aligned _ _ Hok) as Hal. simpl in Hal. destruct (order_bound c Hc' o Ho) as [_ Hb].
    apply Z.mod_divide in Hal as [k Hk]; [|lia]. apply Z.mod_divide; [lia|].
    exists (k * 2 ^ Z.of_nat o). unfold bsize in Hk. lia. }
  rewrite Hal. cbn [Z.eqb negb].
  destruct (merge_loop_spec c Hc' (max_order c - 1 - o) a o (free al))
    as (a' & o' & fl & -> & Hl' & Hok' & Hmg); [done|done|lia|]. cbn [mbind option_bind].
  assert (pages_of c (blocks fl) ++ block_pages c (a', o') ++ pages_of c allocated ≡ₚ region) as Hp'.
  { rewrite app_assoc, Hmg, <-Hp, pages_of_cons, <-app_assoc. done. }
  destruct (lookup_lt_is_Some_2 fl o') as [l Hlo]; [destruct Hl' as [-> _]; apply Hok'|]. rewrite Hlo.
  cbn [mbind option_bind]. rewrite bool_decide_eq_false_2.
  2: { intros Hin. rewrite <-Hp' in Hnd. apply NoDup_app in Hnd as (_ & Hdis & _). apply (Hdis a').
       - unfold pages_of. apply list_elem_of_bind. exists (a', o'). split; [apply (block_pages_head c (a', o'))|].
         apply elem_of_blocks. by exists l.
       - apply elem_of_app. left. apply (block_pages_head c (a', o')). }
  destruct (lists_ok_push c o' a' fl Hl' Hok') as (fl' & -> & Hl'' & Hp''). cbn [mbind option_bind].
  eexists. split; [done|].
  assert (pages_of c (blocks fl') ≡ₚ pages_of c (blocks (free al)) ++ block_pages c (a, o)) as Hsame.
  { rewrite Hp'', Permutation_app_comm. done. }
  assert (Z.of_nat (length (pages_of c (blocks fl'))) ≤ Z.of_nat (length region)) as Hle.
  { rewrite <-Hp, Hsame, pages_of_cons, !length_app. lia. }
  split; simpl; fold c; try done.
  - rewrite Hsame, <-app_assoc. by rewrite pages_of_cons in Hp.
  - pose proof (length_block_pages c (a, o)) as Hbl. simpl in Hbl.
    rewrite Hsame, length_app, Nat2Z.inj_add, Hbl in Hle |- *. rewrite Hf, (shl64_1 c) by done.
    rewrite add64_small; [done|]. unfold u64_ok.
    pose proof (Z.pow_pos_nonneg 2 (Z.of_nat o)). lia.
Qed.

(** ** Runs *)

(** An allocator in use: page-aligned regions apart from each other are added, blocks
    handed out and given back with their order, once; other addresses and orders that
    free refuses may be passed too. *)
Inductive buddy_run : BuddyAllocator → list (Z * nat) → list Z → Prop :=
| run_new c : config_ok c → buddy_run (BuddyAllocator_new c) [] []
| run_add al allocated region base pages al' :
    buddy_run al allocated region → 0 ≤ base → 0 ≤ pages → base `mod` page_size (config al) = 0 →
    base + pages * page_size (config al) ≤ 2 ^ 63 →
    (∀ x, x ∈ pages_from (config al) base pages → ¬ (x ∈ region)) →
    Z.of_nat (length region) + pages ≤ U64_MAX →
    add_region base pages al = Some al' →
    buddy_run al' allocated (region ++ pages_from (config al) base pages)
| run_alloc al allocated region order al' a :
    buddy_run al allocated region → alloc order al = Some (al', Ok a) →
    buddy_run al' ((a, order) :: allocated) region
| run_alloc_fails al allocated region order al' e :
    buddy_run al allocated region → alloc order al = Some (al', Err e) → buddy_run al' allocated region
| run_free al allocated rest region a o al' r :
    buddy_run al allocated region → allocated ≡ₚ (a, o) :: rest → free_block a o al = Some (al', r) →
    buddy_run al' rest region
| run_free_refused al allocated region a o al' r :
    buddy_run al allocated region → (max_order (config al) ≤ o)%nat ∨ a `mod` page_size (config al) ≠ 0 →
    free_block a o al = Some (al', r) → buddy_run al' allocated region.

Lemma free_refused al a o al' r :
  (max_order (config al) ≤ o)%nat ∨ a `mod` page_size (config al) ≠ 0 →
  free_block a o al = Some (al', r) → al' = al ∧ ∃ e, r = Err e.
Proof.
  intros Hbad. unfold free_block, rem64. destruct (Nat.leb_spec (max_order (config al)) o) as [|Ho].
  { intros [= <- <-]. eauto. }
  destruct Hbad as [?|Hbad]; [lia|]. destruct (page_size (config al) =? 0); [done|]. simpl.
  destruct (Z.eqb_spec (a `mod` page_size (config al)) 0); [done|]. intros [= <- <-]. eauto.
Qed.

Lemma buddy_inv_perm al allocated allocated' region :
  allocated ≡ₚ allocated' → buddy_inv al allocated region → buddy_inv al allocated' region.
Proof. intros Hperm []. split; try done; by rewrite <-Hperm. Qed.

Lemma buddy_run_inv al allocated region : buddy_run al allocated region → buddy_inv al allocated region.
Proof.
  induction 1 as [c Hc|al allocated region base pages al' _ IH Hb Hp Hal Hend Hdis Hu Hadd
    |al allocated region order al' a _ IH Hal|al allocated region order al' e _ IH Hal
    |al allocated rest region a o al' r _ IH Hperm Hf|al allocated region a o al' r _ IH Hbad Hf].
  - by apply new_inv.
  - destruct (add_region_inv al allocated region base pages IH) as (al'' & Heq & ?); [done..|]. congruence.
  - destruct (alloc_inv al allocated region order IH) as (al'' & r & Heq & Hr).
    rewrite Hal in Heq. by injection Heq as <- <-.
  - destruct (alloc_inv al allocated region order IH) as (al'' & r & Heq & Hr).
    rewrite Hal in Heq. injection Heq as <- <-. by destruct Hr as [-> _].
  - apply (buddy_inv_perm _ _ _ _ Hperm) in IH. destruct (free_inv _ _ _ _ _ IH) as (al'' & Heq & ?). congruence.
  - by destruct (free_refused _ _ _ _ _ Hbad Hf) as [-> _].
Qed.


(** ** Any calls *)

Inductive buddy_call := CallAdd (base pages : Z) | CallAlloc (order : nat) | CallFree (addr : Z) (order : nat) | CallReset.

Definition buddy_apply (x : buddy_call) (al : BuddyAllocator) : option BuddyAllocator :=
  match x with
  | CallAdd base pages => add_region base pages al
  | CallAlloc order => fst <$> alloc order al
  | CallFree a o => fst <$> free_block a o al
  | CallReset => Some (reset al)
  end.

Fixpoint buddy_calls (l : list buddy_call) (al : BuddyAllocator) : option BuddyAllocator :=
  match l with [] => Some al | x :: l => al ← buddy_apply x al; buddy_calls l al end.

Section no_panic.
Context (c : BuddyConfig) (Hc : config_ok c).

Lemma block_bytes_pos o : (o < max_order c)%nat → block_bytes c o ≠ 0 ∧ mul64 (block_bytes c o) 2 ≠ 0.
Proof.
  intros Ho. rewrite block_bytes_eq by done. destruct (order_bound c Hc o Ho) as [_ Hb].
  unfold mul64. rewrite wrap64_small by mach. lia.
Qed.

Lemma push_at_some o a fl : (o < length fl)%nat → ∃ fl', push_at o a fl = Some fl' ∧ length fl' = length fl.
Proof.
  intros Ho. unfold push_at. destruct (lookup_lt_is_Some_2 fl o Ho) as [l ->]. simpl.
  eexists. split; [done|]. by rewrite length_insert.
Qed.

Lemma pick_order_some addr rem o :
  (o < max_order c)%nat → ∃ o', pick_order c addr rem o = Some o' ∧ (o' ≤ o)%nat.
Proof.
  induction o as [|o IH]; intros Ho; cbn [pick_order]; unfold rem64;
    destruct (block_bytes_pos _ Ho) as [Hb _]; rewrite (proj2 (Z.eqb_neq _ _) Hb); simpl;
    (destruct (_ && _); [by eauto|]); [by eauto|].
  destruct IH as (o' & -> & ?); [lia|]. eauto.
Qed.

Lemma region_loop_some fuel addr rem fl :
  length fl = max_order c → ∃ fl', region_loop fuel c addr rem fl = Some fl' ∧ length fl' = max_order c.
Proof.
  revert addr rem fl. induction fuel as [|fuel IH]; intros addr rem fl Hl; cbn [region_loop]; [by eauto|].
  destruct (rem =? 0); [by eauto|]. destruct Hc as (Hm & _).
  destruct (pick_order_some addr rem (max_order c - 1)) as (o & -> & Ho); [lia|]. simpl.
  destruct (push_at_some o addr fl) as (fl' & -> & Hl'); [lia|]. apply IH. congruence.
Qed.

Lemma find_order_some k fl fo :
  (fo + k = length fl)%nat →
  ∃ fo', find_order k fl fo = Some fo' ∧ (fo ≤ fo' ≤ length fl)%nat ∧
    ((fo' < length fl)%nat → ∃ a l, fl !! fo' = Some (a :: l)).
Proof.
  revert fo. induction k as [|k IH]; intros fo Hk; cbn [find_order]; [exists fo; split_and!; [done|lia..]|].
  destruct (lookup_lt_is_Some_2 fl fo) as [[|a l] E]; [lia| |]; rewrite E; simpl.
  - destruct (IH (S fo)) as (fo' & -> & ? & ?); [lia|]. exists fo'. split_and!; [done|lia..|done].
  - exists fo. split_and!; [done|lia..|by eauto].
Qed.

Lemma pop_at_some fo fl a l :
  fl !! fo = Some (a :: l) → ∃ z fl', pop_at fo fl = Some (z, fl') ∧ length fl' = length fl.
Proof.
  intros E.
  assert (pop_at fo fl = (z ← last (a :: l); Some (z, <[fo:=removelast (a :: l)]> fl))) as -> by (unfold pop_at; by rewrite E).
  destruct (last (a :: l)) as [z|] eqn:El; [|by apply last_None in El].
  do 2 eexists. split; [done|]. apply length_insert.
Qed.

Lemma split_loop_some addr order co fl :
  (co < length fl)%nat → ∃ fl', split_loop c addr order co fl = Some fl' ∧ length fl' = length fl.
Proof.
  revert fl. induction co as [|co IH]; intros fl Hco; cbn [split_loop]; [by eauto|].
  destruct (_ <? _)%nat; [|by eauto].
  destruct (push_at_some co (add64 addr (block_bytes c co)) fl) as (fl' & -> & Hl'); [lia|]. simpl.
  rewrite <-Hl'. apply IH. lia.
Qed.

Lemma merge_loop_some k a o fl :
  (o + k < max_order c)%nat → length fl = max_order c →
  ∃ a' o' fl', merge_loop k c a o fl = Some (a', o', fl') ∧ (o' < max_order c)%nat ∧ length fl' = max_order c.
Proof.
  revert a o fl. induction k as [|k IH]; intros a o fl Hk Hl; cbn [merge_loop].
  { do 3 eexists. split_and!; [done|lia|done]. }
  unfold buddy_of, rem64. destruct (block_bytes_pos o) as [_ Hb]; [lia|].
  rewrite (proj2 (Z.eqb_neq _ _) Hb). simpl. set (buddy := if _ =? 0 then _ else _).
  destruct (lookup_lt_is_Some_2 fl o) as [l ->]; [lia|]. simpl.
  destruct (position buddy l); [apply IH; rewrite ?length_insert; lia|].
  do 3 eexists. split_and!; [done|lia|done].
Qed.

Lemma buddy_apply_some x al :
  config al = c → length (free al) = max_order c →
  ∃ al', buddy_apply x al = Some al' ∧ config al' = c ∧ length (free al') = max_order c.
Proof.
  intros Hcf Hl. destruct x as [base pages|order|a o|]; simpl; unfold add_region, alloc, free_block; rewrite ?Hcf.
  - destruct (region_loop_some (Z.to_nat pages) base pages (free al) Hl) as (fl & -> & ?). simpl. by eexists.
  - destruct (Nat.leb_spec (max_order c) order); [by eexists|].
    destruct (find_order_some (max_order c - order) (free al) order) as (fo & -> & Hfo & Hne); [lia|]. simpl.
    destruct (Nat.leb_spec (max_order c) fo); [by eexists|].
    destruct Hne as (b & l & E); [lia|]. destruct (pop_at_some fo (free al) b l E) as (z & fl1 & -> & Hl1). simpl.
    destruct (split_loop_some z order fo fl1) as (fl & -> & Hfl); [lia|].
    eexists. split_and!; [done..|]. simpl. congruence.
  - destruct (Nat.leb_spec (max_order c) o); [by eexists|].
    destruct Hc as (_ & Hps & _). unfold rem64. destruct (Z.eqb_spec (page_size c) 0); [lia|]. cbn [mbind option_bind].
    destruct (Z.eqb_spec (a `mod` page_size c) 0); cbn [negb]; [|by eexists].
    destruct (merge_loop_some (max_order c - 1 - o) a o (free al)) as (a' & o' & fl & -> & ? & Hfl); [lia|done|]. cbn [mbind option_bind].
    destruct (lookup_lt_is_Some_2 fl o') as [l ->]; [lia|]. cbn [mbind option_bind].
    destruct (bool_decide (a' ∈ l)); [by eexists|].
    destruct (push_at_some o' a' fl) as (fl' & -> & Hl'); [lia|]. simpl. eexists. split_and!; [done..|]. simpl. congruence.
  - eexists. split_and!; [done..|]. simpl. by rewrite length_fmap.
Qed.

Lemma buddy_calls_some l al : config al = c → length (free al) = max_order c → is_Some (buddy_calls l al).
Proof.
  revert al. induction l as [|x l IH]; intros al Hcf Hl; simpl; [by eexists|].
  destruct (buddy_apply_some x al Hcf Hl) as (al' & -> & ? & ?). by apply IH.
Qed.
End no_panic.


(** ** What the allocator does not catch *)

Definition ex_config : BuddyConfig := mkBuddyConfig 3 4096 true false.

(** Run [f] if the last step did not panic. *)
Definition then_free (a : Z) (o : nat) (r : option BuddyAllocator) : option BuddyAllocator :=
  al ← r; '(al, _) ← free_block a o al; Some al.

Definition two_pages_out : option BuddyAllocator :=
  al ← add_region 0x2000 2 (BuddyAllocator_new ex_config); '(al, _) ← alloc 1 al; Some al.

(** A second release is caught only while the block is on a list by itself. Of
    two buddy pages released one after the other, the second release merges them;
    releasing the first again is then accepted, the page is on the lists twice,
    and two later allocations hand out the same memory. *)
Lemma merged_double_free_accepted :
  let r := then_free 0x3000 0 (then_free 0x2000 0 two_pages_out) in
  (free <$> r) = Some [[]; [0x2000]; []] ∧
  match r with
  | Some al =>
    match free_block 0x2000 0 al with
    | Some (al, r1) =>
      r1 = Ok tt ∧
      match alloc 0 al with
      | Some (al, r2) => r2 = Ok 0x2000 ∧ option_map snd (alloc 1 al) = Some (Ok 0x2000)
      | None => False
      end
    | None => False
    end
  | None => False
  end.
Proof. by vm_compute. Qed.

(** A region is cut by alignment: 1024 pages from [0x1000] on make no block of
    order 10, and eight pages none of order 3. *)
Lemma unaligned_region_orders :
  option_map largest_free_order (add_region 0x1000 1024 (BuddyAllocator_new BuddyConfig_default)) = Some (Some 9%nat) ∧
  option_map free_list_count (add_region 0x1000 1024 (BuddyAllocator_new BuddyConfig_default)) = Some 10 ∧
  option_map largest_free_order (add_region 0x1000 8 (BuddyAllocator_new BuddyConfig_default)) = Some (Some 2%nat).
Proof. by vm_compute. Qed.

(** ** Witnesses *)

Definition ex_buddy0 : BuddyAllocator :=
  default (BuddyAllocator_new ex_config) (add_region 0x1000 8 (BuddyAllocator_new ex_config)).

Definition ex_buddy : BuddyAllocator :=
  match alloc 1 ex_buddy0 with Some (al, _) => al | None => ex_buddy0 end.

Lemma ex_buddy_run : buddy_run ex_buddy [(0x2000, 1%nat)] (pages_from ex_config 0x1000 8).
Proof.
  apply (run_alloc ex_buddy0 [] (pages_from ex_config 0x1000 8) 1); [|vm_compute; reflexivity].
  apply (run_add (BuddyAllocator_new ex_config) [] [] 0x1000 8);
    [|lia|lia|reflexivity|vm_compute; discriminate| |vm_compute; discriminate|vm_compute; reflexivity].
  - apply run_new. split; [simpl; lia|]. split; [simpl; lia|]. vm_compute. discriminate.
  - intros x _ Hx. by apply elem_of_nil in Hx.
Qed.


Lemma ex_config_ok : config_ok ex_config.
Proof. split; [simpl; lia|]. split; [simpl; lia|]. vm_compute. discriminate. Qed.

