(* ===== verification/FrameAlloc.v ===== *)
(** * The physical frame allocator ([src/src/memory/frame_alloc.rs]).

    A bitmap with one bit per frame (set: in use), a search hint, and the
    reference counts of copy-on-write sharing, which are off until the kernel
    heap is up. The statics [REFCOUNTS] and [HEAP_READY] are part of the state of
    the one global allocator. Every call holds the bitmap's lock, or the
    counts' lock ([inc_ref]), for as long as it touches that state, so calls are
    atomic steps. A memory region of the boot loader is its bounds and whether it
    is usable; a [PhysFrame] is its start address. The legacy functions at the end
    of the source call these operations on the global allocator and drop the
    errors. *)

From Stdlib Require Import ZArith Lia Bool.
From stdpp Require Import base gmap sets list strings gmultiset relations.
From S2P Require Import Prelude.

Local Open Scope Z_scope.

(** ** Constants, configuration, errors *)

Definition PAGE_SIZE : Z := 4096.
Definition MAX_FRAMES : Z := (2 * 1024 * 1024 * 1024) `div` PAGE_SIZE.
Definition BITMAP_SIZE : Z := MAX_FRAMES `div` 64.
Definition DEFAULT_MAX_FRAMES : Z := MAX_FRAMES.

Record FrameConfig := mkFrameConfig {
  fc_max_frames : Z;
  enable_refcounting : bool;
  collect_metrics : bool;
  log_allocations : bool;
  log_frees : bool;
  reserve_first_mib : bool;
}.

Definition FrameConfig_default : FrameConfig :=
  mkFrameConfig DEFAULT_MAX_FRAMES true true false false true.

Definition FrameConfig_validate (c : FrameConfig) : result unit string :=
  if fc_max_frames c =? 0 then Err "max_frames must be > 0"%string else Ok tt.

Record PhysFrame := mkPhysFrame { start_address : Z }.

Inductive FrameError :=
| OutOfFrames
| InvalidFrameIndex (index max : Z)
| AlreadyFree
| RefcountUnderflow (frame : PhysFrame)
| NotInitialised
| FrameConfigError (s : string).

(** [PhysFrame::containing_address(PhysAddr::new(idx * PAGE_SIZE))]. *)
Definition phys_frame_from_index (idx : Z) : PhysFrame :=
  let a := mul64 idx PAGE_SIZE in mkPhysFrame (a - a `mod` PAGE_SIZE).

Definition phys_frame_to_index (f : PhysFrame) : Z := start_address f `div` PAGE_SIZE.

Definition frame_to_word_bit (frame : Z) : Z * Z := (frame `div` 64, frame `mod` 64).

(** ** The bitmap *)

Record RawBitmapAllocator := mkRawBitmap {
  bitmap : list Z;
  next_hint : Z;
  total_frames : Z;
  used_frames : Z;
  max_frames : Z;
  phys_offset : Z;
}.

#[export] Instance eta_RawBitmapAllocator : Settable RawBitmapAllocator :=
  λ a, mkRawBitmap (bitmap a) (next_hint a) (total_frames a) (used_frames a) (max_frames a) (phys_offset a).

Definition RawBitmapAllocator_new : RawBitmapAllocator :=
  mkRawBitmap (replicate (Z.to_nat BITMAP_SIZE) 0) 0 0 0 MAX_FRAMES 0.

Definition with_max_frames (n : Z) : RawBitmapAllocator :=
  RawBitmapAllocator_new <| max_frames := Z.min n MAX_FRAMES |>.

(** [!x] on a [u64]. *)
Definition not64 (x : Z) : Z := wrap64 (Z.lnot x).

Definition mark_free (frame : Z) (a : RawBitmapAllocator) : RawBitmapAllocator :=
  if max_frames a <=? frame then a
  else
    let '(word, bit) := frame_to_word_bit frame in
    if word <? BITMAP_SIZE
    then a <| bitmap := alter (λ w, Z.land w (not64 (Z.shiftl 1 bit))) (Z.to_nat word) (bitmap a) |>
    else a.

Definition mark_used (frame : Z) (a : RawBitmapAllocator) : RawBitmapAllocator :=
  if max_frames a <=? frame then a
  else
    let '(word, bit) := frame_to_word_bit frame in
    if word <? BITMAP_SIZE
    then a <| bitmap := alter (λ w, Z.lor w (Z.shiftl 1 bit)) (Z.to_nat word) (bitmap a) |>
    else a.

Definition is_free (a : RawBitmapAllocator) (frame : Z) : bool :=
  if max_frames a <=? frame then false
  else
    let '(word, bit) := frame_to_word_bit frame in
    (word <? BITMAP_SIZE) &&
    (Z.land (Z.shiftr (default 0 (bitmap a !! Z.to_nat word)) bit) 1 =? 0).

Record MemoryRegion := mkMemoryRegion {
  region_start : Z;
  region_end : Z;
  usable : bool;
}.

(** The frames of a usable region, [frame_start..frame_end]. *)
Definition region_frames (r : MemoryRegion) : list Z :=
  let s := region_start r `div` PAGE_SIZE in
  seqZ s (region_end r `div` PAGE_SIZE - s).

(** The loop body over the frames of a region: the allocator and the running total. *)
Definition add_frame (st : RawBitmapAllocator * Z) (i : Z) : RawBitmapAllocator * Z :=
  if i <? max_frames st.1 then (mark_free i st.1, add64 st.2 1) else st.

Definition add_memory_region (st : RawBitmapAllocator * Z) (r : MemoryRegion) : RawBitmapAllocator * Z :=
  if usable r then foldl add_frame st (region_frames r) else st.

Definition RawBitmapAllocator_init (off : Z) (regions : list MemoryRegion) (c : FrameConfig)
    (a : RawBitmapAllocator) : RawBitmapAllocator :=
  let a := a <| phys_offset := off |> <| bitmap := (λ _, U64_MAX) <$> bitmap a |> in
  let '(a, total) := foldl add_memory_region (a, 0) regions in
  let a := if reserve_first_mib c
           then foldl (λ a i, if i <? max_frames a then mark_used i a else a) a
                  (seqZ 0 (0x100000 `div` PAGE_SIZE))
           else a in
  a <| total_frames := total |> <| next_hint := if reserve_first_mib c then 256 else 0 |>.

(** The first free frame among [n] from [i] on. *)
Fixpoint find_free (a : RawBitmapAllocator) (i : Z) (n : nat) : option Z :=
  match n with
  | O => None
  | S n' => if is_free a i then Some i else find_free a (i + 1) n'
  end.

(** The body of the two loops of [alloc_frame] for the frame found. *)
Definition take_frame (i : Z) (a : RawBitmapAllocator) : RawBitmapAllocator :=
  (mark_used i a) <| used_frames := add64 (used_frames a) 1 |> <| next_hint := add64 i 1 |>.

Definition alloc_frame (a : RawBitmapAllocator) : RawBitmapAllocator * option PhysFrame :=
  match find_free a (next_hint a) (Z.to_nat (total_frames a - next_hint a)) with
  | Some i => (take_frame i a, Some (phys_frame_from_index i))
  | None =>
    match find_free a 0 (Z.to_nat (next_hint a)) with
    | Some i => (take_frame i a, Some (phys_frame_from_index i))
    | None => (a, None)
    end
  end.

Definition raw_free_frame (f : PhysFrame) (a : RawBitmapAllocator) : RawBitmapAllocator :=
  let idx := phys_frame_to_index f in
  if idx <? max_frames a then
    let a := (mark_free idx a) <| used_frames := sat_sub (used_frames a) 1 |> in
    if idx <? next_hint a then a <| next_hint := idx |> else a
  else a.

Definition free_frames (a : RawBitmapAllocator) : Z := sat_sub (total_frames a) (used_frames a).

Definition raw_reset (a : RawBitmapAllocator) : RawBitmapAllocator :=
  a <| bitmap := (λ _, U64_MAX) <$> bitmap a |> <| total_frames := 0 |> <| used_frames := 0 |>
    <| next_hint := 0 |>.

(** ** The allocator with reference counts *)

Record FrameMetrics := mkFrameMetrics {
  allocations : Z;
  frees : Z;
  allocation_failures : Z;
  refcount_incs : Z;
  refcount_decs : Z;
  oom_events : Z;
  m_total_frames : Z;
  m_free_frames : Z;
}.

#[export] Instance eta_FrameMetrics : Settable FrameMetrics :=
  λ m, mkFrameMetrics (allocations m) (frees m) (allocation_failures m) (refcount_incs m)
         (refcount_decs m) (oom_events m) (m_total_frames m) (m_free_frames m).

Record FrameAllocator := mkFrameAllocator {
  raw : RawBitmapAllocator;
  config : FrameConfig;
  metrics : FrameMetrics;
  initialised : bool;
  REFCOUNTS : list Z;
  HEAP_READY : bool;
}.

#[export] Instance eta_FrameAllocator : Settable FrameAllocator :=
  λ a, mkFrameAllocator (raw a) (config a) (metrics a) (initialised a) (REFCOUNTS a) (HEAP_READY a).

Definition metric (f : FrameMetrics → FrameMetrics) (a : FrameAllocator) : FrameAllocator :=
  a <| metrics := f (metrics a) |>.

Definition inc_alloc (m : FrameMetrics) := m <| allocations := add64 (allocations m) 1 |>.
Definition inc_free (m : FrameMetrics) := m <| frees := add64 (frees m) 1 |>.
Definition inc_alloc_failure (m : FrameMetrics) :=
  m <| allocation_failures := add64 (allocation_failures m) 1 |>.
Definition inc_refcount_inc (m : FrameMetrics) := m <| refcount_incs := add64 (refcount_incs m) 1 |>.
Definition inc_oom (m : FrameMetrics) := m <| oom_events := add64 (oom_events m) 1 |>.

(** Panics on an invalid configuration. *)
Definition FrameAllocator_new (c : FrameConfig) : option FrameAllocator :=
  match FrameConfig_validate c with
  | Ok _ => Some (mkFrameAllocator (with_max_frames (fc_max_frames c)) c
                    (mkFrameMetrics 0 0 0 0 0 0 0 0) false [] false)
  | Err _ => None
  end.

Definition FrameAllocator_init (off : Z) (regions : list MemoryRegion) (a : FrameAllocator) :
    FrameAllocator :=
  let r := RawBitmapAllocator_init off regions (config a) (raw a) in
  metric (λ m, m <| m_total_frames := total_frames r |>
                 <| m_free_frames := sub64 (total_frames r) (used_frames r) |>)
    (a <| raw := r |> <| initialised := true |>).

Definition mark_heap_ready (a : FrameAllocator) : FrameAllocator :=
  a <| REFCOUNTS := replicate (Z.to_nat (Z.min (max_frames (raw a)) MAX_FRAMES)) 0 |>
    <| HEAP_READY := true |>.

Definition rc_len (a : FrameAllocator) : Z := Z.of_nat (length (REFCOUNTS a)).

Definition rc_get (a : FrameAllocator) (idx : Z) : Z := default 0 (REFCOUNTS a !! Z.to_nat idx).

Definition rc_set (idx v : Z) (a : FrameAllocator) : FrameAllocator :=
  a <| REFCOUNTS := <[Z.to_nat idx := v]> (REFCOUNTS a) |>.

Definition allocate_one (a : FrameAllocator) : FrameAllocator * result PhysFrame FrameError :=
  if negb (initialised a) then (a, Err NotInitialised)
  else
    let '(r, found) := alloc_frame (raw a) in
    let a := a <| raw := r |> in
    match found with
    | None => (metric (λ m, inc_oom (inc_alloc_failure m)) a, Err OutOfFrames)
    | Some f =>
      let a := metric inc_alloc a in
      let idx := phys_frame_to_index f in
      if HEAP_READY a && (idx <? rc_len a)
      then (metric inc_refcount_inc (rc_set idx 1 a), Ok f)
      else (a, Ok f)
    end.

Definition refcount_inc_ref (f : PhysFrame) (a : FrameAllocator) : FrameAllocator * result unit FrameError :=
  if negb (HEAP_READY a) then (a, Ok tt)
  else
    let idx := phys_frame_to_index f in
    if rc_len a <=? idx then (a, Err (InvalidFrameIndex idx (rc_len a)))
    else (rc_set idx (wrap32 (rc_get a idx + 1)) a, Ok tt).

Definition inc_ref (f : PhysFrame) (a : FrameAllocator) : FrameAllocator * result unit FrameError :=
  match refcount_inc_ref f a with
  | (a, Ok _) => (metric inc_refcount_inc a, Ok tt)
  | (a, Err e) => (a, Err e)
  end.

Definition dec_ref (f : PhysFrame) (a : FrameAllocator) : FrameAllocator * result unit FrameError :=
  let release (a : FrameAllocator) := a <| raw := raw_free_frame f (raw a) |> in
  if negb (HEAP_READY a) then (release a, Ok tt)
  else
    let idx := phys_frame_to_index f in
    if rc_len a <=? idx then (a, Err (InvalidFrameIndex idx (rc_len a)))
    else if rc_get a idx =? 0 then (a, Err (RefcountUnderflow f))
    else
      let a := rc_set idx (rc_get a idx - 1) a in
      (if rc_get a idx =? 0 then release a else a, Ok tt).

Definition free_frame (f : PhysFrame) (a : FrameAllocator) : FrameAllocator * result unit FrameError :=
  if negb (initialised a) then (a, Err NotInitialised)
  else dec_ref f (metric inc_free a).

Definition get_ref (f : PhysFrame) (a : FrameAllocator) : Z :=
  if negb (HEAP_READY a) then 0 else rc_get a (phys_frame_to_index f).

Record FrameStats := mkFrameStats {
  st_total_frames : Z;
  st_free_frames : Z;
  st_used_frames : Z;
  st_refcounted_frames : Z;
  st_total_allocations : Z;
  st_total_frees : Z;
}.

Definition stats (a : FrameAllocator) : FrameStats :=
  let r := raw a in
  mkFrameStats (total_frames r) (sub64 (total_frames r) (used_frames r)) (used_frames r)
    (if HEAP_READY a then Z.of_nat (length (filter (λ c, 0 < c) (REFCOUNTS a))) else 0)
    (allocations (metrics a)) (frees (metrics a)).

(** ** The bitmap as a set of free frames *)

Definition wf (a : RawBitmapAllocator) : Prop :=
  Z.of_nat (length (bitmap a)) = BITMAP_SIZE ∧ max_frames a ≤ MAX_FRAMES.

Lemma is_free_bit a i :
  wf a → 0 ≤ i → is_free a i = (i <? max_frames a) && negb (Z.testbit (default 0 (bitmap a !! Z.to_nat (i `div` 64))) (i `mod` 64)).
Proof.
  intros [Hlen Hmax] Hi. unfold is_free, frame_to_word_bit.
  destruct (Z.leb_spec (max_frames a) i) as [Hge|Hlt]; [by apply Z.ltb_ge in Hge as ->|].
  assert (i `div` 64 < BITMAP_SIZE) as Hw.
  { apply Z.div_lt_upper_bound; [lia|]. change (64 * BITMAP_SIZE) with MAX_FRAMES. lia. }
  apply Z.ltb_lt in Hw as ->. apply Z.ltb_lt in Hlt as ->. simpl.
  change 1 with (Z.ones 1). rewrite Z.land_ones by lia. change (2 ^ 1) with 2.
  rewrite <-Z.bit0_mod, Z.shiftr_spec, Z.add_0_l by lia. by destruct (Z.testbit _ _).
Qed.

Lemma wf_alter a f n : wf a → wf (a <| bitmap := alter f n (bitmap a) |>).
Proof. unfold wf. simpl. by rewrite length_alter. Qed.

(** Setting or clearing the bit of one frame leaves all others as they are. *)
Lemma is_free_alter a (f : Z → Z) i j (v : bool) :
  wf a → 0 ≤ i < max_frames a → 0 ≤ j →
  (∀ w b, 0 ≤ b < 64 → Z.testbit (f w) b = if decide (b = i `mod` 64) then v else Z.testbit w b) →
  is_free (a <| bitmap := alter f (Z.to_nat (i `div` 64)) (bitmap a) |>) j =
    if decide (j = i) then negb v else is_free a j.
Proof.
  intros Hwf Hi Hj Hf. rewrite !is_free_bit by auto using wf_alter. simpl.
  pose proof (Z.div_mod i 64 ltac:(lia)). pose proof (Z.div_mod j 64 ltac:(lia)).
  pose proof (Z.mod_pos_bound j 64 ltac:(lia)). pose proof (Z.div_pos i 64). pose proof (Z.div_pos j 64).
  destruct (decide (j `div` 64 = i `div` 64)) as [Heq|Hne].
  - rewrite Heq. destruct Hwf as [Hlen Hmax].
    destruct (lookup_lt_is_Some_2 (bitmap a) (Z.to_nat (i `div` 64))) as [w Hw].
    { apply Nat2Z.inj_lt. rewrite Hlen, Z2Nat.id by lia. apply Z.div_lt_upper_bound; [lia|].
      change (64 * BITMAP_SIZE) with MAX_FRAMES. lia. }
    rewrite list_lookup_alter_eq, Hw. simpl. rewrite Hf by done.
    repeat case_decide; try lia; [|done]. replace (j <? max_frames a) with true; [done|]. lia.
  - rewrite list_lookup_alter_ne by lia. case_decide; [congruence|done].
Qed.

Lemma mark_free_wf i a : wf a → wf (mark_free i a).
Proof.
  intros Hwf. unfold mark_free. destruct (_ <=? _); [done|]. simpl. destruct (_ <? _); auto using wf_alter.
Qed.

Lemma mark_used_wf i a : wf a → wf (mark_used i a).
Proof.
  intros Hwf. unfold mark_used. destruct (_ <=? _); [done|]. simpl. destruct (_ <? _); auto using wf_alter.
Qed.

Lemma word_in_bitmap a i : wf a → 0 ≤ i < max_frames a → (i `div` 64 <? BITMAP_SIZE) = true.
Proof.
  intros [_ Hmax] Hi. apply Z.ltb_lt, Z.div_lt_upper_bound; [lia|].
  change (64 * BITMAP_SIZE) with MAX_FRAMES. lia.
Qed.

Lemma is_free_mark_free a i j :
  wf a → 0 ≤ i < max_frames a → 0 ≤ j →
  is_free (mark_free i a) j = if decide (j = i) then true else is_free a j.
Proof.
  intros Hwf Hi Hj. unfold mark_free. destruct (Z.leb_spec (max_frames a) i); [lia|].
  simpl. rewrite (word_in_bitmap a) by done. apply (is_free_alter a _ i j false); [done..|].
  intros w b Hb. unfold not64, wrap64. pose proof (Z.mod_pos_bound i 64 ltac:(lia)).
  rewrite Z.land_spec, Z.mod_pow2_bits_low, Z.lnot_spec, Z.shiftl_1_l, Z.pow2_bits_eqb by lia.
  case_decide; destruct (Z.eqb_spec (i `mod` 64) b); try lia;
    simpl; by rewrite ?andb_false_r, ?andb_true_r.
Qed.

Lemma is_free_mark_used a i j :
  wf a → 0 ≤ i < max_frames a → 0 ≤ j →
  is_free (mark_used i a) j = if decide (j = i) then false else is_free a j.
Proof.
  intros Hwf Hi Hj. unfold mark_used. destruct (Z.leb_spec (max_frames a) i); [lia|].
  simpl. rewrite (word_in_bitmap a) by done. apply (is_free_alter a _ i j true); [done..|].
  intros w b Hb. pose proof (Z.mod_pos_bound i 64 ltac:(lia)).
  rewrite Z.lor_spec, Z.shiftl_1_l, Z.pow2_bits_eqb by lia.
  case_decide; destruct (Z.eqb_spec (i `mod` 64) b); try lia;
    by rewrite ?orb_true_r, ?orb_false_r.
Qed.

(** Marking changes the bitmap only. *)
Lemma mark_free_frame i a : mark_free i a = a <| bitmap := bitmap (mark_free i a) |>.
Proof. destruct a. unfold mark_free. by repeat case_match; simplify_eq/=. Qed.

Lemma mark_used_frame i a : mark_used i a = a <| bitmap := bitmap (mark_used i a) |>.
Proof. destruct a. unfold mark_used. by repeat case_match; simplify_eq/=. Qed.

Lemma is_free_range a i : is_free a i = true → i < max_frames a.
Proof. unfold is_free. destruct (Z.leb_spec (max_frames a) i); [done|lia]. Qed.

(** The search finds a free frame whenever there is one in its range. *)
Lemma find_free_Some a i n j : find_free a i n = Some j → i ≤ j < i + Z.of_nat n ∧ is_free a j = true.
Proof.
  revert i. induction n as [|n IH]; intros i; simpl; [done|].
  destruct (is_free a i) eqn:E; [intros [= <-]; split; [lia|done]|].
  intros Hj%IH. destruct Hj. split; [lia|done].
Qed.

Lemma find_free_None a i n :
  find_free a i n = None ↔ ∀ j, i ≤ j < i + Z.of_nat n → is_free a j = false.
Proof.
  revert i. induction n as [|n IH]; intros i; simpl; [split; [lia|done]|].
  destruct (is_free a i) eqn:E.
  - split; [done|]. intros Hn. rewrite Hn in E by lia. done.
  - rewrite IH. split; intros Hn j Hj; [|apply Hn; lia].
    destruct (decide (j = i)) as [->|]; [done|]. apply Hn. lia.
Qed.

Lemma frame_index_roundtrip i : 0 ≤ i < MAX_FRAMES → phys_frame_to_index (phys_frame_from_index i) = i.
Proof.
  change MAX_FRAMES with 524288. intros Hi. unfold phys_frame_to_index, phys_frame_from_index, PAGE_SIZE.
  simpl. rewrite mul64_small by mach. rewrite Z.mod_mul, Z.sub_0_r by lia. by apply Z.div_mul.
Qed.

(** What [alloc_frame] does: it fails, changing nothing, exactly when there is
    no free frame below [total_frames] and none below the hint. *)
Lemma alloc_frame_cases a :
  0 ≤ next_hint a →
  (alloc_frame a = (a, None) ∧ ∀ j, 0 ≤ j < Z.max (total_frames a) (next_hint a) → is_free a j = false) ∨
  ∃ i, 0 ≤ i < max_frames a ∧ i < Z.max (total_frames a) (next_hint a) ∧ is_free a i = true ∧
    alloc_frame a = (take_frame i a, Some (phys_frame_from_index i)).
Proof.
  intros Hh. unfold alloc_frame.
  destruct (find_free a (next_hint a) _) as [i|] eqn:E1.
  { apply find_free_Some in E1 as [Hi Hf]. pose proof (is_free_range _ _ Hf).
    right. exists i. split_and!; (lia || done). }
  destruct (find_free a 0 _) as [i|] eqn:E2.
  { apply find_free_Some in E2 as [Hi Hf]. pose proof (is_free_range _ _ Hf).
    right. exists i. split_and!; (lia || done). }
  left. split; [done|]. intros j Hj. rewrite find_free_None in E1, E2.
  destruct (decide (j < next_hint a)); [apply E2|apply E1]; lia.
Qed.

(** ** Frames and their references

    [R] is the multiset of references held: one for the task that allocated a
    frame and one for every sharing. A holder may share or drop what it holds. *)

Inductive frame_step : FrameAllocator * gmultiset Z → FrameAllocator * gmultiset Z → Prop :=
| step_alloc a a' f R :
  allocate_one a = (a', Ok f) → frame_step (a, R) (a', {[+ phys_frame_to_index f +]} ⊎ R)
| step_alloc_fails a a' e R :
  allocate_one a = (a', Err e) → frame_step (a, R) (a', R)
| step_share a a' f R r :
  phys_frame_to_index f ∈ R → Z.of_nat (multiplicity (phys_frame_to_index f) R) < U32_MAX →
  inc_ref f a = (a', r) →
  frame_step (a, R) (a', if is_ok r then {[+ phys_frame_to_index f +]} ⊎ R else R)
| step_drop a a' f R r :
  phys_frame_to_index f ∈ R → free_frame f a = (a', r) →
  frame_step (a, R) (a', R ∖ {[+ phys_frame_to_index f +]}).

(** The frames [heap::init] takes while counting is off: one for each page of the heap
    and those the page-table mapper asks for, [n] in all. The kernel panics when one
    cannot be had. The set of the frames taken is kept beside the allocator. *)
Fixpoint heap_frames (n : nat) (a : FrameAllocator) : option (FrameAllocator * gset Z) :=
  match n with
  | O => Some (a, ∅)
  | S n' =>
    match allocate_one a with
    | (a, Ok f) => '(a, E) ← heap_frames n' a; Some (a, {[phys_frame_to_index f]} ∪ E)
    | (_, Err _) => None
    end
  end.

(** The bitmap after [frame_alloc::init]. *)
Definition start_raw (c : FrameConfig) (off : Z) (regions : list MemoryRegion) : RawBitmapAllocator :=
  RawBitmapAllocator_init off regions c (with_max_frames (fc_max_frames c)).

(** The allocator as the kernel starts it: initialised, used for the heap, then
    counting is switched on. *)
Definition boot (c : FrameConfig) (off : Z) (regions : list MemoryRegion) (n : nat) : option (FrameAllocator * gset Z) :=
  a ← FrameAllocator_new c;
  '(a, E) ← heap_frames n (FrameAllocator_init off regions a);
  Some (mark_heap_ready a, E).

Record refs_inv (a0 : RawBitmapAllocator) (E : gset Z) (a : FrameAllocator) (R : gmultiset Z) : Prop := {
  ri_wf : wf (raw a);
  ri_init : initialised a = true;
  ri_ready : HEAP_READY a = true;
  ri_len : rc_len a = max_frames (raw a);
  ri_hint : 0 ≤ next_hint (raw a);
  ri_dom i : i ∈ R → 0 ≤ i < max_frames (raw a);
  ri_count i : 0 ≤ i → rc_get a i = Z.of_nat (multiplicity i R);
  ri_bound i : Z.of_nat (multiplicity i R) ≤ U32_MAX;
  ri_free i : 0 ≤ i → is_free (raw a) i = is_free a0 i && bool_decide (i ∉ R);
  ri_early i : i ∈ E → 0 ≤ i < max_frames (raw a) ∧ is_free a0 i = false ∧ i ∉ R;
  ri_used : used_frames (raw a) = Z.of_nat (size E + size (dom R));
}.

Lemma size_frames (X : gset Z) : (∀ i, i ∈ X → 0 ≤ i < MAX_FRAMES) → Z.of_nat (size X) ≤ MAX_FRAMES.
Proof.
  intros HX. assert (X ⊆ (list_to_set (seqZ 0 MAX_FRAMES) : gset Z)) as Hsub.
  { intros i Hi%HX. apply elem_of_list_to_set, elem_of_seqZ. lia. }
  apply subseteq_size in Hsub. rewrite size_list_to_set, length_seqZ in Hsub by apply NoDup_seqZ.
  change MAX_FRAMES with 524288 in *. lia.
Qed.

Lemma refs_size a0 E a R : refs_inv a0 E a R → Z.of_nat (size E + size (dom R)) ≤ MAX_FRAMES.
Proof.
  intros Hinv. destruct (ri_wf _ _ _ _ Hinv) as [_ Hmax]. rewrite <-size_union.
  - apply size_frames. intros i [Hi|Hi%gmultiset_elem_of_dom]%elem_of_union;
      [apply (ri_early _ _ _ _ Hinv) in Hi|apply (ri_dom _ _ _ _ Hinv) in Hi]; lia.
  - intros i Hi Hr%gmultiset_elem_of_dom. apply (ri_early _ _ _ _ Hinv) in Hi. tauto.
Qed.

Lemma rc_get_set a i j v :
  0 ≤ i < rc_len a → 0 ≤ j → rc_get (rc_set i v a) j = if decide (j = i) then v else rc_get a j.
Proof.
  unfold rc_get, rc_set, rc_len. simpl. intros Hi Hj. case_decide as Hij.
  - subst j. rewrite list_lookup_insert_eq by lia. done.
  - by rewrite list_lookup_insert_ne by lia.
Qed.

Lemma rc_len_set a i v : rc_len (rc_set i v a) = rc_len a.
Proof. unfold rc_len, rc_set. simpl. by rewrite length_insert. Qed.

(** Counters do not matter to the invariant. *)
Lemma refs_inv_metric g a0 E a R : refs_inv a0 E a R → refs_inv a0 E (metric g a) R.
Proof. by intros []. Qed.

Lemma take_frame_facts i a :
  wf a → 0 ≤ i < max_frames a → used_frames a ≤ MAX_FRAMES →  0 ≤ used_frames a →
  wf (take_frame i a) ∧ max_frames (take_frame i a) = max_frames a ∧ 0 ≤ next_hint (take_frame i a) ∧
  used_frames (take_frame i a) = used_frames a + 1 ∧
  ∀ j, 0 ≤ j → is_free (take_frame i a) j = if decide (j = i) then false else is_free a j.
Proof.
  intros Hwf Hi Hu Hu0. pose proof (mark_used_wf i a Hwf) as Hwf'.
  unfold take_frame. rewrite (mark_used_frame i a) in Hwf'. rewrite (mark_used_frame i a). simpl.
  destruct Hwf as [? Hmax]. change MAX_FRAMES with 524288 in *.
  split_and!; [apply Hwf'|done|rewrite add64_small; mach|by rewrite add64_small by mach|].
  intros j Hj. rewrite <-(is_free_mark_used a i j) by done.
  rewrite (mark_used_frame i a). done.
Qed.

Lemma raw_free_frame_facts f a :
  wf a → 0 ≤ phys_frame_to_index f < max_frames a → 0 ≤ next_hint a →
  let a' := raw_free_frame f a in
  wf a' ∧ max_frames a' = max_frames a ∧ 0 ≤ next_hint a' ∧
  used_frames a' = sat_sub (used_frames a) 1 ∧
  ∀ j, 0 ≤ j → is_free a' j = if decide (j = phys_frame_to_index f) then true else is_free a j.
Proof.
  intros Hwf Hi Hh. cbv zeta. unfold raw_free_frame.
  destruct (Z.ltb_spec (phys_frame_to_index f) (max_frames a)); [|lia].
  pose proof (mark_free_wf (phys_frame_to_index f) a Hwf) as Hwf'.
  pose proof (λ j, is_free_mark_free a (phys_frame_to_index f) j Hwf Hi) as Hfree.
  rewrite (mark_free_frame _ a) in Hwf', Hfree |- *. simpl in *.
  destruct (_ <? _); simpl; split_and!; try done; lia.
Qed.

Local Opaque take_frame raw_free_frame.

Lemma multiplicity_add (i j : Z) (R : gmultiset Z) :
  multiplicity j ({[+ i +]} ⊎ R) = ((if decide (j = i) then 1 else 0) + multiplicity j R)%nat.
Proof. rewrite multiplicity_disj_union, multiplicity_singleton. done. Qed.

Lemma size_dom_add (i : Z) (R : gmultiset Z) : i ∉ R → size (dom ({[+ i +]} ⊎ R)) = S (size (dom R)).
Proof.
  intros Hi. rewrite <-gmultiset_elem_of_dom in Hi.
  assert (dom ({[+ i +]} ⊎ R) = {[i]} ∪ dom R) as ->.
  { apply set_eq. intros j. rewrite elem_of_union, elem_of_singleton, !gmultiset_elem_of_dom. multiset_solver. }
  rewrite size_union by set_solver. by rewrite size_singleton.
Qed.

(** Taking a free frame and setting its count to 1 hands out its first reference. *)
Lemma refs_inv_take a0 E a R i g :
  refs_inv a0 E a R → 0 ≤ i < max_frames (raw a) → is_free (raw a) i = true →
  refs_inv a0 E (metric g (rc_set i 1 (a <| raw := take_frame i (raw a) |>))) ({[+ i +]} ⊎ R).
Proof.
  intros Hinv Hi Hf. pose proof (refs_size _ _ _ _ Hinv) as Hsz.
  destruct (take_frame_facts i (raw a)) as (Hwf & Hmax & Hhint & Hused & Hfree);
    [apply Hinv|done|by rewrite (ri_used _ _ _ _ Hinv)|rewrite (ri_used _ _ _ _ Hinv); lia|].
  rewrite (ri_free _ _ _ _ Hinv) in Hf by lia. apply andb_true_iff in Hf as [Hf0 HiR%bool_decide_eq_true].
  assert (multiplicity i R = 0%nat) as Hm by multiset_solver.
  apply refs_inv_metric. split; simpl; try done; try apply Hinv.
  - rewrite rc_len_set, Hmax. apply Hinv.
  - intros j. rewrite Hmax. intros [->%gmultiset_elem_of_singleton|Hj]%gmultiset_elem_of_disj_union; [done|].
    by apply (ri_dom _ _ _ _ Hinv).
  - intros j Hj. rewrite rc_get_set by (change (rc_len (a <| raw := _ |>)) with (rc_len a);
      rewrite ?(ri_len _ _ _ _ Hinv); lia).
    rewrite multiplicity_add. case_decide; [subst; lia|]. by apply (ri_count _ _ _ _ Hinv).
  - intros j. rewrite multiplicity_add. pose proof (ri_bound _ _ _ _ Hinv j). case_decide; subst; mach.
  - intros j Hj. rewrite Hfree by done. rewrite (ri_free _ _ _ _ Hinv) by done. case_decide.
    + subst. rewrite bool_decide_eq_false_2, andb_false_r; [done|]. multiset_solver.
    + f_equal. apply bool_decide_ext. multiset_solver.
  - intros j Hj. rewrite Hmax. destruct (ri_early _ _ _ _ Hinv j Hj) as (? & Hj0 & ?). split_and!; [lia..|done|].
    intros [->%gmultiset_elem_of_singleton|]%gmultiset_elem_of_disj_union; [congruence|done].
  - rewrite Hused, (ri_used _ _ _ _ Hinv), size_dom_add by done. lia.
Qed.

Lemma allocate_one_inv a0 E a R :
  refs_inv a0 E a R →
  (∃ a', allocate_one a = (a', Err OutOfFrames) ∧ refs_inv a0 E a' R ∧
     ∀ j, 0 ≤ j < Z.max (total_frames (raw a)) (next_hint (raw a)) → is_free (raw a) j = false) ∨
  (∃ a' f, allocate_one a = (a', Ok f) ∧ (phys_frame_to_index f ∉ R) ∧
     is_free a0 (phys_frame_to_index f) = true ∧ refs_inv a0 E a' ({[+ phys_frame_to_index f +]} ⊎ R)).
Proof.
  intros Hinv. unfold allocate_one. rewrite (ri_init _ _ _ _ Hinv). simpl.
  destruct (alloc_frame_cases (raw a)) as [[-> Hno]|(i & Hi & _ & Hf & ->)]; [apply Hinv| |].
  - left. eexists. split_and!; [done| |done]. apply refs_inv_metric. destruct a. apply Hinv.
  - right. simpl. destruct (ri_wf _ _ _ _ Hinv) as [_ Hmax].
    rewrite frame_index_roundtrip by lia. rewrite (ri_ready _ _ _ _ Hinv).
    change (rc_len (metric _ _)) with (rc_len a). rewrite (ri_len _ _ _ _ Hinv).
    destruct (Z.ltb_spec i (max_frames (raw a))); [|lia]. simpl.
    do 2 eexists. split; [done|]. rewrite frame_index_roundtrip by lia.
    pose proof Hf as Hf'. rewrite (ri_free _ _ _ _ Hinv) in Hf' by lia.
    apply andb_true_iff in Hf' as [Hf0 HiR%bool_decide_eq_true]. split_and!; [done|done|].
    apply (refs_inv_take a0 E a R i (λ m, inc_refcount_inc (inc_alloc m)) Hinv Hi Hf).
Qed.

Lemma inc_ref_inv a0 E a R f :
  refs_inv a0 E a R → phys_frame_to_index f ∈ R →
  Z.of_nat (multiplicity (phys_frame_to_index f) R) < U32_MAX →
  ∃ a', inc_ref f a = (a', Ok tt) ∧ refs_inv a0 E a' ({[+ phys_frame_to_index f +]} ⊎ R).
Proof.
  intros Hinv Hin Hb. set (i := phys_frame_to_index f) in *.
  pose proof (ri_dom _ _ _ _ Hinv i Hin) as Hi. unfold inc_ref, refcount_inc_ref.
  rewrite (ri_ready _ _ _ _ Hinv), (ri_len _ _ _ _ Hinv). fold i. simpl.
  destruct (Z.leb_spec (max_frames (raw a)) i); [lia|]. eexists. split; [done|]. apply refs_inv_metric.
  assert (0 ≤ i < rc_len a) by (by rewrite (ri_len _ _ _ _ Hinv)).
  rewrite (ri_count _ _ _ _ Hinv), wrap32_small by (lia || mach).
  split; simpl; try apply Hinv.
  - rewrite rc_len_set. apply Hinv.
  - intros j [->%gmultiset_elem_of_singleton|Hj]%gmultiset_elem_of_disj_union; [done|].
    by apply (ri_dom _ _ _ _ Hinv).
  - intros j Hj. rewrite rc_get_set, multiplicity_add by done.
    case_decide; [subst; lia|]. by apply (ri_count _ _ _ _ Hinv).
  - intros j. rewrite multiplicity_add. pose proof (ri_bound _ _ _ _ Hinv j). case_decide; subst; lia.
  - intros j Hj. rewrite (ri_free _ _ _ _ Hinv) by done. f_equal. apply bool_decide_ext.
    rewrite gmultiset_elem_of_disj_union, gmultiset_elem_of_singleton. naive_solver.
  - intros j Hj. destruct (ri_early _ _ _ _ Hinv j Hj) as (? & ? & HjR). split_and!; [lia..|done|].
    intros [Hji%gmultiset_elem_of_singleton|]%gmultiset_elem_of_disj_union; [|done]. apply HjR. by rewrite Hji.
  - rewrite (ri_used _ _ _ _ Hinv). do 3 f_equal. apply set_eq. intros j.
    rewrite !gmultiset_elem_of_dom. multiset_solver.
Qed.

Lemma multiplicity_del (i j : Z) (R : gmultiset Z) :
  multiplicity j (R ∖ {[+ i +]}) = (multiplicity j R - if decide (j = i) then 1 else 0)%nat.
Proof. rewrite multiplicity_difference, multiplicity_singleton. done. Qed.

(** Setting the count of a held frame to one less drops one reference, all but
    for the bitmap. *)
Lemma refs_drop_count a0 E a R i :
  refs_inv a0 E a R → i ∈ R →
  let a' := rc_set i (rc_get a i - 1) a in
  rc_len a' = max_frames (raw a) ∧
  ∀ j, 0 ≤ j → rc_get a' j = Z.of_nat (multiplicity j (R ∖ {[+ i +]})).
Proof.
  intros Hinv Hin. pose proof (ri_dom _ _ _ _ Hinv i Hin) as Hi. simpl.
  split; [by rewrite rc_len_set, (ri_len _ _ _ _ Hinv)|]. intros j Hj.
  rewrite elem_of_multiplicity in Hin.
  rewrite rc_get_set by (rewrite ?(ri_len _ _ _ _ Hinv); done). rewrite multiplicity_del.
  case_decide; subst; rewrite (ri_count _ _ _ _ Hinv) by lia; lia.
Qed.

Lemma size_dom_del (i : Z) (R : gmultiset Z) :
  i ∈ R → size (dom (R ∖ {[+ i +]})) =
    if decide (multiplicity i R = 1%nat) then (size (dom R) - 1)%nat else size (dom R).
Proof.
  intros Hi. case_decide as Hm.
  - assert (dom (R ∖ {[+ i +]}) = dom R ∖ {[i]}) as ->.
    { apply set_eq. intros j. rewrite elem_of_difference, elem_of_singleton, !gmultiset_elem_of_dom,
        !elem_of_multiplicity, multiplicity_del. case_decide; subst; lia. }
    rewrite size_difference by (apply singleton_subseteq_l; by apply gmultiset_elem_of_dom).
    by rewrite size_singleton.
  - f_equal. apply set_eq. intros j.
    rewrite !gmultiset_elem_of_dom, !elem_of_multiplicity, multiplicity_del.
    rewrite elem_of_multiplicity in Hi. case_decide; subst; lia.
Qed.

Lemma elem_of_del (i j : Z) (R : gmultiset Z) :
  j ∈ R ∖ {[+ i +]} ↔ j ∈ R ∧ (j = i → multiplicity i R ≠ 1%nat).
Proof. rewrite !elem_of_multiplicity, multiplicity_del. case_decide; subst; lia. Qed.

Lemma dec_ref_inv a0 E a R f :
  refs_inv a0 E a R → (∀ i, i ∈ R → is_free a0 i = true) → phys_frame_to_index f ∈ R →
  ∃ a', dec_ref f a = (a', Ok tt) ∧ refs_inv a0 E a' (R ∖ {[+ phys_frame_to_index f +]}).
Proof.
  intros Hinv HR Hin. set (i := phys_frame_to_index f) in *. pose proof (ri_dom _ _ _ _ Hinv i Hin) as Hi.
  destruct (refs_drop_count a0 E a R i Hinv Hin) as [Hlen Hcnt].
  pose proof (size_dom_del i R Hin) as Hsz. pose proof Hin as Hmu. rewrite elem_of_multiplicity in Hmu.
  unfold dec_ref. rewrite (ri_ready _ _ _ _ Hinv), (ri_len _ _ _ _ Hinv). simpl negb. cbv iota. fold i.
  destruct (Z.leb_spec (max_frames (raw a)) i); [lia|].
  destruct (Z.eqb_spec (rc_get a i) 0) as [H0|_]; [rewrite (ri_count _ _ _ _ Hinv) in H0; lia|].
  eexists. split; [done|]. rewrite (Hcnt i), multiplicity_del, decide_True by (done || lia).
  assert (∀ j, Z.of_nat (multiplicity j (R ∖ {[+ i +]})) ≤ U32_MAX) as Hbound.
  { intros j. pose proof (ri_bound _ _ _ _ Hinv j). rewrite multiplicity_del. lia. }
  destruct (Z.eqb_spec (Z.of_nat (multiplicity i R - 1)) 0) as [H1|H1].
  - assert (multiplicity i R = 1%nat) by lia.
    destruct (raw_free_frame_facts f (raw a)) as (Hwf & Hmax & Hhint & Hused & Hfree);
      [apply Hinv|done|apply Hinv|].
    split; simpl; try done; try apply Hinv.
    + rewrite Hmax. apply Hlen.
    + intros j [Hj _]%elem_of_del. rewrite Hmax. by apply Hinv.
    + intros j Hj. rewrite Hfree by done. fold i. destruct (decide (j = i)) as [Hij|Hij].
      * rewrite Hij, HR by done. symmetry. apply bool_decide_eq_true_2. rewrite elem_of_del. naive_solver.
      * rewrite (ri_free _ _ _ _ Hinv) by done. f_equal. apply bool_decide_ext.
        rewrite elem_of_del. naive_solver.
    + intros j Hj. rewrite Hmax. destruct (ri_early _ _ _ _ Hinv j Hj) as (? & ? & ?). split_and!; [lia..|done|].
      by intros [? _]%elem_of_del.
    + rewrite Hused, (ri_used _ _ _ _ Hinv), Hsz, decide_True by lia. unfold sat_sub.
      assert (size (dom R) ≠ 0%nat); [|lia]. apply size_non_empty_iff.
      apply gmultiset_elem_of_dom in Hin. set_solver.
  - split; simpl; try done; try apply Hinv.
    + intros j [Hj _]%elem_of_del. by apply Hinv.
    + intros j Hj. rewrite (ri_free _ _ _ _ Hinv) by done. f_equal. apply bool_decide_ext.
      rewrite elem_of_del. naive_solver lia.
    + intros j Hj. destruct (ri_early _ _ _ _ Hinv j Hj) as (? & ? & ?). split_and!; [lia..|done|].
      by intros [? _]%elem_of_del.
    + rewrite (ri_used _ _ _ _ Hinv), Hsz, decide_False by lia. done.
Qed.

Lemma free_frame_inv a0 E a R f :
  refs_inv a0 E a R → (∀ i, i ∈ R → is_free a0 i = true) → phys_frame_to_index f ∈ R →
  ∃ a', free_frame f a = (a', Ok tt) ∧ refs_inv a0 E a' (R ∖ {[+ phys_frame_to_index f +]}).
Proof.
  intros Hinv HR Hin. unfold free_frame. rewrite (ri_init _ _ _ _ Hinv).
  apply dec_ref_inv; [by apply refs_inv_metric|done..].
Qed.

(** ** Runs *)

Lemma init_raw_facts off regions c a :
  wf a → let a' := RawBitmapAllocator_init off regions c a in
  wf a' ∧ max_frames a' = max_frames a ∧ used_frames a' = used_frames a ∧ 0 ≤ next_hint a'.
Proof.
  intros Hwf. cbv zeta. unfold RawBitmapAllocator_init.
  set (P := λ b : RawBitmapAllocator, wf b ∧ max_frames b = max_frames a ∧ used_frames b = used_frames a).
  assert (∀ i b, P b → P (mark_free i b)) as Hmf.
  { intros i b (Hb & Hm & Hu). split; [by apply mark_free_wf|]. by rewrite mark_free_frame. }
  assert (∀ i b, P b → P (mark_used i b)) as Hmu.
  { intros i b (Hb & Hm & Hu). split; [by apply mark_used_wf|]. by rewrite mark_used_frame. }
  assert (∀ l st, P st.1 → P (foldl add_frame st l).1) as Haf.
  { induction l as [|i l IH]; intros [b t] Hb; [done|]. apply IH. unfold add_frame.
    destruct (_ <? _); [by apply Hmf|done]. }
  assert (∀ l st, P st.1 → P (foldl add_memory_region st l).1) as Har.
  { induction l as [|r l IH]; intros [b t] Hb; [done|]. apply IH. unfold add_memory_region.
    destruct (usable r); [by apply Haf|done]. }
  assert (∀ l b, P b → P (foldl (λ a i, if i <? max_frames a then mark_used i a else a) b l)) as Hres.
  { induction l as [|i l IH]; intros b Hb; [done|]. apply IH. destruct (_ <? _); [by apply Hmu|done]. }
  destruct (foldl _ _ regions) as [b t] eqn:E.
  assert (P b) as Hb.
  { change b with (b, t).1. rewrite <-E. apply Har. unfold P, wf. simpl. by rewrite length_fmap. }
  generalize (seqZ 0 (0x100000 `div` PAGE_SIZE)). intros l.
  destruct (reserve_first_mib c); [apply (Hres l) in Hb|];
    destruct Hb as (? & ? & ?); by split_and!.
Qed.

Lemma with_max_frames_facts n :
  wf (with_max_frames n) ∧ max_frames (with_max_frames n) = Z.min n MAX_FRAMES ∧
  used_frames (with_max_frames n) = 0.
Proof.
  unfold wf, with_max_frames, RawBitmapAllocator_new. cbn [bitmap max_frames used_frames set_field].
  rewrite length_replicate. split_and!; [done|lia|done..].
Qed.

Local Opaque RawBitmapAllocator_init with_max_frames.

(** While the heap takes its frames. *)
Record early_inv (r0 : RawBitmapAllocator) (a : FrameAllocator) (E : gset Z) : Prop := {
  ei_wf : wf (raw a);
  ei_init : initialised a = true;
  ei_off : HEAP_READY a = false;
  ei_max : max_frames (raw a) = max_frames r0;
  ei_hint : 0 ≤ next_hint (raw a);
  ei_dom i : i ∈ E → 0 ≤ i < max_frames r0 ∧ is_free r0 i = true;
  ei_free i : 0 ≤ i → is_free (raw a) i = is_free r0 i && bool_decide (i ∉ E);
  ei_used : used_frames (raw a) = Z.of_nat (size E);
}.

Lemma early_step r0 a E a' f :
  early_inv r0 a E → allocate_one a = (a', Ok f) →
  (phys_frame_to_index f ∉ E) ∧ early_inv r0 a' ({[phys_frame_to_index f]} ∪ E).
Proof.
  intros Hinv. unfold allocate_one. rewrite (ei_init _ _ _ Hinv). simpl.
  destruct (alloc_frame_cases (raw a)) as [[-> Hno]|(i & Hi & _ & Hf & ->)]; [apply Hinv|done|].
  destruct (ei_wf _ _ _ Hinv) as [_ Hmax]. simpl. rewrite (ei_off _ _ _ Hinv). simpl.
  intros [= <- <-]. rewrite frame_index_roundtrip by lia.
  assert (Z.of_nat (size E) ≤ MAX_FRAMES) as Hsz.
  { apply size_frames. intros j Hj%(ei_dom _ _ _ Hinv). rewrite <-(ei_max _ _ _ Hinv) in Hj. lia. }
  destruct (take_frame_facts i (raw a)) as (Hwf & Hmax' & Hhint & Hused & Hfree);
    [apply Hinv|done|rewrite (ei_used _ _ _ Hinv); lia..|].
  rewrite (ei_free _ _ _ Hinv) in Hf by lia. apply andb_true_iff in Hf as [Hf0 HiE%bool_decide_eq_true].
  split; [done|]. split; simpl; try done; try apply Hinv.
  - by rewrite Hmax', (ei_max _ _ _ Hinv).
  - rewrite <-(ei_max _ _ _ Hinv). intros j [->%elem_of_singleton|Hj]%elem_of_union; [done|].
    rewrite (ei_max _ _ _ Hinv). by apply (ei_dom _ _ _ Hinv).
  - intros j Hj. rewrite Hfree, (ei_free _ _ _ Hinv) by done. case_decide.
    + subst. rewrite bool_decide_eq_false_2, andb_false_r; [done|]. set_solver.
    + f_equal. apply bool_decide_ext. set_solver.
  - rewrite Hused, (ei_used _ _ _ Hinv), size_union, size_singleton by set_solver. lia.
Qed.

Lemma heap_frames_inv r0 n a E a' E' :
  early_inv r0 a E → heap_frames n a = Some (a', E') → E ## E' ∧ early_inv r0 a' (E ∪ E').
Proof.
  revert a E E'. induction n as [|n IH]; intros a E E' Hinv; cbn [heap_frames].
  { intros [= <- <-]. split; [set_solver|]. by rewrite union_empty_r_L. }
  destruct (allocate_one a) as [a1 [f|]] eqn:Ha; [|done]. destruct (early_step _ _ _ _ _ Hinv Ha) as [Hf Hinv1].
  destruct (heap_frames n a1) as [[a2 E2]|] eqn:Hh; [|done]. intros [= <- <-].
  destruct (IH _ _ _ Hinv1 Hh) as [Hd Hi]. split; [set_solver|].
  by replace (E ∪ ({[phys_frame_to_index f]} ∪ E2)) with ({[phys_frame_to_index f]} ∪ E ∪ E2) by set_solver.
Qed.

Lemma boot_inv c off regions n a E :
  u64_ok (fc_max_frames c) → boot c off regions n = Some (a, E) →
  refs_inv (raw a) E a ∅ ∧
  ∀ i, 0 ≤ i → is_free (raw a) i = is_free (start_raw c off regions) i && bool_decide (i ∉ E).
Proof.
  intros Hc. unfold boot, FrameAllocator_new. destruct (FrameConfig_validate c); [|done]. cbn [mbind option_bind].
  destruct (with_max_frames_facts (fc_max_frames c)) as (Hwf & Hmax & Hused).
  destruct (init_raw_facts off regions c _ Hwf) as (Hwf' & Hmax' & Hused' & Hhint).
  rewrite Hmax in Hmax'. rewrite Hused in Hused'. clear Hwf Hmax Hused.
  set (a1 := FrameAllocator_init off regions _).
  assert (early_inv (start_raw c off regions) a1 ∅) as Hinv.
  { split; try done. intros i Hi. rewrite bool_decide_eq_true_2, andb_true_r; [done|set_solver]. }
  destruct (heap_frames n a1) as [[a2 E2]|] eqn:Hh; [|done]. intros [= <- <-].
  destruct (heap_frames_inv _ _ _ _ _ _ Hinv Hh) as [_ Hi]. rewrite union_empty_l_L in Hi. clear Hinv Hh.
  split; [|apply Hi].
  assert (0 ≤ max_frames (raw a2) ≤ MAX_FRAMES).
  { rewrite (ei_max _ _ _ Hi). unfold start_raw. rewrite Hmax'. change MAX_FRAMES with 524288 in *. mach. }
  split; simpl; try done; try apply Hi.
  - unfold rc_len. simpl. rewrite length_replicate. lia.
  - intros i []%gmultiset_not_elem_of_empty.
  - intros i _. unfold rc_get. simpl. destruct (_ !! _) eqn:El; [|done].
    by apply lookup_replicate in El as [-> _].
  - intros i _. rewrite bool_decide_eq_true_2, andb_true_r; [done|]. apply gmultiset_not_elem_of_empty.
  - intros i HiE. destruct (ei_dom _ _ _ Hi i HiE) as [Hr _]. rewrite (ei_max _ _ _ Hi). split_and!; [lia..| |].
    + rewrite (ei_free _ _ _ Hi), bool_decide_eq_false_2, andb_false_r by (done || lia || tauto). done.
    + apply gmultiset_not_elem_of_empty.
  - rewrite (ei_used _ _ _ Hi), dom_empty_L, size_empty. lia.
Qed.

(** Every reachable state satisfies the invariant, and only frames that were
    free at the start are ever referenced. *)
Lemma run_inv c off regions n E a0 a R :
  u64_ok (fc_max_frames c) → boot c off regions n = Some (a0, E) → rtc frame_step (a0, ∅) (a, R) →
  refs_inv (raw a0) E a R ∧ ∀ i, i ∈ R → is_free (raw a0) i = true.
Proof.
  intros Hc Hboot Hrun.
  set (inv := λ s : FrameAllocator * gmultiset Z, refs_inv (raw a0) E s.1 s.2 ∧
                ∀ i, i ∈ s.2 → is_free (raw a0) i = true).
  change (inv (a, R)). refine (rtc_ind_r (R := frame_step) inv (a0, ∅) _ _ (a, R) Hrun).
  { split; [by eapply boot_inv|]. intros i []%gmultiset_not_elem_of_empty. }
  intros [b S] [b' S'] _ Hstep [Hinv HS]. unfold inv. simpl in *. clear Hrun.
  inversion Hstep as [? ? f ? Ha|? ? e ? Ha|? ? f ? r Hin Hlt Ha|? ? f ? r Hin Ha]; subst; clear Hstep.
  1, 2: destruct (allocate_one_inv _ _ _ _ Hinv) as [(b1 & Heq & Hi' & _)|(b1 & f1 & Heq & _ & Hf0 & Hi')];
    rewrite Heq in Ha; simplify_eq; try done.
  - split; [done|]. intros i [->%gmultiset_elem_of_singleton|]%gmultiset_elem_of_disj_union; eauto.
  - destruct (inc_ref_inv _ _ _ _ f Hinv) as (b1 & Heq & Hi'); [done..|]. rewrite Heq in Ha. simplify_eq. simpl.
    split; [done|]. intros i [->%gmultiset_elem_of_singleton|]%gmultiset_elem_of_disj_union; eauto.
  - destruct (free_frame_inv _ _ _ _ f Hinv HS) as (b1 & Heq & Hi'); [done|]. rewrite Heq in Ha. simplify_eq.
    split; [done|]. intros i [? _]%elem_of_del. eauto.
Qed.

(** C12: Reference counting is exact for the frames allocated after the heap is up,
    and the frames [heap::init] took before, the set [E], stay out of the way: they
    have count 0 and are never free or handed out. Whatever is allocated, shared and
    dropped by holders, the count of a frame is the number of references to it, a frame
    is free exactly when it was free after [init], is not one of the heap's and nobody
    holds a reference, the counter of used frames is exact, sharing and dropping what
    one holds succeed, and an allocation hands out a frame nobody holds or finds none
    in its search range. *)
Theorem frame_refs_exact c off regions n E a0 a R :
  u64_ok (fc_max_frames c) → boot c off regions n = Some (a0, E) → rtc frame_step (a0, ∅) (a, R) →
  (∀ f, 0 ≤ start_address f → get_ref f a = Z.of_nat (multiplicity (phys_frame_to_index f) R)) ∧
  (∀ i, 0 ≤ i → is_free (raw a) i =
     is_free (start_raw c off regions) i && bool_decide (i ∉ E) && bool_decide (i ∉ R)) ∧
  (∀ i, i ∈ E → i ∉ R) ∧
  used_frames (raw a) = Z.of_nat (size E + size (dom R)) ∧
  (∀ f, phys_frame_to_index f ∈ R →
     (inc_ref f a).2 = Ok tt ∨ Z.of_nat (multiplicity (phys_frame_to_index f) R) = U32_MAX) ∧
  (∀ f, phys_frame_to_index f ∈ R → (free_frame f a).2 = Ok tt) ∧
  match (allocate_one a).2 with
  | Ok f => (phys_frame_to_index f ∉ R) ∧ (phys_frame_to_index f ∉ E)
  | Err e => e = OutOfFrames ∧
      ∀ j, 0 ≤ j < Z.max (total_frames (raw a)) (next_hint (raw a)) → is_free (raw a) j = false
  end.
Proof.
  intros Hc Hboot Hrun. destruct (run_inv _ _ _ _ _ _ _ _ Hc Hboot Hrun) as [Hinv HR].
  destruct (boot_inv _ _ _ _ _ _ Hc Hboot) as [_ Hstart]. split_and!.
  - intros f Hf. unfold get_ref. rewrite (ri_ready _ _ _ _ Hinv). apply (ri_count _ _ _ _ Hinv).
    apply Z.div_pos; [done|]. unfold PAGE_SIZE. lia.
  - intros i Hi. by rewrite (ri_free _ _ _ _ Hinv), Hstart.
  - intros i Hi. by apply (ri_early _ _ _ _ Hinv).
  - apply Hinv.
  - intros f Hf. pose proof (ri_bound _ _ _ _ Hinv (phys_frame_to_index f)).
    destruct (decide (Z.of_nat (multiplicity (phys_frame_to_index f) R) = U32_MAX)); [by right|left].
    destruct (inc_ref_inv _ _ _ _ f Hinv Hf) as (? & -> & _); [lia|done].
  - intros f Hf. by destruct (free_frame_inv _ _ _ _ f Hinv HR Hf) as (? & -> & _).
  - destruct (allocate_one_inv _ _ _ _ Hinv) as [(? & -> & _ & Hno)|(? & ? & -> & Hn & Hf0 & _)]; [done|].
    split; [done|]. intros HE. destruct (ri_early _ _ _ _ Hinv _ HE) as (_ & Hf1 & _). congruence.
Qed.

(** ** Where the allocator departs from its description *)

(** [alloc_frame] searches indices below the number of usable frames, not below
    the highest one. With the second MiB as the only usable memory there are 256
    usable frames, all free, but their indices start at 256, and no allocation
    ever succeeds. *)
Lemma usable_frames_out_of_reach :
  match boot FrameConfig_default 0 [mkMemoryRegion 0x100000 0x200000 true] 0 with
  | Some (a, _) => total_frames (raw a) = 256 ∧ forallb (is_free (raw a)) (seqZ 256 256) = true ∧
              (allocate_one a).2 = Err OutOfFrames
  | None => False
  end.
Proof. vm_compute. split_and!; reflexivity. Qed.

Definition small_config : FrameConfig := mkFrameConfig 512 true true false false true.

Definition small_regions : list MemoryRegion := [mkMemoryRegion 0 0x200000 true].

Definition early_start : FrameAllocator :=
  match FrameAllocator_new small_config with
  | Some a => FrameAllocator_init 0 small_regions a
  | None => mkFrameAllocator RawBitmapAllocator_new small_config (mkFrameMetrics 0 0 0 0 0 0 0 0) false [] false
  end.

(** A frame allocated before the heap is up, then counting switched on. *)
Definition early_frame : PhysFrame := phys_frame_from_index 256.
Definition early_ready : FrameAllocator := mark_heap_ready (allocate_one early_start).1.

(** A frame that was allocated before counting started has count 0. Its owner
    cannot give it back; and once it is shared its count is 1 with two holders, so
    that the first of them to drop it frees it and the next allocation hands it
    out again while the other still holds it. *)
Lemma early_frames_not_counted :
  (allocate_one early_start).2 = Ok early_frame ∧
  (free_frame early_frame early_ready).2 = Err (RefcountUnderflow early_frame) ∧
  let shared := (inc_ref early_frame early_ready).1 in
  get_ref early_frame shared = 1 ∧ (allocate_one (free_frame early_frame shared).1).2 = Ok early_frame.
Proof. vm_compute. split_and!; reflexivity. Qed.

(** The comment on [new] says that all frames are marked as used; all are
    marked as free. *)
Lemma new_marks_all_free i : 0 ≤ i < MAX_FRAMES → is_free RawBitmapAllocator_new i = true.
Proof.
  intros Hi. rewrite is_free_bit; [|split; [vm_compute; reflexivity|done]|lia].
  replace (bitmap RawBitmapAllocator_new) with (replicate (Z.to_nat BITMAP_SIZE) 0) by reflexivity.
  apply andb_true_iff. split; [apply Z.ltb_lt; apply Hi|].
  destruct (_ !! _) as [w|] eqn:E; [apply lookup_replicate in E as [-> _]|]; by rewrite Z.bits_0.
Qed.

(** ** A run: boot with two frames for the heap, allocate a frame, share it *)

Definition ex_frame : PhysFrame := phys_frame_from_index 258.

Definition ex_boot : FrameAllocator :=
  match boot small_config 0 small_regions 2 with Some (a, _) => a | None => early_start end.
Definition ex_alloc : FrameAllocator := (allocate_one ex_boot).1.
Definition ex_shared : FrameAllocator := (inc_ref ex_frame ex_alloc).1.

Lemma ex_boot_eq : boot small_config 0 small_regions 2 = Some (ex_boot, {[256]} ∪ ({[257]} ∪ ∅)).
Proof. vm_compute. reflexivity. Qed.

Lemma ex_frame_run : rtc frame_step (ex_boot, ∅) (ex_shared, {[+ 258 +]} ⊎ ({[+ 258 +]} ⊎ ∅)).
Proof.
  eapply rtc_l.
  { apply (step_alloc ex_boot ex_alloc ex_frame ∅). vm_compute. reflexivity. }
  eapply rtc_l; [|apply rtc_refl].
  apply (step_share ex_alloc ex_shared ex_frame _ (Ok tt)); [multiset_solver| |vm_compute; reflexivity].
  vm_compute. reflexivity.
Qed.

Lemma frame_refs_exact_witness :
  get_ref ex_frame ex_shared = 2 ∧ get_ref early_frame ex_shared = 0 ∧ used_frames (raw ex_shared) = 3.
Proof.
  destruct (frame_refs_exact small_config 0 small_regions 2 ({[256]} ∪ ({[257]} ∪ ∅)) ex_boot ex_shared
    ({[+ 258 +]} ⊎ ({[+ 258 +]} ⊎ ∅)))
    as (Hget & _ & _ & Hused & _); [vm_compute; split; discriminate|apply ex_boot_eq|apply ex_frame_run|].
  split_and!; [rewrite Hget by done|rewrite Hget by done|rewrite Hused]; vm_compute; reflexivity.
Defined.
