(* ===== verification/Slab.v ===== *)
(** * The slab allocator ([src/src/mm/slab/mod.rs]).

    Caches of objects of one size, cut from pages. The functions that get and give
    back a page are closures of the manager; here they are the class [PageSource]
    with a state of their own, and [PageSourceLaws] is what the allocator relies
    on. A pointer is its address and memory a map from addresses to bytes. The
    references that [get_cache_mut] gives out are used under the lock of the caches.
    A division by zero is a panic, [None], and so is a call that waits for a lock its
    own caller holds. *)

From Stdlib Require Import ZArith Lia Bool.
From stdpp Require Import base gmap sets strings numbers list.
From S2P Require Import Prelude.

Local Open Scope rust_scope.
Local Open Scope Z_scope.

(** ** Data *)

Definition PHYS_OFF : Z := 0xFFFF800000000000.

Record SlabConfig := mkSlabConfig {
  page_size : Z;
  min_object_size : Z;
  object_align : Z;
  default_caches : list (string * Z);
  collect_metrics : bool;
  log_operations : bool;
}.

Definition DEFAULT_CACHES : list (string * Z) :=
  [("task", 256); ("socket", 512); ("file", 128); ("inode", 192); ("dentry", 96); ("pipe", 64); ("page", 64); ("buffer", 256)]%string.

Definition SlabConfig_default : SlabConfig := mkSlabConfig 4096 8 16 DEFAULT_CACHES true false.

Definition SlabConfig_validate (c : SlabConfig) : result unit string :=
  if page_size c =? 0 then Err "page_size must be > 0"%string
  else if min_object_size c =? 0 then Err "min_object_size must be > 0"%string
  else if object_align c =? 0 then Err "object_align must be > 0"%string
  else if negb (Z.land (page_size c) (page_size c - 1) =? 0) then Err "page_size must be a power of two"%string
  else if negb (Z.land (object_align c) (object_align c - 1) =? 0) then Err "object_align must be a power of two"%string
  else Ok tt.

Inductive SlabError :=
| CacheNotFound (name : string)
| CacheAlreadyExists (name : string)
| InvalidObjectSize (size min : Z)
| AllocationFailed (name : string)
| DoubleFree (name : string)
| SlabConfigError (s : string).

Record SlabCache := mkSlabCache {
  obj_size : Z;
  free_list : list Z;
  total : Z;
  free : Z;
  pages : Z;
  name : string;
  config : SlabConfig;
}.

#[export] Instance eta_SlabCache : Settable SlabCache :=
  λ c, mkSlabCache (obj_size c) (free_list c) (total c) (free c) (pages c) (name c) (config c).

Record SlabStats := mkSlabStats {
  st_name : string;
  st_total : Z;
  st_free : Z;
  st_pages : Z;
}.

Record SlabMetrics := mkSlabMetrics {
  allocations : Z;
  frees : Z;
  allocation_failures : Z;
  free_failures : Z;
  grows : Z;
  cache_creations : Z;
  cache_deletions : Z;
}.

#[export] Instance eta_SlabMetrics : Settable SlabMetrics :=
  λ m, mkSlabMetrics (allocations m) (frees m) (allocation_failures m) (free_failures m) (grows m)
         (cache_creations m) (cache_deletions m).

Record SlabManager := mkSlabManager {
  m_config : SlabConfig;
  caches : gmap string SlabCache;
  metrics : SlabMetrics;
}.

#[export] Instance eta_SlabManager : Settable SlabManager := λ m, mkSlabManager (m_config m) (caches m) (metrics m).

(** [alloc_page_fn]. *)
Class PageSource (S : Type) := { alloc_page : S → option (S * option Z) }.

(** The machine below the allocator: the source of pages and memory. *)
Record World (S : Type) := mkWorld {
  source : S;
  memory : gmap Z Z;
}.
Arguments mkWorld {S}.
Arguments source {S}.
Arguments memory {S}.

#[export] Instance eta_World S : Settable (World S) := λ w, mkWorld (source w) (memory w).

(** [ptr::write_bytes(p, 0, n)]. *)
Definition zero_bytes (p n : Z) (m : gmap Z Z) : gmap Z Z := foldl (λ m i, <[p + i := 0]> m) m (seqZ 0 n).

(** ** A cache *)

(** [(size + align - 1) & !(align - 1)] for a power of two. *)
Definition align_up (size align : Z) : Z := Z.ldiff (sub64 (add64 size align) 1) (sub64 align 1).

Definition SlabCache_new (nm : string) (size : Z) (c : SlabConfig) : result SlabCache SlabError :=
  if size <? min_object_size c then Err (InvalidObjectSize size (min_object_size c))
  else
    let sz := align_up size (object_align c) in
    if page_size c <? sz then Err (InvalidObjectSize size (min_object_size c))
    else Ok (mkSlabCache sz [] 0 0 0 nm c).

Section slab.
Context {S : Type} `{PageSource S}.
Implicit Types w : World S.

Definition SlabCache_grow (c : SlabCache) w : option (World S * SlabCache * bool) :=
  '(s, p) ← alloc_page (source w);
  let w := w <| source := s |> in
  match p with
  | None => Some (w, c, false)
  | Some p =>
    if obj_size c =? 0 then None
    else
      let v := add64 PHYS_OFF p in
      let n := page_size (config c) `div` obj_size c in
      let c := c <| free_list := free_list c ++ ((λ i, add64 v (i * obj_size c)) <$> seqZ 0 n) |>
                 <| total := add64 (total c) n |> <| free := add64 (free c) n |> <| pages := add64 (pages c) 1 |> in
      Some (w, c, true)
  end.

Definition SlabCache_take (c : SlabCache) w : World S * SlabCache * option Z :=
  match last (free_list c) with
  | None => (w, c, None)
  | Some p =>
    (w <| memory := zero_bytes p (obj_size c) (memory w) |>,
     c <| free_list := removelast (free_list c) |> <| free := sub64 (free c) 1 |>, Some p)
  end.

Definition SlabCache_alloc (c : SlabCache) w : option (World S * SlabCache * option Z) :=
  match free_list c with
  | [] =>
    '(w, c, grown) ← SlabCache_grow c w;
    if negb grown then Some (w, c, None) else Some (SlabCache_take c w)
  | _ => Some (SlabCache_take c w)
  end.

Definition SlabCache_free (p : Z) (c : SlabCache) : SlabCache * result unit SlabError :=
  if p =? 0 then (c, Ok tt)
  else if bool_decide (p ∈ free_list c) then (c, Err (DoubleFree (name c)))
  else (c <| free_list := free_list c ++ [p] |> <| free := add64 (free c) 1 |>, Ok tt).

Definition SlabCache_clear (c : SlabCache) : SlabCache :=
  c <| free_list := [] |> <| total := 0 |> <| free := 0 |> <| pages := 0 |>.

Definition merge_stats (c : SlabCache) (t : SlabStats) : SlabStats :=
  mkSlabStats (name c) (add64 (st_total t) (total c)) (add64 (st_free t) (free c)) (add64 (st_pages t) (pages c)).

(** ** The manager *)

Definition create_cache (nm : string) (size : Z) (m : SlabManager) : SlabManager * result unit SlabError :=
  match caches m !! nm with
  | Some _ => (m, Err (CacheAlreadyExists nm))
  | None =>
    match SlabCache_new nm size (m_config m) with
    | Err e => (m, Err e)
    | Ok c =>
      (m <| caches := <[nm := c]> (caches m) |>
         <| metrics := (metrics m) <| cache_creations := add64 (cache_creations (metrics m)) 1 |> |>, Ok tt)
    end
  end.

(** Panics on an invalid configuration. *)
Definition SlabManager_new (c : SlabConfig) : option SlabManager :=
  match SlabConfig_validate c with
  | Err _ => None
  | Ok _ => Some (foldl (λ m '(nm, size), (create_cache nm size m).1) (mkSlabManager c ∅ (mkSlabMetrics 0 0 0 0 0 0 0)) (default_caches c))
  end.

Definition SlabManager_alloc (nm : string) (m : SlabManager) w : option (World S * SlabManager * result Z SlabError) :=
  match caches m !! nm with
  | None => Some (w, m, Err (CacheNotFound nm))
  | Some c =>
    '(w, c, p) ← SlabCache_alloc c w;
    let m := m <| caches := <[nm := c]> (caches m) |> in
    match p with
    | Some p => Some (w, m <| metrics := (metrics m) <| allocations := add64 (allocations (metrics m)) 1 |> |>, Ok p)
    | None =>
      Some (w, m <| metrics := (metrics m) <| allocation_failures := add64 (allocation_failures (metrics m)) 1 |> |>,
            Err (AllocationFailed nm))
    end
  end.

Definition SlabManager_free (nm : string) (p : Z) (m : SlabManager) : SlabManager * result unit SlabError :=
  match caches m !! nm with
  | None => (m, Err (CacheNotFound nm))
  | Some c =>
    let '(c, r) := SlabCache_free p c in
    let m := m <| caches := <[nm := c]> (caches m) |> in
    match r with
    | Ok _ => (m <| metrics := (metrics m) <| frees := add64 (frees (metrics m)) 1 |> |>, Ok tt)
    | Err e => (m <| metrics := (metrics m) <| free_failures := add64 (free_failures (metrics m)) 1 |> |>, Err e)
    end
  end.

Definition delete_cache (nm : string) (m : SlabManager) : SlabManager * result unit SlabError :=
  match caches m !! nm with
  | None => (m, Err (CacheNotFound nm))
  | Some _ =>
    (m <| caches := delete nm (caches m) |>
       <| metrics := (metrics m) <| cache_deletions := add64 (cache_deletions (metrics m)) 1 |> |>, Ok tt)
  end.

Definition cache_stats (nm : string) (m : SlabManager) : result SlabStats SlabError :=
  match caches m !! nm with
  | None => Err (CacheNotFound nm)
  | Some c => Ok (merge_stats c (mkSlabStats EmptyString 0 0 0))
  end.

Definition all_stats (m : SlabManager) : list SlabStats :=
  (λ '(_, c), merge_stats c (mkSlabStats EmptyString 0 0 0)) <$> btree_iter (caches m).

Definition total_memory_used (m : SlabManager) : Z :=
  foldl (λ n '(_, c), add64 n (mul64 (pages c) (page_size (m_config m)))) 0 (btree_iter (caches m)).

(** [reset] holds the lock of the caches when it calls [create_cache]. *)
Definition SlabManager_reset (m : SlabManager) : option SlabManager :=
  match default_caches (m_config m) with
  | [] => Some (m <| caches := ∅ |>)
  | _ => None
  end.
End slab.

(** ** What the allocator relies on *)

(** [out s P]: the pages [P] have been handed out. They are different, do not
    overlap, and the kernel reaches them at [PHYS_OFF]. *)
Class PageSourceLaws (S : Type) `{PageSource S} (size : Z) (out : S → list Z → Prop) := {
  out_size : 0 < size ≤ 2 ^ 16;
  out_nodup s P : out s P → NoDup P;
  out_range s P p : out s P → p ∈ P → 0 ≤ p ∧ p + size ≤ 2 ^ 47;
  out_apart s P p q : out s P → p ∈ P → q ∈ P → p ≠ q → p + size ≤ q ∨ q + size ≤ p;
  alloc_page_law s P : out s P →
    ∃ s' r, alloc_page s = Some (s', r) ∧ match r with Some p => out s' (p :: P) | None => out s' P end;
}.

(** ** Sizes *)

Lemma align_up_spec size align k :
  align = 2 ^ k → 0 ≤ k → 0 < size → size + align ≤ U64_MAX → size ≤ align_up size align < size + align.
Proof.
  intros -> Hk Hs Hu. pose proof (Z.pow_pos_nonneg 2 k ltac:(lia) Hk) as Hp. unfold align_up.
  rewrite (add64_small size) by (mach_unfold; lia). rewrite !sub64_small by (mach_unfold; lia).
  replace (2 ^ k - 1) with (Z.ones k) by (rewrite Z.ones_equiv; lia).
  rewrite Z.ldiff_ones_r, Z.shiftl_mul_pow2, Z.shiftr_div_pow2 by done.
  pose proof (Z.div_mod (size + 2 ^ k - 1) (2 ^ k) ltac:(lia)). pose proof (Z.mod_pos_bound (size + 2 ^ k - 1) (2 ^ k) Hp). lia.
Qed.

Definition config_ok (c : SlabConfig) (size : Z) : Prop :=
  page_size c = size ∧ 0 ≤ min_object_size c ∧ 0 ≤ object_align c ∧ SlabConfig_validate c = Ok tt.

Lemma SlabCache_new_spec nm sz c size :
  config_ok c size → 0 < size → sz + object_align c ≤ U64_MAX →
  match SlabCache_new nm sz c with
  | Ok s => s = mkSlabCache (obj_size s) [] 0 0 0 nm c ∧ 0 < obj_size s ≤ size ∧ sz ≤ obj_size s
  | Err _ => True
  end.
Proof.
  intros (Hsz & Hmin & Hal & Hv) Hpos Hu. unfold SlabCache_new, SlabConfig_validate in *.
  destruct (Z.ltb_spec sz (min_object_size c)) as [|Hge]; [done|]. destruct (Z.ltb_spec (page_size c) (align_up sz (object_align c))); [done|].
  destruct (Z.eqb_spec (page_size c) 0); [done|]. destruct (Z.eqb_spec (min_object_size c) 0); [done|].
  destruct (Z.eqb_spec (object_align c) 0); [done|]. destruct (negb _); [done|].
  destruct (Z.eqb_spec (Z.land (object_align c) (object_align c - 1)) 0) as [Hl|]; [|done].
  destruct (power_of_two (object_align c)) as (k & Hk & Hk'); [lia|done|].
  pose proof (align_up_spec sz _ k Hk' Hk ltac:(lia) Hu). split; [done|]. simpl. lia.
Qed.

(** ** Objects *)

(** The objects of a page, and of some pages. *)
Definition objs (sz n p : Z) : list Z := (λ i, PHYS_OFF + p + i * sz) <$> seqZ 0 n.

Lemma elem_of_objs sz n p x : x ∈ objs sz n p ↔ ∃ i, x = PHYS_OFF + p + i * sz ∧ 0 ≤ i < n.
Proof. unfold objs. rewrite list_elem_of_fmap. setoid_rewrite elem_of_seqZ. naive_solver lia. Qed.

Section objects.
Context {S : Type} `{PageSource S} (size : Z) (out : S → list Z → Prop) `{!PageSourceLaws S size out}.
Context (sz : Z) (Hsz : 0 < sz ≤ size).

Let n := size `div` sz.

Lemma per_page : 0 < n ∧ n * sz ≤ size.
Proof. unfold n. split; [apply Z.div_str_pos; lia|]. rewrite Z.mul_comm. apply Z.mul_div_le. lia. Qed.

Lemma obj_bounds p x : x ∈ objs sz n p → PHYS_OFF + p ≤ x ∧ x + sz ≤ PHYS_OFF + p + size.
Proof. intros (i & -> & Hi)%elem_of_objs. pose proof per_page. nia. Qed.

Lemma objs_NoDup p : NoDup (objs sz n p).
Proof. apply NoDup_fmap_2_strong; [|apply NoDup_seqZ]. intros i j _ _ Hij. nia. Qed.

Lemma objs_apart p x y : x ∈ objs sz n p → y ∈ objs sz n p → x ≠ y → x + sz ≤ y ∨ y + sz ≤ x.
Proof. intros (i & -> & Hi)%elem_of_objs (j & -> & Hj)%elem_of_objs Hne. assert (i ≠ j) by congruence. nia. Qed.

(** Objects of different pages are apart, whatever their sizes. *)
Lemma pages_apart s P p q x y sz' :
  out s P → p ∈ P → q ∈ P → p ≠ q → 0 < sz' ≤ size → x ∈ objs sz n p → y ∈ objs sz' (size `div` sz') q →
  x + sz ≤ y ∨ y + sz' ≤ x.
Proof.
  intros Hout Hp Hq Hpq Hsz' Hx%obj_bounds (j & -> & Hj)%elem_of_objs.
  assert (size `div` sz' * sz' ≤ size) by (rewrite Z.mul_comm; apply Z.mul_div_le; lia).
  destruct (out_apart s P p q Hout Hp Hq Hpq); nia.
Qed.

Lemma all_objs_NoDup s P Q : out s P → NoDup Q → (∀ p, p ∈ Q → p ∈ P) → NoDup (Q ≫= objs sz n).
Proof.
  intros Hout HQ HP. induction HQ as [|p Q Hp HQ IH]; [constructor|]. rewrite bind_cons. apply NoDup_app. split_and!.
  - apply objs_NoDup.
  - intros x Hx (q & Hx' & Hq)%list_elem_of_bind.
    destruct (pages_apart s P p q x x sz Hout) as [?|?]; try lia; try done; [apply HP; by left|apply HP; by right|congruence].
  - apply IH. intros q Hq. apply HP. by right.
Qed.
End objects.

(** ** The invariant of a cache

    [P] are its pages and [live] the objects that are in use. *)

Record cache_ok (size : Z) (nm : string) (c : SlabCache) (P live : list Z) : Prop := {
  ck_size : 0 < obj_size c ≤ size;
  ck_page : page_size (config c) = size;
  ck_name : name c = nm;
  ck_objs : free_list c ++ live ≡ₚ P ≫= objs (obj_size c) (size `div` obj_size c);
  ck_total : total c = Z.of_nat (length (free_list c ++ live));
  ck_free : free c = Z.of_nat (length (free_list c));
  ck_pages : pages c = Z.of_nat (length P);
}.

Lemma zero_bytes_lookup p n m a : 0 ≤ n → zero_bytes p n m !! a = if decide (p ≤ a < p + n) then Some 0 else m !! a.
Proof.
  intros Hn. unfold zero_bytes.
  assert (∀ (l : list Z) (m : gmap Z Z), foldl (λ m i, <[p + i := 0]> m) m l !! a = if decide (a - p ∈ l) then Some 0 else m !! a) as Hl.
  { induction l as [|i l IH]; intros m0; cbn [foldl]; [done|]. rewrite IH.
    destruct (decide (a - p ∈ l)) as [Hin|Hn1]; [by rewrite decide_True by (by right)|].
    destruct (decide (a = p + i)) as [->|Hne]; [rewrite lookup_insert_eq, decide_True; [done|]; apply elem_of_cons; left; lia|].
    rewrite lookup_insert_ne by done. rewrite decide_False; [done|]. intros [?|?]%elem_of_cons; [lia|done]. }
  rewrite Hl. assert (a - p ∈ seqZ 0 n ↔ p ≤ a < p + n) by (rewrite elem_of_seqZ; lia).
  destruct (decide (p ≤ a < p + n)); [rewrite decide_True by tauto|rewrite decide_False by tauto]; done.
Qed.

Section cache.
Context {S : Type} `{PageSource S} (size : Z) (out : S → list Z → Prop) `{!PageSourceLaws S size out}.
Implicit Types w : World S.

Lemma pages_bound s P : out s P → Z.of_nat (length P) ≤ 2 ^ 47.
Proof.
  intros Hout. apply NoDup_range_length; [by eapply out_nodup|done|]. intros p Hp. pose proof out_size.
  pose proof (out_range s P p Hout Hp). lia.
Qed.

Lemma bind_objs_length sz n P : 0 ≤ n → Z.of_nat (length (P ≫= objs sz n)) = Z.of_nat (length P) * n.
Proof.
  intros Hn. induction P as [|p P IH]; [done|]. rewrite bind_cons, length_app. unfold objs at 1.
  rewrite length_fmap, length_seqZ. cbn [length]. lia.
Qed.

Lemma objs_bound nm c P Q live s : out s P → (length Q ≤ length P)%nat → cache_ok size nm c Q live → Z.of_nat (length (free_list c ++ live)) ≤ 2 ^ 63.
Proof.
  intros Hout HPQ Hc. pose proof (pages_bound s P Hout) as Hb. rewrite (ck_objs _ _ _ _ _ Hc).
  pose proof (ck_size _ _ _ _ _ Hc) as Hs. pose proof out_size as Hsz.
  rewrite bind_objs_length by (apply Z.div_pos; lia). assert (size `div` obj_size c ≤ size) by (apply Z.div_le_upper_bound; nia). nia.
Qed.

(** The free list gets the objects of a new page. *)
Lemma cache_grow_ok nm c P live w Q :
  cache_ok size nm c P live → Z.of_nat (length (free_list c ++ live)) ≤ 2 ^ 63 → Z.of_nat (length P) ≤ 2 ^ 47 → out (source w) Q →
  ∃ s c' b, SlabCache_grow c w = Some (w <| source := s |>, c', b) ∧ obj_size c' = obj_size c ∧
    if b then free_list c' ≠ [] ∧ ∃ p, out s (p :: Q) ∧ cache_ok size nm c' (p :: P) live else c' = c ∧ out s Q.
Proof.
  intros Hc Hlen Hlp Hout. unfold SlabCache_grow. destruct (alloc_page_law (source w) Q Hout) as (s & r & -> & Hr). cbn [mbind option_bind].
  pose proof (ck_size _ _ _ _ _ Hc) as Hs. pose proof out_size as Hsz. destruct r as [p|]; [|by eexists s, c, false].
  destruct (Z.eqb_spec (obj_size c) 0) as [|Hz]; [lia|]. rewrite (ck_page _ _ _ _ _ Hc).
  pose proof (out_range s (p :: Q) p Hr ltac:(by left)) as Hp.
  destruct (per_page size (obj_size c) Hs) as [Hn1 Hn2]. set (n := size `div` obj_size c) in *.
  assert (((λ i, add64 (add64 PHYS_OFF p) (i * obj_size c)) <$> seqZ 0 n) = objs (obj_size c) n p) as ->.
  { unfold objs. apply list_fmap_ext. intros k i [-> Hk]%lookup_seqZ.
    rewrite (add64_small PHYS_OFF) by (unfold PHYS_OFF; mach_unfold; lia). rewrite add64_small; [done|]. unfold PHYS_OFF. mach_unfold. nia. }
  assert (Z.of_nat (length (objs (obj_size c) n p)) = n) as Hlo by (unfold objs; rewrite length_fmap, length_seqZ; lia).
  assert (n ≤ 2 ^ 16) by nia. rewrite length_app in Hlen.
  eexists s, _, true. split; [done|]. split; [done|]. split.
  { simpl. intros [_ Hnil]%app_eq_nil. rewrite Hnil in Hlo. simpl in Hlo. lia. }
  exists p. split; [done|]. split; simpl; try apply Hc.
  - fold n. pose proof (ck_objs _ _ _ _ _ Hc) as Hob. fold n in Hob.
    change ((free_list c ++ objs (obj_size c) n p) ++ live ≡ₚ objs (obj_size c) n p ++ (P ≫= objs (obj_size c) n)).
    rewrite <-Hob. solve_Permutation.
  - rewrite (ck_total _ _ _ _ _ Hc), !length_app. rewrite add64_small; mach_unfold; lia.
  - rewrite (ck_free _ _ _ _ _ Hc), !length_app. rewrite add64_small; mach_unfold; lia.
  - rewrite (ck_pages _ _ _ _ _ Hc). rewrite add64_small; mach_unfold; lia.
Qed.

(** Taking the last object of the free list. *)
Lemma take_ok nm c P live w :
  cache_ok size nm c P live → free_list c ≠ [] → Z.of_nat (length (free_list c)) ≤ U64_MAX →
  ∃ c' p, SlabCache_take c w = (w <| memory := zero_bytes p (obj_size c) (memory w) |>, c', Some p) ∧
    cache_ok size nm c' P (p :: live) ∧ obj_size c' = obj_size c.
Proof.
  intros Hc Hne Hlen. unfold SlabCache_take. destruct (last (free_list c)) as [p|] eqn:Hl; [|by apply last_None in Hl].
  apply last_Some in Hl as [l' Hl].
  assert (removelast (free_list c) = l') as Hrl by (rewrite Hl; apply removelast_last).
  assert (free_list c ++ live ≡ₚ l' ++ p :: live) as Hperm by (rewrite Hl, <-app_assoc; done).
  eexists _, p. split; [done|]. split; [|done]. split; simpl; rewrite ?Hrl, <-?Hperm; try apply Hc.
  rewrite (ck_free _ _ _ _ _ Hc). rewrite Hl, length_app in *. cbn [length] in *. rewrite sub64_small; mach_unfold; lia.
Qed.

(** An allocation, with the page the cache may have got for it. *)
Lemma cache_alloc_ok nm c P live w Q :
  cache_ok size nm c P live → (length P ≤ length Q)%nat → out (source w) Q →
  ∃ w' c' r new, SlabCache_alloc c w = Some (w', c', r) ∧ obj_size c' = obj_size c ∧ out (source w') (new ++ Q) ∧
    match r with
    | Some p => cache_ok size nm c' (new ++ P) (p :: live) ∧ memory w' = zero_bytes p (obj_size c) (memory w)
    | None => cache_ok size nm c' (new ++ P) live ∧ memory w' = memory w
    end.
Proof.
  intros Hc HPQ Hout. pose proof (objs_bound nm c Q P live _ Hout HPQ Hc) as Hlen. pose proof (pages_bound _ _ Hout) as Hlq. unfold SlabCache_alloc. destruct (free_list c) as [|x l] eqn:Hfl.
  - rewrite <-Hfl in Hlen. destruct (cache_grow_ok nm c P live w Q Hc Hlen ltac:(lia) Hout) as (s & c1 & b & -> & Hs & Hb). cbn [mbind option_bind].
    destruct b; cbn [negb]; [|destruct Hb as [-> Hb]; by exists (w <| source := s |>), c, None, []].
    destruct Hb as (Hne & p0 & Hout' & Hc1).
    assert (Z.of_nat (length (free_list c1)) ≤ U64_MAX) as Hl1.
    { pose proof (objs_bound nm c1 (p0 :: Q) (p0 :: P) live s Hout' ltac:(simpl; lia) Hc1) as Hb. rewrite length_app in Hb. mach_unfold. lia. }
    destruct (take_ok nm c1 _ _ (w <| source := s |>) Hc1 Hne Hl1) as (c' & p & -> & Hc' & Hs').
    eexists _, c', (Some p), [p0]. split; [done|]. split; [congruence|]. split; [done|]. split; [done|]. by rewrite Hs.
  - rewrite <-Hfl in Hlen. rewrite length_app in Hlen. assert (free_list c ≠ []) as Hne by (by rewrite Hfl).
    destruct (take_ok nm c _ _ w Hc Hne) as (c' & p & -> & Hc' & Hs'); [mach_unfold; lia|].
    by eexists _, c', (Some p), [].
Qed.

(** Giving back an object in use, and giving it back twice. *)
Lemma free_ok nm c P live live' p :
  cache_ok size nm c P live → Z.of_nat (length (free_list c ++ live)) ≤ 2 ^ 63 → NoDup (P ≫= objs (obj_size c) (size `div` obj_size c)) →
  live ≡ₚ p :: live' → p ≠ 0 →
  ∃ c', SlabCache_free p c = (c', Ok tt) ∧ cache_ok size nm c' P live' ∧ obj_size c' = obj_size c ∧
    SlabCache_free p c' = (c', Err (DoubleFree nm)).
Proof.
  intros Hc Hlen Hnd Hl Hp. unfold SlabCache_free at 1. destruct (Z.eqb_spec p 0); [done|].
  rewrite <-(ck_objs _ _ _ _ _ Hc), Hl in Hnd. apply NoDup_app in Hnd as (_ & Hnd & _).
  rewrite bool_decide_false by (intros Hin; apply (Hnd p Hin); by left).
  assert (free_list c ++ live ≡ₚ (free_list c ++ [p]) ++ live') as Hperm by (rewrite Hl, <-app_assoc; done).
  rewrite length_app in Hlen. assert (length live ≠ 0%nat) by (rewrite Hl; done).
  eexists. split; [done|]. split_and!; [|done|].
  - split; simpl; rewrite <-?Hperm; try apply Hc. rewrite (ck_free _ _ _ _ _ Hc), length_app. cbn [length]. rewrite add64_small; mach_unfold; lia.
  - unfold SlabCache_free. simpl. destruct (Z.eqb_spec p 0); [done|]. rewrite bool_decide_true by (apply elem_of_app; right; by left).
    by rewrite (ck_name _ _ _ _ _ Hc).
Qed.
End cache.

(** ** The invariant of the manager *)

(** What a list of named things holds under a name. *)
Definition of_name {K} `{EqDecision K} (k : K) (l : list (K * Z)) : list Z :=
  omap (λ x, if decide (x.1 = k) then Some x.2 else None) l.

Section of_name.
Context {K : Type} `{EqDecision K}.
Implicit Types (k : K) (l : list (K * Z)).

Lemma of_name_same k x l : of_name k ((k, x) :: l) = x :: of_name k l.
Proof. unfold of_name. cbn [omap list_omap fst snd]. by rewrite decide_True by done. Qed.

Lemma of_name_other k k' x l : k' ≠ k → of_name k ((k', x) :: l) = of_name k l.
Proof. intros Hk. unfold of_name. cbn [omap list_omap fst snd]. by rewrite decide_False by done. Qed.

Lemma elem_of_of_name k x l : x ∈ of_name k l ↔ (k, x) ∈ l.
Proof.
  unfold of_name. rewrite list_elem_of_omap. split.
  - intros ([k' y] & Hin & Hd). cbn [fst snd] in Hd. destruct (decide (k' = k)) as [->|]; [|done]. by injection Hd as ->.
  - intros Hin. exists (k, x). split; [done|]. cbn [fst snd]. by rewrite decide_True.
Qed.

#[global] Instance of_name_perm k : Proper ((≡ₚ) ==> (≡ₚ)) (of_name k).
Proof. intros l l' Hl. unfold of_name. by rewrite Hl. Qed.

Lemma of_name_NoDup l : (∀ k, NoDup (of_name k l)) → NoDup l.
Proof.
  induction l as [|[k x] l IH]; intros Hnd; [constructor|]. constructor.
  - intros Hin. specialize (Hnd k). rewrite of_name_same in Hnd. apply NoDup_cons in Hnd as [Hx _]. by apply Hx, elem_of_of_name.
  - apply IH. intros k'. specialize (Hnd k'). destruct (decide (k = k')) as [->|Hk].
    + rewrite of_name_same in Hnd. by apply NoDup_cons in Hnd as [_ ?].
    + by rewrite of_name_other in Hnd.
Qed.

Lemma of_name_nil k l : (∀ x, (k, x) ∉ l) → of_name k l = [].
Proof.
  intros Hn. destruct (of_name k l) as [|x l'] eqn:Hl; [done|]. destruct (Hn x). apply elem_of_of_name. rewrite Hl. by left.
Qed.

Lemma of_name_incl k x l : x ∈ of_name k l → x ∈ l.*2.
Proof. intros Hx%elem_of_of_name. apply list_elem_of_fmap. by exists (k, x). Qed.

Lemma of_name_NoDup_2 k l : NoDup l.*2 → NoDup (of_name k l).
Proof.
  induction l as [|[k' x] l IH]; intros Hnd; [constructor|]. rewrite fmap_cons in Hnd. apply NoDup_cons in Hnd as [Hx Hnd].
  destruct (decide (k' = k)) as [->|Hk]; [rewrite of_name_same|rewrite of_name_other by done; auto].
  constructor; [|auto]. intros Hin. by apply Hx, (of_name_incl k).
Qed.

Lemma of_name_unique k k' x l : NoDup l.*2 → (k, x) ∈ l → (k', x) ∈ l → k = k'.
Proof.
  intros Hnd [i Hi]%list_elem_of_lookup [j Hj]%list_elem_of_lookup.
  assert (i = j) as ->; [|congruence]. apply (NoDup_lookup l.*2 i j x Hnd); rewrite list_lookup_fmap; [by rewrite Hi|by rewrite Hj].
Qed.

Lemma of_name_length_le k l : (length (of_name k l) ≤ length l)%nat.
Proof. unfold of_name. induction l as [|y l IH]; [done|]. cbn [omap list_omap]. case_match; cbn [length]; lia. Qed.
End of_name.

Lemma cache_ok_perm size nm c P live live' : live ≡ₚ live' → cache_ok size nm c P live → cache_ok size nm c P live'.
Proof. intros Hl Hc. split; rewrite <-?Hl; apply Hc. Qed.

Lemma new_cache_ok size nm c m : config_ok m size → c = mkSlabCache (obj_size c) [] 0 0 0 nm m → 0 < obj_size c ≤ size → cache_ok size nm c [] [].
Proof. intros Hm -> Hc. split; try done. apply Hm. Qed.

Section manager.
Context {S : Type} `{PageSource S} (size : Z) (out : S → list Z → Prop) `{!PageSourceLaws S size out}.
Implicit Types (w : World S) (m : SlabManager) (live : list (string * Z)) (owned : list (option string * Z)).

(** [owned] are the pages with the cache each belongs to, if it still exists. *)
Record slab_inv m w live owned : Prop := {
  si_config : config_ok (m_config m) size;
  si_out : out (source w) owned.*2;
  si_cache nm c : caches m !! nm = Some c → cache_ok size nm c (of_name (Some nm) owned) (of_name nm live);
  si_live nm p : (nm, p) ∈ live → is_Some (caches m !! nm);
  si_owned nm p : (Some nm, p) ∈ owned → is_Some (caches m !! nm);
}.

Lemma inv_update m m' w w' live live' owned owned' nm c :
  slab_inv m w live owned → m_config m' = m_config m → caches m' = <[nm := c]> (caches m) → out (source w') owned'.*2 →
  cache_ok size nm c (of_name (Some nm) owned') (of_name nm live') →
  (∀ k, k ≠ nm → of_name k live' ≡ₚ of_name k live) → (∀ k, k ≠ nm → of_name (Some k) owned' = of_name (Some k) owned) →
  slab_inv m' w' live' owned'.
Proof.
  intros Hi Hcf Hca Hout Hc Hlive Howned. split.
  - rewrite Hcf. apply Hi.
  - done.
  - intros k d Hk. rewrite Hca in Hk. destruct (decide (k = nm)) as [->|Hne].
    + rewrite lookup_insert_eq in Hk. by injection Hk as <-.
    + rewrite lookup_insert_ne in Hk by done. rewrite Howned by done.
      refine (cache_ok_perm _ _ _ _ _ _ _ (si_cache _ _ _ _ Hi k d Hk)). symmetry. by apply Hlive.
  - intros k p Hp. rewrite Hca, lookup_insert_is_Some. destruct (decide (nm = k)) as [|Hne]; [by left|right]. split; [done|].
    apply (si_live _ _ _ _ Hi k p), elem_of_of_name. rewrite <-Hlive by done. by apply elem_of_of_name.
  - intros k p Hp. rewrite Hca, lookup_insert_is_Some. destruct (decide (nm = k)) as [|Hne]; [by left|right]. split; [done|].
    apply (si_owned _ _ _ _ Hi k p), elem_of_of_name. rewrite <-Howned by done. by apply elem_of_of_name.
Qed.

Lemma inv_same m m' w w' live owned :
  slab_inv m w live owned → m_config m' = m_config m → caches m' = caches m → out (source w') owned.*2 → slab_inv m' w' live owned.
Proof. intros Hi Hcf Hca Hout. split; rewrite ?Hcf, ?Hca; try done; apply Hi. Qed.

Lemma slab_create_inv nm sz m w live owned :
  slab_inv m w live owned → sz + object_align (m_config m) ≤ U64_MAX → slab_inv (create_cache nm sz m).1 w live owned.
Proof.
  intros Hi Hsz. unfold create_cache. destruct (caches m !! nm) as [d|] eqn:Hd; [done|].
  pose proof (SlabCache_new_spec nm sz (m_config m) size (si_config _ _ _ _ Hi) (proj1 out_size) Hsz) as Hnew.
  destruct (SlabCache_new _ _ _) as [c|e]; [|done]. destruct Hnew as (Hc & Hb & _). cbn [fst].
  apply (inv_update m _ w w live live owned owned nm c Hi); try done; [apply Hi|].
  rewrite !of_name_nil; [by eapply new_cache_ok; [apply Hi| |]| |].
  - intros p Hp. apply (si_live _ _ _ _ Hi) in Hp. rewrite Hd in Hp. by apply is_Some_None in Hp.
  - intros p Hp. apply (si_owned _ _ _ _ Hi) in Hp. rewrite Hd in Hp. by apply is_Some_None in Hp.
Qed.

Lemma create_config nm sz m : m_config (create_cache nm sz m).1 = m_config m.
Proof. unfold create_cache. destruct (caches m !! nm); [done|]. by destruct (SlabCache_new _ _ _). Qed.

Lemma slab_new_inv c m w :
  config_ok c size → Forall (λ x, x.2 + object_align c ≤ U64_MAX) (default_caches c) → SlabManager_new c = Some m → out (source w) [] →
  slab_inv m w [] [].
Proof.
  intros Hc Hd Hm Hout. unfold SlabManager_new in Hm. destruct (SlabConfig_validate c); [|done]. injection Hm as <-.
  assert (∀ l m, slab_inv m w [] [] → m_config m = c → Forall (λ x, x.2 + object_align c ≤ U64_MAX) l →
    slab_inv (foldl (λ m '(nm, sz), (create_cache nm sz m).1) m l) w [] []) as Hf.
  { induction l as [|[k z] l IH]; intros m Hm Hcf Hl; [done|]. apply Forall_cons in Hl as [Hz Hl]. cbn [foldl].
    apply IH; [apply slab_create_inv; [done|by rewrite Hcf]|by rewrite create_config|done]. }
  apply Hf; [|done|done]. split; [done|done| | |].
  - intros nm d Hnm. cbn [caches] in Hnm. by rewrite lookup_empty in Hnm.
  - intros nm p Hp. by apply not_elem_of_nil in Hp.
  - intros nm p Hp. by apply not_elem_of_nil in Hp.
Qed.

(** What holds of every cache of the manager. *)
Lemma inv_cache m w live owned nm c :
  slab_inv m w live owned → caches m !! nm = Some c →
  cache_ok size nm c (of_name (Some nm) owned) (of_name nm live) ∧
  Z.of_nat (length (free_list c ++ of_name nm live)) ≤ 2 ^ 63 ∧ (length (of_name (Some nm) owned) ≤ length owned.*2)%nat ∧
  NoDup (of_name (Some nm) owned ≫= objs (obj_size c) (size `div` obj_size c)).
Proof.
  intros Hi Hc. pose proof (si_cache _ _ _ _ Hi nm c Hc) as Hck. pose proof (si_out _ _ _ _ Hi) as Hout.
  pose proof (of_name_length_le (Some nm) owned) as Hle. rewrite <-(length_fmap snd) in Hle. split_and!.
  - done.
  - by apply (objs_bound size out nm c owned.*2 _ _ _ Hout Hle).
  - done.
  - apply (all_objs_NoDup size out (obj_size c) (ck_size _ _ _ _ _ Hck) (source w) owned.*2); [done| |].
    + apply of_name_NoDup_2, (out_nodup _ _ Hout).
    + intros p. apply of_name_incl.
Qed.

(** An allocation: a zeroed object, or none. *)
Lemma slab_alloc_inv nm c m w live owned :
  slab_inv m w live owned → caches m !! nm = Some c →
  ∃ w' m' r owned', SlabManager_alloc nm m w = Some (w', m', r) ∧
    match r with
    | Ok p => slab_inv m' w' ((nm, p) :: live) owned' ∧ memory w' = zero_bytes p (obj_size c) (memory w)
    | Err e => e = AllocationFailed nm ∧ slab_inv m' w' live owned' ∧ memory w' = memory w
    end ∧ (obj_size <$> caches m' = obj_size <$> caches m).
Proof.
  intros Hi Hc. destruct (inv_cache m w live owned nm c Hi Hc) as (Hck & _ & Hle & _).
  assert (∀ c', obj_size c' = obj_size c → obj_size <$> <[nm := c']> (caches m) = obj_size <$> caches m) as Hsizes.
  { intros c' Hs. rewrite fmap_insert. apply insert_id. by rewrite lookup_fmap, Hc, Hs. }
  destruct (cache_alloc_ok size out nm c _ _ w _ Hck Hle (si_out _ _ _ _ Hi)) as (w' & c' & r & new & Ha & Hs & Hout & Hr).
  set (owned' := ((λ p, (Some nm, p)) <$> new) ++ owned).
  assert (owned'.*2 = new ++ owned.*2) as Hpg by (unfold owned'; rewrite fmap_app, <-list_fmap_compose; f_equal; apply list_fmap_id).
  assert (of_name (Some nm) owned' = new ++ of_name (Some nm) owned) as Hsame.
  { unfold owned'. clear. induction new as [|p new IH]; [done|]. cbn [fmap list_fmap app]. by rewrite of_name_same, IH. }
  assert (∀ k, k ≠ nm → of_name (Some k) owned' = of_name (Some k) owned) as Hother.
  { intros k Hk. unfold owned'. clear -Hk. induction new as [|p new IH]; [done|]. cbn [fmap list_fmap app]. rewrite of_name_other by congruence. done. }
  rewrite <-Hpg in Hout. rewrite <-Hsame in Hr. unfold SlabManager_alloc. rewrite Hc, Ha. cbn [mbind option_bind].
  destruct r as [p|]; destruct Hr as [Hc' Hmem]; eexists _, _, _, owned'; (split; [done|]); (split; [|by apply Hsizes]).
  - split; [|done]. apply (inv_update m _ w w' live _ owned owned' nm c' Hi); try done; [by rewrite of_name_same|].
    intros k Hk. by rewrite of_name_other.
  - split_and!; [done| |done]. by apply (inv_update m _ w w' live live owned owned' nm c' Hi).
Qed.
(** An object in use lies in a page of its cache. *)
Lemma live_page m w live owned nm c p :
  slab_inv m w live owned → caches m !! nm = Some c → (nm, p) ∈ live →
  ∃ q, (Some nm, q) ∈ owned ∧ p ∈ objs (obj_size c) (size `div` obj_size c) q.
Proof.
  intros Hi Hc Hp. pose proof (si_cache _ _ _ _ Hi nm c Hc) as Hck.
  assert (p ∈ free_list c ++ of_name nm live) as Hin by (apply elem_of_app; right; by apply elem_of_of_name).
  rewrite (ck_objs _ _ _ _ _ Hck) in Hin. apply list_elem_of_bind in Hin as (q & Hq & Hown). exists q. split; [|done]. by apply elem_of_of_name.
Qed.

Lemma live_not_null m w live owned nm p : slab_inv m w live owned → (nm, p) ∈ live → p ≠ 0.
Proof.
  intros Hi Hp. destruct (si_live _ _ _ _ Hi nm p Hp) as [c Hc]. destruct (live_page m w live owned nm c p Hi Hc Hp) as (q & Hq & Hin).
  pose proof (si_cache _ _ _ _ Hi nm c Hc) as Hck. apply (obj_bounds size _ (ck_size _ _ _ _ _ Hck)) in Hin.
  destruct (out_range _ _ q (si_out _ _ _ _ Hi)) as [Hq0 _]; [apply list_elem_of_fmap; by exists (Some nm, q)|].
  unfold PHYS_OFF in Hin. lia.
Qed.

(** Giving an object back, and giving it back once more. *)
Lemma slab_free_inv m w live live' owned nm p :
  slab_inv m w live owned → live ≡ₚ (nm, p) :: live' →
  ∃ m', SlabManager_free nm p m = (m', Ok tt) ∧ slab_inv m' w live' owned ∧ (obj_size <$> caches m' = obj_size <$> caches m) ∧
    ∃ m'', SlabManager_free nm p m' = (m'', Err (DoubleFree nm)) ∧ caches m'' = caches m'.
Proof.
  intros Hi Hl. assert ((nm, p) ∈ live) as Hp by (rewrite Hl; by left).
  pose proof (live_not_null m w live owned nm p Hi Hp) as Hp0. destruct (si_live _ _ _ _ Hi nm p Hp) as [c Hc].
  destruct (inv_cache m w live owned nm c Hi Hc) as (Hck & Hlen & _ & Hnd).
  destruct (free_ok size nm c _ _ (of_name nm live') p Hck Hlen Hnd) as (c' & Hf & Hck' & Hs & Hff); [|done|].
  { rewrite Hl. by rewrite of_name_same. }
  unfold SlabManager_free at 1. rewrite Hc, Hf. eexists. split; [done|]. split; [|split].
  - apply (inv_update m _ w w live live' owned owned nm c' Hi); try done; [apply Hi|].
    intros k Hk. rewrite Hl. by rewrite of_name_other.
  - simpl. rewrite fmap_insert. apply insert_id. by rewrite lookup_fmap, Hc, Hs.
  - unfold SlabManager_free. simpl. rewrite lookup_insert_eq, Hff. eexists. split; [done|]. simpl. apply insert_insert_eq.
Qed.

(** A free that fails, and one of the null pointer, change nothing. *)
Lemma free_same nm p m : p = 0 ∨ (∃ e, (SlabManager_free nm p m).2 = Err e) → caches (SlabManager_free nm p m).1 = caches m ∧ m_config (SlabManager_free nm p m).1 = m_config m.
Proof.
  unfold SlabManager_free. destruct (caches m !! nm) as [c|] eqn:Hc; [|done]. unfold SlabCache_free.
  destruct (Z.eqb_spec p 0) as [->|Hp]; [intros _; split; [by apply insert_id|done]|].
  destruct (bool_decide _); [intros _; split; [by apply insert_id|done]|]. intros [?|[e He]]; done.
Qed.

Lemma delete_inv nm m w live owned :
  slab_inv m w live owned → (∀ p, (nm, p) ∉ live) → ∃ owned', slab_inv (delete_cache nm m).1 w live owned'.
Proof.
  intros Hi Hno. unfold delete_cache. destruct (caches m !! nm) as [c|] eqn:Hc; [|by exists owned].
  set (lose := λ x : option string * Z, (if decide (x.1 = Some nm) then None else x.1, x.2)).
  assert (∀ k, k ≠ nm → of_name (Some k) (lose <$> owned) = of_name (Some k) owned) as Hother.
  { intros k Hk. clear -Hk. induction owned as [|[o p] owned IH]; [done|]. rewrite fmap_cons. unfold lose at 1. cbn [fst snd].
    destruct (decide (o = Some nm)) as [->|Ho].
    - by rewrite !of_name_other by congruence.
    - destruct (decide (o = Some k)) as [->|]; [by rewrite !of_name_same, IH|by rewrite !of_name_other by done]. }
  exists (lose <$> owned). cbn [fst]. split.
  - apply Hi.
  - rewrite <-list_fmap_compose. apply Hi.
  - intros k d Hk. simpl in Hk. apply lookup_delete_Some in Hk as [Hne Hk]. rewrite Hother by done. by apply Hi.
  - intros k p Hp. simpl. rewrite lookup_delete_ne; [by apply (si_live _ _ _ _ Hi k p)|]. intros ->. by apply (Hno p).
  - intros k p ([o q] & Heq & Hp)%list_elem_of_fmap. unfold lose in Heq. cbn [fst snd] in Heq. simpl.
    destruct (decide (o = Some nm)); [done|]. injection Heq as <- ->. rewrite lookup_delete_ne by congruence. by apply (si_owned _ _ _ _ Hi k q).
Qed.
End manager.

(** ** Runs *)

Section runs.
Context {S : Type} `{PageSource S} (size : Z) (out : S → list Z → Prop) `{!PageSourceLaws S size out}.
Implicit Types (w : World S) (m : SlabManager) (live : list (string * Z)).

(** The calls of the clients, with the objects in use. A client gives back what it
    got, or is refused; it deletes a cache with no object in use; it writes to
    memory; others may use the source of pages. *)
Inductive slab_run : SlabManager → World S → list (string * Z) → Prop :=
| run_new c m w :
    config_ok c size → Forall (λ x, x.2 + object_align c ≤ U64_MAX) (default_caches c) → SlabManager_new c = Some m →
    out (source w) [] → slab_run m w []
| run_create m w live nm sz m' r :
    slab_run m w live → sz + object_align (m_config m) ≤ U64_MAX → create_cache nm sz m = (m', r) → slab_run m' w live
| run_alloc m w live nm w' m' p :
    slab_run m w live → SlabManager_alloc nm m w = Some (w', m', Ok p) → slab_run m' w' ((nm, p) :: live)
| run_alloc_failed m w live nm w' m' e :
    slab_run m w live → SlabManager_alloc nm m w = Some (w', m', Err e) → slab_run m' w' live
| run_free m w live live' nm p m' r :
    slab_run m w live → live ≡ₚ (nm, p) :: live' → SlabManager_free nm p m = (m', r) → slab_run m' w live'
| run_free_null m w live nm m' r :
    slab_run m w live → SlabManager_free nm 0 m = (m', r) → slab_run m' w live
| run_free_refused m w live nm p m' e :
    slab_run m w live → SlabManager_free nm p m = (m', Err e) → slab_run m' w live
| run_delete m w live nm m' r :
    slab_run m w live → (∀ p, (nm, p) ∉ live) → delete_cache nm m = (m', r) → slab_run m' w live
| run_write m w live a b :
    slab_run m w live → slab_run m (w <| memory := <[a := b]> (memory w) |>) live
| run_pages m w live s :
    slab_run m w live → (∀ P, out (source w) P → out s P) → slab_run m (w <| source := s |>) live.

Lemma alloc_missing nm m w : caches m !! nm = None → SlabManager_alloc nm m w = Some (w, m, Err (CacheNotFound nm)).
Proof. intros Hc. unfold SlabManager_alloc. by rewrite Hc. Qed.

Lemma slab_run_inv m w live : slab_run m w live → ∃ owned, slab_inv size out m w live owned.
Proof.
  induction 1 as [c m w Hc Hd Hm Hout|m w live nm sz m' r _ [o Hi] Hsz Hr|m w live nm w' m' p _ [o Hi] Hr|m w live nm w' m' e _ [o Hi] Hr
    |m w live live' nm p m' r _ [o Hi] Hl Hr|m w live nm m' r _ [o Hi] Hr|m w live nm p m' e _ [o Hi] Hr|m w live nm m' r _ [o Hi] Hno Hr
    |m w live a b _ [o Hi]|m w live s _ [o Hi] Hs].
  - exists []. by apply (slab_new_inv size out c).
  - exists o. pose proof (slab_create_inv size out nm sz m w live o Hi Hsz) as Hi'. by rewrite Hr in Hi'.
  - destruct (caches m !! nm) as [c|] eqn:Hc; [|by rewrite alloc_missing in Hr].
    destruct (slab_alloc_inv size out nm c m w live o Hi Hc) as (w1 & m1 & r1 & o' & Ha & Hr1 & _). rewrite Hr in Ha. injection Ha as <- <- <-.
    exists o'. apply Hr1.
  - destruct (caches m !! nm) as [c|] eqn:Hc; [|rewrite alloc_missing in Hr by done; injection Hr as <- <- _; by exists o].
    destruct (slab_alloc_inv size out nm c m w live o Hi Hc) as (w1 & m1 & r1 & o' & Ha & Hr1 & _). rewrite Hr in Ha. injection Ha as <- <- <-.
    exists o'. apply Hr1.
  - destruct (slab_free_inv size out m w live live' o nm p Hi Hl) as (m1 & Hf & Hi' & _). rewrite Hr in Hf. injection Hf as <- _. by exists o.
  - exists o. destruct (free_same nm 0 m) as [Hc Hcf]; [by left|]. rewrite Hr in Hc, Hcf. eapply inv_same; [apply Hi|done|done|apply Hi].
  - exists o. destruct (free_same nm p m) as [Hc Hcf]; [right; rewrite Hr; by exists e|]. rewrite Hr in Hc, Hcf.
    eapply inv_same; [apply Hi|done|done|apply Hi].
  - destruct (delete_inv size out nm m w live o Hi Hno) as [o' Hi']. rewrite Hr in Hi'. by exists o'.
  - exists o. eapply inv_same; [apply Hi|done|done|apply Hi].
  - exists o. eapply inv_same; [apply Hi|done|done|]. simpl. apply Hs, Hi.
Qed.

Lemma live_NoDup m w live owned : slab_inv size out m w live owned → NoDup live.
Proof.
  intros Hi. apply of_name_NoDup. intros nm. destruct (caches m !! nm) as [c|] eqn:Hc.
  - destruct (inv_cache size out m w live owned nm c Hi Hc) as (Hck & _ & _ & Hnd).
    rewrite <-(ck_objs _ _ _ _ _ Hck) in Hnd. by apply NoDup_app in Hnd as (_ & _ & ?).
  - rewrite of_name_nil; [constructor|]. intros p Hp. destruct (si_live _ _ _ _ _ _ Hi nm p Hp) as [c Hc']. congruence.
Qed.

Lemma inv_disjoint m w live owned i j a b p q ca cb :
  slab_inv size out m w live owned → i ≠ j → live !! i = Some (a, p) → live !! j = Some (b, q) →
  caches m !! a = Some ca → caches m !! b = Some cb → p + obj_size ca ≤ q ∨ q + obj_size cb ≤ p.
Proof.
  intros Hi Hij Hp Hq Hca Hcb. pose proof (si_out _ _ _ _ _ _ Hi) as Hout.
  pose proof (ck_size _ _ _ _ _ (si_cache _ _ _ _ _ _ Hi a ca Hca)) as Hsa. pose proof (ck_size _ _ _ _ _ (si_cache _ _ _ _ _ _ Hi b cb Hcb)) as Hsb.
  destruct (live_page size out m w live owned a ca p Hi Hca (list_elem_of_lookup_2 _ _ _ Hp)) as (pp & Hpp & Hpo).
  destruct (live_page size out m w live owned b cb q Hi Hcb (list_elem_of_lookup_2 _ _ _ Hq)) as (qq & Hqq & Hqo).
  destruct (decide (pp = qq)) as [<-|Hpq].
  - assert (a = b) as <- by (pose proof (of_name_unique _ _ _ _ (out_nodup _ _ Hout) Hpp Hqq); congruence).
    rewrite Hca in Hcb. injection Hcb as <-. apply (objs_apart size (obj_size ca) Hsa pp); [done|done|]. intros <-. apply Hij.
    refine (NoDup_lookup live i j (a, p) (live_NoDup m w live owned Hi) Hp Hq).
  - eapply (pages_apart size out (obj_size ca) Hsa (source w) owned.*2 pp qq); try done.
    + apply list_elem_of_fmap. by exists (Some a, pp).
    + apply list_elem_of_fmap. by exists (Some b, qq).
Qed.

End runs.

(** ** The source of pages of the kernel *)

(** Without the feature [buddy] every page is the one at [0x1000]. *)
Definition stub_pages : PageSource unit := {| alloc_page _ := Some (tt, Some 0x1000) |}.

Definition default_with_functions : option SlabManager := SlabManager_new SlabConfig_default.

(** The stub breaks the law of a source of pages at its second page. *)
Lemma stub_not_lawful size out : @PageSourceLaws unit stub_pages size out → ¬ out tt [].
Proof.
  intros Hl H0. destruct (@alloc_page_law _ stub_pages size out Hl tt [] H0) as (s & r & Ha & Hr). injection Ha as <- <-.
  destruct (@alloc_page_law _ stub_pages size out Hl tt _ Hr) as (s & r & Ha & Hr'). injection Ha as <- <-.
  apply (@out_nodup _ stub_pages size out Hl) in Hr'. apply NoDup_cons in Hr' as [Hn _]. apply Hn. by left.
Qed.

(** The caches of tasks and sockets then hand out objects that overlap: the last
    object of the page each. *)
Lemma stub_objects_overlap :
  match default_with_functions with
  | Some m =>
    match @SlabManager_alloc unit stub_pages "task" m (mkWorld tt ∅) with
    | Some (w, m, r) =>
      r = Ok (PHYS_OFF + 0x1f00) ∧ option_map snd (@SlabManager_alloc unit stub_pages "socket" m w) = Some (Ok (PHYS_OFF + 0x1e00))
    | None => False
    end
  | None => False
  end.
Proof. vm_compute. split; reflexivity. Qed.

(** [reset] waits for its own lock. *)
Lemma reset_deadlocks : option_map SlabManager_reset default_with_functions = Some None.
Proof. vm_compute. reflexivity. Qed.

(** An object size that wraps to 0 passes the check of [SlabCache::new]; the first
    allocation divides by it. *)
Lemma wrapped_size_panics :
  match SlabCache_new "big" U64_MAX SlabConfig_default with
  | Ok c => obj_size c = 0 ∧ @SlabCache_alloc unit stub_pages c (mkWorld tt ∅) = None
  | Err _ => False
  end.
Proof. vm_compute. split; reflexivity. Qed.
