(* ===== verification/SlabBuddy.v ===== *)
(** * The slab allocator over the buddy allocator.

    [mm::buddy] hands out the pages of the slab allocator ([alloc_page], a block of
    order 0), as [SlabManager::default_with_functions] means it to. The buddy
    allocator has other clients too; the blocks they hold are part of the state
    of the source. *)

From Stdlib Require Import ZArith Lia Bool.
From stdpp Require Import base gmap sets strings numbers list.
From S2P Require Import Prelude Buddy Slab.

Local Open Scope Z_scope.

(** The allocator and the blocks the other clients hold. *)
Definition Source : Type := BuddyManager * list (Z * nat).

(** [mm::buddy::alloc_page]. *)
#[export] Instance buddy_source : PageSource Source := {
  alloc_page s :=
    '(m, r) ← Buddy.alloc_pages 0 s.1;
    Some ((m, s.2), match r with Ok p => Some p | Err _ => None end);
}.

Definition single (p : Z) : Z * nat := (p, 0%nat).

(** The pages [P] are out; all pages of the allocator lie in the [2^47] bytes that
    the kernel maps. *)
Definition buddy_out (s : Source) (P : list Z) : Prop :=
  ∃ region, buddy_inv (allocator s.1) ((single <$> P) ++ s.2) region ∧
    Buddy.page_size (Buddy.config (allocator s.1)) = 4096 ∧ ∀ x, x ∈ region → x + 4096 ≤ 2 ^ 47.

Lemma singles_pages c P : pages_of c (single <$> P) = P.
Proof.
  induction P as [|p P IH]; [done|]. rewrite fmap_cons, pages_of_cons, IH. unfold block_pages, pages_from, single. simpl. by rewrite Z.add_0_r.
Qed.

Lemma out_region s P region :
  buddy_inv (allocator s.1) ((single <$> P) ++ s.2) region → NoDup P ∧ ∀ p, p ∈ P → p ∈ region.
Proof.
  intros Hi. pose proof (bi_pages _ _ _ Hi) as Hp. rewrite pages_of_app, singles_pages in Hp. split.
  - pose proof (bi_nodup _ _ _ Hi) as Hnd. rewrite <-Hp in Hnd. apply NoDup_app in Hnd as (_ & _ & Hnd). by apply NoDup_app in Hnd as (? & _).
  - intros p Hin. rewrite <-Hp. apply elem_of_app. right. apply elem_of_app. by left.
Qed.

Lemma out_block s P region p :
  buddy_inv (allocator s.1) ((single <$> P) ++ s.2) region → p ∈ P → block_ok (Buddy.config (allocator s.1)) (p, 0%nat).
Proof.
  intros Hi Hp. pose proof (bi_allocated _ _ _ Hi) as Hf. rewrite Forall_forall in Hf. apply Hf, elem_of_app. left.
  apply list_elem_of_fmap. by exists p.
Qed.

Lemma out_aligned s P p : buddy_out s P → p ∈ P → p `mod` 4096 = 0.
Proof.
  intros (region & Hi & Hps & _) Hp. pose proof (bo_aligned _ _ (out_block s P region p Hi Hp)) as Ha.
  unfold bsize in Ha. simpl in Ha. by rewrite Hps, Z.mul_1_l in Ha.
Qed.

(** The frame of an allocator: what the source is allowed to change. *)
Lemma alloc_config order al al' r : alloc order al = Some (al', r) → Buddy.config al' = Buddy.config al.
Proof.
  unfold alloc. destruct (_ <=? _)%nat; [by intros [= <- _]|].
  destruct (find_order _ _ _) as [fo|]; cbn [mbind option_bind]; [|done]. destruct (_ <=? _)%nat; [by intros [= <- _]|].
  destruct (pop_at _ _) as [[a fl]|]; cbn [mbind option_bind]; [|done]. destruct (split_loop _ _ _ _ _); cbn [mbind option_bind]; [|done].
  by intros [= <- _].
Qed.

#[export] Instance buddy_source_laws : PageSourceLaws Source 4096 buddy_out.
Proof.
  split.
  - lia.
  - intros s P (region & Hi & _). by destruct (out_region s P region Hi).
  - intros s P p (region & Hi & _ & Hlow) Hp. split; [apply (bo_addr _ _ (out_block s P region p Hi Hp))|].
    apply Hlow. by apply (out_region s P region Hi).
  - intros s P p q Hout Hp Hq Hne. pose proof (out_aligned s P p Hout Hp) as Hpa. pose proof (out_aligned s P q Hout Hq) as Hqa.
    apply Z.mod_divide in Hpa as [i ->]; [|lia]. apply Z.mod_divide in Hqa as [j ->]; [|lia]. assert (i ≠ j) by congruence. lia.
  - intros s P (region & Hi & Hps & Hlow). unfold alloc_page, buddy_source, alloc_pages.
    destruct (initialised s.1); cbn [negb mbind option_bind]; [|eexists _, None; split; [done|]; by exists region].
    destruct (Buddy.alloc_inv (allocator s.1) _ region 0 Hi) as (al & r & Ha & Hr). rewrite Ha. cbn [mbind option_bind].
    pose proof (alloc_config _ _ _ _ Ha) as Hcf. destruct r as [p|e].
    + eexists _, (Some p). split; [done|]. exists region. simpl. rewrite Hcf. by split_and!.
    + destruct Hr as [-> _]. eexists _, None. split; [done|]. by exists region.
Qed.

(** ** The other clients of the buddy allocator *)

Lemma release_config a o al al' r : free_block a o al = Some (al', r) → Buddy.config al' = Buddy.config al.
Proof.
  unfold free_block. destruct (_ <=? _)%nat; [by intros [= <- _]|]. destruct (rem64 _ _); cbn [mbind option_bind]; [|done].
  destruct (negb _); [by intros [= <- _]|]. destruct (merge_loop _ _ _ _ _) as [[[a' o'] fl]|]; cbn [mbind option_bind]; [|done].
  destruct (fl !! o'); cbn [mbind option_bind]; [|done]. destruct (bool_decide _); [by intros [= <- _]|].
  destruct (push_at _ _ _); cbn [mbind option_bind]; [|done]. by intros [= <- _].
Qed.

(** A block that another client gets or gives back leaves the pages of the slab
    allocator out. *)
Lemma others_alloc m others order m' a P :
  alloc_pages order m = Some (m', Ok a) → buddy_out (m, others) P → buddy_out (m', (a, order) :: others) P.
Proof.
  intros Ha (region & Hi & Hps & Hlow). unfold alloc_pages in Ha. destruct (initialised m); [|done]. cbn [negb] in Ha.
  destruct (Buddy.alloc_inv (allocator m) _ region order Hi) as (al & r & Hal & Hr). rewrite Hal in Ha. cbn [mbind option_bind] in Ha.
  destruct r as [b|e]; [|done]. injection Ha as <- ->. exists region. simpl. rewrite (alloc_config _ _ _ _ Hal). split_and!; [|done|done].
  refine (buddy_inv_perm _ _ _ _ _ Hr). cbn [fst snd]. solve_Permutation.
Qed.

Lemma others_release m a o others m' P :
  release_pages a o m = Some (m', Ok tt) → buddy_out (m, (a, o) :: others) P → buddy_out (m', others) P.
Proof.
  intros Ha (region & Hi & Hps & Hlow). unfold release_pages in Ha. destruct (initialised m); [|done]. cbn [negb] in Ha.
  assert (buddy_inv (allocator m) ((a, o) :: (single <$> P) ++ others) region) as Hi'.
  { refine (buddy_inv_perm _ _ _ _ _ Hi). cbn [fst snd]. solve_Permutation. }
  destruct (Buddy.free_inv (allocator m) _ region a o Hi') as (al & Hal & Hr). rewrite Hal in Ha. cbn [mbind option_bind] in Ha.
  injection Ha as <-. exists region. simpl. rewrite (release_config _ _ _ _ _ Hal). by split_and!.
Qed.

(** ** Witness *)

(** Sixteen pages at 1 MiB. *)
Definition ex_manager : BuddyManager :=
  match BuddyManager_new BuddyConfig_default with
  | Some m => default m (BuddyManager_init 0x100000 16 m)
  | None => mkBuddyManager (BuddyAllocator_new BuddyConfig_default) (mkBuddyMetrics 0 0 0 0 0 0) false
  end.

Definition ex_world : World Source := mkWorld (ex_manager, []) ∅.

Definition ex_slab : SlabManager := default (mkSlabManager SlabConfig_default ∅ (mkSlabMetrics 0 0 0 0 0 0 0)) (SlabManager_new SlabConfig_default).

Definition ex_step (nm : string) (st : World Source * SlabManager) : World Source * SlabManager * Z :=
  match SlabManager_alloc nm st.2 st.1 with
  | Some (w, m, Ok p) => (w, m, p)
  | _ => (st, 0)
  end.

Definition ex1 := ex_step "task" (ex_world, ex_slab).
Definition ex2 := ex_step "socket" ex1.1.

Lemma ex_out : buddy_out (ex_manager, []) [].
Proof.
  exists ([] ++ pages_from BuddyConfig_default 0x100000 16).
  destruct (add_region_inv (BuddyAllocator_new BuddyConfig_default) [] [] 0x100000 16) as (al & Hal & Hi).
  - apply Buddy.new_inv. split_and!; [apply Nat.lt_0_succ|reflexivity|vm_compute; discriminate].
  - lia.
  - lia.
  - reflexivity.
  - vm_compute. discriminate.
  - intros x _ Hx. by apply elem_of_nil in Hx.
  - vm_compute. discriminate.
  - assert (allocator ex_manager = al) as Hm.
    { unfold ex_manager, BuddyManager_new. cbn [BuddyConfig_validate]. vm_compute in Hal. injection Hal as <-. vm_compute. reflexivity. }
    cbn [fst snd]. rewrite Hm. split_and!; [exact Hi| |].
    + rewrite <-Hm. vm_compute. reflexivity.
    + intros x (i & -> & Hx%elem_of_seqZ)%list_elem_of_fmap. change (Buddy.page_size BuddyConfig_default) with 4096. lia.
Qed.

Lemma ex_step_run nm w m live :
  slab_run 4096 buddy_out m w live → (ex_step nm (w, m)).2 ≠ 0 →
  slab_run 4096 buddy_out (ex_step nm (w, m)).1.2 (ex_step nm (w, m)).1.1 ((nm, (ex_step nm (w, m)).2) :: live).
Proof.
  intros Hr Hne. unfold ex_step in *. cbn [fst snd] in *. destruct (SlabManager_alloc nm m w) as [[[w' m'] [p|e]]|] eqn:Ha; [|done|done].
  by apply (run_alloc 4096 buddy_out m w live nm).
Qed.

Lemma ex_run : slab_run 4096 buddy_out ex2.1.2 ex2.1.1 [("socket"%string, ex2.2); ("task"%string, ex1.2)].
Proof.
  unfold ex2. rewrite (surjective_pairing ex1.1). apply ex_step_run; [|vm_compute; discriminate].
  apply ex_step_run; [|vm_compute; discriminate].
  apply (run_new 4096 buddy_out SlabConfig_default); [split_and!; vm_compute; done| |vm_compute; reflexivity|exact ex_out].
  repeat constructor; vm_compute; discriminate.
Qed.

Lemma ex_sizes : (obj_size <$> caches ex2.1.2) !! "task"%string = Some 256 ∧ (obj_size <$> caches ex2.1.2) !! "socket"%string = Some 512.
Proof. vm_compute. split; reflexivity. Qed.

