(* ===== verification/FdTable.v ===== *)
(** * File descriptors ([src/src/process/fd/mod.rs]).

    A table of descriptors is a vector of slots behind an [Arc]; tasks have tables
    of their own or share one. Here a table is an object of [heap] and a task has
    its address, so that sharing is visible. Closing a descriptor calls the
    subsystem of its resource; the calls are kept in [calls] in their order.
    [with_max] calls [OpenFlags::read] without a value to start from; it is read as
    on [OpenFlags::empty]. [dup] keeps a reference to the old entry while it closes
    the target; it is read as the entry before. *)

From Stdlib Require Import ZArith Lia Bool.
From stdpp Require Import base gmap sets strings numbers list.
From S2P Require Import Prelude.

Local Open Scope rust_scope.
Local Open Scope Z_scope.

(** ** Data *)

Definition STDIN_FILENO : nat := 0.
Definition STDOUT_FILENO : nat := 1.
Definition STDERR_FILENO : nat := 2.
Definition DEFAULT_MAX_FD : Z := 1024.
Definition MAX_FD_LIMIT : Z := 4096.

(** The bits of [FdFlags] and of [OpenFlags]. *)
Definition FdFlags : Type := Z.
Definition FdFlags_empty : FdFlags := 0.
Definition FdFlags_cloexec (f : FdFlags) : FdFlags := Z.lor f 1.
Definition FdFlags_is_cloexec (f : FdFlags) : bool := negb (Z.land f 1 =? 0).
Definition FdFlags_from_u32 (bits : Z) : FdFlags := Z.land bits 1.

Definition OpenFlags : Type := Z.
Definition OpenFlags_empty : OpenFlags := 0.
Definition OpenFlags_read (f : OpenFlags) : OpenFlags := Z.lor f 0x1.
Definition OpenFlags_write (f : OpenFlags) : OpenFlags := Z.lor f 0x2.
Definition OpenFlags_is_read (f : OpenFlags) : bool := Z.land f 0x3 =? 0x1.
Definition OpenFlags_is_write (f : OpenFlags) : bool := Z.land f 0x3 =? 0x2.
Definition OpenFlags_is_rdwr (f : OpenFlags) : bool := Z.land f 0x3 =? 0x3.
Definition OpenFlags_is_nonblock (f : OpenFlags) : bool := negb (Z.land f 0x800 =? 0).
Definition OpenFlags_is_cloexec (f : OpenFlags) : bool := negb (Z.land f 0x80000 =? 0).
Definition OpenFlags_from_u32 (bits : Z) : OpenFlags := Z.land bits 0x80F7F.

Inductive FileDesc :=
| Serial
| Keyboard
| IonafsFile (path : string) (offset : Z)
| TcpSocket (id : Z)
| Pipe (read_end : bool) (id : Z)
| Dev (path : string)
| Proc (path : string)
| Epoll (id : Z)
| Eventfd (id : Z)
| Signalfd (id : Z)
| Timerfd (id : Z).

Definition FileDesc_path (d : FileDesc) : option string :=
  match d with
  | IonafsFile path _ | Dev path | Proc path => Some path
  | _ => None
  end.

Definition FileDesc_socket_id (d : FileDesc) : option Z :=
  match d with
  | TcpSocket id => Some id
  | _ => None
  end.

Record FdEntry := mkFdEntry {
  desc : FileDesc;
  flags : FdFlags;
  open_flags : OpenFlags;
}.

#[export] Instance eta_FdEntry : Settable FdEntry := λ e, mkFdEntry (desc e) (flags e) (open_flags e).

Inductive FdError :=
| InvalidFd (fd : nat)
| TableFull
| PermissionDenied
| Unsupported
| NotFound
| InvalidArgument
| Io
| TooManyOpenFiles.

(** The calls that closing a descriptor makes. *)
Inductive Call :=
| socket_close (id : Z)
| close_pipe_end (id : Z) (read_end : bool)
| epoll_remove_fd (fd : nat).

Record FdTable := mkFdTable {
  entries : list (option FdEntry);
  max_fd : Z;
  refcount : Z;
}.

#[export] Instance eta_FdTable : Settable FdTable := λ t, mkFdTable (entries t) (max_fd t) (refcount t).

(** ** A table *)

Definition FdTable_with_max (max : Z) : FdTable :=
  let max := Z.min max MAX_FD_LIMIT in
  let es := replicate (Z.to_nat max) None in
  let es := if Z.of_nat STDIN_FILENO <? max
            then <[STDIN_FILENO := Some (mkFdEntry Keyboard FdFlags_empty (OpenFlags_read OpenFlags_empty))]> es else es in
  let es := if Z.of_nat STDOUT_FILENO <? max
            then <[STDOUT_FILENO := Some (mkFdEntry Serial FdFlags_empty (OpenFlags_write OpenFlags_empty))]> es else es in
  let es := if Z.of_nat STDERR_FILENO <? max
            then <[STDERR_FILENO := Some (mkFdEntry Serial FdFlags_empty (OpenFlags_write OpenFlags_empty))]> es else es in
  mkFdTable es max 1.

Definition FdTable_new : FdTable := FdTable_with_max DEFAULT_MAX_FD.

Definition FdTable_count (t : FdTable) : nat := length (filter is_Some (entries t)).

Definition increment_refcount (t : FdTable) : FdTable := t <| refcount := add64 (refcount t) 1 |>.

Definition decrement_refcount (t : FdTable) : FdTable * Z := (t <| refcount := sub64 (refcount t) 1 |>, sub64 (refcount t) 1).

(** The slot [fd] is empty. *)
Definition is_none (es : list (option FdEntry)) (fd : nat) : bool :=
  match es !! fd with Some None => true | _ => false end.

(** The checks that begin most operations: [fd] in range and open. *)
Definition get_entry (es : list (option FdEntry)) (fd : nat) : result FdEntry FdError :=
  if (length es <=? fd)%nat then Err (InvalidFd fd)
  else match es !! fd with
       | Some (Some e) => Ok e
       | _ => Err (InvalidFd fd)
       end.

Definition FdTable_open (d : FileDesc) (f : FdFlags) (o : OpenFlags) (t : FdTable) : FdTable * result nat FdError :=
  match List.find (is_none (entries t)) (seq 0 (length (entries t))) with
  | Some fd => (t <| entries := <[fd := Some (mkFdEntry d f o)]> (entries t) |>, Ok fd)
  | None => (t, Err TableFull)
  end.

Definition resource_calls (d : FileDesc) : list Call :=
  match d with
  | TcpSocket id => [socket_close id]
  | Pipe read_end id => [close_pipe_end id read_end]
  | _ => []
  end.

Definition close_internal (fd : nat) (es : list (option FdEntry)) : list Call * list (option FdEntry) * result unit FdError :=
  match get_entry es fd with
  | Err e => ([], es, Err e)
  | Ok e => (resource_calls (desc e) ++ [epoll_remove_fd fd], <[fd := None]> es, Ok tt)
  end.

Definition FdTable_close (fd : nat) (t : FdTable) : list Call * FdTable * result unit FdError :=
  let '(cs, es, r) := close_internal fd (entries t) in (cs, t <| entries := es |>, r).

(** The end of [dup]: the entry with new flags goes to the target. *)
Definition dup_to (e : FdEntry) (target : nat) (f : FdFlags) (t : FdTable) : FdTable :=
  t <| entries := <[target := Some (e <| flags := f |>)]> (entries t) |>.

Definition FdTable_dup (old_fd : nat) (new_fd : option nat) (f : FdFlags) (t : FdTable) : list Call * FdTable * result nat FdError :=
  match get_entry (entries t) old_fd with
  | Err e => ([], t, Err e)
  | Ok e =>
    match new_fd with
    | Some fd =>
      if (length (entries t) <=? fd)%nat then ([], t, Err (InvalidFd fd))
      else if negb (is_none (entries t) fd) then
        match FdTable_close fd t with
        | (cs, t, Err err) => (cs, t, Err err)
        | (cs, t, Ok _) => (cs, dup_to e fd f t, Ok fd)
        end
      else ([], dup_to e fd f t, Ok fd)
    | None =>
      match List.find (λ fd, is_none (entries t) fd && negb (fd =? old_fd)%nat) (seq 0 (length (entries t))) with
      | Some fd => ([], dup_to e fd f t, Ok fd)
      | None => ([], t, Err TableFull)
      end
    end
  end.

Definition FdTable_get (fd : nat) (t : FdTable) : result FdEntry FdError := get_entry (entries t) fd.

Definition set_fd_flags (fd : nat) (f : FdFlags) (t : FdTable) : FdTable * result unit FdError :=
  match get_entry (entries t) fd with
  | Err e => (t, Err e)
  | Ok e => (t <| entries := <[fd := Some (e <| flags := f |>)]> (entries t) |>, Ok tt)
  end.

Definition set_open_flags (fd : nat) (o : OpenFlags) (t : FdTable) : FdTable * result unit FdError :=
  match get_entry (entries t) fd with
  | Err e => (t, Err e)
  | Ok e => (t <| entries := <[fd := Some (e <| open_flags := o |>)]> (entries t) |>, Ok tt)
  end.

Definition get_fd_flags (fd : nat) (t : FdTable) : result FdFlags FdError := let? e := FdTable_get fd t in Ok (flags e).

Definition get_open_flags (fd : nat) (t : FdTable) : result OpenFlags FdError := let? e := FdTable_get fd t in Ok (open_flags e).

Definition fcntl_dupfd (fd min_fd : nat) (t : FdTable) : FdTable * result nat FdError :=
  match get_entry (entries t) fd with
  | Err e => (t, Err e)
  | Ok e =>
    match List.find (λ target, negb (target =? fd)%nat && is_none (entries t) target)
            (seq min_fd (length (entries t) - min_fd)) with
    | Some target => (t <| entries := <[target := Some e]> (entries t) |>, Ok target)
    | None => (t, Err TableFull)
    end
  end.

(** One turn of [close_on_exec]. *)
Definition exec_turn (st : list Call * list (option FdEntry) * list nat) (fd : nat) : list Call * list (option FdEntry) * list nat :=
  let '(cs, es, closed) := st in
  match es !! fd with
  | Some (Some e) =>
    if FdFlags_is_cloexec (flags e) then
      let '(cs', es, _) := close_internal fd es in (cs ++ cs', es, closed ++ [fd])
    else st
  | _ => st
  end.

Definition close_on_exec (t : FdTable) : list Call * FdTable * list nat :=
  let '(cs, es, closed) := foldl exec_turn ([], entries t, []) (seq 0 (length (entries t))) in
  (cs, t <| entries := es |>, closed).

Definition FdTable_snapshot (t : FdTable) : FdTable := mkFdTable (entries t) (max_fd t) 1.

(** Gives a copy of its own, and the table it was called on. *)
Definition shared_copy (t : FdTable) : FdTable * FdTable := (increment_refcount t, FdTable_snapshot t).

(** ** The tables of the tasks *)

(** [heap] holds the tables that an [Arc] points to; [FD_TABLES] the [Arc] of each
    task. A table that no task points to is garbage. *)
Record Tables := mkTables {
  heap : gmap nat FdTable;
  FD_TABLES : gmap Z nat;
  next_arc : nat;
  calls : list Call;
}.

#[export] Instance eta_Tables : Settable Tables := λ s, mkTables (heap s) (FD_TABLES s) (next_arc s) (calls s).

Definition Tables_empty : Tables := mkTables ∅ ∅ 0 [].

(** [Arc::new]. *)
Definition new_arc (t : FdTable) (s : Tables) : Tables * nat :=
  (s <| heap := <[next_arc s := t]> (heap s) |> <| next_arc := S (next_arc s) |>, next_arc s).

Definition init_for (tid : Z) (s : Tables) : Tables :=
  let '(s, a) := new_arc FdTable_new s in s <| FD_TABLES := <[tid := a]> (FD_TABLES s) |>.

Definition remove_for (tid : Z) (s : Tables) : Tables := s <| FD_TABLES := delete tid (FD_TABLES s) |>.

Definition get_table (tid : Z) (s : Tables) : option nat := FD_TABLES s !! tid.

(** An operation on the table of a task. *)
Definition on_table {A} (tid : Z) (f : FdTable → list Call * FdTable * result A FdError) (s : Tables) : Tables * result A FdError :=
  match a ← get_table tid s; t ← heap s !! a; Some (a, t) with
  | None => (s, Err InvalidArgument)
  | Some (a, t) =>
    let '(cs, t, r) := f t in
    (s <| heap := <[a := t]> (heap s) |> <| calls := calls s ++ cs |>, r)
  end.

Definition quiet {A} (p : FdTable * A) : list Call * FdTable * A := ([], p.1, p.2).

Definition open (tid : Z) (d : FileDesc) (f : FdFlags) (o : OpenFlags) : Tables → Tables * result nat FdError :=
  on_table tid (λ t, quiet (FdTable_open d f o t)).

Definition get (tid : Z) (fd : nat) : Tables → Tables * result FdEntry FdError :=
  on_table tid (λ t, quiet (t, FdTable_get fd t)).

Definition close (tid : Z) (fd : nat) : Tables → Tables * result unit FdError := on_table tid (FdTable_close fd).

Definition dup (tid : Z) (old_fd : nat) (f : FdFlags) : Tables → Tables * result nat FdError :=
  on_table tid (FdTable_dup old_fd None f).

Definition dup2 (tid : Z) (old_fd new_fd : nat) (f : FdFlags) : Tables → Tables * result nat FdError :=
  on_table tid (FdTable_dup old_fd (Some new_fd) f).

Definition share_fd_table (parent child : Z) (s : Tables) : Tables :=
  match get_table parent s with
  | Some a =>
    s <| heap := alter increment_refcount a (heap s) |> <| FD_TABLES := <[child := a]> (FD_TABLES s) |>
  | None => init_for child s
  end.

Definition clone_fd_table (parent child : Z) (s : Tables) : Tables :=
  match a ← get_table parent s; heap s !! a with
  | Some t =>
    let '(s, a) := new_arc (FdTable_snapshot t) s in s <| FD_TABLES := <[child := a]> (FD_TABLES s) |>
  | None => init_for child s
  end.

Definition F_DUPFD : Z := 0.
Definition F_GETFD : Z := 1.
Definition F_SETFD : Z := 2.
Definition F_GETFL : Z := 3.
Definition F_SETFL : Z := 4.

(** The result of an operation on a table, with the value turned into an [i64]. *)
Definition as_i64 {A} (conv : A → Z) (p : FdTable * result A FdError) : list Call * FdTable * result Z FdError :=
  ([], p.1, match p.2 with Ok x => Ok (conv x) | Err e => Err e end).

Definition fcntl (tid : Z) (fd : nat) (cmd arg : Z) : Tables → Tables * result Z FdError :=
  on_table tid (λ t,
    if cmd =? F_DUPFD then as_i64 Z.of_nat (fcntl_dupfd fd (Z.to_nat arg) t)
    else if cmd =? F_GETFD then as_i64 (λ f, f) (t, get_fd_flags fd t)
    else if cmd =? F_SETFD then as_i64 (λ _, 0) (set_fd_flags fd (FdFlags_from_u32 (wrap32 arg)) t)
    else if cmd =? F_GETFL then as_i64 (λ f, f) (t, get_open_flags fd t)
    else if cmd =? F_SETFL then as_i64 (λ _, 0) (set_open_flags fd (OpenFlags_from_u32 (wrap32 arg)) t)
    else ([], t, Err Unsupported)).

Definition total_open_fds (s : Tables) : Z :=
  foldl (λ n '(_, a), match heap s !! a with Some t => add64 n (Z.of_nat (FdTable_count t)) | None => n end) 0
    (btree_iter (FD_TABLES s)).

Definition active_tables (s : Tables) : Z := Z.of_nat (size (FD_TABLES s)).

(** ** What a program sees *)

(** The system calls on descriptors, and what they give. *)
Inductive FdOp :=
| OpOpen (d : FileDesc) (f : FdFlags) (o : OpenFlags)
| OpGet (fd : nat)
| OpClose (fd : nat)
| OpDup (fd : nat) (f : FdFlags)
| OpDup2 (old new : nat) (f : FdFlags)
| OpFcntl (fd : nat) (cmd arg : Z)
| OpExec.

Inductive FdOut :=
| OutFd (r : result nat FdError)
| OutEntry (r : result FdEntry FdError)
| OutUnit (r : result unit FdError)
| OutInt (r : result Z FdError)
| OutList (r : result (list nat) FdError).

Definition fd_op (tid : Z) (op : FdOp) (s : Tables) : Tables * FdOut :=
  match op with
  | OpOpen d f o => let '(s, r) := open tid d f o s in (s, OutFd r)
  | OpGet fd => let '(s, r) := get tid fd s in (s, OutEntry r)
  | OpClose fd => let '(s, r) := close tid fd s in (s, OutUnit r)
  | OpDup fd f => let '(s, r) := dup tid fd f s in (s, OutFd r)
  | OpDup2 old new f => let '(s, r) := dup2 tid old new f s in (s, OutFd r)
  | OpFcntl fd cmd arg => let '(s, r) := fcntl tid fd cmd arg s in (s, OutInt r)
  | OpExec => let '(s, r) := on_table tid (λ t, let '(cs, t, l) := close_on_exec t in (cs, t, Ok l)) s in (s, OutList r)
  end.

Inductive FdCmd :=
| CmdInit (tid : Z)
| CmdRemove (tid : Z)
| CmdShare (parent child : Z)
| CmdClone (parent child : Z)
| CmdOp (tid : Z) (op : FdOp).

Definition fd_cmd (c : FdCmd) (s : Tables) : Tables * option FdOut :=
  match c with
  | CmdInit tid => (init_for tid s, None)
  | CmdRemove tid => (remove_for tid s, None)
  | CmdShare p c => (share_fd_table p c s, None)
  | CmdClone p c => (clone_fd_table p c s, None)
  | CmdOp tid op => let '(s, r) := fd_op tid op s in (s, Some r)
  end.

Fixpoint fd_run (cs : list FdCmd) (s : Tables) : Tables * list (option FdOut) :=
  match cs with
  | [] => (s, [])
  | c :: cs => let '(s, r) := fd_cmd c s in let '(s, rs) := fd_run cs s in (s, r :: rs)
  end.

(** ** The specification: descriptors as finite maps

    [lowest d lo fd]: [fd] is the least free descriptor from [lo] on. *)

Abbreviation Descs := (gmap nat FdEntry).

Definition LIMIT : nat := Z.to_nat DEFAULT_MAX_FD.

Definition std_descs : Descs :=
  {[ STDIN_FILENO := mkFdEntry Keyboard FdFlags_empty 1;
     STDOUT_FILENO := mkFdEntry Serial FdFlags_empty 2;
     STDERR_FILENO := mkFdEntry Serial FdFlags_empty 2 ]}.

Definition lowest (d : Descs) (lo fd : nat) : Prop :=
  (lo ≤ fd < LIMIT)%nat ∧ d !! fd = None ∧ ∀ k, (lo ≤ k < fd)%nat → is_Some (d !! k).

Definition full (d : Descs) (lo : nat) : Prop := ∀ k, (lo ≤ k < LIMIT)%nat → is_Some (d !! k).

Definition close_calls (fd : nat) (o : option FdEntry) : list Call :=
  match o with Some e => resource_calls (desc e) ++ [epoll_remove_fd fd] | None => [] end.

Definition cloexec (d : Descs) (fd : nat) : bool :=
  match d !! fd with Some e => FdFlags_is_cloexec (flags e) | None => false end.

(** The descriptor an operation needs open, and its failure. *)
Definition needs (op : FdOp) : option nat :=
  match op with
  | OpGet fd | OpClose fd | OpDup fd _ | OpDup2 fd _ _ => Some fd
  | OpFcntl fd cmd _ => if (0 <=? cmd) && (cmd <=? 4) then Some fd else None
  | _ => None
  end.

Definition fails (op : FdOp) (e : FdError) : FdOut :=
  match op with
  | OpOpen _ _ _ | OpDup _ _ | OpDup2 _ _ _ => OutFd (Err e)
  | OpGet _ => OutEntry (Err e)
  | OpClose _ => OutUnit (Err e)
  | OpFcntl _ _ _ => OutInt (Err e)
  | OpExec => OutList (Err e)
  end.

Inductive spec_op (d : Descs) : FdOp → list Call → Descs → FdOut → Prop :=
| so_bad op fd : needs op = Some fd → d !! fd = None → spec_op d op [] d (fails op (InvalidFd fd))
| so_open x f o fd : lowest d 0 fd → spec_op d (OpOpen x f o) [] (<[fd := mkFdEntry x f o]> d) (OutFd (Ok fd))
| so_open_full x f o : full d 0 → spec_op d (OpOpen x f o) [] d (OutFd (Err TableFull))
| so_get fd e : d !! fd = Some e → spec_op d (OpGet fd) [] d (OutEntry (Ok e))
| so_close fd e : d !! fd = Some e → spec_op d (OpClose fd) (close_calls fd (Some e)) (delete fd d) (OutUnit (Ok tt))
| so_dup old e f fd :
    d !! old = Some e → lowest d 0 fd → spec_op d (OpDup old f) [] (<[fd := e <| flags := f |>]> d) (OutFd (Ok fd))
| so_dup_full old e f : d !! old = Some e → full d 0 → spec_op d (OpDup old f) [] d (OutFd (Err TableFull))
| so_dup2 old e f new :
    d !! old = Some e → (new < LIMIT)%nat →
    spec_op d (OpDup2 old new f) (close_calls new (d !! new)) (<[new := e <| flags := f |>]> d) (OutFd (Ok new))
| so_dup2_range old e f new :
    d !! old = Some e → (LIMIT ≤ new)%nat → spec_op d (OpDup2 old new f) [] d (OutFd (Err (InvalidFd new)))
| so_dupfd fd e arg k :
    d !! fd = Some e → lowest d (Z.to_nat arg) k → spec_op d (OpFcntl fd F_DUPFD arg) [] (<[k := e]> d) (OutInt (Ok (Z.of_nat k)))
| so_dupfd_full fd e arg :
    d !! fd = Some e → full d (Z.to_nat arg) → spec_op d (OpFcntl fd F_DUPFD arg) [] d (OutInt (Err TableFull))
| so_getfd fd e arg : d !! fd = Some e → spec_op d (OpFcntl fd F_GETFD arg) [] d (OutInt (Ok (flags e)))
| so_setfd fd e arg :
    d !! fd = Some e →
    spec_op d (OpFcntl fd F_SETFD arg) [] (<[fd := e <| flags := Z.land (wrap32 arg) 1 |>]> d) (OutInt (Ok 0))
| so_getfl fd e arg : d !! fd = Some e → spec_op d (OpFcntl fd F_GETFL arg) [] d (OutInt (Ok (open_flags e)))
| so_setfl fd e arg :
    d !! fd = Some e →
    spec_op d (OpFcntl fd F_SETFL arg) [] (<[fd := e <| open_flags := Z.land (wrap32 arg) 0x80F7F |>]> d) (OutInt (Ok 0))
| so_unsupported fd cmd arg : needs (OpFcntl fd cmd arg) = None → spec_op d (OpFcntl fd cmd arg) [] d (OutInt (Err Unsupported))
| so_exec closed :
    closed = filter (λ k, cloexec d k = true) (seq 0 LIMIT) →
    spec_op d OpExec (closed ≫= λ k, close_calls k (d !! k)) (filter (λ x, FdFlags_is_cloexec (flags x.2) = false) d) (OutList (Ok closed)).

(** The tasks with their groups, and the descriptors of each group. *)
Record Spec := mkSpec {
  owner : gmap Z nat;
  files : gmap nat Descs;
}.

#[export] Instance eta_Spec : Settable Spec := λ a, mkSpec (owner a) (files a).

Inductive spec_cmd (a : Spec) : FdCmd → list Call → Spec → option FdOut → Prop :=
| sc_init tid g :
    files a !! g = None →
    spec_cmd a (CmdInit tid) [] (mkSpec (<[tid := g]> (owner a)) (<[g := std_descs]> (files a))) None
| sc_remove tid : spec_cmd a (CmdRemove tid) [] (a <| owner := delete tid (owner a) |>) None
| sc_share p c g : owner a !! p = Some g → spec_cmd a (CmdShare p c) [] (a <| owner := <[c := g]> (owner a) |>) None
| sc_share_none p c g :
    owner a !! p = None → files a !! g = None →
    spec_cmd a (CmdShare p c) [] (mkSpec (<[c := g]> (owner a)) (<[g := std_descs]> (files a))) None
| sc_clone p c h d g :
    owner a !! p = Some h → files a !! h = Some d → files a !! g = None →
    spec_cmd a (CmdClone p c) [] (mkSpec (<[c := g]> (owner a)) (<[g := d]> (files a))) None
| sc_clone_none p c g :
    owner a !! p = None → files a !! g = None →
    spec_cmd a (CmdClone p c) [] (mkSpec (<[c := g]> (owner a)) (<[g := std_descs]> (files a))) None
| sc_op tid op g d cs d' r :
    owner a !! tid = Some g → files a !! g = Some d → spec_op d op cs d' r →
    spec_cmd a (CmdOp tid op) cs (a <| files := <[g := d']> (files a) |>) (Some r)
| sc_op_none tid op : owner a !! tid = None → spec_cmd a (CmdOp tid op) [] a (Some (fails op InvalidArgument)).

Inductive spec_run : Spec → list FdCmd → list Call → Spec → list (option FdOut) → Prop :=
| sr_nil a : spec_run a [] [] a []
| sr_cons a c cs calls1 a1 r calls2 a2 rs :
    spec_cmd a c calls1 a1 r → spec_run a1 cs calls2 a2 rs → spec_run a (c :: cs) (calls1 ++ calls2) a2 (r :: rs).

(** ** Slots and finite maps *)

Definition rep (t : FdTable) (d : Descs) : Prop := length (entries t) = LIMIT ∧ ∀ k, d !! k = mjoin (entries t !! k).

Lemma find_seq_Some (p : nat → bool) lo n k :
  List.find p (seq lo n) = Some k → (lo ≤ k < lo + n)%nat ∧ p k = true ∧ ∀ j, (lo ≤ j < k)%nat → p j = false.
Proof.
  revert lo. induction n as [|n IH]; intros lo; [done|]. cbn [seq List.find]. destruct (p lo) eqn:Hp.
  - intros [= <-]. split_and!; [lia|lia|done|]. intros j Hj. lia.
  - intros Hf. destruct (IH (S lo) Hf) as (Hk & Hpk & Hmin). split_and!; [lia|lia|done|].
    intros j Hj. destruct (decide (j = lo)) as [->|]; [done|]. apply Hmin. lia.
Qed.

Lemma find_seq_None (p : nat → bool) lo n : List.find p (seq lo n) = None → ∀ j, (lo ≤ j < lo + n)%nat → p j = false.
Proof.
  intros Hf j Hj. apply (List.find_none _ _ Hf). apply List.in_seq. lia.
Qed.

Section rep.
Context (t : FdTable) (d : Descs) (Hr : rep t d).

Lemma rep_range k : is_Some (d !! k) → (k < LIMIT)%nat.
Proof.
  destruct Hr as [Hl Hd]. rewrite Hd. intros [e He]. rewrite <-Hl. apply lookup_lt_is_Some. destruct (entries t !! k); [by eexists|done].
Qed.

Lemma get_entry_rep fd : get_entry (entries t) fd = match d !! fd with Some e => Ok e | None => Err (InvalidFd fd) end.
Proof.
  destruct Hr as [Hl Hd]. unfold get_entry. rewrite Hd. destruct (Nat.leb_spec (length (entries t)) fd) as [Hge|Hlt].
  - by rewrite lookup_ge_None_2 by done.
  - destruct (entries t !! fd) as [[e|]|] eqn:He; done.
Qed.

Lemma is_none_rep fd : is_none (entries t) fd = true ↔ (fd < LIMIT)%nat ∧ d !! fd = None.
Proof.
  destruct Hr as [Hl Hd]. unfold is_none. rewrite Hd, <-Hl. split.
  - destruct (entries t !! fd) as [[e|]|] eqn:He; try done. intros _. split; [|done]. by apply lookup_lt_Some in He.
  - intros [Hlt He]. destruct (lookup_lt_is_Some_2 _ _ Hlt) as [o Ho]. rewrite Ho in He |- *. by destruct o.
Qed.

Lemma is_none_rep_false fd : (fd < LIMIT)%nat → is_none (entries t) fd = false ↔ is_Some (d !! fd).
Proof.
  intros Hlt. rewrite <-not_true_iff_false, is_none_rep. destruct (d !! fd); naive_solver.
Qed.

Lemma rep_insert fd e : (fd < LIMIT)%nat → rep (t <| entries := <[fd := Some e]> (entries t) |>) (<[fd := e]> d).
Proof.
  destruct Hr as [Hl Hd]. intros Hlt. split; simpl; [by rewrite length_insert|]. intros k.
  destruct (decide (k = fd)) as [->|Hne].
  - rewrite lookup_insert_eq, list_lookup_insert_eq by lia. done.
  - rewrite lookup_insert_ne, list_lookup_insert_ne by done. apply Hd.
Qed.

Lemma rep_delete fd : (fd < LIMIT)%nat → rep (t <| entries := <[fd := None]> (entries t) |>) (delete fd d).
Proof.
  destruct Hr as [Hl Hd]. intros Hlt. split; simpl; [by rewrite length_insert|]. intros k.
  destruct (decide (k = fd)) as [->|Hne].
  - rewrite lookup_delete_eq, list_lookup_insert_eq by lia. done.
  - rewrite lookup_delete_ne, list_lookup_insert_ne by done. apply Hd.
Qed.

(** The search for a slot finds the least one; skipping an open one changes
    nothing. *)
Lemma find_rep (p : nat → bool) lo :
  (∀ k, p k = is_none (entries t) k) →
  match List.find p (seq lo (length (entries t) - lo)) with
  | Some fd => lowest d lo fd
  | None => full d lo
  end.
Proof.
  intros Hp. pose proof (proj1 Hr) as Hl. rewrite Hl. destruct (List.find _ _) as [fd|] eqn:Hf.
  - apply find_seq_Some in Hf as (Hk & Hpk & Hmin). rewrite Hp in Hpk. apply is_none_rep in Hpk as [Hlt Hn]. split_and!; [lia|done|done|].
    intros k Hj. apply is_none_rep_false; [lia|]. rewrite <-Hp. by apply Hmin.
  - intros k Hk. apply is_none_rep_false; [lia|]. rewrite <-Hp. by apply (find_seq_None _ _ _ Hf); lia.
Qed.

Lemma skip_open fd k : is_Some (d !! fd) → is_none (entries t) k && negb (k =? fd)%nat = is_none (entries t) k.
Proof.
  intros Hs. destruct (Nat.eqb_spec k fd) as [->|]; [|by rewrite andb_true_r]. cbn [negb]. rewrite andb_false_r. symmetry.
  apply is_none_rep_false; [by apply rep_range|done].
Qed.
End rep.

Lemma rep_new : rep FdTable_new std_descs.
Proof.
  split; [by vm_compute|]. intros k.
  change (entries FdTable_new) with (<[STDERR_FILENO := Some (mkFdEntry Serial 0 2)]> (<[STDOUT_FILENO := Some (mkFdEntry Serial 0 2)]>
    (<[STDIN_FILENO := Some (mkFdEntry Keyboard 0 1)]> (replicate LIMIT None)))).
  destruct (decide (k = 0)%nat) as [->|]; [by vm_compute|]. destruct (decide (k = 1)%nat) as [->|]; [by vm_compute|].
  destruct (decide (k = 2)%nat) as [->|]; [by vm_compute|]. unfold std_descs.
  rewrite !lookup_insert_ne, lookup_singleton_ne by (unfold STDERR_FILENO, STDOUT_FILENO, STDIN_FILENO; lia).
  rewrite !list_lookup_insert_ne by (unfold STDERR_FILENO, STDOUT_FILENO, STDIN_FILENO; lia).
  destruct (replicate _ _ !! k) as [o|] eqn:Ho; [|done]. apply lookup_replicate in Ho as [-> _]. done.
Qed.

(** ** Closing on exec *)

Definition slot_cloexec (es : list (option FdEntry)) (fd : nat) : bool :=
  match es !! fd with Some (Some e) => FdFlags_is_cloexec (flags e) | _ => false end.

Lemma exec_loop es0 l es cs closed :
  NoDup l → Forall (λ k, (k < length es)%nat ∧ es !! k = es0 !! k) l →
  ∃ es', foldl exec_turn (cs, es, closed) l =
      (cs ++ (filter (λ k, slot_cloexec es0 k = true) l ≫= λ k, close_calls k (mjoin (es0 !! k))), es',
       closed ++ filter (λ k, slot_cloexec es0 k = true) l) ∧
    length es' = length es ∧ ∀ k, es' !! k = if bool_decide (k ∈ l) && slot_cloexec es0 k then Some None else es !! k.
Proof.
  revert es cs closed. induction l as [|fd l IH]; intros es cs closed Hnd Hsame.
  { exists es. rewrite !app_nil_r. split_and!; [done|done|]. intros k. by rewrite bool_decide_false by apply not_elem_of_nil. }
  apply NoDup_cons in Hnd as [Hfd Hnd]. apply Forall_cons in Hsame as [[Hlt Heq] Hsame]. cbn [foldl].
  assert (∀ k, k ≠ fd → bool_decide (k ∈ fd :: l) = bool_decide (k ∈ l)) as Hmem.
  { intros k Hk. apply bool_decide_ext. rewrite elem_of_cons. naive_solver. }
  unfold exec_turn at 2. rewrite Heq. destruct (slot_cloexec es0 fd) eqn:Hc.
  - rewrite filter_cons_True by done. pose proof Hc as Hc'. unfold slot_cloexec in Hc'.
    destruct (es0 !! fd) as [[e|]|] eqn:He; [|done|done]. rewrite Hc'. unfold close_internal, get_entry.
    destruct (Nat.leb_spec (length es) fd) as [|_]; [lia|]. rewrite Heq.
    destruct (IH (<[fd := None]> es) (cs ++ resource_calls (desc e) ++ [epoll_remove_fd fd]) (closed ++ [fd])) as (es' & Hf & Hl & Hk); [done| |].
    { apply Forall_forall. intros k Hin. rewrite Forall_forall in Hsame. rewrite length_insert, list_lookup_insert_ne by (intros ->; done).
      by apply Hsame. }
    exists es'. rewrite Hf, bind_cons, He.
    change (close_calls fd (mjoin (Some (Some e)))) with (resource_calls (desc e) ++ [epoll_remove_fd fd]). rewrite <-!app_assoc. split_and!; [done|rewrite Hl; apply length_insert|].
    intros k. rewrite Hk. destruct (decide (k = fd)) as [->|Hne].
    + rewrite bool_decide_false, bool_decide_true, Hc by (done || by left). cbn [andb]. by rewrite list_lookup_insert_eq.
    + by rewrite Hmem, list_lookup_insert_ne.
  - rewrite filter_cons_False by congruence.
    assert ((match es0 !! fd with
      | Some (Some e) => if FdFlags_is_cloexec (flags e) then let '(cs', es1, _) := close_internal fd es in (cs ++ cs', es1, closed ++ [fd]) else (cs, es, closed)
      | _ => (cs, es, closed) end) = (cs, es, closed)) as ->.
    { unfold slot_cloexec in Hc. destruct (es0 !! fd) as [[e|]|]; [by rewrite Hc|done|done]. }
    destruct (IH es cs closed Hnd Hsame) as (es' & Hf & Hl & Hk). exists es'. split_and!; [done|done|].
    intros k. rewrite Hk. destruct (decide (k = fd)) as [->|Hne]; [by rewrite Hc, !andb_false_r|by rewrite Hmem].
Qed.

Lemma exec_rep t d :
  rep t d →
  let '(cs, t', closed) := close_on_exec t in
  spec_op d OpExec cs (filter (λ x, FdFlags_is_cloexec (flags x.2) = false) d) (OutList (Ok closed)) ∧
  rep t' (filter (λ x, FdFlags_is_cloexec (flags x.2) = false) d).
Proof.
  intros [Hl Hd]. unfold close_on_exec.
  destruct (exec_loop (entries t) (seq 0 (length (entries t))) (entries t) [] []) as (es' & Hf & Hl' & Hk);
    [apply NoDup_seq|apply Forall_seq; intros k Hk; split; [lia|done]|].
  rewrite Hf, !app_nil_l. rewrite Hl in *.
  assert (∀ k, slot_cloexec (entries t) k = cloexec d k) as Hcl.
  { intros k. unfold slot_cloexec, cloexec. rewrite Hd. by destruct (entries t !! k) as [[e|]|]. }
  assert (filter (λ k, slot_cloexec (entries t) k = true) (seq 0 LIMIT) = filter (λ k, cloexec d k = true) (seq 0 LIMIT)) as Hfil.
  { apply list_filter_iff. intros k. by rewrite Hcl. }
  rewrite Hfil. split.
  - assert (∀ l, (l ≫= λ k, close_calls k (mjoin (entries t !! k))) = (l ≫= λ k, close_calls k (d !! k))) as ->; [|by constructor].
    intros l. apply list_bind_ext; [|done]. intros k. by rewrite Hd.
  - split; simpl; [congruence|]. intros k. rewrite Hk, Hcl. destruct (d !! k) as [e|] eqn:He.
    + assert (k < LIMIT)%nat as Hlt by (apply (rep_range t d (conj Hl Hd)); by exists e).
      rewrite bool_decide_true by (apply elem_of_seq; lia). unfold cloexec. rewrite He. cbn [andb].
      destruct (FdFlags_is_cloexec (flags e)) eqn:Hc.
      * apply map_lookup_filter_None_2. right. intros e' He' Hf'. simpl in Hf'. congruence.
      * rewrite <-Hd, He. by apply map_lookup_filter_Some_2.
    + unfold cloexec. rewrite He, andb_false_r, <-Hd, He. apply map_lookup_filter_None_2. by left.
Qed.

(** ** The operations of a table *)

Definition table_op (op : FdOp) (t : FdTable) : list Call * FdTable * FdOut :=
  match op with
  | OpOpen d f o => let '(t, r) := FdTable_open d f o t in ([], t, OutFd r)
  | OpGet fd => ([], t, OutEntry (FdTable_get fd t))
  | OpClose fd => let '(cs, t, r) := FdTable_close fd t in (cs, t, OutUnit r)
  | OpDup fd f => let '(cs, t, r) := FdTable_dup fd None f t in (cs, t, OutFd r)
  | OpDup2 old new f => let '(cs, t, r) := FdTable_dup old (Some new) f t in (cs, t, OutFd r)
  | OpFcntl fd cmd arg =>
    if cmd =? F_DUPFD then let '(cs, t, r) := as_i64 Z.of_nat (fcntl_dupfd fd (Z.to_nat arg) t) in (cs, t, OutInt r)
    else if cmd =? F_GETFD then let '(cs, t, r) := as_i64 (λ f, f) (t, get_fd_flags fd t) in (cs, t, OutInt r)
    else if cmd =? F_SETFD then let '(cs, t, r) := as_i64 (λ _, 0) (set_fd_flags fd (FdFlags_from_u32 (wrap32 arg)) t) in (cs, t, OutInt r)
    else if cmd =? F_GETFL then let '(cs, t, r) := as_i64 (λ f, f) (t, get_open_flags fd t) in (cs, t, OutInt r)
    else if cmd =? F_SETFL then let '(cs, t, r) := as_i64 (λ _, 0) (set_open_flags fd (OpenFlags_from_u32 (wrap32 arg)) t) in (cs, t, OutInt r)
    else ([], t, OutInt (Err Unsupported))
  | OpExec => let '(cs, t, l) := close_on_exec t in (cs, t, OutList (Ok l))
  end.

Lemma fd_op_table tid op s a t :
  get_table tid s = Some a → heap s !! a = Some t →
  fd_op tid op s =
    let '(cs, t', r) := table_op op t in (s <| heap := <[a := t']> (heap s) |> <| calls := calls s ++ cs |>, r).
Proof.
  intros Ha Ht.
  assert (∀ A (f : FdTable → list Call * FdTable * result A FdError), on_table tid f s =
    let '(cs, t', r) := f t in (s <| heap := <[a := t']> (heap s) |> <| calls := calls s ++ cs |>, r)) as Hon.
  { intros A f. unfold on_table. rewrite Ha. cbn [mbind option_bind]. rewrite Ht. done. }
  destruct op as [d f o|fd|fd|fd f|old new f|fd cmd arg|]; unfold fd_op, table_op, open, get, close, dup, dup2, fcntl, quiet; rewrite Hon.
  - by destruct (FdTable_open d f o t).
  - done.
  - by destruct (FdTable_close fd t) as [[cs t'] r].
  - by destruct (FdTable_dup fd None f t) as [[cs t'] r].
  - by destruct (FdTable_dup old (Some new) f t) as [[cs t'] r].
  - repeat (destruct (cmd =? _); [by destruct (as_i64 _ _) as [[cs t'] r]|]). done.
  - by destruct (close_on_exec t) as [[cs t'] l].
Qed.

Lemma fd_op_missing tid op s : FD_TABLES s !! tid = None → fd_op tid op s = (s, fails op InvalidArgument).
Proof.
  intros Hn. assert (∀ A (f : FdTable → list Call * FdTable * result A FdError), on_table tid f s = (s, Err InvalidArgument)) as Hon.
  { intros A f. unfold on_table, get_table. by rewrite Hn. }
  destruct op; unfold fd_op, open, get, close, dup, dup2, fcntl; by rewrite Hon.
Qed.

(** One operation on a table does what the specification says. *)
Definition op_ok (op : FdOp) (t : FdTable) (d : Descs) : Prop := let '(cs, t', r) := table_op op t in ∃ d', spec_op d op cs d' r ∧ rep t' d'.

Lemma dup_rep old f t d : rep t d → op_ok (OpDup old f) t d.
Proof.
  intros Hr. unfold op_ok, table_op, FdTable_dup. rewrite (get_entry_rep t d Hr). destruct (d !! old) as [e|] eqn:He.
  2: { exists d. split; [by apply (so_bad d (OpDup old f) old)|done]. }
  pose proof (find_rep t d Hr (λ fd, is_none (entries t) fd && negb (fd =? old)%nat) 0) as Hfind. rewrite Nat.sub_0_r in Hfind.
  specialize (Hfind (λ k, skip_open t d Hr old k (ex_intro _ e He))). destruct (List.find _ _) as [k|].
  - exists (<[k := e <| flags := f |>]> d). split; [by apply so_dup|]. apply rep_insert; [done|]. apply Hfind.
  - exists d. split; [by apply (so_dup_full d old e)|done].
Qed.

Lemma dup2_rep old new f t d : rep t d → op_ok (OpDup2 old new f) t d.
Proof.
  intros Hr. unfold op_ok, table_op, FdTable_dup. rewrite (get_entry_rep t d Hr). destruct (d !! old) as [e|] eqn:He.
  2: { exists d. split; [by apply (so_bad d (OpDup2 old new f) old)|done]. }
  pose proof (proj1 Hr) as Hl. rewrite Hl. destruct (Nat.leb_spec LIMIT new) as [Hge|Hlt].
  { exists d. split; [by apply (so_dup2_range d old e)|done]. }
  pose proof (so_dup2 d old e f new He Hlt) as Hs. destruct (is_none (entries t) new) eqn:Hn; cbn [negb].
  - apply (is_none_rep t d Hr) in Hn as [_ Hn]. rewrite Hn in Hs. eexists. split; [exact Hs|]. by apply rep_insert.
  - apply (is_none_rep_false t d Hr new Hlt) in Hn as [e' He']. unfold FdTable_close, close_internal.
    rewrite (get_entry_rep t d Hr), He'. rewrite He' in Hs. eexists. split; [exact Hs|].
    rewrite <-(insert_delete_eq d). apply (rep_insert _ _ (rep_delete t d Hr new Hlt)); done.
Qed.

Lemma fcntl_rep fd cmd arg t d : rep t d → op_ok (OpFcntl fd cmd arg) t d.
Proof.
  intros Hr. unfold op_ok, table_op.
  assert (∀ e, d !! fd = Some e → (fd < LIMIT)%nat) as Hlt by (intros e He; apply (rep_range t d Hr); by exists e).
  assert (d !! fd = None → 0 ≤ cmd ≤ 4 → spec_op d (OpFcntl fd cmd arg) [] d (OutInt (Err (InvalidFd fd)))) as Hbad.
  { intros Hn Hcmd. apply (so_bad d (OpFcntl fd cmd arg) fd); [|done]. unfold needs.
    destruct (Z.leb_spec 0 cmd); [|lia]. by destruct (Z.leb_spec cmd 4); [|lia]. }
  pose proof (get_entry_rep t d Hr fd) as Hget. unfold as_i64, F_DUPFD, F_GETFD, F_SETFD, F_GETFL, F_SETFL.
  destruct (Z.eqb_spec cmd 0) as [->|]; [|destruct (Z.eqb_spec cmd 1) as [->|]; [|destruct (Z.eqb_spec cmd 2) as [->|];
    [|destruct (Z.eqb_spec cmd 3) as [->|]; [|destruct (Z.eqb_spec cmd 4) as [->|]]]]];
    unfold fcntl_dupfd, get_fd_flags, set_fd_flags, get_open_flags, set_open_flags, FdTable_get; rewrite ?Hget.
  6: { exists d. split; [|done]. apply so_unsupported. unfold needs. destruct (Z.leb_spec 0 cmd), (Z.leb_spec cmd 4); done || lia. }
  all: destruct (d !! fd) as [e|] eqn:He; [specialize (Hlt e eq_refl)|exists d; split; [apply Hbad; [done|lia]|done]].
  - pose proof (find_rep t d Hr (λ k, negb (k =? fd)%nat && is_none (entries t) k) (Z.to_nat arg)) as Hfind.
    specialize (Hfind (λ k, eq_trans (andb_comm _ _) (skip_open t d Hr fd k (ex_intro _ e He)))). destruct (List.find _ _) as [k|].
    + exists (<[k := e]> d). split; [by apply so_dupfd|]. apply rep_insert; [done|]. apply Hfind.
    + exists d. split; [by apply (so_dupfd_full d fd e)|done].
  - exists d. split; [by apply so_getfd|done].
  - eexists. split; [by apply so_setfd|]. by apply rep_insert.
  - exists d. split; [by apply so_getfl|done].
  - eexists. split; [by apply so_setfl|]. by apply rep_insert.
Qed.

Lemma table_op_spec op t d : rep t d → op_ok op t d.
Proof.
  intros Hr. destruct op as [x f o|fd|fd|fd f|old new f|fd cmd arg|]; unfold op_ok, table_op.
  - unfold FdTable_open. pose proof (find_rep t d Hr (is_none (entries t)) 0 ltac:(done)) as Hfind. rewrite Nat.sub_0_r in Hfind.
    destruct (List.find _ _) as [k|]; [|by exists d; split; [apply so_open_full|]].
    exists (<[k := mkFdEntry x f o]> d). split; [by apply so_open|]. apply rep_insert; [done|]. apply Hfind.
  - unfold FdTable_get. rewrite (get_entry_rep t d Hr). exists d. split; [|done]. destruct (d !! fd) as [e|] eqn:He; [by apply so_get|].
    by apply (so_bad d (OpGet fd) fd).
  - unfold FdTable_close, close_internal. rewrite (get_entry_rep t d Hr). destruct (d !! fd) as [e|] eqn:He.
    + exists (delete fd d). split; [by apply so_close|]. apply rep_delete; [done|]. apply (rep_range t d Hr). by exists e.
    + exists d. split; [by apply (so_bad d (OpClose fd) fd)|done].
  - by apply dup_rep.
  - by apply dup2_rep.
  - by apply fcntl_rep.
  - pose proof (exec_rep t d Hr) as He. destruct (close_on_exec t) as [[cs t'] l]. by eexists.
Qed.

(** ** All tasks *)

Record tables_rep (s : Tables) (a : Spec) : Prop := {
  tr_owner : owner a = FD_TABLES s;
  tr_files g : match heap s !! g, files a !! g with Some t, Some d => rep t d | None, None => True | _, _ => False end;
  tr_arcs tid g : FD_TABLES s !! tid = Some g → is_Some (heap s !! g);
  tr_next g : is_Some (heap s !! g) → (g < next_arc s)%nat;
}.

Lemma fresh_arc s a : tables_rep s a → heap s !! next_arc s = None ∧ files a !! next_arc s = None.
Proof.
  intros Hr. assert (heap s !! next_arc s = None) as Hn.
  { apply eq_None_not_Some. intros Hs. apply (tr_next _ _ Hr) in Hs. lia. }
  split; [done|]. pose proof (tr_files _ _ Hr (next_arc s)) as Hf. rewrite Hn in Hf. by destruct (files a !! next_arc s).
Qed.

(** A task gets a table of its own. *)
Lemma rep_fresh s a t d tid :
  tables_rep s a → rep t d →
  tables_rep (mkTables (<[next_arc s := t]> (heap s)) (<[tid := next_arc s]> (FD_TABLES s)) (S (next_arc s)) (calls s))
    (mkSpec (<[tid := next_arc s]> (owner a)) (<[next_arc s := d]> (files a))).
Proof.
  intros Hr Ht. split; simpl.
  - by rewrite (tr_owner _ _ Hr).
  - intros g. destruct (decide (g = next_arc s)) as [->|Hne]; [by rewrite !lookup_insert_eq|].
    rewrite !lookup_insert_ne by done. apply Hr.
  - intros k g Hk. rewrite lookup_insert_is_Some'. destruct (decide (k = tid)) as [->|Hne].
    + rewrite lookup_insert_eq in Hk. injection Hk as <-. by left.
    + rewrite lookup_insert_ne in Hk by done. right. by apply (tr_arcs _ _ Hr k).
  - intros g. rewrite lookup_insert_is_Some'. intros [<-|Hg]; [lia|]. apply (tr_next _ _ Hr) in Hg. lia.
Qed.

(** A task points to an existing table, and a table is replaced. *)
Lemma rep_point s a tid g t d cs :
  tables_rep s a → rep t d → is_Some (heap s !! g) →
  tables_rep (mkTables (<[g := t]> (heap s)) (<[tid := g]> (FD_TABLES s)) (next_arc s) cs)
    (mkSpec (<[tid := g]> (owner a)) (<[g := d]> (files a))).
Proof.
  intros Hr Ht Hg. split; simpl.
  - by rewrite (tr_owner _ _ Hr).
  - intros h. destruct (decide (h = g)) as [->|Hne]; [by rewrite !lookup_insert_eq|].
    rewrite !lookup_insert_ne by done. apply Hr.
  - intros k h Hk. rewrite lookup_insert_is_Some'. destruct (decide (k = tid)) as [->|Hne].
    + rewrite lookup_insert_eq in Hk. injection Hk as <-. by left.
    + rewrite lookup_insert_ne in Hk by done. right. by apply (tr_arcs _ _ Hr k).
  - intros h. rewrite lookup_insert_is_Some'. intros [<-|Hh]; [by apply (tr_next _ _ Hr)|by apply (tr_next _ _ Hr)].
Qed.

Lemma fd_cmd_spec c s a :
  tables_rep s a → ∃ cs a', spec_cmd a c cs a' (fd_cmd c s).2 ∧ tables_rep (fd_cmd c s).1 a' ∧ calls (fd_cmd c s).1 = calls s ++ cs.
Proof.
  intros Hr. destruct (fresh_arc s a Hr) as [Hn Hna]. pose proof (tr_owner _ _ Hr) as Ho.
  destruct c as [tid|tid|p c|p c|tid op]; cbn [fd_cmd fst snd].
  - eexists [], _. split; [by apply (sc_init a tid (next_arc s))|]. rewrite app_nil_r. split; [|done]. by apply (rep_fresh s a FdTable_new std_descs); [|apply rep_new].
  - exists [], (a <| owner := delete tid (owner a) |>). split; [apply sc_remove|]. rewrite app_nil_r. split; [|done].
    split; simpl; [by rewrite Ho|apply Hr| |apply Hr]. intros k g [_ Hk]%lookup_delete_Some. by apply (tr_arcs _ _ Hr k).
  - unfold share_fd_table, get_table. destruct (FD_TABLES s !! p) as [g|] eqn:Hg.
    + destruct (tr_arcs _ _ Hr p g Hg) as [t Ht]. pose proof (tr_files _ _ Hr g) as Hf. rewrite Ht in Hf.
      destruct (files a !! g) as [d|] eqn:Hd; [|done].
      eexists [], _. split; [apply (sc_share a p c g); by rewrite Ho|]. rewrite app_nil_r. split; [|done].
      assert (alter increment_refcount g (heap s) = <[g := increment_refcount t]> (heap s)) as Ha.
      { apply map_eq. intros k. destruct (decide (k = g)) as [->|].
        - by rewrite lookup_alter_eq, lookup_insert_eq, Ht.
        - by rewrite lookup_alter_ne, lookup_insert_ne by done. }
      assert (files a = <[g := d]> (files a)) as Hfa by (symmetry; by apply insert_id).
      pose proof (rep_point s a c g (increment_refcount t) d (calls s) Hr Hf ltac:(by exists t)) as Hp.
      rewrite <-Ha, <-Hfa in Hp. exact Hp.
    + eexists [], _. split; [apply (sc_share_none a p c (next_arc s)); [by rewrite Ho|done]|]. rewrite app_nil_r. split; [|done].
      by apply (rep_fresh s a FdTable_new std_descs); [|apply rep_new].
  - unfold clone_fd_table, get_table. destruct (FD_TABLES s !! p) as [g|] eqn:Hg; cbn [mbind option_bind].
    + destruct (tr_arcs _ _ Hr p g Hg) as [t Ht]. pose proof (tr_files _ _ Hr g) as Hf. rewrite Ht in Hf |- *.
      destruct (files a !! g) as [d|] eqn:Hd; [|done].
      eexists [], _. split; [apply (sc_clone a p c g d (next_arc s)); [by rewrite Ho|done|done]|]. rewrite app_nil_r. split; [|done].
      by apply (rep_fresh s a (FdTable_snapshot t) d).
    + eexists [], _. split; [apply (sc_clone_none a p c (next_arc s)); [by rewrite Ho|done]|]. rewrite app_nil_r. split; [|done].
      by apply (rep_fresh s a FdTable_new std_descs); [|apply rep_new].
  - destruct (FD_TABLES s !! tid) as [g|] eqn:Hg.
    + destruct (tr_arcs _ _ Hr tid g Hg) as [t Ht]. pose proof (tr_files _ _ Hr g) as Hf. rewrite Ht in Hf.
      destruct (files a !! g) as [d|] eqn:Hd; [|done]. rewrite (fd_op_table tid op s g t Hg Ht).
      pose proof (table_op_spec op t d Hf) as Hop. unfold op_ok in Hop. destruct (table_op op t) as [[cs t'] r]. destruct Hop as (d' & Hop & Hf').
      exists cs, (a <| files := <[g := d']> (files a) |>). split; [by apply (sc_op a tid op g d cs d' r); [rewrite Ho| |]|]. split; [|done].
      pose proof (rep_point s a tid g t' d' (calls s ++ cs) Hr Hf' ltac:(by exists t)) as Hp.
      rewrite (insert_id (FD_TABLES s)), (insert_id (owner a)) in Hp by (by rewrite ?Ho). exact Hp.
    + exists [], a. rewrite (fd_op_missing tid op s Hg). split; [apply sc_op_none; by rewrite Ho|]. rewrite app_nil_r. done.
Qed.

Lemma fd_run_spec cmds s a :
  tables_rep s a →
  ∃ cs a', spec_run a cmds cs a' (fd_run cmds s).2 ∧ tables_rep (fd_run cmds s).1 a' ∧ calls (fd_run cmds s).1 = calls s ++ cs.
Proof.
  revert s a. induction cmds as [|c cmds IH]; intros s a Hr.
  { exists [], a. split; [constructor|]. by rewrite app_nil_r. }
  destruct (fd_cmd_spec c s a Hr) as (cs & a1 & Hc & Hr1 & Hcs). cbn [fd_run]. destruct (fd_cmd c s) as [s1 r]. cbn [fst snd] in *.
  destruct (IH s1 a1 Hr1) as (cs' & a2 & Hrun & Hr2 & Hcs'). destruct (fd_run cmds s1) as [s2 rs]. cbn [fst snd] in *.
  exists (cs ++ cs'), a2. split; [by econstructor|]. split; [done|]. by rewrite Hcs', Hcs, app_assoc.
Qed.


(** ** Where the code departs from POSIX or from its own documentation *)

(** The test of [share_fd_table] expects that the child keeps a descriptor the
    parent closes; the table is one, so it is closed for both. *)
Lemma shared_close_seen_by_both :
  last (fd_run [CmdInit 1; CmdOp 1 (OpOpen Serial 0 2); CmdShare 1 2; CmdOp 1 (OpClose 3); CmdOp 2 (OpGet 3)] Tables_empty).2 =
  Some (Some (OutEntry (Err (InvalidFd 3)))).
Proof. by vm_compute. Qed.

(** Closing one of two descriptors of a pipe end closes the end, though the other
    descriptor is still open. *)
Lemma dup_pipe_closed_early :
  let '(s, rs) := fd_run [CmdInit 1; CmdOp 1 (OpOpen (Pipe false 7) 0 2); CmdOp 1 (OpDup 3 0); CmdOp 1 (OpClose 3); CmdOp 1 (OpGet 4)] Tables_empty in
  calls s = [close_pipe_end 7 false; epoll_remove_fd 3] ∧ last rs = Some (Some (OutEntry (Ok (mkFdEntry (Pipe false 7) 0 2)))).
Proof. by vm_compute. Qed.

(** [dup2] of a descriptor onto itself closes the resource and keeps the
    descriptor. *)
Lemma dup2_self_closes :
  let '(s, rs) := fd_run [CmdInit 1; CmdOp 1 (OpOpen (TcpSocket 5) 0 3); CmdOp 1 (OpDup2 3 3 0)] Tables_empty in
  calls s = [socket_close 5; epoll_remove_fd 3] ∧ last rs = Some (Some (OutFd (Ok 3%nat))).
Proof. by vm_compute. Qed.

(** Removing the table of a task closes none of its descriptors, and does not
    lower the count of a shared table. *)
Lemma remove_closes_nothing :
  let s := (fd_run [CmdInit 1; CmdOp 1 (OpOpen (Pipe false 7) 0 2); CmdShare 1 2; CmdRemove 2; CmdRemove 1] Tables_empty).1 in
  calls s = [] ∧ (refcount <$> heap s !! 0%nat) = Some 2.
Proof. by vm_compute. Qed.

(** [F_DUPFD] keeps the close-on-exec flag. *)
Lemma dupfd_keeps_cloexec :
  last (fd_run [CmdInit 1; CmdOp 1 (OpOpen Serial 1 2); CmdOp 1 (OpFcntl 3 F_DUPFD 10); CmdOp 1 (OpFcntl 10 F_GETFD 0)] Tables_empty).2 =
  Some (Some (OutInt (Ok 1))).
Proof. by vm_compute. Qed.
