(* ===== verification/Sched.v ===== *)
(** * The scheduler ([src/src/sched/mod.rs]) and its tasks ([src/src/task/mod.rs]).

    A task is its record without stack and saved registers; a pointer to saved
    registers is the id of the task they belong to. The time is an argument. The
    ready queues are indexed by priority, which is a byte. [None] is a call that
    waits for a lock its caller holds: [notify_exit] takes the lock of the scheduler. *)

From Stdlib Require Import ZArith Lia Bool.
From stdpp Require Import base gmap sets strings numbers list.
From S2P Require Import Prelude.

Local Open Scope Z_scope.

(** ** Data *)

Definition DEFAULT_QUANTUM : Z := 10.
Definition AP_STUCK_THRESHOLD_MS : Z := 5000.

Inductive TaskState :=
| New
| Running
| Ready
| Blocked
| Dead.

Inductive WaitEvent :=
| WaitIo
| WaitTimer
| WaitMutex (id : Z)
| WaitPipe (id : Z).

#[export] Instance WaitEvent_eq_dec : EqDecision WaitEvent.
Proof. solve_decision. Defined.

#[export] Instance TaskState_eq_dec : EqDecision TaskState.
Proof. solve_decision. Defined.

Record Task := mkTask {
  tid : Z;
  task_name : string;
  state : TaskState;
  priority : Z;
  ticks : Z;
  sleep_until : option Z;
  wait_event : option WaitEvent;
  stolen_at_ms : Z;
}.

#[export] Instance eta_Task : Settable Task :=
  λ t, mkTask (tid t) (task_name t) (state t) (priority t) (ticks t) (sleep_until t) (wait_event t) (stolen_at_ms t).

Record Scheduler := mkScheduler {
  running_on_ap : gmap Z Task;
  current : option Task;
  ready : list (list Task);
  blocked : gmap Z Task;
  quantum : Z;
  switches : Z;
  total_ticks : Z;
}.

#[export] Instance eta_Scheduler : Settable Scheduler :=
  λ s, mkScheduler (running_on_ap s) (current s) (ready s) (blocked s) (quantum s) (switches s) (total_ticks s).

(** ** Queues *)

(** [queues[prio].push_back(task)]. *)
Definition push_back (t : Task) (queues : list (list Task)) : list (list Task) :=
  alter (λ q, q ++ [t]) (Z.to_nat (priority t)) queues.

(** The loop of [pick_next] over the priorities below [n], the greatest first. *)
Fixpoint pick_below (n : nat) (queues : list (list Task)) : option (Task * list (list Task)) :=
  match n with
  | O => None
  | S p =>
    match queues !! p with
    | Some (t :: q) => Some (t, <[p := q]> queues)
    | _ => pick_below p queues
    end
  end.

(** ** Tasks *)

Definition PRIORITY_IDLE : Z := 0.

Definition Task_new (name : string) (prio id : Z) : Task := mkTask id name New prio 0 None None 0.

Definition Task_new_idle : Task := mkTask 0 "idle" Ready PRIORITY_IDLE 0 None None 0.

Definition is_schedulable (s : TaskState) : bool := match s with Ready | Running => true | _ => false end.

(** ** The scheduler *)

Definition Scheduler_new : Scheduler :=
  mkScheduler ∅ None (push_back Task_new_idle (replicate 256 [])) ∅ DEFAULT_QUANTUM 0 0.

Definition spawn (t : Task) (s : Scheduler) : Scheduler :=
  s <| ready := push_back (t <| state := Ready |>) (ready s) |>.

Definition pick_next (s : Scheduler) : option (Task * Scheduler) :=
  '(t, q) ← pick_below 256 (ready s); Some (t, s <| ready := q |>).

Definition enqueue_current (s : Scheduler) : Scheduler :=
  match current s with
  | Some t => s <| current := None |> <| ready := push_back (t <| state := Ready |>) (ready s) |>
  | None => s
  end.

Definition block_current_task (s : Scheduler) : Scheduler :=
  match current s with
  | Some t =>
    let t := t <| state := Blocked |> in
    s <| current := None |> <| blocked := <[tid t := t]> (blocked s) |> <| quantum := 0 |>
  | None => s
  end.

(** A dead task is given to [notify_exit] under the lock. *)
Definition ap_task_finished (cpu : Z) (s : Scheduler) : option Scheduler :=
  match running_on_ap s !! cpu with
  | None => Some s
  | Some t =>
    let s := s <| running_on_ap := delete cpu (running_on_ap s) |> in
    match state t with
    | Dead => None
    | Blocked => Some (s <| blocked := <[tid t := t]> (blocked s) |>)
    | _ =>
      let t := t <| state := Ready |> <| ticks := add64 (ticks t) 1 |> in
      if priority t <? Z.of_nat (length (ready s)) then Some (s <| ready := push_back t (ready s) |>)
      else Some (s <| ready := alter (λ q, q ++ [t]) 0%nat (ready s) |>)
    end
  end.

(** The processors whose task has been there for too long. *)
Definition stuck (now : Z) (s : Scheduler) : list Z :=
  omap (λ '(cpu, t),
    if stolen_at_ms t =? 0 then None
    else if AP_STUCK_THRESHOLD_MS <? sat_sub now (stolen_at_ms t) then Some cpu else None) (btree_iter (running_on_ap s)).

Definition ap_audit_lost_tasks_inner (now : Z) (s : Scheduler) : option Scheduler :=
  foldl (λ r cpu, s ← r; ap_task_finished cpu s) (Some s) (stuck now s).

(** The task whose registers are saved and the one whose registers are loaded. *)
Definition Switch : Type := Z * Z.

(** [tick] once the quantum is used up. *)
Definition preempt (s : Scheduler) : Scheduler * option Switch :=
  let s := match current s with
           | Some c => s <| current := Some (c <| ticks := add64 (ticks c) DEFAULT_QUANTUM |> <| state := Ready |>) |>
           | None => s
           end in
  match pick_next s with
  | None => (s, None)
  | Some (next, s) =>
    let old_prio := match current s with Some t => Z.to_nat (priority t) | None => 0%nat end in
    let s := enqueue_current s in
    let s := s <| current := Some (next <| state := Running |>) |> <| quantum := DEFAULT_QUANTUM |>
               <| switches := add64 (switches s) 1 |> in
    match q ← ready s !! old_prio; last q with
    | Some t => (s, Some (tid t, tid next))
    | None => (s, None)
    end
  end.

Definition tick (now : Z) (s : Scheduler) : option (Scheduler * option Switch) :=
  let s := s <| total_ticks := add64 (total_ticks s) 1 |> in
  s ← (if (total_ticks s `mod` 1000 =? 0) && negb (bool_decide (running_on_ap s = ∅))
       then ap_audit_lost_tasks_inner now s else Some s);
  match current s with
  | None =>
    match pick_next s with
    | Some (next, s) => Some (s <| current := Some next |> <| quantum := DEFAULT_QUANTUM |>, None)
    | None => Some (s, None)
    end
  | Some _ =>
    let s := if 0 <? quantum s then s <| quantum := quantum s - 1 |> else s in
    if quantum s =? 0 then Some (preempt s) else Some (s, None)
  end.

Definition current_tid (s : Scheduler) : option Z := tid <$> current s.

(** The loop of [oom_kill_lowest] from priority [p] on. *)
Fixpoint kill_from (n p : nat) (queues : list (list Task)) : list (list Task) :=
  match n with
  | O => queues
  | S n =>
    match queues !! p with
    | Some (_ :: q) => <[p := q]> queues
    | _ => kill_from n (S p) queues
    end
  end.

Definition oom_kill_lowest (s : Scheduler) : Scheduler := s <| ready := kill_from 256 0 (ready s) |>.

(** [position] and [remove] in the first queue that has the task. *)
Fixpoint take_ready (n p : nat) (id : Z) (queues : list (list Task)) : option (Task * list (list Task)) :=
  match n with
  | O => None
  | S n =>
    match queues !! p with
    | Some q =>
      match list_find (λ t, tid t = id) q with
      | Some (pos, t) => Some (t, <[p := delete pos q]> queues)
      | None => take_ready n (S p) id queues
      end
    | None => None
    end
  end.

Definition block_task (id : Z) (s : Scheduler) : Scheduler :=
  if bool_decide (current_tid s = Some id) then block_current_task s
  else match take_ready 256 0 id (ready s) with
       | Some (t, q) => s <| ready := q |> <| blocked := <[id := t <| state := Blocked |>]> (blocked s) |>
       | None => s
       end.

Definition wake_task (id : Z) (s : Scheduler) : Scheduler :=
  match blocked s !! id with
  | Some t => s <| blocked := delete id (blocked s) |> <| ready := push_back (t <| state := Ready |>) (ready s) |>
  | None => s
  end.

(** One turn of [wake_on_event]. *)
Definition wake_turn (ev : WaitEvent) (s : Scheduler) (id : Z) : Scheduler :=
  match blocked s !! id with
  | Some t =>
    if bool_decide (wait_event t = Some ev) then
      s <| blocked := delete id (blocked s) |> <| ready := push_back (t <| state := Ready |> <| wait_event := None |>) (ready s) |>
    else s
  | None => s
  end.

Definition wake_on_event (ev : WaitEvent) (s : Scheduler) : Scheduler :=
  foldl (wake_turn ev) s ((btree_iter (blocked s)).*1).

(** [wait_for_event] up to the yield. *)
Definition wait_for_event (ev : WaitEvent) (s : Scheduler) : Scheduler :=
  block_current_task
    match current s with
    | Some t => s <| current := Some (t <| wait_event := Some ev |>) |>
    | None => s
    end.

(** [sleep_ms] up to the yield. *)
Definition sleep_ms (now ms : Z) (s : Scheduler) : Scheduler :=
  if ms =? 0 then s
  else match current s with
       | Some t => s <| current := Some (t <| sleep_until := Some (add64 now ms) |>) |>
       | None => s
       end.

Definition steal_task_for_ap (cpu now : Z) (s : Scheduler) : Scheduler * option Z :=
  match pick_below (length (ready s)) (ready s) with
  | Some (t, q) =>
    (s <| ready := q |> <| running_on_ap := <[cpu := t <| state := Running |> <| stolen_at_ms := now |>]> (running_on_ap s) |>, Some (tid t))
  | None => (s, None)
  end.

Record SchedStats := mkSchedStats {
  st_current_tid : option Z;
  st_ready_count : Z;
  st_blocked_count : Z;
  st_switches : Z;
  st_total_ticks : Z;
  st_quantum_left : Z;
}.

Definition stats (s : Scheduler) : SchedStats :=
  mkSchedStats (current_tid s) (Z.of_nat (length (concat (ready s)))) (Z.of_nat (size (blocked s))) (switches s) (total_ticks s) (quantum s).

#[global] Arguments pick_below : simpl never.
#[global] Arguments kill_from : simpl never.
#[global] Arguments take_ready : simpl never.

(** ** The tasks of a scheduler *)

(** What never changes of a task: its id and priority. *)
Definition key (t : Task) : Z * Z := (tid t, priority t).

Definition current_list (o : option Task) : list Task := match o with Some t => [t] | None => [] end.

Definition tasks (s : Scheduler) : list Task :=
  current_list (current s) ++ concat (ready s) ++ (map_to_list (blocked s)).*2 ++ (map_to_list (running_on_ap s)).*2.

#[global] Arguments tasks : simpl never.

Definition queues_ok (queues : list (list Task)) : Prop :=
  length queues = 256%nat ∧ ∀ p q, queues !! p = Some q → Forall (λ t, priority t = Z.of_nat p) q.

Record sched_inv (s : Scheduler) (K : list (Z * Z)) : Prop := {
  sv_keys : key <$> tasks s ≡ₚ K;
  sv_queues : queues_ok (ready s);
  sv_blocked : map_Forall (λ id t, tid t = id) (blocked s);
  sv_prio : Forall (λ k, 0 ≤ k.2 < 256) K;
  sv_nodup : NoDup K.*1;
  sv_quantum : 0 ≤ quantum s;
  sv_ap : map_Forall (λ _ t, state t = Running) (running_on_ap s);
}.

Lemma concat_insert {A} (qs : list (list A)) p q x l :
  qs !! p = Some q → q ≡ₚ x ++ l → concat qs ≡ₚ x ++ concat (<[p := l]> qs).
Proof.
  revert p. induction qs as [|q0 qs IH]; intros p Hp Hq; [done|]. destruct p as [|p].
  - injection Hp as ->. change (q ++ concat qs ≡ₚ x ++ l ++ concat qs). rewrite app_assoc. by apply Permutation_app_tail.
  - change (q0 ++ concat qs ≡ₚ x ++ q0 ++ concat (<[p := l]> qs)). rewrite (IH p Hp Hq), !app_assoc. apply Permutation_app_tail, Permutation_app_comm.
Qed.

Lemma push_spec t qs :
  queues_ok qs → 0 ≤ priority t < 256 → queues_ok (push_back t qs) ∧ concat (push_back t qs) ≡ₚ t :: concat qs.
Proof.
  intros [Hl Hq] Hp. unfold push_back. set (p := Z.to_nat (priority t)).
  destruct (lookup_lt_is_Some_2 qs p) as [q Hlq]; [lia|]. split; [split|].
  - by rewrite length_alter.
  - intros p' q' Hp'. destruct (decide (p' = p)) as [->|Hne].
    + rewrite list_lookup_alter_eq, Hlq in Hp'. injection Hp' as <-. apply Forall_app. split; [by apply Hq|]. constructor; [|constructor]. lia.
    + rewrite list_lookup_alter_ne in Hp' by done. by apply Hq.
  - assert (alter (λ q, q ++ [t]) p qs = <[p := q ++ [t]]> qs) as ->.
    { apply list_eq. intros i. destruct (decide (i = p)) as [->|].
      - rewrite list_lookup_alter_eq, Hlq, list_lookup_insert_eq by lia. done.
      - by rewrite list_lookup_alter_ne, list_lookup_insert_ne. }
    rewrite (concat_insert (<[p := q ++ [t]]> qs) p (q ++ [t]) [t] q); [|by rewrite list_lookup_insert_eq by lia|solve_Permutation].
    rewrite list_insert_insert_eq. rewrite (list_insert_id qs) by done. done.
Qed.

Lemma pick_below_S p qs :
  pick_below (S p) qs = match qs !! p with Some (t :: q) => Some (t, <[p := q]> qs) | _ => pick_below p qs end.
Proof. reflexivity. Qed.

(** The first task of the highest queue that is not empty. *)
Lemma pick_spec n qs t qs' :
  queues_ok qs → pick_below n qs = Some (t, qs') →
  queues_ok qs' ∧ concat qs ≡ₚ t :: concat qs' ∧
  ∃ p q, (p < n)%nat ∧ qs !! p = Some (t :: q) ∧ qs' = <[p := q]> qs ∧ ∀ j l, (p < j < n)%nat → qs !! j = Some l → l = [].
Proof.
  intros [Hl Hq]. induction n as [|p IH]; [done|]. rewrite pick_below_S.
  destruct (qs !! p) as [[|t0 q]|] eqn:Hp.
  - intros Hr. destruct (IH Hr) as (? & ? & p' & q' & Hlt & ? & ? & Hmax). split; [done|]. split; [done|]. exists p', q'. split_and!; try done; [lia|].
    intros j l Hj Hjl. destruct (decide (j = p)) as [->|]; [congruence|]. apply (Hmax j l); [lia|done].
  - intros [= <- <-]. assert (Forall (λ t, priority t = Z.of_nat p) (t0 :: q)) as Hf by (by apply Hq).
    split; [split|split].
    + by rewrite length_insert.
    + intros p' q' Hp'. destruct (decide (p' = p)) as [->|Hne].
      * rewrite list_lookup_insert_eq in Hp' by (by eapply lookup_lt_Some). injection Hp' as <-. by apply Forall_cons in Hf as [_ ?].
      * rewrite list_lookup_insert_ne in Hp' by done. by apply Hq.
    + by rewrite (concat_insert qs p (t0 :: q) [t0] q Hp).
    + exists p, q. split_and!; try done; [lia|]. intros j l Hj. lia.
  - intros Hr. destruct (IH Hr) as (? & ? & p' & q' & Hlt & ? & ? & Hmax). split; [done|]. split; [done|]. exists p', q'. split_and!; try done; [lia|].
    intros j l Hj Hjl. destruct (decide (j = p)) as [->|]; [congruence|]. apply (Hmax j l); [lia|done].
Qed.

Lemma pick_top n qs p x q :
  (p < n)%nat → qs !! p = Some (x :: q) → (∀ j l, (p < j)%nat → qs !! j = Some l → l = []) → pick_below n qs = Some (x, <[p := q]> qs).
Proof.
  intros Hlt Hp Hhigh. induction n as [|n IH]; [lia|]. rewrite pick_below_S. destruct (decide (p = n)) as [->|Hne]; [by rewrite Hp|].
  destruct (qs !! n) as [[|y l]|] eqn:Hn; [|apply Hhigh in Hn; [done|lia]|]; apply IH; lia.
Qed.

Lemma elem_of_concat {A} (x : A) (ls : list (list A)) : x ∈ concat ls ↔ ∃ i l, ls !! i = Some l ∧ x ∈ l.
Proof.
  split.
  - induction ls as [|l ls IH]; [by intros ?%elem_of_nil|]. cbn [concat]. intros [Hx|Hx]%elem_of_app; [by exists 0%nat, l|].
    destruct (IH Hx) as (i & l' & Hi & Hl). by exists (S i), l'.
  - intros (i & l & Hi & Hx). apply (list_elem_of_lookup_2 _ _ _) in Hi. induction ls as [|l' ls IH]; [by apply elem_of_nil in Hi|].
    cbn [concat]. apply elem_of_app. apply elem_of_cons in Hi as [->|Hi]; [by left|right; by apply IH].
Qed.

Lemma picked_highest n qs t qs' :
  queues_ok qs → pick_below n qs = Some (t, qs') → n = 256%nat → ∀ u, u ∈ concat qs' → priority u ≤ priority t.
Proof.
  intros Hq Hp -> u (j & l & Hj & Hu)%elem_of_concat. destruct (pick_spec 256 qs t qs' Hq Hp) as ([Hl' Hq'] & _ & p & q & Hlt & Hpq & -> & Hmax).
  pose proof (proj2 Hq p (t :: q) Hpq) as Ht. apply Forall_cons in Ht as [-> _].
  pose proof (Hq' j l Hj) as Hf. rewrite Forall_forall in Hf. rewrite (Hf u Hu). pose proof (lookup_lt_Some _ _ _ Hj) as Hjl. rewrite Hl' in Hjl.
  destruct (decide (j ≤ p)%nat) as [|Hjp]; [lia|exfalso]. rewrite list_lookup_insert_ne in Hj by lia.
  rewrite (Hmax j l) in Hu; [by apply elem_of_nil in Hu|lia|done].
Qed.

Lemma pick_none n qs : pick_below n qs = None → ∀ j l, (j < n)%nat → qs !! j = Some l → l = [].
Proof.
  induction n as [|p IH]; [lia|]. rewrite pick_below_S. destruct (qs !! p) as [[|t q]|] eqn:Hp; intros Hr j l Hj Hjl; try done.
  - destruct (decide (j = p)) as [->|]; [congruence|]. apply (IH Hr j l); [lia|done].
  - destruct (decide (j = p)) as [->|]; [congruence|]. apply (IH Hr j l); [lia|done].
Qed.

Lemma keys_split s :
  key <$> tasks s = (key <$> current_list (current s)) ++ (key <$> concat (ready s)) ++ (key <$> (map_to_list (blocked s)).*2) ++
    (key <$> (map_to_list (running_on_ap s)).*2).
Proof. unfold tasks. by rewrite !fmap_app. Qed.

Lemma map_insert_keys (m : gmap Z Task) i t :
  m !! i = None → key <$> (map_to_list (<[i := t]> m)).*2 ≡ₚ key t :: (key <$> (map_to_list m).*2).
Proof. intros Hn. by rewrite (map_to_list_insert m i t Hn). Qed.

Lemma map_delete_keys (m : gmap Z Task) i t :
  m !! i = Some t → key <$> (map_to_list m).*2 ≡ₚ key t :: (key <$> (map_to_list (delete i m)).*2).
Proof. intros Hi. by rewrite <-(map_to_list_delete m i t Hi). Qed.

Lemma push_keys t qs : queues_ok qs → 0 ≤ priority t < 256 → key <$> concat (push_back t qs) ≡ₚ key t :: (key <$> concat qs).
Proof. intros Hq Hp. by rewrite (proj2 (push_spec t qs Hq Hp)). Qed.

Section inv.
Context (s : Scheduler) (K : list (Z * Z)) (Hi : sched_inv s K).

Lemma inv_prio t : key t ∈ key <$> tasks s → 0 ≤ priority t < 256.
Proof. intros Ht. rewrite (sv_keys _ _ Hi) in Ht. pose proof (sv_prio _ _ Hi) as Hf. rewrite Forall_forall in Hf. apply (Hf (key t) Ht). Qed.

Lemma inv_tids : NoDup (tid <$> tasks s).
Proof.
  assert (tid <$> tasks s = (key <$> tasks s).*1) as -> by (rewrite <-list_fmap_compose; done).
  rewrite (sv_keys _ _ Hi). apply Hi.
Qed.

Lemma blocked_tid id t : blocked s !! id = Some t → tid t = id.
Proof. apply (sv_blocked _ _ Hi). Qed.

Lemma current_prio t : current s = Some t → 0 ≤ priority t < 256.
Proof. intros Ht. apply inv_prio. rewrite keys_split, Ht. by left. Qed.

Lemma blocked_prio id t : blocked s !! id = Some t → 0 ≤ priority t < 256.
Proof.
  intros Ht. apply inv_prio. rewrite keys_split, (map_delete_keys (blocked s) id t Ht). apply elem_of_app. right. apply elem_of_app. right. by left.
Qed.

Lemma ap_prio cpu t : running_on_ap s !! cpu = Some t → 0 ≤ priority t < 256.
Proof.
  intros Ht. apply inv_prio. rewrite keys_split, (map_delete_keys (running_on_ap s) cpu t Ht). rewrite !elem_of_app. do 3 right. by left.
Qed.

(** A task that is elsewhere is not blocked. *)
Lemma not_blocked l t rest : tasks s ≡ₚ t :: rest ++ (map_to_list (blocked s)).*2 ++ l → blocked s !! tid t = None.
Proof.
  intros Hp. pose proof inv_tids as Hnd. rewrite Hp in Hnd. destruct (blocked s !! tid t) as [u|] eqn:Hu; [exfalso|done].
  cbn in Hnd. apply NoDup_cons in Hnd as [Hn _]. apply Hn. rewrite !fmap_app. apply elem_of_app. right. apply elem_of_app. left.
  apply list_elem_of_fmap. exists u. split; [by rewrite (blocked_tid _ _ Hu)|]. apply list_elem_of_fmap. exists (tid t, u).
  split; [done|]. by apply elem_of_map_to_list.
Qed.

Lemma inv_move s' :
  key <$> tasks s' ≡ₚ key <$> tasks s → queues_ok (ready s') → map_Forall (λ id t, tid t = id) (blocked s') → 0 ≤ quantum s' →
  map_Forall (λ _ t, state t = Running) (running_on_ap s') → sched_inv s' K.
Proof. intros Hk Hq Hb Hqu Hap. split; try done; [|apply Hi|apply Hi]. rewrite Hk. apply Hi. Qed.
End inv.

(** ** Every operation keeps every task *)

Lemma enqueue_inv s K : sched_inv s K → sched_inv (enqueue_current s) K ∧ current (enqueue_current s) = None.
Proof.
  intros Hi. unfold enqueue_current. destruct (current s) as [t|] eqn:Ht; [|done]. split; [|done].
  pose proof (current_prio s K Hi t Ht) as Hp. pose proof (sv_queues _ _ Hi) as Hq. set (u := t <| state := Ready |>).
  apply (inv_move s K Hi); [|by apply (push_spec u)|apply Hi|apply Hi|apply Hi].
  rewrite !keys_split, Ht. cbn. rewrite (push_keys u (ready s) Hq Hp). done.
Qed.

Lemma block_current_inv s K : sched_inv s K → sched_inv (block_current_task s) K.
Proof.
  intros Hi. unfold block_current_task. destruct (current s) as [t|] eqn:Ht; [|done].
  assert (blocked s !! tid t = None) as Hn.
  { apply (not_blocked s K Hi ((map_to_list (running_on_ap s)).*2) t (concat (ready s))). unfold tasks. by rewrite Ht. }
  apply (inv_move s K Hi); [|apply Hi| |simpl; lia|apply Hi].
  - rewrite !keys_split, Ht. simpl. rewrite (map_insert_keys (blocked s) (tid t) _ Hn). unfold key at 2. simpl. fold (key t). solve_Permutation.
  - simpl. apply map_Forall_insert_2; [done|apply Hi].
Qed.

(** A task leaves the ready queues. *)
Lemma ready_removed s K t qs :
  sched_inv s K → concat (ready s) ≡ₚ t :: concat qs →
  0 ≤ priority t < 256 ∧ blocked s !! tid t = None ∧
  key <$> tasks s ≡ₚ key t :: (key <$> current_list (current s)) ++ (key <$> concat qs) ++ (key <$> (map_to_list (blocked s)).*2) ++
    (key <$> (map_to_list (running_on_ap s)).*2).
Proof.
  intros Hi Hc. assert (key <$> concat (ready s) ≡ₚ key t :: (key <$> concat qs)) as Hk by (by rewrite Hc). split; [|split].
  - apply (inv_prio s K Hi). rewrite keys_split, Hk. apply elem_of_app. right. by left.
  - apply (not_blocked s K Hi ((map_to_list (running_on_ap s)).*2) t (current_list (current s) ++ concat qs)).
    unfold tasks. rewrite Hc. solve_Permutation.
  - rewrite keys_split, Hk. solve_Permutation.
Qed.

Lemma push_inv s K t s' :
  sched_inv s K → 0 ≤ priority t < 256 → ready s' = push_back t (ready s) →
  (key <$> current_list (current s')) ++ key t :: (key <$> (map_to_list (blocked s')).*2) ++ (key <$> (map_to_list (running_on_ap s')).*2) ≡ₚ
  (key <$> current_list (current s)) ++ (key <$> (map_to_list (blocked s)).*2) ++ (key <$> (map_to_list (running_on_ap s)).*2) →
  map_Forall (λ id t, tid t = id) (blocked s') → 0 ≤ quantum s' → map_Forall (λ _ t, state t = Running) (running_on_ap s') → sched_inv s' K.
Proof.
  intros Hi Hp Hr Hk Hb Hqu Hap. pose proof (sv_queues _ _ Hi) as Hq. apply (inv_move s K Hi); [|rewrite Hr; by apply push_spec|done|done|done].
  rewrite !keys_split, Hr, (push_keys t (ready s) Hq Hp).
  transitivity ((key <$> concat (ready s)) ++ (key <$> current_list (current s')) ++ key t :: (key <$> (map_to_list (blocked s')).*2) ++
    (key <$> (map_to_list (running_on_ap s')).*2)); [solve_Permutation|]. rewrite Hk. solve_Permutation.
Qed.

Lemma spawn_inv s K t :
  sched_inv s K → 0 ≤ priority t < 256 → tid t ∉ K.*1 → sched_inv (spawn t s) (key t :: K).
Proof.
  intros Hi Hp Hn. pose proof (sv_queues _ _ Hi) as Hq. split; simpl; try apply Hi.
  - rewrite keys_split. simpl. rewrite (push_keys _ (ready s) Hq); [|done]. rewrite <-(sv_keys _ _ Hi), keys_split. unfold key at 2. simpl. fold (key t).
    solve_Permutation.
  - by apply push_spec.
  - constructor; [done|apply Hi].
  - constructor; [done|apply Hi].
Qed.

Lemma wake_inv s K id t u :
  sched_inv s K → blocked s !! id = Some t → key u = key t →
  sched_inv (s <| blocked := delete id (blocked s) |> <| ready := push_back u (ready s) |>) K.
Proof.
  intros Hi Ht Hu. apply (push_inv s K u); simpl; try apply Hi; try done.
  - injection Hu as _ ->. by apply (blocked_prio s K Hi id).
  - rewrite Hu, (map_delete_keys (blocked s) id t Ht). solve_Permutation.
  - apply map_Forall_delete, Hi.
Qed.

Lemma ap_finished_inv s K cpu : sched_inv s K → ∃ s', ap_task_finished cpu s = Some s' ∧ sched_inv s' K ∧ current s' = current s.
Proof.
  intros Hi. unfold ap_task_finished. destruct (running_on_ap s !! cpu) as [t|] eqn:Ht; [|by eexists].
  pose proof (ap_prio s K Hi cpu t Ht) as Hp. pose proof (map_delete_keys (running_on_ap s) cpu t Ht) as Hd.
  assert ((priority t <? Z.of_nat (length (ready s))) = true) as Hlt
    by (apply Z.ltb_lt; rewrite (proj1 (sv_queues _ _ Hi)); change (Z.of_nat 256) with 256; lia).
  rewrite (sv_ap _ _ Hi cpu t Ht). simpl. rewrite Hlt. eexists. split; [done|]. split; [|done].
  apply (push_inv s K (t <| state := Ready |> <| ticks := add64 (ticks t) 1 |>)); [done|done|done| |apply Hi|apply Hi|by apply map_Forall_delete, Hi].
  simpl. rewrite Hd. change (key _) with (key t) at 1. solve_Permutation.
Qed.

Lemma audit_inv now s K : sched_inv s K → ∃ s', ap_audit_lost_tasks_inner now s = Some s' ∧ sched_inv s' K ∧ current s' = current s.
Proof.
  unfold ap_audit_lost_tasks_inner. generalize (stuck now s). intros l. revert s. induction l as [|cpu l IH]; intros s Hi; cbn [foldl]; [by eexists|].
  cbn [mbind option_bind]. destruct (ap_finished_inv s K cpu Hi) as (s1 & -> & Hi1 & Hc1).
  destruct (IH s1 Hi1) as (s2 & Hf & Hi2 & Hc2). exists s2. split; [done|]. split; [done|congruence].
Qed.

(** The running task as it goes back to the queues. *)
Definition preempted (c : Task) : Task := c <| ticks := add64 (ticks c) DEFAULT_QUANTUM |> <| state := Ready |>.

Lemma push_last t qs : queues_ok qs → 0 ≤ priority t < 256 → (q ← push_back t qs !! Z.to_nat (priority t); last q) = Some t.
Proof.
  intros [Hl _] Hp. unfold push_back. rewrite list_lookup_alter_eq.
  destruct (lookup_lt_is_Some_2 qs (Z.to_nat (priority t))) as [q ->]; [lia|]. cbn. apply last_snoc.
Qed.

Lemma preempt_spec s K c :
  sched_inv s K → current s = Some c →
  match pick_below 256 (ready s) with
  | None => preempt s = (s <| current := Some (preempted c) |>, None)
  | Some (n, qs) =>
    preempt s = (s <| current := Some (n <| state := Running |>) |> <| ready := push_back (preempted c) qs |>
                   <| quantum := DEFAULT_QUANTUM |> <| switches := add64 (switches s) 1 |>, Some (tid c, tid n))
  end ∧ sched_inv (preempt s).1 K.
Proof.
  intros Hi Hc. pose proof (current_prio s K Hi c Hc) as Hp. unfold preempt, pick_next. rewrite Hc. simpl.
  destruct (pick_below 256 (ready s)) as [[n qs]|] eqn:Hpick; cbn [mbind option_bind].
  - destruct (pick_spec 256 (ready s) n qs (sv_queues _ _ Hi) Hpick) as (Hqs & Hperm & _).
    destruct (ready_removed s K n qs Hi Hperm) as (Hpn & _ & Hkeys). simpl.
    pose proof (push_last (preempted c) qs Hqs Hp) as Hlast. change (priority (preempted c)) with (priority c) in Hlast.
    match goal with |- context [match ?x with Some t => (_, Some (tid t, _)) | None => _ end] => replace x with (Some (preempted c)) by (symmetry; exact Hlast) end.
    split; [done|].
    apply (inv_move s K Hi); [|by apply (push_spec (preempted c))|apply Hi|done|apply Hi].
    rewrite Hkeys, Hc, keys_split. simpl. rewrite (push_keys (preempted c) qs Hqs Hp). change (key (preempted c)) with (key c). solve_Permutation.
  - split; [done|]. apply (inv_move s K Hi); try apply Hi. rewrite !keys_split, Hc. done.
Qed.

(** A tick: the running task stays, or the first task of the highest priority
    takes its place. *)
Lemma sched_tick_inv now s K :
  sched_inv s K →
  ∃ s' sw, tick now s = Some (s', sw) ∧ sched_inv s' K ∧
    match sw with
    | Some (old, next) =>
      current_tid s = Some old ∧ ∃ n, current s' = Some n ∧ tid n = next ∧ state n = Running ∧
        ∀ t, t ∈ concat (ready s') → tid t = old ∨ priority t ≤ priority n
    | None => current s = None ∨ current_tid s' = current_tid s
    end.
Proof.
  intros Hi. unfold tick. set (s0 := s <| total_ticks := add64 (total_ticks s) 1 |>).
  assert (sched_inv s0 K) as Hi0 by (by destruct Hi).
  assert (∃ s1, (if (total_ticks s0 `mod` 1000 =? 0) && negb (bool_decide (running_on_ap s0 = ∅)) then ap_audit_lost_tasks_inner now s0 else Some s0) = Some s1 ∧
    sched_inv s1 K ∧ current s1 = current s) as (s1 & -> & Hi1 & Hc1).
  { destruct (_ && _); [|by exists s0]. destruct (audit_inv now s0 K Hi0) as (s1 & Ha & Hi1 & Hc1). by exists s1. }
  cbn [mbind option_bind]. rewrite <-Hc1. unfold current_tid. rewrite <-Hc1. clear s0 Hi0 Hc1 Hi s. destruct (current s1) as [c|] eqn:Hc.
  - set (s2 := if 0 <? quantum s1 then s1 <| quantum := quantum s1 - 1 |> else s1).
    assert (sched_inv s2 K ∧ current s2 = Some c ∧ ready s2 = ready s1) as (Hi2 & Hc2 & Hr2).
    { unfold s2. destruct (Z.ltb_spec 0 (quantum s1)); [|done]. split; [|done]. apply (inv_move s1 K Hi1); try apply Hi1; [done|simpl; lia]. }
    destruct (quantum s2 =? 0); [|exists s2, None; split_and!; [done|done|right; by rewrite Hc2]].
    destruct (preempt_spec s2 K c Hi2 Hc2) as [Hpre Hi3]. destruct (pick_below 256 (ready s2)) as [[n qs]|] eqn:Hpick; rewrite Hpre in Hi3 |- *.
    + do 2 eexists. split; [done|]. split; [done|]. split; [done|]. exists (n <| state := Running |>). split_and!; [done|done|done|].
      intros t Ht. simpl in Ht. destruct (pick_spec 256 (ready s2) n qs (sv_queues _ _ Hi2) Hpick) as (Hqs & _ & p & q & Hpn & Hpq & -> & Hmax).
      rewrite (proj2 (push_spec (preempted c) _ Hqs (current_prio s2 K Hi2 c Hc2))) in Ht. apply elem_of_cons in Ht as [->|Ht]; [by left|right].
      by apply (picked_highest 256 (ready s2) n (<[p := q]> (ready s2)) (sv_queues _ _ Hi2) Hpick).
    + do 2 eexists. split; [done|]. split; [done|]. by right.
  - unfold pick_next. destruct (pick_below 256 (ready s1)) as [[n qs]|] eqn:Hpick; cbn [mbind option_bind].
    + do 2 eexists. split; [done|]. split; [|by left]. destruct (pick_spec 256 (ready s1) n qs (sv_queues _ _ Hi1) Hpick) as (Hqs & Hperm & _).
      destruct (ready_removed s1 K n qs Hi1 Hperm) as (Hpn & _ & Hkeys). apply (inv_move s1 K Hi1); [|done|apply Hi1|done|apply Hi1].
      rewrite Hkeys, Hc, keys_split. done.
    + do 2 eexists. split; [done|]. split; [done|]. by left.
Qed.

Lemma queue_removed qs p q l t :
  queues_ok qs → qs !! p = Some q → q ≡ₚ t :: l → queues_ok (<[p := l]> qs) ∧ concat qs ≡ₚ t :: concat (<[p := l]> qs).
Proof.
  intros [Hl Hq] Hp Hperm. split; [split|].
  - by rewrite length_insert.
  - intros p' q' Hp'. destruct (decide (p' = p)) as [->|Hne].
    + rewrite list_lookup_insert_eq in Hp' by (by eapply lookup_lt_Some). injection Hp' as <-.
      pose proof (Hq p q Hp) as Hf. rewrite Hperm in Hf. by apply Forall_cons in Hf as [_ ?].
    + rewrite list_lookup_insert_ne in Hp' by done. by apply Hq.
  - by apply (concat_insert qs p q [t] l).
Qed.

Lemma take_ready_spec n p id qs t qs' :
  queues_ok qs → take_ready n p id qs = Some (t, qs') → tid t = id ∧ queues_ok qs' ∧ concat qs ≡ₚ t :: concat qs'.
Proof.
  intros Hq. revert p. induction n as [|n IH]; intros p; [done|]. unfold take_ready; fold take_ready.
  destruct (qs !! p) as [q|] eqn:Hp; [|done]. destruct (list_find _ q) as [[pos u]|] eqn:Hf; [|apply IH]. intros [= <- <-].
  apply list_find_Some in Hf as (Hu & Hid & _). split; [done|]. apply (queue_removed qs p q (delete pos q) u Hq Hp). by apply delete_Permutation.
Qed.

Lemma kill_from_spec n p qs :
  queues_ok qs → queues_ok (kill_from n p qs) ∧ (kill_from n p qs = qs ∨ ∃ t, concat qs ≡ₚ t :: concat (kill_from n p qs)).
Proof.
  intros Hq. revert p. induction n as [|n IH]; intros p; [by split; [|left]|]. unfold kill_from; fold kill_from.
  destruct (qs !! p) as [[|t q]|] eqn:Hp; [apply IH| |apply IH].
  destruct (queue_removed qs p (t :: q) q t Hq Hp) as [Hq' Hc]; [done|]. split; [done|]. right. by exists t.
Qed.

Lemma block_task_inv id s K : sched_inv s K → sched_inv (block_task id s) K.
Proof.
  intros Hi. unfold block_task. destruct (bool_decide _); [by apply block_current_inv|].
  destruct (take_ready 256 0 id (ready s)) as [[t qs]|] eqn:Ht; [|done].
  destruct (take_ready_spec 256 0 id (ready s) t qs (sv_queues _ _ Hi) Ht) as (<- & Hqs & Hc).
  destruct (ready_removed s K t qs Hi Hc) as (Hp & Hn & Hkeys).
  apply (inv_move s K Hi); [|done|by apply map_Forall_insert_2; [|apply Hi]|apply Hi|apply Hi].
  rewrite Hkeys, keys_split. simpl. rewrite (map_insert_keys (blocked s) (tid t) _ Hn). unfold key at 3. simpl. fold (key t). solve_Permutation.
Qed.

(** Changing other fields of the running task. *)
Lemma current_inv s K t u : sched_inv s K → current s = Some t → key u = key t → sched_inv (s <| current := Some u |>) K.
Proof. intros Hi Ht Hu. apply (inv_move s K Hi); try apply Hi. rewrite !keys_split, Ht. simpl. by rewrite Hu. Qed.

Lemma wait_inv ev s K : sched_inv s K → sched_inv (wait_for_event ev s) K.
Proof.
  intros Hi. unfold wait_for_event. apply block_current_inv. destruct (current s) as [t|] eqn:Ht; [|done]. by apply (current_inv s K t).
Qed.

Lemma sleep_inv now ms s K : sched_inv s K → sched_inv (sleep_ms now ms s) K.
Proof.
  intros Hi. unfold sleep_ms. destruct (ms =? 0); [done|]. destruct (current s) as [t|] eqn:Ht; [|done]. by apply (current_inv s K t).
Qed.

Lemma wake_task_inv id s K : sched_inv s K → sched_inv (wake_task id s) K.
Proof. intros Hi. unfold wake_task. destruct (blocked s !! id) as [t|] eqn:Ht; [|done]. by apply (wake_inv s K id t). Qed.

Lemma wake_on_event_inv ev s K : sched_inv s K → sched_inv (wake_on_event ev s) K.
Proof.
  unfold wake_on_event. generalize (btree_iter (blocked s)).*1. intros l. revert s. induction l as [|id l IH]; intros s Hi; [done|].
  cbn [foldl]. apply IH. unfold wake_turn. destruct (blocked s !! id) as [t|] eqn:Ht; [|done]. destruct (bool_decide _); [|done].
  by apply (wake_inv s K id t).
Qed.

Lemma steal_inv cpu now s K : sched_inv s K → running_on_ap s !! cpu = None → sched_inv (steal_task_for_ap cpu now s).1 K.
Proof.
  intros Hi Hn. unfold steal_task_for_ap. rewrite (proj1 (sv_queues _ _ Hi)).
  destruct (pick_below 256 (ready s)) as [[t qs]|] eqn:Hp; [|done]. destruct (pick_spec 256 (ready s) t qs (sv_queues _ _ Hi) Hp) as (Hqs & Hc & _).
  destruct (ready_removed s K t qs Hi Hc) as (_ & _ & Hkeys).
  apply (inv_move s K Hi); [|done|apply Hi|apply Hi|by apply map_Forall_insert_2; [|apply Hi]].
  rewrite Hkeys, keys_split. simpl. rewrite (map_insert_keys (running_on_ap s) cpu _ Hn). unfold key at 4. simpl. fold (key t). solve_Permutation.
Qed.

(** The task a processor loses by taking another one. *)
Definition overwritten (cpu now : Z) (s : Scheduler) : list (Z * Z) :=
  match (steal_task_for_ap cpu now s).2, running_on_ap s !! cpu with
  | Some _, Some t => [key t]
  | _, _ => []
  end.

Lemma lent_removed s K cpu t :
  sched_inv s K → running_on_ap s !! cpu = Some t →
  ∃ K', K ≡ₚ key t :: K' ∧ sched_inv (s <| running_on_ap := delete cpu (running_on_ap s) |>) K'.
Proof.
  intros Hi Ht. set (s' := s <| running_on_ap := _ |>).
  assert (K ≡ₚ key t :: (key <$> tasks s')) as HK.
  { rewrite <-(sv_keys _ _ Hi), !keys_split. simpl. rewrite (map_delete_keys (running_on_ap s) cpu t Ht). solve_Permutation. }
  exists (key <$> tasks s'). split; [done|]. split; try apply Hi; [done| | |by apply map_Forall_delete, Hi].
  - pose proof (sv_prio _ _ Hi) as Hf. rewrite HK in Hf. by apply Forall_cons in Hf as [_ ?].
  - pose proof (sv_nodup _ _ Hi) as Hf. rewrite HK in Hf. by apply NoDup_cons in Hf as [_ ?].
Qed.

(** A theft, also by a processor that has a task. *)
Lemma steal_any_inv cpu now s K :
  sched_inv s K → ∃ K', K ≡ₚ overwritten cpu now s ++ K' ∧ sched_inv (steal_task_for_ap cpu now s).1 K'.
Proof.
  intros Hi. destruct (running_on_ap s !! cpu) as [t|] eqn:Ht.
  2: { exists K. unfold overwritten. rewrite Ht. split; [by destruct (steal_task_for_ap cpu now s).2|by apply steal_inv]. }
  destruct (lent_removed s K cpu t Hi Ht) as (K' & HK & Hi'). set (s' := s <| running_on_ap := _ |>) in Hi'.
  pose proof (steal_inv cpu now s' K' Hi' (lookup_delete_eq _ _)) as Hs. unfold overwritten. rewrite Ht.
  unfold steal_task_for_ap in *. cbn [ready s' set_field] in Hs.
  destruct (pick_below (length (ready s)) (ready s)) as [[u q]|] eqn:Hp; [|by exists K]. exists K'. split; [done|].
  cbn [fst] in *. unfold s' in Hs. cbn [running_on_ap set_field] in Hs. by rewrite insert_delete_eq in Hs.
Qed.

Lemma oom_inv s K : sched_inv s K → ∃ K', sched_inv (oom_kill_lowest s) K' ∧ (K' = K ∨ ∃ k, K ≡ₚ k :: K').
Proof.
  intros Hi. unfold oom_kill_lowest. pose proof (kill_from_spec 256 0 (ready s) (sv_queues _ _ Hi)) as Hkill.
  revert Hkill. generalize (kill_from 256 0 (ready s)). intros qs [Hq [->|[t Hc]]].
  { exists K. split; [by destruct Hi|by left]. }
  destruct (ready_removed s K t _ Hi Hc) as (_ & _ & Hkeys). rewrite (sv_keys _ _ Hi) in Hkeys.
  set (s' := s <| ready := qs |>). assert (K ≡ₚ key t :: (key <$> tasks s')) as HK by (rewrite Hkeys, keys_split; done).
  exists (key <$> tasks s'). split; [|right; by exists (key t)]. split; try apply Hi; [done|done| |].
  - pose proof (sv_prio _ _ Hi) as Hf. rewrite HK in Hf. by apply Forall_cons in Hf as [_ ?].
  - pose proof (sv_nodup _ _ Hi) as Hf. rewrite HK in Hf. by apply NoDup_cons in Hf as [_ ?].
Qed.

Lemma new_sched_inv : sched_inv Scheduler_new [(0, 0)].
Proof.
  assert (queues_ok (replicate 256 [])) as Hq.
  { split; [by rewrite length_replicate|]. intros p q Hp. apply lookup_replicate in Hp as [-> _]. constructor. }
  assert (concat (replicate 256 ([] : list Task)) = []) as Hc by reflexivity.
  split; [|by apply push_spec|apply map_Forall_empty| | |unfold Scheduler_new, DEFAULT_QUANTUM; simpl; lia|apply map_Forall_empty].
  - rewrite keys_split. simpl. rewrite (push_keys Task_new_idle _ Hq) by (vm_compute; split; [discriminate|reflexivity]). rewrite Hc. reflexivity.
  - constructor; [simpl; lia|constructor].
  - apply NoDup_singleton.
Qed.

(** ** Runs *)

(** What the kernel does with its scheduler: [K] are the tasks spawned, [L] those
    lost when a processor that had a task took another one. *)
Inductive sched_run : Scheduler → list (Z * Z) → list (Z * Z) → Prop :=
| run_new : sched_run Scheduler_new [(0, 0)] []
| run_spawn s K L t : sched_run s K L → 0 ≤ priority t < 256 → tid t ∉ K.*1 → sched_run (spawn t s) (key t :: K) L
| run_tick s K L now s' sw : sched_run s K L → tick now s = Some (s', sw) → sched_run s' K L
| run_block s K L id : sched_run s K L → sched_run (block_task id s) K L
| run_block_current s K L : sched_run s K L → sched_run (block_current_task s) K L
| run_wake s K L id : sched_run s K L → sched_run (wake_task id s) K L
| run_wait s K L ev : sched_run s K L → sched_run (wait_for_event ev s) K L
| run_event s K L ev : sched_run s K L → sched_run (wake_on_event ev s) K L
| run_sleep s K L now ms : sched_run s K L → sched_run (sleep_ms now ms s) K L
| run_steal s K L cpu now : sched_run s K L → sched_run (steal_task_for_ap cpu now s).1 K (overwritten cpu now s ++ L)
| run_finished s K L cpu s' : sched_run s K L → ap_task_finished cpu s = Some s' → sched_run s' K L.

Lemma sched_run_inv s K L : sched_run s K L → ∃ K', K ≡ₚ K' ++ L ∧ sched_inv s K'.
Proof.
  induction 1 as [|s K L t _ (K' & HK & Hi) Hp Hn|s K L now s' sw _ (K' & HK & Hi) Ht|s K L id _ (K' & HK & Hi)
    |s K L _ (K' & HK & Hi)|s K L id _ (K' & HK & Hi)|s K L ev _ (K' & HK & Hi)|s K L ev _ (K' & HK & Hi)
    |s K L now ms _ (K' & HK & Hi)|s K L cpu now _ (K' & HK & Hi)|s K L cpu s' _ (K' & HK & Hi) Hf].
  - exists [(0, 0)]. split; [done|apply new_sched_inv].
  - exists (key t :: K'). split; [by rewrite HK|]. apply spawn_inv; [done|done|].
    intros Hin. apply Hn. rewrite HK, fmap_app, elem_of_app. by left.
  - exists K'. split; [done|]. destruct (sched_tick_inv now s K' Hi) as (s1 & sw1 & Ht1 & Hi1 & _). rewrite Ht in Ht1.
    by injection Ht1 as <- <-.
  - exists K'. split; [done|by apply block_task_inv].
  - exists K'. split; [done|by apply block_current_inv].
  - exists K'. split; [done|by apply wake_task_inv].
  - exists K'. split; [done|by apply wait_inv].
  - exists K'. split; [done|by apply wake_on_event_inv].
  - exists K'. split; [done|by apply sleep_inv].
  - destruct (steal_any_inv cpu now s K' Hi) as (K2 & HK2 & Hi2). exists K2. split; [|done].
    rewrite HK, HK2. solve_Permutation.
  - exists K'. split; [done|]. destruct (ap_finished_inv s K' cpu Hi) as (s1 & Hf1 & Hi1 & _). rewrite Hf in Hf1. by injection Hf1 as <-.
Qed.

(** C16: The scheduler duplicates no task, and loses one only when a processor that
    runs a lent task takes another one, which overwrites the first: however tasks are
    spawned, preempted, blocked, woken, and lent to other processors, each of the
    others is in exactly one of its places, with the priority it was spawned with. A
    tick never blocks, and switches only from the running task to a task that no
    ready task exceeds in priority but, possibly, the one just preempted; the
    out-of-memory killer removes at most one. *)
Theorem sched_conserves_tasks s K L :
  sched_run s K L →
  (key <$> tasks s) ++ L ≡ₚ K ∧ NoDup (tid <$> tasks s) ∧
  (∀ now, ∃ s' sw, tick now s = Some (s', sw) ∧
     match sw with
     | Some (old, next) =>
       current_tid s = Some old ∧ ∃ n, current s' = Some n ∧ tid n = next ∧ state n = Running ∧
         ∀ t, t ∈ concat (ready s') → tid t = old ∨ priority t ≤ priority n
     | None => current s = None ∨ current_tid s' = current_tid s
     end) ∧
  (key <$> tasks (oom_kill_lowest s) ≡ₚ key <$> tasks s ∨ ∃ k, key <$> tasks s ≡ₚ k :: (key <$> tasks (oom_kill_lowest s))).
Proof.
  intros (K' & HK & Hi)%sched_run_inv. split; [by rewrite (sv_keys _ _ Hi), HK|]. split; [by apply (inv_tids s K')|]. split.
  - intros now. destruct (sched_tick_inv now s K' Hi) as (s' & sw & Ht & _ & Hsw). by exists s', sw.
  - rewrite (sv_keys _ _ Hi). destruct (oom_inv s K' Hi) as (K2 & Hi' & [->|[k Hk]]); [left; apply Hi'|right].
    exists k. by rewrite (sv_keys _ _ Hi), (sv_keys _ _ Hi').
Qed.

(** ** Round robin *)

Definition tick_all (times : list Z) (s : Scheduler) : option Scheduler :=
  foldl (λ r now, s ← r; '(s, _) ← tick now s; Some s) (Some s) times.

Lemma tick_all_app l1 l2 s : tick_all (l1 ++ l2) s = (s ← tick_all l1 s; tick_all l2 s).
Proof.
  unfold tick_all. rewrite foldl_app. destruct (foldl _ (Some s) l1); [done|]. cbn [mbind option_bind]. by induction l2.
Qed.

Lemma tick_no_ap now s :
  running_on_ap s = ∅ → current s ≠ None →
  tick now s =
    let s := s <| total_ticks := add64 (total_ticks s) 1 |> in
    let s := if 0 <? quantum s then s <| quantum := quantum s - 1 |> else s in
    if quantum s =? 0 then Some (preempt s) else Some (s, None).
Proof.
  intros Hap Hc. unfold tick. simpl. rewrite Hap, bool_decide_true by done. rewrite andb_false_r. cbn [mbind option_bind]. simpl.
  by destruct (current s).
Qed.

(** Ticks before the last of the quantum count it down. *)
Lemma ticks_before times s :
  running_on_ap s = ∅ → current s ≠ None → Z.of_nat (length times) < quantum s →
  ∃ n, tick_all times s = Some (s <| quantum := quantum s - Z.of_nat (length times) |> <| total_ticks := n |>).
Proof.
  intros Hap Hc. revert s Hap Hc. induction times as [|now times IH] using rev_ind; intros s Hap Hc Hlt.
  { exists (total_ticks s). unfold tick_all. simpl. rewrite Z.sub_0_r. by destruct s. }
  rewrite length_app in Hlt. cbn [length] in Hlt. destruct (IH s Hap Hc) as [n Hn]; [lia|]. rewrite tick_all_app, Hn. cbn [mbind option_bind].
  unfold tick_all. cbn [foldl mbind option_bind]. rewrite tick_no_ap by done. simpl.
  destruct (Z.ltb_spec 0 (quantum s - Z.of_nat (length times))) as [_|]; [|lia]. simpl.
  destruct (Z.eqb_spec (quantum s - Z.of_nat (length times) - 1) 0) as [|_]; [lia|]. cbn [mbind option_bind].
  rewrite length_app. cbn [length]. replace (quantum s - Z.of_nat (length times + 1)) with (quantum s - Z.of_nat (length times) - 1) by lia.
  eexists. reflexivity.
Qed.

(** The last tick of the quantum. *)
Lemma tick_last now s K c n qs :
  sched_inv s K → running_on_ap s = ∅ → current s = Some c → quantum s ≤ 1 → pick_below 256 (ready s) = Some (n, qs) →
  ∃ s', tick now s = Some (s', Some (tid c, tid n)) ∧ sched_inv s' K ∧ running_on_ap s' = ∅ ∧ current s' = Some (n <| state := Running |>) ∧
    ready s' = push_back (preempted c) qs ∧ quantum s' = DEFAULT_QUANTUM.
Proof.
  intros Hi Hap Hc Hq Hp. rewrite tick_no_ap by (done || by rewrite Hc). cbv zeta.
  set (s1 := s <| total_ticks := add64 (total_ticks s) 1 |>). set (s2 := if 0 <? quantum s1 then s1 <| quantum := quantum s1 - 1 |> else s1).
  pose proof (sv_quantum _ _ Hi) as Hq0.
  assert (sched_inv s2 K ∧ running_on_ap s2 = ∅ ∧ current s2 = Some c ∧ ready s2 = ready s ∧ quantum s2 = 0) as (Hi2 & Hap2 & Hc2 & Hr2 & Hq2).
  { unfold s2. change (quantum s1) with (quantum s). destruct (Z.ltb_spec 0 (quantum s)).
    - split_and!; [|done|done|done|simpl; lia]. apply (inv_move s K Hi); try apply Hi; [done|simpl; lia].
    - split_and!; [by destruct Hi|done|done|done|]. simpl. lia. }
  rewrite Hq2. cbn [Z.eqb]. destruct (preempt_spec s2 K c Hi2 Hc2) as [Hpre Hi3]. rewrite Hr2, Hp in Hpre. rewrite Hpre in Hi3 |- *.
  eexists. split; [done|]. done.
Qed.

(** A waiting queue moves up by one at the end of a quantum. *)
Lemma quantum_ends times s K c p x q :
  sched_inv s K → running_on_ap s = ∅ → current s = Some c → priority c ≤ Z.of_nat p →
  ready s !! p = Some (x :: q) → (∀ j l, (p < j)%nat → ready s !! j = Some l → l = []) →
  Z.of_nat (length times) = Z.max (quantum s) 1 →
  ∃ s' q', tick_all times s = Some s' ∧ sched_inv s' K ∧ running_on_ap s' = ∅ ∧ current s' = Some (x <| state := Running |>) ∧
    priority x = Z.of_nat p ∧ ready s' !! p = Some (q ++ q') ∧ (∀ j l, (p < j)%nat → ready s' !! j = Some l → l = []) ∧ quantum s' = DEFAULT_QUANTUM.
Proof.
  intros Hi Hap Hc Hcp Hr Hhigh Hlen. pose proof (sv_quantum _ _ Hi) as Hq0.
  destruct times as [|now times _] using rev_ind; [simpl in Hlen; lia|]. rewrite length_app in Hlen. cbn [length] in Hlen.
  assert (∃ s1, tick_all times s = Some s1 ∧ sched_inv s1 K ∧ running_on_ap s1 = ∅ ∧ current s1 = Some c ∧ ready s1 = ready s ∧ quantum s1 ≤ 1) as
    (s1 & Ht & Hi1 & Hap1 & Hc1 & Hr1 & Hq1).
  { destruct (decide (length times = 0%nat)) as [Hz|Hz].
    - destruct times; [|done]. exists s. split_and!; try done. simpl in Hlen. lia.
    - destruct (ticks_before times s Hap) as [n Hn]; [by rewrite Hc|lia|]. eexists. split; [exact Hn|]. split_and!; try done; [|simpl; lia].
      apply (inv_move s K Hi); try apply Hi; [done|simpl; lia]. }
  pose proof (sv_queues _ _ Hi) as Hqs. assert (priority x = Z.of_nat p) as Hxp.
  { pose proof (proj2 Hqs p _ Hr) as Hf. by apply Forall_cons in Hf as [? _]. }
  assert (pick_below 256 (ready s1) = Some (x, <[p := q]> (ready s))) as Hpick.
  { rewrite Hr1. apply pick_top; [|done|done]. rewrite <-(proj1 Hqs). by eapply lookup_lt_Some. }
  destruct (tick_last now s1 K c x _ Hi1 Hap1 Hc1 Hq1 Hpick) as (s' & Ht' & Hi' & Hap' & Hc' & Hr' & Hq').
  assert (0 ≤ priority c < 256) as Hpc by (by apply (current_prio s K Hi)).
  assert (p < length (ready s))%nat as Hplt by (by eapply lookup_lt_Some).
  eexists s', (if decide (priority c = Z.of_nat p) then [preempted c] else []). split.
  { rewrite tick_all_app, Ht. cbn [mbind option_bind]. unfold tick_all. cbn [foldl mbind option_bind]. by rewrite Ht'. }
  split_and!; try done; rewrite Hr'; unfold push_back; change (priority (preempted c)) with (priority c).
  - destruct (decide (priority c = Z.of_nat p)) as [->|Hne].
    + rewrite Nat2Z.id, list_lookup_alter_eq, list_lookup_insert_eq by done. done.
    + rewrite list_lookup_alter_ne by lia. rewrite list_lookup_insert_eq, app_nil_r by done. done.
  - intros j l Hj. rewrite list_lookup_alter_ne, list_lookup_insert_ne by lia. by apply Hhigh.
Qed.

(** C17: Round robin within the highest priority: while no processor has borrowed
    a task, a task that waits behind [q1] in the queue of the highest priority
    runs after the rest of the quantum of the running task, if that one has no
    higher priority, and one quantum of ten ticks for each task ahead. *)
Theorem sched_round_robin times s K L c p q1 t q2 :
  sched_run s K L → running_on_ap s = ∅ → current s = Some c → priority c ≤ Z.of_nat p →
  ready s !! p = Some (q1 ++ t :: q2) → (∀ j l, (p < j)%nat → ready s !! j = Some l → l = []) →
  Z.of_nat (length times) = Z.max (quantum s) 1 + DEFAULT_QUANTUM * Z.of_nat (length q1) →
  ∃ s', tick_all times s = Some s' ∧ current_tid s' = Some (tid t).
Proof.
  intros (K' & _ & Hi)%sched_run_inv. clear K L. rename K' into K. revert times s c q2 Hi. induction q1 as [|x q1 IH]; intros times s c q2 Hi Hap Hc Hcp Hr Hhigh Hlen.
  - cbn in Hr, Hlen. destruct (quantum_ends times s K c p t q2 Hi Hap Hc Hcp Hr Hhigh) as (s' & q' & Ht & _ & _ & Hc' & _); [lia|].
    exists s'. split; [done|]. unfold current_tid. by rewrite Hc'.
  - cbn in Hr. pose proof (sv_quantum _ _ Hi) as Hq0. unfold DEFAULT_QUANTUM in *. cbn [length] in Hlen.
    set (k := Z.to_nat (Z.max (quantum s) 1)). rewrite <-(take_drop k times) in Hlen |- *. rewrite length_app, length_take, length_drop in Hlen.
    destruct (quantum_ends (take k times) s K c p x (q1 ++ t :: q2) Hi Hap Hc Hcp Hr Hhigh) as
      (s' & q' & Ht & Hi' & Hap' & Hc' & Hxp & Hr' & Hhigh' & Hq'); [rewrite length_take; lia|].
    rewrite <-app_assoc in Hr'. cbn in Hr'.
    destruct (IH (drop k times) s' (x <| state := Running |>) (q2 ++ q') Hi' Hap' Hc') as (s'' & Ht'' & Hs''); [simpl; lia|done|done| |].
    + rewrite length_drop, Hq'. unfold DEFAULT_QUANTUM. lia.
    + exists s''. split; [|done]. rewrite tick_all_app, Ht. done.
Qed.

(** ** Where the code departs from what it means to do *)

(** A task that blocks gives up its place, but the tick that installs the next task
    asks for no switch: the processor goes on with the blocked task's code. *)
Lemma no_switch_after_block now s s' sw : current s = None → tick now s = Some (s', sw) → sw = None.
Proof.
  intros Hc. unfold tick. simpl. set (s0 := s <| total_ticks := add64 (total_ticks s) 1 |>).
  assert (∀ s1, (if (total_ticks s0 `mod` 1000 =? 0) && negb (bool_decide (running_on_ap s0 = ∅)) then ap_audit_lost_tasks_inner now s0 else Some s0) = Some s1 →
    current s1 = None) as Ha.
  { intros s1. destruct (_ && _); [|by intros [= <-]]. unfold ap_audit_lost_tasks_inner. generalize (stuck now s0). intros l.
    assert (∀ l r, (∀ u, r = Some u → current u = None) → ∀ u, foldl (λ r cpu, s ← r; ap_task_finished cpu s) r l = Some u → current u = None) as Hl.
    { clear. induction l as [|cpu l IH]; intros r Hr u Hu; [by apply Hr|]. cbn [foldl] in Hu. refine (IH _ _ u Hu). intros v Hv.
      destruct r as [w|]; [|done]. cbn [mbind option_bind] in Hv. specialize (Hr w eq_refl). unfold ap_task_finished in Hv.
      repeat case_match; simplify_eq; done. }
    apply (Hl l (Some s0)). intros u [= <-]. done. }
  destruct (if _ && _ then _ else _) as [s1|]; [|done]. cbn [mbind option_bind]. rewrite (Ha s1 eq_refl).
  destruct (pick_next s1) as [[n s2]|]; by intros [= <- <-].
Qed.

Definition ex_task (id prio : Z) : Task := Task_new "task" prio id.

Definition ex_tick (s : Scheduler) : Scheduler := match tick 0 s with Some (s, _) => s | None => s end.

(** The only task of high priority loses the processor to one of low priority
    every other quantum. *)
Lemma low_priority_preempts :
  let s := ex_tick (spawn (ex_task 1 5) (spawn (ex_task 2 200) Scheduler_new)) in
  current_tid s = Some 2 ∧ (current_tid <$> tick_all (replicate 10 0) s) = Some (Some 1).
Proof. vm_compute. split; reflexivity. Qed.

(** A processor that takes a second task loses the first. *)
Lemma steal_twice_loses :
  let s := (steal_task_for_ap 1 0 (steal_task_for_ap 1 0 (spawn (ex_task 1 5) (spawn (ex_task 2 5) Scheduler_new))).1).1 in
  tid <$> tasks s = [0; 1].
Proof. vm_compute. reflexivity. Qed.

(** A task that ends on another processor stops the scheduler. *)
Lemma dead_on_ap_deadlocks :
  ap_task_finished 1 (Scheduler_new <| running_on_ap := {[1 := (ex_task 7 5) <| state := Dead |>]} |>) = None.
Proof. by vm_compute. Qed.

(** ** Witnesses *)

Definition ex_sched : Scheduler := ex_tick (spawn (ex_task 2 5) (spawn (ex_task 1 5) Scheduler_new)).

Lemma ex_sched_run : sched_run ex_sched [(2, 5); (1, 5); (0, 0)] [].
Proof.
  apply (run_tick (spawn (ex_task 2 5) (spawn (ex_task 1 5) Scheduler_new)) _ _ 0 _ None); [|vm_compute; reflexivity].
  apply (run_spawn _ [(1, 5); (0, 0)] [] (ex_task 2 5)); [|simpl; lia|simpl; set_solver].
  apply (run_spawn _ [(0, 0)] [] (ex_task 1 5)); [apply run_new|simpl; lia|simpl; set_solver].
Qed.

(** Processor 1 takes the ready task, and then the idle task. *)
Definition ex_stolen : Scheduler := (steal_task_for_ap 1 0 (steal_task_for_ap 1 0 ex_sched).1).1.

Lemma sched_conserves_tasks_witness :
  (key <$> tasks ex_stolen) ++ [(2, 5)] ≡ₚ [(2, 5); (1, 5); (0, 0)] ∧ NoDup (tid <$> tasks ex_stolen).
Proof.
  assert (overwritten 1 0 (steal_task_for_ap 1 0 ex_sched).1 ++ overwritten 1 0 ex_sched ++ [] = [(2, 5)]) as HL
    by (vm_compute; reflexivity).
  pose proof (run_steal _ _ _ 1 0 (run_steal _ _ _ 1 0 ex_sched_run)) as Hrun. rewrite HL in Hrun.
  destruct (sched_conserves_tasks ex_stolen _ _ Hrun) as (Hk & Hn & _). exact (conj Hk Hn).
Defined.

Lemma sched_round_robin_witness : ∃ s', tick_all (replicate 10 0) ex_sched = Some s' ∧ current_tid s' = Some 2.
Proof.
  refine (sched_round_robin (replicate 10 0) ex_sched _ _ ((ex_task 1 5) <| state := Ready |>) 5 [] ((ex_task 2 5) <| state := Ready |>) [] ex_sched_run _ _ _ _ _ _).
  - reflexivity.
  - vm_compute. reflexivity.
  - simpl. lia.
  - vm_compute. reflexivity.
  - intros j l Hj Hl. assert (ready ex_sched = <[0%nat := [Task_new_idle]]> (<[5%nat := [(ex_task 2 5) <| state := Ready |>]]> (replicate 256 []))) as Hr
      by (vm_compute; reflexivity).
    rewrite Hr, !list_lookup_insert_ne in Hl by lia. by apply lookup_replicate in Hl as [-> _].
  - vm_compute. reflexivity.
Defined.
