(* ===== verification/SmpSched.v ===== *)
(** * Schedulers of the processors with work stealing ([src/src/smp/scheduler.rs]).

    Each processor has ready queues behind a lock of its own. Tasks are those of
    [Sched], whose scheduler is the fallback. [TaskDomain] and
    [Task::new_idle_for_cpu] are not in the repository: they are the class
    [IdleTasks]. A processor that steals holds the stolen task between two locks,
    so that [schedule_local] is three steps: its own tick, one visit to each
    victim, and putting what it got in its own queue. *)

From Stdlib Require Import ZArith Lia Bool.
From stdpp Require Import base gmap sets strings numbers list.
From S2P Require Import Prelude Sched.

Local Open Scope Z_scope.

(** ** Data *)

Definition MAX_CPUS : Z := 64.
Definition PRIORITY_LEVELS : nat := 256.
Definition IDLE_PRIORITY : Z := 0.

(** [idle_domain t]: the domain of the task is [TaskDomain::Idle]. *)
Class IdleTasks := {
  idle_domain : Task → bool;
  new_idle_for_cpu : Z → Task;
}.

Class IdleTasksLaws `{IdleTasks} := {
  idle_priority cpu : priority (new_idle_for_cpu cpu) = IDLE_PRIORITY;
  idle_ready cpu : state (new_idle_for_cpu cpu) = Ready;
}.

Record LocalScheduler := mkLocal {
  cpu_id : Z;
  current : option Task;
  ready : list (list Task);
  ready_len : Z;
  quantum : Z;
  switches : Z;
}.

#[export] Instance eta_LocalScheduler : Settable LocalScheduler :=
  λ s, mkLocal (cpu_id s) (current s) (ready s) (ready_len s) (quantum s) (switches s).

(** ** One processor *)

Section local.
Context `{IdleTasks}.

Definition priority_index (p : Z) : nat := Z.to_nat (Z.land p (Z.of_nat PRIORITY_LEVELS - 1)).

Definition LocalScheduler_new (cpu : Z) : LocalScheduler :=
  mkLocal cpu None (alter (λ q, q ++ [new_idle_for_cpu cpu]) (priority_index IDLE_PRIORITY) (replicate PRIORITY_LEVELS [])) 1 DEFAULT_QUANTUM 0.

(** [ready[priority_index(p)].push_back(t)] with the count. *)
Definition push_ready (t : Task) (s : LocalScheduler) : LocalScheduler :=
  s <| ready := alter (λ q, q ++ [t]) (priority_index (priority t)) (ready s) |> <| ready_len := sat_add64 (ready_len s) 1 |>.

Definition local_spawn (t : Task) (s : LocalScheduler) : LocalScheduler :=
  match state t with
  | Dead | Blocked => s
  | _ =>
    let t := if negb (idle_domain t) && (priority t =? IDLE_PRIORITY) then t <| priority := 1 |> else t in
    push_ready (t <| state := Ready |>) s
  end.

Definition enqueue_current (s : LocalScheduler) : LocalScheduler :=
  match current s with
  | None => s
  | Some t =>
    let s := s <| current := None |> in
    if negb (is_schedulable (state t)) then s else push_ready (t <| state := Ready |>) s
  end.

(** Popping a queue until a task can run: the task, the rest, and the count. *)
Fixpoint pop_live (q : list Task) (len : Z) : option Task * list Task * Z :=
  match q with
  | [] => (None, [], len)
  | t :: q =>
    let len := sat_sub len 1 in
    if is_schedulable (state t) then (Some t, q, len) else pop_live q len
  end.

(** [pick_next]: the priorities below [n], the greatest first. *)
Fixpoint pick_loop (n : nat) (s : LocalScheduler) : option Task * LocalScheduler :=
  match n with
  | O => (None, s)
  | S p =>
    let '(r, q, len) := pop_live (default [] (ready s !! p)) (ready_len s) in
    let s := s <| ready := <[p := q]> (ready s) |> <| ready_len := len |> in
    match r with
    | Some t => (Some t, s)
    | None => pick_loop p s
    end
  end.

Definition local_pick_next (s : LocalScheduler) : option Task * LocalScheduler := pick_loop PRIORITY_LEVELS s.

(** [steal_one]: the priorities from [p] on, the last task of each queue first. *)
Fixpoint steal_loop (n p : nat) (s : LocalScheduler) : option Task * LocalScheduler :=
  match n with
  | O => (None, s)
  | S n =>
    let '(r, q, len) := pop_live (reverse (default [] (ready s !! p))) (ready_len s) in
    let s := s <| ready := <[p := reverse q]> (ready s) |> <| ready_len := len |> in
    match r with
    | Some t => (Some t, s)
    | None => steal_loop n (S p) s
    end
  end.

Definition steal_one (s : LocalScheduler) : option Task * LocalScheduler := steal_loop (PRIORITY_LEVELS - 1) 1 s.

Definition ready_count (s : LocalScheduler) : Z := ready_len s.

Definition is_running_idle (s : LocalScheduler) : bool :=
  match current s with Some t => priority t =? IDLE_PRIORITY | None => true end.

Definition local_tick (s : LocalScheduler) : LocalScheduler * bool :=
  match current s with
  | None =>
    let '(t, s) := local_pick_next s in (s <| current := t |> <| quantum := DEFAULT_QUANTUM |>, false)
  | Some _ =>
    let s := if 0 <? quantum s then s <| quantum := sat_sub (quantum s) 1 |> else s in
    if quantum s =? 0 then
      let '(t, s) := local_pick_next (enqueue_current s) in
      (s <| current := t |> <| quantum := DEFAULT_QUANTUM |> <| switches := sat_add64 (switches s) 1 |>, true)
    else (s, false)
  end.

(** ** All processors *)

Record Smp := mkSmp {
  LOCAL_SCHEDS : gmap Z LocalScheduler;
  CPU_COUNT : Z;
  GLOBAL_SCHEDULER : Scheduler;
}.

Definition set_local (cpu : Z) (s : LocalScheduler) (m : Smp) : Smp :=
  mkSmp (<[cpu := s]> (LOCAL_SCHEDS m)) (CPU_COUNT m) (GLOBAL_SCHEDULER m).

Definition set_global (s : Scheduler) (m : Smp) : Smp := mkSmp (LOCAL_SCHEDS m) (CPU_COUNT m) s.

Definition idx_for_cpu (cpu : Z) : option Z := if cpu <? MAX_CPUS then Some cpu else None.

Definition cpu_count (m : Smp) : Z := Z.min (CPU_COUNT m) MAX_CPUS.

Definition init_local (cpu : Z) (m : Smp) : Smp :=
  match idx_for_cpu cpu with
  | None => m
  | Some idx =>
    match LOCAL_SCHEDS m !! idx with
    | Some _ => m
    | None => set_local idx (LocalScheduler_new cpu) m
    end
  end.

(** One turn of [pick_least_loaded]. *)
Definition load_turn (m : Smp) (st : Z * option Z) (c : Z) : Z * option Z :=
  match idx ← idx_for_cpu c; LOCAL_SCHEDS m !! idx with
  | Some s => if ready_count s <? st.1 then (ready_count s, Some c) else st
  | None => st
  end.

Definition pick_least_loaded (m : Smp) : option Z := (foldl (load_turn m) (U64_MAX, None) (seqZ 0 (cpu_count m))).2.

Definition spawn_global (t : Task) (m : Smp) : Smp := set_global (Sched.spawn t (GLOBAL_SCHEDULER m)) m.

(** [spawn_on] once the target is known. *)
Definition spawn_to (target : Z) (t : Task) (m : Smp) : Smp :=
  match idx_for_cpu target with
  | None => spawn_global t m
  | Some idx =>
    match LOCAL_SCHEDS m !! idx with
    | Some s => set_local idx (local_spawn t s) m
    | None => spawn_global t m
    end
  end.

Definition spawn_on (cpu : Z) (t : Task) (m : Smp) : Smp :=
  if cpu =? U32_MAX then
    match pick_least_loaded m with
    | Some c => spawn_to c t m
    | None => spawn_global t m
    end
  else spawn_to cpu t m.

(** A visit to one victim, under its lock. *)
Definition steal_from (victim : Z) (m : Smp) : option Task * Smp :=
  match idx ← idx_for_cpu victim; s ← LOCAL_SCHEDS m !! idx; Some (idx, s) with
  | Some (idx, s) => let '(t, s) := steal_one s in (t, set_local idx s m)
  | None => (None, m)
  end.

(** The loop of [try_steal] over the victims that follow the thief. *)
Fixpoint steal_victims (victims : list Z) (m : Smp) : option Task * Smp :=
  match victims with
  | [] => (None, m)
  | v :: victims =>
    match steal_from v m with
    | (Some t, m) => (Some t, m)
    | (None, m) => steal_victims victims m
    end
  end.

Definition try_steal (thief : Z) (m : Smp) : option Task * Smp :=
  let n := cpu_count m in
  if n <=? 1 then (None, m)
  else steal_victims ((λ offset, wrap32 (thief + offset) `mod` n) <$> seqZ 1 (n - 1)) m.

(** Phase 1 of [schedule_local]: whether to switch, whether nothing is ready, and
    whether the processor is idle. *)
Definition schedule_begin (cpu : Z) (m : Smp) : option (Smp * (bool * bool * bool)) :=
  match idx ← idx_for_cpu cpu; s ← LOCAL_SCHEDS m !! idx; Some (idx, s) with
  | None => None
  | Some (idx, s) =>
    let '(s, switch) := local_tick s in
    Some (set_local idx s m, (switch, ready_count s =? 0, is_running_idle s))
  end.

(** The end of phase 2: the stolen task goes to the processor's own queue. *)
Definition schedule_end (cpu : Z) (t : Task) (m : Smp) : Smp :=
  match idx ← idx_for_cpu cpu; s ← LOCAL_SCHEDS m !! idx; Some (idx, s) with
  | Some (idx, s) => set_local idx (local_spawn t s) m
  | None => m
  end.

Definition schedule_local (cpu : Z) (m : Smp) : Smp * bool :=
  match schedule_begin cpu m with
  | None => (m, false)
  | Some (m, (switch, ready_empty, running_idle)) =>
    if ready_empty then
      match try_steal cpu m with
      | (Some t, m) => (schedule_end cpu t m, if running_idle then true else switch)
      | (None, m) => (m, switch)
      end
    else (m, switch)
  end.

Definition smp_current_tid (cpu : Z) (m : Smp) : option Z :=
  idx ← idx_for_cpu cpu; s ← LOCAL_SCHEDS m !! idx; tid <$> current s.

Definition block_on_local (cpu id : Z) (m : Smp) : Smp := set_global (block_task id (GLOBAL_SCHEDULER m)) m.

Definition wake_on_any (id : Z) (m : Smp) : Smp := set_global (wake_task id (GLOBAL_SCHEDULER m)) m.
End local.

#[global] Arguments pick_loop : simpl never.
#[global] Arguments steal_loop : simpl never.

(** ** What holds of one processor *)

Definition live (t : Task) : bool := is_schedulable (state t).

(** The tasks of a processor that are not idle tasks and can run. *)
Definition is_user (t : Task) : Prop := priority t ≠ IDLE_PRIORITY ∧ live t = true.

#[export] Instance is_user_dec t : Decision (is_user t).
Proof. unfold is_user. apply _. Defined.

Definition user_tids (s : LocalScheduler) : list Z := tid <$> filter is_user (current_list (current s) ++ concat (ready s)).

(** The idle task runs or is the only task of priority 0 in the queues. *)
Definition idle_kept (s : LocalScheduler) : Prop :=
  match current s with
  | Some c => if decide (priority c = IDLE_PRIORITY) then live c = true ∧ ready s !! 0%nat = Some [] else ∃ i, ready s !! 0%nat = Some [i]
  | None => ∃ i, ready s !! 0%nat = Some [i]
  end.

Record local_ok (s : LocalScheduler) : Prop := {
  lo_queues : queues_ok (ready s);
  lo_live : Forall (λ t, live t = true) (concat (ready s));
  lo_len : ready_len s = Z.of_nat (length (concat (ready s)));
  lo_idle : idle_kept s;
  lo_prio : Forall (λ t, 0 ≤ priority t < 256) (current_list (current s));
  lo_quantum : 0 ≤ quantum s;
}.

Lemma priority_index_small p : 0 ≤ p < 256 → priority_index p = Z.to_nat p.
Proof.
  intros Hp. unfold priority_index, PRIORITY_LEVELS. change (Z.of_nat 256 - 1) with (Z.ones 8). rewrite Z.land_ones by lia.
  rewrite Z.mod_small by (change (2 ^ 8) with 256; lia). done.
Qed.

Lemma push_ready_eq t s :
  0 ≤ priority t < 256 → push_ready t s = s <| ready := push_back t (ready s) |> <| ready_len := sat_add64 (ready_len s) 1 |>.
Proof. intros Hp. unfold push_ready, push_back. by rewrite priority_index_small. Qed.

Lemma pop_live_all q len : Forall (λ t, live t = true) q → pop_live q len = match q with [] => (None, [], len) | t :: q => (Some t, q, sat_sub len 1) end.
Proof. destruct q as [|t q]; [done|]. intros [Ht _]%Forall_cons. cbn [pop_live]. unfold live in Ht. by rewrite Ht. Qed.

Lemma queue_live s p q : Forall (λ t, live t = true) (concat (ready s)) → ready s !! p = Some q → Forall (λ t, live t = true) q.
Proof.
  intros Hl Hq. rewrite Forall_forall in Hl |- *. intros t Ht. apply Hl, elem_of_concat. by exists p, q.
Qed.

(** With live tasks only, [pick_next] is the search of [Sched]. *)
Lemma pick_loop_below n s :
  (n ≤ length (ready s))%nat → Forall (λ t, live t = true) (concat (ready s)) →
  pick_loop n s = match pick_below n (ready s) with
                  | Some (t, qs) => (Some t, s <| ready := qs |> <| ready_len := sat_sub (ready_len s) 1 |>)
                  | None => (None, s)
                  end.
Proof.
  intros Hn Hl. induction n as [|p IH]; [done|]. rewrite pick_below_S. unfold pick_loop; fold pick_loop.
  destruct (lookup_lt_is_Some_2 (ready s) p) as [q Hq]; [lia|]. rewrite Hq. cbn [default]. rewrite (pop_live_all q) by (by eapply queue_live).
  destruct q as [|t q]; [|done].
  assert (s <| ready := <[p := []]> (ready s) |> <| ready_len := ready_len s |> = s) as -> by (destruct s; simpl in *; by rewrite list_insert_id).
  apply IH. lia.
Qed.

(** [steal_one] takes the last task of the lowest queue that is not empty. *)
Lemma steal_loop_spec n p s :
  (p + n ≤ length (ready s))%nat → Forall (λ t, live t = true) (concat (ready s)) →
  match steal_loop n p s with
  | (Some t, s') =>
    ∃ p' q, (p ≤ p' < p + n)%nat ∧ ready s !! p' = Some (q ++ [t]) ∧
      s' = s <| ready := <[p' := q]> (ready s) |> <| ready_len := sat_sub (ready_len s) 1 |> ∧
      ∀ j, (p ≤ j < p')%nat → ready s !! j = Some []
  | (None, s') => s' = s
  end.
Proof.
  intros Hn Hl. revert p Hn. induction n as [|n IH]; intros p Hn; [done|]. unfold steal_loop; fold steal_loop.
  destruct (lookup_lt_is_Some_2 (ready s) p) as [q Hq]; [lia|]. rewrite Hq. cbn [default].
  rewrite (pop_live_all (reverse q)) by (rewrite Forall_reverse; by eapply queue_live).
  destruct q as [|t q _] using rev_ind.
  - rewrite reverse_nil. cbv beta iota. rewrite reverse_nil.
    assert (s <| ready := <[p := []]> (ready s) |> <| ready_len := ready_len s |> = s) as -> by (destruct s; simpl in *; by rewrite list_insert_id).
    specialize (IH (S p) ltac:(lia)). destruct (steal_loop n (S p) s) as [[t|] s']; [|done].
    destruct IH as (p' & q & Hp' & Hq' & Hs' & Hlow). exists p', q. split; [lia|]. split; [done|]. split; [done|].
    intros j Hj. destruct (decide (j = p)) as [->|]; [done|]. apply Hlow. lia.
  - rewrite reverse_snoc. exists p, q. rewrite reverse_involutive. split; [lia|]. split; [done|]. split; [done|]. intros j Hj. lia.
Qed.

Lemma idle_kept_eq s s' : current s' = current s → ready s' !! 0%nat = ready s !! 0%nat → idle_kept s → idle_kept s'.
Proof. unfold idle_kept. by intros -> ->. Qed.

Lemma local_ok_fields s s' :
  local_ok s → current s' = current s → ready s' = ready s → ready_len s' = ready_len s → 0 ≤ quantum s' → local_ok s'.
Proof.
  intros [] Hc Hr Hl Hq. split; rewrite ?Hr, ?Hl, ?Hc; try done. by apply (idle_kept_eq s); rewrite ?Hr.
Qed.

Section local_lemmas.
Context `{IdleTasks}.
Implicit Types s : LocalScheduler.

Lemma push_keeps_0 t qs : 1 ≤ priority t → push_back t qs !! 0%nat = qs !! 0%nat.
Proof. intros Hp. unfold push_back. rewrite list_lookup_alter_ne by lia. done. Qed.

(** A task that can run joins the queues. *)
Lemma push_ready_ok t s :
  local_ok s → live t = true → 1 ≤ priority t < 256 → ready_len s < U64_MAX →
  local_ok (push_ready t s) ∧ user_tids (push_ready t s) ≡ₚ tid t :: user_tids s ∧ current (push_ready t s) = current s.
Proof.
  intros [Hq Hl Hlen Hidle Hp Hqu] Ht Hpt Hb. rewrite push_ready_eq by lia.
  destruct (push_spec t (ready s) Hq) as [Hq' Hc]; [lia|]. split; [|split; [|done]].
  - split; simpl; try done.
    + rewrite Hc. by constructor.
    + rewrite Hc, Hlen. cbn [length]. rewrite sat_add64_exact by (rewrite <-Hlen; lia). lia.
    + by apply (idle_kept_eq s); [|apply push_keeps_0; lia|].
  - unfold user_tids. simpl. rewrite Hc. rewrite !filter_app, filter_cons_True by (split; [unfold IDLE_PRIORITY; lia|done]).
    rewrite !fmap_app. cbn. solve_Permutation.
Qed.

Lemma spawn_local_ok t s :
  local_ok s → (state t = New ∨ live t = true) → 0 ≤ priority t < 256 → idle_domain t = false ∨ 1 ≤ priority t → ready_len s < U64_MAX →
  local_ok (local_spawn t s) ∧ user_tids (local_spawn t s) ≡ₚ tid t :: user_tids s.
Proof.
  intros Hs Hst Hp Hd Hb. unfold local_spawn.
  set (u := if negb (idle_domain t) && (priority t =? IDLE_PRIORITY) then t <| priority := 1 |> else t).
  assert (1 ≤ priority u < 256 ∧ tid u = tid t) as [Hpu Hu].
  { unfold u. destruct (Z.eqb_spec (priority t) IDLE_PRIORITY) as [He|He]; unfold IDLE_PRIORITY in He.
    - destruct Hd as [->|]; [|lia]. simpl. lia.
    - rewrite andb_false_r. lia. }
  assert (∀ s', s' = push_ready (u <| state := Ready |>) s → local_ok s' ∧ user_tids s' ≡ₚ tid t :: user_tids s) as Hpush.
  { intros s' ->. destruct (push_ready_ok (u <| state := Ready |>) s Hs) as (Hok & Hut & _); [done|done|done|]. split; [done|]. rewrite Hut. by rewrite <-Hu. }
  destruct Hst as [Hst|Hst]; [rewrite Hst; by apply Hpush|]. unfold live in Hst. destruct (state t); try done; by apply Hpush.
Qed.

(** The running task goes back, or is dropped if it ended or blocked. *)
Lemma enqueue_ok s :
  local_ok s → ready_len s < U64_MAX →
  local_ok (enqueue_current s) ∧ user_tids (enqueue_current s) ≡ₚ user_tids s ∧ current (enqueue_current s) = None ∧ quantum (enqueue_current s) = quantum s.
Proof.
  intros Hs Hb. unfold enqueue_current. destruct (current s) as [c|] eqn:Hc; [|by rewrite Hc].
  pose proof (lo_prio _ Hs) as Hp. rewrite Hc in Hp. apply Forall_cons in Hp as [Hp _]. pose proof (lo_idle _ Hs) as Hidle. unfold idle_kept in Hidle. rewrite Hc in Hidle.
  destruct (is_schedulable (state c)) eqn:Hl; cbn [negb].
  - destruct (decide (priority c = IDLE_PRIORITY)) as [H0|H0].
    + destruct Hidle as [_ Hq0]. rewrite push_ready_eq by done. set (u := c <| state := Ready |>). cbn [ready].
      destruct (push_spec u (ready s) (lo_queues _ Hs) Hp) as [Hq' Hcc]. split; [|split; [|done]].
      * split; simpl; try done; [rewrite Hcc; by constructor; [|apply Hs]| | |apply Hs].
        -- rewrite Hcc, (lo_len _ Hs). cbn [length]. rewrite sat_add64_exact by (rewrite <-(lo_len _ Hs); lia). lia.
        -- unfold idle_kept. simpl. exists u. unfold push_back. change (priority u) with (priority c). rewrite H0. change (Z.to_nat IDLE_PRIORITY) with 0%nat.
           rewrite list_lookup_alter_eq, Hq0. done.
      * unfold user_tids. simpl. rewrite Hcc, Hc. rewrite !filter_app. cbn [current_list].
        rewrite !filter_cons_False by (intros [Hn _]; by apply Hn). done.
    + set (s1 := s <| current := None |>). assert (local_ok s1) as Hs1.
      { split; simpl; try apply Hs; [|done]. unfold idle_kept. done. }
      destruct (push_ready_ok (c <| state := Ready |>) s1 Hs1) as (Hok & Hut & Hcur); [done| |done|].
      { simpl. unfold IDLE_PRIORITY in H0. lia. }
      split; [done|]. split; [|done]. rewrite Hut. unfold user_tids. simpl. rewrite Hc. cbn [current_list]. rewrite filter_app.
      rewrite filter_cons_True by (by split). done.
  - destruct (decide (priority c = IDLE_PRIORITY)) as [H0|H0]; [destruct Hidle as [Hlc _]; unfold live in Hlc; congruence|].
    split; [|split; [|done]].
    + split; simpl; try apply Hs; [|done]. unfold idle_kept. done.
    + unfold user_tids. simpl. rewrite Hc. cbn [current_list]. rewrite filter_app, filter_cons_False; [done|]. intros [_ Hlc]. unfold live in Hlc. congruence.
Qed.
(** With the idle task in the queues there is always a next task. *)
Lemma pick_ok s :
  local_ok s → current s = None →
  ∃ n s', local_pick_next s = (Some n, s') ∧ local_ok (s' <| current := Some n |>) ∧ user_tids (s' <| current := Some n |>) ≡ₚ user_tids s ∧
    quantum s' = quantum s ∧ live n = true ∧ ∀ u, u ∈ concat (ready s') → priority u ≤ priority n.
Proof.
  intros Hs Hc. unfold local_pick_next, PRIORITY_LEVELS. pose proof (lo_queues _ Hs) as Hq.
  rewrite pick_loop_below by (apply Hs || (rewrite (proj1 Hq); done)).
  assert (∃ i, ready s !! 0%nat = Some [i]) as [i Hi0] by (pose proof (lo_idle _ Hs) as Hid; unfold idle_kept in Hid; by rewrite Hc in Hid).
  destruct (pick_below 256 (ready s)) as [[n qs]|] eqn:Hp; [|by pose proof (pick_none 256 (ready s) Hp 0 [i] ltac:(lia) Hi0)].
  destruct (pick_spec 256 (ready s) n qs Hq Hp) as (Hqs & Hcc & p & q & Hlt & Hpq & Hqe & Hmax).
  assert (priority n = Z.of_nat p) as Hnp by (pose proof (proj2 Hq p _ Hpq) as Hf; by apply Forall_cons in Hf as [? _]).
  pose proof (lo_live _ Hs) as Hlv. rewrite Hcc in Hlv. apply Forall_cons in Hlv as [Hln Hlv].
  pose proof (lo_len _ Hs) as Hlen. rewrite Hcc in Hlen. cbn [length] in Hlen.
  do 2 eexists. split; [done|]. split; [|split; [|split; [done|split; [done|]]]].
  - split; simpl; try done; [rewrite Hlen; unfold sat_sub; lia| | |apply Hs].
    + unfold idle_kept. simpl. rewrite Hqe. destruct (decide (priority n = IDLE_PRIORITY)) as [H0|H0]; unfold IDLE_PRIORITY in H0.
      * assert (p = 0%nat) as -> by lia. rewrite Hi0 in Hpq. injection Hpq as -> <-. split; [done|]. by rewrite list_lookup_insert_eq by (rewrite (proj1 Hq); lia).
      * exists i. rewrite list_lookup_insert_ne by lia. done.
    + constructor; [lia|constructor].
  - unfold user_tids. simpl. rewrite Hc, Hcc. done.
  - intros u Hu. simpl in Hu. by apply (picked_highest 256 (ready s) n qs Hq Hp eq_refl).
Qed.

Lemma tick_ok s :
  local_ok s → ready_len s < U64_MAX →
  ∃ s' sw n, local_tick s = (s', sw) ∧ local_ok s' ∧ user_tids s' ≡ₚ user_tids s ∧ current s' = Some n ∧
    (sw = true → live n = true ∧ ∀ u, u ∈ concat (ready s') → priority u ≤ priority n) ∧
    (ready_count s' = 0 → is_running_idle s' = true).
Proof.
  intros Hs Hb. assert (∀ s n, local_ok s → current s = Some n → ready_count s = 0 → is_running_idle s = true) as Hidle.
  { clear. intros s n Hs Hc H0. unfold ready_count in H0. rewrite (lo_len _ Hs) in H0. unfold is_running_idle. rewrite Hc.
    pose proof (lo_idle _ Hs) as Hid. unfold idle_kept in Hid. rewrite Hc in Hid. destruct (decide (priority n = IDLE_PRIORITY)) as [->|]; [done|].
    destruct Hid as [i Hi]. assert (i ∈ concat (ready s)) as Hin by (apply elem_of_concat; exists 0%nat, [i]; split; [done|by left]).
    destruct (concat (ready s)); [by apply elem_of_nil in Hin|]. cbn [length] in H0. lia. }
  unfold local_tick. destruct (current s) as [c|] eqn:Hc.
  - set (s1 := if 0 <? quantum s then s <| quantum := sat_sub (quantum s) 1 |> else s).
    assert (local_ok s1 ∧ user_tids s1 = user_tids s ∧ current s1 = Some c ∧ ready_len s1 = ready_len s) as (Hs1 & Hu1 & Hc1 & Hl1).
    { unfold s1. destruct (0 <? quantum s); [|done]. split; [|done]. apply (local_ok_fields s); try done. simpl. unfold sat_sub. lia. }
    destruct (quantum s1 =? 0).
    + destruct (enqueue_ok s1 Hs1) as (Hs2 & Hu2 & Hc2 & _); [by rewrite Hl1|].
      destruct (pick_ok _ Hs2 Hc2) as (n & s3 & Hp & Hs3 & Hu3 & Hq3 & Hln & Hmax). rewrite Hp.
      assert (∀ k, local_ok (s3 <| current := Some n |> <| quantum := DEFAULT_QUANTUM |> <| switches := k |>)) as Hok
        by (intros k; by apply (local_ok_fields _ _ Hs3)).
      do 3 eexists. split; [done|]. split; [apply Hok|]. split; [|split; [done|split; [done|by apply (Hidle _ n)]]].
      rewrite <-Hu1, <-Hu2, <-Hu3. done.
    + exists s1, false, c. rewrite Hu1. split_and!; try done. by apply (Hidle s1 c).
  - destruct (pick_ok s Hs Hc) as (n & s' & Hp & Hs' & Hu & Hq' & Hln & Hmax). rewrite Hp.
    assert (local_ok (s' <| current := Some n |> <| quantum := DEFAULT_QUANTUM |>)) as Hok by (by apply (local_ok_fields _ _ Hs')).
    do 3 eexists. split; [done|]. split; [done|]. split; [by rewrite <-Hu|]. split; [done|]. split; [done|]. by apply (Hidle _ n).
Qed.

Lemma steal_ok s :
  local_ok s →
  match steal_one s with
  | (Some t, s') => local_ok s' ∧ user_tids s ≡ₚ tid t :: user_tids s' ∧ live t = true ∧ 1 ≤ priority t < 256 ∧
      ∀ u, u ∈ concat (ready s) → priority u = IDLE_PRIORITY ∨ priority t ≤ priority u
  | (None, s') => s' = s
  end.
Proof.
  intros Hs. pose proof (lo_queues _ Hs) as Hq. unfold steal_one, PRIORITY_LEVELS.
  pose proof (steal_loop_spec 255 1 s ltac:(rewrite (proj1 Hq); lia) (lo_live _ Hs)) as Hst. change (256 - 1)%nat with 255%nat.
  destruct (steal_loop 255 1 s) as [[t|] s']; [|done]. destruct Hst as (p & q & Hp & Hpq & -> & Hlow).
  assert (Forall (λ t, priority t = Z.of_nat p) (q ++ [t])) as Hpr by (by apply (proj2 Hq)).
  assert (priority t = Z.of_nat p) as Htp by (apply Forall_app in Hpr as [_ Hpr]; by apply Forall_cons in Hpr as [? _]).
  destruct (queue_removed (ready s) p (q ++ [t]) q t Hq Hpq) as [Hq' Hcc]; [solve_Permutation|].
  pose proof (lo_live _ Hs) as Hlv. rewrite Hcc in Hlv. apply Forall_cons in Hlv as [Hlt Hlv].
  pose proof (lo_len _ Hs) as Hlen. rewrite Hcc in Hlen. cbn [length] in Hlen. split; [|split; [|split; [done|split; [lia|]]]].
  - split; simpl; try done; [rewrite Hlen; unfold sat_sub; lia| |apply Hs|apply Hs].
    apply (idle_kept_eq s); [done| |apply Hs]. simpl. rewrite list_lookup_insert_ne by lia. done.
  - unfold user_tids. simpl. rewrite Hcc, !filter_app, filter_cons_True by (split; [unfold IDLE_PRIORITY; lia|done]). rewrite !fmap_app. cbn. solve_Permutation.
  - intros u (j & l & Hj & Hu)%elem_of_concat. pose proof (proj2 Hq j l Hj) as Hf. rewrite Forall_forall in Hf. rewrite (Hf u Hu).
    destruct (decide (j = 0%nat)) as [->|]; [by left|right]. destruct (decide (p ≤ j)%nat); [lia|]. rewrite Hlow in Hj by lia. injection Hj as <-. by apply elem_of_nil in Hu.
Qed.
End local_lemmas.

(** ** All processors *)

(** The tasks of all processors, those on their way from one to another, and those
    of the global scheduler. *)
Definition local_tids (locals : gmap Z LocalScheduler) : list Z := (map_to_list locals).*2 ≫= user_tids.

Definition all_tids (m : Smp) (F : list (Z * Task)) : list Z :=
  local_tids (LOCAL_SCHEDS m) ++ (tid <$> F.*2) ++ (tid <$> tasks (GLOBAL_SCHEDULER m)).

Lemma local_tids_split locals c s : locals !! c = Some s → local_tids locals ≡ₚ user_tids s ++ local_tids (delete c locals).
Proof. intros Hc. unfold local_tids. by rewrite <-(map_to_list_delete locals c s Hc). Qed.

Lemma local_tids_insert locals c s : local_tids (<[c := s]> locals) ≡ₚ user_tids s ++ local_tids (delete c locals).
Proof. rewrite (local_tids_split _ c s) by apply lookup_insert_eq. by rewrite delete_insert_eq. Qed.

Record smp_inv (m : Smp) (F : list (Z * Task)) (K : list Z) : Prop := {
  sm_tids : all_tids m F ≡ₚ K;
  sm_local c s : LOCAL_SCHEDS m !! c = Some s → local_ok s ∧ idx_for_cpu c = Some c;
  sm_flight : Forall (λ x, live x.2 = true ∧ 1 ≤ priority x.2 < 256 ∧ is_Some (LOCAL_SCHEDS m !! x.1)) F;
  sm_global : ∃ Kg, sched_inv (GLOBAL_SCHEDULER m) Kg;
  sm_nodup : NoDup K;
  sm_range : Forall (λ k, 0 ≤ k < 2 ^ 63) K;
}.

Section smp.
Context `{IdleTasks, !IdleTasksLaws}.

(** The count of a ready queue cannot saturate. *)
Lemma user_count s : local_ok s → ready_len s ≤ Z.of_nat (length (user_tids s)) + 1.
Proof.
  intros Hs. rewrite (lo_len _ Hs). unfold user_tids. rewrite length_fmap, filter_app, length_app.
  pose proof (lo_queues _ Hs) as [Hl Hq]. pose proof (lo_live _ Hs) as Hlv. pose proof (lo_idle _ Hs) as Hid.
  destruct (ready s) as [|q0 qs] eqn:Hr; [done|]. cbn [concat] in *. rewrite length_app, filter_app, length_app.
  assert (filter is_user (concat qs) = concat qs) as ->.
  { apply Forall_app in Hlv as [_ Hlv]. rewrite Forall_forall in Hlv. apply filter_all.
    intros t Ht. split; [|by apply Hlv]. apply elem_of_concat in Ht as (p & q & Hp & Ht). pose proof (Hq (S p) q Hp) as Hf.
    rewrite Forall_forall in Hf. rewrite (Hf t Ht). unfold IDLE_PRIORITY. lia. }
  assert (length q0 ≤ 1)%nat; [|lia]. unfold idle_kept in Hid. rewrite Hr in Hid. cbn in Hid.
  destruct (current s) as [c|]; [destruct (decide _)|]; [destruct Hid as [_ [= ->]]|destruct Hid as [i [= ->]]|destruct Hid as [i [= ->]]]; simpl; lia.
Qed.

Lemma ready_bound m F K c s : smp_inv m F K → LOCAL_SCHEDS m !! c = Some s → ready_len s < U64_MAX.
Proof.
  intros Hi Hc. pose proof (user_count s (proj1 (sm_local _ _ _ Hi c s Hc))) as Hu.
  assert (Z.of_nat (length K) ≤ 2 ^ 63) as HK.
  { apply NoDup_range_length; [apply Hi|lia|]. pose proof (sm_range _ _ _ Hi) as Hr. rewrite Forall_forall in Hr. intros k Hk. apply (Hr k Hk). }
  rewrite <-(sm_tids _ _ _ Hi) in HK. unfold all_tids in HK. rewrite (local_tids_split _ c s Hc), !length_app in HK. unfold U64_MAX. lia.
Qed.

(** A processor's scheduler changes. *)
Lemma inv_set_local m F F' K K' c s s' :
  smp_inv m F K → LOCAL_SCHEDS m !! c = Some s → local_ok s' →
  user_tids s' ++ (tid <$> F'.*2) ++ K ≡ₚ user_tids s ++ (tid <$> F.*2) ++ K' → NoDup K' → Forall (λ k, 0 ≤ k < 2 ^ 63) K' →
  Forall (λ x, live x.2 = true ∧ 1 ≤ priority x.2 < 256 ∧ is_Some (LOCAL_SCHEDS m !! x.1)) F' → smp_inv (set_local c s' m) F' K'.
Proof.
  intros Hi Hc Hs' Hperm Hnd Hrg HF'. pose proof (sm_tids _ _ _ Hi) as Ht. unfold all_tids in Ht. rewrite (local_tids_split _ c s Hc) in Ht. split; simpl.
  - unfold all_tids. simpl. rewrite local_tids_insert. rewrite <-Ht in Hperm.
    set (rest := local_tids (delete c (LOCAL_SCHEDS m))) in *. set (g := tid <$> tasks (GLOBAL_SCHEDULER m)) in *.
    apply (Permutation_app_inv_l (user_tids s ++ (tid <$> F.*2))).
    transitivity (user_tids s' ++ (tid <$> F'.*2) ++ (user_tids s ++ rest) ++ (tid <$> F.*2) ++ g); [solve_Permutation|]. rewrite Hperm. solve_Permutation.
  - intros k u Hk. destruct (decide (k = c)) as [->|Hne].
    + rewrite lookup_insert_eq in Hk. injection Hk as <-. split; [done|]. by apply (sm_local _ _ _ Hi c s).
    + rewrite lookup_insert_ne in Hk by done. by apply (sm_local _ _ _ Hi).
  - eapply Forall_impl; [exact HF'|]. intros [k t] (? & ? & Hk). split_and!; try done; try lia. simpl in *.
    rewrite lookup_insert_is_Some'. by right.
  - apply Hi.
  - done.
  - done.
Qed.

(** The global scheduler changes. *)
Lemma inv_set_global m F K K' g' Kg :
  smp_inv m F K → sched_inv g' Kg → (tid <$> tasks g') ++ K ≡ₚ (tid <$> tasks (GLOBAL_SCHEDULER m)) ++ K' → NoDup K' →
  Forall (λ k, 0 ≤ k < 2 ^ 63) K' → smp_inv (set_global g' m) F K'.
Proof.
  intros Hi Hg Hperm Hnd Hrg. pose proof (sm_tids _ _ _ Hi) as Ht. unfold all_tids in Ht. split; simpl; try apply Hi; try done; [|by exists Kg].
  unfold all_tids. simpl. rewrite <-Ht in Hperm. apply (Permutation_app_inv_l (tid <$> tasks (GLOBAL_SCHEDULER m))). rewrite <-Hperm. solve_Permutation.
Qed.
Lemma sched_tids g Kg : sched_inv g Kg → tid <$> tasks g ≡ₚ Kg.*1.
Proof. intros Hg. rewrite <-(sv_keys _ _ Hg), <-list_fmap_compose. done. Qed.

Lemma global_same m F K g' Kg :
  smp_inv m F K → sched_inv (GLOBAL_SCHEDULER m) Kg → sched_inv g' Kg → smp_inv (set_global g' m) F K.
Proof.
  intros Hi Hg Hg'. apply (inv_set_global m F K K g' Kg Hi Hg'); [|apply Hi|apply Hi]. by rewrite (sched_tids g' Kg Hg'), (sched_tids _ Kg Hg).
Qed.

Lemma global_spawn m F K t :
  smp_inv m F K → 0 ≤ priority t < 256 → 0 ≤ tid t < 2 ^ 63 → tid t ∉ K → smp_inv (spawn_global t m) F (tid t :: K).
Proof.
  intros Hi Hp Hr Hn. destruct (sm_global _ _ _ Hi) as [Kg Hg]. assert (tid t ∉ Kg.*1) as Hng.
  { intros Hin. apply Hn. rewrite <-(sm_tids _ _ _ Hi). unfold all_tids. rewrite !elem_of_app. right. right. by rewrite (sched_tids _ _ Hg). }
  pose proof (spawn_inv (GLOBAL_SCHEDULER m) Kg t Hg Hp Hng) as Hg'.
  apply (inv_set_global m F K (tid t :: K) _ _ Hi Hg'); [|constructor; [done|apply Hi]|constructor; [done|apply Hi]].
  rewrite (sched_tids _ _ Hg'), (sched_tids _ _ Hg). cbn. solve_Permutation.
Qed.

Lemma spawn_to_inv m F K target t :
  smp_inv m F K → (state t = New ∨ live t = true) → idle_domain t = false → 0 ≤ priority t < 256 → 0 ≤ tid t < 2 ^ 63 → tid t ∉ K →
  smp_inv (spawn_to target t m) F (tid t :: K).
Proof.
  intros Hi Hst Hd Hp Hr Hn. unfold spawn_to, idx_for_cpu. destruct (target <? MAX_CPUS); [|by apply global_spawn].
  destruct (LOCAL_SCHEDS m !! target) as [s|] eqn:Hs; [|by apply global_spawn].
  destruct (spawn_local_ok t s (proj1 (sm_local _ _ _ Hi target s Hs)) Hst Hp (or_introl Hd) (ready_bound m F K target s Hi Hs)) as [Hok Hu].
  apply (inv_set_local m F F K (tid t :: K) target s _ Hi Hs Hok); [rewrite Hu; solve_Permutation|constructor; [done|apply Hi]|constructor; [done|apply Hi]|apply Hi].
Qed.

Lemma init_inv m F K cpu : smp_inv m F K → smp_inv (init_local cpu m) F K.
Proof.
  intros Hi. unfold init_local. destruct (idx_for_cpu cpu) as [idx|] eqn:Hx; [|done].
  assert (idx = cpu) as -> by (unfold idx_for_cpu in Hx; destruct (cpu <? MAX_CPUS); congruence).
  destruct (LOCAL_SCHEDS m !! cpu) as [s|] eqn:Hc; [done|].
  set (i := new_idle_for_cpu cpu). assert (ready (LocalScheduler_new cpu) = <[0%nat := [i]]> (replicate 256 [])) as Hr by reflexivity.
  assert (concat (ready (LocalScheduler_new cpu)) = [i]) as Hcc by reflexivity.
  assert (local_ok (LocalScheduler_new cpu)) as Hok.
  { split; try (by rewrite ?Hcc).
    - rewrite Hr. split; [by rewrite length_insert, length_replicate|]. intros p q Hp. destruct (decide (p = 0%nat)) as [->|].
      + rewrite list_lookup_insert_eq in Hp by (rewrite length_replicate; lia). injection Hp as <-. constructor; [apply idle_priority|constructor].
      + rewrite list_lookup_insert_ne in Hp by done. apply lookup_replicate in Hp as [-> _]. constructor.
    - rewrite Hcc. constructor; [|constructor]. unfold live, i. by rewrite idle_ready.
    - unfold idle_kept. simpl. by exists i. }
  assert (user_tids (LocalScheduler_new cpu) = []) as Hu.
  { unfold user_tids. rewrite Hcc. change (current_list _ ++ [i]) with [i]. rewrite filter_cons_False; [done|]. intros [Hn _]. apply Hn, idle_priority. }
  split; simpl; try apply Hi.
  - rewrite <-(sm_tids _ _ _ Hi). unfold all_tids. simpl. rewrite local_tids_insert, Hu, delete_id by done. done.
  - intros k s Hk. destruct (decide (k = cpu)) as [->|]; [rewrite lookup_insert_eq in Hk; by injection Hk as <-|].
    rewrite lookup_insert_ne in Hk by done. by apply (sm_local _ _ _ Hi).
  - eapply Forall_impl; [apply Hi|]. intros [k t] (? & ? & Hk). split; [done|]. split; [done|]. rewrite lookup_insert_is_Some'. by right.
Qed.

Lemma begin_inv m F K cpu m' flags : smp_inv m F K → schedule_begin cpu m = Some (m', flags) → smp_inv m' F K.
Proof.
  intros Hi. unfold schedule_begin. destruct (idx_for_cpu cpu) as [idx|]; [|done]. cbn [mbind option_bind].
  destruct (LOCAL_SCHEDS m !! idx) as [s|] eqn:Hs; [|done]. cbn [mbind option_bind].
  destruct (tick_ok s (proj1 (sm_local _ _ _ Hi idx s Hs)) (ready_bound m F K idx s Hi Hs)) as (s' & sw & n & -> & Hok & Hu & _).
  intros [= <- _]. apply (inv_set_local m F F K K idx s s' Hi Hs Hok); [by rewrite Hu|apply Hi|apply Hi|apply Hi].
Qed.

Lemma steal_from_inv m F K thief victim r m' :
  smp_inv m F K → is_Some (LOCAL_SCHEDS m !! thief) → steal_from victim m = (r, m') →
  smp_inv m' (match r with Some t => (thief, t) :: F | None => F end) K.
Proof.
  intros Hi Hth. unfold steal_from. destruct (idx_for_cpu victim) as [idx|]; [|by intros [= <- <-]]. cbn [mbind option_bind].
  destruct (LOCAL_SCHEDS m !! idx) as [s|] eqn:Hs; [|by intros [= <- <-]]. cbn [mbind option_bind].
  pose proof (proj1 (sm_local _ _ _ Hi idx s Hs)) as Hls. pose proof (steal_ok s Hls) as Hst. destruct (steal_one s) as [[t|] s']; intros [= <- <-].
  - destruct Hst as (Hok & Hu & Hl & Hp & _).
    apply (inv_set_local m F ((thief, t) :: F) K K idx s s' Hi Hs Hok); [|apply Hi|apply Hi|].
    + rewrite Hu. cbn. solve_Permutation.
    + constructor; [done|apply Hi].
  - subst s'. apply (inv_set_local m F F K K idx s s Hi Hs Hls); [done|apply Hi|apply Hi|apply Hi].
Qed.

Lemma end_inv m F F' K cpu t : smp_inv m F K → F ≡ₚ (cpu, t) :: F' → smp_inv (schedule_end cpu t m) F' K.
Proof.
  intros Hi HF. pose proof (sm_flight _ _ _ Hi) as Hfl. rewrite HF in Hfl. apply Forall_cons in Hfl as [(Hl & Hp & [s Hs]) Hfl]. cbn [fst snd] in *.
  destruct (sm_local _ _ _ Hi cpu s Hs) as [Hok Hx]. unfold schedule_end. rewrite Hx. cbn [mbind option_bind]. rewrite Hs. cbn [mbind option_bind].
  destruct (spawn_local_ok t s Hok (or_intror Hl) ltac:(lia) (or_intror (proj1 Hp)) (ready_bound m F K cpu s Hi Hs)) as [Hok' Hu].
  apply (inv_set_local m F F' K K cpu s _ Hi Hs Hok'); [|apply Hi|apply Hi|done]. rewrite Hu, HF. cbn. solve_Permutation.
Qed.

(** The running task of a processor ends or blocks. *)
Definition stop_current (cpu : Z) (s : LocalScheduler) (t : Task) (st : TaskState) (m : Smp) : Smp :=
  set_local cpu (s <| current := Some (t <| state := st |>) |>) m.

Lemma stop_inv m F K K' cpu s t st :
  smp_inv m F K → LOCAL_SCHEDS m !! cpu = Some s → current s = Some t → is_user t → st = Dead ∨ st = Blocked → K ≡ₚ tid t :: K' →
  smp_inv (stop_current cpu s t st m) F K'.
Proof.
  intros Hi Hs Hc [Hp Hl] Hst HK. pose proof (proj1 (sm_local _ _ _ Hi cpu s Hs)) as Hok.
  assert (live (t <| state := st |>) = false) as Hdead by (by destruct Hst as [-> | ->]).
  apply (inv_set_local m F F K K' cpu s _ Hi Hs).
  - split; simpl; try apply Hok.
    + pose proof (lo_idle _ Hok) as Hid. unfold idle_kept in *. rewrite Hc in Hid. simpl. by rewrite decide_False in Hid |- * by done.
    + pose proof (lo_prio _ Hok) as Hpr. rewrite Hc in Hpr. apply Forall_cons in Hpr as [Hpr _]. by constructor.
  - rewrite HK. unfold user_tids. simpl. rewrite Hc. cbn [current_list]. rewrite !filter_app, filter_cons_False by (intros [_ Hlt]; exact (Bool.diff_false_true (eq_trans (eq_sym Hdead) Hlt))).
    rewrite (filter_cons_True _ t) by done. cbn. solve_Permutation.
  - pose proof (sm_nodup _ _ _ Hi) as Hnd. rewrite HK in Hnd. by apply NoDup_cons in Hnd as [_ ?].
  - pose proof (sm_range _ _ _ Hi) as Hr. rewrite HK in Hr. by apply Forall_cons in Hr as [_ ?].
  - apply Hi.
Qed.
End smp.

(** ** Runs *)

Section runs.
Context `{IdleTasks, !IdleTasksLaws}.

(** The steps of all processors in any order. [F] are the stolen tasks that have
    not reached the queue of their thief, [K] the tasks that have not ended or
    blocked. *)
Inductive smp_run : Smp → list (Z * Task) → list Z → Prop :=
| smp_boot n : smp_run (mkSmp ∅ n Scheduler_new) [] [0]
| smp_init m F K cpu : smp_run m F K → smp_run (init_local cpu m) F K
| smp_spawn m F K target t :
    smp_run m F K → (state t = New ∨ live t = true) → idle_domain t = false → 0 ≤ priority t < 256 → 0 ≤ tid t < 2 ^ 63 → tid t ∉ K →
    smp_run (spawn_to target t m) F (tid t :: K)
| smp_spawn_global m F K t :
    smp_run m F K → 0 ≤ priority t < 256 → 0 ≤ tid t < 2 ^ 63 → tid t ∉ K → smp_run (spawn_global t m) F (tid t :: K)
| smp_begin m F K cpu m' flags : smp_run m F K → schedule_begin cpu m = Some (m', flags) → smp_run m' F K
| smp_steal m F K thief victim t m' :
    smp_run m F K → is_Some (LOCAL_SCHEDS m !! thief) → steal_from victim m = (Some t, m') → smp_run m' ((thief, t) :: F) K
| smp_steal_none m F K thief victim m' :
    smp_run m F K → is_Some (LOCAL_SCHEDS m !! thief) → steal_from victim m = (None, m') → smp_run m' F K
| smp_end m F F' K cpu t : smp_run m F K → F ≡ₚ (cpu, t) :: F' → smp_run (schedule_end cpu t m) F' K
| smp_stop m F K K' cpu s t st :
    smp_run m F K → LOCAL_SCHEDS m !! cpu = Some s → current s = Some t → is_user t → st = Dead ∨ st = Blocked → K ≡ₚ tid t :: K' →
    smp_run (stop_current cpu s t st m) F K'
| smp_block m F K cpu id : smp_run m F K → smp_run (block_on_local cpu id m) F K
| smp_wake m F K id : smp_run m F K → smp_run (wake_on_any id m) F K.

Lemma smp_run_inv m F K : smp_run m F K → smp_inv m F K.
Proof.
  induction 1 as [n| |m F K target t _ Hi Hst Hd Hp Hr Hn| | |m F K thief victim t m' _ Hi Hth Hs|m F K thief victim m' _ Hi Hth Hs
    |m F F' K cpu t _ Hi HF|m F K K' cpu s t st _ Hi Hs Hc Hu Hst HK|m F K cpu id _ Hi|m F K id _ Hi].
  - split; simpl.
    + unfold all_tids. simpl. rewrite (sched_tids _ _ new_sched_inv). done.
    + intros c s Hc. by rewrite lookup_empty in Hc.
    + constructor.
    + exists [(0, 0)]. apply new_sched_inv.
    + apply NoDup_singleton.
    + constructor; [lia|constructor].
  - by apply init_inv.
  - by apply spawn_to_inv.
  - by apply global_spawn.
  - by eapply begin_inv.
  - by apply (steal_from_inv m F K thief victim (Some t) m').
  - by apply (steal_from_inv m F K thief victim None m').
  - by apply (end_inv m F F').
  - by apply (stop_inv m F K K' cpu s t st).
  - destruct (sm_global _ _ _ Hi) as [Kg Hg]. apply (global_same m F K _ Kg Hi Hg). by apply block_task_inv.
  - destruct (sm_global _ _ _ Hi) as [Kg Hg]. apply (global_same m F K _ Kg Hi Hg). by apply wake_task_inv.
Qed.

(** The functions of the source are made of these steps. *)
Lemma spawn_on_run m F K cpu t :
  smp_run m F K → (state t = New ∨ live t = true) → idle_domain t = false → 0 ≤ priority t < 256 → 0 ≤ tid t < 2 ^ 63 → tid t ∉ K →
  smp_run (spawn_on cpu t m) F (tid t :: K).
Proof.
  intros. unfold spawn_on. destruct (cpu =? U32_MAX); [destruct (pick_least_loaded m)|]; by (apply smp_spawn || apply smp_spawn_global).
Qed.

Lemma steal_local m victim c : is_Some (LOCAL_SCHEDS m !! c) → is_Some (LOCAL_SCHEDS (steal_from victim m).2 !! c).
Proof.
  intros Hc. unfold steal_from. destruct (idx ← idx_for_cpu victim; s ← LOCAL_SCHEDS m !! idx; Some (idx, s)) as [[idx s]|]; [|done].
  destruct (steal_one s) as [r s']. cbn. rewrite lookup_insert_is_Some'. by right.
Qed.

Lemma victims_run victims m F K cpu :
  smp_run m F K → is_Some (LOCAL_SCHEDS m !! cpu) →
  smp_run (steal_victims victims m).2 (match (steal_victims victims m).1 with Some t => (cpu, t) :: F | None => F end) K.
Proof.
  revert m. induction victims as [|v victims IH]; intros m Hr Hc; [done|]. cbn [steal_victims].
  pose proof (steal_local m v cpu Hc) as Hc'. destruct (steal_from v m) as [[t|] m'] eqn:Hs; cbn in *.
  - by apply (smp_steal m F K cpu v t m').
  - apply IH; [|done]. by apply (smp_steal_none m F K cpu v m').
Qed.

Lemma schedule_local_run m F K cpu : smp_run m F K → smp_run (schedule_local cpu m).1 F K.
Proof.
  intros Hr. unfold schedule_local. destruct (schedule_begin cpu m) as [[m1 [[sw empty] idle]]|] eqn:Hb; [|done].
  assert (smp_run m1 F K) as Hr1 by (by apply (smp_begin m F K cpu m1 (sw, empty, idle))). destruct empty; [|done].
  assert (is_Some (LOCAL_SCHEDS m1 !! cpu)) as Hc1.
  { unfold schedule_begin, idx_for_cpu in Hb. destruct (cpu <? MAX_CPUS); [|done]. cbn [mbind option_bind] in Hb.
    destruct (LOCAL_SCHEDS m !! cpu) as [s|] eqn:Hs; [|done]. cbn [mbind option_bind] in Hb. destruct (local_tick s) as [s' b].
    injection Hb as <- _ _ _. cbn. by rewrite lookup_insert_eq. }
  unfold try_steal. destruct (cpu_count m1 <=? 1); [done|].
  pose proof (victims_run ((λ offset, wrap32 (cpu + offset) `mod` cpu_count m1) <$> seqZ 1 (cpu_count m1 - 1)) m1 F K cpu Hr1 Hc1) as Hv.
  destruct (steal_victims _ m1) as [[t|] m2]; cbn in *; [|done]. by apply (smp_end m2 ((cpu, t) :: F)).
Qed.

(** A processor with nothing ready has nothing to steal. *)
Lemma idle_not_stolen s n :
  local_ok s → current s = Some n → ready_count s = 0 → is_running_idle s = true → user_tids s = [] ∧ steal_one s = (None, s).
Proof.
  intros Hs Hc Hz Hid. unfold ready_count in Hz. rewrite (lo_len _ Hs) in Hz.
  assert (concat (ready s) = []) as Hr by (apply nil_length_inv; lia).
  assert (user_tids s = []) as Hu.
  { unfold user_tids. rewrite Hc, Hr. unfold is_running_idle in Hid. rewrite Hc in Hid.
    change (current_list (Some n) ++ []) with [n]. rewrite filter_cons_False; [done|]. intros [Hp _]. apply Hp. by apply Z.eqb_eq. }
  split; [done|]. pose proof (steal_ok s Hs) as Hst. destruct (steal_one s) as [[t|] s']; [|by rewrite Hst].
  destruct Hst as (_ & Hp & _). rewrite Hu in Hp. by apply Permutation_nil_cons in Hp.
Qed.

Lemma victims_keep victims m c s :
  LOCAL_SCHEDS m !! c = Some s → steal_one s = (None, s) → LOCAL_SCHEDS (steal_victims victims m).2 !! c = Some s.
Proof.
  intros Hs Hst. revert m Hs. induction victims as [|v victims IH]; intros m Hs; [done|]. cbn [steal_victims].
  assert (LOCAL_SCHEDS (steal_from v m).2 !! c = Some s) as Hk.
  { unfold steal_from. destruct (idx_for_cpu v) as [idx|]; [|done]. cbn [mbind option_bind].
    destruct (LOCAL_SCHEDS m !! idx) as [s1|] eqn:Hi; [|done]. cbn [mbind option_bind].
    destruct (decide (idx = c)) as [->|Hne].
    - rewrite Hs in Hi. injection Hi as <-. rewrite Hst. cbn. by rewrite lookup_insert_eq.
    - destruct (steal_one s1). cbn. by rewrite lookup_insert_ne. }
  destruct (steal_from v m) as [[t|] m']; [done|]. by apply IH.
Qed.

(** What a processor runs when [schedule_local] asks for a switch. *)
Lemma schedule_switch m F K c s m' :
  smp_run m F K → LOCAL_SCHEDS m !! c = Some s → schedule_local c m = (m', true) →
  ∃ s' n, LOCAL_SCHEDS m' !! c = Some s' ∧ current s' = Some n ∧
    ((live n = true ∧ ∀ u, u ∈ concat (ready s') → priority u ≤ priority n) ∨
     (is_running_idle s' = true ∧ ∃ x, user_tids s' = [x])).
Proof.
  intros Hr Hs. pose proof (smp_run_inv _ _ _ Hr) as Hi. destruct (sm_local _ _ _ Hi c s Hs) as [Hok Hidx].
  destruct (tick_ok s Hok (ready_bound m F K c s Hi Hs)) as (s1 & sw & n & Ht & Hok1 & _ & Hc & Hsw & Hidle).
  assert (schedule_begin c m = Some (set_local c s1 m, (sw, ready_count s1 =? 0, is_running_idle s1))) as Hb.
  { unfold schedule_begin. rewrite Hidx. cbn [mbind option_bind]. rewrite Hs. cbn [mbind option_bind]. by rewrite Ht. }
  pose proof (smp_begin m F K c _ _ Hr Hb) as Hr1. unfold schedule_local. rewrite Hb.
  set (m1 := set_local c s1 m) in *. assert (LOCAL_SCHEDS m1 !! c = Some s1) as Hs1 by (unfold m1; cbn; by rewrite lookup_insert_eq).
  destruct (Z.eqb_spec (ready_count s1) 0) as [Hz|_].
  2: { intros [= <- ->]. exists s1, n. split_and!; [done|done|left; by apply Hsw]. }
  specialize (Hidle Hz). destruct (idle_not_stolen s1 n Hok1 Hc Hz Hidle) as [Hu Hst]. unfold try_steal.
  destruct (cpu_count m1 <=? 1).
  { intros [= <- ->]. exists s1, n. split_and!; [done|done|left; by apply Hsw]. }
  set (vs := _ <$> _). pose proof (victims_keep vs m1 c s1 Hs1 Hst) as Hk. pose proof (victims_run vs m1 F K c Hr1 ltac:(by eexists)) as Hrv.
  destruct (steal_victims vs m1) as [[t|] m2]; cbn [fst snd] in *.
  2: { intros [= <- ->]. exists s1, n. split_and!; [done|done|left; by apply Hsw]. }
  rewrite Hidle. intros [= <-]. apply smp_run_inv in Hrv. pose proof (sm_flight _ _ _ Hrv) as Hfl.
  apply Forall_cons in Hfl as [(Hl & Hp & _) _]. cbn [fst snd] in *.
  destruct (spawn_local_ok t s1 Hok1 (or_intror Hl) ltac:(lia) ltac:(right; lia) (ready_bound m2 _ K c s1 Hrv Hk)) as [Hok2 Hu2].
  assert (current (local_spawn t s1) = current s1) as Hc2 by (unfold local_spawn; by destruct (state t)).
  exists (local_spawn t s1), n. unfold schedule_end. rewrite Hidx. cbn [mbind option_bind]. rewrite Hk. cbn [mbind option_bind].
  split_and!; [cbn; by rewrite lookup_insert_eq|by rewrite Hc2|right]. split.
  - unfold is_running_idle in *. by rewrite Hc2.
  - exists (tid t). rewrite Hu in Hu2. by apply Permutation_singleton_r in Hu2.
Qed.

(** C18: Work stealing between processors is safe. In any interleaving of ticks,
    thefts, spawns and of tasks that end or block: every other task is in exactly
    one place; the counter of ready tasks of a processor is exact; after a tick a
    processor has a task to run, and if the tick switched, one that no ready task
    exceeds in priority; it looks for work elsewhere only when it is idle; a thief
    takes a task of the lowest priority, but never an idle task. When
    [schedule_local] asks for a switch, the running task is one that no ready task
    exceeds, or it is still the idle task and the task just stolen waits. *)
Theorem smp_tasks_safe m F K :
  smp_run m F K →
  all_tids m F ≡ₚ K ∧ NoDup K ∧
  ∀ c s, LOCAL_SCHEDS m !! c = Some s →
    ready_count s = Z.of_nat (length (concat (ready s))) ∧
    (∃ s' sw n, local_tick s = (s', sw) ∧ current s' = Some n ∧
       (sw = true → live n = true ∧ ∀ u, u ∈ concat (ready s') → priority u ≤ priority n) ∧
       (ready_count s' = 0 → is_running_idle s' = true)) ∧
    match steal_one s with
    | (Some t, s') => 1 ≤ priority t ∧ ∀ u, u ∈ concat (ready s) → priority u = IDLE_PRIORITY ∨ priority t ≤ priority u
    | (None, s') => s' = s
    end ∧
    (∀ m', schedule_local c m = (m', true) →
       ∃ s' n, LOCAL_SCHEDS m' !! c = Some s' ∧ current s' = Some n ∧
         ((live n = true ∧ ∀ u, u ∈ concat (ready s') → priority u ≤ priority n) ∨
          (is_running_idle s' = true ∧ ∃ x, user_tids s' = [x]))).
Proof.
  intros Hr. pose proof (smp_run_inv _ _ _ Hr) as Hi. split; [apply Hi|]. split; [apply Hi|]. intros c s Hs.
  pose proof (proj1 (sm_local _ _ _ Hi c s Hs)) as Hok. split; [|split; [|split]].
  - apply Hok.
  - destruct (tick_ok s Hok (ready_bound m F K c s Hi Hs)) as (s' & sw & n & Ht & _ & _ & Hc & Hsw & Hidle). by exists s', sw, n.
  - pose proof (steal_ok s Hok) as Hst. destruct (steal_one s) as [[t|] s']; [|done]. destruct Hst as (_ & _ & _ & Hp & Hmin). split; [lia|done].
  - intros m' Hm'. by apply (schedule_switch m F K c s).
Qed.
End runs.

(** ** Examples *)

#[local] Instance ex_idle : IdleTasks := {
  idle_domain t := bool_decide (task_name t = "idle"%string);
  new_idle_for_cpu c := mkTask (100 + c) "idle" Ready 0 0 None None 0;
}.

#[local] Instance ex_idle_laws : IdleTasksLaws.
Proof. by split. Qed.

Definition two_cpus : Smp := init_local 1 (init_local 0 (mkSmp ∅ 2 Scheduler_new)).

Definition two_tasks : Smp := (schedule_local 0 (spawn_on 0 (ex_task 2 9) (spawn_on 0 (ex_task 1 5) two_cpus))).1.

Definition after_theft : Smp * bool := schedule_local 1 two_tasks.

(** An idle processor that steals is told to switch, but its running task is still
    the idle task; the stolen one waits for the end of the quantum. *)
Lemma switch_after_theft_to_idle :
  after_theft.2 = true ∧ smp_current_tid 1 after_theft.1 = Some 101 ∧
  ((λ s, tid <$> concat (ready s)) <$> LOCAL_SCHEDS after_theft.1 !! 1) = Some [1].
Proof. vm_compute. split_and!; reflexivity. Qed.

(** [block_on_local] reaches the global scheduler only: a task that a processor
    runs goes on. *)
Lemma block_on_local_ineffective :
  smp_current_tid 0 two_tasks = Some 2 ∧ LOCAL_SCHEDS (block_on_local 0 2 two_tasks) = LOCAL_SCHEDS two_tasks ∧
  blocked (GLOBAL_SCHEDULER (block_on_local 0 2 two_tasks)) = ∅.
Proof. vm_compute. split_and!; reflexivity. Qed.

Lemma ex_smp_run : smp_run after_theft.1 [] [2; 1; 0].
Proof.
  apply schedule_local_run, schedule_local_run.
  apply (spawn_on_run _ [] [1; 0] 0 (ex_task 2 9)); [|by left|reflexivity|simpl; lia|simpl; lia|simpl; set_solver].
  apply (spawn_on_run _ [] [0] 0 (ex_task 1 5)); [|by left|reflexivity|simpl; lia|simpl; lia|simpl; set_solver].
  do 2 apply smp_init. apply smp_boot.
Qed.

Lemma smp_tasks_safe_witness : all_tids after_theft.1 [] ≡ₚ [2; 1; 0] ∧ NoDup [2; 1; 0].
Proof. destruct (smp_tasks_safe _ _ _ ex_smp_run) as (Ht & Hn & _). exact (conj Ht Hn). Defined.
