(* ===== verification/Signal.v ===== *)
(** * Signals ([src/src/signal/mod.rs]).

    Pending signals of a task are bits of a word, and its handlers a map from
    signal numbers to addresses. A handler that would run in user space is an
    action of the result, as is the end of the current task: [exit_current] does
    not come back, since [notify_exit] waits for a lock that it holds. The source
    gives 31 to both [SIGUSR2] and [SIGSYS] and names the missing signals [SIGURG]
    and [SIGWINCH]; they are left out and both numbers are kept. *)

From Stdlib Require Import ZArith Lia Bool.
From stdpp Require Import base gmap sets strings numbers sorting list.
From S2P Require Import Prelude.

Local Open Scope Z_scope.
Local Open Scope rust_scope.

(** ** Data *)

Inductive Signal :=
| SIGHUP | SIGINT | SIGQUIT | SIGILL | SIGTRAP | SIGABRT | SIGFPE | SIGKILL
| SIGSEGV | SIGPIPE | SIGALRM | SIGTERM | SIGCHLD | SIGCONT | SIGSTOP | SIGTSTP
| SIGTTIN | SIGTTOU | SIGUSR1 | SIGUSR2 | SIGSYS.

#[export] Instance Signal_eq_dec : EqDecision Signal.
Proof. solve_decision. Defined.

Inductive DefaultAction :=
| Terminate
| Ignore
| Stop
| Continue.

Inductive SignalError :=
| InvalidSignal (n : Z)
| NonCatchable (sig : Signal)
| PendingOverflow (tid max : Z)
| InvalidHandler.

Record SignalConfig := mkSignalConfig {
  collect_metrics : bool;
  log_delivery : bool;
  log_handlers : bool;
  max_pending : Z;
  default_action_terminate : bool;
}.

Record SignalMetrics := mkSignalMetrics {
  signals_sent : Z;
  signals_delivered : Z;
  signals_ignored : Z;
  signals_terminated : Z;
  signals_stopped : Z;
  handler_calls : Z;
  handler_failures : Z;
  pending_overflow : Z;
}.

#[export] Instance eta_SignalMetrics : Settable SignalMetrics :=
  λ m, mkSignalMetrics (signals_sent m) (signals_delivered m) (signals_ignored m) (signals_terminated m)
         (signals_stopped m) (handler_calls m) (handler_failures m) (pending_overflow m).

(** The two maps of the module and the counters of the manager. *)
Record Signals := mkSignals {
  PENDING : gmap Z Z;
  HANDLERS : gmap Z (gmap Z Z);
  metrics : SignalMetrics;
}.

#[export] Instance eta_Signals : Settable Signals := λ s, mkSignals (PENDING s) (HANDLERS s) (metrics s).

(** What a delivery does for one signal. *)
Inductive Action :=
| CallHandler (sig : Signal) (addr : Z)
| IgnoreSignal (sig : Signal)
| StopTask (sig : Signal)
| ExitCurrent (code : Z).

(** A call that may end the current task in place of returning. *)
Inductive Outcome (A : Type) :=
| Returns (a : A)
| CurrentExits (code : Z).
Arguments Returns {A} a.
Arguments CurrentExits {A} code.

(** ** Signal numbers *)

Definition as_u8 (s : Signal) : Z :=
  match s with
  | SIGHUP => 1 | SIGINT => 2 | SIGQUIT => 3 | SIGILL => 4 | SIGTRAP => 5 | SIGABRT => 6
  | SIGFPE => 8 | SIGKILL => 9 | SIGSEGV => 11 | SIGPIPE => 13 | SIGALRM => 14 | SIGTERM => 15
  | SIGCHLD => 17 | SIGCONT => 18 | SIGSTOP => 19 | SIGTSTP => 20 | SIGTTIN => 21 | SIGTTOU => 22
  | SIGUSR1 => 30 | SIGUSR2 => 31 | SIGSYS => 31
  end.

Definition from_u8 (n : Z) : result Signal SignalError :=
  match n with
  | 1 => Ok SIGHUP | 2 => Ok SIGINT | 3 => Ok SIGQUIT | 4 => Ok SIGILL | 5 => Ok SIGTRAP | 6 => Ok SIGABRT
  | 8 => Ok SIGFPE | 9 => Ok SIGKILL | 11 => Ok SIGSEGV | 13 => Ok SIGPIPE | 14 => Ok SIGALRM | 15 => Ok SIGTERM
  | 17 => Ok SIGCHLD | 18 => Ok SIGCONT | 19 => Ok SIGSTOP | 20 => Ok SIGTSTP | 21 => Ok SIGTTIN | 22 => Ok SIGTTOU
  | 30 => Ok SIGUSR1 | 31 => Ok SIGUSR2
  | _ => Err (InvalidSignal n)
  end.

Definition bit (s : Signal) : Z := wrap32 (Z.shiftl 1 (as_u8 s `mod` 32)).

Definition is_catchable (s : Signal) : bool := match s with SIGKILL | SIGSTOP => false | _ => true end.

Definition default_action (s : Signal) : DefaultAction :=
  match s with
  | SIGCHLD | SIGCONT => Ignore
  | SIGSTOP | SIGTSTP | SIGTTIN | SIGTTOU => Stop
  | _ => Terminate
  end.

(** ** Configuration and counters *)

Definition SignalConfig_default : SignalConfig := mkSignalConfig true true false 32 true.

Definition SignalConfig_validate (c : SignalConfig) : result unit string := Ok tt.

Definition SignalMetrics_default : SignalMetrics := mkSignalMetrics 0 0 0 0 0 0 0 0.

Definition inc_sent (m : SignalMetrics) : SignalMetrics := m <| signals_sent := add64 (signals_sent m) 1 |>.
Definition inc_delivered (m : SignalMetrics) : SignalMetrics := m <| signals_delivered := add64 (signals_delivered m) 1 |>.
Definition inc_ignored (m : SignalMetrics) : SignalMetrics := m <| signals_ignored := add64 (signals_ignored m) 1 |>.
Definition inc_terminated (m : SignalMetrics) : SignalMetrics := m <| signals_terminated := add64 (signals_terminated m) 1 |>.
Definition inc_stopped (m : SignalMetrics) : SignalMetrics := m <| signals_stopped := add64 (signals_stopped m) 1 |>.
Definition inc_handler_call (m : SignalMetrics) : SignalMetrics := m <| handler_calls := add64 (handler_calls m) 1 |>.
Definition inc_pending_overflow (m : SignalMetrics) : SignalMetrics := m <| pending_overflow := add64 (pending_overflow m) 1 |>.

Definition count (f : SignalMetrics → SignalMetrics) (s : Signals) : Signals := s <| metrics := f (metrics s) |>.

(** ** Pending signals *)

(** The positions of the bits of a word, in order. *)
Definition bits_of (mask : Z) : list Z := filter (λ n, Z.testbit mask n = true) (seqZ 0 32).

Definition count_ones (mask : Z) : Z := Z.of_nat (length (bits_of mask)).

Definition get_pending (tid : Z) (s : Signals) : Z := default 0 (PENDING s !! tid).

Definition add_pending (tid : Z) (sig : Signal) (config : SignalConfig) (s : Signals) : Signals * result unit SignalError :=
  let entry := get_pending tid s in
  if (0 <? max_pending config) && (wrap32 (max_pending config) <=? count_ones entry) then
    (count inc_pending_overflow (s <| PENDING := <[tid := entry]> (PENDING s) |>), Err (PendingOverflow tid (max_pending config)))
  else (count inc_sent (s <| PENDING := <[tid := Z.lor entry (bit sig)]> (PENDING s) |>), Ok tt).

Definition take_pending (tid : Z) (s : Signals) : Signals * Z :=
  (s <| PENDING := alter (λ _, 0) tid (PENDING s) |>, get_pending tid s).

Definition pending_clear (tid : Z) (s : Signals) : Signals := s <| PENDING := delete tid (PENDING s) |>.

Definition has_pending (tid : Z) (s : Signals) : bool := negb (get_pending tid s =? 0).

(** ** Handlers *)

Definition set_handler (tid : Z) (sig : Signal) (handler_addr : Z) (s : Signals) : Signals * result unit SignalError :=
  if negb (is_catchable sig) then (s, Err (NonCatchable sig))
  else if handler_addr =? 0 then (s, Err InvalidHandler)
  else (s <| HANDLERS := <[tid := <[as_u8 sig := handler_addr]> (default ∅ (HANDLERS s !! tid))]> (HANDLERS s) |>, Ok tt).

Definition get_handler (tid : Z) (sig : Signal) (s : Signals) : Z :=
  default 0 (h ← HANDLERS s !! tid; h !! as_u8 sig).

Definition handlers_clear (tid : Z) (s : Signals) : Signals := s <| HANDLERS := delete tid (HANDLERS s) |>.

(** ** Delivery and the manager *)

(** One turn of the loop of [deliver_pending]; [None] for [continue] with no action. *)
Definition deliver_bit (tid mask b : Z) (s : Signals) : Signals * option Action :=
  if Z.land mask (Z.shiftl 1 b) =? 0 then (s, None) else
  match from_u8 b with
  | Err _ => (s, None)
  | Ok sig =>
    if negb (is_catchable sig) then (s, None) else
    let handler := get_handler tid sig s in
    if negb (handler =? 0) then (count inc_delivered (count inc_handler_call s), Some (CallHandler sig handler)) else
    match default_action sig with
    | Ignore => (count inc_ignored s, Some (IgnoreSignal sig))
    | Terminate => (count inc_terminated s, Some (ExitCurrent (128 + as_u8 sig)))
    | Stop => (count inc_stopped s, Some (StopTask sig))
    | Continue => (s, None)
    end
  end.

Fixpoint deliver_loop (tid mask : Z) (bs : list Z) (s : Signals) : Signals * list Action :=
  match bs with
  | [] => (s, [])
  | b :: bs =>
    match deliver_bit tid mask b s with
    | (s, Some (ExitCurrent code)) => (s, [ExitCurrent code])
    | (s, r) => let '(s, acts) := deliver_loop tid mask bs s in (s, option_list r ++ acts)
    end
  end.

Definition deliver_pending (tid : Z) (s : Signals) : Signals * list Action :=
  let '(s, pending_mask) := take_pending tid s in
  if pending_mask =? 0 then (s, []) else deliver_loop tid pending_mask (seqZ 0 32) s.

(** [SignalManager::send]; the current task need not be [tid]. *)
Definition SignalManager_send (tid : Z) (sig : Signal) (config : SignalConfig) (s : Signals) : Signals * Outcome (result unit SignalError) :=
  if negb (is_catchable sig) then
    if bool_decide (sig = SIGKILL) then (s, CurrentExits (128 + as_u8 sig)) else (s, Returns (Ok tt))
  else let '(s, r) := add_pending tid sig config s in (s, Returns (let? _ := r in Ok tt)).

Definition SignalManager_clear (tid : Z) (s : Signals) : Signals := handlers_clear tid (pending_clear tid s).

(** ** The global functions, on a manager with the default configuration *)

Definition send (tid : Z) (sig : Signal) (s : Signals) : Signals * Outcome unit :=
  let '(s, o) := SignalManager_send tid sig SignalConfig_default s in
  (s, match o with Returns _ => Returns tt | CurrentExits code => CurrentExits code end).

Definition set_handler_number (tid sig handler_addr : Z) (s : Signals) : Signals :=
  match from_u8 sig with
  | Ok signal => (set_handler tid signal handler_addr s).1
  | Err _ => s
  end.

Definition clear (tid : Z) (s : Signals) : Signals := SignalManager_clear tid s.

(** ** Commands and what they should do *)

Inductive SigCmd :=
| CmdSend (tid : Z) (sig : Signal)
| CmdHandler (tid : Z) (sig : Signal) (addr : Z)
| CmdDeliver (tid : Z)
| CmdHas (tid : Z)
| CmdClear (tid : Z).

Inductive SigOut :=
| OutSend (o : Outcome (result unit SignalError))
| OutHandler (r : result unit SignalError)
| OutActions (l : list Action)
| OutHas (b : bool)
| OutClear.

Definition sig_cmd (config : SignalConfig) (c : SigCmd) (s : Signals) : Signals * SigOut :=
  match c with
  | CmdSend tid sig => let '(s, o) := SignalManager_send tid sig config s in (s, OutSend o)
  | CmdHandler tid sig addr => let '(s, r) := set_handler tid sig addr s in (s, OutHandler r)
  | CmdDeliver tid => let '(s, l) := deliver_pending tid s in (s, OutActions l)
  | CmdHas tid => (s, OutHas (has_pending tid s))
  | CmdClear tid => (SignalManager_clear tid s, OutClear)
  end.

Fixpoint sig_run (config : SignalConfig) (cs : list SigCmd) (s : Signals) : Signals * list SigOut :=
  match cs with
  | [] => (s, [])
  | c :: cs => let '(s, o) := sig_cmd config c s in let '(s, os) := sig_run config cs s in (s, o :: os)
  end.

(** The specification: each task has a set of pending signal numbers and a
    partial map from signal numbers to handlers. *)
Record SigSpec := mkSigSpec {
  sp_pending : Z → gset Z;
  sp_handler : Z → gmap Z Z;
}.

Definition on_task {A} (tid : Z) (a : A) (f : Z → A) : Z → A := λ t, if decide (t = tid) then a else f t.

(** The reaction to a pending number; [None] when there is none. *)
Definition reaction (h : gmap Z Z) (n : Z) : option Action :=
  match from_u8 n with
  | Err _ => None
  | Ok sig =>
    match h !! n, default_action sig with
    | Some addr, _ => Some (CallHandler sig addr)
    | None, Ignore => Some (IgnoreSignal sig)
    | None, Terminate => Some (ExitCurrent (128 + n))
    | None, Stop => Some (StopTask sig)
    | None, Continue => None
    end
  end.

(** The reactions up to the first that ends the task. *)
Fixpoint until_exit (l : list Action) : list Action :=
  match l with
  | [] => []
  | ExitCurrent code :: _ => [ExitCurrent code]
  | a :: l => a :: until_exit l
  end.

Definition spec_deliver (h : gmap Z Z) (P : gset Z) : list Action :=
  until_exit (omap (reaction h) (merge_sort Z.le (elements P))).

Definition spec_cmd (config : SignalConfig) (c : SigCmd) (a : SigSpec) : SigSpec * SigOut :=
  match c with
  | CmdSend tid SIGKILL => (a, OutSend (CurrentExits 137))
  | CmdSend tid SIGSTOP => (a, OutSend (Returns (Ok tt)))
  | CmdSend tid sig =>
    if decide (0 < max_pending config ≤ Z.of_nat (size (sp_pending a tid))) then (a, OutSend (Returns (Err (PendingOverflow tid (max_pending config)))))
    else (mkSigSpec (on_task tid ({[as_u8 sig]} ∪ sp_pending a tid) (sp_pending a)) (sp_handler a), OutSend (Returns (Ok tt)))
  | CmdHandler tid sig addr =>
    if negb (is_catchable sig) then (a, OutHandler (Err (NonCatchable sig)))
    else if addr =? 0 then (a, OutHandler (Err InvalidHandler))
    else (mkSigSpec (sp_pending a) (on_task tid (<[as_u8 sig := addr]> (sp_handler a tid)) (sp_handler a)), OutHandler (Ok tt))
  | CmdDeliver tid => (mkSigSpec (on_task tid ∅ (sp_pending a)) (sp_handler a), OutActions (spec_deliver (sp_handler a tid) (sp_pending a tid)))
  | CmdHas tid => (a, OutHas (bool_decide (sp_pending a tid ≠ ∅)))
  | CmdClear tid => (mkSigSpec (on_task tid ∅ (sp_pending a)) (on_task tid ∅ (sp_handler a)), OutClear)
  end.

Fixpoint spec_run (config : SignalConfig) (cs : list SigCmd) (a : SigSpec) : SigSpec * list SigOut :=
  match cs with
  | [] => (a, [])
  | c :: cs => let '(a, o) := spec_cmd config c a in let '(a, os) := spec_run config cs a in (a, o :: os)
  end.

(** ** The bits of a mask *)

Lemma elem_of_bits_of mask n : n ∈ bits_of mask ↔ Z.testbit mask n = true ∧ 0 ≤ n < 32.
Proof. unfold bits_of. rewrite list_elem_of_filter, elem_of_seqZ. naive_solver lia. Qed.

Lemma seqZ_sorted m n : StronglySorted Z.le (seqZ m n).
Proof.
  destruct (Z.le_gt_cases 0 n) as [Hn|Hn]; [|rewrite seqZ_nil by lia; constructor].
  revert m. pattern n. apply natlike_ind; [| |done]; clear n Hn.
  - intros m. rewrite seqZ_nil by lia. constructor.
  - intros n Hn IH m. rewrite seqZ_cons by lia. constructor; [replace (Z.pred (Z.succ n)) with n by lia; apply IH|].
    apply Forall_forall. intros x. rewrite elem_of_seqZ. lia.
Qed.

Lemma StronglySorted_filter {A} (R : relation A) (P : A → Prop) `{!∀ x, Decision (P x)} l : StronglySorted R l → StronglySorted R (filter P l).
Proof.
  induction 1 as [|x l Hs IH Hx]; [constructor|]. rewrite filter_cons. case_decide; [|done].
  constructor; [done|]. rewrite Forall_forall in Hx |- *. intros y [_ Hy]%list_elem_of_filter. by apply Hx.
Qed.

Lemma bits_of_nodup mask : NoDup (bits_of mask).
Proof. apply NoDup_filter, NoDup_seqZ. Qed.

Lemma bits_of_sorted mask : merge_sort Z.le (elements (list_to_set (C := gset Z) (bits_of mask))) = bits_of mask.
Proof.
  apply (StronglySorted_unique Z.le).
  - apply (StronglySorted_merge_sort _).
  - apply StronglySorted_filter, seqZ_sorted.
  - rewrite merge_sort_Permutation. apply elements_list_to_set, bits_of_nodup.
Qed.

Lemma count_ones_size mask : count_ones mask = Z.of_nat (size (list_to_set (C := gset Z) (bits_of mask))).
Proof. unfold count_ones. by rewrite size_list_to_set by apply bits_of_nodup. Qed.

Lemma bit_shift sig : bit sig = Z.shiftl 1 (as_u8 sig) ∧ 0 ≤ as_u8 sig < 32.
Proof. by destruct sig; vm_compute. Qed.

Lemma bits_of_lor mask sig :
  list_to_set (C := gset Z) (bits_of (Z.lor mask (bit sig))) = {[as_u8 sig]} ∪ list_to_set (bits_of mask).
Proof.
  destruct (bit_shift sig) as [-> Hs]. apply set_eq. intros n.
  rewrite elem_of_union, elem_of_singleton, !elem_of_list_to_set, !elem_of_bits_of, Z.lor_spec.
  destruct (decide (n = as_u8 sig)) as [->|Hn].
  - rewrite Z.shiftl_spec, Z.sub_diag by lia. rewrite orb_true_r. naive_solver.
  - rewrite Z.shiftl_1_l, Z.pow2_bits_false, orb_false_r by lia. naive_solver.
Qed.

Lemma bits_of_0 : bits_of 0 = [].
Proof. done. Qed.

Lemma mask_zero mask : 0 ≤ mask < 2 ^ 32 → mask = 0 ↔ bits_of mask = [].
Proof.
  intros Hm. split; [by intros ->|]. intros Hb. apply Z.bits_inj_0. intros n.
  destruct (decide (0 ≤ n < 32)) as [Hn|Hn].
  - destruct (Z.testbit mask n) eqn:Ht; [|done]. exfalso. apply (not_elem_of_nil n). rewrite <-Hb. by apply elem_of_bits_of.
  - destruct (decide (n < 0)); [by apply Z.testbit_neg_r|]. destruct (decide (mask = 0)) as [->|]; [apply Z.bits_0|].
    apply Z.bits_above_log2; [lia|]. apply Z.log2_lt_pow2; [lia|]. apply Z.lt_le_trans with (2 ^ 32); [lia|]. apply Z.pow_le_mono_r; lia.
Qed.

(** ** The refinement *)

Record sig_rep (s : Signals) (a : SigSpec) : Prop := {
  sr_pending tid : sp_pending a tid = list_to_set (bits_of (get_pending tid s));
  sr_range tid : 0 ≤ get_pending tid s < 2 ^ 32;
  sr_catchable tid n sig : Z.testbit (get_pending tid s) n = true → from_u8 n = Ok sig → is_catchable sig = true;
  sr_handler tid : sp_handler a tid = default ∅ (HANDLERS s !! tid);
  sr_nonzero tid n addr : sp_handler a tid !! n = Some addr → addr ≠ 0;
}.

Lemma from_u8_number n sig : from_u8 n = Ok sig → as_u8 sig = n.
Proof. unfold from_u8. intros H. repeat case_match; simplify_eq; done. Qed.

Lemma get_pending_count f tid s : get_pending tid (count f s) = get_pending tid s.
Proof. done. Qed.

(** Only pending bits matter. *)
Lemma deliver_loop_bits tid mask bs s :
  Forall (λ b, 0 ≤ b) bs → deliver_loop tid mask bs s = deliver_loop tid mask (filter (λ b, Z.testbit mask b = true) bs) s.
Proof.
  revert s. induction bs as [|b bs IH]; intros s Hb; [done|]. apply Forall_cons in Hb as [Hb Hbs]. rewrite filter_cons.
  case_decide as Ht; cbn [deliver_loop].
  - destruct (deliver_bit tid mask b s) as [s' [[]|]]; by try rewrite (IH s' Hbs).
  - unfold deliver_bit at 1. rewrite test_bit by done. destruct (Z.testbit mask b); [done|]. cbn. rewrite (IH s Hbs). by destruct deliver_loop.
Qed.

Lemma deliver_bit_reaction tid mask b s a :
  sig_rep s a → 0 ≤ b → Z.testbit mask b = true → (∀ sig, from_u8 b = Ok sig → is_catchable sig = true) →
  (deliver_bit tid mask b s).2 = reaction (sp_handler a tid) b ∧
  PENDING (deliver_bit tid mask b s).1 = PENDING s ∧ HANDLERS (deliver_bit tid mask b s).1 = HANDLERS s.
Proof.
  intros Hr Hb Ht Hc. unfold deliver_bit, reaction. rewrite test_bit, Ht by done. cbn.
  destruct (from_u8 b) as [sig|] eqn:Hs; [|done]. rewrite (Hc sig) by done. cbn.
  pose proof (from_u8_number _ _ Hs) as Hn. unfold get_handler. pose proof (sr_handler _ _ Hr tid) as Hh. pose proof (sr_nonzero _ _ Hr tid b) as Hz.
  rewrite Hn. destruct (HANDLERS s !! tid) as [h|] eqn:Hl; cbn in Hh |- *; rewrite Hh in Hz |- *.
  - destruct (h !! b) as [addr|] eqn:Ha; cbn.
    + destruct (addr =? 0) eqn:E; [apply Z.eqb_eq in E; by destruct (Hz addr)|done].
    + by destruct (default_action sig).
  - rewrite lookup_empty. cbn. by destruct (default_action sig).
Qed.

Lemma sig_rep_same s s' a : sig_rep s a → (∀ tid, get_pending tid s' = get_pending tid s) → HANDLERS s' = HANDLERS s → sig_rep s' a.
Proof. intros Hr Hp Hh. split; intros tid; rewrite ?Hp, ?Hh; apply Hr. Qed.

Lemma deliver_loop_spec tid mask bs s a :
  sig_rep s a → Forall (λ b, 0 ≤ b ∧ Z.testbit mask b = true ∧ ∀ sig, from_u8 b = Ok sig → is_catchable sig = true) bs →
  (deliver_loop tid mask bs s).2 = until_exit (omap (reaction (sp_handler a tid)) bs) ∧ sig_rep (deliver_loop tid mask bs s).1 a.
Proof.
  revert s. induction bs as [|b bs IH]; intros s Hr Hb; [done|]. apply Forall_cons in Hb as [(Hb & Ht & Hc) Hbs].
  destruct (deliver_bit_reaction tid mask b s a Hr Hb Ht Hc) as (Hra & Hp & Hh). cbn.
  destruct (deliver_bit tid mask b s) as [s' r]. cbn in Hra, Hp, Hh. rewrite <-Hra.
  assert (sig_rep s' a) as Hr' by (apply (sig_rep_same s); [done| |done]; intros t; unfold get_pending; by rewrite Hp). destruct (IH s' Hr' Hbs) as [H1 H2].
  destruct (deliver_loop tid mask bs s') as [s2 acts]. cbn in H1, H2.
  by destruct r as [[]|]; cbn; rewrite ?H1.
Qed.

Lemma take_pending_rep tid s a : sig_rep s a → sig_rep (take_pending tid s).1 (mkSigSpec (on_task tid ∅ (sp_pending a)) (sp_handler a)).
Proof.
  intros Hr. assert (∀ t, get_pending t (take_pending tid s).1 = if decide (t = tid) then 0 else get_pending t s) as Hg.
  { intros t. unfold get_pending. cbn. case_decide as Ht; [subst; rewrite lookup_alter_eq; by destruct (PENDING s !! tid)|by rewrite lookup_alter_ne]. }
  split; intros t; rewrite ?Hg; cbn; unfold on_task; try case_decide; try apply Hr; try done.
  intros n sig. by rewrite Z.bits_0.
Qed.

Lemma deliver_spec tid s a :
  sig_rep s a → (deliver_pending tid s).2 = spec_deliver (sp_handler a tid) (sp_pending a tid) ∧
  sig_rep (deliver_pending tid s).1 (mkSigSpec (on_task tid ∅ (sp_pending a)) (sp_handler a)).
Proof.
  intros Hr. pose proof (take_pending_rep tid s a Hr) as Ht. unfold deliver_pending.
  assert ((take_pending tid s).2 = get_pending tid s) as Hm by done. destruct (take_pending tid s) as [s' m]. cbn in Hm, Ht. subst m.
  unfold spec_deliver. rewrite (sr_pending _ _ Hr), bits_of_sorted. destruct (get_pending tid s =? 0) eqn:E.
  - apply Z.eqb_eq in E. rewrite E. done.
  - rewrite deliver_loop_bits by (apply Forall_forall; intros x; rewrite elem_of_seqZ; lia). fold (bits_of (get_pending tid s)).
    apply (deliver_loop_spec tid _ _ s' _ Ht). apply Forall_forall. intros b [Hb Hr1]%elem_of_bits_of. split; [lia|]. split; [done|].
    intros sig. by apply (sr_catchable _ _ Hr tid).
Qed.

Lemma send_rep tid sig s a :
  sig_rep s a → is_catchable sig = true →
  sig_rep (s <| PENDING := <[tid := Z.lor (get_pending tid s) (bit sig)]> (PENDING s) |>)
    (mkSigSpec (on_task tid ({[as_u8 sig]} ∪ sp_pending a tid) (sp_pending a)) (sp_handler a)).
Proof.
  intros Hr Hc. destruct (bit_shift sig) as [Hbit Hs]. set (s' := s <| PENDING := _ |>).
  assert (∀ t, get_pending t s' = if decide (t = tid) then Z.lor (get_pending tid s) (bit sig) else get_pending t s) as Hg.
  { intros t. unfold get_pending, s'. cbn. case_decide; [subst; by rewrite lookup_insert_eq|by rewrite lookup_insert_ne]. }
  split; intros t; rewrite ?Hg; cbn; unfold on_task; try apply Hr; (case_decide; [subst t|apply Hr]).
  - by rewrite bits_of_lor, (sr_pending _ _ Hr).
  - pose proof (sr_range _ _ Hr tid). rewrite Hbit, Z.shiftl_1_l. split; [apply Z.lor_nonneg; lia|].
    pose proof (Z.log2_lor (get_pending tid s) (2 ^ as_u8 sig) ltac:(lia) ltac:(lia)) as Hl. rewrite Z.log2_pow2 in Hl by lia.
    assert (Z.lor (get_pending tid s) (2 ^ as_u8 sig) ≠ 0) as Hz.
    { intros [_ Hp]%Z.lor_eq_0_iff. pose proof (Z.pow_pos_nonneg 2 (as_u8 sig)). lia. }
    assert (0 ≤ Z.lor (get_pending tid s) (2 ^ as_u8 sig)) by (apply Z.lor_nonneg; lia).
    apply Z.log2_lt_pow2; [lia|]. rewrite Hl. apply Z.max_lub_lt; [|lia].
    destruct (decide (get_pending tid s = 0)) as [->|]; [done|]. apply Z.log2_lt_pow2; lia.
  - intros n sig'. rewrite Z.lor_spec, Hbit, Z.shiftl_1_l, orb_true_iff. intros [Hn|Hn] Hf; [by apply (sr_catchable _ _ Hr tid n)|].
    destruct (decide (n = as_u8 sig)) as [->|]; [|by rewrite Z.pow2_bits_false in Hn by done].
    destruct sig; vm_compute in Hf; simplify_eq; done.
Qed.

Lemma sig_cmd_spec config c s a :
  0 ≤ max_pending config ≤ U32_MAX → sig_rep s a →
  (sig_cmd config c s).2 = (spec_cmd config c a).2 ∧ sig_rep (sig_cmd config c s).1 (spec_cmd config c a).1.
Proof.
  intros Hmax Hr. destruct c as [tid sig|tid sig addr|tid|tid|tid]; cbn [sig_cmd spec_cmd].
  - destruct (is_catchable sig) eqn:Hc; [|by destruct sig].
    assert (spec_cmd config (CmdSend tid sig) a = if decide (0 < max_pending config ≤ Z.of_nat (size (sp_pending a tid))) then (a, OutSend (Returns (Err (PendingOverflow tid (max_pending config)))))
      else (mkSigSpec (on_task tid ({[as_u8 sig]} ∪ sp_pending a tid) (sp_pending a)) (sp_handler a), OutSend (Returns (Ok tt)))) as Hs by by destruct sig.
    cbn [spec_cmd] in Hs. rewrite Hs. clear Hs. unfold SignalManager_send, add_pending. rewrite Hc, (sr_pending _ _ Hr), <-count_ones_size, wrap32_small by done. cbn.
    destruct ((0 <? max_pending config) && _) eqn:E; case_decide as Hd; try lia; cbn; (split; [done|]).
    + apply (sig_rep_same s); [done| |done]. intros t. unfold get_pending. cbn.
      destruct (decide (t = tid)) as [->|]; [by rewrite lookup_insert_eq|by rewrite lookup_insert_ne].
    + rewrite <-(sr_pending _ _ Hr). eapply sig_rep_same; [by apply send_rep|done|done].
  - unfold set_handler. destruct (is_catchable sig); [|done]. cbn. destruct (addr =? 0) eqn:Ha; [done|]. cbn. split; [done|].
    apply Z.eqb_neq in Ha. split; intros t; cbn; unfold on_task; try apply Hr.
    + rewrite <-(sr_handler _ _ Hr). case_decide; [subst; by rewrite lookup_insert_eq|rewrite lookup_insert_ne by done; apply Hr].
    + intros n addr'. case_decide; [|apply Hr]. rewrite lookup_insert_Some. intros [[_ <-]|[_ Hn]]; [done|by eapply Hr].
  - destruct (deliver_spec tid s a Hr) as [H1 H2]. destruct (deliver_pending tid s) as [s' l]. split; [exact (f_equal OutActions H1)|exact H2].
  - split; [|done]. unfold has_pending. rewrite (sr_pending _ _ Hr). pose proof (mask_zero _ (sr_range _ _ Hr tid)) as Hz.
    destruct (Z.eqb_spec (get_pending tid s) 0) as [E|E]; [by rewrite E|]. cbn. rewrite bool_decide_eq_true_2; [done|].
    intros Hl. destruct (bits_of (get_pending tid s)) as [|b l] eqn:Hb; [by apply E, Hz|]. cbn in Hl. set_solver.
  - split; [done|]. set (s' := SignalManager_clear tid s).
    assert (∀ t, get_pending t s' = if decide (t = tid) then 0 else get_pending t s) as Hg.
    { intros t. unfold get_pending, s'. cbn. case_decide; [subst; by rewrite lookup_delete_eq|by rewrite lookup_delete_ne]. }
    split; intros t; rewrite ?Hg; cbn; unfold on_task; (case_decide; [subst t|]); try apply Hr; try done.
    + intros n sig. by rewrite Z.bits_0.
    + by rewrite lookup_delete_eq.
    + rewrite lookup_delete_ne by done. apply Hr.
Qed.

Definition Signals_empty : Signals := mkSignals ∅ ∅ SignalMetrics_default.
Definition SigSpec_empty : SigSpec := mkSigSpec (λ _, ∅) (λ _, ∅).

(** C20: Signals are delivered once and in order. Whatever signals are sent, handled,
    delivered and cleared, a task has a set of pending signals and a map of handlers:
    a signal that can be caught is added to the set of its target, a delivery takes
    the whole set, in increasing numbers, each with its handler or its default action,
    up to the first that ends the task, and no signal is lost, repeated or seen by
    another task. *)
Theorem signals_refine config cmds :
  0 ≤ max_pending config ≤ U32_MAX →
  (sig_run config cmds Signals_empty).2 = (spec_run config cmds SigSpec_empty).2.
Proof.
  intros Hmax. assert (∀ s a, sig_rep s a → (sig_run config cmds s).2 = (spec_run config cmds a).2) as Hrun.
  { induction cmds as [|c cmds IH]; intros s a Hr; [done|]. destruct (sig_cmd_spec config c s a Hmax Hr) as [Ho Hr']. cbn.
    destruct (sig_cmd config c s) as [s' o], (spec_cmd config c a) as [a' o']. cbn in Ho, Hr'. specialize (IH s' a' Hr').
    destruct (sig_run config cmds s'), (spec_run config cmds a'). cbn in *. by rewrite Ho, IH. }
  apply Hrun. split; intros tid; unfold get_pending; cbn; rewrite ?lookup_empty; try done.
  intros n sig. by rewrite Z.bits_0.
Qed.

Lemma signals_refine_witness :
  (sig_run SignalConfig_default [CmdSend 1 SIGTERM; CmdSend 1 SIGCHLD; CmdHandler 1 SIGTERM 4096; CmdDeliver 1; CmdHas 1] Signals_empty).2 =
  [OutSend (Returns (Ok tt)); OutSend (Returns (Ok tt)); OutHandler (Ok tt);
   OutActions [CallHandler SIGTERM 4096; IgnoreSignal SIGCHLD]; OutHas false].
Proof.
  rewrite (signals_refine SignalConfig_default _ ltac:(vm_compute; split; discriminate)). vm_compute. reflexivity.
Defined.

(** ** Where the code departs from POSIX or from its own documentation *)

(** SIGKILL ends the sender, not the target. *)
Lemma sigkill_ends_sender tid config s : SignalManager_send tid SIGKILL config s = (s, CurrentExits 137).
Proof. done. Qed.

(** SIGSTOP has no effect, and a task that is to be stopped goes on. *)
Lemma sigstop_ignored tid config s : SignalManager_send tid SIGSTOP config s = (s, Returns (Ok tt)).
Proof. done. Qed.

(** A signal that is pending already is refused once the limit is reached. *)
Lemma pending_signal_refused :
  last (sig_run (mkSignalConfig true true false 1 true) [CmdSend 1 SIGTERM; CmdSend 1 SIGTERM] Signals_empty).2 =
  Some (OutSend (Returns (Err (PendingOverflow 1 1)))).
Proof. by vm_compute. Qed.

(** A limit of 2^32 is cut to zero, and no signal is accepted. *)
Lemma wide_limit_refuses_all :
  (sig_run (mkSignalConfig true true false (2 ^ 32) true) [CmdSend 1 SIGTERM] Signals_empty).2 =
  [OutSend (Returns (Err (PendingOverflow 1 (2 ^ 32))))].
Proof. by vm_compute. Qed.

(** SIGSYS is delivered as SIGUSR2. *)
Lemma sigsys_is_sigusr2 :
  last (sig_run SignalConfig_default [CmdSend 1 SIGSYS; CmdHandler 1 SIGUSR2 4096; CmdDeliver 1] Signals_empty).2 =
  Some (OutActions [CallHandler SIGUSR2 4096]).
Proof. by vm_compute. Qed.

(** Signals after one that ends the task are dropped, and handlers cannot be taken
    back: address 0 is refused. *)
Lemma handler_cannot_be_reset tid sig s : is_catchable sig = true → set_handler tid sig 0 s = (s, Err InvalidHandler).
Proof. intros Hc. unfold set_handler. by rewrite Hc. Qed.
