(* ===== verification/Process.v ===== *)
(** * Processes: fork, exec, exit and waitpid ([src/src/process/fork/mod.rs]).

    The registry, the index of children and the exit codes each have a lock, which
    a call takes and releases several times. A call is therefore a sequence of
    sections, each a definition, that other tasks can interleave with; the whole
    call is their composition. Descriptor tables are those of [FdTable] and signals
    those of [Signal]. Cloning of page tables is in [Paging]; here its result is an
    argument, as are the time, the file and the outcome of loading a program. Calls
    that reach the scheduler and other subsystems are recorded; [wake_one] and
    [Scheduler::remove] are not in the repository, so a blocked waitpid may wake at
    any time. [options.contains(WaitOptions::WNOHANG)] is read as [is_wnohang]. *)

From Stdlib Require Import ZArith Lia Bool.
From stdpp Require Import base gmap sets strings numbers list.
From S2P Require Import Prelude FdTable Signal.

Local Open Scope Z_scope.

(** ** Data *)

Definition MAX_PROCESSES : Z := 1024.

Inductive ProcessError :=
| OutOfMemory | ProcessNotFound | InvalidArgument | PermissionDenied | ResourceLimit
| Unsupported | Io | NoChildProcess | NotChild | Interrupted.

Inductive ProcessState :=
| Running
| Sleeping
| Stopped
| Zombie
| Dead.

Record Process := mkProcess {
  pid : Z;
  parent : Z;
  pgid : Z;
  sid : Z;
  state : ProcessState;
  exit_code : option Z;
  children : list Z;
  start_time_ms : Z;
  cpu_time_ms : Z;
  name : string;
}.

#[export] Instance eta_Process : Settable Process :=
  λ p, mkProcess (pid p) (parent p) (pgid p) (sid p) (state p) (exit_code p) (children p) (start_time_ms p) (cpu_time_ms p) (name p).

(** Calls into the scheduler and subsystems that are not part of this model. *)
Inductive Effect :=
| SpawnTask (tid cr3 parent : Z) (name : string)
| RemoveTask (tid : Z)
| WakeOne (tid : Z)
| CleanupMmap (tid : Z)
| UnregisterIpc (tid : Z).

Record Procs := mkProcs {
  PROCESS_REGISTRY : gmap Z Process;
  CHILDREN_INDEX : gmap Z (list Z);
  EXIT_STATUS : gmap Z Z;
  NEXT_PID : Z;
  fds : Tables;
  sigs : Signals;
  effects : list Effect;
}.

#[export] Instance eta_Procs : Settable Procs :=
  λ s, mkProcs (PROCESS_REGISTRY s) (CHILDREN_INDEX s) (EXIT_STATUS s) (NEXT_PID s) (fds s) (sigs s) (effects s).

Definition WaitOptions : Type := Z.
Definition WaitOptions_empty : WaitOptions := 0.
Definition wnohang (o : WaitOptions) : WaitOptions := Z.lor o 1.
Definition wuntraced (o : WaitOptions) : WaitOptions := Z.lor o 2.
Definition is_wnohang (o : WaitOptions) : bool := negb (Z.land o 1 =? 0).
Definition is_wuntraced (o : WaitOptions) : bool := negb (Z.land o 2 =? 0).

(** ** One process *)

Definition Process_new (pid parent : Z) (name : string) (now : Z) : Process :=
  mkProcess pid parent pid pid Running None [] now 0 name.

Definition is_zombie (p : Process) : bool := match state p with Zombie => true | _ => false end.
Definition is_running (p : Process) : bool := match state p with Running => true | _ => false end.
Definition terminate (code : Z) (p : Process) : Process := p <| state := Zombie |> <| exit_code := Some code |>.
Definition reap (p : Process) : Process := p <| state := Dead |> <| exit_code := None |>.

(** ** fork *)

Definition effect (e : Effect) (s : Procs) : Procs := s <| effects := effects s ++ [e] |>.

Definition next_pid (s : Procs) : Procs * Z := (s <| NEXT_PID := add64 (NEXT_PID s) 1 |>, NEXT_PID s).

(** Under the lock of the registry; [child_l4] is the result of cloning the page
    tables, and the result carries the name of the child with it. *)
Definition fork_register (parent_tid child_tid now : Z) (child_l4 : option Z) (s : Procs) : Procs * result (Z * string) ProcessError :=
  match PROCESS_REGISTRY s !! parent_tid with
  | None => (s, Err ProcessNotFound)
  | Some parent_process =>
    if MAX_PROCESSES <=? Z.of_nat (size (PROCESS_REGISTRY s)) then (s, Err ResourceLimit) else
    match child_l4 with
    | None => (s, Err OutOfMemory)
    | Some l4 =>
      let s := s <| fds := init_for child_tid (fds s) |> in
      let child_name := name parent_process +:+ " (child)" in
      let child_process := (Process_new child_tid parent_tid child_name now) <| pgid := pgid parent_process |> <| sid := sid parent_process |> in
      (s <| PROCESS_REGISTRY := <[child_tid := child_process]> (PROCESS_REGISTRY s) |>, Ok (l4, child_name))
    end
  end.

(** Under the lock of the index of children. *)
Definition fork_publish (parent_tid child_tid child_l4 : Z) (child_name : string) (s : Procs) : Procs :=
  let s := s <| CHILDREN_INDEX := <[parent_tid := default [] (CHILDREN_INDEX s !! parent_tid) ++ [child_tid]]> (CHILDREN_INDEX s) |> in
  effect (SpawnTask child_tid child_l4 parent_tid child_name) s.

Definition do_fork (parent_tid now : Z) (child_l4 : option Z) (s : Procs) : Procs * result Z ProcessError :=
  let '(s, child_tid) := next_pid s in
  match fork_register parent_tid child_tid now child_l4 s with
  | (s, Err e) => (s, Err e)
  | (s, Ok (l4, child_name)) => (fork_publish parent_tid child_tid l4 child_name s, Ok child_tid)
  end.

(** ** exec *)

(** [file] is what the file system has at [path], and [loaded] says whether
    [load_with_args] accepts it. *)
Definition do_execve (tid : Z) (path : string) (argv : list string) (file : option (list Z)) (loaded : list Z → bool) (now : Z)
    (s : Procs) : Procs * result unit ProcessError :=
  match file with
  | None => (s, Err Io)
  | Some elf_bytes =>
    if negb (loaded elf_bytes) then (s, Err InvalidArgument) else
    let s := s <| fds := init_for tid (remove_for tid (fds s)) |> in
    let s := s <| sigs := Signal.clear tid (sigs s) |> in
    let new_name := match argv with [] => path | a :: _ => a end in
    (s <| PROCESS_REGISTRY := alter (λ p, p <| name := new_name |> <| start_time_ms := now |>) tid (PROCESS_REGISTRY s) |>, Ok tt)
  end.

(** ** exit: the sections of [notify_exit] *)

Definition exit_mark (tid code : Z) (s : Procs) : Procs :=
  s <| PROCESS_REGISTRY := alter (terminate code) tid (PROCESS_REGISTRY s) |>.

Definition exit_store (tid code : Z) (s : Procs) : Procs := s <| EXIT_STATUS := <[tid := code]> (EXIT_STATUS s) |>.

Definition get_parent (tid : Z) (s : Procs) : option Z := parent <$> PROCESS_REGISTRY s !! tid.

Definition exit_wake (parent_pid : option Z) (s : Procs) : Procs :=
  match parent_pid with
  | Some parent_pid => effect (WakeOne parent_pid) (s <| sigs := (Signal.send parent_pid SIGCHLD (sigs s)).1 |>)
  | None => s
  end.

Definition exit_cleanup (tid : Z) (s : Procs) : Procs :=
  effect (RemoveTask tid) (s <| fds := remove_for tid (fds s) |> <| sigs := Signal.clear tid (sigs s) |>).

Definition notify_exit (tid code : Z) (s : Procs) : Procs :=
  let s := exit_store tid code (exit_mark tid code s) in
  exit_cleanup tid (exit_wake (get_parent tid s) s).

(** [do_exit] never returns; this is what it leaves. *)
Definition do_exit (tid code : Z) (s : Procs) : Procs := effect (RemoveTask tid) (notify_exit tid code s).

(** ** waitpid *)

Definition get_children (tid : Z) (s : Procs) : list Z := default [] (CHILDREN_INDEX s !! tid).

Definition wait_begin (parent_tid : Z) (s : Procs) : result (list Z) ProcessError :=
  match get_children parent_tid s with
  | [] => Err NoChildProcess
  | l => Ok l
  end.

(** The first zombie among the children that are waited for; target 0 is any. *)
Definition find_zombie (target : Z) (l : list Z) (s : Procs) : option Z :=
  List.find (λ c, ((target =? 0) || (c =? target)) && default false (is_zombie <$> PROCESS_REGISTRY s !! c)) l.

Inductive WaitStep :=
| Found (pid code : Z)
| WouldBlock
| Fails (e : ProcessError).

(** One turn of the loop, under the lock of the registry. *)
Definition wait_check (target : Z) (options : WaitOptions) (l : list Z) (s : Procs) : Procs * WaitStep :=
  match find_zombie target l s with
  | Some pid => (s <| EXIT_STATUS := delete pid (EXIT_STATUS s) |>, Found pid (default 0 (EXIT_STATUS s !! pid)))
  | None => (s, if is_wnohang options then Fails NoChildProcess else WouldBlock)
  end.

Definition wait_unlink (parent_tid pid : Z) (s : Procs) : Procs :=
  s <| CHILDREN_INDEX := alter (filter (λ p, p ≠ pid)) parent_tid (CHILDREN_INDEX s) |>.

Definition reap_zombie (tid : Z) (s : Procs) : Procs :=
  effect (UnregisterIpc tid) (effect (CleanupMmap tid) (s <| PROCESS_REGISTRY := delete tid (PROCESS_REGISTRY s) |>)).

(** The call up to the point where it blocks; [None] when it does. *)
Definition do_waitpid (parent_tid : Z) (child_tid : option Z) (options : WaitOptions) (s : Procs) : Procs * option (result (Z * Z) ProcessError) :=
  match wait_begin parent_tid s with
  | Err e => (s, Some (Err e))
  | Ok l =>
    match wait_check (default 0 child_tid) options l s with
    | (s, Found pid code) => (reap_zombie pid (wait_unlink parent_tid pid s), Some (Ok (pid, code)))
    | (s, Fails e) => (s, Some (Err e))
    | (s, WouldBlock) => (s, None)
    end
  end.

(** ** Helpers *)

Definition get_process (tid : Z) (s : Procs) : option Process := PROCESS_REGISTRY s !! tid.
Definition get_process_name (tid : Z) (s : Procs) : option string := name <$> PROCESS_REGISTRY s !! tid.
Definition set_process_name (tid : Z) (n : string) (s : Procs) : Procs :=
  s <| PROCESS_REGISTRY := alter (λ p, p <| name := n |>) tid (PROCESS_REGISTRY s) |>.

Definition Procs_empty : Procs := mkProcs ∅ ∅ ∅ 100 Tables_empty Signals_empty [].

Definition init (now : Z) (s : Procs) : Procs :=
  s <| PROCESS_REGISTRY := <[1 := Process_new 1 1 "init" now]> (PROCESS_REGISTRY s) |>.

(** ** Interleaved tasks *)

(** Where a task is between two sections of a call. *)
Inductive Pc :=
| AtUser
| ForkPid (child : Z)
| ForkRegistered (child l4 : Z) (child_name : string)
| ExitMarked (code : Z)
| ExitStored
| ExitParent (parent_pid : option Z)
| ExitWoken
| Gone
| Waiting (target : Z) (options : WaitOptions) (l : list Z)
| Asleep (target : Z) (options : WaitOptions) (l : list Z)
| WaitFound (pid code : Z)
| WaitUnlinked (pid code : Z).

Inductive Event :=
| Forked (p c : Z)
| Exited (c code : Z)
| Stored (c : Z)
| Taken (p c code : Z).

#[export] Instance Event_eq_dec : EqDecision Event.
Proof. solve_decision. Defined.

(** One section of task [t]: the state and the position before and after, what is
    noted of it, and the task it starts. *)
Inductive sect (t : Z) : Procs → Pc → Procs → Pc → list Event → option Z → Prop :=
| sect_pid s s' c : NEXT_PID s < U64_MAX → next_pid s = (s', c) → sect t s AtUser s' (ForkPid c) [] None
| sect_register s s' c now l4 r n : fork_register t c now l4 s = (s', Ok (r, n)) → sect t s (ForkPid c) s' (ForkRegistered c r n) [Forked t c] None
| sect_refused s s' c now l4 e : fork_register t c now l4 s = (s', Err e) → sect t s (ForkPid c) s' AtUser [] None
| sect_publish s c l4 n : sect t s (ForkRegistered c l4 n) (fork_publish t c l4 n s) AtUser [] (Some c)
| sect_exec s s' path argv file loaded now r : do_execve t path argv file loaded now s = (s', r) → sect t s AtUser s' AtUser [] None
| sect_rename s tid n : sect t s AtUser (set_process_name tid n s) AtUser [] None
| sect_mark s code : sect t s AtUser (exit_mark t code s) (ExitMarked code) [Exited t code] None
| sect_store s code : sect t s (ExitMarked code) (exit_store t code s) ExitStored [Stored t] None
| sect_parent s : sect t s ExitStored s (ExitParent (get_parent t s)) [] None
| sect_wake s po : sect t s (ExitParent po) (exit_wake po s) ExitWoken [] None
| sect_cleanup s : sect t s ExitWoken (exit_cleanup t s) Gone [] None
| sect_wait s target o l : wait_begin t s = Ok l → sect t s AtUser s (Waiting target o l) [] None
| sect_found s s' target o l c code : wait_check target o l s = (s', Found c code) → sect t s (Waiting target o l) s' (WaitFound c code) [Taken t c code] None
| sect_fails s s' target o l e : wait_check target o l s = (s', Fails e) → sect t s (Waiting target o l) s' AtUser [] None
| sect_sleep s s' target o l : wait_check target o l s = (s', WouldBlock) → sect t s (Waiting target o l) s' (Asleep target o l) [] None
| sect_awake s target o l : sect t s (Asleep target o l) s (Waiting target o l) [] None
| sect_unlink s c code : sect t s (WaitFound c code) (wait_unlink t c s) (WaitUnlinked c code) [] None
| sect_reap s c code : sect t s (WaitUnlinked c code) (reap_zombie c s) AtUser [] None.

Record Sys := mkSys {
  procs : Procs;
  pcs : gmap Z Pc;
  hist : list Event;
}.

Definition advance (t : Z) (pc : Pc) (born : option Z) (m : gmap Z Pc) : gmap Z Pc :=
  <[t := pc]> (match born with Some c => <[c := AtUser]> m | None => m end).

(** Reachable systems. The newest event comes first. *)
Inductive proc_run : Sys → Prop :=
| run_boot now : proc_run (mkSys (init now Procs_empty) {[1 := AtUser]} [])
| run_step y t pc s' pc' evs born :
    proc_run y → pcs y !! t = Some pc → sect t (procs y) pc s' pc' evs born →
    proc_run (mkSys s' (advance t pc' born (pcs y)) (evs ++ hist y)).

(** ** The life of a child *)

(** What the parent is doing to the child. *)
Inductive Role :=
| RNone
| RForking
| RFound
| RUnlinked.

Definition prole (pc : option Pc) (c : Z) : Role :=
  match pc with
  | Some (ForkRegistered c' _ _) => if decide (c' = c) then RForking else RNone
  | Some (WaitFound c' _) => if decide (c' = c) then RFound else RNone
  | Some (WaitUnlinked c' _) => if decide (c' = c) then RUnlinked else RNone
  | _ => RNone
  end.

Inductive Life :=
| Unborn
| Active
| Exiting.

Definition life (pc : option Pc) : Life :=
  match pc with
  | None => Unborn
  | Some (ExitMarked _ | ExitStored | ExitParent _ | ExitWoken | Gone) => Exiting
  | Some _ => Active
  end.

(** Whether a registered process is a zombie. *)
Definition zreg (c : Z) (s : Procs) : option bool := is_zombie <$> PROCESS_REGISTRY s !! c.

Inductive phase : Role → Life → option bool → bool → Prop :=
| ph_new : phase RForking Unborn (Some false) false
| ph_live : phase RNone Active (Some false) true
| ph_zombie : phase RNone Exiting (Some true) true
| ph_found : phase RFound Exiting (Some true) true
| ph_unlinked : phase RUnlinked Exiting (Some true) false
| ph_gone : phase RNone Exiting None false.

Definition child_phase (y : Sys) (p c : Z) : Prop :=
  phase (prole (pcs y !! p) c) (life (pcs y !! c)) (zreg c (procs y)) (bool_decide (c ∈ get_children p (procs y))).

(** Pids are never used twice. *)
Record pids_ok (y : Sys) : Prop := {
  pi_next : 100 ≤ NEXT_PID (procs y) ≤ U64_MAX;
  pi_forked p c : Forked p c ∈ hist y → 100 ≤ c < NEXT_PID (procs y);
  pi_parent p c : Forked p c ∈ hist y → p ≠ c ∧ is_Some (pcs y !! p);
  pi_once p p' c : Forked p c ∈ hist y → Forked p' c ∈ hist y → p = p';
  pi_fresh t c : pcs y !! t = Some (ForkPid c) → 100 ≤ c < NEXT_PID (procs y) ∧ ∀ p, Forked p c ∉ hist y;
  pi_own t t' c : pcs y !! t = Some (ForkPid c) → pcs y !! t' = Some (ForkPid c) → t = t';
  pi_forking p c l4 n : pcs y !! p = Some (ForkRegistered c l4 n) → Forked p c ∈ hist y;
  pi_task t : is_Some (pcs y !! t) → t = 1 ∨ ∃ p, Forked p t ∈ hist y;
}.

Record table_ok (y : Sys) : Prop := {
  ta_phase p c : Forked p c ∈ hist y → child_phase y p c;
  ta_index p c : c ∈ get_children p (procs y) → Forked p c ∈ hist y;
  ta_wait p target o l : pcs y !! p = Some (Waiting target o l) ∨ pcs y !! p = Some (Asleep target o l) → l = get_children p (procs y);
  ta_reaping p c code : pcs y !! p = Some (WaitFound c code) ∨ pcs y !! p = Some (WaitUnlinked c code) → Forked p c ∈ hist y;
  ta_size : Z.of_nat (size (PROCESS_REGISTRY (procs y))) ≤ MAX_PROCESSES;
}.

(** ** Pids *)

Lemma next_pid_eq s s' c : NEXT_PID s < U64_MAX → 0 ≤ NEXT_PID s → next_pid s = (s', c) → c = NEXT_PID s ∧ s' = s <| NEXT_PID := c + 1 |>.
Proof. unfold next_pid. intros Hlt H0 [= <- <-]. by rewrite add64_small by mach. Qed.

Lemma fork_register_ok t c now l4 s s' r n :
  fork_register t c now l4 s = (s', Ok (r, n)) →
  ∃ q, state q = Running ∧ Z.of_nat (size (PROCESS_REGISTRY s)) < MAX_PROCESSES ∧
    s' = s <| fds := init_for c (fds s) |> <| PROCESS_REGISTRY := <[c := q]> (PROCESS_REGISTRY s) |>.
Proof.
  unfold fork_register. intros H. repeat case_match; simplify_eq. eexists. split; [|split]; [|lia|reflexivity]. done.
Qed.

Lemma fork_register_err t c now l4 s s' e : fork_register t c now l4 s = (s', Err e) → s' = s.
Proof. unfold fork_register. intros H. by repeat case_match; simplify_eq. Qed.

Lemma wait_check_found target o l s s' c code :
  wait_check target o l s = (s', Found c code) →
  find_zombie target l s = Some c ∧ code = default 0 (EXIT_STATUS s !! c) ∧ s' = s <| EXIT_STATUS := delete c (EXIT_STATUS s) |>.
Proof. unfold wait_check. intros H. repeat case_match; by simplify_eq. Qed.

Lemma wait_check_other target o l s s' r : wait_check target o l s = (s', r) → (∀ c code, r ≠ Found c code) → s' = s.
Proof. unfold wait_check. intros H Hr. destruct (find_zombie target l s) as [c|]; simplify_eq; [by edestruct Hr|done]. Qed.

(** What a section does to pids. *)
Lemma sect_pids t s pc s' pc' evs born :
  sect t s pc s' pc' evs born → 0 ≤ NEXT_PID s →
  (NEXT_PID s ≤ NEXT_PID s' ∧ (NEXT_PID s ≤ U64_MAX → NEXT_PID s' ≤ U64_MAX)) ∧
  (∀ p c, Forked p c ∈ evs → p = t ∧ pc = ForkPid c) ∧
  (∀ c, pc' = ForkPid c → c = NEXT_PID s ∧ NEXT_PID s' = c + 1) ∧
  (∀ c l4 n, pc' = ForkRegistered c l4 n → Forked t c ∈ evs) ∧
  (∀ c, born = Some c → ∃ l4 n, pc = ForkRegistered c l4 n).
Proof.
  intros Hs H0. assert (∀ p c, Forked p c ∈ ([] : list Event) → p = t ∧ pc = ForkPid c) as Hnil by (intros p c H; by apply not_elem_of_nil in H).
  destruct Hs as [s s' c Hlt Hn|s s' c now l4 r n Hf|s s' c now l4 e Hf|s c l4 n|s s' path argv file loaded now r He|s tid n|s code|s code|s|s po|s|s target o l Hw
    |s s' target o l c code Hw|s s' target o l e Hw|s s' target o l Hw|s target o l|s c code|s c code].
  1: apply next_pid_eq in Hn as [-> ->]; [|done|done].
  2: apply fork_register_ok in Hf as (q & Hq & Hsz & ->).
  3: apply fork_register_err in Hf as ->.
  5: assert (NEXT_PID s' = NEXT_PID s) as Hs' by (unfold do_execve in He; repeat case_match; by simplify_eq).
  13: apply wait_check_found in Hw as (Hz & -> & ->).
  14,15: apply wait_check_other in Hw as ->; [|done].
  all: cbn.
  all: try (destruct po).
  all: (split; [cbn; lia|]).
  all: (split; [first [exact Hnil|intros p x [= -> ->]%list_elem_of_singleton; done|intros p x Hx%list_elem_of_singleton; done]|]).
  all: (split; [intros x Hx; simplify_eq; try done|]).
  all: (split; [intros x l4' n' Hx; simplify_eq; try (by apply list_elem_of_singleton)|]).
  all: intros x Hx; simplify_eq; eauto.
Qed.

Lemma advance_lookup t pc born m x pc' :
  advance t pc born m !! x = Some pc' → (x = t ∧ pc' = pc) ∨ (born = Some x ∧ pc' = AtUser) ∨ (x ≠ t ∧ m !! x = Some pc').
Proof.
  unfold advance. rewrite lookup_insert_Some. intros [[<- <-]|[Hx H]]; [by left|]. destruct born as [c|]; [|by right; right].
  apply lookup_insert_Some in H as [[<- <-]|[_ H]]; eauto.
Qed.

Lemma pcs_advance_some t pc born m x : is_Some (m !! x) → is_Some (advance t pc born m !! x).
Proof.
  intros Hx. unfold advance. rewrite lookup_insert_is_Some'. right. destruct born; [rewrite lookup_insert_is_Some'; by right|done].
Qed.

Lemma pids_step y t pc s' pc' evs born :
  pids_ok y → pcs y !! t = Some pc → sect t (procs y) pc s' pc' evs born →
  pids_ok (mkSys s' (advance t pc' born (pcs y)) (evs ++ hist y)).
Proof.
  intros Hp Ht Hs. pose proof (pi_next _ Hp) as Hn.
  destruct (sect_pids _ _ _ _ _ _ _ Hs) as ((Hle & Hmax) & He & Hpid & Hreg & Hb); [lia|].
  assert (∀ p c, Forked p c ∈ evs → (Forked p c ∉ hist y) ∧ 100 ≤ c < NEXT_PID (procs y) ∧ p = t ∧ pc = ForkPid c) as Hnew.
  { intros p c Hc. destruct (He p c Hc) as [-> ->]. destruct (pi_fresh _ Hp _ _ Ht) as [Hr Hf]. eauto. }
  split; cbn.
  - lia.
  - intros p c [Hc|Hc]%elem_of_app; [apply Hnew in Hc; lia|apply (pi_forked _ Hp) in Hc; lia].
  - intros p c [Hc|Hc]%elem_of_app.
    + destruct (Hnew p c Hc) as (_ & Hr & -> & ->). split; [|by apply pcs_advance_some]. intros ->.
      destruct (pi_task _ Hp c) as [->|[p Hf]]; [by eexists|lia|]. exfalso; by eapply (proj2 (pi_fresh _ Hp _ _ Ht)).
    + destruct (pi_parent _ Hp p c Hc). split; [done|by apply pcs_advance_some].
  - intros p p' c [Hc|Hc]%elem_of_app [Hc'|Hc']%elem_of_app.
    + apply Hnew in Hc as (_ & _ & -> & _), Hc' as (_ & _ & -> & _). done.
    + destruct (Hnew p c Hc) as (_ & _ & -> & ->). exfalso; by eapply (proj2 (pi_fresh _ Hp _ _ Ht)).
    + destruct (Hnew p' c Hc') as (_ & _ & -> & ->). exfalso; by eapply (proj2 (pi_fresh _ Hp _ _ Ht)).
    + by apply (pi_once _ Hp p p' c).
  - intros x c [[-> Hc]|[[_ Hc]|[Hx Hc]]]%advance_lookup; [|done|].
    + destruct (Hpid c) as [-> ->]; [done|]. split; [lia|]. intros p [Hf|Hf]%elem_of_app; [apply Hnew in Hf; lia|apply (pi_forked _ Hp) in Hf; lia].
    + destruct (pi_fresh _ Hp _ _ Hc) as [Hr Hf]. split; [lia|]. intros p [Hf'|Hf']%elem_of_app; [|by apply (Hf p)].
      destruct (Hnew p c Hf') as (_ & _ & -> & ->). by apply Hx, (pi_own _ Hp x t c).
  - intros x x' c [[-> Hc]|[[_ Hc]|[Hx Hc]]]%advance_lookup [[-> Hc']|[[_ Hc']|[Hx' Hc']]]%advance_lookup; try done.
    + destruct (Hpid c) as [-> _]; [done|]. destruct (pi_fresh _ Hp _ _ Hc') as [Hr _]. lia.
    + destruct (Hpid c) as [-> _]; [done|]. destruct (pi_fresh _ Hp _ _ Hc) as [Hr _]. lia.
    + by apply (pi_own _ Hp x x' c).
  - intros p c l4 n [[-> Hc]|[[_ Hc]|[Hx Hc]]]%advance_lookup; [|done|]; apply elem_of_app; [left; by eapply Hreg|right; by eapply (pi_forking _ Hp)].
  - intros x [pc0 [[-> Hc]|[[Hb' _]|[Hx Hc]]]%advance_lookup].
    + destruct (pi_task _ Hp t) as [->|[p Hf]]; [by eexists|by left|]. right. exists p. apply elem_of_app. by right.
    + destruct (Hb x Hb') as (l4 & n & ->). right. exists t. apply elem_of_app. right. by eapply (pi_forking _ Hp).
    + destruct (pi_task _ Hp x) as [->|[p Hf]]; [by eexists|by left|]. right. exists p. apply elem_of_app. by right.
Qed.

(** ** The table of children *)

Lemma prole_advance t pc' m p c :
  (p = t → prole (Some pc') c = prole (m !! t) c) → prole (advance t pc' None m !! p) c = prole (m !! p) c.
Proof. intros Hp. unfold advance. destruct (decide (p = t)) as [->|]; [rewrite lookup_insert_eq; by apply Hp|by rewrite lookup_insert_ne]. Qed.

Lemma life_advance t pc' m c : (c = t → life (Some pc') = life (m !! t)) → life (advance t pc' None m !! c) = life (m !! c).
Proof. intros Hc. unfold advance. destruct (decide (c = t)) as [->|]; [rewrite lookup_insert_eq; by apply Hc|by rewrite lookup_insert_ne]. Qed.

Lemma child_phase_same y y' p c :
  child_phase y p c → prole (pcs y' !! p) c = prole (pcs y !! p) c → life (pcs y' !! c) = life (pcs y !! c) →
  zreg c (procs y') = zreg c (procs y) → (c ∈ get_children p (procs y') ↔ c ∈ get_children p (procs y)) → child_phase y' p c.
Proof. unfold child_phase. intros H -> -> -> Hk. by rewrite (bool_decide_ext _ _ Hk). Qed.

Lemma prole_found pc c : prole (Some pc) c = RFound → ∃ code, pc = WaitFound c code.
Proof. destruct pc; cbn; repeat case_decide; intros; simplify_eq; eauto. Qed.

Lemma prole_unlinked pc c : prole (Some pc) c = RUnlinked → ∃ code, pc = WaitUnlinked c code.
Proof. destruct pc; cbn; repeat case_decide; intros; simplify_eq; eauto. Qed.

(** The sections that leave the table alone. *)
Lemma table_quiet y t pc s' pc' evs :
  table_ok y → pcs y !! t = Some pc → (∀ c, zreg c s' = zreg c (procs y)) → CHILDREN_INDEX s' = CHILDREN_INDEX (procs y) →
  size (PROCESS_REGISTRY s') = size (PROCESS_REGISTRY (procs y)) →
  (∀ c, prole (Some pc') c = prole (Some pc) c) → life (Some pc') = life (Some pc) → (∀ p c, Forked p c ∉ evs) →
  (∀ target o l, pc' = Waiting target o l ∨ pc' = Asleep target o l → l = get_children t (procs y)) →
  table_ok (mkSys s' (advance t pc' None (pcs y)) (evs ++ hist y)).
Proof.
  intros Hy Ht Hz Hk Hsz Hpr Hl He Hw. assert (∀ p, get_children p s' = get_children p (procs y)) as Hk' by (intros p; unfold get_children; by rewrite Hk).
  assert (∀ p c, Forked p c ∈ evs ++ hist y ↔ Forked p c ∈ hist y) as Hh.
  { intros p c. rewrite elem_of_app. split; [|by right]. intros [H|]; [by apply He in H|done]. }
  split; cbn.
  - intros p c Hf%Hh. apply (child_phase_same y); [by apply Hy| | |apply Hz|by cbn; rewrite Hk']; cbn.
    + apply prole_advance. intros _. by rewrite Ht.
    + apply life_advance. intros _. by rewrite Ht.
  - intros p c Hc. rewrite Hk' in Hc. by apply Hh, Hy.
  - intros p target o l Hpl. rewrite Hk'.
    destruct Hpl as [[[-> H]|[[[=] _]|[_ H]]]%advance_lookup|[[-> H]|[[[=] _]|[_ H]]]%advance_lookup]; eauto; eapply (ta_wait _ Hy); eauto.
  - intros p c code Hpc. apply Hh. destruct Hpc as [[[-> H]|[[[=] _]|[_ H]]]%advance_lookup|[[-> H]|[[[=] _]|[_ H]]]%advance_lookup];
      try (eapply (ta_reaping _ Hy); by eauto); subst pc'.
    + destruct (prole_found pc c) as [code' ->]; [rewrite <-Hpr; cbn; by rewrite decide_True|]. eapply (ta_reaping _ Hy). by left.
    + destruct (prole_unlinked pc c) as [code' ->]; [rewrite <-Hpr; cbn; by rewrite decide_True|]. eapply (ta_reaping _ Hy). by right.
  - rewrite Hsz. apply Hy.
Qed.

Lemma zreg_alter f t s s' c :
  PROCESS_REGISTRY s' = alter f t (PROCESS_REGISTRY s) → (∀ p, is_zombie (f p) = is_zombie p) → zreg c s' = zreg c s.
Proof.
  intros Hs Hf. unfold zreg. rewrite Hs. destruct (decide (c = t)) as [->|]; [rewrite lookup_alter_eq|by rewrite lookup_alter_ne].
  destruct (PROCESS_REGISTRY s !! t); cbn; [by rewrite Hf|done].
Qed.

Lemma size_alter {A} (f : A → A) (m : gmap Z A) i : size (alter f i m) = size m.
Proof. rewrite <-!size_dom. by rewrite dom_alter_L. Qed.

Lemma table_register y t c now l4 s' r n :
  pids_ok y → table_ok y → pcs y !! t = Some (ForkPid c) → fork_register t c now l4 (procs y) = (s', Ok (r, n)) →
  table_ok (mkSys s' (advance t (ForkRegistered c r n) None (pcs y)) ([Forked t c] ++ hist y)).
Proof.
  intros Hp Hy Ht (q & Hq & Hsz & ->)%fork_register_ok. destruct (pi_fresh _ Hp _ _ Ht) as [Hr Hf].
  assert (pcs y !! c = None) as Hc.
  { destruct (pcs y !! c) as [pc0|] eqn:E; [|done]. destruct (pi_task _ Hp c) as [->|[p Hp']]; [by eexists|lia|by apply Hf in Hp']. }
  assert (∀ p, c ∉ get_children p (procs y)) as Hk by (intros p H%(ta_index _ Hy); by apply Hf in H).
  assert (c ≠ t) as Hct by (intros ->; congruence).
  split; cbn [procs pcs hist].
  - intros p x [[= -> ->]|Hx]%elem_of_cons.
    + unfold child_phase, zreg, advance. cbn. rewrite lookup_insert_eq, lookup_insert_ne, Hc, lookup_insert_eq by done. cbn.
      rewrite decide_True, bool_decide_eq_false_2 by (done || apply Hk). unfold is_zombie. rewrite Hq. constructor.
    + assert (x ≠ c) by (intros ->; by apply Hf in Hx). apply (child_phase_same y); [by apply Hy| | | |done]; cbn.
      * apply prole_advance. intros _. rewrite Ht. cbn. by rewrite decide_False.
      * apply life_advance. intros _. by rewrite Ht.
      * unfold zreg. cbn. by rewrite lookup_insert_ne.
  - intros p x Hx. apply elem_of_cons. right. by apply Hy.
  - intros p target o l Hpl. eapply (ta_wait _ Hy).
    destruct Hpl as [[[-> H]|[[[=] _]|[_ H]]]%advance_lookup|[[-> H]|[[[=] _]|[_ H]]]%advance_lookup]; try done; eauto.
  - intros p x code Hpc. apply elem_of_cons. right. eapply (ta_reaping _ Hy).
    destruct Hpc as [[[-> H]|[[[=] _]|[_ H]]]%advance_lookup|[[-> H]|[[[=] _]|[_ H]]]%advance_lookup]; try done; eauto.
  - cbn. rewrite map_size_insert. pose proof (ta_size _ Hy). case_match; unfold id; lia.
Qed.

(** A section that changes what the table says of one process [c] only. *)
Lemma table_one y t pc s' pc' evs c :
  table_ok y → pcs y !! t = Some pc → (∀ p x, Forked p x ∉ evs) →
  (∀ p, Forked p c ∈ hist y → child_phase (mkSys s' (advance t pc' None (pcs y)) (evs ++ hist y)) p c) →
  (∀ x, x ≠ c → zreg x s' = zreg x (procs y)) →
  (∀ p x, x ≠ c → x ∈ get_children p s' ↔ x ∈ get_children p (procs y)) →
  (∀ p, p ≠ t → get_children p s' = get_children p (procs y)) → (c ∈ get_children t s' → c ∈ get_children t (procs y)) →
  (∀ x, x ≠ c → prole (Some pc') x = prole (Some pc) x) → (c ≠ t → life (Some pc') = life (Some pc)) →
  (∀ target o l, pc' ≠ Waiting target o l ∧ pc' ≠ Asleep target o l) →
  (∀ x code, pc' = WaitFound x code ∨ pc' = WaitUnlinked x code → Forked t x ∈ hist y) →
  Z.of_nat (size (PROCESS_REGISTRY s')) ≤ MAX_PROCESSES →
  table_ok (mkSys s' (advance t pc' None (pcs y)) (evs ++ hist y)).
Proof.
  intros Hy Ht He Hc Hz Hk Hk' Hkc Hpr Hl Hw Hr Hsz.
  assert (∀ p c, Forked p c ∈ evs ++ hist y ↔ Forked p c ∈ hist y) as Hh.
  { intros p x. rewrite elem_of_app. split; [|by right]. intros [H|]; [by apply He in H|done]. }
  split; cbn [procs pcs hist].
  - intros p x Hf%Hh. destruct (decide (x = c)) as [->|Hx]; [by apply Hc|].
    apply (child_phase_same y); [by apply Hy| | |by apply Hz|by apply Hk]; cbn.
    + apply prole_advance. intros _. rewrite Ht. by apply Hpr.
    + apply life_advance. intros ->. rewrite Ht. apply Hl. congruence.
  - intros p x Hx. apply Hh. destruct (decide (x = c)) as [->|Hxc]; [|by apply Hy, Hk].
    destruct (decide (p = t)) as [->|Hpt]; [by apply Hy, Hkc|]. rewrite Hk' in Hx by done. by apply Hy.
  - intros p target o l Hpl.
    destruct Hpl as [[[-> H]|[[[=] _]|[Hpt H]]]%advance_lookup|[[-> H]|[[[=] _]|[Hpt H]]]%advance_lookup];
      try (destruct (Hw target o l); congruence); rewrite Hk' by done; eapply (ta_wait _ Hy); eauto.
  - intros p x code Hpc. apply Hh. destruct Hpc as [[[-> H]|[[[=] _]|[_ H]]]%advance_lookup|[[-> H]|[[[=] _]|[_ H]]]%advance_lookup];
      first [eapply (ta_reaping _ Hy); by eauto|eapply Hr; by eauto].
  - done.
Qed.

Lemma child_phase_at y p c r l z b :
  child_phase y p c → prole (pcs y !! p) c = r → life (pcs y !! c) = l → zreg c (procs y) = z → bool_decide (c ∈ get_children p (procs y)) = b → phase r l z b.
Proof. unfold child_phase. by intros H <- <- <- <-. Qed.

Lemma table_mark y t code :
  pids_ok y → table_ok y → pcs y !! t = Some AtUser →
  table_ok (mkSys (exit_mark t code (procs y)) (advance t (ExitMarked code) None (pcs y)) ([Exited t code] ++ hist y)).
Proof.
  intros Hp Hy Ht. apply (table_one y t AtUser _ _ _ t); try done.
  - intros p x H%list_elem_of_singleton. done.
  - intros p Hf. destruct (pi_parent _ Hp p t Hf) as [Hpt _]. pose proof (ta_phase _ Hy p t Hf) as Hph. unfold child_phase, advance, zreg in Hph |- *. cbn.
    rewrite Ht in Hph. rewrite lookup_insert_eq, lookup_insert_ne, lookup_alter_eq by done. cbn in Hph |- *. change (get_children p (exit_mark t code (procs y))) with (get_children p (procs y)).
    inversion Hph as [|Hr Hl Hz Hb| | | |]; subst. destruct (PROCESS_REGISTRY (procs y) !! t); [|done]. cbn. constructor.
  - intros x Hx. unfold zreg, exit_mark. cbn. by rewrite lookup_alter_ne.
  - intros x code' [|]; done.
  - unfold exit_mark. cbn. rewrite size_alter. apply Hy.
Qed.

Lemma find_zombie_some target l s c :
  find_zombie target l s = Some c → c ∈ l ∧ zreg c s = Some true ∧ (target = 0 ∨ target = c).
Proof.
  unfold find_zombie. intros [Hl H]%find_some. apply list_elem_of_In in Hl. unfold zreg.
  destruct (PROCESS_REGISTRY s !! c) as [p|]; cbn in H |- *; [|by rewrite andb_false_r in H].
  apply andb_true_iff in H as [Ht ->]. split; [done|]. split; [done|]. lia.
Qed.

Lemma table_found y t target o l c code s' :
  pids_ok y → table_ok y → pcs y !! t = Some (Waiting target o l) → wait_check target o l (procs y) = (s', Found c code) →
  table_ok (mkSys s' (advance t (WaitFound c code) None (pcs y)) ([Taken t c code] ++ hist y)).
Proof.
  intros Hp Hy Ht (Hf & _ & ->)%wait_check_found. apply find_zombie_some in Hf as (Hcl & Hz & _).
  rewrite (ta_wait _ Hy t target o l) in Hcl by eauto. pose proof (ta_index _ Hy t c Hcl) as Hfk.
  apply (table_one y t (Waiting target o l) _ _ _ c); try done.
  - intros p x H%list_elem_of_singleton. done.
  - intros p Hf. destruct (pi_parent _ Hp p c Hf) as [Hpt _]. assert (p = t) as -> by by apply (pi_once _ Hp p t c).
    pose proof (ta_phase _ Hy t c Hfk) as Hph. unfold child_phase, advance in Hph |- *. cbn. rewrite lookup_insert_eq, lookup_insert_ne by done. cbn. rewrite decide_True by done.
    change (get_children t ((procs y) <| EXIT_STATUS := _ |>)) with (get_children t (procs y)). change (zreg c ((procs y) <| EXIT_STATUS := _ |>)) with (zreg c (procs y)).
    rewrite Ht, Hz, bool_decide_eq_true_2 in Hph by done. rewrite Hz, bool_decide_eq_true_2 by done. cbn in Hph. inversion Hph. constructor.
  - intros x Hx. cbn. by rewrite decide_False.
  - intros x code' [[= <- _]|[=]]. done.
  - cbn. apply Hy.
Qed.

Lemma elem_of_unlink t c s p x : x ≠ c → x ∈ get_children p (wait_unlink t c s) ↔ x ∈ get_children p s.
Proof.
  intros Hx. unfold get_children, wait_unlink. cbn. destruct (decide (p = t)) as [->|]; [rewrite lookup_alter_eq|by rewrite lookup_alter_ne].
  destruct (CHILDREN_INDEX s !! t); cbn; [rewrite list_elem_of_filter; naive_solver|done].
Qed.

Lemma unlink_gone t c s : c ∉ get_children t (wait_unlink t c s).
Proof.
  unfold get_children, wait_unlink. cbn. rewrite lookup_alter_eq. destruct (CHILDREN_INDEX s !! t); cbn; [rewrite list_elem_of_filter; naive_solver|apply not_elem_of_nil].
Qed.

Lemma table_unlink y t c code :
  pids_ok y → table_ok y → pcs y !! t = Some (WaitFound c code) →
  table_ok (mkSys (wait_unlink t c (procs y)) (advance t (WaitUnlinked c code) None (pcs y)) ([] ++ hist y)).
Proof.
  intros Hp Hy Ht. pose proof (ta_reaping _ Hy t c code (or_introl Ht)) as Hfk.
  apply (table_one y t (WaitFound c code) _ _ _ c); try done.
  - intros p x H%not_elem_of_nil. done.
  - intros p Hf. destruct (pi_parent _ Hp p c Hf) as [Hpt _]. assert (p = t) as -> by by apply (pi_once _ Hp p t c).
    pose proof (ta_phase _ Hy t c Hfk) as Hph. unfold child_phase, advance in Hph |- *. cbn. rewrite lookup_insert_eq, lookup_insert_ne by done.
    rewrite Ht in Hph. cbn in Hph |- *. rewrite decide_True in Hph |- * by done. rewrite (bool_decide_eq_false_2 (c ∈ _)) by apply unlink_gone.
    change (zreg c (wait_unlink t c (procs y))) with (zreg c (procs y)). inversion Hph. constructor.
  - intros p x Hx. by apply elem_of_unlink.
  - intros p Hpt. unfold get_children, wait_unlink. cbn. by rewrite lookup_alter_ne.
  - intros H%unlink_gone. done.
  - intros x Hx. cbn. by rewrite !decide_False.
  - intros x code' [[=]|[= <- _]]. done.
  - cbn. apply Hy.
Qed.

Lemma table_reap y t c code :
  pids_ok y → table_ok y → pcs y !! t = Some (WaitUnlinked c code) →
  table_ok (mkSys (reap_zombie c (procs y)) (advance t AtUser None (pcs y)) ([] ++ hist y)).
Proof.
  intros Hp Hy Ht. pose proof (ta_reaping _ Hy t c code (or_intror Ht)) as Hfk.
  apply (table_one y t (WaitUnlinked c code) _ _ _ c); try done.
  - intros p x H%not_elem_of_nil. done.
  - intros p Hf. destruct (pi_parent _ Hp p c Hf) as [Hpt _]. assert (p = t) as -> by by apply (pi_once _ Hp p t c).
    pose proof (ta_phase _ Hy t c Hfk) as Hph. unfold child_phase, advance, zreg in Hph |- *. cbn. rewrite lookup_insert_eq, lookup_insert_ne, lookup_delete_eq by done.
    rewrite Ht in Hph. cbn in Hph |- *. rewrite decide_True in Hph by done.
    change (get_children t (reap_zombie c (procs y))) with (get_children t (procs y)). inversion Hph. constructor.
  - intros x Hx. unfold zreg. cbn. by rewrite lookup_delete_ne.
  - intros x Hx. cbn. by rewrite decide_False.
  - intros x code' [|]; done.
  - cbn. pose proof (ta_size _ Hy). rewrite map_size_delete. case_match; unfold id; lia.
Qed.

Lemma table_publish y t c l4 n :
  pids_ok y → table_ok y → pcs y !! t = Some (ForkRegistered c l4 n) →
  table_ok (mkSys (fork_publish t c l4 n (procs y)) (advance t AtUser (Some c) (pcs y)) ([] ++ hist y)).
Proof.
  intros Hp Hy Ht. pose proof (pi_forking _ Hp _ _ _ _ Ht) as Hfk. destruct (pi_parent _ Hp _ _ Hfk) as [Htc _].
  pose proof (ta_phase _ Hy t c Hfk) as Hph. unfold child_phase in Hph. rewrite Ht in Hph. cbn in Hph. rewrite decide_True in Hph by done.
  assert (pcs y !! c = None) as Hc by (destruct (pcs y !! c) as [[]|]; [inversion Hph..|done]).
  assert (∀ p, get_children p (fork_publish t c l4 n (procs y)) = if decide (p = t) then get_children t (procs y) ++ [c] else get_children p (procs y)) as Hk.
  { intros p. unfold get_children, fork_publish. cbn. destruct (decide (p = t)) as [->|]; [by rewrite lookup_insert_eq|by rewrite lookup_insert_ne]. }
  assert (∀ x, x ≠ c → life (advance t AtUser (Some c) (pcs y) !! x) = life (pcs y !! x)) as Hlife.
  { intros x Hx. unfold advance. destruct (decide (x = t)) as [->|]; [by rewrite lookup_insert_eq, Ht|by rewrite !lookup_insert_ne]. }
  assert (∀ p x, x ≠ c → prole (advance t AtUser (Some c) (pcs y) !! p) x = prole (pcs y !! p) x) as Hpr.
  { intros p x Hx. unfold advance. destruct (decide (p = t)) as [->|]; [rewrite lookup_insert_eq, Ht; cbn; by rewrite decide_False|].
    destruct (decide (p = c)) as [->|]; [by rewrite lookup_insert_ne, lookup_insert_eq, Hc|by rewrite !lookup_insert_ne]. }
  split; cbn [procs pcs hist app].
  - intros p x Hx. destruct (decide (x = c)) as [->|Hxc].
    + assert (p = t) as -> by by apply (pi_once _ Hp p t c). unfold child_phase. cbn [procs pcs]. rewrite Hk, decide_True by done.
      unfold advance. rewrite lookup_insert_eq, lookup_insert_ne, lookup_insert_eq by done. cbn.
      rewrite bool_decide_eq_true_2 by (apply elem_of_app; right; by apply list_elem_of_singleton).
      change (zreg c (fork_publish t c l4 n (procs y))) with (zreg c (procs y)). inversion Hph. constructor.
    + apply (child_phase_same y); [by apply Hy|by apply Hpr|by apply Hlife|done|]. cbn. rewrite Hk. destruct (decide (p = t)) as [->|]; [|done].
      rewrite elem_of_app, list_elem_of_singleton. naive_solver.
  - intros p x. rewrite Hk. destruct (decide (p = t)) as [->|]; [|apply Hy]. rewrite elem_of_app, list_elem_of_singleton. intros [Hx| ->]; [by apply Hy|done].
  - intros p target o l Hpl. rewrite Hk.
    destruct Hpl as [[[-> H]|[[[= <-] H]|[Hpt H]]]%advance_lookup|[[-> H]|[[[= <-] H]|[Hpt H]]]%advance_lookup]; try done; rewrite decide_False by done; eapply (ta_wait _ Hy); eauto.
  - intros p x code Hpc. destruct Hpc as [[[-> H]|[[_ H]|[_ H]]]%advance_lookup|[[-> H]|[[_ H]|[_ H]]]%advance_lookup]; try done; eapply (ta_reaping _ Hy); eauto.
  - cbn. apply Hy.
Qed.

(** ** The sections by what they do to the table *)

Record quiet (t : Z) (s : Procs) (pc : Pc) (s' : Procs) (pc' : Pc) (evs : list Event) (born : option Z) : Prop := {
  qu_born : born = None;
  qu_zreg c : zreg c s' = zreg c s;
  qu_index : CHILDREN_INDEX s' = CHILDREN_INDEX s;
  qu_size : size (PROCESS_REGISTRY s') = size (PROCESS_REGISTRY s);
  qu_prole c : prole (Some pc') c = prole (Some pc) c;
  qu_life : life (Some pc') = life (Some pc);
  qu_events e : e ∈ evs → e = Stored t;
  qu_wait target o l : pc' = Waiting target o l ∨ pc' = Asleep target o l → l = get_children t s ∨ pc = Waiting target o l ∨ pc = Asleep target o l;
  qu_status : (EXIT_STATUS s' = EXIT_STATUS s ∧ evs = [] ∧ (∀ code, pc' ≠ ExitMarked code)) ∨
    (∃ code, pc = ExitMarked code ∧ pc' = ExitStored ∧ evs = [Stored t] ∧ EXIT_STATUS s' = <[t := code]> (EXIT_STATUS s));
}.

Inductive kind (t : Z) (s : Procs) : Pc → Procs → Pc → list Event → option Z → Prop :=
| k_quiet pc s' pc' evs born : quiet t s pc s' pc' evs born → kind t s pc s' pc' evs born
| k_register c now l4 s' r n : fork_register t c now l4 s = (s', Ok (r, n)) → kind t s (ForkPid c) s' (ForkRegistered c r n) [Forked t c] None
| k_publish c l4 n : kind t s (ForkRegistered c l4 n) (fork_publish t c l4 n s) AtUser [] (Some c)
| k_mark code : kind t s AtUser (exit_mark t code s) (ExitMarked code) [Exited t code] None
| k_found target o l s' c code : wait_check target o l s = (s', Found c code) → kind t s (Waiting target o l) s' (WaitFound c code) [Taken t c code] None
| k_unlink c code : kind t s (WaitFound c code) (wait_unlink t c s) (WaitUnlinked c code) [] None
| k_reap c code : kind t s (WaitUnlinked c code) (reap_zombie c s) AtUser [] None.

Lemma quiet_state t s pc pc' s' :
  (∀ c, zreg c s' = zreg c s) → CHILDREN_INDEX s' = CHILDREN_INDEX s → size (PROCESS_REGISTRY s') = size (PROCESS_REGISTRY s) →
  EXIT_STATUS s' = EXIT_STATUS s → (∀ c, prole (Some pc') c = prole (Some pc) c) → life (Some pc') = life (Some pc) →
  (∀ target o l, pc' = Waiting target o l ∨ pc' = Asleep target o l → l = get_children t s ∨ pc = Waiting target o l ∨ pc = Asleep target o l) →
  (∀ code, pc' ≠ ExitMarked code) → quiet t s pc s' pc' [] None.
Proof. intros. split; try done; [by intros e He%not_elem_of_nil|by left]. Qed.

Lemma sect_kind t s pc s' pc' evs born : 0 ≤ NEXT_PID s → sect t s pc s' pc' evs born → kind t s pc s' pc' evs born.
Proof.
  intros H0 Hs. destruct Hs as [s s' c Hlt Hn|s s' c now l4 r n Hf|s s' c now l4 e Hf|s c l4 n|s s' path argv file loaded now r He|s tid n|s code|s code|s|s po|s|s target o l Hw
    |s s' target o l c code Hw|s s' target o l e Hw|s s' target o l Hw|s target o l|s c code|s c code].
  1: apply next_pid_eq in Hn as [-> ->]; [|done|done].
  3: apply fork_register_err in Hf as ->.
  14,15: apply wait_check_other in Hw as ->; [|done].
  2,4,7,13,17,18: by econstructor.
  5: { apply k_quiet. split; try done; [by intros e ->%list_elem_of_singleton|by intros ??? [|]|]. right. by exists code. }
  all: apply k_quiet.
  3: { unfold do_execve in He. repeat case_match; simplify_eq; apply quiet_state; try done; try (by intros ??? [|]).
       all: try (intros c; eapply zreg_alter; [cbn; reflexivity|done]); cbn; apply size_alter. }
  3: { apply quiet_state; try done; try (by intros ??? [|]); [intros c; eapply zreg_alter; [cbn; reflexivity|done]|cbn; apply size_alter]. }
  4: destruct po.
  all: apply quiet_state; try done; try (by intros ??? [|]).
  - unfold wait_begin in Hw. intros ??? [[= -> -> ->]|[=]]. left. by case_match; simplify_eq.
  - intros ??? [[=]|[= -> -> ->]]. eauto.
  - intros ??? [[= -> -> ->]|[=]]. eauto.
Qed.

Lemma table_step y t pc s' pc' evs born :
  pids_ok y → table_ok y → pcs y !! t = Some pc → kind t (procs y) pc s' pc' evs born →
  table_ok (mkSys s' (advance t pc' born (pcs y)) (evs ++ hist y)).
Proof.
  intros Hp Hy Ht Hk. destruct Hk as [pc s' pc' evs born Hq| | | | | |].
  - rewrite (qu_born _ _ _ _ _ _ _ Hq). apply (table_quiet y t pc); try apply Hq; try done.
    + intros p c He%(qu_events _ _ _ _ _ _ _ Hq). done.
    + intros target o l [->|[-> | ->]]%(qu_wait _ _ _ _ _ _ _ Hq); [done|eapply (ta_wait _ Hy); eauto..].
  - by eapply table_register.
  - by apply table_publish.
  - by apply table_mark.
  - by eapply table_found.
  - by apply table_unlink.
  - by eapply table_reap.
Qed.

(** ** Exit codes *)

(** Each result of waitpid is for a child that has exited, for the first time, and
    has its code, or 0 when the code was not stored yet. *)
Fixpoint good_hist (h : list Event) : Prop :=
  match h with
  | [] => True
  | Taken p c code :: h =>
    Forked p c ∈ h ∧ (∀ p' code', Taken p' c code' ∉ h) ∧
    (∃ code', Exited c code' ∈ h ∧ (if decide (Stored c ∈ h) then code = code' else code = 0)) ∧ good_hist h
  | _ :: h => good_hist h
  end.

(** The child has been taken from the table. *)
Definition fin (y : Sys) (p c : Z) : Prop :=
  prole (pcs y !! p) c = RFound ∨ prole (pcs y !! p) c = RUnlinked ∨ zreg c (procs y) = None.

Record codes_ok (y : Sys) : Prop := {
  co_exit t : (∃ code, Exited t code ∈ hist y) ↔ life (pcs y !! t) = Exiting;
  co_once t a b : Exited t a ∈ hist y → Exited t b ∈ hist y → a = b;
  co_marked t code : pcs y !! t = Some (ExitMarked code) → Exited t code ∈ hist y ∧ Stored t ∉ hist y;
  co_stored t : Stored t ∈ hist y → ∃ code, Exited t code ∈ hist y;
  co_status c code : EXIT_STATUS (procs y) !! c = Some code → Exited c code ∈ hist y ∧ Stored c ∈ hist y;
  co_kept c : Stored c ∈ hist y → (∃ p code, Taken p c code ∈ hist y) ∨ is_Some (EXIT_STATUS (procs y) !! c);
  co_forked p c code : Taken p c code ∈ hist y → Forked p c ∈ hist y;
  co_taken p c : Forked p c ∈ hist y → (∃ code, Taken p c code ∈ hist y) ↔ fin y p c;
  co_hist : good_hist (hist y);
}.

Lemma life_publish y t c l4 n x :
  pids_ok y → table_ok y → pcs y !! t = Some (ForkRegistered c l4 n) →
  life (advance t AtUser (Some c) (pcs y) !! x) = Exiting ↔ life (pcs y !! x) = Exiting.
Proof.
  intros Hp Hy Ht. unfold advance. destruct (decide (x = t)) as [->|]; [by rewrite lookup_insert_eq, Ht|]. rewrite lookup_insert_ne by done.
  destruct (decide (x = c)) as [->|]; [|by rewrite lookup_insert_ne]. rewrite lookup_insert_eq. cbn.
  pose proof (ta_phase _ Hy t c (pi_forking _ Hp _ _ _ _ Ht)) as Hph. unfold child_phase in Hph. rewrite Ht in Hph. cbn in Hph. rewrite decide_True in Hph by done.
  split; [done|]. intros Hl. rewrite Hl in Hph. inversion Hph.
Qed.

Lemma exit_step y t pc s' pc' evs born :
  pids_ok y → table_ok y → codes_ok y → pcs y !! t = Some pc → kind t (procs y) pc s' pc' evs born →
  ∀ x, (∃ code, Exited x code ∈ evs ++ hist y) ↔ life (advance t pc' born (pcs y) !! x) = Exiting.
Proof.
  intros Hp Hy Hc Ht Hk x.
  assert ((∀ x code, Exited x code ∉ evs) → (life (advance t pc' born (pcs y) !! x) = Exiting ↔ life (pcs y !! x) = Exiting) →
    (∃ code, Exited x code ∈ evs ++ hist y) ↔ life (advance t pc' born (pcs y) !! x) = Exiting) as Hsame.
  { intros He ->. rewrite <-(co_exit _ Hc x). split; intros [code Hx]; exists code; [|apply elem_of_app; by right].
    apply elem_of_app in Hx as [Hx|]; [by apply He in Hx|done]. }
  destruct Hk as [pc s' pc' evs born Hq| | |code| | |].
  - rewrite (qu_born _ _ _ _ _ _ _ Hq) in Hsame |- *. apply Hsame; [by intros z code He%(qu_events _ _ _ _ _ _ _ Hq)|].
    rewrite life_advance; [done|]. intros ->. rewrite Ht. apply Hq.
  - apply Hsame; [by intros z code He%list_elem_of_singleton|]. rewrite life_advance; [done|]. intros ->. by rewrite Ht.
  - apply Hsame; [by intros z code He%not_elem_of_nil|]. by eapply life_publish.
  - destruct (decide (x = t)) as [->|Hx].
    + unfold advance. rewrite lookup_insert_eq. cbn. split; [done|]. intros _. exists code. by left.
    + unfold advance. rewrite lookup_insert_ne, <-(co_exit _ Hc x) by done. split; intros [code' He]; exists code'; [|by right].
      apply elem_of_cons in He as [[= ? _]|He]; done.
  - apply Hsame; [by intros z code' He%list_elem_of_singleton|]. rewrite life_advance; [done|]. intros ->. by rewrite Ht.
  - apply Hsame; [by intros z code' He%not_elem_of_nil|]. rewrite life_advance; [done|]. intros ->. by rewrite Ht.
  - apply Hsame; [by intros z code' He%not_elem_of_nil|]. rewrite life_advance; [done|]. intros ->. by rewrite Ht.
Qed.

Lemma fin_same y y' p c : prole (pcs y' !! p) c = prole (pcs y !! p) c → zreg c (procs y') = zreg c (procs y) → fin y' p c ↔ fin y p c.
Proof. unfold fin. by intros -> ->. Qed.

(** A child is taken by the section that finds it, and stays taken. *)
Lemma fin_step y t pc s' pc' evs born p c :
  pids_ok y → table_ok y → pcs y !! t = Some pc → kind t (procs y) pc s' pc' evs born → Forked p c ∈ hist y →
  fin (mkSys s' (advance t pc' born (pcs y)) (evs ++ hist y)) p c ↔ (∃ code, Taken p c code ∈ evs) ∨ fin y p c.
Proof.
  intros Hp Hy Ht Hk Hf. assert ((∀ code, Taken p c code ∉ evs) → fin (mkSys s' (advance t pc' born (pcs y)) (evs ++ hist y)) p c ↔ fin y p c →
    fin (mkSys s' (advance t pc' born (pcs y)) (evs ++ hist y)) p c ↔ (∃ code, Taken p c code ∈ evs) ∨ fin y p c) as Hsame.
  { intros Hn ->. split; [by right|]. intros [[code H]|]; [by apply Hn in H|done]. }
  destruct Hk as [pc s' pc' evs born Hq|x now l4 s' r n Hr|x l4 n|code|target o l s' x code Hw|x code|x code].
  - rewrite (qu_born _ _ _ _ _ _ _ Hq) in Hsame |- *. apply Hsame; [by intros code He%(qu_events _ _ _ _ _ _ _ Hq)|].
    apply fin_same; [|apply Hq]. apply prole_advance. intros _. rewrite Ht. apply Hq.
  - apply Hsame; [by intros code He%list_elem_of_singleton|]. apply fork_register_ok in Hr as (q & _ & _ & ->).
    assert (c ≠ x) by (intros ->; by apply (proj2 (pi_fresh _ Hp _ _ Ht)) in Hf).
    apply fin_same; [|unfold zreg; cbn; by rewrite lookup_insert_ne]. apply prole_advance. intros _. rewrite Ht. cbn. by rewrite decide_False.
  - apply Hsame; [by intros code He%not_elem_of_nil|]. unfold fin. cbn [pcs procs]. change (zreg c (fork_publish t x l4 n (procs y))) with (zreg c (procs y)).
    assert (∀ r, r = RFound ∨ r = RUnlinked → prole (advance t AtUser (Some x) (pcs y) !! p) c = r ↔ prole (pcs y !! p) c = r) as Hrole.
    { intros r Hr. unfold advance. destruct (decide (p = t)) as [->|]; [rewrite lookup_insert_eq, Ht; cbn; case_decide; destruct Hr as [-> | ->]; done|].
      rewrite lookup_insert_ne by done. destruct (decide (p = x)) as [->|]; [|by rewrite lookup_insert_ne]. rewrite lookup_insert_eq.
      pose proof (ta_phase _ Hy t x (pi_forking _ Hp _ _ _ _ Ht)) as Hph. unfold child_phase in Hph. rewrite Ht in Hph. cbn in Hph. rewrite decide_True in Hph by done.
      assert (pcs y !! x = None) as -> by (destruct (pcs y !! x) as [[]|]; [inversion Hph..|done]). done. }
    rewrite !Hrole by auto. done.
  - apply Hsame; [by intros code' He%list_elem_of_singleton|]. unfold fin. cbn [pcs procs]. rewrite prole_advance by (intros _; by rewrite Ht).
    unfold zreg. cbn. destruct (decide (c = t)) as [->|]; [rewrite lookup_alter_eq|by rewrite lookup_alter_ne]. destruct (PROCESS_REGISTRY (procs y) !! t); cbn; [naive_solver|done].
  - apply wait_check_found in Hw as (Hz & _ & ->). destruct (decide (p = t ∧ c = x)) as [[-> ->]|Hne].
    + split; [|intros _; left; cbn; unfold advance; rewrite lookup_insert_eq; cbn; by rewrite decide_True]. intros _. left. exists code. by apply list_elem_of_singleton.
    + apply Hsame; [intros code' He%list_elem_of_singleton; naive_solver|]. apply fin_same; [|done]. apply prole_advance. intros ->. rewrite Ht. cbn.
      rewrite decide_False; [done|naive_solver].
  - apply Hsame; [by intros code' He%not_elem_of_nil|]. unfold fin. cbn [pcs procs]. change (zreg c (wait_unlink t x (procs y))) with (zreg c (procs y)).
    destruct (decide (p = t)) as [->|]; [|unfold advance; by rewrite lookup_insert_ne].
    unfold advance. rewrite lookup_insert_eq, Ht. cbn. case_decide; [|done]. naive_solver.
  - apply Hsame; [by intros code' He%not_elem_of_nil|]. destruct (decide (c = x)) as [->|Hcx].
    + assert (p = t) as -> by (apply (pi_once _ Hp p t x); [done|eapply (ta_reaping _ Hy); eauto]).
      split; intros _; [right; left; rewrite Ht; cbn; by rewrite decide_True|right; right; unfold zreg; cbn; by rewrite lookup_delete_eq].
    + apply fin_same; [|unfold zreg; cbn; by rewrite lookup_delete_ne]. apply prole_advance. intros _. rewrite Ht. cbn. by rewrite decide_False.
Qed.

(** What a section adds to the history and to the stored codes. *)
Inductive coding (y : Sys) (t : Z) (s' : Procs) (pc' : Pc) : list Event → Prop :=
| cd_none evs : (∀ e, e ∈ evs → ∃ c, e = Forked t c) → EXIT_STATUS s' = EXIT_STATUS (procs y) → (∀ code, pc' ≠ ExitMarked code) → coding y t s' pc' evs
| cd_mark code : life (pcs y !! t) = Active → EXIT_STATUS s' = EXIT_STATUS (procs y) → pc' = ExitMarked code → coding y t s' pc' [Exited t code]
| cd_store code : pcs y !! t = Some (ExitMarked code) → EXIT_STATUS s' = <[t := code]> (EXIT_STATUS (procs y)) → pc' = ExitStored → coding y t s' pc' [Stored t]
| cd_found c code : Forked t c ∈ hist y → ¬ fin y t c → life (pcs y !! c) = Exiting → code = default 0 (EXIT_STATUS (procs y) !! c) →
    EXIT_STATUS s' = delete c (EXIT_STATUS (procs y)) → (∀ code, pc' ≠ ExitMarked code) → coding y t s' pc' [Taken t c code].

Lemma kind_coding y t pc s' pc' evs born :
  table_ok y → pcs y !! t = Some pc → kind t (procs y) pc s' pc' evs born → coding y t s' pc' evs.
Proof.
  intros Hy Ht Hk. destruct Hk as [pc s' pc' evs born Hq|x now l4 s' r n Hr|x l4 n|code|target o l s' x code Hw|x code|x code].
  - destruct (qu_status _ _ _ _ _ _ _ Hq) as [(Hs & -> & Hm)|(code & -> & -> & -> & Hs)]; [apply cd_none; [by intros e He%not_elem_of_nil|done..]|].
    by eapply cd_store.
  - apply fork_register_ok in Hr as (q & _ & _ & ->). apply cd_none; [|done|done]. intros e ->%list_elem_of_singleton. eauto.
  - apply cd_none; [by intros e He%not_elem_of_nil|done|done].
  - apply cd_mark; [by rewrite Ht|done|done].
  - apply wait_check_found in Hw as (Hz & -> & ->). apply find_zombie_some in Hz as (Hl & Hz & _). rewrite (ta_wait _ Hy t target o l) in Hl by eauto.
    pose proof (ta_index _ Hy t x Hl) as Hf. pose proof (ta_phase _ Hy t x Hf) as Hph. unfold child_phase in Hph.
    rewrite Ht, Hz, bool_decide_eq_true_2 in Hph by done. cbn in Hph.
    apply cd_found; try done.
    + unfold fin. rewrite Ht, Hz. cbn. naive_solver.
    + by inversion Hph.
  - apply cd_none; [by intros e He%not_elem_of_nil|done|done].
  - apply cd_none; [by intros e He%not_elem_of_nil|done|done].
Qed.

Lemma codes_step y t pc s' pc' evs born :
  pids_ok y → table_ok y → codes_ok y → pcs y !! t = Some pc → kind t (procs y) pc s' pc' evs born →
  (∀ p c, Forked p c ∈ evs → ∀ code, Taken p c code ∉ evs ++ hist y) →
  (∀ p c, Forked p c ∈ evs → ¬ fin (mkSys s' (advance t pc' born (pcs y)) (evs ++ hist y)) p c) →
  codes_ok (mkSys s' (advance t pc' born (pcs y)) (evs ++ hist y)).
Proof.
  intros Hp Hy Hc Ht Hk Hnew Hnfin. pose proof (exit_step _ _ _ _ _ _ _ Hp Hy Hc Ht Hk) as Hexit.
  assert (∀ p c, Forked p c ∈ evs ++ hist y → (∃ code, Taken p c code ∈ evs ++ hist y) ↔ fin (mkSys s' (advance t pc' born (pcs y)) (evs ++ hist y)) p c) as Htaken.
  { intros p c [Hf|Hf]%elem_of_app.
    - split; [intros [code H]; by apply Hnew in H|by intros H%Hnfin].
    - rewrite (fin_step _ _ _ _ _ _ _ _ _ Hp Hy Ht Hk Hf), <-(co_taken _ Hc p c Hf). setoid_rewrite elem_of_app. naive_solver. }
  assert (∀ x code, advance t pc' born (pcs y) !! x = Some (ExitMarked code) → (x = t ∧ pc' = ExitMarked code) ∨ (x ≠ t ∧ Exited x code ∈ hist y ∧ Stored x ∉ hist y)) as Hmarked.
  { intros x code [[-> ->]|[[_ [=]]|[Hx H]]]%advance_lookup; [by left|]. right. split; [done|]. by apply (co_marked _ Hc). }
  pose proof (kind_coding _ _ _ _ _ _ _ Hy Ht Hk) as Hcd. clear Hk Hnew Hnfin.
  destruct Hcd as [evs He Hst Hm|code Hl Hst ->|code Hpc Hst ->|c code Hf Hnf Hl Hcode Hst Hm]; split; cbn [procs pcs hist]; try done; try rewrite Hst.
  - intros x a b [Ha%He|Ha]%elem_of_app [Hb%He|Hb]%elem_of_app; try (by destruct Ha as [? [=]]); try (by destruct Hb as [? [=]]). by apply (co_once _ Hc x).
  - intros x code [[_ H]|(_ & H1 & H2)]%Hmarked; [by apply Hm in H|]. split; [apply elem_of_app; by right|]. intros [H%He|H]%elem_of_app; [by destruct H as [? [=]]|done].
  - intros x [H%He|H]%elem_of_app; [by destruct H as [? [=]]|]. apply (co_stored _ Hc) in H as [code H]. exists code. apply elem_of_app. by right.
  - intros x code [H1 H2]%(co_status _ Hc). split; apply elem_of_app; by right.
  - intros x [H%He|H]%elem_of_app; [by destruct H as [? [=]]|]. apply (co_kept _ Hc) in H as [(p & code & H)|H]; [left; exists p, code; apply elem_of_app; by right|by right].
  - intros p x code [H%He|H]%elem_of_app; [by destruct H as [? [=]]|]. apply elem_of_app. right. by eapply (co_forked _ Hc).
  - pose proof (co_hist _ Hc) as Hh. clear -He Hh. induction evs as [|e evs IH]; [done|]. destruct (He e) as [x ->]; [by left|]. cbn. apply IH. intros e' He'. apply He. by right.
  - assert (∀ a, Exited t a ∉ hist y) as Hno by (intros a H; assert (life (pcs y !! t) = Exiting) as E by (apply (co_exit _ Hc); eauto); congruence).
    intros x a b [Ha|Ha]%elem_of_cons [Hb|Hb]%elem_of_cons; simplify_eq; [done|by apply Hno in Hb|by apply Hno in Ha|by apply (co_once _ Hc x)].
  - intros x code' [[-> [= ->]]|(Hx & H1 & H2)]%Hmarked.
    + split; [by left|]. intros [[=]|H]%elem_of_cons. apply (co_stored _ Hc), (co_exit _ Hc) in H. congruence.
    + split; [by right|]. by intros [[=]|H]%elem_of_cons.
  - intros x [[=]|H]%elem_of_cons. apply (co_stored _ Hc) in H as [code' H]. exists code'. by right.
  - intros x code' [H1 H2]%(co_status _ Hc). split; by right.
  - intros x [[=]|H]%elem_of_cons. apply (co_kept _ Hc) in H as [(p & code' & H)|H]; [left; exists p, code'; by right|by right].
  - intros p x code' [[=]|H]%elem_of_cons. right. by eapply (co_forked _ Hc).
  - apply (co_hist _ Hc).
  - intros x a b [[=]|Ha]%elem_of_cons [[=]|Hb]%elem_of_cons. by apply (co_once _ Hc x).
  - intros x code' [[_ [=]]|(Hx & H1 & H2)]%Hmarked. split; [by right|]. by intros [[= ->]|H]%elem_of_cons.
  - destruct (co_marked _ Hc _ _ Hpc) as [H1 _]. intros x [[= ->]|H]%elem_of_cons; [exists code; by right|].
    apply (co_stored _ Hc) in H as [code' H]. exists code'. by right.
  - destruct (co_marked _ Hc _ _ Hpc) as [H1 _]. intros x code' [[<- <-]|[_ H]]%lookup_insert_Some; [split; [by right|by left]|].
    apply (co_status _ Hc) in H as [Ha Hb]. split; by right.
  - intros x [[= ->]|H]%elem_of_cons; [right; rewrite lookup_insert_eq; by eexists|].
    apply (co_kept _ Hc) in H as [(p & code' & H)|H]; [left; exists p, code'; by right|right; rewrite lookup_insert_is_Some'; by right].
  - intros p x code' [[=]|H]%elem_of_cons. right. by eapply (co_forked _ Hc).
  - apply (co_hist _ Hc).
  - intros x a b [[=]|Ha]%elem_of_cons [[=]|Hb]%elem_of_cons. by apply (co_once _ Hc x).
  - intros x code' [[_ H]|(Hx & H1 & H2)]%Hmarked; [by apply Hm in H|]. split; [by right|]. by intros [[=]|H]%elem_of_cons.
  - intros x [[=]|H]%elem_of_cons. apply (co_stored _ Hc) in H as [code' H]. exists code'. by right.
  - intros x code' [_ H]%lookup_delete_Some. apply (co_status _ Hc) in H as [Ha Hb]. split; by right.
  - intros x [[=]|H]%elem_of_cons. destruct (decide (x = c)) as [->|]; [left; exists t, code; by left|]. rewrite lookup_delete_ne by done.
    apply (co_kept _ Hc) in H as [(p & code' & H)|H]; [left; exists p, code'; by right|by right].
  - intros p x code' [[= -> -> _]|H]%elem_of_cons; right; [done|]. by eapply (co_forked _ Hc).
  - cbn. assert (∀ p' code', Taken p' c code' ∉ hist y) as Hno.
    { intros p' code' H. pose proof (co_forked _ Hc _ _ _ H) as Hf'. rewrite (pi_once _ Hp p' t c) in H by done. apply Hnf, (co_taken _ Hc t c Hf). eauto. }
    split; [done|]. split; [done|]. split; [|apply (co_hist _ Hc)]. apply (co_exit _ Hc) in Hl as [code' Hx]. exists code'. split; [done|].
    case_decide as Hs; [destruct (co_kept _ Hc c Hs) as [(p & k & H)|[k H]]; [by apply Hno in H|]|].
    + rewrite Hcode, H. apply (co_status _ Hc) in H as [H _]. by apply (co_once _ Hc c).
    + destruct (EXIT_STATUS (procs y) !! c) as [k|] eqn:E; [|done]. by apply (co_status _ Hc) in E as [_ E].
Qed.

Lemma kind_new y t pc s' pc' evs born p c :
  pids_ok y → codes_ok y → pcs y !! t = Some pc → kind t (procs y) pc s' pc' evs born → Forked p c ∈ evs →
  (∀ code, Taken p c code ∉ evs ++ hist y) ∧ ¬ fin (mkSys s' (advance t pc' born (pcs y)) (evs ++ hist y)) p c.
Proof.
  intros Hp Hc Ht Hk Hf. destruct Hk as [pc s' pc' evs born Hq|x now l4 s' r n Hr|x l4 n|code|target o l s' x code Hw|x code|x code];
    [by apply (qu_events _ _ _ _ _ _ _ Hq) in Hf| |by apply not_elem_of_nil in Hf|by apply list_elem_of_singleton in Hf|by apply list_elem_of_singleton in Hf|by apply not_elem_of_nil in Hf..].
  apply list_elem_of_singleton in Hf as [= -> ->]. split.
  - intros code [[=]|H]%elem_of_cons. apply (co_forked _ Hc) in H. by apply (proj2 (pi_fresh _ Hp _ _ Ht)) in H.
  - apply fork_register_ok in Hr as (q & _ & _ & ->). unfold fin, advance, zreg. cbn. rewrite !lookup_insert_eq. cbn. rewrite decide_True by done. naive_solver.
Qed.

Lemma proc_run_inv y : proc_run y → pids_ok y ∧ table_ok y ∧ codes_ok y.
Proof.
  induction 1 as [now|y t pc s' pc' evs born _ (Hp & Hy & Hc) Ht Hs].
  - assert (∀ t pc, ({[1 := AtUser]} : gmap Z Pc) !! t = Some pc → t = 1 ∧ pc = AtUser) as Hl by (intros t pc; rewrite lookup_singleton_Some; naive_solver).
    split; [|split]; split; cbn; try (by intros ???%not_elem_of_nil); try (intros; set_solver); try done.
    all: try (by intros ?? [_ [=]]%Hl).
    all: try (by intros ???? [_ [=]]%Hl).
    + intros t [pc [-> _]%Hl]. by left.
    + intros t. split; [intros [code H]; by apply not_elem_of_nil in H|]. destruct (({[1 := AtUser]} : gmap Z Pc) !! t) as [pc|] eqn:E; [apply Hl in E as [_ ->]|]; done.
  - pose proof (pi_next _ Hp) as Hn. pose proof (sect_kind t (procs y) pc s' pc' evs born ltac:(lia) Hs) as Hk.
    split; [by eapply pids_step|]. split; [by eapply table_step|]. eapply codes_step; try done; intros p c Hf; by destruct (kind_new _ _ _ _ _ _ _ p c Hp Hc Ht Hk Hf).
Qed.

Lemma find_zombie_finds target l s c :
  c ∈ l → zreg c s = Some true → target = 0 ∨ target = c → ∃ c', find_zombie target l s = Some c'.
Proof.
  intros Hl Hz Ht. unfold find_zombie. destruct (List.find _ l) eqn:E; [by eexists|]. pose proof (find_none _ _ E c) as Hn. cbn in Hn.
  unfold zreg in Hz. destruct (PROCESS_REGISTRY s !! c) as [p|]; cbn in Hz; [|done]. injection Hz as Hz. cbn in Hn. rewrite Hz in Hn.
  rewrite andb_true_r in Hn. specialize (Hn ltac:(by apply list_elem_of_In)). destruct Ht as [-> | ->]; [done|]. rewrite Z.eqb_refl, orb_true_r in Hn. done.
Qed.

(** C19: Waiting for children is exact under any interleaving of tasks. Each result of
    waitpid is a child of the caller that has exited, it is given out once, and its
    code is the one it exited with, unless the wait came between the two sections of
    exit that mark the process and store the code, when it is 0. No exited child is
    lost: until a wait takes it, it is among the children of its parent, and a wait
    for it or for any child does not block. There are never more than 1024 processes. *)
Theorem waitpid_exact y :
  proc_run y →
  good_hist (hist y) ∧
  (∀ p c code, Forked p c ∈ hist y → Exited c code ∈ hist y → (∀ k, Taken p c k ∉ hist y) →
     c ∈ get_children p (procs y) ∧
     ∀ target o l, pcs y !! p = Some (Waiting target o l) → target = 0 ∨ target = c →
       ∃ s' c' k, wait_check target o l (procs y) = (s', Found c' k)) ∧
  Z.of_nat (size (PROCESS_REGISTRY (procs y))) ≤ MAX_PROCESSES.
Proof.
  intros (Hp & Hy & Hc)%proc_run_inv. split; [apply Hc|]. split; [|apply Hy]. intros p c code Hf He Hn.
  assert (¬ fin y p c) as Hnf by (intros [k Hk]%(co_taken _ Hc p c Hf); by apply Hn in Hk).
  assert (life (pcs y !! c) = Exiting) as Hl by (apply (co_exit _ Hc); eauto).
  pose proof (ta_phase _ Hy p c Hf) as Hph. unfold child_phase in Hph. rewrite Hl in Hph.
  assert (zreg c (procs y) = Some true ∧ bool_decide (c ∈ get_children p (procs y)) = true) as [Hz Hk].
  { unfold fin in Hnf. inversion Hph as [| |H1 H2 H3 H4|H1 H2 H3 H4|H1 H2 H3 H4|H1 H2 H3 H4]; [done|..]; destruct Hnf; by eauto. }
  apply bool_decide_eq_true in Hk. split; [done|]. intros target o l Hw Ht. unfold wait_check.
  rewrite <-(ta_wait _ Hy p target o l) in Hk by eauto. destruct (find_zombie_finds target l (procs y) c Hk Hz Ht) as [c' ->]. eauto.
Qed.

(** ** Witness *)

Lemma step_to y t pc s' pc' evs born y' :
  proc_run y → pcs y !! t = Some pc → sect t (procs y) pc s' pc' evs born → y' = mkSys s' (advance t pc' born (pcs y)) (evs ++ hist y) → proc_run y'.
Proof. intros Hr Ht Hs ->. by eapply run_step. Qed.

(** The parent 1 has forked process 100 and the child runs. *)
Definition ex_forked : Sys :=
  let s := (next_pid (init 0 Procs_empty)).1 in
  let s := (fork_register 1 100 0 (Some 8192) s).1 in
  mkSys (fork_publish 1 100 8192 "init (child)" s) {[1 := AtUser; 100 := AtUser]} [Forked 1 100].

Lemma ex_forked_run : proc_run ex_forked.
Proof.
  assert (proc_run (mkSys (next_pid (init 0 Procs_empty)).1 {[1 := ForkPid 100]} [])) as H1.
  { eapply (step_to _ 1 AtUser); [apply (run_boot 0)|done|by eapply sect_pid|]. done. }
  assert (proc_run (mkSys (fork_register 1 100 0 (Some 8192) (next_pid (init 0 Procs_empty)).1).1 {[1 := ForkRegistered 100 8192 "init (child)"]} [Forked 1 100])) as H2.
  { eapply (step_to _ 1 (ForkPid 100)); [exact H1|done|apply (sect_register _ _ _ 100 0 (Some 8192) 8192 "init (child)"); reflexivity|done]. }
  eapply (step_to _ 1 (ForkRegistered 100 8192 "init (child)")); [exact H2|done|apply sect_publish|]. done.
Qed.

(** The child has exited with 7, up to the section that stores the code if [stored]. *)
Definition ex_exited (stored : bool) : Sys :=
  let s := exit_mark 100 7 (procs ex_forked) in
  if stored then mkSys (exit_store 100 7 s) {[1 := AtUser; 100 := ExitStored]} [Stored 100; Exited 100 7; Forked 1 100]
  else mkSys s {[1 := AtUser; 100 := ExitMarked 7]} [Exited 100 7; Forked 1 100].

Lemma ex_exited_run stored : proc_run (ex_exited stored).
Proof.
  assert (proc_run (ex_exited false)) as Hf by (eapply (step_to _ 100 AtUser); [exact ex_forked_run|done|apply (sect_mark _ _ 7)|done]).
  destruct stored; [|done]. eapply (step_to _ 100 (ExitMarked 7)); [exact Hf|done|apply sect_store|done].
Qed.

Definition ex_waited (stored : bool) : Sys :=
  mkSys (wait_check 0 0 [100] (procs (ex_exited stored))).1 (<[1 := WaitFound 100 (if stored then 7 else 0)]> (pcs (ex_exited stored)))
    (Taken 1 100 (if stored then 7 else 0) :: hist (ex_exited stored)).

Lemma ex_found stored : (wait_check 0 0 [100] (procs (ex_exited stored))).2 = Found 100 (if stored then 7 else 0).
Proof. by destruct stored; vm_compute. Qed.

Lemma ex_waited_run stored : proc_run (ex_waited stored).
Proof.
  assert (proc_run (mkSys (procs (ex_exited stored)) (<[1 := Waiting 0 0 [100]]> (pcs (ex_exited stored))) (hist (ex_exited stored)))) as Hw.
  { eapply (step_to _ 1 AtUser); [exact (ex_exited_run stored)|by destruct stored|apply (sect_wait _ _ 0 0 [100]); by destruct stored|done]. }
  eapply (step_to _ 1 (Waiting 0 0 [100])); [exact Hw|by destruct stored|apply (sect_found _ _ (wait_check 0 0 [100] (procs (ex_exited stored))).1 0 0 [100] 100 (if stored then 7 else 0)); rewrite <-ex_found; by destruct wait_check|].
  unfold ex_waited, advance. cbn [pcs hist procs app]. by rewrite insert_insert_eq.
Qed.

Lemma waitpid_exact_witness : good_hist [Taken 1 100 7; Stored 100; Exited 100 7; Forked 1 100].
Proof. exact (proj1 (waitpid_exact (ex_waited true) (ex_waited_run true))). Defined.

(** ** Where the code departs from POSIX or from its own documentation *)

(** A wait between the sections of an exit reports 0 for a child that exited with 7. *)
Lemma waitpid_race : proc_run (ex_waited false) ∧ hist (ex_waited false) = [Taken 1 100 0; Exited 100 7; Forked 1 100].
Proof. split; [apply ex_waited_run|done]. Qed.

(** Waiting for a process that is no child blocks, as long as the caller has children. *)
Lemma wait_for_stranger_blocks target o l s : target ≠ 0 → target ∉ l → is_wnohang o = false → wait_check target o l s = (s, WouldBlock).
Proof.
  intros H0 Hl Ho. unfold wait_check. destruct (find_zombie target l s) as [c|] eqn:E; [|by rewrite Ho].
  apply find_zombie_some in E as (Hc & _ & [->| ->]); done.
Qed.

Lemma init_for_lookup tid s : FD_TABLES (init_for tid s) !! tid = Some (next_arc s) ∧ heap (init_for tid s) !! next_arc s = Some FdTable_new.
Proof. cbn. by rewrite !lookup_insert_eq. Qed.

(** A child does not inherit the descriptors of its parent. *)
Lemma fork_fresh_descriptors parent_tid now l4 s s' c :
  do_fork parent_tid now l4 s = (s', Ok c) → ∃ a, FD_TABLES (fds s') !! c = Some a ∧ heap (fds s') !! a = Some FdTable_new.
Proof.
  unfold do_fork, fork_register. intros H. destruct (next_pid s) as [s1 c1]. repeat case_match; simplify_eq. eexists. apply init_for_lookup.
Qed.

(** [execve] closes nothing and drops every descriptor, whatever its flags. *)
Lemma exec_drops_descriptors tid path argv elf loaded now s :
  loaded elf = true →
  ∃ a, FD_TABLES (fds (do_execve tid path argv (Some elf) loaded now s).1) !! tid = Some a ∧
    heap (fds (do_execve tid path argv (Some elf) loaded now s).1) !! a = Some FdTable_new ∧
    calls (fds (do_execve tid path argv (Some elf) loaded now s).1) = calls (fds s).
Proof. intros Hl. unfold do_execve. rewrite Hl. cbn. eexists. by rewrite !lookup_insert_eq. Qed.

(** Children of a process that has exited are never reaped: they keep their place
    among the 1024. *)
Lemma orphans_stay y t pc s' pc' evs born p c :
  proc_run y → pcs y !! p = Some Gone → Forked p c ∈ hist y → is_Some (PROCESS_REGISTRY (procs y) !! c) →
  pcs y !! t = Some pc → sect t (procs y) pc s' pc' evs born →
  advance t pc' born (pcs y) !! p = Some Gone ∧ is_Some (PROCESS_REGISTRY s' !! c).
Proof.
  intros (Hp & Hy & Hc)%proc_run_inv Hg Hf Hr Ht Hs. pose proof (pi_next _ Hp) as Hn.
  pose proof (sect_kind t (procs y) pc s' pc' evs born ltac:(lia) Hs) as Hk. assert (t ≠ p) as Htp by (intros ->; rewrite Hg in Ht; simplify_eq; inversion Hs).
  split.
  - unfold advance. rewrite lookup_insert_ne by done. destruct born as [x|]; [|done]. rewrite lookup_insert_ne; [done|]. intros ->.
    destruct (proj2 (proj2 (proj2 (proj2 (sect_pids t (procs y) pc s' pc' _ _ Hs ltac:(lia))))) p eq_refl) as (l4 & n & ->).
    pose proof (ta_phase _ Hy t p (pi_forking _ Hp _ _ _ _ Ht)) as Hph. unfold child_phase in Hph. rewrite Ht, Hg in Hph. cbn in Hph. rewrite decide_True in Hph by done.
    inversion Hph.
  - destruct (PROCESS_REGISTRY s' !! c) as [q|] eqn:E; [by eexists|].
    destruct (proj1 (fin_step _ _ _ _ _ _ _ p c Hp Hy Ht Hk Hf)) as [[code Hcode]|[Hx|[Hx|Hx]]].
    + right. right. unfold zreg. cbn. by rewrite E.
    + pose proof (kind_coding _ _ _ _ _ _ _ Hy Ht Hk) as Hcd. inversion Hcd; subst; [|set_solver..]. destruct (H (Taken p c code)) as [? [=]]. done.
    + by rewrite Hg in Hx.
    + by rewrite Hg in Hx.
    + unfold zreg in Hx. destruct (PROCESS_REGISTRY (procs y) !! c); [done|]. by destruct Hr.
Qed.
