(* ===== verification/Elf.v ===== *)
(** * The ELF loader ([src/src/elf/mod.rs], with [get_needed_libs] of
    [src/src/elf/dynlink.rs]).

    From the bytes of an executable to an address space: the segments, the stack and
    the registers a program starts with. The headers are read by the package
    xmas-elf, which is a parameter: a function from bytes to the header fields that
    the loader uses. An address space is a map from page addresses to contents and
    flags; the environment says which frames can be allocated and mapped, what they
    held before, and the random bits. A panic is [None]: the addresses of the package
    x86_64 panic when they are not canonical or when their difference is negative, a
    slice when its range is not in order. *)

From Stdlib Require Import ZArith Lia Bool.
From stdpp Require Import base gmap sets strings numbers list.
From S2P Require Import Prelude Types Utf8.

Local Open Scope Z_scope.

(** ** Data *)

Record ElfConfig := mkElfConfig {
  enable_aslr : bool;
  stack_size : Z;
  load_dynamic_libs : bool;
  max_dynamic_libs : Z;
  verbose : bool;
}.

Definition ElfConfig_default : ElfConfig := mkElfConfig true (2 * 1024 * 1024) false 32 false.

Definition ElfConfig_validate (c : ElfConfig) : result unit string :=
  if (stack_size c =? 0) || negb (stack_size c `mod` 4096 =? 0) then Err "stack_size must be a multiple of 4096 and > 0"
  else if max_dynamic_libs c =? 0 then Err "max_dynamic_libs must be > 0"
  else Ok tt.

Record ElfMetrics := mkElfMetrics {
  loads : Z; pages_allocated : Z; dynlibs_loaded : Z; load_failures : Z; bss_pages_zeroed : Z;
}.
#[export] Instance eta_elf_metrics : Settable ElfMetrics := λ m,
  mkElfMetrics (loads m) (pages_allocated m) (dynlibs_loaded m) (load_failures m) (bss_pages_zeroed m).

Definition record_load (m : ElfMetrics) : ElfMetrics := m <| loads := add64 (loads m) 1 |>.
Definition record_page (m : ElfMetrics) : ElfMetrics := m <| pages_allocated := add64 (pages_allocated m) 1 |>.
Definition record_dynlib (m : ElfMetrics) : ElfMetrics := m <| dynlibs_loaded := add64 (dynlibs_loaded m) 1 |>.
Definition record_failure (m : ElfMetrics) : ElfMetrics := m <| load_failures := add64 (load_failures m) 1 |>.
Definition record_bss_page (m : ElfMetrics) : ElfMetrics := m <| bss_pages_zeroed := add64 (bss_pages_zeroed m) 1 |>.

Inductive ElfError :=
| InvalidMagic | NotExecutable | NotElf64 | SegmentMapFail (m : string) | OomForSegment | ParseError (m : string)
| InvalidHeader | SegmentAlignment | TooManyDynamicLibs (max : Z).

(** What xmas-elf reads. *)
Inductive SegType := Load | OtherSegment.
Inductive ElfType := Executable | SharedObject | OtherType.

Record Segment := mkSegment {
  seg_type : result SegType string;
  virtual_addr : Z;
  file_size : Z;
  mem_size : Z;
  offset : Z;
  is_write : bool;
  is_execute : bool;
}.

Record ElfFile := mkElfFile {
  magic_ok : bool;
  little_endian : bool;
  elf_type : ElfType;
  raw_entry : Z;
  program_iter : list Segment;
}.

#[export] Instance elf_type_dec : EqDecision ElfType.
Proof. solve_decision. Defined.

(** A page of an address space. *)
Record Page := mkPage { content : list Z; pte_flags : Z }.

Definition PRESENT : Z := 1.
Definition WRITABLE : Z := 2.
Definition USER_ACCESSIBLE : Z := 4.
Definition NO_EXECUTE : Z := 2 ^ 63.

Record AddressSpace := mkAddressSpace {
  pages : gmap Z Page;
  entry_point : Z;
  stack_top : Z;
  argc : Z;
  auxv_ptr : Z;
}.
#[export] Instance eta_elf_space : Settable AddressSpace := λ a,
  mkAddressSpace (pages a) (entry_point a) (stack_top a) (argc a) (auxv_ptr a).

(** What the machine does during a load; frames are counted from 0. *)
Record Machine := mkMachine {
  entropy : Z;
  space_ok : result unit string;
  frame_ok : nat → bool;
  frame_old : nat → list Z;
  map_ok : nat → bool;
}.

(** A page as a number of bytes. *)
Definition page_size : nat := Z.to_nat 4096.
#[global] Arguments page_size : simpl never.

(** ** Addresses *)

Definition canonical (v : Z) : bool := (v <? 2 ^ 47) || (2 ^ 64 - 2 ^ 47 <=? v).
Definition virt_addr_new (v : Z) : option Z := if canonical v then Some v else None.

(** [v & !0xFFF] *)
Definition page_floor (v : Z) : Z := Z.ldiff v 0xFFF.

(** ** Loading pages *)

Record LoadState := mkLoadState { space : AddressSpace; mets : ElfMetrics; next_frame : nat }.
#[export] Instance eta_load_state : Settable LoadState := λ s, mkLoadState (space s) (mets s) (next_frame s).

Section load.
Variable (mc : Machine) (elf_bytes : bytes).
Local Open Scope Z_scope.

(** [allocate_one], [record_page]; a frame is its number. *)
Definition take_frame (s : LoadState) : LoadState * result nat ElfError :=
  if frame_ok mc (next_frame s) then
    (s <| mets := record_page (mets s) |> <| next_frame := S (next_frame s) |>, Ok (next_frame s))
  else (s, Err OomForSegment).

Definition map_page (page : Z) (frame : nat) (p : Page) (s : LoadState) : LoadState * result unit ElfError :=
  match pages (space s) !! page with
  | Some _ => (s, Err (SegmentMapFail "page already mapped"))
  | None =>
    if map_ok mc frame then (s <| space := (space s) <| pages := <[page := p]> (pages (space s)) |> |>, Ok tt)
    else (s, Err (SegmentMapFail "out of memory"))
  end.

(** The file data of a page, over zeros; [None] when the slice panics. *)
Definition file_data (vaddr file_size offset page_vaddr : Z) : option (list Z) :=
  let zeros := replicate page_size 0 in
  if vaddr <=? page_vaddr then
    let seg_byte_offset := page_vaddr - vaddr in
    if seg_byte_offset <? file_size then
      let copy_start := add64 offset seg_byte_offset in
      let copy_len := Z.min (file_size - seg_byte_offset) 4096 in
      let copy_end := add64 copy_start copy_len in
      if copy_end <=? Z.of_nat (length elf_bytes) then
        if copy_start <=? copy_end then
          Some (slice (Z.to_nat copy_start) (Z.to_nat copy_len) elf_bytes ++ drop (Z.to_nat copy_len) zeros)
        else None
      else Some zeros
    else Some zeros
  else Some zeros.

(** Clearing what follows the file data, on the last page. *)
Definition clear_bss (vaddr file_size mem_size page_vaddr : Z) (c : list Z) : list Z * bool :=
  let bss_start := add64 vaddr file_size in
  let bss_len := mem_size - file_size in
  let bss_offset := sub64 bss_start page_vaddr in
  let bss_end := add64 bss_offset bss_len in
  if bss_offset <? 4096 then
    let zero_len := sat_sub (Z.min bss_end 4096) bss_offset in
    (take (Z.to_nat bss_offset) c ++ replicate (Z.to_nat zero_len) 0 ++ drop (Z.to_nat (bss_offset + zero_len)) c, true)
  else (c, false).

(** The body of the loop over the pages of a segment. *)
Definition load_page (vaddr : Z) (sg : Segment) (page_start num_pages page_flags i : Z) (s : LoadState) : option (LoadState * result unit ElfError) :=
  page_vaddr ← virt_addr_new (add64 page_start (mul64 i 4096));
  match take_frame s with
  | (s, Err e) => Some (s, Err e)
  | (s, Ok frame) =>
    c ← file_data vaddr (file_size sg) (offset sg) page_vaddr;
    let '(c, cleared) :=
      if (i =? num_pages - 1) && (file_size sg <? mem_size sg) then clear_bss vaddr (file_size sg) (mem_size sg) page_vaddr c else (c, false) in
    let s := if cleared then s <| mets := record_bss_page (mets s) |> else s in
    Some (map_page (page_floor page_vaddr) frame (mkPage c page_flags) s)
  end.

(** [n] pages are left, the next one has index [i]. *)
Fixpoint pages_loop (vaddr : Z) (sg : Segment) (page_start num_pages page_flags : Z) (n : nat) (i : Z) (s : LoadState)
    : option (LoadState * result unit ElfError) :=
  match n with
  | O => Some (s, Ok tt)
  | S n =>
    r ← load_page vaddr sg page_start num_pages page_flags i s;
    match r with
    | (s, Err e) => Some (s, Err e)
    | (s, Ok _) => pages_loop vaddr sg page_start num_pages page_flags n (i + 1) s
    end
  end.

Definition segment_flags (sg : Segment) : Z :=
  let f := Z.lor PRESENT USER_ACCESSIBLE in
  let f := if is_write sg then Z.lor f WRITABLE else f in
  if negb (is_execute sg) then Z.lor f NO_EXECUTE else f.

Definition load_segment (vaddr : Z) (sg : Segment) (s : LoadState) : option (LoadState * result unit ElfError) :=
  page_start ← virt_addr_new (page_floor vaddr);
  page_end ← virt_addr_new (page_floor (add64 (add64 vaddr (mem_size sg)) 0xFFF));
  if page_end <? page_start then None else
  let num_pages := (page_end - page_start) `div` 4096 in
  pages_loop vaddr sg page_start num_pages (segment_flags sg) (Z.to_nat num_pages) 0 s.

Fixpoint segments_loop (slide : Z) (sgs : list Segment) (s : LoadState) : option (LoadState * result unit ElfError) :=
  match sgs with
  | [] => Some (s, Ok tt)
  | sg :: sgs =>
    match seg_type sg with
    | Err _ => Some (s, Err (ParseError "segment type"))
    | Ok OtherSegment => segments_loop slide sgs s
    | Ok Load =>
      r ← load_segment (add64 (virtual_addr sg) slide) sg s;
      match r with
      | (s, Err e) => Some (s, Err e)
      | (s, Ok _) => segments_loop slide sgs s
      end
    end
  end.

Definition STACK_TOP : Z := 0x7FFF00000000.

Definition stack_flags : Z := Z.lor (Z.lor (Z.lor PRESENT WRITABLE) USER_ACCESSIBLE) NO_EXECUTE.

(** The frames of the stack keep what they held. *)
Fixpoint stack_loop (stack_start : Z) (n : nat) (i : Z) (s : LoadState) : option (LoadState * result unit ElfError) :=
  match n with
  | O => Some (s, Ok tt)
  | S n =>
    page_vaddr ← virt_addr_new (add64 stack_start (mul64 i 4096));
    match take_frame s with
    | (s, Err e) => Some (s, Err e)
    | (s, Ok frame) =>
      match map_page (page_floor page_vaddr) frame (mkPage (frame_old mc frame) stack_flags) s with
      | (s, Err e) => Some (s, Err e)
      | (s, Ok _) => stack_loop stack_start n (i + 1) s
      end
    end
  end.
End load.

(** ** The stack of a new program *)

(** [!7] and [!0xF] *)
Definition align8 (v : Z) : Z := Z.ldiff v 7.
Definition align16 (v : Z) : Z := Z.ldiff v 15.

(** [write_str] reserves room and writes nothing. *)
Definition write_str (sp : Z) (str : bytes) : Z := align8 (sub64 sp (Z.of_nat (length str) + 1)).

Definition setup_userspace_stack (argv envp : list bytes) (entry : Z) : Z * Z * Z :=
  let sp := STACK_TOP - 8 in
  let sp := foldl write_str sp (reverse envp) in
  let sp := foldl write_str sp (reverse argv) in
  let sp := align8 sp in
  let sp := align8 (sub64 sp 16) in
  let sp := align8 (sub64 sp (8 * 16)) in
  let auxv_ptr := sp in
  let sp := sub64 sp 8 in
  let sp := foldl (λ sp _, sub64 sp 8) sp envp in
  let sp := sub64 sp 8 in
  let sp := foldl (λ sp _, sub64 sp 8) sp argv in
  let sp := align16 (sub64 sp 8) in
  (sp, Z.of_nat (length argv), auxv_ptr).

(** ** The libraries an executable names *)

(** [elf[a..b]] as a little-endian number; [None] is a panic. *)
Definition le_at (elf : bytes) (a b : Z) : option Z :=
  if (a <=? b) && (b <=? Z.of_nat (length elf)) then Some (le_value (slice (Z.to_nat a) (Z.to_nat (b - a)) elf)) else None.

Record Tables := mkTables { dynstr_off : Z; dynamic_off : Z; dynamic_size : Z }.

(** The loop over section headers; [n] are left, the next one is number [i]. *)
Fixpoint sections_loop (elf : bytes) (shoff shentsize : Z) (n : nat) (i : Z) (t : Tables) : option Tables :=
  match n with
  | O => Some t
  | S n =>
    let off := add64 shoff (mul64 i shentsize) in
    if Z.of_nat (length elf) <? add64 off shentsize then Some t else
    sh_type ← le_at elf (add64 off 4) (add64 off 8);
    sh_off ← le_at elf (add64 off 24) (add64 off 32);
    sh_size ← le_at elf (add64 off 32) (add64 off 40);
    let t :=
      if sh_type =? 6 then mkTables (dynstr_off t) sh_off sh_size
      else if sh_type =? 3 then mkTables sh_off (dynamic_off t) (dynamic_size t)
      else t in
    sections_loop elf shoff shentsize n (i + 1) t
  end.

(** The bytes from [off] up to a zero. *)
Definition c_string (elf : bytes) (off : Z) : bytes :=
  let rest := drop (Z.to_nat off) elf in
  match list_find (λ b, b = 0) rest with Some (p, _) => take p rest | None => rest end.

(** The loop over dynamic entries. The length of the file is enough as fuel: each
    turn needs 16 more bytes of it. *)
Fixpoint dynamic_loop (fuel : nat) (elf : bytes) (t : Tables) (i : Z) (libs : list bytes) : option (list bytes) :=
  match fuel with
  | O => None
  | S fuel =>
    if negb (add64 i 16 <=? dynamic_size t) then Some libs else
    let off := add64 (dynamic_off t) i in
    if Z.of_nat (length elf) <? add64 off 16 then Some libs else
    d_tag ← le_at elf off (add64 off 8);
    d_val ← le_at elf (add64 off 8) (add64 off 16);
    let libs :=
      if d_tag =? 1 then
        let name_off := add64 (dynstr_off t) d_val in
        if name_off <? Z.of_nat (length elf) then
          let name := c_string elf name_off in
          match from_utf8 name with Some _ => libs ++ [name] | None => libs end
        else libs
      else libs in
    if d_tag =? 0 then Some libs else dynamic_loop fuel elf t (add64 i 16) libs
  end.

Definition get_needed_libs (elf : bytes) : option (list bytes) :=
  if (length elf <? 64)%nat then Some [] else
  shoff ← le_at elf 40 48;
  shentsize ← le_at elf 58 60;
  shnum ← le_at elf 60 62;
  t ← sections_loop elf shoff shentsize (Z.to_nat shnum) 0 (mkTables 0 0 0);
  dynamic_loop (S (length elf)) elf t 0 [].

Fixpoint count_libs (max : Z) (needed : list bytes) (count : Z) (m : ElfMetrics) : ElfMetrics * result unit ElfError :=
  match needed with
  | [] => (m, Ok tt)
  | _ :: needed => if max <=? count then (m, Err (TooManyDynamicLibs max)) else count_libs max needed (count + 1) (record_dynlib m)
  end.

Definition load_dynamic_libraries (c : ElfConfig) (elf : bytes) (m : ElfMetrics) : option (ElfMetrics * result unit ElfError) :=
  needed ← get_needed_libs elf;
  Some (match needed with [] => (m, Ok tt) | _ => count_libs (max_dynamic_libs c) needed 0 m end).

(** ** The loader *)

Section loader.
Variable (ElfFile_new : bytes → result ElfFile string).

Definition is_load (sg : Segment) : bool := match seg_type sg with Ok Load => true | _ => false end.

Definition min_list (l : list Z) : option Z :=
  match l with [] => None | x :: l => Some (foldl Z.min x l) end.

(** The least address of a segment that is loaded. *)
Definition min_load_addr (f : ElfFile) : Z := default 0 (min_list (virtual_addr <$> filter (λ sg, is_load sg = true) (program_iter f))).

Definition aslr_slide (c : ElfConfig) (mc : Machine) : Z :=
  if enable_aslr c then Z.shiftl (Z.land (entropy mc) 0x3FFF) 12 else 0.

Definition base_vaddr (f : ElfFile) (slide : Z) : Z :=
  if bool_decide (elf_type f = Executable) then add64 (min_load_addr f) slide else 0x40000000 + slide.

Definition entry_of (f : ElfFile) (slide : Z) : Z :=
  if bool_decide (elf_type f = Executable) then add64 (base_vaddr f slide) (sub64 (raw_entry f) (min_load_addr f))
  else add64 (base_vaddr f slide) (raw_entry f).

(** What is added to the address of a segment. *)
Definition segment_slide (f : ElfFile) (slide : Z) : Z :=
  if bool_decide (elf_type f = Executable) then slide else base_vaddr f slide.

Definition load_impl (c : ElfConfig) (mc : Machine) (elf_bytes : bytes) (argv envp : list bytes) (m : ElfMetrics)
    : option (ElfMetrics * result AddressSpace ElfError) :=
  match ElfFile_new elf_bytes with
  | Err _ => Some (m, Err InvalidMagic)
  | Ok f =>
    if negb (magic_ok f) then Some (m, Err InvalidMagic)
    else if negb (little_endian f) then Some (m, Err NotElf64)
    else if bool_decide (elf_type f = OtherType) then Some (m, Err NotExecutable)
    else
      let slide := aslr_slide c mc in
      let entry := entry_of f slide in
      match space_ok mc with
      | Err e => Some (m, Err (SegmentMapFail e))
      | Ok _ =>
        r ← segments_loop mc elf_bytes (segment_slide f slide) (program_iter f) (mkLoadState (mkAddressSpace ∅ 0 0 0 0) m 0);
        match r with
        | (s, Err e) => Some (mets s, Err e)
        | (s, Ok _) =>
          let stack_start := sub64 STACK_TOP (stack_size c) in
          r ← stack_loop mc stack_start (Z.to_nat (stack_size c `div` 4096)) 0 s;
          match r with
          | (s, Err e) => Some (mets s, Err e)
          | (s, Ok _) =>
            let '(stack_pointer, argc_, auxv) := setup_userspace_stack argv envp entry in
            let a := (space s) <| entry_point := entry |> <| stack_top := stack_pointer |> <| argc := argc_ |> <| auxv_ptr := auxv |> in
            if load_dynamic_libs c then
              r ← load_dynamic_libraries c elf_bytes (mets s);
              match r with
              | (m, Err e) => Some (m, Err e)
              | (m, Ok _) => Some (m, Ok a)
              end
            else Some (mets s, Ok a)
          end
        end
      end
  end.

Definition load_with_args (c : ElfConfig) (mc : Machine) (elf_bytes : bytes) (argv envp : list bytes) (m : ElfMetrics)
    : option (ElfMetrics * result AddressSpace ElfError) :=
  r ← load_impl c mc elf_bytes argv envp m;
  Some (match r with
        | (m, Ok a) => (record_load m, Ok a)
        | (m, Err e) => (record_failure m, Err e)
        end).
End loader.

(** ** What a loaded program sees *)

Lemma ldiff_low v n : 0 ≤ n → Z.ldiff v (Z.ones n) = v - v `mod` 2 ^ n.
Proof. intros Hn. rewrite Z.ldiff_ones_r, Z.shiftl_mul_pow2, Z.shiftr_div_pow2 by lia. pose proof (Z.div_mod v (2 ^ n) ltac:(lia)). lia. Qed.

Lemma page_size_eq : Z.of_nat page_size = 4096.
Proof. done. Qed.

Lemma page_floor_eq v : page_floor v = v - v `mod` 4096.
Proof. apply (ldiff_low v 12). lia. Qed.

(** The byte of a segment at a distance from its start. *)
Definition seg_byte (elf : bytes) (sg : Segment) (k : Z) : Z := if k <? file_size sg then elf !!! Z.to_nat (offset sg + k) else 0.

Definition num_pages (sg : Segment) : nat := Z.to_nat ((mem_size sg + 4095) `div` 4096).

(** [p] is one of the [n] pages from [a] on. *)
Definition in_pages (a : Z) (n : nat) (p : Z) : Prop := ∃ j, (j < n)%nat ∧ p = a + 4096 * Z.of_nat j.

(** The segment lies in user memory below [top], on a page boundary, and the file has its data. *)
Record seg_fits (top len slide : Z) (sg : Segment) : Prop := {
  sf_start : 0 ≤ virtual_addr sg ∧ 0 ≤ slide ∧ (virtual_addr sg + slide) `mod` 4096 = 0;
  sf_size : 0 ≤ file_size sg ≤ mem_size sg;
  sf_data : 0 ≤ offset sg ∧ offset sg + file_size sg ≤ len;
  sf_top : virtual_addr sg + slide + mem_size sg ≤ top;
}.

(** The page at distance [d] of a segment. *)
Record page_exact (elf : bytes) (sg : Segment) (d : Z) (pg : Page) : Prop := {
  pe_flags : pte_flags pg = segment_flags sg;
  pe_length : length (content pg) = page_size;
  pe_content i : (i < page_size)%nat → content pg !! i = Some (seg_byte elf sg (d + Z.of_nat i));
}.

Lemma in_pages_S a n p : in_pages a (S n) p ↔ p = a ∨ in_pages (a + 4096) n p.
Proof.
  split.
  - intros (j & Hj & ->). destruct j as [|j]; [left; lia|]. right. exists j. lia.
  - intros [->|(j & Hj & ->)]; [exists 0%nat; lia|]. exists (S j). lia.
Qed.

#[export] Instance in_pages_dec a n p : Decision (in_pages a n p).
Proof.
  revert a. induction n as [|n IH]; intros a; [right; intros (j & Hj & _); lia|].
  destruct (decide (p = a)); [left; by apply in_pages_S; left|]. destruct (IH (a + 4096)); [left; by apply in_pages_S; right|].
  right. rewrite in_pages_S. tauto.
Defined.

Lemma in_pages_below top len slide sg p :
  seg_fits top len slide sg → in_pages (virtual_addr sg + slide) (num_pages sg) p → 0 ≤ p < top.
Proof.
  intros [(Hv & Hs & _) Hsz _ Hfit] (j & Hj & ->). unfold num_pages in Hj.
  pose proof (Z.div_mod (mem_size sg + 4095) 4096 ltac:(lia)). pose proof (Z.mod_pos_bound (mem_size sg + 4095) 4096 ltac:(lia)). lia.
Qed.

(** A page of one of the segments that are loaded. *)
Definition in_segs (slide : Z) (sgs : list Segment) (p : Z) : Prop :=
  ∃ sg, sg ∈ sgs ∧ is_load sg = true ∧ in_pages (virtual_addr sg + slide) (num_pages sg) p.

(** No page belongs to two segments. *)
Fixpoint segs_disjoint (slide : Z) (sgs : list Segment) : Prop :=
  match sgs with
  | [] => True
  | sg :: sgs =>
    (is_load sg = true → ∀ p, in_pages (virtual_addr sg + slide) (num_pages sg) p → ¬ in_segs slide sgs p) ∧ segs_disjoint slide sgs
  end.

Lemma in_segs_cons slide sg sgs p :
  in_segs slide (sg :: sgs) p ↔ (is_load sg = true ∧ in_pages (virtual_addr sg + slide) (num_pages sg) p) ∨ in_segs slide sgs p.
Proof. unfold in_segs. setoid_rewrite elem_of_cons. naive_solver. Qed.

#[export] Instance in_segs_dec slide sgs p : Decision (in_segs slide sgs p).
Proof.
  induction sgs as [|sg sgs IH]; [right; by intros (sg & ?%elem_of_nil & _)|]. destruct IH; [left; apply in_segs_cons; by right|].
  destruct (decide (is_load sg = true ∧ in_pages (virtual_addr sg + slide) (num_pages sg) p)); [left; apply in_segs_cons; by left|].
  right. rewrite in_segs_cons. tauto.
Defined.

(** What the loops over pages do to the map of pages. *)
Record loaded (good : Z → Page → Prop) (a : Z) (n : nat) (s s' : LoadState) : Prop := {
  ld_in p : in_pages a n p → ∃ pg, pages (space s') !! p = Some pg ∧ good p pg;
  ld_out p : ¬ in_pages a n p → pages (space s') !! p = pages (space s) !! p;
}.

Lemma loaded_nil good a s : loaded good a 0 s s.
Proof. split; [|done]. intros p (j & Hj & _). lia. Qed.

Lemma loaded_cons good a n s s1 s' pg :
  pages (space s1) = <[a := pg]> (pages (space s)) → good a pg → loaded good (a + 4096) n s1 s' → loaded good a (S n) s s'.
Proof.
  intros H1 Hg [Hin Hout]. split; intros p; rewrite in_pages_S.
  - intros [->|Hp]; [|by apply Hin]. exists pg. rewrite Hout by (intros (j & _ & Hj); lia). by rewrite H1, lookup_insert_eq.
  - intros Hn. rewrite Hout by tauto. rewrite H1, lookup_insert_ne by (intros ->; tauto). done.
Qed.

Lemma virt_addr_user v : v < 2 ^ 47 → virt_addr_new v = Some v.
Proof. intros Hv. unfold virt_addr_new, canonical. by rewrite (proj2 (Z.ltb_lt _ _)) by lia. Qed.

Section exact.
Variable (mc : Machine) (elf : bytes).
Hypothesis Hframes : ∀ k, frame_ok mc k = true ∧ map_ok mc k = true.
Hypothesis Hlen : Z.of_nat (length elf) < 2 ^ 63.

Lemma file_data_exact sg vaddr d :
  0 ≤ vaddr → 0 ≤ d → 0 ≤ file_size sg → 0 ≤ offset sg → offset sg + file_size sg ≤ Z.of_nat (length elf) →
  ∃ c, file_data elf vaddr (file_size sg) (offset sg) (vaddr + d) = Some c ∧ length c = page_size ∧
    ∀ i, (i < page_size)%nat → c !! i = Some (seg_byte elf sg (d + Z.of_nat i)).
Proof.
  pose proof page_size_eq as Hps. intros Hv Hd Hfs Ho Hl. unfold file_data. rewrite (proj2 (Z.leb_le _ _)) by lia. replace (vaddr + d - vaddr) with d by lia. unfold seg_byte.
  destruct (Z.ltb_spec d (file_size sg)) as [Hlt|Hge].
  2: { eexists. split; [done|]. rewrite length_replicate. split; [done|]. intros i Hi. rewrite (proj2 (Z.ltb_ge _ _)) by lia. by apply lookup_replicate. }
  set (n := Z.min (file_size sg - d) 4096). assert (0 < n ≤ 4096 ∧ d + n ≤ file_size sg) as [Hn Hn'] by lia.
  rewrite (add64_small (offset sg) d), (add64_small _ n), (proj2 (Z.leb_le _ _)), (proj2 (Z.leb_le _ _)) by mach. eexists. split; [done|].
  assert (length (slice (Z.to_nat (offset sg + d)) (Z.to_nat n) elf) = Z.to_nat n) as Hs by (apply length_slice; lia).
  rewrite length_app, length_drop, length_replicate, Hs. split; [lia|]. intros i Hi. destruct (Z.ltb_spec (d + Z.of_nat i) (file_size sg)).
  - rewrite lookup_app_l by lia. unfold slice. rewrite lookup_take_lt, lookup_drop by lia. rewrite list_lookup_lookup_total_lt by lia. do 2 f_equal. lia.
  - rewrite lookup_app_r, lookup_drop, Hs by lia. apply lookup_replicate. lia.
Qed.

Lemma clear_bss_exact sg vaddr d c c' b :
  0 ≤ vaddr → 0 ≤ d → vaddr + d < 2 ^ 47 → 0 ≤ file_size sg ≤ mem_size sg → vaddr + mem_size sg < 2 ^ 47 → length c = page_size →
  (∀ i, (i < page_size)%nat → c !! i = Some (seg_byte elf sg (d + Z.of_nat i))) →
  clear_bss vaddr (file_size sg) (mem_size sg) (vaddr + d) c = (c', b) →
  length c' = page_size ∧ ∀ i, (i < page_size)%nat → c' !! i = Some (seg_byte elf sg (d + Z.of_nat i)).
Proof.
  pose proof page_size_eq as Hps. intros Hv Hd Hvd Hfs Hms Hlc Hc. unfold clear_bss. rewrite (add64_small vaddr) by mach. set (bo := sub64 _ _).
  destruct (Z.ltb_spec bo 4096) as [Hlt|]; [|by intros [= <- <-]]. assert (bo = file_size sg - d ∧ 0 ≤ bo) as [Hbo Hb0].
  { unfold bo, sub64, wrap64 in *. destruct (decide (0 ≤ file_size sg - d)).
    - rewrite Z.mod_small in * by lia. lia.
    - rewrite <-(Z.mod_add _ 1), Z.mod_small in Hlt by lia. lia. }
  rewrite (add64_small bo) by mach. set (zl := sat_sub _ _). assert (0 ≤ zl ∧ bo + zl ≤ 4096) as [Hz0 Hz] by (unfold zl, sat_sub; lia).
  intros [= <- <-]. rewrite !length_app, length_take, length_replicate, length_drop. split; [lia|]. intros i Hi.
  destruct (decide (i < Z.to_nat bo)%nat); [rewrite lookup_app_l, lookup_take_lt by (rewrite ?length_take; lia); by apply Hc|].
  rewrite lookup_app_r by (rewrite length_take; lia). rewrite length_take, Nat.min_l by lia.
  destruct (decide (i - Z.to_nat bo < Z.to_nat zl)%nat).
  - rewrite lookup_app_l by (rewrite length_replicate; lia). rewrite lookup_replicate_2 by lia. unfold seg_byte. by rewrite (proj2 (Z.ltb_ge _ _)) by lia.
  - rewrite lookup_app_r by (rewrite length_replicate; lia). rewrite length_replicate, lookup_drop.
    replace (Z.to_nat (bo + zl) + (i - Z.to_nat bo - Z.to_nat zl))%nat with i by lia. by apply Hc.
Qed.

Lemma take_frame_ok s :
  take_frame mc s = (s <| mets := record_page (mets s) |> <| next_frame := S (next_frame s) |>, Ok (next_frame s)).
Proof. unfold take_frame. by rewrite (proj1 (Hframes _)). Qed.

Lemma map_page_ok p k pg s :
  pages (space s) !! p = None → map_page mc p k pg s = (s <| space := (space s) <| pages := <[p := pg]> (pages (space s)) |> |>, Ok tt).
Proof. intros Hp. unfold map_page. by rewrite Hp, (proj2 (Hframes _)). Qed.

Lemma load_page_exact top sg vaddr np i s :
  top ≤ 2 ^ 47 - 4096 → 0 ≤ vaddr → vaddr `mod` 4096 = 0 → 0 ≤ file_size sg ≤ mem_size sg → vaddr + mem_size sg ≤ top →
  0 ≤ offset sg → offset sg + file_size sg ≤ Z.of_nat (length elf) → 0 ≤ i → 4096 * i < mem_size sg →
  pages (space s) !! (vaddr + 4096 * i) = None →
  ∃ s' pg, load_page mc elf vaddr sg vaddr np (segment_flags sg) i s = Some (s', Ok tt) ∧
    pages (space s') = <[vaddr + 4096 * i := pg]> (pages (space s)) ∧ page_exact elf sg (4096 * i) pg.
Proof.
  intros Htop Hv Hal Hfs Hms Ho Hl Hi Him Hnone. unfold load_page. rewrite (mul64_small i), (add64_small vaddr) by mach.
  rewrite (Z.mul_comm i), virt_addr_user by lia. cbn [mbind option_bind]. rewrite take_frame_ok.
  destruct (file_data_exact sg vaddr (4096 * i)) as (c & -> & Hlc & Hc); [lia..|]. cbn [mbind option_bind].
  destruct (if _ && _ then _ else _) as [c' b] eqn:E.
  assert (length c' = page_size ∧ ∀ j, (j < page_size)%nat → c' !! j = Some (seg_byte elf sg (4096 * i + Z.of_nat j))) as [Hlc' Hc'].
  { destruct (_ && _); [|by injection E as <- <-]. eapply clear_bss_exact; [..|exact E]; try done; lia. }
  assert (page_floor (vaddr + 4096 * i) = vaddr + 4096 * i) as -> by (rewrite page_floor_eq, (Z.mul_comm 4096), Z.mod_add by lia; lia).
  eexists _, (mkPage c' (segment_flags sg)). split; [by rewrite map_page_ok by by destruct b|]. split; [by destruct b|by split].
Qed.

Lemma pages_loop_exact top sg vaddr np n i s :
  top ≤ 2 ^ 47 - 4096 → 0 ≤ vaddr → vaddr `mod` 4096 = 0 → 0 ≤ file_size sg ≤ mem_size sg → vaddr + mem_size sg ≤ top →
  0 ≤ offset sg → offset sg + file_size sg ≤ Z.of_nat (length elf) → 0 ≤ i → 4096 * (i + Z.of_nat n - 1) < mem_size sg →
  (∀ p, in_pages (vaddr + 4096 * i) n p → pages (space s) !! p = None) →
  ∃ s', pages_loop mc elf vaddr sg vaddr np (segment_flags sg) n i s = Some (s', Ok tt) ∧
    loaded (λ p, page_exact elf sg (p - vaddr)) (vaddr + 4096 * i) n s s'.
Proof.
  intros Htop Hv Hal Hfs Hms Ho Hl. revert i s. induction n as [|n IH]; intros i s Hi Hn Hnone; cbn [pages_loop]; [eexists; split; [done|apply loaded_nil]|].
  destruct (load_page_exact top sg vaddr np i s) as (s1 & pg & -> & Hs1 & Hpg); try done; [lia|apply Hnone, in_pages_S; by left|]. cbn [mbind option_bind].
  replace (4096 * i) with (vaddr + 4096 * i - vaddr) in Hpg by lia.
  destruct (IH (i + 1) s1) as (s' & -> & Hld); [lia|lia| |].
  - intros p Hp. replace (vaddr + 4096 * (i + 1)) with (vaddr + 4096 * i + 4096) in Hp by lia. rewrite Hs1, lookup_insert_ne.
    + apply Hnone, in_pages_S. by right.
    + destruct Hp as (j & _ & ->). lia.
  - eexists. split; [done|]. eapply loaded_cons; [done|done|]. by replace (vaddr + 4096 * i + 4096) with (vaddr + 4096 * (i + 1)) by lia.
Qed.

Lemma load_segment_exact top slide sg s (vaddr := virtual_addr sg + slide) :
  top ≤ 2 ^ 47 - 4096 → seg_fits top (Z.of_nat (length elf)) slide sg → (∀ p, in_pages vaddr (num_pages sg) p → pages (space s) !! p = None) →
  ∃ s', load_segment mc elf (add64 (virtual_addr sg) slide) sg s = Some (s', Ok tt) ∧
    loaded (λ p, page_exact elf sg (p - vaddr)) vaddr (num_pages sg) s s'.
Proof.
  intros Htop [(Hv0 & Hs0 & Hal) Hsz [Ho Hl] Hfit] Hnone. unfold load_segment. rewrite add64_small by mach. fold vaddr in Hal, Hfit |- *.
  rewrite (add64_small vaddr), add64_small by mach. rewrite !page_floor_eq, Hal, Z.sub_0_r, (virt_addr_user vaddr) by lia. cbn [mbind option_bind].
  set (e := vaddr + mem_size sg + 4095). pose proof (Z.mod_pos_bound e 4096 ltac:(lia)) as Hm. rewrite virt_addr_user by lia. cbn [mbind option_bind].
  assert (e - e `mod` 4096 - vaddr = 4096 * ((mem_size sg + 4095) `div` 4096)) as He.
  { pose proof (Z.div_mod vaddr 4096 ltac:(lia)) as Hdv. rewrite Hal in Hdv. pose proof (Z.div_mod (mem_size sg + 4095) 4096 ltac:(lia)) as Hdm.
    unfold e. rewrite <-Z.add_assoc, Hdv. rewrite (Z.add_comm (4096 * _ + 0)), Z.add_0_r, (Z.mul_comm 4096 (vaddr `div` 4096)), Z.mod_add by lia. lia. }
  rewrite (proj2 (Z.ltb_ge _ _)) by lia. rewrite He, Z.mul_comm, Z.div_mul by lia. fold (num_pages sg).
  pose proof (Z.mod_pos_bound (mem_size sg + 4095) 4096 ltac:(lia)). pose proof (Z.div_mod (mem_size sg + 4095) 4096 ltac:(lia)).
  destruct (pages_loop_exact top sg vaddr ((mem_size sg + 4095) `div` 4096) (num_pages sg) 0 s) as (s' & Hs' & Hld); try done;
    [lia|unfold num_pages; lia|by rewrite Z.add_0_r|].
  rewrite Z.add_0_r in Hld. by exists s'.
Qed.

Lemma segments_loop_exact top slide sgs s :
  top ≤ 2 ^ 47 - 4096 → Forall (λ sg, is_ok (seg_type sg) = true) sgs →
  (∀ sg, sg ∈ sgs → is_load sg = true → seg_fits top (Z.of_nat (length elf)) slide sg) → segs_disjoint slide sgs →
  (∀ p, in_segs slide sgs p → pages (space s) !! p = None) →
  ∃ s', segments_loop mc elf slide sgs s = Some (s', Ok tt) ∧
    (∀ sg p, sg ∈ sgs → is_load sg = true → in_pages (virtual_addr sg + slide) (num_pages sg) p →
       ∃ pg, pages (space s') !! p = Some pg ∧ page_exact elf sg (p - (virtual_addr sg + slide)) pg) ∧
    (∀ p, ¬ in_segs slide sgs p → pages (space s') !! p = pages (space s) !! p).
Proof.
  intros Htop Hty. revert s. induction Hty as [|sg sgs Hsg Hty IH]; intros s Hfit Hdis Hnone; cbn [segments_loop].
  { eexists. split; [done|]. split; [|done]. by intros sg p ?%elem_of_nil. }
  destruct Hdis as [Hd Hdis]. destruct (seg_type sg) as [[]|e] eqn:Et; [| |done].
  - assert (is_load sg = true) as Hl by (unfold is_load; by rewrite Et).
    destruct (load_segment_exact top slide sg s Htop) as (s1 & -> & [Hin Hout]); [apply Hfit; [by left|done]|by intros p Hp; apply Hnone, in_segs_cons; left|].
    cbn [mbind option_bind]. destruct (IH s1) as (s' & -> & Hin' & Hout').
    + intros sg' Hs'. apply Hfit. by right.
    + done.
    + intros p Hp. rewrite Hout by (intros Hp'; by apply (Hd Hl p Hp')). apply Hnone, in_segs_cons. by right.
    + eexists. split; [done|]. split.
      * intros sg' p [->|Hs']%elem_of_cons Hl' Hp; [|by apply Hin']. rewrite Hout' by by apply Hd. by apply Hin.
      * intros p Hp. rewrite in_segs_cons in Hp. rewrite Hout' by tauto. apply Hout. tauto.
  - assert (is_load sg = false) as Hl by (unfold is_load; by rewrite Et). destruct (IH s) as (s' & Hs' & Hin' & Hout').
    + intros sg' Hsg'. apply Hfit. by right.
    + done.
    + intros p Hp. apply Hnone, in_segs_cons. by right.
    + eexists. split; [done|]. split.
      * intros sg' p [->|Hsg']%elem_of_cons Hl' Hp; [congruence|by apply Hin'].
      * intros p Hp. apply Hout'. rewrite in_segs_cons in Hp. tauto.
Qed.

Lemma stack_loop_exact start n i s :
  0 ≤ start → start `mod` 4096 = 0 → 0 ≤ i → start + 4096 * (i + Z.of_nat n) ≤ 2 ^ 47 →
  (∀ p, in_pages (start + 4096 * i) n p → pages (space s) !! p = None) →
  ∃ s', stack_loop mc start n i s = Some (s', Ok tt) ∧ loaded (λ _ pg, pte_flags pg = stack_flags) (start + 4096 * i) n s s'.
Proof.
  clear Hlen elf.
  intros H0 Hal. revert i s. induction n as [|n IH]; intros i s Hi Hn Hnone; cbn [stack_loop]; [eexists; split; [done|apply loaded_nil]|].
  rewrite (mul64_small i), (add64_small start), (Z.mul_comm i), virt_addr_user by mach. cbn [mbind option_bind]. rewrite take_frame_ok.
  assert (page_floor (start + 4096 * i) = start + 4096 * i) as -> by (rewrite page_floor_eq, (Z.mul_comm 4096), Z.mod_add by lia; lia).
  rewrite map_page_ok by (apply Hnone, in_pages_S; by left). set (s1 := _ <| space := _ |>).
  destruct (IH (i + 1) s1) as (s' & -> & Hld); [lia|lia| |].
  - intros p Hp. replace (start + 4096 * (i + 1)) with (start + 4096 * i + 4096) in Hp by lia. cbn. rewrite lookup_insert_ne.
    + apply Hnone, in_pages_S. by right.
    + destruct Hp as (j & _ & ->). lia.
  - eexists. split; [done|]. eapply (loaded_cons _ _ _ s s1 s'); [reflexivity|reflexivity|]. by replace (start + 4096 * i + 4096) with (start + 4096 * (i + 1)) by lia.
Qed.
End exact.

(** The byte and the flags at a virtual address. *)
Definition byte_at (a : AddressSpace) (x : Z) : option Z := pg ← pages a !! page_floor x; content pg !! Z.to_nat (x `mod` 4096).
Definition flags_at (a : AddressSpace) (x : Z) : option Z := pte_flags <$> pages a !! page_floor x.

(** A file that the loader is to accept. *)
Record file_fits (c : ElfConfig) (slide : Z) (elf : bytes) (f : ElfFile) : Prop := {
  ff_magic : magic_ok f = true;
  ff_little : little_endian f = true;
  ff_type : elf_type f ≠ OtherType;
  ff_len : Z.of_nat (length elf) < 2 ^ 63;
  ff_types : Forall (λ sg, is_ok (seg_type sg) = true) (program_iter f);
  ff_segs sg : sg ∈ program_iter f → is_load sg = true → seg_fits (STACK_TOP - stack_size c) (Z.of_nat (length elf)) slide sg;
  ff_disjoint : segs_disjoint slide (program_iter f);
}.

Lemma entry_of_eq f slide : entry_of f slide = wrap64 (raw_entry f + segment_slide f slide).
Proof.
  unfold entry_of, segment_slide, base_vaddr, add64, sub64, wrap64. case_bool_decide; [|f_equal; lia].
  rewrite <-Z.add_mod by lia. f_equal. lia.
Qed.

Lemma stack_pointer_aligned argv envp entry sp n aux : setup_userspace_stack argv envp entry = (sp, n, aux) → sp `mod` 16 = 0 ∧ n = Z.of_nat (length argv).
Proof.
  unfold setup_userspace_stack. intros [= <- <- _]. split; [|done]. unfold align16. rewrite (ldiff_low _ 4) by lia. change (2 ^ 4) with 16.
  set (v := sub64 _ 8). pose proof (Z.div_mod v 16 ltac:(lia)). replace (v - v `mod` 16) with (v `div` 16 * 16) by lia. apply Z.mod_mul. lia.
Qed.

(** A page that holds a byte of a segment. *)
Lemma seg_page sg k va : va `mod` 4096 = 0 → 0 ≤ k < mem_size sg →
  page_floor (va + k) = va + 4096 * (k `div` 4096) ∧ (va + k) `mod` 4096 = k `mod` 4096 ∧ in_pages va (num_pages sg) (va + 4096 * (k `div` 4096)).
Proof.
  intros Hal Hk. pose proof (Z.div_mod k 4096 ltac:(lia)) as Hd. pose proof (Z.mod_pos_bound k 4096 ltac:(lia)).
  assert ((va + k) `mod` 4096 = k `mod` 4096) as Hm by by rewrite Z.add_mod, Hal, Z.add_0_l, Z.mod_mod by lia.
  rewrite page_floor_eq, Hm. split; [lia|]. split; [done|]. exists (Z.to_nat (k `div` 4096)). split; [|rewrite Z2Nat.id; [done|apply Z.div_pos; lia]].
  unfold num_pages. apply Z2Nat.inj_lt; [apply Z.div_pos; lia|apply Z.div_pos; lia|]. apply Z.div_lt_upper_bound; [lia|].
  pose proof (Z.div_mod (mem_size sg + 4095) 4096 ltac:(lia)). pose proof (Z.mod_pos_bound (mem_size sg + 4095) 4096 ltac:(lia)). lia.
Qed.

(** C22: A program is loaded exactly. A file whose segments lie on page boundaries in
    user memory, apart from each other and from the stack, and whose data is in the
    file, is loaded, as long as there is memory: each byte of a segment is the byte of
    the file, or zero past the data of the file; each page has the flags of its
    segment; beyond the segments and the stack nothing is mapped; the entry point moves
    with the segments, and the stack pointer is aligned to 16 bytes. *)
Theorem elf_image_exact new c mc elf f argv envp m (slide := segment_slide f (aslr_slide c mc)) :
  ElfConfig_validate c = Ok tt → 0 ≤ stack_size c ≤ STACK_TOP → load_dynamic_libs c = false → new elf = Ok f → space_ok mc = Ok tt →
  (∀ k, frame_ok mc k = true ∧ map_ok mc k = true) → file_fits c slide elf f →
  ∃ m' a, load_with_args new c mc elf argv envp m = Some (m', Ok a) ∧
    (∀ sg k, sg ∈ program_iter f → is_load sg = true → 0 ≤ k < mem_size sg →
       byte_at a (virtual_addr sg + slide + k) = Some (seg_byte elf sg k) ∧ flags_at a (virtual_addr sg + slide + k) = Some (segment_flags sg)) ∧
    (∀ p, is_Some (pages a !! p) ↔ in_segs slide (program_iter f) p ∨ in_pages (STACK_TOP - stack_size c) (Z.to_nat (stack_size c `div` 4096)) p) ∧
    entry_point a = wrap64 (raw_entry f + slide) ∧ stack_top a `mod` 16 = 0 ∧ argc a = Z.of_nat (length argv).
Proof.
  intros Hval Hsz Hlibs Hnew Hsp Hfr [Hmag Hle Hty Hlen Htys Hsegs Hdis]. unfold load_with_args, load_impl. rewrite Hnew, Hmag, Hle, Hsp. cbn [negb].
  rewrite bool_decide_false by done. fold slide. set (top := STACK_TOP - stack_size c) in *.
  assert (stack_size c `mod` 4096 = 0) as Hmod by (unfold ElfConfig_validate in Hval; repeat case_match; try done; lia).
  pose proof (Z.div_mod (stack_size c) 4096 ltac:(lia)) as Hdiv. assert (STACK_TOP = 4096 * 34358689792) as Hst by done.
  set (s0 := mkLoadState _ _ _). destruct (segments_loop_exact mc elf Hfr Hlen top slide (program_iter f) s0) as (s1 & -> & Hin & Hout); try done; [unfold top; lia|].
  cbn [mbind option_bind]. assert (sub64 STACK_TOP (stack_size c) = top) as -> by (apply sub64_small; mach).
  assert (top `mod` 4096 = 0) as Htop.
  { replace top with ((34358689792 - stack_size c `div` 4096) * 4096) by (unfold top; lia). by apply Z.mod_mul. }
  assert (∀ p, in_pages top (Z.to_nat (stack_size c `div` 4096)) p → ¬ in_segs slide (program_iter f) p) as Hstack.
  { intros p (j & _ & ->) (sg & Hsg & Hl & Hp). apply (in_pages_below top _ _ _ _ (Hsegs sg Hsg Hl)) in Hp. lia. }
  destruct (stack_loop_exact mc Hfr top (Z.to_nat (stack_size c `div` 4096)) 0 s1) as (s2 & -> & [Hin2 Hout2]); [unfold top; lia|done|done|unfold top; lia| |].
  { intros p Hp. rewrite Z.mul_0_r, Z.add_0_r in Hp. by rewrite Hout by by apply Hstack. }
  rewrite Z.mul_0_r, Z.add_0_r in *. cbn [mbind option_bind]. destruct (setup_userspace_stack argv envp _) as [[sp n] aux] eqn:Esp. rewrite Hlibs.
  apply stack_pointer_aligned in Esp as [Hsp16 ->]. eexists _, _. split; [done|]. split; [|split; [|split; [apply entry_of_eq|by split]]].
  - intros sg k Hsg Hl Hk. pose proof (Hsegs sg Hsg Hl) as [(_ & _ & Hal) _ _ _]. destruct (seg_page sg k _ Hal Hk) as (Hpf & Hpm & Hpi).
    unfold byte_at, flags_at. rewrite Hpf, Hpm. cbn. rewrite Hout2 by (intros Hx; apply (Hstack _ Hx); by exists sg).
    destruct (Hin sg _ Hsg Hl Hpi) as (pg & -> & [Hfl _ Hc]). cbn. rewrite Hfl. split; [|done].
    pose proof (Z.mod_pos_bound k 4096 ltac:(lia)). pose proof (Z.div_mod k 4096 ltac:(lia)). pose proof page_size_eq.
    rewrite Hc by lia. do 2 f_equal. lia.
  - intros p. cbn. destruct (decide (in_pages top (Z.to_nat (stack_size c `div` 4096)) p)) as [Hp|Hp].
    { destruct (Hin2 p Hp) as (pg & -> & _). split; [by right|by eexists]. }
    rewrite Hout2 by done. destruct (decide (in_segs slide (program_iter f) p)) as [Hs|Hs].
    + split; [by left|]. intros _. destruct Hs as (sg & Hsg & Hl & Hp'). destruct (Hin sg p Hsg Hl Hp') as (pg & -> & _). by eexists.
    + rewrite Hout by done. cbn. rewrite lookup_empty. split; [by intros []|tauto].
Qed.

(** ** Bounds *)

(** The loop over dynamic entries does not run out of fuel: more changes nothing. *)
Lemma dynamic_loop_fuel fuel fuel' elf t i libs :
  Z.of_nat (length elf) < 2 ^ 63 →
  (Z.to_nat (Z.of_nat (length elf) - add64 (dynamic_off t) i) < fuel)%nat → (fuel ≤ fuel')%nat →
  dynamic_loop fuel' elf t i libs = dynamic_loop fuel elf t i libs.
Proof.
  intros Hlen. revert fuel' i libs. induction fuel as [|fuel IH]; intros fuel' i libs Hf Hle; [lia|]. destruct fuel' as [|fuel']; [lia|].
  cbn [dynamic_loop]. destruct (negb _); [done|]. set (off := add64 (dynamic_off t) i) in *. destruct (Z.ltb_spec (Z.of_nat (length elf)) (add64 off 16)) as [|Hoff]; [done|].
  assert (0 ≤ off < 2 ^ 64) as Hr by (unfold off, add64, wrap64; apply Z.mod_pos_bound; lia).
  destruct (le_at elf off (add64 off 8)) as [tag|] eqn:E1; [|done]. cbn [mbind option_bind].
  destruct (le_at elf (add64 off 8) (add64 off 16)) as [val|] eqn:E2; [|done]. cbn [mbind option_bind]. destruct (tag =? 0); [done|].
  apply IH; [|lia]. assert (off ≤ add64 off 8 ≤ add64 off 16) as Ho by (unfold le_at in E1, E2; repeat case_match; try done; lia).
  assert (add64 off 16 = off + 16) as H16.
  { destruct (decide (off + 16 < 2 ^ 64)); [apply add64_small; mach|]. exfalso. revert Ho. unfold add64, wrap64.
    rewrite <-(Z.mod_add (off + 16) (-1)), (Z.mod_small (off + 16 + _)) by lia. lia. }
  assert (add64 (dynamic_off t) (add64 i 16) = add64 off 16) as ->; [|lia].
  unfold off, add64, wrap64. rewrite Zplus_mod_idemp_r, Zplus_mod_idemp_l. f_equal. lia.
Qed.

Lemma write_str_room sp str : 0 ≤ sp - Z.of_nat (length str) - 9 → sp ≤ STACK_TOP → sp - Z.of_nat (length str) - 8 ≤ write_str sp str ≤ sp.
Proof.
  intros Hs Ht. unfold write_str, align8. rewrite sub64_small by (unfold STACK_TOP in Ht; mach). rewrite (ldiff_low _ 3) by lia. change (2 ^ 3) with 8.
  pose proof (Z.mod_pos_bound (sp - (Z.of_nat (length str) + 1)) 8 ltac:(lia)). lia.
Qed.

(** The room that strings take on the stack, with their alignment. *)
Definition strings_room (l : list bytes) : Z := sumZ (λ str, Z.of_nat (length str) + 9) l.

Lemma write_strs_room l sp : strings_room l ≤ sp ≤ STACK_TOP → sp - strings_room l ≤ foldl write_str sp l ≤ sp.
Proof.
  unfold strings_room. revert sp. induction l as [|str l IH]; intros sp Hs; [cbn in *; lia|]. rewrite sumZ_cons in Hs |- *. cbn [foldl].
  assert (0 ≤ sumZ (λ str, Z.of_nat (length str) + 9) l) by (apply sumZ_nonneg; intros; lia).
  pose proof (write_str_room sp str ltac:(lia) ltac:(lia)). specialize (IH (write_str sp str) ltac:(lia)). lia.
Qed.

Lemma pointers_room {A} (l : list A) sp : 8 * Z.of_nat (length l) ≤ sp ≤ STACK_TOP → foldl (λ sp _, sub64 sp 8) sp l = sp - 8 * Z.of_nat (length l).
Proof.
  revert sp. induction l as [|x l IH]; intros sp Hs; cbn [foldl length] in *; [lia|]. unfold STACK_TOP in *. rewrite sub64_small by mach. rewrite IH by lia. lia.
Qed.

(** The stack pointer lies below the top by no more than the arguments need. *)
Lemma stack_pointer_room argv envp entry sp n aux (room := strings_room argv + strings_room envp + 8 * Z.of_nat (length argv + length envp) + 223) :
  setup_userspace_stack argv envp entry = (sp, n, aux) → room ≤ STACK_TOP → STACK_TOP - room ≤ sp ≤ STACK_TOP.
Proof.
  unfold setup_userspace_stack, align8, align16, room. rewrite !(ldiff_low _ 3), (ldiff_low _ 4) by lia. change (2 ^ 3) with 8. change (2 ^ 4) with 16.
  assert (∀ l, strings_room (reverse l) = strings_room l ∧ 0 ≤ strings_room l) as Hrev.
  { intros l. split; [|apply sumZ_nonneg; intros; lia]. unfold strings_room. induction l as [|x l IH]; [done|].
    rewrite reverse_cons, sumZ_app, !sumZ_cons, IH. cbn. lia. }
  destruct (Hrev argv) as [Ha Ha0], (Hrev envp) as [He He0]. intros [= <- _ _] Hroom.
  pose proof (write_strs_room (reverse envp) (STACK_TOP - 8) ltac:(lia)) as H1. set (v1 := foldl write_str (STACK_TOP - 8) _) in *.
  pose proof (write_strs_room (reverse argv) v1 ltac:(lia)) as H2. set (v2 := foldl write_str v1 _) in *.
  pose proof (Z.mod_pos_bound v2 8 ltac:(lia)). rewrite (sub64_small _ 16) by (unfold STACK_TOP in *; mach). set (v3 := _ - 16).
  pose proof (Z.mod_pos_bound v3 8 ltac:(lia)). rewrite (sub64_small _ 128) by (unfold STACK_TOP in *; mach). set (v4 := _ - 128).
  pose proof (Z.mod_pos_bound v4 8 ltac:(lia)). set (w := v4 - v4 `mod` 8). rewrite (sub64_small w 8) by (unfold STACK_TOP in *; mach).
  rewrite (pointers_room envp) by lia. rewrite (sub64_small (w - 8 - _) 8) by (unfold STACK_TOP in *; mach).
  rewrite (pointers_room argv) by lia. rewrite sub64_small by (unfold STACK_TOP in *; mach). set (v5 := _ - 8). pose proof (Z.mod_pos_bound v5 16 ltac:(lia)). lia.
Qed.

(** ** Examples *)

Definition ex_config : ElfConfig := mkElfConfig false 8192 false 32 false.
Definition ex_machine : Machine := mkMachine 0 (Ok tt) (λ _, true) (λ k, replicate page_size 7) (λ _, true).
Definition ex_segment (vaddr fsz msz off : Z) : Segment := mkSegment (Ok Load) vaddr fsz msz off false true.
Definition ex_file (sgs : list Segment) : ElfFile := mkElfFile true true Executable 0x400100 sgs.
Definition ex_elf : bytes := replicate (Z.to_nat 6000) 9.
Definition ex_load (sgs : list Segment) : option (ElfMetrics * result AddressSpace ElfError) :=
  load_with_args (λ _, Ok (ex_file sgs)) ex_config ex_machine ex_elf [] [] (mkElfMetrics 0 0 0 0 0).

Lemma elf_image_exact_witness :
  ∃ m' a, load_with_args (λ _, Ok (ex_file [ex_segment 0x400000 5000 9000 1000])) ex_config ex_machine ex_elf [] [] (mkElfMetrics 0 0 0 0 0) = Some (m', Ok a) ∧
    (∀ sg k, sg ∈ [ex_segment 0x400000 5000 9000 1000] → is_load sg = true → 0 ≤ k < mem_size sg →
       byte_at a (virtual_addr sg + 0 + k) = Some (seg_byte ex_elf sg k) ∧ flags_at a (virtual_addr sg + 0 + k) = Some (segment_flags sg)) ∧
    (∀ p, is_Some (pages a !! p) ↔ in_segs 0 [ex_segment 0x400000 5000 9000 1000] p ∨ in_pages (STACK_TOP - 8192) 2 p) ∧
    entry_point a = 0x400100 ∧ stack_top a `mod` 16 = 0 ∧ argc a = 0.
Proof.
  apply (elf_image_exact (λ _, Ok (ex_file [ex_segment 0x400000 5000 9000 1000])) ex_config ex_machine ex_elf (ex_file [ex_segment 0x400000 5000 9000 1000])
    [] [] (mkElfMetrics 0 0 0 0 0)); [reflexivity|vm_compute; split; discriminate|reflexivity|reflexivity|reflexivity|done|].
  assert (Z.of_nat (length ex_elf) = 6000) as Hl by (vm_compute; reflexivity). split; rewrite ?Hl; [reflexivity|reflexivity|discriminate|lia| | |].
  - by repeat constructor.
  - intros sg ->%list_elem_of_singleton _. split; vm_compute; repeat split; discriminate.
  - split; [|done]. intros _ p _ (sg & ?%elem_of_nil & _). done.
Defined.

(** ** Where the loader departs from ELF *)

(** The address space of a successful load. *)
Definition ex_space (sgs : list Segment) : option AddressSpace := match ex_load sgs with Some (_, Ok a) => Some a | _ => None end.

(** A segment that does not start on a page boundary, as linkers make them, loses the
    data of its first page. *)
Lemma unaligned_data_lost : (ex_space [ex_segment 0x400100 16 16 0] ≫= λ a, byte_at a 0x400100) = Some 0.
Proof. by vm_compute. Qed.

(** Two segments that share a page are refused. *)
Lemma shared_page_refused :
  snd <$> ex_load [ex_segment 0x400000 16 16 0; ex_segment 0x400800 16 16 0] = Some (Err (SegmentMapFail "page already mapped")).
Proof. by vm_compute. Qed.

(** Data beyond the end of the file is silently zero, also the part that is in the file. *)
Lemma truncated_data_zero : (ex_space [ex_segment 0x400000 100 100 5950] ≫= λ a, byte_at a 0x400000) = Some 0.
Proof. by vm_compute. Qed.

(** An offset near the end of the range of addresses passes the check, which wraps,
    and panics the kernel. *)
Lemma offset_overflow_panics : ex_load [ex_segment 0x400000 4096 4096 (2 ^ 64 - 16)] = None.
Proof. by vm_compute. Qed.

(** So does an address that is not canonical. *)
Lemma noncanonical_panics : ex_load [ex_segment (2 ^ 47) 0 4096 0] = None.
Proof. by vm_compute. Qed.

(** A segment in the kernel's half is mapped there, accessible to the user. *)
Lemma kernel_address_mapped : (ex_space [ex_segment 0xFFFF900000000000 16 16 0] ≫= λ a, flags_at a 0xFFFF900000000000) = Some 5.
Proof. by vm_compute. Qed.

(** The stack of a program has what its frames held before. *)
Lemma stack_keeps_old_data : (ex_space [] ≫= λ a, byte_at a (STACK_TOP - 1)) = Some 7.
Proof. by vm_compute. Qed.

(** Nothing is written to the stack, neither strings nor pointers nor their number. *)
Lemma arguments_not_written argv envp :
  match load_with_args (λ _, Ok (ex_file [])) ex_config ex_machine ex_elf argv envp (mkElfMetrics 0 0 0 0 0) with
  | Some (_, Ok a) => pages a !! (STACK_TOP - 4096) = Some (mkPage (replicate page_size 7) stack_flags)
  | _ => False
  end.
Proof.
  unfold load_with_args, load_impl. cbn -[stack_loop setup_userspace_stack page_size]. destruct (setup_userspace_stack _ _ _) as [[sp n] aux].
  by vm_compute.
Qed.

(** Sections of fewer than 40 bytes make [get_needed_libs] panic. *)
Definition ex_sections : bytes := replicate 40 0 ++ [64; 0; 0; 0; 0; 0; 0; 0] ++ replicate 10 0 ++ [1; 0; 1; 0] ++ replicate 4 0.

Lemma small_sections_panic : get_needed_libs ex_sections = None.
Proof. by vm_compute. Qed.
