(* ===== verification/Ipc.v ===== *)
(** * Message queues between tasks ([src/src/process/ipc.rs]).

    Every task that registers has a bounded queue of messages with priorities. A
    call works under the lock of the manager; the tasks it wakes afterwards are
    recorded. A blocking call is a loop that sleeps between turns: a turn is a
    definition, and other calls may come between two of them. A sender that sleeps
    keeps the lock of the configuration; calls that take this lock first wait until
    the sender is through, and those that take it last, to count, have done their
    work by then. The clock and the current task are arguments. *)

From Stdlib Require Import ZArith Lia Bool.
From stdpp Require Import base gmap sets strings numbers sorting list.
From S2P Require Import Prelude.

Local Open Scope Z_scope.

(** ** Data *)

Definition DEFAULT_QUEUE_CAPACITY : Z := 1024.
Definition DEFAULT_TIMEOUT_MS : Z := 5000.
Definition MAX_QUEUE_CAPACITY : Z := 65536.
Definition MAX_MESSAGE_SIZE : Z := 1048576.

Inductive IpcError :=
| QueueFull | QueueEmpty | TaskNotFound | PermissionDenied | Timeout | Interrupted | InvalidArgument | ResourceUnavailable | QueueClosed.

Definition IpcError_to_i64 (e : IpcError) : Z :=
  match e with
  | QueueFull => -1 | QueueEmpty => -2 | TaskNotFound => -3 | PermissionDenied => -4 | Timeout => -5
  | Interrupted => -6 | InvalidArgument => -7 | ResourceUnavailable => -8 | QueueClosed => -9
  end.

Record IpcConfig := mkIpcConfig {
  default_capacity : Z;
  default_timeout_ms : Z;
  max_message_size : Z;
  collect_metrics : bool;
  debug_logging : bool;
}.

Record IpcMetrics := mkIpcMetrics {
  messages_sent : Z;
  messages_received : Z;
  queues_created : Z;
  queues_destroyed : Z;
  send_blocks : Z;
  recv_blocks : Z;
  timeouts : Z;
  permission_denials : Z;
}.

#[export] Instance eta_IpcMetrics : Settable IpcMetrics :=
  λ m, mkIpcMetrics (messages_sent m) (messages_received m) (queues_created m) (queues_destroyed m) (send_blocks m) (recv_blocks m) (timeouts m) (permission_denials m).

Record Message := mkMessage {
  data : list Z;
  priority : Z;
}.

Record MessageQueue := mkMessageQueue {
  queue : list Message;
  capacity : Z;
  readers_waiting : list Z;
  writers_waiting : list Z;
  closed : bool;
  allowed_senders : list Z;
}.

#[export] Instance eta_MessageQueue : Settable MessageQueue :=
  λ q, mkMessageQueue (queue q) (capacity q) (readers_waiting q) (writers_waiting q) (closed q) (allowed_senders q).

(** The statics of the module, and the tasks passed to [wake_task]. *)
Record Ipc := mkIpc {
  IPC_MANAGER : gmap Z MessageQueue;
  CONFIG : IpcConfig;
  METRICS : IpcMetrics;
  woken : list Z;
}.

#[export] Instance eta_Ipc : Settable Ipc := λ s, mkIpc (IPC_MANAGER s) (CONFIG s) (METRICS s) (woken s).

Definition IpcConfig_default : IpcConfig := mkIpcConfig DEFAULT_QUEUE_CAPACITY DEFAULT_TIMEOUT_MS MAX_MESSAGE_SIZE true false.

Definition IpcConfig_validate (c : IpcConfig) : result unit IpcError :=
  if (default_capacity c =? 0) || (MAX_QUEUE_CAPACITY <? default_capacity c) then Err InvalidArgument
  else if (max_message_size c =? 0) || (MAX_MESSAGE_SIZE <? max_message_size c) then Err InvalidArgument
  else Ok tt.

(** ** One queue *)

Definition len (q : MessageQueue) : Z := Z.of_nat (length (queue q)).

Definition MessageQueue_new (cap : Z) : MessageQueue := mkMessageQueue [] cap [] [] false [].

Definition is_full (q : MessageQueue) : bool := capacity q <=? len q.
Definition is_empty (q : MessageQueue) : bool := match queue q with [] => true | _ => false end.
Definition space (q : MessageQueue) : Z := sub64 (capacity q) (len q).

(** The position of the first message of a greater priority number, or the end. *)
Definition position (msg : Message) (l : list Message) : nat :=
  match list_find (λ m, priority msg < priority m) l with Some (i, _) => i | None => length l end.

Definition push (msg : Message) (q : MessageQueue) : MessageQueue * result unit Message :=
  if is_full q then (q, Err msg) else
  let pos := position msg (queue q) in
  (q <| queue := take pos (queue q) ++ [msg] ++ drop pos (queue q) |>, Ok tt).

Definition pop (q : MessageQueue) : MessageQueue * option Message :=
  match queue q with
  | m :: l => (q <| queue := l |>, Some m)
  | [] => (q, None)
  end.

Definition peek_front (q : MessageQueue) : option Message := head (queue q).

Definition wake_readers (q : MessageQueue) : MessageQueue * list Z := (q <| readers_waiting := [] |>, readers_waiting q).
Definition wake_writers (q : MessageQueue) : MessageQueue * list Z := (q <| writers_waiting := [] |>, writers_waiting q).

Definition add_reader (tid : Z) (q : MessageQueue) : MessageQueue :=
  if bool_decide (tid ∈ readers_waiting q) then q else q <| readers_waiting := readers_waiting q ++ [tid] |>.
Definition add_writer (tid : Z) (q : MessageQueue) : MessageQueue :=
  if bool_decide (tid ∈ writers_waiting q) then q else q <| writers_waiting := writers_waiting q ++ [tid] |>.

Definition is_sender_allowed (tid : Z) (q : MessageQueue) : bool :=
  bool_decide (allowed_senders q = []) || bool_decide (tid ∈ allowed_senders q).
Definition allow (tid : Z) (q : MessageQueue) : MessageQueue :=
  if bool_decide (tid ∈ allowed_senders q) then q else q <| allowed_senders := allowed_senders q ++ [tid] |>.
Definition deny (tid : Z) (q : MessageQueue) : MessageQueue := q <| allowed_senders := filter (λ t, t ≠ tid) (allowed_senders q) |>.

Definition MessageQueue_close (q : MessageQueue) : MessageQueue * list Z :=
  let '(q, readers) := wake_readers (q <| closed := true |>) in
  let '(q, writers) := wake_writers q in
  (q, readers ++ writers).

(** ** The manager *)

Definition wake (l : list Z) (s : Ipc) : Ipc := s <| woken := woken s ++ l |>.

Definition count (f : IpcMetrics → IpcMetrics) (s : Ipc) : Ipc := if collect_metrics (CONFIG s) then s <| METRICS := f (METRICS s) |> else s.

Definition inc_sent (n : Z) (m : IpcMetrics) : IpcMetrics := m <| messages_sent := add64 (messages_sent m) n |>.
Definition inc_received (n : Z) (m : IpcMetrics) : IpcMetrics := m <| messages_received := add64 (messages_received m) n |>.
Definition inc_created (m : IpcMetrics) : IpcMetrics := m <| queues_created := add64 (queues_created m) 1 |>.
Definition inc_destroyed (m : IpcMetrics) : IpcMetrics := m <| queues_destroyed := add64 (queues_destroyed m) 1 |>.
Definition inc_send_blocks (m : IpcMetrics) : IpcMetrics := m <| send_blocks := add64 (send_blocks m) 1 |>.
Definition inc_recv_blocks (m : IpcMetrics) : IpcMetrics := m <| recv_blocks := add64 (recv_blocks m) 1 |>.
Definition inc_denials (m : IpcMetrics) : IpcMetrics := m <| permission_denials := add64 (permission_denials m) 1 |>.

Definition put_queue (tid : Z) (q : MessageQueue) (s : Ipc) : Ipc := s <| IPC_MANAGER := <[tid := q]> (IPC_MANAGER s) |>.

Definition init (config : IpcConfig) (s : Ipc) : Ipc * result unit IpcError :=
  match IpcConfig_validate config with
  | Ok _ => (s <| CONFIG := config |>, Ok tt)
  | Err e => (s, Err e)
  end.

Definition register (tid : Z) (s : Ipc) : Ipc * result unit IpcError :=
  match IPC_MANAGER s !! tid with
  | Some _ => (s, Ok tt)
  | None => (count inc_created (put_queue tid (MessageQueue_new (default_capacity (CONFIG s))) s), Ok tt)
  end.

(** [unregister] and the receiving calls take the configuration's lock last, to count:
    they are given as what they do before and what they count then, if anything. *)
Definition Count : Type := IpcMetrics → IpcMetrics.

Definition finish {A} (p : Ipc * A * option Count) : Ipc * A :=
  match p with (s, r, Some f) => (count f s, r) | (s, r, None) => (s, r) end.

Definition unregister (tid : Z) (s : Ipc) : Ipc * unit * option Count :=
  match IPC_MANAGER s !! tid with
  | Some q => (wake (MessageQueue_close q).2 (s <| IPC_MANAGER := delete tid (IPC_MANAGER s) |>), tt, Some inc_destroyed)
  | None => (s, tt, None)
  end.

Definition exists_queue (tid : Z) (s : Ipc) : bool := bool_decide (is_Some (IPC_MANAGER s !! tid)).

(** The part of [send] and [send_blocking] under the lock. *)
Definition try_send (sender tid : Z) (d : list Z) (prio : Z) (s : Ipc) : Ipc * result unit IpcError :=
  match IPC_MANAGER s !! tid with
  | None => (s, Err TaskNotFound)
  | Some q =>
    if negb (is_sender_allowed sender q) then (count inc_denials s, Err PermissionDenied)
    else if closed q then (s, Err QueueClosed)
    else
      match push (mkMessage d prio) q with
      | (q, Ok _) =>
        let '(q, readers) := wake_readers q in
        (count (inc_sent 1) (wake readers (put_queue tid q s)), Ok tt)
      | (q, Err _) => (s, Err QueueFull)
      end
  end.

Definition send (sender tid : Z) (d : list Z) (prio : Z) (s : Ipc) : Ipc * result unit IpcError :=
  if max_message_size (CONFIG s) <? Z.of_nat (length d) then (s, Err InvalidArgument)
  else try_send sender tid d prio s.

(** A turn of a blocking call: it returns, or puts the caller to sleep. *)
Inductive Turn (A : Type) :=
| Done (r : result A IpcError)
| Sleeps.
Arguments Done {A} r.
Arguments Sleeps {A}.

Definition expired (deadline : option Z) (now : Z) : bool := match deadline with Some d => d <=? now | None => false end.

(** A turn of [send_blocking]. The size is checked before the first turn; the limit does
    not change between turns, since the configuration stays locked. *)
Definition send_turn (sender tid : Z) (d : list Z) (prio : Z) (deadline : option Z) (now : Z) (s : Ipc) : Ipc * Turn unit :=
  if max_message_size (CONFIG s) <? Z.of_nat (length d) then (s, Done (Err InvalidArgument)) else
  match try_send sender tid d prio s with
  | (s, Err QueueFull) =>
    if expired deadline now then (s, Done (Err Timeout)) else
    match IPC_MANAGER s !! tid with
    | Some q => (count inc_send_blocks (put_queue tid (add_writer sender q) s), Sleeps)
    | None => (s, Done (Err TaskNotFound))
    end
  | (s, r) => (s, Done r)
  end.

Definition recv (tid : Z) (s : Ipc) : Ipc * result Message IpcError * option Count :=
  match IPC_MANAGER s !! tid with
  | None => (s, Err TaskNotFound, None)
  | Some q =>
    if closed q then (s, Err QueueClosed, None) else
    match pop q with
    | (q, Some msg) =>
      let '(q, writers) := wake_writers q in
      (wake writers (put_queue tid q s), Ok msg, Some (inc_received 1))
    | (_, None) => (s, Err QueueEmpty, None)
    end
  end.

Definition recv_turn (tid : Z) (deadline : option Z) (now : Z) (s : Ipc) : Ipc * Turn Message * option Count :=
  match recv tid s with
  | (s, Err QueueEmpty, c) =>
    if expired deadline now then (s, Done (Err Timeout), c) else
    match IPC_MANAGER s !! tid with
    | Some q => (put_queue tid (add_reader tid q) s, Sleeps, Some inc_recv_blocks)
    | None => (s, Done (Err TaskNotFound), c)
    end
  | (s, r, c) => (s, Done r, c)
  end.

(** A lookup that fails when there is no queue or it is closed. *)
Definition open_queue (tid : Z) (s : Ipc) : result MessageQueue IpcError :=
  match IPC_MANAGER s !! tid with
  | None => Err TaskNotFound
  | Some q => if closed q then Err QueueClosed else Ok q
  end.

Definition peek (tid : Z) (s : Ipc) : result Message IpcError :=
  match open_queue tid s with
  | Err e => Err e
  | Ok q => ok_or (peek_front q) QueueEmpty
  end.

Definition has_message (tid : Z) (s : Ipc) : bool := match IPC_MANAGER s !! tid with Some q => negb (is_empty q) | None => false end.
Definition queue_len (tid : Z) (s : Ipc) : option Z := len <$> IPC_MANAGER s !! tid.
Definition queue_capacity (tid : Z) (s : Ipc) : option Z := capacity <$> IPC_MANAGER s !! tid.

Definition set_queue_capacity (tid new_capacity : Z) (s : Ipc) : Ipc * result unit IpcError :=
  if (new_capacity =? 0) || (MAX_QUEUE_CAPACITY <? new_capacity) then (s, Err InvalidArgument) else
  match open_queue tid s with
  | Err e => (s, Err e)
  | Ok q => if new_capacity <? len q then (s, Err QueueFull) else (put_queue tid (q <| capacity := new_capacity |>) s, Ok tt)
  end.

Definition allow_sender (tid sender : Z) (s : Ipc) : Ipc * result unit IpcError :=
  match IPC_MANAGER s !! tid with
  | None => (s, Err TaskNotFound)
  | Some q => (put_queue tid (allow sender q) s, Ok tt)
  end.

Definition deny_sender (tid sender : Z) (s : Ipc) : Ipc * result unit IpcError :=
  match IPC_MANAGER s !! tid with
  | None => (s, Err TaskNotFound)
  | Some q => (put_queue tid (deny sender q) s, Ok tt)
  end.

Definition clear_queue (tid : Z) (s : Ipc) : Ipc * result unit IpcError :=
  match open_queue tid s with
  | Err e => (s, Err e)
  | Ok q =>
    let '(q, writers) := wake_writers (q <| queue := [] |>) in
    (wake writers (put_queue tid q s), Ok tt)
  end.

Definition close_queue (tid : Z) (s : Ipc) : Ipc * result unit IpcError :=
  match IPC_MANAGER s !! tid with
  | None => (s, Err TaskNotFound)
  | Some q => if closed q then (s, Ok tt) else let '(q, l) := MessageQueue_close q in (wake l (put_queue tid q s), Ok tt)
  end.

(** ** Batches *)

(** [while let Some(msg) = queue.pop()]; the length is enough fuel. *)
Fixpoint pop_all (fuel : nat) (q : MessageQueue) : MessageQueue * list Message :=
  match fuel with
  | O => (q, [])
  | S fuel =>
    match pop q with
    | (q, Some m) => let '(q, l) := pop_all fuel q in (q, m :: l)
    | (q, None) => (q, [])
    end
  end.

Definition recv_all (tid : Z) (s : Ipc) : Ipc * result (list Message) IpcError * option Count :=
  match open_queue tid s with
  | Err e => (s, Err e, None)
  | Ok q =>
    let '(q, msgs) := pop_all (length (queue q)) q in
    let '(q, writers) := wake_writers q in
    (wake writers (put_queue tid q s), Ok msgs, Some (inc_received (Z.of_nat (length msgs))))
  end.

(** The loop over the messages; too large ones are skipped. *)
Fixpoint push_batch (max : Z) (msgs : list Message) (sent : Z) (q : MessageQueue) : MessageQueue * Z :=
  match msgs with
  | [] => (q, sent)
  | msg :: msgs =>
    if max <? Z.of_nat (length (data msg)) then push_batch max msgs sent q else
    match push msg q with
    | (q, Ok _) => push_batch max msgs (sent + 1) q
    | (q, Err _) => (q, sent)
    end
  end.

Definition send_batch (sender tid : Z) (msgs : list Message) (s : Ipc) : Ipc * result Z IpcError :=
  match open_queue tid s with
  | Err e => (s, Err e)
  | Ok q =>
    if negb (is_sender_allowed sender q) then (count inc_denials s, Err PermissionDenied) else
    let '(q, sent) := push_batch (max_message_size (CONFIG s)) msgs 0 q in
    if 0 <? sent then
      let '(q, readers) := wake_readers q in
      (count (inc_sent sent) (wake readers (put_queue tid q s)), Ok sent)
    else (put_queue tid q s, Ok sent)
  end.

(** ** The lock of the configuration *)

(** A [send_blocking] that is under way. *)
Record SendCall := mkSendCall {
  sl_sender : Z;
  sl_tid : Z;
  sl_data : list Z;
  sl_priority : Z;
  sl_deadline : option Z;
}.

(** The module with the sender that sleeps with the configuration locked, the counts of
    calls that wait for that lock, and whether a call waits for it with the manager
    locked, for ever. *)
Record IpcSys := mkIpcSys {
  ipc : Ipc;
  sleeper : option SendCall;
  uncounted : list Count;
  stuck : bool;
}.

#[export] Instance eta_IpcSys : Settable IpcSys := λ y, mkIpcSys (ipc y) (sleeper y) (uncounted y) (stuck y).

Inductive IpcCmd :=
| CmdInit (config : IpcConfig)
| CmdRegister (tid : Z)
| CmdUnregister (tid : Z)
| CmdSend (sender tid : Z) (d : list Z) (prio : Z)
| CmdSendBlocking (sender tid : Z) (d : list Z) (prio : Z) (timeout_ms : option Z) (now : Z)
| CmdSendTurn (now : Z)                    (* the sleeping sender goes on *)
| CmdRecv (tid : Z)
| CmdRecvTurn (tid : Z) (deadline : option Z) (now : Z)
| CmdCount                                 (* a call that waits to count goes on *)
| CmdPeek (tid : Z)
| CmdLen (tid : Z)
| CmdCapacity (tid new_capacity : Z)
| CmdAllow (tid sender : Z)
| CmdDeny (tid sender : Z)
| CmdClear (tid : Z)
| CmdClose (tid : Z)
| CmdRecvAll (tid : Z)
| CmdSendBatch (sender tid : Z) (msgs : list Message).

(** [OutWaits]: the call waits for a lock, and has done nothing. *)
Inductive IpcOut :=
| OutWaits
| OutUnit (r : result unit IpcError)
| OutSendTurn (t : Turn unit)
| OutMsg (r : result Message IpcError)
| OutRecvTurn (t : Turn Message)
| OutLen (n : option Z)
| OutMsgs (r : result (list Message) IpcError)
| OutCount (r : result Z IpcError).

(** A call that does not take the lock. *)
Definition plain {A} (f : A → IpcOut) (op : Ipc → Ipc * A) (y : IpcSys) : IpcSys * IpcOut :=
  let '(s, r) := op (ipc y) in (y <| ipc := s |>, f r).

(** A call that takes it first. *)
Definition locks_first {A} (f : A → IpcOut) (op : Ipc → Ipc * A) (y : IpcSys) : IpcSys * IpcOut :=
  match sleeper y with Some _ => (y, OutWaits) | None => plain f op y end.

(** A call that takes it last, with the manager's lock given back. The result is what
    the call returns once it has counted. *)
Definition locks_last {A} (f : A → IpcOut) (op : Ipc → Ipc * A * option Count) (y : IpcSys) : IpcSys * IpcOut :=
  match sleeper y with
  | None => plain f (λ s, finish (op s)) y
  | Some _ => let '(s, r, c) := op (ipc y) in (y <| ipc := s |> <| uncounted := uncounted y ++ option_list c |>, f r)
  end.

Definition run_send (call : SendCall) (now : Z) (y : IpcSys) : IpcSys * IpcOut :=
  let '(s, t) := send_turn (sl_sender call) (sl_tid call) (sl_data call) (sl_priority call) (sl_deadline call) now (ipc y) in
  (y <| ipc := s |> <| sleeper := match t with Sleeps => Some call | Done _ => None end |>, OutSendTurn t).

Definition send_blocking (sender tid : Z) (d : list Z) (prio : Z) (timeout_ms : option Z) (now : Z) (y : IpcSys) : IpcSys * IpcOut :=
  match sleeper y with
  | Some _ => (y, OutWaits)
  | None => run_send (mkSendCall sender tid d prio (add64 now <$> timeout_ms)) now y
  end.

Definition ipc_cmd (c : IpcCmd) (y : IpcSys) : IpcSys * IpcOut :=
  if stuck y then (y, OutWaits) else
  match c with
  | CmdInit config => locks_first OutUnit (init config) y
  | CmdRegister tid => locks_first OutUnit (register tid) y
  | CmdUnregister tid =>
    match sleeper y, unregister tid (ipc y) with
    | Some _, (s, _, Some f) => (y <| ipc := s |> <| uncounted := uncounted y ++ [f] |> <| stuck := true |>, OutWaits)
    | _, _ => plain (λ _, OutUnit (Ok tt)) (λ s, finish (unregister tid s)) y
    end
  | CmdSend sender tid d prio => locks_first OutUnit (send sender tid d prio) y
  | CmdSendBlocking sender tid d prio timeout now => send_blocking sender tid d prio timeout now y
  | CmdSendTurn now => match sleeper y with Some call => run_send call now y | None => (y, OutWaits) end
  | CmdRecv tid => locks_last OutMsg (recv tid) y
  | CmdRecvTurn tid deadline now => locks_last OutRecvTurn (recv_turn tid deadline now) y
  | CmdCount =>
    (match sleeper y, uncounted y with
     | None, f :: l => y <| ipc := count f (ipc y) |> <| uncounted := l |>
     | _, _ => y
     end, OutUnit (Ok tt))
  | CmdPeek tid => plain OutMsg (λ s, (s, peek tid s)) y
  | CmdLen tid => plain OutLen (λ s, (s, queue_len tid s)) y
  | CmdCapacity tid c => plain OutUnit (set_queue_capacity tid c) y
  | CmdAllow tid x => plain OutUnit (allow_sender tid x) y
  | CmdDeny tid x => plain OutUnit (deny_sender tid x) y
  | CmdClear tid => plain OutUnit (clear_queue tid) y
  | CmdClose tid => plain OutUnit (close_queue tid) y
  | CmdRecvAll tid => locks_last OutMsgs (recv_all tid) y
  | CmdSendBatch sender tid msgs => locks_first OutCount (send_batch sender tid msgs) y
  end.

Fixpoint ipc_run (cs : list IpcCmd) (y : IpcSys) : IpcSys * list IpcOut :=
  match cs with
  | [] => (y, [])
  | c :: cs => let '(y, o) := ipc_cmd c y in let '(y, os) := ipc_run cs y in (y, o :: os)
  end.

(** ** What the queues promise *)

(** A mailbox has its messages in the order of their arrival. *)
Record Mailbox := mkMailbox {
  arrived : list Message;
  mb_capacity : Z;
  mb_closed : bool;
  mb_allowed : list Z;
}.

#[export] Instance eta_Mailbox : Settable Mailbox := λ b, mkMailbox (arrived b) (mb_capacity b) (mb_closed b) (mb_allowed b).

(** The first to arrive among the messages of the least priority number. *)
Definition next_message (l : list Message) : option (Message * list Message) :=
  '(i, m) ← list_find (λ m, Forall (λ m', priority m ≤ priority m') l) l; Some (m, delete i l).

Fixpoint in_order (fuel : nat) (l : list Message) : list Message :=
  match fuel with
  | O => []
  | S fuel => match next_message l with Some (m, l) => m :: in_order fuel l | None => [] end
  end.

Definition may_send (sender : Z) (b : Mailbox) : Prop := mb_allowed b = [] ∨ sender ∈ mb_allowed b.

#[export] Instance may_send_dec sender b : Decision (may_send sender b).
Proof. unfold may_send. apply _. Defined.

Definition has_room (b : Mailbox) : bool := Z.of_nat (length (arrived b)) <? mb_capacity b.

Definition deliver (msg : Message) (b : Mailbox) : Mailbox := b <| arrived := arrived b ++ [msg] |>.

(** The messages of a batch that are delivered: those that are not too large, while
    there is room. *)
Fixpoint deliver_batch (max : Z) (msgs : list Message) (b : Mailbox) : Mailbox * Z :=
  match msgs with
  | [] => (b, 0)
  | msg :: msgs =>
    if max <? Z.of_nat (length (data msg)) then deliver_batch max msgs b
    else if has_room b then let '(b, n) := deliver_batch max msgs (deliver msg b) in (b, n + 1) else (b, 0)
  end.

Record IpcSpec := mkIpcSpec {
  boxes : gmap Z Mailbox;
  sconfig : IpcConfig;
}.

Definition set_box (tid : Z) (b : Mailbox) (a : IpcSpec) : IpcSpec := mkIpcSpec (<[tid := b]> (boxes a)) (sconfig a).

Definition box (tid : Z) (a : IpcSpec) : result Mailbox IpcError := ok_or (boxes a !! tid) TaskNotFound.

Definition open_box (tid : Z) (a : IpcSpec) : result Mailbox IpcError :=
  match box tid a with
  | Ok b => if mb_closed b then Err QueueClosed else Ok b
  | Err e => Err e
  end.

Definition spec_send (sender tid : Z) (d : list Z) (prio : Z) (a : IpcSpec) : IpcSpec * result unit IpcError :=
  if max_message_size (sconfig a) <? Z.of_nat (length d) then (a, Err InvalidArgument) else
  match box tid a with
  | Err e => (a, Err e)
  | Ok b =>
    if negb (bool_decide (may_send sender b)) then (a, Err PermissionDenied)
    else if mb_closed b then (a, Err QueueClosed)
    else if has_room b then (set_box tid (deliver (mkMessage d prio) b) a, Ok tt)
    else (a, Err QueueFull)
  end.

Definition spec_recv (tid : Z) (a : IpcSpec) : IpcSpec * result Message IpcError :=
  match open_box tid a with
  | Err e => (a, Err e)
  | Ok b =>
    match next_message (arrived b) with
    | Some (m, l) => (set_box tid (b <| arrived := l |>) a, Ok m)
    | None => (a, Err QueueEmpty)
    end
  end.

(** A blocking call sleeps when the other one reports a full or an empty queue. *)
Definition or_sleep {A} (when : IpcError → bool) (deadline : option Z) (now : Z) (r : result A IpcError) : Turn A :=
  match r with
  | Err e => if when e then if expired deadline now then Done (Err Timeout) else Sleeps else Done r
  | Ok _ => Done r
  end.

Definition is_queue_full (e : IpcError) : bool := match e with QueueFull => true | _ => false end.
Definition is_queue_empty (e : IpcError) : bool := match e with QueueEmpty => true | _ => false end.

Definition stag {A} (f : A → IpcOut) (p : IpcSpec * A) : IpcSpec * IpcOut := (p.1, f p.2).

Definition on_box (tid : Z) (look : result Mailbox IpcError) (f : Mailbox → result Mailbox IpcError) (a : IpcSpec) : IpcSpec * IpcOut :=
  match look with
  | Err e => (a, OutUnit (Err e))
  | Ok b => match f b with Ok b => (set_box tid b a, OutUnit (Ok tt)) | Err e => (a, OutUnit (Err e)) end
  end.

(** The mailboxes, for the calls that go through. *)
Definition mail_cmd (c : IpcCmd) (a : IpcSpec) : IpcSpec * IpcOut :=
  match c with
  | CmdInit config => match IpcConfig_validate config with Ok _ => (mkIpcSpec (boxes a) config, OutUnit (Ok tt)) | Err e => (a, OutUnit (Err e)) end
  | CmdRegister tid =>
    (if bool_decide (is_Some (boxes a !! tid)) then a else set_box tid (mkMailbox [] (default_capacity (sconfig a)) false []) a, OutUnit (Ok tt))
  | CmdUnregister tid => (mkIpcSpec (delete tid (boxes a)) (sconfig a), OutUnit (Ok tt))
  | CmdSend sender tid d prio => stag OutUnit (spec_send sender tid d prio a)
  | CmdSendBlocking _ _ _ _ _ _ | CmdSendTurn _ | CmdCount => (a, OutWaits)
  | CmdRecv tid => stag OutMsg (spec_recv tid a)
  | CmdRecvTurn tid deadline now => stag (λ r, OutRecvTurn (or_sleep is_queue_empty deadline now r)) (spec_recv tid a)
  | CmdPeek tid => (a, OutMsg (spec_recv tid a).2)
  | CmdLen tid => (a, OutLen ((λ b, Z.of_nat (length (arrived b))) <$> boxes a !! tid))
  | CmdCapacity tid c =>
    if (c =? 0) || (MAX_QUEUE_CAPACITY <? c) then (a, OutUnit (Err InvalidArgument))
    else on_box tid (open_box tid a) (λ b, if c <? Z.of_nat (length (arrived b)) then Err QueueFull else Ok (b <| mb_capacity := c |>)) a
  | CmdAllow tid x => on_box tid (box tid a) (λ b, Ok (if bool_decide (x ∈ mb_allowed b) then b else b <| mb_allowed := mb_allowed b ++ [x] |>)) a
  | CmdDeny tid x => on_box tid (box tid a) (λ b, Ok (b <| mb_allowed := filter (λ t, t ≠ x) (mb_allowed b) |>)) a
  | CmdClear tid => on_box tid (open_box tid a) (λ b, Ok (b <| arrived := [] |>)) a
  | CmdClose tid => on_box tid (box tid a) (λ b, Ok (b <| mb_closed := true |>)) a
  | CmdRecvAll tid =>
    match open_box tid a with
    | Err e => (a, OutMsgs (Err e))
    | Ok b => (set_box tid (b <| arrived := [] |>) a, OutMsgs (Ok (in_order (length (arrived b)) (arrived b))))
    end
  | CmdSendBatch sender tid msgs =>
    match open_box tid a with
    | Err e => (a, OutCount (Err e))
    | Ok b =>
      if negb (bool_decide (may_send sender b)) then (a, OutCount (Err PermissionDenied))
      else let '(b, n) := deliver_batch (max_message_size (sconfig a)) msgs b in (set_box tid b a, OutCount (Ok n))
    end
  end.

(** The module: the mailboxes, the sender that sleeps, and whether it is wedged. *)
Record SpecSys := mkSpecSys {
  mail : IpcSpec;
  waiting : option SendCall;
  wedged : bool;
}.

Definition spec_turn (call : SendCall) (now : Z) (a : SpecSys) : SpecSys * IpcOut :=
  let '(m, r) := spec_send (sl_sender call) (sl_tid call) (sl_data call) (sl_priority call) (mail a) in
  let t := or_sleep is_queue_full (sl_deadline call) now r in
  (mkSpecSys m (if t is Sleeps then Some call else None) (wedged a), OutSendTurn t).

(** While a sender sleeps, no other call sends, registers or configures, and to
    unregister a task blocks the module for ever. *)
Definition spec_cmd (c : IpcCmd) (a : SpecSys) : SpecSys * IpcOut :=
  if wedged a then (a, OutWaits) else
  match waiting a, c with
  | _, CmdCount => (a, OutUnit (Ok tt))
  | None, CmdSendBlocking sender tid d prio timeout now => spec_turn (mkSendCall sender tid d prio (add64 now <$> timeout)) now a
  | Some call, CmdSendTurn now => spec_turn call now a
  | Some _, (CmdInit _ | CmdRegister _ | CmdSend _ _ _ _ | CmdSendBlocking _ _ _ _ _ _ | CmdSendBatch _ _ _) => (a, OutWaits)
  | Some call, CmdUnregister tid =>
    if bool_decide (is_Some (boxes (mail a) !! tid)) then (mkSpecSys (mail_cmd c (mail a)).1 (Some call) true, OutWaits)
    else (a, OutUnit (Ok tt))
  | _, _ => (mkSpecSys (mail_cmd c (mail a)).1 (waiting a) false, (mail_cmd c (mail a)).2)
  end.

Fixpoint spec_run (cs : list IpcCmd) (a : SpecSys) : SpecSys * list IpcOut :=
  match cs with
  | [] => (a, [])
  | c :: cs => let '(a, o) := spec_cmd c a in let '(a, os) := spec_run cs a in (a, o :: os)
  end.

(** ** Priority order *)

Definition before (m m' : Message) : Prop := priority m ≤ priority m'.

Fixpoint insert_msg (msg : Message) (q : list Message) : list Message :=
  match q with
  | [] => [msg]
  | m :: q => if decide (priority msg < priority m) then msg :: m :: q else m :: insert_msg msg q
  end.

Lemma insert_position msg q : take (position msg q) q ++ msg :: drop (position msg q) q = insert_msg msg q.
Proof.
  unfold position. induction q as [|m q IH]; [done|]. cbn [list_find insert_msg]. case_decide as Hm; [done|].
  destruct (list_find (λ m, priority msg < priority m) q) as [[i x]|]; cbn in IH |- *; by rewrite IH.
Qed.

Lemma insert_Permutation msg q : insert_msg msg q ≡ₚ msg :: q.
Proof. induction q as [|m q IH]; cbn; [done|]. case_decide; [done|]. rewrite IH. apply Permutation_swap. Qed.

Lemma insert_sorted msg q : StronglySorted before q → StronglySorted before (insert_msg msg q).
Proof.
  induction 1 as [|m q Hs IH Hm]; cbn; [by repeat constructor|]. case_decide.
  - constructor; [by constructor|]. constructor; [unfold before; lia|]. eapply Forall_impl; [exact Hm|]. unfold before. cbn. lia.
  - constructor; [done|]. rewrite insert_Permutation. constructor; [unfold before; lia|done].
Qed.

Lemma no_priority q p : Forall (λ m, priority m ≠ p) q → filter (λ m, priority m = p) q = [].
Proof. induction 1 as [|m q Hm _ IH]; [done|]. by rewrite filter_cons_False. Qed.

Lemma insert_filter msg q p :
  StronglySorted before q →
  filter (λ m, priority m = p) (insert_msg msg q) = filter (λ m, priority m = p) q ++ (if decide (priority msg = p) then [msg] else []).
Proof.
  induction 1 as [|m q Hs IH Hm]; cbn [insert_msg].
  - rewrite filter_cons, filter_nil. by case_decide.
  - destruct (decide (priority msg < priority m)) as [Hlt|Hlt].
    + rewrite (filter_cons _ msg). destruct (decide (priority msg = p)) as [Hp|]; [|by rewrite app_nil_r].
      assert (filter (λ m, priority m = p) (m :: q) = []) as ->; [|done].
      apply no_priority. constructor; [lia|]. eapply Forall_impl; [exact Hm|]. unfold before. cbn. lia.
    + rewrite !(filter_cons _ m), IH. by destruct (decide (priority m = p)).
Qed.

(** The queue is the messages in priority order, and of arrival within a priority. *)
Record ordered (q l : list Message) : Prop := {
  or_sorted : StronglySorted before q;
  or_perm : q ≡ₚ l;
  or_fifo p : filter (λ m, priority m = p) q = filter (λ m, priority m = p) l;
}.

Lemma ordered_nil : ordered [] [].
Proof. split; [constructor|done|done]. Qed.

Lemma ordered_push msg q l : ordered q l → ordered (insert_msg msg q) (l ++ [msg]).
Proof.
  intros [Hs Hp Hf]. split.
  - by apply insert_sorted.
  - by rewrite insert_Permutation, Hp, Permutation_cons_append.
  - intros p. rewrite insert_filter, filter_app, Hf, filter_cons, filter_nil by done. done.
Qed.

Lemma ordered_pop m q l : ordered (m :: q) l → ∃ l', next_message l = Some (m, l') ∧ ordered q l'.
Proof.
  intros [Hs Hp Hf]. apply StronglySorted_inv in Hs as [Hs Hm].
  assert (Forall (before m) l) as Hmin by (rewrite <-Hp; constructor; [unfold before; lia|done]).
  assert (m ∈ l) as Hml by (rewrite <-Hp; by left). unfold next_message.
  destruct (list_find _ l) as [[i m0]|] eqn:Hfind; [|apply list_find_None in Hfind; rewrite Forall_forall in Hfind; by destruct (Hfind m Hml)].
  apply list_find_Some in Hfind as (Hi & Hm0 & Hfirst). cbn.
  assert (priority m0 = priority m) as Hpr.
  { rewrite Forall_forall in Hm0, Hmin. specialize (Hm0 m Hml). specialize (Hmin m0 (list_elem_of_lookup_2 _ _ _ Hi)). unfold before in Hmin. lia. }
  assert (filter (λ x, priority x = priority m) (take i l) = []) as Hnone.
  { apply no_priority, Forall_lookup. intros j y [Hj Hji]%lookup_take_Some Hy. apply (Hfirst j y Hj Hji).
    eapply Forall_impl; [exact Hmin|]. unfold before. cbn. intros z. by rewrite Hy. }
  pose proof (take_drop_middle l i m0 Hi) as Hsplit. rewrite delete_take_drop.
  assert (∀ p, filter (λ x, priority x = p) l = filter (λ x, priority x = p) (take i l) ++
    (if decide (priority m0 = p) then [m0] else []) ++ filter (λ x, priority x = p) (drop (S i) l)) as Hl.
  { intros p. rewrite <-Hsplit at 1. rewrite filter_app, filter_cons. by destruct (decide (priority m0 = p)). }
  assert (m0 = m ∧ filter (λ x, priority x = priority m) q = filter (λ x, priority x = priority m) (drop (S i) l)) as [-> Hq].
  { specialize (Hf (priority m)). rewrite Hl, Hnone, filter_cons_True, decide_True in Hf by done. by injection Hf as -> ->. }
  exists (take i l ++ drop (S i) l). split; [done|]. split; [done| |].
  - apply (Permutation_cons_inv (a := m)). rewrite Hp, <-Hsplit at 1. by rewrite Permutation_middle.
  - intros p. rewrite filter_app. destruct (decide (p = priority m)) as [->|Hne]; [by rewrite Hnone, Hq|].
    specialize (Hf p). rewrite Hl, filter_cons_False, decide_False in Hf by congruence. done.
Qed.

Lemma ordered_empty l : ordered [] l → l = [] ∧ next_message l = None.
Proof. intros [_ Hp _]. apply Permutation_nil in Hp as ->. done. Qed.

Lemma ordered_in_order q l : ordered q l → in_order (length l) l = q.
Proof.
  revert l. induction q as [|m q IH]; intros l Ho; [by destruct (ordered_empty l Ho) as [-> _]|].
  destruct (ordered_pop _ _ _ Ho) as (l' & Hn & Ho'). rewrite <-(Permutation_length (or_perm _ _ Ho)). cbn. rewrite Hn.
  rewrite (Permutation_length (or_perm _ _ Ho')). by rewrite IH.
Qed.

(** ** The refinement *)

Record box_rep (q : MessageQueue) (b : Mailbox) : Prop := {
  br_order : ordered (queue q) (arrived b);
  br_capacity : capacity q = mb_capacity b;
  br_closed : closed q = mb_closed b;
  br_allowed : allowed_senders q = mb_allowed b;
}.

Record ipc_rep (s : Ipc) (a : IpcSpec) : Prop := {
  ir_boxes tid : option_Forall2 box_rep (IPC_MANAGER s !! tid) (boxes a !! tid);
  ir_config : CONFIG s = sconfig a;
}.

Lemma box_rep_len q b : box_rep q b → len q = Z.of_nat (length (arrived b)).
Proof. intros Hb. unfold len. by rewrite (Permutation_length (or_perm _ _ (br_order _ _ Hb))). Qed.

Lemma box_rep_allowed sender q b : box_rep q b → is_sender_allowed sender q = bool_decide (may_send sender b).
Proof. intros Hb. unfold is_sender_allowed. rewrite (br_allowed _ _ Hb). apply Bool.eq_iff_eq_true. by rewrite orb_true_iff, !bool_decide_eq_true. Qed.

Lemma push_rep msg q b :
  box_rep q b → if has_room b then ∃ q', push msg q = (q', Ok tt) ∧ box_rep q' (deliver msg b) else push msg q = (q, Err msg).
Proof.
  intros Hb. unfold has_room, push, is_full. rewrite (box_rep_len _ _ Hb), (br_capacity _ _ Hb). rewrite Z.leb_antisym.
  destruct (_ <? _); cbn [negb]; [|done]. eexists. split; [done|].
  split; try apply Hb. cbn. rewrite (insert_position msg (queue q)). apply ordered_push, Hb.
Qed.

Lemma pop_rep q b :
  box_rep q b →
  match next_message (arrived b) with
  | Some (m, l) => ∃ q', pop q = (q', Some m) ∧ box_rep q' (b <| arrived := l |>)
  | None => pop q = (q, None)
  end.
Proof.
  intros Hb. pose proof (br_order _ _ Hb) as Ho. unfold pop. destruct (queue q) as [|m l].
  - destruct (ordered_empty _ Ho) as [_ ->]. done.
  - destruct (ordered_pop _ _ _ Ho) as (l' & -> & Ho'). eexists. split; [done|]. split; [exact Ho'|apply Hb..].
Qed.

Lemma pop_all_eq fuel q : (length (queue q) ≤ fuel)%nat → pop_all fuel q = (q <| queue := [] |>, queue q).
Proof.
  revert q. induction fuel as [|fuel IH]; intros q Hl; cbn [pop_all]; unfold pop.
  - destruct q as [[|m l] ? ? ? ? ?]; [done|]. cbn in Hl. lia.
  - destruct q as [[|m l] ? ? ? ? ?]; [done|]. cbn in Hl |- *. rewrite IH by (cbn; lia). done.
Qed.

(** Waiting tasks are no part of what a mailbox promises. *)
Lemma box_rep_same q q' b :
  box_rep q b → queue q' = queue q → capacity q' = capacity q → closed q' = closed q → allowed_senders q' = allowed_senders q → box_rep q' b.
Proof. intros [] H1 H2 H3 H4. split; rewrite ?H1, ?H2, ?H3, ?H4; done. Qed.

Lemma batch_rep max msgs sent q b :
  box_rep q b →
  (push_batch max msgs sent q).2 = sent + (deliver_batch max msgs b).2 ∧ box_rep (push_batch max msgs sent q).1 (deliver_batch max msgs b).1.
Proof.
  revert sent q b. induction msgs as [|msg msgs IH]; intros sent q b Hb; cbn [push_batch deliver_batch]; [cbn; split; [lia|done]|].
  destruct (max <? _); [by apply IH|]. pose proof (push_rep msg q b Hb) as Hp. destruct (has_room b).
  - destruct Hp as (q' & -> & Hb'). destruct (IH (sent + 1) q' _ Hb') as [H1 H2]. destruct (deliver_batch max msgs (deliver msg b)) as [b1 n].
    cbn in H1, H2 |- *. split; [lia|done].
  - rewrite Hp. cbn. split; [lia|done].
Qed.

Lemma ipc_rep_same s s' a : ipc_rep s a → IPC_MANAGER s' = IPC_MANAGER s → CONFIG s' = CONFIG s → ipc_rep s' a.
Proof. intros [] H1 H2. split; [intros tid; by rewrite H1|by rewrite H2]. Qed.

Lemma count_same f s : IPC_MANAGER (count f s) = IPC_MANAGER s ∧ CONFIG (count f s) = CONFIG s.
Proof. unfold count. by destruct (collect_metrics _). Qed.

Lemma count_rep f s a : ipc_rep s a → ipc_rep (count f s) a.
Proof. intros Hs. destruct (count_same f s). by eapply ipc_rep_same. Qed.

Lemma wake_rep l s a : ipc_rep s a → ipc_rep (wake l s) a.
Proof. intros Hs. by eapply ipc_rep_same. Qed.

Lemma put_rep tid q b s a : ipc_rep s a → box_rep q b → ipc_rep (put_queue tid q s) (set_box tid b a).
Proof.
  intros [Hs Hc] Hb. split; [|done]. intros t. cbn. destruct (decide (t = tid)) as [->|]; [rewrite !lookup_insert_eq; by constructor|by rewrite !lookup_insert_ne].
Qed.

(** The queue that represents a mailbox stays put. *)
Lemma put_same_rep tid q' b s a :
  ipc_rep s a → boxes a !! tid = Some b → box_rep q' b → ipc_rep (put_queue tid q' s) a.
Proof.
  intros Hs Hb Hq. pose proof (put_rep tid q' b s a Hs Hq) as Hp. unfold set_box in Hp. rewrite insert_id in Hp by done. by destruct a.
Qed.

Lemma lookup_rep tid s a : ipc_rep s a →
  (∃ q b, IPC_MANAGER s !! tid = Some q ∧ boxes a !! tid = Some b ∧ box_rep q b) ∨ (IPC_MANAGER s !! tid = None ∧ boxes a !! tid = None).
Proof. intros Hs. pose proof (ir_boxes _ _ Hs tid) as H. inversion H as [q b Hb|]; [left; exists q, b; done|right; done]. Qed.

Lemma try_send_rep sender tid d prio s a :
  ipc_rep s a → (max_message_size (sconfig a) <? Z.of_nat (length d)) = false →
  (try_send sender tid d prio s).2 = (spec_send sender tid d prio a).2 ∧ ipc_rep (try_send sender tid d prio s).1 (spec_send sender tid d prio a).1.
Proof.
  intros Hs Hd. unfold try_send, spec_send, box. rewrite Hd. destruct (lookup_rep tid s a Hs) as [(q & b & -> & -> & Hb)|[-> ->]]; [|done]. cbn [ok_or].
  rewrite (box_rep_allowed sender q b Hb), (br_closed _ _ Hb). destruct (bool_decide _); cbn [negb]; [|split; [done|by apply count_rep]].
  destruct (mb_closed b); [done|]. pose proof (push_rep (mkMessage d prio) q b Hb) as Hp. destruct (has_room b).
  - destruct Hp as (q' & -> & Hb'). cbn. split; [done|]. apply count_rep, wake_rep, put_rep; [done|]. by eapply box_rep_same.
  - by rewrite Hp.
Qed.

Lemma ipc_send_rep sender tid d prio s a :
  ipc_rep s a → (send sender tid d prio s).2 = (spec_send sender tid d prio a).2 ∧ ipc_rep (send sender tid d prio s).1 (spec_send sender tid d prio a).1.
Proof.
  intros Hs. unfold send. rewrite (ir_config _ _ Hs). destruct (_ <? _) eqn:E; [|by apply try_send_rep].
  unfold spec_send. by rewrite E.
Qed.

(** A full queue leaves the mailbox as it is, and it exists. *)
Lemma spec_send_full sender tid d prio a a' : spec_send sender tid d prio a = (a', Err QueueFull) → a' = a ∧ is_Some (boxes a !! tid).
Proof. unfold spec_send, box. intros H. destruct (boxes a !! tid); repeat case_match; simplify_eq; eauto. Qed.

Lemma spec_recv_empty tid a a' : spec_recv tid a = (a', Err QueueEmpty) → a' = a ∧ is_Some (boxes a !! tid).
Proof. unfold spec_recv, open_box, box. intros H. destruct (boxes a !! tid); repeat case_match; simplify_eq; eauto. Qed.

Lemma send_turn_rep sender tid d prio deadline now s a :
  ipc_rep s a →
  (send_turn sender tid d prio deadline now s).2 = or_sleep is_queue_full deadline now (spec_send sender tid d prio a).2 ∧
  ipc_rep (send_turn sender tid d prio deadline now s).1 (spec_send sender tid d prio a).1.
Proof.
  intros Hs. unfold send_turn. rewrite (ir_config _ _ Hs). destruct (_ <? _) eqn:E; [unfold spec_send; by rewrite E|].
  destruct (try_send_rep sender tid d prio s a Hs E) as [Hr Hs']. destruct (spec_send sender tid d prio a) as [a' r'] eqn:Ha, (try_send sender tid d prio s) as [s' r].
  cbn in Hr, Hs' |- *. subst r'. destruct r as [[]|[]]; cbn; try done. destruct (expired deadline now); [done|].
  destruct (spec_send_full _ _ _ _ _ _ Ha) as [-> [b Hb]]. destruct (lookup_rep tid s' a Hs') as [(q & b' & -> & Hb' & Hq)|[_ Hn]]; [|congruence].
  split; [done|]. apply count_rep. apply (put_same_rep tid _ b'); [done..|]. unfold add_writer. case_match; [done|]. by eapply box_rep_same.
Qed.

Lemma open_queue_rep tid s a :
  ipc_rep s a →
  match open_box tid a with
  | Ok b => ∃ q, open_queue tid s = Ok q ∧ box_rep q b ∧ boxes a !! tid = Some b
  | Err e => open_queue tid s = Err e
  end.
Proof.
  intros Hs. unfold open_box, open_queue, box. destruct (lookup_rep tid s a Hs) as [(q & b & -> & -> & Hb)|[-> ->]]; [|done]. cbn.
  rewrite (br_closed _ _ Hb). destruct (mb_closed b); [done|]. eauto.
Qed.

Lemma recv_open tid s :
  recv tid s =
  match open_queue tid s with
  | Err e => (s, Err e, None)
  | Ok q => match pop q with
            | (q, Some msg) => (wake (writers_waiting q) (put_queue tid (q <| writers_waiting := [] |>) s), Ok msg, Some (inc_received 1))
            | (_, None) => (s, Err QueueEmpty, None)
            end
  end.
Proof. unfold recv, open_queue. destruct (IPC_MANAGER s !! tid) as [q|]; [|done]. by destruct (closed q). Qed.

(** A call gives the result of its specification, and leaves queues that represent
    what it leaves. *)
Definition agrees {A} (f : A → IpcOut) (p : Ipc * A) (m : IpcSpec * IpcOut) : Prop := f p.2 = m.2 ∧ ipc_rep p.1 m.1.

Lemma finish_agrees {A} (f : A → IpcOut) p m : agrees f p.1 m → agrees f (finish p) m.
Proof. destruct p as [[s r] [c|]]; [|done]. intros [Hr Hs]. split; [done|]. by apply count_rep. Qed.

Lemma recv_rep f tid s a : ipc_rep s a → agrees f (recv tid s).1 (stag f (spec_recv tid a)).
Proof.
  intros Hs. rewrite recv_open. unfold spec_recv. pose proof (open_queue_rep tid s a Hs) as Ho. destruct (open_box tid a) as [b|e]; [|by rewrite Ho].
  destruct Ho as (q & -> & Hq & _). pose proof (pop_rep q b Hq) as Hp. destruct (next_message (arrived b)) as [[m l]|]; [|by rewrite Hp].
  destruct Hp as (q' & -> & Hb'). split; [done|]. apply wake_rep, put_rep; [done|]. by eapply box_rep_same.
Qed.

Lemma recv_turn_rep tid deadline now s a : ipc_rep s a → agrees OutRecvTurn (recv_turn tid deadline now s).1 (mail_cmd (CmdRecvTurn tid deadline now) a).
Proof.
  intros Hs. unfold recv_turn, agrees. destruct (recv_rep OutMsg tid s a Hs) as [Hr Hs']. cbn [mail_cmd]. destruct (spec_recv tid a) as [a' r'] eqn:Ha, (recv tid s) as [[s' r] c].
  cbn in Hr, Hs' |- *. injection Hr as ->. destruct r' as [|[]]; cbn; try done. destruct (expired deadline now); [done|].
  destruct (spec_recv_empty _ _ _ Ha) as [-> [b Hb]]. destruct (lookup_rep tid s' a Hs') as [(q & b' & -> & Hb' & Hq)|[_ Hn]]; [|congruence].
  split; [done|]. apply (put_same_rep tid _ b'); [done..|]. unfold add_reader. case_match; [done|]. by eapply box_rep_same.
Qed.

Lemma recv_all_rep tid s a : ipc_rep s a → agrees OutMsgs (recv_all tid s).1 (mail_cmd (CmdRecvAll tid) a).
Proof.
  intros Hs. cbn. unfold recv_all. pose proof (open_queue_rep tid s a Hs) as Ho. destruct (open_box tid a) as [b|e]; [|by rewrite Ho].
  destruct Ho as (q & -> & Hq & _). rewrite pop_all_eq by lia. cbn. rewrite (ordered_in_order _ _ (br_order _ _ Hq)). split; [done|].
  apply wake_rep, put_rep; [done|]. split; [apply ordered_nil|apply Hq..].
Qed.

Lemma init_rep config s a : ipc_rep s a → agrees OutUnit (init config s) (mail_cmd (CmdInit config) a).
Proof. intros Hs. cbn. unfold init. destruct (IpcConfig_validate config); [|done]. split; [done|]. split; [apply Hs|done]. Qed.

Lemma register_rep tid s a : ipc_rep s a → agrees OutUnit (register tid s) (mail_cmd (CmdRegister tid) a).
Proof.
  intros Hs. cbn. unfold register. destruct (lookup_rep tid s a Hs) as [(q & b & -> & -> & Hb)|[-> ->]]; [done|]. cbn. split; [done|].
  apply count_rep. rewrite (ir_config _ _ Hs). apply put_rep; [done|]. split; [apply ordered_nil|done..].
Qed.

Lemma unregister_rep tid s a :
  ipc_rep s a →
  ipc_rep (unregister tid s).1.1 (mail_cmd (CmdUnregister tid) a).1 ∧
  (unregister tid s).2 = if bool_decide (is_Some (boxes a !! tid)) then Some inc_destroyed else None.
Proof.
  intros Hs. unfold unregister. destruct (lookup_rep tid s a Hs) as [(q & b & -> & Ha & Hb)|[-> Ha]]; cbn; rewrite Ha; (split; [|done]).
  - split; [|apply Hs]. intros t. cbn. destruct (decide (t = tid)) as [->|]; [rewrite !lookup_delete_eq; constructor|rewrite !lookup_delete_ne by done; apply Hs].
  - rewrite delete_id by done. by destruct a.
Qed.

Lemma peek_rep tid s a : ipc_rep s a → peek tid s = (spec_recv tid a).2.
Proof.
  intros Hs. unfold peek, spec_recv. pose proof (open_queue_rep tid s a Hs) as Ho. destruct (open_box tid a) as [b|e]; [|by rewrite Ho].
  destruct Ho as (q & -> & Hq & _). pose proof (pop_rep q b Hq) as Hp. unfold pop in Hp. unfold peek_front.
  destruct (next_message (arrived b)) as [[m l]|]; destruct (queue q) as [|m' l']; try done; destruct Hp as (q' & [= <- <-] & _); done.
Qed.

Lemma queue_len_rep tid s a : ipc_rep s a → queue_len tid s = (λ b, Z.of_nat (length (arrived b))) <$> boxes a !! tid.
Proof. intros Hs. unfold queue_len. destruct (lookup_rep tid s a Hs) as [(q & b & -> & -> & Hb)|[-> ->]]; cbn; [|done]. by rewrite (box_rep_len q b). Qed.

Lemma capacity_rep tid c s a : ipc_rep s a → agrees OutUnit (set_queue_capacity tid c s) (mail_cmd (CmdCapacity tid c) a).
Proof.
  intros Hs. cbn [mail_cmd]. unfold set_queue_capacity. destruct ((c =? 0) || _); [done|]. pose proof (open_queue_rep tid s a Hs) as Ho. unfold on_box.
  destruct (open_box tid a) as [b|e]; [|by rewrite Ho]. destruct Ho as (q & -> & Hq & _). rewrite (box_rep_len q b Hq). destruct (c <? _); [done|].
  split; [done|]. apply put_rep; [done|]. by split; try apply Hq.
Qed.

Lemma allow_rep tid x s a : ipc_rep s a → agrees OutUnit (allow_sender tid x s) (mail_cmd (CmdAllow tid x) a).
Proof.
  intros Hs. cbn [mail_cmd]. unfold allow_sender, on_box, box. destruct (lookup_rep tid s a Hs) as [(q & b & -> & -> & Hb)|[-> ->]]; cbn; [|done].
  split; [done|]. apply put_rep; [done|]. unfold allow. rewrite (br_allowed _ _ Hb). case_match; [done|]. split; try apply Hb. done.
Qed.

Lemma deny_rep tid x s a : ipc_rep s a → agrees OutUnit (deny_sender tid x s) (mail_cmd (CmdDeny tid x) a).
Proof.
  intros Hs. cbn [mail_cmd]. unfold deny_sender, on_box, box. destruct (lookup_rep tid s a Hs) as [(q & b & -> & -> & Hb)|[-> ->]]; cbn; [|done].
  split; [done|]. apply put_rep; [done|]. unfold deny. rewrite (br_allowed _ _ Hb). split; try apply Hb. done.
Qed.

Lemma clear_rep tid s a : ipc_rep s a → agrees OutUnit (clear_queue tid s) (mail_cmd (CmdClear tid) a).
Proof.
  intros Hs. cbn [mail_cmd]. unfold clear_queue. pose proof (open_queue_rep tid s a Hs) as Ho. unfold on_box. destruct (open_box tid a) as [b|e]; [|by rewrite Ho].
  destruct Ho as (q & -> & Hq & _). split; [done|]. apply wake_rep, put_rep; [done|]. split; [apply ordered_nil|apply Hq..].
Qed.

Lemma close_rep tid s a : ipc_rep s a → agrees OutUnit (close_queue tid s) (mail_cmd (CmdClose tid) a).
Proof.
  intros Hs. cbn [mail_cmd]. unfold close_queue, on_box, box. destruct (lookup_rep tid s a Hs) as [(q & b & -> & Ha & Hb)|[-> ->]]; [|done]. rewrite Ha. cbn.
  destruct (closed q) eqn:Hc; (split; [done|]).
  - cbn. rewrite (br_closed _ _ Hb) in Hc. unfold set_box. destruct b as [? ? ? ?]. cbn in Hc. subst. rewrite insert_id by done. by destruct a.
  - apply wake_rep, put_rep; [done|]. by split; try apply Hb.
Qed.

Lemma send_batch_rep sender tid msgs s a : ipc_rep s a → agrees OutCount (send_batch sender tid msgs s) (mail_cmd (CmdSendBatch sender tid msgs) a).
Proof.
  intros Hs. cbn [mail_cmd]. unfold send_batch. pose proof (open_queue_rep tid s a Hs) as Ho. destruct (open_box tid a) as [b|e]; [|by rewrite Ho].
  destruct Ho as (q & -> & Hq & _). rewrite (box_rep_allowed sender q b Hq). destruct (bool_decide _); cbn [negb]; [|split; [done|by apply count_rep]].
  rewrite (ir_config _ _ Hs). destruct (batch_rep (max_message_size (sconfig a)) msgs 0 q b Hq) as [Hn Hb].
  destruct (push_batch _ msgs 0 q) as [q' n], (deliver_batch _ msgs b) as [b' n']. cbn [fst snd] in Hn, Hb. rewrite Z.add_0_l in Hn. subst n.
  destruct (0 <? n'); (split; [done|]); [apply count_rep, wake_rep|]; apply put_rep; try done. by eapply box_rep_same.
Qed.

Record sys_rep (y : IpcSys) (a : SpecSys) : Prop := {
  sr_mail : ipc_rep (ipc y) (mail a);
  sr_sleeper : sleeper y = waiting a;
  sr_stuck : stuck y = wedged a;
}.

(** The two systems give the same output and stay alike. *)
Definition sys_agree (p : IpcSys * IpcOut) (q : SpecSys * IpcOut) : Prop := p.2 = q.2 ∧ sys_rep p.1 q.1.

Lemma plain_rep {A} (f : A → IpcOut) op y a c :
  sys_rep y a → wedged a = false → agrees f (op (ipc y)) (mail_cmd c (mail a)) →
  sys_agree (plain f op y) (mkSpecSys (mail_cmd c (mail a)).1 (waiting a) false, (mail_cmd c (mail a)).2).
Proof. intros [Hs Hw Hd] Ha [Hr Hs']. unfold plain. destruct (op (ipc y)) as [s r]. split; [done|]. split; cbn; [done..|]. by rewrite Hd. Qed.

Lemma locks_last_rep {A} (f : A → IpcOut) op y a c :
  sys_rep y a → wedged a = false → agrees f (op (ipc y)).1 (mail_cmd c (mail a)) →
  sys_agree (locks_last f op y) (mkSpecSys (mail_cmd c (mail a)).1 (waiting a) false, (mail_cmd c (mail a)).2).
Proof.
  intros Hy Ha Hop. unfold locks_last. destruct (sleeper y) as [call|]; [|apply plain_rep; [done..|by apply finish_agrees]].
  destruct Hy as [Hs Hw Hd], (op (ipc y)) as [[s r] k], Hop as [Hr Hs']. split; [done|]. split; cbn; [done..|]. by rewrite Hd.
Qed.

Lemma run_send_rep call now y a : sys_rep y a → sys_agree (run_send call now y) (spec_turn call now a).
Proof.
  intros [Hs Hw Hd]. unfold run_send, spec_turn.
  destruct (send_turn_rep (sl_sender call) (sl_tid call) (sl_data call) (sl_priority call) (sl_deadline call) now (ipc y) (mail a) Hs) as [Ht Hs'].
  destruct (send_turn _ _ _ _ _ _ _) as [s t], (spec_send _ _ _ _ _) as [m r]. cbn in Ht, Hs'. subst t. split; [done|]. by split.
Qed.

Lemma unregister_cmd_rep tid y a : sys_rep y a → sys_agree (ipc_cmd (CmdUnregister tid) y) (spec_cmd (CmdUnregister tid) a).
Proof.
  intros Hy. pose proof Hy as [Hs Hw Hd]. unfold ipc_cmd, spec_cmd. rewrite Hw, Hd. destruct (wedged a) eqn:Ha; [done|].
  destruct (unregister_rep tid _ _ Hs) as [Hm Hc]. destruct (waiting a) as [call|] eqn:Hcall.
  - destruct (bool_decide _) eqn:Hb, (unregister tid (ipc y)) as [[s []] c] eqn:Ht; cbn in Hc, Hm; subst c; [split; [done|]; by split|].
    unfold plain. rewrite Ht. split; [done|]. split; cbn; [|congruence..]. apply bool_decide_eq_false in Hb. rewrite delete_id in Hm by (by rewrite eq_None_not_Some). by destruct (mail a).
  - rewrite <- Hcall. apply (plain_rep _ _ y a (CmdUnregister tid)); [done..|]. split; [done|]. cbn [fst].
    destruct (unregister tid (ipc y)) as [[s []] [c|]]; [by apply count_rep|done].
Qed.

Lemma ipc_cmd_rep c y a : sys_rep y a → sys_agree (ipc_cmd c y) (spec_cmd c a).
Proof.
  intros Hy. pose proof Hy as [Hs Hw Hd].
  destruct c as [config|tid|tid|sender tid d prio|sender tid d prio t now|now|tid|tid t now| |tid|tid|tid c|tid x|tid x|tid|tid|tid|sender tid msgs];
    try apply (unregister_cmd_rep tid y a Hy); unfold ipc_cmd, spec_cmd, locks_first, send_blocking; rewrite Hd; (destruct (wedged a) eqn:Ha; [done|]).
  - rewrite Hw. destruct (waiting a) eqn:Hc; [done|]. rewrite <- Hc. apply plain_rep; [done..|]. by apply init_rep.
  - rewrite Hw. destruct (waiting a) eqn:Hc; [done|]. rewrite <- Hc. apply plain_rep; [done..|]. by apply register_rep.
  - rewrite Hw. destruct (waiting a) eqn:Hc; [done|]. rewrite <- Hc. apply plain_rep; [done..|].
    destruct (ipc_send_rep sender tid d prio _ _ Hs) as [Hr Hs']. split; cbn; [by rewrite Hr|done].
  - rewrite Hw. destruct (waiting a); [done|]. by apply run_send_rep.
  - rewrite Hw. destruct (waiting a); [by apply run_send_rep|done].
  - destruct (waiting a) eqn:Hc; rewrite <- Hc; apply (locks_last_rep _ _ y a (CmdRecv tid)); try done; by apply recv_rep.
  - destruct (waiting a) eqn:Hc; rewrite <- Hc; apply (locks_last_rep _ _ y a (CmdRecvTurn tid t now)); try done; by apply recv_turn_rep.
  - split; [by destruct (waiting a)|]. rewrite Hw. destruct (waiting a) eqn:Hc; [done|]. destruct (uncounted y); [done|]. split; cbn; [by apply count_rep|congruence..].
  - destruct (waiting a) eqn:Hc; rewrite <- Hc; apply (plain_rep _ _ y a (CmdPeek tid)); try done; (split; [|done]); cbn; by rewrite (peek_rep _ _ _ Hs).
  - destruct (waiting a) eqn:Hc; rewrite <- Hc; apply (plain_rep _ _ y a (CmdLen tid)); try done; (split; [|done]); cbn; by rewrite (queue_len_rep _ _ _ Hs).
  - destruct (waiting a) eqn:Hc; rewrite <- Hc; apply (plain_rep _ _ y a (CmdCapacity tid c)); try done; by apply capacity_rep.
  - destruct (waiting a) eqn:Hc; rewrite <- Hc; apply (plain_rep _ _ y a (CmdAllow tid x)); try done; by apply allow_rep.
  - destruct (waiting a) eqn:Hc; rewrite <- Hc; apply (plain_rep _ _ y a (CmdDeny tid x)); try done; by apply deny_rep.
  - destruct (waiting a) eqn:Hc; rewrite <- Hc; apply (plain_rep _ _ y a (CmdClear tid)); try done; by apply clear_rep.
  - destruct (waiting a) eqn:Hc; rewrite <- Hc; apply (plain_rep _ _ y a (CmdClose tid)); try done; by apply close_rep.
  - destruct (waiting a) eqn:Hc; rewrite <- Hc; apply (locks_last_rep _ _ y a (CmdRecvAll tid)); try done; by apply recv_all_rep.
  - rewrite Hw. destruct (waiting a) eqn:Hc; [done|]. rewrite <- Hc. apply plain_rep; [done..|]. by apply send_batch_rep.
Qed.

Definition IpcMetrics_default : IpcMetrics := mkIpcMetrics 0 0 0 0 0 0 0 0.
Definition Ipc_new : IpcSys := mkIpcSys (mkIpc ∅ IpcConfig_default IpcMetrics_default []) None [] false.
Definition IpcSpec_new : SpecSys := mkSpecSys (mkIpcSpec ∅ IpcConfig_default) None false.

(** C21: Message queues deliver in priority order. Whatever calls tasks make, blocking
    ones included, every queue is a bounded mailbox: a receive takes the first to
    arrive among the messages of the highest priority, and a message stays until it is
    received, or its queue is cleared, closed or unregistered. A message is accepted
    only when it is small enough, there is room, and the list of permitted senders has
    the sender or is empty. A blocking call sleeps exactly when there is no room or no
    message and its deadline has not passed. While a blocking sender sleeps it keeps
    the configuration locked: tasks receive, but none sends, registers or configures
    until it is through, and to unregister a task that has a queue blocks the module
    for ever. *)
Theorem ipc_refines cmds : (ipc_run cmds Ipc_new).2 = (spec_run cmds IpcSpec_new).2.
Proof.
  assert (∀ y a, sys_rep y a → (ipc_run cmds y).2 = (spec_run cmds a).2) as Hrun.
  { induction cmds as [|c cmds IH]; intros y a Hy; [done|]. destruct (ipc_cmd_rep c y a Hy) as [Ho Hy']. cbn.
    destruct (ipc_cmd c y) as [y' o], (spec_cmd c a) as [a' o']. cbn in Ho, Hy'. specialize (IH y' a' Hy').
    destruct (ipc_run cmds y'), (spec_run cmds a'). cbn in *. by rewrite Ho, IH. }
  apply Hrun. split; [|done..]. split; [|done]. intros tid. cbn. rewrite !lookup_empty. constructor.
Qed.

(** ** Waiting tasks *)

Definition reader_ok (q : MessageQueue) : Prop := readers_waiting q ≠ [] → queue q = [].

Definition readers_ok (s : Ipc) : Prop := ∀ tid q, IPC_MANAGER s !! tid = Some q → reader_ok q.

Lemma put_readers tid q s : readers_ok s → reader_ok q → readers_ok (put_queue tid q s).
Proof. intros Hs Hq t q'. cbn. rewrite lookup_insert_Some. intros [[<- <-]|[_ H]]; [done|by eapply Hs]. Qed.

Lemma same_readers s s' : readers_ok s → IPC_MANAGER s' = IPC_MANAGER s → readers_ok s'.
Proof. intros Hs He t q. rewrite He. apply Hs. Qed.

Lemma count_readers f s : readers_ok s → readers_ok (count f s).
Proof. intros Hs. eapply same_readers; [done|apply count_same]. Qed.

Lemma finish_readers {A} (p : Ipc * A * option Count) : readers_ok p.1.1 → readers_ok (finish p).1.
Proof. destruct p as [[s r] [c|]]; [apply count_readers|done]. Qed.

Lemma wake_all_readers l s : readers_ok s → readers_ok (wake l s).
Proof. intros Hs. by eapply same_readers. Qed.

Lemma try_send_readers sender tid d prio s : readers_ok s → readers_ok (try_send sender tid d prio s).1.
Proof.
  intros Hs. unfold try_send. destruct (IPC_MANAGER s !! tid) as [q|]; [|done]. destruct (negb _); [by apply count_readers|]. destruct (closed q); [done|].
  destruct (push _ q) as [q' [|]]; [|done]. cbn. apply count_readers, wake_all_readers, put_readers; [done|]. by intros H.
Qed.

Lemma recv_readers tid s : readers_ok s → readers_ok (recv tid s).1.1.
Proof.
  intros Hs. unfold recv. destruct (IPC_MANAGER s !! tid) as [q|] eqn:Hq; [|done]. destruct (closed q); [done|]. unfold pop.
  destruct (queue q) as [|m l] eqn:Hl; [done|]. cbn. apply wake_all_readers, put_readers; [done|]. intros H. cbn in H. by rewrite (Hs _ _ Hq H) in Hl.
Qed.

Lemma recv_empty tid s s' c : recv tid s = (s', Err QueueEmpty, c) → s' = s ∧ ∃ q, IPC_MANAGER s !! tid = Some q ∧ queue q = [].
Proof.
  unfold recv, pop. destruct (IPC_MANAGER s !! tid) as [q|] eqn:Hq; [|done]. destruct (closed q); [done|]. destruct (queue q) as [|m l] eqn:Hl; [|done]. intros [= <-]. eauto.
Qed.

Lemma open_queue_some tid s q : open_queue tid s = Ok q → IPC_MANAGER s !! tid = Some q.
Proof. unfold open_queue. intros H. repeat case_match; by simplify_eq. Qed.

Lemma push_batch_zero max msgs sent q : sent ≤ (push_batch max msgs sent q).2 ∧ ((push_batch max msgs sent q).2 = sent → (push_batch max msgs sent q).1 = q).
Proof.
  revert sent q. induction msgs as [|msg msgs IH]; intros sent q; cbn; [done|]. destruct (max <? _); [apply IH|]. unfold push. destruct (is_full q); [done|].
  destruct (IH (sent + 1) (q <| queue := take (position msg (queue q)) (queue q) ++ [msg] ++ drop (position msg (queue q)) (queue q) |>)) as [H1 _]. split; lia.
Qed.

Lemma run_send_readers call now y : readers_ok (ipc y) → readers_ok (ipc (run_send call now y).1).
Proof.
  intros Hs. unfold run_send, send_turn. destruct (_ <? _); [done|].
  pose proof (try_send_readers (sl_sender call) (sl_tid call) (sl_data call) (sl_priority call) _ Hs) as H.
  destruct (try_send _ _ _ _ _) as [s' [[]|[]]]; cbn in H |- *; try done.
  destruct (expired _ _); [done|]. destruct (IPC_MANAGER s' !! sl_tid call) as [q|] eqn:Hq; [|done]. cbn. apply count_readers, put_readers; [done|].
  unfold add_writer. case_match; exact (H _ _ Hq).
Qed.

Lemma plain_readers {A} (f : A → IpcOut) op y : readers_ok (op (ipc y)).1 → readers_ok (ipc (plain f op y).1).
Proof. unfold plain. by destruct (op (ipc y)). Qed.

Lemma locks_first_readers {A} (f : A → IpcOut) op y : readers_ok (ipc y) → readers_ok (op (ipc y)).1 → readers_ok (ipc (locks_first f op y).1).
Proof. intros Hy Hop. unfold locks_first. destruct (sleeper y); [done|by apply plain_readers]. Qed.

Lemma locks_last_readers {A} (f : A → IpcOut) op y : readers_ok (op (ipc y)).1.1 → readers_ok (ipc (locks_last f op y).1).
Proof.
  intros Hop. unfold locks_last. destruct (sleeper y) as [call|]; [by destruct (op (ipc y)) as [[s r] c]|]. apply plain_readers. by apply finish_readers.
Qed.

Lemma unregister_readers tid s : readers_ok s → readers_ok (unregister tid s).1.1.
Proof. intros Hs. unfold unregister. destruct (IPC_MANAGER s !! tid); [|done]. intros t q'. cbn. rewrite lookup_delete_Some. intros [_ H]. by eapply Hs. Qed.

Lemma unregister_cmd_readers tid y : readers_ok (ipc y) → readers_ok (ipc (ipc_cmd (CmdUnregister tid) y).1).
Proof.
  intros Hs. unfold ipc_cmd. destruct (stuck y); [done|]. pose proof (unregister_readers tid _ Hs) as H.
  destruct (sleeper y) as [call|]; [destruct (unregister tid (ipc y)) as [[s r] [c|]] eqn:Ht; [done|]|]; apply plain_readers; cbn; apply finish_readers; [by rewrite Ht|done].
Qed.

Lemma send_batch_readers sender tid msgs s : readers_ok s → readers_ok (send_batch sender tid msgs s).1.
Proof.
  intros Hs. unfold send_batch. destruct (open_queue tid s) as [q|] eqn:Ho; [|done]. apply open_queue_some in Ho. destruct (negb _); [by apply count_readers|].
  destruct (push_batch_zero (max_message_size (CONFIG s)) msgs 0 q) as [Hge Hz]. destruct (push_batch _ msgs 0 q) as [q' n]. cbn in Hge, Hz |- *.
  destruct (Z.ltb_spec 0 n); [apply count_readers, wake_all_readers, put_readers; [done|]; by intros H'|]. rewrite Hz by lia. apply put_readers; [done|]. by eapply Hs.
Qed.

Lemma ipc_cmd_readers c y : readers_ok (ipc y) → readers_ok (ipc (ipc_cmd c y).1).
Proof.
  intros Hs.
  destruct c as [config|tid|tid|sender tid d prio|sender tid d prio t now|now|tid|tid t now| |tid|tid|tid c|tid x|tid x|tid|tid|tid|sender tid msgs];
    try by apply unregister_cmd_readers.
  all: unfold ipc_cmd, send_blocking; (destruct (stuck y); [done|]).
  - apply locks_first_readers; [done|]. unfold init. by destruct (IpcConfig_validate config).
  - apply locks_first_readers; [done|]. unfold register. destruct (IPC_MANAGER (ipc y) !! tid); [done|]. cbn. apply count_readers, put_readers; [done|]. by intros H.
  - apply locks_first_readers; [done|]. unfold send. destruct (_ <? _); [done|by apply try_send_readers].
  - destruct (sleeper y); [done|by apply run_send_readers].
  - destruct (sleeper y); [by apply run_send_readers|done].
  - apply locks_last_readers. by apply recv_readers.
  - apply locks_last_readers. unfold recv_turn. pose proof (recv_readers tid _ Hs) as H. destruct (recv tid (ipc y)) as [[s' [|[]]] c] eqn:Hr; cbn in H |- *; try done.
    destruct (expired _ _); [done|]. apply recv_empty in Hr as [-> (q & -> & Hq)]. cbn. apply put_readers; [done|]. intros _. unfold add_reader. by case_match.
  - destruct (sleeper y), (uncounted y); try done. by apply count_readers.
  - done.
  - done.
  - apply plain_readers. unfold set_queue_capacity. destruct (_ || _); [done|]. destruct (open_queue tid _) as [q|] eqn:Ho; [|done]. apply open_queue_some in Ho.
    destruct (_ <? _); [done|]. apply put_readers; [done|]. exact (Hs _ _ Ho).
  - apply plain_readers. unfold allow_sender. destruct (_ !! tid) as [q|] eqn:Ho; [|done]. apply put_readers; [done|]. unfold allow. case_match; exact (Hs _ _ Ho).
  - apply plain_readers. unfold deny_sender. destruct (_ !! tid) as [q|] eqn:Ho; [|done]. apply put_readers; [done|]. exact (Hs _ _ Ho).
  - apply plain_readers. unfold clear_queue. destruct (open_queue tid _) as [q|]; [|done]. apply wake_all_readers, put_readers; [done|]. by intros _.
  - apply plain_readers. unfold close_queue. destruct (_ !! tid) as [q|]; [|done]. destruct (closed q); [done|]. apply wake_all_readers, put_readers; [done|]. by intros H.
  - apply locks_last_readers. unfold recv_all. destruct (open_queue tid _) as [q|]; [|done]. rewrite pop_all_eq by lia. apply wake_all_readers, put_readers; [done|]. by intros _.
  - apply locks_first_readers; [done|by apply send_batch_readers].
Qed.

(** A task waits for a message only while there is none. *)
Lemma waiting_readers_idle cmds y : readers_ok (ipc y) → readers_ok (ipc (ipc_run cmds y).1).
Proof.
  revert y. induction cmds as [|c cmds IH]; intros y Hs; [done|]. cbn. pose proof (ipc_cmd_readers c y Hs) as Hc.
  destruct (ipc_cmd c y) as [y' o]. specialize (IH y' Hc). by destruct (ipc_run cmds y').
Qed.

(** ** Where the code departs from its documentation *)

(** Denying a sender has no effect on a queue that is open to all, and denying the
    last permitted sender opens the queue to all. *)
Lemma deny_opens_queue :
  (ipc_run [CmdRegister 1; CmdDeny 1 9; CmdSend 9 1 [] 0; CmdAllow 1 2; CmdSend 9 1 [] 0; CmdDeny 1 2; CmdSend 9 1 [] 0] Ipc_new).2 =
  [OutUnit (Ok tt); OutUnit (Ok tt); OutUnit (Ok tt); OutUnit (Ok tt); OutUnit (Err PermissionDenied); OutUnit (Ok tt); OutUnit (Ok tt)].
Proof. by vm_compute. Qed.

(** Messages that are in a queue when it is closed cannot be received. *)
Lemma close_loses_messages :
  last (ipc_run [CmdRegister 1; CmdSend 9 1 [7] 0; CmdClose 1; CmdRecv 1] Ipc_new).2 = Some (OutMsg (Err QueueClosed)).
Proof. by vm_compute. Qed.

(** A task that waits for room is not woken when the capacity grows. *)
Lemma growing_wakes_nobody :
  let s := ipc (ipc_run [CmdRegister 1; CmdCapacity 1 1; CmdSend 9 1 [] 0; CmdSendBlocking 9 1 [] 0 None 0; CmdCapacity 1 100] Ipc_new).1 in
  woken s = [] ∧ (writers_waiting <$> IPC_MANAGER s !! 1) = Some [9].
Proof. by vm_compute. Qed.

(** While a sender sleeps nobody else sends, to a queue with room either; a receive
    lets the sender go on. *)
Lemma sleeping_sender_blocks_senders :
  (ipc_run [CmdRegister 1; CmdRegister 2; CmdCapacity 1 1; CmdSend 9 1 [] 0; CmdSendBlocking 9 1 [] 0 None 0;
            CmdSend 8 2 [] 0; CmdRecv 1; CmdSendTurn 0; CmdCount; CmdSend 8 2 [] 0] Ipc_new).2 =
  [OutUnit (Ok tt); OutUnit (Ok tt); OutUnit (Ok tt); OutUnit (Ok tt); OutSendTurn Sleeps;
   OutWaits; OutMsg (Ok (mkMessage [] 0)); OutSendTurn (Done (Ok tt)); OutUnit (Ok tt); OutUnit (Ok tt)].
Proof. by vm_compute. Qed.

(** To unregister a task while a sender sleeps blocks every later call. *)
Lemma unregister_wedges :
  let y := (ipc_run [CmdRegister 1; CmdRegister 2; CmdCapacity 1 1; CmdSend 9 1 [] 0; CmdSendBlocking 9 1 [] 0 None 0; CmdUnregister 2] Ipc_new).1 in
  ∀ c, ipc_cmd c y = (y, OutWaits).
Proof.
  intros y c. assert (stuck y = true) as Hy by by vm_compute. generalize y Hy. clear. intros y Hy. unfold ipc_cmd. by rewrite Hy.
Qed.
