(* ===== verification/IonaFs.v ===== *)
(** * The IONA file system ([src/src/fs/ionafs/mod.rs]).

    Files live in a cache; every change is written through to disk: data at
    fresh sectors, an index of 120 entries, a superblock with the number of
    files, and a journal of the writes. The block device is a map of sectors of
    512 bytes; a call gives the list of sector writes it issues, in order, so
    that a power failure is a prefix of that list. The device is taken to be
    there and to do each sector write completely or not at all, in the order
    issued; the driver's results, which the source ignores, are not modelled, and memory
    for the data of a file is taken to be there. A
    [String] is its UTF-8 bytes; [now] is [uptime_ms()]. The crash-injection hooks,
    which nothing calls, and log lines are left out. *)

From Stdlib Require Import ZArith Lia Bool.
From stdpp Require Import base gmap sets list sorting.
From S2P Require Import Prelude Types Utf8.

Local Open Scope Z_scope.

(** ** The device *)

Definition SECTOR_SIZE : nat := 512.

Abbreviation Disk := (gmap Z bytes).
Abbreviation write := (Z * bytes)%type.

Definition zero_sector : bytes := replicate SECTOR_SIZE 0.

Definition read_sector (d : Disk) (lba : Z) : bytes := default zero_sector (d !! lba).

Definition apply_writes (ws : list write) (d : Disk) : Disk := foldl (λ d w, <[w.1 := w.2]> d) d ws.

(** ** Constants and entries *)

Definition MAGIC : Z := 0x494F4E41.
Definition INDEX_LBA : Z := 1.
Definition JOURNAL_LBA : Z := 16.
Definition JOURNAL_SLOTS : Z := 48.
Definition DATA_LBA : Z := 64.

Definition OP_NOOP : Z := 0.
Definition OP_WRITE : Z := 1.
Definition OP_DELETE : Z := 2.
Definition STATE_PENDING : Z := 0.
Definition STATE_COMMITTED : Z := 1.
Definition STATE_CLEAN : Z := 2.

Record FileStat := mkFileStat {
  st_size : Z;
  st_mode : Z;
  st_uid : Z;
  st_gid : Z;
  st_atime : Z;
  st_mtime : Z;
  st_ctime : Z;
}.

(** FNV-1a. *)
Definition path_hash (path : bytes) : Z :=
  foldl (λ h b, mul64 (Z.lxor h b) 1099511628211) 14695981039346656037 path.

Record FileEntry := mkFileEntry {
  name : bytes;
  lba : Z;
  size : Z;
  mode : Z;
  uid : Z;
  gid : Z;
  atime : Z;
  mtime : Z;
  ctime : Z;
}.

#[export] Instance eta_FileEntry : Settable FileEntry :=
  λ e, mkFileEntry (name e) (lba e) (size e) (mode e) (uid e) (gid e) (atime e) (mtime e) (ctime e).

(** Mode [0o644]. *)
Definition FileEntry_new (now : Z) (name : bytes) (lba size : Z) : FileEntry :=
  mkFileEntry name lba size 420 1000 1000 now now now.

Record JournalEntry := mkJournalEntry {
  je_op : Z;
  je_state : Z;
  je_hash : Z;
  je_lba : Z;
  je_size : Z;
  je_path : bytes;
}.

Definition pad (n : nat) (l : bytes) : bytes := l ++ replicate (n - length l) 0.

Definition JournalEntry_new (op : Z) (path : bytes) (lba size : Z) : JournalEntry :=
  mkJournalEntry op STATE_PENDING (path_hash path) lba size (pad 32 (take 31 path)).

Definition to_sector (e : JournalEntry) : bytes :=
  pad SECTOR_SIZE (le_bytes 4 (je_op e) ++ le_bytes 4 (je_state e) ++ le_bytes 8 (je_hash e) ++
                   le_bytes 8 (je_lba e) ++ le_bytes 8 (je_size e) ++ je_path e).

Definition from_sector (s : bytes) : JournalEntry :=
  mkJournalEntry (le_value (slice 0 4 s)) (le_value (slice 4 4 s)) (le_value (slice 8 8 s))
    (le_value (slice 16 8 s)) (le_value (slice 24 8 s)) (slice 32 32 s).

(** [s[4..8].copy_from_slice(&state.to_le_bytes())]. *)
Definition set_state (st : Z) (s : bytes) : bytes := slice 0 4 s ++ le_bytes 4 st ++ drop 8 s.

(** ** The file system *)

Record IonFs := mkIonFs {
  cache : gmap bytes bytes;
  index : list FileEntry;
  next_lba : Z;
  on_disk : bool;
  journal_head : Z;
}.

#[export] Instance eta_IonFs : Settable IonFs :=
  λ f, mkIonFs (cache f) (index f) (next_lba f) (on_disk f) (journal_head f).

Definition IonFs_new : IonFs := mkIonFs ∅ [] DATA_LBA false 0.

Definition sectors_of (n : Z) : Z := (n + 511) `div` 512.

(** [f] on the first entry with the name, if there is one ([iter_mut().find]). *)
Fixpoint update_first (p : bytes) (f : FileEntry → FileEntry) (l : list FileEntry) :
    option (list FileEntry) :=
  match l with
  | [] => None
  | e :: l' => if bool_decide (name e = p) then Some (f e :: l') else cons e <$> update_first p f l'
  end.

(** The 64 bytes of an index entry. *)
Definition entry_bytes (e : bytes * Z * Z) : bytes :=
  pad 48 (take 47 e.1.1) ++ le_bytes 8 e.1.2 ++ le_bytes 8 e.2.

Definition entry_of (e : FileEntry) : bytes * Z * Z := (name e, lba e, size e).

(** The 15 sectors of the index: the entries from the front, the rest zero. *)
Definition index_image (l : list FileEntry) : bytes :=
  pad (15 * SECTOR_SIZE) (concat ((λ e, entry_bytes (entry_of e)) <$> take 120 l)).

Definition superblock_write (fs : IonFs) : write :=
  (0, pad SECTOR_SIZE (le_bytes 4 MAGIC ++ le_bytes 4 (Z.of_nat (length (index fs))) ++
                       le_bytes 8 (journal_head fs))).

Definition index_writes (l : list FileEntry) : list write :=
  (λ i, (INDEX_LBA + Z.of_nat i, slice (i * SECTOR_SIZE) SECTOR_SIZE (index_image l))) <$> seq 0 15.

Definition write_index_and_superblock (fs : IonFs) : list write :=
  index_writes (index fs) ++ [superblock_write fs].

Definition data_writes (at_ : Z) (data : bytes) : list write :=
  let n := Z.to_nat (sectors_of (Z.of_nat (length data))) in
  let padded := pad (n * SECTOR_SIZE) data in
  (λ i, (add64 at_ (Z.of_nat i), slice (i * SECTOR_SIZE) SECTOR_SIZE padded)) <$> seq 0 n.

(** Step 4 of [journal_write]: the new place and size in the index. *)
Definition set_entry (now : Z) (path : bytes) (at_ sz : Z) (l : list FileEntry) : list FileEntry :=
  match update_first path (λ e, e <| lba := at_ |> <| size := sz |>) l with
  | Some l' => l'
  | None => l ++ [FileEntry_new now path at_ sz]
  end.

Definition journal_write (now : Z) (path data : bytes) (fs : IonFs) : IonFs * list write * bool :=
  if negb (on_disk fs) then (fs, [], false)
  else
    let at_ := next_lba fs in
    let len := Z.of_nat (length data) in
    let slot := JOURNAL_LBA + journal_head fs `mod` JOURNAL_SLOTS in
    let sector := to_sector (JournalEntry_new OP_WRITE path at_ len) in
    let fs := fs <| next_lba := add64 (next_lba fs) (sectors_of len) |> in
    let cs := set_state STATE_COMMITTED sector in
    let fs := fs <| index := set_entry now path at_ len (index fs) |> in
    let ws := write_index_and_superblock fs in
    let clean := set_state STATE_CLEAN cs in
    let fs := fs <| journal_head := add64 (journal_head fs) 1 |> in
    (fs, [(slot, sector)] ++ data_writes at_ data ++ [(slot, cs)] ++ ws ++
         [(slot, clean); superblock_write fs], true).

Definition read_file (fs : IonFs) (path : bytes) : option bytes := cache fs !! path.

Definition write_file (now : Z) (path data : bytes) (fs : IonFs) : IonFs * list write :=
  let fs := fs <| cache := <[path := data]> (cache fs) |> in
  let fs := match update_first path (λ e, e <| mtime := now |> <| atime := now |>) (index fs) with
            | Some l => fs <| index := l |>
            | None => fs
            end in
  (journal_write now path data fs).1.

Definition delete_file (path : bytes) (fs : IonFs) : IonFs * list write * bool :=
  let existed := bool_decide (is_Some (cache fs !! path)) in
  let fs := fs <| cache := delete path (cache fs) |>
               <| index := filter (λ e, name e ≠ path) (index fs) |> in
  (fs, if existed then write_index_and_superblock fs else [], existed).

Definition rename_file (from to : bytes) (fs : IonFs) : IonFs * list write * bool :=
  match cache fs !! from with
  | None => (fs, [], false)
  | Some data =>
    let fs := fs <| cache := delete from (cache fs) |>
                 <| index := default (index fs) (update_first from (λ e, e <| name := to |>) (index fs)) |> in
    let fs := fs <| cache := <[to := data]> (cache fs) |> in
    (fs, write_index_and_superblock fs, true)
  end.

Definition stat_file (fs : IonFs) (path : bytes) : option FileStat :=
  '(_, e) ← list_find (λ e, name e = path) (index fs);
  Some (mkFileStat (size e) (mode e) (uid e) (gid e) (atime e) (mtime e) (ctime e)).

Definition chmod_file (now : Z) (path : bytes) (m : Z) (fs : IonFs) : IonFs * bool :=
  match update_first path (λ e, e <| mode := m |> <| ctime := now |>) (index fs) with
  | Some l => (fs <| index := l |>, true)
  | None => (fs, false)
  end.

(** ** Listing *)

Definition list_files (fs : IonFs) : list bytes := (btree_iter (cache fs)).*1.

Fixpoint starts_with (prefix l : bytes) : bool :=
  match prefix, l with
  | [], _ => true
  | _, [] => false
  | a :: prefix', b :: l' => (a =? b) && starts_with prefix' l'
  end.

Fixpoint take_while {A} (f : A → bool) (l : list A) : list A :=
  match l with [] => [] | a :: l' => if f a then a :: take_while f l' else [] end.

Fixpoint skip_while {A} (f : A → bool) (l : list A) : list A :=
  match l with [] => [] | a :: l' => if f a then skip_while f l' else l end.

(** [cache.range(from..)] and its keys: those not less than [from]. *)
Definition range_from (from : bytes) (fs : IonFs) : list bytes :=
  skip_while (λ k, match kcmp k from with Lt => true | _ => false end) (list_files fs).

Definition list_prefix_limited (prefix : bytes) (limit : nat) (fs : IonFs) : list bytes :=
  take limit (take_while (starts_with prefix) (range_from prefix fs)).

Definition count_prefix (prefix : bytes) (fs : IonFs) : nat :=
  length (take_while (starts_with prefix) (range_from prefix fs)).

(** ** Mounting *)

(** The journal's slots that are pending are marked committed. *)
Definition recover_slot (d : Disk) (slot : Z) : list write :=
  let sector := read_sector d (JOURNAL_LBA + slot) in
  let entry := from_sector sector in
  if (je_op entry =? OP_NOOP) || (je_state entry =? STATE_CLEAN) then []
  else if je_state entry =? STATE_PENDING
  then [(JOURNAL_LBA + slot, set_state STATE_COMMITTED sector)]
  else [].

(** Slots are different sectors: what one turn writes no other reads. *)
Definition recover_journal (d : Disk) : list write := seqZ 0 JOURNAL_SLOTS ≫= recover_slot d.

Definition read_index (d : Disk) : bytes :=
  concat ((λ i, read_sector d (INDEX_LBA + Z.of_nat i)) <$> seq 0 15).

(** [iter().position(|&b| b == 0)]. *)
Fixpoint position_zero (l : bytes) : option nat :=
  match l with [] => None | b :: l' => if b =? 0 then Some 0%nat else S <$> position_zero l' end.

(** Name, place and size of an entry of the index. *)
Definition parse_entry (s : bytes) : bytes * Z * Z :=
  let np := default 48%nat (position_zero (take 48 s)) in
  (from_utf8_lossy (take np s), le_value (slice 48 8 s), le_value (slice 56 8 s)).

(** The data of a file: its sectors, cut to its size. *)
Definition read_data (d : Disk) (at_ sz : Z) : bytes :=
  take (Z.to_nat sz) (concat ((λ j, read_sector d (add64 at_ (Z.of_nat j))) <$> seq 0 (Z.to_nat (sectors_of sz)))).

Definition load_entry (d : Disk) (fs : IonFs) (s : bytes) : IonFs :=
  let '(n, at_, sz) := parse_entry s in
  match n with
  | [] => fs
  | _ => fs <| index := index fs ++ [mkFileEntry n at_ sz 420 0 0 0 0 0] |>
            <| next_lba := Z.max (next_lba fs) (add64 (add64 at_ (sz `div` 512)) 1) |>
            <| cache := <[n := read_data d at_ sz]> (cache fs) |>
  end.

(** [init_disk], with a device present: the file system and the writes. *)
Definition init_disk (d : Disk) (fs : IonFs) : IonFs * list write :=
  let fs := fs <| on_disk := true |> in
  let sb := read_sector d 0 in
  if negb (le_value (slice 0 4 sb) =? MAGIC)
  then (fs, [(0, le_bytes 4 MAGIC ++ le_bytes 4 0 ++ le_bytes 8 0 ++ drop 16 sb)])
  else
    let num_files := le_value (slice 4 4 sb) in
    let fs := fs <| journal_head := le_value (slice 8 8 sb) |> in
    let ws := recover_journal d in
    let idx := read_index (apply_writes ws d) in
    (foldl (load_entry (apply_writes ws d)) fs
       ((λ i, slice (i * 64) 64 idx) <$> seq 0 (Z.to_nat (Z.min num_files 120))), ws).

(** ** Consistency checks *)

Fixpoint windows_differ (l : list bytes) : bool :=
  match l with
  | a :: ((b :: _) as l') => negb (bool_decide (a = b)) && windows_differ l'
  | _ => true
  end.

Definition fsck (fs : IonFs) : bool :=
  forallb (λ e, DATA_LBA <=? lba e) (index fs) &&
  windows_differ (merge_sort kle (name <$> index fs)).

Definition verify_journal_invariants (d : Disk) (fs : IonFs) : bool :=
  if negb (on_disk fs) then true
  else forallb (λ slot, let s := read_sector d (JOURNAL_LBA + slot) in
                        negb (negb (le_value (slice 0 4 s) =? OP_NOOP) &&
                              (le_value (slice 4 4 s) =? STATE_PENDING)))
         (seqZ 0 JOURNAL_SLOTS).

(** ** File locks *)

Inductive LockType := Shared | Exclusive.

Record FileLock := mkFileLock {
  lock_type : LockType;
  holders : list Z;
}.

#[export] Instance eta_FileLock : Settable FileLock := λ l, mkFileLock (lock_type l) (holders l).

Definition flock (path : bytes) (ty : LockType) (tid : Z) (locks : gmap Z FileLock) :
    gmap Z FileLock * bool :=
  let hash := path_hash path in
  match locks !! hash with
  | Some existing =>
    match lock_type existing, ty with
    | Shared, Shared => (<[hash := existing <| holders := holders existing ++ [tid] |>]> locks, true)
    | _, _ => (locks, false)
    end
  | None => (<[hash := mkFileLock ty [tid]]> locks, true)
  end.

Definition funlock (path : bytes) (tid : Z) (locks : gmap Z FileLock) : gmap Z FileLock :=
  let hash := path_hash path in
  match locks !! hash with
  | None => locks
  | Some l =>
    let l := l <| holders := filter (λ h, h ≠ tid) (holders l) |> in
    match holders l with [] => delete hash locks | _ => <[hash := l]> locks end
  end.

(** ** The second on-disk format: [sync_to_disk] and [mount_from_disk] *)

Definition sync_entry (path : bytes) (at_ sz : Z) : bytes :=
  pad 64 (1 :: pad 32 (take 32 path) ++ le_bytes 8 at_ ++ le_bytes 4 sz).

(** The loop over the files: data writes, index entries, next free sector. *)
Fixpoint sync_files (files : list (bytes * bytes)) (at_ : Z) (room : nat) : list write * list bytes :=
  match files, room with
  | [], _ | _, O => ([], [])
  | (path, data) :: files', S room' =>
    let '(ws, es) := sync_files files' (add64 at_ (sectors_of (Z.of_nat (length data)))) room' in
    (data_writes at_ data ++ ws, sync_entry path at_ (Z.of_nat (length data)) :: es)
  end.

Definition sync_to_disk (fs : IonFs) : list write :=
  let '(ws, es) := sync_files (btree_iter (cache fs)) DATA_LBA 120 in
  let idx := pad (120 * 64) (concat es) in
  ws ++ ((λ i, (INDEX_LBA + Z.of_nat i, slice (i * SECTOR_SIZE) SECTOR_SIZE idx)) <$> seq 0 15) ++
  [(0, pad SECTOR_SIZE (le_bytes 4 0x414E4F49 ++ le_bytes 4 (Z.of_nat (length es))))].

Definition mount_entry (d : Disk) (fs : IonFs) (s : bytes) : IonFs :=
  if default 0 (s !! 0%nat) =? 0 then fs
  else
    let n := default 32%nat (position_zero (slice 1 32 s)) in
    let path := from_utf8_lossy (slice 1 n s) in
    fs <| cache := <[path := read_data d (le_value (slice 33 8 s)) (le_value (slice 41 4 s))]> (cache fs) |>.

(** The superblock starts with the letters IONA. *)
Definition mount_from_disk (d : Disk) (fs : IonFs) : IonFs * list write :=
  if negb (bool_decide (slice 0 4 (read_sector d 0) = [73; 79; 78; 65]))
  then (fs, [(0, pad SECTOR_SIZE [73; 79; 78; 65])])
  else (foldl (mount_entry d) fs ((λ i, slice (i * 64) 64 (read_index d)) <$> seq 0 120), []).

Definition used_sectors (fs : IonFs) : Z := sat_sub (next_lba fs) 64.
