(* ===== verification/IonaFsProofs.v ===== *)
(** * Crash safety of the IONA file system ([src/src/fs/ionafs/mod.rs]).

    The on-disk state as files with entries and data, what every prefix of a
    call's sector writes leaves of it, and the refinement of a table of files
    that survives power failures. *)

From Stdlib Require Import ZArith Lia Bool.
From stdpp Require Import base gmap sets list sorting relations.
From S2P Require Import Prelude Types Utf8 IonaFs.

Local Open Scope Z_scope.

(** ** Slices *)

Lemma length_pad n l : (length l ≤ n)%nat → length (pad n l) = n.
Proof. intros. unfold pad. rewrite length_app, length_replicate. lia. Qed.

Lemma take_pad n l : (length l ≤ n)%nat → take (length l) (pad n l) = l.
Proof. intros. unfold pad. by rewrite take_app_length. Qed.

(** In a concatenation of chunks of one length, a slice that stays inside a
    chunk is a slice of that chunk. *)
Lemma slice_concat n (L : list bytes) k c off m :
  Forall (λ l, length l = n) L → L !! k = Some c → (off + m ≤ n)%nat →
  slice (k * n + off) m (concat L) = slice off m c.
Proof.
  intros HL. revert k. induction HL as [|l L Hl HL IH]; intros k Hk Hm; [done|].
  destruct k as [|k]; simpl in *.
  - injection Hk as ->. apply slice_app_l. lia.
  - rewrite <-(IH k) by done. replace (n + k * n + off)%nat with (length l + (k * n + off))%nat by lia.
    apply slice_app_r.
Qed.

Lemma length_concat_chunks n (L : list bytes) :
  Forall (λ l, length l = n) L → length (concat L) = (length L * n)%nat.
Proof. induction 1; simpl; [done|]. rewrite length_app. lia. Qed.

(** Cutting a byte string into chunks loses nothing. *)
Lemma concat_slices n k (l : bytes) :
  length l = (k * n)%nat → concat ((λ i, slice (i * n) n l) <$> seq 0 k) = l.
Proof.
  revert l. induction k as [|k IH]; intros l Hl; simpl in *; [by destruct l|].
  rewrite <-(take_drop n l) at 2. f_equal.
  rewrite <-(IH (drop n l)) by (rewrite length_drop; lia). f_equal.
  rewrite <-fmap_S_seq, <-list_fmap_compose. apply list_fmap_ext. intros i x Hx. simpl. unfold slice.
  rewrite drop_drop. done.
Qed.

(** ** The device *)

Lemma apply_writes_app ws ws' d : apply_writes (ws ++ ws') d = apply_writes ws' (apply_writes ws d).
Proof. apply foldl_app. Qed.

Lemma apply_writes_snoc ws w d : apply_writes (ws ++ [w]) d = <[w.1 := w.2]> (apply_writes ws d).
Proof. by rewrite apply_writes_app. Qed.

Lemma read_sector_insert d a s b : read_sector (<[a := s]> d) b = if decide (a = b) then s else read_sector d b.
Proof.
  unfold read_sector. case_decide; [subst; by rewrite lookup_insert_eq|by rewrite lookup_insert_ne].
Qed.

Lemma read_sector_notin ws d b : Forall (λ w : write, w.1 ≠ b) ws → read_sector (apply_writes ws d) b = read_sector d b.
Proof.
  revert d. induction ws as [|w ws IH]; intros d; [done|]. intros [Hw Hws]%Forall_cons.
  simpl. change (foldl _ ?d ws) with (apply_writes ws d). rewrite IH by done.
  by rewrite read_sector_insert, decide_False.
Qed.

Definition disk_wf (d : Disk) : Prop := ∀ a s, d !! a = Some s → length s = SECTOR_SIZE.

Definition writes_wf (ws : list write) : Prop := Forall (λ w, length w.2 = SECTOR_SIZE) ws.

Lemma length_read_sector d a : disk_wf d → length (read_sector d a) = SECTOR_SIZE.
Proof. intros Hd. unfold read_sector. destruct (d !! a) eqn:E; [by eapply Hd|done]. Qed.

Lemma disk_wf_writes ws d : disk_wf d → writes_wf ws → disk_wf (apply_writes ws d).
Proof.
  revert d. induction ws as [|w ws IH]; intros d Hd; [done|]. intros [Hw Hws]%Forall_cons.
  apply (IH (<[w.1 := w.2]> d)); [|done]. intros a s. rewrite lookup_insert_Some. naive_solver.
Qed.

(** Consecutive sectors written from [a] on. *)
Lemma read_consecutive (f : nat → bytes) a n d b :
  read_sector (apply_writes ((λ i, (a + Z.of_nat i, f i)) <$> seq 0 n) d) b =
    if decide (a ≤ b < a + Z.of_nat n) then f (Z.to_nat (b - a)) else read_sector d b.
Proof.
  induction n as [|n IH]; [by rewrite decide_False by lia|].
  rewrite seq_S, fmap_app. simpl. rewrite apply_writes_snoc, read_sector_insert, IH. simpl.
  repeat case_decide; first [done|lia|f_equal; lia].
Qed.

(** ** The index on disk *)

(** The 64 bytes of entry [i]. *)
Definition slot (d : Disk) (i : nat) : bytes := slice (i * 64) 64 (read_index d).

Lemma slot_sector d i :
  disk_wf d → (i < 120)%nat →
  slot d i = slice (i `mod` 8 * 64) 64 (read_sector d (INDEX_LBA + Z.of_nat (i / 8))).
Proof.
  intros Hd Hi. pose proof (Nat.div_mod i 8 ltac:(lia)). pose proof (Nat.mod_upper_bound i 8 ltac:(lia)).
  assert (i / 8 < 15)%nat by (apply Nat.Div0.div_lt_upper_bound; lia).
  unfold slot, read_index.
  rewrite <-(slice_concat 512 ((λ k, read_sector d (INDEX_LBA + Z.of_nat k)) <$> seq 0 15) (i / 8)
               (read_sector d (INDEX_LBA + Z.of_nat (i / 8)))).
  - f_equal. lia.
  - apply Forall_fmap, Forall_forall. intros k _. by apply length_read_sector.
  - rewrite list_lookup_fmap, lookup_seq_lt by done. done.
  - lia.
Qed.

Lemma length_entry_bytes e : length (entry_bytes e) = 64%nat.
Proof.
  unfold entry_bytes. rewrite !length_app, !length_le_bytes, length_pad; [done|].
  rewrite length_take. lia.
Qed.

Lemma Forall_entry_bytes (l : list FileEntry) :
  Forall (λ b, length b = 64%nat) ((λ e, entry_bytes (entry_of e)) <$> l).
Proof. apply Forall_fmap, Forall_forall. intros e _. apply length_entry_bytes. Qed.

Lemma length_index_image l : length (index_image l) = (15 * SECTOR_SIZE)%nat.
Proof.
  unfold index_image. apply length_pad. rewrite (length_concat_chunks 64) by apply Forall_entry_bytes.
  rewrite length_fmap, length_take. unfold SECTOR_SIZE. lia.
Qed.

Lemma index_image_slot l i e :
  l !! i = Some e → (i < 120)%nat → slice (i * 64) 64 (index_image l) = entry_bytes (entry_of e).
Proof.
  intros Hi Hlt. unfold index_image, pad. pose proof (lookup_lt_Some _ _ _ Hi).
  rewrite slice_app_l.
  - replace (i * 64)%nat with (i * 64 + 0)%nat by lia.
    rewrite (slice_concat 64 _ i (entry_bytes (entry_of e))).
    + apply slice_all, length_entry_bytes.
    + apply Forall_entry_bytes.
    + by rewrite list_lookup_fmap, lookup_take_lt, Hi.
    + lia.
  - rewrite (length_concat_chunks 64) by apply Forall_entry_bytes. rewrite length_fmap, length_take. lia.
Qed.

Lemma index_writes_wf l : writes_wf (index_writes l).
Proof.
  apply Forall_fmap, Forall_forall. intros i Hi%elem_of_seq. apply length_slice.
  rewrite length_index_image. unfold SECTOR_SIZE. lia.
Qed.

(** After the first [k] sectors of a new index are written, an entry is the new
    one or the old one according to its sector. *)
Lemma slot_index_writes l k d i :
  disk_wf d → (i < 120)%nat → (k ≤ 15)%nat →
  slot (apply_writes (take k (index_writes l)) d) i =
    if decide (i / 8 < k)%nat then slice (i * 64) 64 (index_image l) else slot d i.
Proof.
  intros Hd Hi Hk. unfold index_writes. rewrite <-fmap_take, take_seq, Nat.min_l by done.
  rewrite !slot_sector; [|done|done| |done].
  2: { apply disk_wf_writes; [done|]. apply Forall_fmap, Forall_forall. intros j Hj%elem_of_seq.
       apply length_slice. rewrite length_index_image. unfold SECTOR_SIZE. lia. }
  rewrite read_consecutive. unfold INDEX_LBA.
  repeat case_decide; try lia; [|done].
  replace (Z.to_nat (1 + Z.of_nat (i / 8) - 1)) with (i / 8)%nat by lia.
  pose proof (Nat.mod_upper_bound i 8 ltac:(lia)).
  rewrite slice_slice by (unfold SECTOR_SIZE; lia). f_equal.
  pose proof (Nat.div_mod i 8 ltac:(lia)). unfold SECTOR_SIZE. lia.
Qed.

(** ** Files on disk *)

Abbreviation ent := (bytes * Z * Z)%type.

(** Sector numbers, and with them byte counts, stay below the range of a [u64]. *)
Definition LBA_LIMIT : Z := 2 ^ 54.

(** A name the index can hold: not empty, at most 47 bytes, no zero byte, UTF-8. *)
Definition good_name (n : bytes) : Prop :=
  n ≠ [] ∧ (length n ≤ 47)%nat ∧ (0 ∉ n) ∧ is_Some (from_utf8 n).

Definition entry_end (e : ent) : Z := e.1.2 + sectors_of e.2.

Definition names (l : list ent) : list bytes := (λ e, e.1.1) <$> l.

Record entries_ok (l : list ent) : Prop := {
  eo_len : (length l ≤ 120)%nat;
  eo_names : Forall (λ e, good_name e.1.1) l;
  eo_nodup : NoDup (names l);
  eo_place : Forall (λ e, DATA_LBA ≤ e.1.2 ∧ 0 ≤ e.2 ∧ entry_end e ≤ LBA_LIMIT) l;
}.

Record data_ok (d : Disk) (l : list ent) (m : gmap bytes bytes) : Prop := {
  do_read e : e ∈ l → m !! e.1.1 = Some (read_data d e.1.2 e.2);
  do_dom p : is_Some (m !! p) → p ∈ names l;
}.

(** The superblock says that there are [n] files. *)
Definition header_ok (d : Disk) (n : nat) : Prop :=
  le_value (slice 0 4 (read_sector d 0)) = MAGIC ∧
  le_value (slice 4 4 (read_sector d 0)) = Z.of_nat n.

(** The disk holds the files [m], with the entries [l] in the index. *)
Record files (d : Disk) (l : list ent) (m : gmap bytes bytes) : Prop := {
  f_wf : disk_wf d;
  f_header : header_ok d (length l);
  f_entries : entries_ok l;
  f_slots i e : l !! i = Some e → slot d i = entry_bytes e;
  f_data : data_ok d l m;
}.

Lemma sectors_of_nonneg n : 0 ≤ n → 0 ≤ sectors_of n.
Proof. intros. unfold sectors_of. apply Z.div_pos; lia. Qed.

(** The data of a file depends on its sectors only. *)
Lemma read_data_ext d d' a n :
  0 ≤ a → 0 ≤ n → a + sectors_of n ≤ LBA_LIMIT →
  (∀ b, a ≤ b < a + sectors_of n → read_sector d b = read_sector d' b) →
  read_data d a n = read_data d' a n.
Proof.
  intros Ha Hn Hlim Hext. unfold read_data, LBA_LIMIT in *. do 2 f_equal. apply list_fmap_ext.
  intros i j Hj%lookup_seq. pose proof (sectors_of_nonneg n Hn).
  rewrite add64_small by mach. apply Hext. lia.
Qed.

Lemma read_index_ext d d' :
  (∀ b, INDEX_LBA ≤ b < JOURNAL_LBA → read_sector d b = read_sector d' b) → read_index d = read_index d'.
Proof.
  intros Hext. unfold read_index, INDEX_LBA, JOURNAL_LBA in *. f_equal. apply list_fmap_ext.
  intros i j Hj%lookup_seq. apply Hext. lia.
Qed.

(** A write that touches nothing of the files [l]: in the journal, or behind
    all their data. *)
Definition safe_write (l : list ent) (w : write) : Prop :=
  JOURNAL_LBA ≤ w.1 < DATA_LBA ∨ DATA_LBA ≤ w.1 ∧ ∀ e, e ∈ l → entry_end e ≤ w.1.

Lemma data_ok_ext d d' l m :
  entries_ok l → (∀ e b, e ∈ l → e.1.2 ≤ b < entry_end e → read_sector d b = read_sector d' b) →
  data_ok d l m → data_ok d' l m.
Proof.
  intros [_ _ _ Hpl] Hext [Hrd Hdom]. split; [|done]. intros e He. rewrite Hrd by done. f_equal.
  rewrite Forall_forall in Hpl. destruct (Hpl e He) as (? & ? & ?). unfold DATA_LBA, entry_end in *.
  apply read_data_ext; [lia..|]. intros b Hb. by apply (Hext e).
Qed.

Lemma files_frame d l m ws :
  files d l m → writes_wf ws → Forall (safe_write l) ws → files (apply_writes ws d) l m.
Proof.
  intros [Hwf [Hm Hn] He Hs Hd] Hws Hsafe.
  assert (∀ b, b < JOURNAL_LBA → read_sector (apply_writes ws d) b = read_sector d b) as Hlow.
  { intros b Hb. apply read_sector_notin. eapply Forall_impl; [exact Hsafe|].
    intros w [?|[? _]]; unfold JOURNAL_LBA, DATA_LBA in *; lia. }
  split; [by apply disk_wf_writes| |done| |].
  - unfold header_ok. by rewrite Hlow by done.
  - intros i e Hi. rewrite <-(Hs i e Hi). unfold slot. f_equal. apply read_index_ext. intros b Hb. apply Hlow. lia.
  - apply (data_ok_ext d); [done| |done]. intros e b Hel Hb. symmetry. apply read_sector_notin.
    eapply Forall_impl; [exact Hsafe|]. destruct He as [_ _ _ Hpl]. rewrite Forall_forall in Hpl.
    destruct (Hpl e Hel) as [? _].
    intros w [?|[? Hw]]; [unfold JOURNAL_LBA, DATA_LBA in *; lia|]. specialize (Hw e Hel). lia.
Qed.

(** ** Writing the index *)

Lemma superblock_wf fs : length (superblock_write fs).2 = SECTOR_SIZE.
Proof. apply length_pad. rewrite !length_app, !length_le_bytes. unfold SECTOR_SIZE. lia. Qed.

Lemma superblock_header fs d :
  (length (index fs) ≤ 120)%nat → header_ok (<[0 := (superblock_write fs).2]> d) (length (index fs)).
Proof.
  intros Hlen. unfold header_ok. rewrite read_sector_insert, decide_True by done.
  unfold superblock_write, pad. cbn [snd].
  pose proof (length_le_bytes 4 MAGIC) as H1. pose proof (length_le_bytes 4 (Z.of_nat (length (index fs)))) as H2.
  rewrite <-!app_assoc. split.
  - rewrite slice_app_l, slice_all, le_value_bytes by (rewrite ?H1; unfold MAGIC; lia). done.
  - replace 4%nat with (length (le_bytes 4 MAGIC) + 0)%nat at 1 by (rewrite H1; lia).
    rewrite slice_app_r, slice_app_l, slice_all, le_value_bytes by (rewrite ?H2; lia). done.
Qed.

(** The index and the superblock lie below the data. *)
Lemma index_writes_low l ws :
  Forall (λ w, w ∈ index_writes l) ws → Forall (λ w, INDEX_LBA ≤ w.1 < JOURNAL_LBA) ws.
Proof.
  intros Hws. eapply Forall_impl; [exact Hws|]. intros w Hw. unfold index_writes in Hw.
  apply list_elem_of_fmap in Hw as (i & -> & Hi%elem_of_seq). unfold INDEX_LBA, JOURNAL_LBA. simpl. lia.
Qed.

Lemma Forall_elem_of_self {A} (l : list A) : Forall (λ x, x ∈ l) l.
Proof. apply Forall_forall. done. Qed.

Lemma data_ok_low d l m ws :
  entries_ok l → Forall (λ w : write, w.1 < DATA_LBA) ws → data_ok d l m → data_ok (apply_writes ws d) l m.
Proof.
  intros He Hlow. apply data_ok_ext; [done|]. intros e b Hel Hb. symmetry. apply read_sector_notin.
  destruct He as [_ _ _ Hpl]. rewrite Forall_forall in Hpl. destruct (Hpl e Hel) as [? _].
  eapply Forall_impl; [exact Hlow|]. simpl. lia.
Qed.

Lemma write_index_and_superblock_wf fs : writes_wf (write_index_and_superblock fs).
Proof. apply Forall_app. split; [apply index_writes_wf|]. apply Forall_singleton, superblock_wf. Qed.

(** Writing the whole index and the superblock installs the entries. *)
Lemma index_full d fs m :
  let l := entry_of <$> index fs in
  disk_wf d → entries_ok l → data_ok d l m → files (apply_writes (write_index_and_superblock fs) d) l m.
Proof.
  intros l Hwf He Hd. destruct He as [Hlen Hn Hnd Hpl] eqn:E. clear E.
  assert (length (index fs) ≤ 120)%nat by (unfold l in Hlen; by rewrite length_fmap in Hlen).
  split; [apply disk_wf_writes; [done|apply write_index_and_superblock_wf]| |done| |].
  - unfold write_index_and_superblock, l. rewrite apply_writes_snoc, length_fmap. by apply superblock_header.
  - intros i e Hi. pose proof (lookup_lt_Some _ _ _ Hi).
    assert (slot (apply_writes (write_index_and_superblock fs) d) i =
            slot (apply_writes (take 15 (index_writes (index fs))) d) i) as ->.
    { unfold slot. f_equal. apply read_index_ext. intros b Hb. unfold write_index_and_superblock.
      rewrite apply_writes_snoc, read_sector_insert, decide_False, take_ge; [done|done|].
      unfold INDEX_LBA in *. simpl. lia. }
    rewrite slot_index_writes by (done || lia).
    assert (i / 8 < 15)%nat by (apply Nat.Div0.div_lt_upper_bound; lia). rewrite decide_True by done.
    apply list_lookup_fmap_Some in Hi as (f & -> & Hf). apply index_image_slot; [done|lia].
  - apply data_ok_low; [done| |done]. apply Forall_app. split.
    + eapply Forall_impl; [apply (index_writes_low (index fs)), Forall_elem_of_self|].
      unfold JOURNAL_LBA, DATA_LBA. simpl. lia.
    + apply Forall_singleton. done.
Qed.

(** Part of a new index that differs from the old one in one entry, or by one
    entry more: the disk holds the old files or the new ones. *)
Lemma index_partial d l m idx m' p k :
  let l' := entry_of <$> idx in
  files d l m → entries_ok l' → data_ok d l' m' → (k ≤ 15)%nat →
  (∀ i, (i < length l)%nat → i ≠ p → l !! i = l' !! i) →
  (length l' = length l ∧ (p < length l)%nat) ∨ p = length l →
  let d' := apply_writes (take k (index_writes idx)) d in files d' l m ∨ files d' l' m'.
Proof.
  intros l' Hf He' Hd' Hk Hsame Hp d'.
  assert (Forall (λ w, INDEX_LBA ≤ w.1 < JOURNAL_LBA) (take k (index_writes idx))) as Hlow.
  { apply (index_writes_low idx). apply Forall_take, Forall_elem_of_self. }
  assert (Forall (λ w : write, w.1 < DATA_LBA) (take k (index_writes idx))) as Hlow'.
  { eapply Forall_impl; [exact Hlow|]. unfold JOURNAL_LBA, DATA_LBA. simpl. lia. }
  assert (disk_wf d') as Hwf'.
  { apply disk_wf_writes; [apply Hf|]. apply Forall_take, index_writes_wf. }
  assert (∀ n, header_ok d n → header_ok d' n) as Hhead.
  { intros n. unfold header_ok, d'. rewrite read_sector_notin; [done|].
    eapply Forall_impl; [exact Hlow|]. unfold INDEX_LBA. simpl. lia. }
  assert (∀ i e, l' !! i = Some e → (i / 8 < k)%nat → slot d' i = entry_bytes e) as Hnew.
  { intros i e Hi Hik. pose proof (lookup_lt_Some _ _ _ Hi). pose proof (eo_len _ He').
    unfold d'. rewrite slot_index_writes, decide_True by (done || lia || apply Hf).
    apply list_lookup_fmap_Some in Hi as (f & -> & Hi). apply index_image_slot; [done|lia]. }
  assert (∀ i e, l !! i = Some e → ¬ (i / 8 < k)%nat → slot d' i = entry_bytes e) as Hold.
  { intros i e Hi Hik. pose proof (lookup_lt_Some _ _ _ Hi). pose proof (eo_len _ (f_entries _ _ _ Hf)).
    unfold d'. rewrite slot_index_writes, decide_False by (done || lia || apply Hf). by apply Hf. }
  destruct (decide (length l' = length l ∧ (p < length l)%nat ∧ (p / 8 < k)%nat)) as [(Hlen & Hpl & Hpk)|Hno].
  - right. split; [done|rewrite Hlen; apply Hhead, Hf|done| |by apply data_ok_low].
    intros i e Hi. destruct (decide (i / 8 < k)%nat); [by apply Hnew|].
    apply Hold; [|done]. rewrite Hsame; [done| |congruence]. rewrite <-Hlen. by eapply lookup_lt_Some.
  - left. split; [done|apply Hhead, Hf|apply Hf| |apply data_ok_low; [apply Hf|done|apply Hf]].
    intros i e Hi. destruct (decide (i / 8 < k)%nat); [|by apply Hold].
    apply Hnew; [|done]. pose proof (lookup_lt_Some _ _ _ Hi). rewrite <-Hsame; [done|done|].
    intros ->. destruct Hp as [[]|]; [tauto|lia].
Qed.

(** ** Writing data *)

Lemma data_writes_eq a data :
  0 ≤ a → a + sectors_of (Z.of_nat (length data)) ≤ LBA_LIMIT →
  let n := Z.to_nat (sectors_of (Z.of_nat (length data))) in
  data_writes a data =
    (λ i, (a + Z.of_nat i, slice (i * SECTOR_SIZE) SECTOR_SIZE (pad (n * SECTOR_SIZE) data))) <$> seq 0 n.
Proof.
  intros Ha Hlim n. unfold data_writes, LBA_LIMIT in *. apply list_fmap_ext. intros i j Hj%lookup_seq.
  pose proof (sectors_of_nonneg (Z.of_nat (length data))). rewrite add64_small by mach. done.
Qed.

Lemma sectors_cover n : 0 ≤ n → n ≤ sectors_of n * 512.
Proof.
  intros. unfold sectors_of. pose proof (Z.div_mod (n + 511) 512 ltac:(lia)).
  pose proof (Z.mod_pos_bound (n + 511) 512). lia.
Qed.

Lemma length_padded (data : bytes) :
  length (pad (Z.to_nat (sectors_of (Z.of_nat (length data))) * SECTOR_SIZE) data) =
  (Z.to_nat (sectors_of (Z.of_nat (length data))) * SECTOR_SIZE)%nat.
Proof.
  apply length_pad. pose proof (sectors_cover (Z.of_nat (length data)) ltac:(lia)). unfold SECTOR_SIZE. lia.
Qed.

Lemma data_writes_range a data :
  0 ≤ a → a + sectors_of (Z.of_nat (length data)) ≤ LBA_LIMIT →
  Forall (λ w, length w.2 = SECTOR_SIZE ∧ a ≤ w.1 < a + sectors_of (Z.of_nat (length data))) (data_writes a data).
Proof.
  intros Ha Hlim. rewrite data_writes_eq by done. apply Forall_fmap, Forall_forall.
  intros i Hi%elem_of_seq. pose proof (sectors_of_nonneg (Z.of_nat (length data))). simpl. split; [|lia].
  apply length_slice. rewrite length_padded. unfold SECTOR_SIZE. lia.
Qed.

(** What was written is read back. *)
Lemma read_data_writes a data d :
  0 ≤ a → a + sectors_of (Z.of_nat (length data)) ≤ LBA_LIMIT →
  read_data (apply_writes (data_writes a data) d) a (Z.of_nat (length data)) = data.
Proof.
  intros Ha Hlim. pose proof (sectors_of_nonneg (Z.of_nat (length data)) ltac:(lia)).
  rewrite data_writes_eq by done. unfold read_data. rewrite Nat2Z.id.
  set (n := Z.to_nat (sectors_of (Z.of_nat (length data)))).
  transitivity (take (length data) (concat ((λ i, slice (i * SECTOR_SIZE) SECTOR_SIZE (pad (n * SECTOR_SIZE) data)) <$> seq 0 n))).
  - do 2 f_equal. apply list_fmap_ext. intros i j [-> Hj]%lookup_seq.
    rewrite add64_small by (unfold LBA_LIMIT in *; mach). rewrite read_consecutive, decide_True by lia.
    do 2 f_equal; lia.
  - rewrite concat_slices by apply length_padded. apply take_pad.
    pose proof (length_padded data) as Hl. fold n in Hl. rewrite <-Hl. unfold pad. rewrite length_app. lia.
Qed.

(** ** Setting an entry *)

Definition set_ent (p : bytes) (a sz : Z) (l : list ent) : list ent :=
  match list_find (λ e, e.1.1 = p) l with
  | Some (i, _) => <[i := (p, a, sz)]> l
  | None => l ++ [(p, a, sz)]
  end.

Lemma update_first_find p f l :
  update_first p f l = match list_find (λ e, name e = p) l with
                       | Some (i, e) => Some (<[i := f e]> l) | None => None end.
Proof.
  induction l as [|e l IH]; simpl; [done|]. rewrite IH. case_bool_decide; case_decide; try done.
  by destruct (list_find _ l) as [[i e']|].
Qed.

Lemma list_find_entry_of p l :
  list_find (λ e : ent, e.1.1 = p) (entry_of <$> l) = prod_map id entry_of <$> list_find (λ e, name e = p) l.
Proof. apply list_find_fmap. Qed.

Lemma entry_of_set_entry now p a sz l :
  entry_of <$> set_entry now p a sz l = set_ent p a sz (entry_of <$> l).
Proof.
  unfold set_entry, set_ent. rewrite update_first_find, list_find_entry_of.
  destruct (list_find _ l) as [[i e]|] eqn:E; simpl.
  - apply list_find_Some in E as (_ & <- & _). by rewrite list_fmap_insert.
  - by rewrite fmap_app.
Qed.

Lemma entry_of_update_first p f l l' :
  (∀ e, entry_of (f e) = entry_of e) → update_first p f l = Some l' → entry_of <$> l' = entry_of <$> l.
Proof.
  intros Hf. rewrite update_first_find. destruct (list_find _ l) as [[i e]|] eqn:E; [|done].
  intros [= <-]. apply list_find_Some in E as (Hi & _). rewrite list_fmap_insert, Hf. apply list_insert_id.
  by rewrite list_lookup_fmap, Hi.
Qed.

Lemma names_elem p (l : list ent) : p ∈ names l ↔ ∃ e, e ∈ l ∧ e.1.1 = p.
Proof. unfold names. rewrite list_elem_of_fmap. naive_solver. Qed.

(** The two cases of [set_ent]: a place in the list, or one more entry. *)
Lemma set_ent_cases p a sz l :
  (∃ i e, l !! i = Some e ∧ e.1.1 = p ∧ set_ent p a sz l = <[i := (p, a, sz)]> l) ∨
  (p ∉ names l) ∧ set_ent p a sz l = l ++ [(p, a, sz)].
Proof.
  unfold set_ent. destruct (list_find _ l) as [[i e]|] eqn:E.
  - left. apply list_find_Some in E as (Hi & Hp & _). by exists i, e.
  - right. split; [|done]. apply list_find_None in E. rewrite Forall_forall in E.
    intros (e & He & Hp)%names_elem. by apply (E e).
Qed.

Lemma names_set_ent p a sz l :
  names (set_ent p a sz l) = if decide (p ∈ names l) then names l else names l ++ [p].
Proof.
  destruct (set_ent_cases p a sz l) as [(i & e & Hi & Hp & ->)|[Hp ->]].
  - rewrite decide_True by (apply names_elem; exists e; split; [by eapply list_elem_of_lookup_2|done]).
    unfold names. rewrite list_fmap_insert. apply list_insert_id. rewrite list_lookup_fmap, Hi. simpl. by f_equal.
  - rewrite decide_False by done. unfold names. by rewrite fmap_app.
Qed.

Lemma elem_of_set_ent p a sz l e :
  NoDup (names l) → e ∈ set_ent p a sz l → e = (p, a, sz) ∨ e ∈ l ∧ e.1.1 ≠ p.
Proof.
  intros Hnd He. destruct (set_ent_cases p a sz l) as [(i & e0 & Hi & Hp & Heq)|[Hp Heq]]; rewrite Heq in He.
  - apply list_elem_of_lookup in He as [j Hj]. apply list_lookup_insert_Some in Hj as [(-> & <- & _)|[Hij Hj]]; [by left|].
    right. split; [by eapply list_elem_of_lookup_2|]. intros Hep. apply Hij.
    apply (NoDup_lookup (names l) i j p Hnd); unfold names; rewrite list_lookup_fmap, ?Hi, ?Hj; simpl; by f_equal.
  - apply elem_of_app in He as [He|He]; [right|left; by apply list_elem_of_singleton]. split; [done|].
    intros Hep. apply Hp, names_elem. by exists e.
Qed.

Lemma set_ent_elem p a sz l : (p, a, sz) ∈ set_ent p a sz l.
Proof.
  destruct (set_ent_cases p a sz l) as [(i & e0 & Hi & Hp & ->)|[Hp ->]].
  - apply list_elem_of_lookup. exists i. apply list_lookup_insert_eq. by eapply lookup_lt_Some.
  - set_solver.
Qed.

Lemma entries_ok_set p a sz l :
  entries_ok l → good_name p → p ∈ names l ∨ (length l < 120)%nat →
  DATA_LBA ≤ a → 0 ≤ sz → a + sectors_of sz ≤ LBA_LIMIT → entries_ok (set_ent p a sz l).
Proof.
  intros [Hlen Hn Hnd Hpl] Hp Hroom Ha Hsz Hlim.
  assert (∀ e, e ∈ set_ent p a sz l → e = (p, a, sz) ∨ e ∈ l) as Hin.
  { intros e He%elem_of_set_ent; naive_solver. }
  rewrite Forall_forall in Hn, Hpl. split.
  - assert (length (names (set_ent p a sz l)) ≤ 120)%nat as Hl; [|unfold names in Hl; by rewrite length_fmap in Hl].
    rewrite names_set_ent. unfold names. case_decide; rewrite ?length_app, length_fmap; simpl; [done|].
    destruct Hroom; [done|lia].
  - apply Forall_forall. intros e [->|He]%Hin; [done|]. by apply Hn.
  - rewrite names_set_ent. case_decide; [done|]. apply NoDup_app. split_and!; [done| |apply NoDup_singleton].
    intros q Hq ->%list_elem_of_singleton. done.
  - apply Forall_forall. intros e [->|He]%Hin; [done|]. by apply Hpl.
Qed.

Lemma data_ok_set d p a sz x l m :
  NoDup (names l) → data_ok d l m → read_data d a sz = x → data_ok d (set_ent p a sz l) (<[p := x]> m).
Proof.
  intros Hnd [Hrd Hdom] Hx. split.
  - intros e [->|[He Hne]]%elem_of_set_ent; [simpl|..|done].
    + by rewrite lookup_insert_eq, Hx.
    + rewrite lookup_insert_ne by done. by apply Hrd.
  - intros q [y Hq]. rewrite names_set_ent. apply lookup_insert_Some in Hq as [[-> _]|[Hne Hq]].
    + case_decide; [done|]. set_solver.
    + assert (q ∈ names l) by (apply Hdom; by exists y). case_decide; set_solver.
Qed.

Lemma set_ent_same p a sz l :
  ∃ i, (∀ j, (j < length l)%nat → j ≠ i → l !! j = set_ent p a sz l !! j) ∧
    ((length (set_ent p a sz l) = length l ∧ (i < length l)%nat) ∨ i = length l).
Proof.
  destruct (set_ent_cases p a sz l) as [(i & e0 & Hi & Hp & ->)|[Hp ->]].
  - exists i. split; [intros; by rewrite list_lookup_insert_ne|]. left.
    rewrite length_insert. split; [done|]. by eapply lookup_lt_Some.
  - exists (length l). split; [|by right]. intros. by rewrite lookup_app_l.
Qed.

(** ** The mounted file system *)

Abbreviation entries fs := (entry_of <$> index fs).

Record repr (d : Disk) (fs : IonFs) : Prop := {
  r_files : files d (entries fs) (cache fs);
  r_on_disk : on_disk fs = true;
  r_next : DATA_LBA ≤ next_lba fs;
  r_end e : e ∈ entries fs → entry_end e ≤ next_lba fs;
}.

(** There is room for the write: a name the index can hold, an entry for it,
    and sectors. *)
Definition can_write (fs : IonFs) (p x : bytes) : Prop :=
  good_name p ∧ (p ∈ names (entries fs) ∨ (length (index fs) < 120)%nat) ∧
  next_lba fs + sectors_of (Z.of_nat (length x)) ≤ LBA_LIMIT.

Lemma length_to_sector e : (length (je_path e) ≤ 32)%nat → length (to_sector e) = SECTOR_SIZE.
Proof.
  intros. apply length_pad. rewrite !length_app, !length_le_bytes. unfold SECTOR_SIZE. lia.
Qed.

Lemma length_set_state st s : length s = SECTOR_SIZE → length (set_state st s) = SECTOR_SIZE.
Proof.
  intros Hs. unfold set_state. rewrite !length_app, length_le_bytes, length_drop, length_slice, Hs;
    rewrite ?Hs; unfold SECTOR_SIZE; lia.
Qed.

(** A sector of the journal. *)
Definition journal_write_ok (w : write) : Prop :=
  JOURNAL_LBA ≤ w.1 < DATA_LBA ∧ length w.2 = SECTOR_SIZE.

(** The shape of a write: journal and data, the index, journal and superblock. *)
Lemma write_file_shape now p x fs :
  on_disk fs = true →
  ∃ A fs1 clean, let '(fs', ws) := write_file now p x fs in
  let a := next_lba fs in let len := Z.of_nat (length x) in
  ws = A ++ write_index_and_superblock fs1 ++ [clean; superblock_write fs'] ∧
  cache fs' = <[p := x]> (cache fs) ∧ entries fs' = set_ent p a len (entries fs) ∧
  next_lba fs' = add64 a (sectors_of len) ∧ on_disk fs' = true ∧ index fs1 = index fs' ∧
  ∃ s1 s2, A = [s1] ++ data_writes a x ++ [s2] ∧ journal_write_ok s1 ∧ journal_write_ok s2 ∧ journal_write_ok clean.
Proof.
  intros Hon. unfold write_file.
  set (fs0 := match update_first _ _ _ with Some l => _ | None => _ end).
  assert (entries fs0 = entries fs ∧ next_lba fs0 = next_lba fs ∧ on_disk fs0 = true ∧
          cache fs0 = <[p := x]> (cache fs) ∧ journal_head fs0 = journal_head fs) as (He & Hn & Ho & Hc & Hj).
  { unfold fs0. destruct (update_first _ _ _) as [l|] eqn:E; simpl; split_and!; try done.
    eapply entry_of_update_first; [|exact E]. done. }
  unfold journal_write. rewrite Ho. cbn [negb].
  set (sl := JOURNAL_LBA + journal_head fs0 `mod` JOURNAL_SLOTS).
  assert (JOURNAL_LBA ≤ sl < DATA_LBA) as Hsl.
  { unfold sl, JOURNAL_LBA, JOURNAL_SLOTS, DATA_LBA. pose proof (Z.mod_pos_bound (journal_head fs0) 48). lia. }
  set (sec := to_sector _).
  assert (length sec = SECTOR_SIZE) as Hsec.
  { apply length_to_sector. simpl. rewrite length_pad; [done|]. rewrite length_take. lia. }
  exists ([(sl, sec)] ++ data_writes (next_lba fs0) x ++ [(sl, set_state STATE_COMMITTED sec)]),
    (fs0 <| next_lba := add64 (next_lba fs0) (sectors_of (Z.of_nat (length x))) |>
         <| index := set_entry now p (next_lba fs0) (Z.of_nat (length x)) (index fs0) |>),
    (sl, set_state STATE_CLEAN (set_state STATE_COMMITTED sec)).
  cbn [fst]. cbv zeta. split_and!.
  - rewrite <-!app_assoc. reflexivity.
  - done.
  - simpl. by rewrite entry_of_set_entry, He, Hn.
  - simpl. by rewrite Hn.
  - done.
  - reflexivity.
  - assert (∀ t : bytes, length t = SECTOR_SIZE → journal_write_ok (sl, t)) as Hjw by done.
    rewrite Hn. exists (sl, sec), (sl, set_state STATE_COMMITTED sec).
    split_and!; [done|by apply Hjw|apply Hjw..]; auto using length_set_state.
Qed.

(** The superblock written again with the same number of files. *)
Lemma files_superblock d l m fs :
  files d l m → length (index fs) = length l → files (<[0 := (superblock_write fs).2]> d) l m.
Proof.
  intros [Hwf Hh He Hs Hd] Hlen. change (<[0 := _]> d) with (apply_writes [superblock_write fs] d).
  split; [apply disk_wf_writes; [done|apply Forall_singleton, superblock_wf]| |done| |].
  - rewrite <-Hlen. apply superblock_header. rewrite Hlen. apply He.
  - intros i e Hi. rewrite <-(Hs i e Hi). unfold slot. f_equal. apply read_index_ext. intros b Hb.
    apply read_sector_notin, Forall_singleton. unfold INDEX_LBA in Hb. simpl. lia.
  - apply data_ok_low; [done|by apply Forall_singleton|done].
Qed.

(** The last two writes of a call, or the first of them, change no file. *)
Lemma files_tail d l m clean fs j :
  files d l m → journal_write_ok clean → length (index fs) = length l →
  files (apply_writes (take j [clean; superblock_write fs]) d) l m.
Proof.
  intros Hf [Hcl Hlen] Hn. destruct j as [|[|j]]; [done| |].
  - apply files_frame; [done|by apply Forall_singleton|by apply Forall_singleton; left].
  - assert (files (apply_writes [clean] d) l m) as Hf'.
    { apply files_frame; [done|by apply Forall_singleton|by apply Forall_singleton; left]. }
    rewrite take_ge by (simpl; lia). by apply (files_superblock _ _ _ fs) in Hf'.
Qed.

Section write_crash.
Context (now : Z) (p x : bytes) (d : Disk) (fs : IonFs).
Context (Hr : repr d fs) (Hw : can_write fs p x).

Let a := next_lba fs.
Let len := Z.of_nat (length x).
Let fs' := (write_file now p x fs).1.
Let ws := (write_file now p x fs).2.

Lemma write_entries_ok : entries_ok (set_ent p a len (entries fs)).
Proof.
  destruct Hw as (Hp & Hroom & Hlim). destruct Hr as [Hf _ Hn _].
  apply entries_ok_set; [apply Hf|done| |done|unfold len; lia|done].
  destruct Hroom; [by left|right; by rewrite length_fmap].
Qed.

(** The writes before the index: they leave the old files, with the new data
    in place. *)
Lemma write_before_index s1 s2 :
  journal_write_ok s1 → journal_write_ok s2 →
  let A := [s1] ++ data_writes a x ++ [s2] in let dA := apply_writes A d in
  writes_wf A ∧ Forall (safe_write (entries fs)) A ∧
  data_ok dA (set_ent p a len (entries fs)) (<[p := x]> (cache fs)).
Proof.
  intros [Hs1 Hl1] [Hs2 Hl2] A dA. destruct Hw as (Hp & Hroom & Hlim). destruct Hr as [Hf _ Hnx Hend].
  fold a len in Hlim. assert (0 ≤ a) as Ha by (unfold a, DATA_LBA in *; lia).
  pose proof (data_writes_range a x Ha Hlim) as Hrange.
  assert (writes_wf A) as HwfA.
  { apply Forall_cons. split; [done|]. apply Forall_app. split; [|by apply Forall_singleton].
    eapply Forall_impl; [exact Hrange|]. by intros w []. }
  assert (Forall (safe_write (entries fs)) A) as Hsafe.
  { apply Forall_cons. split; [by left|]. apply Forall_app. split; [|by apply Forall_singleton; left].
    eapply Forall_impl; [exact Hrange|]. intros w [_ ?]. right. unfold a in *. split; [lia|].
    intros e He. specialize (Hend e He). lia. }
  split_and!; [done|done|]. apply data_ok_set; [apply Hf|by eapply f_data, files_frame|].
  transitivity (read_data (apply_writes (data_writes a x) (<[s1.1 := s1.2]> d)) a len); [|by apply read_data_writes].
  apply read_data_ext; [done|unfold len; lia|done|]. intros b Hb. unfold dA, A.
  change (apply_writes ([s1] ++ ?X) d) with (apply_writes X (<[s1.1 := s1.2]> d)).
  rewrite apply_writes_snoc, read_sector_insert, decide_False; [done|]. unfold a in *. lia.
Qed.

(** Every prefix of the writes leaves the old files or the new ones. *)
Lemma write_prefix n :
  let d' := apply_writes (take n ws) d in
  files d' (entries fs) (cache fs) ∨ files d' (entries fs') (cache fs').
Proof.
  intros d'. destruct (write_file_shape now p x fs (r_on_disk _ _ Hr)) as (A & fs1 & clean & Hshape).
  unfold d', fs', ws in *. destruct (write_file now p x fs) as [g gs]. cbn [fst snd] in *.
  destruct Hshape as (-> & -> & Hent & _ & _ & Hidx & s1 & s2 & HA & Hs1 & Hs2 & Hcl).
  pose proof write_entries_ok as Hok. fold a len in Hent, HA.
  destruct (write_before_index s1 s2 Hs1 Hs2) as (HwfA & HsafeA & HdA). rewrite <-HA, <-Hent in *.
  pose proof (r_files _ _ Hr) as Hf.
  destruct (decide (n ≤ length A)%nat) as [Hle|Hgt].
  { left. rewrite take_app_le by done. apply files_frame; [done|by apply Forall_take..]. }
  rewrite take_app_ge, apply_writes_app by lia. set (dA := apply_writes A d) in *.
  assert (files dA (entries fs) (cache fs)) as HfA by (by apply files_frame).
  generalize (n - length A)%nat. intros k. clear Hgt.
  destruct (decide (k ≤ 15)%nat) as [Hk|Hk].
  - unfold write_index_and_superblock. rewrite <-app_assoc, take_app_le by done. rewrite Hidx.
    destruct (set_ent_same p a len (entries fs)) as (i & Hsame & Hcase). rewrite <-Hent in Hsame, Hcase.
    by apply (index_partial dA (entries fs) (cache fs) (index g) _ i k).
  - right. assert (entries g = entries fs1) as Heq by (by rewrite Hidx).
    rewrite take_app_ge, apply_writes_app by (simpl; lia).
    assert (files (apply_writes (write_index_and_superblock fs1) dA) (entries g) (<[p := x]> (cache fs))) as Hfull.
    { rewrite Heq. apply index_full; [apply HfA|by rewrite <-Heq..]. }
    apply files_tail; [done|done|]. by rewrite length_fmap.
Qed.

Lemma write_complete : repr (apply_writes ws d) fs'.
Proof.
  destruct (write_file_shape now p x fs (r_on_disk _ _ Hr)) as (A & fs1 & clean & Hshape).
  unfold fs', ws in *. destruct (write_file now p x fs) as [g gs]. cbn [fst snd] in *.
  destruct Hshape as (-> & Hc & Hent & Hnext & Hon & Hidx & s1 & s2 & HA & Hs1 & Hs2 & Hcl).
  pose proof write_entries_ok as Hok. fold a len in Hent, HA, Hnext.
  destruct (write_before_index s1 s2 Hs1 Hs2) as (HwfA & HsafeA & HdA). rewrite <-HA, <-Hent, <-Hc in *.
  destruct Hw as (_ & _ & Hlim). destruct Hr as [Hf _ Hnx Hend]. fold a len in Hlim.
  assert (next_lba g = a + sectors_of len) as Hng.
  { rewrite Hnext. apply add64_small. pose proof (sectors_of_nonneg len). unfold a, len, DATA_LBA, LBA_LIMIT in *. mach. }
  assert (entries g = entries fs1) as Heq by (by rewrite Hidx).
  split; [|done|rewrite Hng; pose proof (sectors_of_nonneg len); unfold a, len in *; lia|].
  - rewrite !apply_writes_app. change [clean; superblock_write g] with (take 2 [clean; superblock_write g]).
    apply files_tail; [|done|by rewrite length_fmap]. rewrite Heq.
    apply index_full; [apply disk_wf_writes; [apply Hf|done]|by rewrite <-Heq..].
  - intros e He. rewrite Hent in He. pose proof (sectors_of_nonneg len). rewrite Hng.
    apply elem_of_set_ent in He as [->|[He _]]; [done| |apply Hf].
    specialize (Hend e He). unfold a, len in *. lia.
Qed.
End write_crash.

(** ** Mounting *)

Lemma position_zero_app n k : (0 ∉ n) → position_zero (n ++ 0 :: k) = Some (length n).
Proof.
  induction n as [|b n IH]; intros Hn; simpl; [done|].
  destruct (Z.eqb_spec b 0) as [->|]; [set_solver|]. rewrite IH by set_solver. done.
Qed.

(** Reading an index entry gives back what was written. *)
Lemma parse_entry_bytes e :
  good_name e.1.1 → u64_ok e.1.2 → u64_ok e.2 → parse_entry (entry_bytes e) = e.
Proof.
  destruct e as [[n a] sz]. simpl. intros (Hne & Hlen & H0 & Hutf) Ha Hsz. unfold parse_entry, entry_bytes. cbn [fst snd].
  rewrite (take_ge n 47) by done.
  assert (length (pad 48 n) = 48%nat) as Hp by (apply length_pad; lia).
  rewrite (take_app_le (pad 48 n) _ 48) by lia. rewrite (take_ge (pad 48 n) 48) by lia.
  assert (pad 48 n = n ++ 0 :: replicate (47 - length n) 0) as Hpad.
  { unfold pad. replace (48 - length n)%nat with (S (47 - length n)) by lia. done. }
  rewrite Hpad at 1. rewrite position_zero_app by done. cbn [from_option id].
  rewrite (take_app_le (pad 48 n)) by lia. rewrite take_pad, from_utf8_lossy_valid by (done || lia).
  rewrite (slice_mid 48 8 (pad 48 n)) by (rewrite ?length_le_bytes; done).
  assert (slice 56 8 (pad 48 n ++ le_bytes 8 a ++ le_bytes 8 sz) = le_bytes 8 sz) as ->.
  { rewrite <-(app_nil_r (le_bytes 8 sz)) at 1. rewrite app_assoc.
    apply slice_mid; rewrite ?length_app, ?length_le_bytes; lia. }
  rewrite !le_value_bytes by mach. done.
Qed.

Lemma entry_u64 l e : entries_ok l → e ∈ l → good_name e.1.1 ∧ u64_ok e.1.2 ∧ u64_ok e.2.
Proof.
  intros [_ Hn _ Hpl] He. rewrite Forall_forall in Hn, Hpl. destruct (Hpl e He) as (? & Hsz & Hend).
  pose proof (sectors_cover e.2 Hsz). pose proof (sectors_of_nonneg e.2 Hsz).
  unfold entry_end, LBA_LIMIT, DATA_LBA in *.
  split; [by apply Hn|]. mach_unfold. lia.
Qed.

Lemma load_entry_bytes d fs e :
  good_name e.1.1 → u64_ok e.1.2 → u64_ok e.2 →
  load_entry d fs (entry_bytes e) =
    fs <| index := index fs ++ [mkFileEntry e.1.1 e.1.2 e.2 420 0 0 0 0 0] |>
       <| next_lba := Z.max (next_lba fs) (add64 (add64 e.1.2 (e.2 `div` 512)) 1) |>
       <| cache := <[e.1.1 := read_data d e.1.2 e.2]> (cache fs) |>.
Proof.
  intros Hn Ha Hsz. unfold load_entry. rewrite parse_entry_bytes by done.
  destruct e as [[[|b n] a] sz]; [by destruct Hn|done].
Qed.

(** The sector after the last one a mounted file uses. *)
Lemma entry_end_next e :
  DATA_LBA ≤ e.1.2 ∧ 0 ≤ e.2 ∧ entry_end e ≤ LBA_LIMIT → entry_end e ≤ add64 (add64 e.1.2 (e.2 `div` 512)) 1.
Proof.
  intros (Ha & Hsz & Hend). unfold entry_end, sectors_of, LBA_LIMIT, DATA_LBA in *.
  assert ((e.2 + 511) `div` 512 ≤ e.2 `div` 512 + 1) as Hup.
  { rewrite <-(Z.div_add (e.2) 1 512) by lia. apply Z.div_le_mono; lia. }
  assert (e.2 `div` 512 ≤ (e.2 + 511) `div` 512) by (apply Z.div_le_mono; lia).
  assert (0 ≤ e.2 `div` 512) by (apply Z.div_pos; lia).
  rewrite !add64_small; [lia|mach..|].
  all: rewrite ?add64_small; mach.
Qed.

Definition mounted (d : Disk) (m : gmap bytes bytes) (l : list ent) : gmap bytes bytes :=
  foldl (λ m e, <[e.1.1 := read_data d e.1.2 e.2]> m) m l.

Lemma load_entries d l fs :
  Forall (λ e, good_name e.1.1) l → Forall (λ e, DATA_LBA ≤ e.1.2 ∧ 0 ≤ e.2 ∧ entry_end e ≤ LBA_LIMIT) l →
  let fs' := foldl (load_entry d) fs (entry_bytes <$> l) in
  entries fs' = entries fs ++ l ∧ cache fs' = mounted d (cache fs) l ∧ on_disk fs' = on_disk fs ∧
  next_lba fs ≤ next_lba fs' ∧ ∀ e, e ∈ l → entry_end e ≤ next_lba fs'.
Proof.
  intros Hn Hpl. revert fs. induction l as [|e l IH]; intros fs.
  { cbn. rewrite app_nil_r. split_and!; try done. set_solver. }
  pose proof Hn as Hn0. pose proof Hpl as Hpl0.
  apply Forall_cons in Hn as [Hne Hn]. apply Forall_cons in Hpl as [Hpe Hpl].
  assert (good_name e.1.1 ∧ u64_ok e.1.2 ∧ u64_ok e.2) as (_ & Ha & Hsz).
  { apply (entry_u64 [e]); [|set_solver]. split; simpl; [lia|by apply Forall_singleton|apply NoDup_singleton|by apply Forall_singleton]. }
  rewrite fmap_cons. cbn [foldl]. rewrite load_entry_bytes by done. set (fs1 := set_field cache _ _).
  destruct (IH Hn Hpl fs1) as (He & Hc & Ho & Hnx & Hend). pose proof (entry_end_next e Hpe) as Hee.
  assert (next_lba fs ≤ next_lba fs1 ∧ entry_end e ≤ next_lba fs1) as [? ?] by (unfold fs1; simpl; lia).
  split_and!; [|by rewrite Hc|by rewrite Ho|lia|].
  - rewrite He. unfold fs1. simpl. rewrite fmap_app, <-app_assoc. by destruct e as [[] ].
  - intros e' [->|He']%elem_of_cons; [lia|by apply Hend].
Qed.

Lemma mounted_lookup (d : Disk) (l : list ent) (m m0 : gmap bytes bytes) (p : bytes) :
  (∀ e, e ∈ l → m !! e.1.1 = Some (read_data d e.1.2 e.2)) →
  mounted d m0 l !! p = if decide (p ∈ names l) then m !! p else m0 !! p.
Proof.
  apply (foldl_insert_lookup (λ e : ent, e.1.1) (λ e, read_data d e.1.2 e.2)).
Qed.

Lemma recover_journal_ok d : disk_wf d → Forall journal_write_ok (recover_journal d).
Proof.
  intros Hd. apply Forall_forall. intros w Hw. unfold recover_journal in Hw.
  apply list_elem_of_bind in Hw as (i & Hi & Hin%elem_of_seqZ). unfold recover_slot in Hi.
  destruct (_ || _); [set_solver|]. destruct (_ =? STATE_PENDING); [|set_solver].
  apply list_elem_of_singleton in Hi as ->. split.
  - unfold JOURNAL_LBA, DATA_LBA, JOURNAL_SLOTS in *. simpl. lia.
  - simpl. by apply length_set_state, length_read_sector.
Qed.

Lemma slots_of_files d l m :
  files d l m → (λ i, slice (i * 64) 64 (read_index d)) <$> seq 0 (length l) = entry_bytes <$> l.
Proof.
  intros Hf. apply list_eq. intros i. rewrite !list_lookup_fmap. destruct (l !! i) as [e|] eqn:Hi; simpl.
  - rewrite lookup_seq_lt by (by eapply lookup_lt_Some). simpl. f_equal. by apply Hf.
  - apply lookup_ge_None in Hi. rewrite lookup_seq_ge by done. done.
Qed.

(** A disk that holds files mounts to a file system with exactly those; a
    crash while mounting loses nothing. *)
Lemma mount_files d l m :
  files d l m →
  let '(fs, ws) := init_disk d IonFs_new in
  repr (apply_writes ws d) fs ∧ cache fs = m ∧ entries fs = l ∧ ∀ n, files (apply_writes (take n ws) d) l m.
Proof.
  intros Hf. pose proof (f_header _ _ _ Hf) as [Hmagic Hnum]. unfold init_disk. rewrite Hmagic.
  rewrite Z.eqb_refl, Hnum. cbn [negb].
  pose proof (recover_journal_ok d (f_wf _ _ _ Hf)) as Hj. set (ws := recover_journal d) in *.
  assert (∀ n, files (apply_writes (take n ws) d) l m) as Hall.
  { intros n. apply files_frame; [done|..]; apply Forall_take; (eapply Forall_impl; [exact Hj|]); intros w []; [done|by left]. }
  pose proof (Hall (length ws)) as Hf'. rewrite firstn_all in Hf'. set (d' := apply_writes ws d) in *.
  pose proof (f_entries _ _ _ Hf') as He. pose proof (eo_len _ He) as Hlen.
  rewrite Z.min_l by lia. rewrite Nat2Z.id, (slots_of_files d' l m Hf').
  set (fs0 := set_field journal_head _ _).
  destruct (load_entries d' l fs0 (eo_names _ He) (eo_place _ He)) as (Hent & Hc & Ho & Hnx & Hend).
  assert (entries (foldl (load_entry d') fs0 (entry_bytes <$> l)) = l) as Hent' by (by rewrite Hent).
  assert (cache (foldl (load_entry d') fs0 (entry_bytes <$> l)) = m) as Hc'.
  { rewrite Hc. apply map_eq. intros p. rewrite (mounted_lookup d' l m) by apply Hf'.
    case_decide as Hp; [done|]. change (cache fs0) with (∅ : gmap bytes bytes). rewrite lookup_empty. destruct (m !! p) as [y|] eqn:E; [|done].
    destruct Hp. eapply do_dom; [apply Hf'|by exists y]. }
  split_and!; [|done|done|done]. split; [by rewrite Hent', Hc'|by rewrite Ho|done|].
  intros e Hel. rewrite Hent' in Hel. by apply Hend.
Qed.

(** A disk without the magic number is formatted: no files. *)
Lemma format_files d :
  disk_wf d → le_value (slice 0 4 (read_sector d 0)) ≠ MAGIC →
  let '(fs, ws) := init_disk d IonFs_new in repr (apply_writes ws d) fs ∧ cache fs = ∅.
Proof.
  intros Hwf Hm. unfold init_disk. destruct (Z.eqb_spec (le_value (slice 0 4 (read_sector d 0))) MAGIC); [done|].
  cbn [negb]. split; [|done]. pose proof (length_read_sector d 0 Hwf) as Hlen.
  set (sec := le_bytes 4 MAGIC ++ _).
  assert (length sec = SECTOR_SIZE) as Hsec.
  { unfold sec. rewrite !length_app, !length_le_bytes, length_drop, Hlen. unfold SECTOR_SIZE. lia. }
  split; [|done|done|set_solver]. split.
  - apply disk_wf_writes; [done|by apply Forall_singleton].
  - unfold header_ok. cbn. by rewrite read_sector_insert, decide_True by done.
  - split; [simpl; lia|apply Forall_nil_2|apply NoDup_nil_2|apply Forall_nil_2].
  - done.
  - split; [set_solver|]. intros p [x Hx]. done.
Qed.

(** ** Deleting and renaming *)

Lemma write_index_eq fs : write_index_and_superblock fs = index_writes (index fs) ++ [superblock_write fs].
Proof. done. Qed.

Local Opaque write_index_and_superblock.

Lemma entries_filter p (l : list FileEntry) :
  entry_of <$> filter (λ e, name e ≠ p) l = filter (λ e : ent, e.1.1 ≠ p) (entry_of <$> l).
Proof.
  induction l as [|e l IH]; [done|]. rewrite fmap_cons, !filter_cons. simpl.
  case_decide; rewrite ?fmap_cons, IH; done.
Qed.

Lemma names_filter p (l : list ent) : names (filter (λ e : ent, e.1.1 ≠ p) l) = filter (λ n, n ≠ p) (names l).
Proof.
  unfold names. induction l as [|e l IH]; [done|]. rewrite fmap_cons, !filter_cons. simpl.
  case_decide; rewrite ?fmap_cons, IH; done.
Qed.

Lemma delete_complete p d fs :
  repr d fs →
  let '(fs', ws, existed) := delete_file p fs in
  repr (apply_writes ws d) fs' ∧ cache fs' = delete p (cache fs) ∧ (existed = true ↔ is_Some (cache fs !! p)).
Proof.
  intros [Hf Hon Hn Hend]. unfold delete_file. cbv beta iota zeta. split_and!; [|done|apply bool_decide_eq_true].
  set (fs' := set_field index _ _). assert (entries fs' = filter (λ e : ent, e.1.1 ≠ p) (entries fs)) as He.
  { unfold fs'. simpl. apply entries_filter. }
  pose proof (f_entries _ _ _ Hf) as [Hlen Hnm Hnd Hpl].
  assert (∀ e, e ∈ entries fs' → e ∈ entries fs ∧ e.1.1 ≠ p) as Hin.
  { intros e. rewrite He, list_elem_of_filter. tauto. }
  split; [|done|done|intros e [? _]%Hin; by apply Hend].
  case_bool_decide as Hex.
  - apply index_full; [apply Hf| |].
    + rewrite Forall_forall in Hnm, Hpl. split.
      * rewrite He. etrans; [apply length_filter|done].
      * apply Forall_forall. intros e [? _]%Hin. by apply Hnm.
      * rewrite He, names_filter. by apply NoDup_filter.
      * apply Forall_forall. intros e [? _]%Hin. by apply Hpl.
    + split.
      * intros e [Hel Hne]%Hin. simpl. rewrite lookup_delete_ne by done. by apply Hf.
      * intros q [y Hy]. change (cache fs') with (delete p (cache fs)) in Hy.
        apply lookup_delete_Some in Hy as [Hq Hy]. rewrite He, names_filter.
        apply list_elem_of_filter. split; [done|]. eapply do_dom; [apply Hf|by exists y].
  - assert (entries fs' = entries fs) as ->.
    { rewrite He. apply filter_all. intros e Hel Hep. apply Hex.
      rewrite <-Hep. erewrite do_read; [by eexists|apply Hf|done]. }
    simpl. rewrite delete_id; [done|]. by apply eq_None_not_Some.
Qed.

Section rename.
Context (from to x : bytes) (d : Disk) (fs : IonFs).
Context (Hr : repr d fs) (Hto : good_name to) (Hfresh : cache fs !! to = None) (Hx : cache fs !! from = Some x).

Let fs' := (rename_file from to fs).1.1.
Let ws := (rename_file from to fs).1.2.

Lemma rename_shape : ∃ i a sz,
  entries fs !! i = Some (from, a, sz) ∧ entries fs' = <[i := (to, a, sz)]> (entries fs) ∧
  ws = write_index_and_superblock fs' ∧ cache fs' = <[to := x]> (delete from (cache fs)) ∧
  next_lba fs' = next_lba fs ∧ on_disk fs' = on_disk fs.
Proof.
  assert (from ∈ names (entries fs)) as Hin by (eapply do_dom; [apply Hr|by exists x]).
  unfold fs', ws, rename_file. rewrite Hx, update_first_find. cbv beta iota zeta.
  destruct (list_find (λ e, name e = from) (index fs)) as [[i e]|] eqn:E.
  - apply list_find_Some in E as (Hi & He & _). exists i, (lba e), (size e). split_and!; try done.
    + rewrite list_lookup_fmap, Hi. simpl. by rewrite <-He.
    + simpl. by rewrite list_fmap_insert.
  - exfalso. apply list_find_None in E. rewrite Forall_forall in E.
    apply names_elem in Hin as (e & He & Hn). apply list_elem_of_fmap in He as (f & -> & Hf). by apply (E f).
Qed.

Lemma rename_names i a sz :
  entries fs !! i = Some (from, a, sz) → names (<[i := (to, a, sz)]> (entries fs)) = <[i := to]> (names (entries fs)).
Proof. intros Hi. unfold names. by rewrite list_fmap_insert. Qed.

Lemma to_not_named : to ∉ names (entries fs).
Proof.
  intros (e & He & Hn)%names_elem. rewrite <-Hn in Hfresh.
  erewrite do_read in Hfresh; [done|apply Hr|done].
Qed.

Lemma rename_elem i a sz e :
  entries fs !! i = Some (from, a, sz) → e ∈ <[i := (to, a, sz)]> (entries fs) →
  e = (to, a, sz) ∨ e ∈ entries fs ∧ e.1.1 ≠ from.
Proof.
  intros Hi [j Hj]%list_elem_of_lookup. apply list_lookup_insert_Some in Hj as [(-> & <- & _)|[Hij Hj]]; [by left|].
  right. split; [by eapply list_elem_of_lookup_2|]. intros Hep. apply Hij.
  apply (NoDup_lookup (names (entries fs)) i j from); [apply Hr| |];
    unfold names; rewrite list_lookup_fmap, ?Hi, ?Hj; simpl; by f_equal.
Qed.

Lemma rename_ok i a sz :
  entries fs !! i = Some (from, a, sz) → let l' := <[i := (to, a, sz)]> (entries fs) in
  entries_ok l' ∧ data_ok d l' (<[to := x]> (delete from (cache fs))).
Proof.
  intros Hi l'. pose proof (r_files _ _ Hr) as Hf. pose proof (f_entries _ _ _ Hf) as [Hlen Hnm Hnd Hpl].
  pose proof (list_elem_of_lookup_2 _ _ _ Hi) as Hel. rewrite Forall_forall in Hnm, Hpl.
  pose proof (lookup_lt_Some _ _ _ Hi) as Hlt. split.
  - split.
    + unfold l'. by rewrite length_insert.
    + apply Forall_forall. intros e [->|[He _]]%(rename_elem i a sz); [done|by apply Hnm|done].
    + unfold l'. rewrite rename_names by done.
      assert (names (entries fs) !! i = Some from) as Hni by (unfold names; by rewrite list_lookup_fmap, Hi).
      rewrite insert_take_drop by (unfold names; by rewrite length_fmap).
      pose proof to_not_named as Hnt. rewrite <-(take_drop_middle _ _ _ Hni) in Hnd, Hnt.
      apply NoDup_app in Hnd as (Hn1 & Hn2 & Hn3). apply NoDup_cons in Hn3 as [Hn3 Hn4].
      apply NoDup_app. split_and!; [done|set_solver|apply NoDup_cons; set_solver].
    + apply Forall_forall. intros e [->|[He _]]%(rename_elem i a sz); [apply (Hpl _ Hel)|by apply Hpl|done].
  - pose proof (do_read _ _ _ (f_data _ _ _ Hf)) as Hrd. split.
    + intros e [->|[He Hne]]%(rename_elem i a sz); [| |done].
      * simpl. rewrite lookup_insert_eq, <-Hx. apply (Hrd _ Hel).
      * rewrite lookup_insert_ne, lookup_delete_ne by (congruence || (intros Heq; apply to_not_named, names_elem; by exists e)).
        by apply Hrd.
    + intros q [y Hq]. unfold l'. rewrite rename_names by done. apply lookup_insert_Some in Hq as [[<- _]|[Hne Hq]].
      * apply list_elem_of_lookup. exists i. apply list_lookup_insert_eq. unfold names. by rewrite length_fmap.
      * apply lookup_delete_Some in Hq as [Hqf Hq]. assert (q ∈ names (entries fs)) as Hin.
        { eapply do_dom; [apply Hf|by exists y]. }
        apply list_elem_of_lookup in Hin as [j Hj]. apply list_elem_of_lookup. exists j.
        rewrite list_lookup_insert_ne; [done|]. intros ->. unfold names in Hj. rewrite list_lookup_fmap, Hi in Hj. naive_solver.
Qed.

Lemma rename_prefix n :
  let d' := apply_writes (take n ws) d in
  files d' (entries fs) (cache fs) ∨ files d' (entries fs') (cache fs').
Proof.
  intros d'. destruct rename_shape as (i & a & sz & Hi & He & Hws & Hc & _). destruct (rename_ok i a sz Hi) as [Hok Hd].
  rewrite <-He, <-Hc in *. pose proof (r_files _ _ Hr) as Hf. unfold d'. rewrite Hws.
  destruct (decide (n ≤ 15)%nat) as [Hn|Hn].
  - assert (take n (write_index_and_superblock fs') = take n (index_writes (index fs'))) as ->.
    { rewrite write_index_eq. by rewrite take_app_le. }
    apply (index_partial d _ _ (index fs') _ i n); [done..| |].
    + intros j _ Hj. by rewrite He, list_lookup_insert_ne.
    + left. rewrite He, length_insert. split; [done|]. by eapply lookup_lt_Some.
  - right. rewrite take_ge; [by apply index_full; [apply Hf|..]|].
    rewrite write_index_eq, length_app. simpl. lia.
Qed.

Lemma rename_complete : repr (apply_writes ws d) fs'.
Proof.
  destruct rename_shape as (i & a & sz & Hi & He & Hws & Hc & Hnx & Hon). destruct (rename_ok i a sz Hi) as [Hok Hd].
  rewrite <-He, <-Hc in *. destruct Hr as [Hf Ho Hn Hend].
  split; [rewrite Hws; by apply index_full; [apply Hf|..]|by rewrite Hon|by rewrite Hnx|].
  intros e Hel. rewrite Hnx. rewrite He in Hel. apply (rename_elem i a sz) in Hel as [->|[Hel _]]; [|by apply Hend|done].
  apply (Hend (from, a, sz)). by eapply list_elem_of_lookup_2.
Qed.
End rename.

(** ** Runs with power failures *)

(** Mounting the disk, as often as it takes: a mount may itself be cut short. *)
Inductive reboots : Disk → Disk → IonFs → Prop :=
| boot_ok d fs ws : init_disk d IonFs_new = (fs, ws) → reboots d (apply_writes ws d) fs
| boot_crash d fs ws n d' fs' :
  init_disk d IonFs_new = (fs, ws) → reboots (apply_writes (take n ws) d) d' fs' → reboots d d' fs'.

Inductive fs_event :=
| Wrote (p x : bytes)
| Deleted (p : bytes)
| Renamed (p q : bytes)
| WriteCut (p x : bytes)      (* power failure during a write, then reboot *)
| RenameCut (p q : bytes)     (* power failure during a renaming, then reboot *)
| Chmoded
| Rebooted.

(** A renaming to a name that is not taken. *)
Definition can_rename (fs : IonFs) (q : bytes) : Prop := good_name q ∧ cache fs !! q = None.

Inductive fs_step : fs_event → Disk * IonFs → Disk * IonFs → Prop :=
| fs_write now p x d fs fs' ws :
  can_write fs p x → write_file now p x fs = (fs', ws) →
  fs_step (Wrote p x) (d, fs) (apply_writes ws d, fs')
| fs_delete p d fs fs' ws b :
  delete_file p fs = (fs', ws, b) → fs_step (Deleted p) (d, fs) (apply_writes ws d, fs')
| fs_rename p q d fs fs' ws b :
  can_rename fs q → rename_file p q fs = (fs', ws, b) → fs_step (Renamed p q) (d, fs) (apply_writes ws d, fs')
| fs_write_cut now p x n d fs fs1 ws d' fs' :
  can_write fs p x → write_file now p x fs = (fs1, ws) → reboots (apply_writes (take n ws) d) d' fs' →
  fs_step (WriteCut p x) (d, fs) (d', fs')
| fs_rename_cut p q n d fs fs1 ws b d' fs' :
  can_rename fs q → rename_file p q fs = (fs1, ws, b) → reboots (apply_writes (take n ws) d) d' fs' →
  fs_step (RenameCut p q) (d, fs) (d', fs')
| fs_chmod now p m d fs fs' b : chmod_file now p m fs = (fs', b) → fs_step Chmoded (d, fs) (d, fs')
| fs_reboot d fs d' fs' : reboots d d' fs' → fs_step Rebooted (d, fs) (d', fs').

(** The specification: a table of files. A change that was cut short has
    happened or has not. *)
Definition spec_rename (p q : bytes) (m : gmap bytes bytes) : gmap bytes bytes :=
  match m !! p with Some x => <[q := x]> (delete p m) | None => m end.

Inductive spec_step : fs_event → gmap bytes bytes → gmap bytes bytes → Prop :=
| spec_wrote p x m : spec_step (Wrote p x) m (<[p := x]> m)
| spec_deleted p m : spec_step (Deleted p) m (delete p m)
| spec_renamed p q m : spec_step (Renamed p q) m (spec_rename p q m)
| spec_write_lost p x m : spec_step (WriteCut p x) m m
| spec_write_kept p x m : spec_step (WriteCut p x) m (<[p := x]> m)
| spec_rename_lost p q m : spec_step (RenameCut p q) m m
| spec_rename_kept p q m : spec_step (RenameCut p q) m (spec_rename p q m)
| spec_chmoded m : spec_step Chmoded m m
| spec_rebooted m : spec_step Rebooted m m.

Inductive trace {S : Type} (step : fs_event → S → S → Prop) : list fs_event → S → S → Prop :=
| trace_nil s : trace step [] s s
| trace_snoc evs ev s1 s2 s3 : trace step evs s1 s2 → step ev s2 s3 → trace step (evs ++ [ev]) s1 s3.

Lemma reboots_files d d' fs' l m :
  reboots d d' fs' → files d l m → repr d' fs' ∧ cache fs' = m.
Proof.
  induction 1 as [d fs ws Hi|d fs ws n d' fs' Hi _ IH]; intros Hf;
    pose proof (mount_files d l m Hf) as Hm; rewrite Hi in Hm; destruct Hm as (Hr & Hc & _ & Hall); [done|].
  by apply IH.
Qed.

(** A change of mode leaves files and disk alone. *)
Lemma chmod_complete now p m d fs :
  repr d fs → let fs' := (chmod_file now p m fs).1 in repr d fs' ∧ cache fs' = cache fs.
Proof.
  intros Hr. unfold chmod_file. destruct (update_first _ _ _) as [l|] eqn:E; [|done].
  apply entry_of_update_first in E; [|done]. split; [|done]. destruct Hr. split; simpl; by rewrite ?E.
Qed.

(** One step keeps the disk in line with the cache and follows the specification. *)
Lemma fs_step_refines ev d fs d' fs' :
  fs_step ev (d, fs) (d', fs') → repr d fs → repr d' fs' ∧ spec_step ev (cache fs) (cache fs').
Proof.
  intros Hstep Hr. inversion Hstep as [now p x ? ? ? ws Hcan Hw|p ? ? ? ws b Hd|p q ? ? ? ws b [Hq Hfresh] Hw|
    now p x n ? ? fs1 ws ? ? Hcan Hw Hb|p q n ? ? fs1 ws b ? ? [Hq Hfresh] Hw Hb|now p m ? ? ? b Hc|? ? ? ? Hb]; subst; clear Hstep.
  - pose proof (write_complete now p x d fs Hr Hcan) as Hr'. destruct (write_file_shape now p x fs (r_on_disk _ _ Hr)) as (? & ? & ? & Hs).
    rewrite Hw in *. destruct Hs as (_ & -> & _). split; [done|constructor].
  - pose proof (delete_complete p d fs Hr) as Hdel. rewrite Hd in Hdel. destruct Hdel as (? & -> & _). split; [done|constructor].
  - destruct (cache fs !! p) as [x|] eqn:Hx.
    + pose proof (rename_complete p q x d fs Hr Hq Hfresh Hx) as Hr'.
      destruct (rename_shape p q x d fs Hr Hx) as (? & ? & ? & _ & _ & _ & Hc & _). rewrite Hw in *. simpl in *.
      split; [done|]. rewrite Hc. replace (<[q := x]> _) with (spec_rename p q (cache fs)); [constructor|].
      unfold spec_rename. by rewrite Hx.
    + unfold rename_file in Hw. rewrite Hx in Hw. injection Hw as <- <- <-. split; [done|].
      replace (cache fs) with (spec_rename p q (cache fs)) at 2 by (unfold spec_rename; by rewrite Hx). constructor.
  - pose proof (write_prefix now p x d fs Hr Hcan n) as Hp. destruct (write_file_shape now p x fs (r_on_disk _ _ Hr)) as (? & ? & ? & Hs).
    rewrite Hw in *. destruct Hs as (_ & Hc & _). simpl in Hp.
    destruct Hp as [Hf|Hf]; destruct (reboots_files _ _ _ _ _ Hb Hf) as [? ->]; rewrite ?Hc; split; try done; constructor.
  - destruct (cache fs !! p) as [x|] eqn:Hx.
    + pose proof (rename_prefix p q x d fs Hr Hq Hfresh Hx n) as Hp.
      destruct (rename_shape p q x d fs Hr Hx) as (? & ? & ? & _ & _ & _ & Hc & _). rewrite Hw in *. simpl in *.
      assert (cache fs1 = spec_rename p q (cache fs)) as Hc' by (unfold spec_rename; by rewrite Hx).
      destruct Hp as [Hf|Hf]; destruct (reboots_files _ _ _ _ _ Hb Hf) as [? ->]; rewrite ?Hc'; split; try done; constructor.
    + unfold rename_file in Hw. rewrite Hx in Hw. injection Hw as <- <- <-. rewrite take_nil in Hb.
      eapply reboots_files in Hb as [? ->]; [|apply Hr]. split; [done|constructor].
  - destruct (chmod_complete now p m d' fs Hr) as [Hr' Heq]. rewrite Hc in Hr', Heq. simpl in *. rewrite Heq.
    split; [done|constructor].
  - eapply reboots_files in Hb as [? ->]; [|apply Hr]. split; [done|constructor].
Qed.

Lemma trace_refines evs d0 fs0 d fs :
  trace fs_step evs (d0, fs0) (d, fs) → repr d0 fs0 → repr d fs ∧ trace spec_step evs (cache fs0) (cache fs).
Proof.
  intros Ht. remember (d0, fs0) as s0 eqn:E0. remember (d, fs) as s eqn:E. revert d0 fs0 d fs E0 E.
  induction Ht as [s|evs ev s1 [d2 fs2] s3 Ht IH Hstep]; intros d0 fs0 d fs -> E Hr.
  - injection E as -> ->. split; [done|constructor].
  - subst. destruct (IH d0 fs0 d2 fs2 eq_refl eq_refl Hr) as [Hr2 Ht2].
    destruct (fs_step_refines _ _ _ _ _ Hstep Hr2) as [Hr3 Hs]. split; [done|by econstructor].
Qed.

Lemma length_read_data d a n :
  disk_wf d → 0 ≤ n → Z.of_nat (length (read_data d a n)) = n.
Proof.
  intros Hd Hn. unfold read_data. rewrite length_take, (length_concat_chunks 512).
  - rewrite length_fmap, length_seq. pose proof (sectors_cover n Hn). lia.
  - apply Forall_fmap, Forall_forall. intros j _. by apply length_read_sector.
Qed.

Lemma stat_size d fs p x :
  repr d fs → cache fs !! p = Some x → st_size <$> stat_file fs p = Some (Z.of_nat (length x)).
Proof.
  intros Hr Hx. pose proof (r_files _ _ Hr) as Hf. unfold stat_file.
  assert (p ∈ names (entries fs)) as Hin by (eapply do_dom; [apply Hf|by exists x]).
  destruct (list_find (λ e, name e = p) (index fs)) as [[i e]|] eqn:E.
  - apply list_find_Some in E as (Hi & <- & _). simpl. f_equal.
    assert (entry_of e ∈ entries fs) as He by (apply list_elem_of_fmap; exists e; split; [done|by eapply list_elem_of_lookup_2]).
    pose proof (do_read _ _ _ (f_data _ _ _ Hf) _ He) as Hrd. simpl in Hrd. rewrite Hx in Hrd. injection Hrd as ->.
    rewrite length_read_data; [done|apply Hf|]. pose proof (eo_place _ (f_entries _ _ _ Hf)) as Hpl.
    rewrite Forall_forall in Hpl. apply (Hpl _ He).
  - exfalso. apply list_find_None in E. rewrite Forall_forall in E.
    apply names_elem in Hin as (e & He & Hn). apply list_elem_of_fmap in He as (f & -> & Hfe). by apply (E f).
Qed.

(** C23: The file system implements a table of files that survives power failures.
    Start from an unformatted disk and keep to names of 1 to 47 bytes without a zero, at
    most 120 files, renamings to free names, and data that fits below [LBA_LIMIT];
    write, delete, rename, change modes and reboot, and cut writes and renamings, but
    not deletions, short after any number of sector writes, with reboots that may be
    cut short too. At every point the files are those of
    a table in which all completed changes are in force, in order, and of each one
    cut short either everything or nothing; and the recorded sizes are right.
    Outside these limits files do get lost ([long_name_lost],
    [rename_over_existing_reverts], [cut_delete_loses_later_write]). *)
Theorem fs_refines_table d0 fs0 ws0 evs d fs :
  disk_wf d0 → le_value (slice 0 4 (read_sector d0 0)) ≠ MAGIC → init_disk d0 IonFs_new = (fs0, ws0) →
  trace fs_step evs (apply_writes ws0 d0, fs0) (d, fs) →
  ∃ m, trace spec_step evs ∅ m ∧ (∀ p, read_file fs p = m !! p) ∧
    (∀ p x, m !! p = Some x → st_size <$> stat_file fs p = Some (Z.of_nat (length x))).
Proof.
  intros Hwf Hm Hi Ht. pose proof (format_files d0 Hwf Hm) as Hf. rewrite Hi in Hf. destruct Hf as [Hr Hc].
  destruct (trace_refines _ _ _ _ _ Ht Hr) as [Hr' Hs]. rewrite Hc in Hs.
  exists (cache fs). split_and!; [done|done|]. intros p x. by apply (stat_size d).
Qed.

(** ** A run: a file is written, a second write to it is cut short *)

Definition ex_disk0 : Disk := ∅.
Definition ex_boot : IonFs * list write := init_disk ex_disk0 IonFs_new.
Definition ex_disk1 : Disk := apply_writes ex_boot.2 ex_disk0.
Definition ex_path : bytes := [47; 97].
Definition ex_write : IonFs * list write := write_file 5 ex_path [1; 2; 3] ex_boot.1.
Definition ex_disk2 : Disk := apply_writes ex_write.2 ex_disk1.
Definition ex_write2 : IonFs * list write := write_file 6 ex_path [9; 9] ex_write.1.
Definition ex_disk3 : Disk := apply_writes (take 3 ex_write2.2) ex_disk2.
Definition ex_reboot : IonFs * list write := init_disk ex_disk3 IonFs_new.

Local Opaque apply_writes init_disk write_file.

Lemma ex_path_good : good_name ex_path.
Proof. split_and!; [done|simpl; lia|set_solver|vm_compute; by eexists]. Qed.

Lemma ex_fs_run :
  trace fs_step [Wrote ex_path [1; 2; 3]; WriteCut ex_path [9; 9]] (ex_disk1, ex_boot.1)
    (apply_writes ex_reboot.2 ex_disk3, ex_reboot.1).
Proof.
  assert (∀ f (x : bytes), next_lba f + sectors_of (Z.of_nat (length x)) ≤ LBA_LIMIT → (length (index f) < 120)%nat →
          can_write f ex_path x) as Hcan.
  { intros. split_and!; [apply ex_path_good|by right|done]. }
  apply (trace_snoc fs_step [Wrote ex_path [1; 2; 3]] (WriteCut ex_path [9; 9]) _ (ex_disk2, ex_write.1)).
  - apply (trace_snoc fs_step [] (Wrote ex_path [1; 2; 3]) _ (ex_disk1, ex_boot.1)); [constructor|].
    apply (fs_write 5 ex_path [1; 2; 3] ex_disk1 ex_boot.1 ex_write.1 ex_write.2); [|exact (surjective_pairing ex_write)].
    apply Hcan; [vm_compute; discriminate|vm_compute; lia].
  - apply (fs_write_cut 6 ex_path [9; 9] 3 ex_disk2 ex_write.1 ex_write2.1 ex_write2.2);
      [|exact (surjective_pairing ex_write2)|exact (boot_ok ex_disk3 _ _ (surjective_pairing ex_reboot))].
    apply Hcan; [vm_compute; discriminate|vm_compute; lia].
Qed.

Lemma fs_refines_table_witness :
  ∃ m, trace spec_step [Wrote ex_path [1; 2; 3]; WriteCut ex_path [9; 9]] ∅ m ∧
    (∀ p, read_file ex_reboot.1 p = m !! p) ∧
    (∀ p x, m !! p = Some x → st_size <$> stat_file ex_reboot.1 p = Some (Z.of_nat (length x))).
Proof.
  apply (fs_refines_table ex_disk0 ex_boot.1 ex_boot.2 _ (apply_writes ex_reboot.2 ex_disk3));
    [done|vm_compute; discriminate|exact (surjective_pairing ex_boot)|apply ex_fs_run].
Defined.
