(* ===== verification/IonaFsSync.v ===== *)
(** * Listing, the second on-disk format and the limits of the IONA file system
    ([src/src/fs/ionafs/mod.rs]).

    The prefix search of the file list against a reference definition, the round
    trip of [sync_to_disk] and [mount_from_disk], mutual exclusion of file locks,
    and runs that show where files are lost. *)

From Stdlib Require Import ZArith Lia Bool.
From stdpp Require Import base gmap sets list sorting relations.
From S2P Require Import Prelude Types Utf8 IonaFs IonaFsProofs.

Local Open Scope Z_scope.

(** ** Listing by prefix *)

Lemma starts_with_not_less p k : starts_with p k = true → kcmp k p ≠ Lt.
Proof.
  revert k. induction p as [|a p IH]; intros [|b k]; simpl; try done.
  intros [->%Z.eqb_eq Hk]%andb_true_iff. rewrite Z.compare_refl. simpl. by apply IH.
Qed.

(** Between the prefix itself and a key that has it, all keys have it. *)
Lemma starts_with_between p k1 k2 :
  kcmp k1 p ≠ Lt → kle k1 k2 → starts_with p k2 = true → starts_with p k1 = true.
Proof.
  unfold kle. revert k1 k2. induction p as [|a p IH]; intros [|b k1] [|c k2]; simpl; try done.
  intros H1 H2 [<-%Z.eqb_eq Hk]%andb_true_iff. destruct (Z.compare_spec b a) as [->|Hlt|Hgt]; simpl in *; [|done..].
  rewrite Z.eqb_refl. simpl. by apply (IH k1 k2).
Qed.

Definition less_than (p k : bytes) : bool := match kcmp k p with Lt => true | _ => false end.

Lemma filter_none {A} (P : A → Prop) `{∀ x, Decision (P x)} (l : list A) :
  Forall (λ x, ¬ P x) l → filter P l = [].
Proof. induction 1 as [|x l Hx _ IH]; [done|]. by rewrite filter_cons, decide_False. Qed.

Lemma take_while_filter p l :
  StronglySorted kle l → Forall (λ k, kcmp k p ≠ Lt) l →
  take_while (starts_with p) l = filter (λ k, starts_with p k) l.
Proof.
  induction 1 as [|k l Hl IH Hk]; intros Hge; [done|]. apply Forall_cons in Hge as [Hkp Hge].
  rewrite filter_cons. simpl. destruct (starts_with p k) eqn:E.
  - rewrite decide_True by done. f_equal. by apply IH.
  - rewrite decide_False by (intros ?; done). symmetry. apply filter_none.
    rewrite Forall_forall in Hk |- *. intros y Hy Hs%Is_true_true.
    rewrite (starts_with_between p k y) in E; [done|done|by apply Hk|done].
Qed.

Lemma skip_take_filter p l :
  StronglySorted kle l →
  take_while (starts_with p) (skip_while (less_than p) l) = filter (λ k, starts_with p k) l.
Proof.
  induction 1 as [|k l Hl IH Hk]; [done|]. cbn [skip_while]. unfold less_than at 1.
  destruct (kcmp k p) eqn:E.
  2: { rewrite IH, filter_cons, decide_False; [done|]. intros Hs%Is_true_true.
       by apply starts_with_not_less in Hs. }
  all: apply take_while_filter; [by constructor|]; apply Forall_cons; split; [congruence|].
  all: rewrite Forall_forall in Hk |- *; intros y Hy Hlt; specialize (Hk y Hy); unfold kle in Hk.
  - apply kcmp_eq in E as ->. rewrite kcmp_sym, Hlt in Hk. done.
  - rewrite kcmp_sym in E. destruct (kcmp p k) eqn:Epk; try done.
    rewrite kcmp_sym, (kcmp_trans y p k Hlt Epk) in Hk. done.
Qed.

(** The prefix search, which seeks to the first key not less than the prefix
    and stops at the first one without it, misses nothing: it gives the first
    [limit] of all names with the prefix, in order, and the count is that of all
    of them. *)
Lemma list_prefix_complete p limit fs :
  list_prefix_limited p limit fs = take limit (filter (λ k, starts_with p k) (list_files fs)) ∧
  count_prefix p fs = length (filter (λ k, starts_with p k) (list_files fs)).
Proof.
  pose proof (skip_take_filter p (list_files fs) (btree_iter_sorted _)) as Heq.
  unfold list_prefix_limited, count_prefix, range_from. fold (less_than p). by rewrite Heq.
Qed.

(** ** Sync and mount *)

(** A file the second format can hold. *)
Definition sync_file_ok (f : bytes * bytes) : Prop :=
  (length f.1 ≤ 32)%nat ∧ (0 ∉ f.1) ∧ is_Some (from_utf8 f.1) ∧ Z.of_nat (length f.2) < 2 ^ 32.

Lemma length_sync_entry p a n : (length p ≤ 32)%nat → length (sync_entry p a n) = 64%nat.
Proof.
  intros. unfold sync_entry. apply length_pad. cbn [length]. rewrite !length_app, !length_le_bytes, length_pad; [lia|].
  rewrite length_take. lia.
Qed.

Lemma position_zero_none l : (0 ∉ l) → position_zero l = None.
Proof.
  induction l as [|b l IH]; intros Hl; [done|]. cbn. destruct (Z.eqb_spec b 0) as [->|]; [set_solver|].
  rewrite IH by set_solver. done.
Qed.

(** Reading an entry back inserts its file. *)
Lemma mount_sync_entry d fs p a n :
  (length p ≤ 32)%nat → (0 ∉ p) → is_Some (from_utf8 p) → u64_ok a → 0 ≤ n < 2 ^ 32 →
  mount_entry d fs (sync_entry p a n) = fs <| cache := <[p := read_data d a n]> (cache fs) |>.
Proof.
  intros Hlen H0 Hutf Ha Hn. unfold mount_entry, sync_entry.
  set (P := pad 32 (take 32 p)). assert (length P = 32%nat) as HP by (apply length_pad; rewrite length_take; lia).
  set (Z0 := replicate (64 - length (1 :: P ++ le_bytes 8 a ++ le_bytes 4 n)) 0).
  assert (pad 64 (1 :: P ++ le_bytes 8 a ++ le_bytes 4 n) = [1] ++ P ++ (le_bytes 8 a ++ le_bytes 4 n ++ Z0)) as ->.
  { unfold pad. fold Z0. simpl. by rewrite <-!app_assoc. }
  rewrite (slice_mid 1 32 [1]) by done. cbn [app lookup list_lookup default from_option]. cbn [Z.eqb].
  assert (P = p ++ replicate (32 - length p) 0) as HPp by (unfold P; by rewrite take_ge).
  assert (default 32%nat (position_zero P) = length p) as ->.
  { rewrite HPp. destruct (32 - length p)%nat eqn:E.
    - simpl. rewrite app_nil_r, position_zero_none by done. simpl. lia.
    - simpl. by rewrite position_zero_app. }
  change (1 :: P ++ ?X) with ([1] ++ P ++ X).
  assert (slice 1 (length p) ([1] ++ P ++ le_bytes 8 a ++ le_bytes 4 n ++ Z0) = p) as ->.
  { rewrite HPp, <-app_assoc. by apply slice_mid. }
  assert (slice 33 8 ([1] ++ P ++ le_bytes 8 a ++ le_bytes 4 n ++ Z0) = le_bytes 8 a) as ->.
  { rewrite app_assoc. apply slice_mid; [rewrite length_app; simpl; lia|apply length_le_bytes]. }
  assert (slice 41 4 ([1] ++ P ++ le_bytes 8 a ++ le_bytes 4 n ++ Z0) = le_bytes 4 n) as ->.
  { rewrite (app_assoc P), app_assoc.
    apply slice_mid; rewrite ?length_app, ?length_le_bytes; simpl; lia. }
  rewrite !le_value_bytes, from_utf8_lossy_valid by (done || mach). done.
Qed.

(** What the data writes of [sync_files] leave, and the entries that say where. *)
Lemma sync_files_spec files a room d :
  Forall sync_file_ok files → (length files ≤ room)%nat → DATA_LBA ≤ a →
  a + Z.of_nat (length files) * 2 ^ 24 ≤ LBA_LIMIT →
  let '(ws, es) := sync_files files a room in
  writes_wf ws ∧ Forall (λ w, a ≤ w.1) ws ∧
  Forall2 (λ f e, ∃ b, a ≤ b ∧ b + sectors_of (Z.of_nat (length f.2)) ≤ LBA_LIMIT ∧ e = sync_entry f.1 b (Z.of_nat (length f.2)) ∧
             read_data (apply_writes ws d) b (Z.of_nat (length f.2)) = f.2) files es.
Proof.
  revert a room d. induction files as [|[p x] files IH]; intros a room d Hok Hroom Ha Hlim.
  { destruct room; cbn; split_and!; constructor. }
  destruct room as [|room]; [simpl in Hroom; lia|]. apply Forall_cons in Hok as [Hp Hok].
  destruct Hp as (_ & _ & _ & Hx). simpl in Hroom, Hlim, Hx.
  assert (0 ≤ sectors_of (Z.of_nat (length x)) ≤ 2 ^ 24) as Hs.
  { split; [apply sectors_of_nonneg; lia|]. unfold sectors_of. apply Z.div_le_upper_bound; lia. }
  cbn [sync_files]. rewrite add64_small by (unfold LBA_LIMIT, DATA_LBA in *; mach).
  pose proof (IH (a + sectors_of (Z.of_nat (length x))) room (apply_writes (data_writes a x) d)) as IH'.
  destruct (sync_files files _ room) as [ws es].
  destruct IH' as (Hwf & Hge & Hall); [done|lia|lia|lia|].
  assert (a + sectors_of (Z.of_nat (length x)) ≤ LBA_LIMIT) as Hend by lia.
  assert (0 ≤ a) as Ha0 by (unfold DATA_LBA in *; lia).
  pose proof (data_writes_range a x Ha0 Hend) as Hrange. split_and!.
  - apply Forall_app. split; [|done]. eapply Forall_impl; [exact Hrange|]. by intros w [].
  - apply Forall_app. split; (eapply Forall_impl; [eassumption|]); simpl; lia.
  - constructor.
    + exists a. split_and!; [lia|done|done|]. rewrite apply_writes_app.
      transitivity (read_data (apply_writes (data_writes a x) d) a (Z.of_nat (length x))); [|by apply read_data_writes].
      apply read_data_ext; [done|lia|done|]. intros b Hb. apply read_sector_notin.
      eapply Forall_impl; [exact Hge|]. simpl. lia.
    + eapply Forall2_impl; [exact Hall|]. intros f e (b & Hb & Hlb & -> & Hrd). exists b.
      split_and!; [lia|done|done|]. by rewrite apply_writes_app.
Qed.

Lemma slices_concat n (L : list bytes) :
  Forall (λ l, length l = n) L → (λ i, slice (i * n) n (concat L)) <$> seq 0 (length L) = L.
Proof.
  intros HL. apply list_eq. intros i. rewrite list_lookup_fmap. destruct (L !! i) as [c|] eqn:Hi; simpl.
  - rewrite lookup_seq_lt by (by eapply lookup_lt_Some). simpl. f_equal.
    replace (i * n)%nat with (i * n + 0)%nat by lia. rewrite (slice_concat n L i c) by (done || lia).
    apply slice_all. rewrite Forall_forall in HL. apply HL. by eapply list_elem_of_lookup_2.
  - apply lookup_ge_None in Hi. by rewrite lookup_seq_ge.
Qed.

Lemma concat_replicate_zero k n : concat (replicate k (replicate n (0 : Z))) = replicate (k * n) 0.
Proof. induction k as [|k IH]; [done|]. simpl. by rewrite IH, replicate_add. Qed.

(** The padded index is its entries and empty entries. *)
Lemma pad_concat (es : list bytes) :
  Forall (λ e, length e = 64%nat) es → (length es ≤ 120)%nat →
  pad (120 * 64) (concat es) = concat (es ++ replicate (120 - length es) (replicate 64 0)).
Proof.
  intros Hes Hlen. unfold pad. rewrite concat_app, concat_replicate_zero, (length_concat_chunks 64) by done.
  do 2 f_equal. lia.
Qed.

Lemma mount_empty_entries d fs k : foldl (mount_entry d) fs (replicate k (replicate 64 0)) = fs.
Proof. induction k as [|k IH]; [done|]. cbn [replicate foldl]. exact IH. Qed.

Lemma mount_entries d fs files es :
  Forall sync_file_ok files →
  Forall2 (λ f e, ∃ b, DATA_LBA ≤ b ∧ b + sectors_of (Z.of_nat (length f.2)) ≤ LBA_LIMIT ∧ e = sync_entry f.1 b (Z.of_nat (length f.2)) ∧
             read_data d b (Z.of_nat (length f.2)) = f.2) files es →
  cache (foldl (mount_entry d) fs es) = foldl (λ m f, <[f.1 := f.2]> m) (cache fs) files.
Proof.
  intros Hok Hall. revert fs. induction Hall as [|f e files es (b & Hb & Hlim & -> & Hrd) _ IH]; intros fs; [done|].
  apply Forall_cons in Hok as [(Hl & H0 & Hutf & Hx) Hok]. cbn [foldl].
  rewrite mount_sync_entry, IH; [|done..| |lia].
  - simpl. by rewrite Hrd.
  - pose proof (sectors_of_nonneg (Z.of_nat (length f.2))). unfold DATA_LBA, LBA_LIMIT in *. mach.
Qed.

(** The writes behind the data: the index and the superblock. *)
Lemma sync_disk_reads ws es d :
  disk_wf d → Forall (λ e, length e = 64%nat) es → (length es ≤ 120)%nat →
  let idx := pad (120 * 64) (concat es) in
  let d' := apply_writes (ws ++ ((λ i, (INDEX_LBA + Z.of_nat i, slice (i * SECTOR_SIZE) SECTOR_SIZE idx)) <$> seq 0 15) ++
    [(0, pad SECTOR_SIZE (le_bytes 4 0x414E4F49 ++ le_bytes 4 (Z.of_nat (length es))))]) d in
  read_index d' = idx ∧ slice 0 4 (read_sector d' 0) = [73; 79; 78; 65] ∧
  ∀ b, DATA_LBA ≤ b → read_sector d' b = read_sector (apply_writes ws d) b.
Proof.
  intros Hwf Hes Hlen idx d'.
  assert (length idx = (15 * 512)%nat) as Hidx.
  { unfold idx. rewrite pad_concat by done. rewrite (length_concat_chunks 64).
    - rewrite length_app, length_replicate. lia.
    - apply Forall_app. split; [done|]. apply Forall_replicate. done. }
  assert (∀ b, read_sector d' b = if decide (0 = b) then pad SECTOR_SIZE (le_bytes 4 0x414E4F49 ++ le_bytes 4 (Z.of_nat (length es)))
    else if decide (1 ≤ b < 1 + Z.of_nat 15) then slice (Z.to_nat (b - 1) * SECTOR_SIZE) SECTOR_SIZE idx
    else read_sector (apply_writes ws d) b) as Hrd.
  { intros b. unfold d'. rewrite app_assoc, apply_writes_snoc, read_sector_insert. cbn [fst snd].
    case_decide; [done|]. rewrite apply_writes_app. apply read_consecutive. }
  split_and!.
  - rewrite <-(concat_slices 512 15 idx Hidx). unfold read_index. f_equal. apply list_fmap_ext.
    intros i j [-> Hj]%lookup_seq. rewrite Hrd, decide_False, decide_True by (unfold INDEX_LBA; lia).
    f_equal. unfold INDEX_LBA, SECTOR_SIZE. lia.
  - rewrite Hrd, decide_True by done. reflexivity.
  - intros b Hb. unfold DATA_LBA in Hb. rewrite Hrd, !decide_False by lia. done.
Qed.

(** Saving all files and mounting the disk gives them back, as long as there
    are at most 120 of them, with names of at most 32 bytes and less than 4 GiB
    each, whatever was on the disk before. *)
Lemma sync_mount_roundtrip fs d :
  disk_wf d → (base.size (cache fs) ≤ 120)%nat → Forall sync_file_ok (btree_iter (cache fs)) →
  cache (mount_from_disk (apply_writes (sync_to_disk fs) d) IonFs_new).1 = cache fs.
Proof.
  intros Hwf Hsz Hok. unfold sync_to_disk.
  assert (length (btree_iter (cache fs)) ≤ 120)%nat as Hlen.
  { rewrite btree_iter_perm, length_map_to_list. done. }
  pose proof (sync_files_spec (btree_iter (cache fs)) DATA_LBA 120 d Hok Hlen ltac:(done)
    ltac:(unfold DATA_LBA, LBA_LIMIT; lia)) as Hs.
  destruct (sync_files _ _ _) as [ws es]. destruct Hs as (Hwfw & Hge & Hall).
  assert (Forall (λ e, length e = 64%nat) es) as Hes.
  { clear -Hok Hall. induction Hall as [|f e fl es (b & _ & _ & -> & _) _ IH]; [constructor|].
    apply Forall_cons in Hok as [(Hl & _) Hok]. constructor; [by apply length_sync_entry|by apply IH]. }
  assert (length es = length (btree_iter (cache fs))) as Hle by (symmetry; by eapply Forall2_length).
  destruct (sync_disk_reads ws es d Hwf Hes ltac:(lia)) as (Hidx & Hmag & Hdata).
  set (d' := apply_writes (ws ++ _) d) in *. unfold mount_from_disk. rewrite Hmag. cbn [negb].
  rewrite bool_decide_eq_true_2 by done. cbn [negb fst]. rewrite Hidx, pad_concat by (done || lia).
  assert (length (es ++ replicate (120 - length es) (replicate 64 (0 : Z))) = 120)%nat as H120.
  { rewrite length_app, length_replicate. lia. }
  rewrite <-H120 at 1. rewrite slices_concat, foldl_app, mount_empty_entries.
  2: { apply Forall_app. split; [done|]. by apply Forall_replicate. }
  rewrite (mount_entries d' _ (btree_iter (cache fs))); [|done|].
  - apply map_eq. intros p. rewrite (foldl_insert_lookup fst snd _ (cache fs)).
    + case_decide as Hp; [done|]. simpl. rewrite lookup_empty. destruct (cache fs !! p) as [y|] eqn:E; [|done].
      destruct Hp. apply list_elem_of_fmap. exists (p, y). split; [done|]. by apply elem_of_btree_iter.
    + intros [q y] Hq. by apply elem_of_btree_iter.
  - eapply Forall2_impl; [exact Hall|]. intros f e (b & Hb & Hlim & -> & Hrd). exists b. split_and!; [done..|].
    etrans; [|exact Hrd]. apply read_data_ext; [unfold DATA_LBA in *; lia|lia|done|].
    intros c Hc. apply Hdata. lia.
Qed.

(** ** File locks *)

Inductive lock_step : gmap Z FileLock → gmap Z FileLock → Prop :=
| step_flock p ty tid L : lock_step L (flock p ty tid L).1
| step_funlock p tid L : lock_step L (funlock p tid L).

(** An exclusive lock has one holder, whatever calls were made. *)
Lemma exclusive_lock_single L h l :
  rtc lock_step ∅ L → L !! h = Some l → holders l ≠ [] ∧ (lock_type l = Exclusive → length (holders l) = 1%nat).
Proof.
  set (inv := λ L : gmap Z FileLock, ∀ h l, L !! h = Some l →
    holders l ≠ [] ∧ (lock_type l = Exclusive → length (holders l) = 1%nat)).
  intros Hrun. revert h l. change (inv L). refine (rtc_ind_r (R := lock_step) inv ∅ _ _ L Hrun); [done|].
  clear. intros L L' _ Hstep Hinv. inversion Hstep as [p ty tid|p tid]; subst; clear Hstep; intros h l.
  - unfold flock. destruct (L !! path_hash p) as [l0|] eqn:E; simpl.
    + destruct (Hinv _ _ E) as [H1 H2]. destruct (lock_type l0) eqn:Et, ty; simpl; try apply Hinv.
      intros [[_ <-]|[_ Hl]]%lookup_insert_Some; [|by apply (Hinv h)]. simpl. rewrite Et.
      split; [by destruct (holders l0)|done].
    + intros [[_ <-]|[_ Hl]]%lookup_insert_Some; [done|by apply (Hinv h)].
  - unfold funlock. destruct (L !! path_hash p) as [l0|] eqn:E; [|by apply Hinv].
    destruct (Hinv _ _ E) as [H1 H2]. simpl. destruct (filter _ (holders l0)) as [|t ts] eqn:Ef.
    + intros [_ Hl]%lookup_delete_Some. by apply (Hinv h).
    + intros [[_ <-]|[_ Hl]]%lookup_insert_Some; [|by apply (Hinv h)]. simpl. split; [done|].
      intros Hx. pose proof (length_filter (λ h, h ≠ tid) (holders l0)) as Hle. rewrite Ef, (H2 Hx) in Hle. simpl in *. lia.
Qed.

(** ** Files that are lost *)

Definition run_write (p x : bytes) (s : Disk * IonFs) : Disk * IonFs :=
  let '(fs, ws) := write_file 0 p x s.2 in (apply_writes ws s.1, fs).

Definition run_mount (d : Disk) : Disk * IonFs :=
  let '(fs, ws) := init_disk d IonFs_new in (apply_writes ws d, fs).

Definition run_rename (p q : bytes) (s : Disk * IonFs) : Disk * IonFs :=
  let '(fs, ws, _) := rename_file p q s.2 in (apply_writes ws s.1, fs).

(** Renaming over an existing file leaves two entries with its name. The file
    reads as the renamed one until the next boot, when the old one is back. *)
Lemma rename_over_existing_reverts :
  let s := run_rename [97] [98] (run_write [98] [2] (run_write [97] [1] (run_mount ∅))) in
  read_file s.2 [98] = Some [1] ∧ fsck s.2 = false ∧ read_file (run_mount s.1).2 [98] = Some [2].
Proof. vm_compute. split_and!; reflexivity. Qed.

(** Nine files, named by the bytes 97 to 105. *)
Definition nine_files : Disk * IonFs :=
  foldl (λ s i, run_write [97 + i] [i] s) (run_mount ∅) (seqZ 0 9).

(** Power fails after the first index sector of a deletion: the ninth file then
    has two entries. It can be written, but the next boot gives its old contents. *)
Lemma cut_delete_loses_later_write :
  let cut := apply_writes (take 1 (delete_file [97] nine_files.2).1.2) nine_files.1 in
  let s := run_write [105] [7; 7] (run_mount cut) in
  read_file s.2 [105] = Some [7; 7] ∧ read_file (run_mount s.1).2 [105] = Some [8].
Proof. vm_compute. split_and!; reflexivity. Qed.

(** A name of more than 47 bytes is cut off in the index: after a boot the file
    is gone under its own name. *)
Lemma long_name_lost :
  let p := replicate 48 (97 : Z) in
  let s := run_write p [1] (run_mount ∅) in
  read_file s.2 p = Some [1] ∧ read_file (run_mount s.1).2 p = None ∧
  read_file (run_mount s.1).2 (replicate 47 97) = Some [1].
Proof. vm_compute. split_and!; reflexivity. Qed.

(** The two formats spell the magic number in opposite byte orders: mounting by
    [mount_from_disk] formats a disk of the other format, and its files are gone. *)
Lemma formats_destroy_each_other :
  let d := (run_write [97] [1] (run_mount ∅)).1 in
  let d' := apply_writes (mount_from_disk d IonFs_new).2 d in
  read_file (run_mount d).2 [97] = Some [1] ∧ read_file (run_mount d').2 [97] = None.
Proof. vm_compute. split_and!; reflexivity. Qed.

(** Recovery re-applies nothing: it only marks pending entries as committed. *)
Lemma recovery_writes_journal_only d w :
  disk_wf d → w ∈ recover_journal d → JOURNAL_LBA ≤ w.1 < DATA_LBA.
Proof.
  intros Hd Hw. pose proof (recover_journal_ok d Hd) as Hj. rewrite Forall_forall in Hj. by apply Hj.
Qed.

Definition ex_sync_fs : IonFs := IonFs_new <| cache := {[ [47; 97] := [1; 2]; [47; 98] := [] ]} |>.

Lemma sync_mount_roundtrip_witness :
  cache (mount_from_disk (apply_writes (sync_to_disk ex_sync_fs) ∅) IonFs_new).1 = cache ex_sync_fs.
Proof.
  apply sync_mount_roundtrip; [done|vm_compute; lia|].
  assert (btree_iter (cache ex_sync_fs) = [([47; 97], [1; 2]); ([47; 98], [])]) as -> by (vm_compute; reflexivity).
  repeat constructor; try (simpl; lia); try set_solver; try (vm_compute; by eexists).
Defined.
