(* ===== verification/EvmWords.v ===== *)
(** * Words, arithmetic and Keccak of the EVM ([src/src/blockchain/revm_port.rs]).

    A word is [[u8; 32]], most significant byte first, as a list of 32 bytes.
    The functions are those of the interpreter: addition and subtraction byte by
    byte, multiplication by 64-bit limbs, and the operations that work on the low
    64 bits of a word only. Then what they compute: addition and subtraction are
    exact modulo 2^256, multiplication where one factor fits a limb, and the
    inputs on which the others differ from 256-bit arithmetic. *)

From Stdlib Require Import ZArith Lia Bool.
From stdpp Require Import base numbers list.
From S2P Require Import Prelude Types.

Local Open Scope Z_scope.

Abbreviation word := (list Z) (only parsing).

Definition zero_word : word := replicate 32 0.

Definition word_ok (w : word) : Prop := length w = 32%nat ∧ Forall byte_ok w.

(** ** Conversions *)

Definition to_u64 (v : word) : Z := be_value (drop 24 v).
Definition from_u64 (n : Z) : word := replicate 24 0 ++ be_bytes 8 n.
Definition from_u128 (n : Z) : word := replicate 16 0 ++ be_bytes 16 n.

(** [u128::from_be_bytes(w[16..32])]. *)
Definition to_u128 (v : word) : Z := be_value (drop 16 v).

(** [x as i64] and [x as u64]. *)
Definition to_i64 (z : Z) : Z := if z <? 2 ^ 63 then z else z - 2 ^ 64.

(** An address is the low 20 bytes of a word. *)
Definition to_addr (v : word) : bytes := drop 12 v.
Definition from_addr (a : bytes) : word := replicate 12 0 ++ a.

Definition bool_word (b : bool) : word := if b then from_u64 1 else zero_word.

(** ** Arithmetic *)

(** The loops run from the last byte; here over the reversed words. *)
Fixpoint add_loop (a b : bytes) (carry : Z) : bytes :=
  match a, b with
  | x :: a', y :: b' => let s := x + y + carry in s `mod` 256 :: add_loop a' b' (Z.shiftr s 8)
  | _, _ => []
  end.

Definition u256_add (a b : word) : word := rev (add_loop (rev a) (rev b) 0).

Fixpoint sub_loop (a b : bytes) (borrow : Z) : bytes :=
  match a, b with
  | x :: a', y :: b' =>
    let s := x - y - borrow in s `mod` 256 :: sub_loop a' b' (if s <? 0 then 1 else 0)
  | _, _ => []
  end.

Definition u256_sub (a b : word) : word := rev (sub_loop (rev a) (rev b) 0).

(** The limbs of a word, least significant first: [limb k] is [al[3 - k]]. *)
Definition limbs (a : word) : list Z :=
  [be_value (slice 24 8 a); be_value (slice 16 8 a); be_value (slice 8 8 a); be_value (slice 0 8 a)].

Definition limb (l : list Z) (k : nat) : Z := nth k l 0.

(** One turn of the double loop. The carry into the next limb is added with
    [wrapping_add], and the carry of that addition is not kept. *)
Definition mul_step (al bl : list Z) (r : list Z) (ij : nat * nat) : list Z :=
  let '(i, j) := ij in
  let dest := (i + j)%nat in
  if (dest <? 4)%nat then
    let t := limb r dest + limb al i * limb bl j in
    let r := <[dest := Z.land t (2 ^ 64 - 1)]> r in
    if (dest + 1 <? 4)%nat then <[(dest + 1)%nat := add64 (limb r (dest + 1)) (Z.shiftr t 64)]> r else r
  else r.

Definition mul_order : list (nat * nat) :=
  i ← seq 0 4; j ← seq 0 4; [(i, j)].

Definition u256_mul (a b : word) : word :=
  let r := foldl (mul_step (limbs a) (limbs b)) [0; 0; 0; 0] mul_order in
  be_bytes 8 (limb r 3) ++ be_bytes 8 (limb r 2) ++ be_bytes 8 (limb r 1) ++ be_bytes 8 (limb r 0).

(** The remaining operations use the low 64 bits of their arguments. *)

Definition op_div (a b : word) : word :=
  let bv := to_u64 b in if bv =? 0 then zero_word else from_u64 (to_u64 a `div` bv).

(** Signed division panics when the quotient does not fit. *)
Definition op_sdiv (a b : word) : option word :=
  let av := to_i64 (to_u64 a) in
  let bv := to_i64 (to_u64 b) in
  if bv =? 0 then Some zero_word
  else if (av =? - 2 ^ 63) && (bv =? -1) then None
  else Some (from_u64 (wrap64 (Z.quot av bv))).

Definition op_mod (a b : word) : word :=
  let bv := to_u64 b in if bv =? 0 then zero_word else from_u64 (to_u64 a `mod` bv).

Definition op_smod (a b : word) : option word :=
  let av := to_i64 (to_u64 a) in
  let bv := to_i64 (to_u64 b) in
  if bv =? 0 then Some zero_word
  else if (av =? - 2 ^ 63) && (bv =? -1) then None
  else Some (from_u64 (wrap64 (Z.rem av bv))).

Definition op_addmod (a b n : word) : word :=
  let nv := to_u64 n in if nv =? 0 then zero_word else from_u128 ((to_u64 a + to_u64 b) `mod` nv).

Definition op_mulmod (a b n : word) : word :=
  let nv := to_u64 n in if nv =? 0 then zero_word else from_u128 ((to_u64 a * to_u64 b) `mod` nv).

(** [u64::BITS - e.leading_zeros()]. *)
Definition bit_length (e : Z) : Z := if e =? 0 then 0 else Z.log2 e + 1.

Definition exp_cost (e : Z) : Z := 10 + 50 * (if e =? 0 then 0 else bit_length e `div` 8 + 1).

Definition op_exp (base : word) (e : Z) : word := from_u64 (wrap64 (to_u64 base ^ Z.min e 63)).

Definition op_signextend (b x : word) : word :=
  let bit := Z.to_nat (Z.land (to_u64 b) 31) in
  let sign := Z.land (nth (31 - bit) x 0) 0x80 in
  take (32 - bit) x ++ replicate bit (if sign =? 0 then 0 else 0xFF).

Definition op_slt (a b : word) : word := bool_word (to_i64 (to_u64 a) <? to_i64 (to_u64 b)).
Definition op_sgt (a b : word) : word := bool_word (to_i64 (to_u64 b) <? to_i64 (to_u64 a)).
Definition op_lt (a b : word) : word := bool_word (to_u64 a <? to_u64 b).
Definition op_gt (a b : word) : word := bool_word (to_u64 b <? to_u64 a).
Definition op_eq (a b : word) : word := bool_word (bool_decide (a = b)).
Definition op_iszero (a : word) : word := bool_word (bool_decide (a = zero_word)).

Definition op_and (a b : word) : word := zip_with Z.land a b.
Definition op_or (a b : word) : word := zip_with Z.lor a b.
Definition op_xor (a b : word) : word := zip_with Z.lxor a b.
Definition op_not (a : word) : word := (λ x, 255 - x) <$> a.

Definition op_byte (idx val : word) : word :=
  let i := to_u64 idx in replicate 31 0 ++ [if i <? 32 then nth (Z.to_nat i) val 0 else 0].

Definition op_shl (shift val : word) : word :=
  let s := Z.min (to_u64 shift) 255 in from_u64 (if 64 <=? s then 0 else wrap64 (Z.shiftl (to_u64 val) s)).

Definition op_shr (shift val : word) : word :=
  let s := Z.min (to_u64 shift) 255 in from_u64 (if 64 <=? s then 0 else Z.shiftr (to_u64 val) s).

(** [i64 >> s] takes the shift modulo 64. *)
Definition op_sar (shift val : word) : word :=
  let s := Z.min (to_u64 shift) 255 in from_u64 (wrap64 (Z.shiftr (to_i64 (to_u64 val)) (s `mod` 64))).

(** ** Keccak-256 *)

Definition rotate_left (x n : Z) : Z :=
  if n =? 0 then x else wrap64 (Z.lor (Z.shiftl x n) (Z.shiftr x (64 - n))).

Definition RC : list Z :=
  [0x0000000000000001; 0x0000000000008082; 0x800000000000808A;
   0x8000000080008000; 0x000000000000808B; 0x0000000080000001;
   0x8000000080008081; 0x8000000000008009; 0x000000000000008A;
   0x0000000000000088; 0x0000000080008009; 0x000000008000000A;
   0x000000008000808B; 0x800000000000008B; 0x8000000000008089;
   0x8000000000008003; 0x8000000000008002; 0x8000000000000080;
   0x000000000000800A; 0x800000008000000A; 0x8000000080008081;
   0x8000000000008080; 0x0000000080000001; 0x8000000080008008].

Definition ROT : list Z :=
  [0; 1; 62; 28; 27; 36; 44; 6; 55; 20; 3; 10; 43; 25; 39; 41; 45; 15; 21; 8; 18; 2; 61; 56; 14].

Definition PI : list nat :=
  [0; 6; 12; 18; 24; 3; 9; 10; 16; 22; 1; 7; 13; 19; 20; 4; 5; 11; 17; 23; 2; 8; 14; 15; 21]%nat.

Definition keccak_theta (st : list Z) : list Z :=
  let c := (λ x, Z.lxor (Z.lxor (Z.lxor (Z.lxor (limb st x) (limb st (x + 5))) (limb st (x + 10)))
                           (limb st (x + 15))) (limb st (x + 20))) <$> seq 0 5 in
  let d := (λ x, Z.lxor (limb c ((x + 4) mod 5)) (rotate_left (limb c ((x + 1) mod 5)) 1)) <$> seq 0 5 in
  imap (λ i s, Z.lxor s (limb d (i mod 5))) st.

Definition keccak_rho_pi (st : list Z) : list Z :=
  foldl (λ b i, <[nth i PI 0%nat := rotate_left (limb st i) (limb ROT i)]> b) (replicate 25 0) (seq 0 25).

(** [!x] of a 64-bit word. *)
Definition keccak_chi (b : list Z) : list Z :=
  (λ i, let y := (i / 5 * 5)%nat in let x := (i mod 5)%nat in
        Z.lxor (limb b i) (Z.land (2 ^ 64 - 1 - limb b ((x + 1) mod 5 + y)) (limb b ((x + 2) mod 5 + y)))) <$> seq 0 25.

Definition keccak_round (st : list Z) (rc : Z) : list Z :=
  let st := keccak_chi (keccak_rho_pi (keccak_theta st)) in
  <[0%nat := Z.lxor (limb st 0) rc]> st.

Definition keccak_f1600 (st : list Z) : list Z := foldl keccak_round st RC.

Definition RATE : nat := 136.

(** [state[i / 8] ^= (b as u64) << (i % 8 * 8)]. *)
Definition xor_byte (st : list Z) (i : nat) (b : Z) : list Z :=
  <[(i / 8)%nat := Z.lxor (limb st (i / 8)) (Z.shiftl b (Z.of_nat (i mod 8 * 8)))]> st.

Fixpoint xor_block (st : list Z) (i : nat) (data : bytes) : list Z :=
  match data with [] => st | b :: data' => xor_block (xor_byte st i b) (S i) data' end.

(** A full block is followed by the permutation. The fuel is the length of the
    data, and each turn but the last takes [RATE] bytes. *)
Fixpoint absorb (fuel : nat) (st : list Z) (data : bytes) : list Z :=
  match fuel, data with
  | S fuel', _ :: _ =>
    let block := take RATE data in
    let st := xor_block st 0 block in
    absorb fuel' (if bool_decide (length block = RATE) then keccak_f1600 st else st) (drop RATE data)
  | _, _ => st
  end.

Definition keccak256 (data : bytes) : word :=
  let st := absorb (length data) (replicate 25 0) data in
  let st := xor_byte st (length data mod RATE) 0x01 in
  let st := xor_byte st (RATE - 1) 0x80 in
  let st := keccak_f1600 st in
  le_bytes 8 (limb st 0) ++ le_bytes 8 (limb st 1) ++ le_bytes 8 (limb st 2) ++ le_bytes 8 (limb st 3).

(** ** Results are words *)

Lemma word_length w : word_ok w → length w = 32%nat.
Proof. by intros []. Qed.

Lemma zero_word_ok : word_ok zero_word.
Proof. split; [done|]. apply Forall_replicate. mach. Qed.

Lemma pad_word_ok n l : (n ≤ 32)%nat → length l = (32 - n)%nat → Forall byte_ok l → word_ok (replicate n 0 ++ l).
Proof.
  intros. split; [rewrite length_app, length_replicate; lia|]. apply Forall_app. split; [|done].
  apply Forall_replicate. mach.
Qed.

Lemma from_u64_ok n : word_ok (from_u64 n).
Proof. apply pad_word_ok; [lia|apply length_be_bytes|apply be_bytes_ok]. Qed.

Lemma from_u128_ok n : word_ok (from_u128 n).
Proof. apply pad_word_ok; [lia|apply length_be_bytes|apply be_bytes_ok]. Qed.

Lemma bool_word_ok b : word_ok (bool_word b).
Proof. destruct b; [apply from_u64_ok|apply zero_word_ok]. Qed.

Lemma from_addr_ok a : length a = 20%nat → Forall byte_ok a → word_ok (from_addr a).
Proof. intros. by apply pad_word_ok; [lia|..]. Qed.

Lemma to_addr_ok w : word_ok w → length (to_addr w) = 20%nat ∧ Forall byte_ok (to_addr w).
Proof. intros [Hl Hw]. split; [unfold to_addr; rewrite length_drop; lia|by apply Forall_drop]. Qed.

Lemma to_u64_bound w : word_ok w → u64_ok (to_u64 w).
Proof.
  intros [Hl Hw]. pose proof (be_value_bound (drop 24 w) (Forall_drop _ _ _ Hw)) as Hb.
  rewrite length_drop, Hl in Hb. unfold to_u64. mach_unfold. change (Z.of_nat (32 - 24)) with 8 in Hb. lia.
Qed.

Lemma to_u128_bound w : word_ok w → 0 ≤ to_u128 w < 2 ^ 128.
Proof.
  intros [Hl Hw]. pose proof (be_value_bound (drop 16 w) (Forall_drop _ _ _ Hw)) as Hb.
  rewrite length_drop, Hl in Hb. unfold to_u128. change (Z.of_nat (32 - 16)) with 16 in Hb. lia.
Qed.

Lemma rev_word_ok l : length l = 32%nat → Forall byte_ok l → word_ok (rev l).
Proof. intros. split; [by rewrite length_rev|by apply Forall_rev]. Qed.

Lemma mod_byte_ok z : byte_ok (z `mod` 256).
Proof. pose proof (Z.mod_pos_bound z 256). mach. Qed.

Lemma add_loop_ok a b c : length a = length b → length (add_loop a b c) = length a ∧ Forall byte_ok (add_loop a b c).
Proof.
  revert b c. induction a as [|x a IH]; intros [|y b] c Hl; try done. simpl.
  destruct (IH b (Z.shiftr (x + y + c) 8)) as [H1 H2]; [simpl in Hl; lia|].
  split; [by rewrite H1|]. constructor; [apply mod_byte_ok|done].
Qed.

Lemma sub_loop_ok a b c : length a = length b → length (sub_loop a b c) = length a ∧ Forall byte_ok (sub_loop a b c).
Proof.
  revert b c. induction a as [|x a IH]; intros [|y b] c Hl; try done. simpl.
  destruct (IH b (if x - y - c <? 0 then 1 else 0)) as [H1 H2]; [simpl in Hl; lia|].
  split; [by rewrite H1|]. constructor; [apply mod_byte_ok|done].
Qed.

Lemma u256_add_ok a b : word_ok a → word_ok b → word_ok (u256_add a b).
Proof.
  intros [Ha _] [Hb _]. destruct (add_loop_ok (rev a) (rev b) 0) as [Hl Hf]; [rewrite !length_rev; lia|].
  apply rev_word_ok; [|done]. by rewrite Hl, length_rev.
Qed.

Lemma u256_sub_ok a b : word_ok a → word_ok b → word_ok (u256_sub a b).
Proof.
  intros [Ha _] [Hb _]. destruct (sub_loop_ok (rev a) (rev b) 0) as [Hl Hf]; [rewrite !length_rev; lia|].
  apply rev_word_ok; [|done]. by rewrite Hl, length_rev.
Qed.

Lemma four_words_ok (f : nat → Z → bytes) a b c d :
  (∀ n z, length (f n z) = n ∧ Forall byte_ok (f n z)) → word_ok (f 8%nat a ++ f 8%nat b ++ f 8%nat c ++ f 8%nat d).
Proof.
  intros Hf. split; [rewrite !length_app, !(proj1 (Hf _ _)); done|]. by repeat (apply Forall_app; split); apply Hf.
Qed.

Lemma u256_mul_ok a b : word_ok (u256_mul a b).
Proof. apply (four_words_ok be_bytes). intros. split; [apply length_be_bytes|apply be_bytes_ok]. Qed.

Lemma keccak256_ok data : word_ok (keccak256 data).
Proof. apply (four_words_ok le_bytes). intros. split; [apply length_le_bytes|apply le_bytes_ok]. Qed.

Lemma byte_ok_bits (f : Z → Z → Z) (g : bool → bool → bool) x y :
  (∀ a b i, 0 ≤ i → Z.testbit (f a b) i = g (Z.testbit a i) (Z.testbit b i)) → g false false = false →
  (0 ≤ x → 0 ≤ y → 0 ≤ f x y) → byte_ok x → byte_ok y → byte_ok (f x y).
Proof.
  intros Hf Hg Hpos Hx Hy. mach_unfold. split; [apply Hpos; lia|].
  destruct (Z.lt_ge_cases (f x y) (2 ^ 8)) as [?|Hge]; [lia|].
  assert (0 < f x y) as Hp by lia. pose proof (Z.bit_log2 _ Hp) as Hb.
  assert (8 ≤ Z.log2 (f x y)) as H8 by (rewrite <-(Z.log2_pow2 8) by lia; by apply Z.log2_le_mono).
  pose proof (Z.log2_le_mono x 255 ltac:(lia)). pose proof (Z.log2_le_mono y 255 ltac:(lia)).
  change (Z.log2 255) with 7 in *. rewrite Hf, !Z.bits_above_log2, Hg in Hb by lia. done.
Qed.

Lemma zip_word_ok f a b :
  (∀ x y, byte_ok x → byte_ok y → byte_ok (f x y)) → word_ok a → word_ok b → word_ok (zip_with f a b).
Proof.
  intros Hf [Hl Ha] [Hl' Hb]. split; [rewrite length_zip_with; lia|]. clear Hl Hl'. revert b Hb.
  induction Ha; intros b [|y b' Hy Hb']; simpl; constructor; auto.
Qed.

Lemma op_and_ok a b : word_ok a → word_ok b → word_ok (op_and a b).
Proof.
  apply zip_word_ok. intros x y. apply (byte_ok_bits _ andb); [|done|].
  - intros. apply Z.land_spec.
  - intros. apply Z.land_nonneg. lia.
Qed.

Lemma op_or_ok a b : word_ok a → word_ok b → word_ok (op_or a b).
Proof.
  apply zip_word_ok. intros x y. apply (byte_ok_bits _ orb); [|done|].
  - intros. apply Z.lor_spec.
  - intros. apply Z.lor_nonneg. lia.
Qed.

Lemma op_xor_ok a b : word_ok a → word_ok b → word_ok (op_xor a b).
Proof.
  apply zip_word_ok. intros x y. apply (byte_ok_bits _ xorb); [|done|].
  - intros. apply Z.lxor_spec.
  - intros. apply Z.lxor_nonneg. lia.
Qed.

Lemma op_not_ok a : word_ok a → word_ok (op_not a).
Proof.
  intros [Hl Ha]. unfold op_not. split; [by rewrite length_fmap|]. apply Forall_fmap. clear Hl. induction Ha; constructor; [simpl; mach|done].
Qed.

Lemma op_signextend_ok b x : word_ok x → word_ok (op_signextend b x).
Proof.
  intros [Hl Hx]. unfold op_signextend. set (bit := Z.to_nat _).
  assert (bit ≤ 31)%nat as Hbit.
  { unfold bit. change 31 with (Z.ones 5). rewrite Z.land_ones by lia. pose proof (Z.mod_pos_bound (to_u64 b) (2 ^ 5)). lia. }
  split; [rewrite length_app, length_take, length_replicate; lia|]. apply Forall_app. split; [by apply Forall_take|].
  apply Forall_replicate. destruct (_ =? 0); mach.
Qed.

Lemma op_byte_ok i w : word_ok w → word_ok (op_byte i w).
Proof.
  intros [Hl Hw]. apply pad_word_ok; [lia|done|]. apply Forall_singleton. destruct (_ <? _); [|mach].
  destruct (nth_in_or_default (Z.to_nat (to_u64 i)) w 0) as [Hin| ->]; [|mach].
  rewrite Forall_forall in Hw. apply Hw. by apply list_elem_of_In.
Qed.

Create HintDb words.
#[export] Hint Resolve zero_word_ok from_u64_ok from_u128_ok bool_word_ok from_addr_ok u256_add_ok u256_sub_ok
  u256_mul_ok keccak256_ok op_and_ok op_or_ok op_xor_ok op_not_ok op_signextend_ok op_byte_ok : words.

(** ** What the arithmetic computes *)

(** A digit and the rest modulo what is left. *)
Lemma digit_mod z m : 0 < m → z `mod` 256 + 256 * ((z `div` 256) `mod` m) = z `mod` (256 * m).
Proof. intros. by rewrite Z.rem_mul_r by lia. Qed.

Lemma add_loop_value a b c :
  length a = length b →
  le_value (add_loop a b c) = (le_value a + le_value b + c) `mod` 256 ^ Z.of_nat (length a).
Proof.
  revert b c. induction a as [|x a IH]; intros [|y b] c Hl; try done; [by rewrite Z.mod_1_r|].
  cbn [add_loop le_value length]. rewrite IH by (simpl in Hl; lia). rewrite Z.shiftr_div_pow2 by lia.
  rewrite Nat2Z.inj_succ, Z.pow_succ_r, <-digit_mod by lia. change (2 ^ 8) with 256.
  replace (x + 256 * le_value a + (y + 256 * le_value b) + c)
    with (x + y + c + (le_value a + le_value b) * 256) by ring.
  rewrite Z.mod_add, Z.div_add by lia. do 3 f_equal. lia.
Qed.

Lemma sub_loop_value a b c :
  length a = length b → Forall byte_ok a → Forall byte_ok b → 0 ≤ c ≤ 1 →
  le_value (sub_loop a b c) = (le_value a - le_value b - c) `mod` 256 ^ Z.of_nat (length a).
Proof.
  intros Hl Ha. revert b c Hl. induction Ha as [|x a Hx Ha IH]; intros [|y b] c Hl Hb Hc; try done; [by rewrite Z.mod_1_r|].
  apply Forall_cons in Hb as [Hy Hb].
  assert ((if x - y - c <? 0 then 1 else 0) = - ((x - y - c) `div` 256)) as Hs.
  { destruct (Z.ltb_spec (x - y - c) 0).
    - rewrite <-(Z.div_unique (x - y - c) 256 (-1) (x - y - c + 256)); mach.
    - rewrite Z.div_small; mach. }
  cbn [sub_loop le_value length]. rewrite IH; [|simpl in Hl; lia|done|destruct (_ <? _); lia].
  rewrite Hs, Nat2Z.inj_succ, Z.pow_succ_r, <-digit_mod by lia.
  replace (x + 256 * le_value a - (y + 256 * le_value b) - c)
    with (x - y - c + (le_value a - le_value b) * 256) by ring.
  rewrite Z.mod_add, Z.div_add by lia. do 3 f_equal. lia.
Qed.

(** *** Multiplication by a limb *)

Definition B64 : Z := 2 ^ 64.

Definition limbs_value (l : list Z) : Z :=
  limb l 0 + B64 * (limb l 1 + B64 * (limb l 2 + B64 * limb l 3)).

Lemma be_value_limbs a : word_ok a → be_value a = limbs_value (limbs a).
Proof.
  intros [Hl _].
  assert (a = slice 0 8 a ++ slice 8 8 a ++ slice 16 8 a ++ slice 24 8 a) as Heq.
  { unfold slice. rewrite drop_0.
    rewrite <-(take_drop 8 a) at 1. f_equal. rewrite <-(take_drop 8 (drop 8 a)) at 1. f_equal.
    rewrite drop_drop, <-(take_drop 8 (drop (8 + 8) a)) at 1. f_equal.
    rewrite drop_drop. rewrite (take_ge (drop 24 a)) by (rewrite length_drop; lia). done. }
  rewrite Heq at 1. rewrite !be_value_app, !length_app, !length_slice by lia.
  unfold limbs_value, limbs, limb, B64. cbn [nth]. change (Z.of_nat (8 + (8 + 8))) with 24.
  change (Z.of_nat (8 + 8)) with 16. change (Z.of_nat 8) with 8. ring.
Qed.

Lemma limbs_ok a : word_ok a → Forall u64_ok (limbs a).
Proof.
  intros [Hl Ha].
  assert (∀ i, (i + 8 ≤ 32)%nat → u64_ok (be_value (slice i 8 a))) as H8.
  { intros i Hi. pose proof (be_value_bound (slice i 8 a)) as Hb. rewrite length_slice in Hb by lia.
    change (256 ^ Z.of_nat 8) with (2 ^ 64) in Hb. assert (Forall byte_ok (slice i 8 a)) as Hs by (by apply Forall_take, Forall_drop).
    specialize (Hb Hs). mach. }
  unfold limbs. repeat (constructor; [apply H8; lia|]). constructor.
Qed.

(** A turn with a zero limb changes nothing. *)
Lemma mul_step_zero al bl r0 r1 r2 r3 i j :
  u64_ok r0 → u64_ok r1 → u64_ok r2 → u64_ok r3 → limb al i * limb bl j = 0 →
  mul_step al bl [r0; r1; r2; r3] (i, j) = [r0; r1; r2; r3].
Proof.
  intros H0 H1 H2 H3 Hz. unfold mul_step. destruct (Nat.ltb_spec (i + j) 4); [|done].
  assert (u64_ok (limb [r0; r1; r2; r3] (i + j))) as Hk.
  { destruct (i + j)%nat as [|[|[|[|]]]]; done || lia. }
  rewrite Hz, Z.add_0_r. change (2 ^ 64 - 1) with (Z.ones 64). rewrite Z.land_ones, Z.shiftr_div_pow2 by lia.
  rewrite Z.mod_small, Z.div_small by mach.
  destruct (i + j)%nat as [|[|[|[|]]]]; try lia; cbn; rewrite ?add64_small by mach; by rewrite ?Z.add_0_r.
Qed.

(** A turn that multiplies into an untouched upper limb. *)
Definition mul_carry (r x y : Z) : Z * Z := ((r + x * y) `mod` B64, (r + x * y) `div` B64).

Lemma mul_carry_ok r x y :
  u64_ok r → u64_ok x → u64_ok y → u64_ok (mul_carry r x y).1 ∧ u64_ok (mul_carry r x y).2.
Proof.
  intros Hr Hx Hy. unfold mul_carry, B64. cbn [fst snd]. pose proof (Z.mod_pos_bound (r + x * y) (2 ^ 64)).
  split; [mach|]. split; [apply Z.div_pos; mach_nl|]. apply Z.lt_succ_r, Z.div_lt_upper_bound; mach_nl.
Qed.
(** A turn whose next limb is still zero hands its carry on. *)
Lemma mul_step_carry al bl r i j k :
  length r = 4%nat → (i + j)%nat = k → (k < 4)%nat → limb r (S k) = 0 →
  u64_ok (limb r k) → u64_ok (limb al i) → u64_ok (limb bl j) →
  mul_step al bl r (i, j) =
    <[S k := (mul_carry (limb r k) (limb al i) (limb bl j)).2]>
      (<[k := (mul_carry (limb r k) (limb al i) (limb bl j)).1]> r).
Proof.
  intros Hlen <- Hk Hz Hr Ha Hb. destruct (mul_carry_ok _ _ _ Hr Ha Hb) as [_ Hc]. unfold mul_step.
  destruct (Nat.ltb_spec (i + j) 4); [|lia]. change (2 ^ 64 - 1) with (Z.ones 64).
  rewrite Z.land_ones, Z.shiftr_div_pow2, Nat.add_1_r by lia. fold B64.
  fold (mul_carry (limb r (i + j)) (limb al i) (limb bl j)).1. fold (mul_carry (limb r (i + j)) (limb al i) (limb bl j)).2.
  destruct (Nat.ltb_spec (S (i + j)) 4).
  - f_equal. unfold limb at 1. rewrite nth_lookup, list_lookup_insert_ne, <-nth_lookup by lia. fold (limb r (S (i + j))).
    rewrite Hz. apply add64_small. by rewrite Z.add_0_l.
  - rewrite (list_insert_ge _ (S (i + j))); [done|]. rewrite length_insert. lia.
Qed.

(** The value of the limbs after the turns of one row. *)
Definition row_value (x y0 y1 y2 y3 : Z) : list Z :=
  let c0 := mul_carry 0 x y0 in
  let c1 := mul_carry c0.2 x y1 in
  let c2 := mul_carry c1.2 x y2 in
  let c3 := mul_carry c2.2 x y3 in
  [c0.1; c1.1; c2.1; c3.1].

Lemma row_value_spec x y0 y1 y2 y3 :
  limbs_value (row_value x y0 y1 y2 y3) = (x * (y0 + B64 * (y1 + B64 * (y2 + B64 * y3)))) `mod` 2 ^ 256.
Proof.
  unfold limbs_value, row_value, limb, mul_carry. cbn [nth fst snd].
  replace (2 ^ 256) with (B64 * (B64 * (B64 * B64))) by reflexivity.
  assert (0 < B64) as HB by reflexivity. generalize dependent B64. intros B HB.
  rewrite !(Z.rem_mul_r _ B) by nia.
  set (t0 := x * y0). set (t1 := x * y1). set (t2 := x * y2). set (t3 := x * y3).
  replace (x * (y0 + B * (y1 + B * (y2 + B * y3)))) with (t0 + (t1 + B * (t2 + B * t3)) * B) by (unfold t0, t1, t2, t3; ring).
  rewrite Z.mod_add, Z.div_add by lia.
  replace (t0 `div` B + (t1 + B * (t2 + B * t3))) with (t0 `div` B + t1 + (t2 + B * t3) * B) by ring.
  rewrite Z.mod_add, Z.div_add by lia.
  replace ((t0 `div` B + t1) `div` B + (t2 + B * t3)) with ((t0 `div` B + t1) `div` B + t2 + t3 * B) by ring.
  rewrite Z.mod_add, Z.div_add by lia. rewrite ?Z.add_0_l. ring.
Qed.
Lemma mul_order_eq : mul_order =
  [(0, 0); (0, 1); (0, 2); (0, 3); (1, 0); (1, 1); (1, 2); (1, 3);
   (2, 0); (2, 1); (2, 2); (2, 3); (3, 0); (3, 1); (3, 2); (3, 3)]%nat.
Proof. reflexivity. Qed.

(** One turn of a row on explicit limbs. *)
Ltac mul_turn i j k :=
  rewrite (mul_step_carry _ _ _ i j k) by (first [done|simpl; lia|mach]);
  cbn [limb nth insert list_insert alter list_alter];
  match goal with |- context [mul_carry ?r ?x ?y] =>
    let H := fresh in
    pose proof (mul_carry_ok r x y ltac:(first [done|mach]) ltac:(first [done|mach]) ltac:(first [done|mach])) as H;
    let c := fresh "c" in
    remember (mul_carry r x y) as c; destruct H
  end.

Ltac mul_idle := rewrite mul_step_zero by (first [done|mach|cbn [limb nth]; ring]).

Lemma mul_carry_comm r x y : mul_carry r x y = mul_carry r y x.
Proof. unfold mul_carry. by rewrite (Z.mul_comm x). Qed.

Lemma mul_row_l x y0 y1 y2 y3 :
  u64_ok x → u64_ok y0 → u64_ok y1 → u64_ok y2 → u64_ok y3 →
  foldl (mul_step [x; 0; 0; 0] [y0; y1; y2; y3]) [0; 0; 0; 0] mul_order = row_value x y0 y1 y2 y3.
Proof.
  intros. rewrite mul_order_eq. unfold row_value. cbn [foldl].
  mul_turn 0%nat 0%nat 0%nat. mul_turn 0%nat 1%nat 1%nat. mul_turn 0%nat 2%nat 2%nat. mul_turn 0%nat 3%nat 3%nat.
  do 12 mul_idle. done.
Qed.

Lemma mul_row_r x y0 y1 y2 y3 :
  u64_ok x → u64_ok y0 → u64_ok y1 → u64_ok y2 → u64_ok y3 →
  foldl (mul_step [y0; y1; y2; y3] [x; 0; 0; 0]) [0; 0; 0; 0] mul_order = row_value x y0 y1 y2 y3.
Proof.
  intros. rewrite mul_order_eq. unfold row_value. rewrite !(mul_carry_comm _ x). cbn [foldl].
  mul_turn 0%nat 0%nat 0%nat. do 3 mul_idle. mul_turn 1%nat 0%nat 1%nat. do 3 mul_idle.
  mul_turn 2%nat 0%nat 2%nat. do 3 mul_idle. mul_turn 3%nat 0%nat 3%nat. do 3 mul_idle. done.
Qed.
Lemma to_u64_mod a : word_ok a → to_u64 a = be_value a `mod` 2 ^ 64.
Proof.
  intros Ha. pose proof (to_u64_bound a Ha) as Hb. destruct Ha as [Hl _].
  rewrite <-(take_drop 24 a) at 2. rewrite be_value_app, length_drop, Hl. change (256 ^ Z.of_nat (32 - 24)) with (2 ^ 64).
  rewrite Z.add_comm, Z.mod_add by lia. symmetry. apply Z.mod_small. unfold to_u64 in *. mach.
Qed.

Lemma to_u64_small a : word_ok a → be_value a < 2 ^ 64 → to_u64 a = be_value a.
Proof.
  intros Ha Hs. rewrite to_u64_mod by done. apply Z.mod_small. destruct Ha as [_ Ha].
  pose proof (be_value_bound a Ha). lia.
Qed.

Lemma be_value_inj a b : word_ok a → word_ok b → be_value a = be_value b → a = b.
Proof.
  intros [Hl Ha] [Hl' Hb] Heq. unfold be_value in Heq.
  rewrite <-(rev_involutive a), <-(rev_involutive b). f_equal.
  rewrite <-(le_bytes_value (rev a)), <-(le_bytes_value (rev b)) by (by apply Forall_rev).
  by rewrite !length_rev, Hl, Hl', Heq.
Qed.

Lemma be_value_pad n l : be_value (replicate n 0 ++ l) = be_value l.
Proof.
  rewrite be_value_app. assert (be_value (replicate n 0) = 0) as ->; [|lia]. unfold be_value. induction n as [|n IH]; [done|].
  cbn [replicate rev]. rewrite le_value_app, IH. simpl. lia.
Qed.

Lemma from_u64_value n : u64_ok n → be_value (from_u64 n) = n.
Proof. intros. unfold from_u64. rewrite be_value_pad. apply be_value_bytes. change (256 ^ Z.of_nat 8) with (2 ^ 64). mach. Qed.

Lemma limb_u64 l k : Forall u64_ok l → u64_ok (limb l k).
Proof.
  intros Hl. unfold limb. destruct (nth_in_or_default k l 0) as [Hin| ->]; [|mach].
  rewrite Forall_forall in Hl. apply Hl. by apply list_elem_of_In.
Qed.

(** A product is the value of the limbs the loop leaves. *)
Lemma u256_mul_value a b r0 r1 r2 r3 :
  foldl (mul_step (limbs a) (limbs b)) [0; 0; 0; 0] mul_order = [r0; r1; r2; r3] →
  u64_ok r0 → u64_ok r1 → u64_ok r2 → u64_ok r3 → be_value (u256_mul a b) = limbs_value [r0; r1; r2; r3].
Proof.
  intros Hr H0 H1 H2 H3. unfold u256_mul. rewrite Hr. unfold limb. cbn [nth].
  rewrite !be_value_app, !length_app, !length_be_bytes, !be_value_bytes
    by (change (256 ^ Z.of_nat 8) with (2 ^ 64); mach).
  unfold limbs_value, limb, B64. cbn [nth]. change (Z.of_nat (8 + (8 + 8))) with 24.
  change (Z.of_nat (8 + 8)) with 16. change (Z.of_nat 8) with 8. ring.
Qed.

Lemma row_value_ok x y0 y1 y2 y3 :
  u64_ok x → u64_ok y0 → u64_ok y1 → u64_ok y2 → u64_ok y3 → Forall u64_ok (row_value x y0 y1 y2 y3).
Proof.
  intros. unfold row_value. pose proof (mul_carry_ok 0 x y0 ltac:(mach) ltac:(done) ltac:(done)) as [? ?].
  remember (mul_carry 0 x y0) as c0. pose proof (mul_carry_ok c0.2 x y1 ltac:(done) ltac:(done) ltac:(done)) as [? ?].
  remember (mul_carry c0.2 x y1) as c1. pose proof (mul_carry_ok c1.2 x y2 ltac:(done) ltac:(done) ltac:(done)) as [? ?].
  remember (mul_carry c1.2 x y2) as c2. pose proof (mul_carry_ok c2.2 x y3 ltac:(done) ltac:(done) ltac:(done)) as [? ?].
  repeat (constructor; [done|]). constructor.
Qed.

(** A word below 2^64 has one limb. *)
Lemma limbs_small a : word_ok a → be_value a < 2 ^ 64 → limbs a = [be_value a; 0; 0; 0].
Proof.
  intros Ha Hs. pose proof (be_value_limbs a Ha) as Hv. pose proof (limbs_ok a Ha) as Ho.
  destruct (limbs a) as [|x0 [|x1 [|x2 [|x3 [|]]]]] eqn:E; try done.
  repeat (apply Forall_cons in Ho as [? Ho]). unfold limbs_value, limb, B64 in Hv. cbn [nth] in Hv.
  mach_unfold. assert (x3 = 0 ∧ x2 = 0 ∧ x1 = 0) as (-> & -> & ->) by lia. f_equal. lia.
Qed.

Lemma u256_mul_exact a b :
  word_ok a → word_ok b → be_value a < 2 ^ 64 ∨ be_value b < 2 ^ 64 →
  be_value (u256_mul a b) = (be_value a * be_value b) `mod` 2 ^ 256.
Proof.
  intros Ha Hb Hs. pose proof (limbs_ok a Ha) as Hla. pose proof (limbs_ok b Hb) as Hlb.
  destruct Hs as [Hs|Hs].
  - rewrite (be_value_limbs b Hb). pose proof (limbs_small a Ha Hs) as Ea. rewrite Ea in Hla. apply Forall_cons in Hla as [? _].
    destruct (limbs b) as [|y0 [|y1 [|y2 [|y3 [|]]]]] eqn:Eb; try done.
    repeat (apply Forall_cons in Hlb as [? Hlb]).
    pose proof (row_value_ok (be_value a) y0 y1 y2 y3) as Hok. repeat (specialize (Hok ltac:(done))).
    repeat (apply Forall_cons in Hok as [? Hok]).
    erewrite u256_mul_value; [..|rewrite Ea, Eb; by apply mul_row_l|done|done|done|done].
    apply row_value_spec.
  - rewrite (be_value_limbs a Ha), Z.mul_comm. pose proof (limbs_small b Hb Hs) as Eb. rewrite Eb in Hlb. apply Forall_cons in Hlb as [? _].
    destruct (limbs a) as [|y0 [|y1 [|y2 [|y3 [|]]]]] eqn:Ea; try done.
    repeat (apply Forall_cons in Hla as [? Hla]).
    pose proof (row_value_ok (be_value b) y0 y1 y2 y3) as Hok. repeat (specialize (Hok ltac:(done))).
    repeat (apply Forall_cons in Hok as [? Hok]).
    erewrite u256_mul_value; [..|rewrite Ea, Eb; by apply mul_row_r|done|done|done|done].
    apply row_value_spec.
Qed.
Lemma u256_add_sub_exact a b :
  word_ok a → word_ok b →
  be_value (u256_add a b) = (be_value a + be_value b) `mod` 2 ^ 256 ∧
  be_value (u256_sub a b) = (be_value a - be_value b) `mod` 2 ^ 256.
Proof.
  intros [Hl Ha] [Hl' Hb]. unfold be_value, u256_add, u256_sub. rewrite !rev_involutive.
  rewrite add_loop_value, sub_loop_value; try (rewrite ?length_rev; lia); try (by apply Forall_rev).
  rewrite length_rev, Hl, Z.add_0_r, Z.sub_0_r. done.
Qed.

Lemma op_div_mod_exact a b :
  word_ok a → word_ok b → be_value a < 2 ^ 64 → be_value b < 2 ^ 64 → be_value b ≠ 0 →
  be_value (op_div a b) = be_value a `div` be_value b ∧ be_value (op_mod a b) = be_value a `mod` be_value b.
Proof.
  intros Ha Hb Sa Sb Hnz. unfold op_div, op_mod. rewrite !to_u64_small by done.
  pose proof (be_value_bound a (proj2 Ha)). pose proof (be_value_bound b (proj2 Hb)).
  destruct (Z.eqb_spec (be_value b) 0); [done|].
  pose proof (Z.mod_pos_bound (be_value a) (be_value b)). pose proof (Z.div_le_upper_bound (be_value a) (be_value b) (be_value a)).
  pose proof (Z.div_pos (be_value a) (be_value b)). rewrite !from_u64_value by mach_nl. done.
Qed.

(** The arithmetic of the interpreter on 256-bit words. ADD and SUB are exact
    modulo 2^256 on all words, and so is MUL when one factor is below 2^64. DIV
    and MOD are exact, and LT compares correctly, when both arguments are below
    2^64; EQ and ISZERO are right on all words. *)
Lemma evm_arithmetic a b :
  word_ok a → word_ok b →
  be_value (u256_add a b) = (be_value a + be_value b) `mod` 2 ^ 256 ∧
  be_value (u256_sub a b) = (be_value a - be_value b) `mod` 2 ^ 256 ∧
  (be_value a < 2 ^ 64 ∨ be_value b < 2 ^ 64 →
    be_value (u256_mul a b) = (be_value a * be_value b) `mod` 2 ^ 256) ∧
  (be_value a < 2 ^ 64 → be_value b < 2 ^ 64 →
    op_lt a b = bool_word (be_value a <? be_value b) ∧
    (be_value b ≠ 0 → be_value (op_div a b) = be_value a `div` be_value b ∧
                      be_value (op_mod a b) = be_value a `mod` be_value b)) ∧
  op_eq a b = bool_word (be_value a =? be_value b) ∧ op_iszero a = bool_word (be_value a =? 0).
Proof.
  intros Ha Hb. destruct (u256_add_sub_exact a b Ha Hb) as [Hadd Hsub].
  assert (∀ b, word_ok b → op_eq a b = bool_word (be_value a =? be_value b)) as Heq.
  { intros c Hc. unfold op_eq. f_equal. destruct (Z.eqb_spec (be_value a) (be_value c)) as [E|E].
    - apply bool_decide_eq_true. by apply be_value_inj.
    - apply bool_decide_eq_false. by intros ->. }
  split_and!; [done|done|by apply u256_mul_exact| |by apply Heq|apply (Heq zero_word), zero_word_ok].
  intros Sa Sb. split; [unfold op_lt; by rewrite !to_u64_small|]. by apply op_div_mod_exact.
Qed.

Lemma evm_arithmetic_witness :
  be_value (u256_sub (from_u64 2) (from_u64 3)) = 2 ^ 256 - 1 ∧
  be_value (u256_mul (replicate 32 255) (from_u64 3)) = 2 ^ 256 - 3.
Proof.
  assert (word_ok (replicate 32 255)) as Hff by (split; [done|apply Forall_replicate; mach]).
  split.
  - rewrite (proj1 (proj2 (evm_arithmetic (from_u64 2) (from_u64 3) (from_u64_ok 2) (from_u64_ok 3)))).
    vm_compute. reflexivity.
  - rewrite (proj1 (proj2 (proj2 (evm_arithmetic (replicate 32 255) (from_u64 3) Hff (from_u64_ok 3))))).
    + vm_compute. reflexivity.
    + right. vm_compute. reflexivity.
Defined.

(** ** Where the operations differ from 256-bit arithmetic *)

(** A carry that overflows the next limb is dropped: the square of 2^256 - 1 is
    not 1. *)
Lemma mul_drops_carry : be_value (u256_mul (replicate 32 255) (replicate 32 255)) ≠ (2 ^ 256 - 1) ^ 2 `mod` 2 ^ 256.
Proof. vm_compute. discriminate. Qed.

(** 2^64 divided by 2^64 is 0, and 2^64 is not greater than 1. *)
Lemma div_ignores_high_bits :
  let w := be_bytes 32 (2 ^ 64) in be_value (op_div w w) = 0 ∧ op_gt w (from_u64 1) = zero_word.
Proof. vm_compute. split; reflexivity. Qed.

(** The least 64-bit integer divided by -1 panics. *)
Lemma sdiv_panics : op_sdiv (from_u64 (2 ^ 63)) (replicate 32 255) = None ∧ op_smod (from_u64 (2 ^ 63)) (replicate 32 255) = None.
Proof. vm_compute. split; reflexivity. Qed.

(** SIGNEXTEND overwrites the low bytes in place of the high ones, EXP cuts the
    exponent to 63, and SAR takes the shift modulo 64. *)
Lemma signextend_exp_sar_wrong :
  be_value (op_signextend (from_u64 1) (from_u64 0x1234)) = 0x1200 ∧
  be_value (op_exp (from_u64 3) 64) = 3 ^ 63 `mod` 2 ^ 64 ∧
  be_value (op_sar (from_u64 64) (from_u64 5)) = 5.
Proof. vm_compute. split_and!; reflexivity. Qed.

(** The table of the pi step lists where each lane comes from and is used as
    where it goes: the hash of the letters hello is not the one of the unit test,
    which the other reading of the table gives. *)
Definition rho_pi_from (st : list Z) : list Z :=
  (λ i, let s := nth i PI 0%nat in rotate_left (limb st s) (limb ROT s)) <$> seq 0 25.

Definition keccak_from (data : bytes) : bytes :=
  let st := xor_byte (xor_byte (xor_block (replicate 25 0) 0 data) (length data) 0x01) (RATE - 1) 0x80 in
  let st := foldl (λ st rc, let st := keccak_chi (rho_pi_from (keccak_theta st)) in
                            <[0%nat := Z.lxor (limb st 0) rc]> st) st RC in
  le_bytes 8 (limb st 0) ++ le_bytes 8 (limb st 1) ++ le_bytes 8 (limb st 2) ++ le_bytes 8 (limb st 3).

Lemma keccak_unit_test_fails :
  let expected := be_bytes 32 0x1c8aff950685c2ed4bc3174f3472287b56d9517b9c948127319a09a7a36deac8 in
  keccak256 [104; 101; 108; 108; 111] ≠ expected ∧ keccak_from [104; 101; 108; 108; 111] = expected.
Proof. split; [vm_compute; discriminate|vm_compute; reflexivity]. Qed.
