(* ===== verification/Evm.v ===== *)
(** * The EVM interpreter ([src/src/blockchain/revm_port.rs]).

    The state database with its cache, uncommitted changes and snapshots; the
    virtual machine, one definition per group of opcodes, over a small monad with
    the ways a turn of the interpreter's loop can end; and the executor of
    transactions. Words and their arithmetic are in [EvmWords].

    The accounts on disk are files of IONAFS, here the table from paths to
    contents that [IonaFsProofs] shows the file system to be; opening and flushing
    the page file [db] does not touch them. The stack of the machine is a list
    with its top first, and so are the snapshots. An error text ([to_string]) is
    the error itself. Some of the file does not type-check as it stands: the name
    [EvmResult] is used for a result type and for a record ([ExecResult] here),
    [transact] uses the sender's account after moving it, read as a copy, and
    takes apart a record as a triple. *)

From Stdlib Require Import ZArith Lia Bool.
From stdpp Require Import base gmap sets numbers list.
From S2P Require Import Prelude Types EvmWords.

Local Open Scope Z_scope.

Abbreviation addr := (list Z) (only parsing).

(** ** Errors and configuration *)

Inductive EvmError :=
| OutOfGas (limit needed : Z)
| StackOverflow (max : Z)
| StackUnderflow
| InvalidJumpDest (dest : Z)
| CodeTooLarge (size max : Z)
| InsufficientBalance (need have : Z)
| Revert (data : bytes)
| Halted (reason : bytes)
| InvalidOpcode (op : Z)
| StaticCallViolation
| AccountNotFound
| EvmIo (s : bytes)
| ConfigError (field : nat)
| EvmInternal (s : bytes).

Record EvmConfig := mkEvmConfig {
  cfg_gas_limit : Z;
  intrinsic_gas : Z;
  gas_per_zero_byte : Z;
  gas_per_nonzero_byte : Z;
  max_stack_depth : Z;
  max_code_size : Z;
  enable_access_list : bool;
  enable_refunds : bool;
  enable_push0 : bool;
  trace_opcodes : bool;
  collect_metrics : bool;
}.

Definition EvmConfig_default : EvmConfig :=
  mkEvmConfig 30000000 21000 4 16 1024 24576 true true true false true.

(** The error names the field that is zero, in the order of the checks. *)
Definition EvmConfig_validate (c : EvmConfig) : result unit EvmError :=
  if cfg_gas_limit c =? 0 then Err (ConfigError 0)
  else if intrinsic_gas c =? 0 then Err (ConfigError 1)
  else if max_stack_depth c =? 0 then Err (ConfigError 2)
  else if max_code_size c =? 0 then Err (ConfigError 3)
  else Ok tt.

Record EvmMetrics := mkEvmMetrics {
  total_txs : Z;
  successful_txs : Z;
  failed_txs : Z;
  total_gas_used : Z;
  total_gas_refunded : Z;
  opcode_counts : gmap Z Z;
}.

#[export] Instance eta_EvmMetrics : Settable EvmMetrics :=
  λ m, mkEvmMetrics (total_txs m) (successful_txs m) (failed_txs m) (total_gas_used m)
         (total_gas_refunded m) (opcode_counts m).

Definition EvmMetrics_default : EvmMetrics := mkEvmMetrics 0 0 0 0 0 ∅.

Definition record_tx (success : bool) (gas_used gas_refunded : Z) (m : EvmMetrics) : EvmMetrics :=
  let m := m <| total_txs := add64 (total_txs m) 1 |> in
  let m := if success then m <| successful_txs := add64 (successful_txs m) 1 |>
           else m <| failed_txs := add64 (failed_txs m) 1 |> in
  m <| total_gas_used := add64 (total_gas_used m) gas_used |>
    <| total_gas_refunded := add64 (total_gas_refunded m) gas_refunded |>.

(** The counters of the array that are not in the map are zero. *)
Definition record_opcode (op : Z) (m : EvmMetrics) : EvmMetrics :=
  m <| opcode_counts := <[op := add64 (default 0 (opcode_counts m !! op)) 1]> (opcode_counts m) |>.

(** ** Accounts and the state database *)

Record Account := mkAccount {
  acc_balance : Z;
  acc_nonce : Z;
  acc_code : bytes;
  acc_storage : gmap word word;
}.

#[export] Instance eta_Account : Settable Account :=
  λ a, mkAccount (acc_balance a) (acc_nonce a) (acc_code a) (acc_storage a).

Definition Account_default : Account := mkAccount 0 0 [] ∅.

Record EvmLog := mkEvmLog {
  log_address : addr;
  log_topics : list word;
  log_data : bytes;
}.

(** [dirty_keys] of a snapshot is written and never read. *)
Record StateSnapshot := mkStateSnapshot {
  snap_accounts : gmap addr Account;
  snap_dirty_keys : list addr;
}.

Record EvmStateDb := mkEvmStateDb {
  db_config : EvmConfig;
  accounts : gmap addr Account;
  dirty : gmap addr Account;
  db : bool;
  snapshots : list StateSnapshot;
  db_static : bool;
  files : gmap bytes bytes;
}.

#[export] Instance eta_EvmStateDb : Settable EvmStateDb :=
  λ s, mkEvmStateDb (db_config s) (accounts s) (dirty s) (db s) (snapshots s) (db_static s) (files s).

(** [db_name] says whether there is a database file. *)
Definition EvmStateDb_new (db_name : bool) (c : EvmConfig) (files : gmap bytes bytes) : EvmStateDb :=
  mkEvmStateDb c ∅ ∅ db_name [] false files.

Definition hex_digit (d : Z) : Z := if d <? 10 then 48 + d else 87 + d.

Definition hex (l : bytes) : bytes := l ≫= λ b, [hex_digit (b `div` 16); hex_digit (b `mod` 16)].

(** [/evm/acct/] and the address. *)
Definition acct_path (a : addr) : bytes := [47; 101; 118; 109; 47; 97; 99; 99; 116; 47] ++ hex a.

(** An account as it is read from its file. *)
Definition decode_account (data : bytes) : option Account :=
  if (32 <=? length data)%nat
  then Some (mkAccount (le_value (slice 0 16 data)) (le_value (slice 16 8 data)) (drop 32 data) ∅)
  else None.

Definition encode_account (acc : Account) : bytes :=
  le_bytes 16 (acc_balance acc) ++ le_bytes 8 (acc_nonce acc) ++ replicate 8 0 ++ acc_code acc.

Definition get_account (a : addr) (s : EvmStateDb) : Account * EvmStateDb :=
  match dirty s !! a with
  | Some acc => (acc, s)
  | None =>
    match accounts s !! a with
    | Some acc => (acc, s)
    | None =>
      if db s then
        match files s !! acct_path a ≫= decode_account with
        | Some acc => (acc, s <| accounts := <[a := acc]> (accounts s) |>)
        | None => (Account_default, s)
        end
      else (Account_default, s)
    end
  end.

Definition set_account (a : addr) (acc : Account) (s : EvmStateDb) : EvmStateDb :=
  if db_static s then s else s <| dirty := <[a := acc]> (dirty s) |>.

Definition get_storage (a : addr) (slot : word) (s : EvmStateDb) : word * EvmStateDb :=
  let '(acc, s) := get_account a s in (default zero_word (acc_storage acc !! slot), s).

Definition set_storage (a : addr) (slot value : word) (s : EvmStateDb) : EvmStateDb :=
  if db_static s then s
  else
    let '(acc, s) := get_account a s in
    let st := if bool_decide (value = zero_word) then delete slot (acc_storage acc)
              else <[slot := value]> (acc_storage acc) in
    set_account a (acc <| acc_storage := st |>) s.

(** [iter().position(|&b| b != 0).unwrap_or(7)] of eight bytes. *)
Fixpoint leading_zeros_upto (n : nat) (l : bytes) : nat :=
  match n, l with
  | S n', b :: l' => if b =? 0 then S (leading_zeros_upto n' l') else O
  | _, _ => O
  end.

Definition compute_create_addr (sender : addr) (nonce : Z) : addr :=
  let nonce_rlp :=
    if nonce =? 0 then [0x80]
    else if nonce <? 0x80 then [nonce]
    else let nb := be_bytes 8 nonce in
         let start := leading_zeros_upto 7 nb in
         (0x80 + (8 - Z.of_nat start)) :: drop start nb in
  let rlp := 0x94 :: sender ++ nonce_rlp in
  let total := Z.of_nat (length rlp) in
  let head :=
    if total <? 56 then [0xc0 + total]
    else let lb := be_bytes 8 total in
         let start := leading_zeros_upto 7 lb in
         ((0xf7 + (8 - Z.of_nat start)) `mod` 256) :: drop start lb in
  drop 12 (keccak256 (head ++ rlp)).

Definition snapshot (s : EvmStateDb) : EvmStateDb :=
  s <| snapshots := mkStateSnapshot (dirty s) (btree_iter (dirty s)).*1 :: snapshots s |>.

Definition revert (s : EvmStateDb) : EvmStateDb :=
  match snapshots s with
  | [] => s
  | snap :: rest => s <| snapshots := rest |> <| dirty := snap_accounts snap |>
  end.

Definition commit (s : EvmStateDb) : EvmStateDb :=
  let s := s <| accounts := dirty s ∪ accounts s |> in
  let s := if db s
           then s <| files := foldl (λ f e, <[acct_path e.1 := encode_account e.2]> f) (files s) (btree_iter (dirty s)) |>
           else s in
  s <| dirty := ∅ |> <| snapshots := [] |>.

Definition enter_static (s : EvmStateDb) : EvmStateDb := s <| db_static := true |>.
Definition exit_static (s : EvmStateDb) : EvmStateDb := s <| db_static := false |>.

Definition balance (a : addr) (s : EvmStateDb) : Z * EvmStateDb :=
  let '(acc, s) := get_account a s in (acc_balance acc, s).

(** Balances are 128 bits wide. *)
Definition wrap128 (z : Z) : Z := z `mod` 2 ^ 128.

Definition transfer (from to : addr) (value : Z) (s : EvmStateDb) : result unit EvmError * EvmStateDb :=
  if value =? 0 then (Ok tt, s)
  else
    let '(from_acc, s) := get_account from s in
    if acc_balance from_acc <? value
    then (Err (InsufficientBalance value (acc_balance from_acc)), s)
    else
      let s := set_account from (from_acc <| acc_balance := wrap128 (acc_balance from_acc - value) |>) s in
      let '(to_acc, s) := get_account to s in
      let s := set_account to (to_acc <| acc_balance := wrap128 (acc_balance to_acc + value) |>) s in
      (Ok tt, s).

(** ** The machine *)

Record Vm := mkVm {
  config : EvmConfig;
  state : EvmStateDb;
  code : bytes;
  pc : Z;
  stack : list word;
  memory : bytes;
  gas : Z;
  gas_limit : Z;
  caller : addr;
  origin : addr;
  address : addr;
  value : Z;
  calldata : bytes;
  output : bytes;
  logs : list EvmLog;
  stopped : bool;
  reverted : bool;
  returndata_size : Z;
  refund : Z;
  static_call : bool;
  metrics : EvmMetrics;
}.

#[export] Instance eta_Vm : Settable Vm :=
  λ v, mkVm (config v) (state v) (code v) (pc v) (stack v) (memory v) (gas v) (gas_limit v) (caller v)
         (origin v) (address v) (value v) (calldata v) (output v) (logs v) (stopped v) (reverted v)
         (returndata_size v) (refund v) (static_call v) (metrics v).

Definition Vm_new (c : EvmConfig) (st : EvmStateDb) (code : bytes) (caller address : addr) (value : Z)
    (calldata : bytes) (gas_limit : Z) (m : EvmMetrics) (static : bool) : Vm :=
  mkVm c st code 0 [] [] gas_limit gas_limit caller caller address value calldata [] [] false false 0 0 static m.

(** How a piece of the loop's body ends: it goes on with a value, leaves the
    loop ([break]), returns an error ([return Err], [?]), or panics. [NoFuel]
    stands for a sub-call that the bound on nesting cut off; it never happens
    (theorem [evm_terminates]). *)
Inductive outcome (A : Type) : Type :=
| Next (a : A) (v : Vm)
| Break (v : Vm)
| Raise (e : EvmError) (v : Vm)
| Panic
| NoFuel.
Arguments Next {A} a v.
Arguments Break {A} v.
Arguments Raise {A} e v.
Arguments Panic {A}.
Arguments NoFuel {A}.

Definition VM (A : Type) : Type := Vm → outcome A.

#[export] Instance VM_ret : MRet VM := λ A a v, Next a v.
#[export] Instance VM_bind : MBind VM := λ A B f m v,
  match m v with
  | Next a v' => f a v'
  | Break v' => Break v'
  | Raise e v' => Raise e v'
  | Panic => Panic
  | NoFuel => NoFuel
  end.

Definition get_vm : VM Vm := λ v, Next v v.
Definition modify (f : Vm → Vm) : VM unit := λ v, Next tt (f v).
Definition raise {A} (e : EvmError) : VM A := λ v, Raise e v.
Definition or_panic {A} (o : option A) : VM A := λ v, match o with Some a => Next a v | None => Panic end.

(** A call of the state database. *)
Definition on_state {A} (f : EvmStateDb → A * EvmStateDb) : VM A :=
  λ v, let '(a, s) := f (state v) in Next a (v <| state := s |>).

(** The question mark on a result of the state database. *)
Definition try_state (f : EvmStateDb → result unit EvmError * EvmStateDb) : VM unit :=
  r ← on_state f; match r with Ok _ => mret tt | Err e => raise e end.

(** [if !self.use_gas(n) { break; }]. *)
Definition use_gas (n : Z) : VM unit := λ v,
  if gas v <? n then Break (v <| reverted := true |>) else Next tt (v <| gas := gas v - n |>).

Definition push (w : word) : VM unit := λ v,
  Next tt (if max_stack_depth (config v) <=? Z.of_nat (length (stack v))
           then v <| reverted := true |> else v <| stack := w :: stack v |>).

Definition pop : VM word := λ v,
  match stack v with
  | [] => Next zero_word v
  | w :: s => Next w (v <| stack := s |>)
  end.

(** [Self::to_u64(&self.pop()) as usize]. *)
Definition pop_u64 : VM Z := w ← pop; mret (to_u64 w).

(** ** Memory *)

(** Whether the kernel's heap can provide a vector of [n] bytes. A vector is at
    most [isize::MAX] bytes. *)
Class Heap := {
  alloc_ok : Z → bool;
  alloc_limit n : 2 ^ 63 ≤ n → alloc_ok n = false;
}.

Section machine.
Context `{Heap}.

(** [Vec::resize]; growing beyond what the heap has panics. *)
Definition mem_expand (offset size : Z) : VM unit := λ v,
  if size =? 0 then Next tt v
  else
    let need := add64 offset size in
    let len := Z.of_nat (length (memory v)) in
    if len <? need then
      let n := mul64 (add64 need 31 `div` 32) 32 in
      if (n <=? len) || alloc_ok n
      then Next tt (v <| memory := resize (Z.to_nat n) 0 (memory v) |>)
      else Panic
    else Next tt v.

(** [memory[off..off + len]], which panics unless the range is inside. *)
Definition mem_read (off len : Z) : VM bytes := λ v,
  let end_ := add64 off len in
  if (off <=? end_) && (end_ <=? Z.of_nat (length (memory v)))
  then Next (slice (Z.to_nat off) (Z.to_nat len) (memory v)) v else Panic.

(** [memory[off..off + data.len()].copy_from_slice(data)]. *)
Definition mem_write (off : Z) (data : bytes) : VM unit := λ v,
  let end_ := add64 off (Z.of_nat (length data)) in
  if (off <=? end_) && (end_ <=? Z.of_nat (length (memory v)))
  then Next tt (v <| memory := take (Z.to_nat off) (memory v) ++ data ++ drop (Z.to_nat end_) (memory v) |>)
  else Panic.

Definition mload (offset : Z) : VM word := mem_expand offset 32;; mem_read offset 32.

Definition mstore (offset : Z) (val : word) : VM unit := mem_expand offset 32;; mem_write offset val.

(** [memory[offset] = val]. *)
Definition mstore8 (offset val : Z) : VM unit :=
  mem_expand offset 1;;
  (λ v, if offset <? Z.of_nat (length (memory v))
        then Next tt (v <| memory := <[Z.to_nat offset := val]> (memory v) |>) else Panic) : VM unit.

(** The range is made to exist and read. *)
Definition mem_take (off len : Z) : VM bytes := mem_expand off len;; mem_read off len.

(** The common part of the four copying opcodes. *)
Definition copy_in (src : bytes) (dest_off src_off len : Z) : VM unit :=
  mem_expand dest_off len;;
  let copy_len := Z.min len (sat_sub (Z.of_nat (length src)) src_off) in
  if 0 <? copy_len then mem_write dest_off (slice (Z.to_nat src_off) (Z.to_nat copy_len) src) else mret tt.

Definition word_cost (len : Z) : Z := add64 len 31 `div` 32.

(** ** Opcodes *)

Inductive arith_op := ADD | MUL | SUB | DIV | SDIV | MOD | SMOD | ADDMOD | MULMOD | EXP | SIGNEXTEND.
Inductive compare_op := LT | GT | SLT | SGT | EQ | ISZERO.
Inductive bit_op := AND | OR | XOR | NOT | BYTE | SHL | SHR | SAR.
Inductive env_op :=
| ADDRESS | BALANCE | ORIGIN | CALLER | CALLVALUE | CALLDATALOAD | CALLDATASIZE | CALLDATACOPY | CODESIZE
| CODECOPY | GASPRICE | EXTCODESIZE | EXTCODECOPY | RETURNDATASIZE | RETURNDATACOPY | EXTCODEHASH.
Inductive block_op :=
| BLOCKHASH | COINBASE | TIMESTAMP | NUMBER | DIFFICULTY | GASLIMIT | CHAINID | SELFBALANCE | BASEFEE.
Inductive data_op := POP | MLOAD | MSTORE | MSTORE8 | SLOAD | SSTORE.
Inductive info_op := PC | MSIZE | GAS | JUMPDEST | PUSH0.
Inductive call_kind := CALL | CALLCODE | DELEGATECALL.

Inductive opcode :=
| STOP
| Arith (o : arith_op)
| Compare (o : compare_op)
| Bits (o : bit_op)
| SHA3
| Env (o : env_op)
| Block (o : block_op)
| Data (o : data_op)
| Info (o : info_op)
| JUMP
| JUMPI
| PUSH (n : nat)
| DUP (n : nat)
| SWAP (n : nat)
| LOG (n : nat)
| CREATE
| CREATE2
| Call (k : call_kind)
| RETURN
| REVERT
| SELFDESTRUCT
| Invalid (op : Z).

(** The patterns of the interpreter's match. *)
Definition decode (op : Z) : opcode :=
  match op with
  | 0x00 => STOP
  | 0x01 => Arith ADD | 0x02 => Arith MUL | 0x03 => Arith SUB | 0x04 => Arith DIV
  | 0x05 => Arith SDIV | 0x06 => Arith MOD | 0x07 => Arith SMOD | 0x08 => Arith ADDMOD
  | 0x09 => Arith MULMOD | 0x0a => Arith EXP | 0x0b => Arith SIGNEXTEND
  | 0x10 => Compare LT | 0x11 => Compare GT | 0x12 => Compare SLT | 0x13 => Compare SGT
  | 0x14 => Compare EQ | 0x15 => Compare ISZERO
  | 0x16 => Bits AND | 0x17 => Bits OR | 0x18 => Bits XOR | 0x19 => Bits NOT
  | 0x1a => Bits BYTE | 0x1b => Bits SHL | 0x1c => Bits SHR | 0x1d => Bits SAR
  | 0x20 => SHA3
  | 0x30 => Env ADDRESS | 0x31 => Env BALANCE | 0x32 => Env ORIGIN | 0x33 => Env CALLER
  | 0x34 => Env CALLVALUE | 0x35 => Env CALLDATALOAD | 0x36 => Env CALLDATASIZE
  | 0x37 => Env CALLDATACOPY | 0x38 => Env CODESIZE | 0x39 => Env CODECOPY | 0x3a => Env GASPRICE
  | 0x3b => Env EXTCODESIZE | 0x3c => Env EXTCODECOPY | 0x3d => Env RETURNDATASIZE
  | 0x3e => Env RETURNDATACOPY | 0x3f => Env EXTCODEHASH
  | 0x40 => Block BLOCKHASH | 0x41 => Block COINBASE | 0x42 => Block TIMESTAMP | 0x43 => Block NUMBER
  | 0x44 => Block DIFFICULTY | 0x45 => Block GASLIMIT | 0x46 => Block CHAINID
  | 0x47 => Block SELFBALANCE | 0x48 => Block BASEFEE
  | 0x50 => Data POP | 0x51 => Data MLOAD | 0x52 => Data MSTORE | 0x53 => Data MSTORE8
  | 0x54 => Data SLOAD | 0x55 => Data SSTORE
  | 0x56 => JUMP | 0x57 => JUMPI
  | 0x58 => Info PC | 0x59 => Info MSIZE | 0x5a => Info GAS | 0x5b => Info JUMPDEST | 0x5c => Info PUSH0
  | 0xf0 => CREATE | 0xf1 => Call CALL | 0xf2 => Call CALLCODE | 0xf3 => RETURN
  | 0xf4 => Call DELEGATECALL | 0xf5 => CREATE2 | 0xf7 => SELFDESTRUCT | 0xfd => REVERT
  | _ =>
    if (0x60 <=? op) && (op <=? 0x7f) then PUSH (Z.to_nat (op - 0x5f))
    else if (0x80 <=? op) && (op <=? 0x8f) then DUP (Z.to_nat (op - 0x7f))
    else if (0x90 <=? op) && (op <=? 0x9f) then SWAP (Z.to_nat (op - 0x8f))
    else if (0xa0 <=? op) && (op <=? 0xa4) then LOG (Z.to_nat (op - 0xa0))
    else Invalid op
  end.

(** Two operands, a result, a price. *)
Definition binop (f : word → word → word) (cost : Z) : VM unit :=
  a ← pop; b ← pop; push (f a b);; use_gas cost.

Definition binop_panic (f : word → word → option word) (cost : Z) : VM unit :=
  a ← pop; b ← pop; w ← or_panic (f a b); push w;; use_gas cost.

Definition ternop (f : word → word → word → word) (cost : Z) : VM unit :=
  a ← pop; b ← pop; n ← pop; push (f a b n);; use_gas cost.

(** A value read off the machine. *)
Definition push_of (f : Vm → word) (cost : Z) : VM unit :=
  v ← get_vm; push (f v);; use_gas cost.

Definition exec_arith (o : arith_op) : VM unit :=
  match o with
  | ADD => binop u256_add 3
  | MUL => binop u256_mul 5
  | SUB => binop u256_sub 3
  | DIV => binop op_div 5
  | SDIV => binop_panic op_sdiv 5
  | MOD => binop op_mod 5
  | SMOD => binop_panic op_smod 5
  | ADDMOD => ternop op_addmod 8
  | MULMOD => ternop op_mulmod 8
  | EXP =>
    base ← pop; exp ← pop; let e := to_u64 exp in
    use_gas (exp_cost e);; push (op_exp base e)
  | SIGNEXTEND => binop op_signextend 5
  end.

Definition exec_compare (o : compare_op) : VM unit :=
  match o with
  | LT => binop op_lt 3
  | GT => binop op_gt 3
  | SLT => binop op_slt 3
  | SGT => binop op_sgt 3
  | EQ => binop op_eq 3
  | ISZERO => a ← pop; push (op_iszero a);; use_gas 3
  end.

Definition exec_bits (o : bit_op) : VM unit :=
  match o with
  | AND => binop op_and 3
  | OR => binop op_or 3
  | XOR => binop op_xor 3
  | NOT => a ← pop; push (op_not a);; use_gas 3
  | BYTE => binop op_byte 3
  | SHL => binop op_shl 3
  | SHR => binop op_shr 3
  | SAR => binop op_sar 3
  end.

Definition exec_sha3 : VM unit :=
  off ← pop_u64; len ← pop_u64;
  data ← mem_take off len;
  push (keccak256 data);; use_gas (add64 30 (mul64 6 (word_cost len))).

(** The 32 bytes of the data from [idx] on, with zeros after its end. *)
Definition calldata_word (data : bytes) (idx : Z) : word :=
  (λ i, let j := add64 idx (Z.of_nat i) in
        if j <? Z.of_nat (length data) then nth (Z.to_nat j) data 0 else 0) <$> seq 0 32.

Definition pop_copy (src : VM bytes) (base : Z) : VM unit :=
  dest_off ← pop_u64; src_off ← pop_u64; len ← pop_u64;
  data ← src;
  copy_in data dest_off src_off len;; use_gas (add64 base (mul64 3 (word_cost len))).

Definition exec_env (o : env_op) : VM unit :=
  match o with
  | ADDRESS => push_of (λ v, from_addr (address v)) 2
  | BALANCE =>
    a ← pop; bal ← on_state (balance (to_addr a)); push (from_u128 bal);; use_gas 100
  | ORIGIN => push_of (λ v, from_addr (origin v)) 2
  | CALLER => push_of (λ v, from_addr (caller v)) 2
  | CALLVALUE => push_of (λ v, from_u128 (value v)) 2
  | CALLDATALOAD =>
    idx ← pop_u64; push_of (λ v, calldata_word (calldata v) idx) 3
  | CALLDATASIZE => push_of (λ v, from_u64 (Z.of_nat (length (calldata v)))) 2
  | CALLDATACOPY => pop_copy (v ← get_vm; mret (calldata v)) 3
  | CODESIZE => push_of (λ v, from_u64 (Z.of_nat (length (code v)))) 2
  | CODECOPY => pop_copy (v ← get_vm; mret (code v)) 3
  | GASPRICE => push_of (λ _, from_u64 1) 2
  | EXTCODESIZE =>
    a ← pop; acc ← on_state (get_account (to_addr a));
    push (from_u64 (Z.of_nat (length (acc_code acc))));; use_gas 100
  | EXTCODECOPY => a ← pop; pop_copy (acc ← on_state (get_account (to_addr a)); mret (acc_code acc)) 100
  | RETURNDATASIZE => push_of (λ v, from_u64 (returndata_size v)) 2
  | RETURNDATACOPY => pop_copy (v ← get_vm; mret (output v)) 3
  | EXTCODEHASH =>
    a ← pop; acc ← on_state (get_account (to_addr a));
    push (match acc_code acc with [] => zero_word | c => keccak256 c end);; use_gas 100
  end.

Definition exec_block (o : block_op) : VM unit :=
  match o with
  | BLOCKHASH => _ ← pop; push zero_word;; use_gas 20
  | COINBASE => push_of (λ _, zero_word) 2
  | TIMESTAMP => push_of (λ _, from_u64 0) 2
  | NUMBER => push_of (λ _, from_u64 0) 2
  | DIFFICULTY => push_of (λ _, zero_word) 2
  | GASLIMIT => push_of (λ v, from_u64 (gas_limit v)) 2
  | CHAINID => push_of (λ _, from_u64 1) 2
  | SELFBALANCE =>
    v ← get_vm; bal ← on_state (balance (address v)); push (from_u128 bal);; use_gas 5
  | BASEFEE => push_of (λ _, from_u64 1) 2
  end.

(** The refund is added after the price has been paid. *)
Definition exec_sstore : VM unit :=
  slot ← pop; val ← pop; v ← get_vm;
  if static_call v then raise StaticCallViolation
  else
    current ← on_state (get_storage (address v) slot);
    on_state (λ s, (tt, set_storage (address v) slot val s));;
    use_gas 100;;
    if bool_decide (current = zero_word) && negb (bool_decide (val = zero_word))
    then modify (λ v, v <| refund := add64 (refund v) 4800 |>) else mret tt.

Definition exec_data (o : data_op) : VM unit :=
  match o with
  | POP => _ ← pop; use_gas 2
  | MLOAD => off ← pop_u64; val ← mload off; push val;; use_gas (add64 3 (mul64 (off `div` 32 + 1) 3))
  | MSTORE => off ← pop_u64; val ← pop; mstore off val;; use_gas 3
  | MSTORE8 => off ← pop_u64; val ← pop; mstore8 off (nth 31 val 0);; use_gas 3
  | SLOAD => slot ← pop; v ← get_vm; val ← on_state (get_storage (address v) slot); push val;; use_gas 100
  | SSTORE => exec_sstore
  end.

Definition exec_info (o : info_op) : VM unit :=
  match o with
  | PC => push_of (λ v, from_u64 (pc v - 1)) 2
  | MSIZE => push_of (λ v, from_u64 (Z.of_nat (length (memory v)))) 2
  | GAS => push_of (λ v, from_u64 (gas v)) 2
  | JUMPDEST => use_gas 1
  | PUSH0 => v ← get_vm; if enable_push0 (config v) then push zero_word;; use_gas 2 else raise (InvalidOpcode 0x5c)
  end.

(** Any byte 0x5B of the code is a destination. *)
Definition jump_to (dest : Z) : VM unit :=
  v ← get_vm;
  if (dest <? Z.of_nat (length (code v))) && (nth (Z.to_nat dest) (code v) 0 =? 0x5B)
  then modify (λ v, v <| pc := dest + 1 |>) else raise (InvalidJumpDest dest).

Definition exec_jump : VM unit := dest ← pop_u64; jump_to dest;; use_gas 8.

Definition exec_jumpi : VM unit :=
  dest ← pop_u64; cond ← pop;
  (if bool_decide (cond = zero_word) then mret tt else jump_to dest);; use_gas 10.

(** The [n] bytes after the opcode, zeros after the end of the code. *)
Definition immediate (n : nat) (pos : Z) (code : bytes) : word :=
  replicate (32 - n) 0 ++
  ((λ i, let j := add64 pos (Z.of_nat i) in
         if j <? Z.of_nat (length code) then nth (Z.to_nat j) code 0 else 0) <$> seq 0 n).

Definition exec_push (n : nat) : VM unit :=
  v ← get_vm;
  modify (λ v, v <| pc := add64 (pc v) (Z.of_nat n) |>);;
  push (immediate n (pc v) (code v));; use_gas 3.

Definition exec_dup (n : nat) : VM unit :=
  v ← get_vm;
  (if (n <=? length (stack v))%nat then push (nth (n - 1) (stack v) zero_word) else mret tt);; use_gas 3.

(** Swapping the top and the entry [n] below. *)
Definition swap_top (n : nat) (s : list word) : list word :=
  if (n <? length s)%nat then <[n := nth 0 s zero_word]> (<[0%nat := nth n s zero_word]> s) else s.

Definition exec_swap (n : nat) : VM unit :=
  modify (λ v, v <| stack := swap_top n (stack v) |>);; use_gas 3.

Fixpoint pop_n (n : nat) : VM (list word) :=
  match n with O => mret [] | S n' => w ← pop; ws ← pop_n n'; mret (w :: ws) end.

Definition exec_log (n_topics : nat) : VM unit :=
  v ← get_vm;
  if static_call v then raise StaticCallViolation
  else
    off ← pop_u64; len ← pop_u64; topics ← pop_n n_topics;
    data ← mem_take off len;
    modify (λ v, v <| logs := logs v ++ [mkEvmLog (address v) topics data] |>);;
    use_gas (add64 (375 + 375 * Z.of_nat n_topics) (mul64 8 len)).

(** ** Sub-calls
    The interpreter calls itself on a new machine; [sub] stands for that call. A
    new machine gets an empty state database and shares the metrics. *)

Inductive run_result :=
| Returned (r : result unit EvmError) (v : Vm)
| Panicked
| OutOfFuel.

Section sub.
Context (sub : Vm → run_result).

(** Runs the new machine; whether it succeeded, and the machine at its end. *)
Definition run_sub (mk : EvmStateDb → EvmMetrics → Vm) : VM (bool * Vm) := λ v,
  match sub (mk (EvmStateDb_new false (config v) ∅) (metrics v)) with
  | Returned r s => Next (is_ok r && negb (reverted s), s) (v <| metrics := metrics s |>)
  | Panicked => Panic
  | OutOfFuel => NoFuel
  end.

(** Gas handed to a sub-call is taken from the caller's at once. *)
Definition spend_for_sub (sub_gas : Z → Z) : VM Z := λ v,
  let g := sub_gas (mul64 (gas v) 63 `div` 64) in Next g (v <| gas := sub64 (gas v) g |>).

Definition return_gas (s : Vm) : VM unit := modify (λ v, v <| gas := add64 (gas v) (gas s) |>).
Definition take_logs (s : Vm) : VM unit := modify (λ v, v <| logs := logs v ++ logs s |>).

(** Transfer, execution of the code and creation of the account, common to
    CREATE and CREATE2. *)
Definition create_at (contract_addr : addr) (value : Z) (init_code : bytes) : VM unit :=
  v ← get_vm;
  (if 0 <? value then try_state (transfer (caller v) contract_addr value) else mret tt);;
  sub_gas ← spend_for_sub (λ g, g);
  '(ok, s) ← run_sub (λ st m, Vm_new (config v) st init_code (caller v) contract_addr value [] sub_gas m false);
  (if ok && negb (bool_decide (output s = [])) then
     on_state (λ st, (tt, commit (set_account contract_addr (mkAccount value 0 (output s) ∅) st)));;
     push (from_addr contract_addr)
   else push zero_word);;
  return_gas s;; take_logs s.

Definition exec_create : VM unit :=
  v ← get_vm;
  if static_call v then raise StaticCallViolation
  else
    use_gas 32000;;
    w ← pop; off ← pop_u64; len ← pop_u64;
    init_code ← mem_take off len;
    sender_acc ← on_state (get_account (caller v));
    create_at (compute_create_addr (caller v) (acc_nonce sender_acc)) (to_u128 w) init_code.

Definition exec_create2 : VM unit :=
  v ← get_vm;
  if static_call v then raise StaticCallViolation
  else
    use_gas 32000;;
    w ← pop; off ← pop_u64; len ← pop_u64; salt ← pop;
    init_code ← mem_take off len;
    let addr_hash := keccak256 (0xff :: caller v ++ salt ++ keccak256 init_code) in
    create_at (drop 12 addr_hash) (to_u128 w) init_code.

(** What follows the run of a called contract. *)
Definition finish_call (ret_off ret_len : Z) (ok : bool) (s : Vm) : VM unit :=
  return_gas s;;
  (if ok then
     let copy_len := Z.min ret_len (Z.of_nat (length (output s))) in
     (if 0 <? copy_len
      then mem_expand ret_off copy_len;; mem_write ret_off (take (Z.to_nat copy_len) (output s))
      else mret tt);;
     push (from_u64 1)
   else push zero_word);;
  take_logs s.

(** CALL runs the code of the target under its address, CALLCODE and
    DELEGATECALL under the machine's own; DELEGATECALL has no value operand and
    passes the machine's on. *)
Definition exec_call (k : call_kind) : VM unit :=
  call_gas ← pop_u64; a ← pop; let target := to_addr a in
  v ← get_vm;
  val ← (match k with DELEGATECALL => mret (value v) | _ => w ← pop; mret (to_u128 w) end);
  args_off ← pop_u64; args_len ← pop_u64; ret_off ← pop_u64; ret_len ← pop_u64;
  let pays := match k with DELEGATECALL => false | _ => 0 <? val end in
  if static_call v && pays then raise StaticCallViolation
  else
    data ← mem_take args_off args_len;
    (if pays then try_state (transfer (caller v) (match k with CALL => target | _ => address v end) val) else mret tt);;
    acc ← on_state (get_account target);
    sub_gas ← spend_for_sub (Z.min call_gas);
    '(ok, s) ← run_sub (λ st m, Vm_new (config v) st (acc_code acc) (caller v)
                                  (match k with CALL => target | _ => address v end) val data sub_gas m false);
    finish_call ret_off ret_len ok s.

Definition exec_selfdestruct : VM unit :=
  v ← get_vm;
  if static_call v then raise StaticCallViolation
  else
    b ← pop; let beneficiary := to_addr b in
    bal ← on_state (balance (address v));
    (if 0 <? bal then try_state (transfer (address v) beneficiary bal) else mret tt);;
    on_state (λ s, (tt, set_account (address v) Account_default s));;
    modify (λ v, v <| stopped := true |>);;
    use_gas 5000.

Definition exec_return (rev : bool) : VM unit :=
  off ← pop_u64; len ← pop_u64;
  data ← mem_take off len;
  modify (λ v, v <| output := data |> <| reverted := rev || reverted v |> <| stopped := true |>).

Definition exec (o : opcode) : VM unit :=
  match o with
  | STOP => modify (λ v, v <| stopped := true |>)
  | Arith o => exec_arith o
  | Compare o => exec_compare o
  | Bits o => exec_bits o
  | SHA3 => exec_sha3
  | Env o => exec_env o
  | Block o => exec_block o
  | Data o => exec_data o
  | Info o => exec_info o
  | JUMP => exec_jump
  | JUMPI => exec_jumpi
  | PUSH n => exec_push n
  | DUP n => exec_dup n
  | SWAP n => exec_swap n
  | LOG n => exec_log n
  | CREATE => exec_create
  | CREATE2 => exec_create2
  | Call k => exec_call k
  | RETURN => exec_return false
  | REVERT => exec_return true
  | SELFDESTRUCT => exec_selfdestruct
  | Invalid op => raise (InvalidOpcode op)
  end.

(** After the loop. *)
Definition finish (v : Vm) : run_result :=
  Returned (if reverted v then Err (Revert (output v)) else Ok tt) v.

(** The body of the loop: fetch, count, execute. *)
Definition fetch_exec (v : Vm) : outcome unit :=
  let op := nth (Z.to_nat (pc v)) (code v) 0 in
  exec (decode op) (v <| pc := add64 (pc v) 1 |> <| metrics := record_opcode op (metrics v) |>).

Definition turn (v : Vm) : Vm + run_result :=
  if negb (stopped v) && negb (reverted v) && (pc v <? Z.of_nat (length (code v))) then
    match fetch_exec v with
    | Next _ v' => inl v'
    | Break v' => inr (finish v')
    | Raise e v' => inr (Returned (Err e) v')
    | Panic => inr Panicked
    | NoFuel => inr OutOfFuel
    end
  else inr (finish v).
End sub.

(** Every turn moves forward in the code or pays for a jump back. *)
Definition turn_bound (v : Vm) : Z := gas v * (Z.of_nat (length (code v)) + 1) + Z.of_nat (length (code v)) + 1.

Fixpoint run_nested (depth : nat) (v : Vm) : run_result :=
  match depth with
  | O => OutOfFuel
  | S depth' =>
    match loop_upto (turn (run_nested depth')) (Z.to_pos (turn_bound v + 1)) v with
    | inl _ => OutOfFuel
    | inr r => r
    end
  end.

(** Nested machines start from an empty state: a machine must pay for a CREATE
    before it can call code in turn. *)
Definition run (v : Vm) : run_result := run_nested (3 + Z.to_nat (gas v `div` 32000)) v.

(** ** Transactions *)

Record ExecResult := mkExecResult {
  success : bool;
  gas_used : Z;
  gas_refunded : Z;
  res_output : bytes;
  res_logs : list EvmLog;
  error : option EvmError;
}.

Record EvmExecutor := mkEvmExecutor {
  ex_config : EvmConfig;
  ex_metrics : EvmMetrics;
}.

Definition EvmExecutor_new (c : EvmConfig) : result EvmExecutor EvmError :=
  match EvmConfig_validate c with Ok _ => Ok (mkEvmExecutor c EvmMetrics_default) | Err e => Err e end.

(** Every counter is set to zero. *)
Definition reset_metrics (e : EvmExecutor) : EvmExecutor := mkEvmExecutor (ex_config e) EvmMetrics_default.

Definition intrinsic (c : EvmConfig) (calldata : bytes) : Z :=
  add64 (intrinsic_gas c)
    (foldl (λ g b, add64 g (if b =? 0 then gas_per_zero_byte c else gas_per_nonzero_byte c)) 0 calldata).

Definition result_err {T E} (r : result T E) : option E := match r with Ok _ => None | Err e => Some e end.

(** The branch of a contract creation: the result, the state, the metrics. *)
Definition transact_create (c : EvmConfig) (s : EvmStateDb) (from : addr) (nonce value : Z) (calldata : bytes)
    (gas_for_exec : Z) (m : EvmMetrics) : option (ExecResult * EvmStateDb * EvmMetrics) :=
  let contract_addr := compute_create_addr from (sub64 nonce 1) in
  match run (Vm_new c (EvmStateDb_new false c ∅) calldata from contract_addr value [] gas_for_exec m false) with
  | Returned r vm =>
    let ok := is_ok r && negb (reverted vm) in
    let s := if ok && negb (bool_decide (output vm = []))
             then set_account contract_addr (mkAccount value 0 (output vm) ∅) s else s in
    Some (mkExecResult ok (sub64 gas_for_exec (gas vm)) (refund vm) contract_addr (logs vm) (result_err r), s, metrics vm)
  | _ => None
  end.

(** The branch of a call, which runs on the state itself. *)
Definition transact_call (c : EvmConfig) (s : EvmStateDb) (from dest : addr) (value : Z) (calldata : bytes)
    (gas_for_exec : Z) (m : EvmMetrics) : option (ExecResult * EvmStateDb * EvmMetrics) :=
  let '(acc, s) := get_account dest s in
  match run (Vm_new c s (acc_code acc) from dest value calldata gas_for_exec m false) with
  | Returned r vm =>
    let ok := is_ok r && negb (reverted vm) in
    Some (mkExecResult ok (sub64 gas_for_exec (gas vm)) (refund vm) (output vm) (logs vm) (result_err r), state vm, metrics vm)
  | _ => None
  end.

(** [None] is a panic of the interpreter. *)
Definition transact (e : EvmExecutor) (s : EvmStateDb) (from : addr) (to : option addr) (value : Z)
    (calldata : bytes) (gas_limit : Z) : option (result ExecResult EvmError * EvmStateDb * EvmExecutor) :=
  let c := ex_config e in
  let needed := intrinsic c calldata in
  if gas_limit <? needed then Some (Err (OutOfGas gas_limit needed), s, e)
  else
    let gas_for_exec := gas_limit - needed in
    let '(sender, s) := get_account from s in
    if acc_balance sender <? value then Some (Err (InsufficientBalance value (acc_balance sender)), s, e)
    else
      let sender := sender <| acc_nonce := add64 (acc_nonce sender) 1 |> in
      let s := snapshot (set_account from sender s) in
      '(res, s, m) ← match to with
                     | None => transact_create c s from (acc_nonce sender) value calldata gas_for_exec (ex_metrics e)
                     | Some dest => transact_call c s from dest value calldata gas_for_exec (ex_metrics e)
                     end;
      let s := if success res then commit s else revert s in
      let m := record_tx (success res) (gas_used res) (gas_refunded res) m in
      Some (Ok res, s, mkEvmExecutor c m).
End machine.
