(* ===== verification/EvmState.v ===== *)
(** * Properties of the EVM's state database ([EvmStateDb] of
    [src/src/blockchain/revm_port.rs], modelled in [Evm]).

    [view] is the account a reader sees. The steps by which running code changes
    the database ([db_prim]) keep it well formed, create no code and no money,
    and leave alone what a revert goes back to. Then committing and reading back. *)

From Stdlib Require Import ZArith Lia Bool.
From stdpp Require Import base gmap sets numbers list relations.
From S2P Require Import Prelude Types EvmWords Evm.

Local Open Scope Z_scope.

Definition addr_ok (a : addr) : Prop := length a = 20%nat ∧ Forall byte_ok a.

(** Bytes of a vector, which is shorter than [isize::MAX]. *)
Definition vec_ok (l : bytes) : Prop := Forall byte_ok l ∧ Z.of_nat (length l) < 2 ^ 63.

Record acc_ok (acc : Account) : Prop := {
  ao_balance : 0 ≤ acc_balance acc < 2 ^ 128;
  ao_nonce : u64_ok (acc_nonce acc);
  ao_code : vec_ok (acc_code acc);
  ao_storage k w : acc_storage acc !! k = Some w → word_ok k ∧ word_ok w;
}.

Definition map_ok (m : gmap addr Account) : Prop := ∀ a acc, m !! a = Some acc → acc_ok acc.

Record db_ok (s : EvmStateDb) : Prop := {
  do_accounts : map_ok (accounts s);
  do_dirty : map_ok (dirty s);
  do_snapshots : Forall (λ n, map_ok (snap_accounts n)) (snapshots s);
  do_files p d : files s !! p = Some d → Forall byte_ok d ∧ Z.of_nat (length d) < 2 ^ 63 + 32;
}.

(** ** What a reader sees *)

Definition view (s : EvmStateDb) (a : addr) : Account := (get_account a s).1.

(** Without the uncommitted changes. *)
Definition base_view (s : EvmStateDb) (a : addr) : Account :=
  match accounts s !! a with
  | Some acc => acc
  | None => if db s then default Account_default (files s !! acct_path a ≫= decode_account) else Account_default
  end.

Lemma view_dirty s a : view s a = default (base_view s a) (dirty s !! a).
Proof.
  unfold view, get_account, base_view. destruct (dirty s !! a); [done|]. destruct (accounts s !! a); [done|].
  destruct (db s); [|done]. by destruct (files s !! acct_path a ≫= decode_account).
Qed.

(** A read caches an account and is otherwise without effect. *)
Lemma get_account_effect a s :
  let s' := (get_account a s).2 in
  dirty s' = dirty s ∧ db s' = db s ∧ snapshots s' = snapshots s ∧ db_static s' = db_static s ∧
  files s' = files s ∧ db_config s' = db_config s ∧ ∀ b, base_view s' b = base_view s b.
Proof.
  unfold get_account. destruct (dirty s !! a); [done|]. destruct (accounts s !! a) eqn:Ea; [done|].
  destruct (db s) eqn:Edb; [|done]. destruct (files s !! acct_path a ≫= decode_account) as [acc|] eqn:Ef; [|done].
  simpl. split_and!; try done. intros b. unfold base_view. simpl. rewrite Edb.
  destruct (decide (a = b)) as [<-|Hne].
  - by rewrite lookup_insert_eq, Ea, Ef.
  - by rewrite lookup_insert_ne.
Qed.

Lemma view_get_account a s b : view (get_account a s).2 b = view s b.
Proof. destruct (get_account_effect a s) as (Hd & _ & _ & _ & _ & _ & Hb). by rewrite !view_dirty, Hd, Hb. Qed.

Lemma view_set_account a acc s b :
  view (set_account a acc s) b = if db_static s then view s b else if decide (b = a) then acc else view s b.
Proof.
  unfold set_account. destruct (db_static s); [done|]. rewrite !view_dirty. simpl.
  destruct (decide (b = a)) as [->|]; [by rewrite lookup_insert_eq|by rewrite lookup_insert_ne].
Qed.

Lemma base_view_set_account a acc s b : base_view (set_account a acc s) b = base_view s b.
Proof. unfold set_account. by destruct (db_static s). Qed.

(** ** Well-formedness *)

Lemma Account_default_ok : acc_ok Account_default.
Proof. split; [simpl; lia|simpl; mach|by split; [constructor|]|done]. Qed.

Lemma decode_account_ok d acc :
  Forall byte_ok d → Z.of_nat (length d) < 2 ^ 63 + 32 → decode_account d = Some acc → acc_ok acc.
Proof.
  intros Hd Hlen. unfold decode_account. destruct (Nat.leb_spec 32 (length d)) as [Hl|]; [|done]. intros [= <-].
  assert (∀ off n, Forall byte_ok (slice off n d)) as Hs by (intros; by apply Forall_take, Forall_drop).
  split; simpl; [| |split; [by apply Forall_drop|rewrite length_drop; lia]|done].
  - pose proof (le_value_bound _ (Hs 0%nat 16%nat)) as Hb. rewrite length_slice in Hb by lia.
    change (256 ^ Z.of_nat 16) with (2 ^ 128) in Hb. done.
  - pose proof (le_value_bound _ (Hs 16%nat 8%nat)) as Hb. rewrite length_slice in Hb by lia.
    change (256 ^ Z.of_nat 8) with (2 ^ 64) in Hb. mach.
Qed.

Lemma map_ok_insert m a acc : map_ok m → acc_ok acc → map_ok (<[a := acc]> m).
Proof. intros Hm Ha b acc' [[_ <-]|[_ Hb]]%lookup_insert_Some; [done|by apply (Hm b)]. Qed.

Lemma get_account_ok a s : db_ok s → acc_ok (get_account a s).1 ∧ db_ok (get_account a s).2.
Proof.
  intros Hs. unfold get_account. destruct (dirty s !! a) as [acc|] eqn:Ed; [by split; [eapply do_dirty|]|].
  destruct (accounts s !! a) as [acc|] eqn:Ea; [by split; [eapply do_accounts|]|].
  destruct (db s); [|by split; [apply Account_default_ok|]].
  destruct (files s !! acct_path a) as [d|] eqn:Ef; simpl; [|by split; [apply Account_default_ok|]].
  destruct (decode_account d) as [acc|] eqn:Edec; [|by split; [apply Account_default_ok|]].
  apply decode_account_ok in Edec; [|by eapply do_files..]. split; [done|]. destruct Hs. split; simpl; try done.
  by apply map_ok_insert.
Qed.

Lemma view_ok s a : db_ok s → acc_ok (view s a).
Proof. intros. by apply get_account_ok. Qed.

Lemma set_account_ok a acc s : db_ok s → acc_ok acc → db_ok (set_account a acc s).
Proof.
  intros Hs Ha. unfold set_account. destruct (db_static s); [done|]. destruct Hs. split; simpl; try done.
  by apply map_ok_insert.
Qed.

Lemma set_storage_ok a k w s : db_ok s → word_ok k → word_ok w → db_ok (set_storage a k w s).
Proof.
  intros Hs Hk Hw. unfold set_storage. destruct (db_static s); [done|].
  destruct (get_account_ok a s Hs) as [Ha Hs']. destruct (get_account a s) as [acc s']. simpl in *.
  apply set_account_ok; [done|]. destruct Ha as [Hb Hn Hc Hst]. split; simpl; try done.
  case_bool_decide; intros k' w'.
  - intros [_ Hl]%lookup_delete_Some. by apply Hst.
  - intros [[<- <-]|[_ Hl]]%lookup_insert_Some; [done|by apply Hst].
Qed.

Lemma wrap128_bound z : 0 ≤ wrap128 z < 2 ^ 128.
Proof. apply Z.mod_pos_bound. lia. Qed.

Lemma acc_ok_balance acc z : acc_ok acc → acc_ok (acc <| acc_balance := wrap128 z |>).
Proof. intros []. split; simpl; try done. apply wrap128_bound. Qed.

Lemma transfer_ok f t x s : db_ok s → db_ok (transfer f t x s).2.
Proof.
  intros Hs. unfold transfer. destruct (x =? 0); [done|].
  destruct (get_account_ok f s Hs) as [Hf Hs1]. destruct (get_account f s) as [fa s1]. simpl in *.
  destruct (_ <? x); [done|].
  assert (db_ok (set_account f (fa <| acc_balance := wrap128 (acc_balance fa - x) |>) s1)) as Hs2
    by (by apply set_account_ok, acc_ok_balance).
  destruct (get_account_ok t _ Hs2) as [Ht Hs3].
  destruct (get_account t (set_account f _ s1)) as [ta s3]. simpl in *.
  by apply set_account_ok, acc_ok_balance.
Qed.

Lemma encode_account_ok acc :
  acc_ok acc → Forall byte_ok (encode_account acc) ∧ Z.of_nat (length (encode_account acc)) < 2 ^ 63 + 32.
Proof.
  intros [_ _ [Hc Hl] _]. unfold encode_account. split.
  - repeat (apply Forall_app; split); try apply le_bytes_ok; [|done]. apply Forall_replicate. mach.
  - rewrite !length_app, !length_le_bytes, length_replicate. lia.
Qed.

Lemma commit_ok s : db_ok s → db_ok (commit s).
Proof.
  intros [Ha Hd Hs Hf]. unfold commit. simpl.
  assert (map_ok (dirty s ∪ accounts s)) as Hu.
  { intros a acc [Hl|[_ Hl]]%lookup_union_Some_raw; [by apply (Hd a)|by apply (Ha a)]. }
  destruct (db s); split; simpl; try done.
  intros p d. assert (Forall (λ e : addr * Account, acc_ok e.2) (btree_iter (dirty s))) as Hit.
  { apply Forall_forall. intros [a acc] He%elem_of_btree_iter. by apply (Hd a). }
  revert p d. generalize dependent (files s). induction Hit as [|[a acc] l He _ IH]; intros fs Hf; simpl; [done|].
  apply IH. intros p d [[_ <-]|[_ Hl]]%lookup_insert_Some; [by apply encode_account_ok|by apply (Hf p)].
Qed.

Lemma EvmStateDb_new_ok c : db_ok (EvmStateDb_new false c ∅).
Proof. split; simpl; [intros ??; by rewrite lookup_empty..|constructor|intros ??; by rewrite lookup_empty]. Qed.

(** ** Committing *)

Lemma hex_digit_inj d e : hex_digit d = hex_digit e → d = e.
Proof. unfold hex_digit. destruct (Z.ltb_spec d 10), (Z.ltb_spec e 10); lia. Qed.

Lemma hex_inj l k : hex l = hex k → l = k.
Proof.
  revert k. induction l as [|b l IH]; intros [|c k]; simpl; try done.
  intros [= H1%hex_digit_inj H2%hex_digit_inj H3%IH]. f_equal; [|done].
  rewrite (Z.div_mod b 16), (Z.div_mod c 16) by lia. by rewrite H1, H2.
Qed.

#[export] Instance acct_path_inj : Inj (=) (=) acct_path.
Proof. intros a b Heq. apply hex_inj. by injection Heq. Qed.

#[local] Arguments acct_path : simpl never.

(** The file of an account after a commit. *)
Lemma commit_files s a :
  db s = true →
  files (commit s) !! acct_path a =
    match dirty s !! a with Some acc => Some (encode_account acc) | None => files s !! acct_path a end.
Proof.
  intros Hdb. unfold commit. simpl. rewrite Hdb. simpl.
  rewrite (foldl_insert_lookup (λ e : addr * Account, acct_path e.1) (λ e, encode_account e.2) _
             (kmap acct_path (encode_account <$> dirty s))).
  - rewrite lookup_kmap, lookup_fmap by apply _. destruct (dirty s !! a) as [acc|] eqn:E; simpl.
    + rewrite decide_True; [done|]. apply list_elem_of_fmap. exists (a, acc). split; [done|]. by apply elem_of_btree_iter.
    + rewrite decide_False; [done|]. intros ([b acc] & Hp%(inj acct_path) & He%elem_of_btree_iter)%list_elem_of_fmap.
      simpl in Hp. congruence.
  - intros [b acc] He%elem_of_btree_iter. simpl. rewrite lookup_kmap, lookup_fmap by apply _. by rewrite He.
Qed.

Lemma commit_fields s :
  dirty (commit s) = ∅ ∧ accounts (commit s) = dirty s ∪ accounts s ∧ db (commit s) = db s ∧
  snapshots (commit s) = [] ∧ db_static (commit s) = db_static s.
Proof. unfold commit. simpl. destruct (db s) eqn:E; simpl; by rewrite ?E. Qed.

(** A commit changes nothing a reader sees. *)
Lemma view_commit s a : view (commit s) a = view s a.
Proof.
  destruct (commit_fields s) as (Hd & Ha & Hdb & _ & _). rewrite !view_dirty, Hd, lookup_empty. simpl.
  unfold base_view. rewrite Ha, Hdb.
  destruct (dirty s !! a) as [acc|] eqn:Ed; [by rewrite (lookup_union_Some_l _ _ _ _ Ed)|].
  rewrite lookup_union_r by done. destruct (accounts s !! a); [done|]. destruct (db s) eqn:Edb; [|done].
  by rewrite commit_files, Ed.
Qed.

Lemma decode_encode acc :
  acc_ok acc → decode_account (encode_account acc) = Some (acc <| acc_storage := ∅ |>).
Proof.
  intros [Hb Hn _ _]. unfold decode_account, encode_account.
  destruct (Nat.leb_spec 32 (length (le_bytes 16 (acc_balance acc) ++ le_bytes 8 (acc_nonce acc) ++
    replicate 8 0 ++ acc_code acc))) as [_|Hlt]; [|rewrite !length_app, !length_le_bytes, length_replicate in Hlt; lia].
  rewrite (slice_app_l 0 16), slice_all, (slice_mid 16 8) by (by rewrite ?length_le_bytes).
  rewrite !le_value_bytes by (simpl; mach).
  rewrite (app_assoc _ _ (replicate 8 0 ++ _)), (app_assoc _ (replicate 8 0)), drop_app_length'; [done|].
  rewrite !length_app, !length_le_bytes, length_replicate. done.
Qed.

(** A committed account survives a restart with its balance, nonce and code:
    a database opened on the files sees what the old one saw, except that the
    storage of the accounts just committed is gone. *)
Lemma commit_survives_restart s c a :
  db_ok s → db s = true →
  view (EvmStateDb_new true c (files (commit s))) a =
    match dirty s !! a with
    | Some acc => acc <| acc_storage := ∅ |>
    | None => view (EvmStateDb_new true c (files s)) a
    end.
Proof.
  intros Hs Hdb. rewrite !view_dirty. unfold base_view. cbn [EvmStateDb_new dirty accounts db files].
  rewrite !lookup_empty. cbn [default from_option]. rewrite (commit_files s a Hdb).
  destruct (dirty s !! a) as [acc|] eqn:Ed; [|done]. cbn [mbind option_bind].
  by rewrite decode_encode by (by apply (do_dirty s Hs a)).
Qed.

(** ** The steps of running code *)

Inductive db_prim : EvmStateDb → EvmStateDb → Prop :=
| prim_load a s : db_prim s (get_account a s).2
| prim_store a k w s : word_ok k → word_ok w → db_prim s (set_storage a k w s)
| prim_transfer f t x s : 0 ≤ x < 2 ^ 128 → db_prim s (transfer f t x s).2
| prim_clear a s : db_prim s (set_account a Account_default s).

Definition db_steps : relation EvmStateDb := rtc db_prim.

#[export] Instance db_steps_preorder : PreOrder db_steps.
Proof. apply rtc_po. Qed.

Lemma db_prim_steps s s' : db_prim s s' → db_steps s s'.
Proof. apply rtc_once. Qed.

Lemma db_prim_ok s s' : db_prim s s' → db_ok s → db_ok s'.
Proof.
  destruct 1; intros; [by apply get_account_ok|by apply set_storage_ok|by apply transfer_ok|].
  by apply set_account_ok, Account_default_ok.
Qed.

Lemma db_steps_ok s s' : db_steps s s' → db_ok s → db_ok s'.
Proof. induction 1; eauto using db_prim_ok. Qed.

Abbreviation bal s a := (acc_balance (view s a)).

(** A stored slot changes the storage of one account. *)
Lemma view_set_storage a k w s b :
  ∃ st, view (set_storage a k w s) b = (view s b) <| acc_storage := st |>.
Proof.
  unfold set_storage. destruct (db_static s) eqn:Est; [exists (acc_storage (view s b)); by destruct (view s b)|].
  pose proof (view_get_account a s) as Hv. pose proof (get_account_effect a s) as (_ & _ & _ & Hst & _).
  assert ((get_account a s).1 = view s a) as Ha by done.
  destruct (get_account a s) as [acc s1]. simpl in *. subst acc. rewrite view_set_account, Hst, Est.
  destruct (decide (b = a)) as [->|]; [by eexists|]. exists (acc_storage (view s b)). rewrite Hv. by destruct (view s b).
Qed.

(** A transfer fails without effect, or moves the amount. *)
Lemma view_transfer f t x s :
  db_ok s → 0 ≤ x < 2 ^ 128 →
  ((∀ a, view (transfer f t x s).2 a = view s a) ∧
   (db_static s = true ∨ x = 0 ∨ is_err (transfer f t x s).1 = true ∨ f = t ∧ x ≤ bal s f)) ∨
  db_static s = false ∧ f ≠ t ∧ x ≤ bal s f ∧
  ∀ a, view (transfer f t x s).2 a =
    if decide (a = t) then (view s t) <| acc_balance := wrap128 (bal s t + x) |>
    else if decide (a = f) then (view s f) <| acc_balance := bal s f - x |> else view s a.
Proof.
  intros Hs Hx. unfold transfer. destruct (Z.eqb_spec x 0); [by left; auto|].
  pose proof (view_get_account f s) as Hv1. pose proof (get_account_effect f s) as (_ & _ & _ & Hst & _).
  pose proof (view_ok s f Hs) as [Hb _ _ _]. assert ((get_account f s).1 = view s f) as Hf by done.
  destruct (get_account f s) as [fa s1]. simpl in *. subst fa.
  destruct (Z.ltb_spec (bal s f) x) as [|Hle]; [by left; auto|].
  set (s2 := set_account f _ s1). pose proof (view_get_account t s2) as Hv3.
  pose proof (get_account_effect t s2) as (_ & _ & _ & Hst3 & _).
  assert ((get_account t s2).1 = view s2 t) as Ht by done.
  destruct (get_account t s2) as [ta s3]. simpl in *. subst ta.
  assert (db_static s2 = db_static s) as Hst2 by (unfold s2, set_account; destruct (db_static s1) eqn:?; simpl; congruence).
  assert (∀ a, view s2 a = if db_static s then view s a else
    if decide (a = f) then (view s f) <| acc_balance := bal s f - x |> else view s a) as Hv2.
  { intros a. unfold s2. rewrite view_set_account, Hst, Hv1. unfold wrap128. by rewrite Z.mod_small by lia. }
  destruct (db_static s) eqn:Est.
  { left. split; [|by left]. intros a. by rewrite view_set_account, Hst3, Hst2, Hv3, Hv2. }
  destruct (decide (f = t)) as [<-|Hne].
  - left. split; [|by auto]. intros a. rewrite view_set_account, Hst3, Hst2, Hv3, !Hv2, (decide_True (P := f = f)) by done.
    destruct (decide (a = f)) as [->|]; [|done]. simpl. unfold wrap128.
    rewrite Z.sub_add, Z.mod_small by lia. by destruct (view s f).
  - right. split_and!; try done. intros a. rewrite view_set_account, Hst3, Hst2, Hv3, !Hv2.
    rewrite (decide_False (P := t = f)) by done. destruct (decide (a = t)) as [->|]; [done|].
    by destruct (decide (a = f)) as [->|].
Qed.

Lemma set_account_static a acc s : db_static (set_account a acc s) = db_static s.
Proof. unfold set_account. by destruct (db_static s) eqn:?. Qed.

Lemma transfer_static f t x s : db_static (transfer f t x s).2 = db_static s.
Proof.
  unfold transfer. destruct (x =? 0); [done|]. pose proof (get_account_effect f s) as (_ & _ & _ & Hst & _).
  destruct (get_account f s) as [fa s1]. destruct (_ <? x); [done|]. set (s2 := set_account f _ s1).
  pose proof (get_account_effect t s2) as (_ & _ & _ & Hst2 & _). destruct (get_account t s2) as [ta s3].
  simpl in *. rewrite set_account_static, Hst2. unfold s2. by rewrite set_account_static.
Qed.

(** *** No step creates code *)

Definition codeless (s : EvmStateDb) : Prop := ∀ a, acc_code (view s a) = [].

Lemma codeless_new c : codeless (EvmStateDb_new false c ∅).
Proof. intros a. by rewrite view_dirty. Qed.

Lemma db_prim_codeless s s' : db_prim s s' → db_ok s → codeless s → codeless s'.
Proof.
  destruct 1 as [a s|a k w s Hk Hw|f t x s Hx|a s]; intros Hs Hc b.
  - by rewrite view_get_account.
  - destruct (view_set_storage a k w s b) as [st ->]. apply Hc.
  - destruct (view_transfer f t x s Hs Hx) as [[Hv _]|(_ & _ & _ & Hv)]; rewrite Hv; [done|].
    destruct (decide _); [apply Hc|]. destruct (decide _); apply Hc.
  - rewrite view_set_account. destruct (db_static s); [done|]. by destruct (decide _).
Qed.

Lemma db_steps_codeless s s' : db_steps s s' → db_ok s → codeless s → codeless s'.
Proof. induction 1; eauto using db_prim_ok, db_prim_codeless. Qed.

(** *** No step touches what a revert goes back to *)

Definition same_base (s s' : EvmStateDb) : Prop :=
  snapshots s' = snapshots s ∧ ∀ a, base_view s' a = base_view s a.

Lemma same_base_get a s : same_base s (get_account a s).2.
Proof. pose proof (get_account_effect a s) as (_ & _ & ? & _ & _ & _ & ?). done. Qed.

Lemma same_base_set a acc s : same_base s (set_account a acc s).
Proof. split; [unfold set_account; by destruct (db_static s)|intros; apply base_view_set_account]. Qed.

#[export] Instance same_base_preorder : PreOrder same_base.
Proof. split; [done|]. intros s1 s2 s3 [H1 H2] [H3 H4]. split; [congruence|]. intros a. by rewrite H4. Qed.

Lemma db_prim_same_base s s' : db_prim s s' → same_base s s'.
Proof.
  destruct 1 as [a s|a k w s Hk Hw|f t x s Hx|a s]; [apply same_base_get| | |apply same_base_set].
  - unfold set_storage. destruct (db_static s); [done|]. pose proof (same_base_get a s) as Hg.
    destruct (get_account a s) as [acc s1]. etrans; [exact Hg|apply same_base_set].
  - unfold transfer. destruct (x =? 0); [done|]. pose proof (same_base_get f s) as Hg.
    destruct (get_account f s) as [fa s1]. destruct (_ <? x); [done|].
    set (s2 := set_account f _ s1). assert (same_base s s2) as H2 by (etrans; [exact Hg|apply same_base_set]).
    pose proof (same_base_get t s2) as Hg2. destruct (get_account t s2) as [ta s3].
    etrans; [exact H2|]. etrans; [exact Hg2|apply same_base_set].
Qed.

Lemma db_steps_same_base s s' : db_steps s s' → same_base s s'.
Proof. induction 1; [done|]. etrans; [by apply db_prim_same_base|done]. Qed.

(** A snapshot, steps of running code and a revert leave every account as it was. *)
Lemma view_revert s s' a : db_steps (snapshot s) s' → view (revert s') a = view s a.
Proof.
  intros [Hsn Hb]%db_steps_same_base. unfold revert. rewrite Hsn. simpl. rewrite !view_dirty. simpl.
  f_equal. exact (Hb a).
Qed.

(** *** No step creates money *)

Definition supply (U : gset addr) (s : EvmStateDb) : Z := sumZ (λ a, bal s a) (elements U).

(** All accounts together hold at most [b]. *)
Definition supply_le (b : Z) (s : EvmStateDb) : Prop :=
  ∃ U, (∀ a, (a ∉ U) → bal s a = 0) ∧ supply U s ≤ b.

(** Changing one account changes the sum by the difference. *)
Lemma sumZ_change {A} `{EqDecision A} (f g : A → Z) (l : list A) x :
  NoDup l → x ∈ l → (∀ y, y ≠ x → g y = f y) → sumZ g l = sumZ f l + (g x - f x).
Proof.
  intros Hnd Hx Hg. induction Hnd as [|y l Hy Hnd IH]; [by apply elem_of_nil in Hx|].
  rewrite !sumZ_cons. apply elem_of_cons in Hx as [->|Hx].
  - rewrite (sumZ_ext g f l); [lia|]. intros z Hz. apply Hg. by intros ->.
  - rewrite IH by done. rewrite (Hg y); [lia|]. by intros ->.
Qed.

Lemma supply_change U s s' x :
  x ∈ U → (∀ y, y ≠ x → bal s' y = bal s y) → supply U s' = supply U s + (bal s' x - bal s x).
Proof.
  intros Hx Hy. unfold supply. apply (sumZ_change (λ a, bal s a) (λ a, bal s' a)); [apply NoDup_elements| |done].
  by apply elem_of_elements.
Qed.

(** Accounts that hold nothing can be counted. *)
Lemma supply_extend U a s : (∀ b, (b ∉ U) → bal s b = 0) → supply ({[a]} ∪ U) s = supply U s.
Proof.
  intros Hz. destruct (decide (a ∈ U)) as [Ha|Ha]; [f_equal; set_solver|].
  unfold supply. rewrite (elements_union_singleton U a) by done.
  rewrite sumZ_cons, Hz by done. lia.
Qed.

Lemma supply_le_extend b s (l : list addr) :
  supply_le b s → ∃ U, (∀ a, a ∈ l → a ∈ U) ∧ (∀ a, (a ∉ U) → bal s a = 0) ∧ supply U s ≤ b.
Proof.
  intros (U & Hz & Hle). induction l as [|a l (V & HV & Hz' & Hle')]; [by exists U; split; [intros ? []%elem_of_nil|]|].
  exists ({[a]} ∪ V). split_and!; [set_solver|set_solver|]. by rewrite supply_extend.
Qed.

Lemma supply_member U s a : db_ok s → a ∈ U → bal s a ≤ supply U s.
Proof.
  intros Hs Ha. unfold supply. apply (sumZ_elem_le (λ a, bal s a)); [|by apply elem_of_elements].
  intros b _. apply (ao_balance _ (view_ok s b Hs)).
Qed.

(** Balances that do not grow. *)
Lemma supply_le_mono b s s' :
  db_ok s' → (∀ a, bal s' a ≤ bal s a) → supply_le b s → supply_le b s'.
Proof.
  intros Hs' Hle (U & Hz & HU). exists U. split.
  - intros a Ha. pose proof (Hle a). rewrite Hz in * by done. pose proof (ao_balance _ (view_ok s' a Hs')). lia.
  - etrans; [|exact HU]. apply sumZ_le. intros a _. apply Hle.
Qed.

Lemma supply_two U s f t : db_ok s → f ≠ t → f ∈ U → t ∈ U → bal s f + bal s t ≤ supply U s.
Proof.
  intros Hs Hne Hf Ht. replace (bal s f + bal s t) with (sumZ (λ a, bal s a) [f; t]) by (unfold sumZ; simpl; lia).
  apply sumZ_submseteq; [intros a _; apply (ao_balance _ (view_ok s a Hs))| |set_solver].
  apply NoDup_cons. split; [set_solver|apply NoDup_singleton].
Qed.

Lemma transfer_supply_le b f t x s :
  db_ok s → 0 ≤ x < 2 ^ 128 → b < 2 ^ 128 → supply_le b s → supply_le b (transfer f t x s).2.
Proof.
  intros Hs Hx Hb Hle. pose proof (transfer_ok f t x s Hs) as Hs'.
  destruct (view_transfer f t x s Hs Hx) as [[Hv _]|(_ & Hne & Hxf & Hv)].
  { eapply supply_le_mono; [done| |exact Hle]. intros a. by rewrite Hv. }
  destruct (supply_le_extend b s [f; t] Hle) as (U & HU & Hz & Hsum).
  assert (f ∈ U ∧ t ∈ U) as [Hf Ht] by (split; apply HU; set_solver).
  pose proof (supply_two U s f t Hs Hne Hf Ht). pose proof (ao_balance _ (view_ok s t Hs)).
  set (s' := (transfer f t x s).2) in *. set (mid := λ a, if decide (a = f) then bal s f - x else bal s a).
  exists U. split.
  - intros a Ha. rewrite Hv, !decide_False by (by intros ->). by apply Hz.
  - assert (supply U s' = supply U s) as ->; [|done]. unfold supply.
    rewrite (sumZ_change mid (λ a, bal s' a) (elements U) t), (sumZ_change (λ a, bal s a) mid (elements U) f).
    + rewrite Hv, decide_True by done. unfold mid. rewrite decide_True, decide_False by done. simpl.
      unfold wrap128. rewrite Z.mod_small by lia. lia.
    + apply NoDup_elements.
    + by apply elem_of_elements.
    + intros y Hy. unfold mid. by rewrite decide_False.
    + apply NoDup_elements.
    + by apply elem_of_elements.
    + intros y Hy. rewrite Hv, decide_False by done. unfold mid. by destruct (decide (y = f)) as [->|].
Qed.

Lemma db_prim_supply_le b s s' : db_prim s s' → db_ok s → b < 2 ^ 128 → supply_le b s → supply_le b s'.
Proof.
  intros Hp Hs Hb Hle. pose proof (db_prim_ok _ _ Hp Hs) as Hs'.
  destruct Hp as [a s|a k w s Hk Hw|f t x s Hx|a s]; [| |by apply transfer_supply_le|];
    (eapply supply_le_mono; [done| |exact Hle]; intros c).
  - by rewrite view_get_account.
  - by destruct (view_set_storage a k w s c) as [st ->].
  - rewrite view_set_account. pose proof (ao_balance _ (view_ok s c Hs)). destruct (db_static s); [done|].
    destruct (decide _); simpl; lia.
Qed.

Lemma db_steps_supply_le b s s' : db_steps s s' → db_ok s → b < 2 ^ 128 → supply_le b s → supply_le b s'.
Proof. induction 1; eauto using db_prim_ok, db_prim_supply_le. Qed.

(** The receiver of a transfer holds at least the amount. *)
Lemma transfer_received b f t x s :
  db_ok s → 0 < x < 2 ^ 128 → b < 2 ^ 128 → supply_le b s → db_static s = false →
  (transfer f t x s).1 = Ok tt → x ≤ bal (transfer f t x s).2 t.
Proof.
  intros Hs Hx Hb Hle Hst Hok. destruct (view_transfer f t x s Hs ltac:(lia)) as [[Hv Hc]|(_ & Hne & Hxf & Hv)].
  - rewrite Hv. rewrite Hok in Hc. destruct Hc as [Hc|[Hc|[Hc|[-> ?]]]]; [congruence|lia|done|done].
  - destruct (supply_le_extend b s [f; t] Hle) as (U & HU & _ & Hsum).
    pose proof (supply_two U s f t Hs Hne ltac:(apply HU; set_solver) ltac:(apply HU; set_solver)).
    pose proof (ao_balance _ (view_ok s t Hs)). rewrite Hv, decide_True by done. simpl.
    unfold wrap128. rewrite Z.mod_small; lia.
Qed.

(** The account of a new contract holds what was transferred to it. *)
Definition funded (from c : addr) (x : Z) (s s' : EvmStateDb) : Prop :=
  (x = 0 ∧ s' = s) ∨ (0 < x < 2 ^ 128 ∧ transfer from c x s = (Ok tt, s')).

Lemma funded_ok from c x s s' : funded from c x s s' → db_ok s → db_ok s'.
Proof. intros [[_ ->]|[_ Ht]] Hs; [done|]. pose proof (transfer_ok from c x s Hs) as H. by rewrite Ht in H. Qed.

Lemma create_supply_le b from c acc s s1 :
  db_ok s → acc_ok acc → funded from c (acc_balance acc) s s1 → b < 2 ^ 128 →
  supply_le b s → supply_le b (commit (set_account c acc s1)).
Proof.
  intros Hs Ha Hf Hb Hle. pose proof (funded_ok _ _ _ _ _ Hf Hs) as Hs1.
  assert (supply_le b s1) as Hle1.
  { destruct Hf as [[_ ->]|[Hx Ht]]; [done|].
    pose proof (transfer_supply_le b from c (acc_balance acc) s Hs ltac:(lia) Hb Hle) as H. by rewrite Ht in H. }
  eapply supply_le_mono; [by apply commit_ok, set_account_ok| |exact Hle1]. intros a.
  rewrite view_commit, view_set_account. destruct (db_static s1) eqn:Est; [done|].
  destruct (decide (a = c)) as [->|]; [|done]. destruct Hf as [[-> _]|[Hx Ht]].
  - apply (ao_balance _ (view_ok s1 c Hs1)).
  - pose proof (transfer_received b from c (acc_balance acc) s Hs Hx Hb Hle) as Hr. rewrite Ht in Hr. simpl in Hr.
    apply Hr; [|done]. pose proof (transfer_static from c (acc_balance acc) s) as Hst. rewrite Ht in Hst. simpl in Hst.
    congruence.
Qed.

(** *** Steps and creations *)

Inductive db_move : EvmStateDb → EvmStateDb → Prop :=
| move_prim s s' : db_prim s s' → db_move s s'
| move_create from c acc s s1 :
  funded from c (acc_balance acc) s s1 → acc_ok acc → db_move s (commit (set_account c acc s1)).

Definition db_moves : relation EvmStateDb := rtc db_move.

#[export] Instance db_moves_preorder : PreOrder db_moves.
Proof. apply rtc_po. Qed.

Lemma db_steps_moves s s' : db_steps s s' → db_moves s s'.
Proof. apply rtc_subrel. intros ??. apply move_prim. Qed.

Lemma db_move_ok s s' : db_move s s' → db_ok s → db_ok s'.
Proof.
  destruct 1 as [s s' Hp|from c acc s s1 Hf Ha]; intros Hs; [by eapply db_prim_ok|].
  apply commit_ok, set_account_ok; [by eapply funded_ok|done].
Qed.

Lemma db_moves_ok s s' : db_moves s s' → db_ok s → db_ok s'.
Proof. induction 1; eauto using db_move_ok. Qed.

Lemma db_moves_supply_le b s s' : db_moves s s' → db_ok s → b < 2 ^ 128 → supply_le b s → supply_le b s'.
Proof.
  induction 1 as [|s1 s2 s3 Hm _ IH]; [done|]. intros Hs Hb Hle. apply IH; [by eapply db_move_ok|done|].
  destruct Hm as [s1 s2 Hp|from c acc s1 s Hf Ha]; [by eapply db_prim_supply_le|by eapply create_supply_le].
Qed.

(** A creation drops the snapshots; without one a revert undoes the moves. *)
Lemma db_moves_split s s' : db_moves s s' → db_steps s s' ∨ snapshots s' = [].
Proof.
  intros Hm. induction Hm as [s|s1 s2 s3 Hm Hr IH]; [by left|]. destruct Hm as [s1 s2 Hp|from c acc s1 s Hf Ha].
  - destruct IH as [IH|IH]; [left|by right]. by eapply rtc_l.
  - right. assert (snapshots (commit (set_account c acc s)) = []) as Hn by apply commit_fields.
    clear Hf Ha. remember (commit (set_account c acc s)) as s4 eqn:E4. clear E4 IH. revert Hn.
    induction Hr as [|s4 s5 s6 Hm _ IH]; [done|]. intros Hn. apply IH. destruct Hm as [s4 s5 Hp|].
    + by rewrite (proj1 (db_prim_same_base _ _ Hp)).
    + apply commit_fields.
Qed.

(** A contract with one stored word is committed; after a restart its balance,
    nonce and code are there, the word is not. *)
Definition restart_account : Account := mkAccount 5 1 [0] {[ from_u64 1 := from_u64 2 ]}.

Definition restart_db : EvmStateDb :=
  (EvmStateDb_new true EvmConfig_default ∅) <| dirty := {[ replicate 20 1 := restart_account ]} |>.

Lemma commit_survives_restart_witness :
  view (EvmStateDb_new true EvmConfig_default (files (commit restart_db))) (replicate 20 1) = mkAccount 5 1 [0] ∅ ∧
  acc_storage restart_account !! from_u64 1 = Some (from_u64 2).
Proof.
  split; [|vm_compute; reflexivity].
  rewrite (commit_survives_restart restart_db EvmConfig_default (replicate 20 1)); [vm_compute; reflexivity| |reflexivity].
  split; simpl; [intros ??; by rewrite lookup_empty| |constructor|intros ??; by rewrite lookup_empty].
  intros a acc [_ <-]%lookup_singleton_Some. split; simpl; [lia|mach|split; [|simpl; lia]|].
  - apply Forall_singleton. mach.
  - intros k w [<- <-]%lookup_singleton_Some. split; apply from_u64_ok.
Defined.
