(* ===== verification/EvmProofs.v ===== *)
(** * A program logic for the EVM interpreter of [Evm], and what every opcode does.

    [here v0 v] says that [v] is a well-formed machine reached from [v0] by work
    that keeps the context, spends gas, moves forward in the code and changes the
    database by steps of [db_prim] only. [wp v0 m Q v] is the weakest
    precondition of a piece [m] of the loop's body, started in [v]. Each primitive
    has its rule, and [vm_auto] applies them; so an opcode takes a line. Jumps,
    sub-calls and CREATE have lemmas of their own. *)

From Stdlib Require Import ZArith Lia Bool.
From stdpp Require Import base gmap sets numbers list relations.
From S2P Require Import Prelude Types EvmWords Evm EvmState.

Local Open Scope Z_scope.

(** ** Well-formed machines *)

Definition log_ok (l : EvmLog) : Prop :=
  addr_ok (log_address l) ∧ Forall word_ok (log_topics l) ∧ Forall byte_ok (log_data l).

Record vm_ok (v : Vm) : Prop := {
  vo_state : db_ok (state v);
  vo_stack : Forall word_ok (stack v);
  vo_depth : Z.of_nat (length (stack v)) ≤ max_stack_depth (config v);
  vo_memory : vec_ok (memory v);
  vo_words : Z.of_nat (length (memory v)) `mod` 32 = 0;
  vo_gas : u64_ok (gas v);
  vo_pc : 0 ≤ pc v;
  vo_code : vec_ok (code v);
  vo_calldata : vec_ok (calldata v);
  vo_output : vec_ok (output v);
  vo_addrs : addr_ok (address v) ∧ addr_ok (caller v) ∧ addr_ok (origin v);
  vo_value : 0 ≤ value v < 2 ^ 128;
  vo_logs : Forall log_ok (logs v);
}.

(** What running code never changes. *)
Record ctx_eq (v v' : Vm) : Prop := {
  ce_config : config v' = config v;
  ce_code : code v' = code v;
  ce_gas_limit : gas_limit v' = gas_limit v;
  ce_caller : caller v' = caller v;
  ce_origin : origin v' = origin v;
  ce_address : address v' = address v;
  ce_value : value v' = value v;
  ce_calldata : calldata v' = calldata v;
  ce_static : static_call v' = static_call v;
}.

#[export] Instance ctx_eq_preorder : PreOrder ctx_eq.
Proof. split; [by split|]. intros v1 v2 v3 [] []. split; congruence. Qed.

Record weak (v v' : Vm) : Prop := {
  wk_ctx : ctx_eq v v';
  wk_gas : gas v' ≤ gas v;
  wk_db : db_steps (state v) (state v');
}.

#[export] Instance weak_preorder : PreOrder weak.
Proof.
  split; [intros v; split; [done|lia|done]|].
  intros v1 v2 v3 [C1 G1 D1] [C2 G2 D2]. split; [by etrans|lia|by etrans].
Qed.

Record here (v0 v : Vm) : Prop := {
  h_ok : vm_ok v;
  h_weak : weak v0 v;
  h_pc : pc v0 ≤ pc v;
}.

Lemma here_refl v : vm_ok v → here v v.
Proof. intros. split; [done|reflexivity|lia]. Qed.

Section logic.
(** What a cut-off sub-call shows of the machine the opcode started in. *)
Context (cut : Vm → Prop).

Definition wp {A} (v0 : Vm) (m : VM A) (Q : A → Vm → Prop) (v : Vm) : Prop :=
  match m v with
  | Next a v' => Q a v'
  | Break v' | Raise _ v' => vm_ok v' ∧ weak v0 v'
  | Panic => True
  | NoFuel => cut v0
  end.

Lemma wp_seq {A B} v0 (m : VM A) (f : A → VM B) Q v :
  wp v0 m (λ a v', wp v0 (f a) Q v') v → wp v0 (m ≫= f) Q v.
Proof. unfold wp, mbind, VM_bind. by destruct (m v). Qed.

Lemma wp_weaken {A} v0 (m : VM A) (Q Q' : A → Vm → Prop) v :
  (∀ a v', Q a v' → Q' a v') → wp v0 m Q v → wp v0 m Q' v.
Proof. intros HQ. unfold wp. destruct (m v); try done. apply HQ. Qed.

Lemma wp_ret {A} v0 (a : A) (Q : A → Vm → Prop) v : Q a v → wp v0 (mret a) Q v.
Proof. done. Qed.

Lemma wp_get v0 (Q : Vm → Vm → Prop) v : Q v v → wp v0 get_vm Q v.
Proof. done. Qed.

Lemma wp_raise {A} v0 e (Q : A → Vm → Prop) v : here v0 v → wp v0 (raise e) Q v.
Proof. intros []. done. Qed.

(** An update of the machine that stays within [here]. *)
Lemma wp_modify v0 f (Q : unit → Vm → Prop) v :
  here v0 (f v) → (∀ v', here v0 v' → v' = f v → Q tt v') → wp v0 (modify f) Q v.
Proof. intros Hh HQ. unfold wp, modify. by apply HQ. Qed.

Lemma wp_panic {A} v0 (o : option A) (Q : A → Vm → Prop) v :
  (∀ a, o = Some a → Q a v) → wp v0 (or_panic o) Q v.
Proof. intros HQ. unfold wp, or_panic. destruct o; auto. Qed.

Lemma wp_use_gas v0 n (Q : unit → Vm → Prop) v :
  here v0 v → 0 ≤ n → (∀ v', here v0 v' → v' = v <| gas := gas v - n |> → Q tt v') → wp v0 (use_gas n) Q v.
Proof.
  intros [Hok Hw Hpc] Hn HQ. unfold wp, use_gas. destruct (Z.ltb_spec (gas v) n).
  - split; [by destruct Hok|by destruct Hw as [[] ? ?]].
  - apply HQ; [|done]. split; [|destruct Hw as [[] ? ?]; split; simpl; [done|lia|done]|done].
    destruct Hok. split; simpl; try done. mach.
Qed.

Lemma wp_push v0 w (Q : unit → Vm → Prop) v :
  here v0 v → word_ok w → (∀ v', here v0 v' → Q tt v') → wp v0 (push w) Q v.
Proof.
  intros [Hok [Hc Hg Hd] Hpc] Hw HQ. unfold wp, push. destruct (Z.leb_spec (max_stack_depth (config v)) (Z.of_nat (length (stack v)))).
  - apply HQ. split; [by destruct Hok|by split; destruct Hc|done].
  - apply HQ. split; [|by split; destruct Hc|done]. destruct Hok. split; simpl; try done; [by constructor|lia].
Qed.

Lemma wp_pop v0 (Q : word → Vm → Prop) v :
  here v0 v → (∀ w v', word_ok w → here v0 v' → Q w v') → wp v0 pop Q v.
Proof.
  intros [Hok [Hc Hg Hd] Hpc] HQ. unfold wp, pop. destruct (stack v) as [|w s] eqn:E.
  - apply HQ; [apply zero_word_ok|]. by split; [|split|].
  - destruct Hok as [? Hs Hdep]. rewrite E in *. apply Forall_cons in Hs as [Hw Hs]. apply HQ; [done|].
    split; [split; simpl in *; try done; lia|by split; destruct Hc|done].
Qed.

Lemma wp_pop_u64 v0 (Q : Z → Vm → Prop) v :
  here v0 v → (∀ n v', u64_ok n → here v0 v' → Q n v') → wp v0 pop_u64 Q v.
Proof. intros Hh HQ. unfold pop_u64. apply wp_seq, wp_pop; [done|]. intros w v' Hw Hv'. apply wp_ret, HQ; [by apply to_u64_bound|done]. Qed.

(** A call of the database that makes steps. *)
Lemma wp_on_state {A} v0 (f : EvmStateDb → A * EvmStateDb) (P : A → Prop) (Q : A → Vm → Prop) v :
  here v0 v → (∀ s, db_ok s → P (f s).1 ∧ db_steps s (f s).2) →
  (∀ a v', P a → here v0 v' → f (state v) = (a, state v') → Q a v') → wp v0 (on_state f) Q v.
Proof.
  intros [Hok [Hc Hg Hd] Hpc] Hf HQ. unfold wp, on_state. destruct (Hf (state v) (vo_state _ Hok)) as [HP Hst].
  destruct (f (state v)) as [a s'] eqn:E. simpl in *. apply HQ; [done| |done].
  split; [|split; [by destruct Hc|done|by etrans]|done].
  pose proof (db_steps_ok _ _ Hst (vo_state _ Hok)). by destruct Hok.
Qed.
End logic.

(** ** Memory *)

Section memory.
Context `{Heap} (cut : Vm → Prop).

Lemma here_memory v0 v m :
  here v0 v → vec_ok m → Z.of_nat (length m) `mod` 32 = 0 → here v0 (v <| memory := m |>).
Proof. intros [[] [[] ? ?] ?] ? ?. done. Qed.

Lemma resize_ok n l : Forall byte_ok l → Forall byte_ok (resize n 0 l).
Proof. intros Hl. apply Forall_resize; [mach|done]. Qed.

Lemma wp_mem_expand v0 off n (Q : unit → Vm → Prop) v :
  here v0 v → (∀ v', here v0 v' → Q tt v') → wp cut v0 (mem_expand off n) Q v.
Proof.
  intros Hh HQ. unfold wp, mem_expand. destruct (n =? 0); [by apply HQ|].
  destruct (_ <? add64 off n); [|by apply HQ].
  set (x := add64 (add64 off n) 31). assert (u64_ok x) as Hx by (apply wrap64_ok).
  assert (mul64 (x `div` 32) 32 = x `div` 32 * 32) as Hm.
  { pose proof (Z.mul_div_le x 32). pose proof (Z.div_pos x 32). apply mul64_small. mach. }
  rewrite Hm. set (k := x `div` 32 * 32). assert (0 ≤ k) by (unfold k; pose proof (Z.div_pos x 32); mach).
  destruct (_ || _) eqn:Ea; [|done]. apply HQ, here_memory; [done| |].
  - pose proof (vo_memory _ (h_ok _ _ Hh)) as [Hb Hl]. split; [by apply resize_ok|]. rewrite length_resize, Z2Nat.id by done.
    apply orb_true_iff in Ea as [?%Z.leb_le|Hk]; [lia|]. destruct (Z.lt_ge_cases k (2 ^ 63)) as [|Hge]; [done|].
    by rewrite (alloc_limit k Hge) in Hk.
  - rewrite length_resize, Z2Nat.id by done. unfold k. apply Z.mod_mul. lia.
Qed.

Lemma add64_range off n k :
  u64_ok off → u64_ok n → off ≤ add64 off n → add64 off n ≤ k → add64 off n = off + n ∧ off + n ≤ k.
Proof.
  intros Ho Hn Hle Hk. unfold add64, wrap64 in *. destruct (Z.lt_ge_cases (off + n) (2 ^ 64)) as [Hlt|Hge].
  - rewrite Z.mod_small in * by mach. lia.
  - rewrite <-(Z.mod_unique (off + n) (2 ^ 64) 1 (off + n - 2 ^ 64)) in * by mach. mach.
Qed.

Lemma wp_mem_read v0 off n (Q : bytes → Vm → Prop) v :
  here v0 v → u64_ok off → u64_ok n →
  (∀ d, vec_ok d → length d = Z.to_nat n → Q d v) → wp cut v0 (mem_read off n) Q v.
Proof.
  intros Hh Ho Hn HQ. unfold wp, mem_read. destruct (_ && _) eqn:E; [|done].
  apply andb_true_iff in E as [H1%Z.leb_le H2%Z.leb_le]. destruct (add64_range off n _ Ho Hn H1 H2) as [_ Hr].
  pose proof (vo_memory _ (h_ok _ _ Hh)) as [Hb Hl].
  assert (length (slice (Z.to_nat off) (Z.to_nat n) (memory v)) = Z.to_nat n) as Hlen by (apply length_slice; mach).
  apply HQ; [|done]. split; [by apply Forall_take, Forall_drop|rewrite Hlen; mach].
Qed.

Lemma wp_mem_write v0 off d (Q : unit → Vm → Prop) v :
  here v0 v → u64_ok off → vec_ok d → (∀ v', here v0 v' → Q tt v') → wp cut v0 (mem_write off d) Q v.
Proof.
  intros Hh Ho [Hd Hdl] HQ. unfold wp, mem_write. destruct (_ && _) eqn:E; [|done].
  apply andb_true_iff in E as [H1%Z.leb_le H2%Z.leb_le].
  destruct (add64_range off (Z.of_nat (length d)) _ Ho ltac:(mach) H1 H2) as [He Hr].
  pose proof (vo_memory _ (h_ok _ _ Hh)) as [Hb Hl]. rewrite He.
  assert (length (take (Z.to_nat off) (memory v) ++ d ++ drop (Z.to_nat (off + Z.of_nat (length d))) (memory v)) =
          length (memory v)) as Hlen by (rewrite !length_app, length_take, length_drop; mach).
  apply HQ, here_memory; [done| |by rewrite Hlen; apply Hh].
  split; [|by rewrite Hlen]. apply Forall_app. split; [by apply Forall_take|].
  apply Forall_app. split; [done|by apply Forall_drop].
Qed.

Lemma wp_mem_take v0 off n (Q : bytes → Vm → Prop) v :
  here v0 v → u64_ok off → u64_ok n →
  (∀ d v', vec_ok d → here v0 v' → length d = Z.to_nat n → Q d v') → wp cut v0 (mem_take off n) Q v.
Proof.
  intros Hh Ho Hn HQ. apply wp_seq, wp_mem_expand; [done|]. intros v' Hv'. apply wp_mem_read; [done..|].
  intros d Hd Hl. by apply HQ.
Qed.

Lemma wp_mload v0 off (Q : word → Vm → Prop) v :
  here v0 v → u64_ok off → (∀ w v', word_ok w → here v0 v' → Q w v') → wp cut v0 (mload off) Q v.
Proof.
  intros Hh Ho HQ. apply (wp_mem_take v0 off 32); [done|done|mach|]. intros d v' [Hd _] Hv' Hl. by apply HQ.
Qed.

Lemma word_vec_ok w : word_ok w → vec_ok w.
Proof. intros [Hl Hw]. split; [done|rewrite Hl; lia]. Qed.

Lemma wp_mstore v0 off w (Q : unit → Vm → Prop) v :
  here v0 v → u64_ok off → word_ok w → (∀ v', here v0 v' → Q tt v') → wp cut v0 (mstore off w) Q v.
Proof.
  intros Hh Ho Hw HQ. apply wp_seq, wp_mem_expand; [done|]. intros v' Hv'. apply wp_mem_write; [done|done| |done].
  by apply word_vec_ok.
Qed.

Lemma wp_mstore8 v0 off b (Q : unit → Vm → Prop) v :
  here v0 v → byte_ok b → (∀ v', here v0 v' → Q tt v') → wp cut v0 (mstore8 off b) Q v.
Proof.
  intros Hh Hb HQ. apply wp_seq, wp_mem_expand; [done|]. intros v' Hv'. unfold wp. destruct (_ <? _); [|done].
  pose proof (vo_memory _ (h_ok _ _ Hv')) as [Hm Hl].
  apply HQ, here_memory; [done| |rewrite length_insert; apply Hv'].
  split; [by apply Forall_insert|by rewrite length_insert].
Qed.

Lemma wp_copy_in v0 src off soff n (Q : unit → Vm → Prop) v :
  here v0 v → u64_ok off → vec_ok src → (∀ v', here v0 v' → Q tt v') → wp cut v0 (copy_in src off soff n) Q v.
Proof.
  intros Hh Ho [Hs Hl] HQ. apply wp_seq, wp_mem_expand; [done|]. intros v' Hv'. cbv zeta.
  destruct (0 <? _); [|by apply HQ]. apply wp_mem_write; [done|done| |done]. split; [by apply Forall_take, Forall_drop|].
  unfold slice. rewrite length_take, length_drop. lia.
Qed.
End memory.

(** ** The database *)

Section database.
Context (cut : Vm → Prop).

Lemma wp_get_account v0 a (Q : Account → Vm → Prop) v :
  here v0 v → (∀ acc v', acc_ok acc → here v0 v' → acc = view (state v) a → Q acc v') →
  wp cut v0 (on_state (get_account a)) Q v.
Proof.
  intros Hh HQ. apply (wp_on_state _ _ _ acc_ok); [done| |].
  - intros s Hs. split; [by apply get_account_ok|apply db_prim_steps, prim_load].
  - intros acc v' Ha Hv' E. apply HQ; [done..|]. unfold view. by rewrite E.
Qed.

Lemma wp_balance v0 a (Q : Z → Vm → Prop) v :
  here v0 v → (∀ b v', 0 ≤ b < 2 ^ 128 → here v0 v' → Q b v') → wp cut v0 (on_state (balance a)) Q v.
Proof.
  intros Hh HQ. apply (wp_on_state _ _ _ (λ b, 0 ≤ b < 2 ^ 128)); [done| |intros b v' Hb Hv' _; by apply HQ].
  intros s Hs. unfold balance. pose proof (get_account_ok a s Hs) as [Ha _]. pose proof (prim_load a s) as Hp.
  destruct (get_account a s) as [acc s']. split; [apply Ha|by apply db_prim_steps].
Qed.

Lemma wp_get_storage v0 a k (Q : word → Vm → Prop) v :
  here v0 v → (∀ w v', word_ok w → here v0 v' → Q w v') → wp cut v0 (on_state (get_storage a k)) Q v.
Proof.
  intros Hh HQ. apply (wp_on_state _ _ _ word_ok); [done| |intros w v' Hw Hv' _; by apply HQ].
  intros s Hs. unfold get_storage. pose proof (get_account_ok a s Hs) as [Ha _]. pose proof (prim_load a s) as Hp.
  destruct (get_account a s) as [acc s']. split; [|by apply db_prim_steps]. simpl.
  destruct (acc_storage acc !! k) as [w|] eqn:E; [by apply (ao_storage _ Ha k w)|apply zero_word_ok].
Qed.

Lemma wp_set_storage v0 a k w (Q : unit → Vm → Prop) v :
  here v0 v → word_ok k → word_ok w → (∀ v', here v0 v' → Q tt v') →
  wp cut v0 (on_state (λ s, (tt, set_storage a k w s))) Q v.
Proof.
  intros Hh Hk Hw HQ. apply (wp_on_state _ _ _ (λ _, True)); [done| |intros [] v' _ Hv' _; by apply HQ].
  intros s Hs. split; [done|]. by apply db_prim_steps, prim_store.
Qed.

Lemma wp_clear v0 a (Q : unit → Vm → Prop) v :
  here v0 v → (∀ v', here v0 v' → Q tt v') → wp cut v0 (on_state (λ s, (tt, set_account a Account_default s))) Q v.
Proof.
  intros Hh HQ. apply (wp_on_state _ _ _ (λ _, True)); [done| |intros [] v' _ Hv' _; by apply HQ].
  intros s Hs. split; [done|]. apply db_prim_steps, prim_clear.
Qed.

Lemma wp_transfer v0 f t x (Q : unit → Vm → Prop) v :
  here v0 v → 0 ≤ x < 2 ^ 128 → (∀ v', here v0 v' → transfer f t x (state v) = (Ok tt, state v') → Q tt v') →
  wp cut v0 (try_state (transfer f t x)) Q v.
Proof.
  intros Hh Hx HQ. apply wp_seq, (wp_on_state _ _ _ (λ _, True)); [done| |].
  - intros s Hs. split; [done|]. by apply db_prim_steps, prim_transfer.
  - intros [[]|e] v' _ Hv' E; [by apply HQ|]. by apply wp_raise.
Qed.
End database.

(** ** Automation *)

Lemma here_addr_word v0 v :
  here v0 v → word_ok (from_addr (address v)) ∧ word_ok (from_addr (caller v)) ∧ word_ok (from_addr (origin v)).
Proof. intros [Hok _ _]. destruct (vo_addrs _ Hok) as ([] & [] & []). split_and!; by apply from_addr_ok. Qed.

Lemma calldata_word_ok d i : Forall byte_ok d → word_ok (calldata_word d i).
Proof.
  intros Hd. split; [unfold calldata_word; by rewrite length_fmap|]. apply Forall_fmap, Forall_forall. intros j _. simpl.
  destruct (_ <? _); [|mach]. destruct (nth_in_or_default (Z.to_nat (add64 i (Z.of_nat j))) d 0) as [Hin| ->]; [|mach].
  rewrite Forall_forall in Hd. by apply Hd, list_elem_of_In.
Qed.

Lemma here_calldata_word v0 v i : here v0 v → word_ok (calldata_word (calldata v) i).
Proof. intros [Hok _ _]. apply calldata_word_ok, (vo_calldata _ Hok). Qed.

Lemma op_sdiv_ok a b w : op_sdiv a b = Some w → word_ok w.
Proof. unfold op_sdiv. intros. repeat case_match; simplify_eq; auto with words. Qed.

Lemma op_smod_ok a b w : op_smod a b = Some w → word_ok w.
Proof. unfold op_smod. intros. repeat case_match; simplify_eq; auto with words. Qed.

Lemma exp_cost_nonneg e : 0 ≤ exp_cost e.
Proof.
  unfold exp_cost, bit_length. destruct (e =? 0); [done|]. pose proof (Z.log2_nonneg e).
  pose proof (Z.div_pos (Z.log2 e + 1) 8). lia.
Qed.

Lemma add64_nonneg a b : 0 ≤ add64 a b.
Proof. apply wrap64_ok. Qed.

#[export] Hint Resolve here_calldata_word op_sdiv_ok op_smod_ok : words.
#[export] Hint Extern 1 (word_ok (from_addr (_ ?v))) =>
  match goal with Hh : here _ v |- _ => apply (here_addr_word _ _ Hh) end : words.

Ltac vm_word := unfold op_div, op_mod, op_addmod, op_mulmod, op_exp, op_lt, op_gt, op_slt, op_sgt, op_eq, op_iszero,
  op_shl, op_shr, op_sar; repeat case_match; eauto with words.

Ltac vm_gas := first [lia | apply add64_nonneg | apply exp_cost_nonneg].

(** One rule; what it binds gets fresh names. *)
Ltac vm_step :=
  lazymatch goal with
  | |- wp _ _ (mbind _ _) _ _ => apply wp_seq
  | |- wp _ _ (mret _) _ _ => apply wp_ret
  | |- wp _ _ get_vm _ _ => apply wp_get
  | |- wp _ _ (raise _) _ _ => apply wp_raise; assumption
  | |- wp _ _ (or_panic _) _ _ => apply wp_panic; intros ? ?
  | |- wp _ _ pop _ _ => apply wp_pop; [assumption|intros ? ? ? ?]
  | |- wp _ _ pop_u64 _ _ => apply wp_pop_u64; [assumption|intros ? ? ? ?]
  | |- wp _ _ (push _) _ _ => apply wp_push; [assumption|vm_word|intros ? ?]
  | |- wp _ _ (use_gas _) _ _ => apply wp_use_gas; [assumption|vm_gas|intros ? ? _]
  | |- wp _ _ (mem_take _ _) _ _ => apply wp_mem_take; [assumption..|intros ? ? ? ? _]
  | |- wp _ _ (mload _) _ _ => apply wp_mload; [assumption..|intros ? ? ? ?]
  | |- wp _ _ (mstore _ _) _ _ => apply wp_mstore; [assumption..|intros ? ?]
  | |- wp _ _ (on_state (get_account _)) _ _ => apply wp_get_account; [assumption|intros ? ? ? ? _]
  | |- wp _ _ (on_state (balance _)) _ _ => apply wp_balance; [assumption|intros ? ? ? ?]
  | |- wp _ _ (on_state (get_storage _ _)) _ _ => apply wp_get_storage; [assumption|intros ? ? ? ?]
  | |- wp _ _ (on_state (λ s, (tt, set_storage _ _ _ s))) _ _ => apply wp_set_storage; [assumption..|intros ? ?]
  | |- wp _ _ (on_state (λ s, (tt, set_account _ Account_default s))) _ _ => apply wp_clear; [assumption|intros ? ?]
  end.

Ltac vm_auto := repeat (cbv beta zeta; vm_step); cbv beta; try assumption.

(** ** Opcodes without jumps and sub-calls *)

Section opcodes.
Context `{Heap} (cut : Vm → Prop) (v0 : Vm).

(** The opcode leaves the machine well formed, with its context. *)
Abbreviation keeps m := (∀ v, here v0 v → wp cut v0 m (λ _ vx, here v0 vx) v) (only parsing).

Lemma keeps_arith o : keeps (exec_arith o).
Proof. intros v Hv. destruct o; simpl; unfold binop, binop_panic, ternop; vm_auto. Qed.

Lemma keeps_compare o : keeps (exec_compare o).
Proof. intros v Hv. destruct o; simpl; unfold binop; vm_auto. Qed.

Lemma keeps_bits o : keeps (exec_bits o).
Proof. intros v Hv. destruct o; simpl; unfold binop; vm_auto. Qed.

Lemma keeps_sha3 : keeps exec_sha3.
Proof. intros v Hv. unfold exec_sha3. vm_auto. Qed.

Lemma keeps_push_of f n : (∀ v, here v0 v → word_ok (f v)) → 0 ≤ n → keeps (push_of f n).
Proof.
  intros Hf Hn v Hv. unfold push_of. do 3 vm_step. apply wp_push; [done|by apply Hf|]. intros vx Hvx.
  by apply wp_use_gas.
Qed.

Lemma keeps_pop_copy (src : VM bytes) n :
  (∀ v Q, here v0 v → (∀ d vx, vec_ok d → here v0 vx → Q d vx) → wp cut v0 src Q v) → keeps (pop_copy src n).
Proof.
  intros Hsrc v Hv. unfold pop_copy. do 6 vm_step. cbv beta. vm_step. apply Hsrc; [done|]. intros d vx Hd Hvx.
  apply wp_seq, wp_copy_in; [done..|]. intros vy Hvy. vm_step. done.
Qed.

Lemma keeps_env o : keeps (exec_env o).
Proof.
  destruct o; simpl; try (apply keeps_push_of; [intros; eauto with words|lia]); intros v Hv.
  - vm_auto.
  - do 2 vm_step. cbv beta. apply keeps_push_of; [intros; eauto with words|lia|done].
  - apply keeps_pop_copy; [|done]. intros v1 Q Hv1 HQ. do 3 vm_step. apply HQ; [apply Hv1|done].
  - apply keeps_pop_copy; [|done]. intros v1 Q Hv1 HQ. do 3 vm_step. apply HQ; [apply Hv1|done].
  - vm_auto.
  - do 2 vm_step. cbv beta. apply keeps_pop_copy; [|done]. intros v1 Q Hv1 HQ. do 3 vm_step. apply HQ; [by apply ao_code|done].
  - apply keeps_pop_copy; [|done]. intros v1 Q Hv1 HQ. do 3 vm_step. apply HQ; [apply Hv1|done].
  - vm_auto.
Qed.

Lemma keeps_block o : keeps (exec_block o).
Proof.
  destruct o; simpl; try (apply keeps_push_of; [intros; eauto with words|lia]); intros v Hv; vm_auto.
Qed.

Lemma keeps_sstore : keeps exec_sstore.
Proof.
  intros v Hv. unfold exec_sstore. do 6 vm_step. cbv beta. destruct (static_call _); [by apply wp_raise|].
  do 6 vm_step. cbv beta. destruct (_ && _); [|done]. apply wp_modify; [|done].
  by match goal with Hh : here v0 ?v |- here v0 (?v <| _ := _ |>) => destruct Hh as [[] [[] ? ?] ?] end.
Qed.

Lemma nth_byte_ok i w : word_ok w → byte_ok (nth i w 0).
Proof.
  intros [_ Hw]. destruct (nth_in_or_default i w 0) as [Hin| ->]; [|mach].
  rewrite Forall_forall in Hw. by apply Hw, list_elem_of_In.
Qed.

Lemma keeps_data o : keeps (exec_data o).
Proof.
  intros v Hv. destruct o; simpl; try by vm_auto.
  - do 5 vm_step. cbv beta. apply wp_mstore8; [done|by apply nth_byte_ok|]. intros vx Hvx. by vm_auto.
  - by apply keeps_sstore.
Qed.

Lemma keeps_info o : keeps (exec_info o).
Proof.
  destruct o; simpl; try (apply keeps_push_of; [intros; eauto with words|lia]); intros v Hv; [by vm_auto|].
  do 2 vm_step. destruct (enable_push0 _); vm_auto.
Qed.

(** A piece of a vector's bytes, read with a default. *)
Lemma immediate_ok n p c : (n ≤ 32)%nat → Forall byte_ok c → word_ok (immediate n p c).
Proof.
  intros Hn Hc. apply pad_word_ok; [lia|rewrite length_fmap, length_seq; lia|]. apply Forall_fmap, Forall_forall. intros j _. simpl.
  destruct (_ <? _); [|mach]. destruct (nth_in_or_default (Z.to_nat (add64 p (Z.of_nat j))) c 0) as [Hin| ->]; [|mach].
  rewrite Forall_forall in Hc. by apply Hc, list_elem_of_In.
Qed.

Lemma keeps_push n v :
  (n ≤ 32)%nat → here v0 v → pc v ≤ Z.of_nat (length (code v)) → wp cut v0 (exec_push n) (λ _ vx, here v0 vx) v.
Proof.
  intros Hn Hv Hpc. unfold exec_push. do 3 vm_step. pose proof (vo_code _ (h_ok _ _ Hv)) as [Hc Hl]. pose proof (vo_pc _ (h_ok _ _ Hv)).
  apply wp_modify.
  - rewrite add64_small by mach. destruct Hv as [Hok [[] ? ?] ?].
    split; [|by split|simpl; lia]. destruct Hok. split; simpl; try done. lia.
  - intros vx Hvx _. vm_step. apply wp_push; [done|by apply immediate_ok|]. intros vy Hvy. by vm_step.
Qed.

Lemma nth_word_ok n (s : list word) : Forall word_ok s → word_ok (nth n s zero_word).
Proof.
  intros Hs. destruct (nth_in_or_default n s zero_word) as [Hin| ->]; [|apply zero_word_ok].
  rewrite Forall_forall in Hs. by apply Hs, list_elem_of_In.
Qed.

Lemma keeps_dup n : keeps (exec_dup n).
Proof.
  intros v Hv. unfold exec_dup. do 3 vm_step. destruct (_ <=? _)%nat; [|by vm_auto].
  apply wp_push; [done|by apply nth_word_ok, (vo_stack _ (h_ok _ _ Hv))|]. intros vx Hvx. by vm_auto.
Qed.

Lemma swap_top_ok n (s : list word) : Forall word_ok s → Forall word_ok (swap_top n s) ∧ length (swap_top n s) = length s.
Proof.
  intros Hs. unfold swap_top. destruct (_ <? _)%nat; [|done]. rewrite !length_insert. split; [|done].
  apply Forall_insert; [apply Forall_insert|]; try done; by apply nth_word_ok.
Qed.

Lemma keeps_swap n : keeps (exec_swap n).
Proof.
  intros v Hv. unfold exec_swap. vm_step. destruct (swap_top_ok n (stack v) (vo_stack _ (h_ok _ _ Hv))) as [Hs Hl].
  apply wp_modify; [|intros vx Hvx _; by vm_step].
  destruct Hv as [Hok [[] ? ?] ?]. split; [|by split|done]. destruct Hok. split; simpl; try done. by rewrite Hl.
Qed.

Lemma wp_pop_n n (Q : list word → Vm → Prop) v :
  here v0 v → (∀ ws vx, Forall word_ok ws → here v0 vx → Q ws vx) → wp cut v0 (pop_n n) Q v.
Proof.
  revert Q v. induction n as [|n IH]; intros Q v Hv HQ; simpl; [by apply HQ|]. do 3 vm_step. apply IH; [done|].
  intros ws vx Hws Hvx. vm_step. apply HQ; [by constructor|done].
Qed.

Lemma keeps_log n : keeps (exec_log n).
Proof.
  intros v Hv. unfold exec_log. do 2 vm_step. destruct (static_call v); [by apply wp_raise|]. do 5 vm_step.
  apply wp_pop_n; [done|]. intros ws v1 Hws Hv1. do 3 vm_step. cbv beta.
  apply wp_modify; [|intros vx Hvx _; by vm_step].
  match goal with Hh : here v0 ?v |- here v0 (?v <| _ := _ |>) => destruct Hh as [Hok [[] ? ?] ?] end.
  split; [|by split|done]. destruct Hok as [].
  split; simpl; try done. apply Forall_app. split; [done|]. apply Forall_singleton. split_and!; simpl; try done; [by apply vo_addrs0|].
  by match goal with Hd : vec_ok _ |- Forall byte_ok _ => apply Hd end.
Qed.

Lemma keeps_return rev : keeps (exec_return rev).
Proof.
  intros v Hv. unfold exec_return. do 6 vm_step. cbv beta. apply wp_modify; [|done].
  match goal with Hh : here v0 ?v |- here v0 (?v <| _ := _ |> <| _ := _ |> <| _ := _ |>) => by destruct Hh as [[] [[] ? ?] ?] end.
Qed.

Lemma keeps_selfdestruct : keeps exec_selfdestruct.
Proof.
  intros v Hv. unfold exec_selfdestruct. do 2 vm_step. destruct (static_call v); [by apply wp_raise|].
  do 2 vm_step. cbv beta zeta. do 3 vm_step.
  assert (∀ v1, here v0 v1 → wp cut v0
    (on_state (λ s, (tt, set_account (address v) Account_default s));;
     modify (λ v, v <| stopped := true |>);; use_gas 5000) (λ _ vx, here v0 vx) v1) as Hrest.
  { intros v1 Hv1. do 3 vm_step. apply wp_modify; [|intros vx Hvx _; by vm_step].
    match goal with Hh : here v0 ?v |- here v0 (?v <| _ := _ |>) => by destruct Hh as [[] [[] ? ?] ?] end. }
  destruct (0 <? _); [|by apply wp_ret, Hrest]. apply wp_transfer; [done|lia|]. intros v1 Hv1 _. by apply Hrest.
Qed.
End opcodes.

(** ** Jumps *)

(** A jump was taken and paid for. *)
Record jumped (v0 v : Vm) : Prop := {
  j_ok : vm_ok v;
  j_weak : weak v0 v;
  j_gas : gas v < gas v0;
}.

Section jumps.
Context `{Heap} (cut : Vm → Prop) (v0 : Vm).

(** A jump followed by its price. *)
Lemma wp_jump dest n (Q : unit → Vm → Prop) v :
  here v0 v → u64_ok dest → 0 < n → (∀ v', jumped v0 v' → Q tt v') → wp cut v0 (jump_to dest;; use_gas n) Q v.
Proof.
  intros [Hok [Hc Hg Hd] Hpc] Hdest Hn HQ. unfold wp, jump_to, mbind, VM_bind, get_vm. destruct (_ && _); simpl.
  - unfold use_gas. simpl. destruct (Z.ltb_spec (gas v) n).
    + split; [|by split; [destruct Hc|..]]. destruct Hok. split; simpl; try done. mach.
    + apply HQ. split; [|split; [by destruct Hc|simpl; lia|done]|simpl; lia].
      destruct Hok. split; simpl; try done; mach.
  - by split; [|split].
Qed.

Lemma exec_jump_spec v : here v0 v → wp cut v0 exec_jump (λ _ v', here v0 v' ∨ jumped v0 v') v.
Proof. intros Hv. unfold exec_jump. do 2 vm_step. cbv beta. apply wp_jump; [done|done|lia|by right]. Qed.

Lemma exec_jumpi_spec v : here v0 v → wp cut v0 exec_jumpi (λ _ v', here v0 v' ∨ jumped v0 v') v.
Proof.
  intros Hv. unfold exec_jumpi. do 4 vm_step. cbv beta. case_bool_decide.
  - do 3 vm_step. by left.
  - apply wp_jump; [done|done|lia|by right].
Qed.
End jumps.

(** ** Sub-calls *)

(** The account of a new contract is in place and committed. *)
Record created (v0 v : Vm) : Prop := {
  cr_ok : vm_ok v;
  cr_ctx : ctx_eq v0 v;
  cr_gas : gas v + 32000 ≤ gas v0;
  cr_pc : pc v0 ≤ pc v;
  cr_state : ∃ from c acc s s1, db_steps (state v0) s ∧ funded from c (acc_balance acc) s s1 ∧ acc_ok acc ∧
               state v = commit (set_account c acc s1);
}.

Section sub_calls.
Context `{Heap} (sub : Vm → run_result).

(** Of a nested machine only this is used: it ends well formed with no more gas
    than it got. *)
Definition sub_ok : Prop :=
  ∀ s, vm_ok s → match sub s with Returned _ s' => vm_ok s' ∧ gas s' ≤ gas s | _ => True end.

(** A nested machine was cut off: it starts without code in its state, and it has
    nothing to run, or much less gas, or its caller's state has code. *)
Definition cut (v0 : Vm) : Prop :=
  ∃ s, sub s = OutOfFuel ∧ vm_ok s ∧ codeless (state s) ∧
    (code s = [] ∨ gas s + 32000 ≤ gas v0 ∨ gas s ≤ gas v0 ∧ ¬ codeless (state v0)).

Context (Hsub : sub_ok).

(** Gas is handed over, the nested machine runs, and [k] goes on. *)
Lemma wp_sub_call {A} (K : Vm → Prop) v0 f (mk : Z → EvmStateDb → EvmMetrics → Vm) (k : bool → Vm → VM A)
    (Q : A → Vm → Prop) v :
  here v0 v → (∀ g, 0 ≤ g → 0 ≤ f g ≤ g) →
  (∀ g m, 0 ≤ g ≤ gas v → let s := mk g (EvmStateDb_new false (config v) ∅) m in
     vm_ok s ∧ gas s = g ∧ (sub s = OutOfFuel → K v0)) →
  (∀ ok s g m, vm_ok s → 0 ≤ g ≤ gas v → gas s ≤ g →
     let v' := v <| gas := gas v - g |> <| metrics := m |> in here v0 v' → wp K v0 (k ok s) Q v') →
  wp K v0 (g ← spend_for_sub f; '(ok, s) ← run_sub sub (mk g); k ok s) Q v.
Proof.
  intros Hv Hf Hmk Hk. pose proof (vo_gas _ (h_ok _ _ Hv)) as Hgas.
  assert (0 ≤ mul64 (gas v) 63 `div` 64 ≤ gas v) as Hshare.
  { assert (0 ≤ mul64 (gas v) 63 ≤ gas v * 63) as Hm.
    { unfold mul64. split; [apply wrap64_ok|apply Z.mod_le; mach]. }
    split; [apply Z.div_pos; lia|]. apply Z.div_le_upper_bound; mach. }
  pose proof (Hf _ (proj1 Hshare)) as Hg. apply wp_seq. unfold wp at 1, spend_for_sub.
  set (g := f _) in *. rewrite sub64_small by mach. apply wp_seq. unfold wp at 1, run_sub. cbn [config metrics].
  destruct (Hmk g (metrics v)) as (Hs & Hsg & Hcut); [lia|]. set (s0 := mk g _ _) in *.
  change (mk g (EvmStateDb_new false (config (v <| gas := gas v - g |>)) ∅) (metrics (v <| gas := gas v - g |>))) with s0.
  specialize (Hsub s0 Hs). destruct (sub s0) as [r s| |] eqn:E; [|done|by apply Hcut].
  destruct Hsub as [Hs' Hle]. apply Hk; [done|lia|lia|]. destruct Hv as [Hok [[] ? ?] ?].
  split; [|by split; [|simpl; lia|]|done]. destruct Hok. split; simpl; try done. mach.
Qed.

Lemma Vm_new_ok c st cd from a x d g m static :
  db_ok st → 0 ≤ max_stack_depth c → vec_ok cd → addr_ok from → addr_ok a → 0 ≤ x < 2 ^ 128 → vec_ok d → u64_ok g →
  vm_ok (Vm_new c st cd from a x d g m static).
Proof. intros. split; simpl; try done; split; simpl; try done; constructor. Qed.

Lemma depth_nonneg v : vm_ok v → 0 ≤ max_stack_depth (config v).
Proof. intros Hv. pose proof (vo_depth _ Hv). lia. Qed.

(** The unused gas comes back. *)
Lemma here_return_gas v0 v g m s :
  let v' := v <| gas := gas v - g |> <| metrics := m |> in
  here v0 v → here v0 v' → vm_ok s → 0 ≤ g ≤ gas v → gas s ≤ g → here v0 (v' <| gas := add64 (gas v') (gas s) |>).
Proof.
  intros v' Hv Hv' Hs Hg Hle. pose proof (vo_gas _ Hs). pose proof (vo_gas _ (h_ok _ _ Hv)). unfold v' in *. simpl.
  rewrite add64_small by mach. pose proof (wk_gas _ _ (h_weak _ _ Hv)). destruct Hv' as [Hok [[] ? ?] ?].
  split; [|by split; [|simpl; lia|]|done]. destruct Hok. split; simpl; try done. mach.
Qed.

Lemma here_take_logs v0 v s : here v0 v → vm_ok s → here v0 (v <| logs := logs v ++ logs s |>).
Proof.
  intros [Hok [[] ? ?] ?] Hs. split; [|by split|done]. pose proof (vo_logs _ Hs). destruct Hok. split; simpl; try done.
  by apply Forall_app.
Qed.

Lemma wp_finish_call v0 v g m ret_off ret_len ok s :
  let v' := v <| gas := gas v - g |> <| metrics := m |> in
  here v0 v → here v0 v' → vm_ok s → 0 ≤ g ≤ gas v → gas s ≤ g → u64_ok ret_off →
  wp cut v0 (finish_call ret_off ret_len ok s) (λ _ vx, here v0 vx) v'.
Proof.
  intros v' Hv Hv' Hs Hg Hle Hoff. unfold finish_call, return_gas, take_logs. apply wp_seq, wp_modify.
  { by apply here_return_gas. }
  intros v1 Hv1 _. apply wp_seq.
  assert (∀ v2, here v0 v2 → here v0 (v2 <| logs := logs v2 ++ logs s |>)) as Hlogs by (intros; by apply here_take_logs).
  destruct ok; cbv zeta.
  - apply wp_seq. destruct (0 <? _).
    + apply wp_seq, wp_mem_expand; [done|]. intros v2 Hv2. apply wp_mem_write; [done|done| |].
      * destruct (vo_output _ Hs) as [Hb Hl]. split; [by apply Forall_take|]. rewrite length_take. lia.
      * intros v3 Hv3. apply wp_push; [done|apply from_u64_ok|]. intros v4 Hv4. apply wp_modify; [by apply Hlogs|done].
    + apply wp_ret, wp_push; [done|apply from_u64_ok|]. intros v4 Hv4. apply wp_modify; [by apply Hlogs|done].
  - apply wp_push; [done|apply zero_word_ok|]. intros v4 Hv4. apply wp_modify; [by apply Hlogs|done].
Qed.

Lemma exec_call_spec v0 kind v :
  db_ok (state v0) → here v0 v → wp cut v0 (exec_call sub kind) (λ _ vx, here v0 vx) v.
Proof.
  intros Hdb0 Hv. unfold exec_call. apply wp_seq, wp_pop_u64; [done|]. intros cg v1 Hcg K1.
  apply wp_seq, wp_pop; [done|]. intros wa v2 Hwa K2. cbv zeta. apply wp_seq, wp_get, wp_seq.
  assert (∀ Q : Z → Vm → Prop, (∀ x vx, 0 ≤ x < 2 ^ 128 → here v0 vx → Q x vx) →
    wp cut v0 (match kind with DELEGATECALL => mret (value v2) | _ => w ← pop; mret (to_u128 w) end) Q v2) as Hval.
  { intros Q HQ. destruct kind; try (apply wp_seq, wp_pop; [done|]; intros w vx Hw Hx; apply wp_ret, HQ; [by apply to_u128_bound|done]).
    apply wp_ret, HQ; [apply (vo_value _ (h_ok _ _ K2))|done]. }
  apply Hval. clear Hval. intros x v3 Hx K3. do 4 (apply wp_seq, wp_pop_u64; [done|]; intros ? ? ? ?).
  set (pays := match kind with DELEGATECALL => false | _ => 0 <? x end). destruct (_ && pays); [by apply wp_raise|].
  apply wp_seq, wp_mem_take; [done..|]. intros data v4 Hdata K4 _. apply wp_seq.
  set (to := match kind with CALL => to_addr wa | _ => address v2 end).
  assert (∀ Q : unit → Vm → Prop, (∀ vx, here v0 vx → Q tt vx) →
    wp cut v0 (if pays then try_state (transfer (caller v2) to x) else mret tt) Q v4) as Hpay.
  { intros Q HQ. destruct pays; [|by apply wp_ret, HQ]. apply wp_transfer; [done|done|]. intros vx Hvx _. by apply HQ. }
  apply Hpay. clear Hpay. intros v5 K5. apply wp_seq, wp_get_account; [done|]. intros acc v6 Hacc K6 ->.
  destruct (vo_addrs _ (h_ok _ _ K2)) as (Hadr & Hcal & _). destruct (to_addr_ok wa Hwa) as [Ht1 Ht2].
  apply (wp_sub_call cut v0 (Z.min cg) (λ g st m, Vm_new (config v2) st (acc_code (view (state v5) (to_addr wa)))
           (caller v2) to x data g m false)); [done|intros; mach| |].
  - intros g m Hg. pose proof (vo_gas _ (h_ok _ _ K6)). assert (vm_ok (Vm_new (config v2) (EvmStateDb_new false (config v6) ∅) (acc_code (view (state v5) (to_addr wa)))
      (caller v2) to x data g m false)) as Hnew.
    { apply Vm_new_ok; first [done|apply EvmStateDb_new_ok|by apply depth_nonneg, K2|apply Hacc|by unfold to; destruct kind|mach]. }
    split_and!; [done|done|]. intros Hfuel. eexists. split_and!; [exact Hfuel|done|apply codeless_new|]. simpl.
    pose proof (wk_gas _ _ (h_weak _ _ K6)).
    destruct (acc_code (view (state v5) (to_addr wa))) eqn:Ec; [by left|right; right]. split; [lia|]. intros Hcl.
      apply (db_steps_codeless _ _ (wk_db _ _ (h_weak _ _ K5)) Hdb0) in Hcl. by rewrite Hcl in Ec.
  - intros ok s g m Hs Hg Hle vx Hvx. by apply wp_finish_call.
Qed.

(** The same run, seen from an earlier machine. *)
Lemma wp_rebase {A} v0 v1 (m : VM A) (Q : A → Vm → Prop) v :
  weak v0 v1 → wp (λ _, cut v0) v1 m Q v → wp cut v0 m Q v.
Proof.
  intros Hw. unfold wp. destruct (m v); try done; intros []; (split; [done|by etrans]).
Qed.

(** After the price of a CREATE is paid: a contract is created or it is not. *)
Definition maybe_created (v1 v : Vm) : Prop :=
  here v1 v ∨ vm_ok v ∧ ctx_eq v1 v ∧ gas v ≤ gas v1 ∧ pc v1 ≤ pc v ∧
    ∃ from c acc s s1, db_steps (state v1) s ∧ funded from c (acc_balance acc) s s1 ∧ acc_ok acc ∧
      state v = commit (set_account c acc s1).

(** What a push leaves. *)
Definition pushed (w : word) (v : Vm) : Vm :=
  if max_stack_depth (config v) <=? Z.of_nat (length (stack v))
  then v <| reverted := true |> else v <| stack := w :: stack v |>.

Lemma pushed_ok w v : word_ok w → vm_ok v → vm_ok (pushed w v).
Proof.
  intros Hw Hv. unfold pushed.
  destruct (Z.leb_spec (max_stack_depth (config v)) (Z.of_nat (length (stack v)))); [by destruct Hv|].
  destruct Hv. split; simpl; try done; [by constructor|lia].
Qed.

Lemma pushed_eq w v :
  ctx_eq v (pushed w v) ∧ gas (pushed w v) = gas v ∧ pc (pushed w v) = pc v ∧ state (pushed w v) = state v ∧
  logs (pushed w v) = logs v.
Proof. unfold pushed. by destruct (_ <=? _). Qed.

(** The end of a creation: the address or zero on the stack, gas and logs. *)
Definition closed (w : word) (s v : Vm) : Vm :=
  let v := pushed w v in
  let v := v <| gas := add64 (gas v) (gas s) |> in v <| logs := logs v ++ logs s |>.

Lemma closed_ok w s v : word_ok w → vm_ok v → vm_ok s → vm_ok (closed w s v).
Proof.
  intros Hw Hv Hs. apply (pushed_ok w) in Hv; [|done]. pose proof (vo_logs _ Hs). destruct Hv.
  split; simpl; try done; [apply wrap64_ok|]. by apply Forall_app.
Qed.

Lemma closed_eq w s v :
  ctx_eq v (closed w s v) ∧ gas (closed w s v) = add64 (gas v) (gas s) ∧ pc (closed w s v) = pc v ∧
  state (closed w s v) = state v.
Proof.
  destruct (pushed_eq w v) as ([] & Hg & Hp & Hst & _). unfold closed. simpl. rewrite Hg. by split_and!.
Qed.

Lemma finish_create (K : Vm → Prop) v1 v g m (ok : bool) s c x s3 from :
  let v' := v <| gas := gas v - g |> <| metrics := m |> in
  here v1 v → here v1 v' → vm_ok s → 0 ≤ g ≤ gas v → gas s ≤ g → addr_ok c → 0 ≤ x < 2 ^ 128 →
  db_steps (state v1) s3 → funded from c x s3 (state v) →
  wp K v1 ((if ok && negb (bool_decide (output s = [])) then
     on_state (λ st, (tt, commit (set_account c (mkAccount x 0 (output s) ∅) st)));; push (from_addr c)
   else push zero_word);; return_gas s;; take_logs s) (λ _ vx, maybe_created v1 vx) v'.
Proof.
  intros v' Hv Hv' Hs Hg Hle Hc Hx Hst Hf.
  pose proof (here_return_gas v1 v g m s Hv Hv' Hs Hg Hle) as [_ [_ Hwg _] _]. fold v' in Hwg. simpl gas in Hwg.
  destruct Hv' as [Hok [Hctx Hvg Hdb] Hpc]. destruct (ok && _).
  - set (acc := mkAccount x 0 (output s) ∅). set (v2 := v' <| state := commit (set_account c acc (state v)) |>).
    assert (acc_ok acc) as Hacc by (split; simpl; [done|mach|apply Hs|done]).
    assert (vm_ok v2) as Hok2.
    { destruct Hok. split; simpl in *; try done. by apply commit_ok, set_account_ok. }
    change (maybe_created v1 (closed (from_addr c) s v2)). right.
    destruct (closed_eq (from_addr c) s v2) as (Hce & Hcg & Hcp & Hcs). rewrite Hcg, Hcp, Hcs. split_and!.
    + apply closed_ok; [destruct Hc; by apply from_addr_ok|done|done].
    + etrans; [exact Hctx|]. etrans; [|exact Hce]. done.
    + exact Hwg.
    + exact Hpc.
    + by exists from, c, acc, s3, (state v).
  - change (maybe_created v1 (closed zero_word s v')). left.
    destruct (closed_eq zero_word s v') as (Hce & Hcg & Hcp & Hcs). split.
    + apply closed_ok; [apply zero_word_ok|done|done].
    + split; [by etrans|by rewrite Hcg|by rewrite Hcs].
    + by rewrite Hcp.
Qed.

(** The rest of a CREATE, started on the machine [v1] that has paid. *)
Lemma create_at_spec v0 v1 c w init_code v :
  here v1 v → gas v1 + 32000 ≤ gas v0 → addr_ok c → word_ok w → vec_ok init_code →
  wp (λ _, cut v0) v1 (create_at sub c (to_u128 w) init_code) (λ _ vx, maybe_created v1 vx) v.
Proof.
  intros Hv Hgas Hc Hw Hcode. pose proof (to_u128_bound w Hw) as Hx. unfold create_at. apply wp_seq, wp_get, wp_seq.
  assert (∀ Q : unit → Vm → Prop,
    (∀ vx, here v1 vx → funded (caller v) c (to_u128 w) (state v) (state vx) → Q tt vx) →
    wp (λ _, cut v0) v1 (if 0 <? to_u128 w then try_state (transfer (caller v) c (to_u128 w)) else mret tt) Q v) as Hpay.
  { intros Q HQ. destruct (Z.ltb_spec 0 (to_u128 w)).
    - apply wp_transfer; [done|done|]. intros vx Hvx Ht. apply HQ; [done|]. right. split; [lia|done].
    - apply wp_ret, HQ; [done|]. left. split; [lia|done]. }
  apply Hpay. clear Hpay. intros v2 K2 Hf. destruct (vo_addrs _ (h_ok _ _ Hv)) as (_ & Hcal & _).
  apply (wp_sub_call _ v1 (λ g, g) (λ g st m, Vm_new (config v) st init_code (caller v) c (to_u128 w) [] g m false));
    [done|done| |].
  - intros g m Hg. pose proof (vo_gas _ (h_ok _ _ K2)). pose proof (wk_gas _ _ (h_weak _ _ K2)).
    assert (vm_ok (Vm_new (config v) (EvmStateDb_new false (config v2) ∅) init_code (caller v) c (to_u128 w) [] g m false)) as Hnew.
    { apply Vm_new_ok; first [done|apply EvmStateDb_new_ok|by apply depth_nonneg, Hv|by split; [constructor|]|mach]. }
    split_and!; [done|done|]. intros Hfuel. eexists. split_and!; [exact Hfuel|done|apply codeless_new|]. simpl. lia.
  - intros ok s g m Hs Hg Hle vx Hvx. apply (finish_create _ v1 v2 g m ok s c (to_u128 w) (state v) (caller v)); try done. apply Hv.
Qed.

Lemma created_of v0 v1 v :
  weak v0 v1 → pc v0 ≤ pc v1 → gas v1 + 32000 ≤ gas v0 → maybe_created v1 v → here v0 v ∨ created v0 v.
Proof.
  intros Hw Hpc Hg [[Hok Hw1 Hpc1]|(Hok & Hctx & Hg1 & Hpc1 & from & c & acc & s & s1 & Hst & Hrest)].
  - left. split; [done|by etrans|lia].
  - right. destruct Hw as [Hctx0 _ Hdb]. split; [done|by etrans|lia|lia|]. exists from, c, acc, s, s1.
    split; [by etrans|done].
Qed.

Lemma hash_addr_ok l : addr_ok (drop 12 (keccak256 l)).
Proof. apply to_addr_ok, keccak256_ok. Qed.

(** CREATE and CREATE2 after the check for static calls. *)
Lemma paid_create_spec v0 v (rest : VM unit) :
  here v0 v →
  (∀ v1, here v0 v1 → gas v1 + 32000 ≤ gas v0 → wp (λ _, cut v0) v1 rest (λ _ vx, maybe_created v1 vx) v1) →
  wp cut v0 (use_gas 32000;; rest) (λ _ vx, here v0 vx ∨ created v0 vx) v.
Proof.
  intros Hv Hrest. apply wp_seq, wp_use_gas; [done|lia|]. intros v1 Hv1 ->.
  pose proof (wk_gas _ _ (h_weak _ _ Hv)). set (v1 := v <| gas := _ |>) in *.
  assert (gas v1 + 32000 ≤ gas v0) as Hg by (simpl; lia).
  apply (wp_rebase _ v1); [apply Hv1|]. specialize (Hrest v1 Hv1 Hg). revert Hrest. unfold wp.
  destruct (rest v1); try done. apply created_of; [apply Hv1..|done].
Qed.

Lemma exec_create_spec v0 v : here v0 v → wp cut v0 (exec_create sub) (λ _ vx, here v0 vx ∨ created v0 vx) v.
Proof.
  intros Hv. unfold exec_create. apply wp_seq, wp_get. destruct (static_call v); [by apply wp_raise|].
  apply paid_create_spec; [done|]. intros v1 Hv1 Hg. pose proof (here_refl v1 (h_ok _ _ Hv1)).
  apply wp_seq, wp_pop; [done|]. intros w v2 Hw H2. do 2 (apply wp_seq, wp_pop_u64; [done|]; intros ? ? ? ?).
  apply wp_seq, wp_mem_take; [done..|]. intros d v3 Hd H3' _. apply wp_seq, wp_get_account; [done|].
  intros acc v4 Hacc H4' _. apply create_at_spec; try done. apply hash_addr_ok.
Qed.

Lemma exec_create2_spec v0 v : here v0 v → wp cut v0 (exec_create2 sub) (λ _ vx, here v0 vx ∨ created v0 vx) v.
Proof.
  intros Hv. unfold exec_create2. apply wp_seq, wp_get. destruct (static_call v); [by apply wp_raise|].
  apply paid_create_spec; [done|]. intros v1 Hv1 Hg. pose proof (here_refl v1 (h_ok _ _ Hv1)).
  apply wp_seq, wp_pop; [done|]. intros w v2 Hw H2. do 2 (apply wp_seq, wp_pop_u64; [done|]; intros ? ? ? ?).
  apply wp_seq, wp_pop; [done|]. intros salt v3 Hsalt H3'.
  apply wp_seq, wp_mem_take; [done..|]. intros d v4 Hd H4' _. cbv zeta. apply create_at_spec; try done. apply hash_addr_ok.
Qed.

(** ** Every opcode *)

(** One turn: forward, a paid jump, or a new contract. *)
Definition moved (v0 v : Vm) : Prop := here v0 v ∨ jumped v0 v ∨ created v0 v.

Definition opcode_ok (o : opcode) : Prop := match o with PUSH n => (n ≤ 32)%nat | _ => True end.

Definition is_create (o : opcode) : bool := match o with CREATE | CREATE2 => true | _ => false end.

Lemma exec_plain_spec o v :
  opcode_ok o → is_create o = false → vm_ok v → pc v ≤ Z.of_nat (length (code v)) →
  wp cut v (exec sub o) (λ _ vx, here v vx ∨ jumped v vx) v.
Proof.
  intros Ho Hplain Hv Hpc. pose proof (here_refl v Hv) as Hh.
  assert (∀ m : VM unit, wp cut v m (λ _ vx, here v vx) v → wp cut v m (λ _ vx, here v vx ∨ jumped v vx) v) as Hhere.
  { intros m. apply wp_weaken. by left. }
  destruct o; simpl; try discriminate Hplain.
  - apply Hhere, wp_modify; [by destruct Hh as [[] [[] ? ?] ?]|done].
  - by apply Hhere, keeps_arith.
  - by apply Hhere, keeps_compare.
  - by apply Hhere, keeps_bits.
  - by apply Hhere, keeps_sha3.
  - by apply Hhere, keeps_env.
  - by apply Hhere, keeps_block.
  - by apply Hhere, keeps_data.
  - by apply Hhere, keeps_info.
  - by apply exec_jump_spec.
  - by apply exec_jumpi_spec.
  - by apply Hhere, keeps_push.
  - by apply Hhere, keeps_dup.
  - by apply Hhere, keeps_swap.
  - by apply Hhere, keeps_log.
  - apply Hhere, exec_call_spec; [apply Hv|done].
  - by apply Hhere, keeps_return.
  - by apply Hhere, keeps_return.
  - by apply Hhere, keeps_selfdestruct.
  - by apply wp_raise.
Qed.

Lemma exec_spec o v :
  opcode_ok o → vm_ok v → pc v ≤ Z.of_nat (length (code v)) → wp cut v (exec sub o) (λ _ vx, moved v vx) v.
Proof.
  intros Ho Hv Hpc. pose proof (here_refl v Hv) as Hh. destruct (is_create o) eqn:Ec.
  - destruct o; try done; simpl.
    + eapply wp_weaken; [|by apply exec_create_spec]. intros _ vx [?|?]; [by left|by right; right].
    + eapply wp_weaken; [|by apply exec_create2_spec]. intros _ vx [?|?]; [by left|by right; right].
  - eapply wp_weaken; [|by apply exec_plain_spec]. intros _ vx [?|?]; [by left|by right; left].
Qed.
End sub_calls.
