(* ===== verification/EvmRun.v ===== *)
(** * Runs of the EVM interpreter and its transactions ([src/src/blockchain/revm_port.rs]).

    The loop of the interpreter ends for every code, keeps its machine well
    formed and never gains gas; a call creates no money; a failed call that
    creates no contract leaves nothing behind but the sender's nonce. Then cases
    in which a contract stops the kernel or a transaction breaks the ledger. *)

From Stdlib Require Import ZArith Lia Bool.
From stdpp Require Import base gmap sets numbers list relations.
From S2P Require Import Prelude Types EvmWords Evm EvmState EvmProofs.

Local Open Scope Z_scope.

Lemma decode_ok op : byte_ok op → opcode_ok (decode op).
Proof.
  intros Hop. assert (forallb (λ op, match decode op with PUSH n => n <=? 32 | _ => true end)%nat (seqZ 0 256) = true) as Hall
    by (vm_compute; reflexivity).
  rewrite forallb_forall in Hall. specialize (Hall op). unfold opcode_ok. destruct (decode op); try done.
  apply Nat.leb_le, Hall, list_elem_of_In, elem_of_seqZ. mach.
Qed.

(** A turn of the loop, or several. *)
Record runs (v v' : Vm) : Prop := {
  rn_ok : vm_ok v';
  rn_ctx : ctx_eq v v';
  rn_gas : gas v' ≤ gas v;
  rn_db : db_moves (state v) (state v');
}.

Lemma runs_refl v : vm_ok v → runs v v.
Proof. intros. by split. Qed.

Lemma runs_trans v1 v2 v3 : runs v1 v2 → runs v2 v3 → runs v1 v3.
Proof. intros [] []. split; [done|by etrans|lia|by etrans]. Qed.

(** What is left: every turn lowers it. *)
Definition remaining (v : Vm) : Z :=
  let len := Z.of_nat (length (code v)) in gas v * (len + 1) + Z.max 0 (len - pc v).

(** At most [b] is spent in all, a creation included if there is no code yet. *)
Definition within (b : Z) (v : Vm) : Prop := gas v ≤ b ∧ (codeless (state v) ∨ gas v + 32000 ≤ b).

Section runs.
Context `{Heap}.

Section turns.
Context (sub : Vm → run_result) (Hsub : sub_ok sub).

Lemma moved_facts v v' :
  db_ok (state v) → moved v v' → runs v v' ∧ (pc v ≤ pc v' ∨ gas v' < gas v) ∧ ∀ b, within b v → within b v'.
Proof.
  intros Hdb [[Hok [Hc Hg Hs] Hpc]|[[Hok [Hc Hg Hs] Hlt]|[Hok Hc Hg Hpc Hst]]].
  - split_and!; [split; [done|done|done|by apply db_steps_moves]|by left|]. intros b [Hb [Hcl|?]]; (split; [lia|]); [|right; lia].
    left. by eapply db_steps_codeless.
  - split_and!; [split; [done|done|done|by apply db_steps_moves]|by right|]. intros b [Hb [Hcl|?]]; (split; [lia|]); [|right; lia].
    left. by eapply db_steps_codeless.
  - split_and!; [split; [done|done|lia|]|by left|].
    + destruct Hst as (from & c & acc & s & s1 & Hst & Hf & Ha & ->). etrans; [by apply db_steps_moves|].
      apply rtc_once. by eapply move_create.
    + intros b [Hb _]. split; [lia|right; lia].
Qed.

Lemma turn_spec v :
  vm_ok v →
  match turn sub v with
  | inl v' => runs v v' ∧ 0 ≤ remaining v' < remaining v ∧ ∀ b, within b v → within b v'
  | inr (Returned _ v') => runs v v'
  | inr Panicked => True
  | inr OutOfFuel => cut sub v
  end.
Proof.
  intros Hv. unfold turn. destruct (_ && (pc v <? Z.of_nat (length (code v)))) eqn:Ec; [|by apply runs_refl].
  apply andb_true_iff in Ec as [_ Hpc%Z.ltb_lt]. pose proof (vo_pc _ Hv). destruct (vo_code _ Hv) as [Hcode Hlen].
  unfold fetch_exec. set (op := nth (Z.to_nat (pc v)) (code v) 0). rewrite add64_small by mach.
  set (v1 := v <| pc := pc v + 1 |> <| metrics := record_opcode op (metrics v) |>).
  assert (vm_ok v1) as Hv1 by (destruct Hv; split; simpl; try done; lia).
  assert (opcode_ok (decode op)) as Hop.
  { apply decode_ok. destruct (nth_in_or_default (Z.to_nat (pc v)) (code v) 0) as [Hin|Hd]; unfold op; [|rewrite Hd; mach].
    rewrite Forall_forall in Hcode. by apply Hcode, list_elem_of_In. }
  pose proof (exec_spec sub Hsub (decode op) v1 Hop Hv1 ltac:(simpl; lia)) as Hx. unfold wp in Hx.
  assert (∀ v', vm_ok v' ∧ weak v1 v' → runs v v') as Hend.
  { intros v' [Hok' [[] Hg Hs]]. split; [done|by split|done|by apply db_steps_moves]. }
  destruct (exec sub (decode op) v1) as [[] v'|v'|e v'| |]; try done; [|by apply Hend|by apply Hend].
  destruct (moved_facts v1 v' (vo_state _ Hv1) Hx) as ([Hok' Hctx Hg Hs] & Hprog & Hw).
  assert (code v' = code v) as Hcode' by apply Hctx.
  split_and!; [split; [done|by destruct Hctx|done|done]|..|exact Hw].
  - unfold remaining. pose proof (vo_gas _ Hok'). mach_nl.
  - unfold remaining. rewrite Hcode'. simpl in Hprog, Hg.
    pose proof (vo_gas _ Hok'). pose proof (vo_pc _ Hok'). destruct Hprog as [?|?]; mach_nl.
Qed.
End turns.

Lemma remaining_bound v : vm_ok v → 0 ≤ remaining v < Z.pos (Z.to_pos (turn_bound v + 1)).
Proof.
  intros Hv. pose proof (vo_gas _ Hv). pose proof (vo_pc _ Hv). unfold remaining, turn_bound.
  rewrite Z2Pos.id by mach_nl. mach_nl.
Qed.

(** A machine ends well formed, with its context and no more gas. *)
Lemma run_nested_runs d v : vm_ok v → match run_nested d v with Returned _ v' => runs v v' | _ => True end.
Proof.
  revert v. induction d as [|d IH]; intros v Hv; simpl; [done|].
  assert (sub_ok (run_nested d)) as Hsub.
  { intros s Hs. specialize (IH s Hs). destruct (run_nested d s); [|done|done]. by destruct IH. }
  pose proof (loop_upto_inv (turn (run_nested d)) (λ v', runs v v')
    (λ r, match r with Returned _ v' => runs v v' | _ => True end) (Z.to_pos (turn_bound v + 1)) v) as Hloop.
  destruct (loop_upto _ _ _) as [v'|r]; [done|]. apply Hloop; [|by apply runs_refl].
  intros v' Hv'. pose proof (turn_spec _ Hsub v' (rn_ok _ _ Hv')) as Ht.
  destruct (turn _ v') as [v''|[r' v''| |]]; [|by eapply runs_trans|done|done]. destruct Ht as [Ht _]. by eapply runs_trans.
Qed.

Lemma run_nested_sub_ok d : sub_ok (run_nested d).
Proof. intros s Hs. pose proof (run_nested_runs d s Hs) as Hr. destruct (run_nested d s); [|done|done]. by destruct Hr. Qed.

(** Enough nesting: a level for the machine, one for empty code, and one for
    every creation that can be paid. *)
Lemma run_nested_ends d v b :
  vm_ok v → within b v → (code v = [] ∧ 1 ≤ Z.of_nat d) ∨ 2 + b `div` 32000 ≤ Z.of_nat d → run_nested d v ≠ OutOfFuel.
Proof.
  revert v b. induction d as [|d IH]; intros v b Hv Hb Hd.
  { exfalso. pose proof (vo_gas _ Hv). destruct Hb as [Hb _]. destruct Hd as [[_ ?]|Hd]; [lia|]. pose proof (Z.div_pos b 32000). mach. }
  simpl. set (I := λ v', vm_ok v' ∧ within b v' ∧ code v' = code v).
  pose proof (run_nested_sub_ok d) as Hsub. pose proof (remaining_bound v Hv) as Hrem.
  destruct (loop_upto_ends (turn (run_nested d)) I remaining (Z.to_pos (turn_bound v + 1)) v) as [r Hr]; [|done|lia|lia|].
  { intros v' (Hok & Hw & Hc). pose proof (turn_spec _ Hsub v' Hok) as Ht. destruct (turn _ v') as [v''|]; [|done].
    destruct Ht as ([Hok' [] _ _] & Hlt & Hwi). split; [|done]. split_and!; [done|by apply Hwi|congruence]. }
  rewrite Hr. pose proof (loop_upto_inv (turn (run_nested d)) I (λ r, r ≠ OutOfFuel) (Z.to_pos (turn_bound v + 1)) v) as Hloop.
  rewrite Hr in Hloop. apply Hloop; [|done]. clear Hloop Hr r Hrem. intros v' (Hok & Hw & Hc).
  pose proof (turn_spec _ Hsub v' Hok) as Ht. destruct (turn (run_nested d) v') as [v''|[r' v''| |]] eqn:Et; try done.
  - destruct Ht as ([Hok' [] _ _] & _ & Hwi). split_and!; [done|by apply Hwi|congruence].
  - destruct Hd as [[Hnil _]|Hd].
    { unfold turn in Et. rewrite Hc, Hnil in Et. pose proof (vo_pc _ Hok). rewrite (proj2 (Z.ltb_ge (pc v') _)) in Et by (simpl; lia).
      by rewrite andb_false_r in Et. }
    destruct Ht as (s & Hs & Hsok & Hcl & Hcase). pose proof (vo_gas _ Hsok). pose proof (vo_gas _ Hok).
    destruct Hw as [Hwb Hwc].
    exfalso. destruct Hcase as [Hnil|Hcase].
    + apply (IH s (gas s)); [done|by split; [lia|left]|left|done]. split; [done|]. pose proof (Z.div_pos b 32000). mach.
    + assert (gas s + 32000 ≤ b) as Hle by (destruct Hcase as [?|[? Hn]]; [lia|]; destruct Hwc; [done|lia]).
      apply (IH s (b - 32000)); [done|by split; [lia|left]|right|done].
      replace (b - 32000) with (b + (-1) * 32000) by lia. rewrite Z.div_add by lia. lia.
Qed.

(** *** Code that creates no contract *)

Definition no_create (code : bytes) : Prop := Forall (λ b, b ≠ 0xf0 ∧ b ≠ 0xf5) code.

Lemma decode_create op : byte_ok op → is_create (decode op) = true → op = 0xf0 ∨ op = 0xf5.
Proof.
  intros Hop Hc. assert (forallb (λ op, negb (is_create (decode op)) || (op =? 0xf0) || (op =? 0xf5)) (seqZ 0 256) = true) as Hall
    by (vm_compute; reflexivity).
  rewrite forallb_forall in Hall. specialize (Hall op). rewrite Hc in Hall.
  assert ((op =? 0xf0) || (op =? 0xf5) = true) as [?%Z.eqb_eq|?%Z.eqb_eq]%orb_true_iff; [|by left|by right].
  apply Hall, list_elem_of_In, elem_of_seqZ. mach.
Qed.

Lemma turn_plain sub v :
  sub_ok sub → vm_ok v → no_create (code v) →
  match turn sub v with
  | inl v' | inr (Returned _ v') => db_steps (state v) (state v')
  | _ => True
  end.
Proof.
  intros Hsub Hv Hnc. unfold turn.
  destruct (_ && (pc v <? Z.of_nat (length (code v)))) eqn:Ec; [|apply rtc_refl].
  apply andb_true_iff in Ec as [_ Hpc%Z.ltb_lt]. pose proof (vo_pc _ Hv). destruct (vo_code _ Hv) as [Hcode Hlen].
  unfold fetch_exec. set (op := nth (Z.to_nat (pc v)) (code v) 0). rewrite add64_small by mach.
  set (v1 := v <| pc := pc v + 1 |> <| metrics := record_opcode op (metrics v) |>).
  assert (vm_ok v1) as Hv1 by (destruct Hv; split; simpl; try done; lia).
  assert (op ∈ code v) as Hin by (apply list_elem_of_In, nth_In; lia).
  assert (byte_ok op) as Hb by (rewrite Forall_forall in Hcode; by apply Hcode).
  assert (is_create (decode op) = false) as Hplain.
  { destruct (is_create (decode op)) eqn:Ecr; [|done]. unfold no_create in Hnc. rewrite Forall_forall in Hnc.
    destruct (Hnc op Hin). by destruct (decode_create op Hb Ecr). }
  pose proof (exec_plain_spec sub Hsub (decode op) v1 (decode_ok op Hb) Hplain Hv1 ltac:(simpl; lia)) as Hx. unfold wp in Hx.
  destruct (exec sub (decode op) v1) as [[] v'|v'|e v'| |]; try done; [|apply Hx..].
  destruct Hx as [Hx|Hx]; apply Hx.
Qed.

Lemma run_plain v : vm_ok v → no_create (code v) → match run v with Returned _ v' => db_steps (state v) (state v') | _ => True end.
Proof.
  intros Hv Hnc. unfold run. generalize (3 + Z.to_nat (gas v `div` 32000))%nat as d. intros [|d]; [done|]. simpl.
  pose proof (run_nested_sub_ok d) as Hsub.
  pose proof (loop_upto_inv (turn (run_nested d)) (λ v', runs v v' ∧ db_steps (state v) (state v'))
    (λ r, match r with Returned _ v' => db_steps (state v) (state v') | _ => True end) (Z.to_pos (turn_bound v + 1)) v) as Hloop.
  destruct (loop_upto _ _ _) as [v'|r]; [done|]. apply Hloop; [|by split; [apply runs_refl|]].
  intros v' [Hr Hst]. pose proof (turn_spec _ Hsub v' (rn_ok _ _ Hr)) as Ht.
  assert (no_create (code v')) as Hnc' by (by rewrite (ce_code _ _ (rn_ctx _ _ Hr))).
  pose proof (turn_plain _ v' Hsub (rn_ok _ _ Hr) Hnc') as Hp.
  destruct (turn _ v') as [v''|[r' v''| |]]; [|by etrans|done|done]. destruct Ht as [Ht _].
  split; [by eapply runs_trans|by etrans].
Qed.

Lemma run_ends v : vm_ok v → run v ≠ OutOfFuel.
Proof.
  intros Hv. pose proof (vo_gas _ Hv). unfold run. apply (run_nested_ends _ v (gas v + 32000)); [done|split; [lia|right; lia]|].
  right. replace (gas v + 32000) with (gas v + 1 * 32000) by lia. rewrite Z.div_add by lia.
  pose proof (Z.div_pos (gas v) 32000). mach.
Qed.

(** *** Theorems on the interpreter *)

(** C25: The interpreter ends on every code and input: a machine that is started
    returns or panics, and when it returns it has no more gas than it was given
    and its context is unchanged. *)
Theorem evm_terminates v :
  vm_ok v →
  match run v with
  | Returned _ v' => 0 ≤ gas v' ≤ gas v ∧ ctx_eq v v'
  | Panicked => True
  | OutOfFuel => False
  end.
Proof.
  intros Hv. pose proof (run_ends v Hv) as Hend. pose proof (run_nested_runs (3 + Z.to_nat (gas v `div` 32000)) v Hv) as Hr.
  fold (run v) in Hr. destruct (run v) as [r v'| |]; [|done|done]. destruct Hr as [Hok Hc Hg _].
  pose proof (vo_gas _ Hok). split; [mach|done].
Qed.

(** C26: Every machine the loop reaches is well formed: the stack holds at most the
    configured number of words of 32 bytes, memory is whole words of bytes, gas is
    a 64-bit number and does not grow, addresses are 20 bytes, and every account
    of the state has a balance below 2^128, bytes as code, and words as storage. *)
Theorem evm_well_formed d v v' :
  vm_ok v → rtc (λ v v', turn (run_nested d) v = inl v') v v' → vm_ok v' ∧ gas v' ≤ gas v ∧ ctx_eq v v'.
Proof.
  intros Hv Hr. assert (runs v v') as [Hok Hc Hg _]; [|done]. induction Hr as [v|v1 v2 v3 Ht _ IH]; [by apply runs_refl|].
  pose proof (turn_spec _ (run_nested_sub_ok d) v1 Hv) as Hs. rewrite Ht in Hs. destruct Hs as [Hs _].
  eapply runs_trans; [exact Hs|]. apply IH, Hs.
Qed.

(** *** Theorems on transactions *)

(** The arguments of a transaction are of their types. *)
Record tx_ok (c : EvmConfig) (from : addr) (to : option addr) (x : Z) (d : bytes) (limit : Z) : Prop := {
  tx_config : 0 ≤ max_stack_depth c;
  tx_from : addr_ok from;
  tx_to a : to = Some a → addr_ok a;
  tx_value : 0 ≤ x < 2 ^ 128;
  tx_data : vec_ok d;
  tx_limit : u64_ok limit;
}.

Lemma intrinsic_nonneg c d : 0 ≤ intrinsic c d.
Proof. apply wrap64_ok. Qed.

Lemma transact_call_spec c s from dest x d g m res s' m' :
  db_ok s → 0 ≤ max_stack_depth c → addr_ok from → addr_ok dest → 0 ≤ x < 2 ^ 128 → vec_ok d → u64_ok g →
  transact_call c s from dest x d g m = Some (res, s', m') →
  db_moves s s' ∧ 0 ≤ gas_used res ≤ g ∧ (no_create (acc_code (view s dest)) → db_steps s s').
Proof.
  intros Hs Hc Hf Hd Hx Hdat Hg. unfold transact_call. pose proof (get_account_ok dest s Hs) as [Hacc Hs1].
  pose proof (db_prim_steps _ _ (prim_load dest s)) as Hload. assert ((get_account dest s).1 = view s dest) as Hv by done.
  destruct (get_account dest s) as [acc s1]. simpl in *. subst acc.
  set (vm := Vm_new c s1 _ from dest x d g m false).
  assert (vm_ok vm) as Hvm by (apply Vm_new_ok; first [done|apply Hacc]).
  pose proof (run_nested_runs (3 + Z.to_nat (gas vm `div` 32000)) vm Hvm) as Hr. fold (run vm) in Hr.
  pose proof (run_plain vm Hvm) as Hp. destruct (run vm) as [r vm'| |]; [|done|done]. intros [= <- <- <-]. simpl.
  destruct Hr as [Hok _ Hgas Hdb]. pose proof (vo_gas _ Hok). simpl in *. rewrite sub64_small by mach. split_and!.
  - etrans; [by apply db_steps_moves|done].
  - lia.
  - mach.
  - intros Hn. etrans; [done|by apply Hp].
Qed.

(** A revert after moves goes back or does nothing. *)
Lemma revert_cases s s' : db_moves (snapshot s) s' → (∀ a, view (revert s') a = view s a) ∨ revert s' = s'.
Proof.
  intros [Hst|Hn]%db_moves_split; [left; intros; by apply view_revert|right]. unfold revert. by rewrite Hn.
Qed.

Lemma snapshot_ok s : db_ok s → db_ok (snapshot s).
Proof. intros []. split; simpl; try done. by constructor. Qed.

Lemma view_snapshot s a : view (snapshot s) a = view s a.
Proof. by rewrite !view_dirty. Qed.

Lemma revert_ok s : db_ok s → db_ok (revert s).
Proof.
  intros [Ha Hd Hs Hf]. unfold revert. destruct (snapshots s) as [|n l] eqn:E; [by split; rewrite ?E|].
  apply Forall_cons in Hs as [Hn Hl]. by split.
Qed.

(** The state a call starts from: the sender's nonce counted up. *)
Definition started (s : EvmStateDb) (from : addr) : EvmStateDb :=
  set_account from ((view s from) <| acc_nonce := add64 (acc_nonce (view s from)) 1 |>) (get_account from s).2.

Lemma started_ok s from : db_ok s → db_ok (started s from).
Proof.
  intros Hs. pose proof (get_account_ok from s Hs) as [Ha Hs1]. apply set_account_ok; [done|].
  destruct (view_ok s from Hs). split; simpl; try done. apply wrap64_ok.
Qed.

Lemma view_started s from a :
  db_static s = false →
  view (started s from) a =
    if decide (a = from) then (view s from) <| acc_nonce := add64 (acc_nonce (view s from)) 1 |> else view s a.
Proof.
  intros Hst. unfold started. rewrite view_set_account. destruct (get_account_effect from s) as (_ & _ & _ & -> & _).
  by rewrite Hst, view_get_account.
Qed.

(** A call that is not refused: the run and the commit or revert after it. *)
Lemma transact_call_inv e s from dest x d limit res s' e' :
  transact e s from (Some dest) x d limit = Some (Ok res, s', e') →
  intrinsic (ex_config e) d ≤ limit ∧ x ≤ bal s from ∧ ∃ s1 m,
    transact_call (ex_config e) (snapshot (started s from)) from dest x d (limit - intrinsic (ex_config e) d) (ex_metrics e)
      = Some (res, s1, m) ∧ s' = if success res then commit s1 else revert s1.
Proof.
  unfold transact. destruct (Z.ltb_spec limit (intrinsic (ex_config e) d)); [done|]. unfold started, view.
  destruct (get_account from s) as [sender s0]. cbn [fst snd].
  destruct (Z.ltb_spec (acc_balance sender) x); [done|]. cbv zeta.
  destruct (transact_call _ _ _ _ _ _ _ _) as [[[res' s1] m]|]; [|done]. simpl. intros [= <- <- <-].
  split_and!; [lia|lia|]. by exists s1, m.
Qed.

(** The gas a transaction reports as used is at most the gas that was left
    after its intrinsic cost, for calls and for creations, whatever the code does. *)
Lemma transact_gas_bound e s from to x d limit res s' e' :
  db_ok s → tx_ok (ex_config e) from to x d limit →
  transact e s from to x d limit = Some (Ok res, s', e') →
  intrinsic (ex_config e) d ≤ limit ∧ 0 ≤ gas_used res ≤ limit - intrinsic (ex_config e) d.
Proof.
  intros Hs [Hc Hf Ht Hx Hd Hl] Htx. pose proof (intrinsic_nonneg (ex_config e) d) as Hi. destruct to as [dest|].
  - apply transact_call_inv in Htx as (Hle & _ & s1 & m & Htx & _). split; [done|].
    eapply transact_call_spec; [..|exact Htx]; try done; [by apply snapshot_ok, started_ok|by apply Ht|mach].
  - unfold transact in Htx. destruct (Z.ltb_spec limit (intrinsic (ex_config e) d)); [done|]. split; [done|].
    destruct (get_account from s) as [sender s0]. destruct (_ <? x); [done|]. unfold transact_create in Htx. cbv zeta in Htx.
    set (vm := Vm_new _ _ d from _ x [] _ _ false) in Htx.
    assert (vm_ok vm) as Hvm.
    { apply Vm_new_ok; first [done|apply EvmStateDb_new_ok|apply hash_addr_ok|by split; [constructor|]|mach]. }
    pose proof (run_nested_runs (3 + Z.to_nat (gas vm `div` 32000)) vm Hvm) as Hr. fold (run vm) in Hr.
    destruct (run vm) as [r vm'| |]; [|done|done]. simpl in Htx. injection Htx as <- _ _. simpl.
    destruct Hr as [Hok _ Hgas _]. pose proof (vo_gas _ Hok). simpl in *. rewrite sub64_small; mach.
Qed.

(** C27: A call creates no money. If all accounts together hold at most [b], which
    is less than 2^128, then so they do after a call transaction, successful or
    not, whatever code runs and however it moves value, destroys itself or creates
    contracts. *)
Theorem call_never_mints b e s from dest x d limit r s' e' :
  db_ok s → tx_ok (ex_config e) from (Some dest) x d limit → b < 2 ^ 128 → supply_le b s →
  transact e s from (Some dest) x d limit = Some (r, s', e') → supply_le b s'.
Proof.
  intros Hs [Hc Hf Ht Hx Hd Hl] Hb Hle Htx. destruct r as [res|err].
  - apply transact_call_inv in Htx as (Hlim & _ & s1 & m & Htx & ->). pose proof (intrinsic_nonneg (ex_config e) d) as Hi.
    pose proof (started_ok s from Hs) as Hst. pose proof (snapshot_ok _ Hst) as Hsn.
    apply transact_call_spec in Htx as (Hmv & _ & _); try done; [|by apply Ht|mach].
    assert (supply_le b (started s from)) as Hle0.
    { eapply supply_le_mono; [done| |exact Hle]. intros a. unfold started. rewrite view_set_account.
      destruct (db_static _); [by rewrite view_get_account|]. destruct (decide (a = from)) as [->|]; [done|].
      by rewrite view_get_account. }
    assert (supply_le b (snapshot (started s from))) as Hle0'.
    { eapply supply_le_mono; [done| |exact Hle0]. intros a. by rewrite view_snapshot. }
    pose proof (db_moves_ok _ _ Hmv Hsn) as Hok1. pose proof (db_moves_supply_le b _ _ Hmv Hsn Hb Hle0') as Hle1.
    destruct (success res).
    + eapply supply_le_mono; [by apply commit_ok| |exact Hle1]. intros a. by rewrite view_commit.
    + destruct (revert_cases _ _ Hmv) as [Hv|Hv]; [|by rewrite Hv].
      eapply supply_le_mono; [by apply revert_ok| |exact Hle0]. intros a. by rewrite Hv.
  - unfold transact in Htx. destruct (limit <? _); [by injection Htx as _ <- _|].
    pose proof (get_account_ok from s Hs) as [_ Hs1]. pose proof (view_get_account from s) as Hv.
    destruct (get_account from s) as [sender s0]. simpl in *. destruct (_ <? x).
    + injection Htx as _ <- _. eapply supply_le_mono; [done| |exact Hle]. intros a. by rewrite Hv.
    + cbv zeta in Htx. by destruct (transact_call _ _ _ _ _ _ _ _) as [[[res' s1] m]|].
Qed.

(** C28: A failed call is undone. If the code that is called contains no CREATE
    opcode, then after a call that ran and failed every account is as before, but
    for the sender's nonce, which counts one up. *)
Theorem failed_call_undone e s from dest x d limit res s' e' a :
  db_ok s → tx_ok (ex_config e) from (Some dest) x d limit → db_static s = false →
  no_create (acc_code (view s dest)) →
  transact e s from (Some dest) x d limit = Some (Ok res, s', e') → success res = false →
  view s' a = if decide (a = from) then (view s from) <| acc_nonce := add64 (acc_nonce (view s from)) 1 |> else view s a.
Proof.
  intros Hs [Hc Hf Ht Hx Hd Hl] Hst Hnc Htx Hfail. apply transact_call_inv in Htx as (Hlim & _ & s1 & m & Htx & ->).
  rewrite Hfail. pose proof (intrinsic_nonneg (ex_config e) d) as Hi. rewrite <-(view_started s from a Hst).
  apply transact_call_spec in Htx as (_ & _ & Hsteps); try done; [|by apply snapshot_ok, started_ok|by apply Ht|mach].
  apply view_revert, Hsteps.
  rewrite view_snapshot, view_started by done. by destruct (decide (dest = from)) as [->|].
Qed.
End runs.

(** ** Concrete runs *)

Lemma demo_limit n : 2 ^ 63 ≤ n → (n <? 2 ^ 20) = false.
Proof. intros. apply Z.ltb_ge. lia. Qed.

(** A heap that gives out vectors of less than a megabyte. *)
#[local] Instance demo_heap : Heap := {| alloc_ok n := n <? 2 ^ 20; alloc_limit := demo_limit |}.

Definition alice : addr := replicate 20 1.
Definition bob : addr := replicate 20 2.
Definition carol : addr := replicate 20 3.

Definition demo_db (db : bool) (bob_code carol_code : bytes) : EvmStateDb :=
  (EvmStateDb_new db EvmConfig_default ∅) <| dirty :=
    {[ alice := mkAccount 1000 7 [] ∅; bob := mkAccount 50 0 bob_code ∅; carol := mkAccount 0 0 carol_code ∅ ]} |>.

Definition demo_vm (code : bytes) : Vm :=
  Vm_new EvmConfig_default (demo_db false [] []) code alice bob 0 [] 1000000 EvmMetrics_default false.

Definition demo_executor : EvmExecutor := mkEvmExecutor EvmConfig_default EvmMetrics_default.

(** Alice calls Bob with 5 units. *)
Definition demo_call (bob_code carol_code : bytes) :=
  transact demo_executor (demo_db false bob_code carol_code) alice (Some bob) 5 [] 1000000.

Definition result_of (t : option (result ExecResult EvmError * EvmStateDb * EvmExecutor)) : ExecResult :=
  match t with Some (Ok res, _, _) => res | _ => mkExecResult false 0 0 [] [] None end.

Definition state_of (t : option (result ExecResult EvmError * EvmStateDb * EvmExecutor)) : EvmStateDb :=
  match t with Some (_, s, _) => s | None => demo_db false [] [] end.

Definition executor_of (t : option (result ExecResult EvmError * EvmStateDb * EvmExecutor)) : EvmExecutor :=
  match t with Some (_, _, e) => e | None => demo_executor end.

Lemma all_bytes l : forallb (λ b, (0 <=? b) && (b <=? 255)) l = true → Forall byte_ok l.
Proof.
  rewrite forallb_forall. intros Hl. apply Forall_forall. intros b Hb%list_elem_of_In%Hl.
  apply andb_true_iff in Hb as [?%Z.leb_le ?%Z.leb_le]. mach.
Qed.

Lemma alice_ok : addr_ok alice.
Proof. split; [done|]. by apply all_bytes. Qed.
Lemma bob_ok : addr_ok bob.
Proof. split; [done|]. by apply all_bytes. Qed.

Lemma demo_db_ok db c1 c2 : vec_ok c1 → vec_ok c2 → db_ok (demo_db db c1 c2).
Proof.
  intros H1 H2. split; simpl; [intros ??; by rewrite lookup_empty| |constructor|intros ??; by rewrite lookup_empty].
  repeat (apply map_ok_insert; [|by split; simpl; [lia|mach|first [done|by split; [constructor|]]|done]]).
  intros ??. by rewrite lookup_empty.
Qed.

Lemma demo_vm_ok code : vec_ok code → vm_ok (demo_vm code).
Proof.
  intros Hc. assert (vec_ok []) as Hn by (by split; [constructor|]).
  apply Vm_new_ok; first [done|by apply demo_db_ok|apply alice_ok|apply bob_ok|simpl; lia|mach].
Qed.

Lemma demo_tx_ok : tx_ok EvmConfig_default alice (Some bob) 5 [] 1000000.
Proof.
  split; [simpl; lia|apply alice_ok|intros a [= <-]; apply bob_ok|lia|by split; [constructor|]|mach].
Qed.

Lemma short_vec l : forallb (λ b, (0 <=? b) && (b <=? 255)) l = true → (length l < 1000)%nat → vec_ok l.
Proof. intros. split; [by apply all_bytes|lia]. Qed.

(** A loop: JUMPDEST, PUSH1 0, JUMP. It stops when the gas is used up. *)
Lemma evm_terminates_witness :
  match run (demo_vm [0x5b; 0x60; 0; 0x56]) with
  | Returned _ v' => 0 ≤ gas v' ≤ 1000000 ∧ ctx_eq (demo_vm [0x5b; 0x60; 0; 0x56]) v'
  | Panicked => True
  | OutOfFuel => False
  end.
Proof.
  apply (evm_terminates (demo_vm [0x5b; 0x60; 0; 0x56])). apply demo_vm_ok, short_vec; [reflexivity|simpl; lia].
Defined.

Definition demo_next (v : Vm) : Vm := match turn (run_nested 1) v with inl v' => v' | inr _ => v end.

Lemma evm_well_formed_witness : vm_ok (demo_next (demo_vm [0x60; 5])) ∧ stack (demo_next (demo_vm [0x60; 5])) = [from_u64 5].
Proof.
  split; [|vm_compute; reflexivity].
  apply (evm_well_formed 1 (demo_vm [0x60; 5])); [apply demo_vm_ok, short_vec; [reflexivity|simpl; lia]|].
  apply rtc_once. vm_compute. reflexivity.
Defined.

(** Bob stores a word, then reverts. *)
Definition store_revert : bytes := [0x60; 1; 0x60; 0; 0x55; 0x60; 0; 0x60; 0; 0xfd].

Lemma store_revert_ok : vec_ok store_revert.
Proof. apply short_vec; [reflexivity|simpl; lia]. Qed.

Lemma transact_gas_bound_witness :
  let t := demo_call store_revert [] in
  intrinsic EvmConfig_default [] ≤ 1000000 ∧ 0 ≤ gas_used (result_of t) ≤ 1000000 - intrinsic EvmConfig_default [].
Proof.
  cbv zeta. set (t := demo_call store_revert []).
  apply (transact_gas_bound demo_executor (demo_db false store_revert []) alice (Some bob) 5 [] 1000000
           (result_of t) (state_of t) (executor_of t)).
  - apply demo_db_ok; [apply store_revert_ok|by split; [constructor|]].
  - apply demo_tx_ok.
  - unfold t. vm_compute. reflexivity.
Defined.

Lemma demo_supply c1 c2 : supply_le 1050 (demo_db false c1 c2).
Proof.
  exists {[alice; bob; carol]}. split.
  - intros a Ha. rewrite view_dirty. simpl. rewrite !lookup_insert_ne, lookup_singleton_ne by set_solver. done.
  - vm_compute. discriminate.
Qed.

(** Bob destroys itself in favour of Carol. *)
Definition give_all : bytes := 0x73 :: carol ++ [0xf7].

Lemma call_never_mints_witness : supply_le 1050 (state_of (demo_call give_all [])).
Proof.
  set (t := demo_call give_all []).
  apply (call_never_mints 1050 demo_executor (demo_db false give_all []) alice bob 5 [] 1000000 (Ok (result_of t))
           (state_of t) (executor_of t)).
  - apply demo_db_ok; [apply short_vec; [reflexivity|simpl; lia]|by split; [constructor|]].
  - apply demo_tx_ok.
  - lia.
  - apply demo_supply.
  - unfold t. vm_compute. reflexivity.
Defined.

Lemma failed_call_undone_witness :
  view (state_of (demo_call store_revert [])) bob = mkAccount 50 0 store_revert ∅.
Proof.
  set (t := demo_call store_revert []).
  rewrite (failed_call_undone demo_executor (demo_db false store_revert []) alice bob 5 [] 1000000 (result_of t)
             (state_of t) (executor_of t) bob).
  - vm_compute. reflexivity.
  - apply demo_db_ok; [apply store_revert_ok|by split; [constructor|]].
  - apply demo_tx_ok.
  - reflexivity.
  - unfold no_create. vm_compute. repeat constructor; discriminate.
  - unfold t. vm_compute. reflexivity.
  - unfold t. vm_compute. reflexivity.
Defined.

(** ** Contracts that stop the kernel *)

(** RETURN of no bytes at offset 1: the slice starts after the end of the empty
    memory, which panics. The same holds of the other opcodes that read a range. *)
Lemma empty_return_panics : run (demo_vm [0x60; 0; 0x60; 1; 0xf3]) = Panicked.
Proof. vm_compute. reflexivity. Qed.

(** MSTORE far away: memory is allocated before it is paid for, and its size is
    not priced; on no heap is there room. *)
Lemma far_mstore_panics `{Heap} v w : memory v = [] → mstore (2 ^ 63) w v = Panic.
Proof.
  intros Hm. unfold mstore, mbind, VM_bind, mem_expand. rewrite Hm.
  replace (add64 (2 ^ 63) 32) with (2 ^ 63 + 32) by (vm_compute; reflexivity).
  replace (mul64 (add64 (2 ^ 63 + 32) 31 `div` 32) 32) with (2 ^ 63 + 32) by (vm_compute; reflexivity).
  by rewrite alloc_limit by lia.
Qed.

(** SDIV of the least integer by -1. *)
Lemma sdiv_stops_kernel :
  run (demo_vm ([0x7f] ++ replicate 32 255 ++ [0x67; 128; 0; 0; 0; 0; 0; 0; 0; 0x05])) = Panicked.
Proof. vm_compute. reflexivity. Qed.

(** ** Transactions that break the ledger *)

(** A creation with value: the new contract has the 5 units, and the sender still
    has all of its own. *)
Lemma creation_mints :
  let t := transact demo_executor (demo_db false [] []) alice None 5 [0x60; 1; 0x60; 0; 0xf3] 1000000 in
  success (result_of t) = true ∧ bal (state_of t) alice = 1000 ∧ bal (state_of t) (res_output (result_of t)) = 5.
Proof. vm_compute. split_and!; reflexivity. Qed.

(** A call with value moves nothing. *)
Lemma call_value_not_moved :
  let t := demo_call [0x34; 0x60; 0; 0x52; 0x60; 32; 0x60; 0; 0xf3] [] in
  res_output (result_of t) = from_u64 5 ∧ bal (state_of t) alice = 1000 ∧ bal (state_of t) bob = 50.
Proof. vm_compute. split_and!; reflexivity. Qed.

(** Bob stores a word, creates a contract, and reverts: the transaction failed
    and the word stays, since creating a contract commits everything so far. *)
Definition create_then_revert : bytes :=
  [0x60; 1; 0x60; 0; 0x55] ++ [0x64; 0x60; 1; 0x60; 0; 0xf3; 0x60; 0; 0x52] ++
  [0x60; 5; 0x60; 27; 0x60; 0; 0xf0] ++ [0x60; 0; 0x60; 0; 0xfd].

Lemma create_defeats_revert :
  let t := demo_call create_then_revert [] in
  success (result_of t) = false ∧ acc_storage (view (state_of t) bob) !! zero_word = Some (from_u64 1).
Proof. vm_compute. split_and!; reflexivity. Qed.

(** Bob calls Carol, who stores a word. The call succeeds and the word is lost:
    a sub-call runs on an empty state that is thrown away. *)
Definition call_carol : bytes :=
  [0x60; 0; 0x60; 0; 0x60; 0; 0x60; 0; 0x60; 0; 0x73] ++ carol ++ [0x62; 1; 0; 0; 0xf1; 0x60; 0; 0x52; 0x60; 32; 0x60; 0; 0xf3].

Lemma callee_writes_lost :
  let t := demo_call call_carol [0x60; 1; 0x60; 0; 0x55] in
  success (result_of t) = true ∧ res_output (result_of t) = from_u64 1 ∧ acc_storage (view (state_of t) carol) = ∅.
Proof. vm_compute. split_and!; reflexivity. Qed.

(** A jump into the operand of a PUSH is accepted, and so is an ADD on an empty
    stack. *)
Lemma unchecked_jump_and_underflow :
  (∃ v, run (demo_vm [0x60; 4; 0x56; 0x60; 0x5b; 0x00]) = Returned (Ok tt) v) ∧
  (∃ v, run (demo_vm [0x01]) = Returned (Ok tt) v).
Proof. split; eexists; vm_compute; reflexivity. Qed.
