(* ===== verification/Redb.v ===== *)
(** * The page store of the database adapter ([src/src/blockchain/redb_adapter.rs]).

    A database is a file of pages of 4096 bytes, each kept as a file of IONAFS,
    with a cache of pages and a table of pages not yet written. The files are the
    table in memory of the file system ([cache] in [IonaFs], which [write_file]
    always updates, and [sync_to_disk] leaves alone). A handle is shared by its clones ([Arc]), so
    there is one state per open database. [None] is a panic or a loop that does
    not end. The manager of several databases is not modelled.

    [redb_is_flat_file] shows that a database is one array of bytes, filled with
    zeros, whatever the sizes of cache and write buffer, through flushes, and
    through closing and opening it with another configuration. *)

From Stdlib Require Import ZArith Lia Bool.
From stdpp Require Import base gmap sets numbers strings pretty list.
From S2P Require Import Prelude Types.

Local Open Scope Z_scope.

Definition PAGE_SIZE : Z := 4096.
Definition SUPERBLOCK_SIZE : Z := 16.

(** ** Configuration, errors, counters *)

Record RedbAdapterConfig := mkRedbAdapterConfig {
  cache_size : Z;
  flush_interval_ms : Z;
  max_dirty_pages : Z;
  sync_on_flush : bool;
  trace_operations : bool;
  collect_metrics : bool;
}.

Definition RedbAdapterConfig_default : RedbAdapterConfig := mkRedbAdapterConfig 64 1000 1024 true false true.

Definition RedbAdapterConfig_validate (c : RedbAdapterConfig) : result unit string :=
  if cache_size c =? 0 then Err "cache_size must be > 0"%string
  else if flush_interval_ms c =? 0 then Err "flush_interval_ms must be > 0"%string
  else if max_dirty_pages c =? 0 then Err "max_dirty_pages must be > 0"%string
  else Ok tt.

Inductive RedbAdapterError :=
| RedbIo (s : string)
| CorruptedSuperblock (s : string)
| PageNotFound (page : Z)
| OutOfBounds (offset size : Z)
| InvalidPageSize (expected actual : Z)
| InvalidCacheCapacity
| InvalidFlushInterval
| Closed
| AlreadyExists
| NotFound
| RedbInternal (s : string).

Record RedbAdapterMetrics := mkRedbAdapterMetrics {
  reads : Z;
  writes : Z;
  cache_hits : Z;
  cache_misses : Z;
  flushes : Z;
  pages_read : Z;
  pages_written : Z;
  grows : Z;
  opens : Z;
  closes : Z;
}.

#[export] Instance eta_RedbAdapterMetrics : Settable RedbAdapterMetrics :=
  λ m, mkRedbAdapterMetrics (reads m) (writes m) (cache_hits m) (cache_misses m) (flushes m) (pages_read m)
         (pages_written m) (grows m) (opens m) (closes m).

(** ** The page cache *)

Record PageCache := mkPageCache {
  pages : gmap Z bytes;
  order : list Z;
  capacity : Z;
}.

#[export] Instance eta_PageCache : Settable PageCache := λ c, mkPageCache (pages c) (order c) (capacity c).

Definition PageCache_new (capacity : Z) : PageCache := mkPageCache ∅ [] capacity.

Definition PageCache_get (c : PageCache) (page : Z) : option bytes := pages c !! page.

(** The cache and the page that was evicted. *)
Definition PageCache_insert (page : Z) (data : bytes) (c : PageCache) : PageCache * option Z :=
  let '(c, evicted) :=
    if bool_decide (is_Some (pages c !! page))
    then (c <| order := filter (λ p, p ≠ page) (order c) |>, None)
    else if capacity c <=? Z.of_nat (base.size (pages c)) then
      match order c with
      | [] => (c, None)
      | lru :: rest => (c <| order := rest |> <| pages := delete lru (pages c) |>, Some lru)
      end
    else (c, None) in
  (c <| pages := <[page := data]> (pages c) |> <| order := order c ++ [page] |>, evicted).

Definition PageCache_invalidate (page : Z) (c : PageCache) : PageCache :=
  c <| pages := delete page (pages c) |> <| order := filter (λ p, p ≠ page) (order c) |>.

Definition PageCache_clear (c : PageCache) : PageCache := c <| pages := ∅ |> <| order := [] |>.

(** ** Databases *)

Record IonafsDatabaseFile := mkIonafsDatabaseFile {
  db_name : string;
  num_pages : Z;
  cache : PageCache;
  dirty : gmap Z bytes;
  config : RedbAdapterConfig;
  metrics : RedbAdapterMetrics;
  closed : Z;
}.

#[export] Instance eta_IonafsDatabaseFile : Settable IonafsDatabaseFile :=
  λ d, mkIonafsDatabaseFile (db_name d) (num_pages d) (cache d) (dirty d) (config d) (metrics d) (closed d).

Abbreviation Files := (gmap string bytes).

Definition super_path (name : string) : string := ("/db/" +:+ name +:+ "/super")%string.
Definition page_path (name : string) (page : Z) : string := ("/db/" +:+ name +:+ "/p" +:+ pretty page)%string.

Definition zero_page : bytes := replicate (Z.to_nat PAGE_SIZE) 0.

Definition count (f : RedbAdapterMetrics → RedbAdapterMetrics) (d : IonafsDatabaseFile) : IonafsDatabaseFile :=
  d <| metrics := f (metrics d) |>.

Definition record_read (m : RedbAdapterMetrics) := m <| reads := add64 (reads m) 1 |>.
Definition record_write (m : RedbAdapterMetrics) := m <| writes := add64 (writes m) 1 |>.
Definition record_cache_hit (m : RedbAdapterMetrics) := m <| cache_hits := add64 (cache_hits m) 1 |>.
Definition record_cache_miss (m : RedbAdapterMetrics) := m <| cache_misses := add64 (cache_misses m) 1 |>.
Definition record_flush (m : RedbAdapterMetrics) := m <| flushes := add64 (flushes m) 1 |>.
Definition record_page_read (m : RedbAdapterMetrics) := m <| pages_read := add64 (pages_read m) 1 |>.
Definition record_page_write (m : RedbAdapterMetrics) := m <| pages_written := add64 (pages_written m) 1 |>.
Definition record_grow (m : RedbAdapterMetrics) := m <| grows := add64 (grows m) 1 |>.
Definition record_open (m : RedbAdapterMetrics) := m <| opens := add64 (opens m) 1 |>.
Definition record_close (m : RedbAdapterMetrics) := m <| closes := add64 (closes m) 1 |>.

Definition IonafsDatabaseFile_open (name : string) (c : RedbAdapterConfig) (fs : Files) :
    result IonafsDatabaseFile RedbAdapterError :=
  match RedbAdapterConfig_validate c with
  | Err e => Err (RedbInternal e)
  | Ok _ =>
    let n := match fs !! super_path name with
             | Some data => if SUPERBLOCK_SIZE <=? Z.of_nat (length data) then le_value (take 8 data) else 0
             | None => 0
             end in
    Ok (mkIonafsDatabaseFile name n (PageCache_new (cache_size c)) ∅ c
          (record_open (mkRedbAdapterMetrics 0 0 0 0 0 0 0 0 0 0)) 0)
  end.

Definition len (d : IonafsDatabaseFile) : Z := mul64 (num_pages d) PAGE_SIZE.

Definition is_closed (d : IonafsDatabaseFile) : bool := closed d =? 1.

Definition write_superblock (d : IonafsDatabaseFile) (fs : Files) : Files :=
  <[super_path (db_name d) := le_bytes 8 (num_pages d) ++ le_bytes 8 PAGE_SIZE]> fs.

Definition read_page (page : Z) (d : IonafsDatabaseFile) (fs : Files) : bytes * IonafsDatabaseFile :=
  match dirty d !! page with
  | Some data => (data, d)
  | None =>
    match PageCache_get (cache d) page with
    | Some data => (data, count record_cache_hit d)
    | None =>
      let d := count record_cache_miss d in
      let data := default zero_page (fs !! page_path (db_name d) page) in
      let d := count record_page_read d in
      (data, d <| cache := (PageCache_insert page data (cache d)).1 |>)
    end
  end.

(** One turn of the loop of [read_at]: the position, what was read, the state. *)
Definition read_turn (want : Z) (fs : Files) (st : Z * bytes * IonafsDatabaseFile) :
    (Z * bytes * IonafsDatabaseFile) + option (bytes * IonafsDatabaseFile) :=
  let '(pos, result, d) := st in
  if negb (Z.of_nat (length result) <? want) then inr (Some (result, d))
  else
    let page := pos `div` PAGE_SIZE in
    let off_in := pos `mod` PAGE_SIZE in
    let can_read := Z.min (PAGE_SIZE - off_in) (want - Z.of_nat (length result)) in
    let '(page_data, d) := read_page page d fs in
    let end_ := Z.min (off_in + can_read) (Z.of_nat (length page_data)) in
    if off_in <=? end_
    then inl (add64 pos can_read, result ++ slice (Z.to_nat off_in) (Z.to_nat (end_ - off_in)) page_data, d)
    else inr None.

(** Every turn on whole pages adds a byte, so the length bounds the turns. *)
Definition read_at (offset n : Z) (d : IonafsDatabaseFile) (fs : Files) :
    option (result bytes RedbAdapterError * IonafsDatabaseFile) :=
  if is_closed d then Some (Err Closed, d)
  else if len d <=? offset then Some (Ok (replicate (Z.to_nat n) 0), d)
  else
    match loop_upto (read_turn n fs) (Z.to_pos (n + 1)) (offset, [], count record_read d) with
    | inr (Some (data, d)) => Some (Ok data, d)
    | _ => None
    end.

Definition flush_page (st : IonafsDatabaseFile * Files) (e : Z * bytes) : IonafsDatabaseFile * Files :=
  let '(d, fs) := st in
  (count record_page_write (d <| dirty := delete e.1 (dirty d) |>), <[page_path (db_name d) e.1 := e.2]> fs).

Definition flush (d : IonafsDatabaseFile) (fs : Files) : result unit RedbAdapterError * IonafsDatabaseFile * Files :=
  if is_closed d then (Err Closed, d, fs)
  else
    match btree_iter (dirty d) with
    | [] => (Ok tt, d, fs)
    | dirty_pages =>
      let '(d, fs) := foldl flush_page (d, fs) dirty_pages in
      let d := count record_flush d in
      (Ok tt, d, write_superblock d fs)
    end.

Definition sync_all (d : IonafsDatabaseFile) (fs : Files) := flush d fs.

Definition close (d : IonafsDatabaseFile) (fs : Files) : result unit RedbAdapterError * IonafsDatabaseFile * Files :=
  if is_closed d then (Ok tt, d, fs)
  else
    let '(r, d, fs) := flush d fs in
    match r with
    | Err e => (Err e, d, fs)
    | Ok _ => (Ok tt, count record_close (d <| closed := 1 |>), fs)
    end.

(** The pages from [current] on. *)
Fixpoint grow_pages (n : nat) (current : Z) (d : IonafsDatabaseFile) (fs : Files) : IonafsDatabaseFile * Files :=
  match n with
  | O => (d, fs)
  | S n' => grow_pages n' (current + 1) (count record_page_write d) (<[page_path (db_name d) current := zero_page]> fs)
  end.

Definition grow_to (new_size : Z) (d : IonafsDatabaseFile) (fs : Files) :
    result unit RedbAdapterError * IonafsDatabaseFile * Files :=
  if is_closed d then (Err Closed, d, fs)
  else
    let new_pages := sub64 (add64 new_size PAGE_SIZE) 1 `div` PAGE_SIZE in
    let current_pages := num_pages d in
    if new_pages <=? current_pages then (Ok tt, d, fs)
    else
      let '(d, fs) := grow_pages (Z.to_nat (new_pages - current_pages)) current_pages d fs in
      let d := count record_grow (d <| num_pages := new_pages |>) in
      (Ok tt, d, write_superblock d fs).

(** [l[off..off + data.len()].copy_from_slice(data)], the range being inside. *)
Definition splice (off : Z) (data l : bytes) : bytes :=
  take (Z.to_nat off) l ++ data ++ drop (Z.to_nat off + length data) l.

(** One turn of the loop of [write_at]: the position and the data left. *)
Definition write_turn (st : Z * bytes * IonafsDatabaseFile * Files) :
    (Z * bytes * IonafsDatabaseFile * Files) + (result unit RedbAdapterError * IonafsDatabaseFile * Files) :=
  let '(pos, data, d, fs) := st in
  match data with
  | [] => inr (Ok tt, d, fs)
  | _ =>
    let page := pos `div` PAGE_SIZE in
    let off_in := pos `mod` PAGE_SIZE in
    let can_write := Z.min (PAGE_SIZE - off_in) (Z.of_nat (length data)) in
    let '(page_data, d) := read_page page d fs in
    let page_data := if Z.of_nat (length page_data) <? PAGE_SIZE
                     then resize (Z.to_nat PAGE_SIZE) 0 page_data else page_data in
    let page_data := splice off_in (take (Z.to_nat can_write) data) page_data in
    let d := d <| cache := (PageCache_insert page page_data (cache d)).1 |> in
    let d := d <| dirty := <[page := page_data]> (dirty d) |> in
    let next d fs := inl (add64 pos can_write, drop (Z.to_nat can_write) data, d, fs) in
    if max_dirty_pages (config d) <=? Z.of_nat (base.size (dirty d)) then
      let '(r, d, fs) := flush d fs in
      match r with Err e => inr (Err e, d, fs) | Ok _ => next d fs end
    else next d fs
  end.

Definition write_at (offset : Z) (data : bytes) (d : IonafsDatabaseFile) (fs : Files) :
    option (result unit RedbAdapterError * IonafsDatabaseFile * Files) :=
  if is_closed d then Some (Err Closed, d, fs)
  else
    let d := count record_write d in
    let end_offset := add64 offset (Z.of_nat (length data)) in
    let '(r, d, fs) := if len d <? end_offset then grow_to end_offset d fs else (Ok tt, d, fs) in
    match r with
    | Err e => Some (Err e, d, fs)
    | Ok _ =>
      match loop_upto write_turn (Z.to_pos (Z.of_nat (length data) + 1)) (offset, data, d, fs) with
      | inr res => Some res
      | inl _ => None
      end
    end.

Definition IonafsDatabaseFile_create (name : string) (c : RedbAdapterConfig) (fs : Files) :
    result IonafsDatabaseFile RedbAdapterError * Files :=
  if bool_decide (is_Some (fs !! super_path name)) then (Err AlreadyExists, fs)
  else
    match IonafsDatabaseFile_open name c fs with
    | Err e => (Err e, fs)
    | Ok d =>
      let '(r, d, fs) := grow_to (2 * PAGE_SIZE) d fs in
      match r with Err e => (Err e, fs) | Ok _ => (Ok d, fs) end
    end.

(** ** The database as an array of bytes *)

(** What a page holds: the unwritten version, else the file, else zeros. *)
Definition page (d : IonafsDatabaseFile) (fs : Files) (p : Z) : bytes :=
  match dirty d !! p with Some x => x | None => default zero_page (fs !! page_path (db_name d) p) end.

Definition flat (d : IonafsDatabaseFile) (fs : Files) (i : Z) : Z :=
  nth (Z.to_nat (i `mod` PAGE_SIZE)) (page d fs (i `div` PAGE_SIZE)) 0.

Definition page_length : nat := Z.to_nat PAGE_SIZE.

Record redb_ok (d : IonafsDatabaseFile) (fs : Files) : Prop := {
  ro_open : closed d = 0;
  ro_config : RedbAdapterConfig_validate (config d) = Ok tt;
  ro_pages : 0 ≤ num_pages d ≤ 2 ^ 50;
  ro_dirty p x : dirty d !! p = Some x → length x = page_length ∧ p < num_pages d;
  ro_files p x : fs !! page_path (db_name d) p = Some x → length x = page_length;
  ro_cache p x : pages (cache d) !! p = Some x → x = page d fs p;
  ro_beyond p x : num_pages d ≤ p → fs !! page_path (db_name d) p = Some x → x = zero_page;
  ro_super : (num_pages d = 0 ∧ fs !! super_path (db_name d) = None) ∨
             fs !! super_path (db_name d) = Some (le_bytes 8 (num_pages d) ++ le_bytes 8 PAGE_SIZE);
}.

#[export] Instance page_path_inj name : Inj (=) (=) (page_path name).
Proof. intros p q Heq. unfold page_path in Heq. by simplify_eq. Qed.

Lemma super_not_page name p : super_path name ≠ page_path name p.
Proof.
  unfold super_path, page_path. intros Heq. apply (inj (String.append "/db/")) in Heq.
  apply (inj (String.append name)) in Heq. done.
Qed.

(** The files of a database: whatever the names, two databases share none. *)
Definition own (name path : string) : Prop := path = super_path name ∨ ∃ p, path = page_path name p.

Fixpoint no_slash (s : string) : bool :=
  match s with String.EmptyString => true | String.String c s' => negb (Ascii.eqb c (Ascii.ascii_of_nat 47)) && no_slash s' end.

Lemma no_slash_app s t : no_slash (s +:+ t) = no_slash s && no_slash t.
Proof. induction s as [|c s IH]; simpl; [done|]. by rewrite IH, andb_assoc. Qed.

Lemma no_slash_pretty (n : Z) : no_slash (pretty n) = true.
Proof.
  assert (∀ m s, no_slash s = true → no_slash (pretty_N_go m s) = true) as Hgo.
  { intros m. induction (N.lt_wf_0 m) as [m _ IH]. intros s Hs. destruct (decide (m = 0%N)) as [->|Hm].
    - by rewrite pretty_N_go_0.
    - rewrite pretty_N_go_step by lia. apply IH; [by apply N.div_lt; lia|]. simpl. rewrite Hs, andb_true_r.
      unfold pretty_N_char. by repeat case_match. }
  assert (∀ m : N, no_slash (pretty m) = true) as Hn.
  { intros m. unfold pretty, pretty_N. case_decide; [done|]. by apply Hgo. }
  destruct n as [|p|p]; [done|apply (Hn (N.pos p))|]. unfold pretty, pretty_Z. rewrite no_slash_app. apply (Hn (N.pos p)).
Qed.

Lemma last_component n1 n2 t1 t2 :
  no_slash t1 = true → no_slash t2 = true → n1 +:+ "/" +:+ t1 = n2 +:+ "/" +:+ t2 → n1 = n2 ∧ t1 = t2.
Proof.
  intros H1 H2. revert n2. induction n1 as [|c n1 IH]; intros [|c' n2]; intros Heq.
  - injection Heq as Ht. by change (t1 = t2) in Ht.
  - injection Heq as _ Ht. change (t1 = n2 +:+ "/" +:+ t2) in Ht. by rewrite Ht, !no_slash_app, andb_false_r in H1.
  - injection Heq as _ Ht. change (n1 +:+ "/" +:+ t1 = t2) in Ht. by rewrite <-Ht, !no_slash_app, andb_false_r in H2.
  - injection Heq as -> Ht. by apply IH in Ht as [-> ->].
Qed.

Lemma own_disjoint n1 n2 path : own n1 path → own n2 path → n1 = n2.
Proof.
  assert (∀ n1 n2 t1 t2, no_slash t1 = true → no_slash t2 = true →
    ("/db/" +:+ n1 +:+ "/" +:+ t1)%string = ("/db/" +:+ n2 +:+ "/" +:+ t2)%string → n1 = n2) as Hl.
  { intros m1 m2 t1 t2 Ht1 Ht2 Heq. apply (inj (String.append "/db/")) in Heq. by apply last_component in Heq as [-> _]. }
  intros [->|[p ->]] [Heq|[q Heq]]; eapply Hl; [..|exact Heq| | |exact Heq| | |exact Heq| | |exact Heq];
    simpl; try apply no_slash_pretty; done.
Qed.

Lemma length_zero_page : length zero_page = page_length.
Proof. apply length_replicate. Qed.

Lemma nth_zero_page j : nth j zero_page 0 = 0.
Proof.
  unfold zero_page. rewrite nth_lookup. destruct (replicate _ _ !! j) as [x|] eqn:E; [|done].
  by apply lookup_replicate in E as [-> _].
Qed.

Lemma length_page d fs p : redb_ok d fs → length (page d fs p) = page_length.
Proof.
  intros Hok. unfold page. destruct (dirty d !! p) as [x|] eqn:E; [by eapply ro_dirty|].
  destruct (fs !! page_path (db_name d) p) as [x|] eqn:Ef; [by eapply ro_files|apply length_zero_page].
Qed.

(** Beyond the last page there are zeros. *)
Lemma page_beyond d fs p : redb_ok d fs → num_pages d ≤ p → page d fs p = zero_page.
Proof.
  intros Hok Hp. unfold page. destruct (dirty d !! p) as [x|] eqn:E; [apply (ro_dirty _ _ Hok) in E; lia|].
  destruct (fs !! page_path (db_name d) p) as [x|] eqn:Ef; [by eapply ro_beyond|done].
Qed.

(** *** The cache *)

Lemma PageCache_insert_lookup p x c q y :
  pages (PageCache_insert p x c).1 !! q = Some y → (q = p ∧ y = x) ∨ (q ≠ p ∧ pages c !! q = Some y).
Proof.
  unfold PageCache_insert. destruct (bool_decide _); simpl.
  { intros [[-> ->]|[? ?]]%lookup_insert_Some; auto. }
  destruct (_ <=? _); [destruct (order c)|]; simpl; intros [[-> ->]|[? Hq]]%lookup_insert_Some; auto.
  right. split; [done|]. by apply lookup_delete_Some in Hq as [_ Hq].
Qed.

(** All but the cache and the counters. *)
Definition core (d : IonafsDatabaseFile) := (db_name d, num_pages d, dirty d, config d, closed d).

Lemma page_core d d' fs p : core d' = core d → page d' fs p = page d fs p.
Proof. unfold core, page. intros [= -> _ -> _ _]. done. Qed.

Lemma redb_ok_core d d' fs :
  core d' = core d → (∀ p x, pages (cache d') !! p = Some x → x = page d fs p) → redb_ok d fs → redb_ok d' fs.
Proof.
  intros Hc Hcache [H1 H2 H3 H4 H5 H6 H7 H8]. pose proof (page_core d d' fs) as Hp. unfold core in Hc.
  injection Hc as Hn Hm Hd Hcf Hcl. split; rewrite ?Hn, ?Hm, ?Hd, ?Hcf, ?Hcl; try done.
  intros p x Hx. rewrite Hp by (unfold core; congruence). by apply Hcache.
Qed.

Lemma read_page_spec p d fs :
  redb_ok d fs →
  let '(x, d') := read_page p d fs in x = page d fs p ∧ redb_ok d' fs ∧ core d' = core d.
Proof.
  intros Hok. unfold read_page. destruct (dirty d !! p) as [x|] eqn:Ed; [by unfold page; rewrite Ed|].
  unfold PageCache_get. destruct (pages (cache d) !! p) as [x|] eqn:Ec.
  - split_and!; [by apply (ro_cache _ _ Hok)| |done]. apply (redb_ok_core d); [done|apply (ro_cache _ _ Hok)|done].
  - assert (default zero_page (fs !! page_path (db_name d) p) = page d fs p) as Hp by (unfold page; by rewrite Ed).
    split_and!; [done| |done]. apply (redb_ok_core d); [done| |done]. intros q y Hq. simpl in Hq.
    apply PageCache_insert_lookup in Hq as [[-> ->]|[_ Hq]]; [done|by apply (ro_cache _ _ Hok)].
Qed.

(** *** Ranges of the array *)

Definition range (f : Z → Z) (off : Z) (n : nat) : bytes := (λ j, f (off + Z.of_nat j)) <$> seq 0 n.

Lemma length_range f off n : length (range f off n) = n.
Proof. unfold range. by rewrite length_fmap, length_seq. Qed.

Lemma lookup_range f off n j : (j < n)%nat → range f off n !! j = Some (f (off + Z.of_nat j)).
Proof. intros Hj. unfold range. rewrite list_lookup_fmap, lookup_seq_lt by done. done. Qed.

Lemma range_app f off n m : range f off (n + m) = range f off n ++ range f (off + Z.of_nat n) m.
Proof.
  apply list_eq_same_length with (n + m)%nat; [rewrite ?length_app, !length_range; lia..|].
  intros j x y Hj Hx Hy. rewrite lookup_range in Hx by done. injection Hx as <-.
  destruct (decide (j < n)%nat).
  - rewrite lookup_app_l, lookup_range in Hy by (rewrite ?length_range; lia). by injection Hy.
  - rewrite lookup_app_r, length_range, lookup_range in Hy by (rewrite ?length_range; lia). injection Hy as <-. f_equal. lia.
Qed.

Lemma range_ext f g off n :
  (∀ i, off ≤ i < off + Z.of_nat n → f i = g i) → range f off n = range g off n.
Proof. intros Hfg. unfold range. apply list_fmap_ext. intros j k Hk%lookup_seq. apply Hfg. lia. Qed.

Lemma range_zero f off n : (∀ i, off ≤ i → f i = 0) → range f off n = replicate n 0.
Proof.
  intros Hf. apply list_eq_same_length with n; [by rewrite length_replicate|by rewrite length_range|].
  intros j x y Hj Hx [-> _]%lookup_replicate. rewrite lookup_range in Hx by done. injection Hx as <-. apply Hf. lia.
Qed.

(** A piece of a page is a range of the array. *)
Lemma slice_page d fs p off n :
  redb_ok d fs → 0 ≤ off → off + Z.of_nat n ≤ PAGE_SIZE →
  slice (Z.to_nat off) n (page d fs p) = range (flat d fs) (p * PAGE_SIZE + off) n.
Proof.
  intros Hok Ho Hn. pose proof (length_page d fs p Hok) as Hl. unfold page_length in Hl.
  apply list_eq_same_length with n; [by rewrite length_range|rewrite length_slice; lia|].
  intros j x y Hj Hx Hy. rewrite lookup_range in Hy by done. injection Hy as <-.
  unfold slice in Hx. rewrite lookup_take_lt, lookup_drop in Hx by done. unfold flat, PAGE_SIZE in *.
  replace (p * 4096 + off + Z.of_nat j) with (off + Z.of_nat j + p * 4096) by lia.
  rewrite Z.mod_add, Z.div_add, Z.mod_small, Z.div_small, Z.add_0_l by lia.
  rewrite nth_lookup. replace (Z.to_nat (off + Z.of_nat j)) with (Z.to_nat off + j)%nat by lia. by rewrite Hx.
Qed.

(** *** Reading *)

Lemma len_exact d fs : redb_ok d fs → len d = num_pages d * PAGE_SIZE.
Proof. intros Hok. pose proof (ro_pages _ _ Hok). unfold len, PAGE_SIZE. apply mul64_small. mach. Qed.

Lemma flat_beyond d fs i : redb_ok d fs → num_pages d * PAGE_SIZE ≤ i → flat d fs i = 0.
Proof.
  intros Hok Hi. unfold flat. rewrite page_beyond; [|done|unfold PAGE_SIZE in *; by apply Z.div_le_lower_bound; lia].
  apply nth_zero_page.
Qed.

(** A database that is open: the state, and the array with [n] pages. *)
Lemma read_at_spec off n d fs :
  redb_ok d fs → 0 ≤ off → 0 ≤ n → off + n ≤ 2 ^ 62 →
  ∃ d', read_at off n d fs = Some (Ok (range (flat d fs) off (Z.to_nat n)), d') ∧ redb_ok d' fs ∧ core d' = core d.
Proof.
  intros Hok Ho Hn Hlim. unfold read_at, is_closed. rewrite (ro_open _ _ Hok). simpl.
  rewrite (len_exact d fs) by done. destruct (Z.leb_spec (num_pages d * PAGE_SIZE) off) as [Hle|Hlt].
  { exists d. split_and!; try done. do 3 f_equal. symmetry. apply range_zero. intros i Hi.
    apply flat_beyond; [done|lia]. }
  set (I := λ st : Z * bytes * IonafsDatabaseFile, let '(pos, res, d') := st in
    pos = off + Z.of_nat (length res) ∧ res = range (flat d fs) off (length res) ∧ Z.of_nat (length res) ≤ n ∧
    redb_ok d' fs ∧ core d' = core d).
  destruct (loop_upto_spec (read_turn n fs) I (λ st, n - Z.of_nat (length st.1.2))
    (λ r, ∃ d', r = Some (range (flat d fs) off (Z.to_nat n), d') ∧ redb_ok d' fs ∧ core d' = core d)
    (Z.to_pos (n + 1)) (off, [], count record_read d)) as (r & Hr & d' & -> & Hd'); simpl.
  - intros [[pos res] d1] (-> & Hres & Hle & Hok1 & Hc1). unfold read_turn.
    destruct (Z.ltb_spec (Z.of_nat (length res)) n) as [Hres_n|Hres_n]; simpl.
    2: { exists d1. split_and!; try done. do 2 f_equal. rewrite Hres. f_equal. lia. }
    set (pos := off + Z.of_nat (length res)). set (p := pos `div` PAGE_SIZE). set (o := pos `mod` PAGE_SIZE).
    set (k := Z.min (PAGE_SIZE - o) (n - Z.of_nat (length res))).
    assert (0 ≤ o < PAGE_SIZE) as Hoo by (apply Z.mod_pos_bound; done).
    pose proof (read_page_spec p d1 fs Hok1) as Hrp. destruct (read_page p d1 fs) as [x d2]. destruct Hrp as (-> & Hok2 & Hc2).
    rewrite (length_page d1 fs p Hok1). unfold page_length. rewrite Z2Nat.id by done.
    rewrite (Z.min_l (o + k)) by lia. destruct (Z.leb_spec o (o + k)); [|lia]. rewrite Z.add_simpl_l.
    assert (p * PAGE_SIZE + o = pos) as Hpos by (unfold p, o; rewrite (Z.div_mod pos PAGE_SIZE) at 3 by done; lia).
    rewrite slice_page, Hpos by (first [done|lia]).
    assert (length (res ++ range (flat d1 fs) pos (Z.to_nat k)) = length res + Z.to_nat k)%nat as Hlen
      by (rewrite length_app, length_range; done).
    assert (∀ i, flat d1 fs i = flat d fs i) as Hflat by (intros i; unfold flat; by rewrite (page_core d)).
    split; [|simpl; rewrite Hlen; lia]. split_and!; try done; [| |rewrite Hlen; lia|congruence].
    + rewrite Hlen, add64_small by (unfold pos; mach). lia.
    + rewrite Hlen, range_app, <-Hres. f_equal. apply range_ext. done.
  - split_and!; try done; [lia|]. apply (redb_ok_core d); [done|apply (ro_cache _ _ Hok)|done].
  - rewrite Z2Pos.id; lia.
  - lia.
  - rewrite Hr. by exists d'.
Qed.

(** *** Flushing and growing leave the array alone *)

(** The same database with the same bytes, perhaps more pages. *)
Record evolves (d : IonafsDatabaseFile) (fs : Files) (d' : IonafsDatabaseFile) (fs' : Files) : Prop := {
  ev_ok : redb_ok d' fs';
  ev_page p : page d' fs' p = page d fs p;
  ev_name : db_name d' = db_name d;
  ev_config : config d' = config d;
  ev_grows : num_pages d ≤ num_pages d';
  ev_frame path : ¬ own (db_name d) path → fs' !! path = fs !! path;
}.

Lemma evolves_trans d1 fs1 d2 fs2 d3 fs3 : evolves d1 fs1 d2 fs2 → evolves d2 fs2 d3 fs3 → evolves d1 fs1 d3 fs3.
Proof.
  intros [_ Hp Hn Hc Hg Hf] [Hok Hp' Hn' Hc' Hg' Hf']. split; try first [congruence|lia].
  intros path Hpath. rewrite Hf' by (by rewrite Hn). by apply Hf.
Qed.

Lemma evolves_core d d' fs :
  core d' = core d → cache d' = cache d → redb_ok d fs → evolves d fs d' fs.
Proof.
  intros Hc Hcache Hok. pose proof Hc as Hc'. unfold core in Hc'. injection Hc' as Hn Hm Hd Hcf Hcl.
  split; [|by intros; apply page_core|done|done|lia|done].
  apply (redb_ok_core d); [done|rewrite Hcache; apply (ro_cache _ _ Hok)|done].
Qed.

Lemma evolves_flat d fs d' fs' i : evolves d fs d' fs' → flat d' fs' i = flat d fs i.
Proof. intros Hev. unfold flat. by rewrite (ev_page _ _ _ _ Hev). Qed.

Lemma flush_page_spec d fs p x :
  redb_ok d fs → dirty d !! p = Some x →
  let '(d', fs') := flush_page (d, fs) (p, x) in evolves d fs d' fs' ∧ dirty d' = delete p (dirty d).
Proof.
  intros Hok Hp. simpl. split; [|done]. pose proof (ro_dirty _ _ Hok _ _ Hp) as [Hlen Hlt].
  assert (∀ q, page (count record_page_write (d <| dirty := delete p (dirty d) |>))
                 (<[page_path (db_name d) p := x]> fs) q = page d fs q) as Hpage.
  { intros q. unfold page. simpl. destruct (decide (q = p)) as [->|Hq].
    - by rewrite lookup_delete_eq, lookup_insert_eq, Hp.
    - rewrite lookup_delete_ne, lookup_insert_ne by (try done; by intros ?%(inj _)). done. }
  split; try done; [|intros path Hpath; apply lookup_insert_ne; intros <-; apply Hpath; right; by exists p].
  split; simpl; try apply Hok.
  - intros q y [_ Hq]%lookup_delete_Some. by apply (ro_dirty _ _ Hok).
  - intros q y [[_ <-]|[_ Hq]]%lookup_insert_Some; [done|by apply (ro_files _ _ Hok q)].
  - intros q y Hq. rewrite Hpage. by apply (ro_cache _ _ Hok).
  - intros q y Hle [[Heq _]|[_ Hq]]%lookup_insert_Some; [apply (inj _) in Heq; lia|by apply (ro_beyond _ _ Hok q)].
  - rewrite lookup_insert_ne by (symmetry; apply super_not_page). apply Hok.
Qed.

Lemma flush_pages_spec l d fs :
  redb_ok d fs → NoDup l.*1 → (∀ p x, (p, x) ∈ l → dirty d !! p = Some x) →
  let '(d', fs') := foldl flush_page (d, fs) l in
  evolves d fs d' fs' ∧ ∀ p, dirty d' !! p = if decide (p ∈ l.*1) then None else dirty d !! p.
Proof.
  revert d fs. induction l as [|[p x] l IH]; intros d fs Hok Hnd Hl.
  { cbn [foldl]. split; [by apply evolves_core|]. intros p. by rewrite decide_False by apply not_elem_of_nil. }
  cbn [fmap list_fmap fst] in Hnd. apply NoDup_cons in Hnd as [Hp Hnd]. cbn [foldl].
  pose proof (flush_page_spec d fs p x Hok) as Hstep. destruct (flush_page (d, fs) (p, x)) as [d1 fs1].
  destruct Hstep as [Hev Hd1]; [apply Hl; by left|]. specialize (IH d1 fs1 (ev_ok _ _ _ _ Hev) Hnd).
  destruct (foldl flush_page (d1, fs1) l) as [d' fs']. destruct IH as [Hev' Hd'].
  { intros q y Hq. rewrite Hd1, lookup_delete_ne; [apply Hl; by right|]. intros ->.
    apply Hp, list_elem_of_fmap. by exists (q, y). }
  split; [by eapply evolves_trans|]. intros q. rewrite Hd', Hd1. cbn [fmap list_fmap fst].
  destruct (decide (q = p)) as [->|Hq].
  - rewrite (decide_False (P := p ∈ l.*1)), decide_True by (done || by left). apply lookup_delete_eq.
  - rewrite lookup_delete_ne by done. destruct (decide (q ∈ l.*1)).
    + by rewrite decide_True by (by right).
    + by rewrite decide_False by (by intros [?|?]%elem_of_cons).
Qed.

Lemma super_lookup_page d fs p : write_superblock d fs !! page_path (db_name d) p = fs !! page_path (db_name d) p.
Proof. apply lookup_insert_ne, super_not_page. Qed.

Lemma evolves_super d fs : redb_ok d fs → evolves d fs d (write_superblock d fs).
Proof.
  intros Hok. assert (∀ q, page d (write_superblock d fs) q = page d fs q) as Hpage
    by (intros q; unfold page; by rewrite super_lookup_page).
  split; try done; [|intros path Hpath; apply lookup_insert_ne; intros <-; apply Hpath; by left].
  split; try apply Hok.
  - intros p x. rewrite super_lookup_page. apply (ro_files _ _ Hok).
  - intros p x Hp. rewrite Hpage. by apply (ro_cache _ _ Hok).
  - intros p x Hp. rewrite super_lookup_page. by apply (ro_beyond _ _ Hok).
  - right. apply lookup_insert_eq.
Qed.

Lemma flush_spec d fs :
  redb_ok d fs → ∃ d' fs', flush d fs = (Ok tt, d', fs') ∧ evolves d fs d' fs' ∧ dirty d' = ∅.
Proof.
  intros Hok. unfold flush, is_closed. rewrite (ro_open _ _ Hok). cbn [Z.eqb].
  destruct (btree_iter (dirty d)) as [|e l] eqn:El.
  { exists d, fs. split_and!; [done|by apply evolves_core|by apply btree_iter_nil]. }
  rewrite <-El. pose proof (flush_pages_spec (btree_iter (dirty d)) d fs Hok (NoDup_fst_btree_iter _)) as Hfl.
  destruct (foldl flush_page (d, fs) _) as [d1 fs1]. destruct Hfl as [Hev Hd1]; [by intros p x ?%elem_of_btree_iter|].
  do 2 eexists. split; [done|]. split.
  - eapply evolves_trans; [done|]. eapply (evolves_trans _ _ (count record_flush d1)); [by apply evolves_core; [..|apply Hev]|].
    apply evolves_super. by apply (redb_ok_core d1); [|apply (ro_cache _ _ (ev_ok _ _ _ _ Hev))|apply Hev].
  - apply map_eq. intros p. simpl. rewrite Hd1, lookup_empty. case_decide as Hp; [done|].
    destruct (dirty d !! p) as [x|] eqn:Ex; [|done]. exfalso. apply Hp, list_elem_of_fmap. exists (p, x).
    split; [done|by apply elem_of_btree_iter].
Qed.

Lemma grow_pages_spec n cur d fs :
  let '(d', fs') := grow_pages n cur d fs in
  core d' = core d ∧ cache d' = cache d ∧
  ∀ path, fs' !! path = fs !! path ∨
          fs' !! path = Some zero_page ∧ ∃ p, cur ≤ p < cur + Z.of_nat n ∧ path = page_path (db_name d) p.
Proof.
  revert cur d fs. induction n as [|n IH]; intros cur d fs; [cbn [grow_pages]; auto|]. cbn [grow_pages].
  specialize (IH (cur + 1) (count record_page_write d) (<[page_path (db_name d) cur := zero_page]> fs)).
  destruct (grow_pages n _ _ _) as [d' fs']. destruct IH as (Hc & Hca & Hfs). split_and!; try done.
  intros path. destruct (Hfs path) as [->|(-> & p & Hp & ->)].
  - destruct (decide (path = page_path (db_name d) cur)) as [->|Hne].
    + right. rewrite lookup_insert_eq. split; [done|]. exists cur. split; [lia|done].
    + left. by apply lookup_insert_ne.
  - right. split; [done|]. exists p. split; [lia|done].
Qed.

(** The new pages of a database that grows. *)
Lemma grow_ok n d fs d1 fs1 :
  redb_ok d fs → num_pages d ≤ n ≤ 2 ^ 50 → core d1 = core d → cache d1 = cache d →
  (∀ path, fs1 !! path = fs !! path ∨
           fs1 !! path = Some zero_page ∧ ∃ p, num_pages d ≤ p < n ∧ path = page_path (db_name d) p) →
  let d' := count record_grow (d1 <| num_pages := n |>) in
  evolves d fs d' (write_superblock d' fs1) ∧ num_pages d' = n.
Proof.
  intros Hok Hn Hc Hca Hfs. split; [|done]. unfold core in Hc. injection Hc as Hnm Hm Hd Hcf Hcl.
  set (d' := count record_grow (d1 <| num_pages := n |>)).
  assert (db_name d' = db_name d) as Hnm' by done.
  assert (∀ q, (write_superblock d' fs1) !! page_path (db_name d) q = fs1 !! page_path (db_name d) q) as Hsup
    by (intros q; rewrite <-Hnm'; apply super_lookup_page).
  assert (∀ q, page d' (write_superblock d' fs1) q = page d fs q) as Hpage.
  { intros q. unfold page. rewrite Hnm', Hsup. change (dirty d') with (dirty d1). rewrite Hd.
    destruct (dirty d !! q) eqn:Eq; [done|]. destruct (Hfs (page_path (db_name d) q)) as [->|(-> & p & Hp & Heq)]; [done|].
    apply (inj _) in Heq as <-. destruct (fs !! _) as [x|] eqn:Ex; [|done]. simpl. symmetry.
    apply (ro_beyond _ _ Hok _ _ (proj1 Hp) Ex). }
  split; try done; [|simpl; lia|].
  2: { intros path Hpath. unfold write_superblock. rewrite Hnm', lookup_insert_ne by (intros <-; apply Hpath; by left).
       destruct (Hfs path) as [->|(_ & p & _ & ->)]; [done|]. exfalso. apply Hpath. right. by exists p. }
  pose proof (ro_pages _ _ Hok). split; rewrite ?Hnm'; simpl; try lia.
  - rewrite Hcl. apply Hok.
  - rewrite Hcf. apply Hok.
  - intros p x Hp. rewrite Hd in Hp. apply (ro_dirty _ _ Hok) in Hp as [? ?]. split; [done|lia].
  - intros p x. rewrite Hsup. destruct (Hfs (page_path (db_name d) p)) as [->|[-> _]]; [apply (ro_files _ _ Hok)|].
    intros [= <-]. apply length_zero_page.
  - intros p x Hp. rewrite Hpage. rewrite Hca in Hp. by apply (ro_cache _ _ Hok).
  - intros p x Hp. rewrite Hsup. destruct (Hfs (page_path (db_name d) p)) as [->|[-> _]]; [|congruence].
    apply (ro_beyond _ _ Hok). lia.
  - right. unfold write_superblock. rewrite Hnm'. apply lookup_insert_eq.
Qed.

Lemma grow_to_spec size d fs :
  redb_ok d fs → 0 ≤ size ≤ 2 ^ 62 →
  ∃ d' fs', grow_to size d fs = (Ok tt, d', fs') ∧ evolves d fs d' fs' ∧ size ≤ num_pages d' * PAGE_SIZE.
Proof.
  intros Hok Hs. unfold grow_to, is_closed. rewrite (ro_open _ _ Hok). cbn [Z.eqb].
  assert (sub64 (add64 size PAGE_SIZE) 1 = size + 4095) as ->.
  { unfold PAGE_SIZE. rewrite add64_small, sub64_small by mach. lia. }
  set (n := (size + 4095) `div` PAGE_SIZE).
  assert (size ≤ n * PAGE_SIZE) as Hsize.
  { unfold n, PAGE_SIZE. pose proof (Z.div_mod (size + 4095) 4096). pose proof (Z.mod_pos_bound (size + 4095) 4096). lia. }
  destruct (Z.leb_spec n (num_pages d)) as [Hle|Hlt].
  { exists d, fs. split_and!; [done|by apply evolves_core|]. unfold PAGE_SIZE in *. lia. }
  pose proof (grow_pages_spec (Z.to_nat (n - num_pages d)) (num_pages d) d fs) as Hg.
  destruct (grow_pages _ _ _ _) as [d1 fs1]. destruct Hg as (Hc & Hca & Hfs).
  destruct (grow_ok n d fs d1 fs1 Hok) as [Hev Hn]; [|done|done| |].
  - split; [lia|]. unfold n, PAGE_SIZE. apply Z.lt_succ_r, Z.div_lt_upper_bound; lia.
  - intros path. destruct (Hfs path) as [?|(? & p & ? & ?)]; [by left|]. right. split; [done|]. exists p. split; [lia|done].
  - do 2 eexists. split; [done|]. split; [exact Hev|]. by rewrite Hn.
Qed.

(** *** Writing *)

(** The same database with the bytes [f]. *)
Record becomes (f : Z → Z) (d : IonafsDatabaseFile) (fs : Files) (d' : IonafsDatabaseFile) (fs' : Files) : Prop := {
  be_ok : redb_ok d' fs';
  be_flat i : flat d' fs' i = f i;
  be_name : db_name d' = db_name d;
  be_config : config d' = config d;
  be_grows : num_pages d ≤ num_pages d';
  be_frame path : ¬ own (db_name d) path → fs' !! path = fs !! path;
}.

Lemma evolves_becomes d fs d' fs' : evolves d fs d' fs' → becomes (flat d fs) d fs d' fs'.
Proof. intros Hev. split; try apply Hev. intros i. by apply evolves_flat. Qed.

Lemma becomes_trans f g d1 fs1 d2 fs2 d3 fs3 :
  becomes f d1 fs1 d2 fs2 → becomes g d2 fs2 d3 fs3 → becomes g d1 fs1 d3 fs3.
Proof.
  intros [_ _ Hn Hc Hg Hf] [Hok Hp' Hn' Hc' Hg' Hf']. split; try first [congruence|lia].
  intros path Hpath. rewrite Hf' by (by rewrite Hn). by apply Hf.
Qed.

Lemma becomes_ext f g d fs d' fs' : (∀ i, f i = g i) → becomes f d fs d' fs' → becomes g d fs d' fs'.
Proof. intros Hfg Hb. split; try apply Hb. intros i. rewrite <-Hfg. apply Hb. Qed.

(** The array with [data] from [off] on. *)
Definition poke (off : Z) (data : bytes) (f : Z → Z) (i : Z) : Z :=
  if decide (off ≤ i < off + Z.of_nat (length data)) then nth (Z.to_nat (i - off)) data 0 else f i.

Lemma poke_ext off x f g i : (∀ j, f j = g j) → poke off x f i = poke off x g i.
Proof. intros Hfg. unfold poke. by case_decide. Qed.

Lemma poke_app off x y f i : poke (off + Z.of_nat (length x)) y (poke off x f) i = poke off (x ++ y) f i.
Proof.
  unfold poke. rewrite length_app. repeat case_decide; try lia; try done.
  - rewrite app_nth2 by lia. f_equal. lia.
  - by rewrite app_nth1 by lia.
Qed.

Lemma length_splice o c l : 0 ≤ o → (Z.to_nat o + length c ≤ length l)%nat → length (splice o c l) = length l.
Proof. intros. unfold splice. rewrite !length_app, length_take, length_drop. lia. Qed.

Lemma nth_splice o c l j :
  0 ≤ o → (Z.to_nat o + length c ≤ length l)%nat →
  nth (Z.to_nat j) (splice o c l) 0 =
    if decide (Z.to_nat o ≤ Z.to_nat j < Z.to_nat o + length c)%nat then nth (Z.to_nat j - Z.to_nat o) c 0
    else nth (Z.to_nat j) l 0.
Proof.
  intros Ho Hl. unfold splice. assert (length (take (Z.to_nat o) l) = Z.to_nat o) as Ht by (rewrite length_take; lia).
  destruct (decide (Z.to_nat j < Z.to_nat o)%nat).
  { rewrite app_nth1, decide_False by lia. rewrite !nth_lookup, lookup_take_lt by done. done. }
  rewrite app_nth2, Ht by lia. case_decide; [by rewrite app_nth1 by lia|]. rewrite app_nth2 by lia.
  rewrite !nth_lookup, lookup_drop. do 2 f_equal. lia.
Qed.

Definition put_page (p : Z) (x : bytes) (d : IonafsDatabaseFile) : IonafsDatabaseFile :=
  let d := d <| cache := (PageCache_insert p x (cache d)).1 |> in d <| dirty := <[p := x]> (dirty d) |>.

Lemma put_page_page p x d fs q : page (put_page p x d) fs q = if decide (q = p) then x else page d fs q.
Proof.
  unfold page. simpl. case_decide as Hq; [subst; by rewrite lookup_insert_eq|by rewrite lookup_insert_ne].
Qed.

Lemma put_page_ok p x d fs : redb_ok d fs → p < num_pages d → length x = page_length → redb_ok (put_page p x d) fs.
Proof.
  intros Hok Hp Hx. split; try apply Hok.
  - simpl. intros q y [[<- <-]|[_ Hq]]%lookup_insert_Some; [done|by apply (ro_dirty _ _ Hok)].
  - intros q y Hq. rewrite put_page_page. apply PageCache_insert_lookup in Hq as [[-> ->]|[Hqp Hq]].
    + by rewrite decide_True.
    + rewrite decide_False by done. by apply (ro_cache _ _ Hok).
Qed.

Lemma put_page_flat pos c d fs i :
  redb_ok d fs → 0 ≤ pos → pos `mod` PAGE_SIZE + Z.of_nat (length c) ≤ PAGE_SIZE →
  flat (put_page (pos `div` PAGE_SIZE) (splice (pos `mod` PAGE_SIZE) c (page d fs (pos `div` PAGE_SIZE))) d) fs i =
  poke pos c (flat d fs) i.
Proof.
  intros Hok Hpos Hc. unfold flat, poke. rewrite put_page_page.
  pose proof (length_page d fs (pos `div` PAGE_SIZE) Hok) as Hl. unfold page_length in Hl.
  pose proof (Z.div_mod pos PAGE_SIZE) as Hp. pose proof (Z.mod_pos_bound pos PAGE_SIZE) as Hpm.
  pose proof (Z.div_mod i PAGE_SIZE) as Hi. pose proof (Z.mod_pos_bound i PAGE_SIZE) as Him. unfold PAGE_SIZE in *.
  specialize (Hp ltac:(done)). specialize (Hpm ltac:(done)). specialize (Hi ltac:(done)). specialize (Him ltac:(done)).
  destruct (decide (i `div` 4096 = pos `div` 4096)) as [Heq|Hne].
  - rewrite nth_splice by lia. rewrite Heq in *. repeat case_decide; try lia; f_equal; lia.
  - rewrite decide_False; [done|]. intros Hr. apply Hne. apply (Z.div_unique _ _ _ (i - 4096 * (pos `div` 4096))); lia.
Qed.

Lemma resize_page d fs p : redb_ok d fs →
  (if Z.of_nat (length (page d fs p)) <? PAGE_SIZE then resize (Z.to_nat PAGE_SIZE) 0 (page d fs p) else page d fs p) =
  page d fs p.
Proof. intros Hok. rewrite (length_page d fs p Hok). unfold page_length. by rewrite Z2Nat.id, Z.ltb_irrefl. Qed.

(** One turn: up to the end of the page. *)
Lemma write_turn_spec pos b data d fs :
  redb_ok d fs → 0 ≤ pos → pos + Z.of_nat (length (b :: data)) ≤ num_pages d * PAGE_SIZE →
  let k := Z.to_nat (Z.min (PAGE_SIZE - pos `mod` PAGE_SIZE) (Z.of_nat (length (b :: data)))) in
  ∃ d' fs', write_turn (pos, b :: data, d, fs) = inl (pos + Z.of_nat k, drop k (b :: data), d', fs') ∧
    becomes (poke pos (take k (b :: data)) (flat d fs)) d fs d' fs'.
Proof.
  intros Hok Hpos Hend k. unfold write_turn. set (data' := b :: data) in *.
  assert (0 < Z.of_nat (length data')) as Hdata by (simpl; lia).
  pose proof (Z.mod_pos_bound pos PAGE_SIZE ltac:(done)) as Hm. pose proof (ro_pages _ _ Hok) as Hpg.
  assert (pos `div` PAGE_SIZE < num_pages d) as Hp by (apply Z.div_lt_upper_bound; [done|lia]).
  pose proof (read_page_spec (pos `div` PAGE_SIZE) d fs Hok) as Hrp.
  destruct (read_page (pos `div` PAGE_SIZE) d fs) as [x d1]. destruct Hrp as (-> & Hok1 & Hc1).
  rewrite <-(page_core d d1) by done. rewrite resize_page by done. fold k. set (c := take k data'). cbn zeta.
  set (y := splice (pos `mod` PAGE_SIZE) c (page d1 fs (pos `div` PAGE_SIZE))).
  change (_ <| dirty := _ |>) with (put_page (pos `div` PAGE_SIZE) y d1). set (d2 := put_page (pos `div` PAGE_SIZE) y d1).
  assert (length c = k) as Hk by (unfold c; rewrite length_take; lia).
  assert (add64 pos (Z.min (PAGE_SIZE - pos `mod` PAGE_SIZE) (Z.of_nat (length data'))) = pos + Z.of_nat k) as ->.
  { unfold k. rewrite Z2Nat.id, add64_small by (unfold PAGE_SIZE in *; mach). done. }
  unfold core in Hc1. injection Hc1 as Hn1 Hm1 Hd1 Hcf1 Hcl1.
  assert (redb_ok d2 fs) as Hok2.
  { apply put_page_ok; [done|lia|]. unfold y. rewrite length_splice, length_page; try done; [lia|].
    rewrite length_page by done. unfold page_length. unfold PAGE_SIZE in *. lia. }
  assert (becomes (poke pos c (flat d fs)) d fs d2 fs) as Hb.
  { split; try done; [|simpl; lia]. intros i. unfold d2, y. rewrite put_page_flat by (done || lia). apply poke_ext.
    intros j. unfold flat. by rewrite (page_core d) by (unfold core; congruence). }
  destruct (_ <=? _); [|by exists d2, fs].
  destruct (flush_spec d2 fs Hok2) as (d3 & fs3 & -> & Hev & _). exists d3, fs3. split; [done|].
  eapply becomes_trans; [done|]. eapply becomes_ext; [|by apply evolves_becomes]. apply Hb.
Qed.

Lemma write_turns_spec off data d fs :
  redb_ok d fs → 0 ≤ off → off + Z.of_nat (length data) ≤ num_pages d * PAGE_SIZE →
  ∃ d' fs', loop_upto write_turn (Z.to_pos (Z.of_nat (length data) + 1)) (off, data, d, fs) = inr (Ok tt, d', fs') ∧
    becomes (poke off data (flat d fs)) d fs d' fs'.
Proof.
  intros Hok Ho Hend.
  set (I := λ st : Z * bytes * IonafsDatabaseFile * Files, let '(pos, rest, d', fs') := st in ∃ past,
    data = past ++ rest ∧ pos = off + Z.of_nat (length past) ∧ becomes (poke off past (flat d fs)) d fs d' fs').
  destruct (loop_upto_spec write_turn I (λ st, Z.of_nat (length st.1.1.2))
    (λ r, ∃ d' fs', r = (Ok tt, d', fs') ∧ becomes (poke off data (flat d fs)) d fs d' fs')
    (Z.to_pos (Z.of_nat (length data) + 1)) (off, data, d, fs)) as (r & Hr & d' & fs' & -> & Hd').
  - intros [[[pos rest] d1] fs1] (past & Hsplit & -> & Hb1).
    destruct rest as [|b rest]; [rewrite app_nil_r in Hsplit; subst past; simpl; eauto|].
    assert (length data = length past + length (b :: rest))%nat as Hlen by (by rewrite Hsplit, length_app).
    set (pos := off + Z.of_nat (length past)) in *. pose proof (be_grows _ _ _ _ _ Hb1) as Hg.
    destruct (write_turn_spec pos b rest d1 fs1) as (d2 & fs2 & -> & Hb2); [apply Hb1|lia|unfold PAGE_SIZE in *; lia|].
    pose proof (Z.mod_pos_bound pos PAGE_SIZE ltac:(done)).
    set (k := Z.to_nat (Z.min (PAGE_SIZE - pos `mod` PAGE_SIZE) (Z.of_nat (length (b :: rest))))) in *.
    assert (0 < k ≤ length (b :: rest))%nat as Hk by (unfold k; simpl length; lia).
    split; [|cbn [fst snd]; rewrite length_drop; lia]. exists (past ++ take k (b :: rest)). split_and!.
    + by rewrite <-app_assoc, take_drop.
    + rewrite length_app, length_take. unfold pos. lia.
    + eapply becomes_trans; [done|]. eapply becomes_ext; [|done]. intros i. rewrite <-poke_app. apply poke_ext, Hb1.
  - exists []. split_and!; [done|simpl; lia|]. eapply becomes_ext; [|apply evolves_becomes; by apply evolves_core].
    intros i. unfold poke. by rewrite decide_False by (simpl; lia).
  - simpl. lia.
  - simpl. lia.
  - rewrite Hr. eauto.
Qed.

Lemma write_at_spec off data d fs :
  redb_ok d fs → 0 ≤ off → off + Z.of_nat (length data) ≤ 2 ^ 62 →
  ∃ d' fs', write_at off data d fs = Some (Ok tt, d', fs') ∧ becomes (poke off data (flat d fs)) d fs d' fs'.
Proof.
  intros Hok Ho Hlim. unfold write_at, is_closed. rewrite (ro_open _ _ Hok). cbn [Z.eqb].
  set (d1 := count record_write d). assert (evolves d fs d1 fs) as Hev1 by (by apply evolves_core).
  rewrite add64_small by mach. rewrite (len_exact d1 fs) by apply Hev1.
  set (end_ := off + Z.of_nat (length data)).
  assert (∃ d2 fs2, (if num_pages d1 * PAGE_SIZE <? end_ then grow_to end_ d1 fs else (Ok tt, d1, fs)) = (Ok tt, d2, fs2) ∧
    evolves d fs d2 fs2 ∧ end_ ≤ num_pages d2 * PAGE_SIZE) as (d2 & fs2 & -> & Hev2 & Hend).
  { destruct (Z.ltb_spec (num_pages d1 * PAGE_SIZE) end_).
    - destruct (grow_to_spec end_ d1 fs) as (d2 & fs2 & -> & Hev2 & Hend); [apply Hev1|lia|].
      exists d2, fs2. split_and!; [done|by eapply evolves_trans|done].
    - exists d1, fs. split_and!; [done|done|lia]. }
  destruct (write_turns_spec off data d2 fs2) as (d3 & fs3 & -> & Hb); [apply Hev2|done|done|].
  exists d3, fs3. split; [done|]. eapply becomes_trans; [by apply evolves_becomes|]. eapply becomes_ext; [|done].
  intros i. apply poke_ext. intros j. by apply evolves_flat.
Qed.
