(* ===== verification/RedbManager.v ===== *)
(** * The manager of databases ([src/src/blockchain/redb_adapter.rs], [mod manager]).

    A handle of a database is shared: cloning it copies [Arc]s. So handles live in
    a list, and the manager keeps for each name the number of one. Dropping a clone
    does what [close] does ([Drop for IonafsDatabaseFile]), and dropping a manager
    what [close_all] does. [Spec] is what a client may rely on: an array of bytes
    for each name, and the open handle of each name. [redb_is_flat_file] shows that
    every sequence of requests gets the replies of [Spec]. *)

From Stdlib Require Import ZArith Lia Bool.
From stdpp Require Import base gmap sets numbers strings list.
From S2P Require Import Prelude Types Redb.

Local Open Scope Z_scope.

Definition string_key (s : string) : list Z := (λ c, Z.of_N (Ascii.N_of_ascii c)) <$> String.list_ascii_of_string s.

Lemma string_key_inj s t : string_key s = string_key t → s = t.
Proof.
  intros Heq. apply (list_fmap_eq_inj _) in Heq.
  - by rewrite <-(String.string_of_list_ascii_of_string s), <-(String.string_of_list_ascii_of_string t), Heq.
  - intros c c' Hc%N2Z.inj. by rewrite <-(Ascii.ascii_N_embedding c), <-(Ascii.ascii_N_embedding c'), Hc.
Qed.

#[export] Instance string_keyord : KeyOrd string := keyord_via string_key string_key_inj.

(** ** The manager *)

Record RedbManager := mkRedbManager {
  mgr_config : RedbAdapterConfig;
  databases : gmap string nat;
  mgr_metrics : RedbAdapterMetrics;
}.

#[export] Instance eta_RedbManager : Settable RedbManager :=
  λ m, mkRedbManager (mgr_config m) (databases m) (mgr_metrics m).

(** All handles, and the files. *)
Record System := mkSystem {
  mgr : RedbManager;
  heap : list IonafsDatabaseFile;
  files : Files;
}.

#[export] Instance eta_System : Settable System := λ s, mkSystem (mgr s) (heap s) (files s).

Abbreviation res := (λ T, result T RedbAdapterError).

Definition no_metrics : RedbAdapterMetrics := mkRedbAdapterMetrics 0 0 0 0 0 0 0 0 0 0.

Definition RedbManager_new (c : RedbAdapterConfig) : res RedbManager :=
  match RedbAdapterConfig_validate c with
  | Err e => Err (RedbInternal e)
  | Ok _ => Ok (mkRedbManager c ∅ no_metrics)
  end.

Definition RedbManager_set_config (c : RedbAdapterConfig) (s : System) : res unit * System :=
  match RedbAdapterConfig_validate c with
  | Err e => (Err (RedbInternal e), s)
  | Ok _ => (Ok tt, s <| mgr := (mgr s) <| mgr_config := c |> |>)
  end.

(** The handle kept for a name, unless it is closed. *)
Definition live_handle (name : string) (s : System) : option nat :=
  h ← databases (mgr s) !! name; d ← heap s !! h; if is_closed d then None else Some h.

Definition RedbManager_open (name : string) (create_if_missing : bool) (s : System) : res nat * System :=
  match live_handle name s with
  | Some h => (Ok h, s)
  | None =>
    let c := mgr_config (mgr s) in
    let '(r, fs) :=
      if bool_decide (is_Some (files s !! super_path name)) then (IonafsDatabaseFile_open name c (files s), files s)
      else if create_if_missing then IonafsDatabaseFile_create name c (files s)
      else (Err NotFound, files s) in
    let s := s <| files := fs |> in
    match r with
    | Err e => (Err e, s)
    | Ok d =>
      let h := length (heap s) in
      let m := (mgr s) <| databases := <[name := h]> (databases (mgr s)) |> in
      (Ok h, s <| heap := heap s ++ [d] |> <| mgr := m <| mgr_metrics := record_open (mgr_metrics m) |> |>)
    end
  end.

(** The methods of a handle. *)

Definition handle_read (h : nat) (offset n : Z) (s : System) : option (res bytes * System) :=
  d ← heap s !! h; '(r, d') ← read_at offset n d (files s); Some (r, s <| heap := <[h := d']> (heap s) |>).

Definition handle_write (h : nat) (offset : Z) (data : bytes) (s : System) : option (res unit * System) :=
  d ← heap s !! h; '(r, d', fs) ← write_at offset data d (files s);
  Some (r, s <| heap := <[h := d']> (heap s) |> <| files := fs |>).

Definition handle_flush (h : nat) (s : System) : option (res unit * System) :=
  d ← heap s !! h; let '(r, d', fs) := flush d (files s) in
  Some (r, s <| heap := <[h := d']> (heap s) |> <| files := fs |>).

Definition handle_close (h : nat) (s : System) : option (res unit * System) :=
  d ← heap s !! h; let '(r, d', fs) := close d (files s) in
  Some (r, s <| heap := <[h := d']> (heap s) |> <| files := fs |>).

Definition handle_drop (h : nat) (s : System) : option System :=
  d ← heap s !! h; if is_closed d then Some s else snd <$> handle_close h s.

Definition RedbManager_close (name : string) (s : System) : option (res unit * System) :=
  match databases (mgr s) !! name with
  | None => Some (Ok tt, s)
  | Some h =>
    let s := s <| mgr := (mgr s) <| databases := delete name (databases (mgr s)) |> |> in
    '(r, s) ← handle_close h s;
    match r with
    | Err e => Some (Err e, s)
    | Ok _ => Some (Ok tt, s <| mgr := (mgr s) <| mgr_metrics := record_close (mgr_metrics (mgr s)) |> |>)
    end
  end.

(** A method on each database, in the order of the names; errors are only logged. *)
Fixpoint for_all (f : nat → System → option (res unit * System)) (l : list (string * nat)) (s : System) : option System :=
  match l with
  | [] => Some s
  | (_, h) :: l' => '(_, s) ← f h s; for_all f l' s
  end.

Definition RedbManager_close_all (s : System) : option (res unit * System) :=
  s ← for_all handle_close (btree_iter (databases (mgr s))) s;
  Some (Ok tt, s <| mgr := (mgr s) <| databases := ∅ |> |>).

Definition RedbManager_flush_all (s : System) : option (res unit * System) :=
  s ← for_all handle_flush (btree_iter (databases (mgr s))) s; Some (Ok tt, s).

Definition RedbManager_is_open (name : string) (s : System) : bool :=
  match d ← (databases (mgr s) !! name) ≫= (heap s !!.); Some (negb (is_closed d)) with Some b => b | None => false end.

Definition list_databases (s : System) : list string := (btree_iter (databases (mgr s))).*1.

(** ** Requests and replies *)

Inductive request :=
| ROpen (name : string) (create_if_missing : bool)
| RRead (h : nat) (offset n : Z)
| RWrite (h : nat) (offset : Z) (data : bytes)
| RFlush (h : nat)
| RClose (h : nat)
| RDrop (h : nat)
| RCloseName (name : string)
| RCloseAll
| RFlushAll
| RIsOpen (name : string)
| RSetConfig (c : RedbAdapterConfig).

Inductive reply :=
| PHandle (r : res nat)
| PBytes (r : res bytes)
| PUnit (r : res unit)
| PBool (b : bool)
| PNone.

Definition serve (q : request) (s : System) : option (reply * System) :=
  match q with
  | ROpen name create => let '(r, s) := RedbManager_open name create s in Some (PHandle r, s)
  | RRead h off n => '(r, s) ← handle_read h off n s; Some (PBytes r, s)
  | RWrite h off data => '(r, s) ← handle_write h off data s; Some (PUnit r, s)
  | RFlush h => '(r, s) ← handle_flush h s; Some (PUnit r, s)
  | RClose h => '(r, s) ← handle_close h s; Some (PUnit r, s)
  | RDrop h => s ← handle_drop h s; Some (PNone, s)
  | RCloseName name => '(r, s) ← RedbManager_close name s; Some (PUnit r, s)
  | RCloseAll => '(r, s) ← RedbManager_close_all s; Some (PUnit r, s)
  | RFlushAll => '(r, s) ← RedbManager_flush_all s; Some (PUnit r, s)
  | RIsOpen name => Some (PBool (RedbManager_is_open name s), s)
  | RSetConfig c => let '(r, s) := RedbManager_set_config c s in Some (PUnit r, s)
  end.

Section run.
Context {S : Type} (step : request → S → option (reply * S)).

Fixpoint run (qs : list request) (s : S) : option (list reply * S) :=
  match qs with
  | [] => Some ([], s)
  | q :: qs' => '(p, s) ← step q s; '(ps, s) ← run qs' s; Some (p :: ps, s)
  end.
End run.

(** ** What a client may rely on *)

(** The bytes of each database, zeros at first; the names that exist; the name of
    each handle given out; and the open handle of each name. *)
Record Spec := mkSpec {
  sp_bytes : string → Z → Z;
  sp_exists : gset string;
  sp_handles : list string;
  sp_open : gmap string nat;
}.

#[export] Instance eta_Spec : Settable Spec := λ s, mkSpec (sp_bytes s) (sp_exists s) (sp_handles s) (sp_open s).

Definition Spec_new : Spec := mkSpec (λ _ _, 0) ∅ [] ∅.

(** Is the handle open? *)
Definition sp_live (h : nat) (name : string) (sp : Spec) : bool := bool_decide (sp_open sp !! name = Some h).

Definition sp_close (h : nat) (name : string) (sp : Spec) : Spec :=
  if sp_live h name sp then sp <| sp_open := delete name (sp_open sp) |> else sp.

(** Offsets up to 2^62, so that no position overflows. *)
Definition in_range (off n : Z) : bool := (0 <=? off) && (0 <=? n) && (off + n <=? 2 ^ 62).

Definition sp_serve (q : request) (sp : Spec) : option (reply * Spec) :=
  match q with
  | ROpen name create =>
    match sp_open sp !! name with
    | Some h => Some (PHandle (Ok h), sp)
    | None =>
      if bool_decide (name ∈ sp_exists sp) || create then
        let h := length (sp_handles sp) in
        Some (PHandle (Ok h), mkSpec (sp_bytes sp) ({[name]} ∪ sp_exists sp) (sp_handles sp ++ [name])
                                (<[name := h]> (sp_open sp)))
      else Some (PHandle (Err NotFound), sp)
    end
  | RRead h off n =>
    name ← sp_handles sp !! h;
    if negb (in_range off n) then None
    else Some (PBytes (if sp_live h name sp then Ok (range (sp_bytes sp name) off (Z.to_nat n)) else Err Closed), sp)
  | RWrite h off data =>
    name ← sp_handles sp !! h;
    if negb (in_range off (Z.of_nat (length data))) then None
    else if sp_live h name sp
      then Some (PUnit (Ok tt), sp <| sp_bytes := λ n, if decide (n = name) then poke off data (sp_bytes sp name)
                                                       else sp_bytes sp n |>)
      else Some (PUnit (Err Closed), sp)
  | RFlush h => name ← sp_handles sp !! h; Some (PUnit (if sp_live h name sp then Ok tt else Err Closed), sp)
  | RClose h => name ← sp_handles sp !! h; Some (PUnit (Ok tt), sp_close h name sp)
  | RDrop h => name ← sp_handles sp !! h; Some (PNone, sp_close h name sp)
  | RCloseName name => Some (PUnit (Ok tt), sp <| sp_open := delete name (sp_open sp) |>)
  | RCloseAll => Some (PUnit (Ok tt), sp <| sp_open := ∅ |>)
  | RFlushAll => Some (PUnit (Ok tt), sp)
  | RIsOpen name => Some (PBool (bool_decide (is_Some (sp_open sp !! name))), sp)
  | RSetConfig c =>
    Some (PUnit (match RedbAdapterConfig_validate c with Err e => Err (RedbInternal e) | Ok _ => Ok tt end), sp)
  end.

(** ** The refinement *)

Definition holds (d : IonafsDatabaseFile) (fs : Files) (f : Z → Z) : Prop := redb_ok d fs ∧ ∀ i, flat d fs i = f i.

(** A database that nobody has open: what opening it would find. *)
Definition at_rest (name : string) (fs : Files) (f : Z → Z) (there : Prop) : Prop :=
  ∃ d, db_name d = name ∧ dirty d = ∅ ∧ holds d fs f ∧
       ((there ∧ 0 < num_pages d) ∨ (¬ there ∧ fs !! super_path name = None)).

Record refines (fs0 : Files) (sp : Spec) (s : System) : Prop := {
  rf_names : sp_handles sp = db_name <$> heap s;
  rf_config : RedbAdapterConfig_validate (mgr_config (mgr s)) = Ok tt;
  rf_kept name h : databases (mgr s) !! name = Some h → sp_handles sp !! h = Some name;
  rf_current name h : sp_open sp !! name = Some h → databases (mgr s) !! name = Some h;
  rf_live h d : heap s !! h = Some d → sp_open sp !! db_name d = Some h →
    holds d (files s) (sp_bytes sp (db_name d)) ∧ 0 < num_pages d ∧ db_name d ∈ sp_exists sp;
  rf_closed h d : heap s !! h = Some d → sp_open sp !! db_name d ≠ Some h → closed d = 1;
  rf_rest name : sp_open sp !! name = None → at_rest name (files s) (sp_bytes sp name) (name ∈ sp_exists sp);
  rf_frame path : (∀ name, ¬ own name path) → files s !! path = fs0 !! path;
}.

(** A database depends on its own files only. *)
Lemma redb_ok_frame d fs fs' :
  (∀ path, own (db_name d) path → fs' !! path = fs !! path) → redb_ok d fs →
  redb_ok d fs' ∧ ∀ i, flat d fs' i = flat d fs i.
Proof.
  intros Hf Hok.
  assert (∀ p, fs' !! page_path (db_name d) p = fs !! page_path (db_name d) p) as Hp by (intros p; apply Hf; right; by exists p).
  assert (∀ p, page d fs' p = page d fs p) as Hpage by (intros p; unfold page; by rewrite Hp).
  split; [|intros i; unfold flat; by rewrite Hpage]. split; try apply Hok.
  - intros p x. rewrite Hp. apply (ro_files _ _ Hok).
  - intros p x Hx. rewrite Hpage. by apply (ro_cache _ _ Hok).
  - intros p x Hx. rewrite Hp. by apply (ro_beyond _ _ Hok).
  - rewrite Hf by (by left). apply Hok.
Qed.

Lemma holds_frame d fs fs' f g :
  (∀ path, own (db_name d) path → fs' !! path = fs !! path) → (∀ i, f i = g i) → holds d fs f → holds d fs' g.
Proof.
  intros Hf Hfg [Hok Hh]. destruct (redb_ok_frame d fs fs' Hf Hok) as [Hok' Hh']. split; [done|].
  intros i. by rewrite Hh', Hh.
Qed.

Lemma at_rest_frame name fs fs' f g (P Q : Prop) :
  (∀ path, own name path → fs' !! path = fs !! path) → (∀ i, f i = g i) → (P ↔ Q) → at_rest name fs f P → at_rest name fs' g Q.
Proof.
  intros Hf Hfg HPQ (d & <- & Hd & Hh & Hex). exists d. split_and!; [done|done|by eapply holds_frame|].
  destruct Hex as [[? ?]|[? He]]; [left; tauto|right]. split; [tauto|]. by rewrite Hf by (by left).
Qed.

Section steps.
Context (fs0 : Files).

(** The handles a request does not touch: other names, and closed ones. *)
Lemma heap_insert_cases {A} (l : list A) h x k y :
  <[h := x]> l !! k = Some y → (h < length l)%nat → (k = h ∧ y = x) ∨ (k ≠ h ∧ l !! k = Some y).
Proof.
  intros Hk Hlt. destruct (decide (h = k)) as [<-|Hne].
  - rewrite list_lookup_insert_eq in Hk by done. injection Hk as <-. by left.
  - rewrite list_lookup_insert_ne in Hk by done. right. split; [congruence|done].
Qed.

Lemma names_insert (l : list IonafsDatabaseFile) h d d' :
  l !! h = Some d → db_name d' = db_name d → db_name <$> <[h := d']> l = db_name <$> l.
Proof.
  intros Hh Hn. rewrite list_fmap_insert, Hn. apply list_insert_id. by rewrite list_lookup_fmap, Hh.
Qed.

Lemma frame_other name n (fs fs' : Files) :
  (∀ path, ¬ own name path → fs' !! path = fs !! path) → n ≠ name → ∀ path, own n path → fs' !! path = fs !! path.
Proof. intros Hf Hn path Hp. apply Hf. intros Hp'. apply Hn. by eapply own_disjoint. Qed.

(** An open handle that works on its database. *)
Lemma refines_update sp sp' s h d d' fs' f :
  refines fs0 sp s → heap s !! h = Some d → sp_open sp !! db_name d = Some h → becomes f d (files s) d' fs' →
  sp_exists sp' = sp_exists sp → sp_handles sp' = sp_handles sp → sp_open sp' = sp_open sp →
  (∀ i, sp_bytes sp' (db_name d) i = f i) → (∀ n i, n ≠ db_name d → sp_bytes sp n i = sp_bytes sp' n i) →
  refines fs0 sp' (s <| heap := <[h := d']> (heap s) |> <| files := fs' |>).
Proof.
  intros Hr Hh Ho Hb He Hhd Hop Hf Hg. pose proof (lookup_lt_Some _ _ _ Hh) as Hlt.
  assert (∀ n, n ≠ db_name d → ∀ path, own n path → fs' !! path = files s !! path) as Hfr
    by (intros n; apply frame_other, (be_frame _ _ _ _ _ Hb)).
  split; simpl; rewrite ?He, ?Hhd, ?Hop; try apply Hr.
  - rewrite (names_insert _ _ _ _ Hh) by apply Hb. apply Hr.
  - intros k x [[-> ->]|[Hkh Hk]]%heap_insert_cases Hx; [..|done].
    + destruct (rf_live _ _ _ Hr h d Hh Ho) as (_ & Hp & Hex). pose proof (be_grows _ _ _ _ _ Hb).
      rewrite (be_name _ _ _ _ _ Hb). split_and!; [|lia|done]. split; [apply Hb|]. intros i. rewrite Hf. apply Hb.
    + destruct (rf_live _ _ _ Hr k x Hk Hx) as (Hhx & Hp & Hex). split_and!; [|done|done].
      assert (db_name x ≠ db_name d) by congruence. eapply holds_frame; [by apply Hfr|by auto|done].
  - intros k x [[-> ->]|[Hkh Hk]]%heap_insert_cases Hx; [..|done].
    + by rewrite (be_name _ _ _ _ _ Hb) in Hx.
    + by apply (rf_closed _ _ _ Hr k).
  - intros n Hn. assert (n ≠ db_name d) by congruence. eapply at_rest_frame; [by apply Hfr|by auto|done|by apply (rf_rest _ _ _ Hr)].
  - intros path Hpath. rewrite (be_frame _ _ _ _ _ Hb) by apply Hpath. by apply (rf_frame _ _ _ Hr).
Qed.

(** An open handle that closes: what it leaves is at rest. *)
Lemma refines_close sp s h d d' x fs' :
  refines fs0 sp s → heap s !! h = Some d → sp_open sp !! db_name d = Some h → evolves d (files s) d' fs' →
  dirty d' = ∅ → db_name x = db_name d → closed x = 1 →
  refines fs0 (sp <| sp_open := delete (db_name d) (sp_open sp) |>)
    (s <| heap := <[h := x]> (heap s) |> <| files := fs' |>).
Proof.
  intros Hr Hh Ho Hev Hd Hnx Hcx. pose proof (lookup_lt_Some _ _ _ Hh) as Hlt.
  assert (∀ n, n ≠ db_name d → ∀ path, own n path → fs' !! path = files s !! path) as Hfr
    by (intros n; apply frame_other, (ev_frame _ _ _ _ Hev)).
  split; simpl; try apply Hr.
  - rewrite (names_insert _ _ _ _ Hh) by done. apply Hr.
  - intros n k [_ Hn]%lookup_delete_Some. by apply (rf_current _ _ _ Hr).
  - intros k y [[-> ->]|[Hkh Hk]]%heap_insert_cases [Hne Hx]%lookup_delete_Some; [congruence| |done].
    destruct (rf_live _ _ _ Hr k y Hk Hx) as (Hhx & Hp & Hex). split_and!; [|done|done].
    eapply holds_frame; [by apply Hfr|by auto|done].
  - intros k y [[-> ->]|[Hkh Hk]]%heap_insert_cases Hx; [done| |done]. apply (rf_closed _ _ _ Hr k); [done|].
    intros Hy. apply Hx. rewrite lookup_delete_ne; [done|]. congruence.
  - intros n. destruct (decide (n = db_name d)) as [->|Hne].
    + intros _. destruct (rf_live _ _ _ Hr h d Hh Ho) as ([_ Hfl] & Hp & Hex). pose proof (ev_grows _ _ _ _ Hev).
      exists d'. split_and!; [apply Hev|done| |left; split; [done|lia]]. split; [apply Hev|].
      intros i. by rewrite (evolves_flat _ _ _ _ i Hev).
    + rewrite lookup_delete_ne by done. intros Hn. eapply at_rest_frame; [by apply Hfr|by auto|done|by apply (rf_rest _ _ _ Hr)].
  - intros path Hpath. rewrite (ev_frame _ _ _ _ Hev) by apply Hpath. by apply (rf_frame _ _ _ Hr).
Qed.

(** *** Opening *)

Lemma open_spec name c fs f P :
  at_rest name fs f P → RedbAdapterConfig_validate c = Ok tt →
  ∃ d, IonafsDatabaseFile_open name c fs = Ok d ∧ db_name d = name ∧ holds d fs f ∧
       ((P ∧ 0 < num_pages d) ∨ (¬ P ∧ fs !! super_path name = None)).
Proof.
  intros Hrest Hc. pose proof Hrest as (d & <- & Hd & [Hok Hfl] & Hex). unfold IonafsDatabaseFile_open. rewrite Hc.
  set (n := match fs !! super_path (db_name d) with Some _ => _ | None => _ end).
  assert (n = num_pages d) as ->.
  { pose proof (ro_pages _ _ Hok). unfold n. destruct (ro_super _ _ Hok) as [[Hn ->]| ->]; [done|].
    rewrite length_app, !length_le_bytes.
    change (SUPERBLOCK_SIZE <=? Z.of_nat (8 + 8)) with true. cbv iota. rewrite take_app_length' by (symmetry; apply length_le_bytes).
    apply le_value_bytes. simpl. lia. }
  eexists. split; [done|]. split_and!; [done| |done].
  set (d' := mkIonafsDatabaseFile _ _ _ _ _ _ _).
  assert (∀ p, page d' fs p = page d fs p) as Hp by (intros p; unfold page; simpl; by rewrite Hd).
  split; [|intros i; unfold flat; rewrite Hp; apply Hfl]. split; first [done|apply Hok].
Qed.

(** A database that is opened. *)
Lemma refines_open sp s name d d' fs' m :
  refines fs0 sp s → sp_open sp !! name = None → db_name d = name → holds d (files s) (sp_bytes sp name) →
  evolves d (files s) d' fs' → 0 < num_pages d' →
  refines fs0 (mkSpec (sp_bytes sp) ({[name]} ∪ sp_exists sp) (sp_handles sp ++ [name])
                 (<[name := length (heap s)]> (sp_open sp)))
    (mkSystem (mkRedbManager (mgr_config (mgr s)) (<[name := length (heap s)]> (databases (mgr s))) m)
       (heap s ++ [d']) fs').
Proof.
  intros Hr Ho Hn Hd Hev Hpos. assert (length (sp_handles sp) = length (heap s)) as Hlen
    by (rewrite (rf_names _ _ _ Hr); apply length_fmap).
  assert (∀ n, n ≠ name → ∀ path, own n path → fs' !! path = files s !! path) as Hfr
    by (subst name; intros n; apply frame_other, (ev_frame _ _ _ _ Hev)).
  assert (db_name d' = name) as Hn' by (by rewrite (ev_name _ _ _ _ Hev)).
  assert (∀ h x, heap s !! h = Some x → h ≠ length (heap s)) as Hold by (intros h x ?%lookup_lt_Some; lia).
  split; simpl.
  - by rewrite fmap_app, <-(rf_names _ _ _ Hr), <-Hn'.
  - apply Hr.
  - intros n h [[<- <-]|[_ Hh]]%lookup_insert_Some; [rewrite lookup_app_r, Hlen, Nat.sub_diag by lia; done|].
    by apply lookup_app_l_Some, (rf_kept _ _ _ Hr).
  - intros n h [[<- <-]|[Hne Hh]]%lookup_insert_Some; [apply lookup_insert_eq|].
    rewrite lookup_insert_ne by done. by apply (rf_current _ _ _ Hr).
  - intros h x [Hh|[Hh Hx]]%lookup_app_Some.
    + rewrite lookup_insert_Some. intros [[_ Heq]|[Hne Hh']]; [by apply Hold in Hh|].
      destruct (rf_live _ _ _ Hr h x Hh Hh') as (Hhx & Hp & Hex). split_and!; [|done|set_solver].
      eapply holds_frame; [by apply Hfr|by auto|done].
    + intros _. apply list_lookup_singleton_Some in Hx as [_ <-]. rewrite Hn'. split_and!; [|done|set_solver].
      split; [apply Hev|]. intros i. rewrite (evolves_flat _ _ _ _ i Hev). apply Hd.
  - intros h x [Hh|[Hh Hx]]%lookup_app_Some Hne.
    + apply (rf_closed _ _ _ Hr h); [done|]. intros Hx. apply Hne. rewrite lookup_insert_ne; [done|]. congruence.
    + apply list_lookup_singleton_Some in Hx as [Hx <-]. destruct Hne. rewrite Hn', lookup_insert_eq. f_equal. lia.
  - intros n [Hn1 Hn2]%lookup_insert_None.
    eapply at_rest_frame; [by apply Hfr|by auto| |by apply (rf_rest _ _ _ Hr)]. set_solver.
  - intros path Hpath. rewrite (ev_frame _ _ _ _ Hev) by apply Hpath. by apply (rf_frame _ _ _ Hr).
Qed.

(** *** The requests *)

Lemma handle_cases sp s h name :
  refines fs0 sp s → sp_handles sp !! h = Some name →
  ∃ d, heap s !! h = Some d ∧ db_name d = name ∧
       ((sp_live h name sp = true ∧ sp_open sp !! db_name d = Some h ∧ holds d (files s) (sp_bytes sp name)) ∨
        (sp_live h name sp = false ∧ closed d = 1)).
Proof.
  intros Hr Hh. rewrite (rf_names _ _ _ Hr), list_lookup_fmap in Hh. destruct (heap s !! h) as [d|] eqn:Ed; [|done].
  injection Hh as <-. exists d. split_and!; try done. unfold sp_live. case_bool_decide as Ho.
  - left. destruct (rf_live _ _ _ Hr h d Ed Ho) as (? & _ & _). done.
  - right. split; [done|]. by apply (rf_closed _ _ _ Hr h).
Qed.

Lemma closed_is_closed d : closed d = 1 → is_closed d = true.
Proof. unfold is_closed. by intros ->. Qed.

Lemma same_heap s h d : heap s !! h = Some d → s <| heap := <[h := d]> (heap s) |> = s.
Proof. intros Hh. destruct s. simpl in *. unfold set_field. simpl. by rewrite list_insert_id. Qed.

Lemma same_files (s : System) : s <| files := files s |> = s.
Proof. by destruct s. Qed.

Lemma flush_refines sp s h name :
  refines fs0 sp s → sp_handles sp !! h = Some name →
  ∃ s', handle_flush h s = Some (if sp_live h name sp then Ok tt else Err Closed, s') ∧ refines fs0 sp s' ∧ mgr s' = mgr s.
Proof.
  intros Hr Hh. destruct (handle_cases sp s h name Hr Hh) as (d & Hd & Hn & [(-> & Ho & Hhd)|[-> Hc]]);
    unfold handle_flush; rewrite Hd; simpl.
  - destruct (flush_spec d (files s) (proj1 Hhd)) as (d' & fs' & -> & Hev & _). eexists. split; [done|]. split; [|done].
    eapply (refines_update _ _ _ _ d d' fs' (flat d (files s))); try done; [by apply evolves_becomes|].
    intros i. subst name. symmetry. apply Hhd.
  - unfold flush. rewrite closed_is_closed by done. rewrite same_heap, same_files by done. by exists s.
Qed.

Lemma close_refines sp s h name :
  refines fs0 sp s → sp_handles sp !! h = Some name →
  ∃ s', handle_close h s = Some (Ok tt, s') ∧ refines fs0 (sp_close h name sp) s' ∧ mgr s' = mgr s.
Proof.
  intros Hr Hh. destruct (handle_cases sp s h name Hr Hh) as (d & Hd & Hn & [(Hl & Ho & Hhd)|[Hl Hc]]);
    unfold handle_close, sp_close, close; rewrite Hd, Hl; cbn [mbind option_bind].
  - destruct (flush_spec d (files s) (proj1 Hhd)) as (d' & fs' & -> & Hev & Hdirty).
    unfold is_closed. rewrite (ro_open _ _ (proj1 Hhd)). cbn [Z.eqb]. eexists. split; [done|]. split; [|done]. subst name.
    eapply refines_close; try done. apply Hev.
  - rewrite closed_is_closed by done. rewrite same_heap, same_files by done. by exists s.
Qed.

Lemma read_refines sp s h name off n :
  refines fs0 sp s → sp_handles sp !! h = Some name → in_range off n = true →
  ∃ s', handle_read h off n s =
        Some (if sp_live h name sp then Ok (range (sp_bytes sp name) off (Z.to_nat n)) else Err Closed, s') ∧
        refines fs0 sp s'.
Proof.
  intros Hr Hh Hrange. unfold in_range in Hrange. rewrite !andb_true_iff, !Z.leb_le in Hrange.
  destruct (handle_cases sp s h name Hr Hh) as (d & Hd & Hn & [(-> & Ho & Hhd)|[-> Hc]]);
    unfold handle_read; rewrite Hd; cbn [mbind option_bind].
  - destruct Hhd as [Hok Hfl]. destruct (read_at_spec off n d (files s)) as (d' & -> & Hok' & Hcore); [done|lia..|].
    simpl. eexists. split; [do 3 f_equal; apply range_ext; auto|].
    rewrite <-(same_files (s <| heap := _ |>)). change (files (s <| heap := _ |>)) with (files s).
    eapply (refines_update _ _ _ _ d d' (files s) (flat d (files s))); try done; [|intros i; subst name; by rewrite Hfl].
    apply evolves_becomes. pose proof Hcore as Hc. unfold core in Hc. injection Hc as ? ? ? ? ?.
    split; try done; [|lia]. intros p. by apply page_core.
  - unfold read_at. rewrite closed_is_closed by done. simpl. rewrite same_heap by done. by exists s.
Qed.

Lemma write_refines sp s h name off data :
  refines fs0 sp s → sp_handles sp !! h = Some name → in_range off (Z.of_nat (length data)) = true →
  ∃ s', handle_write h off data s = Some (if sp_live h name sp then Ok tt else Err Closed, s') ∧
        refines fs0 (if sp_live h name sp then sp <| sp_bytes := λ n, if decide (n = name)
                       then poke off data (sp_bytes sp name) else sp_bytes sp n |> else sp) s'.
Proof.
  intros Hr Hh Hrange. unfold in_range in Hrange. rewrite !andb_true_iff, !Z.leb_le in Hrange.
  destruct (handle_cases sp s h name Hr Hh) as (d & Hd & Hn & [(-> & Ho & Hhd)|[-> Hc]]);
    unfold handle_write; rewrite Hd; cbn [mbind option_bind].
  - destruct Hhd as [Hok Hfl]. destruct (write_at_spec off data d (files s)) as (d' & fs' & -> & Hb); [done|lia..|].
    simpl. eexists. split; [done|]. eapply refines_update; try done.
    + simpl. intros i. rewrite decide_True by done. apply poke_ext. intros j. by rewrite Hfl.
    + simpl. intros n i Hne. by rewrite decide_False by congruence.
  - unfold write_at. rewrite closed_is_closed by done. simpl. rewrite same_heap, same_files by done. by exists s.
Qed.

(** The manager forgets handles that are closed, or takes another configuration. *)
Lemma refines_mgr sp s m :
  refines fs0 sp s → RedbAdapterConfig_validate (mgr_config m) = Ok tt →
  (∀ n h, databases m !! n = Some h → databases (mgr s) !! n = Some h) →
  (∀ n h, sp_open sp !! n = Some h → databases m !! n = Some h) → refines fs0 sp (s <| mgr := m |>).
Proof. intros Hr Hc Hsub Hsup. split; simpl; try apply Hr; try done. intros n h Hn. by apply (rf_kept _ _ _ Hr), Hsub. Qed.

Lemma sp_close_kept sp s h name :
  refines fs0 sp s → databases (mgr s) !! name = Some h → sp_close h name sp = sp <| sp_open := delete name (sp_open sp) |>.
Proof.
  intros Hr Hk. unfold sp_close, sp_live. case_bool_decide as Ho; [done|].
  rewrite delete_id; [by destruct sp|]. destruct (sp_open sp !! name) as [k|] eqn:E; [|done].
  apply (rf_current _ _ _ Hr) in E. congruence.
Qed.

Lemma close_name_refines sp s name :
  refines fs0 sp s →
  ∃ s', RedbManager_close name s = Some (Ok tt, s') ∧ refines fs0 (sp <| sp_open := delete name (sp_open sp) |>) s'.
Proof.
  intros Hr. unfold RedbManager_close. destruct (databases (mgr s) !! name) as [h|] eqn:Ek.
  2: { exists s. split; [done|]. rewrite delete_id; [by destruct sp|]. destruct (sp_open sp !! name) as [k|] eqn:E; [|done].
       apply (rf_current _ _ _ Hr) in E. congruence. }
  destruct (close_refines sp s h name Hr) as (s' & Hc & Hr' & Hm); [by apply (rf_kept _ _ _ Hr)|].
  rewrite (sp_close_kept sp s h name) in Hr' by done. unfold handle_close in *. simpl.
  destruct (heap s !! h) as [d|]; [|done]. simpl in *. destruct (close d (files s)) as [[r d'] fs'].
  injection Hc as -> <-. simpl. eexists. split; [done|]. apply (refines_mgr _ _ (_ <| mgr_metrics := _ |>) Hr'); simpl.
  - apply Hr.
  - intros n k Hn. by apply lookup_delete_Some in Hn as [_ Hn].
  - intros n k [Hne Hn]%lookup_delete_Some. rewrite lookup_delete_ne by done. by apply (rf_current _ _ _ Hr).
Qed.

Lemma flush_all_refines sp l s :
  refines fs0 sp s → (∀ n h, (n, h) ∈ l → sp_handles sp !! h = Some n) →
  ∃ s', for_all handle_flush l s = Some s' ∧ refines fs0 sp s'.
Proof.
  revert s. induction l as [|[n h] l IH]; intros s Hr Hl; [by exists s|]. simpl.
  destruct (flush_refines sp s h n Hr) as (s1 & -> & Hr1 & _); [apply Hl; by left|]. simpl. apply IH; [done|].
  intros n' h' Hn. apply Hl. by right.
Qed.

Lemma close_all_refines sp l s :
  refines fs0 sp s → (∀ n h, (n, h) ∈ l → sp_handles sp !! h = Some n) →
  ∃ s' o, for_all handle_close l s = Some s' ∧ refines fs0 (sp <| sp_open := o |>) s' ∧ mgr s' = mgr s ∧
          ∀ n h, o !! n = Some h → sp_open sp !! n = Some h ∧ (n, h) ∉ l.
Proof.
  revert sp s. induction l as [|[n h] l IH]; intros sp s Hr Hl.
  { exists s, (sp_open sp). split_and!; [done|by destruct sp|done|]. intros. split; [done|apply not_elem_of_nil]. }
  simpl. destruct (close_refines sp s h n Hr) as (s1 & -> & Hr1 & Hm1); [apply Hl; by left|]. simpl.
  destruct (IH (sp_close h n sp) s1) as (s2 & o & -> & Hr2 & Hm2 & Ho); [done| |].
  { intros n' h' Hn. unfold sp_close. destruct (sp_live _ _ _); apply Hl; by right. }
  exists s2, o. split_and!; [done| |congruence|].
  - unfold sp_close in Hr2. by destruct (sp_live _ _ _).
  - intros n' h' [Hn Hnl]%Ho. unfold sp_close, sp_live in Hn. case_bool_decide as Hs; simpl in Hn.
    + apply lookup_delete_Some in Hn as [Hne Hn]. split; [done|]. rewrite not_elem_of_cons. split; [congruence|done].
    + split; [done|]. rewrite not_elem_of_cons. split; [congruence|done].
Qed.

Lemma live_handle_open sp s name : refines fs0 sp s → live_handle name s = sp_open sp !! name.
Proof.
  intros Hr. unfold live_handle. destruct (databases (mgr s) !! name) as [h|] eqn:Ek; simpl.
  2: { destruct (sp_open sp !! name) as [k|] eqn:E; [|done]. apply (rf_current _ _ _ Hr) in E. congruence. }
  destruct (handle_cases sp s h name Hr) as (d & -> & Hn & Hc); [by apply (rf_kept _ _ _ Hr)|]. simpl.
  destruct Hc as [(_ & Ho & [Hok _])|[Hl Hc]].
  - unfold is_closed. rewrite (ro_open _ _ Hok). subst name. by rewrite Ho.
  - rewrite closed_is_closed by done. unfold sp_live in Hl. apply bool_decide_eq_false in Hl.
    destruct (sp_open sp !! name) as [k|] eqn:E; [|done]. apply (rf_current _ _ _ Hr) in E. congruence.
Qed.

Lemma is_open_live name s : RedbManager_is_open name s = bool_decide (is_Some (live_handle name s)).
Proof.
  unfold RedbManager_is_open, live_handle. destruct (databases (mgr s) !! name) as [h|]; simpl; [|done].
  destruct (heap s !! h) as [d|]; simpl; [|done]. by destruct (is_closed d).
Qed.

Lemma open_refines sp s name create p sp' :
  refines fs0 sp s → sp_serve (ROpen name create) sp = Some (p, sp') →
  ∃ r s', RedbManager_open name create s = (r, s') ∧ p = PHandle r ∧ refines fs0 sp' s'.
Proof.
  intros Hr. unfold RedbManager_open, sp_serve. rewrite (live_handle_open sp s name Hr).
  destruct (sp_open sp !! name) as [h|] eqn:Eo; [intros [= <- <-]; eauto|].
  destruct (open_spec name (mgr_config (mgr s)) (files s) _ _ (rf_rest _ _ _ Hr name Eo) (rf_config _ _ _ Hr))
    as (d & Hopen & Hn & Hd & Hex).
  assert (length (sp_handles sp) = length (heap s)) as -> by (rewrite (rf_names _ _ _ Hr); apply length_fmap).
  destruct Hex as [[Hin Hpos]|[Hin Hnone]].
  - assert (is_Some (files s !! super_path name)) as Hs.
    { subst name. destruct (ro_super _ _ (proj1 Hd)) as [[? _]| ->]; [lia|done]. }
    rewrite !bool_decide_true, Hopen by done. simpl. intros [= <- <-]. do 2 eexists. split_and!; [done|done|].
    eapply (refines_open _ _ _ d d (files s)); try done. by apply evolves_core; [..|apply Hd].
  - rewrite Hnone, !bool_decide_false by (done || by intros [? ?]). simpl.
    destruct create; simpl; [|intros [= <- <-]; rewrite same_files; eauto]. intros [= <- <-].
    unfold IonafsDatabaseFile_create. rewrite Hnone, bool_decide_false by (by intros [? ?]). rewrite Hopen.
    destruct (grow_to_spec (2 * PAGE_SIZE) d (files s) (proj1 Hd)) as (d' & fs' & -> & Hev & Hsize); [done|].
    do 2 eexists. split_and!; [done|done|]. eapply (refines_open _ _ _ d d' fs'); try done.
    unfold PAGE_SIZE in Hsize. lia.
Qed.

Lemma serve_refines q sp s p sp' :
  refines fs0 sp s → sp_serve q sp = Some (p, sp') → ∃ s', serve q s = Some (p, s') ∧ refines fs0 sp' s'.
Proof.
  intros Hr Hq. assert (∀ n h, (n, h) ∈ btree_iter (databases (mgr s)) → sp_handles sp !! h = Some n) as Hkept
    by (intros n h ?%elem_of_btree_iter; by apply (rf_kept _ _ _ Hr)).
  destruct q as [name create|h off n|h off data|h|h|h|name| | |name|c]; cbn [serve].
  { destruct (open_refines sp s name create p sp' Hr Hq) as (r & s' & -> & -> & ?). eauto. }
  1-5: cbn [sp_serve] in Hq; destruct (sp_handles sp !! h) as [name|] eqn:Eh; [|done]; cbn [mbind option_bind] in Hq.
  - destruct (in_range off n) eqn:Er; [|done]. injection Hq as <- <-.
    destruct (read_refines sp s h name off n Hr Eh Er) as (s' & -> & ?). simpl. eauto.
  - destruct (in_range off _) eqn:Er; [|done]. destruct (write_refines sp s h name off data Hr Eh Er) as (s' & -> & Hs').
    simpl in *. destruct (sp_live _ _ _); injection Hq as <- <-; eauto.
  - injection Hq as <- <-. destruct (flush_refines sp s h name Hr Eh) as (s' & -> & ? & _). simpl. eauto.
  - injection Hq as <- <-. destruct (close_refines sp s h name Hr Eh) as (s' & -> & ? & _). simpl. eauto.
  - injection Hq as <- <-. unfold handle_drop. destruct (handle_cases sp s h name Hr Eh) as (d & Hd & Hn & Hc).
    destruct (close_refines sp s h name Hr Eh) as (s' & Hcl & Hr' & _). rewrite Hcl, Hd. simpl.
    destruct Hc as [(_ & _ & [Hok _])|[Hl Hc]].
    + unfold is_closed. rewrite (ro_open _ _ Hok). simpl. eauto.
    + rewrite closed_is_closed by done. simpl. unfold sp_close. rewrite Hl. eauto.
  - injection Hq as <- <-. destruct (close_name_refines sp s name Hr) as (s' & -> & ?). simpl. eauto.
  - injection Hq as <- <-. unfold RedbManager_close_all.
    destruct (close_all_refines sp _ s Hr Hkept) as (s' & o & -> & Hr' & Hm & Ho). simpl. eexists. split; [done|].
    assert (o = ∅) as ->; [|apply refines_mgr; try done; by rewrite Hm; apply Hr]. apply map_empty. intros n.
    destruct (o !! n) as [h|] eqn:E; [|done]. apply Ho in E as [E Hni]. destruct Hni.
    apply elem_of_btree_iter. by apply (rf_current _ _ _ Hr).
  - injection Hq as <- <-. unfold RedbManager_flush_all. destruct (flush_all_refines sp _ s Hr Hkept) as (s' & -> & ?). simpl. eauto.
  - injection Hq as <- <-. exists s. split; [|done]. by rewrite is_open_live, (live_handle_open sp).
  - injection Hq as <- <-. unfold RedbManager_set_config. destruct (RedbAdapterConfig_validate c) as [[]|] eqn:Ec; eexists; (split; [done|]); [|done].
    apply refines_mgr; try done. apply (rf_current _ _ _ Hr).
Qed.

Lemma run_refines qs sp s ps sp' :
  refines fs0 sp s → run sp_serve qs sp = Some (ps, sp') → ∃ s', run serve qs s = Some (ps, s') ∧ refines fs0 sp' s'.
Proof.
  revert sp s ps. induction qs as [|q qs IH]; intros sp s ps Hr Hq; simpl in Hq; [injection Hq as <- <-; by exists s|].
  destruct (sp_serve q sp) as [[p sp1]|] eqn:E1; [|done]. simpl in Hq.
  destruct (run sp_serve qs sp1) as [[ps1 sp2]|] eqn:E2; [|done]. injection Hq as <- <-.
  destruct (serve_refines q sp s p sp1 Hr E1) as (s1 & Hs1 & Hr1).
  destruct (IH sp1 s1 ps1 Hr1 E2) as (s2 & Hs2 & Hr2). exists s2. simpl. rewrite Hs1. simpl. by rewrite Hs2.
Qed.

(** No database yet. *)
Lemma refines_new m :
  (∀ name path, own name path → fs0 !! path = None) → RedbAdapterConfig_validate (mgr_config m) = Ok tt →
  databases m = ∅ → refines fs0 Spec_new (mkSystem m [] fs0).
Proof.
  intros Hfs Hc Hm. split; simpl; try done; [by rewrite Hm|]. intros name _.
  exists (mkIonafsDatabaseFile name 0 (PageCache_new 1) ∅ (mgr_config m) no_metrics 0).
  assert (∀ p, fs0 !! page_path name p = None) as Hp by (intros p; apply (Hfs name); right; by exists p).
  assert (fs0 !! super_path name = None) as Hs by (apply (Hfs name); by left).
  split_and!; [done|done| |right; split; [set_solver|done]]. split.
  - split; simpl; try done; [..|by left]; intros p x; by rewrite Hp.
  - intros i. unfold flat, page. cbn. rewrite lookup_empty, Hp. apply nth_zero_page.
Qed.
End steps.


(** ** A run *)

(** A write over a page boundary with a cache of one page, a clone dropped, and the
    database opened again. *)
Definition ex_requests : list request :=
  [ROpen "chain" true; RWrite 0 4094 [1; 2; 3; 4]; RDrop 0; RRead 0 0 1; ROpen "chain" false; RRead 1 4093 6;
   ROpen "other" false; RIsOpen "chain"].

Definition ex_config : RedbAdapterConfig := mkRedbAdapterConfig 1 1000 1 true false true.

Definition ex_replies : list reply :=
  [PHandle (Ok 0%nat); PUnit (Ok tt); PNone; PBytes (Err Closed); PHandle (Ok 1%nat); PBytes (Ok [0; 1; 2; 3; 4; 0]);
   PHandle (Err NotFound); PBool true].

