(* ===== verification/Paging.v ===== *)
(** * Page tables, fork and copy-on-write ([src/src/process/fork/mod.rs] and
    [src/src/process/address_space.rs]).

    Physical memory is a map from the numbers of its 8-byte words to their values;
    frame [f] is the words from [512 * f] on. The kernel reaches it through a
    direct mapping, so table entries and page contents are words of the same
    memory. An entry of a page table is a word in the format of the processor; the
    methods of [PageTableEntry] read and write its bits, but for [frame], which is
    a parameter, since the package decides what it does with huge pages. A frame
    is its number. The frame allocator is the class [Frames]: what the code here
    needs of it, with its laws stated for the multiset of references in
    [FramesLaws]. A loop that can fail ends with the state it has reached. TLBs are
    not modelled: every change is followed by a flush on the CPU that made it. *)

From Stdlib Require Import ZArith Lia Bool.
From stdpp Require Import base gmap sets gmultiset numbers list.
From S2P Require Import Prelude.

Local Open Scope rust_scope.
Local Open Scope Z_scope.

(** ** The frame allocator as its clients see it *)

Class Frames (A : Type) := {
  allocate : A → A * option Z;
  inc : Z → A → A;
  dec : Z → A → A;
  references : Z → A → Z;
}.

(** [held a R]: [R] is the multiset of references to frames in state [a]. There
    are at most [frame_alloc::MAX_FRAMES] frames. *)
Class FramesLaws (A : Type) `{Frames A} (held : A → gmultiset Z → Prop) := {
  held_range a R f : held a R → f ∈ R → 0 ≤ f < 2 ^ 19;
  allocate_law a R : held a R →
    match allocate a with
    | (a', Some f) => (f ∉ R) ∧ held a' ({[+ f +]} ⊎ R)
    | (a', None) => held a' R ∧ (allocate a').2 = None
    end;
  inc_law a R f : held a R → f ∈ R → Z.of_nat (multiplicity f R) < U32_MAX → held (inc f a) ({[+ f +]} ⊎ R);
  dec_law a R f : held a R → f ∈ R → held (dec f a) (R ∖ {[+ f +]});
  dec_none_law a R f : held a R → 0 ≤ f < 2 ^ 19 → f ∉ R → held (dec f a) R;
  references_law a R f : held a R → f ∈ R → references f a = Z.of_nat (multiplicity f R);
}.

(** ** Page table entries *)

(** Numbers of bits. *)
Definition PRESENT : Z := 0.
Definition WRITABLE : Z := 1.
Definition USER_ACCESSIBLE : Z := 2.
Definition HUGE_PAGE : Z := 7.
Definition NO_EXECUTE : Z := 63.

Definition ADDR_MASK : Z := 0x000FFFFFFFFFF000.

Definition has (bit e : Z) : bool := Z.testbit e bit.
Definition addr (e : Z) : Z := Z.land e ADDR_MASK.
Definition flags (e : Z) : Z := Z.ldiff e ADDR_MASK.
Definition set_addr (a fl : Z) : Z := Z.lor a fl.
Definition pfn (e : Z) : Z := Z.shiftr (addr e) 12.

(** [PageTableEntry::frame] of the package x86_64. *)
Class EntryFrame := { entry_frame : Z → option Z }.

(** A present entry that is not a huge page has a frame. *)
Class EntryFrameLaw `{EntryFrame} :=
  { entry_frame_law e : has PRESENT e = true → has HUGE_PAGE e = false → entry_frame e = Some (pfn e) }.

(** ** Memory *)

Abbreviation Mem := (gmap Z Z).

Definition word (m : Mem) (a : Z) : Z := default 0 (m !! a).

(** Entry [i] of the table in frame [f]. *)
Definition entry (m : Mem) (f i : Z) : Z := word m (f * 512 + i).

Record Machine (A : Type) := mkMachine {
  mem : Mem;
  allocator : A;
}.
Arguments mkMachine {A}.
Arguments mem {A}.
Arguments allocator {A}.

#[export] Instance eta_Machine A : Settable (Machine A) := λ s, mkMachine (mem s) (allocator s).

(** Every word of a frame is written. *)
Definition fill (f : Z) (g : Z → Z) (m : Mem) : Mem := foldl (λ m i, <[f * 512 + i := g i]> m) m (seqZ 0 512).



Section paging.
Context {A : Type} `{Frames A, EntryFrame}.
Implicit Types s : Machine A.

Definition set_entry (f i e : Z) s : Machine A := s <| mem := <[f * 512 + i := e]> (mem s) |>.

Definition zero_frame (f : Z) s : Machine A := s <| mem := fill f (λ _, 0) (mem s) |>.

Definition copy_frame (src dst : Z) s : Machine A := s <| mem := fill dst (entry (mem s) src) (mem s) |>.

Definition allocate_one s : Machine A * option Z :=
  let '(a, f) := allocate (allocator s) in (s <| allocator := a |>, f).

(** [if let Ok(frame) = e.frame() { inc_ref(frame) }], and with [dec_ref]. *)
Definition inc_entry (e : Z) s : Machine A :=
  match entry_frame e with Some f => s <| allocator := inc f (allocator s) |> | None => s end.

Definition dec_entry (e : Z) s : Machine A :=
  match entry_frame e with Some f => s <| allocator := dec f (allocator s) |> | None => s end.

(** ** Walking the tables *)

Inductive AddressSpaceError :=
| OutOfMemory
| InvalidAddress
| AlreadyMapped
| NotMapped
| InvalidPhysicalAddress
| Locked
| TooManyPageTables
| KernelSpaceViolation
| Unsupported
| Internal.

Definition index_at (virt shift : Z) : Z := Z.land (Z.shiftr virt shift) 0x1FF.

Definition canonical (virt : Z) : bool :=
  let bit47 := Z.land (Z.shiftr virt 47) 1 in
  let upper := Z.shiftr virt 48 in
  negb (((bit47 =? 0) && negb (upper =? 0)) || ((bit47 =? 1) && negb (upper =? 0xFFFF))).

Definition walk_page_tables (l4_phys virt : Z) (m : Mem) : result (Z * Z) AddressSpaceError :=
  if negb (canonical virt) then Err InvalidAddress
  else
    let read_entry table_phys idx := entry m (pfn table_phys) idx in
    let l4e := read_entry l4_phys (index_at virt 39) in
    if negb (has PRESENT l4e) then Err NotMapped
    else
      let l3e := read_entry (addr l4e) (index_at virt 30) in
      if negb (has PRESENT l3e) then Err NotMapped
      else if has HUGE_PAGE l3e then Ok (l3e, 3)
      else
        let l2e := read_entry (addr l3e) (index_at virt 21) in
        if negb (has PRESENT l2e) then Err NotMapped
        else if has HUGE_PAGE l2e then Ok (l2e, 2)
        else
          let l1e := read_entry (addr l2e) (index_at virt 12) in
          if negb (has PRESENT l1e) then Err NotMapped else Ok (l1e, 1).

Definition get_phys_addr (l4_phys virt : Z) (m : Mem) : result Z AddressSpaceError :=
  let? w := walk_page_tables l4_phys virt m in
  let '(pte, level) := w in
  let base := addr pte in
  if level =? 3 then Ok (Z.lor base (Z.land virt 0x3FFFFFFF))
  else if level =? 2 then Ok (Z.lor base (Z.land virt 0x1FFFFF))
  else if level =? 1 then Ok (Z.lor base (Z.land virt 0xFFF))
  else Err Internal.

Record PageWalkResult := mkPageWalkResult {
  phys_addr : Z;
  page_size : Z;
  pw_writable : bool;
  pw_user : bool;
  executable : bool;
  pw_present : bool;
}.

Definition AddressSpace_walk (l4_phys virt : Z) (m : Mem) : result PageWalkResult AddressSpaceError :=
  let? w := walk_page_tables l4_phys virt m in
  let '(pte, level) := w in
  let res offset size :=
    Ok (mkPageWalkResult (Z.lor (addr pte) offset) size (has WRITABLE pte) (has USER_ACCESSIBLE pte)
          (negb (has NO_EXECUTE pte)) (has PRESENT pte)) in
  if level =? 3 then res (Z.land virt 0x3FFFFFFF) (2 ^ 30)
  else if level =? 2 then res (Z.land virt 0x1FFFFF) (2 ^ 21)
  else if level =? 1 then res (Z.land virt 0xFFF) 4096
  else Err Internal.

(** ** Cloning the tables for fork *)

Inductive ProcessError :=
| PeOutOfMemory
| ProcessNotFound
| InvalidArgument
| PermissionDenied
| ResourceLimit
| PeUnsupported
| Io
| NoChildProcess
| NotChild
| Interrupted.

(** The body of the innermost loop: an entry of an L1 table. *)
Definition clone_page (parent child : Z) s (i : Z) : Machine A :=
  let l1e := entry (mem s) parent i in
  if negb (has PRESENT l1e) then s
  else
    let cow_flags := Z.clearbit (flags l1e) WRITABLE in
    let frame_addr := addr l1e in
    let s := set_entry child i (set_addr frame_addr cow_flags) s in
    let s := set_entry parent i (set_addr frame_addr cow_flags) s in
    inc_entry (entry (mem s) parent i) s.

Definition copy_kernel_half (parent child : Z) s : Machine A :=
  foldl (λ s i, set_entry child i (entry (mem s) parent i) s) s (seqZ 256 256).

(** [fork]'s [clone_page_tables_cow] and [AddressSpace::clone_cow] are the same
    loops but for what the child gets for a huge page ([share]) and for the error.
    In L4 there are no huge pages. *)
Section clone.
Context {E : Type} (no_memory : E) (share : Z → Z).

Abbreviation cloner := (Z → Z → Machine A → result unit E * Machine A).

Definition clone_l1 (parent child : Z) s : result unit E * Machine A :=
  (Ok tt, foldl (clone_page parent child) s (seqZ 0 512)).

(** The body of the loops over L4, L3 and L2: share a huge page, or make a table for
    the child and clone what it holds. *)
Definition clone_slot (huge_pages : bool) (inner : cloner) (parent child i : Z) s : result unit E * Machine A :=
  let e := entry (mem s) parent i in
  if negb (has PRESENT e) then (Ok tt, s)
  else if huge_pages && has HUGE_PAGE e then (Ok tt, inc_entry (entry (mem s) parent i) (set_entry child i (share e) s))
  else
    match allocate_one s with
    | (s, None) => (Err no_memory, s)
    | (s, Some table) =>
      let '(r, s) := inner (pfn e) table (zero_frame table s) in
      match r with
      | Err err => (Err err, s)
      | Ok _ => (Ok tt, set_entry child i (set_addr (table * 4096) (flags (entry (mem s) parent i))) s)
      end
    end.

Fixpoint clone_slots (huge_pages : bool) (inner : cloner) (parent child : Z) (l : list Z) s : result unit E * Machine A :=
  match l with
  | [] => (Ok tt, s)
  | i :: l' =>
    let '(r, s) := clone_slot huge_pages inner parent child i s in
    match r with Err e => (Err e, s) | Ok _ => clone_slots huge_pages inner parent child l' s end
  end.

Definition clone_l2 : cloner := λ p c, clone_slots true clone_l1 p c (seqZ 0 512).
Definition clone_l3 : cloner := λ p c, clone_slots true clone_l2 p c (seqZ 0 512).

Definition clone_tables (parent : Z) s : result Z E * Machine A :=
  match allocate_one s with
  | (s, None) => (Err no_memory, s)
  | (s, Some child) =>
    let s := copy_kernel_half parent child (zero_frame child s) in
    let '(r, s) := clone_slots false clone_l3 parent child (seqZ 0 256) s in
    match r with Err e => (Err e, s) | Ok _ => (Ok child, s) end
  end.
End clone.

Definition clone_page_tables_cow (parent : Z) s : result Z ProcessError * Machine A := clone_tables PeOutOfMemory (λ e, e) parent s.

(** ** Address spaces *)

Record AddressSpaceConfig := mkAddressSpaceConfig {
  enable_aslr : bool;
  aslr_bits : Z;
  ac_user_base : Z;
  ac_stack_top : Z;
}.

(** The fields that are addresses of the L4 table are its frame here. *)
Record AddressSpace := mkAddressSpace {
  l4_frame : Z;
  user_base : Z;
  stack_top : Z;
  entry_point : Z;
  argc : Z;
  mapped_pages : Z;
  page_tables : Z;
  as_config : AddressSpaceConfig;
  locked : bool;
}.

(** [cr3] is the L4 table in use and [rand] the random number. *)
Definition AddressSpace_new (config : AddressSpaceConfig) (cr3 rand : Z) s :
    result AddressSpace AddressSpaceError * Machine A :=
  match allocate_one s with
  | (s, None) => (Err OutOfMemory, s)
  | (s, Some l4) =>
    let s := copy_kernel_half cr3 l4 (zero_frame l4 s) in
    let base :=
      if enable_aslr config
      then let rand_offset := Z.land rand (sub64 (wrap64 (Z.shiftl 1 (aslr_bits config `mod` 64))) 1) in
           add64 (ac_user_base config) (wrap64 (Z.shiftl rand_offset 12))
      else ac_user_base config in
    (Ok (mkAddressSpace l4 base (ac_stack_top config) 0 0 0 1 config false), s)
  end.

Definition AddressSpace_clone_cow (self : AddressSpace) s : result AddressSpace AddressSpaceError * Machine A :=
  match clone_tables OutOfMemory (λ e, set_addr (addr e) (Z.clearbit (flags e) WRITABLE)) (l4_frame self) s with
  | (Err e, s) => (Err e, s)
  | (Ok l4, s) =>
    (Ok (mkAddressSpace l4 (user_base self) (stack_top self) (entry_point self) (argc self) (mapped_pages self)
           (add64 (page_tables self) 1) (as_config self) false), s)
  end.

(** ** The copy-on-write fault *)

(** [set_frame] panics on a huge entry: [None]. *)
Definition set_frame (f i frame fl : Z) s : option (Machine A) :=
  if has HUGE_PAGE fl then None else Some (set_entry f i (set_addr (frame * 4096) fl) s).

Definition copy_on_write_fault (cr3 virt : Z) s : option (bool * Machine A) :=
  let get_table e := if has PRESENT e then Some (pfn e) else None in
  let at_ shift f := entry (mem s) f (index_at virt shift) in
  match l3 ← get_table (at_ 39 cr3); l2 ← get_table (at_ 30 l3); get_table (at_ 21 l2) with
  | None => Some (false, s)
  | Some l1 =>
    let e := at_ 12 l1 in
    if negb (has PRESENT e) then Some (false, s)
    else
      match entry_frame e with
      | None => Some (false, s)
      | Some old_frame =>
        if references old_frame (allocator s) <=? 1 then
          s ← set_frame l1 (index_at virt 12) old_frame (Z.setbit (flags e) WRITABLE) s; Some (true, s)
        else
          match allocate_one s with
          | (s, None) => Some (false, s)
          | (s, Some new_frame) =>
            let s := copy_frame old_frame new_frame s in
            let s := s <| allocator := dec old_frame (allocator s) |> in
            let fl := flags (entry (mem s) l1 (index_at virt 12)) in
            s ← set_frame l1 (index_at virt 12) new_frame (Z.setbit fl WRITABLE) s; Some (true, s)
          end
      end
  end.

(** ** Giving an address space back *)

Definition free_page s (e : Z) : Machine A := if has PRESENT e then dec_entry e s else s.

Definition free_table (f : Z) s : Machine A := s <| allocator := dec f (allocator s) |>.

(** The loops over L1, L2, L3 and the user half of L4; [e] is the entry that
    leads to the table. *)
Definition cleanup_l1 (e : Z) s : Machine A :=
  let l1 := pfn e in
  free_table l1 (foldl (λ s i, free_page s (entry (mem s) l1 i)) s (seqZ 0 512)).

Definition cleanup_slot (huge_pages : bool) (inner : Z → Machine A → Machine A) (table : Z) s (i : Z) : Machine A :=
  let e := entry (mem s) table i in
  if negb (has PRESENT e) then s
  else if huge_pages && has HUGE_PAGE e then dec_entry e s
  else inner e s.

Definition cleanup_l2 (e : Z) s : Machine A :=
  free_table (pfn e) (foldl (cleanup_slot true cleanup_l1 (pfn e)) s (seqZ 0 512)).

Definition cleanup_l3 (e : Z) s : Machine A :=
  free_table (pfn e) (foldl (cleanup_slot true cleanup_l2 (pfn e)) s (seqZ 0 512)).

Definition cleanup (l4 : Z) s : Machine A :=
  free_table l4 (foldl (cleanup_slot false cleanup_l3 l4) s (seqZ 0 256)).

Definition AddressSpace_cleanup (self : AddressSpace) s : AddressSpace * Machine A :=
  (mkAddressSpace (l4_frame self) (user_base self) (stack_top self) (entry_point self) (argc self) 0 0 (as_config self) (locked self),
   cleanup (l4_frame self) s).

Definition AddressSpace_drop (self : AddressSpace) s : Machine A := free_table (l4_frame self) s.

(** ** What the processor does for a program

    An access of one aligned word of the user half, without huge pages: the flags
    of the entries on the way and the last entry. An access needs the user flag on
    every entry, and a write the writable flag; a write that is refused although the
    page is there goes to [copy_on_write_fault], and is tried again when that
    succeeds. *)

Definition indices (virt : Z) : list Z := [index_at virt 39; index_at virt 30; index_at virt 21; index_at virt 12].

Fixpoint mmu (m : Mem) (f : Z) (path : list Z) : option (list Z * Z) :=
  match path with
  | [] => None
  | i :: path' =>
    let e := entry m f i in
    if negb (has PRESENT e) then None
    else match path' with
         | [] => Some ([], e)
         | _ => '(fl, leaf) ← mmu m (pfn e) path'; Some (flags e :: fl, leaf)
         end
  end.

Definition allows (bit : Z) (w : list Z * Z) : bool := forallb (has bit) w.1 && has bit w.2.

Definition word_of (virt leaf : Z) : Z := pfn leaf * 512 + (virt `mod` 4096) `div` 8.

Definition user_read (cr3 virt : Z) (m : Mem) : option Z :=
  w ← mmu m cr3 (indices virt); if allows USER_ACCESSIBLE w then Some (word m (word_of virt w.2)) else None.

Inductive write_outcome := Done | Segv | FaultsAgain.

Definition try_write (cr3 virt x : Z) s : option (Machine A) :=
  w ← mmu (mem s) cr3 (indices virt);
  if allows USER_ACCESSIBLE w && allows WRITABLE w
  then Some (s <| mem := <[word_of virt w.2 := x]> (mem s) |>) else None.

Definition user_write (cr3 virt x : Z) s : option (write_outcome * Machine A) :=
  match try_write cr3 virt x s with
  | Some s => Some (Done, s)
  | None =>
    match mmu (mem s) cr3 (indices virt) with
    | None => Some (Segv, s)
    | Some _ =>
      '(resumed, s) ← copy_on_write_fault cr3 virt s;
      if negb resumed then Some (Segv, s)
      else match try_write cr3 virt x s with Some s => Some (Done, s) | None => Some (FaultsAgain, s) end
    end
  end.
End paging.
