(* ===== verification/CowTree.v ===== *)
(** * Address spaces as trees, and what cloning one does ([Paging]).

    [tabs] lists the tables of an address space and [pages] the frames it maps,
    once per mapping; [sim] relates two trees of the same shape. [level_ok] is what
    one level of [clone_page_tables_cow] does to a tree, whether it succeeds or
    runs out of memory half way, proved for the last level ([l1_level_ok]) and from
    each level for the one above ([level_ok_S]). *)

From Stdlib Require Import ZArith Lia Bool.
From stdpp Require Import base gmap sets gmultiset numbers list.
From S2P Require Import Prelude Paging.

Local Open Scope Z_scope.

(** ** Bits of entries *)

Lemma mask_bit b : 0 ≤ b → Z.testbit ADDR_MASK b = (12 <=? b) && (b <? 52).
Proof.
  intros Hb. change ADDR_MASK with (Z.shiftl (Z.ones 40) 12). rewrite Z.shiftl_spec by done.
  rewrite Z.testbit_ones by lia. destruct (Z.leb_spec 12 b), (Z.ltb_spec b 52), (Z.leb_spec 0 (b - 12)), (Z.ltb_spec (b - 12) 40); lia.
Qed.

Lemma pfn_range e : 0 ≤ pfn e < 2 ^ 40.
Proof.
  unfold pfn, addr. rewrite Z.shiftr_land. change (Z.shiftr ADDR_MASK 12) with (Z.ones 40).
  rewrite Z.land_ones by lia. apply Z.mod_pos_bound. lia.
Qed.

Lemma addr_pfn e : addr e = pfn e * 4096.
Proof.
  unfold pfn. change 4096 with (2 ^ 12). rewrite <-Z.shiftl_mul_pow2 by lia. apply Z.bits_inj'. intros b Hb.
  rewrite Z.shiftl_spec by done. destruct (Z.ltb_spec b 12).
  - rewrite (Z.testbit_neg_r _ (b - 12)) by lia. unfold addr. rewrite Z.land_spec, mask_bit by done.
    destruct (Z.leb_spec 12 b); [lia|]. by rewrite andb_false_r.
  - rewrite Z.shiftr_spec by lia. f_equal. lia.
Qed.

(** Flags have no bit of the address. *)
Definition flag_bits (fl : Z) : Prop := ∀ b, 12 ≤ b < 52 → Z.testbit fl b = false.

Lemma flags_bits e : flag_bits (flags e).
Proof.
  intros b Hb. unfold flags. rewrite Z.ldiff_spec, mask_bit by lia.
  replace ((12 <=? b) && (b <? 52)) with true by lia. apply andb_false_r.
Qed.

Lemma clear_flag_bits fl b : flag_bits fl → flag_bits (Z.clearbit fl b).
Proof. intros Hfl c Hc. rewrite Z.clearbit_eqb, Hfl by lia. done. Qed.

Lemma set_flag_bits fl : flag_bits fl → flag_bits (Z.setbit fl WRITABLE).
Proof.
  intros Hfl c Hc. unfold WRITABLE. rewrite Z.setbit_eqb, Hfl by lia. destruct (Z.eqb_spec 1 c); [lia|done].
Qed.

Lemma frame_bit f b : 0 ≤ f < 2 ^ 40 → 0 ≤ b → ¬ 12 ≤ b < 52 → Z.testbit (f * 4096) b = false.
Proof.
  intros Hf Hb Hn. change 4096 with (2 ^ 12). rewrite <-Z.shiftl_mul_pow2, Z.shiftl_spec by lia.
  destruct (decide (b < 12)); [apply Z.testbit_neg_r; lia|].
  rewrite <-(Z.mod_small f (2 ^ 40)) by done. apply Z.mod_pow2_bits_high. lia.
Qed.

Section set_addr.
Context (f fl : Z) (Hf : 0 ≤ f < 2 ^ 40) (Hfl : flag_bits fl).

Lemma has_set_addr b : 0 ≤ b < 12 → has b (set_addr (f * 4096) fl) = has b fl.
Proof. intros Hb. unfold has, set_addr. by rewrite Z.lor_spec, frame_bit by lia. Qed.

Lemma addr_set_addr : addr (set_addr (f * 4096) fl) = f * 4096.
Proof.
  apply Z.bits_inj'. intros b Hb. unfold addr, set_addr. rewrite Z.land_spec, Z.lor_spec, mask_bit by done.
  destruct (decide (12 ≤ b < 52)) as [Hr|Hr].
  - rewrite Hfl, orb_false_r by done. replace ((12 <=? b) && (b <? 52)) with true by lia. apply andb_true_r.
  - replace ((12 <=? b) && (b <? 52)) with false by lia. rewrite andb_false_r. symmetry. by apply frame_bit.
Qed.

Lemma pfn_set_addr : pfn (set_addr (f * 4096) fl) = f.
Proof. unfold pfn. rewrite addr_set_addr, Z.shiftr_div_pow2 by lia. change (2 ^ 12) with 4096. by rewrite Z.div_mul. Qed.

Lemma flags_set_addr : flags (set_addr (f * 4096) fl) = fl.
Proof.
  apply Z.bits_inj'. intros b Hb. unfold flags, set_addr. rewrite Z.ldiff_spec, Z.lor_spec, mask_bit by done.
  destruct (decide (12 ≤ b < 52)) as [Hr|Hr].
  - replace ((12 <=? b) && (b <? 52)) with true by lia. rewrite andb_false_r. symmetry. by apply Hfl.
  - rewrite frame_bit by done. replace ((12 <=? b) && (b <? 52)) with false by lia. apply andb_true_r.
Qed.
End set_addr.

Lemma has_flags b e : 0 ≤ b < 12 → has b (flags e) = has b e.
Proof.
  intros Hb. unfold has, flags. rewrite Z.ldiff_spec, mask_bit by lia.
  replace ((12 <=? b) && (b <? 52)) with false by lia. apply andb_true_r.
Qed.

(** An entry made read-only; what [clone_page] leaves in both tables. *)
Definition cow (e : Z) : Z := if has PRESENT e then set_addr (addr e) (Z.clearbit (flags e) WRITABLE) else e.

Lemma pfn_cow e : pfn (cow e) = pfn e.
Proof.
  unfold cow. destruct (has PRESENT e); [|done]. rewrite addr_pfn.
  apply pfn_set_addr; [apply pfn_range|]. apply clear_flag_bits, flags_bits.
Qed.

Lemma has_cow b e : 0 ≤ b < 12 → has b (cow e) = has b e && (negb (b =? WRITABLE) || negb (has PRESENT e)).
Proof.
  intros Hb. unfold cow. destruct (has PRESENT e) eqn:E; [|by rewrite orb_true_r, andb_true_r].
  rewrite addr_pfn, has_set_addr by (done || apply pfn_range). unfold has at 1. rewrite Z.clearbit_eqb.
  fold (has b (flags e)). rewrite has_flags, orb_false_r, (Z.eqb_sym b) by done. done.
Qed.

Lemma present_cow e : has PRESENT (cow e) = has PRESENT e.
Proof. rewrite has_cow by done. simpl. apply andb_true_r. Qed.

(** ** Memory *)

Definition idx (i : Z) : Prop := 0 ≤ i < 512.

Lemma entry_insert m f i e f' i' :
  idx i → idx i' → entry (<[f * 512 + i := e]> m) f' i' = if decide (f' = f ∧ i' = i) then e else entry m f' i'.
Proof.
  intros Hi Hi'. unfold entry, word, idx in *. case_decide as Hd.
  - destruct Hd as [-> ->]. by rewrite lookup_insert_eq.
  - rewrite lookup_insert_ne by lia. done.
Qed.

Lemma entry_fill f g m f' i' : idx i' → entry (fill f g m) f' i' = if decide (f' = f) then g i' else entry m f' i'.
Proof.
  intros Hi'. unfold fill.
  assert (∀ l, Forall idx l → ∀ m, entry (foldl (λ m i, <[f * 512 + i := g i]> m) m l) f' i' =
    if decide (f' = f ∧ i' ∈ l) then g i' else entry m f' i') as Hl.
  { induction l as [|i l IH]; intros Hl m0; cbn [foldl].
    { by rewrite decide_False by (intros [_ []%elem_of_nil]). }
    apply Forall_cons in Hl as [Hi Hl]. rewrite IH, entry_insert by done.
    destruct (decide (f' = f ∧ i' ∈ l)) as [[-> Hin]|Hn]; [by rewrite decide_True by set_solver|].
    destruct (decide (f' = f ∧ i' = i)) as [[-> ->]|Hn']; [by rewrite decide_True by set_solver|].
    rewrite decide_False; [done|]. set_solver. }
  rewrite Hl by (apply Forall_forall; intros i Hi%elem_of_seqZ; unfold idx; lia).
  assert (i' ∈ seqZ 0 512) by (apply elem_of_seqZ; unfold idx in *; lia).
  destruct (decide (f' = f)); [by rewrite decide_True|by rewrite decide_False by tauto].
Qed.

(** ** Address spaces as trees

    A table with [k] levels, of which the entries [l] count. *)

Definition all_entries : list Z := seqZ 0 512.

Definition under {B} (m : Mem) (f : Z) (l : list Z) (g : Z → list B) : list B :=
  l ≫= λ i, if has PRESENT (entry m f i) then g (pfn (entry m f i)) else [].

(** Its tables, the frames it maps, and its tables of the last level. *)
Fixpoint tabs (k : nat) (l : list Z) (m : Mem) (f : Z) : list Z :=
  match k with O => [] | S k' => f :: under m f l (tabs k' all_entries m) end.

Fixpoint pages (k : nat) (l : list Z) (m : Mem) (f : Z) : list Z :=
  match k with O => [f] | S k' => under m f l (pages k' all_entries m) end.

Fixpoint lasts (k : nat) (l : list Z) (m : Mem) (f : Z) : list Z :=
  match k with O => [] | 1%nat => [f] | S k' => under m f l (lasts k' all_entries m) end.

(** No entry is a huge page. *)
Fixpoint plain (k : nat) (l : list Z) (m : Mem) (f : Z) : Prop :=
  match k with
  | O => True
  | S k' => ∀ i, i ∈ l → has PRESENT (entry m f i) = true →
      has HUGE_PAGE (entry m f i) = false ∧ plain k' all_entries m (pfn (entry m f i))
  end.

(** Two trees of the same shape that map the same frames, with [Q] between
    corresponding entries, which says whether they are of the last level. *)
Fixpoint sim (Q : bool → Z → Z → Prop) (k : nat) (l : list Z) (m m' : Mem) (f f' : Z) : Prop :=
  match k with
  | O => f' = f
  | S k' => ∀ i, i ∈ l →
      has PRESENT (entry m' f' i) = has PRESENT (entry m f i) ∧
      (has PRESENT (entry m f i) = true →
         Q (match k' with O => true | _ => false end) (entry m f i) (entry m' f' i) ∧
         sim Q k' all_entries m m' (pfn (entry m f i)) (pfn (entry m' f' i)))
  end.

(** The parent during a fork: read-only or not yet. *)
Definition Qkeep (last : bool) (e e' : Z) : Prop := if last then e' = e ∨ e' = cow e else e' = e.
(** Read-only copies. *)
Definition Qcow (last : bool) (e e' : Z) : Prop := if last then e' = cow e else flags e' = flags e.

Lemma elem_of_all i : i ∈ all_entries ↔ idx i.
Proof. unfold all_entries, idx. rewrite elem_of_seqZ. lia. Qed.

Lemma all_idx : Forall idx all_entries.
Proof. apply Forall_forall. intros i. apply elem_of_all. Qed.

Lemma elem_of_under {B} m f l (g : Z → list B) x :
  x ∈ under m f l g ↔ ∃ i, i ∈ l ∧ has PRESENT (entry m f i) = true ∧ x ∈ g (pfn (entry m f i)).
Proof.
  unfold under. rewrite list_elem_of_bind. split.
  - intros (i & Hx & Hi). destruct (has PRESENT (entry m f i)) eqn:E; [eauto|by apply elem_of_nil in Hx].
  - intros (i & Hi & E & Hx). exists i. by rewrite E.
Qed.

Lemma under_cons {B} m f i l (g : Z → list B) :
  under m f (i :: l) g = (if has PRESENT (entry m f i) then g (pfn (entry m f i)) else []) ++ under m f l g.
Proof. done. Qed.

Lemma sim_impl (Q Q' : bool → Z → Z → Prop) k l m m' f f' :
  (∀ b e e', Q b e e' → Q' b e e') → sim Q k l m m' f f' → sim Q' k l m m' f f'.
Proof.
  intros HQ. revert l f f'. induction k as [|k IH]; intros l f f' Hs; [done|]. simpl in *. intros i Hi.
  destruct (Hs i Hi) as [Hp Hs']. split; [done|]. intros He. destruct (Hs' He) as [Hq Hs'']. split; [by apply HQ|by apply IH].
Qed.

Lemma sim_pages Q k l m m' f f' : sim Q k l m m' f f' → pages k l m' f' = pages k l m f.
Proof.
  revert l f f'. induction k as [|k IH]; intros l f f' Hs; [simpl in *; congruence|].
  cbn [pages]. unfold under. apply Forall_bind_ext. apply Forall_forall. intros i Hi.
  destruct (Hs i Hi) as [-> Hs']. destruct (has PRESENT (entry m f i)); [|done]. by apply IH, Hs'.
Qed.

(** Entries agree on the frames [X], respectively outside of them. *)
Definition agree (X : list Z) (m m' : Mem) : Prop := ∀ x i, x ∈ X → idx i → entry m' x i = entry m x i.
Definition chg (X : list Z) (m m' : Mem) : Prop := ∀ x i, (x ∉ X) → idx i → entry m' x i = entry m x i.

Lemma chg_agree X Y m m' : chg X m m' → (∀ x, x ∈ Y → x ∉ X) → agree Y m m'.
Proof. intros Hc HY x i Hx Hi. apply Hc; auto. Qed.

Lemma chg_trans X Y m m1 m2 : chg X m m1 → chg Y m1 m2 → chg (X ++ Y) m m2.
Proof. intros H1 H2 x i Hx Hi. rewrite H2, H1; set_solver. Qed.

Lemma chg_weaken X Y m m' : chg X m m' → (∀ x, x ∈ X → x ∈ Y) → chg Y m m'.
Proof. intros Hc HXY x i Hx Hi. apply Hc; auto. Qed.

Lemma agree_sim k l m m' f : Forall idx l → agree (tabs k l m f) m m' → sim (λ _, eq) k l m m' f f.
Proof.
  revert l f. induction k as [|k IH]; intros l f Hl Ha; [done|]. intros i Hi.
  assert (entry m' f i = entry m f i) as ->.
  { apply Ha; [by left|]. rewrite Forall_forall in Hl. by apply Hl. }
  split; [done|]. intros He. split; [done|]. apply IH; [apply all_idx|]. intros x j Hx. apply Ha. right.
  apply elem_of_under. eauto.
Qed.

Lemma sim_eq_tabs k l m m' f : sim (λ _, eq) k l m m' f f → tabs k l m' f = tabs k l m f ∧ lasts k l m' f = lasts k l m f.
Proof.
  revert l f. induction k as [|k IH]; intros l f Hs; [done|].
  assert (∀ g g' : Z → list Z, (∀ i, i ∈ l → has PRESENT (entry m f i) = true →
     g' (pfn (entry m f i)) = g (pfn (entry m f i))) → under m' f l g' = under m f l g) as Hu.
  { intros g g' Hg. unfold under. apply Forall_bind_ext, Forall_forall. intros i Hi. destruct (Hs i Hi) as [-> Hs'].
    destruct (has PRESENT (entry m f i)) eqn:E; [|done]. destruct (Hs' eq_refl) as [<- _]. by apply Hg. }
  assert (∀ i, i ∈ l → has PRESENT (entry m f i) = true →
    tabs k all_entries m' (pfn (entry m f i)) = tabs k all_entries m (pfn (entry m f i)) ∧
    lasts k all_entries m' (pfn (entry m f i)) = lasts k all_entries m (pfn (entry m f i))) as Hsub.
  { intros i Hi He. destruct (Hs i Hi) as [_ Hs']. destruct (Hs' He) as [Heq Hs'']. rewrite <-Heq in Hs''. by apply IH. }
  split; [cbn [tabs]; f_equal; apply Hu; intros; by apply Hsub|].
  destruct k; [done|]. cbn [lasts]. apply Hu. intros. by apply Hsub.
Qed.

Lemma agree_tabs k l m m' f : Forall idx l → agree (tabs k l m f) m m' → tabs k l m' f = tabs k l m f.
Proof. intros. by apply sim_eq_tabs, agree_sim. Qed.

Lemma agree_lasts k l m m' f : Forall idx l → agree (tabs k l m f) m m' → lasts k l m' f = lasts k l m f.
Proof. intros. by apply sim_eq_tabs, agree_sim. Qed.

Lemma agree_pages k l m m' f : Forall idx l → agree (tabs k l m f) m m' → pages k l m' f = pages k l m f.
Proof. intros. by eapply sim_pages, agree_sim. Qed.

(** ** What cloning a table does *)

Abbreviation refs := (list_to_set_disj (C := gmultiset Z)).

Lemma refs_app (l1 l2 : list Z) x :
  multiplicity x (refs (l1 ++ l2)) = (multiplicity x (refs l1) + multiplicity x (refs l2))%nat.
Proof. by rewrite list_to_set_disj_app, multiplicity_disj_union. Qed.

Lemma refs_in (l1 : list Z) x : x ∉ l1 → multiplicity x (refs l1) = 0%nat.
Proof. intros Hx. apply not_elem_of_multiplicity. by rewrite elem_of_list_to_set_disj. Qed.

Lemma refs_NoDup (l1 : list Z) x : NoDup l1 → (multiplicity x (refs l1) ≤ 1)%nat.
Proof.
  induction 1 as [|y l1 Hy _ IH]; [rewrite refs_in; [lia|apply not_elem_of_nil]|]. cbn [list_to_set_disj].
  rewrite multiplicity_disj_union, multiplicity_singleton. case_decide; [subst; by rewrite refs_in|lia].
Qed.

Lemma refs_shuffle (a b d e : gmultiset Z) : (a ⊎ b) ⊎ (d ⊎ e) = (d ⊎ a) ⊎ (e ⊎ b).
Proof. multiset_solver. Qed.

Lemma refs_rotate (a b d : gmultiset Z) : (a ⊎ b) ⊎ d = (d ⊎ a) ⊎ b.
Proof. multiset_solver. Qed.

Record clone_pre (k : nat) (l : list Z) (m : Mem) (R : gmultiset Z) (p c : Z) : Prop := {
  cp_idx : Forall idx l;
  cp_nodup : NoDup l;
  cp_tabs : NoDup (tabs k l m p);
  cp_plain : plain k l m p;
  cp_tabs_held x : x ∈ tabs k l m p → x ∈ R;
  cp_pages_held x : x ∈ pages k l m p → x ∈ R;
  cp_child : c ∈ R;
  cp_child_tab : c ∉ tabs k l m p;
  cp_zero i : i ∈ l → entry m c i = 0;
  cp_bound x : Z.of_nat (multiplicity x R + multiplicity x (refs (pages k l m p))) ≤ U32_MAX;
}.

(** [N] are the child's new tables below [c], [leak] the new references. *)
Record clone_post (k : nat) (l : list Z) (m : Mem) (R : gmultiset Z) (p c : Z) (ok : bool) (m' : Mem)
    (N : list Z) (leak : gmultiset Z) : Prop := {
  po_fresh x : x ∈ N → x ∉ R;
  po_new x : x ∈ N → x ∈ leak;
  po_chg : chg (c :: N ++ lasts k l m p) m m';
  po_child i : idx i → (i ∉ l) → entry m' c i = entry m c i;
  po_parent i : idx i → (i ∉ l) → entry m' p i = entry m p i;
  po_keep : sim Qkeep k l m m' p p;
  po_parent_ro : ok = true → sim Qcow k l m m' p p;
  po_child_ro : ok = true → sim Qcow k l m m' p c;
  po_tabs : ok = true → tabs k l m' c = c :: N;
  po_refs : ok = true → leak = refs N ⊎ refs (pages k l m p);
  po_nodup : NoDup N;
  po_size x : (multiplicity x leak ≤ (match k with 1 => length l | _ => 0 end) + 513 * length N)%nat;
  po_leak x : x ∈ leak → x ∈ N ∨ x ∈ pages k l m p;
}.

Section clone.
Context {A : Type} `{Frames A, EntryFrame} `{!EntryFrameLaw} (held : A → gmultiset Z → Prop) `{!FramesLaws A held}.
Context {Ex : Type} (no_memory : Ex) (share : Z → Z).
Implicit Types s : Machine A.

(** There is no frame left. *)
Definition full (a : A) : Prop := (allocate a).2 = None.

Definition oom (r : result unit Ex) s : Prop :=
  match r with Ok _ => True | Err e => e = no_memory ∧ full (allocator s) end.

Definition level_ok (k : nat) (F : Z → Z → list Z → Machine A → result unit Ex * Machine A) : Prop :=
  ∀ l p c s R, held (allocator s) R → clone_pre k l (mem s) R p c →
  let '(r, s') := F p c l s in
  oom r s' ∧ ∃ N leak, held (allocator s') (leak ⊎ R) ∧ clone_post k l (mem s) R p c (is_ok r) (mem s') N leak.

Lemma under_ext {B} m m' f l (g : Z → list B) :
  (∀ i, i ∈ l → entry m' f i = entry m f i) → under m' f l g = under m f l g.
Proof. intros He. unfold under. apply Forall_bind_ext, Forall_forall. intros i Hi. by rewrite He. Qed.

Lemma tabs_1 l m f : tabs 1 l m f = [f].
Proof.
  cbn [tabs]. f_equal. apply elem_of_nil_inv. intros x (i & _ & _ & Hx)%elem_of_under. by apply elem_of_nil in Hx.
Qed.

Lemma clone_page_not_present p c s i : has PRESENT (entry (mem s) p i) = false → clone_page p c s i = s.
Proof. intros He. unfold clone_page. by rewrite He. Qed.

(** One page: both entries become read-only, and the page has one reference more. *)
Lemma clone_page_present p c s i R :
  p ≠ c → idx i → held (allocator s) R → has PRESENT (entry (mem s) p i) = true →
  has HUGE_PAGE (entry (mem s) p i) = false → pfn (entry (mem s) p i) ∈ R →
  Z.of_nat (multiplicity (pfn (entry (mem s) p i)) R) < U32_MAX →
  let s' := clone_page p c s i in
  held (allocator s') ({[+ pfn (entry (mem s) p i) +]} ⊎ R) ∧
  ∀ x j, idx j → entry (mem s') x j =
    if decide ((x = c ∨ x = p) ∧ j = i) then cow (entry (mem s) p i) else entry (mem s) x j.
Proof.
  intros Hpc Hi Hh He Hhuge Hin Hb. unfold clone_page. rewrite He. cbn [negb]. cbv iota.
  set (e := entry (mem s) p i) in *. set (e' := set_addr (addr e) (Z.clearbit (flags e) WRITABLE)).
  assert (e' = cow e) as -> by (unfold cow; by rewrite He).
  set (s1 := set_entry p i (cow e) (set_entry c i (cow e) s)).
  assert (∀ x j, idx j → entry (mem s1) x j = if decide ((x = c ∨ x = p) ∧ j = i) then cow e else entry (mem s) x j) as Hs1.
  { intros x j Hj. simpl. rewrite !entry_insert by done. repeat case_decide; naive_solver. }
  rewrite (Hs1 p i) by done. rewrite decide_True by auto. unfold inc_entry.
  rewrite entry_frame_law by (rewrite ?present_cow, ?has_cow, ?Hhuge by done; done). rewrite pfn_cow.
  split; [|done]. simpl. by apply inc_law.
Qed.

Lemma clone_post_nil k m R p c : clone_post (S k) [] m R p c true m [] ∅.
Proof.
  split; try done; try (intros x Hx; by apply elem_of_nil in Hx); try (intros _ i Hi; by apply elem_of_nil in Hi).
  - constructor.
  - intros x. rewrite multiplicity_empty. lia.
  - by intros x Hx%gmultiset_not_elem_of_empty.
Qed.

Lemma sim_eq_plain k l m m' f : sim (λ _, eq) k l m m' f f → plain k l m f → plain k l m' f.
Proof.
  revert l f. induction k as [|k IH]; intros l f Hs Hp; [done|]. intros i Hi He. destruct (Hs i Hi) as [Hpe Hs'].
  rewrite Hpe in He. destruct (Hs' He) as [Heq Hs'']. rewrite <-Heq in *. destruct (Hp i Hi He) as [? ?]. split; [done|]. by apply IH.
Qed.

(** What is left to do after the first entry. *)
Lemma clone_pre_tail k i l m R p c m1 leak :
  clone_pre (S k) (i :: l) m R p c → sim (λ _, eq) (S k) l m m1 p p →
  (∀ j, j ∈ l → entry m1 c j = entry m c j) →
  (∀ x, Z.of_nat (multiplicity x (leak ⊎ R) + multiplicity x (refs (pages (S k) l m p))) ≤ U32_MAX) →
  clone_pre (S k) l m1 (leak ⊎ R) p c.
Proof.
  intros Hpre Hs Hc Hb. destruct (sim_eq_tabs _ _ _ _ _ Hs) as [Ht _]. pose proof (sim_pages _ _ _ _ _ _ _ Hs) as Hpg.
  assert (∀ x, x ∈ tabs (S k) l m p → x ∈ tabs (S k) (i :: l) m p) as Hsub.
  { cbn [tabs]. intros x. rewrite under_cons. set_solver. }
  split; rewrite ?Ht, ?Hpg.
  - by destruct (proj1 (Forall_cons _ _ _) (cp_idx _ _ _ _ _ _ Hpre)).
  - by destruct (proj1 (NoDup_cons _ _) (cp_nodup _ _ _ _ _ _ Hpre)).
  - pose proof (cp_tabs _ _ _ _ _ _ Hpre) as Hnd. cbn [tabs] in *. rewrite under_cons in Hnd.
    apply NoDup_cons in Hnd as [Hn1 Hn2]. apply NoDup_app in Hn2 as (_ & _ & Hn3).
    apply NoDup_cons. split; [set_solver|done].
  - eapply sim_eq_plain; [done|]. intros j Hj. apply (cp_plain _ _ _ _ _ _ Hpre). by right.
  - intros x Hx%Hsub. apply gmultiset_elem_of_disj_union. right. by apply (cp_tabs_held _ _ _ _ _ _ Hpre).
  - intros x Hx. apply gmultiset_elem_of_disj_union. right. apply (cp_pages_held _ _ _ _ _ _ Hpre).
    cbn [pages] in *. rewrite under_cons. set_solver.
  - apply gmultiset_elem_of_disj_union. right. apply (cp_child _ _ _ _ _ _ Hpre).
  - intros Hx%Hsub. by apply (cp_child_tab _ _ _ _ _ _ Hpre).
  - intros j Hj. rewrite Hc by done. apply (cp_zero _ _ _ _ _ _ Hpre). by right.
  - done.
Qed.

Lemma clone_pre_head k i l m R p c :
  clone_pre (S k) (i :: l) m R p c →
  idx i ∧ (i ∉ l) ∧ p ≠ c ∧ p ∈ R ∧ entry m c i = 0 ∧ Forall idx l ∧
  (has PRESENT (entry m p i) = true → has HUGE_PAGE (entry m p i) = false ∧ plain k all_entries m (pfn (entry m p i))).
Proof.
  intros Hpre. destruct (proj1 (Forall_cons _ _ _) (cp_idx _ _ _ _ _ _ Hpre)) as [Hi Hl].
  destruct (proj1 (NoDup_cons _ _) (cp_nodup _ _ _ _ _ _ Hpre)) as [Hn _].
  assert (p ∈ tabs (S k) (i :: l) m p) as Hp by (by left). split_and!; try done.
  - intros ->. by apply (cp_child_tab _ _ _ _ _ _ Hpre).
  - by apply (cp_tabs_held _ _ _ _ _ _ Hpre).
  - apply (cp_zero _ _ _ _ _ _ Hpre). by left.
  - apply (cp_plain _ _ _ _ _ _ Hpre). by left.
Qed.

Lemma lasts_tabs k l m f x : x ∈ lasts k l m f → x ∈ tabs k l m f.
Proof.
  revert l f. induction k as [|k IH]; intros l f Hx; [done|]. destruct k as [|k]; [apply list_elem_of_singleton in Hx as ->; by left|].
  cbn [lasts] in Hx. cbn [tabs]. right. apply elem_of_under in Hx as (i & Hi & He & Hx). apply elem_of_under.
  exists i. split_and!; [done|done|]. by apply IH.
Qed.

Lemma under_app {B} m f i l (g : Z → list B) : under m f (i :: l) g = under m f [i] g ++ under m f l g.
Proof. rewrite !under_cons. by rewrite app_nil_r. Qed.

Lemma sim_trans_eq Q k l m m1 m2 f f' :
  sim (λ _, eq) k l m m1 f f → sim Q k l m1 m2 f f' → sim Q k l m m2 f f'.
Proof.
  revert l f f'. induction k as [|k IH]; intros l f f' H1' H2'; [done|]. intros i Hi. destruct (H1' i Hi) as [Hp1 Hs1].
  destruct (H2' i Hi) as [Hp2 Hs2]. split; [congruence|]. intros He. destruct (Hs1 He) as [Heq Hsub].
  rewrite <-Heq in *. destruct (Hs2 He) as [Hq Hs2']. split; [done|]. by eapply IH.
Qed.

Lemma sim_ext_r Q k l m m1 m2 f f' :
  Forall idx l → sim Q k l m m1 f f' → agree (tabs k l m1 f') m1 m2 → sim Q k l m m2 f f'.
Proof.
  revert l f f'. induction k as [|k IH]; intros l f f' Hl Hs Ha; [done|]. intros i Hi. destruct (Hs i Hi) as [Hp Hs'].
  rewrite (Ha f' i) by (first [by left|rewrite Forall_forall in Hl; by apply Hl]). split; [done|]. intros He.
  destruct (Hs' He) as [Hq Hs'']. split; [done|]. apply IH; [apply all_idx|done|]. intros x j Hx. apply Ha. right.
  apply elem_of_under. exists i. by rewrite Hp.
Qed.

(** The same for one entry, when other entries of its table may change. *)
Lemma sim_slot_ext Q k i m m1 m2 f f' :
  sim Q (S k) [i] m m1 f f' → entry m2 f' i = entry m1 f' i → agree (under m1 f' [i] (tabs k all_entries m1)) m1 m2 →
  sim Q (S k) [i] m m2 f f'.
Proof.
  intros Hs He Ha j Hj. pose proof Hj as ->%list_elem_of_singleton. destruct (Hs i Hj) as [Hp Hs']. rewrite He. split; [done|].
  intros Hpr. destruct (Hs' Hpr) as [Hq Hs'']. split; [done|]. eapply sim_ext_r; [apply all_idx|done|]. intros x n Hx. apply Ha.
  apply elem_of_under. exists i. by rewrite Hp.
Qed.

Lemma sim_cons Q k i l m m' f f' : sim Q (S k) [i] m m' f f' → sim Q (S k) l m m' f f' → sim Q (S k) (i :: l) m m' f f'.
Proof. intros H1' H2' j [->|Hj]%elem_of_cons; [apply H1'; by left|by apply H2']. Qed.

Lemma Qkeep_tabs k l m m' f : sim Qkeep k l m m' f f → tabs k l m' f = tabs k l m f.
Proof.
  revert l f. induction k as [|k IH]; intros l f Hs; [done|]. cbn [tabs]. f_equal. unfold under.
  apply Forall_bind_ext, Forall_forall. intros i Hi. destruct (Hs i Hi) as [-> Hs'].
  destruct (has PRESENT (entry m f i)) eqn:E; [|done]. destruct (Hs' eq_refl) as [Hq Hs'']. destruct k as [|k]; [done|].
  simpl in Hq. rewrite Hq in *. by apply IH.
Qed.

Lemma lasts_cons k i l m p x : x ∈ lasts (S k) [i] m p ∨ x ∈ lasts (S k) l m p → x ∈ lasts (S k) (i :: l) m p.
Proof. destruct k as [|k']; [by intros [?|?]|]. cbn [lasts]. by rewrite (under_app m p i l), elem_of_app. Qed.

(** Cloning the first entry and then the others. *)
Section cons.
Context (k : nat) (i : Z) (l : list Z) (m : Mem) (R : gmultiset Z) (p c : Z) (m1 : Mem) (N1 : list Z) (leak1 : gmultiset Z).
Context (Hpre : clone_pre (S k) (i :: l) m R p c) (ok1 : bool)
  (Hpost : clone_post (S k) [i] m R p c ok1 m1 N1 leak1).

Lemma tabs_split x : x ∈ under m p [i] (tabs k all_entries m) → (x ∉ under m p l (tabs k all_entries m)) ∧ x ≠ p.
Proof.
  intros Hx. pose proof (cp_tabs _ _ _ _ _ _ Hpre) as Hnd. cbn [tabs] in Hnd. rewrite under_app in Hnd.
  apply NoDup_cons in Hnd as [Hp Hnd]. apply NoDup_app in Hnd as (_ & Hd & _). split; [by apply Hd|].
  intros ->. apply Hp, elem_of_app. by left.
Qed.

Lemma head_lasts x : x ∈ lasts (S k) [i] m p → (k = 0%nat ∧ x = p) ∨ x ∈ under m p [i] (tabs k all_entries m).
Proof.
  destruct k as [|k']; [intros ->%list_elem_of_singleton; by left|]. intros (j & Hj & He & Hx)%elem_of_under. right.
  apply elem_of_under. exists j. split_and!; [done|done|]. by apply lasts_tabs.
Qed.

Lemma head_sim : sim (λ _, eq) (S k) l m m1 p p.
Proof.
  destruct (clone_pre_head _ _ _ _ _ _ _ Hpre) as (Hi & Hil & Hpc & HpR & Hz & Hl & Hplain). rewrite Forall_forall in Hl.
  intros j Hj. rewrite (po_parent _ _ _ _ _ _ _ _ _ _ Hpost) by (auto || set_solver). split; [done|]. intros He. split; [done|].
  apply agree_sim; [apply all_idx|]. intros x n Hx Hn. apply (po_chg _ _ _ _ _ _ _ _ _ _ Hpost); [|done].
  assert (x ∈ under m p l (tabs k all_entries m)) as Hxl by (apply elem_of_under; eauto).
  assert (x ∈ tabs (S k) (i :: l) m p) as Hxt by (cbn [tabs]; rewrite under_app; set_solver).
  pose proof (cp_tabs_held _ _ _ _ _ _ Hpre x Hxt) as HxR. intros [->|[HN|Hla]%elem_of_app]%elem_of_cons.
  - by apply (cp_child_tab _ _ _ _ _ _ Hpre).
  - by apply (po_fresh _ _ _ _ _ _ _ _ _ _ Hpost) in HN.
  - apply head_lasts in Hla as [[-> _]|Hla]; [by apply elem_of_nil in Hx|]. by apply tabs_split in Hla as [? _].
Qed.

Context (Hok1 : ok1 = true).

Lemma clone_pre_next : clone_pre (S k) l m1 (leak1 ⊎ R) p c.
Proof.
  destruct (clone_pre_head _ _ _ _ _ _ _ Hpre) as (Hi & Hil & Hpc & HpR & Hz & Hl & Hplain). rewrite Forall_forall in Hl.
  apply (clone_pre_tail k i l m R); [done|apply head_sim| |].
  - intros j Hj. apply (po_child _ _ _ _ _ _ _ _ _ _ Hpost); [auto|set_solver].
  - intros x. rewrite (po_refs _ _ _ _ _ _ _ _ _ _ Hpost) by done. rewrite !multiplicity_disj_union.
    pose proof (refs_NoDup N1 x (po_nodup _ _ _ _ _ _ _ _ _ _ Hpost)).
    pose proof (cp_bound _ _ _ _ _ _ Hpre x) as Hb. cbn [pages] in *. rewrite under_app, refs_app in Hb.
    destruct (decide (x ∈ N1)) as [Hx|Hx]; [|rewrite (refs_in N1 x) by done; lia].
    apply (po_fresh _ _ _ _ _ _ _ _ _ _ Hpost) in Hx.
    assert (x ∉ under m p (i :: l) (pages k all_entries m)) as Hn by (intros Hin; by apply (cp_pages_held _ _ _ _ _ _ Hpre) in Hin).
    rewrite under_app in Hn. apply not_elem_of_app in Hn as [Hn1 Hn2]. apply not_elem_of_multiplicity in Hx.
    rewrite (refs_in _ x Hn1), (refs_in _ x Hn2), Hx. unfold U32_MAX. lia.
Qed.

Lemma in_head x : x ∈ under m p [i] (tabs k all_entries m) → x ∈ tabs (S k) (i :: l) m p.
Proof. intros Hx. cbn [tabs]. rewrite under_app. apply elem_of_cons. right. apply elem_of_app. by left. Qed.

Lemma in_tail x : x ∈ under m p l (tabs k all_entries m) → x ∈ tabs (S k) (i :: l) m p.
Proof. intros Hx. cbn [tabs]. rewrite under_app. apply elem_of_cons. right. apply elem_of_app. by right. Qed.

(** What the first entry leaves in the parent and in the child stays as it is. *)
Lemma tail_agree ok m2 N2 leak2 x n :
  clone_post (S k) l m1 (leak1 ⊎ R) p c ok m2 N2 leak2 →
  x ∈ under m p [i] (tabs k all_entries m) ∨ x ∈ N1 → idx n → entry m2 x n = entry m1 x n.
Proof.
  intros Hp2 Hx Hn. apply (po_chg _ _ _ _ _ _ _ _ _ _ Hp2); [|done].
  destruct (sim_eq_tabs _ _ _ _ _ head_sim) as [_ ->].
  assert (x ∈ leak1 ⊎ R) as HxR.
  { apply gmultiset_elem_of_disj_union. destruct Hx as [Hx|Hx].
    - right. by apply (cp_tabs_held _ _ _ _ _ _ Hpre), in_head.
    - left. by apply (po_new _ _ _ _ _ _ _ _ _ _ Hpost). }
  intros [->|[HN|Hla]%elem_of_app]%elem_of_cons.
  - destruct Hx as [Hx|Hx]; [by apply (cp_child_tab _ _ _ _ _ _ Hpre), in_head|].
    by apply (po_fresh _ _ _ _ _ _ _ _ _ _ Hpost) in Hx; apply Hx, (cp_child _ _ _ _ _ _ Hpre).
  - by apply (po_fresh _ _ _ _ _ _ _ _ _ _ Hp2) in HN.
  - apply lasts_tabs, elem_of_cons in Hla. destruct Hx as [Hx|Hx].
    + destruct (tabs_split x Hx) as [Hx1 Hx2]. by destruct Hla.
    + apply (po_fresh _ _ _ _ _ _ _ _ _ _ Hpost) in Hx. apply Hx, (cp_tabs_held _ _ _ _ _ _ Hpre).
      destruct Hla as [->|Hla]; [by left|by apply in_tail].
Qed.

Lemma head_idx : idx i ∧ (i ∉ l).
Proof. destruct (clone_pre_head _ _ _ _ _ _ _ Hpre) as (? & ? & _). done. Qed.

(** The subtree of the first entry, in the parent and in the child. *)
Lemma head_parent_kept Q ok m2 N2 leak2 :
  clone_post (S k) l m1 (leak1 ⊎ R) p c ok m2 N2 leak2 →
  sim Q (S k) [i] m m1 p p → sim Q (S k) [i] m m2 p p.
Proof.
  intros Hp2 Hs. destruct head_idx as [Hi Hil]. eapply sim_slot_ext; [done| |].
  - by apply (po_parent _ _ _ _ _ _ _ _ _ _ Hp2).
  - intros x n Hx Hn. eapply tail_agree; [done| |done]. left.
    pose proof (Qkeep_tabs _ _ _ _ _ (po_keep _ _ _ _ _ _ _ _ _ _ Hpost)) as Ht. apply (f_equal tail) in Ht.
    cbn [tabs tail] in Ht. by rewrite <-Ht.
Qed.

Lemma head_child_under : under m1 c [i] (tabs k all_entries m1) = N1.
Proof. pose proof (po_tabs _ _ _ _ _ _ _ _ _ _ Hpost Hok1) as Ht. apply (f_equal tail) in Ht. done. Qed.

Lemma head_child_kept Q ok m2 N2 leak2 :
  clone_post (S k) l m1 (leak1 ⊎ R) p c ok m2 N2 leak2 →
  sim Q (S k) [i] m m1 p c → sim Q (S k) [i] m m2 p c ∧ under m2 c [i] (tabs k all_entries m2) = N1.
Proof.
  intros Hp2 Hs. destruct head_idx as [Hi Hil].
  assert (entry m2 c i = entry m1 c i) as He by (by apply (po_child _ _ _ _ _ _ _ _ _ _ Hp2)).
  assert (agree N1 m1 m2) as Ha by (intros x n Hx Hn; eapply tail_agree; [done|by right|done]).
  split; [eapply sim_slot_ext; [done|done|by rewrite head_child_under]|].
  transitivity (under m1 c [i] (tabs k all_entries m1)); [|apply head_child_under].
  rewrite !under_cons, He. destruct (has PRESENT (entry m1 c i)) eqn:Ep; [|done]. f_equal.
  apply agree_tabs; [apply all_idx|]. intros x n Hx. apply Ha. rewrite <-head_child_under. apply elem_of_under.
  exists i. split_and!; [by left|done|done].
Qed.

Lemma clone_post_cons ok m2 N2 leak2 :
  clone_post (S k) l m1 (leak1 ⊎ R) p c ok m2 N2 leak2 →
  clone_post (S k) (i :: l) m R p c ok m2 (N1 ++ N2) (leak2 ⊎ leak1).
Proof.
  intros Hp2. destruct head_idx as [Hi Hil]. destruct (sim_eq_tabs _ _ _ _ _ head_sim) as [_ Hls].
  pose proof (sim_pages _ _ _ _ _ _ _ head_sim) as Hpg. split.
  - intros x [Hx|Hx]%elem_of_app; [by apply (po_fresh _ _ _ _ _ _ _ _ _ _ Hpost)|].
    apply (po_fresh _ _ _ _ _ _ _ _ _ _ Hp2) in Hx. intros HR. apply Hx, gmultiset_elem_of_disj_union. by right.
  - intros x [Hx|Hx]%elem_of_app; apply gmultiset_elem_of_disj_union.
    + right. by apply (po_new _ _ _ _ _ _ _ _ _ _ Hpost).
    + left. by apply (po_new _ _ _ _ _ _ _ _ _ _ Hp2).
  - eapply chg_weaken; [eapply chg_trans; [apply (po_chg _ _ _ _ _ _ _ _ _ _ Hpost)|apply (po_chg _ _ _ _ _ _ _ _ _ _ Hp2)]|].
    rewrite Hls. intros x. pose proof (lasts_cons k i l m p x) as Hla. rewrite !elem_of_app, !elem_of_cons, !elem_of_app. tauto.
  - intros j Hj Hn%not_elem_of_cons. destruct Hn as [Hn1 Hn2]. rewrite (po_child _ _ _ _ _ _ _ _ _ _ Hp2) by done.
    apply (po_child _ _ _ _ _ _ _ _ _ _ Hpost); [done|]. by rewrite list_elem_of_singleton.
  - intros j Hj Hn%not_elem_of_cons. destruct Hn as [Hn1 Hn2]. rewrite (po_parent _ _ _ _ _ _ _ _ _ _ Hp2) by done.
    apply (po_parent _ _ _ _ _ _ _ _ _ _ Hpost); [done|]. by rewrite list_elem_of_singleton.
  - apply sim_cons; [eapply head_parent_kept; [done|apply Hpost]|].
    eapply sim_trans_eq; [apply head_sim|apply Hp2].
  - intros Hok. apply sim_cons; [eapply head_parent_kept; [done|by apply Hpost]|].
    eapply sim_trans_eq; [apply head_sim|by apply Hp2].
  - intros Hok. apply sim_cons; [eapply head_child_kept; [done|by apply Hpost]|].
    eapply sim_trans_eq; [apply head_sim|by apply Hp2].
  - intros Hok. destruct (head_child_kept Qcow ok m2 N2 leak2) as [_ Hu]; [done|by apply Hpost|].
    pose proof (po_tabs _ _ _ _ _ _ _ _ _ _ Hp2 Hok) as Ht2. apply (f_equal tail) in Ht2. cbn [tabs tail] in *.
    by rewrite under_app, Hu, Ht2.
  - intros Hok. rewrite (po_refs _ _ _ _ _ _ _ _ _ _ Hpost Hok1), (po_refs _ _ _ _ _ _ _ _ _ _ Hp2 Hok). rewrite Hpg.
    cbn [pages]. rewrite (under_app m p i l), !list_to_set_disj_app. apply refs_shuffle.
  - apply NoDup_app. split_and!; [apply Hpost| |apply Hp2]. intros x Hx Hx'. apply (po_fresh _ _ _ _ _ _ _ _ _ _ Hp2) in Hx'.
    apply Hx', gmultiset_elem_of_disj_union. left. by apply (po_new _ _ _ _ _ _ _ _ _ _ Hpost).
  - intros x. pose proof (po_size _ _ _ _ _ _ _ _ _ _ Hpost x) as H1'. pose proof (po_size _ _ _ _ _ _ _ _ _ _ Hp2 x) as H2'.
    rewrite multiplicity_disj_union, length_app. destruct k; cbn [length] in *; lia.
  - intros x [Hx|Hx]%gmultiset_elem_of_disj_union.
    + apply (po_leak _ _ _ _ _ _ _ _ _ _ Hp2) in Hx. rewrite Hpg in Hx. cbn [pages] in *.
      rewrite (under_app m p i l), !elem_of_app. tauto.
    + apply (po_leak _ _ _ _ _ _ _ _ _ _ Hpost) in Hx. cbn [pages] in *. rewrite (under_app m p i l), !elem_of_app. tauto.
Qed.
End cons.

Lemma sim_refl k l m f : sim Qkeep k l m m f f.
Proof.
  revert l f. induction k as [|k IH]; intros l f; [done|]. intros i Hi. split; [done|]. intros _.
  split; [destruct k; simpl; auto|apply IH].
Qed.

(** The entries after one that failed are as before. *)
Lemma clone_post_fail k i l m R p c m1 N1 leak1 :
  clone_pre (S k) (i :: l) m R p c → clone_post (S k) [i] m R p c false m1 N1 leak1 →
  clone_post (S k) (i :: l) m R p c false m1 N1 leak1.
Proof.
  intros Hpre Hpost. pose proof (head_sim _ _ _ _ _ _ _ _ _ _ Hpre _ Hpost) as Hs.
  split; try done; try apply Hpost.
  - eapply chg_weaken; [apply Hpost|]. intros x. pose proof (lasts_cons k i l m p x) as Hla.
    rewrite !elem_of_cons, !elem_of_app. tauto.
  - intros j Hj [Hn1 Hn2]%not_elem_of_cons. apply (po_child _ _ _ _ _ _ _ _ _ _ Hpost); [done|]. by rewrite list_elem_of_singleton.
  - intros j Hj [Hn1 Hn2]%not_elem_of_cons. apply (po_parent _ _ _ _ _ _ _ _ _ _ Hpost); [done|]. by rewrite list_elem_of_singleton.
  - apply sim_cons; [apply Hpost|]. eapply sim_trans_eq; [done|apply sim_refl].
  - intros x. pose proof (po_size _ _ _ _ _ _ _ _ _ _ Hpost x) as Hx. destruct k; cbn [length] in *; lia.
  - intros x Hx%(po_leak _ _ _ _ _ _ _ _ _ _ Hpost). cbn [pages] in *. rewrite (under_app m p i l), elem_of_app. tauto.
Qed.

Lemma under_absent {B} m f i (g : Z → list B) : has PRESENT (entry m f i) = false → under m f [i] g = [].
Proof. intros He. by rewrite under_cons, He. Qed.

Lemma under_present {B} m f i (g : Z → list B) :
  has PRESENT (entry m f i) = true → under m f [i] g = g (pfn (entry m f i)).
Proof. intros He. by rewrite under_cons, He, app_nil_r. Qed.

Lemma clone_post_absent k i m R p c :
  has PRESENT (entry m p i) = false → entry m c i = 0 → clone_post (S k) [i] m R p c true m [] ∅.
Proof.
  intros He Hc. split; try done; try (intros x Hx; by apply elem_of_nil in Hx).
  - apply sim_refl.
  - intros _ j ->%list_elem_of_singleton. by rewrite He.
  - intros _ j ->%list_elem_of_singleton. by rewrite He, Hc.
  - intros _. cbn [tabs]. by rewrite under_absent by (by rewrite Hc).
  - intros _. cbn [pages]. by rewrite under_absent.
  - constructor.
  - intros x. rewrite multiplicity_empty. lia.
  - by intros x Hx%gmultiset_not_elem_of_empty.
Qed.

Lemma clone_post_page i m R p c m1 :
  idx i → p ≠ c → has PRESENT (entry m p i) = true →
  (∀ x j, idx j → entry m1 x j = if decide ((x = c ∨ x = p) ∧ j = i) then cow (entry m p i) else entry m x j) →
  clone_post 1 [i] m R p c true m1 [] {[+ pfn (entry m p i) +]}.
Proof.
  intros Hi Hpc He Hm1. assert (entry m1 p i = cow (entry m p i)) as Hp by (rewrite Hm1 by done; by rewrite decide_True by auto).
  assert (entry m1 c i = cow (entry m p i)) as Hc by (rewrite Hm1 by done; by rewrite decide_True by auto).
  split; try (intros x Hx; by apply elem_of_nil in Hx).
  - intros x j Hx Hj. rewrite Hm1 by done. rewrite decide_False; [done|]. cbn in Hx. set_solver.
  - intros j Hj Hji. rewrite Hm1 by done. rewrite decide_False; [done|]. set_solver.
  - intros j Hj Hji. rewrite Hm1 by done. rewrite decide_False; [done|]. set_solver.
  - intros j ->%list_elem_of_singleton. rewrite Hp, present_cow. split; [done|]. intros _. simpl. rewrite pfn_cow. auto.
  - intros _ j ->%list_elem_of_singleton. rewrite Hp, present_cow. split; [done|]. intros _. simpl. by rewrite pfn_cow.
  - intros _ j ->%list_elem_of_singleton. rewrite Hc, present_cow. split; [done|]. intros _. simpl. by rewrite pfn_cow.
  - intros _. apply tabs_1.
  - intros _. cbn [pages]. rewrite under_present by done. cbn [list_to_set_disj]. multiset_solver.
  - constructor.
  - intros x. rewrite multiplicity_singleton. case_decide; cbn; lia.
  - intros x ->%gmultiset_elem_of_singleton. right. cbn [pages]. rewrite under_present by done. by left.
Qed.

(** A loop, one entry after the other. *)
Lemma level_ok_cons k i l p c s R r1 s1 r2 s2 N1 leak1 :
  clone_pre (S k) (i :: l) (mem s) R p c → r1 = Ok tt →
  clone_post (S k) [i] (mem s) R p c (is_ok (T := unit) (E := Ex) r1) (mem s1) N1 leak1 →
  (oom r2 s2 ∧ ∃ N leak, held (allocator s2) (leak ⊎ (leak1 ⊎ R)) ∧
     clone_post (S k) l (mem s1) (leak1 ⊎ R) p c (is_ok (T := unit) (E := Ex) r2) (mem s2) N leak) →
  oom r2 s2 ∧ ∃ N leak, held (allocator s2) (leak ⊎ R) ∧
     clone_post (S k) (i :: l) (mem s) R p c (is_ok (T := unit) (E := Ex) r2) (mem s2) N leak.
Proof.
  intros Hpre -> Hp1 (Ho & N2 & leak2 & Hh & Hp2). split; [done|]. exists (N1 ++ N2), (leak2 ⊎ leak1).
  split; [by rewrite <-(assoc_L (⊎))|]. by eapply clone_post_cons.
Qed.

Lemma l1_level_ok : level_ok 1 (λ p c l s, (Ok tt, foldl (clone_page p c) s l)).
Proof.
  intros l. induction l as [|i l IH]; intros p c s R Hh Hpre.
  { split; [done|]. exists [], ∅. rewrite (left_id_L ∅ (⊎)). split; [done|apply clone_post_nil]. }
  destruct (clone_pre_head _ _ _ _ _ _ _ Hpre) as (Hi & Hil & Hpc & HpR & Hz & Hl & Hplain). cbn [foldl].
  destruct (has PRESENT (entry (mem s) p i)) eqn:He.
  - destruct (Hplain eq_refl) as [Hhuge _]. clear Hplain.
    assert (pfn (entry (mem s) p i) ∈ pages 1 (i :: l) (mem s) p) as Hin.
    { cbn [pages]. rewrite under_app, under_present, elem_of_app by done. left. by apply list_elem_of_singleton. }
    destruct (clone_page_present p c s i R) as [Hh1 Hm1]; try done.
    { by apply (cp_pages_held _ _ _ _ _ _ Hpre). }
    { pose proof (cp_bound _ _ _ _ _ _ Hpre (pfn (entry (mem s) p i))) as Hb.
      apply elem_of_list_to_set_disj in Hin. rewrite elem_of_multiplicity in Hin. lia. }
    pose proof (clone_post_page i (mem s) R p c _ Hi Hpc He Hm1) as Hp1.
    eapply level_ok_cons; [done|done|done|]. apply (IH p c _ _ Hh1). by eapply clone_pre_next.
  - pose proof (clone_post_absent 0 i (mem s) R p c He Hz) as Hp1. rewrite clone_page_not_present by done.
    eapply level_ok_cons; [done|done|done|]. rewrite (left_id_L ∅ (⊎)). apply IH; [done|].
    rewrite <-(left_id_L ∅ (⊎) R). by eapply clone_pre_next.
Qed.

Lemma clone_post_stopped k i m R p c : clone_post (S k) [i] m R p c false m [] ∅.
Proof.
  split; try done; try (intros x Hx; by apply elem_of_nil in Hx).
  - apply sim_refl.
  - constructor.
  - intros x. rewrite multiplicity_empty. lia.
  - by intros x Hx%gmultiset_not_elem_of_empty.
Qed.

(** One entry of a table above the last level, in the frame [t] that was allocated:
    [m1] has it zeroed, [m2] is what the next level leaves. *)
Section slot.
Context (k : nat) (i : Z) (l : list Z) (m : Mem) (R : gmultiset Z) (p c t : Z).
Context (Hpre : clone_pre (S (S k)) (i :: l) m R p c) (He : has PRESENT (entry m p i) = true) (Ht : t ∉ R).

Let q := pfn (entry m p i).
Let m1 := fill t (λ _, 0) m.

Lemma slot_tabs x : x ∈ tabs (S k) all_entries m q → x ∈ R ∧ x ≠ c ∧ x ≠ p ∧ x ≠ t.
Proof.
  intros Hx. assert (x ∈ under m p [i] (tabs (S k) all_entries m)) as Hu by (by rewrite under_present).
  assert (x ∈ R) as HR by (by apply (cp_tabs_held _ _ _ _ _ _ Hpre), in_head). split_and!; [done| | |congruence].
  - intros ->. by apply (cp_child_tab _ _ _ _ _ _ Hpre), in_head.
  - by apply (tabs_split _ _ _ _ _ _ _ Hpre) in Hu as [_ ?].
Qed.

Lemma slot_zeroed : chg [t] m m1.
Proof. intros x n Hx Hn. unfold m1. rewrite entry_fill, decide_False; [done|set_solver|done]. Qed.

Lemma slot_agree : agree (tabs (S k) all_entries m q) m m1.
Proof. eapply chg_agree; [apply slot_zeroed|]. intros x Hx%slot_tabs. set_solver. Qed.

Lemma slot_sim : sim (λ _, eq) (S k) all_entries m m1 q q.
Proof. apply agree_sim; [apply all_idx|apply slot_agree]. Qed.

Lemma slot_frames : p ≠ c ∧ p ≠ t ∧ c ≠ t ∧ idx i.
Proof.
  destruct (clone_pre_head _ _ _ _ _ _ _ Hpre) as (Hi & _ & Hpc & HpR & _). pose proof (cp_child _ _ _ _ _ _ Hpre).
  split_and!; congruence || done.
Qed.

Lemma slot_pre : clone_pre (S k) all_entries m1 ({[+ t +]} ⊎ R) q t.
Proof.
  destruct (sim_eq_tabs _ _ _ _ _ slot_sim) as [Htb _]. pose proof (sim_pages _ _ _ _ _ _ _ slot_sim) as Hpg.
  assert (∀ x, x ∈ pages (S k) all_entries m q → x ∈ pages (S (S k)) (i :: l) m p) as Hsub.
  { intros x Hx. change (x ∈ under m p (i :: l) (pages (S k) all_entries m)).
    rewrite under_app, under_present by done. apply elem_of_app. by left. }
  split; rewrite ?Htb, ?Hpg.
  - apply all_idx.
  - apply NoDup_seqZ.
  - pose proof (cp_tabs _ _ _ _ _ _ Hpre) as Hnd. apply NoDup_cons in Hnd as [_ Hnd].
    rewrite under_app, under_present in Hnd by done. by apply NoDup_app in Hnd as [? _].
  - eapply sim_eq_plain; [apply slot_sim|]. by apply (clone_pre_head _ _ _ _ _ _ _ Hpre).
  - intros x Hx%slot_tabs. apply gmultiset_elem_of_disj_union. right. apply Hx.
  - intros x Hx%Hsub. apply gmultiset_elem_of_disj_union. right. by apply (cp_pages_held _ _ _ _ _ _ Hpre).
  - apply gmultiset_elem_of_disj_union. left. by apply gmultiset_elem_of_singleton.
  - intros Hx%slot_tabs. naive_solver.
  - intros j Hj%elem_of_all. unfold m1. by rewrite entry_fill, decide_True.
  - intros x. pose proof (cp_bound _ _ _ _ _ _ Hpre x) as Hb.
    change (pages (S (S k)) (i :: l) m p) with (under m p (i :: l) (pages (S k) all_entries m)) in Hb.
    rewrite under_app, under_present, refs_app in Hb by done. fold q in Hb.
    rewrite multiplicity_disj_union, multiplicity_singleton. case_decide as Hxt; [|lia]. subst x.
    assert (t ∉ pages (S k) all_entries m q) as Hn by (by intros ?%Hsub%(cp_pages_held _ _ _ _ _ _ Hpre)).
    rewrite (refs_in _ t Hn). apply not_elem_of_multiplicity in Ht as Ht'. rewrite Ht'. unfold U32_MAX. lia.
Qed.

Context (ok : bool) (m2 : Mem) (N : list Z) (leak : gmultiset Z).
Context (Hin : clone_post (S k) all_entries m1 ({[+ t +]} ⊎ R) q t ok m2 N leak).

Lemma slot_lasts x : x ∈ lasts (S k) all_entries m1 q ↔ x ∈ lasts (S (S k)) [i] m p.
Proof.
  destruct (sim_eq_tabs _ _ _ _ _ slot_sim) as [_ ->].
  change (lasts (S (S k)) [i] m p) with (under m p [i] (lasts (S k) all_entries m)). by rewrite under_present.
Qed.

Lemma slot_new x : x ∈ N → (x ∉ R) ∧ x ≠ t ∧ x ≠ c ∧ x ≠ p.
Proof.
  intros Hx%(po_fresh _ _ _ _ _ _ _ _ _ _ Hin). rewrite gmultiset_elem_of_disj_union, gmultiset_elem_of_singleton in Hx.
  destruct (clone_pre_head _ _ _ _ _ _ _ Hpre) as (_ & _ & _ & HpR & _). pose proof (cp_child _ _ _ _ _ _ Hpre).
  split_and!; [tauto|tauto|intros ->; tauto|intros ->; tauto].
Qed.

(** The next level leaves the parent's and the child's table alone. *)
Lemma slot_chg : chg (t :: N ++ lasts (S (S k)) [i] m p) m m2.
Proof.
  eapply chg_weaken; [eapply chg_trans; [apply slot_zeroed|apply Hin]|]. intros x.
  rewrite !elem_of_app, !elem_of_cons, !elem_of_app, slot_lasts. intros [[->|[]%elem_of_nil]|?]; tauto.
Qed.

Lemma slot_outer x n : x = p ∨ x = c → idx n → entry m2 x n = entry m x n.
Proof.
  intros Hx Hn. apply slot_chg; [|done]. destruct slot_frames as (? & ? & ? & ?).
  intros [->|[HN|Hla]%elem_of_app]%elem_of_cons; [naive_solver|apply slot_new in HN; naive_solver|].
  change (x ∈ under m p [i] (lasts (S k) all_entries m)) in Hla. rewrite under_present in Hla by done.
  apply lasts_tabs, slot_tabs in Hla. naive_solver.
Qed.

Lemma slot_sub Q : sim Q (S k) all_entries m1 m2 q q → sim Q (S k) all_entries m m2 q q.
Proof. apply sim_trans_eq, slot_sim. Qed.

Lemma clone_post_slot_fail : clone_post (S (S k)) [i] m R p c false m2 (t :: N) (leak ⊎ {[+ t +]}).
Proof.
  destruct slot_frames as (Hpc & Hpt & Hct & Hi). split; try done.
  - intros x [->|Hx]%elem_of_cons; [done|]. by apply slot_new.
  - intros x [->|Hx]%elem_of_cons; apply gmultiset_elem_of_disj_union; [right; by apply gmultiset_elem_of_singleton|].
    left. by apply (po_new _ _ _ _ _ _ _ _ _ _ Hin).
  - eapply chg_weaken; [apply slot_chg|]. intros x Hx. by right.
  - intros j Hj _. by apply slot_outer; [right|].
  - intros j Hj _. by apply slot_outer; [left|].
  - intros j ->%list_elem_of_singleton. rewrite slot_outer by auto. split; [done|]. intros _. split; [done|].
    apply slot_sub, Hin.
  - apply NoDup_cons. split; [by intros (_ & ? & _)%slot_new|apply Hin].
  - intros x. pose proof (po_size _ _ _ _ _ _ _ _ _ _ Hin x) as Hs. rewrite multiplicity_disj_union, multiplicity_singleton.
    assert (length all_entries = 512%nat) as Hl by (unfold all_entries; by rewrite length_seqZ).
    rewrite Hl in Hs. cbn [length]. case_decide; destruct k; lia.
  - intros x [Hx|Hx%gmultiset_elem_of_singleton]%gmultiset_elem_of_disj_union; [|left; subst; by left].
    apply (po_leak _ _ _ _ _ _ _ _ _ _ Hin) in Hx as [Hx|Hx]; [left; by right|right].
    rewrite (sim_pages _ _ _ _ _ _ _ slot_sim) in Hx.
    change (pages (S (S k)) [i] m p) with (under m p [i] (pages (S k) all_entries m)). by rewrite under_present.
Qed.

Context (Hok : ok = true) (Ht40 : 0 ≤ t < 2 ^ 40).

Let e' := set_addr (t * 4096) (flags (entry m p i)).
Let m3 : Mem := <[c * 512 + i := e']> m2.

Lemma slot_link x n : idx n → entry m3 x n = if decide (x = c ∧ n = i) then e' else entry m2 x n.
Proof. intros Hn. apply entry_insert; [apply slot_frames|done]. Qed.

Lemma slot_linked X : (c ∉ X) → agree X m2 m3.
Proof. intros HX x n Hx Hn. rewrite slot_link, decide_False; [done| |done]. intros [-> _]. done. Qed.

Lemma slot_entry : entry m3 c i = e' ∧ has PRESENT e' = true ∧ pfn e' = t ∧ flags e' = flags (entry m p i).
Proof.
  pose proof (flags_bits (entry m p i)). split_and!.
  - rewrite slot_link by apply slot_frames. by rewrite decide_True.
  - unfold e'. rewrite has_set_addr, has_flags; done.
  - by apply pfn_set_addr.
  - by apply flags_set_addr.
Qed.

Lemma slot_parent_sub Q : sim Q (S k) all_entries m1 m2 q q → sim Q (S k) all_entries m m3 q q.
Proof.
  intros Hs. eapply sim_ext_r; [apply all_idx|by apply slot_sub|]. apply slot_linked.
  rewrite (Qkeep_tabs _ _ _ _ _ (slot_sub _ (po_keep _ _ _ _ _ _ _ _ _ _ Hin))). by intros (_ & ? & _)%slot_tabs.
Qed.

Lemma slot_child_tabs : tabs (S k) all_entries m3 t = t :: N ∧ agree (tabs (S k) all_entries m2 t) m2 m3.
Proof.
  pose proof (po_tabs _ _ _ _ _ _ _ _ _ _ Hin Hok) as Htb.
  assert (agree (tabs (S k) all_entries m2 t) m2 m3) as Ha.
  { apply slot_linked. rewrite Htb. destruct slot_frames as (? & ? & ? & ?).
    by intros [->|(_ & _ & ? & _)%slot_new]%elem_of_cons. }
  split; [|done]. rewrite <-Htb. by apply agree_tabs; [apply all_idx|].
Qed.

Lemma clone_post_slot : clone_post (S (S k)) [i] m R p c true m3 (t :: N) (leak ⊎ {[+ t +]}).
Proof.
  destruct slot_frames as (Hpc & Hpt & Hct & Hi). destruct slot_entry as (Hc & Hc1 & Hc2 & Hc3).
  assert (∀ n, idx n → entry m3 p n = entry m p n) as Hp3.
  { intros n Hn. rewrite slot_link by done. rewrite decide_False by (by intros [? _]). by apply slot_outer; [left|]. }
  destruct slot_child_tabs as [Htb Ha].
  pose proof clone_post_slot_fail as Hf. split; try (apply Hf).
  - intros x n Hx Hn. rewrite slot_link by done. rewrite decide_False by (intros [-> _]; apply Hx; by left).
    by apply (po_chg _ _ _ _ _ _ _ _ _ _ Hf).
  - intros n Hn Hni. rewrite slot_link by done. rewrite decide_False by (intros [_ ->]; apply Hni; by left).
    by apply slot_outer; [right|].
  - auto.
  - intros j ->%list_elem_of_singleton. rewrite Hp3 by done. split; [done|]. intros _. split; [done|].
    apply slot_parent_sub, Hin.
  - intros _ j ->%list_elem_of_singleton. rewrite Hp3 by done. split; [done|]. intros _. split; [done|].
    by apply slot_parent_sub, Hin.
  - intros _ j ->%list_elem_of_singleton. rewrite Hc, Hc1, Hc2. split; [done|]. intros _. split; [done|].
    eapply sim_ext_r; [apply all_idx| |done]. eapply sim_trans_eq; [apply slot_sim|]. by apply Hin.
  - intros _. change (tabs (S (S k)) [i] m3 c) with (c :: under m3 c [i] (tabs (S k) all_entries m3)).
    by rewrite under_present, Hc, Hc2, Htb by (by rewrite Hc).
  - intros _. rewrite (po_refs _ _ _ _ _ _ _ _ _ _ Hin Hok), (sim_pages _ _ _ _ _ _ _ slot_sim).
    change (pages (S (S k)) [i] m p) with (under m p [i] (pages (S k) all_entries m)).
    rewrite under_present by done. cbn [list_to_set_disj]. fold q. apply refs_rotate.
Qed.
End slot.

Lemma allocate_one_ok s R :
  held (allocator s) R →
  match allocate_one s with
  | (s', Some t) => (t ∉ R) ∧ 0 ≤ t < 2 ^ 40 ∧ held (allocator s') ({[+ t +]} ⊎ R) ∧ mem s' = mem s
  | (s', None) => held (allocator s') R ∧ mem s' = mem s ∧ full (allocator s')
  end.
Proof.
  intros Hh. pose proof (allocate_law _ _ Hh) as Hl. unfold allocate_one. destruct (allocate (allocator s)) as [a [t|]]; [|by destruct Hl].
  destruct Hl as [Ht Ha]. assert (0 ≤ t < 2 ^ 19); [|split_and!; done || lia]. eapply held_range; [done|].
  apply gmultiset_elem_of_disj_union. left. by apply gmultiset_elem_of_singleton.
Qed.

(** From one level to the next. *)
Lemma clone_slot_ok k huge (F : Z → Z → list Z → Machine A → result unit Ex * Machine A) i l p c s R :
  level_ok (S k) F → held (allocator s) R → clone_pre (S (S k)) (i :: l) (mem s) R p c →
  let '(r, s') := clone_slot no_memory share huge (λ p c, F p c all_entries) p c i s in
  oom r s' ∧ ∃ N leak, held (allocator s') (leak ⊎ R) ∧ clone_post (S (S k)) [i] (mem s) R p c (is_ok r) (mem s') N leak.
Proof.
  intros HF Hh Hpre. destruct (clone_pre_head _ _ _ _ _ _ _ Hpre) as (Hi & Hil & Hpc & HpR & Hz & Hl & Hplain). unfold clone_slot.
  destruct (has PRESENT (entry (mem s) p i)) eqn:He; cbn [negb].
  2: { split; [done|]. exists [], ∅. rewrite (left_id_L ∅ (⊎)). split; [done|by apply clone_post_absent]. }
  destruct (Hplain eq_refl) as [-> _]. rewrite andb_false_r. pose proof (allocate_one_ok s R Hh) as Hal.
  destruct (allocate_one s) as [s1 [t|]]; destruct Hal as [Ht Hal].
  2: { destruct Hal as [Hal Hfull]. split; [done|]. exists [], ∅. rewrite (left_id_L ∅ (⊎)), Hal.
       split; [done|apply clone_post_stopped]. }
  destruct Hal as (Ht40 & Hh1 & Hm1).
  pose proof (HF all_entries (pfn (entry (mem s) p i)) t (zero_frame t s1) _ Hh1) as Hin. simpl in Hin. rewrite Hm1 in Hin.
  specialize (Hin (slot_pre _ _ _ _ _ _ _ _ Hpre He Ht)).
  destruct (F _ t all_entries (zero_frame t s1)) as [[[]|err] s2]; destruct Hin as (Ho & N & leak & Hh2 & Hp2).
  all: split; [done|]; exists (t :: N), (leak ⊎ {[+ t +]}); rewrite <-(assoc_L (⊎)); split; [done|].
  - cbn [is_ok mem set_entry]. simpl.
    rewrite (slot_outer k i l (mem s) R p c t Hpre He Ht true (mem s2) N leak Hp2 p i) by auto.
    by eapply clone_post_slot.
  - by eapply clone_post_slot_fail.
Qed.

Lemma level_ok_S k huge F : level_ok (S k) F → level_ok (S (S k)) (clone_slots no_memory share huge (λ p c, F p c all_entries)).
Proof.
  intros HF l. induction l as [|i l IH]; intros p c s R Hh Hpre; cbn [clone_slots].
  { split; [done|]. exists [], ∅. rewrite (left_id_L ∅ (⊎)). split; [done|apply clone_post_nil]. }
  pose proof (clone_slot_ok k huge F i l p c s R HF Hh Hpre) as Hs.
  destruct (clone_slot _ _ _ _ _ _ _ _) as [[[]|err] s1]; destruct Hs as (Ho & N1 & leak1 & Hh1 & Hp1).
  2: { split; [done|]. exists N1, leak1. split; [done|]. by apply clone_post_fail. }
  specialize (IH p c s1 _ Hh1 (clone_pre_next _ _ _ _ _ _ _ _ _ _ Hpre _ Hp1 eq_refl)).
  destruct (clone_slots _ _ _ _ _ _ l s1) as [r2 s2]. eapply level_ok_cons; done.
Qed.
End clone.
