(* ===== verification/CowSystem.v ===== *)
(** * Processes that fork, write and exit ([Paging]).

    [spaces_ok] is the invariant of the machine: the memory is as [mem_ok] says and
    the allocator counts one reference for each table and each mapping. Every
    operation keeps it, and what each does to the memories of the processes is the
    specification of [fork_isolates]. *)

From Stdlib Require Import ZArith Lia Bool.
From stdpp Require Import base gmap sets gmultiset numbers list.
From S2P Require Import Prelude Paging CowTree CowFork.

Local Open Scope rust_scope.
Local Open Scope Z_scope.

Local Opaque seqZ.

(** What the words of each process hold; [None] where nothing is mapped. *)
Abbreviation Memories := (gmap Z (Z → option Z)).

Section system.
Context {A : Type} `{Frames A, EntryFrame} `{!EntryFrameLaw} (held : A → gmultiset Z → Prop) `{!FramesLaws A held}.
Implicit Types s : Machine A.

(** References: one for each table and each mapping, and [K] others. *)
Definition counted (m : Mem) (procs : list Z) (K : gmultiset Z) : gmultiset Z :=
  refs (procs ≫= utabs m) ⊎ (refs (procs ≫= upages m) ⊎ K).

(** Failed forks leak the tables [L] they had made, and at most 513 references with
    each. *)
Record leaks (T : list Z) (K : gmultiset Z) (L : list Z) : Prop := {
  lk_nodup : NoDup (L ++ T);
  lk_in x : x ∈ L → x ∈ K;
  lk_size x : Z.of_nat (multiplicity x K) ≤ 2 ^ 30 + 513 * Z.of_nat (length L);
  lk_apart x : x ∈ K → x ∉ T;
}.

Lemma leaks_more T K L X : leaks T K L → NoDup X → (∀ x, x ∈ X → (x ∉ T) ∧ (x ∉ K)) → leaks (X ++ T) K L.
Proof.
  intros [Hnd Hin Hsz Hap] HX Hfr. split; [|done|done|].
  2: { intros x Hx [HX'|HT]%elem_of_app; [by apply Hfr in HX' as [_ ?]|by apply (Hap x)]. }
  rewrite app_assoc, (Permutation_app_comm L X), <-app_assoc.
  apply NoDup_app. split_and!; [done| |done]. intros x Hx [HL%Hin|HT]%elem_of_app; by apply Hfr in Hx as [? ?].
Qed.

Lemma leaks_leaked T K L X lost :
  leaks T K L → NoDup X → (∀ x, x ∈ X → (x ∉ T) ∧ (x ∉ K)) → (∀ x, x ∈ X → x ∈ lost) →
  (∀ x, x ∈ lost → x ∉ T) → (∀ x, multiplicity x lost ≤ 513 * length X)%nat → leaks T (lost ⊎ K) (X ++ L).
Proof.
  intros [Hnd Hin Hsz Hap] HX Hfr Hlost Ho Hc. split.
  - rewrite <-app_assoc. apply NoDup_app. split_and!; [done| |done].
    intros x Hx [HL%Hin|HT]%elem_of_app; by apply Hfr in Hx as [? ?].
  - intros x [Hx|Hx]%elem_of_app; apply gmultiset_elem_of_disj_union; auto.
  - intros x. specialize (Hsz x). specialize (Hc x). rewrite multiplicity_disj_union, length_app. lia.
  - intros x [Hx|Hx]%gmultiset_elem_of_disj_union; auto.
Qed.

Record spaces_ok s (procs : list Z) (K : gmultiset Z) (L : list Z) : Prop := {
  sp_mem : mem_ok (mem s) procs;
  sp_held : held (allocator s) (counted (mem s) procs K);
  sp_leaks : leaks (procs ≫= utabs (mem s)) K L;
}.

Lemma spaces_ok_perm s procs procs' K L : procs ≡ₚ procs' → spaces_ok s procs K L → spaces_ok s procs' K L.
Proof.
  intros Hl [Hm Hh [Hnd Hin Hsz Hap]]. split; [by eapply mem_ok_perm| |].
  - unfold counted in *. by rewrite <-(refs_bind_perm (utabs (mem s)) _ _ Hl), <-(refs_bind_perm (upages (mem s)) _ _ Hl).
  - split; [|done|done|intros x Hx; rewrite <-Hl; by apply Hap]. by rewrite <-Hl.
Qed.

Lemma counted_tabs m procs K x : x ∈ procs ≫= utabs m → x ∈ counted m procs K.
Proof. intros Hx. apply gmultiset_elem_of_disj_union. left. by apply elem_of_list_to_set_disj. Qed.

Lemma counted_pages m procs K x : x ∈ procs ≫= upages m → x ∈ counted m procs K.
Proof.
  intros Hx. apply gmultiset_elem_of_disj_union. right. apply gmultiset_elem_of_disj_union. left. by apply elem_of_list_to_set_disj.
Qed.

(** ** Fork *)

(** The references to a frame always fit in 32 bits: there are not enough tables
    to map one more often. *)
Lemma under_length {B} m f l (g h : Z → list B) n :
  (∀ q, length (g q) ≤ n * length (h q))%nat → (length (under m f l g) ≤ n * length (under m f l h))%nat.
Proof.
  intros Hgh. induction l as [|i l IH]; [cbn; lia|]. rewrite !(under_app m f i l), !length_app.
  destruct (has PRESENT (entry m f i)) eqn:He; [|by rewrite !under_absent].
  rewrite !under_present by done. specialize (Hgh (pfn (entry m f i))). lia.
Qed.

Lemma pages_length k l m f :
  (length l ≤ 512)%nat → (length (pages (S k) l m f) ≤ 512 * length (tabs (S k) l m f))%nat.
Proof.
  revert l f. induction k as [|k IH]; intros l f Hl.
  - rewrite tabs_1. cbn [pages length]. etrans; [|apply Hl]. clear Hl. induction l as [|i l IHl]; [done|].
    rewrite (under_app m f i l), length_app. destruct (has PRESENT (entry m f i)) eqn:He;
      [rewrite under_present by done|rewrite under_absent by done]; cbn [length]; lia.
  - change (length (under m f l (pages (S k) all_entries m)) ≤ 512 * S (length (under m f l (tabs (S k) all_entries m))))%nat.
    etrans; [apply (under_length m f l _ (tabs (S k) all_entries m) 512)|lia].
    intros q. apply IH. unfold all_entries. rewrite length_seqZ. lia.
Qed.

Lemma bind_length (l : list Z) (g h : Z → list Z) n :
  (∀ q, length (g q) ≤ n * length (h q))%nat → (length (l ≫= g) ≤ n * length (l ≫= h))%nat.
Proof. intros Hgh. induction l as [|i l IH]; [cbn; lia|]. rewrite !bind_cons, !length_app. specialize (Hgh i). lia. Qed.

Lemma refs_length (l : list Z) x : (multiplicity x (refs l) ≤ length l)%nat.
Proof.
  induction l as [|y l IH]; [cbn; rewrite multiplicity_empty; lia|]. cbn [list_to_set_disj length].
  rewrite multiplicity_disj_union, multiplicity_singleton. case_decide; lia.
Qed.

Lemma counts_bound s procs K L x :
  spaces_ok s procs K L → Z.of_nat (multiplicity x (counted (mem s) procs K)) < 2 ^ 31.
Proof.
  intros [Hok Hh [Hnd Hin Hsz _]]. specialize (Hsz x). unfold counted. rewrite !multiplicity_disj_union.
  assert (Z.of_nat (length (L ++ (procs ≫= utabs (mem s)))) ≤ 2 ^ 19) as Hfr.
  { apply NoDup_range_length; [done|done|]. intros y Hy. eapply held_range; [exact Hh|].
    apply elem_of_app in Hy as [Hy%Hin|Hy]; [|by apply counted_tabs].
    unfold counted. rewrite !gmultiset_elem_of_disj_union. auto. }
  rewrite length_app in Hfr. pose proof (refs_NoDup _ x (mo_tabs _ _ Hok)) as Hc1.
  pose proof (refs_length (procs ≫= upages (mem s)) x) as Hc2.
  pose proof (bind_length procs (upages (mem s)) (utabs (mem s)) 512 ltac:(intros q; apply pages_length; unfold user_entries; rewrite length_seqZ; lia)) as Hc3. lia.
Qed.

Lemma l4_level_ok {E} (no_memory : E) share :
  level_ok held no_memory 4 (clone_slots no_memory share false (clone_l3 no_memory share)).
Proof.
  refine (level_ok_S held no_memory share 2 false (clone_slots no_memory share true (clone_l2 no_memory share)) _).
  refine (level_ok_S held no_memory share 1 true (clone_slots no_memory share true clone_l1) _).
  exact (level_ok_S held no_memory share 0 true (λ p c l s, (Ok tt, foldl (clone_page p c) s l)) (l1_level_ok held no_memory share)).
Qed.

(** The clone starts from a table that is empty in the user half. *)
Lemma fork_pre s c procs r K :
  mem_ok (mem s) (r :: procs) → (c ∉ counted (mem s) (r :: procs) K) →
  (∀ x, Z.of_nat (multiplicity x (counted (mem s) (r :: procs) K)) < 2 ^ 31) →
  let m1 := mem (copy_kernel_half r c (zero_frame c s)) in
  chg [c] (mem s) m1 ∧ clone_pre 4 user_entries m1 ({[+ c +]} ⊎ counted (mem s) (r :: procs) K) r c.
Proof.
  intros Hm Hc Hb m1. destruct (copy_kernel_half_ok r c (zero_frame c s)) as [_ He]. fold m1 in He.
  assert (∀ x, x ∈ (r :: procs) ≫= utabs (mem s) → x ∈ counted (mem s) (r :: procs) K) as HRt by apply counted_tabs.
  assert (chg [c] (mem s) m1) as Hchg.
  { intros x i Hx Hi. rewrite list_elem_of_singleton in Hx. rewrite He by auto. simpl. by rewrite entry_fill, decide_False. }
  split; [done|].
  assert (sim (λ _, eq) 4 user_entries (mem s) m1 r r) as Hs.
  { eapply same_tabs; [|by left]. eapply chg_agree; [done|]. intros x Hx%HRt ->%list_elem_of_singleton. done. }
  destruct (sim_eq_tabs _ _ _ _ _ Hs) as [Ht _]. pose proof (sim_pages _ _ _ _ _ _ _ Hs) as Hp.
  split; rewrite ?Ht, ?Hp.
  - apply user_idx.
  - apply NoDup_seqZ.
  - eapply NoDup_bind_part; [apply (mo_tabs _ _ Hm)|by left|done].
  - eapply sim_eq_plain; [done|]. apply Hm. by left.
  - intros x Hx. apply gmultiset_elem_of_disj_union. right. apply counted_tabs, (in_tabs _ _ r); [by left|done].
  - intros x Hx. apply gmultiset_elem_of_disj_union. right. apply counted_pages, (in_pages _ _ r); [by left|done].
  - apply gmultiset_elem_of_disj_union. left. by apply gmultiset_elem_of_singleton.
  - intros Hx. apply Hc, counted_tabs, (in_tabs _ _ r); [by left|done].
  - intros i Hi%elem_of_seqZ. rewrite He by (unfold idx; lia). simpl.
    rewrite entry_fill by (unfold idx; lia). by rewrite decide_True.
  - intros x. specialize (Hb x). pose proof (refs_bind_le (r :: procs) (upages (mem s)) r x ltac:(by left)) as Hle.
    unfold counted in *. rewrite !multiplicity_disj_union, multiplicity_singleton in *. cbv beta in *. case_decide as Hx; [|unfold U32_MAX; lia].
    subst x. apply not_elem_of_multiplicity in Hc. rewrite !multiplicity_disj_union in Hc. unfold U32_MAX. lia.
Qed.

Lemma refs_fork (t n p q k : gmultiset Z) (c : Z) :
  (n ⊎ p) ⊎ ({[+ c +]} ⊎ (t ⊎ (q ⊎ k))) = (({[+ c +]} ⊎ n) ⊎ t) ⊎ ((p ⊎ q) ⊎ k).
Proof. multiset_solver. Qed.

Lemma refs_leak (l t q k : gmultiset Z) (c : Z) :
  l ⊎ ({[+ c +]} ⊎ (t ⊎ (q ⊎ k))) = t ⊎ (q ⊎ ((l ⊎ {[+ c +]}) ⊎ k)).
Proof. multiset_solver. Qed.

(** Nobody sees a difference, and the child sees what its parent sees. *)
Lemma clone_ok {E} (no_memory : E) share s r procs K L :
  spaces_ok s (r :: procs) K L →
  let '(res, s') := clone_tables no_memory share r s in
  (∀ q v, q ∈ r :: procs → user_addr v → user_read q v (mem s') = user_read q v (mem s)) ∧
  match res with
  | Ok c => (c ∉ r :: procs) ∧ spaces_ok s' (c :: r :: procs) K L ∧
            ∀ v, user_addr v → user_read c v (mem s') = user_read r v (mem s)
  | Err e => e = no_memory ∧ full (allocator s') ∧ ∃ K' L', spaces_ok s' (r :: procs) K' L'
  end.
Proof.
  intros Hs. pose proof (λ x, counts_bound s _ _ _ x Hs) as Hb. destruct Hs as [Hm Hh Hlk]. unfold clone_tables. pose proof (allocate_one_ok held s _ Hh) as Hal.
  destruct (allocate_one s) as [s1 [c|]].
  2: { destruct Hal as (Hh1 & Hm1 & Hf). rewrite Hm1. split; [done|]. split_and!; try done. exists K, L. split; by rewrite Hm1. }
  destruct Hal as (Hc & Hc40 & Hh1 & Hm1).
  destruct (fork_pre s1 c procs r K) as [Hchg Hpre]; rewrite ?Hm1 in *; [exact Hm|exact Hc|exact Hb|].
  destruct (copy_kernel_half_ok r c (zero_frame c s1)) as [Ha _].
  set (s2 := copy_kernel_half r c (zero_frame c s1)) in *.
  pose proof (l4_level_ok no_memory share user_entries r c s2 _ ltac:(by rewrite Ha) Hpre) as Hlev.
  change (seqZ 0 256) with user_entries. destruct (clone_slots no_memory share false _ r c user_entries s2) as [[[]|e] s3];
    destruct Hlev as (Ho & N & leak & Hh3 & Hpost).
  all: pose proof (λ x, counted_tabs (mem s) (r :: procs) K x) as HRt; pose proof (λ x, counted_pages (mem s) (r :: procs) K x) as HRp.
  all: split; [intros q v Hq Hv; by eapply fork_reads|]; pose proof (fork_new_NoDup _ _ _ _ _ _ _ _ Hpost) as HN.
  all: assert (∀ x, x ∈ c :: N → (x ∉ (r :: procs) ≫= utabs (mem s)) ∧ (x ∉ K)) as Hnew
    by (intros x Hx; pose proof (fork_new _ _ _ _ _ _ _ _ Hc Hpost x Hx) as Hx'; split; intros Hx''; apply Hx';
        [by apply HRt|unfold counted; rewrite !gmultiset_elem_of_disj_union; auto]).
  - split_and!; [| |intros v Hv; by eapply fork_child_reads].
    + intros Hin. apply Hc, counted_tabs, list_elem_of_bind. exists c. split; [by left|done].
    + destruct (fork_child_lists (mem s) _ _ _ _ _ _ _ _ _ Hm Hc Hchg HRt HRp Hpost eq_refl) as [Ht Hp].
      split; [by eapply fork_child_ok| |].
      * unfold counted. rewrite (po_refs _ _ _ _ _ _ _ _ _ _ Hpost eq_refl) in Hh3.
        rewrite Ht, Hp, !list_to_set_disj_app. cbn [list_to_set_disj]. rewrite <-refs_fork.
        replace (upages (mem s) r) with (upages (mem s2) r); [done|]. eapply agree_pages; [apply user_idx|].
        eapply chg_agree; [done|]. intros x Hx ->%list_elem_of_singleton. apply Hc, HRt, (in_tabs _ _ r); [by left|done].
      * rewrite Ht. by apply leaks_more.
  - destruct Ho as [-> Hfull]. split_and!; [done|done|]. exists ((leak ⊎ {[+ c +]}) ⊎ K), ((c :: N) ++ L).
    destruct (fork_lists (mem s) _ _ _ _ _ _ _ _ _ Hm Hc Hchg HRt HRp Hpost) as [Ht Hp].
    split; [by eapply fork_mem_ok|unfold counted; by rewrite Ht, Hp, <-refs_leak|]. rewrite Ht. apply leaks_leaked; try done.
    + intros x [->|Hx]%elem_of_cons; apply gmultiset_elem_of_disj_union; [right; by apply gmultiset_elem_of_singleton|].
      left. by apply (po_new _ _ _ _ _ _ _ _ _ _ Hpost).
    + intros x [Hx|Hx%gmultiset_elem_of_singleton]%gmultiset_elem_of_disj_union;
        [|subst; apply (Hnew c); by left].
      apply (po_leak _ _ _ _ _ _ _ _ _ _ Hpost) in Hx as [Hx|Hx]; [apply (Hnew x); by right|].
      intros Hxt. apply (mo_disj _ _ Hm x Hxt), (in_pages _ _ r); [by left|].
      replace (upages (mem s) r) with (upages (mem s2) r); [done|]. eapply agree_pages; [apply user_idx|].
      eapply chg_agree; [done|]. intros y Hy ->%list_elem_of_singleton. apply Hc, HRt, (in_tabs _ _ r); [by left|done].
    + intros x. pose proof (po_size _ _ _ _ _ _ _ _ _ _ Hpost x) as Hx. cbv iota in Hx. rewrite multiplicity_disj_union, multiplicity_singleton.
      cbn [length]. case_decide; lia.
Qed.

(** ** A new address space *)

Section empty.
Context (m m1 : Mem) (c : Z) (procs : list Z) (K : gmultiset Z) (L : list Z).
Context (Hok : mem_ok m procs) (Hc : c ∉ counted m procs K) (Hchg : chg [c] m m1) (Hlk : leaks (procs ≫= utabs m) K L).
Context (Hz : ∀ i, i ∈ user_entries → entry m1 c i = 0).

Lemma empty_agree : agree (procs ≫= utabs m) m m1 ∧ agree (procs ≫= upages m) m m1.
Proof.
  split; (eapply chg_agree; [done|]); intros x Hx ->%list_elem_of_singleton; apply Hc; [by apply counted_tabs|by apply counted_pages].
Qed.

Lemma empty_under (g : Z → list Z) : under m1 c user_entries g = [].
Proof. apply elem_of_nil_inv. intros x (i & Hi & Hp & _)%elem_of_under. by rewrite Hz in Hp. Qed.

Lemma empty_lists : (c :: procs) ≫= utabs m1 = [c] ++ (procs ≫= utabs m) ∧ (c :: procs) ≫= upages m1 = procs ≫= upages m.
Proof.
  destruct empty_agree as [Ht _]. destruct (same_lists _ _ _ Ht) as [Ht' Hp']. rewrite !bind_cons, Ht', Hp'. cbn [tabs pages].
  by rewrite !empty_under.
Qed.

Lemma empty_mmu path : path_ok 4 user_entries path → mmu m1 c path = None.
Proof. destruct path as [|i path]; [done|]. intros [Hi _]. cbn [mmu]. by rewrite Hz. Qed.

Lemma empty_new x : x ∈ [c] → (x ∉ procs ≫= utabs m) ∧ (x ∉ K).
Proof.
  intros ->%list_elem_of_singleton. split; intros Hx; apply Hc; [by apply counted_tabs|].
  unfold counted. rewrite !gmultiset_elem_of_disj_union. auto.
Qed.

Lemma empty_ok : mem_ok m1 (c :: procs) ∧ leaks ((c :: procs) ≫= utabs m1) K L.
Proof.
  destruct empty_agree as [Ht _]. destruct empty_lists as [Et Ep]. pose proof (mem_ok_agree _ _ _ Ht Hok) as Hok1. split.
  - split; rewrite ?Et, ?Ep.
    + apply NoDup_app. split_and!; [apply NoDup_singleton|intros x Hx; by apply empty_new|apply Hok].
    + intros x [->%list_elem_of_singleton|Hx]%elem_of_app; [|by apply Hok]. intros Hx. by apply Hc, counted_pages.
    + intros r [->|Hr]%elem_of_cons; [|by apply Hok1]. intros i Hi Hp. by rewrite Hz in Hp.
    + intros r path fl e [->|Hr]%elem_of_cons Hp Hm; [by rewrite empty_mmu in Hm|]. by apply (mo_open _ _ Hok1 r path).
    + intros r path fl e [->|Hr]%elem_of_cons Hp Hm Hw; [by rewrite empty_mmu in Hm|].
      rewrite <-(proj2 (same_lists _ _ _ Ht)). by apply (mo_private _ _ Hok1 r path fl).
  - rewrite Et. apply leaks_more; [done|apply NoDup_singleton|apply empty_new].
Qed.
End empty.

Lemma refs_new (t p k : gmultiset Z) (c : Z) : {[+ c +]} ⊎ (t ⊎ (p ⊎ k)) = ({[+ c +]} ⊎ ∅ ⊎ t) ⊎ (p ⊎ k).
Proof. multiset_solver. Qed.

(** It maps nothing, and nobody sees a difference. *)
Lemma new_ok s procs K L config cr3 rand :
  spaces_ok s procs K L →
  let '(res, s') := AddressSpace_new config cr3 rand s in
  (∀ q v, q ∈ procs → user_addr v → user_read q v (mem s') = user_read q v (mem s)) ∧
  match res with
  | Ok a => (l4_frame a ∉ procs) ∧ spaces_ok s' (l4_frame a :: procs) K L ∧
            ∀ v, user_addr v → user_read (l4_frame a) v (mem s') = None
  | Err e => e = OutOfMemory ∧ full (allocator s') ∧ spaces_ok s' procs K L
  end.
Proof.
  intros [Hm Hh Hlk]. unfold AddressSpace_new. pose proof (allocate_one_ok held s _ Hh) as Hal. destruct (allocate_one s) as [s1 [c|]].
  2: { destruct Hal as (Hh1 & Hm1 & Hf). rewrite Hm1. split; [done|]. split_and!; [done|done|]. split; by rewrite Hm1. }
  destruct Hal as (Hc & _ & Hh1 & Hm1). destruct (copy_kernel_half_ok cr3 c (zero_frame c s1)) as [Ha He].
  set (s2 := copy_kernel_half cr3 c (zero_frame c s1)) in *. cbn [l4_frame].
  assert (chg [c] (mem s) (mem s2)) as Hchg.
  { intros x i Hx Hi. rewrite list_elem_of_singleton in Hx. rewrite He by auto. simpl. by rewrite entry_fill, Hm1, decide_False. }
  assert (∀ i, i ∈ user_entries → entry (mem s2) c i = 0) as Hz.
  { intros i Hi%elem_of_seqZ. rewrite He by (unfold idx; lia). simpl. rewrite entry_fill by (unfold idx; lia). by rewrite decide_True. }
  destruct (empty_agree _ _ _ _ _ Hc Hchg) as [Ht Hp]. destruct (empty_lists _ _ _ _ _ Hc Hchg Hz) as [Et Ep].
  destruct (empty_ok _ _ _ _ _ _ Hm Hc Hchg Hlk Hz) as [Hok' Hlk']. clearbody s2.
  split; [intros q v Hq Hv; by eapply agree_read|]. split_and!.
  - intros Hin. apply Hc, counted_tabs, (in_tabs _ _ c); [done|by left].
  - split; [done| |done]. unfold counted. rewrite Ha, Et, Ep, list_to_set_disj_app. cbn [list_to_set_disj]. rewrite <-refs_new. done.
  - intros v Hv%indices_path. rewrite user_read_entry. by erewrite empty_mmu.
Qed.

(** ** Writing *)

(** What the fault handler finds is what the processor found. *)
Lemma walk_last m r v fl e :
  mmu m r (indices v) = Some (fl, e) →
  let get_table e := if has PRESENT e then Some (pfn e) else None in
  let at_ shift f := entry m f (index_at v shift) in
  ∃ l1, (l3 ← get_table (at_ 39 r); l2 ← get_table (at_ 30 l3); get_table (at_ 21 l2)) = Some l1 ∧
        last_table m r (indices v) = Some (l1, index_at v 12) ∧ e = at_ 12 l1 ∧ has PRESENT e = true.
Proof.
  unfold indices. cbn [mmu last_table]. intros Hm. cbv beta zeta. destruct (has PRESENT (entry m r _)); [|done]. cbn [negb mbind option_bind] in *.
  destruct (has PRESENT (entry m (pfn (entry m r _)) _)); [|done]. cbn [negb mbind option_bind] in *.
  destruct (has PRESENT (entry m (pfn (entry m (pfn (entry m r _)) _)) _)); [|done]. cbn [negb mbind option_bind] in *.
  eexists. split_and!; [done|done| |];
  destruct (has PRESENT (entry m (pfn (entry m (pfn (entry m (pfn (entry m r _)) _)) _)) _)) eqn:E; try done; cbn in Hm; congruence.
Qed.

Lemma refs_moved (t p p' k : gmultiset Z) (o n : Z) :
  p' ⊎ {[+ o +]} = p ⊎ {[+ n +]} → ({[+ n +]} ⊎ (t ⊎ (p ⊎ k))) ∖ {[+ o +]} = t ⊎ (p' ⊎ k).
Proof. multiset_solver. Qed.

Lemma refs_cancel (p p' : gmultiset Z) (o : Z) : p' ⊎ {[+ o +]} = p ⊎ {[+ o +]} → p' = p.
Proof. multiset_solver. Qed.

Lemma set_frame_plain f i n e s :
  has HUGE_PAGE e = false → set_frame f i n (Z.setbit (flags e) WRITABLE) s = Some (set_entry f i (writable_entry n e) s).
Proof.
  intros Hh. unfold set_frame. assert (has HUGE_PAGE (Z.setbit (flags e) WRITABLE) = false) as ->; [|done].
  unfold has. rewrite Z.setbit_eqb by done. fold (has HUGE_PAGE (flags e)). by rewrite has_flags, Hh.
Qed.

Lemma set_entry_mem f i e s : mem (set_entry f i e s) = <[f * 512 + i := e]> (mem s).
Proof. done. Qed.

Lemma set_entry_allocator f i e s : allocator (set_entry f i e s) = allocator s.
Proof. done. Qed.

Section fault.
Context s (r : Z) (procs : list Z) (K : gmultiset Z) (L : list Z) (v : Z) (fl : list Z) (e l1 : Z).
Context (Hok : mem_ok (mem s) (r :: procs)) (Hv : user_addr v) (Hm : mmu (mem s) r (indices v) = Some (fl, e)).
Context (Hl : last_table (mem s) r (indices v) = Some (l1, index_at v 12)) (Hlk : leaks ((r :: procs) ≫= utabs (mem s)) K L).

Definition unchanged s' : Prop :=
  ∀ q w, q ∈ r :: procs → user_addr w → user_read q w (mem s') = user_read q w (mem s).

Definition served s' : Prop :=
  spaces_ok s' (r :: procs) K L ∧ unchanged s' ∧ ∃ e2, mmu (mem s') r (indices v) = Some (fl, e2) ∧ has WRITABLE e2 = true.

Lemma fault_frame : pfn e ∈ (r :: procs) ≫= upages (mem s) ∧ (pfn e ∉ (r :: procs) ≫= utabs (mem s)).
Proof.
  assert (pfn e ∈ (r :: procs) ≫= upages (mem s)) as Hin
    by (apply (in_pages _ _ r); [by left|]; eapply mmu_pages; [by apply indices_path|done]).
  split; [done|]. intros Ht. by apply (mo_disj _ _ Hok _ Ht).
Qed.

Lemma fault_alone :
  held (allocator s) (counted (mem s) (r :: procs) K) → (multiplicity (pfn e) (counted (mem s) (r :: procs) K) ≤ 1)%nat →
  served (set_entry l1 (index_at v 12) (writable_entry (pfn e) e) s).
Proof.
  intros Hh Hc. pose proof (indices_path v Hv) as Hp.
  destruct (install_ok (mem s) (mem s) r procs (indices v) fl e l1 (index_at v 12) (pfn e)) as (I1 & I2 & I3 & I4 & I5 & I6); try done.
  { apply pfn_range. }
  { apply fault_frame. }
  { rewrite decide_True by done. unfold counted in Hc. rewrite !multiplicity_disj_union in Hc. lia. }
  split_and!; [split; [done| |by rewrite set_entry_mem, I4]|done|by eexists]. apply refs_cancel in I5. unfold counted.
  by rewrite set_entry_mem, set_entry_allocator, I4, I5.
Qed.

Lemma fault_copy s1 n :
  mem s1 = mem s → (n ∉ counted (mem s) (r :: procs) K) → 0 ≤ n < 2 ^ 40 →
  held (allocator s1) ({[+ n +]} ⊎ counted (mem s) (r :: procs) K) →
  let s2 := copy_frame (pfn e) n s1 in
  let s3 := s2 <| allocator := dec (pfn e) (allocator s2) |> in
  entry (mem s3) l1 (index_at v 12) = e ∧ served (set_entry l1 (index_at v 12) (writable_entry n e) s3).
Proof.
  intros Hm1 Hn Hn40 Hh s2 s3. pose proof (indices_path v Hv) as Hp. destruct fault_frame as [Hin _].
  assert (∀ y j, idx j → entry (mem s3) y j = if decide (y = n) then entry (mem s) (pfn e) j else entry (mem s) y j) as He.
  { intros y j Hj. simpl. by rewrite entry_fill, Hm1. }
  assert (∀ X, (n ∉ X) → agree X (mem s) (mem s3)) as Ha.
  { intros X HX y j Hy Hj. rewrite He by done. rewrite decide_False; [done|]. by intros ->. }
  assert (n ∉ (r :: procs) ≫= utabs (mem s)) as Hnt by (intros Hx; by apply Hn, counted_tabs).
  assert (n ∉ (r :: procs) ≫= upages (mem s)) as Hnp by (intros Hx; by apply Hn, counted_pages).
  assert (∀ j, idx j → entry (mem s3) n j = entry (mem s) (pfn e) j) as Hcp by (intros j Hj; by rewrite He, decide_True).
  destruct (install_ok (mem s) (mem s3) r procs (indices v) fl e l1 (index_at v 12) n
    Hok Hp Hm Hl Hn40 Hnt (Ha _ Hnt) (Ha _ Hnp) Hcp) as (I1 & I2 & I3 & I4 & I5 & I6); [rewrite (refs_in _ n Hnp); lia|].
  assert (allocator s3 = dec (pfn e) (allocator s1)) as Hdec by done. clearbody s3.
  destruct (install_table (mem s) r (indices v) fl e l1 (index_at v 12) Hp Hm Hl) as (Hl1 & Hi & _ & Hee).
  split.
  - rewrite (Ha _ Hnt l1); [done| |done]. by apply (in_tabs _ _ r); [left|].
  - split_and!; [split; [done| |by rewrite set_entry_mem, I4]|done|by eexists]. unfold counted. rewrite set_entry_mem, set_entry_allocator, I4, <-(refs_moved _ _ _ _ _ _ I5).
    rewrite Hdec. apply dec_law; [done|]. apply gmultiset_elem_of_disj_union. right. by apply counted_pages.
Qed.
End fault.

(** A fault on a mapped page makes it writable, and changes nothing else that a
    process sees; it fails only when there is no frame for a copy. *)
Lemma fault_ok s r procs K L v fl e :
  spaces_ok s (r :: procs) K L → user_addr v → mmu (mem s) r (indices v) = Some (fl, e) →
  ∃ b s', copy_on_write_fault r v s = Some (b, s') ∧
    if b then served s r procs K L v fl s' else spaces_ok s' (r :: procs) K L ∧ unchanged s r procs s' ∧ full (allocator s').
Proof.
  intros [Hok Hh Hlk] Hv Hm. pose proof (indices_path v Hv) as Hp. destruct (walk_last _ _ _ _ _ Hm) as (l1 & Hw & Hl & He & Hpr).
  unfold copy_on_write_fault. cbv zeta. cbv beta zeta in Hw. rewrite Hw. cbv beta in He. rewrite <-He, Hpr. cbn [negb].
  pose proof (mmu_plain _ _ _ _ _ _ _ (mo_plain _ _ Hok r ltac:(by left)) Hp Hm) as Hhuge.
  rewrite entry_frame_law by done. rewrite (references_law _ _ (pfn e) Hh) by (by eapply counted_pages, fault_frame).
  destruct (Z.leb_spec (Z.of_nat (multiplicity (pfn e) (counted (mem s) (r :: procs) K))) 1) as [Hc|Hc].
  - rewrite set_frame_plain by done. eexists true, _. split; [reflexivity|]. eapply fault_alone; try done. lia.
  - pose proof (allocate_one_ok held s _ Hh) as Hal. destruct (allocate_one s) as [s1 [n|]].
    + destruct Hal as (Hn & Hn40 & Hh1 & Hm1).
      destruct (fault_copy s r procs K L v fl e l1 Hok Hv Hm Hl Hlk s1 n Hm1 Hn Hn40 Hh1) as [Hee Hs].
      rewrite Hee, set_frame_plain by done. eexists true, _. split; [reflexivity|done].
    + destruct Hal as (Hh1 & Hm1 & Hf). eexists false, s1. split; [done|].
      unfold unchanged. split_and!; [split; by rewrite Hm1|by rewrite Hm1|done].
Qed.

Definition stored s (r : Z) (procs : list Z) (v x : Z) s' : Prop :=
  ∀ q w, q ∈ r :: procs → user_addr w →
    user_read q w (mem s') = if decide (q = r ∧ w = v) then Some x else user_read q w (mem s).

Lemma try_write_ok s r procs K L v x fl e :
  spaces_ok s (r :: procs) K L → user_addr v → mmu (mem s) r (indices v) = Some (fl, e) → has WRITABLE e = true →
  ∃ s', try_write r v x s = Some s' ∧ spaces_ok s' (r :: procs) K L ∧ stored s r procs v x s'.
Proof.
  intros [Hok Hh Hlk] Hv Hm Hw. pose proof (indices_path v Hv) as Hp.
  destruct (write_word _ _ _ v x _ _ Hok Hv Hm Hw) as (Hok' & Ha & Hr). unfold try_write. rewrite Hm. cbn [mbind option_bind].
  unfold allows. cbn [fst snd]. destruct (mo_open _ _ Hok r _ _ _ ltac:(by left) Hp Hm) as (-> & -> & ->). rewrite Hw.
  eexists. split; [reflexivity|]. split; [|done].
  destruct (same_lists _ _ _ Ha) as [Ht Hpg]. split; [done| |]; unfold counted; change (mem (s <| mem := ?m |>)) with m; by rewrite Ht, ?Hpg.
Qed.

Lemma try_write_none s r v x fl e :
  mmu (mem s) r (indices v) = Some (fl, e) → has WRITABLE e = false → try_write r v x s = None.
Proof. intros Hm Hw. unfold try_write. rewrite Hm. cbn [mbind option_bind]. unfold allows.
  cbn [fst snd]. by rewrite Hw, !andb_false_r. Qed.

(** A program's write changes one word of its own memory, or nothing. *)
Lemma write_ok s r procs K L v x :
  spaces_ok s (r :: procs) K L → user_addr v →
  ∃ o s', user_write r v x s = Some (o, s') ∧ spaces_ok s' (r :: procs) K L ∧
    match o with
    | Done => is_Some (user_read r v (mem s)) ∧ stored s r procs v x s'
    | Segv => unchanged s r procs s' ∧ (user_read r v (mem s) = None ∨ full (allocator s'))
    | FaultsAgain => False
    end.
Proof.
  intros Hs Hv. pose proof (indices_path v Hv) as Hp. unfold user_write. destruct (mmu (mem s) r (indices v)) as [[fl e]|] eqn:Hm.
  2: { unfold try_write. rewrite Hm. eexists Segv, s. split_and!; [done|done|done|]. left. rewrite user_read_entry. by rewrite Hm. }
  assert (is_Some (user_read r v (mem s))) as Hsome.
  { rewrite user_read_entry, Hm. cbn [mbind option_bind]. unfold allows. cbn [fst snd].
    destruct (mo_open _ _ (sp_mem _ _ _ _ Hs) r _ _ _ ltac:(by left) Hp Hm) as (-> & _ & ->). by eexists. }
  destruct (has WRITABLE e) eqn:Hw.
  { destruct (try_write_ok s r procs K L v x fl e) as (s' & -> & Hs' & Hst); try done. by eexists Done, s'. }
  rewrite (try_write_none s r v x fl e) by done. destruct (fault_ok s r procs K L v fl e) as (b & s1 & -> & Hb); try done.
  cbn [mbind option_bind]. destruct b; cbn [negb].
  - destruct Hb as (Hs1 & Hun & e2 & Hm2 & Hw2). destruct (try_write_ok s1 r procs K L v x fl e2) as (s' & -> & Hs' & Hst); try done.
    eexists Done, s'. split_and!; try done. intros q w Hq Hw'. rewrite (Hst q w Hq Hw'). case_decide; [done|]. by apply Hun.
  - destruct Hb as (Hs1 & Hun & Hf). eexists Segv, s1. split_and!; try done. by right.
Qed.

(** ** Exit *)

Lemma refs_freed (u p r : gmultiset Z) (f : Z) : ({[+ f +]} ⊎ u) ⊎ (p ⊎ r) = u ⊎ (p ⊎ ({[+ f +]} ⊎ r)).
Proof. multiset_solver. Qed.

Lemma refs_drop (r : gmultiset Z) (f : Z) : ({[+ f +]} ⊎ r) ∖ {[+ f +]} = r.
Proof. multiset_solver. Qed.

Lemma refs_first (a b p q r : gmultiset Z) : (a ⊎ b) ⊎ ((p ⊎ q) ⊎ r) = a ⊎ (p ⊎ (b ⊎ (q ⊎ r))).
Proof. multiset_solver. Qed.

(** [inner] gives back what is below an entry, which leads to a tree of [k] levels. *)
Definition cleans (k : nat) (inner : Z → Machine A → Machine A) : Prop :=
  ∀ e s R, has PRESENT e = true → has HUGE_PAGE e = false → plain k all_entries (mem s) (pfn e) →
  held (allocator s) (refs (tabs k all_entries (mem s) (pfn e)) ⊎ (refs (pages k all_entries (mem s) (pfn e)) ⊎ R)) →
  mem (inner e s) = mem s ∧ held (allocator (inner e s)) R.

Lemma cleanup_slots_ok k huge inner f l s R :
  cleans k inner → plain (S k) l (mem s) f →
  held (allocator s) (refs (under (mem s) f l (tabs k all_entries (mem s))) ⊎ (refs (under (mem s) f l (pages k all_entries (mem s))) ⊎ R)) →
  let s' := foldl (cleanup_slot huge inner f) s l in mem s' = mem s ∧ held (allocator s') R.
Proof.
  intros Hin. revert s R. induction l as [|i l IH]; intros s R Hp Hh; cbn [foldl].
  { split; [done|]. change (held (allocator s) (∅ ⊎ (∅ ⊎ R))) in Hh. by rewrite !(left_id_L ∅ (⊎)) in Hh. }
  assert (plain (S k) l (mem s) f) as Hpl by (intros j Hj; apply Hp; by right).
  rewrite (under_app (mem s) f i l), (under_app (mem s) f i l), !list_to_set_disj_app, refs_first in Hh.
  unfold cleanup_slot at 2 4. destruct (has PRESENT (entry (mem s) f i)) eqn:He; cbn [negb].
  2: { rewrite !under_absent in Hh by done. cbn [list_to_set_disj] in Hh. rewrite !(left_id_L ∅ (⊎)) in Hh. by apply IH. }
  destruct (Hp i ltac:(by left) He) as [Hh' Hp']. rewrite Hh', andb_false_r. rewrite !under_present in Hh by done.
  destruct (Hin _ s _ He Hh' Hp' Hh) as [Hm1 Hh1]. destruct (IH (inner (entry (mem s) f i) s) R) as [Hm2 Hh2].
  - by rewrite Hm1.
  - by rewrite Hm1.
  - by rewrite Hm2.
Qed.

Lemma free_table_ok k huge inner f l s R :
  cleans k inner → plain (S k) l (mem s) f →
  held (allocator s) (refs (tabs (S k) l (mem s) f) ⊎ (refs (pages (S k) l (mem s) f) ⊎ R)) →
  let s' := free_table f (foldl (cleanup_slot huge inner f) s l) in mem s' = mem s ∧ held (allocator s') R.
Proof.
  intros Hin Hp Hh. cbn [tabs list_to_set_disj] in Hh. rewrite refs_freed in Hh.
  destruct (cleanup_slots_ok k huge inner f l s _ Hin Hp Hh) as [Hm Hh']. split; [done|].
  unfold free_table. change (allocator (?s <| allocator := ?a |>)) with a. rewrite <-(refs_drop R f).
  apply dec_law; [done|]. apply gmultiset_elem_of_disj_union. left. by apply gmultiset_elem_of_singleton.
Qed.

Lemma cleans_page : cleans 0 dec_entry.
Proof.
  intros e s R He Hhuge _ Hh. unfold dec_entry. rewrite entry_frame_law by done. split; [done|].
  change (allocator (?s <| allocator := ?a |>)) with a. cbn [tabs pages list_to_set_disj] in Hh.
  rewrite (left_id_L ∅ (⊎)), (right_id_L ∅ (⊎)) in Hh. rewrite <-(refs_drop R (pfn e)).
  apply dec_law; [done|]. apply gmultiset_elem_of_disj_union. left. by apply gmultiset_elem_of_singleton.
Qed.

Lemma cleans_l1 : cleans 1 cleanup_l1.
Proof.
  intros e s R He Hhuge Hp Hh. unfold cleanup_l1.
  assert (∀ l s, foldl (λ s i, free_page s (entry (mem s) (pfn e) i)) s l = foldl (cleanup_slot false dec_entry (pfn e)) s l) as ->.
  { induction l as [|i l IH]; intros s0; [done|]. cbn [foldl]. rewrite IH.
    assert (cleanup_slot false dec_entry (pfn e) s0 i = free_page s0 (entry (mem s0) (pfn e) i)) as ->; [|done].
    unfold cleanup_slot, free_page. by destruct (has PRESENT (entry (mem s0) (pfn e) i)). }
  by apply (free_table_ok 0 false dec_entry (pfn e) all_entries s R cleans_page).
Qed.

Lemma cleans_l2 : cleans 2 cleanup_l2.
Proof. intros e s R He Hhuge. apply (free_table_ok 1 true cleanup_l1 (pfn e) all_entries s R cleans_l1). Qed.

Lemma cleans_l3 : cleans 3 cleanup_l3.
Proof. intros e s R He Hhuge. apply (free_table_ok 2 true cleanup_l2 (pfn e) all_entries s R cleans_l2). Qed.

Lemma exit_ok s r procs K L :
  spaces_ok s (r :: procs) K L →
  let s' := free_table r (cleanup r s) in spaces_ok s' procs K L ∧ mem s' = mem s.
Proof.
  intros [Hok Hh [Hnd Hin Hsz Hap]]. pose proof Hh as Hh0. unfold counted in Hh.
  rewrite !bind_cons, !list_to_set_disj_app, refs_first in Hh.
  destruct (free_table_ok 3 false cleanup_l3 r user_entries s _ cleans_l3 (mo_plain _ _ Hok r ltac:(by left)) Hh) as [Hm Hh'].
  change (free_table r (foldl (cleanup_slot false cleanup_l3 r) s user_entries)) with (cleanup r s) in Hm, Hh'.
  assert (r ∈ (r :: procs) ≫= utabs (mem s)) as Hr by (apply (in_tabs _ _ r); by left).
  assert (r ∉ procs ≫= utabs (mem s)) as Hnt.
  { pose proof (mo_tabs _ _ Hok) as Ht. rewrite bind_cons in Ht. apply NoDup_app in Ht as (_ & Hd & _). apply Hd. by left. }
  assert (r ∉ procs ≫= upages (mem s)) as Hnp.
  { intros Hp. apply (mo_disj _ _ Hok r Hr). rewrite bind_cons, elem_of_app. by right. }
  cbv zeta. generalize dependent (cleanup r s). intros s1 Hm Hh1.
  assert (mem (free_table r s1) = mem s) as Hm' by exact Hm. split; [|done]. split; rewrite ?Hm'.
  - by eapply mem_ok_tail.
  - cbn [allocator free_table set_field]. apply dec_none_law; [done| |].
    + eapply held_range; [exact Hh0|]. by apply counted_tabs.
    + unfold counted. rewrite !gmultiset_elem_of_disj_union, !elem_of_list_to_set_disj.
      intros [?|[?|HK]]; [done|done|]. by apply (Hap r HK).
  - split; [|done|done|].
    + rewrite bind_cons in Hnd. apply NoDup_app in Hnd as (HL & Hd & HT). apply NoDup_app in HT as (_ & _ & HT).
      apply NoDup_app. split_and!; [done| |done]. intros x Hx Hx'. apply (Hd x Hx), elem_of_app. by right.
    + intros x Hx Hx'. apply (Hap x Hx). rewrite bind_cons, elem_of_app. by right.
Qed.

(** ** Runs

    Processes are named by their L4 tables. *)

Record System := mkSystem {
  machine : Machine A;
  live : list Z;
}.

Inductive action :=
| New (config : AddressSpaceConfig) (cr3 rand : Z)
| Fork (r : Z)
| Clone (space : AddressSpace)
| Write (r v x : Z)
| Read (r v : Z)
| Exit (r : Z).

Inductive outcome :=
| Created (r : Z)
| Forked (child : Z)
| NoMemory
| Written
| Killed
| Loops
| Value (x : option Z)
| Exited.

(** [None]: the kernel panics. An exit cleans the address space up and drops it, which
    drops the reference of the L4 frame a second time. *)
Definition step (a : action) (σ : System) : option (outcome * System) :=
  match a with
  | New config cr3 rand =>
    match AddressSpace_new config cr3 rand (machine σ) with
    | (Ok a, s) => Some (Created (l4_frame a), mkSystem s (l4_frame a :: live σ))
    | (Err _, s) => Some (NoMemory, mkSystem s (live σ))
    end
  | Clone space =>
    match AddressSpace_clone_cow space (machine σ) with
    | (Ok a, s) => Some (Forked (l4_frame a), mkSystem s (l4_frame a :: live σ))
    | (Err _, s) => Some (NoMemory, mkSystem s (live σ))
    end
  | Fork r =>
    match clone_page_tables_cow r (machine σ) with
    | (Ok c, s) => Some (Forked c, mkSystem s (c :: live σ))
    | (Err _, s) => Some (NoMemory, mkSystem s (live σ))
    end
  | Write r v x =>
    '(o, s) ← user_write r v x (machine σ);
    Some (match o with Done => Written | Segv => Killed | FaultsAgain => Loops end, mkSystem s (live σ))
  | Read r v => Some (Value (user_read r v (mem (machine σ))), σ)
  | Exit r => Some (Exited, mkSystem (free_table r (cleanup r (machine σ))) (filter (λ q, q ≠ r) (live σ)))
  end.

(** Actions are those of living processes, on their own half of the addresses. *)
Definition valid (a : action) (σ : System) : Prop :=
  match a with
  | New _ _ _ => True
  | Fork r | Exit r => r ∈ live σ
  | Clone space => l4_frame space ∈ live σ
  | Write r v _ | Read r v => r ∈ live σ ∧ user_addr v
  end.

(** No frame can be allocated. *)
Definition exhausted (σ : System) : bool := match (allocate (allocator (machine σ))).2 with None => true | Some _ => false end.

Inductive runs : list (action * bool * outcome) → System → System → Prop :=
| runs_nil σ : runs [] σ σ
| runs_snoc tr σ σ1 σ2 a o : runs tr σ σ1 → valid a σ1 → step a σ1 = Some (o, σ2) → runs (tr ++ [(a, exhausted σ2, o)]) σ σ2.

(** The specification: every process has a memory, and nobody shares. A write to
    an address that is mapped fails only if there is no frame left, and so does a
    fork. *)
Inductive spec_step : action → bool → outcome → Memories → Memories → Prop :=
| spec_new (M : Memories) config cr3 rand r full : M !! r = None → spec_step (New config cr3 rand) full (Created r) M (<[r := λ _, None]> M)
| spec_new_fails M config cr3 rand : spec_step (New config cr3 rand) true NoMemory M M
| spec_clone (M : Memories) a c g full : M !! l4_frame a = Some g → M !! c = None → spec_step (Clone a) full (Forked c) M (<[c := g]> M)
| spec_clone_fails M a : spec_step (Clone a) true NoMemory M M
| spec_fork (M : Memories) r c g full : M !! r = Some g → M !! c = None → spec_step (Fork r) full (Forked c) M (<[c := g]> M)
| spec_fork_fails M r : spec_step (Fork r) true NoMemory M M
| spec_write (M : Memories) r v x g full : M !! r = Some g → is_Some (g v) →
    spec_step (Write r v x) full Written M (<[r := λ w, if decide (w = v) then Some x else g w]> M)
| spec_write_unmapped (M : Memories) r v x g full : M !! r = Some g → g v = None → spec_step (Write r v x) full Killed M M
| spec_write_fails M r v x : spec_step (Write r v x) true Killed M M
| spec_read (M : Memories) r v g full : M !! r = Some g → spec_step (Read r v) full (Value (g v)) M M
| spec_exit M r full : spec_step (Exit r) full Exited M (delete r M).

Inductive spec_runs : list (action * bool * outcome) → Memories → Memories → Prop :=
| spec_nil M : spec_runs [] M M
| spec_snoc tr M M1 M2 a full o : spec_runs tr M M1 → spec_step a full o M1 M2 → spec_runs (tr ++ [(a, full, o)]) M M2.

(** The machine has the memories [M]. *)
Definition represents (σ : System) (M : Memories) : Prop :=
  (∃ K L, spaces_ok (machine σ) (live σ) K L) ∧ (∀ r, r ∈ live σ ↔ is_Some (M !! r)) ∧
  ∀ r g v, M !! r = Some g → user_addr v → user_read r v (mem (machine σ)) = g v.

Lemma live_first σ M r :
  represents σ M → r ∈ live σ → ∃ procs K L g, live σ ≡ₚ r :: procs ∧ spaces_ok (machine σ) (r :: procs) K L ∧ M !! r = Some g.
Proof.
  intros ((K & L & Hs) & Hdom & _) Hr. destruct (proj1 (Hdom r) Hr) as [g Hg].
  apply elem_of_Permutation in Hr as [procs Hp]. exists procs, K, L, g. split_and!; [done|by eapply spaces_ok_perm|done].
Qed.

(** A new process [c] with the memory [g], when the others see what they saw. *)
Lemma represents_new σ M s' c g K L :
  represents σ M → (c ∉ live σ) → spaces_ok s' (c :: live σ) K L →
  (∀ q v, q ∈ live σ → user_addr v → user_read q v (mem s') = user_read q v (mem (machine σ))) →
  (∀ v, user_addr v → user_read c v (mem s') = g v) → represents (mkSystem s' (c :: live σ)) (<[c := g]> M).
Proof.
  intros (_ & Hdom & Hrd) Hc Hs Hun Hch. split_and!.
  - by exists K, L.
  - intros q. cbn [live]. rewrite elem_of_cons, Hdom. destruct (decide (q = c)) as [->|Hne].
    { rewrite lookup_insert_eq. split; [done|auto]. }
    { rewrite lookup_insert_ne by done. naive_solver. }
  - intros q h v Hq Hv. cbn [machine]. destruct (decide (q = c)) as [->|Hne].
    { rewrite lookup_insert_eq in Hq. injection Hq as <-. by apply Hch. }
    rewrite lookup_insert_ne in Hq by done. rewrite Hun; [by apply Hrd| |done]. apply Hdom. by eexists.
Qed.

Lemma represents_same σ M s' K L :
  represents σ M → spaces_ok s' (live σ) K L →
  (∀ q v, q ∈ live σ → user_addr v → user_read q v (mem s') = user_read q v (mem (machine σ))) → represents (mkSystem s' (live σ)) M.
Proof.
  intros (_ & Hdom & Hrd) Hs Hun. split_and!; [by exists K, L|done|]. intros q h v Hq Hv. cbn [machine].
  rewrite Hun; [by apply Hrd| |done]. apply Hdom. by eexists.
Qed.

Lemma exhausted_full s l : full (allocator s) → exhausted (mkSystem s l) = true.
Proof. intros Hf. unfold exhausted. cbn [machine]. by rewrite Hf. Qed.

(** Both ways to clone. *)
Lemma step_clone {E} (no_memory : E) share σ M r :
  represents σ M → r ∈ live σ →
  let '(res, s') := clone_tables no_memory share r (machine σ) in
  match res with
  | Ok c => ∃ g, M !! r = Some g ∧ M !! c = None ∧ represents (mkSystem s' (c :: live σ)) (<[c := g]> M)
  | Err _ => exhausted (mkSystem s' (live σ)) = true ∧ represents (mkSystem s' (live σ)) M
  end.
Proof.
  intros HM Hr. destruct (live_first σ M r HM Hr) as (procs & K & L & g & Hp & Hs & Hg).
  pose proof (clone_ok no_memory share _ _ _ _ _ Hs) as Hf. destruct (clone_tables _ _ r (machine σ)) as [[c|e] s'].
  - destruct Hf as (Hun & Hc & Hs' & Hch). rewrite <-Hp in Hc. exists g. split_and!; [done| |].
    + apply eq_None_not_Some. destruct HM as (_ & Hdom & _). by rewrite <-Hdom.
    + apply (represents_new _ _ _ _ _ K L HM Hc).
      * eapply spaces_ok_perm; [|exact Hs']. by rewrite Hp.
      * intros q v. rewrite Hp. apply Hun.
      * intros v Hv. rewrite (Hch v Hv). by apply HM.
  - destruct Hf as (Hun & -> & Hfull & K' & L' & Hs'). split; [by apply exhausted_full|].
    apply (represents_same _ _ _ K' L' HM); [by eapply spaces_ok_perm|]. intros q v. rewrite Hp. apply Hun.
Qed.

Lemma step_new σ M config cr3 rand :
  represents σ M →
  ∃ o σ' M', step (New config cr3 rand) σ = Some (o, σ') ∧ spec_step (New config cr3 rand) (exhausted σ') o M M' ∧ represents σ' M'.
Proof.
  intros HM. pose proof HM as ((K & L & Hs) & Hdom & _). pose proof (new_ok _ _ _ _ config cr3 rand Hs) as Hn. cbn [step].
  destruct (AddressSpace_new config cr3 rand (machine σ)) as [[a|e] s']; destruct Hn as [Hun Hn].
  - destruct Hn as (Hc & Hs' & Hrd). eexists _, _, (<[l4_frame a := λ _, None]> M). split_and!; [reflexivity| |].
    + apply spec_new, eq_None_not_Some. by rewrite <-Hdom.
    + by apply (represents_new _ _ _ _ _ K L HM Hc Hs').
  - destruct Hn as (-> & Hf & Hs'). eexists _, _, M. split_and!; [reflexivity| |by apply (represents_same _ _ _ K L HM)].
    rewrite exhausted_full by done. apply spec_new_fails.
Qed.

Lemma step_fork σ M r :
  represents σ M → r ∈ live σ →
  ∃ o σ' M', step (Fork r) σ = Some (o, σ') ∧ spec_step (Fork r) (exhausted σ') o M M' ∧ represents σ' M'.
Proof.
  intros HM Hr. pose proof (step_clone PeOutOfMemory (λ e, e) σ M r HM Hr) as Hc. cbn [step]. unfold clone_page_tables_cow.
  destruct (clone_tables PeOutOfMemory _ r (machine σ)) as [[c|e] s'].
  - destruct Hc as (g & Hg & Hn & HM'). eexists _, _, _. split_and!; [reflexivity|by apply spec_fork|done].
  - destruct Hc as [He HM']. eexists _, _, M. split_and!; [reflexivity|rewrite He; apply spec_fork_fails|done].
Qed.

Lemma step_clone_cow σ M a :
  represents σ M → l4_frame a ∈ live σ →
  ∃ o σ' M', step (Clone a) σ = Some (o, σ') ∧ spec_step (Clone a) (exhausted σ') o M M' ∧ represents σ' M'.
Proof.
  intros HM Hr. cbn [step]. unfold AddressSpace_clone_cow. set (share := λ e : Z, set_addr _ _).
  pose proof (step_clone OutOfMemory share σ M (l4_frame a) HM Hr) as Hc.
  destruct (clone_tables OutOfMemory share (l4_frame a) (machine σ)) as [[c|e] s'].
  - destruct Hc as (g & Hg & Hn & HM'). eexists _, _, _. split_and!; [reflexivity|by apply spec_clone|done].
  - destruct Hc as [He HM']. eexists _, _, M. split_and!; [reflexivity|rewrite He; apply spec_clone_fails|done].
Qed.

Lemma step_write σ M r v x :
  represents σ M → r ∈ live σ → user_addr v →
  ∃ o σ' M', step (Write r v x) σ = Some (o, σ') ∧ spec_step (Write r v x) (exhausted σ') o M M' ∧ represents σ' M'.
Proof.
  intros HM Hr Hv. destruct (live_first σ M r HM Hr) as (procs & K & L & g & Hp & Hs & Hg). destruct HM as (_ & Hdom & Hrd).
  assert (∀ q h, M !! q = Some h → q ∈ r :: procs) as Hin by (intros q h Hq; rewrite <-Hp; apply Hdom; by eexists).
  destruct (write_ok _ _ _ _ _ v x Hs Hv) as (o & s' & Hw & Hs' & Ho). cbn [step]. rewrite Hw. cbn [mbind option_bind].
  rewrite (Hrd r g v Hg Hv) in Ho. destruct o; [| |done].
  - destruct Ho as [Hgv Hst]. eexists _, _, _. split_and!; [reflexivity|by apply spec_write|]. split_and!.
    + exists K, L. by eapply spaces_ok_perm.
    + intros q. cbn [live]. rewrite Hdom. destruct (decide (q = r)) as [->|Hne]; [by rewrite lookup_insert_eq, Hg|].
      by rewrite lookup_insert_ne.
    + intros q h w Hq Hw'. cbn [machine]. destruct (decide (q = r)) as [->|Hne].
      * rewrite lookup_insert_eq in Hq. injection Hq as <-. rewrite (Hst r w ltac:(by left) Hw').
        destruct (decide (w = v)) as [->|Hne]; [by rewrite decide_True|]. rewrite decide_False by tauto. by apply Hrd.
      * rewrite lookup_insert_ne in Hq by done. rewrite Hst by (done || by eapply Hin). rewrite decide_False by tauto. by apply Hrd.
  - destruct Ho as [Hun Hwhy]. eexists _, _, M. split_and!; [reflexivity| |].
    + destruct Hwhy as [Hnone|Hfull]; [by eapply spec_write_unmapped|].
      replace (exhausted _) with true; [apply spec_write_fails|]. unfold exhausted. cbn [machine]. by rewrite Hfull.
    + split_and!; [exists K, L; by eapply spaces_ok_perm|done|]. intros q h w Hq Hw'. cbn [machine].
      rewrite Hun by (done || by eapply Hin). by apply Hrd.
Qed.

Lemma filter_absent (r : Z) (l : list Z) : (r ∉ l) → filter (λ q, q ≠ r) l = l.
Proof.
  induction l as [|q l IH]; intros Hr; [done|]. apply not_elem_of_cons in Hr as [Hq Hr].
  rewrite filter_cons_True by congruence. by rewrite IH.
Qed.

Lemma step_exit σ M r :
  represents σ M → r ∈ live σ →
  ∃ o σ' M', step (Exit r) σ = Some (o, σ') ∧ spec_step (Exit r) (exhausted σ') o M M' ∧ represents σ' M'.
Proof.
  intros HM Hr. destruct (live_first σ M r HM Hr) as (procs & K & L & g & Hp & Hs & Hg). destruct HM as (_ & Hdom & Hrd).
  destruct (exit_ok _ _ _ _ _ Hs) as [Hs' Hm]. eexists _, _, _. split_and!; [reflexivity|apply spec_exit|].
  assert (r ∉ procs) as Hnr.
  { intros Hin. pose proof (mo_tabs _ _ (sp_mem _ _ _ _ Hs)) as Hnd. rewrite bind_cons in Hnd. apply NoDup_app in Hnd as (_ & Hd & _).
    apply (Hd r); [by left|]. apply (in_tabs _ _ r); [done|by left]. }
  assert (filter (λ q, q ≠ r) (live σ) ≡ₚ procs) as Hf.
  { rewrite Hp, filter_cons_False by (intros ?; done). by rewrite filter_absent. }
  split_and!.
  - exists K, L. eapply spaces_ok_perm; [|exact Hs']. cbn [live]. by rewrite Hf.
  - intros q. cbn [live]. rewrite list_elem_of_filter, Hdom. destruct (decide (q = r)) as [->|Hne].
    + rewrite lookup_delete_eq. split; [by intros [? _]|by intros [? ?]].
    + rewrite lookup_delete_ne by done. tauto.
  - intros q h v Hq Hv. apply lookup_delete_Some in Hq as [_ Hq]. cbn [machine]. rewrite Hm. by apply Hrd.
Qed.

Lemma step_ok σ M a :
  represents σ M → valid a σ →
  ∃ o σ' M', step a σ = Some (o, σ') ∧ spec_step a (exhausted σ') o M M' ∧ represents σ' M'.
Proof.
  intros HM Hv. destruct a as [config cr3 rand|r|a|r v x|r v|r]; cbn [valid] in Hv.
  - by apply step_new.
  - by apply step_fork.
  - by apply step_clone_cow.
  - destruct Hv as [? ?]. by apply step_write.
  - destruct Hv as [Hr Hv]. destruct (live_first σ M r HM Hr) as (_ & _ & _ & g & _ & _ & Hg).
    eexists _, _, M. split_and!; [reflexivity| |done]. destruct HM as (_ & _ & Hrd). rewrite (Hrd r g v Hg Hv). by apply spec_read.
  - by apply step_exit.
Qed.

(** C13: A machine whose memory and reference counts are consistent runs any
    sequence of new address spaces, forks, clones, reads, writes and exits as if
    each process had a memory of its own: a new one maps nothing, a child starts
    with a copy of what its parent sees, a write is seen by the process that made
    it and by no other, a write to a mapped address or a fork fails only when no
    frame is left, no access faults for ever, and whatever happened, the next
    action does not panic the kernel. *)
Theorem fork_isolates (σ0 σ : System) (M0 : Memories) tr :
  represents σ0 M0 → runs tr σ0 σ →
  (∃ M, spec_runs tr M0 M ∧ represents σ M) ∧ ∀ a, valid a σ → is_Some (step a σ).
Proof.
  intros HM Hr. assert (∃ M, spec_runs tr M0 M ∧ represents σ M) as Hsim.
  { induction Hr as [σ|tr σ σ1 σ2 a o Hr IH Hv Hst]; [by eexists; split; [constructor|]|].
    destruct (IH HM) as (M1 & Hsp & HM1). destruct (step_ok σ1 M1 a HM1 Hv) as (o' & σ' & M' & Hst' & Hss & HM').
    rewrite Hst in Hst'. injection Hst' as <- <-. exists M'. split; [by econstructor|done]. }
  split; [done|]. destruct Hsim as (M & _ & HM'). intros a Ha.
  destruct (step_ok σ M a HM' Ha) as (o & σ' & _ & Hst & _). by eexists.
Qed.
End system.
