(* ===== verification/CowAlloc.v ===== *)
(** * Fork over the kernel's frame allocator.

    The allocator of [FrameAlloc] has what the page tables need of it
    ([kernel_frames_laws]), so [fork_isolates] holds of a kernel that uses it; a run
    of one process that forks, after which both write, shows it at work. *)

From Stdlib Require Import ZArith Lia Bool.
From stdpp Require Import base gmap sets gmultiset numbers list.
From S2P Require Import Prelude FrameAlloc Paging CowTree CowFork CowSystem.

Local Open Scope Z_scope.

#[export] Instance kernel_frames : Frames FrameAllocator := {
  allocate a :=
    let '(a', r) := FrameAlloc.allocate_one a in
    (a', match r with Ok f => Some (phys_frame_to_index f) | Err _ => None end);
  inc f a := (inc_ref (phys_frame_from_index f) a).1;
  dec f a := (free_frame (phys_frame_from_index f) a).1;
  references f a := get_ref (phys_frame_from_index f) a;
}.

(** The references of a run that started with the bitmap [a0] and the frames [E] of the heap. *)
Definition frames_held (a0 : RawBitmapAllocator) (E : gset Z) (a : FrameAllocator) (R : gmultiset Z) : Prop :=
  refs_inv a0 E a R ∧ ∀ i, i ∈ R → is_free a0 i = true.

Lemma frames_held_range a0 E a R f : frames_held a0 E a R → f ∈ R → 0 ≤ f < MAX_FRAMES.
Proof. intros [Hi _] Hf. pose proof (ri_dom _ _ _ _ Hi f Hf). destruct (ri_wf _ _ _ _ Hi) as [_ ?]. lia. Qed.

Lemma frames_held_index a0 E a R f : frames_held a0 E a R → f ∈ R → phys_frame_to_index (phys_frame_from_index f) = f.
Proof. intros Hh Hf. by eapply frame_index_roundtrip, frames_held_range. Qed.

Lemma allocate_again (a a' : FrameAllocator) e :
  initialised a = true → FrameAlloc.allocate_one a = (a', Err e) → ∃ a2, FrameAlloc.allocate_one a' = (a2, Err e).
Proof.
  unfold FrameAlloc.allocate_one. intros Hin Ha. rewrite Hin in Ha. cbn [negb] in Ha.
  assert (alloc_frame (raw a) = (raw a, None)) as Hno.
  { unfold alloc_frame in *. destruct (find_free (raw a) (next_hint (raw a)) _); [cbv zeta in Ha; case_match; discriminate|].
    destruct (find_free (raw a) 0 _); [cbv zeta in Ha; case_match; discriminate|done]. }
  rewrite Hno in Ha. injection Ha as <- <-. simpl. rewrite Hin, Hno. by eexists.
Qed.

#[export] Instance kernel_frames_laws a0 E : FramesLaws FrameAllocator (frames_held a0 E).
Proof.
  split.
  - intros a R f Hh Hf. change (2 ^ 19) with MAX_FRAMES. by eapply frames_held_range.
  - intros a R [Hi HR]. cbn [allocate kernel_frames].
    destruct (allocate_one_inv _ _ _ _ Hi) as [(a' & Heq & Hi' & _)|(a' & f & Heq & Hf & Hf0 & Hi')]; rewrite Heq.
    + split; [done|]. destruct (allocate_again a a' OutOfFrames (ri_init _ _ _ _ Hi) Heq) as [a2 Ha2].
      cbn [allocate kernel_frames]. by rewrite Ha2.
    + split; [done|]. split; [done|]. intros i [->%gmultiset_elem_of_singleton|]%gmultiset_elem_of_disj_union; auto.
  - intros a R f [Hi HR] Hf Hlt. pose proof (frames_held_index a0 E a R f (conj Hi HR) Hf) as Hx. cbn [inc kernel_frames].
    destruct (inc_ref_inv _ _ _ _ (phys_frame_from_index f) Hi) as (a' & -> & Hi'); rewrite ?Hx in *; [done|done|].
    split; [done|]. intros i [->%gmultiset_elem_of_singleton|]%gmultiset_elem_of_disj_union; auto.
  - intros a R f [Hi HR] Hf. pose proof (frames_held_index a0 E a R f (conj Hi HR) Hf) as Hx. cbn [dec kernel_frames].
    destruct (free_frame_inv _ _ _ _ (phys_frame_from_index f) Hi HR) as (a' & -> & Hi'); rewrite ?Hx in *; [done|].
    split; [done|]. intros i [? _]%elem_of_del. auto.
  - intros a R f [Hi HR] Hr Hf. split; [|done]. cbn [dec kernel_frames]. unfold free_frame, dec_ref.
    cbn [initialised metric HEAP_READY set_field]. rewrite (ri_init _ _ _ _ Hi), (ri_ready _ _ _ _ Hi). cbn [negb].
    rewrite frame_index_roundtrip by done. change (rc_len (metric _ a)) with (rc_len a). change (rc_get (metric _ a)) with (rc_get a).
    destruct (_ <=? _); [by apply refs_inv_metric|]. rewrite (ri_count _ _ _ _ Hi) by lia.
    rewrite (proj1 (not_elem_of_multiplicity f R) Hf). by apply refs_inv_metric.
  - intros a R f [Hi HR] Hf. pose proof (frames_held_index a0 E a R f (conj Hi HR) Hf) as Hx. cbn [references kernel_frames].
    unfold get_ref. rewrite (ri_ready _ _ _ _ Hi), Hx. cbn [negb]. apply (ri_count _ _ _ _ Hi). by apply (ri_dom _ _ _ _ Hi).
Qed.

(** ** A process with one page *)

(** [PageTableEntry::frame] for the example. *)
Definition ex_entry_frame : EntryFrame :=
  {| entry_frame e := if has PRESENT e && negb (has HUGE_PAGE e) then Some (pfn e) else None |}.
#[export] Existing Instance ex_entry_frame.

#[export] Instance ex_entry_frame_law : EntryFrameLaw.
Proof. split. intros e Hp Hh. cbn [entry_frame ex_entry_frame]. by rewrite Hp, Hh. Qed.

Definition cow_boot : FrameAllocator := mark_heap_ready early_start.

Fixpoint allocated (n : nat) : FrameAllocator :=
  match n with O => cow_boot | S n' => (allocate (allocated n')).1 end.

(** Table 256 leads through 257, 258 and 259 to page 260, with user and writable
    flags all the way; the first word of the page is 42. *)
Definition ex_mem : Mem :=
  list_to_map [(256 * 512, 257 * 4096 + 7); (257 * 512, 258 * 4096 + 7); (258 * 512, 259 * 4096 + 7);
               (259 * 512, 260 * 4096 + 7); (260 * 512, 42)].

Definition ex_start : System := mkSystem (mkMachine ex_mem (allocated 5)) [256].

Definition ex_memories : Memories := {[256 := λ v, user_read 256 v ex_mem]}.

Lemma allocated_held n : (n ≤ 5)%nat →
  frames_held (raw cow_boot) ∅ (allocated n) (refs (reverse (seqZ 256 (Z.of_nat n)))).
Proof.
  assert (∀ k, (k < 5)%nat → (allocate (allocated k)).2 = Some (256 + Z.of_nat k)) as Hk.
  { intros k Hlt. do 5 (destruct k as [|k]; [vm_compute; reflexivity|]). lia. }
  induction n as [|n IH]; intros Hn.
  - split; [|intros i Hi; by apply gmultiset_not_elem_of_empty in Hi].
    apply (boot_inv small_config 0 small_regions 0); [vm_compute; split; discriminate|vm_compute; reflexivity].
  - specialize (IH ltac:(lia)). pose proof (allocate_law _ _ IH) as Hl. specialize (Hk n ltac:(lia)). cbn [allocated].
    destruct (allocate (allocated n)) as [a o]. cbn [snd] in Hk. subst o. destruct Hl as [_ Hl].
    by rewrite seqZ_S, reverse_app.
Qed.

(** Its tables have their first entry only. *)
Lemma ex_first t i : t ∈ [256; 257; 258; 259] → i ∈ all_entries → has PRESENT (entry ex_mem t i) = true → i = 0.
Proof.
  intros Ht Hi Hp. assert (forallb (λ t, forallb (λ i, negb (has PRESENT (entry ex_mem t i)) || (i =? 0)) all_entries)
    [256; 257; 258; 259] = true) as Hall by (vm_compute; reflexivity).
  rewrite forallb_forall in Hall. specialize (Hall t (proj1 (list_elem_of_In _ _) Ht)). cbv beta in Hall.
  rewrite forallb_forall in Hall. specialize (Hall i (proj1 (list_elem_of_In _ _) Hi)). cbv beta in Hall.
  rewrite Hp in Hall. cbn [negb orb] in Hall. lia.
Qed.

Lemma user_all i : i ∈ user_entries → i ∈ all_entries.
Proof. intros Hi%elem_of_seqZ. apply elem_of_seqZ. lia. Qed.

Lemma ex_lists : [256] ≫= utabs ex_mem = [256; 257; 258; 259] ∧ [256] ≫= upages ex_mem = [260].
Proof. split; vm_compute; reflexivity. Qed.

Lemma ex_step k l t t' i path fl e :
  (∀ i, i ∈ l → i ∈ all_entries) → t ∈ [256; 257; 258; 259] → pfn (entry ex_mem t 0) = t' →
  path_ok (S (S k)) l (i :: path) → mmu ex_mem t (i :: path) = Some (fl, e) →
  i = 0 ∧ path_ok (S k) all_entries path ∧ ∃ fl', mmu ex_mem t' path = Some (fl', e).
Proof.
  intros Hl Ht Hn Hp Hm. destruct (mmu_inv _ _ _ _ _ _ _ _ Hp Hm) as (He & fl' & Hm' & _). destruct Hp as [Hi Hp].
  pose proof (ex_first t i Ht (Hl i Hi) He) as ->. rewrite Hn in Hm'. eauto.
Qed.

Lemma ex_path path fl e :
  path_ok 4 user_entries path → mmu ex_mem 256 path = Some (fl, e) → path = [0; 0; 0; 0].
Proof.
  intros Hp Hm. destruct path as [|i1 [|i2 [|i3 [|i4 [|]]]]]; try (cbn [path_ok] in Hp; tauto).
  destruct (ex_step 2 _ 256 257 _ _ _ _ user_all ltac:(by left) eq_refl Hp Hm) as (-> & Hp1 & fl1 & Hm1).
  destruct (ex_step 1 _ 257 258 _ _ _ _ (λ i H, H) ltac:(right; by left) eq_refl Hp1 Hm1) as (-> & Hp2 & fl2 & Hm2).
  destruct (ex_step 0 _ 258 259 _ _ _ _ (λ i H, H) ltac:(do 2 right; by left) eq_refl Hp2 Hm2) as (-> & Hp3 & fl3 & Hm3).
  destruct (mmu_inv _ _ _ _ _ _ _ _ Hp3 Hm3) as (He & _).
  by rewrite (ex_first 259 i4 ltac:(do 3 right; by left) (proj1 Hp3) He).
Qed.

Lemma ex_plain_step k l t t' :
  (∀ i, i ∈ l → i ∈ all_entries) → t ∈ [256; 257; 258; 259] → pfn (entry ex_mem t 0) = t' →
  has HUGE_PAGE (entry ex_mem t 0) = false → plain k all_entries ex_mem t' → plain (S k) l ex_mem t.
Proof. intros Hl Ht Hn Hh Hp i Hi He. rewrite (ex_first t i Ht (Hl i Hi) He), Hn. done. Qed.

Lemma ex_plain : plain 4 user_entries ex_mem 256.
Proof.
  apply (ex_plain_step 3 _ 256 257 user_all); [by left|reflexivity|reflexivity|].
  apply (ex_plain_step 2 _ 257 258 (λ i H, H)); [right; by left|reflexivity|reflexivity|].
  apply (ex_plain_step 1 _ 258 259 (λ i H, H)); [do 2 right; by left|reflexivity|reflexivity|].
  apply (ex_plain_step 0 _ 259 260 (λ i H, H)); [do 3 right; by left|reflexivity|reflexivity|done].
Qed.

Lemma ex_mem_ok : mem_ok ex_mem [256].
Proof.
  split; rewrite ?(proj1 ex_lists), ?(proj2 ex_lists).
  - repeat (apply NoDup_cons; split; [rewrite ?elem_of_cons, elem_of_nil; lia|]). constructor.
  - intros x Hx Hx'%list_elem_of_singleton. subst. rewrite !elem_of_cons, elem_of_nil in Hx. lia.
  - intros r ->%list_elem_of_singleton. apply ex_plain.
  - intros r path fl e ->%list_elem_of_singleton Hpath Hm. pose proof (ex_path _ _ _ Hpath Hm) as ->.
    vm_compute in Hm. injection Hm as <- <-. split_and!; reflexivity.
  - intros r path fl e ->%list_elem_of_singleton Hpath Hm _. pose proof (refs_length [260] (pfn e)). cbn [length] in *. lia.
Qed.

Lemma ex_represents : represents (frames_held (raw cow_boot) ∅) ex_start ex_memories.
Proof.
  split_and!.
  - exists ∅, []. split; cbn [machine live ex_start mem allocator].
    + apply ex_mem_ok.
    + unfold counted. rewrite (proj1 ex_lists), (proj2 ex_lists). pose proof (allocated_held 5 ltac:(lia)) as Hh.
      replace (refs (reverse (seqZ 256 (Z.of_nat 5)))) with
        (refs [256; 257; 258; 259] ⊎ (refs [260] ⊎ ∅)) in Hh; [exact Hh|].
      rewrite (right_id_L ∅ (⊎)), <-list_to_set_disj_app. apply list_to_set_disj_perm. symmetry. apply reverse_Permutation.
    + rewrite (proj1 ex_lists). split; [|intros x Hx; by apply elem_of_nil in Hx|intros x; rewrite multiplicity_empty; cbn; lia|by intros x Hx%gmultiset_not_elem_of_empty].
      rewrite <-(proj1 ex_lists). apply ex_mem_ok.
  - intros r. cbn [live ex_start]. unfold ex_memories. rewrite list_elem_of_singleton, lookup_singleton_is_Some. by split; intros ->.
  - intros r g v Hg _. unfold ex_memories in Hg. by apply lookup_singleton_Some in Hg as [<- <-].
Qed.

Definition validb (a : action) (σ : @System FrameAllocator) : bool :=
  match a with
  | New _ _ _ => true
  | Fork r | Exit r => bool_decide (r ∈ live σ)
  | Clone space => bool_decide (l4_frame space ∈ live σ)
  | Write r v _ | Read r v => bool_decide (r ∈ live σ) && ((0 <=? v) && (v <? 2 ^ 47) && (v `mod` 8 =? 0))
  end.

Lemma validb_ok a σ : validb a σ = true → valid a σ.
Proof.
  destruct a as [config cr3 rand|r|a|r v x|r v|r]; cbn [validb valid]; try (by intros ?%bool_decide_eq_true); [done|..];
    intros [Hr%bool_decide_eq_true Hv]%andb_true_iff; split; try done; unfold user_addr; lia.
Qed.

(** What happens in a sequence of actions, as far as they are valid. *)
Fixpoint trace (l : list action) (σ : @System FrameAllocator) : list (action * bool * outcome) * @System FrameAllocator :=
  match l with
  | [] => ([], σ)
  | a :: l' =>
    match step a σ with
    | Some (o, σ') => if validb a σ then let '(tr, σ'') := trace l' σ' in ((a, exhausted σ', o) :: tr, σ'') else ([], σ)
    | None => ([], σ)
    end
  end.

Lemma runs_app tr1 tr2 (σ0 σ1 σ2 : @System FrameAllocator) : runs tr1 σ0 σ1 → runs tr2 σ1 σ2 → runs (tr1 ++ tr2) σ0 σ2.
Proof.
  intros H1 H2. induction H2 as [|tr σ σ' σ2 a o H2 IH Hv Hs]; [by rewrite app_nil_r|]. rewrite app_assoc. eapply runs_snoc; eauto.
Qed.

Lemma trace_runs l σ : runs (trace l σ).1 σ (trace l σ).2.
Proof.
  revert σ. induction l as [|a l IH]; intros σ; cbn [trace]; [constructor|].
  destruct (step a σ) as [[o σ']|] eqn:Hs; [|constructor]. destruct (validb a σ) eqn:Hv; [|constructor].
  specialize (IH σ'). destruct (trace l σ') as [tr σ'']. cbn [fst snd] in *.
  apply (runs_app [_] tr σ σ' σ''); [|done]. apply (runs_snoc [] σ σ σ' a o); [constructor|by apply validb_ok|done].
Qed.

(** The process forks, the child overwrites the word, the parent reads it, both
    write, the child reads, the parent exits, and the child goes on. *)
Definition ex_actions : list action :=
  [Fork 256; Write 261 0 7; Read 256 0; Write 256 0 9; Read 261 0; Exit 256; Read 261 0; Write 261 4096 1].

Definition ex_trace : list (action * bool * outcome) :=
  [(Fork 256, false, Forked 261); (Write 261 0 7, false, Written); (Read 256 0, false, Value (Some 42));
   (Write 256 0 9, false, Written); (Read 261 0, false, Value (Some 7)); (Exit 256, false, Exited);
   (Read 261 0, false, Value (Some 7)); (Write 261 4096 1, false, Killed)].

Lemma fork_isolates_witness : ∃ M, spec_runs ex_trace ex_memories M.
Proof.
  destruct (fork_isolates (frames_held (raw cow_boot) ∅) ex_start (trace ex_actions ex_start).2 ex_memories ex_trace ex_represents)
    as [(M & HM & _) _]; [|by exists M].
  assert ((trace ex_actions ex_start).1 = ex_trace) as <- by (vm_compute; reflexivity). apply trace_runs.
Defined.
